(* ===== verification/_CoqProject ===== *)
-Q . S2P
Prelude.v
Coding.v
SkipList.v
Arena.v
Comparator.v
Cursor.v
NovaCommon.v
DbFormat.v
UserScan.v
Merger.v
MergeIter.v
TwoLevel.v
DbIter.v
MemTable.v
Block.v
Bloom.v
FilterBlock.v
Crc32c.v
Format.v
TableBuilder.v
LogFormat.v
LruCache.v
MemManager.v
AtomicMemTable.v
FlushOrder.v
LookupIndex.v
Subrange.v
FileMeta.v
Filename.v
PersistentStoC.v
Table.v
StorageSelector.v
StoCFile.v
Scatter.v
TableStore.v
VersionEdit.v
FileSearch.v
VersionBuilder.v
VersionSet.v
Recovery.v
Migration.v
CompactionPick.v
Compaction.v
TableJob.v
VersionGet.v
RangeIndex.v
Database.v
DatabaseInv.v
DatabaseProps.v
