(* ===== verification/Prelude.v ===== *)
(** * NovaLSM: a verification library for the LSM-tree component store

    NovaLSM is a key-value store derived from LevelDB and split into
    components: an LTC (LSM-tree component) serves requests, keeps memtables
    and decides on compactions; a StoC (storage component) stores tables, logs
    and manifests; both talk over RDMA.  This library models the part of the
    store on which durability and the correctness of lookups rest, and proves
    it correct: key and message formats, memtables, tables from their builder
    through the storage components to a lookup, the files of a version, the
    edits that change it, its recovery and migration, the lifetime of versions,
    the choice of compactions that run in parallel, the compactions and flushes
    themselves, scans over merged tables, and the concurrent writes, flushes and
    lookups of a database.

    ** Files and sources

    - [Prelude]: machine integers with explicit wrap, byte strings, the result
      type [res] and the [parser] type of decoders, tactics, hints, shared
      lemmas.
    - [Coding]: [util/coding.h], [util/coding.cc].
    - [SkipList]: [db/skiplist.h], [util/random.h]; [Arena]: [util/arena.h],
      [util/arena.cc].
    - [Comparator]: [include/leveldb/slice.h], [include/leveldb/comparator.h],
      [util/comparator.cc].  The interface is the class [Comparator], its
      contract [ComparatorOrder] and [ComparatorLaws]; the other files are
      proved against the classes.
    - [Cursor]: the iterator interface [include/leveldb/iterator.h] as the
      operations [IterOps] with the contract [Cursor].
    - [NovaCommon]: [common/nova_common.h], [common/nova_common.cpp], the replay
      loop of [log/log_recovery.cpp], the key comparator of [ltc/db_helper.h].
    - [DbFormat]: internal keys, [db/dbformat.h] and [db/dbformat.cc].
    - [UserScan]: scans that skip to the next user key, as iterators over
      lists; [Merger], [MergeIter]: [table/merger.cc] with
      [table/iterator_wrapper.h] and [table/iterator.cc]; [TwoLevel]:
      [table/two_level_iterator.cc]; [DbIter]: [db/db_iter.cc].
    - [MemTable]: memtables of [db/memtable.h] and [db/memtable.cc];
      [AtomicMemTable]: their reference counted slots; [LookupIndex]:
      [db/lookup_index.cpp]; [FlushOrder]: [db/flush_order.cpp].
    - [LruCache]: [util/cache.cc]; [MemManager]: the slab allocator,
      [common/nova_mem_manager.cpp].
    - [LogFormat]: [db/log_writer.cc] and [db/log_reader.cc], against the
      interfaces [WritableFile] and [SequentialFile] of their files.
    - [Block]: [table/block_builder.cc], [table/block.cc]; [Bloom]:
      [util/hash.cc], [util/bloom.cc] and the filter policy of internal keys;
      [FilterBlock]: [table/filter_block.cc]; [Crc32c]: [util/crc32c.cc];
      [Format]: [table/format.cc].
    - [TableBuilder]: [table/table_builder.cc] over the writable file
      interface; [Table]: [table/table.cc] over the reader of a StoC file.
    - [Filename]: [db/filename.cc] and the numbers of [util/logging.cc].
    - [PersistentStoC]: [stoc/persistent_stoc_file.cpp] and the local path of
      [StoCBlockClient] in [ltc/stoc_client_impl.cpp].
    - [StorageSelector]: [ltc/storage_selector.cpp].
    - [StoCFile]: [ltc/stoc_file_client_impl.cpp], the writer that scatters a
      table over storage components and the reader, against the interface
      [BlockStore] of the components.
    - [Scatter], [TableStore]: proofs that join [TableBuilder], [StoCFile],
      [PersistentStoC] and [Table].
    - [Subrange]: [include/leveldb/subrange.h], [db/subrange.cpp].
    - [FileMeta]: table metadata and compaction requests,
      [include/leveldb/db_types.h], [db/dbformat.cc],
      [stoc/persistent_stoc_file.cpp].
    - [VersionEdit]: [db/version_edit.h], [db/version_edit.cc].
    - [FileSearch], [VersionBuilder], [VersionSet], [Recovery], [Migration],
      [CompactionPick]: the parts of [db/version_set.h] and
      [db/version_set.cc], in this order: search in the files of a version;
      [Builder] and the version part of [LogAndApply]; [AtomicVersion] and the
      list of versions; [AppendChangesToManifest] and [Recover];
      [Version::Encode], [Version::Decode] and [Restore];
      [ComputeNonOverlappingSet].
    - [Compaction]: [db/compaction.cpp] and [CompactionState] of
      [db/compaction.h], against the interface [TableWriter] of the tables it
      writes; [TableJob]: the instance of that interface on storage components,
      and [BuildTable] of [db/builder.cc].
    - [VersionGet]: the two overloads of [Version::Get] of
      [db/version_set.cc], against the interface [TableReads] of the tables.
    - [RangeIndex]: [db/range_index.cpp], with the scans that hold its versions.
    - [Database]: the paths of [db/db_impl.cc] that writes, flushes and lookups
      take ([WriteStaticPartition], [ScheduleFlushMemTableTask],
      [PerformCompaction], [GetWithLookupIndex], [DB::Open]) as steps of threads,
      against the interface [TableStorage]; [DatabaseInv]: their invariant;
      [DatabaseProps]: the theorems and an example run.

    A write path through the model: an entry is added to a [MemTable]; a flush
    ([TableJob]) or a compaction ([Compaction]) chosen by [CompactionPick]
    writes its entries with [TableBuilder] into a file of [StoCFile], whose fragments and metadata are
    appended to the files of [PersistentStoC]; the new table is recorded in a
    [VersionEdit]; [Recovery] appends it to the manifest;
    [VersionBuilder] applies it to the current version; [VersionSet] installs
    the result, while readers hold older versions, [FileSearch] finds the
    tables of a key in them, and [Table] the entry.  A scan merges the iterators
    of memtables and tables ([MergeIter]) and shows the newest version of each
    user key ([DbIter]).

    ** Conventions

    Definitions carry the names of the source; a method of a class is
    prefixed by the class where the name alone would be ambiguous.  An object
    that is mutated is passed and returned.  An encoder is the list of bytes
    it stores.  A decoder is a [parser]: it takes the remaining bytes and
    returns a [res] and the new rest.  [Ret] is success, [Fail] the error the
    source reports (a [false] result or a bad [Status]), and [Abort] a failed
    [NOVA_ASSERT] or [assert], a read outside a buffer, or the use of a freed
    object.  Pointers to file metadata are the records they point to.
    Pointers to versions are ids into an explicit heap ([VersionSet]), because
    the claim there is that none dangles.

    ** What the theorems show

    - Formats.  Everything written is read back: varints, decimal numbers,
      internal keys, request headers, log records, subranges, table metadata,
      compaction requests, edits, versions, lookup and range indexes; and
      [log_survives_cut] reads a log that was cut anywhere.  Where a decoder
      goes wrong the theorem says on which inputs ([log_replay],
      [compaction_request_roundtrip], [version_edit_ids_accumulate]).
    - Orders.  The bytewise comparator meets the contract; decimal keys are
      ordered by value; internal keys by user key, then newest first;
      separators stay in their interval.
    - Memory.  [skiplist_insert_refines] and [skiplist_iterator_refines] show
      that a skip list is a sorted set, [arena_regions_disjoint] that its memory
      is never handed out twice, [memtable_get_newest] that a memtable answers
      snapshot reads, [memtable_slot_alive] that a reader keeps its memtable,
      [lru_cache_refines] that the cache keeps what is held and evicts the least
      recently used, [mem_manager_disjoint] that the slab allocator hands out
      disjoint items and loses none.
    - Tables.  A block is read back by its iterator whatever its moves
      ([block_iterator_refines]); filters hide no key
      ([filter_block_no_false_negatives]); the
      optimised checksum is CRC-32C ([crc32c_reference]);
      [stored_table_found] composes the builder, the scattering client, the
      storage components and the reader: what is added is found, at every
      replica.
    - Scans.  [merging_iterator_refines] shows that the merge of any number of
      iterators is the iterator over the merged entries, in both directions and
      with any change between them; [db_iter_scan] that a forward scan shows the
      newest version of each user key; [db_iter_shows_hidden] where it does not.
    - Search.  Binary searches over subranges and files terminate with the
      right index; a lookup key sees exactly its snapshot; a sorted level
      yields the file with the newest visible entry; overlap tests agree with
      the exhaustive one.
    - Versions.  [log_and_apply_refines] gives the success condition and the
      resulting files of an edit against the abstract levels [edited_levels],
      [log_and_apply_preserves] the invariant [version_ok].
    - Durability.  [manifest_recovery] composes the writer, the codec, the
      builder and the reader; [version_migration_roundtrip] and
      [restore_installs] are the counterpart between servers.
    - Lifetime.  The threads are a step relation; [sys_ok] is an invariant of
      every reachable state, from which [versions_never_dangle],
      [obsolete_versions_exact] and [compaction_collects_safely] follow.
      [range_index_keeps_memtables] is the same for range indexes and their
      memtables, [range_index_read_after_free] the place where it fails.
    - Compactions.  [overlapping_files_closed] and [nonoverlapping_sets] show
      that compactions that run at the same time are independent;
      [compaction_keeps_reads] that a compaction stores its tables and changes
      nothing that a snapshot from the smallest one on can read;
      [flush_stores_table] the same of a flush.
    - Concurrency.  [db_inv] of [DatabaseInv] is an invariant of the threads of
      a database: which memtable or table holds the last write of a key while
      memtables fill up, rotate and are flushed and versions replace each other.
      [lookups_regular], [completed_writes_found] and [lookup_finishes] follow
      from it.  [version_get_levels] says which level a lookup answers from,
      [flush_order_forgets] what the flush order loses.

    ** Bounds and fuel

    Loops that are not structural take fuel, and the function that starts the
    loop passes a bound that the theorems show to be enough: the number of
    bits or digits of an integer, the length of the searched list, the number
    of files or of input bytes.  The loop of [Recover] is the exception: the
    source loop has inputs on which it does not end, so its fuel is an
    argument, [None] is running out of it, [manifest_recovery] holds for any
    fuel above the number of edits, and [recover_exact_end_diverges] holds for
    every fuel.  The 64 sets of [ComputeNonOverlappingSet] are a bound of the
    source.  The loops of iterators, compactions and flushes take the number of
    rounds as an argument, and the theorems hold for any number above that of
    the entries.  Integers wrap at their width where the source computes with
    them; [VersionSet] assumes fewer references than an [int] counts,
    [Database] at most 2^30 lookups and 2^31 writes, [MemManager] slabs below 4 GB
    and a pool below 2^50 bytes, [LogFormat] files below 2^63 bytes, and
    [RangeIndex] fewer named memtables than a [uint32_t] counts.

    ** Parameters

    [std::sort] is a function of which only the permutation property is used.
    [new] returns fresh aligned memory ([new_ok] of [Arena]); the memory that
    a storage component asks for is given or refused ([alloc] of
    [PersistentStoC], a parameter there).  The Snappy and the accelerated
    CRC-32C libraries are arguments; the tables of the theorems are not
    compressed.  The random numbers and queue lengths that the storage
    selector sees are arguments, the theorems hold for all of them.  The
    configuration (number of levels, sizes, limits) is an argument.
    [Database] takes building and reading a table as [TableStorage] with the
    contract [TableStorageOk], and the hash of a key as an argument.

    ** Not modelled

    RDMA transport, sockets, files and environments, floating point statistics
    (and with them the subrange manager), benchmarks.  What a thread of
    [db/db_impl.cc] does under one lock is one step of [Database] and
    [VersionSet]; of the locks only [mutex_], which an install holds over
    several steps, is part of the state.  Of that file the memtable pool,
    deletions, lookups through the range index, major compactions, log records
    and the encoding of memtables for migration are left out; the theorems on
    lookups are for keys with one spelling that do not share an entry of the
    lookup index.  The iterators over a range index are left out.  The parity
    fragment is written by the model and not used by a reader in the sources
    either.  Write batches, the table cache and the writer of replicated logs
    are the next parts to add. *)

From stdpp Require Export list gmap strings sorting.
From Stdlib Require Export ZArith Lia.

#[global] Open Scope Z_scope.

(** ** Machine integers

    A C++ [uintN_t] is a [Z] kept in range by an explicit wrap. *)

Definition w8 (z : Z) : Z := z mod 2 ^ 8.
Definition w32 (z : Z) : Z := z mod 2 ^ 32.
Definition w64 (z : Z) : Z := z mod 2 ^ 64.

Definition is_u8 (z : Z) : Prop := 0 <= z < 2 ^ 8.
Definition is_u32 (z : Z) : Prop := 0 <= z < 2 ^ 32.
Definition is_u64 (z : Z) : Prop := 0 <= z < 2 ^ 64.

(** A byte string: [std::string], [Slice] and the contents of a [char]
    buffer are lists of bytes, each byte an unsigned [Z]. *)
Abbreviation bytes := (list Z).

(** Length of a byte string as a C++ size. *)
Abbreviation size_of s := (Z.of_nat (length s)).

Create HintDb nova discriminated.
Create Rewrite HintDb nova.

Lemma w8_range z : is_u8 (w8 z).
Proof. apply Z.mod_pos_bound. lia. Qed.

Lemma w32_range z : is_u32 (w32 z).
Proof. apply Z.mod_pos_bound. lia. Qed.

Lemma w64_range z : is_u64 (w64 z).
Proof. apply Z.mod_pos_bound. lia. Qed.

Lemma w8_small z : is_u8 z → w8 z = z.
Proof. apply Z.mod_small. Qed.

Lemma w32_small z : is_u32 z → w32 z = z.
Proof. apply Z.mod_small. Qed.

Lemma w64_small z : is_u64 z → w64 z = z.
Proof. apply Z.mod_small. Qed.

#[export] Hint Resolve w8_range w32_range w64_range : nova.

(** Evaluates the closed powers of two of the goal and the hypotheses. *)
Ltac pow2_consts :=
  repeat match goal with
  | |- context [2 ^ ?n] =>
      let r := eval vm_compute in (2 ^ n) in
      lazymatch r with Zpos _ => change (2 ^ n) with r end
  | H : context [2 ^ ?n] |- _ =>
      let r := eval vm_compute in (2 ^ n) in
      lazymatch r with Zpos _ => change (2 ^ n) with r in H end
  end.

(** Discharges range side conditions on machine integers. *)
Ltac mlia := unfold is_u8, is_u32, is_u64 in *; pow2_consts; lia.

(** The same for goals with divisions and remainders by constants. *)
Ltac dlia := unfold is_u8, is_u32, is_u64 in *; pow2_consts; Z.div_mod_to_equations; lia.

(** Discharges decidable facts about literals: conjunctions, [Forall] and
    comparisons, all evaluated first. *)
Ltac lit :=
  cbv beta;
  lazymatch goal with
  | |- _ ∧ _ => split; lit
  | |- Forall _ ?l =>
      let l' := eval vm_compute in l in
      change l with l'; repeat (apply Forall_cons; split); [lit..|apply Forall_nil_2]
  | |- _ => vm_compute; repeat split; discriminate
  end.

(** [Z.lor] of a value below [2^s] and a value shifted above it is a sum. *)
Lemma lor_shiftl_add r x s :
  0 <= s → 0 <= r < 2 ^ s → Z.lor r (x ≪ s) = r + x * 2 ^ s.
Proof.
  intros Hs Hr. rewrite <- Z.shiftl_mul_pow2 by lia.
  symmetry. apply Z.add_nocarry_lor, Z.bits_inj'. intros i Hi.
  rewrite Z.land_spec, Z.shiftl_spec, Z.bits_0 by lia.
  destruct (decide (i < s)).
  - rewrite (Z.testbit_neg_r x) by lia. apply andb_false_r.
  - rewrite <- (Z.mod_small r (2 ^ s)) by lia.
    by rewrite Z.mod_pow2_bits_high by lia.
Qed.

Lemma land_pow2_ones z n : 0 <= n → Z.land z (2 ^ n - 1) = z mod 2 ^ n.
Proof. intros. rewrite <- Z.land_ones, Z.ones_equiv by lia. done. Qed.

Lemma land_255 z : Z.land z 255 = w8 z.
Proof. apply (land_pow2_ones z 8). lia. Qed.

(** Splitting off the low bits of a shifted value. *)
Lemma mod_pow2_split z a b :
  0 <= a → 0 <= b → z mod 2 ^ (a + b) = z mod 2 ^ a + (z ≫ a) mod 2 ^ b * 2 ^ a.
Proof.
  intros Ha Hb. rewrite Z.shiftr_div_pow2, Z.pow_add_r by lia.
  rewrite Z.rem_mul_r by lia. lia.
Qed.

(** ** Outcomes

    A decoder of the source returns [true] with its outputs set, returns
    [false], or aborts the process on a failed [NOVA_ASSERT] (which is active
    in every build) or [assert]. *)

Inductive res (A : Type) : Type :=
| Ret (a : A)
| Fail
| Abort.
Arguments Ret {_} _.
Arguments Fail {_}.
Arguments Abort {_}.

#[export] Instance res_eq_dec {A} `{EqDecision A} : EqDecision (res A).
Proof. solve_decision. Defined.

#[export] Instance res_ret : MRet res := λ A a, Ret a.
#[export] Instance res_bind : MBind res := λ A B f r,
  match r with Ret a => f a | Fail => Fail | Abort => Abort end.

(** A decoder over a [Slice *]: it reads the slice and leaves it advanced,
    also when it fails half way. *)
Definition parser (A : Type) : Type := bytes → res A * bytes.

Definition pret {A} (a : A) : parser A := λ s, (Ret a, s).
Definition pbind {A B} (p : parser A) (f : A → parser B) : parser B := λ s,
  match p s with
  | (Ret a, s') => f a s'
  | (Fail, s') => (Fail, s')
  | (Abort, s') => (Abort, s')
  end.

Declare Scope nova_scope.
Delimit Scope nova_scope with nova.
Notation "'let!' x := p 'in' q" := (pbind p (λ x, q))
  (at level 10, x binder, p at level 100, q at level 200,
   format "'let!'  x  :=  p  'in' '//' q") : nova_scope.
#[global] Open Scope nova_scope.

Definition pfail {A} : parser A := λ s, (Fail, s).
Definition pabort {A} : parser A := λ s, (Abort, s).

(** [NOVA_ASSERT(Decode...(input, &x))]: a decoder whose failure aborts. *)
Definition must {A} (p : parser A) : parser A := λ s,
  match p s with
  | (Fail, s') => (Abort, s')
  | r => r
  end.

(** [for (int i = 0; i < n; i++)] around a decoder that appends its result. *)
Fixpoint repeatP {A} (n : nat) (p : parser A) : parser (list A) :=
  match n with
  | O => pret []
  | S n => let! x := p in let! xs := repeatP n p in pret (x :: xs)
  end.

(** [parses p bs v]: on any input that starts with [bs] the decoder [p]
    consumes exactly [bs] and returns [v]. *)
Definition parses {A} (p : parser A) (bs : bytes) (v : A) : Prop :=
  ∀ rest, p (bs ++ rest) = (Ret v, rest).

Lemma filter_ext_in {A} (P Q : A → Prop) `{∀ x, Decision (P x), ∀ x, Decision (Q x)} (l : list A) :
  (∀ x, x ∈ l → P x ↔ Q x) → filter P l = filter Q l.
Proof.
  induction l as [|x l IH]; intros Heq; [done|]. rewrite !filter_cons.
  rewrite IH by (intros y Hy; apply Heq; by right).
  pose proof (Heq x ltac:(by left)). repeat case_decide; tauto || done.
Qed.

Lemma res_bind_Ret {A B} (r : res A) (k : A → res B) b :
  (r ≫= k) = Ret b ↔ ∃ a, r = Ret a ∧ k a = Ret b.
Proof.
  split; [destruct r as [a'| |]; cbn; [by eauto|done..]|].
  by intros (a' & -> & ?).
Qed.

Lemma parses_ret {A} (v : A) : parses (pret v) [] v.
Proof. done. Qed.

Lemma parses_bind {A B} (p : parser A) (f : A → parser B) bs1 bs2 v w :
  parses p bs1 v → parses (f v) bs2 w → parses (pbind p f) (bs1 ++ bs2) w.
Proof.
  intros Hp Hf rest. unfold pbind. rewrite <- (assoc_L (++)), Hp. apply Hf.
Qed.

(** The last decoder of a sequence, whose bytes are not followed by others. *)
Lemma parses_bind_last {A B} (p : parser A) (f : A → parser B) bs v w :
  parses p bs v → parses (f v) [] w → parses (pbind p f) bs w.
Proof.
  intros Hp Hf. rewrite <- (app_nil_r bs). by eapply parses_bind.
Qed.

Lemma parses_must {A} (p : parser A) bs v : parses p bs v → parses (must p) bs v.
Proof. intros Hp rest. unfold must. by rewrite Hp. Qed.

Lemma parses_repeat {A} (p : parser A) (enc : A → bytes) (vs : list A) :
  Forall (λ v, parses p (enc v) v) vs →
  parses (repeatP (length vs) p) (vs ≫= enc) vs.
Proof.
  induction 1 as [|v vs Hv Hvs IH]; [apply parses_ret|].
  cbn. eapply parses_bind; [done|]. eapply parses_bind_last; [done|]. apply parses_ret.
Qed.

#[export] Hint Resolve parses_ret parses_must : nova.

(** Runs a sequence of decoders against the concatenation of their
    encodings; the encodings' round trips come from the [nova] database. *)
Ltac parse_step :=
  first
    [ apply parses_ret
    | eapply parses_bind; [solve [eauto with nova]|]; cbn beta
    | eapply parses_bind_last; [solve [eauto with nova]|]; cbn beta ].
Ltac parse_solve := repeat parse_step.

(** ** Byte buffers *)

(** [buf[i]] of a buffer read inside its bounds. *)
Definition byte_at (s : bytes) (i : nat) : Z := default 0 (s !! i).

(** ** Ordered sets

    A [std::set] of numbers is an increasing list. *)

Fixpoint set_insert (x : Z) (s : list Z) : list Z :=
  match s with
  | [] => [x]
  | y :: s' => if decide (x < y) then x :: s else if decide (x = y) then s else y :: set_insert x s'
  end.

Lemma set_insert_elem x y s : y ∈ set_insert x s ↔ y = x ∨ y ∈ s.
Proof.
  induction s as [|z s IH]; cbn; [rewrite elem_of_cons; tauto|].
  repeat case_decide; rewrite ?elem_of_cons, ?IH; subst; tauto.
Qed.

Lemma set_insert_sorted x s : StronglySorted Z.lt s → StronglySorted Z.lt (set_insert x s).
Proof.
  induction 1 as [|y s Hs IH Hy]; cbn; [repeat constructor|].
  repeat case_decide; [|by constructor|].
  - constructor; [by constructor|]. constructor; [done|]. eapply Forall_impl; [done|]. cbn. lia.
  - constructor; [done|]. apply Forall_forall. intros z [->|Hz]%set_insert_elem; [lia|].
    rewrite Forall_forall in Hy. by apply Hy.
Qed.

(** Inserting a larger element appends it. *)
Lemma set_insert_last x s : Forall (λ y, y < x) s → set_insert x s = s ++ [x].
Proof. induction 1 as [|y s Hy Hs IH]; cbn; [done|]. by rewrite !decide_False, IH by lia. Qed.

Lemma foldl_set_insert_sorted_app s ids :
  StronglySorted Z.lt (s ++ ids) → foldl (λ s mid, set_insert mid s) s ids = s ++ ids.
Proof.
  revert s. induction ids as [|x ids IH]; intros s Hs; cbn; [by rewrite app_nil_r|].
  rewrite set_insert_last.
  - rewrite IH; by rewrite <- (assoc_L (++)).
  - apply StronglySorted_app in Hs as (Hlt & _ & _). apply Forall_forall. set_solver.
Qed.

Lemma foldl_set_insert_sorted ids :
  StronglySorted Z.lt ids → foldl (λ s mid, set_insert mid s) [] ids = ids.
Proof. apply (foldl_set_insert_sorted_app []). Qed.

(** ** Small list facts shared by the components *)

Lemma take_app_exact {A} (l k : list A) n : n = length l → take n (l ++ k) = l.
Proof. intros ->. apply take_app_length. Qed.

Lemma drop_app_exact {A} (l k : list A) n : n = length l → drop n (l ++ k) = k.
Proof. intros ->. apply drop_app_length. Qed.

Lemma concat_fmap_bind {A B} (f : A → list B) (l : list A) : concat (f <$> l) = l ≫= f.
Proof. induction l as [|x l IH]; cbn; [done|]. by rewrite IH. Qed.

Lemma foldl_rev {A B} (f : A → B → A) a (l : list B) :
  foldl f a (rev l) = foldr (λ x acc, f acc x) a l.
Proof. induction l as [|x l IH]; cbn; [done|]. by rewrite foldl_app, IH. Qed.

Lemma filter_all {A} (P : A → Prop) `{∀ x, Decision (P x)} (l : list A) :
  Forall P l → filter P l = l.
Proof. induction 1 as [|x l Hx _ IH]; [done|]. by rewrite filter_cons_True, IH. Qed.

Lemma filter_none {A} (P : A → Prop) `{∀ x, Decision (P x)} (l : list A) :
  Forall (λ x, ¬ P x) l → filter P l = [].
Proof. induction 1 as [|x l Hx _ IH]; [done|]. by rewrite filter_cons_False, IH. Qed.

Lemma filter_split_perm {A} (P : A → Prop) `{∀ x, Decision (P x)} (l : list A) :
  filter P l ++ filter (λ x, ¬ P x) l ≡ₚ l.
Proof.
  induction l as [|x l IH]; [done|]. rewrite !filter_cons. destruct (decide (P x)).
  - rewrite (decide_False (P := ¬ P x)) by tauto. cbn. by constructor.
  - rewrite (decide_True (P := ¬ P x)) by done. rewrite <- Permutation_middle. by constructor.
Qed.

Lemma StronglySorted_lookup {A} (R : A → A → Prop) (l : list A) :
  (∀ i j x y, (i < j)%nat → l !! i = Some x → l !! j = Some y → R x y) → StronglySorted R l.
Proof.
  induction l as [|a l IH]; intros H; [constructor|]. constructor.
  - apply IH. intros i j x y Hij Hx Hy. by apply (H (S i) (S j) x y); [lia|..].
  - apply Forall_forall. intros y [j Hj]%list_elem_of_lookup. by apply (H 0%nat (S j)); [lia|..].
Qed.

Lemma sorted_lookup {A} (R : A → A → Prop) (l : list A) i j x y :
  StronglySorted R l → (i < j)%nat → l !! i = Some x → l !! j = Some y → R x y.
Proof.
  intros Hs. revert i j. induction Hs as [|a l Hs IH Ha]; intros [|i] [|j] Hij; cbn; try lia; [done..| |].
  - intros [= ->] Hj. rewrite Forall_forall in Ha. by eapply Ha, list_elem_of_lookup_2.
  - apply IH. lia.
Qed.

Lemma StronglySorted_filter {A} (R : A → A → Prop) (P : A → Prop) `{∀ x, Decision (P x)} (l : list A) :
  StronglySorted R l → StronglySorted R (filter P l).
Proof.
  induction 1 as [|x l Hs IH Hx]; [constructor|]. rewrite filter_cons. case_decide; [|done].
  constructor; [done|]. rewrite Forall_forall in *. intros y [_ Hy]%list_elem_of_filter. by apply Hx.
Qed.

(** Filtering commutes with a map, for a predicate on the images. *)
Lemma fmap_filter {A B} (f : A → B) (P : B → Prop) `{∀ x, Decision (P x)}
    (Q : A → Prop) `{∀ x, Decision (Q x)} (l : list A) :
  (∀ x, x ∈ l → Q x ↔ P (f x)) → f <$> filter Q l = filter P (f <$> l).
Proof.
  induction l as [|x l IH]; intros HQ; [done|]. rewrite fmap_cons, !filter_cons.
  assert (Q x ↔ P (f x)) by (apply HQ; by left).
  rewrite <- IH by (intros y Hy; apply HQ; by right). repeat case_decide; cbn; tauto || done.
Qed.

(** The position before [i] in a sequence of [n] elements; before the first it
    is past the end. *)
Definition back_from (n i : nat) : nat := match i with O => n | S i => i end.

Lemma elem_of_concat {A} (x : A) (ls : list (list A)) : x ∈ concat ls ↔ ∃ l, x ∈ l ∧ l ∈ ls.
Proof.
  induction ls as [|l ls IH]; cbn.
  - split; [by intros ?%not_elem_of_nil|by intros (? & _ & ?%not_elem_of_nil)].
  - rewrite elem_of_app, IH. setoid_rewrite elem_of_cons. naive_solver.
Qed.

Lemma concat_nonempty_length {A} (ls : list (list A)) :
  Forall (λ l, l ≠ []) ls → (length ls <= length (concat ls))%nat.
Proof.
  induction 1 as [|l ls Hl _ IH]; cbn; [lia|]. rewrite length_app. destruct l; [done|cbn; lia].
Qed.

(** Membership in explicit lists and concatenations. *)
Ltac elem := rewrite ?elem_of_app, ?elem_of_cons in *; solve [intuition eauto].

#[export] Hint Rewrite @length_app @length_take @length_drop : nova.
