(* ===== verification/Coding.v ===== *)
(** * Coding: the endian-neutral encodings of [util/coding.h] and [util/coding.cc]

    Fixed-width integers (little endian), varints, length-prefixed slices,
    strings and booleans.  An [Encode...] function of the source stores bytes
    at [dst] and returns how many it stored: its model is the list of bytes
    stored, whose length is the returned size.  A [Decode...(Slice *, ...)]
    function is a [parser]; a decoder over a bare pointer is a function of the
    readable bytes from that pointer on. *)

From S2P Require Import Prelude.

(** ** Fixed-width integers *)

Definition EncodeFixed32 (value : Z) : bytes :=
  [w8 value; w8 (value ≫ 8); w8 (value ≫ 16); w8 (value ≫ 24)].

Definition EncodeFixed64 (value : Z) : bytes :=
  [w8 value; w8 (value ≫ 8); w8 (value ≫ 16); w8 (value ≫ 24);
   w8 (value ≫ 32); w8 (value ≫ 40); w8 (value ≫ 48); w8 (value ≫ 56)].

Definition DecodeFixed32_ptr (buffer : bytes) : Z :=
  let b i := byte_at buffer i in
  Z.lor (Z.lor (Z.lor (b 0%nat) (b 1%nat ≪ 8)) (b 2%nat ≪ 16)) (b 3%nat ≪ 24).

Definition DecodeFixed64_ptr (buffer : bytes) : Z :=
  let b i := byte_at buffer i in
  Z.lor (Z.lor (Z.lor (Z.lor (Z.lor (Z.lor (Z.lor
    (b 0%nat) (b 1%nat ≪ 8)) (b 2%nat ≪ 16)) (b 3%nat ≪ 24))
    (b 4%nat ≪ 32)) (b 5%nat ≪ 40)) (b 6%nat ≪ 48)) (b 7%nat ≪ 56).

(** [DecodeFixed32(Slice *ptr, uint32_t *n)]. *)
Definition DecodeFixed32 : parser Z := λ ptr,
  if decide (size_of ptr < 4) then (Fail, ptr)
  else (Ret (DecodeFixed32_ptr ptr), drop 4 ptr).

Definition DecodeFixed64 : parser Z := λ ptr,
  if decide (size_of ptr < 8) then (Fail, ptr)
  else (Ret (DecodeFixed64_ptr ptr), drop 8 ptr).

(** [PutFixed32(std::string *dst, value)] appends to the string. *)
Definition PutFixed32 (dst : bytes) (value : Z) : bytes := dst ++ EncodeFixed32 value.
Definition PutFixed64 (dst : bytes) (value : Z) : bytes := dst ++ EncodeFixed64 value.

(** ** Strings, slices and booleans *)

Definition EncodeStr (src : bytes) : bytes := EncodeFixed32 (size_of src) ++ src.
Definition EncodeSlice (src : bytes) : bytes := EncodeFixed32 (size_of src) ++ src.

(** [DecodeStr(const char *src, std::string *result)]: the size is not checked
    against the buffer; the appended bytes and the returned offset. *)
Definition DecodeStr_ptr (src result : bytes) : bytes * Z :=
  let size := DecodeFixed32_ptr src in
  (result ++ take (Z.to_nat size) (drop 4 src), w32 (size + 4)).

(** [DecodeSlice(const char *src)]. *)
Definition DecodeSlice (src : bytes) : bytes :=
  let size := DecodeFixed32_ptr src in take (Z.to_nat size) (drop 4 src).

(** [DecodeStr(Slice *ptr, Slice *str, bool copy)]: with or without [copy]
    the bytes of [*str] are the same. *)
Definition DecodeStr_slice : parser bytes :=
  let! n := DecodeFixed32 in
  λ ptr, if decide (size_of ptr >= n)
         then (Ret (take (Z.to_nat n) ptr), drop (Z.to_nat n) ptr)
         else (Fail, ptr).

(** [DecodeStr(Slice *src, std::string *result)] appends to [*result]. *)
Definition DecodeStr (result : bytes) : parser bytes :=
  let! size := DecodeFixed32 in
  λ src, if decide (size_of src < size) then (Fail, src)
         else (Ret (result ++ take (Z.to_nat size) src), drop (Z.to_nat size) src).

(** ['1'] and ['2']. *)
Definition EncodeBool (value : bool) : bytes := if value then [49] else [50].

(** [DecodeBool(char *dst)] aborts on any other byte. *)
Definition DecodeBool_ptr (dst : bytes) : res bool :=
  if decide (byte_at dst 0 = 49) then Ret true
  else if decide (byte_at dst 0 = 50) then Ret false
  else Abort.

(** [DecodeBool(Slice *ptr, bool *value)]: the slice moves only on success. *)
Definition DecodeBool : parser bool := λ ptr,
  match ptr with
  | [] => (Fail, ptr)
  | c :: rest =>
      if decide (c = 49) then (Ret true, rest)
      else if decide (c = 50) then (Ret false, rest)
      else (Fail, ptr)
  end.

(** ** Varints *)

(** The unrolled encoder of [EncodeVarint32]; each store truncates to a byte. *)
Definition EncodeVarint32 (v : Z) : bytes :=
  let B := 128 in
  if decide (v < 1 ≪ 7) then [w8 v]
  else if decide (v < 1 ≪ 14) then [w8 (Z.lor v B); w8 (v ≫ 7)]
  else if decide (v < 1 ≪ 21) then
    [w8 (Z.lor v B); w8 (Z.lor (v ≫ 7) B); w8 (v ≫ 14)]
  else if decide (v < 1 ≪ 28) then
    [w8 (Z.lor v B); w8 (Z.lor (v ≫ 7) B); w8 (Z.lor (v ≫ 14) B); w8 (v ≫ 21)]
  else
    [w8 (Z.lor v B); w8 (Z.lor (v ≫ 7) B); w8 (Z.lor (v ≫ 14) B);
     w8 (Z.lor (v ≫ 21) B); w8 (v ≫ 28)].

(** The loop [while (v >= B)] of [EncodeVarint64]; a 64-bit value leaves the
    loop after at most nine rounds. *)
Fixpoint EncodeVarint64_loop (fuel : nat) (v : Z) : bytes :=
  match fuel with
  | O => [w8 v]
  | S fuel =>
      if decide (v >= 128) then w8 (Z.lor v 128) :: EncodeVarint64_loop fuel (v ≫ 7)
      else [w8 v]
  end.
Definition EncodeVarint64 (v : Z) : bytes := EncodeVarint64_loop 9 v.

Fixpoint VarintLength_loop (fuel : nat) (len v : Z) : Z :=
  match fuel with
  | O => len
  | S fuel => if decide (v >= 128) then VarintLength_loop fuel (len + 1) (v ≫ 7) else len
  end.
Definition VarintLength (v : Z) : Z := VarintLength_loop 9 1 v.

Definition PutVarint32 (dst : bytes) (v : Z) : bytes := dst ++ EncodeVarint32 v.
Definition PutVarint64 (dst : bytes) (v : Z) : bytes := dst ++ EncodeVarint64 v.

(** The decoding loop: [for (shift = 0; shift <= last && p < limit; shift += 7)].
    [wrap] is the width of [result]; the bytes from [p] to [limit] are [p]. *)
Fixpoint GetVarint_loop (wrap : Z → Z) (rounds : nat) (shift result : Z) (p : bytes)
    : option (Z * bytes) :=
  match rounds, p with
  | S rounds, byte :: p =>
      if decide (Z.land byte 128 ≠ 0)
      then GetVarint_loop wrap rounds (shift + 7)
             (Z.lor result (wrap (Z.land byte 127 ≪ shift))) p
      else Some (Z.lor result (wrap (byte ≪ shift)), p)
  | _, _ => None
  end.

(** Shifts 0, 7, ..., 28. *)
Definition GetVarint32PtrFallback (p : bytes) : option (Z * bytes) :=
  GetVarint_loop w32 5 0 0 p.

(** The inlined fast path for one-byte values. *)
Definition GetVarint32Ptr (p : bytes) : option (Z * bytes) :=
  match p with
  | result :: p' =>
      if decide (Z.land result 128 = 0) then Some (result, p')
      else GetVarint32PtrFallback p
  | [] => GetVarint32PtrFallback p
  end.

(** Shifts 0, 7, ..., 63. *)
Definition GetVarint64Ptr (p : bytes) : option (Z * bytes) :=
  GetVarint_loop w64 10 0 0 p.

(** [GetVarint32(Slice *input, uint32_t *value)]: on failure the slice is unchanged. *)
Definition GetVarint32 : parser Z := λ input,
  match GetVarint32Ptr input with
  | None => (Fail, input)
  | Some (v, q) => (Ret v, q)
  end.

Definition GetVarint64 : parser Z := λ input,
  match GetVarint64Ptr input with
  | None => (Fail, input)
  | Some (v, q) => (Ret v, q)
  end.

Definition PutLengthPrefixedSlice (dst value : bytes) : bytes :=
  PutVarint32 dst (w32 (size_of value)) ++ value.

Definition GetLengthPrefixedSlice : parser bytes :=
  let! len := GetVarint32 in
  λ input, if decide (size_of input >= len)
           then (Ret (take (Z.to_nat len) input), drop (Z.to_nat len) input)
           else (Fail, input).

(** [GetLengthPrefixedSlice(const char *p, const char *limit, Slice *result)]. *)
Definition GetLengthPrefixedSlice_ptr (p : bytes) : option (bytes * bytes) :=
  match GetVarint32Ptr p with
  | None => None
  | Some (len, p) =>
      if decide (size_of p < len) then None
      else Some (take (Z.to_nat len) p, drop (Z.to_nat len) p)
  end.

(** ** Fixed-width round trips *)

(** Joining a value below [2^s] with the next byte of [v]. *)
Lemma lor_next_byte v s :
  0 <= s → Z.lor (v mod 2 ^ s) (w8 (v ≫ s) ≪ s) = v mod 2 ^ (s + 8).
Proof.
  intros Hs. rewrite lor_shiftl_add, mod_pow2_split by (lia || (apply Z.mod_pos_bound; lia)).
  done.
Qed.

Lemma DecodeFixed32_ptr_encode v rest :
  DecodeFixed32_ptr (EncodeFixed32 v ++ rest) = w32 v.
Proof.
  unfold DecodeFixed32_ptr, EncodeFixed32, byte_at. cbn -[Z.shiftl Z.shiftr Z.lor w8].
  change (w8 v) with (v mod 2 ^ 8). rewrite !lor_next_byte by lia. done.
Qed.

Lemma DecodeFixed64_ptr_encode v rest :
  DecodeFixed64_ptr (EncodeFixed64 v ++ rest) = w64 v.
Proof.
  unfold DecodeFixed64_ptr, EncodeFixed64, byte_at. cbn -[Z.shiftl Z.shiftr Z.lor w8].
  change (w8 v) with (v mod 2 ^ 8). rewrite !lor_next_byte by lia. done.
Qed.

Lemma length_EncodeFixed32 v : length (EncodeFixed32 v) = 4%nat.
Proof. done. Qed.
Lemma length_EncodeFixed64 v : length (EncodeFixed64 v) = 8%nat.
Proof. done. Qed.
Lemma length_EncodeBool b : length (EncodeBool b) = 1%nat.
Proof. by destruct b. Qed.
#[export] Hint Rewrite length_EncodeFixed32 length_EncodeFixed64 length_EncodeBool : nova.

Lemma parses_Fixed32_wrap v : parses DecodeFixed32 (EncodeFixed32 v) (w32 v).
Proof.
  intros rest. unfold DecodeFixed32. rewrite decide_False by (rewrite length_app; cbn; lia).
  by rewrite DecodeFixed32_ptr_encode.
Qed.

Lemma parses_Fixed32 v : is_u32 v → parses DecodeFixed32 (EncodeFixed32 v) v.
Proof. intros Hv. rewrite <- (w32_small v) at 2 by done. apply parses_Fixed32_wrap. Qed.

Lemma parses_Fixed64 v : is_u64 v → parses DecodeFixed64 (EncodeFixed64 v) v.
Proof.
  intros Hv rest. unfold DecodeFixed64. rewrite decide_False by (rewrite length_app; cbn; lia).
  by rewrite DecodeFixed64_ptr_encode, w64_small.
Qed.
#[export] Hint Resolve parses_Fixed32 parses_Fixed64 : nova.

(** A string the 32-bit length prefix can describe. *)
Definition short (s : bytes) : Prop := size_of s < 2 ^ 32.

Lemma short_u32 s : short s → is_u32 (size_of s).
Proof. unfold short, is_u32. lia. Qed.
#[export] Hint Resolve short_u32 : nova.

Lemma parses_DecodeStr r s : short s → parses (DecodeStr r) (EncodeStr s) (r ++ s).
Proof.
  intros Hs. eapply parses_bind; [eauto with nova|]. intros rest; cbn.
  rewrite decide_False by (rewrite length_app; lia).
  by rewrite take_app_exact, drop_app_exact by lia.
Qed.

Lemma parses_DecodeStr_slice s : short s → parses DecodeStr_slice (EncodeStr s) s.
Proof.
  intros Hs. eapply parses_bind; [eauto with nova|]. intros rest; cbn.
  rewrite decide_True by (rewrite length_app; lia).
  by rewrite take_app_exact, drop_app_exact by lia.
Qed.

(** [DecodeStr] into a freshly default-constructed string. *)
Lemma parses_DecodeStr_fresh s : short s → parses (DecodeStr []) (EncodeStr s) s.
Proof. apply (parses_DecodeStr []). Qed.

Lemma parses_DecodeBool b : parses DecodeBool (EncodeBool b) b.
Proof. by destruct b. Qed.
#[export] Hint Resolve parses_DecodeStr_fresh parses_DecodeStr_slice parses_DecodeBool : nova.

Lemma length_EncodeStr s : length (EncodeStr s) = (4 + length s)%nat.
Proof. done. Qed.
#[export] Hint Rewrite length_EncodeStr : nova.

(** ** Varint round trips *)

(** A byte with the continuation bit carries the low seven bits. *)
Lemma w8_continuation v : w8 (Z.lor v 128) = v mod 128 + 128.
Proof.
  change 128 with (1 * 2 ^ 7) at 3. change 128 with (2 ^ 7) at 2.
  rewrite <- lor_shiftl_add by (lia || (apply Z.mod_pos_bound; lia)).
  change 128 with (1 ≪ 7). unfold w8. apply Z.bits_inj'. intros i Hi.
  destruct (decide (i < 8)).
  - rewrite Z.mod_pow2_bits_low, !Z.lor_spec, !Z.shiftl_spec by lia.
    destruct (decide (i < 7)); [by rewrite Z.mod_pow2_bits_low by lia|].
    by replace i with 7 by lia; rewrite !orb_true_r.
  - rewrite Z.mod_pow2_bits_high, Z.lor_spec, Z.mod_pow2_bits_high, Z.shiftl_spec by lia.
    rewrite (Z.bits_above_log2 1) by (cbn; lia). done.
Qed.

Lemma land_127 x : Z.land x 127 = x mod 128.
Proof. apply (land_pow2_ones x 7). lia. Qed.

Lemma land_128_byte x : 0 <= x < 128 → Z.land x 128 = 0.
Proof.
  intros Hx. rewrite Z.land_comm. change 128 with (1 ≪ 7).
  assert (Z.lor x (1 ≪ 7) = x + 1 * 2 ^ 7) by (apply lor_shiftl_add; lia).
  pose proof (Z.add_lor_land x (1 ≪ 7)) as Hadd. rewrite Z.land_comm.
  change (1 ≪ 7) with 128 in *. lia.
Qed.

Lemma land_128_continuation x : 0 <= x < 128 → Z.land (x + 128) 128 = 128.
Proof.
  intros Hx. change (x + 128) with (x + 1 * 2 ^ 7).
  rewrite <- (lor_shiftl_add x 1 7), Z.land_lor_distr_l, land_128_byte by lia. done.
Qed.

(** The decoding loop inverts the encoding loop, from any partial result. *)
Lemma GetVarint_loop_encode (wrap : Z → Z) bits fuel rounds shift result v rest :
  (∀ x, 0 <= x < 2 ^ bits → wrap x = x) →
  0 <= shift → 0 <= result < 2 ^ shift →
  0 <= v < 2 ^ (7 * (Z.of_nat fuel + 1)) → v * 2 ^ shift < 2 ^ bits →
  (fuel < rounds)%nat →
  GetVarint_loop wrap rounds shift result (EncodeVarint64_loop fuel v ++ rest) =
    Some (result + v * 2 ^ shift, rest).
Proof.
  intros Hwrap. revert rounds shift result v.
  induction fuel as [|fuel IH]; intros rounds shift result v Hs Hr Hv Hb Hrounds;
    (destruct rounds as [|rounds]; [lia|]); pose proof (Z.pow_pos_nonneg 2 shift) as Hpow.
  - assert (v < 128) by (change 128 with (2 ^ (7 * (Z.of_nat 0 + 1))); lia).
    cbn -[Z.shiftl Z.land Z.lor]. rewrite w8_small by mlia.
    rewrite land_128_byte, decide_False by (lia || tauto).
    rewrite Hwrap, lor_shiftl_add by (rewrite ?Z.shiftl_mul_pow2; nia). done.
  - cbn -[Z.shiftl Z.land Z.lor Z.shiftr]. destruct (decide (v >= 128)) as [Hge|Hlt].
    + pose proof (Z.mod_pos_bound v 128). pose proof (Z.div_mod v 128).
      cbn -[Z.shiftl Z.land Z.lor Z.shiftr].
      rewrite w8_continuation, land_128_continuation, decide_True by (lia || done).
      rewrite land_127. replace ((v mod 128 + 128) mod 128) with (v mod 128)
        by (rewrite <- (Z.mul_1_l 128) at 3; rewrite Z_mod_plus_full, Z.mod_mod; lia).
      rewrite Hwrap, lor_shiftl_add by (rewrite ?Z.shiftl_mul_pow2; nia).
      assert (2 ^ (shift + 7) = 2 ^ shift * 128) as E by (rewrite Z.pow_add_r; lia).
      assert (v ≫ 7 = v / 128) as E' by (by rewrite Z.shiftr_div_pow2 by lia).
      assert (2 ^ (7 * (Z.of_nat (S fuel) + 1)) = 128 * 2 ^ (7 * (Z.of_nat fuel + 1))) as E2.
      { rewrite <- (Z.pow_add_r 2 7) by lia. f_equal. lia. }
      rewrite IH; rewrite ?E, ?E' by lia; [f_equal; f_equal; nia | lia | nia | | nia | lia].
      split; [apply Z.div_pos; lia|]. apply Z.div_lt_upper_bound; lia.
    + cbn -[Z.shiftl Z.land Z.lor]. rewrite w8_small by mlia.
      rewrite land_128_byte, decide_False by (lia || tauto).
      rewrite Hwrap, lor_shiftl_add by (rewrite ?Z.shiftl_mul_pow2; nia). done.
Qed.

Lemma GetVarint64Ptr_encode v rest :
  is_u64 v → GetVarint64Ptr (EncodeVarint64 v ++ rest) = Some (v, rest).
Proof.
  intros Hv. unfold GetVarint64Ptr, EncodeVarint64.
  rewrite (GetVarint_loop_encode w64 64) by (try apply w64_small; mlia).
  do 2 f_equal. lia.
Qed.

(** The loop leaves as soon as the value fits one byte, so fuel beyond the
    number of seven-bit groups changes nothing. *)
Lemma EncodeVarint64_loop_fuel f f' v :
  0 <= v < 2 ^ (7 * (Z.of_nat f + 1)) → (f <= f')%nat →
  EncodeVarint64_loop f' v = EncodeVarint64_loop f v.
Proof.
  revert f' v. induction f as [|f IH]; intros f' v Hv Hf.
  - destruct f' as [|f']; [done|]. cbn. rewrite decide_False by mlia. done.
  - destruct f' as [|f']; [lia|]. cbn -[Z.shiftr Z.lor]. case_decide; [|done].
    f_equal. apply IH; [|lia]. rewrite Z.shiftr_div_pow2 by lia.
    assert (2 ^ (7 * (Z.of_nat (S f) + 1)) = 2 ^ 7 * 2 ^ (7 * (Z.of_nat f + 1))) as E.
    { rewrite <- Z.pow_add_r by lia. f_equal. lia. }
    split; [apply Z.div_pos; lia | apply Z.div_lt_upper_bound; lia].
Qed.

(** The unrolled 32-bit encoder and the 64-bit loop write the same bytes. *)
Lemma EncodeVarint32_loop v : is_u32 v → EncodeVarint32 v = EncodeVarint64_loop 4 v.
Proof.
  intros Hv. unfold EncodeVarint32. cbn [EncodeVarint64_loop].
  rewrite !Z.shiftr_shiftr by lia. cbn [Z.add Pos.add Pos.succ].
  rewrite !(Z.shiftr_div_pow2 v) by lia.
  change (1 ≪ 7) with (2 ^ 7). change (1 ≪ 14) with (2 ^ 14).
  change (1 ≪ 21) with (2 ^ 21). change (1 ≪ 28) with (2 ^ 28).
  repeat (case_decide; try reflexivity); exfalso; dlia.
Qed.

(** The inlined fast path of [GetVarint32Ptr] agrees with the loop. *)
Lemma GetVarint32Ptr_fallback p :
  Forall is_u8 p → GetVarint32Ptr p = GetVarint32PtrFallback p.
Proof.
  intros Hp. destruct Hp as [|b p Hb Hp]; [done|]. cbn -[Z.land Z.shiftl].
  case_decide as Hz; [|done]. unfold GetVarint32PtrFallback. cbn -[Z.land Z.shiftl].
  rewrite decide_False by tauto. rewrite Z.shiftl_0_r, w32_small by mlia. done.
Qed.

Lemma EncodeVarint64_loop_bytes fuel v : Forall is_u8 (EncodeVarint64_loop fuel v).
Proof.
  revert v. induction fuel; intros v; cbn; [|case_decide]; eauto using w8_range.
Qed.

Lemma EncodeVarint32_bytes v : Forall is_u8 (EncodeVarint32 v).
Proof. unfold EncodeVarint32. repeat case_decide; repeat constructor; apply w8_range. Qed.

(** The fast path never looks past the first byte, so it may be removed
    whatever follows the encoding. *)
Lemma GetVarint32Ptr_encode v rest :
  is_u32 v → GetVarint32Ptr (EncodeVarint32 v ++ rest) = Some (v, rest).
Proof.
  intros Hv.
  assert (GetVarint32PtrFallback (EncodeVarint32 v ++ rest) = Some (v, rest)) as Hfb.
  { rewrite EncodeVarint32_loop by done. unfold GetVarint32PtrFallback.
    rewrite (GetVarint_loop_encode w32 32) by (try apply w32_small; mlia).
    do 2 f_equal. lia. }
  rewrite <- Hfb. pose proof (EncodeVarint32_bytes v) as Hb.
  destruct (EncodeVarint32 v) as [|b l] eqn:El;
    [by unfold EncodeVarint32 in El; repeat case_decide|].
  inversion Hb; subst. cbn -[GetVarint32PtrFallback Z.land]. case_decide as Hz; [|done].
  unfold GetVarint32PtrFallback. cbn -[Z.land Z.shiftl].
  rewrite decide_False by tauto. by rewrite Z.shiftl_0_r, w32_small by mlia.
Qed.

Lemma parses_Varint32 v : is_u32 v → parses GetVarint32 (EncodeVarint32 v) v.
Proof. intros Hv rest. unfold GetVarint32. by rewrite GetVarint32Ptr_encode. Qed.

Lemma parses_Varint64 v : is_u64 v → parses GetVarint64 (EncodeVarint64 v) v.
Proof. intros Hv rest. unfold GetVarint64. by rewrite GetVarint64Ptr_encode. Qed.
#[export] Hint Resolve parses_Varint32 parses_Varint64 : nova.

Lemma parses_LengthPrefixed s :
  short s → parses GetLengthPrefixedSlice (PutLengthPrefixedSlice [] s) s.
Proof.
  intros Hs. unfold PutLengthPrefixedSlice, PutVarint32.
  rewrite w32_small by eauto with nova.
  eapply parses_bind; [eauto with nova|]. intros rest; cbn.
  rewrite decide_True by (rewrite length_app; lia).
  by rewrite take_app_exact, drop_app_exact by lia.
Qed.
#[export] Hint Resolve parses_LengthPrefixed : nova.

Lemma VarintLength_loop_eq fuel len v :
  VarintLength_loop fuel len v = len - 1 + size_of (EncodeVarint64_loop fuel v).
Proof.
  revert len v. induction fuel as [|fuel IH]; intros len v; cbn; [lia|].
  case_decide; cbn; [rewrite IH|]; lia.
Qed.

Lemma EncodeVarint64_loop_length fuel v :
  (1 <= length (EncodeVarint64_loop fuel v) <= S fuel)%nat.
Proof.
  revert v. induction fuel as [|fuel IH]; intros v; cbn; [lia|].
  case_decide; cbn; [specialize (IH (v ≫ 7))|]; lia.
Qed.

Lemma size_EncodeVarint32 v : is_u32 v → size_of (EncodeVarint32 v) = VarintLength v.
Proof.
  intros Hv. rewrite EncodeVarint32_loop by done. unfold VarintLength. rewrite VarintLength_loop_eq.
  rewrite (EncodeVarint64_loop_fuel 4 9) by mlia. lia.
Qed.

(** What the decoding loop returns on any input: a value of the given width,
    after consuming between one byte and one byte per round. *)
Lemma GetVarint_loop_sound (wrap : Z → Z) bits rounds shift result p v q :
  (∀ x, 0 <= wrap x < 2 ^ bits) → 0 <= bits → 0 <= result < 2 ^ bits →
  GetVarint_loop wrap rounds shift result p = Some (v, q) →
  0 <= v < 2 ^ bits ∧ ∃ k, (1 <= k <= rounds)%nat ∧ q = drop k p ∧ (k <= length p)%nat.
Proof.
  intros Hwrap Hbits.
  assert (∀ a b, 0 <= a < 2 ^ bits → 0 <= b < 2 ^ bits → 0 <= Z.lor a b < 2 ^ bits) as Hlor.
  { intros a b Ha Hb. rewrite <- (Z.mod_small a (2 ^ bits)), <- (Z.mod_small b (2 ^ bits)) by lia.
    rewrite <- !Z.land_ones, <- Z.land_lor_distr_l, Z.land_ones by lia.
    apply Z.mod_pos_bound. lia. }
  revert shift result p. induction rounds as [|rounds IH]; intros shift result p Hr; [done|].
  destruct p as [|b p]; [done|]. cbn -[Z.land Z.shiftl Z.lor].
  case_decide; intros Hg.
  - apply IH in Hg as [Hv (k & Hk & -> & Hlen)]; [|by apply Hlor].
    split; [done|]. exists (S k). cbn. repeat split; lia.
  - injection Hg as <- <-. split; [by apply Hlor|]. exists 1%nat. cbn. repeat split; lia.
Qed.

(** ** Properties *)

(** A 32-bit varint decodes to the value it encodes and leaves exactly
    the bytes that follow it; the unrolled encoder writes the bytes of the
    64-bit loop, as many as [VarintLength] says. *)
Theorem varint32_roundtrip v rest :
  is_u32 v →
  GetVarint32 (EncodeVarint32 v ++ rest) = (Ret v, rest)
  ∧ EncodeVarint32 v = EncodeVarint64 v
  ∧ size_of (EncodeVarint32 v) = VarintLength v.
Proof.
  intros Hv. split; [by apply parses_Varint32|].
  assert (EncodeVarint32 v = EncodeVarint64 v) as E.
  { unfold EncodeVarint64. rewrite EncodeVarint32_loop by done.
    symmetry. apply EncodeVarint64_loop_fuel; [mlia|lia]. }
  split; [done|]. rewrite E. unfold VarintLength. rewrite VarintLength_loop_eq.
  unfold EncodeVarint64. lia.
Qed.

Lemma varint32_roundtrip_witness :
  GetVarint32 (EncodeVarint32 300 ++ [7]) = (Ret 300, [7]) ∧ EncodeVarint32 300 = [172; 2].
Proof. split; [apply (varint32_roundtrip 300 [7]); mlia | vm_compute; reflexivity]. Defined.

(** A 64-bit varint decodes to the value it encodes; its encoding has the
    length [VarintLength] computes, at most the ten bytes of the buffer that
    [PutVarint64] encodes into. *)
Theorem varint64_roundtrip v rest :
  is_u64 v →
  GetVarint64 (EncodeVarint64 v ++ rest) = (Ret v, rest)
  ∧ size_of (EncodeVarint64 v) = VarintLength v
  ∧ 1 <= VarintLength v <= 10.
Proof.
  intros Hv. split; [by apply parses_Varint64|].
  unfold VarintLength, EncodeVarint64. rewrite VarintLength_loop_eq.
  pose proof (EncodeVarint64_loop_length 9 v). lia.
Qed.

Lemma varint64_roundtrip_witness :
  GetVarint64 (EncodeVarint64 (2 ^ 64 - 1) ++ [9]) = (Ret (2 ^ 64 - 1), [9])
  ∧ VarintLength (2 ^ 64 - 1) = 10.
Proof.
  split; [apply (varint64_roundtrip (2 ^ 64 - 1) [9]); mlia | vm_compute; reflexivity].
Defined.

(** On any input whatsoever a varint decoder that succeeds returns a value
    of its width and consumes a nonempty prefix of at most five (ten) bytes
    inside the input; it never reads past the limit. *)
Theorem varint_decode_bounds p v q :
  Forall is_u8 p →
  (GetVarint32Ptr p = Some (v, q) →
     is_u32 v ∧ ∃ k, (1 <= k <= 5)%nat ∧ q = drop k p ∧ (k <= length p)%nat)
  ∧ (GetVarint64Ptr p = Some (v, q) →
     is_u64 v ∧ ∃ k, (1 <= k <= 10)%nat ∧ q = drop k p ∧ (k <= length p)%nat).
Proof.
  intros Hp. split.
  - rewrite GetVarint32Ptr_fallback by done.
    apply (GetVarint_loop_sound w32 32); [apply w32_range | lia | mlia].
  - apply (GetVarint_loop_sound w64 64); [apply w64_range | lia | mlia].
Qed.

Lemma varint_decode_bounds_witness :
  GetVarint32Ptr [255; 255; 255; 255; 255; 1] = None
  ∧ is_u32 (2 ^ 32 - 1)
  ∧ ∃ k, (1 <= k <= 5)%nat ∧ [9] = drop k [255; 255; 255; 255; 127; 9] ∧ (k <= 6)%nat.
Proof.
  split; [vm_compute; reflexivity|].
  eapply (varint_decode_bounds [255; 255; 255; 255; 127; 9] (2 ^ 32 - 1) [9]);
    [repeat constructor; mlia | vm_compute; reflexivity].
Defined.
