(* ===== verification/SkipList.v ===== *)
(** * SkipList: the ordered index of a memtable

    [db/skiplist.h] and the generator of [util/random.h].  A [Node *] is the
    position of the node in the list of allocated nodes, [None] is [nullptr],
    and the head is node 0.  Following a link above the height of a node, which
    in the source reads outside its array, is [Abort], as a failed assertion
    and a search that exceeds its bound on steps. *)

From S2P Require Import Prelude.

(** ** Random numbers *)

(** [Random(s)]. *)
Definition Random_init (s : Z) : Z :=
  let seed := Z.land s 2147483647 in
  if decide (seed = 0 ∨ seed = 2147483647) then 1 else seed.

(** [Random::Next()]: the new seed, which is also the number returned. *)
Definition Random_Next (seed : Z) : Z :=
  let M := 2147483647 in
  let A := 16807 in
  let product := w64 (seed * A) in
  let seed := w32 ((product ≫ 31) + Z.land product M) in
  if decide (seed > M) then w32 (seed - M) else seed.

(** [Uniform(n)], [OneIn(n)] and [Skewed(max_log)], with the new seed. *)
Definition Random_Uniform (seed n : Z) : Z * Z :=
  let seed := Random_Next seed in (seed mod n, seed).
Definition Random_OneIn (seed n : Z) : bool * Z :=
  let seed := Random_Next seed in (bool_decide (seed mod n = 0), seed).
Definition Random_Skewed (seed max_log : Z) : Z * Z :=
  let '(k, seed) := Random_Uniform seed (max_log + 1) in
  Random_Uniform seed (1 ≪ k).

(** ** The skip list *)

Definition kMaxHeight : nat := 12.

Section skiplist.
Context {K : Type} (compare_ : K → K → Z).

Record Node := mkNode {
  node_key : K;
  next_ : list (option nat)
}.

Record SkipList := mkSkipList {
  nodes : list Node;
  max_height_ : nat;
  nputs_per_level : list Z;
  rnd_ : Z
}.

Definition head_ : nat := 0.

(** [Node::Next(n)]. *)
Definition Node_Next (s : SkipList) (x : nat) (n : nat) : res (option nat) :=
  match nodes s !! x ≫= λ nd, next_ nd !! n with
  | Some p => Ret p
  | None => Abort
  end.

(** [Node::SetNext(n, y)]. *)
Definition Node_SetNext (s : SkipList) (x n : nat) (y : option nat) : res SkipList :=
  match nodes s !! x ≫= λ nd, next_ nd !! n with
  | Some _ =>
      Ret (mkSkipList (alter (λ nd, mkNode (node_key nd) (<[n := y]> (next_ nd))) x (nodes s))
             (max_height_ s) (nputs_per_level s) (rnd_ s))
  | None => Abort
  end.

Definition Node_key (s : SkipList) (x : nat) : res K :=
  match nodes s !! x with Some nd => Ret (node_key nd) | None => Abort end.

(** [NewNode(key, height)]: the node and the list that owns it; its links are
    set before they are read. *)
Definition NewNode (s : SkipList) (key : K) (height : nat) : SkipList * nat :=
  (mkSkipList (nodes s ++ [mkNode key (replicate height None)])
     (max_height_ s) (nputs_per_level s) (rnd_ s), length (nodes s)).

(** [SkipList(cmp, arena)]; [zero] is the key of the head. *)
Definition SkipList_init (zero : K) : SkipList :=
  mkSkipList [mkNode zero (replicate kMaxHeight None)] 1 (replicate kMaxHeight 0) (Random_init 3735928559).

(** [while (height < kMaxHeight && ((rnd_.Next() % kBranching) == 0))]. *)
Fixpoint RandomHeight_loop (rounds height : nat) (seed : Z) : nat * Z :=
  match rounds with
  | O => (height, seed)
  | S rounds =>
      let seed := Random_Next seed in
      if decide (seed mod 4 = 0) then RandomHeight_loop rounds (S height) seed else (height, seed)
  end.
Definition RandomHeight (seed : Z) : nat * Z := RandomHeight_loop (kMaxHeight - 1) 1 seed.

Definition Equal (a b : K) : bool := bool_decide (compare_ a b = 0).

Definition KeyIsAfterNode (s : SkipList) (key : K) (n : option nat) : res bool :=
  match n with
  | None => Ret false
  | Some n => k ← Node_key s n; Ret (bool_decide (compare_ k key < 0))
  end.

(** A search makes a step forward or down in each round. *)
Definition search_fuel (s : SkipList) : nat := length (nodes s) + kMaxHeight.

(** The loop of [FindGreaterOrEqual]: the node found and the array [prev],
    which the callers that pass [nullptr] ignore. *)
Fixpoint FindGreaterOrEqual_loop (fuel : nat) (s : SkipList) (key : K) (x level : nat)
    (prev : list (option nat)) : res (option nat * list (option nat)) :=
  match fuel with
  | O => Abort
  | S fuel =>
      next ← Node_Next s x level;
      after ← KeyIsAfterNode s key next;
      match (after : bool), next with
      | true, Some next => FindGreaterOrEqual_loop fuel s key next level prev
      | _, _ =>
          let prev := <[level := Some x]> prev in
          match level with
          | O => Ret (next, prev)
          | S level => FindGreaterOrEqual_loop fuel s key x level prev
          end
      end
  end.
Definition FindGreaterOrEqual (s : SkipList) (key : K) : res (option nat * list (option nat)) :=
  FindGreaterOrEqual_loop (search_fuel s) s key head_ (max_height_ s - 1) (replicate kMaxHeight None).

Fixpoint FindLessThan_loop (fuel : nat) (s : SkipList) (key : K) (x level : nat) : res nat :=
  match fuel with
  | O => Abort
  | S fuel =>
      ok ← (if decide (x = head_) then Ret true else KeyIsAfterNode s key (Some x));
      if negb ok then Abort
      else
        next ← Node_Next s x level;
        after ← KeyIsAfterNode s key next;
        match (after : bool), next with
        | true, Some next => FindLessThan_loop fuel s key next level
        | _, _ =>
            match level with
            | O => Ret x
            | S level => FindLessThan_loop fuel s key x level
            end
        end
  end.
Definition FindLessThan (s : SkipList) (key : K) : res nat :=
  FindLessThan_loop (search_fuel s) s key head_ (max_height_ s - 1).

Fixpoint FindLast_loop (fuel : nat) (s : SkipList) (x level : nat) : res nat :=
  match fuel with
  | O => Abort
  | S fuel =>
      next ← Node_Next s x level;
      match next with
      | Some next => FindLast_loop fuel s next level
      | None =>
          match level with
          | O => Ret x
          | S level => FindLast_loop fuel s x level
          end
      end
  end.
Definition FindLast (s : SkipList) : res nat :=
  FindLast_loop (search_fuel s) s head_ (max_height_ s - 1).

(** [for (int i = GetMaxHeight(); i < height; i++) prev[i] = head_;] *)
Fixpoint fill_head (n i : nat) (prev : list (option nat)) : list (option nat) :=
  match n with
  | O => prev
  | S n => fill_head n (S i) (<[i := Some head_]> prev)
  end.

(** [for (int i = 0; i < height; i++)]: linking the new node at level [i]. *)
Fixpoint link_levels (n i : nat) (s : SkipList) (x : nat) (prev : list (option nat)) : res SkipList :=
  match n with
  | O => Ret s
  | S n =>
      match prev !! i with
      | Some (Some p) =>
          next ← Node_Next s p i;
          s ← Node_SetNext s x i next;
          s ← Node_SetNext s p i (Some x);
          let s := mkSkipList (nodes s) (max_height_ s) (alter (λ c, c + 1) i (nputs_per_level s)) (rnd_ s) in
          link_levels n (S i) s x prev
      | _ => Abort
      end
  end.

Definition Insert (s : SkipList) (key : K) : res SkipList :=
  '(x, prev) ← FindGreaterOrEqual s key;
  dup ← match x with None => Ret false | Some x => k ← Node_key s x; Ret (Equal key k) end;
  if (dup : bool) then Abort
  else
    let '(height, rnd) := RandomHeight (rnd_ s) in
    let prev :=
      if decide (max_height_ s < height)%nat
      then fill_head (height - max_height_ s) (max_height_ s) prev else prev in
    let s := mkSkipList (nodes s) (max_height_ s `max` height) (nputs_per_level s) rnd in
    let '(s, x) := NewNode s key height in
    link_levels height 0 s x prev.

Definition Contains (s : SkipList) (key : K) : res bool :=
  '(x, _) ← FindGreaterOrEqual s key;
  match x with
  | None => Ret false
  | Some x => k ← Node_key s x; Ret (Equal key k)
  end.

(** ** Iterators *)

Record Iterator := mkIterator {
  node_ : option nat;
  iter_level_ : nat;
  sampled_puts_ : Z
}.

(** [for (iter_level_ = kMaxHeight - 1; ...)]: the highest level with more
    nodes than asked for, or level 0; [n] is [iter_level_ + 1]. *)
Fixpoint sample_level (s : SkipList) (sampled_puts : Z) (n : nat) : nat :=
  match n with
  | O => 0
  | S n =>
      if decide (w32 (default 0 (nputs_per_level s !! n)) > sampled_puts) then n
      else sample_level s sampled_puts n
  end.

Definition Iterator_init (s : SkipList) (sampled_puts : Z) : Iterator :=
  mkIterator None (if decide (sampled_puts > 0) then sample_level s sampled_puts kMaxHeight else 0%nat)
    sampled_puts.

Definition Iterator_Valid (it : Iterator) : bool := bool_decide (node_ it ≠ None).

Definition Iterator_key (s : SkipList) (it : Iterator) : res K :=
  match node_ it with Some x => Node_key s x | None => Abort end.

Definition at_node (it : Iterator) (n : option nat) : Iterator :=
  mkIterator n (iter_level_ it) (sampled_puts_ it).

(** [head_] becomes [nullptr]. *)
Definition not_head (x : nat) : option nat := if decide (x = head_) then None else Some x.

Definition Iterator_Next (s : SkipList) (it : Iterator) : res Iterator :=
  match node_ it with
  | Some x => n ← Node_Next s x (iter_level_ it); Ret (at_node it n)
  | None => Abort
  end.

Definition Iterator_Prev (s : SkipList) (it : Iterator) : res Iterator :=
  if decide (sampled_puts_ it = 0) then
    match node_ it with
    | Some x => k ← Node_key s x; p ← FindLessThan s k; Ret (at_node it (not_head p))
    | None => Abort
    end
  else Abort.

Definition Iterator_Seek (s : SkipList) (it : Iterator) (target : K) : res Iterator :=
  if decide (sampled_puts_ it = 0) then
    '(x, _) ← FindGreaterOrEqual s target; Ret (at_node it x)
  else Abort.

Definition Iterator_SeekToFirst (s : SkipList) (it : Iterator) : res Iterator :=
  n ← Node_Next s head_ (iter_level_ it); Ret (at_node it n).

Definition Iterator_SeekToLast (s : SkipList) (it : Iterator) : res Iterator :=
  if decide (sampled_puts_ it = 0) then
    x ← FindLast s; Ret (at_node it (not_head x))
  else Abort.
End skiplist.
Arguments Node : clear implicits.
Arguments SkipList : clear implicits.

(** ** Three-way comparisons that are total preorders *)

Class TotalCompare {A} (cmp : A → A → Z) : Prop := {
  tc_antisym a b : cmp a b < 0 ↔ cmp b a > 0;
  tc_le_trans a b c : cmp a b <= 0 → cmp b c <= 0 → cmp a c <= 0
}.

Section total_compare.
Context {A} (cmp : A → A → Z) {TC : TotalCompare cmp}.

Lemma tc_refl a : cmp a a = 0.
Proof. pose proof (tc_antisym a a). lia. Qed.

Lemma tc_not_lt a b : ¬ cmp a b < 0 ↔ cmp b a <= 0.
Proof. pose proof (tc_antisym a b). pose proof (tc_antisym b a). lia. Qed.

Lemma tc_lt_le_trans a b c : cmp a b < 0 → cmp b c <= 0 → cmp a c < 0.
Proof.
  intros Hab Hbc. destruct (decide (cmp a c < 0)) as [|Hn]; [done|].
  apply tc_not_lt in Hn. pose proof (tc_le_trans b c a Hbc Hn). apply tc_antisym in Hab. lia.
Qed.

Lemma tc_le_lt_trans a b c : cmp a b <= 0 → cmp b c < 0 → cmp a c < 0.
Proof.
  intros Hab Hbc. destruct (decide (cmp a c < 0)) as [|Hn]; [done|].
  apply tc_not_lt in Hn. pose proof (tc_le_trans c a b Hn Hab). apply tc_antisym in Hbc. lia.
Qed.

#[export] Instance tc_lt_trans : Transitive (λ a b, cmp a b < 0).
Proof. intros a b c Hab Hbc. apply (tc_lt_le_trans a b c); [done|lia]. Qed.
End total_compare.

(** ** Links of one level *)

Section links.
Context {K : Type}.
Implicit Types s : SkipList K.

(** [next_[i]] of node [x]. *)
Definition next_of s (i x : nat) : option (option nat) := nodes s !! x ≫= λ nd, next_ nd !! i.

(** Following the links of level [i] from [x] passes through [l]. *)
Fixpoint path s (i x : nat) (l : list nat) : Prop :=
  match l with
  | [] => True
  | y :: l => next_of s i x = Some (Some y) ∧ path s i y l
  end.

Fixpoint end_of (x : nat) (l : list nat) : nat :=
  match l with [] => x | y :: l => end_of y l end.

(** The nodes after [x] at level [i] are exactly [l]. *)
Definition links s (i x : nat) (l : list nat) : Prop :=
  path s i x l ∧ next_of s i (end_of x l) = Some None.

Lemma path_app s i x l l' : path s i x (l ++ l') ↔ path s i x l ∧ path s i (end_of x l) l'.
Proof. revert x. induction l as [|y l IH]; intros x; cbn; [tauto|]. rewrite IH. tauto. Qed.

Lemma end_of_app x l l' : end_of x (l ++ l') = end_of (end_of x l) l'.
Proof. revert x. induction l as [|y l IH]; intros x; cbn; [done|]. apply IH. Qed.

Lemma end_of_elem x l : end_of x l = x ∨ end_of x l ∈ l.
Proof.
  revert x. induction l as [|y l IH]; intros x; cbn; [by left|]. right.
  destruct (IH y) as [->|Hy]; [by left|by right].
Qed.

Lemma links_app s i x l l' : links s i x (l ++ l') ↔ path s i x l ∧ links s i (end_of x l) l'.
Proof. unfold links. rewrite path_app, end_of_app. tauto. Qed.

Lemma links_cons s i x y l : links s i x (y :: l) ↔ next_of s i x = Some (Some y) ∧ links s i y l.
Proof. unfold links. cbn. tauto. Qed.

(** The first node after [x]. *)
Lemma links_head s i x l : links s i x l → next_of s i x = Some (head l).
Proof. destruct l as [|y l]; [by intros [_ H]|]. by intros [H _]%links_cons. Qed.

Lemma path_ext s s' i x l :
  (∀ y, y = x ∨ y ∈ l → y ≠ end_of x l → next_of s' i y = next_of s i y) → NoDup (x :: l) →
  path s i x l → path s' i x l.
Proof.
  revert x. induction l as [|y l IH]; intros x Hext Hnd; cbn; [done|].
  apply NoDup_cons in Hnd as [Hx Hnd]. intros [Hn Hp]. split.
  - rewrite Hext; [done|by left|]. cbn. destruct (end_of_elem y l) as [->|He]; [|intros ->]; set_solver.
  - apply IH; [|done|done]. intros z Hz Hne. apply Hext; [set_solver|done].
Qed.

Lemma links_ext s s' i x l :
  (∀ y, y = x ∨ y ∈ l → next_of s' i y = next_of s i y) → links s i x l → links s' i x l.
Proof.
  revert x. induction l as [|y l IH]; intros x Hext.
  - intros [_ Hn]. split; [done|]. cbn in *. rewrite Hext; [done|by left].
  - rewrite !links_cons. intros [Hn Hl]. rewrite Hext by by left. split; [done|].
    apply IH; [|done]. intros z Hz. apply Hext. set_solver.
Qed.

Lemma links_next s i x l n y : links s i x l → l !! n = Some y → next_of s i y = Some (l !! S n).
Proof.
  revert x n. induction l as [|z l IH]; intros x n; [done|]. rewrite links_cons. intros [_ Hl].
  destruct n as [|n]; cbn.
  - intros [= ->]. rewrite (links_head _ _ _ _ Hl). by destruct l.
  - intros Hy. by apply (IH z).
Qed.

(** What a link store changes. *)
Lemma Node_SetNext_spec s x i y :
  is_Some (next_of s i x) →
  ∃ s', Node_SetNext s x i y = Ret s'
    ∧ (∀ j z, next_of s' j z = if decide (j = i ∧ z = x) then Some y else next_of s j z)
    ∧ (∀ z, node_key <$> nodes s' !! z = node_key <$> nodes s !! z)
    ∧ (∀ z, length ∘ next_ <$> nodes s' !! z = length ∘ next_ <$> nodes s !! z)
    ∧ length (nodes s') = length (nodes s) ∧ max_height_ s' = max_height_ s
    ∧ nputs_per_level s' = nputs_per_level s ∧ rnd_ s' = rnd_ s.
Proof.
  unfold next_of. intros [p Hp]. unfold Node_SetNext. rewrite Hp. eexists. split; [done|]. cbn.
  apply bind_Some in Hp as (nd & Hnd & Hp).
  split_and!; [..|apply length_alter|done|done|done].
  - intros j z. destruct (decide (z = x)) as [->|Hz].
    + rewrite list_lookup_alter_eq, Hnd. cbn. destruct (decide (j = i)) as [->|Hj].
      * rewrite decide_True by done. apply list_lookup_insert_eq. by eapply lookup_lt_Some.
      * rewrite decide_False by tauto. by apply list_lookup_insert_ne.
    + rewrite decide_False by tauto. by rewrite list_lookup_alter_ne by done.
  - intros z. destruct (decide (z = x)) as [->|Hz]; [|by rewrite list_lookup_alter_ne].
    by rewrite list_lookup_alter_eq, Hnd.
  - intros z. destruct (decide (z = x)) as [->|Hz]; [|by rewrite list_lookup_alter_ne].
    rewrite list_lookup_alter_eq, Hnd. cbn. by rewrite length_insert.
Qed.

(** Two states whose nodes have the same keys, heights and counters. *)
Definition same_shape s s' : Prop :=
  (∀ z, node_key <$> nodes s' !! z = node_key <$> nodes s !! z)
  ∧ (∀ z, length ∘ next_ <$> nodes s' !! z = length ∘ next_ <$> nodes s !! z)
  ∧ length (nodes s') = length (nodes s) ∧ max_height_ s' = max_height_ s ∧ rnd_ s' = rnd_ s.

Lemma same_shape_next s s' i x : same_shape s s' → is_Some (next_of s i x) → is_Some (next_of s' i x).
Proof.
  intros (_ & Hlen & _) [p Hp]. unfold next_of in *. specialize (Hlen x).
  apply bind_Some in Hp as (nd & Hnd & Hp). rewrite Hnd in Hlen. cbn in Hlen.
  destruct (nodes s' !! x) as [nd'|]; [|done]. cbn in *. injection Hlen as Hlen.
  apply lookup_lt_is_Some. apply lookup_lt_Some in Hp. lia.
Qed.

(** Linking node [n] between [A] and [B] at one level. *)
Lemma link_one s i A B n :
  links s i head_ (A ++ B) → NoDup (n :: head_ :: A ++ B) → is_Some (next_of s i n) →
  ∃ nx s1 s2, Node_Next s (end_of head_ A) i = Ret nx ∧ Node_SetNext s n i nx = Ret s1
    ∧ Node_SetNext s1 (end_of head_ A) i (Some n) = Ret s2
    ∧ links s2 i head_ (A ++ n :: B) ∧ (∀ j z, j ≠ i → next_of s2 j z = next_of s j z)
    ∧ same_shape s s2 ∧ nputs_per_level s2 = nputs_per_level s.
Proof.
  intros Hl Hnd Hn. set (p := end_of head_ A). apply links_app in Hl as [HA HB].
  apply NoDup_cons in Hnd as [Hni Hnd]. change (head_ :: A ++ B) with ((head_ :: A) ++ B) in Hnd, Hni.
  apply NoDup_app in Hnd as (HndA & Hdis & HndB).
  assert (p ∈ head_ :: A) as Hp by (subst p; destruct (end_of_elem head_ A) as [->|?]; set_solver).
  assert (n ≠ p) as Hnp by set_solver. pose proof (links_head _ _ _ _ HB) as Hhd. fold p in Hhd, HB.
  destruct (Node_SetNext_spec s n i (head B) Hn) as (s1 & E1 & N1 & K1 & L1 & C1 & M1 & P1 & R1).
  assert (is_Some (next_of s1 i p)) as Hp1 by (rewrite N1, decide_False, Hhd by (intros []; congruence); eauto).
  destruct (Node_SetNext_spec s1 p i (Some n) Hp1) as (s2 & E2 & N2 & K2 & L2 & C2 & M2 & P2 & R2).
  exists (head B), s1, s2. split_and!; [|done|done|..].
  - unfold Node_Next. change (nodes s !! p ≫= _) with (next_of s i p). by rewrite Hhd.
  - apply links_app. split.
    + apply (path_ext s); [|done|done]. intros y Hy Hne. fold p in Hne. rewrite N2, decide_False by (intros []; congruence).
      rewrite N1, decide_False; [done|]. intros [_ ->]. apply Hni. set_solver.
    + fold p. apply links_cons. split; [by rewrite N2, decide_True|].
      destruct B as [|b B].
      * split; [done|]. cbn. rewrite N2, decide_False by (intros []; congruence). by rewrite N1, decide_True.
      * apply links_cons. split; [rewrite N2, decide_False by (intros []; congruence); by rewrite N1, decide_True|].
        apply links_cons in HB as [_ HB]. apply (links_ext s); [|done].
        intros y Hy. assert (y ∈ b :: B) as Hy' by set_solver.
        rewrite N2, decide_False by (intros [_ ->]; by apply (Hdis p)).
        rewrite N1, decide_False; [done|]. intros [_ ->]. set_solver.
  - intros j z Hj. rewrite N2, decide_False by (intros []; congruence). by rewrite N1, decide_False by (intros []; congruence).
  - split_and!; [intros z; by rewrite K2, K1|intros z; by rewrite L2, L1|lia|congruence|congruence].
  - congruence.
Qed.
End links.

(** ** The list a skip list represents *)

Record entry (K : Type) := mkEntry { e_id : nat; e_key : K; e_height : nat }.
Arguments mkEntry {_} _ _ _.
Arguments e_id {_} _.
Arguments e_key {_} _.
Arguments e_height {_} _.

Section represents.
Context {K : Type} (compare_ : K → K → Z) {TC : TotalCompare compare_}.
Implicit Types (s : SkipList K) (l : list (entry K)).

(** The nodes linked at level [i]. *)
Definition at_level (i : nat) l : list nat := e_id <$> filter (λ e, (i < e_height e)%nat) l.

Definition entry_lt (e1 e2 : entry K) : Prop := compare_ (e_key e1) (e_key e2) < 0.

(** [s] holds the entries [l]: every level links the nodes that are high
    enough, in the order of their keys. *)
Record represents s l : Prop := {
  rp_head : ∃ hd, nodes s !! head_ = Some hd ∧ length (next_ hd) = kMaxHeight;
  rp_nodes : Forall (λ e, ∃ nd, nodes s !! e_id e = Some nd ∧ node_key nd = e_key e
                          ∧ length (next_ nd) = e_height e) l;
  rp_count : length (nodes s) = S (length l);
  rp_ids : NoDup (head_ :: (e_id <$> l));
  rp_heights : Forall (λ e, 1 <= e_height e <= max_height_ s)%nat l;
  rp_max : (1 <= max_height_ s <= kMaxHeight)%nat;
  rp_links i : (i < kMaxHeight)%nat → links s i head_ (at_level i l);
  rp_sorted : StronglySorted entry_lt l;
  rp_nputs i : (i < kMaxHeight)%nat → nputs_per_level s !! i = Some (size_of (at_level i l))
}.

Lemma at_level_app i l l' : at_level i (l ++ l') = at_level i l ++ at_level i l'.
Proof. unfold at_level. by rewrite filter_app, fmap_app. Qed.

Lemma at_level_cons i e l :
  at_level i (e :: l) = if decide (i < e_height e)%nat then e_id e :: at_level i l else at_level i l.
Proof. unfold at_level. rewrite filter_cons. by case_decide. Qed.

Lemma elem_at_level i l x : x ∈ at_level i l → x ∈ e_id <$> l.
Proof. unfold at_level. rewrite !list_elem_of_fmap. intros (e & -> & [_ He]%list_elem_of_filter). eauto. Qed.

(** The first node of a level splits the list. *)
Lemma at_level_head i l x :
  head (at_level i l) = Some x →
  ∃ l1 e l2, l = l1 ++ e :: l2 ∧ at_level i l1 = [] ∧ e_id e = x ∧ (i < e_height e)%nat.
Proof.
  induction l as [|e l IH]; [done|]. rewrite at_level_cons. case_decide as Hh.
  - intros [= <-]. by exists [], e, l.
  - intros (l1 & e' & l2 & -> & Hl1 & Hx & Hh')%IH. exists (e :: l1), e', l2.
    split_and!; [done| |done|done]. by rewrite at_level_cons, decide_False.
Qed.

Lemma at_level_zero s la lb : represents s (la ++ lb) → at_level 0 lb = e_id <$> lb.
Proof.
  intros R. unfold at_level. f_equal. apply filter_all. pose proof (rp_heights _ _ R) as Hh.
  apply Forall_app in Hh as [_ Hh]. eapply Forall_impl; [exact Hh|]. cbn. lia.
Qed.

Lemma at_level_all s l : represents s l → at_level 0 l = e_id <$> l.
Proof. apply (at_level_zero s []). Qed.

(** [x] is the node of the last entry of [la], or the head. *)
Definition last_node (x : nat) (la : list (entry K)) : Prop := x = end_of head_ (e_id <$> la).

(** [x] is linked at level [i]. *)
Definition reaches (i : nat) (la : list (entry K)) : Prop :=
  match last la with None => True | Some e => (i < e_height e)%nat end.

Lemma end_at_level i la : reaches i la → end_of head_ (at_level i la) = end_of head_ (e_id <$> la).
Proof.
  destruct la as [|e la _] using rev_ind; [done|]. unfold reaches. rewrite last_snoc. intros Hh.
  rewrite at_level_app, at_level_cons, decide_True, fmap_app by done. by rewrite !end_of_app.
Qed.

(** The link of level [i] at a split of the entries. *)
Lemma Node_Next_split s la lb x i :
  represents s (la ++ lb) → last_node x la → reaches i la → (i < kMaxHeight)%nat →
  Node_Next s x i = Ret (head (at_level i lb)).
Proof.
  intros R -> Hr Hi. pose proof (rp_links _ _ R i Hi) as Hl. rewrite at_level_app in Hl.
  apply links_app in Hl as [_ Hl]. rewrite end_at_level in Hl by done. apply links_head in Hl.
  unfold Node_Next. change (nodes s !! ?x ≫= _) with (next_of s i x). by rewrite Hl.
Qed.

Lemma Node_key_entry s l e : represents s l → e ∈ l → Node_key s (e_id e) = Ret (e_key e).
Proof.
  intros R He. pose proof (rp_nodes _ _ R) as Hn. rewrite Forall_forall in Hn.
  destruct (Hn e He) as (nd & Hnd & <- & _). unfold Node_key. by rewrite Hnd.
Qed.

Lemma last_node_snoc l e : last_node (e_id e) (l ++ [e]).
Proof. unfold last_node. by rewrite fmap_app, end_of_app. Qed.

Lemma reaches_snoc i l e : (i < e_height e)%nat → reaches i (l ++ [e]).
Proof. unfold reaches. by rewrite last_snoc. Qed.

Lemma reaches_lower i la : reaches (S i) la → reaches i la.
Proof. unfold reaches. destruct (last la); [lia|done]. Qed.

(** ** Searching *)

(** Entries before [key] come first. *)
Definition before (key : K) (e : entry K) : Prop := compare_ (e_key e) key < 0.
#[global] Instance before_dec key e : Decision (before key e).
Proof. unfold before. apply _. Defined.

Definition lower key l := filter (before key) l.
Definition upper key l := filter (λ e, ¬ before key e) l.

Lemma split_sorted key l : StronglySorted entry_lt l → l = lower key l ++ upper key l.
Proof.
  unfold lower, upper. induction 1 as [|e l Hs IH He]; [done|]. rewrite !filter_cons.
  destruct (decide (before key e)) as [Hb|Hb].
  - rewrite (decide_False (P := ¬ before key e)) by tauto. cbn. by f_equal.
  - rewrite (decide_True (P := ¬ before key e)) by done.
    assert (filter (before key) l = []) as E.
    { apply filter_none. eapply Forall_impl; [exact He|]. intros e' He' Hb'. apply Hb.
      unfold before in *. by eapply (tc_lt_trans compare_). }
    rewrite E in *. cbn in *. by f_equal.
Qed.

(** A split of a sorted list at [key]. *)
Lemma split_unique key la lb :
  StronglySorted entry_lt (la ++ lb) → Forall (before key) la →
  match head lb with None => True | Some e => ¬ before key e end →
  la = lower key (la ++ lb) ∧ lb = upper key (la ++ lb).
Proof.
  intros Hs Ha Hb. unfold lower, upper. rewrite !filter_app.
  assert (Forall (λ e, ¬ before key e) lb) as Hb'.
  { apply StronglySorted_app_1_r in Hs. destruct Hs as [|e lb Hs He]; [done|]. cbn in Hb.
    constructor; [done|]. eapply Forall_impl; [done|]. intros e' Hlt Hbe. apply Hb.
    unfold before in *. by eapply (tc_lt_trans compare_). }
  assert (Forall (λ e, ¬ ¬ before key e) la) as Ha' by (eapply Forall_impl; [exact Ha|tauto]).
  by rewrite (filter_all _ la), (filter_none _ lb), (filter_all _ lb), (filter_none _ la), app_nil_r.
Qed.

(** A step forward along a level. *)
Lemma step_forward la lb i y :
  StronglySorted entry_lt (la ++ lb) → head (at_level i lb) = Some y →
  ∃ e la' ld, la ++ lb = (la' ++ [e]) ++ ld ∧ y = e_id e ∧ (i < e_height e)%nat
    ∧ e ∈ lb ∧ (length ld < length lb)%nat
    ∧ (∀ key, before key e → Forall (before key) la → Forall (before key) (la' ++ [e])).
Proof.
  intros Hs (lc & e & ld & -> & _ & <- & Hi)%at_level_head. exists e, (la ++ lc), ld.
  split_and!; [by rewrite <- !(assoc_L (++))|done|done|set_solver|rewrite length_app; cbn; lia|].
  intros key Hk Ha. rewrite <- (assoc_L (++)). apply Forall_app. split; [done|].
  apply Forall_app. split; [|by constructor].
  apply StronglySorted_app_1_r in Hs. apply StronglySorted_app in Hs as (Hlt & _ & _).
  apply Forall_forall. intros e' He'. unfold before in *.
  eapply (tc_lt_trans compare_); [apply (Hlt e' e); set_solver|done].
Qed.

(** A level on which the next node is not before [key]. *)
Lemma stop_level la lb i key :
  StronglySorted entry_lt (la ++ lb) → Forall (before key) la →
  (∀ e, e ∈ lb → head (at_level i lb) = Some (e_id e) → (i < e_height e)%nat → ¬ before key e) →
  at_level i (lower key (la ++ lb)) = at_level i la.
Proof.
  intros Hs Ha Hstop. unfold lower. rewrite filter_app, filter_all by done.
  rewrite at_level_app. rewrite <- (app_nil_r (at_level i la)) at 2. f_equal.
  apply StronglySorted_app_1_r in Hs.
  destruct (head (at_level i lb)) as [y|] eqn:Hy.
  - apply at_level_head in Hy as (lc & e & ld & -> & Hlc & <- & Hi).
    assert (¬ before key e) as Hne by (apply Hstop; set_solver).
    rewrite filter_app, at_level_app, filter_cons_False by done.
    assert (filter (before key) ld = []) as ->.
    { apply filter_none, Forall_forall. intros e' He' Hb. apply Hne. unfold before in *.
      apply StronglySorted_app_1_r in Hs. apply StronglySorted_inv in Hs as [_ Hlt].
      rewrite Forall_forall in Hlt. eapply (tc_lt_trans compare_); [by apply Hlt|done]. }
    rewrite app_nil_r. apply (f_equal length) in Hlc. unfold at_level in *. rewrite length_fmap in Hlc.
    destruct (filter _ lc) as [|e0 l0] eqn:E; [|done]. rewrite list_filter_filter.
    rewrite filter_none; [done|]. apply Forall_forall. intros e1 He1 [Hh Hb].
    eapply (not_elem_of_nil e1). rewrite <- E. by apply list_elem_of_filter.
  - unfold at_level in *. destruct (filter (λ e, _) lb) as [|e0 l0] eqn:E; [|done].
    rewrite list_filter_filter, filter_none; [done|]. apply Forall_forall. intros e1 He1 [Hh Hb].
    eapply (not_elem_of_nil e1). rewrite <- E. by apply list_elem_of_filter.
Qed.

Lemma KeyIsAfterNode_entry s l e key :
  represents s l → e ∈ l → KeyIsAfterNode compare_ s key (Some (e_id e)) = Ret (bool_decide (before key e)).
Proof. intros R He. cbn. by rewrite (Node_key_entry s l e R He). Qed.

(** The node before [key] at level [i]. *)
Definition prev_node (key : K) (i : nat) l : nat := end_of head_ (at_level i (lower key l)).

(** One round of a search for [key] at level [i] from [x]: the next node is
    before [key], or all nodes of the level before [key] are behind. *)
Lemma probe_level s la lb x i key :
  represents s (la ++ lb) → last_node x la → reaches i la → Forall (before key) la → (i < kMaxHeight)%nat →
  ∃ next, Node_Next s x i = Ret next
    ∧ ((∃ e la' ld, next = Some (e_id e) ∧ KeyIsAfterNode compare_ s key next = Ret true
          ∧ la ++ lb = (la' ++ [e]) ++ ld ∧ (i < e_height e)%nat ∧ (length ld < length lb)%nat
          ∧ Forall (before key) (la' ++ [e]))
       ∨ KeyIsAfterNode compare_ s key next = Ret false
          ∧ next = head (at_level i lb) ∧ x = prev_node key i (la ++ lb)).
Proof.
  intros R Hx Hr Hla Hi. pose proof (rp_sorted _ _ R) as Hs.
  exists (head (at_level i lb)). split; [by apply (Node_Next_split s la)|].
  assert ((∀ e, e ∈ lb → head (at_level i lb) = Some (e_id e) → (i < e_height e)%nat → ¬ before key e) →
    x = prev_node key i (la ++ lb)) as Hstop.
  { intros H. unfold prev_node. by rewrite (stop_level la lb), end_at_level by done. }
  destruct (head (at_level i lb)) as [y|] eqn:Hy; [|right; split_and!; [done|done|by apply Hstop]].
  destruct (step_forward la lb i y Hs Hy) as (e & la' & ld & Heq & -> & Hh & He & Hlt & Hbef).
  rewrite (KeyIsAfterNode_entry s (la ++ lb) e key R) by set_solver.
  destruct (decide (before key e)) as [Hb|Hb].
  - left. exists e, la', ld. rewrite bool_decide_eq_true_2 by done. by split_and!; try apply Hbef.
  - right. rewrite bool_decide_eq_false_2 by done. split_and!; [done|done|]. apply Hstop.
    intros e' He' [= Hid] _ Hb'. assert (e = e') as <-; [|done].
    pose proof (rp_ids _ _ R) as Hnd. apply NoDup_cons in Hnd as [_ Hnd].
    apply list_elem_of_lookup in He as [n1 Hn1], He' as [n2 Hn2].
    assert (length la + n1 = length la + n2)%nat as Hn.
    { apply (NoDup_lookup (e_id <$> la ++ lb) _ _ (e_id e)); [done| |];
        rewrite list_lookup_fmap, lookup_app_r by lia.
      - by rewrite Nat.add_comm, Nat.add_sub, Hn1.
      - rewrite Nat.add_comm, Nat.add_sub, Hn2. cbn. by rewrite Hid. }
    assert (n1 = n2) as -> by lia. congruence.
Qed.

(** Where a search ends at level 0. *)
Lemma stop_zero s la lb key :
  represents s (la ++ lb) → Forall (before key) la →
  KeyIsAfterNode compare_ s key (head (at_level 0 lb)) = Ret false →
  la = lower key (la ++ lb) ∧ head (at_level 0 lb) = e_id <$> head (upper key (la ++ lb)).
Proof.
  intros R Hla Haf.
  pose proof (at_level_zero s la lb R) as Hz. rewrite Hz in *.
  destruct (split_unique key la lb) as [H1 H2]; [apply (rp_sorted _ _ R)|done| |].
  - destruct lb as [|e lb]; [done|]. cbn [head fmap list_fmap] in *.
    rewrite (KeyIsAfterNode_entry s (la ++ e :: lb) e key R) in Haf by set_solver.
    injection Haf as Haf. by apply bool_decide_eq_false in Haf.
  - rewrite <- H2. split; [done|]. by destruct lb.
Qed.

(** The loop finds the first entry at or after [key] and, at every level, the
    node before it. *)
Lemma FindGreaterOrEqual_loop_spec s key fuel la lb x level prev :
  represents s (la ++ lb) → last_node x la → reaches level la → Forall (before key) la →
  (level < kMaxHeight)%nat → length prev = kMaxHeight → (length lb + level < fuel)%nat →
  ∃ prev', FindGreaterOrEqual_loop compare_ fuel s key x level prev
           = Ret (e_id <$> head (upper key (la ++ lb)), prev')
    ∧ length prev' = kMaxHeight
    ∧ (∀ j, (j <= level)%nat → prev' !! j = Some (Some (prev_node key j (la ++ lb))))
    ∧ (∀ j, (level < j)%nat → prev' !! j = prev !! j).
Proof.
  revert la lb x level prev. induction fuel as [|fuel IH]; intros la lb x level prev R Hx Hr Hla Hlv Hlen Hf; [lia|].
  cbn [FindGreaterOrEqual_loop].
  destruct (probe_level s la lb x level key R Hx Hr Hla Hlv) as
    (next & -> & [(e & la' & ld & -> & Haf & Heq & Hi & Hlt & Hbef)|(Haf & Hn & Hp)]);
    cbn [mbind res_bind]; rewrite Haf; cbn [mbind res_bind].
  - rewrite Heq in R |- *. apply IH; [done|apply last_node_snoc|by apply reaches_snoc|done|done|done|lia].
  - destruct level as [|level].
    + subst next. destruct (stop_zero s la lb key R Hla Haf) as [_ Hhd]. eexists.
      split; [by rewrite Hhd|]. split_and!.
      * by rewrite length_insert.
      * intros j Hj. replace j with 0%nat by lia. rewrite list_lookup_insert_eq by lia. by rewrite Hp at 1.
      * intros j Hj. by rewrite list_lookup_insert_ne by lia.
    + destruct (IH la lb x level (<[S level := Some x]> prev)) as (prev' & -> & Hl' & Hle & Hgt);
        [done|done|by apply reaches_lower|done|lia|by rewrite length_insert|lia|].
      exists prev'. split; [done|]. split; [done|]. split.
      * intros j Hj. destruct (decide (j = S level)) as [->|Hne]; [|apply Hle; lia].
        rewrite Hgt, list_lookup_insert_eq by lia. by rewrite Hp at 1.
      * intros j Hj. rewrite Hgt by lia. by rewrite list_lookup_insert_ne by lia.
Qed.

Lemma FindLessThan_loop_spec s key fuel la lb x level :
  represents s (la ++ lb) → last_node x la → reaches level la → Forall (before key) la →
  (level < kMaxHeight)%nat → (length lb + level < fuel)%nat →
  FindLessThan_loop compare_ fuel s key x level = Ret (end_of head_ (e_id <$> lower key (la ++ lb))).
Proof.
  revert la lb x level. induction fuel as [|fuel IH]; intros la lb x level R Hx Hr Hla Hlv Hf; [lia|].
  cbn [FindLessThan_loop].
  assert ((if decide (x = head_) then Ret true else KeyIsAfterNode compare_ s key (Some x)) = Ret true) as ->.
  { case_decide as Hx0; [done|]. destruct la as [|e la _] using rev_ind; [by destruct Hx0|].
    unfold last_node in Hx. rewrite fmap_app, end_of_app in Hx. cbn in Hx. subst x.
    rewrite (KeyIsAfterNode_entry s ((la ++ [e]) ++ lb)) by (done || set_solver).
    rewrite bool_decide_eq_true_2; [done|]. apply Forall_app in Hla as [_ Hla]. by inversion Hla. }
  cbn [mbind res_bind negb].
  destruct (probe_level s la lb x level key R Hx Hr Hla Hlv) as
    (next & -> & [(e & la' & ld & -> & Haf & Heq & Hi & Hlt & Hbef)|(Haf & Hn & Hp)]);
    cbn [mbind res_bind]; rewrite Haf; cbn [mbind res_bind].
  - rewrite Heq in R |- *. apply IH; [done|apply last_node_snoc|by apply reaches_snoc|done|done|lia].
  - destruct level as [|level]; [|apply IH; [done|done|by apply reaches_lower|done|lia|lia]].
    subst next. destruct (stop_zero s la lb key R Hla Haf) as [Hlow _]. rewrite <- Hlow. by rewrite Hx.
Qed.

Lemma FindLast_loop_spec s fuel la lb x level :
  represents s (la ++ lb) → last_node x la → reaches level la →
  (level < kMaxHeight)%nat → (length lb + level < fuel)%nat →
  FindLast_loop fuel s x level = Ret (end_of head_ (e_id <$> la ++ lb)).
Proof.
  revert la lb x level. induction fuel as [|fuel IH]; intros la lb x level R Hx Hr Hlv Hf; [lia|].
  cbn [FindLast_loop]. rewrite (Node_Next_split s la lb x level R Hx Hr Hlv). cbn [mbind res_bind].
  destruct (head (at_level level lb)) as [y|] eqn:Hy.
  - destruct (step_forward la lb level y (rp_sorted _ _ R) Hy) as (e & la' & ld & Heq & -> & Hi & _ & Hlt & _).
    rewrite Heq in R |- *. apply IH; [done|apply last_node_snoc|by apply reaches_snoc|done|lia].
  - destruct level as [|level]; [|apply IH; [done|done|by apply reaches_lower|lia|lia]].
    rewrite (at_level_zero s la lb R) in Hy. destruct lb as [|e lb]; [|done]. by rewrite app_nil_r, Hx.
Qed.

(** ** Inserting *)

(** Entry [e] is linked between [la] and [lb] at the levels below [i]. *)
Definition level_list i la lb (e : entry K) j : list nat :=
  if decide (j < i)%nat then at_level j (la ++ e :: lb) else at_level j (la ++ lb).

Definition linked_below s i la lb e : Prop :=
  (∀ j, (j < kMaxHeight)%nat → links s j head_ (level_list i la lb e j))
  ∧ (∀ j, (j < kMaxHeight)%nat → nputs_per_level s !! j = Some (size_of (level_list i la lb e j))).

Lemma NoDup_at_level i x l : NoDup (x :: head_ :: (e_id <$> l)) → NoDup (x :: head_ :: at_level i l).
Proof.
  rewrite !NoDup_cons. intros (Hx & Hh & Hnd). split_and!.
  - rewrite !elem_of_cons in *. intros [?|H%elem_at_level]; tauto.
  - by intros H%elem_at_level.
  - clear Hx Hh. induction l as [|e l IH]; [done|]. rewrite fmap_cons, NoDup_cons in Hnd.
    destruct Hnd as [He Hnd]. rewrite at_level_cons. case_decide; [|by apply IH].
    apply NoDup_cons. split; [by intros H0%elem_at_level|by apply IH].
Qed.

Lemma link_levels_spec n i s la lb e prev :
  linked_below s i la lb e → NoDup (e_id e :: head_ :: (e_id <$> la ++ lb)) →
  (∀ j, (j < e_height e)%nat → is_Some (next_of s j (e_id e))) →
  (∀ j, (i <= j < e_height e)%nat → prev !! j = Some (Some (end_of head_ (at_level j la)))) →
  (n + i = e_height e)%nat → (e_height e <= kMaxHeight)%nat →
  ∃ s', link_levels n i s (e_id e) prev = Ret s' ∧ linked_below s' (e_height e) la lb e ∧ same_shape s s'.
Proof.
  revert i s. induction n as [|n IH]; intros i s [Hlinks Hputs] Hnd Hnx Hprev Hn Hh.
  { cbn in Hn. subst i. exists s. split; [done|]. split; [done|]. done. }
  assert (level_list i la lb e i = at_level i la ++ at_level i lb) as Hold
    by (unfold level_list; rewrite decide_False, at_level_app by lia; done).
  assert (level_list (S i) la lb e i = at_level i la ++ e_id e :: at_level i lb) as Hnew
    by (unfold level_list; rewrite decide_True, at_level_app, at_level_cons, decide_True by lia; done).
  assert (∀ j, j ≠ i → level_list (S i) la lb e j = level_list i la lb e j) as Hother
    by (intros j Hj; unfold level_list; repeat case_decide; done || lia).
  destruct (link_one s i (at_level i la) (at_level i lb) (e_id e)) as
    (nx & s1 & s2 & E1 & E2 & E3 & Hl2 & Hn2 & Hsh & Hp2).
  { rewrite <- Hold. apply Hlinks. lia. }
  { rewrite <- at_level_app. by apply NoDup_at_level. }
  { apply Hnx. lia. }
  cbn [link_levels]. rewrite Hprev, E1 by lia. cbn [mbind res_bind]. rewrite E2. cbn [mbind res_bind].
  rewrite E3. cbn [mbind res_bind]. set (s3 := mkSkipList _ _ _ _).
  destruct (IH (S i) s3) as (s' & -> & Hb & Hs'); [split|done|..|lia|lia|].
  - intros j Hj. destruct (decide (j = i)) as [->|Hne].
    + rewrite Hnew. by apply (links_ext s2).
    + rewrite Hother by done. apply (links_ext s); [|by apply Hlinks]. intros y _. by apply Hn2.
  - intros j Hj. cbn. destruct (decide (j = i)) as [->|Hne].
    + rewrite list_lookup_alter_eq, Hp2, Hputs, Hold, Hnew by done. cbn. rewrite !length_app. cbn.
      f_equal. lia.
    + rewrite list_lookup_alter_ne, Hp2, Hputs, Hother by done. done.
  - intros j Hj. apply (same_shape_next s s2); [done|]. by apply Hnx.
  - intros j Hj. apply Hprev. lia.
  - exists s'. split; [done|]. split; [done|]. destruct Hsh as (A1 & A2 & A3 & A4 & A5), Hs' as (B1 & B2 & B3 & B4 & B5).
    split_and!; [intros z; by rewrite B1|intros z; by rewrite B2|by rewrite B3|by rewrite B4|by rewrite B5].
Qed.

Lemma RandomHeight_loop_bounds rounds height seed :
  (height <= (RandomHeight_loop rounds height seed).1 <= height + rounds)%nat.
Proof.
  revert height seed. induction rounds as [|rounds IH]; intros height seed; cbn [RandomHeight_loop fst]; [lia|].
  case_decide; cbn [fst]; [|lia]. specialize (IH (S height) (Random_Next seed)). lia.
Qed.

Lemma RandomHeight_bounds seed : (1 <= (RandomHeight seed).1 <= kMaxHeight)%nat.
Proof. pose proof (RandomHeight_loop_bounds (kMaxHeight - 1) 1 seed). unfold RandomHeight, kMaxHeight in *. lia. Qed.

Lemma fill_head_lookup n i prev j :
  (i + n <= length prev)%nat →
  fill_head n i prev !! j = if decide (i <= j < i + n)%nat then Some (Some head_) else prev !! j.
Proof.
  revert i prev. induction n as [|n IH]; intros i prev Hlen; cbn [fill_head].
  - by rewrite decide_False by lia.
  - rewrite IH by (rewrite length_insert; lia).
    destruct (decide (j = i)) as [->|Hj].
    + rewrite decide_False, decide_True by lia. by rewrite list_lookup_insert_eq by lia.
    + rewrite list_lookup_insert_ne by done. repeat case_decide; done || lia.
Qed.

(** No node is as high as the list. *)
Lemma at_level_above s l i : represents s l → (max_height_ s <= i)%nat → at_level i l = [].
Proof.
  intros R Hi. unfold at_level. rewrite filter_none; [done|].
  eapply Forall_impl; [exact (rp_heights _ _ R)|]. cbn. lia.
Qed.

Lemma same_shape_lookup s s' z nd :
  same_shape s s' → nodes s !! z = Some nd →
  ∃ nd', nodes s' !! z = Some nd' ∧ node_key nd' = node_key nd ∧ length (next_ nd') = length (next_ nd).
Proof.
  intros (HK & HL & _) Hz. specialize (HK z). specialize (HL z). rewrite Hz in HK, HL.
  destruct (nodes s' !! z) as [nd'|]; [|done]. exists nd'. cbn in *. by simplify_eq.
Qed.

Lemma FindGreaterOrEqual_spec s l key :
  represents s l →
  ∃ prev, FindGreaterOrEqual compare_ s key = Ret (e_id <$> head (upper key l), prev)
    ∧ length prev = kMaxHeight
    ∧ ∀ j, (j < max_height_ s)%nat → prev !! j = Some (Some (prev_node key j l)).
Proof.
  intros R. pose proof (rp_max _ _ R) as Hmax. pose proof (rp_count _ _ R) as Hc.
  destruct (FindGreaterOrEqual_loop_spec s key (search_fuel s) [] l head_ (max_height_ s - 1)
    (replicate kMaxHeight None)) as (prev & E & Hl & Hle & _);
    [done|done|done|constructor|lia|apply length_replicate|unfold search_fuel; lia|].
  exists prev. split; [exact E|]. split; [done|]. intros j Hj. apply Hle. lia.
Qed.

(** The array [prev] after the levels above the list are filled. *)
Lemma prev_filled s l key height prev :
  represents s l → (height <= kMaxHeight)%nat → length prev = kMaxHeight →
  (∀ j, (j < max_height_ s)%nat → prev !! j = Some (Some (prev_node key j l))) →
  ∀ j, (j < height)%nat →
    (if decide (max_height_ s < height)%nat
     then fill_head (height - max_height_ s) (max_height_ s) prev else prev) !! j =
    Some (Some (end_of head_ (at_level j (lower key l)))).
Proof.
  intros R Hh Hlen Hprev j Hj. case_decide as Hlt; [|apply Hprev; lia].
  rewrite fill_head_lookup by lia. case_decide as Hj'; [|apply Hprev; lia].
  assert (at_level j (lower key l) = []) as ->; [|done].
  pose proof (split_sorted key l (rp_sorted _ _ R)) as Hsp.
  pose proof (at_level_above s l j R ltac:(lia)) as Ha. rewrite Hsp, at_level_app in Ha.
  by apply app_eq_nil in Ha as [Ha _].
Qed.

(** The list with the new node, before it is linked. *)
Definition staged s (key : K) (height : nat) (rnd : Z) : SkipList K :=
  mkSkipList (nodes s ++ [mkNode key (replicate height None)]) (max_height_ s `max` height)
    (nputs_per_level s) rnd.

Lemma represents_lt s l x : represents s l → x ∈ head_ :: (e_id <$> l) → (x < length (nodes s))%nat.
Proof.
  intros R [->|(e & -> & He)%list_elem_of_fmap]%elem_of_cons.
  - destruct (rp_head _ _ R) as (hd & Hhd & _). by eapply lookup_lt_Some.
  - pose proof (rp_nodes _ _ R) as Hn. rewrite Forall_forall in Hn.
    destruct (Hn e He) as (nd & Hnd & _). by eapply lookup_lt_Some.
Qed.

Lemma staged_linked s la lb key height rnd :
  represents s (la ++ lb) →
  linked_below (staged s key height rnd) 0 la lb (mkEntry (length (nodes s)) key height).
Proof.
  intros R. split; intros j Hj; unfold level_list; rewrite decide_False by lia.
  - apply (links_ext s); [|by apply (rp_links _ _ R)]. intros y Hy. unfold next_of. cbn [nodes staged].
    rewrite lookup_app_l; [done|]. apply (represents_lt s (la ++ lb)); [done|].
    destruct Hy as [->|Hy%elem_at_level]; set_solver.
  - by apply (rp_nputs _ _ R).
Qed.

Lemma staged_ids s l : represents s l → NoDup (length (nodes s) :: head_ :: (e_id <$> l)).
Proof.
  intros R. apply NoDup_cons. split; [|apply (rp_ids _ _ R)]. intros H.
  pose proof (represents_lt s l _ R H). lia.
Qed.

Lemma staged_next s key height rnd j :
  (j < height)%nat → is_Some (next_of (staged s key height rnd) j (length (nodes s))).
Proof.
  intros Hj. unfold next_of. cbn [nodes staged]. rewrite lookup_app_r, Nat.sub_diag by lia. cbn.
  rewrite lookup_replicate_2 by done. eauto.
Qed.

(** Once linked at all its levels the node is part of the list. *)
Lemma linked_represents s s' la lb key height rnd :
  let e := mkEntry (length (nodes s)) key height in
  represents s (la ++ lb) → linked_below s' height la lb e → same_shape (staged s key height rnd) s' →
  (1 <= height <= kMaxHeight)%nat → Forall (before key) la → Forall (λ e, compare_ key (e_key e) < 0) lb →
  represents s' (la ++ e :: lb).
Proof.
  intros e R [Hlinks Hputs] Hsh Hh Hla Hlb. pose proof (rp_max _ _ R) as Hmax.
  assert (∀ z nd, nodes s !! z = Some nd → ∃ nd', nodes s' !! z = Some nd'
    ∧ node_key nd' = node_key nd ∧ length (next_ nd') = length (next_ nd)) as Hold.
  { intros z nd Hz. apply (same_shape_lookup (staged s key height rnd)); [done|].
    cbn. rewrite lookup_app_l; [done|]. by eapply lookup_lt_Some. }
  destruct Hsh as (HK & HL & HC & HM & HR).
  assert (∀ j, level_list height la lb e j = at_level j (la ++ e :: lb)) as Hll.
  { intros j. unfold level_list. case_decide; [done|].
    by rewrite !at_level_app, at_level_cons, decide_False by (cbn; lia). }
  split.
  - destruct (rp_head _ _ R) as (hd & Hhd & Hlen). destruct (Hold _ _ Hhd) as (hd' & H1 & _ & H3).
    exists hd'. split; [done|]. by rewrite H3.
  - pose proof (rp_nodes _ _ R) as Hn. apply Forall_app in Hn as [Hn1 Hn2].
    assert (∀ l, Forall (λ e, ∃ nd, nodes s !! e_id e = Some nd ∧ node_key nd = e_key e
                          ∧ length (next_ nd) = e_height e) l →
      Forall (λ e, ∃ nd, nodes s' !! e_id e = Some nd ∧ node_key nd = e_key e
                          ∧ length (next_ nd) = e_height e) l) as Hkeep.
    { intros l Hl. eapply Forall_impl; [exact Hl|]. intros e0 (nd & H1 & H2 & H3).
      destruct (Hold _ _ H1) as (nd' & H1' & H2' & H3'). exists nd'. split_and!; congruence. }
    apply Forall_app. split; [by apply Hkeep|]. constructor; [|by apply Hkeep].
    specialize (HK (length (nodes s))). specialize (HL (length (nodes s))). cbn [nodes staged] in HK, HL.
    rewrite lookup_app_r, Nat.sub_diag in HK, HL by lia. cbn in *.
    destruct (nodes s' !! length (nodes s)) as [nd|]; [|done]. exists nd. simplify_eq/=.
    split_and!; [done|done|]. by rewrite length_replicate in *.
  - rewrite HC. cbn. pose proof (rp_count _ _ R) as Hc. rewrite !length_app in *. cbn in *. lia.
  - pose proof (staged_ids _ _ R) as Hnd. rewrite !fmap_app in *. cbn [fmap list_fmap e_id e].
    change (head_ :: (e_id <$> la) ++ ?x) with ((head_ :: (e_id <$> la)) ++ x).
    by rewrite <- Permutation_middle.
  - rewrite HM. cbn. pose proof (rp_heights _ _ R) as Hhs. apply Forall_app in Hhs as [H1 H2].
    apply Forall_app. split; [|constructor; [cbn; lia|]]; (eapply Forall_impl; [eassumption|]; cbn; lia).
  - rewrite HM. cbn. lia.
  - intros i Hi. rewrite <- Hll. by apply Hlinks.
  - pose proof (rp_sorted _ _ R) as Hs. apply StronglySorted_app in Hs as (Hs1 & Hs2 & Hs3).
    rewrite Forall_forall in Hla. apply StronglySorted_app. split_and!; [|done|].
    + intros e1 e2 H1 [->|H2]%elem_of_cons; [by apply Hla|by apply Hs1].
    + by constructor.
  - intros i Hi. rewrite <- Hll. by apply Hputs.
Qed.

Lemma Insert_represents s l key :
  represents s l → Forall (λ e, compare_ (e_key e) key ≠ 0) l →
  ∃ s' e, Insert compare_ s key = Ret s' ∧ e_key e = key
    ∧ represents s' (lower key l ++ e :: upper key l).
Proof.
  intros R Hne. destruct (FindGreaterOrEqual_spec s l key R) as (prev & E & Hlen & Hprev).
  pose proof (split_sorted key l (rp_sorted _ _ R)) as Hsp.
  unfold Insert. rewrite E. cbn [mbind res_bind].
  assert (∀ e, e ∈ upper key l → e ∈ l) as Hup by (intros e [_ He]%list_elem_of_filter; done).
  assert (match e_id <$> head (upper key l) with
          | None => Ret false
          | Some x => k ← Node_key s x; Ret (Equal compare_ key k)
          end = Ret false) as ->.
  { destruct (upper key l) as [|e u] eqn:Eu; [done|]. cbn [head fmap option_fmap option_map].
    rewrite (Node_key_entry s l e R) by (apply Hup; set_solver). cbn [mbind res_bind]. unfold Equal.
    rewrite bool_decide_eq_false_2; [done|]. rewrite Forall_forall in Hne.
    specialize (Hne e (Hup e ltac:(set_solver))). pose proof (tc_antisym key (e_key e)).
    pose proof (tc_antisym (e_key e) key). lia. }
  cbn [mbind res_bind]. pose proof (RandomHeight_bounds (rnd_ s)) as Hh.
  destruct (RandomHeight (rnd_ s)) as [height rnd]. cbn [fst] in Hh.
  pose proof (prev_filled s l key height prev R ltac:(lia) Hlen Hprev) as Hpf.
  set (prev' := if decide _ then _ else _) in *. cbn [NewNode].
  destruct (link_levels_spec height 0 (staged s key height rnd) (lower key l) (upper key l)
    (mkEntry (length (nodes s)) key height) prev') as (s' & El & Hb & Hsh);
    [|rewrite <- Hsp; by apply staged_ids|apply staged_next|intros j [_ Hj]; by apply Hpf|cbn; lia|cbn; lia|].
  - apply staged_linked. by rewrite <- Hsp.
  - exists s', (mkEntry (length (nodes s)) key height). split; [exact El|]. split; [done|].
    eapply linked_represents; [by rewrite <- Hsp|exact Hb|exact Hsh|done|apply Forall_forall..].
    + by intros e [He _]%list_elem_of_filter.
    + intros e [He Hin]%list_elem_of_filter. unfold before in He. rewrite Forall_forall in Hne.
      specialize (Hne e Hin). pose proof (tc_antisym key (e_key e)). pose proof (tc_antisym (e_key e) key). lia.
Qed.

Lemma init_represents zero : represents (SkipList_init zero) [].
Proof.
  split.
  - eexists. split; [done|]. apply length_replicate.
  - constructor.
  - done.
  - apply NoDup_singleton.
  - constructor.
  - cbn. unfold kMaxHeight. lia.
  - intros i Hi. split; [done|]. exact (lookup_replicate_2 kMaxHeight (@None nat) i Hi).
  - constructor.
  - intros i Hi. exact (lookup_replicate_2 kMaxHeight 0 i Hi).
Qed.

(** An equal key makes the assertion of [Insert] fail. *)
Lemma Insert_duplicate s l key :
  represents s l → Exists (λ e, compare_ (e_key e) key = 0) l → Insert compare_ s key = Abort.
Proof.
  intros R (e & He & Heq)%Exists_exists. destruct (FindGreaterOrEqual_spec s l key R) as (prev & E & _).
  unfold Insert. rewrite E. cbn [mbind res_bind].
  pose proof (split_sorted key l (rp_sorted _ _ R)) as Hsp.
  assert (e ∈ upper key l) as Hu by (apply list_elem_of_filter; split; [unfold before; lia|done]).
  destruct (upper key l) as [|e' u] eqn:Eu; [by apply elem_of_nil in Hu|].
  assert (e' ∈ upper key l) as [Hb' Hin']%list_elem_of_filter by (rewrite Eu; set_solver).
  cbn [head fmap option_fmap option_map]. rewrite (Node_key_entry s l e' R) by done. cbn [mbind res_bind].
  assert (compare_ (e_key e') key <= 0) as Hle.
  { apply elem_of_cons in Hu as [->|Hu]; [lia|]. pose proof (rp_sorted _ _ R) as Hs.
    rewrite Hsp in Hs. apply StronglySorted_app_1_r in Hs. apply StronglySorted_inv in Hs as [_ Hs].
    rewrite Forall_forall in Hs. specialize (Hs e Hu). unfold entry_lt in Hs.
    apply (tc_le_trans _ (e_key e)); lia. }
  unfold before in Hb'. unfold Equal. rewrite bool_decide_eq_true_2; [done|].
  pose proof (tc_antisym key (e_key e')). pose proof (tc_antisym (e_key e') key). lia.
Qed.

Lemma FindLessThan_spec s l key :
  represents s l → FindLessThan compare_ s key = Ret (end_of head_ (e_id <$> lower key l)).
Proof.
  intros R. pose proof (rp_max _ _ R). pose proof (rp_count _ _ R).
  apply (FindLessThan_loop_spec s key _ [] l); [done|done|done|constructor|lia|unfold search_fuel; lia].
Qed.

Lemma FindLast_spec s l : represents s l → FindLast s = Ret (end_of head_ (e_id <$> l)).
Proof.
  intros R. pose proof (rp_max _ _ R). pose proof (rp_count _ _ R).
  apply (FindLast_loop_spec s _ [] l); [done|done|done|lia|unfold search_fuel; lia].
Qed.

(** The position before index [i], with the head as [nullptr]. *)
Lemma not_head_end s l la lb :
  represents s l → l = la ++ lb → not_head (end_of head_ (e_id <$> la)) = e_id <$> last la.
Proof.
  intros R ->. destruct la as [|e la _] using rev_ind; [done|].
  rewrite fmap_app, end_of_app, last_snoc. cbn. unfold not_head. rewrite decide_False; [done|].
  pose proof (rp_ids _ _ R) as Hnd. apply NoDup_cons in Hnd as [Hnd _]. intros Heq. apply Hnd.
  rewrite <- Heq. apply list_elem_of_fmap_2. set_solver.
Qed.

(** ** Iterators *)

(** The iterator is at position [i] of the nodes of its level, past the end
    when [i] is not below their number. *)
Definition points l (it : Iterator) (i : nat) : Prop := node_ it = at_level (iter_level_ it) l !! i.

Lemma Iterator_SeekToFirst_spec s l it :
  represents s l → (iter_level_ it < kMaxHeight)%nat →
  ∃ it', Iterator_SeekToFirst s it = Ret it' ∧ points l it' 0.
Proof.
  intros R Hi. pose proof (links_head _ _ _ _ (rp_links _ _ R _ Hi)) as Hh.
  unfold Iterator_SeekToFirst, Node_Next. change (nodes s !! head_ ≫= _) with (next_of s (iter_level_ it) head_).
  rewrite Hh. eexists. split; [done|]. unfold points. cbn. by destruct (at_level _ l).
Qed.

Lemma Iterator_Next_spec s l it i :
  represents s l → (iter_level_ it < kMaxHeight)%nat → points l it i → Iterator_Valid it = true →
  ∃ it', Iterator_Next s it = Ret it' ∧ points l it' (S i).
Proof.
  intros R Hi Hp Hv. unfold points, Iterator_Next, Iterator_Valid in *. rewrite Hp in *.
  destruct (at_level (iter_level_ it) l !! i) as [y|] eqn:Hy; [|done].
  pose proof (links_next _ _ _ _ _ _ (rp_links _ _ R _ Hi) Hy) as Hn. unfold Node_Next.
  change (nodes s !! y ≫= _) with (next_of s (iter_level_ it) y). rewrite Hn. eexists. by split.
Qed.

(** ** The keys of a skip list *)

(** [s] holds the keys [ks], in this order. *)
Definition contents s (ks : list K) : Prop := ∃ l, represents s l ∧ e_key <$> l = ks.

(** An iterator over all the keys is at position [i] of [ks]. *)
Definition cursor s (ks : list K) (it : Iterator) (i : nat) : Prop :=
  ∃ l, represents s l ∧ e_key <$> l = ks ∧ points l it i ∧ iter_level_ it = 0%nat ∧ sampled_puts_ it = 0.

Definition key_lower key (ks : list K) := filter (λ k, compare_ k key < 0) ks.
Definition key_upper key (ks : list K) := filter (λ k, ¬ compare_ k key < 0) ks.

Lemma lower_keys key l : e_key <$> lower key l = key_lower key (e_key <$> l).
Proof. by apply fmap_filter. Qed.

Lemma upper_keys key l : e_key <$> upper key l = key_upper key (e_key <$> l).
Proof. by apply fmap_filter. Qed.

Lemma contents_split s ks key : contents s ks → ks = key_lower key ks ++ key_upper key ks.
Proof.
  intros (l & R & <-). rewrite <- lower_keys, <- upper_keys, <- fmap_app.
  by rewrite <- split_sorted by apply (rp_sorted _ _ R).
Qed.

Lemma contents_sorted s ks : contents s ks → StronglySorted (λ a b, compare_ a b < 0) ks.
Proof.
  intros (l & R & <-). pose proof (rp_sorted _ _ R) as Hs. clear R.
  induction Hs as [|e l Hs IH He]; [constructor|]. cbn. constructor; [done|by apply Forall_fmap].
Qed.

Lemma contents_insert s ks key :
  contents s ks → Forall (λ k, compare_ k key ≠ 0) ks →
  ∃ s', Insert compare_ s key = Ret s' ∧ contents s' (key_lower key ks ++ key :: key_upper key ks).
Proof.
  intros (l & R & <-) Hne. rewrite Forall_fmap in Hne.
  destruct (Insert_represents s l key R Hne) as (s' & e & E & <- & R'). exists s'. split; [done|].
  eexists. split; [exact R'|]. by rewrite fmap_app, fmap_cons, lower_keys, upper_keys.
Qed.

Lemma contents_init zero : contents (SkipList_init zero) [].
Proof. exists []. split; [apply init_represents|done]. Qed.

Lemma cursor_key s ks it i k : cursor s ks it i → ks !! i = Some k → Iterator_key s it = Ret k.
Proof.
  intros (l & R & <- & Hp & Hlv & _) Hk. unfold points, Iterator_key in *. rewrite Hp, Hlv.
  rewrite (at_level_all s l R). rewrite list_lookup_fmap in Hk. rewrite list_lookup_fmap.
  destruct (l !! i) as [e|] eqn:He; [|done]. cbn in *. injection Hk as <-.
  apply (Node_key_entry s l); [done|]. by eapply list_elem_of_lookup_2.
Qed.

Lemma cursor_valid s ks it i : cursor s ks it i → Iterator_Valid it = bool_decide (i < length ks)%nat.
Proof.
  intros (l & R & <- & Hp & Hlv & _). unfold points, Iterator_Valid in *. rewrite Hp, Hlv.
  rewrite (at_level_all s l R), length_fmap, list_lookup_fmap. apply bool_decide_ext.
  rewrite not_eq_None_Some, fmap_is_Some. apply lookup_lt_is_Some.
Qed.

Lemma cursor_seek s ks it target :
  contents s ks → iter_level_ it = 0%nat → sampled_puts_ it = 0 →
  ∃ it', Iterator_Seek compare_ s it target = Ret it' ∧ cursor s ks it' (length (key_lower target ks)).
Proof.
  intros (l & R & <-) Hlv Hsp. destruct (FindGreaterOrEqual_spec s l target R) as (prev & E & _).
  unfold Iterator_Seek. rewrite decide_True, E by done. eexists. split; [done|].
  exists l. split_and!; [done|done| |done|done]. unfold points. cbn. rewrite Hlv, (at_level_all s l R).
  rewrite <- lower_keys, length_fmap, list_lookup_fmap.
  rewrite (split_sorted target l (rp_sorted _ _ R)) at 3. rewrite lookup_app_r, Nat.sub_diag by lia.
  by destruct (upper target l).
Qed.

Lemma cursor_first s ks it :
  contents s ks → iter_level_ it = 0%nat → sampled_puts_ it = 0 →
  ∃ it', Iterator_SeekToFirst s it = Ret it' ∧ cursor s ks it' 0.
Proof.
  intros (l & R & <-) Hlv Hsp. destruct (Iterator_SeekToFirst_spec s l it R) as (it' & E & Hp).
  { rewrite Hlv. unfold kMaxHeight. lia. }
  exists it'. split; [done|]. exists l. split_and!; [done|done|done|..];
    unfold Iterator_SeekToFirst in E; destruct (Node_Next _ _ _); cbn in E; by simplify_eq.
Qed.

Lemma cursor_next s ks it i :
  cursor s ks it i → (i < length ks)%nat → ∃ it', Iterator_Next s it = Ret it' ∧ cursor s ks it' (S i).
Proof.
  intros C Hi. pose proof (cursor_valid _ _ _ _ C) as Hv. rewrite bool_decide_eq_true_2 in Hv by done.
  destruct C as (l & R & <- & Hp & Hlv & Hsp).
  destruct (Iterator_Next_spec s l it i R) as (it' & E & Hp'); [rewrite Hlv; unfold kMaxHeight; lia|done|done|].
  exists it'. split; [done|]. exists l. split_and!; [done|done|done|..];
    unfold Iterator_Next in E; destruct (node_ it); cbn in E; try done;
    destruct (Node_Next _ _ _); cbn in E; by simplify_eq.
Qed.

(** The entries before a key of the list are those at smaller positions. *)
Lemma lower_take l i e : StronglySorted entry_lt l → l !! i = Some e → lower (e_key e) l = take i l.
Proof.
  intros Hs He. rewrite <- (take_drop_middle l i e He) in Hs |- * at 1.
  apply StronglySorted_app in Hs as (H1 & H2 & H3). apply StronglySorted_inv in H3 as [_ H3].
  unfold lower. rewrite filter_app, filter_all.
  - rewrite filter_none; [by rewrite app_nil_r|]. constructor.
    + unfold before. rewrite (tc_refl compare_). lia.
    + eapply Forall_impl; [exact H3|]. intros e' He'. unfold before, entry_lt in *.
      apply (tc_not_lt compare_). lia.
  - apply Forall_forall. intros e' He'. apply (H1 e' e); [done|]. by left.
Qed.

Lemma last_take_lookup l i :
  (i <= length l)%nat → last (take i l) = l !! back_from (length l) i.
Proof.
  intros Hi. rewrite last_lookup, length_take, Nat.min_l by done. destruct i as [|i]; cbn [back_from Nat.pred].
  - rewrite take_0. cbn. symmetry. by apply lookup_ge_None.
  - apply lookup_take_lt. lia.
Qed.

Lemma cursor_prev s ks it i :
  cursor s ks it i → (i < length ks)%nat →
  ∃ it', Iterator_Prev compare_ s it = Ret it' ∧ cursor s ks it' (back_from (length ks) i).
Proof.
  intros (l & R & <- & Hp & Hlv & Hsp) Hi. rewrite length_fmap in *.
  apply lookup_lt_is_Some in Hi as [e He]. unfold points in Hp. rewrite Hlv, (at_level_all s l R) in Hp.
  rewrite list_lookup_fmap, He in Hp. cbn in Hp.
  unfold Iterator_Prev. rewrite decide_True, Hp by done.
  rewrite (Node_key_entry s l e R) by (by eapply list_elem_of_lookup_2). cbn [mbind res_bind].
  rewrite (FindLessThan_spec s l (e_key e) R). cbn [mbind res_bind]. eexists. split; [done|].
  exists l. split_and!; [done|done| |done|done]. unfold points. cbn. rewrite Hlv, (at_level_all s l R).
  rewrite (not_head_end s l _ (upper (e_key e) l) R) by apply (split_sorted _ _ (rp_sorted _ _ R)).
  rewrite (lower_take l i e (rp_sorted _ _ R) He), list_lookup_fmap. f_equal.
  apply last_take_lookup. apply lookup_lt_Some in He. lia.
Qed.

Lemma cursor_last s ks it :
  contents s ks → iter_level_ it = 0%nat → sampled_puts_ it = 0 →
  ∃ it', Iterator_SeekToLast s it = Ret it' ∧ cursor s ks it' (back_from (length ks) (length ks)).
Proof.
  intros (l & R & <-) Hlv Hsp. unfold Iterator_SeekToLast. rewrite decide_True, (FindLast_spec s l R) by done.
  eexists. split; [done|]. exists l. split_and!; [done|done| |done|done]. unfold points. cbn.
  rewrite Hlv, (at_level_all s l R), length_fmap, list_lookup_fmap.
  rewrite (not_head_end s l l []) by (done || by rewrite app_nil_r). f_equal.
  rewrite <- (firstn_all l) at 1. by apply last_take_lookup.
Qed.

Lemma contents_contains s ks key :
  contents s ks → Contains compare_ s key = Ret (bool_decide (Exists (λ k, compare_ k key = 0) ks)).
Proof.
  intros (l & R & <-). unfold Contains. destruct (FindGreaterOrEqual_spec s l key R) as (prev & -> & _).
  cbn [mbind res_bind]. pose proof (split_sorted key l (rp_sorted _ _ R)) as Hsp.
  pose proof (rp_sorted _ _ R) as Hs. rewrite Hsp in Hs. apply StronglySorted_app_1_r in Hs.
  assert (∀ a, compare_ a key = 0 ↔ compare_ key a = 0) as Hsym
    by (intros a; pose proof (tc_antisym a key); pose proof (tc_antisym key a); lia).
  rewrite (bool_decide_ext _ (Exists (λ e, compare_ (e_key e) key = 0) (upper key l))).
  - destruct (upper key l) as [|e u] eqn:Eu; cbn [head fmap option_fmap option_map]; [done|].
    assert (e ∈ upper key l) as [Hb Hin]%list_elem_of_filter by (rewrite Eu; set_solver).
    rewrite (Node_key_entry s l e R) by done. cbn [mbind res_bind]. unfold Equal. f_equal.
    apply bool_decide_ext. rewrite Exists_cons, <- Hsym. split; [by left|].
    intros [H|(e' & He' & Heq)%Exists_exists]; [done|]. apply StronglySorted_inv in Hs as [_ Hs].
    rewrite Forall_forall in Hs. specialize (Hs e' He'). unfold entry_lt, before in *.
    pose proof (tc_lt_le_trans compare_ (e_key e) (e_key e') key Hs). lia.
  - rewrite Exists_fmap, !Exists_exists. split; intros (e & He & Heq); exists e; (split; [|done]).
    + apply list_elem_of_filter. split; [|done]. unfold before. cbn in Heq. lia.
    + by apply list_elem_of_filter in He as [_ He].
Qed.
End represents.

(** ** Properties *)

(** C13. A skip list is a sorted set of keys: inserting a key that is not in it
    puts the key at its place, whatever height it is given, and leaves the
    other keys; inserting a key that is already there fails the assertion;
    [Contains] decides membership; and no search runs out of steps or follows
    a link that is not there. *)
Theorem skiplist_insert_refines {K} (cmp : K → K → Z) (TC : TotalCompare cmp) s ks key :
  contents cmp s ks →
  (Forall (λ k, cmp k key ≠ 0) ks →
     ∃ s', Insert cmp s key = Ret s' ∧ contents cmp s' (key_lower cmp key ks ++ key :: key_upper cmp key ks))
  ∧ (Exists (λ k, cmp k key = 0) ks → Insert cmp s key = Abort)
  ∧ Contains cmp s key = Ret (bool_decide (Exists (λ k, cmp k key = 0) ks))
  ∧ StronglySorted (λ a b, cmp a b < 0) ks.
Proof.
  intros C. split_and!.
  - by apply contents_insert.
  - destruct C as (l & R & <-). rewrite Exists_fmap. by apply Insert_duplicate.
  - by apply contents_contains.
  - by eapply contents_sorted.
Qed.

Definition Zcompare (a b : Z) : Z := a - b.
#[export] Instance Zcompare_total : TotalCompare Zcompare.
Proof. split; unfold Zcompare; lia. Qed.

Lemma skiplist_insert_refines_witness :
  ∃ s s', Insert Zcompare (SkipList_init 0) 5 = Ret s ∧ Insert Zcompare s 3 = Ret s' ∧ contents Zcompare s' [3; 5].
Proof.
  destruct (skiplist_insert_refines Zcompare Zcompare_total (SkipList_init 0) [] 5) as [H1 _];
    [apply contents_init|]. destruct H1 as (s & E & C); [constructor|].
  destruct (skiplist_insert_refines Zcompare Zcompare_total s [5] 3 C) as [H2 _].
  destruct H2 as (s' & E' & C'); [repeat constructor; vm_compute; discriminate|].
  exists s, s'. split_and!; [exact E|exact E'|exact C'].
Defined.

(** An iterator of a skip list is a cursor in the sorted sequence of keys:
    [Seek] moves it to the first key at or after the target, [SeekToFirst] and
    [SeekToLast] to the ends, [Next] and [Prev] by one position, and past
    either end it is not [Valid]. *)
Lemma skiplist_iterator_refines {K} (cmp : K → K → Z) (TC : TotalCompare cmp) s ks :
  contents cmp s ks →
  let it0 := Iterator_init s 0 in
  (∃ it, Iterator_SeekToFirst s it0 = Ret it ∧ cursor cmp s ks it 0)
  ∧ (∃ it, Iterator_SeekToLast s it0 = Ret it ∧ cursor cmp s ks it (back_from (length ks) (length ks)))
  ∧ (∀ target, ∃ it, Iterator_Seek cmp s it0 target = Ret it
       ∧ cursor cmp s ks it (length (key_lower cmp target ks)))
  ∧ (∀ it i, cursor cmp s ks it i →
       Iterator_Valid it = bool_decide (i < length ks)%nat
       ∧ (∀ k, ks !! i = Some k → Iterator_key s it = Ret k)
       ∧ ((i < length ks)%nat →
           (∃ it', Iterator_Next s it = Ret it' ∧ cursor cmp s ks it' (S i))
           ∧ (∃ it', Iterator_Prev cmp s it = Ret it' ∧ cursor cmp s ks it' (back_from (length ks) i)))).
Proof.
  intros C it0. split_and!.
  - by apply cursor_first.
  - by apply cursor_last.
  - intros target. by apply cursor_seek.
  - intros it i Hc. split_and!; [by apply (cursor_valid cmp s)|intros k; by apply (cursor_key cmp s ks)|].
    intros Hi. split; [by apply cursor_next|by apply cursor_prev].
Qed.

Lemma minstd_not_multiple seed : 0 < seed < 2 ^ 31 - 1 → (seed * 16807) mod (2 ^ 31 - 1) ≠ 0.
Proof.
  intros Hs Hz. apply Z.mod_divide in Hz; [|lia]. rewrite Z.mul_comm in Hz.
  apply Z.gauss in Hz; [|vm_compute; reflexivity]. apply Z.divide_pos_le in Hz; lia.
Qed.

(** The generator computes the sequence it documents: [Next] multiplies
    the seed by 16807 modulo 2^31 - 1, without any division, and the seed
    never becomes 0 or 2^31 - 1. *)
Theorem random_next_modular s :
  let M := 2 ^ 31 - 1 in
  0 < Random_init s < M
  ∧ ∀ seed, 0 < seed < M → Random_Next seed = (seed * 16807) mod M ∧ 0 < Random_Next seed < M.
Proof.
  intros M. subst M. split.
  - unfold Random_init. pose proof (land_pow2_ones s 31) as Hl. change (2 ^ 31 - 1) with 2147483647 in *.
    rewrite Hl by lia. pose proof (Z.mod_pos_bound s (2 ^ 31)). case_decide; mlia.
  - intros seed Hs. pose proof (minstd_not_multiple seed Hs) as Hnz.
    assert (Random_Next seed = (seed * 16807) mod (2 ^ 31 - 1)) as E.
    { unfold Random_Next. rewrite w64_small by mlia. set (p := seed * 16807) in *.
      change 2147483647 with (2 ^ 31 - 1). rewrite land_pow2_ones, Z.shiftr_div_pow2 by lia.
      pose proof (Z.div_mod p (2 ^ 31)) as Hdm. pose proof (Z.mod_pos_bound p (2 ^ 31)).
      assert (0 <= p / 2 ^ 31 < 16807) by (split; [apply Z.div_pos|apply Z.div_lt_upper_bound]; lia).
      set (q := p / 2 ^ 31) in *. set (r := p mod 2 ^ 31) in *.
      assert (p = (q + r) + q * (2 ^ 31 - 1)) as Hp by lia.
      assert (p mod (2 ^ 31 - 1) = (q + r) mod (2 ^ 31 - 1)) as Hm by (rewrite Hp; apply Z_mod_plus_full).
      rewrite w32_small by mlia. rewrite Hm in Hnz |- *. case_decide.
      - rewrite w32_small by mlia. rewrite <- (Z_mod_plus_full _ (-1)), Z.mod_small; lia.
      - assert (q + r ≠ 2 ^ 31 - 1) by (intros Heq; rewrite Heq, Z_mod_same_full in Hnz; done).
        rewrite Z.mod_small; lia. }
    split; [done|]. rewrite E in *. pose proof (Z.mod_pos_bound (seed * 16807) (2 ^ 31 - 1)). lia.
Qed.
