(* ===== verification/Arena.v ===== *)
(** * Arena: the memory of a memtable

    [util/arena.h] and [util/arena.cc].  Addresses are integers, [nullptr] is
    0; the block returned by [new char[n]] is a parameter that depends on the
    blocks allocated so far. *)

From S2P Require Import Prelude.

Record Arena := mkArena {
  alloc_ptr_ : Z;
  alloc_bytes_remaining_ : Z;
  blocks_ : list (Z * Z);
  memory_usage_ : Z
}.

Definition Arena_init : Arena := mkArena 0 0 [] 0.

Definition kBlockSize : Z := 4096.

Section arena.
(** [new char[n]], given the blocks already allocated. *)
Context (new_char : list (Z * Z) → Z → Z).

(** [AllocateNewBlock(block_bytes)]. *)
Definition AllocateNewBlock (a : Arena) (block_bytes : Z) : Arena * Z :=
  let result := new_char (blocks_ a) block_bytes in
  (mkArena (alloc_ptr_ a) (alloc_bytes_remaining_ a) (blocks_ a ++ [(result, block_bytes)])
     (w64 (memory_usage_ a + w64 (block_bytes + 8))), result).

(** [AllocateFallback(bytes)]. *)
Definition AllocateFallback (a : Arena) (bytes : Z) : Arena * Z :=
  if decide (bytes > kBlockSize `div` 4) then AllocateNewBlock a bytes
  else
    let '(a, result) := AllocateNewBlock a kBlockSize in
    (mkArena (result + bytes) (kBlockSize - bytes) (blocks_ a) (memory_usage_ a), result).

(** [Allocate(bytes)]. *)
Definition Allocate (a : Arena) (bytes : Z) : res (Arena * Z) :=
  if decide (bytes > 0) then
    if decide (bytes <= alloc_bytes_remaining_ a) then
      Ret (mkArena (alloc_ptr_ a + bytes) (alloc_bytes_remaining_ a - bytes) (blocks_ a) (memory_usage_ a),
           alloc_ptr_ a)
    else Ret (AllocateFallback a bytes)
  else Abort.

(** [AllocateAligned(bytes)]. *)
Definition AllocateAligned (a : Arena) (bytes : Z) : res (Arena * Z) :=
  let align := 8 in
  let current_mod := Z.land (alloc_ptr_ a) (align - 1) in
  let slop := if decide (current_mod = 0) then 0 else align - current_mod in
  let needed := w64 (bytes + slop) in
  let '(a, result) :=
    if decide (needed <= alloc_bytes_remaining_ a) then
      (mkArena (alloc_ptr_ a + needed) (alloc_bytes_remaining_ a - needed) (blocks_ a) (memory_usage_ a),
       alloc_ptr_ a + slop)
    else AllocateFallback a bytes in
  if decide (Z.land result (align - 1) = 0) then Ret (a, result) else Abort.

(** [MemoryUsage()]. *)
Definition MemoryUsage (a : Arena) : Z := memory_usage_ a.

(** A sequence of requests: the size, and whether it is aligned.  The
    addresses returned. *)
Fixpoint allocate_all (a : Arena) (reqs : list (Z * bool)) : res (Arena * list (Z * Z)) :=
  match reqs with
  | [] => Ret (a, [])
  | (n, aligned) :: reqs =>
      '(a, p) ← (if aligned : bool then AllocateAligned a n else Allocate a n);
      '(a, ps) ← allocate_all a reqs;
      Ret (a, (p, n) :: ps)
  end.

(** ** Disjointness of what is allocated *)

(** Regions are pairs of an address and a size. *)
Definition inside (r b : Z * Z) : Prop := b.1 <= r.1 ∧ r.1 + r.2 <= b.1 + b.2.
Definition disjoint_regions (r s : Z * Z) : Prop := r.1 + r.2 <= s.1 ∨ s.1 + s.2 <= r.1.

(** What [new] promises: a fresh, aligned block. *)
Hypothesis new_char_fresh : ∀ blocks n, 0 < n → Forall (disjoint_regions (new_char blocks n, n)) blocks.
Hypothesis new_char_aligned : ∀ blocks n, new_char blocks n mod 8 = 0.

(** The arena after handing out [rs]: the regions are apart, inside the blocks,
    and the free part of the current block meets none of them. *)
Record arena_ok (a : Arena) (rs : list (Z * Z)) : Prop := {
  ar_free : alloc_bytes_remaining_ a = 0
    ∨ 0 < alloc_bytes_remaining_ a
      ∧ Exists (inside (alloc_ptr_ a, alloc_bytes_remaining_ a)) (blocks_ a)
      ∧ Forall (disjoint_regions (alloc_ptr_ a, alloc_bytes_remaining_ a)) rs;
  ar_inside : Forall (λ r, Exists (inside r) (blocks_ a)) rs;
  ar_disjoint : ForallOrdPairs disjoint_regions rs
}.

Lemma disjoint_sym r s : disjoint_regions r s → disjoint_regions s r.
Proof. unfold disjoint_regions. lia. Qed.

(** Parts of disjoint regions are disjoint. *)
Lemma disjoint_inside r s b : inside r b → disjoint_regions b s → disjoint_regions r s.
Proof. unfold disjoint_regions, inside. lia. Qed.

Lemma pairs_middle rs1 r rs2 :
  ForallOrdPairs disjoint_regions (rs1 ++ r :: rs2) → ForallOrdPairs disjoint_regions (r :: rs1 ++ rs2).
Proof.
  induction rs1 as [|s rs1 IH]; [done|]. cbn. intros H. inversion H as [|? ? H1 H2]; subst.
  apply IH in H2. inversion H2 as [|? ? H3 H4]; subst. apply Forall_app in H1 as [H1 H1'].
  inversion H1' as [|? ? Hsr H1'']; subst.
  constructor; [constructor; [by apply disjoint_sym|done]|]. constructor; [by apply Forall_app|done].
Qed.

(** A region of the free part: the rest of the free part stays apart. *)
Lemma take_free a rs p n free :
  arena_ok a rs → 0 < n → 0 < alloc_bytes_remaining_ a → alloc_ptr_ a <= p →
  p + n + free = alloc_ptr_ a + alloc_bytes_remaining_ a → 0 <= free →
  arena_ok (mkArena (p + n) free (blocks_ a) (memory_usage_ a)) ((p, n) :: rs).
Proof.
  intros [[H0|(_ & Hb & Hd)] Hi Hp] Hn Hr Hge Heq Hf; [lia|].
  assert (inside (p, n) (alloc_ptr_ a, alloc_bytes_remaining_ a)) as Hin by (unfold inside; cbn; lia).
  split; cbn [alloc_bytes_remaining_ alloc_ptr_ blocks_].
  - destruct (decide (free = 0)) as [->|]; [by left|]. right. split_and!; [lia|..].
    + eapply Exists_impl; [exact Hb|]. intros b. unfold inside. cbn. lia.
    + constructor; [unfold disjoint_regions; cbn; lia|]. eapply Forall_impl; [exact Hd|].
      intros s. apply disjoint_inside. unfold inside. cbn. lia.
  - constructor; [|done]. eapply Exists_impl; [exact Hb|]. unfold inside. cbn. lia.
  - constructor; [|done]. eapply Forall_impl; [exact Hd|]. intros s. by apply disjoint_inside.
Qed.

(** A fresh block meets no region handed out. *)
Lemma fresh_block a rs n s :
  arena_ok a rs → 0 < n → inside s (new_char (blocks_ a) n, n) → Forall (disjoint_regions s) rs.
Proof.
  intros Ha Hn Hs. eapply Forall_impl; [exact (ar_inside _ _ Ha)|].
  intros r (b & Hb & Hrb)%Exists_exists. pose proof (new_char_fresh (blocks_ a) n Hn) as Hf.
  rewrite Forall_forall in Hf. apply (disjoint_inside _ _ _ Hs), disjoint_sym.
  apply (disjoint_inside _ _ _ Hrb), disjoint_sym, Hf, Hb.
Qed.

Lemma AllocateFallback_ok a rs n :
  arena_ok a rs → 0 < n →
  let '(a', p) := AllocateFallback a n in arena_ok a' ((p, n) :: rs) ∧ p mod 8 = 0.
Proof.
  intros Ha Hn. unfold AllocateFallback, AllocateNewBlock. case_decide as Hbig; cbn [blocks_ memory_usage_].
  - split; [|apply new_char_aligned]. set (p := new_char (blocks_ a) n).
    assert (Forall (disjoint_regions (p, n)) rs) as Hp
      by (apply (fresh_block a rs n); [done|done|unfold inside; cbn; lia]).
    split; cbn [alloc_bytes_remaining_ alloc_ptr_ blocks_].
    + destruct (ar_free _ _ Ha) as [H0|(H1 & H2 & H3)]; [by left|]. right. split_and!; [done|..].
      * apply Exists_app. by left.
      * constructor; [|done]. apply Exists_exists in H2 as (b & Hb & Hin).
        pose proof (new_char_fresh (blocks_ a) n Hn) as Hf. rewrite Forall_forall in Hf.
        apply (disjoint_inside _ _ _ Hin), disjoint_sym, Hf, Hb.
    + constructor; [apply Exists_app; right; constructor; unfold inside; cbn; lia|].
      eapply Forall_impl; [exact (ar_inside _ _ Ha)|]. intros r Hr. apply Exists_app. by left.
    + constructor; [done|apply (ar_disjoint _ _ Ha)].
  - split; [|apply new_char_aligned]. set (p := new_char (blocks_ a) kBlockSize).
    assert (kBlockSize / 4 = 1024) as E by done.
    apply (take_free (mkArena p kBlockSize (blocks_ a ++ [(p, kBlockSize)]) _) rs p n (kBlockSize - n));
      cbn [alloc_bytes_remaining_ alloc_ptr_]; unfold kBlockSize in *; [|lia..].
    split; cbn [alloc_bytes_remaining_ alloc_ptr_ blocks_].
    + right. split_and!; [lia|apply Exists_app; right; constructor; unfold inside; cbn; lia|].
      apply (fresh_block a rs 4096); [done|lia|unfold inside; cbn; subst p; unfold kBlockSize; lia].
    + eapply Forall_impl; [exact (ar_inside _ _ Ha)|]. intros r Hr. apply Exists_app. by left.
    + apply (ar_disjoint _ _ Ha).
Qed.

Lemma Allocate_ok a rs n :
  arena_ok a rs → 0 < n → ∃ a' p, Allocate a n = Ret (a', p) ∧ arena_ok a' ((p, n) :: rs).
Proof.
  intros Ha Hn. unfold Allocate. rewrite decide_True by lia. case_decide as Hr.
  - eexists _, _. split; [done|]. apply (take_free a); [done|lia..].
  - pose proof (AllocateFallback_ok a rs n Ha Hn) as Hf. destruct (AllocateFallback a n) as [a' p].
    exists a', p. by destruct Hf.
Qed.

Lemma AllocateAligned_ok a rs n :
  arena_ok a rs → 0 < n < 2 ^ 63 →
  ∃ a' p, AllocateAligned a n = Ret (a', p) ∧ arena_ok a' ((p, n) :: rs) ∧ p mod 8 = 0.
Proof.
  intros Ha Hn. unfold AllocateAligned. pose proof (land_pow2_ones (alloc_ptr_ a) 3) as Hl.
  change (2 ^ 3 - 1) with (8 - 1) in Hl. rewrite Hl by lia. change (2 ^ 3) with 8.
  set (m := alloc_ptr_ a mod 8). set (slop := if decide (m = 0) then 0 else 8 - m).
  assert (0 <= slop < 8 ∧ (alloc_ptr_ a + slop) mod 8 = 0) as [Hsl Hal].
  { subst slop m. case_decide; dlia. }
  rewrite w64_small by mlia. clear Hl.
  assert (∀ p, p mod 8 = 0 → Z.land p (8 - 1) = 0) as Hland.
  { intros p Hp. change (8 - 1) with (2 ^ 3 - 1). rewrite land_pow2_ones by lia. done. }
  case_decide as Hr.
  - rewrite decide_True by by apply Hland. eexists _, _. split; [done|]. split; [|done].
    replace (alloc_ptr_ a + (n + slop)) with (alloc_ptr_ a + slop + n) by lia.
    apply (take_free a); [done|lia..].
  - pose proof (AllocateFallback_ok a rs n Ha ltac:(lia)) as Hf. destruct (AllocateFallback a n) as [a' p].
    destruct Hf as [Hok Hp]. rewrite decide_True by by apply Hland. by exists a', p.
Qed.

Lemma allocate_all_ok a rs reqs :
  arena_ok a rs → Forall (λ r, 0 < r.1 < 2 ^ 63) reqs →
  ∃ a' ps, allocate_all a reqs = Ret (a', ps) ∧ arena_ok a' (ps ++ rs)
    ∧ Forall2 (λ r p, p.2 = r.1 ∧ (r.2 = true → p.1 mod 8 = 0)) reqs ps.
Proof.
  intros Ha Hr. revert a rs Ha. induction Hr as [|[n al] reqs Hn Hr IH]; intros a rs Ha; cbn.
  - by exists a, [].
  - cbn in Hn.
    assert (∃ a1 p, (if al then AllocateAligned a n else Allocate a n) = Ret (a1, p)
      ∧ arena_ok a1 ((p, n) :: rs) ∧ (al = true → p mod 8 = 0)) as (a1 & p & -> & Ha1 & Hal).
    { destruct al.
      - destruct (AllocateAligned_ok a rs n Ha Hn) as (a1 & p & E & H1 & H2). by exists a1, p.
      - destruct (Allocate_ok a rs n Ha) as (a1 & p & E & H1); [lia|]. by exists a1, p. }
    cbn. destruct (IH a1 _ Ha1) as (a' & ps & -> & [H1 H2 H3] & Hps). cbn.
    exists a', ((p, n) :: ps). split; [done|]. split; [|by constructor].
    split; cbn [app].
    + destruct H1 as [?|(? & ? & H1)]; [by left|]. right. split_and!; [done|done|].
      by rewrite Permutation_middle.
    + by rewrite Permutation_middle.
    + by apply pairs_middle.
Qed.
End arena.

(** What is assumed of [new]: fresh, aligned blocks. *)
Definition new_ok (new_char : list (Z * Z) → Z → Z) : Prop :=
  (∀ blocks n, 0 < n → Forall (disjoint_regions (new_char blocks n, n)) blocks)
  ∧ (∀ blocks n, new_char blocks n mod 8 = 0).

(** ** Properties *)

(** The arena never hands out memory twice: whatever sequence of requests
    it serves, the regions are pairwise disjoint, each inside a block the
    arena owns, and the aligned ones start at a multiple of eight; no request
    fails.  [new] is assumed to return fresh aligned blocks. *)
Lemma arena_regions_disjoint (new_char : list (Z * Z) → Z → Z) reqs :
  new_ok new_char → Forall (λ r, 0 < r.1 < 2 ^ 63) reqs →
  ∃ a ps, allocate_all new_char Arena_init reqs = Ret (a, ps)
    ∧ Forall2 (λ r p, p.2 = r.1 ∧ (r.2 = true → p.1 mod 8 = 0)) reqs ps
    ∧ ForallOrdPairs disjoint_regions ps
    ∧ Forall (λ p, Exists (inside p) (blocks_ a)) ps.
Proof.
  intros [Hf Hal] Hr.
  destruct (allocate_all_ok new_char Hf Hal Arena_init [] reqs) as (a & ps & E & Ha & Hps); [|done|].
  - split; [by left|constructor..].
  - rewrite app_nil_r in Ha. exists a, ps. split_and!; [done|done|apply Ha..].
Qed.

(** Blocks one after the other. *)
Definition bump (blocks : list (Z * Z)) (n : Z) : Z :=
  8 * (foldr (λ b m, Z.max m ((b.1 + b.2) / 8 + 1)) 1 blocks).

Lemma bump_ok : new_ok bump.
Proof.
  split.
  - intros blocks n Hn. unfold bump. set (m := foldr _ _ _).
    assert (Forall (λ b, b.1 + b.2 <= 8 * m) blocks) as Hm.
    { subst m. induction blocks as [|b blocks IH]; cbn; constructor; [dlia|].
      eapply Forall_impl; [exact IH|]. cbn. lia. }
    eapply Forall_impl; [exact Hm|]. unfold disjoint_regions. cbn. lia.
  - intros blocks n. unfold bump. rewrite Z.mul_comm. apply Z_mod_mult.
Qed.

