(* ===== verification/Comparator.v ===== *)
(** * Comparator: slices and key orders

    [include/leveldb/slice.h] (three-way comparison, prefixes), the interface
    [include/leveldb/comparator.h] and its builtin implementation
    [util/comparator.cc].  The interface is a type class of operations with a
    second class for the contract its comments state: a total order, and
    shortened keys that stay inside the interval they separate. *)

From S2P Require Import Prelude.

(** ** Slices *)

(** [memcmp(a, b, n)]; only the sign of the result is specified, the model
    returns -1, 0 or 1. *)
Fixpoint memcmp (n : nat) (a b : bytes) : Z :=
  match n, a, b with
  | S n, x :: a, y :: b =>
      if decide (x < y) then -1 else if decide (x > y) then 1 else memcmp n a b
  | _, _, _ => 0
  end.

Definition Slice_compare (a b : bytes) : Z :=
  let min_len := if decide (length a < length b)%nat then length a else length b in
  let r := memcmp min_len a b in
  if decide (r = 0) then
    if decide (length a < length b)%nat then -1
    else if decide (length b < length a)%nat then 1 else r
  else r.

Definition Slice_eq (x y : bytes) : bool :=
  bool_decide (length x = length y) && bool_decide (memcmp (length x) x y = 0).

Definition starts_with (s x : bytes) : bool :=
  bool_decide (length x <= length s)%nat && bool_decide (memcmp (length x) s x = 0).

(** ** The comparator interface *)

Class Comparator : Type := {
  Compare : bytes → bytes → Z;
  FindShortestSeparator : bytes → bytes → bytes;
  FindShortSuccessor : bytes → bytes
}.

(** A three-way comparison that is a total preorder. *)
Class ComparatorOrder (C : Comparator) : Prop := {
  cmp_refl a : Compare a a = 0;
  cmp_antisym a b : Compare a b < 0 ↔ Compare b a > 0;
  cmp_le_trans a b c : Compare a b <= 0 → Compare b c <= 0 → Compare a c <= 0
}.

(** The contract stated in [comparator.h]: equal means identical, and the
    shortened keys stay inside the interval they separate. *)
Class ComparatorLaws (C : Comparator) : Prop := {
  #[global] cmp_order :: ComparatorOrder C;
  cmp_eq a b : Compare a b = 0 ↔ a = b;
  sep_between start limit :
    Compare start limit < 0 →
    Compare start (FindShortestSeparator start limit) <= 0
    ∧ Compare (FindShortestSeparator start limit) limit < 0;
  succ_above key : Compare key (FindShortSuccessor key) <= 0
}.

(** What the builder of a table needs of shortened keys; it holds as well for
    comparators that identify different keys. *)
Class Separating (C : Comparator) : Prop := {
  #[global] separating_order :: ComparatorOrder C;
  separator_between start limit :
    Compare start limit < 0 →
    Compare start (FindShortestSeparator start limit) <= 0
    ∧ Compare (FindShortestSeparator start limit) limit < 0;
  separator_equal start limit :
    Compare start limit = 0 → ¬ Compare start (FindShortestSeparator start limit) < 0;
  successor_above key : Compare key (FindShortSuccessor key) <= 0;
  separator_short start limit : (length (FindShortestSeparator start limit) <= length start)%nat;
  successor_short key : (length (FindShortSuccessor key) <= length key)%nat
}.

(** A shortened key does not reach the group of keys of the next one: a key
    after [a] that is at or before the separator is not in the group of any key
    from [b] on. *)
Class SeparatesGroups (C : Comparator) (same : bytes → bytes → Prop) : Prop :=
  separates_groups a b e k :
    Compare a b < 0 → Compare b e <= 0 → Compare a k < 0 →
    Compare k (FindShortestSeparator a b) <= 0 → ¬ same k e.

(** Index of the first difference, or the shorter length. *)
Fixpoint diff_index (a b : bytes) : nat :=
  match a, b with
  | x :: a, y :: b => if decide (x = y) then S (diff_index a b) else O
  | _, _ => O
  end.

(** [BytewiseComparatorImpl::FindShortestSeparator]. *)
Definition Bytewise_FindShortestSeparator (start limit : bytes) : bytes :=
  let min_length := Nat.min (length start) (length limit) in
  let diff := diff_index start limit in
  if decide (min_length <= diff)%nat then start
  else
    let diff_byte := byte_at start diff in
    if decide (diff_byte < 255 ∧ diff_byte + 1 < byte_at limit diff)
    then take diff start ++ [diff_byte + 1]
    else start.

(** [BytewiseComparatorImpl::FindShortSuccessor]: the loop over the bytes,
    [done] being the run of [0xff] already passed. *)
Fixpoint FindShortSuccessor_loop (done key : bytes) : bytes :=
  match key with
  | [] => done
  | byte :: key =>
      if decide (byte ≠ 255) then done ++ [byte + 1]
      else FindShortSuccessor_loop (done ++ [byte]) key
  end.
Definition Bytewise_FindShortSuccessor (key : bytes) : bytes := FindShortSuccessor_loop [] key.

Definition BytewiseComparator : Comparator := {|
  Compare := Slice_compare;
  FindShortestSeparator := Bytewise_FindShortestSeparator;
  FindShortSuccessor := Bytewise_FindShortSuccessor
|}.

(** ** The bytewise order *)

Lemma Slice_compare_nil_l b : Slice_compare [] b = if decide (b = []) then 0 else -1.
Proof. by destruct b. Qed.

Lemma Slice_compare_nil_r a : Slice_compare a [] = if decide (a = []) then 0 else 1.
Proof. by destruct a. Qed.

Lemma Slice_compare_cons x a y b :
  Slice_compare (x :: a) (y :: b) =
    if decide (x < y) then -1 else if decide (x > y) then 1 else Slice_compare a b.
Proof.
  unfold Slice_compare. cbn [length].
  destruct (decide (length a < length b)%nat) as [Hl|Hl].
  - rewrite !(decide_True (P := (S (length a) < S (length b))%nat)) by lia. cbn [memcmp].
    repeat case_decide; lia.
  - rewrite !(decide_False (P := (S (length a) < S (length b))%nat)) by lia. cbn [memcmp].
    repeat case_decide; lia.
Qed.

Lemma Slice_compare_eq a b : Slice_compare a b = 0 ↔ a = b.
Proof.
  revert b. induction a as [|x a IH]; intros [|y b].
  - done.
  - rewrite Slice_compare_nil_l. by case_decide.
  - rewrite Slice_compare_nil_r. by case_decide.
  - rewrite Slice_compare_cons. repeat case_decide; [split; [lia|intros [= -> ->]; lia]..|].
    rewrite IH. split; [intros ->; f_equal; lia | by intros [= -> ->]].
Qed.

Lemma Slice_compare_antisym a b : Slice_compare a b < 0 ↔ Slice_compare b a > 0.
Proof.
  revert b. induction a as [|x a IH]; intros [|y b].
  - done.
  - rewrite Slice_compare_nil_l, Slice_compare_nil_r. done.
  - rewrite Slice_compare_nil_l, Slice_compare_nil_r. done.
  - rewrite !Slice_compare_cons. repeat case_decide; try lia. apply IH.
Qed.

Lemma Slice_compare_le_trans a b c :
  Slice_compare a b <= 0 → Slice_compare b c <= 0 → Slice_compare a c <= 0.
Proof.
  revert b c. induction a as [|x a IH]; intros [|y b] [|z c];
    rewrite ?Slice_compare_nil_l, ?Slice_compare_nil_r, ?Slice_compare_cons; try done.
  repeat case_decide; try lia. apply IH.
Qed.

(** Comparison is decided at the first difference. *)
Lemma Slice_compare_common p a b : Slice_compare (p ++ a) (p ++ b) = Slice_compare a b.
Proof.
  induction p as [|x p IH]; [done|]. cbn. rewrite Slice_compare_cons.
  by rewrite !decide_False by lia.
Qed.

Lemma diff_index_split a b :
  ∃ p a' b', a = p ++ a' ∧ b = p ++ b' ∧ diff_index a b = length p
    ∧ match a', b' with x :: _, y :: _ => x ≠ y | _, _ => True end.
Proof.
  revert b. induction a as [|x a IH]; intros [|y b].
  - by exists [], [], [].
  - by exists [], [], (y :: b).
  - by exists [], (x :: a), [].
  - cbn. case_decide as Hxy.
    + subst. destruct (IH b) as (p & a' & b' & -> & -> & Hd & Hm).
      exists (y :: p), a', b'. cbn. by rewrite Hd.
    + by exists [], (x :: a), (y :: b).
Qed.

Lemma Bytewise_separator_between start limit :
  Slice_compare start limit < 0 →
  Slice_compare start (Bytewise_FindShortestSeparator start limit) <= 0
  ∧ Slice_compare (Bytewise_FindShortestSeparator start limit) limit < 0.
Proof.
  intros Hlt. assert (Slice_compare start start = 0) as Hrefl by by apply Slice_compare_eq.
  unfold Bytewise_FindShortestSeparator.
  destruct (diff_index_split start limit) as (p & a & b & -> & -> & Hd & Hm).
  rewrite Hd. case_decide as Hge; [lia|]. case_decide as Hb; [|lia].
  rewrite !length_app in Hge. destruct a as [|x a], b as [|y b]; cbn in Hge; try lia.
  unfold byte_at in *. rewrite !lookup_app_r, Nat.sub_diag in * by lia. cbn in Hb |- *.
  rewrite take_app_length, !Slice_compare_common, !Slice_compare_cons.
  repeat case_decide; lia.
Qed.

Lemma FindShortSuccessor_loop_above p key :
  Slice_compare (p ++ key) (FindShortSuccessor_loop p key) <= 0.
Proof.
  revert p. induction key as [|x key IH]; intros p; cbn.
  - rewrite app_nil_r. rewrite (proj2 (Slice_compare_eq p p)); done.
  - case_decide.
    + rewrite Slice_compare_common, Slice_compare_cons. by rewrite decide_True by lia.
    + specialize (IH (p ++ [x])). by rewrite <- (assoc_L (++)) in IH.
Qed.

#[export] Instance Bytewise_order : ComparatorOrder BytewiseComparator.
Proof.
  split; cbn.
  - intros a. by apply Slice_compare_eq.
  - apply Slice_compare_antisym.
  - apply Slice_compare_le_trans.
Qed.

#[export] Instance Bytewise_laws : ComparatorLaws BytewiseComparator.
Proof.
  split; cbn.
  - apply _.
  - apply Slice_compare_eq.
  - apply Bytewise_separator_between.
  - apply (FindShortSuccessor_loop_above []).
Qed.

Lemma diff_index_refl a : diff_index a a = length a.
Proof. induction a as [|x a IH]; [done|]. cbn. by rewrite decide_True, IH. Qed.

Lemma FindShortSuccessor_loop_length d key :
  (length (FindShortSuccessor_loop d key) <= length d + length key)%nat.
Proof.
  revert d. induction key as [|b key IH]; intros d; cbn; [lia|]. case_decide.
  - rewrite length_app. cbn. lia.
  - specialize (IH (d ++ [b])). rewrite length_app in IH. cbn in IH. lia.
Qed.

#[export] Instance Bytewise_separating : Separating BytewiseComparator.
Proof.
  split; [apply _|apply sep_between| |apply succ_above|..].
  - intros start limit ->%cmp_eq. cbn. unfold Bytewise_FindShortestSeparator.
    rewrite diff_index_refl, decide_True by lia. pose proof (proj2 (Slice_compare_eq limit limit) eq_refl). lia.
  - intros start limit. cbn. unfold Bytewise_FindShortestSeparator. case_decide as Hd; [done|].
    case_decide; [|done]. rewrite length_app, length_take. cbn. lia.
  - intros key. cbn. unfold Bytewise_FindShortSuccessor. apply (FindShortSuccessor_loop_length []).
Qed.

(** ** Consequences of the order, for every comparator *)

Section order.
Context {C : Comparator} {O : ComparatorOrder C}.

Lemma cmp_gt_lt a b : Compare a b > 0 ↔ Compare b a < 0.
Proof. symmetry. apply cmp_antisym. Qed.

Lemma cmp_ge_le a b : Compare a b >= 0 ↔ Compare b a <= 0.
Proof. pose proof (cmp_antisym a b). pose proof (cmp_antisym b a). lia. Qed.

Lemma cmp_not_lt a b : ¬ Compare a b < 0 ↔ Compare b a <= 0.
Proof. pose proof (cmp_ge_le a b). lia. Qed.

Lemma cmp_le_lt_trans a b c : Compare a b <= 0 → Compare b c < 0 → Compare a c < 0.
Proof.
  intros Hab Hbc. destruct (decide (Compare a c < 0)) as [|Hn]; [done|].
  apply cmp_not_lt in Hn. pose proof (cmp_le_trans c a b Hn Hab) as Hcb.
  apply cmp_antisym in Hbc. lia.
Qed.

Lemma cmp_lt_le_trans a b c : Compare a b < 0 → Compare b c <= 0 → Compare a c < 0.
Proof.
  intros Hab Hbc. destruct (decide (Compare a c < 0)) as [|Hn]; [done|].
  apply cmp_not_lt in Hn. pose proof (cmp_le_trans b c a Hbc Hn) as Hba.
  apply cmp_antisym in Hab. lia.
Qed.

Lemma cmp_lt_trans a b c : Compare a b < 0 → Compare b c < 0 → Compare a c < 0.
Proof. intros Hab Hbc. apply (cmp_lt_le_trans a b c); [done|lia]. Qed.
End order.
#[export] Hint Resolve cmp_refl : nova.

(** ** Properties *)

(** The bytewise comparator is a total order in which equal means
    identical; when [start < limit] its separator lies in [[start, limit)] and
    is no longer than [start], and its short successor is at or above the key
    and no longer than it. *)
Theorem bytewise_contract start limit :
  (Slice_compare start limit < 0 →
     let sep := Bytewise_FindShortestSeparator start limit in
     Slice_compare start sep <= 0 ∧ Slice_compare sep limit < 0
     ∧ (length sep <= length start)%nat)
  ∧ (Slice_compare start (Bytewise_FindShortSuccessor start) <= 0
     ∧ (length (Bytewise_FindShortSuccessor start) <= length start)%nat)
  ∧ (Slice_compare start limit = 0 ↔ start = limit)
  ∧ (Slice_compare start limit < 0 ↔ Slice_compare limit start > 0).
Proof.
  split_and!.
  - intros Hlt sep. destruct (Bytewise_separator_between start limit Hlt) as [H1 H2].
    split_and!; [done..|]. subst sep. unfold Bytewise_FindShortestSeparator.
    repeat case_decide; try done. rewrite length_app, length_take. cbn. lia.
  - apply (FindShortSuccessor_loop_above []).
  - apply (FindShortSuccessor_loop_length []).
  - apply Slice_compare_eq.
  - apply Slice_compare_antisym.
Qed.
