(* ===== verification/Cursor.v ===== *)
(** * Cursor: the iterator interface

    [include/leveldb/iterator.h].  An iterator moves over a sorted sequence of
    key/value pairs.  [cursor_move] is the contract of its moves on an abstract
    position, the length of the sequence standing for an invalid iterator;
    [Cursor] states that an implementation follows the contract.  The clients of
    an iterator are proved against [Cursor], its implementations are instances. *)

From S2P Require Import Prelude Coding Comparator.

(** The moves of [Iterator]. *)
Inductive move :=
  | SeekToFirst
  | SeekToLast
  | Seek (target : bytes)
  | Next
  | Prev.

(** The virtual methods of [Iterator] over states of type [S]. *)
Record IterOps (S : Type) := mkIterOps {
  op_Valid : S → bool;
  op_key : S → res bytes;
  op_value : S → res bytes;
  op_move : S → move → res S
}.
Arguments mkIterOps {S} _ _ _ _.
Arguments op_Valid {S} _ _.
Arguments op_key {S} _ _.
Arguments op_value {S} _ _.
Arguments op_move {S} _ _ _.

(** An iterator with the two further methods, [SkipToNextUserKey] and
    [status().ok()]. *)
Record Iter (S : Type) := mkIter {
  iter_ops : IterOps S;
  op_SkipToNextUserKey : S → bytes → res S;
  op_status_ok : S → bool
}.
Arguments mkIter {S} _ _ _.
Arguments iter_ops {S} _.
Arguments op_SkipToNextUserKey {S} _ _ _.
Arguments op_status_ok {S} _ _.

(** A sequence of moves. *)
Fixpoint run_moves {S} (ops : IterOps S) (s : S) (ms : list move) : res S :=
  match ms with
  | [] => Ret s
  | m :: ms => s' ← op_move ops s m; run_moves ops s' ms
  end.

Section contract.
Context (cmp : Comparator) (kvs : list (bytes * bytes)).

(** The number of leading keys before [target]. *)
Fixpoint lower_bound (l : list (bytes * bytes)) (target : bytes) : nat :=
  match l with
  | [] => O
  | (k, _) :: l => if decide (Compare k target < 0) then S (lower_bound l target) else O
  end.

(** Where a move leads; [None] where the interface requires a valid iterator
    and it is not. *)
Definition cursor_move (i : nat) (m : move) : option nat :=
  match m with
  | SeekToFirst => Some O
  | SeekToLast => Some (back_from (length kvs) (length kvs))
  | Seek target => Some (lower_bound kvs target)
  | Next => if decide (i < length kvs)%nat then Some (S i) else None
  | Prev => if decide (i < length kvs)%nat then Some (back_from (length kvs) i) else None
  end.

Fixpoint cursor_moves (i : nat) (ms : list move) : option nat :=
  match ms with
  | [] => Some i
  | m :: ms => match cursor_move i m with Some j => cursor_moves j ms | None => None end
  end.

(** [R s i]: the iterator [s] is at position [i]. *)
Class Cursor {S} (ops : IterOps S) (R : S → nat → Prop) : Prop := {
  cur_le s i : R s i → (i <= length kvs)%nat;
  cur_valid s i : R s i → op_Valid ops s = bool_decide (i < length kvs)%nat;
  cur_entry s i k v : R s i → kvs !! i = Some (k, v) → op_key ops s = Ret k ∧ op_value ops s = Ret v;
  cur_move s i m j : R s i → cursor_move i m = Some j → ∃ s', op_move ops s m = Ret s' ∧ R s' j
}.

(** What a client sees of the iterator [s] at position [i]. *)
Definition shows {S} (ops : IterOps S) (s : S) (i : nat) : Prop :=
  op_Valid ops s = bool_decide (i < length kvs)%nat
  ∧ ∀ k v, kvs !! i = Some (k, v) → op_key ops s = Ret k ∧ op_value ops s = Ret v.

Lemma Cursor_shows {S} (ops : IterOps S) R `{!Cursor ops R} s i : R s i → shows ops s i.
Proof. intros H. split; [by apply cur_valid|]. intros k v. by apply cur_entry. Qed.

Lemma Cursor_moves {S} (ops : IterOps S) R `{!Cursor ops R} s i ms j :
  R s i → cursor_moves i ms = Some j → ∃ s', run_moves ops s ms = Ret s' ∧ R s' j.
Proof.
  revert s i. induction ms as [|m ms IH]; intros s i HR; cbn.
  { intros [= <-]. eauto. }
  destruct (cursor_move i m) as [i'|] eqn:E; [|done]. intros Hj.
  destruct (cur_move s i m i' HR E) as (s' & -> & HR'). cbn. by apply (IH _ i').
Qed.

Lemma lower_bound_le l target : (lower_bound l target <= length l)%nat.
Proof. induction l as [|[k v] l IH]; cbn; [lia|]. case_decide; lia. Qed.

Lemma lower_bound_before l target i k v :
  (i < lower_bound l target)%nat → l !! i = Some (k, v) → Compare k target < 0.
Proof.
  revert i. induction l as [|[k' v'] l IH]; intros i; cbn; [lia|]. case_decide; [|lia].
  destruct i as [|i]; cbn; [by intros _ [= -> ->]|]. intros Hi. apply IH. lia.
Qed.

Lemma lower_bound_at l target k v :
  l !! lower_bound l target = Some (k, v) → ¬ Compare k target < 0.
Proof.
  induction l as [|[k' v'] l IH]; cbn; [done|]. case_decide; [apply IH|]. by intros [= -> ->].
Qed.

Lemma lower_bound_unique l target j :
  (j <= length l)%nat → (∀ i k v, (i < j)%nat → l !! i = Some (k, v) → Compare k target < 0) →
  (∀ k v, l !! j = Some (k, v) → ¬ Compare k target < 0) → j = lower_bound l target.
Proof.
  intros Hj Hb Ha. destruct (lt_eq_lt_dec j (lower_bound l target)) as [[Hlt|?]|Hlt]; [|done|].
  - pose proof (lower_bound_le l target). destruct (lookup_lt_is_Some_2 l j ltac:(lia)) as [[k v] Hl].
    destruct (Ha k v Hl). by eapply lower_bound_before.
  - destruct (lookup_lt_is_Some_2 l (lower_bound l target) ltac:(lia)) as [[k v] Hl].
    destruct (lower_bound_at l target k v Hl). by eapply Hb.
Qed.
End contract.
