(* ===== verification/NovaCommon.v ===== *)
(** * NovaCommon: decimal keys, requests and log records

    [common/nova_common.h] and [common/nova_common.cpp]: the decimal form of
    keys and numbers ([int_to_str], [str_to_int]), log file names, RDMA
    request headers and the log record codec; the replay loop of
    [LogRecovery::Recover]; and the key comparator of [ltc/db_helper.h], which
    compares keys as decimal numbers. *)

From S2P Require Import Prelude Coding Comparator.

(** ** Decimal numbers *)

(** ['!'] and ['\n']. *)
Definition TERMINATER_CHAR : Z := 33.
Definition MSG_TERMINATER_CHAR : Z := 10.

(** The loop [do { str[len] = x % 10 + '0'; x = x / 10; len++; } while (x)]:
    the digits, least significant first.  A 64-bit number has at most twenty. *)
Fixpoint int_to_str_digits (fuel : nat) (x : Z) : bytes :=
  match fuel with
  | O => []
  | S fuel =>
      (x mod 10 + 48) ::
        (if decide (x / 10 = 0) then [] else int_to_str_digits fuel (x / 10))
  end.

(** The swapping loop [while (p < q)] over [str[p..q]]. *)
Fixpoint int_to_str_swap (fuel : nat) (str : bytes) (p q : nat) : bytes :=
  match fuel with
  | O => str
  | S fuel =>
      if decide (p < q)%nat then
        let temp := byte_at str p in
        int_to_str_swap fuel (<[q := temp]> (<[p := byte_at str q]> str)) (S p) (q - 1)
      else str
  end.

(** [int_to_str(str, x)]: the bytes stored, with the terminator; the returned
    size is their number. *)
Definition int_to_str (x : Z) : bytes :=
  let str := int_to_str_digits 20 x in
  let len := length str in
  int_to_str_swap len str 0 (len - 1) ++ [TERMINATER_CHAR].

Fixpoint nint_to_str_loop (fuel : nat) (x len : Z) : Z :=
  match fuel with
  | O => len
  | S fuel => if decide (x / 10 = 0) then len + 1 else nint_to_str_loop fuel (x / 10) (len + 1)
  end.
Definition nint_to_str (x : Z) : Z := nint_to_str_loop 20 x 0.

(** The loop of [str_to_int] over the readable bytes from [str] on: the number
    read so far and the count of its digits.  A byte past the readable ones
    ends the number, as any byte that is not a digit does. *)
Fixpoint str_to_int_loop (nkey : Z) (str : bytes) (x len : Z) : Z * Z :=
  match str with
  | [] => (x, len)
  | c :: str =>
      if decide (c = TERMINATER_CHAR) then (x, len)
      else if decide (nkey ≠ 0 ∧ len = nkey) then (x, len)
      else if decide (c > 57 ∨ c < 48) then (x, len)
      else str_to_int_loop nkey str (w64 (x * 10 + (c - 48))) (w32 (len + 1))
  end.

(** [str_to_int(str, out, nkey)]: the new [*out] and the returned size. *)
Definition str_to_int (str : bytes) (out nkey : Z) : Z * Z :=
  if decide (byte_at str 0 = MSG_TERMINATER_CHAR) then (out, 0)
  else
    let '(x, len) := str_to_int_loop nkey str 0 0 in
    (x, w32 (len + 1)).

(** The number of a user key, as the iterators read it. *)
Definition key_int (key : bytes) : Z := (str_to_int key 0 (w32 (size_of key))).1.

Definition keyhash (key : bytes) (nkey : Z) : Z := (str_to_int key 0 nkey).1.

Definition safe_mod (key n : Z) : Z := if decide (n <= 1) then 0 else key mod n.

(** [fastrand]: the new seed and the number drawn. *)
Definition fastrand (g_seed : Z) : Z * Z :=
  let g_seed := w64 (214013 * g_seed + 2531011) in
  (g_seed, Z.land (g_seed ≫ 16) 32767).

(** ** Log file names *)

(** A number printed by the formatting library: its decimal digits. *)
Definition decimal (x : Z) : bytes := rev (int_to_str_digits 20 x).

(** [LogFileName]: ["{}-{}"]. *)
Definition LogFileName (db_id memtableid : Z) : bytes :=
  decimal db_id ++ [45] ++ decimal memtableid.

(** One loop of [ParseDBIndexFromLogFileName]: digits up to a dash.  [Some]
    number and the rest after the dash, or [None] and the number at the end. *)
Fixpoint ParseDBIndex_loop (logname : bytes) (data : Z) : option bytes * Z :=
  match logname with
  | [] => (None, data)
  | c :: rest =>
      if decide (c = 45) then (Some rest, data)
      else ParseDBIndex_loop rest (w32 (data * 10 + c - 48))
  end.

(** The overload with one output: [*index] keeps its value without a dash. *)
Definition ParseDBIndexFromLogFileName1 (logname : bytes) (index : Z) : Z :=
  match ParseDBIndex_loop logname 0 with
  | (Some _, data) => data
  | (None, _) => index
  end.

(** The overload with two outputs. *)
Definition ParseDBIndexFromLogFileName (logname : bytes) (dbindex : Z) : Z * Z :=
  match ParseDBIndex_loop logname 0 with
  | (Some rest, data) => (data, (ParseDBIndex_loop rest 0).2)
  | (None, _) => (dbindex, 0)
  end.

(** ** RDMA requests *)

Inductive RequestType := GET | PUT | REDIRECT | GET_INDEX.

Definition req_type_to_char (t : RequestType) : Z :=
  match t with GET => 103 | PUT => 112 | REDIRECT => 114 | GET_INDEX => 105 end.

(** [char_to_req_type]: any other character fails an assertion. *)
Definition char_to_req_type (c : Z) : res RequestType :=
  if decide (c = 103) then Ret GET
  else if decide (c = 112) then Ret PUT
  else if decide (c = 114) then Ret REDIRECT
  else if decide (c = 105) then Ret GET_INDEX
  else Abort.

(** [GenerateRDMARequest]: the bytes stored. *)
Definition GenerateRDMARequest (t : RequestType) (from_server_id from_sock_fd : Z)
    (key : bytes) (nkey : Z) : bytes :=
  [req_type_to_char t] ++ int_to_str from_server_id ++ int_to_str from_sock_fd
    ++ int_to_str nkey ++ take (Z.to_nat nkey) key.

Record RDMARequest := mkRDMARequest {
  rr_type : RequestType;
  rr_from_server_id : Z;
  rr_from_sock_fd : Z;
  rr_key : bytes;       (** the buffer from [*key] on *)
  rr_nkey : Z
}.

(** [ParseRDMARequest]: the outputs and the returned length.  The three
    outputs keep their old values, here 0, at a message terminator. *)
Definition ParseRDMARequest (buf : bytes) : res (RDMARequest * Z) :=
  match char_to_req_type (byte_at buf 0) with
  | Ret t =>
      let buf := drop 1 buf in
      let '(sid, n1) := str_to_int buf 0 0 in
      let buf := drop (Z.to_nat n1) buf in
      let '(fd, n2) := str_to_int buf 0 0 in
      let buf := drop (Z.to_nat n2) buf in
      let '(nkey, n3) := str_to_int buf 0 0 in
      let buf := drop (Z.to_nat n3) buf in
      Ret (mkRDMARequest t sid fd buf nkey, w32 (1 + n1 + n2 + n3 + nkey))
  | _ => Abort
  end.

(** ** Log records *)

Record LevelDBLogRecord := mkLogRecord {
  lr_key : bytes;
  lr_value : bytes;
  lr_sequence_number : Z
}.

Definition LogRecordSize (record : LevelDBLogRecord) : Z :=
  w32 (4 + 4 + size_of (lr_key record) + 4 + size_of (lr_value record) + 8 + 1).

Definition LogRecordsSize (log_records : list LevelDBLogRecord) : Z :=
  foldl (λ size record, w32 (size + LogRecordSize record)) 0 log_records.

Definition EncodeLogRecord (record : LevelDBLogRecord) : bytes :=
  EncodeFixed32 (LogRecordSize record) ++ EncodeSlice (lr_key record)
    ++ EncodeSlice (lr_value record) ++ EncodeFixed64 (lr_sequence_number record) ++ [1].

(** [DecodeLogRecord]; [( *buf)[0]] of an empty slice fails its assertion. *)
Definition DecodeLogRecord : parser LevelDBLogRecord :=
  let! record_size := DecodeFixed32 in
  let! key := DecodeStr_slice in
  let! value := DecodeStr_slice in
  let! sequence_number := DecodeFixed64 in
  λ buf,
    let log_record := mkLogRecord key value sequence_number in
    match buf with
    | [] => (Abort, buf)
    | c :: rest =>
        if decide (c ≠ 1) then (Fail, buf)
        else if decide (record_size ≠ LogRecordSize log_record) then (Fail, buf)
        else (Ret log_record, rest)
    end.

(** The loop [while (DecodeLogRecord(&slice, &record)) memtable->Add(...)] of
    [LogRecovery::Recover]: the records added, in order.  Every record consumes
    a byte, so as many rounds as bytes are enough. *)
Fixpoint LogRecovery_replay (fuel : nat) : parser (list LevelDBLogRecord) := λ slice,
  match fuel with
  | O => (Ret [], slice)
  | S fuel =>
      match DecodeLogRecord slice with
      | (Ret record, slice) =>
          match LogRecovery_replay fuel slice with
          | (Ret records, slice) => (Ret (record :: records), slice)
          | r => r
          end
      | (Fail, slice) => (Ret [], slice)
      | (Abort, slice) => (Abort, slice)
      end
  end.
Definition LogRecovery_records (slice : bytes) : res (list LevelDBLogRecord) :=
  (LogRecovery_replay (S (length slice)) slice).1.

(** ** The comparator of decimal keys *)

Definition YCSB_Compare (a b : bytes) : Z :=
  let ai := (str_to_int a 0 (w32 (size_of a))).1 in
  let bi := (str_to_int b 0 (w32 (size_of b))).1 in
  if decide (ai < bi) then -1 else if decide (ai > bi) then 1 else 0.

Definition YCSBKeyComparator : Comparator := {|
  Compare := YCSB_Compare;
  FindShortestSeparator := λ start limit, start;
  FindShortSuccessor := λ key, key
|}.

(** ** Decimal round trips *)

(** The swapping loop reverses the middle part between its two indices. *)
Lemma int_to_str_swap_rev n : ∀ fuel (a m b : bytes),
  length m = n → (n <= fuel)%nat →
  int_to_str_swap fuel (a ++ m ++ b) (length a) (length a + length m - 1) = a ++ rev m ++ b.
Proof.
  induction n as [n IH] using lt_wf_ind. intros fuel a m b Hm Hf.
  destruct m as [|x m]; [by destruct fuel; cbn; [|rewrite decide_False by lia]|].
  destruct fuel as [|fuel]; [cbn in Hm; lia|]. cbn [int_to_str_swap].
  destruct m as [|y m _] using rev_ind; [by rewrite decide_False by (cbn; lia)|].
  cbn [length] in *. rewrite length_app in Hm. cbn in Hm.
  rewrite decide_True by (rewrite length_app; cbn; lia).
  set (q := (length a + S (length (m ++ [y])) - 1)%nat).
  assert (q = length (a ++ x :: m)) as Eq by (subst q; rewrite !length_app; cbn; lia).
  assert (byte_at (a ++ (x :: m ++ [y]) ++ b) (length a) = x) as ->.
  { unfold byte_at. by rewrite lookup_app_r, Nat.sub_diag by lia. }
  assert (byte_at (a ++ (x :: m ++ [y]) ++ b) q = y) as ->.
  { unfold byte_at. rewrite Eq. cbn. rewrite <- (assoc_L (++) m), app_comm_cons, (assoc_L (++) a).
    by rewrite lookup_app_r, Nat.sub_diag by lia. }
  rewrite (insert_app_r_alt a) by lia. rewrite Nat.sub_diag. cbn [app insert list_insert].
  assert (<[q:=x]> (a ++ y :: (m ++ [y]) ++ b) = (a ++ [y]) ++ m ++ (x :: b)) as ->.
  { rewrite <- (assoc_L (++) m), app_comm_cons, (assoc_L (++) a).
    rewrite insert_app_r_alt by (rewrite Eq, !length_app; cbn; lia).
    rewrite Eq, !length_app; cbn [length]; rewrite Nat.sub_diag; cbn.
    by rewrite <- !(assoc_L (++)). }
  replace (S (length a)) with (length (a ++ [y])) by (rewrite length_app; cbn; lia).
  replace (q - 1)%nat with (length (a ++ [y]) + length m - 1)%nat
    by (rewrite Eq, !length_app; cbn; lia).
  rewrite (IH (length m)) by lia. cbn. rewrite rev_app_distr. cbn.
  by rewrite <- !(assoc_L (++)).
Qed.

Lemma int_to_str_eq x : int_to_str x = decimal x ++ [TERMINATER_CHAR].
Proof.
  unfold int_to_str, decimal. f_equal. set (l := int_to_str_digits 20 x).
  pose proof (int_to_str_swap_rev (length l) (length l) [] l []) as H.
  rewrite !app_nil_r in H. apply H; lia.
Qed.

Definition is_digit (c : Z) : Prop := 48 <= c <= 57.

Lemma int_to_str_digits_ok fuel x : Forall is_digit (int_to_str_digits fuel x).
Proof.
  revert x. induction fuel as [|fuel IH]; intros x; cbn; [constructor|].
  constructor; [unfold is_digit; dlia|]. case_decide; [constructor|apply IH].
Qed.

(** The digits, most significant last, denote the number. *)
Lemma int_to_str_digits_value fuel x :
  0 <= x < 10 ^ Z.of_nat fuel →
  foldr (λ c acc, acc * 10 + (c - 48)) 0 (int_to_str_digits fuel x) = x.
Proof.
  revert x. induction fuel as [|fuel IH]; intros x Hx; [cbn in *; lia|].
  cbn [int_to_str_digits foldr].
  rewrite Nat2Z.inj_succ, Z.pow_succ_r in Hx by lia.
  case_decide as Hz; [cbn; dlia|].
  rewrite IH by (split; [apply Z.div_pos|apply Z.div_lt_upper_bound]; lia). dlia.
Qed.

Lemma decimal_digits x : Forall is_digit (decimal x).
Proof. apply Forall_rev, int_to_str_digits_ok. Qed.

Lemma decimal_value x :
  is_u64 x → foldl (λ acc c, acc * 10 + (c - 48)) 0 (decimal x) = x.
Proof.
  intros Hx. unfold decimal. rewrite (foldl_rev (λ acc c, acc * 10 + (c - 48))).
  apply (int_to_str_digits_value 20). unfold is_u64 in Hx. cbn. mlia.
Qed.

Lemma int_to_str_digits_length fuel x : (length (int_to_str_digits fuel x) <= fuel)%nat.
Proof.
  revert x. induction fuel as [|fuel IH]; intros x; cbn; [lia|].
  case_decide; cbn; [lia|]. specialize (IH (x / 10)). lia.
Qed.

Lemma decimal_length x : (1 <= length (decimal x) <= 20)%nat.
Proof.
  unfold decimal. rewrite length_rev. split; [cbn; lia|apply int_to_str_digits_length].
Qed.

Lemma foldl_digits_mono a l :
  Forall is_digit l → 0 <= a → a <= foldl (λ acc c, acc * 10 + (c - 48)) a l.
Proof.
  intros Hl. revert a. induction Hl as [|c l Hc _ IH]; intros a Ha; cbn; [lia|].
  unfold is_digit in Hc. pose proof (IH (a * 10 + (c - 48)) ltac:(lia)). lia.
Qed.

(** Reading digits accumulates their value, as long as it fits 64 bits. *)
Lemma str_to_int_loop_digits nkey ds rest x len :
  Forall is_digit ds → 0 <= x →
  foldl (λ acc c, acc * 10 + (c - 48)) x ds < 2 ^ 64 →
  0 <= len → len + size_of ds < 2 ^ 32 → (nkey ≠ 0 → len + size_of ds <= nkey) →
  str_to_int_loop nkey (ds ++ rest) x len =
    str_to_int_loop nkey rest (foldl (λ acc c, acc * 10 + (c - 48)) x ds) (len + size_of ds).
Proof.
  revert x len. induction ds as [|c ds IH]; intros x len Hd Hx Hb Hl Hlen Hn;
    [cbn; f_equal; lia|].
  inversion Hd as [|?? Hc Hds]; subst. unfold is_digit in Hc.
  cbn [app str_to_int_loop foldl length] in *. unfold TERMINATER_CHAR.
  pose proof (foldl_digits_mono (x * 10 + (c - 48)) ds Hds ltac:(lia)).
  rewrite !decide_False by lia. rewrite w64_small, w32_small by mlia.
  rewrite IH by (done || lia). f_equal. lia.
Qed.

Lemma str_to_int_loop_stop nkey rest x len :
  (nkey ≠ 0 ∧ len = nkey) ∨ byte_at rest 0 = TERMINATER_CHAR →
  str_to_int_loop nkey rest x len = (x, len).
Proof.
  intros H. destruct rest as [|c rest]; cbn; [done|]. case_decide; [done|].
  case_decide; [done|]. destruct H as [H|H]; [done|]. by unfold byte_at in H; cbn in H.
Qed.

Lemma decimal_first x rest : is_digit (byte_at (decimal x ++ rest) 0).
Proof.
  pose proof (decimal_digits x) as Hd. pose proof (decimal_length x) as Hl.
  destruct (decimal x) as [|c l]; [cbn in Hl; lia|]. by inversion Hd.
Qed.

(** A number printed by [int_to_str] and terminated, or delimited by its
    length, reads back. *)
Lemma str_to_int_decimal x rest out nkey :
  is_u64 x →
  nkey = size_of (decimal x) ∨ nkey = 0 ∧ byte_at rest 0 = TERMINATER_CHAR →
  str_to_int (decimal x ++ rest) out nkey = (x, size_of (decimal x) + 1).
Proof.
  intros Hx Hn. pose proof (decimal_first x rest) as Hf. unfold is_digit in Hf.
  pose proof (decimal_length x) as Hl. unfold str_to_int, MSG_TERMINATER_CHAR.
  rewrite decide_False by lia.
  rewrite str_to_int_loop_digits; [|apply decimal_digits|lia
    |rewrite decimal_value by done; mlia|lia|mlia|lia].
  rewrite decimal_value by done. rewrite str_to_int_loop_stop by lia.
  f_equal. apply w32_small. mlia.
Qed.

Lemma str_to_int_int_to_str x rest out :
  is_u64 x → str_to_int (int_to_str x ++ rest) out 0 = (x, size_of (int_to_str x)).
Proof.
  intros Hx. rewrite int_to_str_eq, <- (assoc_L (++)).
  rewrite str_to_int_decimal by (done || (right; done)). rewrite length_app. cbn.
  f_equal. lia.
Qed.

(** ** The order of decimal keys *)

#[export] Instance YCSB_order : ComparatorOrder YCSBKeyComparator.
Proof.
  split; cbn; unfold YCSB_Compare.
  - intros a. repeat case_decide; lia.
  - intros a b. repeat case_decide; lia.
  - intros a b c. repeat case_decide; lia.
Qed.

#[export] Instance YCSB_separating : Separating YCSBKeyComparator.
Proof.
  split; [apply _|..]; cbn; unfold YCSB_Compare.
  - intros start limit H. split; [|done]. repeat case_decide; lia.
  - intros start limit _. repeat case_decide; lia.
  - intros key. repeat case_decide; lia.
  - done.
  - done.
Qed.

Lemma str_to_int_key x : is_u64 x → str_to_int (decimal x) 0 (w32 (size_of (decimal x))) =
  (x, size_of (decimal x) + 1).
Proof.
  intros Hx. pose proof (decimal_length x). rewrite w32_small by mlia.
  rewrite <- (app_nil_r (decimal x)) at 1. apply str_to_int_decimal; [done|by left].
Qed.

(** ** Log records *)

(** A record whose size and sequence number fit their fields. *)
Definition log_record_ok (r : LevelDBLogRecord) : Prop :=
  21 + size_of (lr_key r) + size_of (lr_value r) < 2 ^ 32 ∧ is_u64 (lr_sequence_number r).

Lemma parses_DecodeLogRecord r :
  log_record_ok r → parses DecodeLogRecord (EncodeLogRecord r) r.
Proof.
  intros [Hs Hq]. unfold EncodeLogRecord, EncodeSlice.
  eapply parses_bind; [apply parses_Fixed32, w32_range|].
  eapply parses_bind; [apply parses_DecodeStr_slice; unfold short; lia|].
  eapply parses_bind; [apply parses_DecodeStr_slice; unfold short; lia|].
  eapply parses_bind; [by apply parses_Fixed64|].
  intros rest. destruct r; cbn. rewrite decide_False by tauto. by rewrite decide_False by tauto.
Qed.
#[export] Hint Resolve parses_DecodeLogRecord : nova.

Lemma LogRecovery_replay_app rs fuel tail slice' :
  Forall log_record_ok rs →
  LogRecovery_replay (S fuel) tail = (Ret [], slice') →
  LogRecovery_replay (length rs + S fuel) ((rs ≫= EncodeLogRecord) ++ tail) = (Ret rs, slice').
Proof.
  intros Hrs Htail. induction Hrs as [|r rs Hr Hrs IH]; [done|].
  change ((r :: rs) ≫= EncodeLogRecord) with (EncodeLogRecord r ++ (rs ≫= EncodeLogRecord)).
  cbn [length Nat.add]. rewrite <- (assoc_L (++)). cbn [LogRecovery_replay].
  rewrite parses_DecodeLogRecord by done. by rewrite IH.
Qed.

(** Enough fuel: a replay that ends with less fuel ends the same with more. *)
Lemma LogRecovery_replay_fuel f f' s :
  (length s < f)%nat → (length s < f')%nat →
  LogRecovery_replay f s = LogRecovery_replay f' s.
Proof.
  revert f' s. induction f as [|f IH]; intros f' s Hf Hf'; [lia|].
  destruct f' as [|f']; [lia|]. cbn.
  destruct (DecodeLogRecord s) as [[r| |] s'] eqn:E; [|done..].
  assert (length s' < length s)%nat as Hlt.
  { clear -E. unfold DecodeLogRecord, DecodeStr_slice, DecodeFixed32, DecodeFixed64, pbind in E.
    repeat (case_decide; [done|]).
    repeat match type of E with
    | context [if decide ?P then _ else _] => destruct (decide P); try done
    | context [match ?x with [] => _ | _ :: _ => _ end] => destruct x eqn:?; try done
    end.
    all: injection E as <- <-.
    all: match goal with H : drop _ _ = _ :: _ |- _ => apply (f_equal length) in H end.
    all: rewrite !length_drop in *; cbn in *; lia. }
  by rewrite (IH f') by lia.
Qed.

(** A zero-filled tail ends the replay, unless exactly the twenty bytes of an
    empty record header are left. *)
Lemma DecodeLogRecord_zeros n :
  (DecodeLogRecord (replicate n 0)).1 = if decide (n = 20%nat) then Abort else Fail.
Proof.
  destruct (decide (n < 21)%nat) as [Hn|Hn].
  - do 21 (destruct n as [|n]; [reflexivity|]). lia.
  - replace n with (20 + S (n - 21))%nat by lia. rewrite decide_False by lia.
    change (replicate (20 + S (n - 21)) 0) with
      (EncodeFixed32 0 ++ EncodeStr [] ++ EncodeStr [] ++ EncodeFixed64 0 ++ 0 :: replicate (n - 21) 0).
    unfold DecodeLogRecord, pbind. rewrite parses_Fixed32 by mlia.
    rewrite !parses_DecodeStr_slice by done. by rewrite parses_Fixed64 by mlia.
Qed.

Lemma LogRecovery_records_app rs tail :
  Forall log_record_ok rs → (DecodeLogRecord tail).1 = Fail →
  LogRecovery_records ((rs ≫= EncodeLogRecord) ++ tail) = Ret rs.
Proof.
  intros Hrs Ht. destruct (DecodeLogRecord tail) as [r s'] eqn:Hd. cbn in Ht. subst r.
  unfold LogRecovery_records. set (s := (rs ≫= EncodeLogRecord) ++ tail).
  rewrite (LogRecovery_replay_fuel _ (length rs + S (S (length s)))) by lia.
  subst s. rewrite (LogRecovery_replay_app rs _ tail s'); [done|done|].
  cbn. by rewrite Hd.
Qed.

Lemma ParseDBIndex_loop_digits ds rest data :
  Forall is_digit ds → 0 <= data →
  foldl (λ acc c, acc * 10 + (c - 48)) data ds < 2 ^ 32 →
  ParseDBIndex_loop (ds ++ rest) data =
    ParseDBIndex_loop rest (foldl (λ acc c, acc * 10 + (c - 48)) data ds).
Proof.
  revert data. induction ds as [|c ds IH]; intros data Hd Hx Hb; [done|].
  inversion Hd as [|?? Hc Hds]; subst. unfold is_digit in Hc. cbn [app ParseDBIndex_loop foldl] in *.
  rewrite decide_False by lia.
  pose proof (foldl_digits_mono (data * 10 + (c - 48)) ds Hds ltac:(lia)).
  replace (data * 10 + c - 48) with (data * 10 + (c - 48)) by lia.
  rewrite w32_small by mlia. apply IH; [done|lia|done].
Qed.

Lemma nint_to_str_loop_eq fuel x len :
  0 <= x < 10 ^ Z.of_nat fuel → (1 <= fuel)%nat →
  nint_to_str_loop fuel x len = len + size_of (int_to_str_digits fuel x).
Proof.
  revert x len. induction fuel as [|fuel IH]; intros x len Hx Hf; [lia|].
  cbn [nint_to_str_loop int_to_str_digits length]. case_decide; [cbn; lia|].
  rewrite Nat2Z.inj_succ, Z.pow_succ_r in Hx by lia.
  destruct fuel as [|fuel]; [exfalso; cbn in Hx; dlia|].
  rewrite IH; [lia| |lia].
  split; [apply Z.div_pos|apply Z.div_lt_upper_bound]; lia.
Qed.

(** ** Properties *)

(** The decimal form written by [int_to_str] (digit loop, in-place
    reversal, terminator) is read back by [str_to_int] for every 64-bit number
    whatever follows it, both loops agreeing on the size, which is
    [nint_to_str] plus the terminator and at most 21 bytes. *)
Theorem decimal_roundtrip x rest out :
  is_u64 x →
  str_to_int (int_to_str x ++ rest) out 0 = (x, size_of (int_to_str x))
  ∧ size_of (int_to_str x) = nint_to_str x + 1
  ∧ 2 <= size_of (int_to_str x) <= 21.
Proof.
  intros Hx. split; [by apply str_to_int_int_to_str|].
  rewrite int_to_str_eq, length_app. pose proof (decimal_length x). cbn [length]. split; [|lia].
  unfold nint_to_str. rewrite nint_to_str_loop_eq by (cbn; mlia).
  unfold decimal. rewrite length_rev. lia.
Qed.

Lemma decimal_roundtrip_witness :
  str_to_int (int_to_str 20731 ++ [55]) 9 0 = (20731, 6)
  ∧ int_to_str 20731 = [50; 48; 55; 51; 49; 33].
Proof.
  split; [|vm_compute; reflexivity].
  apply (decimal_roundtrip 20731 [55] 9). mlia.
Defined.

(** The comparator the databases are opened with orders decimal keys by
    their numeric value (not lexicographically) and is a total preorder on all
    byte strings, so it can stand under the internal key order. *)
Theorem ycsb_order_numeric x y :
  is_u64 x → is_u64 y →
  (YCSB_Compare (decimal x) (decimal y) < 0 ↔ x < y)
  ∧ (YCSB_Compare (decimal x) (decimal y) = 0 ↔ x = y)
  ∧ ComparatorOrder YCSBKeyComparator.
Proof.
  intros Hx Hy. unfold YCSB_Compare. rewrite !str_to_int_key by done. cbn [fst].
  split_and!; [repeat case_decide; lia..|apply _].
Qed.

Lemma ycsb_order_numeric_witness :
  YCSB_Compare (decimal 9) (decimal 10) < 0 ∧ Slice_compare (decimal 9) (decimal 10) > 0.
Proof.
  split; [|vm_compute; reflexivity].
  destruct (ycsb_order_numeric 9 10) as [[_ H] _]; [mlia|mlia|apply H; lia].
Defined.

(** A request header written by [GenerateRDMARequest] parses back to its
    type, sender, socket and key, and the parsed length is the size of the
    request. *)
Theorem rdma_request_roundtrip t sid fd key rest :
  is_u64 sid → is_u64 fd → size_of key + 64 < 2 ^ 32 →
  let msg := GenerateRDMARequest t sid fd key (size_of key) in
  ParseRDMARequest (msg ++ rest) =
    Ret (mkRDMARequest t sid fd (key ++ rest) (size_of key), size_of msg).
Proof.
  intros Hs Hf Hk msg. subst msg. unfold GenerateRDMARequest. rewrite Nat2Z.id, take_ge by lia.
  unfold ParseRDMARequest. rewrite <- !(assoc_L (++)). cbn [app].
  assert (char_to_req_type (byte_at (req_type_to_char t :: int_to_str sid ++ int_to_str fd
    ++ int_to_str (size_of key) ++ key ++ rest) 0) = Ret t) as -> by by destruct t.
  cbn [drop]. rewrite drop_0, str_to_int_int_to_str, Nat2Z.id, drop_app_length by done.
  rewrite str_to_int_int_to_str, Nat2Z.id, drop_app_length by done.
  rewrite str_to_int_int_to_str, Nat2Z.id, drop_app_length by mlia.
  do 2 f_equal. rewrite !int_to_str_eq. cbn [length]. rewrite !length_app. cbn [length].
  pose proof (decimal_length sid). pose proof (decimal_length fd).
  pose proof (decimal_length (size_of key)). rewrite w32_small by mlia. lia.
Qed.

Lemma rdma_request_roundtrip_witness :
  ParseRDMARequest (GenerateRDMARequest PUT 3 17 [97; 98] 2 ++ [1; 2]) =
    Ret (mkRDMARequest PUT 3 17 [97; 98; 1; 2] 2, 10).
Proof. apply (rdma_request_roundtrip PUT 3 17 [97; 98] [1; 2]); [mlia|mlia|vm_compute; reflexivity]. Defined.

(** A log file name gives back the database index and the memtable id it
    was made from, through both overloads of the parser. *)
Theorem log_file_name_roundtrip dbid mid out :
  is_u32 dbid → is_u32 mid →
  ParseDBIndexFromLogFileName (LogFileName dbid mid) out = (dbid, mid)
  ∧ ParseDBIndexFromLogFileName1 (LogFileName dbid mid) out = dbid.
Proof.
  intros Hd Hm. unfold ParseDBIndexFromLogFileName, ParseDBIndexFromLogFileName1, LogFileName.
  rewrite ParseDBIndex_loop_digits by
    (try apply decimal_digits; rewrite ?decimal_value; mlia).
  rewrite decimal_value by mlia. cbn [app ParseDBIndex_loop]. rewrite decide_True by done.
  split; [|done]. rewrite <- (app_nil_r (decimal mid)).
  rewrite ParseDBIndex_loop_digits by
    (try apply decimal_digits; rewrite ?decimal_value; mlia).
  by rewrite decimal_value by mlia.
Qed.

Lemma log_file_name_roundtrip_witness :
  ParseDBIndexFromLogFileName (LogFileName 12 345) 0 = (12, 345)
  ∧ LogFileName 12 345 = [49; 50; 45; 51; 52; 53].
Proof.
  split; [|vm_compute; reflexivity].
  apply (log_file_name_roundtrip 12 345 0); mlia.
Defined.

(** C27. Recovery replays exactly the records that were appended to a log
    buffer, in order, and stops at the zero-filled rest of the buffer; only
    when exactly twenty zero bytes are left does the decoder look at a byte
    past the buffer (an assertion failure) instead of stopping. *)
Theorem log_replay rs n :
  Forall log_record_ok rs →
  LogRecovery_records ((rs ≫= EncodeLogRecord) ++ replicate n 0) =
    if decide (n = 20%nat) then Abort else Ret rs.
Proof.
  intros Hrs. case_decide as Hn.
  - subst. set (s := (rs ≫= EncodeLogRecord) ++ replicate 20 0). unfold LogRecovery_records.
    rewrite (LogRecovery_replay_fuel _ (length rs + S (length s))) by lia.
    subst s. generalize (length ((rs ≫= EncodeLogRecord) ++ replicate 20 0)). intros fuel.
    clear -Hrs. induction Hrs as [|r rs Hr _ IH]; [reflexivity|].
    change ((r :: rs) ≫= EncodeLogRecord) with (EncodeLogRecord r ++ (rs ≫= EncodeLogRecord)).
    cbn [length Nat.add]. rewrite <- (assoc_L (++)). cbn [LogRecovery_replay].
    rewrite parses_DecodeLogRecord by done.
    by destruct (LogRecovery_replay (length rs + S fuel) _) as [[]].
  - apply LogRecovery_records_app; [done|]. rewrite DecodeLogRecord_zeros. by case_decide.
Qed.

Lemma log_replay_witness :
  LogRecovery_records (([mkLogRecord [49] [50; 51] 7; mkLogRecord [52] [] 8]
    ≫= EncodeLogRecord) ++ replicate 30 0) =
  Ret [mkLogRecord [49] [50; 51] 7; mkLogRecord [52] [] 8].
Proof.
  apply (log_replay [mkLogRecord [49] [50; 51] 7; mkLogRecord [52] [] 8] 30).
  repeat constructor; cbn; mlia.
Defined.
