(* ===== verification/DbFormat.v ===== *)
(** * DbFormat: internal keys

    [db/dbformat.h], the key part of [db/dbformat.cc] and of
    [include/leveldb/db_types.h]: packing of sequence number and type,
    parsing, the internal key order (user key ascending, then sequence number
    and type descending), shortened internal keys, lookup keys. *)

From S2P Require Import Prelude Coding Comparator.

Inductive ValueType := kTypeDeletion | kTypeValue.

#[export] Instance ValueType_eq_dec : EqDecision ValueType.
Proof. solve_decision. Defined.

(** The enumerators' values, part of the on-disk format. *)
Definition ValueType_code (t : ValueType) : Z :=
  match t with kTypeDeletion => 0 | kTypeValue => 1 end.

Definition kValueTypeForSeek : ValueType := kTypeValue.
Definition kMaxSequenceNumber : Z := (1 ≪ 56) - 1.

Record ParsedInternalKey := mkParsed {
  user_key : bytes;
  sequence : Z;
  type : ValueType
}.

(** [(seq << 8) | t] in 64 bits. *)
Definition PackSequenceAndType (seq : Z) (t : ValueType) : Z :=
  Z.lor (w64 (seq ≪ 8)) (ValueType_code t).

Definition InternalKeyEncodingLength (key : ParsedInternalKey) : Z :=
  size_of (user_key key) + 8.

Definition AppendInternalKey (result : bytes) (key : ParsedInternalKey) : bytes :=
  PutFixed64 (result ++ user_key key) (PackSequenceAndType (sequence key) (type key)).

(** [ExtractUserKey]; its callers pass keys of at least eight bytes. *)
Definition ExtractUserKey (internal_key : bytes) : bytes :=
  take (length internal_key - 8) internal_key.

(** The number read by [DecodeFixed64(key.data() + key.size() - 8)]. *)
Definition ExtractTag (internal_key : bytes) : Z :=
  DecodeFixed64_ptr (drop (length internal_key - 8) internal_key).

Definition ValueType_of_code (c : Z) : option ValueType :=
  if decide (c = 0) then Some kTypeDeletion
  else if decide (c = 1) then Some kTypeValue else None.

(** [ParseInternalKey]: [None] where the source returns [false]. *)
Definition ParseInternalKey (internal_key : bytes) : option ParsedInternalKey :=
  if decide (length internal_key < 8)%nat then None
  else
    let num := ExtractTag internal_key in
    let c := Z.land num 255 in
    match ValueType_of_code c with
    | None => None
    | Some t => Some (mkParsed (ExtractUserKey internal_key) (num ≫ 8) t)
    end.

(** ** [class InternalKey]: a wrapper around the encoded bytes [rep_] *)

Definition InternalKey_make (ukey : bytes) (s : Z) (t : ValueType) : bytes :=
  AppendInternalKey [] (mkParsed ukey s t).

(** [DecodeFrom(s, copy)]: the new [rep_] and the returned [!rep_.empty()]. *)
Definition InternalKey_DecodeFrom (rep s : bytes) (copy : bool) : bytes * bool :=
  let rep := if copy then rep ++ s else s in
  (rep, bool_decide (rep ≠ [])).

Definition InternalKey_user_key (rep : bytes) : bytes := ExtractUserKey rep.
Definition InternalKey_SetFrom (p : ParsedInternalKey) : bytes := AppendInternalKey [] p.

(** ** The internal key comparator *)

Section internal_comparator.
Context (user_comparator : Comparator).

Definition InternalKey_Compare (akey bkey : bytes) : Z :=
  let r := Compare (ExtractUserKey akey) (ExtractUserKey bkey) in
  if decide (r = 0) then
    let anum := ExtractTag akey in
    let bnum := ExtractTag bkey in
    if decide (anum > bnum) then -1
    else if decide (anum < bnum) then 1 else r
  else r.

Definition InternalKey_FindShortestSeparator (start limit : bytes) : bytes :=
  let user_start := ExtractUserKey start in
  let user_limit := ExtractUserKey limit in
  let tmp := FindShortestSeparator user_start user_limit in
  if decide ((length tmp < length user_start)%nat ∧ Compare user_start tmp < 0)
  then PutFixed64 tmp (PackSequenceAndType kMaxSequenceNumber kValueTypeForSeek)
  else start.

Definition InternalKey_FindShortSuccessor (key : bytes) : bytes :=
  let ukey := ExtractUserKey key in
  let tmp := FindShortSuccessor ukey in
  if decide ((length tmp < length ukey)%nat ∧ Compare ukey tmp < 0)
  then PutFixed64 tmp (PackSequenceAndType kMaxSequenceNumber kValueTypeForSeek)
  else key.

Definition InternalKeyComparator : Comparator := {|
  Compare := InternalKey_Compare;
  FindShortestSeparator := InternalKey_FindShortestSeparator;
  FindShortSuccessor := InternalKey_FindShortSuccessor
|}.
End internal_comparator.

(** ** [class LookupKey] *)

(** [start_ .. end_], with [kstart_] after the varint. *)
Record LookupKey := mkLookupKey {
  lk_klength : bytes;
  lk_userkey : bytes;
  lk_tag : bytes
}.

Definition LookupKey_make (ukey : bytes) (s : Z) : LookupKey := {|
  lk_klength := EncodeVarint32 (w32 (size_of ukey + 8));
  lk_userkey := ukey;
  lk_tag := EncodeFixed64 (PackSequenceAndType s kValueTypeForSeek)
|}.

Definition memtable_key (k : LookupKey) : bytes := lk_klength k ++ lk_userkey k ++ lk_tag k.
Definition internal_key (k : LookupKey) : bytes := lk_userkey k ++ lk_tag k.
Definition LookupKey_user_key (k : LookupKey) : bytes := lk_userkey k.

(** ** Internal keys parse back *)

Lemma ExtractUserKey_app ukey n : ExtractUserKey (ukey ++ EncodeFixed64 n) = ukey.
Proof. unfold ExtractUserKey. apply take_app_exact. rewrite length_app. cbn. lia. Qed.

Lemma ExtractTag_app ukey n : ExtractTag (ukey ++ EncodeFixed64 n) = w64 n.
Proof.
  unfold ExtractTag. rewrite drop_app_exact by (rewrite length_app; cbn; lia).
  rewrite <- (app_nil_r (EncodeFixed64 n)). apply DecodeFixed64_ptr_encode.
Qed.
#[export] Hint Rewrite ExtractUserKey_app ExtractTag_app : nova.

Lemma ValueType_code_range t : 0 <= ValueType_code t <= 1.
Proof. destruct t; cbn; lia. Qed.

(** A sequence number that fits the 56 bits left by the type. *)
Definition seq_ok (s : Z) : Prop := 0 <= s <= kMaxSequenceNumber.

(** Literal sequence numbers. *)
Ltac seq_lit := split; vm_compute; discriminate.

Lemma seq_ok_bound s : seq_ok s → 0 <= s < 2 ^ 56.
Proof. unfold seq_ok, kMaxSequenceNumber. change (1 ≪ 56) with (2 ^ 56). lia. Qed.

Lemma PackSequenceAndType_add seq t :
  seq_ok seq → PackSequenceAndType seq t = seq * 2 ^ 8 + ValueType_code t.
Proof.
  intros Hs%seq_ok_bound. pose proof (ValueType_code_range t).
  unfold PackSequenceAndType. rewrite w64_small by
    (rewrite Z.shiftl_mul_pow2 by lia; mlia).
  rewrite Z.lor_comm, lor_shiftl_add by mlia. lia.
Qed.

Lemma PackSequenceAndType_u64 seq t : seq_ok seq → is_u64 (PackSequenceAndType seq t).
Proof.
  intros Hs. rewrite PackSequenceAndType_add by done.
  apply seq_ok_bound in Hs. pose proof (ValueType_code_range t). mlia.
Qed.

Lemma AppendInternalKey_parse p k :
  seq_ok (sequence k) → ParseInternalKey (AppendInternalKey p k) =
    Some (mkParsed (p ++ user_key k) (sequence k) (type k)).
Proof.
  intros Hs. unfold ParseInternalKey, AppendInternalKey, PutFixed64.
  rewrite decide_False by (rewrite length_app; cbn; lia).
  rewrite ExtractUserKey_app, ExtractTag_app, w64_small by by apply PackSequenceAndType_u64.
  rewrite PackSequenceAndType_add by done. pose proof (ValueType_code_range (type k)).
  rewrite land_255. unfold w8. rewrite Z.add_comm, Z_mod_plus_full, Z.mod_small by mlia.
  rewrite Z.shiftr_div_pow2, Z.div_add, Z.div_small by mlia.
  by destruct (type k).
Qed.

(** ** The internal key order *)

Section internal_order.
Context {U : Comparator} {OU : ComparatorOrder U}.
Local Abbreviation icmp := (InternalKey_Compare U).

Lemma icmp_lt a b :
  icmp a b < 0 ↔
  Compare (ExtractUserKey a) (ExtractUserKey b) < 0
  ∨ Compare (ExtractUserKey a) (ExtractUserKey b) = 0 ∧ ExtractTag b < ExtractTag a.
Proof. unfold InternalKey_Compare. repeat case_decide; lia. Qed.

Lemma icmp_le a b :
  icmp a b <= 0 ↔
  Compare (ExtractUserKey a) (ExtractUserKey b) < 0
  ∨ Compare (ExtractUserKey a) (ExtractUserKey b) = 0 ∧ ExtractTag b <= ExtractTag a.
Proof. unfold InternalKey_Compare. repeat case_decide; lia. Qed.

Lemma icmp_gt a b :
  icmp a b > 0 ↔
  Compare (ExtractUserKey a) (ExtractUserKey b) > 0
  ∨ Compare (ExtractUserKey a) (ExtractUserKey b) = 0 ∧ ExtractTag a < ExtractTag b.
Proof. unfold InternalKey_Compare. repeat case_decide; lia. Qed.

Lemma icmp_zero a b :
  icmp a b = 0 ↔
  Compare (ExtractUserKey a) (ExtractUserKey b) = 0 ∧ ExtractTag a = ExtractTag b.
Proof. unfold InternalKey_Compare. repeat case_decide; lia. Qed.

#[export] Instance InternalKey_order : ComparatorOrder (InternalKeyComparator U).
Proof.
  split; cbn.
  - intros a. apply icmp_zero. by rewrite cmp_refl.
  - intros a b. rewrite icmp_lt, icmp_gt.
    pose proof (cmp_antisym (ExtractUserKey a) (ExtractUserKey b)).
    pose proof (cmp_antisym (ExtractUserKey b) (ExtractUserKey a)). lia.
  - intros a b c. rewrite !icmp_le.
    generalize (ExtractUserKey a) (ExtractUserKey b) (ExtractUserKey c). intros ua ub uc.
    intros [Hab|[Hab Ht]] [Hbc|[Hbc Ht']].
    + left. by apply (cmp_lt_trans ua ub).
    + left. apply (cmp_lt_le_trans ua ub); lia.
    + left. apply (cmp_le_lt_trans ua ub); lia.
    + right. split; [|lia].
      pose proof (cmp_le_trans ua ub uc). pose proof (cmp_le_trans uc ub ua).
      pose proof (cmp_antisym ua uc). pose proof (cmp_antisym ub ua).
      pose proof (cmp_antisym uc ub). pose proof (cmp_antisym uc ua).
      pose proof (cmp_antisym ua ub). pose proof (cmp_antisym ub uc). lia.
Qed.
End internal_order.

Lemma length_ExtractUserKey k : length (ExtractUserKey k) = (length k - 8)%nat.
Proof. unfold ExtractUserKey. rewrite length_take. lia. Qed.

#[export] Instance InternalKey_separating U `{!Separating U} : Separating (InternalKeyComparator U).
Proof.
  assert (∀ k, InternalKey_Compare U k k = 0) as Hrefl
    by (intros k; apply (cmp_refl (C := InternalKeyComparator U))).
  split; [apply _|..]; cbn.
  - intros start limit Hlt. unfold InternalKey_FindShortestSeparator.
    case_decide as Hd; [|by rewrite Hrefl].
    rewrite icmp_le, icmp_lt. unfold PutFixed64. rewrite ExtractUserKey_app. split; [tauto|]. left.
    apply icmp_lt in Hlt as [Hu|[Hu _]]; [by apply separator_between|].
    destruct (separator_equal _ _ Hu); tauto.
  - intros start limit [Hu _]%icmp_zero. unfold InternalKey_FindShortestSeparator.
    case_decide as Hd; [|rewrite Hrefl; lia]. destruct (separator_equal _ _ Hu); tauto.
  - intros key. unfold InternalKey_FindShortSuccessor. case_decide as Hd; [|rewrite Hrefl; lia].
    apply icmp_le. unfold PutFixed64. rewrite ExtractUserKey_app. tauto.
  - intros start limit. unfold InternalKey_FindShortestSeparator. case_decide as Hd; [|done].
    unfold PutFixed64. rewrite length_app. cbn [length EncodeFixed64]. destruct Hd as [Hd _].
    rewrite length_ExtractUserKey in Hd. lia.
  - intros key. unfold InternalKey_FindShortSuccessor. case_decide as Hd; [|done].
    unfold PutFixed64. rewrite length_app. cbn [length EncodeFixed64]. destruct Hd as [Hd _].
    rewrite length_ExtractUserKey in Hd. lia.
Qed.

(** Two internal keys of one user key. *)
Definition same_user_key (U : Comparator) (a b : bytes) : Prop :=
  U.(Compare) (ExtractUserKey a) (ExtractUserKey b) = 0.

#[export] Instance InternalKey_groups U `{!Separating U} :
  SeparatesGroups (InternalKeyComparator U) (same_user_key U).
Proof.
  intros a b e k. cbn. unfold InternalKey_FindShortestSeparator, same_user_key.
  case_decide as Hd.
  - rewrite !icmp_lt, !icmp_le. unfold PutFixed64. rewrite ExtractUserKey_app. intros Hab Hbe Hak Hks He.
    destruct Hd as [_ Hd]. assert (U.(Compare) (ExtractUserKey a) (ExtractUserKey b) < 0) as Hlt.
    { destruct Hab as [?|[Hu _]]; [done|]. by destruct (separator_equal _ _ Hu). }
    apply separator_between in Hlt as [_ Hsb].
    assert (U.(Compare) (ExtractUserKey k) (FindShortestSeparator (ExtractUserKey a) (ExtractUserKey b)) <= 0) as Hk
      by (destruct Hks as [?|[? _]]; lia).
    assert (U.(Compare) (ExtractUserKey b) (ExtractUserKey e) <= 0) as Hb by (destruct Hbe as [?|[? _]]; lia).
    enough (U.(Compare) (ExtractUserKey k) (ExtractUserKey e) < 0) by lia.
    eapply cmp_le_lt_trans; [exact Hk|]. by eapply cmp_lt_le_trans.
  - intros _ _ Hak Hka. pose proof (cmp_antisym (C := InternalKeyComparator U) a k) as H. cbn in H.
    apply H in Hak. lia.
Qed.

(** A well-formed encoded internal key. *)
Definition ikey_ok (k : bytes) : Prop := is_Some (ParseInternalKey k).

Lemma ikey_ok_split k :
  ikey_ok k → ∃ t, k = ExtractUserKey k ++ t ∧ length t = 8%nat.
Proof.
  intros [p Hp]. unfold ParseInternalKey in Hp. case_decide; [done|].
  exists (drop (length k - 8) k). unfold ExtractUserKey.
  rewrite take_drop, length_drop. split; [done|lia].
Qed.

(** The tag appended to a shortened key is above every other tag, so the
    shortened key sorts before all entries of its user key. *)
Definition seek_tag : Z := PackSequenceAndType kMaxSequenceNumber kValueTypeForSeek.

Lemma seek_tag_max seq t : seq_ok seq → PackSequenceAndType seq t <= seek_tag.
Proof.
  intros Hs. unfold seek_tag. rewrite !PackSequenceAndType_add by
    (done || (unfold seq_ok, kMaxSequenceNumber; cbn; lia)).
  unfold seq_ok in Hs. pose proof (ValueType_code_range t). cbn. lia.
Qed.

Lemma InternalKey_make_user_key u s t : ExtractUserKey (InternalKey_make u s t) = u.
Proof. apply ExtractUserKey_app. Qed.

Lemma InternalKey_make_tag u s t :
  seq_ok s → ExtractTag (InternalKey_make u s t) = s * 2 ^ 8 + ValueType_code t.
Proof.
  intros Hs. unfold InternalKey_make, AppendInternalKey, PutFixed64. cbn [user_key sequence type].
  rewrite ExtractTag_app, w64_small by by apply PackSequenceAndType_u64.
  by apply PackSequenceAndType_add.
Qed.
#[export] Hint Rewrite InternalKey_make_user_key : nova.

Lemma LookupKey_internal_key u s :
  internal_key (LookupKey_make u s) = InternalKey_make u s kValueTypeForSeek.
Proof. done. Qed.

(** ** Properties *)

(** An appended internal key parses back to the key it was made from, for
    every user key, 56-bit sequence number and type, and its size is
    [InternalKeyEncodingLength]. *)
Theorem internal_key_roundtrip k :
  seq_ok (sequence k) →
  ParseInternalKey (AppendInternalKey [] k) = Some k
  ∧ size_of (AppendInternalKey [] k) = InternalKeyEncodingLength k.
Proof.
  intros Hs. rewrite AppendInternalKey_parse by done. destruct k as [u s t]. split; [done|].
  unfold AppendInternalKey, PutFixed64, InternalKeyEncodingLength. cbn [user_key].
  rewrite !length_app. cbn. lia.
Qed.

Lemma internal_key_roundtrip_witness :
  ParseInternalKey (AppendInternalKey [] (mkParsed [107; 49] 7 kTypeValue)) =
    Some (mkParsed [107; 49] 7 kTypeValue).
Proof.
  apply (internal_key_roundtrip (mkParsed [107; 49] 7 kTypeValue)).
  seq_lit.
Defined.

(** Internal keys are ordered by increasing user key, then decreasing
    sequence number, then decreasing type: among the entries of one user key
    the newest comes first. *)
Theorem internal_key_order (U : Comparator) (OU : ComparatorOrder U) u1 u2 s1 s2 t1 t2 :
  seq_ok s1 → seq_ok s2 →
  InternalKey_Compare U (InternalKey_make u1 s1 t1) (InternalKey_make u2 s2 t2) < 0 ↔
  Compare u1 u2 < 0
  ∨ Compare u1 u2 = 0 ∧ (s1 > s2 ∨ s1 = s2 ∧ ValueType_code t1 > ValueType_code t2).
Proof.
  intros H1 H2. rewrite icmp_lt, !InternalKey_make_user_key, !InternalKey_make_tag by done.
  pose proof (ValueType_code_range t1). pose proof (ValueType_code_range t2). mlia.
Qed.

Lemma internal_key_order_witness :
  InternalKey_Compare BytewiseComparator
    (InternalKey_make [97] 9 kTypeDeletion) (InternalKey_make [97] 8 kTypeValue) < 0.
Proof.
  apply (internal_key_order BytewiseComparator Bytewise_order [97] [97] 9 8 kTypeDeletion kTypeValue);
    [seq_lit..|].
  right. split; [reflexivity | left; lia].
Defined.

(** A lookup key for user key [u] at snapshot [s] sorts at or before
    exactly the entries of [u] whose sequence number is at most [s]: a seek
    with it lands on the newest entry visible in the snapshot.  The memtable
    form of the key is the length-prefixed internal key. *)
Lemma lookup_key_snapshot (U : Comparator) (OU : ComparatorOrder U) u s s' t :
  seq_ok s → seq_ok s' → size_of u + 8 < 2 ^ 32 →
  (InternalKey_Compare U (internal_key (LookupKey_make u s)) (InternalKey_make u s' t) <= 0
     ↔ s' <= s)
  ∧ GetLengthPrefixedSlice (memtable_key (LookupKey_make u s)) =
      (Ret (internal_key (LookupKey_make u s)), []).
Proof.
  intros Hs Hs' Hu. split.
  - rewrite LookupKey_internal_key, icmp_le, !InternalKey_make_user_key, !InternalKey_make_tag by done.
    rewrite cmp_refl. destruct t; cbn; lia.
  - pose proof (parses_LengthPrefixed (internal_key (LookupKey_make u s))) as Hp.
    unfold PutLengthPrefixedSlice, PutVarint32 in Hp. cbn [app] in Hp.
    assert (size_of (internal_key (LookupKey_make u s)) = size_of u + 8) as Hsz
      by (cbn; rewrite length_app; cbn; lia).
    rewrite Hsz in Hp. rewrite <- (app_nil_r (memtable_key _)). apply Hp.
    unfold short. lia.
Qed.

Lemma InternalKey_between U `{!Separating U} start limit :
  InternalKey_Compare U start limit < 0 →
  InternalKey_Compare U start (InternalKey_FindShortestSeparator U start limit) <= 0
  ∧ InternalKey_Compare U (InternalKey_FindShortestSeparator U start limit) limit < 0
  ∧ InternalKey_Compare U start (InternalKey_FindShortSuccessor U start) <= 0.
Proof.
  intros Hlt. destruct (separator_between (C := InternalKeyComparator U) start limit Hlt) as [Hl Hr].
  exact (conj Hl (conj Hr (successor_above (C := InternalKeyComparator U) start))).
Qed.

(** With the bytewise user comparator, the separator of two internal keys
    [start < limit] lies in [[start, limit)] and the short successor of a key
    is at or above it, so index entries built from them bound their blocks. *)
Lemma internal_separator_between start limit :
  let icmp := InternalKey_Compare BytewiseComparator in
  icmp start limit < 0 →
  let sep := InternalKey_FindShortestSeparator BytewiseComparator start limit in
  let succ := InternalKey_FindShortSuccessor BytewiseComparator start in
  icmp start sep <= 0 ∧ icmp sep limit < 0 ∧ icmp start succ <= 0.
Proof.
  intros icmp Hlt. exact (InternalKey_between BytewiseComparator start limit Hlt).
Qed.

