(* ===== verification/UserScan.v ===== *)
(** * UserScan: moving to the next user key

    [SkipToNextUserKey] of [include/leveldb/iterator.h] moves an iterator past
    the entries of a user key.  The user keys are decimal numbers, so the
    iterators compare them as integers.  This file states what the method
    promises, over the sequence an iterator walks through. *)

From S2P Require Import Prelude Coding Comparator Cursor NovaCommon DbFormat.

Definition user_int (ikey : bytes) : Z := key_int (ExtractUserKey ikey).

(** The number of leading entries whose user key is below [x], and at most [x]. *)
Fixpoint below (l : list (bytes * bytes)) (x : Z) : nat :=
  match l with
  | [] => O
  | e :: l => if decide (user_int e.1 < x) then S (below l x) else O
  end.

Fixpoint upto (l : list (bytes * bytes)) (x : Z) : nat :=
  match l with
  | [] => O
  | e :: l => if decide (user_int e.1 <= x) then S (upto l x) else O
  end.

(** A comparator that orders user keys by their number. *)
Class NumericKeys (cmp : Comparator) : Prop :=
  numeric_keys a b : Compare a b <= 0 → user_int a <= user_int b.

(** The entries come in the order of their user keys. *)
Definition user_sorted (l : list (bytes * bytes)) : Prop :=
  StronglySorted (λ a b, user_int a.1 <= user_int b.1) l.

(** [SkipToNextUserKey] from a position at or behind the first entry of the
    user key and not behind its last one. *)
Class SkipLaw {S} (it : Iter S) (R : S → nat → Prop) (l : list (bytes * bytes)) : Prop :=
  skip_law s p t : R s p → (below l (user_int t) <= p <= upto l (user_int t))%nat →
    ∃ s', op_SkipToNextUserKey it s t = Ret s' ∧ R s' (upto l (user_int t)).

(** The same of an index, which may already be further. *)
Class SkipIndexLaw {S} (it : Iter S) (R : S → nat → Prop) (l : list (bytes * bytes)) : Prop :=
  skip_index_law s p t : R s p → (below l (user_int t) <= p)%nat →
    ∃ s' q, op_SkipToNextUserKey it s t = Ret s' ∧ R s' q ∧ (upto l (user_int t) <= q <= p `max` upto l (user_int t))%nat.

(** The iterator over a sequence held in memory; its state is the position. *)
Definition list_iter (cmp : Comparator) (l : list (bytes * bytes)) : Iter nat :=
  mkIter
    (mkIterOps (λ i, bool_decide (i < length l)%nat)
       (λ i, match l !! i with Some e => Ret e.1 | None => Abort end)
       (λ i, match l !! i with Some e => Ret e.2 | None => Abort end)
       (λ i m, match cursor_move cmp l i m with Some j => Ret j | None => Abort end))
    (λ _ t, Ret (upto l (user_int t)))
    (λ _, true).

(** ** Positions by user key *)

Lemma below_le l x : (below l x <= length l)%nat.
Proof. induction l as [|e l IH]; cbn; [lia|]. case_decide; lia. Qed.

Lemma upto_le l x : (upto l x <= length l)%nat.
Proof. induction l as [|e l IH]; cbn; [lia|]. case_decide; lia. Qed.

Lemma below_upto l x : (below l x <= upto l x)%nat.
Proof. induction l as [|e l IH]; cbn; [lia|]. repeat case_decide; lia. Qed.

Lemma upto_before l x i e : (i < upto l x)%nat → l !! i = Some e → user_int e.1 <= x.
Proof.
  revert i. induction l as [|e' l IH]; intros i; cbn; [lia|]. case_decide; [|lia].
  destruct i as [|i]; cbn; [by intros _ [= <-]|]. intros Hi. apply IH. lia.
Qed.

Lemma below_before l x i e : (i < below l x)%nat → l !! i = Some e → user_int e.1 < x.
Proof.
  revert i. induction l as [|e' l IH]; intros i; cbn; [lia|]. case_decide; [|lia].
  destruct i as [|i]; cbn; [by intros _ [= <-]|]. intros Hi. apply IH. lia.
Qed.

Lemma upto_at l x e : l !! upto l x = Some e → x < user_int e.1.
Proof. induction l as [|e' l IH]; cbn; [done|]. case_decide; [apply IH|]. cbn. intros [= <-]. lia. Qed.

Lemma below_at l x e : l !! below l x = Some e → x <= user_int e.1.
Proof. induction l as [|e' l IH]; cbn; [done|]. case_decide; [apply IH|]. cbn. intros [= <-]. lia. Qed.

Section sorted.
Context (l : list (bytes * bytes)) (Hs : user_sorted l).

Lemma user_le i j e f : (i <= j)%nat → l !! i = Some e → l !! j = Some f → user_int e.1 <= user_int f.1.
Proof using Hs.
  intros Hij Hi Hj. destruct (decide (i = j)) as [->|]; [by simplify_eq|].
  by apply (sorted_lookup _ _ i j e f Hs); [lia|..].
Qed.

Lemma upto_spec x i e : l !! i = Some e → user_int e.1 <= x ↔ (i < upto l x)%nat.
Proof using Hs.
  intros Hi. split; [|intros H; by eapply upto_before]. intros He. destruct (decide (i < upto l x)%nat); [done|].
  destruct (lookup_lt_is_Some_2 l (upto l x)) as [f Hf]; [apply lookup_lt_Some in Hi; lia|].
  pose proof (upto_at _ _ _ Hf). pose proof (user_le (upto l x) i _ _ ltac:(lia) Hf Hi). lia.
Qed.

Lemma below_spec x i e : l !! i = Some e → user_int e.1 < x ↔ (i < below l x)%nat.
Proof using Hs.
  intros Hi. split; [|intros H; by eapply below_before]. intros He. destruct (decide (i < below l x)%nat); [done|].
  destruct (lookup_lt_is_Some_2 l (below l x)) as [f Hf]; [apply lookup_lt_Some in Hi; lia|].
  pose proof (below_at _ _ _ Hf). pose proof (user_le (below l x) i _ _ ltac:(lia) Hf Hi). lia.
Qed.

Lemma upto_unique x j :
  (j <= length l)%nat → (∀ i e, (i < j)%nat → l !! i = Some e → user_int e.1 <= x) →
  (∀ e, l !! j = Some e → x < user_int e.1) → j = upto l x.
Proof.
  intros Hj Hb Ha. pose proof (upto_le l x). destruct (lt_eq_lt_dec j (upto l x)) as [[Hlt|?]|Hlt]; [|done|].
  - destruct (lookup_lt_is_Some_2 l j ltac:(lia)) as [e He]. pose proof (Ha e He).
    pose proof (upto_before _ _ _ _ Hlt He). lia.
  - destruct (lookup_lt_is_Some_2 l (upto l x) ltac:(lia)) as [e He]. pose proof (Hb _ e Hlt He).
    pose proof (upto_at _ _ _ He). lia.
Qed.

Lemma below_unique x j :
  (j <= length l)%nat → (∀ i e, (i < j)%nat → l !! i = Some e → user_int e.1 < x) →
  (∀ e, l !! j = Some e → x <= user_int e.1) → j = below l x.
Proof.
  intros Hj Hb Ha. pose proof (below_le l x). destruct (lt_eq_lt_dec j (below l x)) as [[Hlt|?]|Hlt]; [|done|].
  - destruct (lookup_lt_is_Some_2 l j ltac:(lia)) as [e He]. pose proof (Ha e He).
    pose proof (below_before _ _ _ _ Hlt He). lia.
  - destruct (lookup_lt_is_Some_2 l (below l x) ltac:(lia)) as [e He]. pose proof (Hb _ e Hlt He).
    pose proof (below_at _ _ _ He). lia.
Qed.
End sorted.

Lemma sorted_user_sorted cmp `{!NumericKeys cmp} l :
  StronglySorted (λ a b, Compare a.1 b.1 < 0) l → user_sorted l.
Proof.
  intros H. apply StronglySorted_lookup. intros i j e f Hij Hi Hj. apply numeric_keys.
  pose proof (sorted_lookup _ _ _ _ _ _ H Hij Hi Hj) as Hlt. cbn in Hlt. lia.
Qed.

(** A seek to an internal key stops among the entries of its user key. *)
Lemma lower_bound_user cmp `{!NumericKeys cmp} `{!ComparatorOrder cmp} l t :
  user_sorted l → (below l (user_int t) <= lower_bound cmp l t <= upto l (user_int t))%nat.
Proof.
  intros Hs. pose proof (lower_bound_le cmp l t) as Hle. split.
  - destruct (decide (lower_bound cmp l t < below l (user_int t))%nat) as [Hlt|]; [|lia].
    destruct (lookup_lt_is_Some_2 l (lower_bound cmp l t)) as [[k v] He]; [pose proof (below_le l (user_int t)); lia|].
    pose proof (below_before _ _ _ _ Hlt He) as H1. pose proof (lower_bound_at _ _ _ _ _ He) as H2.
    apply cmp_not_lt, numeric_keys in H2. cbn in H1. lia.
  - destruct (decide (upto l (user_int t) < lower_bound cmp l t)%nat) as [Hlt|]; [|lia].
    destruct (lookup_lt_is_Some_2 l (upto l (user_int t))) as [[k v] He]; [lia|].
    pose proof (upto_at _ _ _ He) as H1. pose proof (lower_bound_before _ _ _ _ _ _ Hlt He) as H2.
    assert (Compare k t <= 0) as H3%numeric_keys by lia. cbn in H1. lia.
Qed.

(** ** The iterator over a sequence *)

Definition list_at (l : list (bytes * bytes)) (s i : nat) : Prop := s = i ∧ (i <= length l)%nat.

Lemma list_Cursor cmp l : Cursor cmp l (iter_ops (list_iter cmp l)) (list_at l).
Proof.
  split.
  - by intros s i [_ ?].
  - by intros s i [-> _].
  - intros s i k v [-> _] E. cbn. by rewrite E.
  - intros s i m j [-> Hi] E. cbn. rewrite E. exists j. split; [done|]. split; [done|].
    destruct m; cbn in E; repeat case_decide; simplify_eq; try lia; try apply lower_bound_le; unfold back_from; case_match; lia.
Qed.

Lemma list_SkipLaw cmp l : SkipLaw (list_iter cmp l) (list_at l) l.
Proof. intros s p t [-> _] _. eexists. split; [done|]. split; [done|apply upto_le]. Qed.
