(* ===== verification/Merger.v ===== *)
(** * Merger: iterating over several sources at once

    [table/merger.cc] over [table/iterator_wrapper.h].  A child is a state of
    the type [S]; its operations may differ from those of the other children.
    [IteratorWrapper] caches the validity and the key of its iterator. *)

From S2P Require Import Prelude Coding Comparator Cursor NovaCommon DbFormat UserScan.

(** ** [IteratorWrapper] *)

Record IteratorWrapper (S : Type) := mkWrapper { w_iter : option S; w_valid : bool; w_key : bytes }.
Arguments mkWrapper {S} _ _ _.
Arguments w_iter {S} _.
Arguments w_valid {S} _.
Arguments w_key {S} _.

Section wrapper.
Context {S : Type}.

(** [Update()] after the iterator became [s]; [old] is the key cached before,
    which stays when the iterator is not valid. *)
Definition Wrapper_Update (it : Iter S) (s : S) (old : bytes) : res (IteratorWrapper S) :=
  if op_Valid (iter_ops it) s then k ← op_key (iter_ops it) s; Ret (mkWrapper (Some s) true k)
  else Ret (mkWrapper (Some s) false old).

Definition Wrapper_init : IteratorWrapper S := mkWrapper None false [].

Definition Wrapper_Set (it : Iter S) (w : IteratorWrapper S) (s : option S) : res (IteratorWrapper S) :=
  match s with
  | None => Ret (mkWrapper None false (w_key w))
  | Some s => Wrapper_Update it s (w_key w)
  end.

Definition Wrapper_key (w : IteratorWrapper S) : res bytes := if w_valid w then Ret (w_key w) else Abort.

Definition Wrapper_value (it : Iter S) (w : IteratorWrapper S) : res bytes :=
  if w_valid w then match w_iter w with Some s => op_value (iter_ops it) s | None => Abort end else Abort.

Definition Wrapper_status (it : Iter S) (w : IteratorWrapper S) : res bool :=
  match w_iter w with Some s => Ret (op_status_ok it s) | None => Abort end.

(** [Next], [Prev], [Seek], [SeekToFirst] and [SeekToLast]. *)
Definition Wrapper_move (it : Iter S) (m : move) (w : IteratorWrapper S) : res (IteratorWrapper S) :=
  match w_iter w with
  | None => Abort
  | Some s => s' ← op_move (iter_ops it) s m; Wrapper_Update it s' (w_key w)
  end.

Definition Wrapper_SkipToNextUserKey (it : Iter S) (target : bytes) (w : IteratorWrapper S) :
    res (IteratorWrapper S) :=
  match w_iter w with
  | None => Abort
  | Some s => s' ← op_SkipToNextUserKey it s target; Wrapper_Update it s' (w_key w)
  end.

Lemma Wrapper_Skip_eq (it : Iter S) t w s s' :
  w_iter w = Some s → op_SkipToNextUserKey it s t = Ret s' →
  Wrapper_SkipToNextUserKey it t w = Wrapper_Update it s' (w_key w).
Proof. intros E H. unfold Wrapper_SkipToNextUserKey. rewrite E, H. done. Qed.
End wrapper.

(** ** [MergingIterator] *)

Inductive Direction := kForward | kReverse.
#[export] Instance Direction_eq_dec : EqDecision Direction.
Proof. solve_decision. Defined.

Record MergingIterator (S : Type) := mkMerging {
  mi_children : list (IteratorWrapper S);
  mi_current : option nat;
  mi_direction : Direction
}.
Arguments mkMerging {S} _ _ _.
Arguments mi_children {S} _.
Arguments mi_current {S} _.
Arguments mi_direction {S} _.

(** [for (int i = 0; i < n_; i++)] over the children. *)
Fixpoint each_child {W} (f : nat → W → res W) (i : nat) (l : list W) : res (list W) :=
  match l with
  | [] => Ret []
  | w :: l => w' ← f i w; l' ← each_child f (Datatypes.S i) l; Ret (w' :: l')
  end.

Section merging.
Context (cmp : Comparator) {S : Type}.

(** The operations of the [i]-th child. *)
Context (child : nat → Iter S).

(** [FindSmallest]: the first of the children with the smallest key. *)
Fixpoint FindSmallest (l : list (IteratorWrapper S)) (i : nat) (smallest : option (nat * bytes)) : option nat :=
  match l with
  | [] => fst <$> smallest
  | w :: l =>
      FindSmallest l (Datatypes.S i)
        (if w_valid w then
           match smallest with
           | None => Some (i, w_key w)
           | Some (_, k) => if decide (Compare (w_key w) k < 0) then Some (i, w_key w) else smallest
           end
         else smallest)
  end.

(** [FindLargest]: from the last child down. *)
Fixpoint FindLargest (l : list (IteratorWrapper S)) (i : nat) : option (nat * bytes) :=
  match l with
  | [] => None
  | w :: l =>
      let largest := FindLargest l (Datatypes.S i) in
      if w_valid w then
        match largest with
        | None => Some (i, w_key w)
        | Some (_, k) => if decide (Compare (w_key w) k > 0) then Some (i, w_key w) else largest
        end
      else largest
  end.

Definition forward (l : list (IteratorWrapper S)) : MergingIterator S :=
  mkMerging l (FindSmallest l 0 None) kForward.
Definition backward (l : list (IteratorWrapper S)) : MergingIterator S :=
  mkMerging l (fst <$> FindLargest l 0) kReverse.

Fixpoint set_children (i : nat) (children : list S) : res (list (IteratorWrapper S)) :=
  match children with
  | [] => Ret []
  | s :: children =>
      w ← Wrapper_Set (child i) Wrapper_init (Some s);
      l ← set_children (Datatypes.S i) children;
      Ret (w :: l)
  end.

Definition Merging_init (children : list S) : res (MergingIterator S) :=
  l ← set_children 0 children; Ret (mkMerging l None kForward).

Definition Merging_Valid (m : MergingIterator S) : bool := bool_decide (is_Some (mi_current m)).

(** [current_], where it must not be null. *)
Definition current (m : MergingIterator S) : res (nat * IteratorWrapper S) :=
  match mi_current m with
  | None => Abort
  | Some c => match mi_children m !! c with Some w => Ret (c, w) | None => Abort end
  end.

Definition Merging_key (m : MergingIterator S) : res bytes := '(_, w) ← current m; Wrapper_key w.
Definition Merging_value (m : MergingIterator S) : res bytes := '(c, w) ← current m; Wrapper_value (child c) w.

Definition Merging_SeekToFirst (m : MergingIterator S) : res (MergingIterator S) :=
  l ← each_child (λ i, Wrapper_move (child i) SeekToFirst) 0 (mi_children m); Ret (forward l).

Definition Merging_SkipToNextUserKey (m : MergingIterator S) (target : bytes) : res (MergingIterator S) :=
  l ← each_child (λ i, Wrapper_SkipToNextUserKey (child i) target) 0 (mi_children m); Ret (forward l).

Definition Merging_SeekToLast (m : MergingIterator S) : res (MergingIterator S) :=
  l ← each_child (λ i, Wrapper_move (child i) SeekToLast) 0 (mi_children m); Ret (backward l).

Definition Merging_Seek (m : MergingIterator S) (target : bytes) : res (MergingIterator S) :=
  l ← each_child (λ i, Wrapper_move (child i) (Seek target)) 0 (mi_children m); Ret (forward l).

(** Positions a child that is not the current one after [key]. *)
Definition child_after (key : bytes) (i : nat) (w : IteratorWrapper S) : res (IteratorWrapper S) :=
  w ← Wrapper_move (child i) (Seek key) w;
  if w_valid w && bool_decide (Compare key (w_key w) = 0) then Wrapper_move (child i) Next w else Ret w.

(** Positions it before [key]. *)
Definition child_before (key : bytes) (i : nat) (w : IteratorWrapper S) : res (IteratorWrapper S) :=
  w ← Wrapper_move (child i) (Seek key) w;
  if w_valid w then Wrapper_move (child i) Prev w else Wrapper_move (child i) SeekToLast w.

(** [current_->Next()] or [current_->Prev()]. *)
Definition move_current (m : move) (c : nat) (l : list (IteratorWrapper S)) : res (list (IteratorWrapper S)) :=
  match l !! c with
  | None => Abort
  | Some w => w' ← Wrapper_move (child c) m w; Ret (<[c := w']> l)
  end.

Definition Merging_Next (m : MergingIterator S) : res (MergingIterator S) :=
  '(c, w) ← current m;
  l ← (if decide (mi_direction m = kForward) then Ret (mi_children m)
       else
         k ← Wrapper_key w;
         each_child (λ i w, if decide (i = c) then Ret w else child_after k i w) 0 (mi_children m));
  l ← move_current Next c l;
  Ret (forward l).

Definition Merging_Prev (m : MergingIterator S) : res (MergingIterator S) :=
  '(c, w) ← current m;
  l ← (if decide (mi_direction m = kReverse) then Ret (mi_children m)
       else
         k ← Wrapper_key w;
         each_child (λ i w, if decide (i = c) then Ret w else child_before k i w) 0 (mi_children m));
  l ← move_current Prev c l;
  Ret (backward l).

(** The first status that is not OK. *)
Fixpoint Merging_status (l : list (IteratorWrapper S)) (i : nat) : bool :=
  match l with
  | [] => true
  | w :: l => match w_iter w with
              | Some s => if op_status_ok (child i) s then Merging_status l (Datatypes.S i) else false
              | None => false
              end
  end.

Definition Merging_ops : Iter (MergingIterator S) :=
  mkIter
    (mkIterOps Merging_Valid Merging_key Merging_value
       (λ m mv, match mv with
                | SeekToFirst => Merging_SeekToFirst m
                | SeekToLast => Merging_SeekToLast m
                | Seek target => Merging_Seek m target
                | Next => Merging_Next m
                | Prev => Merging_Prev m
                end))
    Merging_SkipToNextUserKey
    (λ m, Merging_status (mi_children m) 0).
End merging.

(** ** Wrapped iterators *)

Abbreviation kv := (bytes * bytes)%type.

Section wrapper_proofs.
Context (cmp : Comparator) {S : Type} (it : Iter S) (R : S → nat → Prop) (l : list kv).
Context `{HC : !Cursor cmp l (iter_ops it) R}.

(** The wrapped iterator is at position [p], which the cache agrees with. *)
Definition wrapped (w : IteratorWrapper S) (p : nat) : Prop :=
  (∃ s, w_iter w = Some s ∧ R s p) ∧ w_valid w = bool_decide (p < length l)%nat
  ∧ ∀ k v, l !! p = Some (k, v) → w_key w = k.

Lemma Update_wrapped s p old : R s p → ∃ w, Wrapper_Update it s old = Ret w ∧ wrapped w p.
Proof using HC.
  intros HR. unfold Wrapper_Update. rewrite (cur_valid _ _ _ _ HR). destruct (l !! p) as [[k v]|] eqn:Ep.
  - destruct (cur_entry _ _ _ _ _ _ HR Ep) as [-> _]. rewrite bool_decide_eq_true_2 by (by eapply lookup_lt_Some).
    cbn [mbind res_bind]. eexists. split; [done|]. split_and!; [by eauto| |intros k' v'; rewrite Ep; cbn; congruence].
    cbn. symmetry. apply bool_decide_eq_true_2. by eapply lookup_lt_Some.
  - apply lookup_ge_None in Ep. rewrite bool_decide_eq_false_2 by lia. eexists. split; [done|].
    split_and!; [by eauto| |intros ?? ?%lookup_lt_Some; lia]. cbn. symmetry. apply bool_decide_eq_false_2. lia.
Qed.

Lemma move_wrapped w p m p' :
  wrapped w p → cursor_move cmp l p m = Some p' → ∃ w', Wrapper_move it m w = Ret w' ∧ wrapped w' p'.
Proof using HC.
  intros ((s & Es & HR) & _) Hm. unfold Wrapper_move. rewrite Es.
  destruct (cur_move _ _ _ _ _ _ HR Hm) as (s' & -> & HR'). cbn [mbind res_bind]. by apply Update_wrapped.
Qed.

Lemma entry_wrapped w p k v :
  wrapped w p → l !! p = Some (k, v) → Wrapper_key w = Ret k ∧ Wrapper_value it w = Ret v.
Proof using HC.
  intros ((s & Es & HR) & Hv & Hk) Hp. unfold Wrapper_key, Wrapper_value.
  rewrite Hv, bool_decide_eq_true_2, Es, (Hk _ _ Hp) by (by eapply lookup_lt_Some).
  split; [done|]. by apply (cur_entry _ _ _ _ _ _ HR Hp).
Qed.
End wrapper_proofs.

(** ** The children of a merge

    Each child is an iterator over its own sorted sequence; together they hold
    the entries of [kvs], whose keys are distinct. *)

Section merge_proofs.
Context (cmp : Comparator) `{!ComparatorOrder cmp} {S : Type}.
Context (child : nat → Iter S) (R : nat → S → nat → Prop) (kvss : list (list kv)) (kvs : list kv).

Record merge_ok : Prop := {
  mo_cursor j l : kvss !! j = Some l → Cursor cmp l (iter_ops (child j)) (R j);
  mo_sorted j l : kvss !! j = Some l → StronglySorted (λ a b, Compare a.1 b.1 < 0) l;
  mo_merged : StronglySorted (λ a b, Compare a.1 b.1 < 0) kvs;
  mo_same : kvs ≡ₚ concat kvss
}.
Context (OK : merge_ok).

(** Where the children stand when the next entry is the [i]-th. *)
Definition fwd_pos (l : list kv) (i : nat) : nat :=
  match kvs !! i with Some (k, _) => lower_bound cmp l k | None => length l end.

(** The child that holds the [i]-th entry. *)
Definition owns (j i : nat) (l : list kv) : Prop :=
  kvss !! j = Some l ∧ (i < length kvs)%nat ∧ l !! fwd_pos l i = kvs !! i.

Lemma key_index e e' g i : kvs !! g = Some e → kvs !! i = Some e' → Compare e.1 e'.1 < 0 ↔ (g < i)%nat.
Proof using All.
  intros Hg Hi. pose proof (mo_merged OK) as Hs. destruct (lt_eq_lt_dec g i) as [[Hlt| ->]|Hlt].
  - pose proof (sorted_lookup _ _ _ _ _ _ Hs Hlt Hg Hi) as H. cbn in H. lia.
  - simplify_eq. rewrite cmp_refl. lia.
  - pose proof (sorted_lookup _ _ _ _ _ _ Hs Hlt Hi Hg) as H. cbn in H. split; [|lia]. intros H'.
    pose proof (cmp_lt_trans _ _ _ H H') as Hc. rewrite cmp_refl in Hc. lia.
Qed.

Lemma child_entry j l q e : kvss !! j = Some l → l !! q = Some e → ∃ g, kvs !! g = Some e.
Proof using OK.
  intros Hj Hq. apply list_elem_of_lookup. rewrite (mo_same OK), elem_of_concat.
  exists l. split; eapply list_elem_of_lookup_2; eauto.
Qed.

Lemma fwd_pos_le l i : (fwd_pos l i <= length l)%nat.
Proof. unfold fwd_pos. destruct (kvs !! i) as [[k v]|]; [apply lower_bound_le|lia]. Qed.

Lemma fwd_pos_before j l i q e g :
  kvss !! j = Some l → (i <= length kvs)%nat → (q < fwd_pos l i)%nat → l !! q = Some e → kvs !! g = Some e → (g < i)%nat.
Proof using All.
  intros Hj Hi Hq He Hg. unfold fwd_pos in Hq. destruct (kvs !! i) as [[k v]|] eqn:Ei.
  - destruct e as [k' v']. apply (key_index _ _ _ _ Hg Ei). by eapply lower_bound_before.
  - apply lookup_ge_None in Ei. apply lookup_lt_Some in Hg. lia.
Qed.

Lemma fwd_pos_at j l i e g :
  kvss !! j = Some l → l !! fwd_pos l i = Some e → kvs !! g = Some e → (i <= g)%nat.
Proof using All.
  intros Hj He Hg. unfold fwd_pos in He. destruct (kvs !! i) as [[k v]|] eqn:Ei.
  - destruct e as [k' v']. pose proof (lower_bound_at _ _ _ _ _ He) as Hn.
    pose proof (key_index _ _ _ _ Hg Ei) as Hk. cbn in Hk. lia.
  - apply lookup_lt_Some in He. lia.
Qed.

Lemma fwd_pos_unique j l i p :
  kvss !! j = Some l → (i <= length kvs)%nat → (p <= length l)%nat →
  (∀ q e g, (q < p)%nat → l !! q = Some e → kvs !! g = Some e → (g < i)%nat) →
  (∀ e g, l !! p = Some e → kvs !! g = Some e → (i <= g)%nat) → p = fwd_pos l i.
Proof using All.
  intros Hj Hi Hp Hb Ha. pose proof (fwd_pos_le l i) as Hle.
  destruct (lt_eq_lt_dec p (fwd_pos l i)) as [[Hlt|?]|Hlt]; [|done|].
  - destruct (lookup_lt_is_Some_2 l p ltac:(lia)) as [e He].
    destruct (child_entry _ _ _ _ Hj He) as [g Hg].
    pose proof (fwd_pos_before _ _ _ _ _ _ Hj Hi Hlt He Hg). pose proof (Ha _ _ He Hg). lia.
  - destruct (lookup_lt_is_Some_2 l (fwd_pos l i) ltac:(lia)) as [e He].
    destruct (child_entry _ _ _ _ Hj He) as [g Hg].
    pose proof (fwd_pos_at _ _ _ _ _ Hj He Hg). pose proof (Hb _ _ _ Hlt He Hg). lia.
Qed.

Lemma index_unique e g i : kvs !! g = Some e → kvs !! i = Some e → g = i.
Proof using All.
  intros Hg Hi. pose proof (key_index _ _ _ _ Hg Hi). pose proof (key_index _ _ _ _ Hi Hg).
  rewrite cmp_refl in *. lia.
Qed.

Lemma child_index_unique j l q q' e : kvss !! j = Some l → l !! q = Some e → l !! q' = Some e → q = q'.
Proof using All.
  intros Hj Hq Hq'. pose proof (mo_sorted OK _ _ Hj) as Hs.
  destruct (lt_eq_lt_dec q q') as [[Hlt|?]|Hlt]; [|done|].
  - pose proof (sorted_lookup _ _ _ _ _ _ Hs Hlt Hq Hq') as H. cbn in H. rewrite cmp_refl in H. lia.
  - pose proof (sorted_lookup _ _ _ _ _ _ Hs Hlt Hq' Hq) as H. cbn in H. rewrite cmp_refl in H. lia.
Qed.

(** The entries of a child come in the order of the merge. *)
Lemma child_order j l q q' e e' g g' :
  kvss !! j = Some l → l !! q = Some e → l !! q' = Some e' → kvs !! g = Some e → kvs !! g' = Some e' →
  (q < q')%nat → (g < g')%nat.
Proof using All.
  intros Hj Hq Hq' Hg Hg' Hlt. apply (key_index _ _ _ _ Hg Hg').
  exact (sorted_lookup _ _ _ _ _ _ (mo_sorted OK _ _ Hj) Hlt Hq Hq').
Qed.

Lemma fwd_pos_entry j l q e i : kvss !! j = Some l → l !! q = Some e → kvs !! i = Some e → fwd_pos l i = q.
Proof using All.
  intros Hj Hq Hi. symmetry. pose proof (lookup_lt_Some _ _ _ Hi). pose proof (lookup_lt_Some _ _ _ Hq).
  apply (fwd_pos_unique j); [done|lia|lia| |].
  - intros q' e' g Hlt He Hg. by eapply (child_order j l q' q).
  - intros e' g He Hg. simplify_eq. by rewrite (index_unique _ _ _ Hg Hi).
Qed.

Lemma owner_exists i : (i < length kvs)%nat → ∃ j l, owns j i l.
Proof using All.
  intros Hi. destruct (lookup_lt_is_Some_2 kvs i Hi) as [e He].
  pose proof (list_elem_of_lookup_2 _ _ _ He) as Hin. rewrite (mo_same OK), elem_of_concat in Hin.
  destruct Hin as (l & [q Hq]%list_elem_of_lookup & [j Hj]%list_elem_of_lookup).
  exists j, l. split_and!; [done..|]. rewrite (fwd_pos_entry j l q e i) by done. congruence.
Qed.

Lemma fwd_pos_next j l i :
  kvss !! j = Some l → (i < length kvs)%nat → l !! fwd_pos l i = kvs !! i → fwd_pos l (Datatypes.S i) = Datatypes.S (fwd_pos l i).
Proof using All.
  intros Hj Hi Ho. destruct (lookup_lt_is_Some_2 kvs i Hi) as [e He]. rewrite He in Ho.
  pose proof (lookup_lt_Some _ _ _ Ho). symmetry. apply (fwd_pos_unique j); [done|lia|lia| |].
  - intros q e' g Hq He' Hg. destruct (decide (q = fwd_pos l i)) as [->|].
    + simplify_eq. rewrite (index_unique _ _ _ Hg He). lia.
    + eapply Nat.lt_lt_succ_r, (fwd_pos_before j l i q); eauto; lia.
  - intros e' g He' Hg. eapply (child_order j l (fwd_pos l i)); eauto; lia.
Qed.

Lemma fwd_pos_same j l i :
  kvss !! j = Some l → (i < length kvs)%nat → l !! fwd_pos l i ≠ kvs !! i → fwd_pos l (Datatypes.S i) = fwd_pos l i.
Proof using All.
  intros Hj Hi Ho. symmetry. apply (fwd_pos_unique j); [done|lia|apply fwd_pos_le| |].
  - intros q e g Hq He Hg. eapply Nat.lt_lt_succ_r, (fwd_pos_before j l i q); eauto. lia.
  - intros e g He Hg. pose proof (fwd_pos_at _ _ _ _ _ Hj He Hg).
    assert (i ≠ g) by (intros ->; congruence). lia.
Qed.

Lemma fwd_pos_0 j l : kvss !! j = Some l → fwd_pos l 0 = 0%nat.
Proof using All. intros Hj. symmetry. apply (fwd_pos_unique j); [done|lia..]. Qed.

Lemma fwd_pos_seek j l t : kvss !! j = Some l → fwd_pos l (lower_bound cmp kvs t) = lower_bound cmp l t.
Proof using All.
  intros Hj. symmetry. apply (fwd_pos_unique j); [done|apply lower_bound_le..| |].
  - intros q [k v] g Hq He Hg. pose proof (lower_bound_before _ _ _ _ _ _ Hq He) as Hk.
    destruct (decide (g < lower_bound cmp kvs t)%nat) as [|Hn]; [done|]. exfalso.
    destruct (lookup_lt_is_Some_2 kvs (lower_bound cmp kvs t)) as [[k' v'] He'];
      [apply lookup_lt_Some in Hg; lia|].
    pose proof (lower_bound_at _ _ _ _ _ He') as Hk'. apply Hk'.
    destruct (decide (g = lower_bound cmp kvs t)) as [->|]; [by simplify_eq|].
    eapply cmp_lt_trans; [|done]. apply (key_index _ _ _ _ He' Hg). lia.
  - intros [k v] g He Hg. pose proof (lower_bound_at _ _ _ _ _ He) as Hk.
    destruct (decide (g < lower_bound cmp kvs t)%nat) as [Hlt|]; [|lia]. destruct Hk.
    by eapply lower_bound_before.
Qed.

Lemma fwd_pos_end j l i : kvss !! j = Some l → (length kvs <= i)%nat → fwd_pos l i = length l.
Proof. intros Hj Hi. unfold fwd_pos. by rewrite lookup_ge_None_2. Qed.

(** *** The wrapped children *)

Definition wrap_at (j : nat) (l : list kv) (w : IteratorWrapper S) (p : nat) : Prop := wrapped (R j) l w p.

Lemma Update_at j l s p old :
  kvss !! j = Some l → R j s p → ∃ w, Wrapper_Update (child j) s old = Ret w ∧ wrap_at j l w p.
Proof using OK. intros Hj. pose proof (mo_cursor OK _ _ Hj). by apply (Update_wrapped cmp). Qed.

Lemma move_at j l w p m p' :
  kvss !! j = Some l → wrap_at j l w p → cursor_move cmp l p m = Some p' →
  ∃ w', Wrapper_move (child j) m w = Ret w' ∧ wrap_at j l w' p'.
Proof using OK. intros Hj. pose proof (mo_cursor OK _ _ Hj). by apply (move_wrapped cmp). Qed.

Lemma wrap_entry j l w p k v :
  kvss !! j = Some l → wrap_at j l w p → l !! p = Some (k, v) →
  Wrapper_key w = Ret k ∧ Wrapper_value (child j) w = Ret v.
Proof using OK. intros Hj. pose proof (mo_cursor OK _ _ Hj). by apply (entry_wrapped cmp). Qed.

(** All the children with their wrappers. *)
Definition children_sat (ws : list (IteratorWrapper S)) (P : nat → list kv → IteratorWrapper S → Prop) : Prop :=
  length ws = length kvss ∧ ∀ j l, kvss !! j = Some l → ∃ w, ws !! j = Some w ∧ P j l w.

Lemma children_each ws P : length ws = length kvss →
  children_sat ws P ↔ ∀ j w, ws !! j = Some w → ∃ l, kvss !! j = Some l ∧ P j l w.
Proof.
  intros Hl. split.
  - intros [_ H] j w Hj. destruct (lookup_lt_is_Some_2 kvss j) as [l Hjl]; [apply lookup_lt_Some in Hj; lia|].
    destruct (H j l Hjl) as (w' & Hj' & Ha). simplify_eq. eauto.
  - intros H. split; [done|]. intros j l Hj.
    destruct (lookup_lt_is_Some_2 ws j) as [w Hjw]; [apply lookup_lt_Some in Hj; lia|].
    destruct (H j w Hjw) as (l' & Hj' & Ha). simplify_eq. eauto.
Qed.

(** All the children, at the positions [ps]. *)
Definition children_at (ws : list (IteratorWrapper S)) (ps : nat → list kv → nat) : Prop :=
  children_sat ws (λ j l w, wrap_at j l w (ps j l)).

Definition children_some (ws : list (IteratorWrapper S)) : Prop :=
  children_sat ws (λ j l w, ∃ p, wrap_at j l w p).

Lemma children_ext ws ps ps' :
  children_at ws ps → (∀ j l, kvss !! j = Some l → ps j l = ps' j l) → children_at ws ps'.
Proof. intros [Hl Hw] He. split; [done|]. intros j l Hj. rewrite <- He by done. by apply Hw. Qed.

Lemma children_at_some ws ps : children_at ws ps → children_some ws.
Proof. intros [Hl Hw]. split; [done|]. intros j l Hj. destruct (Hw j l Hj) as (w & ? & ?). eauto. Qed.

Lemma each_child_spec (f : nat → IteratorWrapper S → res (IteratorWrapper S)) (Q : nat → IteratorWrapper S → Prop) ws i :
  (∀ j w, ws !! j = Some w → ∃ w', f (i + j)%nat w = Ret w' ∧ Q (i + j)%nat w') →
  ∃ ws', each_child f i ws = Ret ws' ∧ length ws' = length ws ∧ ∀ j w, ws' !! j = Some w → Q (i + j)%nat w.
Proof.
  revert i. induction ws as [|w ws IH]; intros i Hf; cbn [each_child].
  { eexists. split_and!; [done..|]. by intros j w Hj. }
  destruct (Hf 0%nat w eq_refl) as (w' & E & Ha'). rewrite Nat.add_0_r in E, Ha'. rewrite E. cbn [mbind res_bind].
  destruct (IH (Datatypes.S i)) as (ws' & -> & Hlen & Hws').
  - intros j w0 Hj0. rewrite Nat.add_succ_l, <- Nat.add_succ_r. by apply Hf.
  - cbn [mbind res_bind]. eexists. split_and!; [done|by cbn; rewrite Hlen|]. intros [|j] w0; cbn.
    + intros [= <-]. by rewrite Nat.add_0_r.
    + intros Hj0. rewrite Nat.add_succ_r, <- Nat.add_succ_l. by apply Hws'.
Qed.

Lemma each_child_sat f ws (P P' : nat → list kv → IteratorWrapper S → Prop) :
  children_sat ws P →
  (∀ j l w, kvss !! j = Some l → P j l w → ∃ w', f j w = Ret w' ∧ P' j l w') →
  ∃ ws', each_child f 0 ws = Ret ws' ∧ children_sat ws' P'.
Proof.
  intros Hc Hf. pose proof (proj1 Hc) as Hl. rewrite children_each in Hc by done.
  destruct (each_child_spec f (λ j w, ∃ l, kvss !! j = Some l ∧ P' j l w) ws 0) as (ws' & E & Hlen & Hws').
  - intros j w Hj. destruct (Hc j w Hj) as (l & Hjl & Hp). destruct (Hf j l w Hjl Hp) as (w' & ? & ?). eauto.
  - exists ws'. split; [done|]. apply children_each; [lia|done].
Qed.

(** *** The current child *)

Lemma FindSmallest_keeps (l : list (IteratorWrapper S)) i c k :
  (∀ j w, l !! j = Some w → w_valid w = true → Compare k (w_key w) < 0) →
  FindSmallest cmp l i (Some (c, k)) = Some c.
Proof using ComparatorOrder0.
  revert i. induction l as [|w l IH]; intros i H; cbn [FindSmallest]; [done|].
  destruct (w_valid w) eqn:Hv.
  - pose proof (H 0%nat w eq_refl Hv) as Hk. rewrite decide_False.
    + apply IH. intros j w' Hj. by apply (H (Datatypes.S j)).
    + apply cmp_not_lt. lia.
  - apply IH. intros j w' Hj. by apply (H (Datatypes.S j)).
Qed.

Lemma FindSmallest_at (l : list (IteratorWrapper S)) i acc c w :
  l !! c = Some w → w_valid w = true →
  (∀ j w', l !! j = Some w' → w_valid w' = true → j ≠ c → Compare (w_key w) (w_key w') < 0) →
  (∀ d k, acc = Some (d, k) → Compare (w_key w) k < 0) →
  FindSmallest cmp l i acc = Some (i + c)%nat.
Proof using ComparatorOrder0.
  revert i c acc. induction l as [|w0 l IH]; intros i c acc Hc Hv Hmin Hacc; [done|].
  cbn [FindSmallest]. destruct c as [|c]; cbn in Hc.
  - injection Hc as ->. rewrite Hv, Nat.add_0_r.
    assert (∀ j w', l !! j = Some w' → w_valid w' = true → Compare (w_key w) (w_key w') < 0) as Hl
      by (intros j w' Hj Hw'; by apply (Hmin (Datatypes.S j))).
    destruct acc as [[d k]|]; [rewrite decide_True by (by eapply Hacc)|]; by apply FindSmallest_keeps.
  - rewrite Nat.add_succ_r, <- Nat.add_succ_l. apply IH; [done|done| |].
    + intros j w' Hj Hw' Hn. apply (Hmin (Datatypes.S j)); [done|done|congruence].
    + intros d k Hd. destruct (w_valid w0) eqn:Hv0; [|by eapply Hacc].
      pose proof (Hmin 0%nat w0 eq_refl Hv0 ltac:(done)) as H0.
      destruct acc as [[d' k']|]; [|by simplify_eq]. case_decide; simplify_eq; [done|by eapply Hacc].
Qed.

Lemma FindSmallest_none (l : list (IteratorWrapper S)) i : (∀ j w, l !! j = Some w → w_valid w = false) → FindSmallest cmp l i None = None.
Proof.
  revert i. induction l as [|w l IH]; intros i H; cbn [FindSmallest]; [done|].
  rewrite (H 0%nat w eq_refl). apply IH. intros j w' Hj. by apply (H (Datatypes.S j)).
Qed.

Lemma FindLargest_bound (l : list (IteratorWrapper S)) i c k :
  FindLargest cmp l i = Some (c, k) → ∃ j w, l !! j = Some w ∧ w_valid w = true ∧ w_key w = k.
Proof.
  revert i. induction l as [|w l IH]; intros i; cbn [FindLargest]; [done|].
  destruct (w_valid w) eqn:Hv.
  - destruct (FindLargest cmp l (Datatypes.S i)) as [[d k']|] eqn:E.
    + case_decide; intros [= <- <-]; [by exists 0%nat, w|].
      destruct (IH _ E) as (j & w' & Hj & ? & ?). by exists (Datatypes.S j), w'.
    + intros [= <- <-]. by exists 0%nat, w.
  - intros E. destruct (IH _ E) as (j & w' & Hj & ? & ?). by exists (Datatypes.S j), w'.
Qed.

Lemma FindLargest_at (l : list (IteratorWrapper S)) i c w :
  l !! c = Some w → w_valid w = true →
  (∀ j w', l !! j = Some w' → w_valid w' = true → j ≠ c → Compare (w_key w') (w_key w) < 0) →
  FindLargest cmp l i = Some ((i + c)%nat, w_key w).
Proof using ComparatorOrder0.
  revert i c. induction l as [|w0 l IH]; intros i c Hc Hv Hmax; [done|].
  cbn [FindLargest]. destruct c as [|c]; cbn in Hc.
  - injection Hc as ->. rewrite Hv, Nat.add_0_r.
    destruct (FindLargest cmp l (Datatypes.S i)) as [[d k]|] eqn:E; [|done].
    destruct (FindLargest_bound _ _ _ _ E) as (j & w' & Hj & Hv' & <-).
    rewrite decide_True; [done|]. apply cmp_gt_lt. by apply (Hmax (Datatypes.S j)).
  - rewrite Nat.add_succ_r, <- Nat.add_succ_l. rewrite (IH _ c) by
      (done || (intros j w' Hj Hw' Hn; apply (Hmax (Datatypes.S j)); [done|done|congruence])).
    destruct (w_valid w0) eqn:Hv0; [|done]. rewrite decide_False; [done|].
    pose proof (Hmax 0%nat w0 eq_refl Hv0 ltac:(done)). lia.
Qed.

Lemma FindLargest_none (l : list (IteratorWrapper S)) i : (∀ j w, l !! j = Some w → w_valid w = false) → FindLargest cmp l i = None.
Proof.
  revert i. induction l as [|w l IH]; intros i H; cbn [FindLargest]; [done|].
  rewrite (H 0%nat w eq_refl). apply IH. intros j w' Hj. by apply (H (Datatypes.S j)).
Qed.

Lemma NoDup_concat_index {A} (ls : list (list A)) j c l l' x :
  NoDup (concat ls) → ls !! j = Some l → ls !! c = Some l' → x ∈ l → x ∈ l' → j = c.
Proof.
  revert j c. induction ls as [|l0 ls IH]; intros j c Hnd Hj Hc Hx Hx'; [done|].
  cbn in Hnd. apply NoDup_app in Hnd as (_ & Hdis & Hnd).
  assert (∀ i l1, ls !! i = Some l1 → x ∈ l1 → x ∈ concat ls) as Hin.
  { intros i l1 Hi H1. apply elem_of_concat. exists l1. split; [done|by eapply list_elem_of_lookup_2]. }
  destruct j as [|j], c as [|c]; cbn in Hj, Hc; simplify_eq; [done| | |f_equal; by apply IH].
  - by destruct (Hdis x Hx); eapply Hin.
  - by destruct (Hdis x Hx'); eapply Hin.
Qed.

Lemma owner_unique c j i l l' : owns c i l → owns j i l' → c = j.
Proof using All.
  intros (Hc & Hi & Ho) (Hj & _ & Ho'). destruct (lookup_lt_is_Some_2 kvs i Hi) as [e He]. rewrite He in Ho, Ho'.
  apply (NoDup_concat_index kvss c j l l' e); [|done|done|by eapply list_elem_of_lookup_2..].
  rewrite <- (mo_same OK). apply NoDup_alt. intros g g' x. apply index_unique.
Qed.

(** *** The position of the merge *)

Definition rev_pos (l : list kv) (i : nat) : nat := back_from (length l) (fwd_pos l (Datatypes.S i)).

Definition merge_at (m : MergingIterator S) (i : nat) : Prop :=
  if decide (i < length kvs)%nat then
    (∃ c l, owns c i l ∧ mi_current m = Some c)
    ∧ children_at (mi_children m)
        (λ _ l, if decide (mi_direction m = kForward) then fwd_pos l i else rev_pos l i)
  else i = length kvs ∧ mi_current m = None ∧ children_some (mi_children m).

Lemma forward_at ws i : (i <= length kvs)%nat → children_at ws (λ _ l, fwd_pos l i) → merge_at (forward cmp ws) i.
Proof using All.
  intros Hi Hws. unfold merge_at, forward. cbn [mi_current mi_children mi_direction].
  destruct (decide (i < length kvs)%nat) as [Hlt|Hge].
  - split; [|eapply children_ext; [done|]; intros; by rewrite decide_True]. destruct (owner_exists i Hlt) as (c & l & Ho). exists c, l. split; [done|].
    pose proof Ho as (Hc & _ & He). destruct (proj2 Hws c l Hc) as (w & Hw & _ & Hv & Hk).
    destruct (lookup_lt_is_Some_2 kvs i Hlt) as [[k v] Hkv]. rewrite Hkv in He. specialize (Hk _ _ He).
    rewrite <- (Nat.add_0_l c). apply (FindSmallest_at ws 0 None c w); [done| | |done].
    { rewrite Hv. apply bool_decide_eq_true_2. by eapply lookup_lt_Some. }
    intros j w' Hj Hv' Hn. destruct (lookup_lt_is_Some_2 kvss j) as [l' Hjl].
    { rewrite <- (proj1 Hws). by eapply lookup_lt_Some. }
    destruct (proj2 Hws j l' Hjl) as (w0 & Hw0 & _ & Hv0 & Hk0). simplify_eq.
    rewrite Hv0 in Hv'. apply bool_decide_eq_true_1 in Hv'.
    destruct (lookup_lt_is_Some_2 l' _ Hv') as [[k' v'] He']. rewrite (Hk0 _ _ He').
    destruct (child_entry _ _ _ _ Hjl He') as [g Hg]. apply (key_index _ _ _ _ Hkv Hg).
    pose proof (fwd_pos_at _ _ _ _ _ Hjl He' Hg). assert (i ≠ g); [|lia]. intros ->.
    apply Hn. apply (owner_unique j c g l' l); [|done]. split_and!; [done|done|congruence].
  - assert (i = length kvs) as -> by lia. split_and!; [done| |by eapply children_at_some]. apply FindSmallest_none. intros j w Hj.
    destruct (lookup_lt_is_Some_2 kvss j) as [l Hjl]; [rewrite <- (proj1 Hws); by eapply lookup_lt_Some|].
    destruct (proj2 Hws j l Hjl) as (w0 & Hw0 & _ & Hv0 & _). simplify_eq. rewrite Hv0.
    apply bool_decide_eq_false_2. rewrite (fwd_pos_end j) by done. lia.
Qed.

(** [i] entries are left in front of the position. *)
Lemma backward_at ws i :
  (i <= length kvs)%nat → children_at ws (λ _ l, back_from (length l) (fwd_pos l i)) →
  merge_at (backward cmp ws) (back_from (length kvs) i).
Proof using All.
  intros Hi Hws. unfold merge_at, backward. cbn [mi_current mi_children mi_direction]. destruct i as [|i]; cbn [back_from].
  - rewrite decide_False by lia. split_and!; [done| |by eapply children_at_some]. rewrite FindLargest_none; [done|]. intros j w Hj.
    destruct (lookup_lt_is_Some_2 kvss j) as [l Hjl]; [rewrite <- (proj1 Hws); by eapply lookup_lt_Some|].
    destruct (proj2 Hws j l Hjl) as (w0 & Hw0 & _ & Hv0 & _). simplify_eq. rewrite Hv0.
    apply bool_decide_eq_false_2. rewrite (fwd_pos_0 j) by done. cbn. lia.
  - rewrite decide_True by lia. split; [|eapply children_ext; [done|]; intros; by rewrite decide_False].
    destruct (owner_exists i ltac:(lia)) as (c & l & Ho). exists c, l. split; [done|].
    pose proof Ho as (Hc & Hlt & He). destruct (proj2 Hws c l Hc) as (w & Hw & _ & Hv & Hk).
    destruct (lookup_lt_is_Some_2 kvs i Hlt) as [[k v] Hkv]. pose proof (fwd_pos_next c l i Hc Hlt He) as Hnx.
    rewrite Hnx in Hv, Hk. cbn [back_from] in Hv, Hk. rewrite Hkv in He. specialize (Hk _ _ He).
    rewrite (FindLargest_at ws 0 c w); [done|done| |].
    { rewrite Hv. apply bool_decide_eq_true_2. by eapply lookup_lt_Some. }
    intros j w' Hj Hv' Hn. destruct (lookup_lt_is_Some_2 kvss j) as [l' Hjl].
    { rewrite <- (proj1 Hws). by eapply lookup_lt_Some. }
    destruct (proj2 Hws j l' Hjl) as (w0 & Hw0 & _ & Hv0 & Hk0). simplify_eq.
    rewrite Hv0 in Hv'. apply bool_decide_eq_true_1 in Hv'.
    destruct (lookup_lt_is_Some_2 l' _ Hv') as [[k' v'] He']. rewrite (Hk0 _ _ He').
    destruct (child_entry _ _ _ _ Hjl He') as [g Hg]. apply (key_index _ _ _ _ Hg Hkv).
    destruct (fwd_pos l' (Datatypes.S i)) as [|q] eqn:Eq; cbn [back_from] in He'.
    { apply lookup_lt_Some in He'. lia. }
    assert (g < Datatypes.S i)%nat as Hgi by (eapply (fwd_pos_before j l' _ q); eauto; lia).
    assert (g ≠ i); [|lia]. intros ->. apply Hn. apply (owner_unique j c i l' l); [|done].
    split_and!; [done|done|]. rewrite (fwd_pos_entry j l' q (k', v') i) by done. congruence.
Qed.

Lemma merge_children m i : merge_at m i → children_some (mi_children m).
Proof. unfold merge_at. case_decide; [intros [_ ?]; by eapply children_at_some|by intros (_ & _ & ?)]. Qed.

Lemma merge_valid m i : merge_at m i → Merging_Valid m = bool_decide (i < length kvs)%nat.
Proof.
  unfold merge_at, Merging_Valid. case_decide.
  - intros [(c & l & _ & ->) _]. by rewrite !bool_decide_eq_true_2 by eauto.
  - intros (_ & -> & _). rewrite !bool_decide_eq_false_2; [done|done|by intros []].
Qed.

(** The current child of a valid merge shows its entry. *)
Lemma merge_current m i k v :
  merge_at m i → kvs !! i = Some (k, v) →
  ∃ c l w, owns c i l ∧ mi_current m = Some c ∧ current m = Ret (c, w) ∧ mi_children m !! c = Some w
    ∧ wrap_at c l w (fwd_pos l i) ∧ Wrapper_key w = Ret k ∧ Wrapper_value (child c) w = Ret v
    ∧ children_at (mi_children m) (λ _ l, if decide (mi_direction m = kForward) then fwd_pos l i else rev_pos l i).
Proof using All.
  unfold merge_at. intros Hm Hkv. rewrite decide_True in Hm by (by eapply lookup_lt_Some).
  destruct Hm as [(c & l & Ho & Hc) Hws]. pose proof Ho as (Hcl & Hlt & He).
  destruct (proj2 Hws c l Hcl) as (w & Hw & Ha).
  assert (wrap_at c l w (fwd_pos l i)) as Ha'.
  { case_decide; [done|]. unfold rev_pos in Ha. by rewrite (fwd_pos_next c) in Ha. }
  rewrite Hkv in He. destruct (wrap_entry _ _ _ _ _ _ Hcl Ha' He) as [Hk Hv].
  exists c, l, w. split_and!; try done. unfold current. by rewrite Hc, Hw.
Qed.

Lemma move_current_at mv c l ws i ps :
  owns c i l → children_at ws ps → (∃ w, ws !! c = Some w ∧ wrap_at c l w (fwd_pos l i)) →
  (∀ p', cursor_move cmp l (fwd_pos l i) mv = Some p' →
    ∃ ws', move_current child mv c ws = Ret ws'
      ∧ children_at ws' (λ j l, if decide (j = c) then p' else ps j l)).
Proof using OK.
  intros (Hc & _ & _) [Hlen Hws] (w & Hw & Ha) p' Hp. unfold move_current. rewrite Hw.
  destruct (move_at c l w _ mv p' Hc Ha Hp) as (w' & -> & Ha'). cbn [mbind res_bind].
  eexists. split; [done|]. split; [by rewrite length_insert|]. intros j l' Hj. destruct (decide (j = c)) as [->|Hn].
  - simplify_eq. exists w'. split; [|done]. apply list_lookup_insert_eq. by eapply lookup_lt_Some.
  - rewrite list_lookup_insert_ne by done. by apply Hws.
Qed.

Lemma not_owner j c i l l' : owns c i l → kvss !! j = Some l' → j ≠ c → l' !! fwd_pos l' i ≠ kvs !! i.
Proof using All.
  intros Ho Hj Hn He. apply Hn, (owner_unique j c i l' l); [|done]. destruct Ho as (? & ? & ?). by split_and!.
Qed.

Lemma Next_at m i k v :
  merge_at m i → kvs !! i = Some (k, v) →
  ∃ m', Merging_Next cmp child m = Ret m' ∧ merge_at m' (Datatypes.S i).
Proof using All.
  intros Hm Hkv. destruct (merge_current _ _ _ _ Hm Hkv) as (c & l & w & Ho & Hc & Hcur & Hw & Ha & Hk & _ & Hws).
  pose proof (lookup_lt_Some _ _ _ Hkv) as Hlt. unfold Merging_Next. rewrite Hcur. cbn [mbind res_bind]. rewrite Hk.
  assert (∃ ws, (if decide (mi_direction m = kForward) then Ret (mi_children m)
     else k0 ← Ret k; each_child (λ j w0, if decide (j = c) then Ret w0 else child_after cmp child k0 j w0) 0 (mi_children m))
     = Ret ws ∧ children_at ws (λ _ l, fwd_pos l i)) as (ws & -> & Hws').
  { case_decide as Hd; [eauto|]. cbn [mbind res_bind]. eapply each_child_sat; [exact Hws|]. cbn beta.
    intros j l' w' Hj Hw'. destruct (decide (j = c)) as [->|Hn].
    - exists w'. split; [done|]. pose proof Ho as (Hcl & _ & He). simplify_eq.
      unfold rev_pos in Hw'. by rewrite (fwd_pos_next c) in Hw'.
    - destruct (move_at _ _ _ _ (Seek k) _ Hj Hw' eq_refl) as (w1 & E1 & Ha1).
      assert (fwd_pos l' i = lower_bound cmp l' k) as Hp by (unfold fwd_pos; by rewrite Hkv).
      rewrite Hp. exists w1. split; [|done]. unfold child_after. rewrite E1. cbn [mbind res_bind].
      destruct (w_valid w1) eqn:Hv1; [|done]. rewrite bool_decide_eq_false_2; [done|].
      pose proof Ha1 as (_ & Hv & Hk1). rewrite Hv1 in Hv. symmetry in Hv. apply bool_decide_eq_true_1 in Hv.
      destruct (lookup_lt_is_Some_2 l' _ Hv) as [[k' v'] He']. rewrite (Hk1 _ _ He').
      destruct (child_entry _ _ _ _ Hj He') as [g Hg].
      pose proof (key_index _ _ _ _ Hkv Hg) as Hkg. cbn in Hkg. rewrite <- Hp in He'.
      pose proof (fwd_pos_at _ _ _ _ _ Hj He' Hg). assert (i ≠ g); [|lia]. intros ->.
      eapply not_owner; eauto. congruence. }
  cbn [mbind res_bind]. pose proof Ho as (Hcl & _ & He).
  destruct (move_current_at Next c l ws i _ Ho Hws' (proj2 Hws' c l Hcl) (Datatypes.S (fwd_pos l i)))
    as (ws2 & -> & Hws2).
  { cbn. rewrite decide_True; [done|]. rewrite Hkv in He. by eapply lookup_lt_Some. }
  cbn [mbind res_bind]. eexists. split; [done|]. apply forward_at; [lia|]. eapply children_ext; [exact Hws2|].
  intros j l' Hj. cbn beta. destruct (decide (j = c)) as [->|Hn].
  - simplify_eq. symmetry. by eapply fwd_pos_next.
  - symmetry. apply (fwd_pos_same j); [done|done|]. by eapply not_owner.
Qed.

Lemma Prev_at m i k v :
  merge_at m i → kvs !! i = Some (k, v) →
  ∃ m', Merging_Prev cmp child m = Ret m' ∧ merge_at m' (back_from (length kvs) i).
Proof using All.
  intros Hm Hkv. destruct (merge_current _ _ _ _ Hm Hkv) as (c & l & w & Ho & Hc & Hcur & Hw & Ha & Hk & _ & Hws).
  pose proof (lookup_lt_Some _ _ _ Hkv) as Hlt. pose proof Ho as (Hcl & _ & He).
  unfold Merging_Prev. rewrite Hcur. cbn [mbind res_bind]. rewrite Hk.
  set (ps := λ (j : nat) (l' : list kv), if decide (j = c) then fwd_pos l' i else back_from (length l') (fwd_pos l' i)).
  assert (∃ ws, (if decide (mi_direction m = kReverse) then Ret (mi_children m)
     else k0 ← Ret k; each_child (λ j w0, if decide (j = c) then Ret w0 else child_before child k0 j w0) 0 (mi_children m))
     = Ret ws ∧ children_at ws ps) as (ws & -> & Hws').
  { destruct (mi_direction m) eqn:Hd.
    - rewrite decide_False by done. cbn [mbind res_bind]. eapply each_child_sat; [exact Hws|]. cbn beta.
      intros j l' w' Hj Hw'. rewrite decide_True in Hw' by done. unfold ps. destruct (decide (j = c)) as [->|Hn]; [eauto|].
      destruct (move_at _ _ _ _ (Seek k) _ Hj Hw' eq_refl) as (w1 & E1 & Ha1).
      assert (fwd_pos l' i = lower_bound cmp l' k) as Hp by (unfold fwd_pos; by rewrite Hkv).
      unfold child_before. rewrite E1. cbn [mbind res_bind]. rewrite (proj1 (proj2 Ha1)), <- Hp in *.
      pose proof (fwd_pos_le l' i). case_bool_decide.
      + apply (move_at j l' w1 _ Prev _ Hj Ha1). cbn. by rewrite decide_True.
      + apply (move_at j l' w1 _ SeekToLast _ Hj Ha1). cbn. do 2 f_equal. lia.
    - rewrite decide_True by done. eexists. split; [done|]. eapply children_ext; [done|]. cbn beta.
      intros j l' Hj. rewrite decide_False by done. unfold ps, rev_pos. destruct (decide (j = c)) as [->|Hn].
      + simplify_eq. by rewrite (fwd_pos_next c) by done.
      + rewrite (fwd_pos_same j); [done|done|done|]. by eapply not_owner. }
  cbn [mbind res_bind]. destruct (proj2 Hws' c l Hcl) as (w1 & Hw1 & Ha1). unfold ps in Ha1. rewrite decide_True in Ha1 by done.
  destruct (move_current_at Prev c l ws i _ Ho Hws' ltac:(eauto) (back_from (length l) (fwd_pos l i)))
    as (ws2 & -> & Hws2).
  { cbn. rewrite decide_True; [done|]. rewrite Hkv in He. by eapply lookup_lt_Some. }
  cbn [mbind res_bind]. eexists. split; [done|]. apply backward_at; [lia|]. eapply children_ext; [exact Hws2|].
  intros j l' Hj. unfold ps. cbn beta. destruct (decide (j = c)) as [->|Hn]; [by simplify_eq|done].
Qed.

(** Every child makes the same move. *)
Lemma move_all mv (p' : list kv → nat) m i :
  merge_at m i → (∀ l p, cursor_move cmp l p mv = Some (p' l)) →
  ∃ ws, each_child (λ j, Wrapper_move (child j) mv) 0 (mi_children m) = Ret ws ∧ children_at ws (λ _ l, p' l).
Proof using OK.
  intros Hm Hmv. eapply each_child_sat; [exact (merge_children _ _ Hm)|].
  intros j l w Hj [p Hw]. by eapply move_at.
Qed.

Lemma merge_Cursor : Cursor cmp kvs (iter_ops (Merging_ops cmp child)) merge_at.
Proof using All.
  split.
  - intros m i. unfold merge_at. case_decide; [lia|]. intros (-> & _). lia.
  - apply merge_valid.
  - intros m i k v Hm Hkv. destruct (merge_current _ _ _ _ Hm Hkv) as (c & l & w & _ & _ & Hcur & _ & _ & Hk & Hv & _).
    cbn. unfold Merging_key, Merging_value. rewrite Hcur. by cbn [mbind res_bind].
  - intros m i mv j Hm Hj. cbn. destruct mv as [| |t| |]; cbn in Hj; simplify_eq.
    + unfold Merging_SeekToFirst. destruct (move_all SeekToFirst (λ _, O) m i Hm ltac:(done)) as (ws & -> & Hws).
      cbn [mbind res_bind]. eexists. split; [done|]. apply forward_at; [lia|]. eapply children_ext; [done|].
      intros j l Hj. symmetry. by eapply fwd_pos_0.
    + unfold Merging_SeekToLast.
      destruct (move_all SeekToLast (λ l, back_from (length l) (length l)) m i Hm ltac:(done)) as (ws & -> & Hws).
      cbn [mbind res_bind]. eexists. split; [done|]. apply backward_at; [lia|]. eapply children_ext; [done|].
      intros j l Hj. cbn beta. by rewrite (fwd_pos_end j).
    + unfold Merging_Seek. destruct (move_all (Seek t) (λ l, lower_bound cmp l t) m i Hm ltac:(done)) as (ws & -> & Hws).
      cbn [mbind res_bind]. eexists. split; [done|]. apply forward_at; [apply lower_bound_le|].
      eapply children_ext; [done|]. intros j l Hj. cbn beta. by rewrite (fwd_pos_seek j).
    + case_decide as Hlt; simplify_eq. destruct (lookup_lt_is_Some_2 kvs i Hlt) as [[k v] Hkv]. by eapply Next_at.
    + case_decide as Hlt; simplify_eq. destruct (lookup_lt_is_Some_2 kvs i Hlt) as [[k v] Hkv]. by eapply Prev_at.
Qed.

Lemma set_children_at i ss :
  length ss = (length kvss - i)%nat →
  (∀ j s, ss !! j = Some s → ∃ p, R (i + j) s p) →
  ∃ ws, set_children child i ss = Ret ws ∧ length ws = length ss
    ∧ ∀ j w, ws !! j = Some w → ∃ l, kvss !! (i + j)%nat = Some l ∧ ∃ p, wrap_at (i + j) l w p.
Proof using OK.
  revert i. induction ss as [|s ss IH]; intros i Hl Hs; cbn [set_children].
  { eexists. split_and!; [done..|]. by intros j w Hj. }
  destruct (Hs 0%nat s eq_refl) as [p Hp]. rewrite Nat.add_0_r in Hp.
  destruct (lookup_lt_is_Some_2 kvss i) as [l Hj]; [cbn in Hl; lia|].
  unfold Wrapper_Set. destruct (Update_at i l s p (w_key (@Wrapper_init S)) Hj Hp) as (w & -> & Ha).
  cbn [mbind res_bind]. destruct (IH (Datatypes.S i)) as (ws & -> & Hlen & Hws).
  - cbn in Hl. lia.
  - intros j s' Hj'. rewrite Nat.add_succ_l, <- Nat.add_succ_r. by apply Hs.
  - cbn [mbind res_bind]. eexists. split_and!; [done|by cbn; rewrite Hlen|]. intros [|j] w'; cbn.
    + intros [= <-]. rewrite Nat.add_0_r. eauto.
    + intros Hj'. rewrite Nat.add_succ_r, <- Nat.add_succ_l. by apply Hws.
Qed.

Lemma Merging_init_at ss :
  length ss = length kvss → (∀ j s, ss !! j = Some s → ∃ p, R j s p) →
  ∃ m, Merging_init child ss = Ret m ∧ merge_at m (length kvs).
Proof using OK.
  intros Hl Hs. destruct (set_children_at 0 ss) as (ws & E & Hlen & Hws); [lia|done|].
  unfold Merging_init. rewrite E. cbn [mbind res_bind]. eexists. split; [done|].
  unfold merge_at. rewrite decide_False by lia. split_and!; [done..|]. cbn [mi_children].
  apply children_each; [lia|done].
Qed.

(** *** Skipping a user key *)

Context `{!NumericKeys cmp}.
Context (SK : ∀ j l, kvss !! j = Some l → SkipLaw (child j) (R j) l).

Lemma merged_user_sorted : user_sorted kvs.
Proof using OK NumericKeys0. apply (sorted_user_sorted cmp), (mo_merged OK). Qed.

Lemma child_user_sorted j l : kvss !! j = Some l → user_sorted l.
Proof using OK NumericKeys0. intros Hj. apply (sorted_user_sorted cmp), (mo_sorted OK _ _ Hj). Qed.

Lemma fwd_pos_upto j l x : kvss !! j = Some l → fwd_pos l (upto kvs x) = upto l x.
Proof using All.
  intros Hj. symmetry. apply (fwd_pos_unique j); [done|apply upto_le..| |].
  - intros q e g Hq He Hg. apply (upto_spec kvs merged_user_sorted x g e Hg). by eapply upto_before.
  - intros e g He Hg. pose proof (upto_at _ _ _ He) as H. pose proof (upto_spec kvs merged_user_sorted x g e Hg). lia.
Qed.

Lemma fwd_pos_below j l x : kvss !! j = Some l → fwd_pos l (below kvs x) = below l x.
Proof using All.
  intros Hj. symmetry. apply (fwd_pos_unique j); [done|apply below_le..| |].
  - intros q e g Hq He Hg. apply (below_spec kvs merged_user_sorted x g e Hg). by eapply below_before.
  - intros e g He Hg. pose proof (below_at _ _ _ He) as H. pose proof (below_spec kvs merged_user_sorted x g e Hg). lia.
Qed.

Lemma fwd_pos_mono j l i i' :
  kvss !! j = Some l → (i <= i')%nat → (i' <= length kvs)%nat → (fwd_pos l i <= fwd_pos l i')%nat.
Proof using All.
  intros Hj Hi Hi'. destruct (decide (fwd_pos l i' < fwd_pos l i)%nat) as [Hlt|]; [|lia].
  pose proof (fwd_pos_le l i). destruct (lookup_lt_is_Some_2 l (fwd_pos l i') ltac:(lia)) as [e He].
  destruct (child_entry _ _ _ _ Hj He) as [g Hg]. pose proof (fwd_pos_at _ _ _ _ _ Hj He Hg).
  pose proof (fwd_pos_before j l i _ e g Hj ltac:(lia) Hlt He Hg). lia.
Qed.

Lemma Merging_skip_at m i t :
  merge_at m i → mi_direction m = kForward → (i < length kvs)%nat →
  (below kvs (user_int t) <= i <= upto kvs (user_int t))%nat →
  ∃ m', Merging_SkipToNextUserKey cmp child m t = Ret m' ∧ merge_at m' (upto kvs (user_int t))
    ∧ mi_direction m' = kForward.
Proof using All.
  intros Hm Hd Hlt Hi. unfold merge_at in Hm. rewrite decide_True in Hm by done. destruct Hm as [_ Hws].
  unfold Merging_SkipToNextUserKey. set (x := user_int t) in *. pose proof (upto_le kvs x).
  destruct (each_child_sat (λ j, Wrapper_SkipToNextUserKey (child j) t) (mi_children m) _
              (λ j l w, wrap_at j l w (upto l x)) Hws) as (ws & -> & Hws').
  - intros j l w Hj Ha. rewrite decide_True in Ha by done. pose proof (SK j l Hj) as Hsk.
    pose proof Ha as ((s & Es & HR) & _). unfold Wrapper_SkipToNextUserKey. rewrite Es.
    destruct (skip_law s _ t HR) as (s' & -> & HR').
    + pose proof (fwd_pos_mono j l _ _ Hj (proj1 Hi) ltac:(lia)) as H1. pose proof (fwd_pos_mono j l _ _ Hj (proj2 Hi) ltac:(lia)) as H2.
      rewrite (fwd_pos_below j l) in H1 by done. rewrite (fwd_pos_upto j l) in H2 by done. done.
    + cbn [mbind res_bind]. by apply Update_at.
  - cbn [mbind res_bind]. eexists. split_and!; [done| |done]. apply forward_at; [done|].
    eapply (children_ext _ (λ _ l, upto l x)); [exact Hws'|]. intros j l Hj. symmetry. by eapply fwd_pos_upto.
Qed.
End merge_proofs.
