(* ===== verification/MergeIter.v ===== *)
(** * MergeIter: the iterator over a set of sources

    [NewMergingIterator] of [table/merger.cc] with the empty iterator of
    [table/iterator.cc].  It answers every sequence of moves as an iterator over
    the sorted union of its sources does. *)

From S2P Require Import Prelude Coding Comparator Cursor NovaCommon DbFormat UserScan Merger.

(** ** [EmptyIterator]: its state is whether the status is OK *)

Definition Empty_iter : Iter bool :=
  mkIter
    (mkIterOps (λ _, false) (λ _, Abort) (λ _, Abort)
       (λ s m, match m with Next | Prev => Abort | _ => Ret s end))
    (λ s _, Ret s)
    (λ s, s).

(** ** [NewMergingIterator] *)

Inductive AnyMerge (S : Type) :=
  | NoChild (s : bool)
  | OneChild (s : S)
  | Children (m : MergingIterator S).
Arguments NoChild {S} _.
Arguments OneChild {S} _.
Arguments Children {S} _.

Section any_merge.
Context (cmp : Comparator) {S : Type} (child : nat → Iter S).

Definition NewMergingIterator (children : list S) : res (AnyMerge S) :=
  match children with
  | [] => Ret (NoChild true)
  | [s] => Ret (OneChild s)
  | _ => m ← Merging_init child children; Ret (Children m)
  end.

(** The virtual calls of the iterator it returns. *)
Definition dispatch {A} (a : AnyMerge S) (f0 : bool → A) (f1 : S → A) (f2 : MergingIterator S → A) : A :=
  match a with NoChild s => f0 s | OneChild s => f1 s | Children m => f2 m end.

Definition AnyMerge_ops : Iter (AnyMerge S) :=
  let e := Empty_iter in let c := child 0%nat in let m := Merging_ops cmp child in
  mkIter
    (mkIterOps
       (λ a, dispatch a (op_Valid (iter_ops e)) (op_Valid (iter_ops c)) (op_Valid (iter_ops m)))
       (λ a, dispatch a (op_key (iter_ops e)) (op_key (iter_ops c)) (op_key (iter_ops m)))
       (λ a, dispatch a (op_value (iter_ops e)) (op_value (iter_ops c)) (op_value (iter_ops m)))
       (λ a mv, dispatch a
          (λ s, s' ← op_move (iter_ops e) s mv; Ret (NoChild s'))
          (λ s, s' ← op_move (iter_ops c) s mv; Ret (OneChild s'))
          (λ s, s' ← op_move (iter_ops m) s mv; Ret (Children s'))))
    (λ a t, dispatch a
       (λ s, s' ← op_SkipToNextUserKey e s t; Ret (NoChild s'))
       (λ s, s' ← op_SkipToNextUserKey c s t; Ret (OneChild s'))
       (λ s, s' ← op_SkipToNextUserKey m s t; Ret (Children s')))
    (λ a, dispatch a (op_status_ok e) (op_status_ok c) (op_status_ok m)).
End any_merge.

(** ** Forward scans *)

(** What a forward scan needs of the internal iterator. *)
Class ForwardCursor (cmp : Comparator) {S} (it : Iter S) (kvs : list kv) (F : S → nat → Prop) : Prop := {
  fw_valid s i : F s i → op_Valid (iter_ops it) s = bool_decide (i < length kvs)%nat;
  fw_entry s i k v : F s i → kvs !! i = Some (k, v) → op_key (iter_ops it) s = Ret k ∧ op_value (iter_ops it) s = Ret v;
  fw_next s i : F s i → (i < length kvs)%nat → ∃ s', op_move (iter_ops it) s Next = Ret s' ∧ F s' (Datatypes.S i);
  fw_seek s i t : F s i → ∃ s', op_move (iter_ops it) s (Seek t) = Ret s' ∧ F s' (lower_bound cmp kvs t);
  fw_skip s i t : F s i → (i < length kvs)%nat → (below kvs (user_int t) <= i <= upto kvs (user_int t))%nat →
    ∃ s', op_SkipToNextUserKey it s t = Ret s' ∧ F s' (upto kvs (user_int t))
}.

Lemma Cursor_Forward cmp {S} (it : Iter S) kvs R :
  Cursor cmp kvs (iter_ops it) R → SkipLaw it R kvs → ForwardCursor cmp it kvs R.
Proof.
  intros HC HS. split.
  - intros s i HR. by apply (cur_valid _ _ _ _ HR).
  - intros s i k v HR. by apply (cur_entry _ _ _ _ _ _ HR).
  - intros s i HR Hi. apply (cur_move _ _ s i Next); [done|]. cbn. by rewrite decide_True.
  - intros s i t HR. by apply (cur_move _ _ s i (Seek t)).
  - intros s i t HR _ Hi. by apply (skip_law s i t).
Qed.

Lemma Merging_Forward cmp {OC : ComparatorOrder cmp} {NK : NumericKeys cmp} {S} (child : nat → Iter S) R kvss kvs :
  merge_ok cmp child R kvss kvs → (∀ j l, kvss !! j = Some l → SkipLaw (child j) (R j) l) →
  ForwardCursor cmp (Merging_ops cmp child) kvs
    (λ m i, merge_at cmp R kvss kvs m i ∧ ((i < length kvs)%nat → mi_direction m = kForward)).
Proof.
  intros OK SK. pose proof (merge_Cursor cmp child R kvss kvs OK) as HC. split.
  - intros m i [HR _]. by apply (cur_valid _ _ _ _ HR).
  - intros m i k v [HR _]. by apply (cur_entry _ _ _ _ _ _ HR).
  - intros m i [HR Hd] Hi. destruct (cur_move _ _ m i Next (Datatypes.S i) HR) as (m' & E & HR'); [cbn; by rewrite decide_True|].
    exists m'. split_and!; [done..|]. intros _. cbn in E. unfold Merging_Next in E.
    destruct (current m) as [[c w]| |]; cbn [mbind res_bind] in E; [|done..].
    rewrite (Hd Hi) in E. rewrite decide_True in E by done. cbn [mbind res_bind] in E.
    destruct (move_current child Next c (mi_children m)) as [l| |]; cbn [mbind res_bind] in E; by simplify_eq.
  - intros m i t [HR _]. destruct (cur_move _ _ m i (Seek t) _ HR eq_refl) as (m' & E & HR').
    exists m'. split_and!; [done..|]. intros _. cbn in E. unfold Merging_Seek in E.
    destruct (each_child _ 0 (mi_children m)) as [l| |]; cbn [mbind res_bind] in E; by simplify_eq.
  - intros m i t [HR Hd] Hi Hr.
    destruct (Merging_skip_at cmp child R kvss kvs OK SK m i t HR (Hd Hi) Hi Hr) as (m' & E & HR' & Hd').
    exists m'. by split_and!.
Qed.

#[export] Instance YCSB_NumericKeys : NumericKeys (InternalKeyComparator YCSBKeyComparator).
Proof.
  intros a b. cbn. unfold InternalKey_Compare, user_int, key_int. cbn. unfold YCSB_Compare.
  repeat case_decide; lia.
Qed.


(** ** The sorted union *)

(** A strictly sorted sequence is determined by its entries. *)
Lemma sorted_unique cmp `{!ComparatorOrder cmp} (l l' : list kv) :
  StronglySorted (λ a b, Compare a.1 b.1 < 0) l → StronglySorted (λ a b, Compare a.1 b.1 < 0) l' → l ≡ₚ l' → l = l'.
Proof.
  intros Hl. revert l'. induction Hl as [|e l Hl IH Hall]; intros l' Hl' Hp.
  { by apply Permutation_nil_l in Hp. }
  destruct Hl' as [|e' l' Hl' Hall']; [by apply Permutation_nil_r in Hp|].
  assert (e = e') as <-.
  { rewrite Forall_forall in Hall, Hall'.
    assert (e ∈ e' :: l') as [?|He]%elem_of_cons by (rewrite <- Hp; set_solver); [done|].
    assert (e' ∈ e :: l) as [?|He']%elem_of_cons by (rewrite Hp; set_solver); [done|].
    pose proof (cmp_lt_trans _ _ _ (Hall _ He') (Hall' _ He)) as Hc. rewrite cmp_refl in Hc. lia. }
  f_equal. apply IH; [done|]. by apply Permutation_cons_inv in Hp.
Qed.

Section any_proofs.
Context (cmp : Comparator) {OC : ComparatorOrder cmp} {S : Type}.
Context (child : nat → Iter S) (R : nat → S → nat → Prop) (kvss : list (list kv)) (kvs : list kv).
Context (OK : merge_ok cmp child R kvss kvs).

Definition any_at (a : AnyMerge S) (i : nat) : Prop :=
  match a with
  | NoChild s => s = true ∧ kvs = [] ∧ i = 0%nat
  | OneChild s => kvss = [kvs] ∧ R 0 s i
  | Children m => merge_at cmp R kvss kvs m i
  end.

Lemma any_Cursor : Cursor cmp kvs (iter_ops (AnyMerge_ops cmp child)) any_at.
Proof using OK OC.
  pose proof (merge_Cursor cmp child R kvss kvs OK) as HC.
  assert (kvss = [kvs] → Cursor cmp kvs (iter_ops (child 0%nat)) (R 0%nat)) as H1.
  { intros E. apply (mo_cursor _ _ _ _ _ OK). by rewrite E. }
  split.
  - intros [s|s|m] i; cbn.
    + intros (-> & -> & ->). done.
    + intros [E HR]. specialize (H1 E). by eapply cur_le.
    + intros HR. by eapply cur_le.
  - intros [s|s|m] i; cbn.
    + intros (-> & -> & ->). done.
    + intros [E HR]. specialize (H1 E). by eapply cur_valid.
    + intros HR. exact (cur_valid _ _ _ _ HR).
  - intros [s|s|m] i k v; cbn.
    + intros (-> & -> & ->). done.
    + intros [E HR]. specialize (H1 E). by eapply cur_entry.
    + intros HR He. exact (cur_entry _ _ _ _ _ _ HR He).
  - intros [s|s|m] i mv j; cbn.
    + intros (-> & -> & ->) Hm. exists (NoChild true). destruct mv; cbn in Hm; simplify_eq; done.
    + intros [E HR] Hm. specialize (H1 E). destruct (cur_move _ _ _ _ _ _ HR Hm) as (s' & -> & HR'). by eexists.
    + intros HR Hm. destruct (cur_move _ _ _ _ _ _ HR Hm) as (s' & E & HR'). cbn in E. rewrite E. by eexists.
Qed.

(** The iterator starts without a position. *)
Lemma New_at ss :
  length ss = length kvss → (∀ j s, ss !! j = Some s → ∃ p, R j s p) →
  ∃ a p, NewMergingIterator child ss = Ret a ∧ any_at a p.
Proof using OK OC.
  intros Hl Hs. pose proof (mo_same _ _ _ _ _ OK) as Hp. destruct ss as [|s [|s' ss]].
  - destruct kvss as [|] eqn:Ek; [|done]. apply Permutation_nil_r in Hp. by exists (NoChild true), 0%nat.
  - destruct kvss as [|l [|]] eqn:Ek; [done| |done]. destruct (Hs 0%nat s eq_refl) as [p HR]. exists (OneChild s), p.
    split; [done|]. split; [|done]. rewrite Ek. f_equal. cbn in Hp. rewrite app_nil_r in Hp.
    apply (sorted_unique cmp); [by apply (mo_sorted _ _ _ _ _ OK 0%nat l)|apply (mo_merged _ _ _ _ _ OK)|done].
  - destruct (Merging_init_at cmp child R kvss kvs OK (s :: s' :: ss) Hl Hs) as (m & E & Hm).
    exists (Children m), (length kvs). split; [|done]. unfold NewMergingIterator. by rewrite E.
Qed.

Context {NK : NumericKeys cmp} (SK : ∀ j l, kvss !! j = Some l → SkipLaw (child j) (R j) l).

Definition any_forward (a : AnyMerge S) (i : nat) : Prop :=
  any_at a i ∧ match a with Children m => (i < length kvs)%nat → mi_direction m = kForward | _ => True end.

(** A client that only moves forward may also skip over user keys. *)
Lemma any_Forward : ForwardCursor cmp (AnyMerge_ops cmp child) kvs any_forward.
Proof using All.
  pose proof (any_Cursor) as HC. pose proof (Merging_Forward cmp child R kvss kvs OK SK) as HF.
  assert (kvss = [kvs] → ForwardCursor cmp (child 0%nat) kvs (R 0%nat)) as H1.
  { intros E. apply Cursor_Forward; [apply (mo_cursor _ _ _ _ _ OK)|apply SK]; by rewrite E. }
  split.
  - intros a i [HR _]. exact (cur_valid _ _ _ _ HR).
  - intros a i k v [HR _]. exact (cur_entry _ _ _ _ _ _ HR).
  - intros [s|s|m] i [HR Hd] Hi.
    + destruct HR as (_ & E & _). rewrite E in Hi. cbn in Hi. lia.
    + destruct HR as [E HR]. destruct (@fw_next _ _ _ _ _ (H1 E) s i HR Hi) as (s' & Es & HR').
      cbn. rewrite Es. by eexists.
    + destruct (@fw_next _ _ _ _ _ HF m i (conj HR Hd) Hi) as (m' & Em & HR' & Hd'). cbn in Em |- *. rewrite Em. by eexists.
  - intros [s|s|m] i t [HR Hd].
    + destruct HR as (-> & E & ->). exists (NoChild true). cbn. rewrite E. done.
    + destruct HR as [E HR]. destruct (@fw_seek _ _ _ _ _ (H1 E) s i t HR) as (s' & Es & HR').
      cbn. rewrite Es. by eexists.
    + destruct (@fw_seek _ _ _ _ _ HF m i t (conj HR Hd)) as (m' & Em & HR' & Hd'). cbn in Em |- *. rewrite Em. by eexists.
  - intros [s|s|m] i t [HR Hd] Hi Hb.
    + destruct HR as (_ & E & _). rewrite E in Hi. cbn in Hi. lia.
    + destruct HR as [E HR]. destruct (@fw_skip _ _ _ _ _ (H1 E) s i t HR Hi Hb) as (s' & Es & HR').
      cbn. rewrite Es. by eexists.
    + destruct (@fw_skip _ _ _ _ _ HF m i t (conj HR Hd) Hi Hb) as (m' & Em & HR' & Hd'). cbn in Em |- *. rewrite Em. by eexists.
Qed.
End any_proofs.

(** The moves that position an iterator whatever its state. *)
Definition absolute (m : move) : bool := match m with Next | Prev => false | _ => true end.

(** C11. The iterator that [NewMergingIterator] makes over any number of sources with
    distinct keys behaves as one iterator over their sorted union: after a first
    seek, every sequence of moves the interface allows runs through, in both
    directions and with any changes of direction, and then shows the entry of
    the union at the position the moves lead to. *)
Theorem merging_iterator_refines cmp {OC : ComparatorOrder cmp} {S} (child : nat → Iter S) R kvss kvs ss :
  merge_ok cmp child R kvss kvs → length ss = length kvss → (∀ j s, ss !! j = Some s → ∃ p, R j s p) →
  ∃ a, NewMergingIterator child ss = Ret a ∧
    let ops := iter_ops (AnyMerge_ops cmp child) in
    ∀ m ms i, absolute m = true → cursor_moves cmp kvs 0 (m :: ms) = Some i →
      ∃ a', run_moves ops a (m :: ms) = Ret a' ∧ shows kvs ops a' i.
Proof.
  intros OK Hl Hs. pose proof (any_Cursor cmp child R kvss kvs OK) as HC.
  destruct (New_at cmp child R kvss kvs OK ss Hl Hs) as (a & p & E & Ha). exists a. split; [done|].
  intros ops m ms i Hm Hi. destruct (Cursor_moves cmp kvs ops _ a p (m :: ms) i Ha) as (a' & Er & Ha').
  { destruct m; done. }
  exists a'. split; [done|]. by eapply Cursor_shows.
Qed.

Lemma merging_iterator_refines_witness :
  let kvss := [[([97], [1]); ([99], [3])]; [([98], [2])]] in
  let kvs := [([97], [1]); ([98], [2]); ([99], [3])] in
  let child j := list_iter BytewiseComparator (nth j kvss []) in
  ∃ a, NewMergingIterator child [0%nat; 0%nat] = Ret a ∧
    let ops := iter_ops (AnyMerge_ops BytewiseComparator child) in
    ∀ m ms i, absolute m = true → cursor_moves BytewiseComparator kvs 0 (m :: ms) = Some i →
      ∃ a', run_moves ops a (m :: ms) = Ret a' ∧ shows kvs ops a' i.
Proof.
  intros kvss kvs child.
  apply (merging_iterator_refines BytewiseComparator child (λ j, list_at (nth j kvss [])) kvss kvs); [|done|].
  - split.
    + intros j l Hj. apply nth_lookup_Some with (d := []) in Hj. subst l. apply list_Cursor.
    + intros [|[|]] l; cbn; intros [= <-] || done; repeat constructor.
    + repeat constructor.
    + cbn. apply perm_skip, perm_swap.
  - intros [|[|]] s; cbn; intros [= <-] || done; exists 0%nat; by split; [|cbn; lia].
Defined.
