(* ===== verification/TwoLevel.v ===== *)
(** * TwoLevel: iterating over the blocks an index names

    [table/two_level_iterator.cc].  An index iterator yields handles, from which
    the block function makes the iterators of the blocks; a table, a sorted
    level and the range index are read this way.  In the merging mode, used for
    the range index, the block function is told by its last argument whether it
    has to position the iterator it makes.  [rounds] bounds the loops over
    the blocks. *)

From S2P Require Import Prelude Coding Comparator Cursor NovaCommon DbFormat UserScan Merger.

Record TwoLevelIterator (I D : Type) := mkTwoLevel {
  tl_status_ok : bool;
  tl_index_iter : IteratorWrapper I;
  tl_data_iter : IteratorWrapper D;
  tl_data_block_handle : bytes
}.
Arguments mkTwoLevel {I D} _ _ _ _.
Arguments tl_status_ok {I D} _.
Arguments tl_index_iter {I D} _.
Arguments tl_data_iter {I D} _.
Arguments tl_data_block_handle {I D} _.

Section two_level.
Context {I D : Type} (index : Iter I) (data : Iter D).

(** [block_function_(..., handle, next_key)]; the flag is [next_key != nullptr]. *)
Context (block_function : bytes → bool → res D) (merging : bool) (rounds : nat).

Abbreviation tl := (TwoLevelIterator I D).

Definition TwoLevel_init (index_iter : I) : res tl :=
  w ← Wrapper_Set index Wrapper_init (Some index_iter);
  Ret (mkTwoLevel true w Wrapper_init []).

Definition TwoLevel_Valid (t : tl) : bool := w_valid (tl_data_iter t).
Definition TwoLevel_key (t : tl) : res bytes := Wrapper_key (tl_data_iter t).
Definition TwoLevel_value (t : tl) : res bytes := Wrapper_value data (tl_data_iter t).

Definition TwoLevel_status (t : tl) : bool :=
  if match w_iter (tl_index_iter t) with Some s => op_status_ok index s | None => true end then
    match w_iter (tl_data_iter t) with
    | Some d => if op_status_ok data d then tl_status_ok t else false
    | None => tl_status_ok t
    end
  else false.

(** [SetDataIterator], with [SaveError]. *)
Definition SetDataIterator (t : tl) (d : option D) : res tl :=
  let ok := match w_iter (tl_data_iter t) with
            | Some old => tl_status_ok t && op_status_ok data old
            | None => tl_status_ok t
            end in
  w ← Wrapper_Set data (tl_data_iter t) d;
  Ret (mkTwoLevel ok (tl_index_iter t) w (tl_data_block_handle t)).

Definition with_handle (t : tl) (handle : bytes) : tl :=
  mkTwoLevel (tl_status_ok t) (tl_index_iter t) (tl_data_iter t) handle.

Definition InitDataBlock (t : tl) (flag : bool) : res tl :=
  if w_valid (tl_index_iter t) then
    handle ← Wrapper_value index (tl_index_iter t);
    if bool_decide (is_Some (w_iter (tl_data_iter t))) && bool_decide (Slice_compare handle (tl_data_block_handle t) = 0)
    then Ret t
    else
      d ← block_function handle flag;
      SetDataIterator (with_handle t handle) (Some d)
  else SetDataIterator t None.

Definition with_index (t : tl) (w : IteratorWrapper I) : tl :=
  mkTwoLevel (tl_status_ok t) w (tl_data_iter t) (tl_data_block_handle t).
Definition with_data (t : tl) (w : IteratorWrapper D) : tl :=
  mkTwoLevel (tl_status_ok t) (tl_index_iter t) w (tl_data_block_handle t).

Definition move_index (m : move) (t : tl) : res tl :=
  w ← Wrapper_move index m (tl_index_iter t); Ret (with_index t w).

(** [if (data_iter_.iter() != nullptr) data_iter_.m()] *)
Definition move_data (m : move) (t : tl) : res tl :=
  match w_iter (tl_data_iter t) with
  | None => Ret t
  | Some _ => w ← Wrapper_move data m (tl_data_iter t); Ret (with_data t w)
  end.

(** The three loops [while (data_iter_.iter() == nullptr || !data_iter_.Valid())]:
    forwards with [SeekToFirst], backwards with [SeekToLast], and forwards in
    the merging mode, which leaves the iterators of the blocks as they are
    made. *)
Fixpoint skip_loop (fuel : nat) (step : move) (enter : option move) (t : tl) : res tl :=
  match fuel with
  | O => Abort
  | S fuel =>
      if bool_decide (is_Some (w_iter (tl_data_iter t))) && w_valid (tl_data_iter t) then Ret t
      else if w_valid (tl_index_iter t) then
        t ← move_index step t;
        t ← InitDataBlock t false;
        t ← match enter with Some m => move_data m t | None => Ret t end;
        skip_loop fuel step enter t
      else SetDataIterator t None
  end.

Definition SkipEmptyDataBlocksForward (t : tl) : res tl :=
  if merging then Abort else skip_loop rounds Next (Some SeekToFirst) t.
Definition SkipEmptyDataBlocksBackward (t : tl) : res tl :=
  if merging then Abort else skip_loop rounds Prev (Some SeekToLast) t.
Definition MergingDataBlocksForward (t : tl) : res tl := skip_loop rounds Next None t.

Definition MergingSeek (t : tl) (target : bytes) : res tl :=
  t ← move_index (Seek target) t;
  t ← InitDataBlock t true;
  t ← move_data (Seek target) t;
  MergingDataBlocksForward t.

Definition MergingNext (t : tl) : res tl :=
  w ← Wrapper_move data Next (tl_data_iter t); MergingDataBlocksForward (with_data t w).

Definition TwoLevel_Seek (t : tl) (target : bytes) : res tl :=
  if merging then MergingSeek t target
  else
    t ← move_index (Seek target) t;
    t ← InitDataBlock t false;
    t ← move_data (Seek target) t;
    SkipEmptyDataBlocksForward t.

Definition TwoLevel_SkipToNextUserKey (t : tl) (target : bytes) : res tl :=
  w ← Wrapper_SkipToNextUserKey index target (tl_index_iter t);
  t ← InitDataBlock (with_index t w) false;
  t ← match w_iter (tl_data_iter t) with
      | None => Ret t
      | Some _ => w ← Wrapper_SkipToNextUserKey data target (tl_data_iter t); Ret (with_data t w)
      end;
  if merging then MergingDataBlocksForward t else SkipEmptyDataBlocksForward t.

Definition TwoLevel_SeekToFirst (t : tl) : res tl :=
  if merging then Abort
  else
    t ← move_index SeekToFirst t;
    t ← InitDataBlock t false;
    t ← move_data SeekToFirst t;
    SkipEmptyDataBlocksForward t.

Definition TwoLevel_SeekToLast (t : tl) : res tl :=
  if merging then Abort
  else
    t ← move_index SeekToLast t;
    t ← InitDataBlock t false;
    t ← move_data SeekToLast t;
    SkipEmptyDataBlocksBackward t.

Definition TwoLevel_Next (t : tl) : res tl :=
  if TwoLevel_Valid t then
    if merging then MergingNext t
    else w ← Wrapper_move data Next (tl_data_iter t); SkipEmptyDataBlocksForward (with_data t w)
  else Abort.

Definition TwoLevel_Prev (t : tl) : res tl :=
  if merging then Abort
  else if TwoLevel_Valid t then
    w ← Wrapper_move data Prev (tl_data_iter t); SkipEmptyDataBlocksBackward (with_data t w)
  else Abort.

Definition TwoLevel_ops : Iter tl :=
  mkIter
    (mkIterOps TwoLevel_Valid TwoLevel_key TwoLevel_value
       (λ t m, match m with
               | SeekToFirst => TwoLevel_SeekToFirst t
               | SeekToLast => TwoLevel_SeekToLast t
               | Seek target => TwoLevel_Seek t target
               | Next => TwoLevel_Next t
               | Prev => TwoLevel_Prev t
               end))
    TwoLevel_SkipToNextUserKey
    TwoLevel_status.
End two_level.

(** ** Reading the blocks one after the other *)

Section two_level_proofs.
Context (cmp : Comparator) `{!ComparatorOrder cmp} {I D : Type} (index : Iter I) (data : Iter D).
Context (block_function : bytes → bool → res D) (rounds : nat).
Context (RI : I → nat → Prop) (RD : nat → D → nat → Prop).

(** The entries of the index and of the blocks they name. *)
Context (entries : list kv) (bls : list (list kv)).

Record two_level_ok : Prop := {
  tw_index : Cursor cmp entries (iter_ops index) RI;
  tw_length : length entries = length bls;
  tw_rounds : (length bls < rounds)%nat;
  tw_block b sep h bl :
    entries !! b = Some (sep, h) → bls !! b = Some bl →
    Cursor cmp bl (iter_ops data) (RD b) ∧ ∃ d p, block_function h false = Ret d ∧ RD b d p;
  tw_handles b b' sep sep' h : entries !! b = Some (sep, h) → entries !! b' = Some (sep', h) → b = b';
  tw_seps : StronglySorted (λ x y, Compare x.1 y.1 < 0) entries;
  tw_below b sep h bl e : entries !! b = Some (sep, h) → bls !! b = Some bl → e ∈ bl → Compare e.1 sep <= 0;
  tw_above b b' sep h bl e :
    (b < b')%nat → entries !! b = Some (sep, h) → bls !! b' = Some bl → e ∈ bl → Compare sep e.1 < 0
}.
Context (OK : two_level_ok).

Abbreviation tl := (TwoLevelIterator I D).
Abbreviation kvs := (concat bls).

(** The number of entries in front of a block. *)
Definition off (b : nat) : nat := length (concat (take b bls)).

Lemma off_S b bl : bls !! b = Some bl → off (S b) = (off b + length bl)%nat.
Proof.
  intros Hb. unfold off. rewrite (take_S_r _ _ bl) by done. rewrite concat_app, length_app. cbn. by rewrite app_nil_r.
Qed.

Lemma blocks_off_end b : (length bls <= b)%nat → off b = length kvs.
Proof. intros Hb. unfold off. by rewrite take_ge. Qed.

Lemma blocks_off_le b : (off b <= length kvs)%nat.
Proof.
  unfold off. rewrite <- (take_drop b bls) at 2. rewrite concat_app, length_app. lia.
Qed.

Lemma lookup_block b bl p : bls !! b = Some bl → (p < length bl)%nat → kvs !! (off b + p)%nat = bl !! p.
Proof.
  intros Hb Hp. unfold off. assert (kvs = concat (take b bls) ++ bl ++ concat (drop (S b) bls)) as ->.
  { rewrite <- (take_drop_middle bls b bl Hb) at 1. by rewrite concat_app. }
  rewrite lookup_app_r by lia. rewrite Nat.add_comm, Nat.add_sub. by rewrite lookup_app_l.
Qed.

(** Every entry is in a block. *)
Lemma block_of_position i :
  (i < length kvs)%nat → ∃ b bl p, bls !! b = Some bl ∧ (p < length bl)%nat ∧ i = (off b + p)%nat.
Proof.
  intros Hi. assert (∀ n, (n <= length bls)%nat → (i < off n)%nat →
    ∃ b bl p, bls !! b = Some bl ∧ (p < length bl)%nat ∧ i = (off b + p)%nat) as H.
  { induction n as [|n IH]; intros Hn Hlt; [unfold off in Hlt; rewrite take_0 in Hlt; cbn in Hlt; lia|].
    destruct (lookup_lt_is_Some_2 bls n ltac:(lia)) as [bl Hb]. rewrite (off_S n bl Hb) in Hlt.
    destruct (decide (i < off n)%nat); [apply IH; lia|]. exists n, bl, (i - off n)%nat. split_and!; [done|lia|lia]. }
  apply (H (length bls)); [done|]. by rewrite blocks_off_end.
Qed.

Lemma lookup_entry b bl : bls !! b = Some bl → ∃ sep h, entries !! b = Some (sep, h).
Proof using OK.
  intros Hb. destruct (lookup_lt_is_Some_2 entries b) as [[sep h] He]; [|eauto].
  rewrite (tw_length OK). by eapply lookup_lt_Some.
Qed.

(** The data iterator: none, or one over the block that the handle names. *)
Definition data_any (t : tl) : Prop :=
  (w_iter (tl_data_iter t) = None ∧ w_valid (tl_data_iter t) = false)
  ∨ ∃ b sep bl p, entries !! b = Some (sep, tl_data_block_handle t) ∧ bls !! b = Some bl
      ∧ wrapped (RD b) bl (tl_data_iter t) p.

Definition data_in (t : tl) (b : nat) (bl : list kv) (p : nat) : Prop :=
  (∃ sep, entries !! b = Some (sep, tl_data_block_handle t)) ∧ bls !! b = Some bl
  ∧ wrapped (RD b) bl (tl_data_iter t) p.

Definition index_at (t : tl) (b : nat) : Prop := wrapped RI entries (tl_index_iter t) b.

Definition two_at (t : tl) (i : nat) : Prop :=
  if decide (i < length kvs)%nat then
    ∃ b bl p, index_at t b ∧ data_in t b bl p ∧ (p < length bl)%nat ∧ i = (off b + p)%nat
  else i = length kvs ∧ w_iter (tl_data_iter t) = None ∧ w_valid (tl_data_iter t) = false ∧ index_at t (length entries).

Lemma data_in_any t b bl p : data_in t b bl p → data_any t.
Proof. intros ((sep & He) & Hb & Hw). right. by exists b, sep, bl, p. Qed.

Lemma two_any t i : two_at t i → data_any t ∧ ∃ b, index_at t b.
Proof.
  unfold two_at. case_decide; [|intros (_ & ? & ? & ?); split; [by left|eauto]].
  intros (b & bl & p & ? & ? & _). split; [by eapply data_in_any|eauto].
Qed.

Lemma wrapped_le b sep h bl w p : entries !! b = Some (sep, h) → bls !! b = Some bl → wrapped (RD b) bl w p → (p <= length bl)%nat.
Proof using OK.
  intros He Hb ((s & _ & HR) & _). destruct (tw_block OK b sep h bl He Hb) as [HC _]. by eapply cur_le.
Qed.

Lemma index_at_le t b : index_at t b → (b <= length entries)%nat.
Proof using OK. intros ((s & _ & HR) & _). pose proof (tw_index OK). by eapply cur_le. Qed.

(** [InitDataBlock] on a block of the index. *)
Lemma InitDataBlock_at t b bl :
  index_at t b → data_any t → bls !! b = Some bl →
  ∃ t' p, InitDataBlock index data block_function t false = Ret t' ∧ index_at t' b ∧ data_in t' b bl p.
Proof using OK.
  intros Hi Hd Hb. destruct (lookup_entry b bl Hb) as (sep & h & He). pose proof (tw_index OK) as HCI.
  unfold InitDataBlock. rewrite (proj1 (proj2 Hi)), bool_decide_eq_true_2 by (by eapply lookup_lt_Some).
  destruct (entry_wrapped cmp index RI entries _ _ _ _ Hi He) as [_ ->]. cbn [mbind res_bind].
  destruct (bool_decide (is_Some _) && _) eqn:Ec.
  - apply andb_true_iff in Ec as [[d Hd']%bool_decide_eq_true_1 Heq%bool_decide_eq_true_1].
    apply Slice_compare_eq in Heq. destruct Hd as [[Hn _]|(b' & sep' & bl' & p & He' & Hb' & Hw)]; [congruence|].
    rewrite <- Heq in He'. pose proof (tw_handles OK _ _ _ _ _ He' He) as ->. simplify_eq.
    exists t, p. split_and!; [done|done|]. split_and!; [by eexists|done|done].
  - destruct (tw_block OK b sep h bl He Hb) as [HC (d & p & -> & HR)]. cbn [mbind res_bind].
    unfold SetDataIterator, Wrapper_Set. cbn [tl_data_iter with_handle].
    destruct (Update_wrapped cmp data (RD b) bl d p (w_key (tl_data_iter t)) HR) as (w & -> & Hw).
    cbn [mbind res_bind]. eexists _, p. split; [done|]. split; [exact Hi|]. split_and!; [by exists sep|done|exact Hw].
Qed.

Lemma InitDataBlock_end t b :
  index_at t b → (length bls <= b)%nat →
  ∃ t', InitDataBlock index data block_function t false = Ret t' ∧ index_at t' b
    ∧ w_iter (tl_data_iter t') = None ∧ w_valid (tl_data_iter t') = false.
Proof using OK.
  intros Hi Hb. unfold InitDataBlock. rewrite (proj1 (proj2 Hi)), bool_decide_eq_false_2 by (rewrite (tw_length OK); lia).
  cbn. eexists. split; [done|]. by split.
Qed.

Lemma move_index_at m t b b' :
  index_at t b → cursor_move cmp entries b m = Some b' →
  ∃ t', move_index index m t = Ret t' ∧ index_at t' b' ∧ tl_data_iter t' = tl_data_iter t
    ∧ tl_data_block_handle t' = tl_data_block_handle t.
Proof using OK.
  intros Hi Hm. pose proof (tw_index OK) as HCI. unfold move_index.
  destruct (move_wrapped cmp index RI entries _ _ _ _ Hi Hm) as (w & -> & Hw). cbn [mbind res_bind].
  eexists. split; [done|]. by split.
Qed.

Lemma data_any_ext t t' :
  tl_data_iter t' = tl_data_iter t → tl_data_block_handle t' = tl_data_block_handle t → data_any t → data_any t'.
Proof. unfold data_any. by intros -> ->. Qed.

Lemma move_data_at m t b bl p p' :
  data_in t b bl p → cursor_move cmp bl p m = Some p' →
  ∃ w, Wrapper_move data m (tl_data_iter t) = Ret w ∧ move_data data m t = Ret (with_data t w)
    ∧ tl_index_iter (with_data t w) = tl_index_iter t ∧ data_in (with_data t w) b bl p'.
Proof using OK.
  intros ((sep & He) & Hb & Hw) Hm. destruct (tw_block OK _ _ _ _ He Hb) as [HC _]. unfold move_data.
  destruct (move_wrapped cmp data (RD b) bl _ _ _ _ Hw Hm) as (w & E & Hw').
  destruct Hw as ((d & Hd & _) & _). rewrite Hd. exists w. rewrite E. cbn [mbind res_bind].
  split_and!; [done..|]. split_and!; [by exists sep|done|exact Hw'].
Qed.

(** An index move, the block it leads to, and a move into the block. *)
Lemma enter_block im dm t b b' bl (q : nat) :
  index_at t b → data_any t → cursor_move cmp entries b im = Some b' → bls !! b' = Some bl →
  (∀ p, cursor_move cmp bl p dm = Some q) →
  ∃ t1 t2 t3, move_index index im t = Ret t1 ∧ InitDataBlock index data block_function t1 false = Ret t2
    ∧ move_data data dm t2 = Ret t3 ∧ index_at t3 b' ∧ data_in t3 b' bl q.
Proof using OK.
  intros Hi Hd Him Hb Hdm. destruct (move_index_at _ _ _ _ Hi Him) as (t1 & E1 & Hi1 & Hd1 & Hh1).
  destruct (InitDataBlock_at t1 b' bl Hi1 (data_any_ext _ _ Hd1 Hh1 Hd) Hb) as (t2 & p & E2 & Hi2 & Hd2).
  destruct (move_data_at dm t2 b' bl p q Hd2 (Hdm p)) as (w & _ & E3 & Hi3 & Hd3).
  exists t1, t2, (with_data t2 w). by split_and!.
Qed.

Lemma enter_end im dm t b b' :
  index_at t b → cursor_move cmp entries b im = Some b' → (length bls <= b')%nat →
  ∃ t1 t2, move_index index im t = Ret t1 ∧ InitDataBlock index data block_function t1 false = Ret t2
    ∧ move_data data dm t2 = Ret t2 ∧ index_at t2 b'
    ∧ w_iter (tl_data_iter t2) = None ∧ w_valid (tl_data_iter t2) = false.
Proof using OK.
  intros Hi Him Hb. destruct (move_index_at _ _ _ _ Hi Him) as (t1 & E1 & Hi1 & _).
  destruct (InitDataBlock_end t1 b' Hi1 Hb) as (t2 & E2 & Hi2 & Hn & Hv).
  exists t1, t2. split_and!; try done. unfold move_data. by rewrite Hn.
Qed.

Lemma SetDataIterator_none (t : tl) :
  ∃ t', SetDataIterator data t None = Ret t' ∧ tl_index_iter t' = tl_index_iter t
    ∧ w_iter (tl_data_iter t') = None ∧ w_valid (tl_data_iter t') = false.
Proof. eexists. split; [done|]. by split. Qed.

(** The end of the loops: no index entry left. *)
Lemma skip_end fuel step enter t b :
  index_at t b → (length bls <= b)%nat → w_valid (tl_data_iter t) = false →
  ∃ t', skip_loop index data block_function (S fuel) step enter t = Ret t' ∧ two_at t' (length kvs).
Proof using OK.
  intros Hi Hb Hv. cbn [skip_loop]. rewrite Hv, andb_false_r.
  rewrite (proj1 (proj2 Hi)), bool_decide_eq_false_2 by (rewrite (tw_length OK); lia).
  destruct (SetDataIterator_none t) as (t' & -> & Hi' & Hn & Hv'). exists t'. split; [done|].
  unfold two_at. rewrite decide_False by lia. split_and!; [done..|]. unfold index_at. rewrite Hi'.
  pose proof (index_at_le _ _ Hi) as Hle. rewrite (tw_length OK) in *. assert (b = length bls) as -> by lia. exact Hi.
Qed.

(** Where there is a valid data iterator the loops stop at once. *)
Lemma skip_stop fuel step enter t b bl p :
  index_at t b → data_in t b bl p → (p < length bl)%nat →
  skip_loop index data block_function (S fuel) step enter t = Ret t ∧ two_at t (off b + p).
Proof using OK.
  intros Hi Hd Hp. pose proof Hd as (_ & Hb & (d & Hd' & _) & Hv & _). cbn [skip_loop].
  rewrite Hd', Hv, (bool_decide_eq_true_2 (p < _)%nat) by done. rewrite bool_decide_eq_true_2 by eauto. split; [done|].
  unfold two_at. rewrite decide_True.
  - exists b, bl, p. by split_and!.
  - pose proof (off_S b bl Hb). pose proof (blocks_off_le (S b)). lia.
Qed.

Lemma skip_forward fuel t b bl p :
  index_at t b → data_in t b bl p → (length bls - b < fuel)%nat →
  ∃ t', skip_loop index data block_function fuel Next (Some SeekToFirst) t = Ret t' ∧ two_at t' (off b + p).
Proof using OK.
  revert t b bl p. induction fuel as [|fuel IH]; intros t b bl p Hi Hd Hf; [lia|].
  destruct (decide (p < length bl)%nat) as [Hp|Hp].
  { destruct (skip_stop fuel Next (Some SeekToFirst) t b bl p Hi Hd Hp). eauto. }
  pose proof Hd as ((sep & He) & Hb & Hw). pose proof (wrapped_le _ _ _ _ _ _ He Hb Hw) as Hle.
  assert (p = length bl) as -> by lia. rewrite <- (off_S b bl) by done. cbn [skip_loop].
  rewrite (proj1 (proj2 Hw)), (bool_decide_eq_false_2 (length bl < _)%nat), andb_false_r by lia.
  pose proof (lookup_lt_Some _ _ _ Hb) as Hlt.
  rewrite (proj1 (proj2 Hi)), bool_decide_eq_true_2 by (rewrite (tw_length OK); lia).
  assert (cursor_move cmp entries b Next = Some (S b)) as Hn by (cbn; rewrite decide_True; [done|rewrite (tw_length OK); lia]).
  destruct (bls !! S b) as [bl'|] eqn:Hb'.
  - destruct (enter_block Next SeekToFirst t b (S b) bl' 0 Hi (data_in_any _ _ _ _ Hd) Hn Hb' ltac:(done))
      as (t1 & t2 & t3 & -> & E2 & E3 & Hi3 & Hd3). cbn [mbind res_bind]. rewrite E2. cbn [mbind res_bind].
    rewrite E3. cbn [mbind res_bind]. rewrite <- (Nat.add_0_r (off (S b))). apply (IH t3 _ bl'); [done|done|lia].
  - apply lookup_ge_None in Hb'. destruct (enter_end Next SeekToFirst t b (S b) Hi Hn Hb')
      as (t1 & t2 & -> & E2 & E3 & Hi2 & Hn2 & Hv2). cbn [mbind res_bind]. rewrite E2. cbn [mbind res_bind].
    rewrite E3. cbn [mbind res_bind]. rewrite (blocks_off_end (S b)) by done.
    destruct fuel as [|fuel]; [lia|]. by apply (skip_end _ _ _ t2 (S b)).
Qed.

(** [c] entries of the block are in front of the position. *)
Lemma skip_backward fuel t b bl c :
  index_at t b → data_in t b bl (back_from (length bl) c) → (c <= length bl)%nat → (b + 1 < fuel)%nat →
  ∃ t', skip_loop index data block_function fuel Prev (Some SeekToLast) t = Ret t'
    ∧ two_at t' (back_from (length kvs) (off b + c)).
Proof using OK.
  revert t b bl c. induction fuel as [|fuel IH]; intros t b bl c Hi Hd Hc Hf; [lia|]. destruct c as [|c]; cbn [back_from] in Hd.
  2: { destruct (skip_stop fuel Prev (Some SeekToLast) t b bl c Hi Hd Hc). rewrite Nat.add_succ_r. cbn [back_from]. eauto. }
  pose proof Hd as (_ & Hb & Hw). rewrite Nat.add_0_r. cbn [skip_loop].
  rewrite (proj1 (proj2 Hw)), (bool_decide_eq_false_2 (length bl < _)%nat), andb_false_r by lia.
  pose proof (lookup_lt_Some _ _ _ Hb) as Hlt.
  rewrite (proj1 (proj2 Hi)), bool_decide_eq_true_2 by (rewrite (tw_length OK); lia).
  assert (cursor_move cmp entries b Prev = Some (back_from (length entries) b)) as Hn
    by (cbn; rewrite decide_True; [done|rewrite (tw_length OK); lia]). destruct b as [|b]; cbn [back_from] in Hn.
  - destruct (enter_end Prev SeekToLast t 0 _ Hi Hn ltac:(rewrite (tw_length OK); lia))
      as (t1 & t2 & -> & E2 & E3 & Hi2 & Hn2 & Hv2). cbn [mbind res_bind]. rewrite E2. cbn [mbind res_bind].
    rewrite E3. cbn [mbind res_bind]. assert (off 0 = 0%nat) as -> by (unfold off; by rewrite take_0). cbn [back_from].
    destruct fuel as [|fuel]; [lia|]. apply (skip_end _ _ _ t2 (length entries)); [done|rewrite (tw_length OK); lia|done].
  - destruct (lookup_lt_is_Some_2 bls b ltac:(lia)) as [bl' Hb'].
    destruct (enter_block Prev SeekToLast t (S b) b bl' _ Hi (data_in_any _ _ _ _ Hd) Hn Hb' ltac:(done))
      as (t1 & t2 & t3 & -> & E2 & E3 & Hi3 & Hd3). cbn [mbind res_bind]. rewrite E2. cbn [mbind res_bind].
    rewrite E3. cbn [mbind res_bind]. rewrite (off_S b bl') by done. apply (IH t3 b bl'); [done|done|lia|lia].
Qed.

Lemma blocks_off_mono b b' : (b <= b')%nat → (off b <= off b')%nat.
Proof.
  induction 1 as [|b' _ IH]; [lia|]. destruct (bls !! b') as [bl|] eqn:Hb; [rewrite (off_S b' bl Hb); lia|].
  apply lookup_ge_None in Hb. rewrite (blocks_off_end (S b')) by lia. rewrite (blocks_off_end b') in IH by lia. lia.
Qed.

Lemma lower_bound_end target :
  lower_bound cmp entries target = length bls → lower_bound cmp kvs target = length kvs.
Proof using All.
  intros Hn. symmetry. apply lower_bound_unique; [lia| |intros k v ?%lookup_lt_Some; lia]. intros i k v Hi Hkv.
  destruct (block_of_position i Hi) as (b & bl & p & Hb & Hp & ->). rewrite (lookup_block b bl p) in Hkv by done.
  destruct (lookup_entry b bl Hb) as (sep & h & He).
  pose proof (tw_below OK b sep h bl (k, v) He Hb ltac:(by eapply list_elem_of_lookup_2)) as Hle.
  eapply cmp_le_lt_trans; [exact Hle|]. eapply lower_bound_before; [|exact He].
  rewrite Hn. by eapply lookup_lt_Some.
Qed.

Lemma lower_bound_block b bl target :
  lower_bound cmp entries target = b → bls !! b = Some bl →
  lower_bound cmp kvs target = (off b + lower_bound cmp bl target)%nat.
Proof using All.
  intros Hn Hb. symmetry. pose proof (lower_bound_le cmp bl target) as Hle. pose proof (off_S b bl Hb) as HS.
  destruct (lookup_entry b bl Hb) as (sep & h & He). apply lower_bound_unique.
  - pose proof (blocks_off_le (S b)). lia.
  - intros i k v Hi Hkv. destruct (block_of_position i) as (b' & bl' & p & Hb' & Hp & ->); [by eapply lookup_lt_Some|].
    rewrite (lookup_block b' bl' p) in Hkv by done. destruct (lt_eq_lt_dec b' b) as [[Hlt| ->]|Hlt].
    + destruct (lookup_entry b' bl' Hb') as (sep' & h' & He').
      pose proof (tw_below OK b' sep' h' bl' (k, v) He' Hb' ltac:(by eapply list_elem_of_lookup_2)) as Hbe.
      eapply cmp_le_lt_trans; [exact Hbe|]. eapply lower_bound_before; [|exact He']. by rewrite Hn.
    + simplify_eq. eapply (lower_bound_before _ _ _ p); [|done]. lia.
    + pose proof (blocks_off_mono (S b) b' Hlt). lia.
  - intros k v Hkv. destruct (block_of_position _ (lookup_lt_Some _ _ _ Hkv)) as (b' & bl' & p & Hb' & Hp & Ei).
    rewrite Ei, (lookup_block b' bl' p) in Hkv by done. destruct (lt_eq_lt_dec b' b) as [[Hlt| ->]|Hlt].
    + pose proof (blocks_off_mono (S b') b Hlt). rewrite (off_S b' bl' Hb') in *. lia.
    + simplify_eq. assert (p = lower_bound cmp bl target) as -> by lia. by eapply lower_bound_at.
    + rewrite <- Hn in He. pose proof (lower_bound_at _ _ _ _ _ He) as Hs. apply cmp_not_lt in Hs.
      pose proof (tw_above OK (lower_bound cmp entries target) b' sep h bl' (k, v) ltac:(by rewrite Hn) He Hb' ltac:(by eapply list_elem_of_lookup_2)) as Ha.
      pose proof (cmp_le_lt_trans _ _ _ Hs Ha) as Hlt'. cbn in Hlt'. apply cmp_not_lt. lia.
Qed.

Lemma two_entry t i k v :
  two_at t i → kvs !! i = Some (k, v) →
  ∃ b bl p, index_at t b ∧ data_in t b bl p ∧ (p < length bl)%nat ∧ i = (off b + p)%nat
    ∧ TwoLevel_Valid t = true ∧ TwoLevel_key t = Ret k ∧ TwoLevel_value data t = Ret v.
Proof using OK.
  unfold two_at. intros Ht Hkv. rewrite decide_True in Ht by (by eapply lookup_lt_Some).
  destruct Ht as (b & bl & p & Hi & Hd & Hp & ->). exists b, bl, p.
  pose proof Hd as ((sep & He) & Hb & Hw). rewrite (lookup_block b bl p) in Hkv by done.
  destruct (tw_block OK _ _ _ _ He Hb) as [HC _].
  destruct (entry_wrapped cmp data (RD b) bl _ _ _ _ Hw Hkv) as [Hk Hv]. split_and!; try done.
  unfold TwoLevel_Valid. rewrite (proj1 (proj2 Hw)). by apply bool_decide_eq_true_2.
Qed.

(** The first and the last step of a seek. *)
Lemma seek_forward t i im b' (dm : move) (q : list kv → nat) g :
  two_at t i → cursor_move cmp entries 0 im = Some b' → im ≠ Next → im ≠ Prev →
  (∀ bl p, cursor_move cmp bl p dm = Some (q bl)) →
  (∀ bl, bls !! b' = Some bl → g = (off b' + q bl)%nat) → ((length bls <= b')%nat → g = length kvs) →
  ∃ t1 t2 t3 t', move_index index im t = Ret t1 ∧ InitDataBlock index data block_function t1 false = Ret t2
    ∧ move_data data dm t2 = Ret t3
    ∧ SkipEmptyDataBlocksForward index data block_function false rounds t3 = Ret t' ∧ two_at t' g.
Proof using OK.
  intros Ht Him Hn Hp Hdm Hg He. destruct (two_any _ _ Ht) as [Hd [b Hi]].
  assert (cursor_move cmp entries b im = Some b') as Him' by (by destruct im).
  pose proof (tw_rounds OK) as Hr. unfold SkipEmptyDataBlocksForward. destruct (bls !! b') as [bl|] eqn:Hb.
  - destruct (enter_block im dm t b b' bl (q bl) Hi Hd Him' Hb (Hdm bl)) as (t1 & t2 & t3 & E1 & E2 & E3 & Hi3 & Hd3).
    destruct (skip_forward rounds t3 b' bl _ Hi3 Hd3 ltac:(lia)) as (t' & E & Ht').
    exists t1, t2, t3, t'. rewrite (Hg bl) by done. by split_and!.
  - apply lookup_ge_None in Hb. destruct (enter_end im dm t b b' Hi Him' Hb) as (t1 & t2 & E1 & E2 & E3 & Hi2 & _ & Hv2).
    destruct rounds as [|fuel]; [lia|]. destruct (skip_end fuel Next (Some SeekToFirst) t2 b' Hi2 Hb Hv2) as (t' & E & Ht').
    exists t1, t2, t2, t'. rewrite He by done. by split_and!.
Qed.

Abbreviation ops := (TwoLevel_ops index data block_function false rounds).

Lemma seek_last t i :
  two_at t i → ∃ t', TwoLevel_SeekToLast index data block_function false rounds t = Ret t'
    ∧ two_at t' (back_from (length kvs) (length kvs)).
Proof using OK.
  intros Ht. destruct (two_any _ _ Ht) as [Hd [b Hi]]. pose proof (tw_rounds OK) as Hr. pose proof (tw_length OK) as Hl.
  unfold TwoLevel_SeekToLast, SkipEmptyDataBlocksBackward. destruct (length entries) as [|n] eqn:En.
  - destruct (enter_end SeekToLast SeekToLast t b 0 Hi ltac:(cbn; by rewrite En) ltac:(lia))
      as (t1 & t2 & -> & E2 & E3 & Hi2 & _ & Hv2). cbn [mbind res_bind]. rewrite E2. cbn [mbind res_bind].
    rewrite E3. cbn [mbind res_bind]. assert (back_from (length kvs) (length kvs) = length kvs) as -> by (by rewrite (nil_length_inv bls)).
    destruct rounds as [|fuel]; [lia|]. apply (skip_end fuel Prev (Some SeekToLast) t2 0 Hi2); [lia|done].
  - destruct (lookup_lt_is_Some_2 bls n ltac:(lia)) as [bl Hb].
    destruct (enter_block SeekToLast SeekToLast t b n bl _ Hi Hd ltac:(cbn; by rewrite En) Hb ltac:(done))
      as (t1 & t2 & t3 & -> & E2 & E3 & Hi3 & Hd3). cbn [mbind res_bind]. rewrite E2. cbn [mbind res_bind].
    rewrite E3. cbn [mbind res_bind]. replace (back_from _ _) with (back_from (length kvs) (off n + length bl)%nat)
      by (rewrite <- (off_S n bl), blocks_off_end by (done || lia); done).
    apply (skip_backward rounds t3 n bl (length bl)); [done|done|lia|lia].
Qed.

Lemma two_Cursor : Cursor cmp kvs (iter_ops ops) two_at.
Proof using All.
  pose proof (tw_rounds OK) as Hr. split.
  - intros t i. unfold two_at. case_decide; [lia|]. intros (-> & _). lia.
  - intros t i Ht. cbn. destruct (kvs !! i) as [[k v]|] eqn:Hkv.
    + destruct (two_entry t i k v Ht Hkv) as (_ & _ & _ & _ & _ & _ & _ & -> & _). symmetry.
      apply bool_decide_eq_true_2. by eapply lookup_lt_Some.
    + apply lookup_ge_None in Hkv. unfold two_at in Ht. rewrite decide_False in Ht by lia.
      rewrite bool_decide_eq_false_2 by lia. by destruct Ht as (_ & _ & ? & _).
  - intros t i k v Ht Hkv. by destruct (two_entry t i k v Ht Hkv) as (_ & _ & _ & _ & _ & _ & _ & _ & ? & ?).
  - intros t i m j Ht Hj. cbn. destruct m as [| |target| |]; cbn in Hj; simplify_eq.
    + unfold TwoLevel_SeekToFirst.
      destruct (seek_forward t i SeekToFirst 0 SeekToFirst (λ _, O) 0 Ht) as (t1 & t2 & t3 & t' & E1 & E2 & E3 & E & Ht');
        [done..| |intros Hb; by rewrite (nil_length_inv bls) by lia|rewrite E1; cbn [mbind res_bind]; rewrite E2; cbn [mbind res_bind];
          rewrite E3; cbn [mbind res_bind]; eauto].
      intros bl _. unfold off. by rewrite take_0.
    + by eapply seek_last.
    + unfold TwoLevel_Seek.
      destruct (seek_forward t i (Seek target) _ (Seek target) (λ bl, lower_bound cmp bl target) (lower_bound cmp kvs target) Ht eq_refl)
        as (t1 & t2 & t3 & t' & E1 & E2 & E3 & E & Ht'); [done..| | |rewrite E1; cbn [mbind res_bind]; rewrite E2; cbn [mbind res_bind];
          rewrite E3; cbn [mbind res_bind]; eauto].
      * intros bl Hb. by apply lower_bound_block.
      * intros Hb. apply lower_bound_end. pose proof (lower_bound_le cmp entries target). rewrite (tw_length OK) in *. lia.
    + case_decide as Hlt; simplify_eq. destruct (lookup_lt_is_Some_2 kvs i Hlt) as [[k v] Hkv].
      destruct (two_entry t i k v Ht Hkv) as (b & bl & p & Hi & Hd & Hp & -> & Hv & _).
      unfold TwoLevel_Next. rewrite Hv.
      destruct (move_data_at Next t b bl p (S p) Hd ltac:(cbn; by rewrite decide_True)) as (w & -> & _ & Hi' & Hd').
      cbn [mbind res_bind]. rewrite <- Nat.add_succ_r. apply (skip_forward rounds (with_data t w) b bl); [|done|lia].
      unfold index_at. by rewrite Hi'.
    + case_decide as Hlt; simplify_eq. destruct (lookup_lt_is_Some_2 kvs i Hlt) as [[k v] Hkv].
      destruct (two_entry t i k v Ht Hkv) as (b & bl & p & Hi & Hd & Hp & -> & Hv & _).
      unfold TwoLevel_Prev. rewrite Hv.
      destruct (move_data_at Prev t b bl p _ Hd ltac:(cbn; by rewrite decide_True)) as (w & -> & _ & Hi' & Hd').
      cbn [mbind res_bind]. apply (skip_backward rounds (with_data t w) b bl); [|done|lia|].
      * unfold index_at. by rewrite Hi'.
      * pose proof (lookup_lt_Some _ _ _ (proj1 (proj2 Hd))). lia.
Qed.

Lemma TwoLevel_init_at it : RI it (length entries) → ∃ t, TwoLevel_init index it = Ret t ∧ two_at t (length kvs).
Proof using OK.
  intros HR. pose proof (tw_index OK) as HCI. unfold TwoLevel_init, Wrapper_Set.
  destruct (Update_wrapped cmp index RI entries it _ (w_key (@Wrapper_init I)) HR) as (w & -> & Hw). cbn [mbind res_bind].
  eexists. split; [done|]. unfold two_at. rewrite decide_False by lia. by split_and!.
Qed.

(** *** Skipping a user key *)

Context `{!NumericKeys cmp}.
Context (SI : SkipIndexLaw index RI entries).
Context (SD : ∀ b bl, bls !! b = Some bl → SkipLaw data (RD b) bl).
Context (fresh : ∀ b sep h bl d t, entries !! b = Some (sep, h) → bls !! b = Some bl → block_function h false = Ret d →
  ∃ d', op_SkipToNextUserKey data d t = Ret d' ∧ RD b d' (upto bl (user_int t))).
Context (Hsorted : user_sorted kvs).

(** The blocks before [q] hold only keys up to [x]. *)
Definition blocks_upto (q : nat) (x : Z) : Prop :=
  ∀ b bl e, (b < q)%nat → bls !! b = Some bl → e ∈ bl → user_int e.1 <= x.

Lemma upto_block q x :
  blocks_upto q x →
  (∀ sep h, entries !! q = Some (sep, h) → x < user_int sep) →
  (∀ bl, bls !! q = Some bl → upto kvs x = (off q + upto bl x)%nat) ∧ ((length bls <= q)%nat → upto kvs x = length kvs).
Proof using OK NumericKeys0.
  intros Hb Hq.
  assert (∀ i e, (i < off q)%nat → kvs !! i = Some e → user_int e.1 <= x) as Hbefore.
  { intros i e Hi He. destruct (block_of_position i) as (b & bl & p & Hbl & Hp & ->); [by eapply lookup_lt_Some|].
    rewrite (lookup_block b bl p) in He by done. apply (Hb b bl e); [|done|by eapply list_elem_of_lookup_2].
    destruct (decide (b < q)%nat); [done|]. pose proof (blocks_off_mono q b ltac:(lia)). lia. }
  split.
  - intros bl Hbl. destruct (lookup_entry q bl Hbl) as (sep & h & He). symmetry. pose proof (off_S q bl Hbl) as HS.
    pose proof (upto_le bl x). apply upto_unique.
    + pose proof (blocks_off_le (S q)). lia.
    + intros i e Hi Hie. destruct (decide (i < off q)%nat); [by eapply Hbefore|].
      assert (i = (off q + (i - off q))%nat) as Ei by lia. rewrite Ei, (lookup_block q bl) in Hie by (done || lia).
      eapply (upto_before bl); [|exact Hie]. lia.
    + intros e Hie. destruct (decide (upto bl x < length bl)%nat).
      * rewrite (lookup_block q bl) in Hie by done. by apply upto_at in Hie.
      * destruct (block_of_position _ (lookup_lt_Some _ _ _ Hie)) as (b & bl' & p & Hb' & Hp & Ei).
        rewrite Ei, (lookup_block b bl') in Hie by done. destruct (decide (b <= q)%nat).
        -- pose proof (blocks_off_mono (S b) (S q) ltac:(lia)). rewrite (off_S b bl' Hb') in *. lia.
        -- pose proof (tw_above OK q b sep h bl' e ltac:(lia) He Hb' ltac:(by eapply list_elem_of_lookup_2)) as Ha.
           pose proof (Hq _ _ He). assert (user_int sep <= user_int e.1) by (apply numeric_keys; lia). lia.
  - intros Hn. symmetry. apply upto_unique; [lia| |intros e ?%lookup_lt_Some; lia]. rewrite <- (blocks_off_end q) by done. done.
Qed.

(** The block with the position, or the end. *)
Lemma skip_in_block t q bl p x t' :
  index_at t q → data_in t q bl p → (upto kvs x = off q + upto bl x)%nat → x = user_int t' →
  (∃ d d', w_iter (tl_data_iter t) = Some d ∧ op_SkipToNextUserKey data d t' = Ret d' ∧ RD q d' (upto bl x)) →
  ∃ r, (w ← Wrapper_SkipToNextUserKey data t' (tl_data_iter t);
        SkipEmptyDataBlocksForward index data block_function false rounds (with_data t w)) = Ret r ∧ two_at r (upto kvs x).
Proof using OK.
  intros Hi ((sep & He) & Hb & _) Hu -> (d & d' & Hd & E & HR). destruct (tw_block OK _ _ _ _ He Hb) as [HC _].
  unfold Wrapper_SkipToNextUserKey. rewrite Hd, E. cbn [mbind res_bind].
  destruct (Update_wrapped cmp data (RD q) bl d' _ (w_key (tl_data_iter t)) HR) as (w & -> & Hw). cbn [mbind res_bind].
  rewrite Hu. apply (skip_forward rounds (with_data t w) q bl); [exact Hi| |pose proof (tw_rounds OK); lia].
  split_and!; [by exists sep|done|exact Hw].
Qed.

Lemma TwoLevel_skip_end t x t' :
  index_at t (length entries) → x = user_int t' → upto kvs x = length kvs →
  ∃ r, (t ← InitDataBlock index data block_function t false;
        t ← match w_iter (tl_data_iter t) with
            | None => Ret t
            | Some _ => w ← Wrapper_SkipToNextUserKey data t' (tl_data_iter t); Ret (with_data t w)
            end;
        SkipEmptyDataBlocksForward index data block_function false rounds t) = Ret r ∧ two_at r (upto kvs x).
Proof using OK.
  intros Hi -> ->. pose proof (tw_rounds OK) as Hr. pose proof (tw_length OK) as Hl.
  destruct (InitDataBlock_end t _ Hi ltac:(lia)) as (t2 & -> & Hi2 & Hn & Hv). cbn [mbind res_bind]. rewrite Hn. cbn [mbind res_bind].
  unfold SkipEmptyDataBlocksForward. destruct rounds as [|fuel]; [lia|].
  apply (skip_end _ _ _ _ (length entries)); [done|lia|done].
Qed.

(** [InitDataBlock] keeps the data iterator or makes a fresh one. *)
Lemma InitDataBlock_cases t q blq :
  index_at t q → data_any t → bls !! q = Some blq →
  ∃ t', InitDataBlock index data block_function t false = Ret t' ∧ index_at t' q
    ∧ ((t' = t ∧ ∃ p, data_in t q blq p)
       ∨ ∃ d p sep h, entries !! q = Some (sep, h) ∧ block_function h false = Ret d
           ∧ w_iter (tl_data_iter t') = Some d ∧ data_in t' q blq p).
Proof using OK.
  intros Hi Hd Hb. destruct (InitDataBlock_at t q blq Hi Hd Hb) as (t' & p & E & Hi' & Hd').
  exists t'. split_and!; [done..|]. destruct (lookup_entry q blq Hb) as (sep & h & He). pose proof (tw_index OK) as HCI.
  unfold InitDataBlock in E. rewrite (proj1 (proj2 Hi)), bool_decide_eq_true_2 in E by (by eapply lookup_lt_Some).
  destruct (entry_wrapped cmp index RI entries _ _ _ _ Hi He) as [_ Hh]. rewrite Hh in E. cbn [mbind res_bind] in E.
  destruct (bool_decide (is_Some _) && _) eqn:Ec; [left; injection E as ->; eauto|right].
  destruct (tw_block OK q sep h blq He Hb) as [HC (d & p' & Ed & HR)]. rewrite Ed in E. cbn [mbind res_bind] in E.
  exists d, p, sep, h. split_and!; [done..| |done]. unfold SetDataIterator, Wrapper_Set in E. cbn [tl_data_iter with_handle] in E.
  unfold Wrapper_Update in E. destruct (op_Valid (iter_ops data) d); [destruct (op_key (iter_ops data) d)|];
    cbn [mbind res_bind] in E; by simplify_eq.
Qed.

Lemma index_user_sorted : user_sorted entries.
Proof using OK NumericKeys0. apply (sorted_user_sorted cmp), (tw_seps OK). Qed.

(** Behind the skip of the index. *)
Lemma skip_from t q x t' :
  index_at t q → data_any t → x = user_int t' →
  blocks_upto q x → (upto entries x <= q)%nat →
  (∀ bl p, data_in t q bl p → ∃ p', data_in t q bl p' ∧ (below bl x <= p' <= upto bl x)%nat) →
  ∃ r, (t ← InitDataBlock index data block_function t false;
        t ← match w_iter (tl_data_iter t) with
            | None => Ret t
            | Some _ => w ← Wrapper_SkipToNextUserKey data t' (tl_data_iter t); Ret (with_data t w)
            end;
        SkipEmptyDataBlocksForward index data block_function false rounds t) = Ret r ∧ two_at r (upto kvs x).
Proof using All.
  intros Hi Hd Ex Hbef Hq Hkept. destruct (upto_block q x Hbef) as [Hin Hend].
  { intros sep h He. pose proof (upto_spec entries index_user_sorted x q _ He) as H. cbn in H. lia. }
  destruct (bls !! q) as [bl|] eqn:Hb.
  - destruct (InitDataBlock_cases t q bl Hi Hd Hb) as (t1 & -> & Hi1 & Hcase). cbn [mbind res_bind].
    assert (∃ d d' p, data_in t1 q bl p ∧ w_iter (tl_data_iter t1) = Some d ∧ op_SkipToNextUserKey data d t' = Ret d'
              ∧ RD q d' (upto bl x)) as (d & d' & p & Hd1 & Ed & Esk & HR).
    { destruct Hcase as [(-> & p & Hp)|(d & p & sep & h & He & Ef & Ed & Hd1)].
      - destruct (Hkept bl p Hp) as (p' & Hp' & Hr). pose proof Hp' as (_ & _ & (d & Ed & HR) & _).
        pose proof (SD q bl Hb) as Hsk. rewrite Ex in Hr. destruct (skip_law d p' t' HR Hr) as (d' & E & HR').
        exists d, d', p'. rewrite Ex. by split_and!.
      - destruct (fresh q sep h bl d t' He Hb Ef) as (d' & E & HR). exists d, d', p. rewrite Ex. by split_and!. }
    destruct (skip_in_block t1 q bl p x t' Hi1 Hd1 (Hin bl eq_refl) Ex ltac:(eauto)) as (r & E & Hr).
    rewrite Ed. destruct (Wrapper_SkipToNextUserKey data t' (tl_data_iter t1)); cbn [mbind res_bind] in E |- *; eauto.
  - apply lookup_ge_None in Hb. pose proof (index_at_le _ _ Hi) as Hle. rewrite (tw_length OK) in Hle.
    assert (q = length entries) as -> by (rewrite (tw_length OK); lia). apply TwoLevel_skip_end; [done|done|].
    apply Hend. rewrite (tw_length OK). lia.
Qed.

(** Where index and data stand when a user key is skipped. *)
Lemma blocks_skip_position t i x :
  two_at t i → (below kvs x <= i <= upto kvs x)%nat →
  ∃ b, index_at t b ∧ (below entries x <= b)%nat ∧ blocks_upto b x
    ∧ ∀ q bl p, data_in t q bl p → (upto entries x <= q)%nat → blocks_upto q x →
        ∃ p', data_in t q bl p' ∧ (below bl x <= p' <= upto bl x)%nat.
Proof using All.
  intros Ht [Hlo Hhi]. unfold two_at in Ht. case_decide as Hlt.
  - destruct Ht as (b & bl & p & Hi & Hdi & Hp & ->). exists b. pose proof Hdi as ((sep & He) & Hbl & Hw).
    destruct (lookup_lt_is_Some_2 bl p Hp) as [e Hep].
    assert (kvs !! (off b + p)%nat = Some e) as Hk by (by rewrite (lookup_block b bl p)).
    pose proof (below_spec kvs Hsorted x _ e Hk) as Hbs. split_and!; [done| | |].
    + destruct (decide (b < below entries x)%nat) as [Hlt'|]; [|lia]. exfalso.
      pose proof (below_before _ _ _ _ Hlt' He) as H1. cbn in H1.
      pose proof (numeric_keys _ _ (tw_below OK _ _ _ _ e He Hbl ltac:(by eapply list_elem_of_lookup_2))). lia.
    + intros b' bl' e' Hlt' Hb' [p' He']%list_elem_of_lookup. pose proof (lookup_lt_Some _ _ _ He').
      apply (upto_before kvs x (off b' + p')).
      * pose proof (blocks_off_mono (S b') b ltac:(lia)). rewrite (off_S b' bl' Hb') in *. lia.
      * by rewrite (lookup_block b' bl' p').
    + intros q bl' p' Hdq Hq Hbq. pose proof Hdq as ((sep' & He') & Hbl' & _).
      pose proof (tw_handles OK _ _ _ _ _ He' He) as ->. simplify_eq. exists p. split; [done|].
      destruct (upto_block b x Hbq) as [Hin _].
      { intros sep0 h0 He0. pose proof (upto_spec entries index_user_sorted x b _ He0) as H. cbn in H. lia. }
      rewrite (Hin bl Hbl) in Hhi. split; [|lia]. destruct (decide (p < below bl x)%nat) as [Hlt'|]; [|lia].
      pose proof (below_before _ _ _ _ Hlt' Hep). lia.
  - destruct Ht as (-> & Hn & _ & Hi). exists (length entries). split_and!; [done|apply below_le| |].
    + intros b' bl' e' _ Hb' Hin. assert (e' ∈ kvs) as [g Hg]%list_elem_of_lookup.
      { apply elem_of_concat. exists bl'. split; [done|by eapply list_elem_of_lookup_2]. }
      apply (upto_before kvs x g); [|done]. apply lookup_lt_Some in Hg. lia.
    + intros q bl p (_ & _ & (d & Hd' & _) & _). congruence.
Qed.

Lemma two_SkipLaw : SkipLaw ops two_at kvs.
Proof using All.
  intros t i t' Ht Hr. cbn. unfold TwoLevel_SkipToNextUserKey. set (x := user_int t') in *.
  destruct (two_any _ _ Ht) as [Hd _]. pose proof (tw_index OK) as HCI.
  destruct (blocks_skip_position t i x Ht Hr) as (b & Hi & Hb & Hbef & Hkept).
  pose proof Hi as ((s & Es & HR) & _). destruct (skip_index_law s b t' HR Hb) as (s' & q & Esk & HRq & Hq).
  rewrite (Wrapper_Skip_eq _ _ _ _ _ Es Esk). fold x in Hq.
  destruct (Update_wrapped cmp index RI entries s' q (w_key (tl_index_iter t)) HRq) as (w & -> & Hw). cbn [mbind res_bind].
  assert (blocks_upto q x) as Hbef'.
  { intros b' bl e Hlt Hb' Hin. destruct (decide (b' < b)%nat); [by eapply Hbef|].
    destruct (lookup_entry b' bl Hb') as (sep & h & He).
    pose proof (numeric_keys _ _ (tw_below OK _ _ _ _ e He Hb' Hin)).
    pose proof (upto_spec entries index_user_sorted x b' _ He) as H1. cbn in H1. lia. }
  apply (skip_from _ q); [exact Hw|exact Hd|done|done|lia|]. intros bl p Hdq.
  destruct (Hkept q bl p Hdq ltac:(lia) Hbef') as (p' & Hp' & Hr'). by exists p'.
Qed.
End two_level_proofs.
