(* ===== verification/DbIter.v ===== *)
(** * DbIter: the entries of a database as its users see them

    [db/db_iter.cc].  The internal iterator yields all versions of all keys;
    [DBIter] shows one entry per user key.  The counter that samples reads is
    left out, it changes nothing else.  [rounds] bounds the loops over entries. *)

From S2P Require Import Prelude Coding Comparator Cursor NovaCommon DbFormat UserScan Merger MergeIter.

Record DBIter (S : Type) := mkDBIter {
  di_iter : S;
  di_status_ok : bool;
  di_saved_ikey : bytes;
  di_saved_value : bytes;
  di_direction : Direction;
  di_valid : bool
}.
Arguments mkDBIter {S} _ _ _ _ _ _.
Arguments di_iter {S} _.
Arguments di_status_ok {S} _.
Arguments di_saved_ikey {S} _.
Arguments di_saved_value {S} _.
Arguments di_direction {S} _.
Arguments di_valid {S} _.

(** [ExtractUserKey] with its assertion. *)
Definition user_key_of (internal_key : bytes) : res bytes :=
  if decide (8 <= length internal_key)%nat then Ret (ExtractUserKey internal_key) else Abort.

Section db_iter.
Context (user_comparator : Comparator) {S : Type} (it : Iter S).
Context (sequence_ key_end : Z) (rounds : nat).

Abbreviation dbi := (DBIter S).

Definition DBIter_init (iter : S) : dbi := mkDBIter iter true [] [] kForward false.

Definition iter_Valid (d : dbi) : bool := op_Valid (iter_ops it) (di_iter d).
Definition iter_key (d : dbi) : res bytes := op_key (iter_ops it) (di_iter d).
Definition iter_value (d : dbi) : res bytes := op_value (iter_ops it) (di_iter d).

Definition with_iter (d : dbi) (s : S) : dbi :=
  mkDBIter s (di_status_ok d) (di_saved_ikey d) (di_saved_value d) (di_direction d) (di_valid d).
Definition with_saved (d : dbi) (ikey value : bytes) : dbi :=
  mkDBIter (di_iter d) (di_status_ok d) ikey value (di_direction d) (di_valid d).
Definition with_valid (d : dbi) (valid : bool) : dbi :=
  mkDBIter (di_iter d) (di_status_ok d) (di_saved_ikey d) (di_saved_value d) (di_direction d) valid.
Definition with_direction (d : dbi) (direction : Direction) : dbi :=
  mkDBIter (di_iter d) (di_status_ok d) (di_saved_ikey d) (di_saved_value d) direction (di_valid d).
Definition with_corruption (d : dbi) : dbi :=
  mkDBIter (di_iter d) false (di_saved_ikey d) (di_saved_value d) (di_direction d) (di_valid d).

(** [saved_ikey_.clear()] with [valid_] set. *)
Definition finish (d : dbi) (valid : bool) : dbi := with_valid (with_saved d [] (di_saved_value d)) valid.

Definition move_iter (m : move) (d : dbi) : res dbi := s ← op_move (iter_ops it) (di_iter d) m; Ret (with_iter d s).

Definition DBIter_Valid (d : dbi) : bool := di_valid d.

Definition DBIter_key (d : dbi) : res bytes :=
  if di_valid d then
    k ← match di_direction d with kForward => iter_key d | kReverse => Ret (di_saved_ikey d) end;
    user_key_of k
  else Abort.

Definition DBIter_value (d : dbi) : res bytes :=
  if di_valid d then match di_direction d with kForward => iter_value d | kReverse => Ret (di_saved_value d) end
  else Abort.

Definition DBIter_status (d : dbi) : bool := if di_status_ok d then op_status_ok it (di_iter d) else false.

(** [ParseKey]: an unparsable key sets the status. *)
Definition ParseKey (d : dbi) : res (dbi * option ParsedInternalKey) :=
  k ← iter_key d;
  _ ← iter_value d;
  match ParseInternalKey k with
  | None => Ret (with_corruption d, None)
  | Some ikey => Ret (d, Some ikey)
  end.

(** [ParseKey(&ikey) && ikey.sequence <= sequence_] *)
Definition ParseVisible (d : dbi) : res (dbi * option ParsedInternalKey) :=
  '(d, p) ← ParseKey d;
  Ret (d, match p with
          | Some ikey => if decide (sequence ikey <= sequence_) then Some ikey else None
          | None => None
          end).

Definition GoToNextEntry (d : dbi) : res (dbi * bool) :=
  if iter_Valid d then
    if decide (di_direction d = kForward) then
      let current_key := di_saved_ikey d in
      d ← move_iter Next d;
      if iter_Valid d then
        '(d, p) ← ParseVisible d;
        match p with
        | Some (mkParsed user_key _ kTypeValue) =>
            cur ← user_key_of current_key;
            if decide (Compare user_key cur <= 0) then Ret (d, false) else Ret (finish d true, true)
        | _ => Ret (d, false)
        end
      else Ret (finish d false, false)
    else Abort
  else Abort.

Definition DBIter_Next (d : dbi) : res dbi :=
  if di_valid d then
    match di_direction d with
    | kReverse =>
        let d := with_direction d kForward in
        d ← (if iter_Valid d then move_iter Next d else move_iter SeekToFirst d);
        if iter_Valid d then Ret d else Ret (finish d false)
    | kForward =>
        ikey ← iter_key d;
        let d := with_saved d ikey (di_saved_value d) in
        ukey ← user_key_of ikey;
        if decide (key_int ukey = w64 (key_end - 1)) then Ret (finish d false)
        else
          '(d, found) ← GoToNextEntry d;
          d ← (if negb found && iter_Valid d then
                 s ← op_SkipToNextUserKey it (di_iter d) (di_saved_ikey d); Ret (with_iter d s)
               else Ret d);
          if iter_Valid d then Ret d else Ret (finish d false)
    end
  else Abort.

(** [FindNextUserEntry(skipping, &saved_ikey_)]: the loop, after a round at a
    time; [saved_ikey_] holds the key to skip. *)
Fixpoint FindNextUserEntry_loop (fuel : nat) (skipping : bool) (d : dbi) : res dbi :=
  match fuel with
  | O => Abort
  | Datatypes.S fuel =>
      '(d, p) ← ParseVisible d;
      '(d, skipping, stop) ← match p with
        | Some (mkParsed user_key _ kTypeDeletion) => Ret (with_saved d user_key (di_saved_value d), true, false)
        | Some (mkParsed user_key _ kTypeValue) =>
            hidden ← (if skipping then
                        skip ← user_key_of (di_saved_ikey d); Ret (bool_decide (Compare user_key skip <= 0))
                      else Ret false);
            if (hidden : bool) then Ret (d, skipping, false) else Ret (finish d true, skipping, true)
        | None => Ret (d, skipping, false)
        end;
      if (stop : bool) then Ret d
      else
        d ← move_iter Next d;
        if iter_Valid d then FindNextUserEntry_loop fuel skipping d else Ret (finish d false)
  end.

Definition FindNextUserEntry (skipping : bool) (d : dbi) : res dbi :=
  if iter_Valid d then
    if decide (di_direction d = kForward) then FindNextUserEntry_loop rounds skipping d else Abort
  else Abort.

(** The loop of [FindPrevUserEntry]; [value_type] starts as a deletion. *)
Fixpoint FindPrevUserEntry_loop (fuel : nat) (value_type : ValueType) (d : dbi) : res (dbi * ValueType) :=
  match fuel with
  | O => Abort
  | Datatypes.S fuel =>
      '(d, p) ← ParseVisible d;
      '(d, value_type, stop) ← match p with
        | None => Ret (d, value_type, false)
        | Some (mkParsed user_key _ type) =>
            before ← (match value_type with
                      | kTypeDeletion => Ret false
                      | kTypeValue => saved ← user_key_of (di_saved_ikey d); Ret (bool_decide (Compare user_key saved < 0))
                      end);
            if (before : bool) then Ret (d, value_type, true)
            else
              match type with
              | kTypeDeletion => Ret (with_saved d [] [], kTypeDeletion, false)
              | kTypeValue => k ← iter_key d; v ← iter_value d; Ret (with_saved d k v, kTypeValue, false)
              end
        end;
      if (stop : bool) then Ret (d, value_type)
      else
        d ← move_iter Prev d;
        if iter_Valid d then FindPrevUserEntry_loop fuel value_type d else Ret (d, value_type)
  end.

Definition FindPrevUserEntry (d : dbi) : res dbi :=
  if decide (di_direction d = kReverse) then
    '(d, value_type) ← (if iter_Valid d then FindPrevUserEntry_loop rounds kTypeDeletion d else Ret (d, kTypeDeletion));
    match value_type with
    | kTypeDeletion => Ret (with_direction (with_valid (with_saved d [] []) false) kForward)
    | kTypeValue => Ret (with_valid d true)
    end
  else Abort.

(** The loop of [Prev] that leaves the entries of the current key, and whether
    there is an entry before them. *)
Fixpoint leave_key (fuel : nat) (d : dbi) : res (dbi * bool) :=
  match fuel with
  | O => Abort
  | Datatypes.S fuel =>
      d ← move_iter Prev d;
      if iter_Valid d then
        k ← iter_key d;
        u ← user_key_of k;
        saved ← user_key_of (di_saved_ikey d);
        if decide (Compare u saved < 0) then Ret (d, true) else leave_key fuel d
      else Ret (d, false)
  end.

Definition DBIter_Prev (d : dbi) : res dbi :=
  if di_valid d then
    match di_direction d with
    | kReverse => FindPrevUserEntry d
    | kForward =>
        if iter_Valid d then
          k ← iter_key d;
          let d := with_saved d k (di_saved_value d) in
          '(d, found) ← leave_key rounds d;
          if (found : bool) then FindPrevUserEntry (with_direction d kReverse)
          else Ret (with_valid (with_saved d [] []) false)
        else Abort
    end
  else Abort.

Definition DBIter_Seek (d : dbi) (target : bytes) : res dbi :=
  let d := with_direction d kForward in
  let ikey := AppendInternalKey [] (mkParsed target sequence_ kValueTypeForSeek) in
  let d := with_saved d ikey [] in
  d ← move_iter (Seek ikey) d;
  if iter_Valid d then FindNextUserEntry false d else Ret (with_valid d false).

Definition DBIter_SeekToFirst (d : dbi) : res dbi :=
  let d := with_saved (with_direction d kForward) (di_saved_ikey d) [] in
  d ← move_iter SeekToFirst d;
  if iter_Valid d then FindNextUserEntry false d else Ret (with_valid d false).

Definition DBIter_SeekToLast (d : dbi) : res dbi :=
  let d := with_saved (with_direction d kReverse) (di_saved_ikey d) [] in
  d ← move_iter SeekToLast d;
  FindPrevUserEntry d.
End db_iter.

(** ** Forward scans *)

(** The entries of the newest version of every user key, as a scan shows them. *)
Fixpoint first_versions (last : option Z) (l : list kv) : list kv :=
  match l with
  | [] => []
  | e :: l => if decide (last = Some (user_int e.1)) then first_versions last l
              else (ExtractUserKey e.1, e.2) :: first_versions (Some (user_int e.1)) l
  end.

(** A value that the snapshot sees. *)
Definition visible_value (sequence_ : Z) (e : kv) : Prop :=
  ∃ u q, e.1 = InternalKey_make u q kTypeValue ∧ seq_ok q ∧ q <= sequence_.

(** [Seek(target)] and [n] times [Next()]. *)
Fixpoint scan_next {S} (U : Comparator) (it : Iter S) (sequence_ key_end : Z) (n : nat) (d : DBIter S) :
    res (DBIter S) :=
  match n with
  | O => Ret d
  | Datatypes.S n => d ← DBIter_Next U it sequence_ key_end d; scan_next U it sequence_ key_end n d
  end.

Lemma upto_drop l x i : (i <= upto l x)%nat → (i + upto (drop i l) x)%nat = upto l x.
Proof.
  revert i. induction l as [|e l IH]; intros [|i]; cbn; try lia. case_decide; [|lia]. intros Hi. rewrite IH; lia.
Qed.

Lemma upto_all l x : Forall (λ e : kv, user_int e.1 <= x) l → upto l x = length l.
Proof. induction 1 as [|e l He _ IH]; cbn; [done|]. rewrite decide_True by done. by rewrite IH. Qed.

Lemma newest_some x l :
  user_sorted l → (∀ e, e ∈ l → x <= user_int e.1) → first_versions (Some x) l = first_versions None (drop (upto l x) l).
Proof.
  intros Hs Hx. induction Hs as [|e l Hs IH Hall]; [done|]. cbn [first_versions upto].
  destruct (decide (Some x = Some (user_int e.1))) as [[= ->]|Hne].
  - rewrite decide_True by lia. cbn. apply IH. intros f Hf. apply Hx. set_solver.
  - assert (x < user_int e.1) by (pose proof (Hx e ltac:(set_solver)); destruct (decide (x = user_int e.1)); [congruence|lia]).
    rewrite decide_False by lia. done.
Qed.

Lemma user_key_of_make u q t : user_key_of (InternalKey_make u q t) = Ret u.
Proof.
  unfold user_key_of. rewrite InternalKey_make_user_key, decide_True; [done|].
  unfold InternalKey_make, AppendInternalKey, PutFixed64. rewrite !length_app, length_EncodeFixed64. lia.
Qed.

Section scan.
Abbreviation U := YCSBKeyComparator.
Abbreviation icmp := (InternalKeyComparator YCSBKeyComparator).
Context {S : Type} (it : Iter S) (kvs : list kv) (F : S → nat → Prop) (HF : ForwardCursor icmp it kvs F).
Context (sequence_ key_end : Z) (Hseq : seq_ok sequence_) (rounds : nat).
Hypothesis sorted : StronglySorted (λ a b : kv, icmp.(Compare) a.1 b.1 < 0) kvs.
Hypothesis visible : Forall (visible_value sequence_) kvs.

Let Hu : user_sorted kvs := sorted_user_sorted icmp kvs sorted.

Local Abbreviation valid_at := (@fw_valid _ _ _ _ _ HF).
Local Abbreviation entry_at := (@fw_entry _ _ _ _ _ HF).
Local Abbreviation next_at := (@fw_next _ _ _ _ _ HF).
Local Abbreviation seek_at := (@fw_seek _ _ _ _ _ HF).
Local Abbreviation skip_at := (@fw_skip _ _ _ _ _ HF).

Lemma entry_visible i e : kvs !! i = Some e → visible_value sequence_ e.
Proof using visible. rewrite Forall_lookup in visible. apply visible. Qed.

Lemma visible_user e : visible_value sequence_ e → user_key_of e.1 = Ret (ExtractUserKey e.1).
Proof.
  intros (u & q & -> & _). by rewrite user_key_of_make, InternalKey_make_user_key.
Qed.

Lemma visible_parse e :
  visible_value sequence_ e → ∃ q, ParseInternalKey e.1 = Some (mkParsed (ExtractUserKey e.1) q kTypeValue) ∧ q <= sequence_.
Proof.
  intros (u & q & -> & Hq & Hle). exists q. split; [|done]. rewrite InternalKey_make_user_key. unfold InternalKey_make.
  by rewrite AppendInternalKey_parse.
Qed.

Lemma Compare_user a b : U.(Compare) (ExtractUserKey a) (ExtractUserKey b) <= 0 ↔ user_int a <= user_int b.
Proof. cbn. unfold YCSB_Compare, user_int, key_int. repeat case_decide; lia. Qed.

(** The iterator shows the entry at position [i], the first of its user key. *)
Record shown_at (d : DBIter S) (i : nat) : Prop := {
  sa_iter : F (di_iter d) i;
  sa_direction : di_direction d = kForward;
  sa_valid : di_valid d = bool_decide (i < length kvs)%nat;
  sa_status : di_status_ok d = true
}.

Lemma shown_entry d i k v :
  shown_at d i → kvs !! i = Some (k, v) →
  DBIter_Valid d = true ∧ DBIter_key it d = Ret (ExtractUserKey k) ∧ DBIter_value it d = Ret v.
Proof using HF visible.
  intros [HR Hd Hv _] Hkv. pose proof (lookup_lt_Some _ _ _ Hkv) as Hi. rewrite bool_decide_eq_true_2 in Hv by done.
  destruct (entry_at _ _ _ _ HR Hkv) as [Ek Ev]. unfold DBIter_Valid, DBIter_key, DBIter_value, iter_key, iter_value.
  rewrite Hv, Hd, Ek, Ev. cbn [mbind res_bind]. split_and!; [done| |done].
  apply (visible_user (k, v)). by eapply entry_visible.
Qed.

Lemma ParseVisible_at d i e :
  F (di_iter d) i → kvs !! i = Some e →
  ∃ q, ParseVisible it sequence_ d = Ret (d, Some (mkParsed (ExtractUserKey e.1) q kTypeValue)).
Proof using HF visible.
  intros HR He. destruct e as [k v]. destruct (entry_at _ _ _ _ HR He) as [Ek Ev].
  destruct (visible_parse (k, v)) as (q & Ep & Hq); [by eapply entry_visible|]. exists q.
  unfold ParseVisible, ParseKey, iter_key, iter_value. rewrite Ek, Ev. cbn [mbind res_bind fst] in *. rewrite Ep.
  cbn [mbind res_bind]. by rewrite decide_True.
Qed.

Lemma Seek_shown d i target :
  F (di_iter d) i → di_status_ok d = true → (0 < rounds)%nat →
  ∃ d', DBIter_Seek U it sequence_ rounds d target = Ret d' ∧ shown_at d' (below kvs (key_int target)).
Proof using All.
  intros HR Hs Hr. unfold DBIter_Seek, move_iter. cbn [di_iter with_saved with_direction].
  set (ikey := AppendInternalKey [] _). assert (user_int ikey = key_int target) as Hui.
  { unfold user_int, ikey. f_equal. apply InternalKey_make_user_key. }
  destruct (seek_at _ _ ikey HR) as (s & -> & HF'). cbn [mbind res_bind].
  assert (lower_bound icmp kvs ikey = below kvs (key_int target)) as Hlb.
  { apply below_unique; [apply lower_bound_le| |].
    - intros j e Hj He. pose proof (proj2 (lower_bound_user icmp kvs ikey Hu)) as _.
      destruct e as [k v]. pose proof (lower_bound_before _ _ _ _ _ _ Hj He) as Hc.
      destruct (entry_visible _ _ He) as (u & q & Ek & Hq & Hle). cbn [fst] in Ek |- *. subst k.
      change ikey with (InternalKey_make target sequence_ kValueTypeForSeek) in Hc. cbn [Compare InternalKeyComparator] in Hc.
      rewrite icmp_lt, !InternalKey_make_user_key, !InternalKey_make_tag in Hc by done. unfold user_int.
      rewrite InternalKey_make_user_key. cbn [Compare YCSBKeyComparator] in Hc. unfold YCSB_Compare in Hc.
      unfold kValueTypeForSeek, key_int in *. repeat case_decide; lia.
    - intros e He. destruct e as [k v]. pose proof (lower_bound_at _ _ _ _ _ He) as Hc.
      apply cmp_not_lt, numeric_keys in Hc. rewrite Hui in Hc. done. }
  rewrite Hlb in HF'. set (j := below kvs (key_int target)) in *. cbn [iter_Valid di_iter with_iter].
  unfold iter_Valid. cbn [di_iter with_iter]. rewrite (valid_at _ _ HF'). case_bool_decide as Hj.
  - destruct (lookup_lt_is_Some_2 kvs j Hj) as [e He]. unfold FindNextUserEntry, iter_Valid. cbn [di_iter with_iter].
    rewrite (valid_at _ _ HF'), bool_decide_eq_true_2, decide_True by done. destruct rounds as [|fuel]; [lia|].
    cbn [FindNextUserEntry_loop]. destruct (ParseVisible_at (with_iter (with_saved (with_direction d kForward) ikey []) s) j e HF' He) as [q ->].
    cbn [mbind res_bind]. eexists. split; [done|]. split; [exact HF'|done| |done]. cbn. by rewrite bool_decide_eq_true_2.
  - eexists. split; [done|]. split; [exact HF'|done| |done]. cbn. by rewrite bool_decide_eq_false_2.
Qed.

Lemma entry_bounds i e :
  kvs !! i = Some e → (below kvs (user_int e.1) <= i < upto kvs (user_int e.1))%nat.
Proof using sorted.
  intros He. split; [|by eapply upto_spec; [exact Hu|exact He|lia]].
  destruct (decide (i < below kvs (user_int e.1))%nat) as [Hlt|]; [|lia].
  pose proof (below_before _ _ _ _ Hlt He). lia.
Qed.

(** One entry forward from an entry with the key [saved_ikey_]. *)
Lemma GoToNextEntry_at d i k v :
  F (di_iter d) i → di_direction d = kForward → kvs !! i = Some (k, v) → di_saved_ikey d = k →
  ∃ d' found, GoToNextEntry U it sequence_ d = Ret (d', found) ∧
    F (di_iter d') (Datatypes.S i) ∧ di_direction d' = kForward ∧ di_status_ok d' = di_status_ok d ∧
    if decide (length kvs <= Datatypes.S i)%nat then di_valid d' = false
    else if decide (Datatypes.S i < upto kvs (user_int k))%nat then
      found = false ∧ di_valid d' = di_valid d ∧ di_saved_ikey d' = k
    else found = true ∧ di_valid d' = true.
Proof using All.
  intros HR Hd He Hk. pose proof (lookup_lt_Some _ _ _ He) as Hi.
  pose proof (visible_user _ (entry_visible _ _ He)) as Eu. cbn [fst] in Eu.
  unfold GoToNextEntry, iter_Valid, move_iter. rewrite (valid_at _ _ HR), bool_decide_eq_true_2, decide_True, Hk by done.
  destruct (next_at _ _ HR Hi) as (s1 & -> & HF1). cbn [mbind res_bind di_iter with_iter].
  rewrite (valid_at _ _ HF1). case_bool_decide as Hi1; cycle 1.
  { do 2 eexists. split; [done|]. rewrite decide_True by lia. done. }
  destruct (decide (length kvs <= _)%nat); [lia|].
  destruct (lookup_lt_is_Some_2 kvs _ Hi1) as [[k1 v1] He1].
  edestruct (ParseVisible_at (with_iter d s1)) as [q Eq]; [exact HF1|exact He1|]. rewrite Eq.
  cbn [mbind res_bind]. rewrite Eu. cbn [mbind res_bind fst].
  pose proof (upto_spec _ Hu (user_int k) _ _ He1) as Hspec. cbn [fst] in Hspec.
  destruct (decide (user_int k1 <= user_int k)) as [Hk1|Hk1].
  - rewrite (decide_True (P := Compare _ _ <= 0)) by (by apply Compare_user). do 2 eexists. split; [done|].
    rewrite decide_True by (by apply Hspec). done.
  - rewrite (decide_False (P := Compare _ _ <= 0)) by (by rewrite Compare_user). do 2 eexists. split; [done|].
    rewrite decide_False by (by rewrite <- Hspec). done.
Qed.

(** A step of the scan from an entry of a user key to the first entry of the
    next one. *)
Lemma Next_shown d i e :
  shown_at d i → kvs !! i = Some e →
  ∃ d', DBIter_Next U it sequence_ key_end d = Ret d' ∧
    (if decide (user_int e.1 = w64 (key_end - 1)) then di_valid d' = false
     else shown_at d' (upto kvs (user_int e.1))).
Proof using All.
  intros [HR Hd Hv Hs] He. pose proof (entry_bounds _ _ He) as Hb. destruct e as [k v]. cbn [fst] in *.
  pose proof (upto_le kvs (user_int k)) as Hle. destruct (entry_at _ _ _ _ HR He) as [Ek Ev].
  pose proof (visible_user _ (entry_visible _ _ He)) as Eu. cbn [fst] in Eu.
  unfold DBIter_Next, iter_key. rewrite Hv, Hd, Ek, bool_decide_eq_true_2 by lia. cbn [mbind res_bind]. rewrite Eu.
  cbn [mbind res_bind]. change (key_int (ExtractUserKey k)) with (user_int k). destruct (decide _); [eauto|].
  destruct (GoToNextEntry_at (with_saved d k (di_saved_value d)) i k v) as (d1 & found & -> & HF1 & Hd1 & Hs1 & Hc); [done..|].
  cbn [mbind res_bind]. unfold iter_Valid. rewrite (valid_at _ _ HF1). destruct (decide (length kvs <= _)%nat).
  { rewrite bool_decide_eq_false_2, andb_false_r by lia. cbn [mbind res_bind]. rewrite (valid_at _ _ HF1), bool_decide_eq_false_2 by lia.
    eexists. split; [done|]. replace (upto kvs (user_int k)) with (Datatypes.S i) by lia.
    split; cbn; [done..| |cbn in *; congruence]. by rewrite bool_decide_eq_false_2 by lia. }
  rewrite bool_decide_eq_true_2 by lia. destruct (decide (Datatypes.S i < _)%nat) as [Hlt|].
  - destruct Hc as (-> & Hv1 & ->). cbn [negb andb].
    destruct (skip_at _ _ k HF1) as (s2 & -> & HF2); [lia..|]. cbn [mbind res_bind di_iter with_iter].
    rewrite (valid_at _ _ HF2). cbn in Hv1, Hs1.
    destruct (bool_decide_reflect (upto kvs (user_int k) < length kvs)%nat) as [Hj|Hj]; (eexists; split; [done|]);
      split; cbn; try done; try congruence.
    + by rewrite Hv1, Hv, !bool_decide_eq_true_2 by lia.
    + by rewrite bool_decide_eq_false_2.
  - destruct Hc as [-> Hv1]. cbn [negb andb mbind res_bind]. rewrite (valid_at _ _ HF1), bool_decide_eq_true_2 by lia.
    eexists. split; [done|]. replace (upto kvs (user_int k)) with (Datatypes.S i) by lia.
    split; cbn; [done..| |cbn in *; congruence]. by rewrite Hv1, bool_decide_eq_true_2 by lia.
Qed.

(** What remains of the scan: the first versions of the keys from [i] on. *)
Definition scanning (d : DBIter S) (rest : list kv) : Prop :=
  match rest with
  | [] => di_valid d = false
  | _ => ∃ i, shown_at d i ∧ first_versions None (drop i kvs) = rest
  end.

Hypothesis range : Forall (λ e : kv, user_int e.1 < key_end) kvs.
Hypothesis key_end_64 : 0 <= key_end - 1 < 2 ^ 64.

Lemma newest_step i e :
  kvs !! i = Some e →
  first_versions None (drop i kvs) = (ExtractUserKey e.1, e.2) :: first_versions None (drop (upto kvs (user_int e.1)) kvs).
Proof using sorted.
  intros He. pose proof (entry_bounds _ _ He) as Hb. rewrite (drop_S _ _ _ He). cbn [first_versions].
  rewrite decide_False by done. f_equal. rewrite newest_some.
  - rewrite drop_drop. do 2 f_equal. apply upto_drop. lia.
  - apply StronglySorted_lookup. intros j j' f f' Hj Hf Hf'. rewrite lookup_drop in Hf, Hf'.
    eapply (user_le _ Hu (Datatypes.S i + j) (Datatypes.S i + j')); [lia|done..].
  - intros f (j & Hf)%list_elem_of_lookup. rewrite lookup_drop in Hf.
    eapply (user_le _ Hu i (Datatypes.S i + j)); [lia|done..].
Qed.

Lemma shown_scanning d i : shown_at d i → scanning d (first_versions None (drop i kvs)).
Proof using All.
  intros Hd. destruct (kvs !! i) as [e|] eqn:He.
  - rewrite (newest_step _ _ He). cbn. exists i. split; [done|]. by apply newest_step.
  - apply lookup_ge_None in He. rewrite drop_ge by done. cbn. rewrite (sa_valid _ _ Hd). apply bool_decide_eq_false_2. lia.
Qed.

Lemma scanning_next d kv' rest :
  scanning d (kv' :: rest) → ∃ d', DBIter_Next U it sequence_ key_end d = Ret d' ∧ scanning d' rest.
Proof using All.
  intros (i & Hd & En). destruct (kvs !! i) as [e|] eqn:He.
  - rewrite (newest_step _ _ He) in En. injection En as _ <-. destruct (Next_shown d i e Hd He) as (d' & E & Hd').
    exists d'. split; [done|]. destruct (decide _) as [Hlast|]; [|by apply shown_scanning].
    rewrite w64_small in Hlast by mlia. replace (upto kvs (user_int e.1)) with (length kvs); [by rewrite drop_all|].
    symmetry. apply upto_all. eapply Forall_impl; [exact range|]. cbn. intros f. lia.
  - apply lookup_ge_None in He. by rewrite drop_ge in En by done.
Qed.

Lemma scan_next_at n d l :
  scanning d l → (n <= length l)%nat → ∃ d', scan_next U it sequence_ key_end n d = Ret d' ∧ scanning d' (drop n l).
Proof using All.
  revert d l. induction n as [|n IH]; intros d l Hd Hn; cbn [scan_next]; [by eauto|].
  destruct l as [|e l]; [cbn in Hn; lia|]. destruct (scanning_next _ _ _ Hd) as (d' & -> & Hd').
  cbn [mbind res_bind drop]. apply IH; [done|cbn in Hn; lia].
Qed.

Lemma scanning_shows d l :
  scanning d l → DBIter_Valid d = bool_decide (0 < length l)%nat ∧
    ∀ k v, l !! 0%nat = Some (k, v) → DBIter_key it d = Ret k ∧ DBIter_value it d = Ret v.
Proof using All.
  destruct l as [|[k v] l]; cbn; [done|]. intros (i & Hd & En). destruct (kvs !! i) as [[k' v']|] eqn:He.
  - rewrite (newest_step _ _ He) in En. simplify_eq/=. destruct (shown_entry _ _ _ _ Hd He) as (Hv & Ek & Ev).
    split; [done|]. by intros ?? [= <- <-].
  - apply lookup_ge_None in He. by rewrite drop_ge in En by done.
Qed.
End scan.



Lemma user_int_make u q t : user_int (InternalKey_make u q t) = key_int u.
Proof. unfold user_int. by rewrite InternalKey_make_user_key. Qed.

(** One entry forward to an entry that must be hidden. *)
Lemma GoToNextEntry_hidden {S} (it : Iter S) kvs F d i u q t v sequence_ :
  ForwardCursor (InternalKeyComparator YCSBKeyComparator) it kvs F →
  F (di_iter d) i → di_direction d = kForward → (i < length kvs)%nat →
  kvs !! Datatypes.S i = Some (InternalKey_make u q t, v) → seq_ok q → t = kTypeDeletion ∨ sequence_ < q →
  ∃ s, GoToNextEntry YCSBKeyComparator it sequence_ d = Ret (with_iter d s, false) ∧ F s (Datatypes.S i).
Proof.
  intros HF HR Hd Hi H1 Hq Hhid. destruct (@fw_next _ _ _ _ _ HF _ _ HR Hi) as (s & Es & HF1). exists s. split; [|done].
  destruct (@fw_entry _ _ _ _ _ HF _ _ _ _ HF1 H1) as [Ek1 Ev1]. unfold GoToNextEntry, iter_Valid, move_iter.
  rewrite (@fw_valid _ _ _ _ _ HF _ _ HR), bool_decide_eq_true_2, decide_True, Es by done. cbn [mbind res_bind di_iter with_iter].
  rewrite (@fw_valid _ _ _ _ _ HF _ _ HF1), bool_decide_eq_true_2 by (by eapply lookup_lt_Some).
  unfold ParseVisible, ParseKey, iter_key, iter_value. cbn [di_iter with_iter]. rewrite Ek1, Ev1. cbn [mbind res_bind].
  unfold InternalKey_make. rewrite AppendInternalKey_parse by done. cbn [mbind res_bind sequence].
  destruct (decide (q <= sequence_)); [|done]. destruct Hhid as [->|]; [done|lia].
Qed.

(** C37. [Next()] shows entries that the snapshot must not see.  When the entry
    behind the shown one belongs to another user key and is a deletion, or is
    newer than the snapshot, the iterator stops at it and presents its user key
    and value as an entry of the database. *)
Theorem db_iter_shows_hidden {S} (it : Iter S) kvs F d i u0 q0 v0 u q t v sequence_ key_end :
  ForwardCursor (InternalKeyComparator YCSBKeyComparator) it kvs F → user_sorted kvs →
  F (di_iter d) i → di_valid d = true → di_direction d = kForward →
  kvs !! i = Some (InternalKey_make u0 q0 kTypeValue, v0) → key_int u0 ≠ w64 (key_end - 1) →
  kvs !! Datatypes.S i = Some (InternalKey_make u q t, v) → seq_ok q → key_int u0 ≠ key_int u →
  t = kTypeDeletion ∨ sequence_ < q →
  ∃ d', DBIter_Next YCSBKeyComparator it sequence_ key_end d = Ret d'
    ∧ DBIter_Valid d' = true ∧ DBIter_key it d' = Ret u ∧ DBIter_value it d' = Ret v.
Proof.
  intros HF Hu HR Hv Hd H0 Hend H1 Hq Hne Hhid. pose proof (lookup_lt_Some _ _ _ H0) as Hi.
  pose proof (lookup_lt_Some _ _ _ H1) as Hi1. pose proof (user_key_of_make u0 q0 kTypeValue) as Eu.
  pose proof (user_int_make u0 q0 kTypeValue) as E0. set (k0 := InternalKey_make u0 q0 kTypeValue) in *.
  assert (upto kvs (user_int k0) = Datatypes.S i) as Hup.
  { pose proof (user_le kvs Hu i (Datatypes.S i) _ _ ltac:(lia) H0 H1) as Hle. cbn [fst] in Hle.
    rewrite user_int_make in Hle. symmetry. apply upto_unique; [lia| |].
    - intros j e Hj He. exact (user_le kvs Hu j i _ _ ltac:(lia) He H0).
    - intros e He. rewrite H1 in He. injection He as <-. cbn [fst]. rewrite user_int_make. lia. }
  destruct (@fw_entry _ _ _ _ _ HF _ _ _ _ HR H0) as [Ek _]. unfold DBIter_Next, iter_key. rewrite Hv, Hd, Ek.
  cbn [mbind res_bind]. rewrite Eu. cbn [mbind res_bind]. rewrite decide_False by done.
  destruct (GoToNextEntry_hidden it kvs F (with_saved d k0 (di_saved_value d)) i u q t v sequence_)
    as (s1 & -> & HF1); [done..|].
  cbn [mbind res_bind negb andb]. unfold iter_Valid. cbn [di_iter with_iter di_saved_ikey with_saved].
  rewrite (@fw_valid _ _ _ _ _ HF _ _ HF1), bool_decide_eq_true_2 by done.
  destruct (@fw_skip _ _ _ _ _ HF s1 (Datatypes.S i) k0 HF1 Hi1) as (s2 & -> & HF2); [pose proof (below_upto kvs (user_int k0)); lia|].
  rewrite Hup in HF2. cbn [mbind res_bind di_iter with_iter]. rewrite (@fw_valid _ _ _ _ _ HF _ _ HF2), bool_decide_eq_true_2 by done.
  eexists. split; [done|]. destruct (@fw_entry _ _ _ _ _ HF _ _ _ _ HF2 H1) as [Ek2 Ev2].
  unfold DBIter_Valid, DBIter_key, DBIter_value, iter_key, iter_value.
  cbn [di_iter with_iter with_saved di_valid di_direction]. rewrite Hv, Hd, Ek2, Ev2. cbn [mbind res_bind].
  by rewrite user_key_of_make.
Qed.

Lemma db_iter_shows_hidden_witness :
  let kvs := [(InternalKey_make [49] 1 kTypeValue, [10]); (InternalKey_make [50] 3 kTypeDeletion, []);
              (InternalKey_make [50] 2 kTypeValue, [20])] in
  let it := list_iter (InternalKeyComparator YCSBKeyComparator) kvs in
  ∃ d', DBIter_Next YCSBKeyComparator it 9 100 (mkDBIter 0%nat true [] [] kForward true) = Ret d'
    ∧ DBIter_Valid d' = true ∧ DBIter_key it d' = Ret [50] ∧ DBIter_value it d' = Ret [].
Proof.
  intros kvs it.
  apply (db_iter_shows_hidden it kvs (list_at kvs) _ 0 [49] 1 [10] [50] 3 kTypeDeletion []); try done.
  - apply Cursor_Forward; [apply list_Cursor|apply list_SkipLaw].
  - repeat constructor; by vm_compute.
  - split; [done|cbn; lia].
  - left; done.
Defined.
