(* ===== verification/MemTable.v ===== *)
(** * MemTable: recent writes in memory

    [db/memtable.h] and [db/memtable.cc]: entries in a skip list, snapshot
    lookups and iterators.  A key of the skip list, a [const char *] into the arena, is
    the bytes of the entry it points to. *)

From S2P Require Import Prelude Coding SkipList Arena Comparator NovaCommon DbFormat.

(** ** Entries *)

(** [GetLengthPrefixedSlice(data)]: the slice and the bytes that follow it; the
    source assumes that the length is well formed. *)
Definition PrefixedSlice (data : bytes) : bytes * bytes :=
  match GetVarint32Ptr data with
  | Some (len, p) => (take (Z.to_nat len) p, drop (Z.to_nat len) p)
  | None => ([], [])
  end.

(** [MemTable::KeyComparator]. *)
Definition MemTable_KeyComparator (U : Comparator) (aptr bptr : bytes) : Z :=
  InternalKey_Compare U (PrefixedSlice aptr).1 (PrefixedSlice bptr).1.

(** [EncodeKey(scratch, target)]. *)
Definition EncodeKey (target : bytes) : bytes := PutVarint32 [] (w32 (size_of target)) ++ target.

(** The bytes [Add] stores in the arena. *)
Definition encode_entry (s : Z) (type : ValueType) (key value : bytes) : bytes :=
  EncodeVarint32 (w32 (size_of key + 8)) ++ key ++ EncodeFixed64 (PackSequenceAndType s type)
  ++ EncodeVarint32 (w32 (size_of value)) ++ value.

(** ** The memtable *)

Record MemTable := mkMemTable {
  table_ : SkipList bytes;
  arena_ : Arena;
  refs_ : Z;
  memtable_id_ : Z;
  is_ready_ : bool
}.

Inductive GetResult := NotPresent | Value (v : bytes) | Deleted.

Section memtable.
Context (U : Comparator) (new_char : list (Z * Z) → Z → Z).
Local Abbreviation kcmp := (MemTable_KeyComparator U).

(** [NewNode(key, height)] allocates the key pointer and the links. *)
Definition node_bytes (height : nat) : Z := 16 + 8 * (Z.of_nat height - 1).

(** [MemTable(comparator, memtable_id, db_profiler, is_ready)]. *)
Definition MemTable_init (memtable_id : Z) (is_ready : bool) : res MemTable :=
  '(arena, _) ← AllocateAligned new_char Arena_init (node_bytes kMaxHeight);
  Ret (mkMemTable (SkipList_init []) arena 0 memtable_id is_ready).

(** [WaitUntilReady()]: [Fail] while the caller waits. *)
Definition WaitUntilReady (cfgs : Z) (m : MemTable) : res unit :=
  if decide (cfgs = 1 ∨ is_ready_ m = true) then Ret tt else Fail.

Definition SetReadyToProcessRequests (m : MemTable) : MemTable :=
  mkMemTable (table_ m) (arena_ m) (refs_ m) (memtable_id_ m) true.

Definition ApproximateMemoryUsage (m : MemTable) : Z := MemoryUsage (arena_ m).

(** [Ref()] and [Unref(unrefcount)], which returns the references left. *)
Definition MemTable_Ref (m : MemTable) : MemTable :=
  mkMemTable (table_ m) (arena_ m) (refs_ m + 1) (memtable_id_ m) (is_ready_ m).
Definition MemTable_Unref (m : MemTable) (unrefcount : Z) : res (MemTable * Z) :=
  let refs := refs_ m - unrefcount in
  if decide (refs >= 0)
  then Ret (mkMemTable (table_ m) (arena_ m) refs (memtable_id_ m) (is_ready_ m), refs)
  else Abort.

(** [Add(s, type, key, value)]: room for the entry, then, inside [Insert], for
    the node. *)
Definition MemTable_Add (m : MemTable) (s : Z) (type : ValueType) (key value : bytes) : res MemTable :=
  let internal_key_size := size_of key + 8 in
  let encoded_len := VarintLength internal_key_size + internal_key_size
                     + VarintLength (size_of value) + size_of value in
  '(arena, _) ← Allocate new_char (arena_ m) encoded_len;
  let buf := encode_entry s type key value in
  if decide (size_of buf = encoded_len) then
    '(arena, _) ← AllocateAligned new_char arena (node_bytes (RandomHeight (rnd_ (table_ m))).1);
    table ← Insert kcmp (table_ m) buf;
    Ret (mkMemTable table arena (refs_ m) (memtable_id_ m) (is_ready_ m))
  else Abort.

(** [Get(key, value, s)]. *)
Definition MemTable_Get (cfgs : Z) (m : MemTable) (key : LookupKey) : res GetResult :=
  _ ← WaitUntilReady cfgs m;
  it ← Iterator_Seek kcmp (table_ m) (Iterator_init (table_ m) 0) (memtable_key key);
  if Iterator_Valid it then
    entry ← Iterator_key (table_ m) it;
    let '(ikey, rest) := PrefixedSlice entry in
    if decide (Compare (ExtractUserKey ikey) (LookupKey_user_key key) = 0) then
      match ValueType_of_code (Z.land (ExtractTag ikey) 255) with
      | Some kTypeValue => Ret (Value (PrefixedSlice rest).1)
      | Some kTypeDeletion => Ret Deleted
      | None => Ret NotPresent
      end
    else Ret NotPresent
  else Ret NotPresent.

(** ** Iterators *)

Record MemTableIterator := mkMemIter { iter_ : Iterator; seeked_ : bool }.

(** [NewIterator(..., sample_size)]. *)
Definition NewIterator (cfgs : Z) (m : MemTable) (sample_size : Z) : res MemTableIterator :=
  _ ← WaitUntilReady cfgs m;
  Ret (mkMemIter (Iterator_init (table_ m) sample_size) false).

Definition MemIter_Valid (it : MemTableIterator) : bool := Iterator_Valid (iter_ it).
Definition MemIter_Seek (m : MemTable) (it : MemTableIterator) (k : bytes) : res MemTableIterator :=
  i ← Iterator_Seek kcmp (table_ m) (iter_ it) (EncodeKey k); Ret (mkMemIter i true).
Definition MemIter_SeekToFirst (m : MemTable) (it : MemTableIterator) : res MemTableIterator :=
  i ← Iterator_SeekToFirst (table_ m) (iter_ it); Ret (mkMemIter i true).
Definition MemIter_SeekToLast (m : MemTable) (it : MemTableIterator) : res MemTableIterator :=
  i ← Iterator_SeekToLast (table_ m) (iter_ it); Ret (mkMemIter i true).
Definition MemIter_Next (m : MemTable) (it : MemTableIterator) : res MemTableIterator :=
  i ← Iterator_Next (table_ m) (iter_ it); Ret (mkMemIter i (seeked_ it)).
Definition MemIter_Prev (m : MemTable) (it : MemTableIterator) : res MemTableIterator :=
  i ← Iterator_Prev kcmp (table_ m) (iter_ it); Ret (mkMemIter i (seeked_ it)).
Definition MemIter_key (m : MemTable) (it : MemTableIterator) : res bytes :=
  e ← Iterator_key (table_ m) (iter_ it); Ret (PrefixedSlice e).1.
Definition MemIter_value (m : MemTable) (it : MemTableIterator) : res bytes :=
  e ← Iterator_key (table_ m) (iter_ it); Ret (PrefixedSlice (PrefixedSlice e).2).1.

(** The loop of [SkipToNextUserKey]: a round passes one entry. *)
Fixpoint MemIter_skip (fuel : nat) (m : MemTable) (it : MemTableIterator) (userkeyint : Z)
    : res MemTableIterator :=
  match fuel with
  | O => Abort
  | S fuel =>
      if MemIter_Valid it then
        k ← MemIter_key m it;
        if decide (userkeyint ≠ key_int (ExtractUserKey k)) then Ret it
        else it ← MemIter_Next m it; MemIter_skip fuel m it userkeyint
      else Ret it
  end.
Definition MemIter_SkipToNextUserKey (m : MemTable) (it : MemTableIterator) (target : bytes)
    : res MemTableIterator :=
  it ← (if seeked_ it then Ret it else MemIter_Seek m it target);
  MemIter_skip (S (length (nodes (table_ m)))) m it (key_int (ExtractUserKey target)).
End memtable.

(** ** What a memtable holds *)

(** A write: sequence number, type, key and value. *)
Record write := mkWrite { wr_seq : Z; wr_type : ValueType; wr_key : bytes; wr_value : bytes }.

Definition write_ok (w : write) : Prop :=
  seq_ok (wr_seq w) ∧ size_of (wr_key w) + 8 < 2 ^ 32 ∧ size_of (wr_value w) < 2 ^ 32.

Definition write_entry (w : write) : bytes := encode_entry (wr_seq w) (wr_type w) (wr_key w) (wr_value w).
Definition write_ikey (w : write) : bytes := InternalKey_make (wr_key w) (wr_seq w) (wr_type w).

Lemma PrefixedSlice_app len s rest :
  is_u32 len → len = size_of s → PrefixedSlice (EncodeVarint32 len ++ s ++ rest) = (s, rest).
Proof.
  intros Hl Hs. unfold PrefixedSlice. rewrite GetVarint32Ptr_encode by done.
  by rewrite take_app_exact, drop_app_exact by lia.
Qed.

Lemma InternalKey_make_size u s t : size_of (InternalKey_make u s t) = size_of u + 8.
Proof.
  unfold InternalKey_make, AppendInternalKey, PutFixed64. cbn [user_key sequence type app].
  rewrite length_app, length_EncodeFixed64. lia.
Qed.

Lemma PrefixedSlice_entry w :
  write_ok w →
  PrefixedSlice (write_entry w) =
    (write_ikey w, EncodeVarint32 (size_of (wr_value w)) ++ wr_value w).
Proof.
  intros (Hs & Hk & Hv). unfold write_entry, encode_entry. rewrite !w32_small by mlia.
  pose proof (InternalKey_make_size (wr_key w) (wr_seq w) (wr_type w)) as Hsz.
  rewrite <- Hsz in Hk |- *. rewrite (assoc_L (++) (wr_key w)).
  apply (PrefixedSlice_app _ (write_ikey w)); [mlia|done].
Qed.

Lemma PrefixedSlice_value w :
  write_ok w → (PrefixedSlice (EncodeVarint32 (size_of (wr_value w)) ++ wr_value w)).1 = wr_value w.
Proof.
  intros (_ & _ & Hv). rewrite <- (app_nil_r (wr_value w)) at 2.
  rewrite (PrefixedSlice_app (size_of (wr_value w)) (wr_value w) []) by (mlia || done). done.
Qed.

Lemma PrefixedSlice_lookup u s :
  size_of u + 8 < 2 ^ 32 →
  PrefixedSlice (memtable_key (LookupKey_make u s)) = (internal_key (LookupKey_make u s), []).
Proof.
  intros Hu. unfold memtable_key, internal_key, LookupKey_make. cbn [lk_klength lk_userkey lk_tag].
  rewrite w32_small by mlia. rewrite <- (app_nil_r (u ++ _)) at 1.
  apply PrefixedSlice_app; [mlia|]. rewrite length_app, length_EncodeFixed64. lia.
Qed.

Section holds.
Context (U : Comparator) {OU : ComparatorOrder U}.
Local Abbreviation kcmp := (MemTable_KeyComparator U).

#[export] Instance KeyComparator_total : TotalCompare kcmp.
Proof.
  split; unfold MemTable_KeyComparator.
  - intros a b. apply (cmp_antisym (C := InternalKeyComparator U)).
  - intros a b c. apply (cmp_le_trans (C := InternalKeyComparator U)).
Qed.

Lemma kcmp_entries w w' :
  write_ok w → write_ok w' → kcmp (write_entry w) (write_entry w') = InternalKey_Compare U (write_ikey w) (write_ikey w').
Proof. intros Hw Hw'. unfold MemTable_KeyComparator. by rewrite !PrefixedSlice_entry. Qed.

(** Entries with different sequence numbers are different. *)
Lemma kcmp_distinct w w' :
  write_ok w → write_ok w' → wr_seq w ≠ wr_seq w' → kcmp (write_entry w) (write_entry w') ≠ 0.
Proof.
  intros Hw Hw' Hne. rewrite kcmp_entries by done. intros [_ Ht]%icmp_zero. unfold write_ikey in Ht.
  destruct Hw as [Hs _], Hw' as [Hs' _]. rewrite !InternalKey_make_tag in Ht by done.
  pose proof (ValueType_code_range (wr_type w)). pose proof (ValueType_code_range (wr_type w')). lia.
Qed.

Context (new_char : list (Z * Z) → Z → Z).
Hypothesis new_char_fresh : ∀ blocks n, 0 < n → Forall (disjoint_regions (new_char blocks n, n)) blocks.
Hypothesis new_char_aligned : ∀ blocks n, new_char blocks n mod 8 = 0.

(** The writes a memtable holds, in any order. *)
Definition holds (m : MemTable) (ws : list write) : Prop :=
  (∃ ws', ws' ≡ₚ ws ∧ contents kcmp (table_ m) (write_entry <$> ws'))
  ∧ Forall write_ok ws ∧ ∃ rs, arena_ok (arena_ m) rs.

Lemma holds_init id ready : ∃ m, MemTable_init new_char id ready = Ret m ∧ holds m [] ∧ is_ready_ m = ready.
Proof.
  unfold MemTable_init.
  destruct (AllocateAligned_ok new_char new_char_fresh new_char_aligned Arena_init [] (node_bytes kMaxHeight))
    as (a & p & -> & Ha & _); [split; [by left|constructor..]|unfold node_bytes, kMaxHeight; lia|].
  eexists. split; [done|]. split; [|done]. split; [|split; [constructor|by eexists]].
  exists []. split; [done|]. apply contents_init.
Qed.

Lemma encode_entry_size w :
  write_ok w →
  size_of (write_entry w) = VarintLength (size_of (wr_key w) + 8) + (size_of (wr_key w) + 8)
                            + VarintLength (size_of (wr_value w)) + size_of (wr_value w).
Proof.
  intros (_ & Hk & Hv). unfold write_entry, encode_entry. rewrite !w32_small by mlia.
  rewrite !length_app, length_EncodeFixed64, !Nat2Z.inj_add, !size_EncodeVarint32 by mlia. lia.
Qed.

Lemma node_bytes_bound seed : 0 < node_bytes (RandomHeight seed).1 < 2 ^ 63.
Proof. pose proof (RandomHeight_bounds seed). unfold node_bytes, kMaxHeight in *. lia. Qed.

Lemma holds_add m ws w :
  holds m ws → write_ok w → wr_seq w ∉ wr_seq <$> ws →
  ∃ m', MemTable_Add U new_char m (wr_seq w) (wr_type w) (wr_key w) (wr_value w) = Ret m'
    ∧ holds m' (w :: ws) ∧ is_ready_ m' = is_ready_ m.
Proof.
  intros ((ws' & Hp & Hc) & Hok & rs & Ha) Hw Hseq. unfold MemTable_Add.
  pose proof (encode_entry_size w Hw) as Hsz. set (len := _ + size_of (wr_value w)) in *.
  destruct (Allocate_ok new_char new_char_fresh new_char_aligned (arena_ m) rs len Ha) as (a1 & p1 & -> & Ha1).
  { unfold len, VarintLength. rewrite !VarintLength_loop_eq. lia. }
  cbn [mbind res_bind]. fold (write_entry w). rewrite decide_True by done.
  destruct (AllocateAligned_ok new_char new_char_fresh new_char_aligned a1 _
    (node_bytes (RandomHeight (rnd_ (table_ m))).1) Ha1 (node_bytes_bound _)) as (a2 & p2 & -> & Ha2 & _).
  cbn [mbind res_bind].
  destruct (contents_insert kcmp (table_ m) _ (write_entry w) Hc) as (t & -> & Hc').
  { apply Forall_fmap, Forall_forall. intros w' Hw'. cbn. rewrite Hp in Hw'.
    rewrite Forall_forall in Hok. apply kcmp_distinct; [by apply Hok|done|].
    intros Heq. apply Hseq. rewrite <- Heq. by apply list_elem_of_fmap_2. }
  cbn [mbind res_bind]. eexists. split; [done|]. split; [|done]. split; [|split; [by constructor|by eexists]].
  exists (filter (λ w', kcmp (write_entry w') (write_entry w) < 0) ws' ++ w ::
          filter (λ w', ¬ kcmp (write_entry w') (write_entry w) < 0) ws'). split.
  - rewrite <- Permutation_middle. constructor. rewrite <- Hp. apply filter_split_perm.
  - rewrite fmap_app, fmap_cons, !(fmap_filter write_entry (λ k, kcmp k (write_entry w) < 0)) by done.
    by rewrite (fmap_filter write_entry (λ k, ¬ kcmp k (write_entry w) < 0)).
Qed.

(** ** Lookups *)

(** The writes of [u] that a snapshot sees. *)
Definition visible (u : bytes) (snap : Z) (w : write) : Prop :=
  Compare (wr_key w) u = 0 ∧ wr_seq w <= snap.

(** [w] is the newest write of [ws] visible. *)
Definition newest (u : bytes) (snap : Z) (ws : list write) (w : write) : Prop :=
  w ∈ ws ∧ visible u snap w ∧ ∀ w', w' ∈ ws → visible u snap w' → wr_seq w' <= wr_seq w.

Definition get_spec (u : bytes) (snap : Z) (ws : list write) (r : GetResult) : Prop :=
  match r with
  | Value v => ∃ w, newest u snap ws w ∧ wr_type w = kTypeValue ∧ wr_value w = v
  | Deleted => ∃ w, newest u snap ws w ∧ wr_type w = kTypeDeletion
  | NotPresent => ∀ w, w ∈ ws → ¬ visible u snap w
  end.

Lemma cmp_zero_sym a b : Compare a b = 0 ↔ Compare b a = 0.
Proof. pose proof (cmp_antisym a b). pose proof (cmp_antisym b a). lia. Qed.

(** Entries at or after the lookup key. *)
Lemma target_le u snap w :
  seq_ok snap → size_of u + 8 < 2 ^ 32 → write_ok w →
  kcmp (memtable_key (LookupKey_make u snap)) (write_entry w) <= 0 ↔
  Compare u (wr_key w) < 0 ∨ visible u snap w.
Proof.
  intros Hs Hu Hw. unfold MemTable_KeyComparator, visible. rewrite PrefixedSlice_lookup, PrefixedSlice_entry by done.
  cbn [fst]. destruct Hw as [Hw _]. unfold write_ikey.
  rewrite LookupKey_internal_key, icmp_le, !InternalKey_make_user_key, !InternalKey_make_tag by done.
  rewrite (cmp_zero_sym (wr_key w) u). destruct (wr_type w); cbn [ValueType_code kValueTypeForSeek]; lia.
Qed.

Lemma tag_type w : write_ok w → ValueType_of_code (Z.land (ExtractTag (write_ikey w)) 255) = Some (wr_type w).
Proof.
  intros [Hs _]. unfold write_ikey. rewrite InternalKey_make_tag, land_255 by done. unfold w8.
  rewrite Z.add_comm, Z_mod_plus_full, Z.mod_small by (destruct (wr_type w); cbn; lia). by destruct (wr_type w).
Qed.

(** The first entry at or after the lookup key is the newest visible one, when
    it has the right user key; else nothing is visible. *)
Lemma first_upper u snap ws w rest :
  seq_ok snap → size_of u + 8 < 2 ^ 32 → Forall write_ok ws →
  StronglySorted (λ a b, kcmp a b < 0) (write_entry <$> ws) →
  key_upper kcmp (memtable_key (LookupKey_make u snap)) (write_entry <$> ws) = write_entry w :: rest →
  w ∈ ws →
  if decide (Compare (wr_key w) u = 0) then newest u snap ws w else ∀ w', w' ∈ ws → ¬ visible u snap w'.
Proof.
  intros Hs Hu Hok Hsort Heq Hin. rewrite Forall_forall in Hok.
  set (target := memtable_key (LookupKey_make u snap)) in *.
  assert (kcmp target (write_entry w) <= 0) as Hw.
  { assert (write_entry w ∈ key_upper kcmp target (write_entry <$> ws)) as [Hn _]%list_elem_of_filter
      by (rewrite Heq; by left). by apply (tc_not_lt kcmp) in Hn. }
  apply target_le in Hw; [|done..|by apply Hok].
  assert (∀ w', w' ∈ ws → visible u snap w' →
    Compare (wr_key w) (wr_key w') < 0 ∨ Compare (wr_key w) (wr_key w') = 0 ∧ wr_seq w' <= wr_seq w) as Hle.
  { intros w' Hin' Hv.
    assert (kcmp target (write_entry w') <= 0) as Ht by (apply target_le; [done|done|by apply Hok|by right]).
    assert (write_entry w' ∈ key_upper kcmp target (write_entry <$> ws)) as Hup.
    { apply list_elem_of_filter. split; [by apply (tc_not_lt kcmp)|by apply list_elem_of_fmap_2]. }
    assert (kcmp (write_entry w) (write_entry w') <= 0) as Hk.
    { rewrite Heq in Hup. apply elem_of_cons in Hup as [->|Hup]; [rewrite (tc_refl kcmp); lia|].
      assert (StronglySorted (λ a b, kcmp a b < 0) (write_entry w :: rest)) as Hss.
      { rewrite <- Heq. by apply StronglySorted_filter. }
      apply StronglySorted_inv in Hss as [_ Hss]. rewrite Forall_forall in Hss. specialize (Hss _ Hup). cbn in Hss. lia. }
    rewrite kcmp_entries in Hk by by apply Hok. apply icmp_le in Hk. unfold write_ikey in Hk.
    destruct (Hok w Hin) as [Hsw _], (Hok w' Hin') as [Hsw' _].
    rewrite !InternalKey_make_user_key, !InternalKey_make_tag in Hk by done.
    pose proof (ValueType_code_range (wr_type w)). pose proof (ValueType_code_range (wr_type w')). lia. }
  case_decide as Hc.
  - split_and!; [done| |].
    + destruct Hw as [Hlt|Hv]; [|done]. pose proof (proj1 (cmp_zero_sym (wr_key w) u) Hc). lia.
    + intros w' Hin' Hv. destruct (Hle w' Hin' Hv) as [Hlt|[_ Hq]]; [|done]. destruct Hv as [Hv _].
      pose proof (cmp_lt_le_trans (wr_key w) (wr_key w') u Hlt ltac:(lia)). lia.
  - intros w' Hin' Hv. destruct Hw as [Hlt|[Hz _]]; [|done]. pose proof (Hle w' Hin' Hv) as Hq. destruct Hv as [Hv _].
    assert (Compare (wr_key w) u <= 0) by (apply (cmp_le_trans (wr_key w) (wr_key w')); lia).
    apply cmp_antisym in Hlt. lia.
Qed.

Lemma holds_get cfgs m ws u snap :
  holds m ws → is_ready_ m = true → seq_ok snap → size_of u + 8 < 2 ^ 32 →
  ∃ r, MemTable_Get U cfgs m (LookupKey_make u snap) = Ret r ∧ get_spec u snap ws r.
Proof.
  intros ((ws' & Hp & Hc) & Hok & _) Hr Hs Hu. unfold MemTable_Get, WaitUntilReady.
  rewrite decide_True by by right. cbn [mbind res_bind]. set (target := memtable_key (LookupKey_make u snap)).
  destruct (cursor_seek kcmp (table_ m) _ (Iterator_init (table_ m) 0) target Hc) as (it & -> & Hcur); [done|done|].
  cbn [mbind res_bind]. rewrite (cursor_valid _ _ _ _ _ Hcur).
  pose proof (contents_split kcmp _ _ target Hc) as Hsp.
  assert (Forall write_ok ws') as Hok' by by rewrite Hp.
  destruct (key_upper kcmp target (write_entry <$> ws')) as [|e rest] eqn:Eup.
  - rewrite app_nil_r in Hsp. rewrite <- Hsp, bool_decide_eq_false_2 by lia. exists NotPresent. split; [done|].
    intros w Hin Hv. rewrite <- Hp in Hin.
    assert (write_entry w ∈ key_upper kcmp target (write_entry <$> ws')) as Hup; [|rewrite Eup in Hup; by apply elem_of_nil in Hup].
    rewrite Forall_forall in Hok'. apply list_elem_of_filter. split; [|by apply list_elem_of_fmap_2].
    apply (tc_not_lt kcmp), target_le; [done|done|by apply Hok'|by right].
  - pose proof (list_lookup_middle (key_lower kcmp target (write_entry <$> ws')) rest e _ eq_refl) as He.
    rewrite <- Hsp in He.
    rewrite bool_decide_eq_true_2 by (by eapply lookup_lt_Some). rewrite (cursor_key _ _ _ _ _ _ Hcur He).
    cbn [mbind res_bind]. apply list_elem_of_lookup_2, list_elem_of_fmap in He as (w & -> & Hin).
    assert (write_ok w) as Hw by (rewrite Forall_forall in Hok'; by apply Hok').
    rewrite PrefixedSlice_entry by done.
    pose proof (first_upper u snap ws' w rest Hs Hu Hok' (contents_sorted _ _ _ Hc) Eup Hin) as Hn.
    assert (∀ w, newest u snap ws' w → newest u snap ws w) as Hperm.
    { intros w0 (H1 & H2 & H3). split_and!; [by rewrite <- Hp|done|]. intros w' Hin'. rewrite <- Hp in Hin'. by apply H3. }
    destruct (decide (Compare (ExtractUserKey (write_ikey w)) (LookupKey_user_key (LookupKey_make u snap)) = 0))
      as [Hcmp|Hcmp]; unfold write_ikey in Hcmp; rewrite InternalKey_make_user_key in Hcmp.
    + rewrite decide_True in Hn by done. rewrite tag_type by done. destruct (wr_type w) eqn:Et.
      * exists Deleted. split; [done|]. exists w. by split; [apply Hperm|].
      * eexists. split; [done|]. exists w. rewrite PrefixedSlice_value by done. by split_and!; [apply Hperm|..].
    + rewrite decide_False in Hn by done. exists NotPresent. split; [done|].
      intros w' Hin'. rewrite <- Hp in Hin'. by apply Hn.
Qed.

(** ** Iterators *)

(** A memtable iterator at position [i] of the writes in key order. *)
Definition mem_cursor (m : MemTable) (ws : list write) (it : MemTableIterator) (i : nat) : Prop :=
  cursor kcmp (table_ m) (write_entry <$> ws) (iter_ it) i ∧ Forall write_ok ws.

Lemma mem_cursor_key m ws it i w :
  mem_cursor m ws it i → ws !! i = Some w →
  MemIter_Valid it = true ∧ MemIter_key m it = Ret (write_ikey w) ∧ MemIter_value m it = Ret (wr_value w).
Proof.
  intros [Hc Hok] Hi. rewrite Forall_lookup in Hok.
  assert ((write_entry <$> ws) !! i = Some (write_entry w)) as He by (by rewrite list_lookup_fmap, Hi).
  unfold MemIter_Valid, MemIter_key, MemIter_value. rewrite (cursor_valid _ _ _ _ _ Hc), (cursor_key _ _ _ _ _ _ Hc He).
  cbn [mbind res_bind]. rewrite PrefixedSlice_entry by by eapply Hok. cbn [fst snd].
  rewrite PrefixedSlice_value by by eapply Hok. split; [|done]. apply bool_decide_eq_true_2.
  by eapply lookup_lt_Some.
Qed.

Lemma mem_cursor_next m ws it i :
  mem_cursor m ws it i → (i < length ws)%nat →
  ∃ it', MemIter_Next m it = Ret it' ∧ mem_cursor m ws it' (S i).
Proof.
  intros [Hc Hok] Hi. destruct (cursor_next _ _ _ _ _ Hc) as (it' & E & Hc'); [by rewrite length_fmap|].
  unfold MemIter_Next. rewrite E. by eexists.
Qed.

(** Positions skipped by a search for another user key. *)
Fixpoint same_user_run (x : Z) (ws : list write) : nat :=
  match ws with
  | [] => 0
  | w :: ws => if decide (x = key_int (wr_key w)) then S (same_user_run x ws) else 0
  end.

Lemma MemIter_skip_spec fuel m ws it i x :
  mem_cursor m ws it i → (i <= length ws)%nat → (length ws - i < fuel)%nat →
  ∃ it', MemIter_skip fuel m it x = Ret it' ∧ mem_cursor m ws it' (i + same_user_run x (drop i ws)).
Proof.
  revert it i. induction fuel as [|fuel IH]; intros it i Hc Hi Hf; [lia|]. cbn [MemIter_skip].
  destruct (ws !! i) as [w|] eqn:Hw.
  - destruct (mem_cursor_key m ws it i w Hc Hw) as (-> & -> & _). cbn [mbind res_bind].
    rewrite (drop_S ws w i) by done. cbn [same_user_run].
    destruct (decide (x ≠ key_int (ExtractUserKey (write_ikey w)))) as [Hd|Hd];
      unfold write_ikey in Hd; rewrite InternalKey_make_user_key in Hd.
    + rewrite decide_False by done. exists it. by rewrite Nat.add_0_r.
    + rewrite decide_True by (by destruct (decide (x = key_int (wr_key w)))).
      pose proof (lookup_lt_Some _ _ _ Hw) as Hlt.
      destruct (mem_cursor_next m ws it i Hc Hlt) as (it' & -> & Hc'). cbn [mbind res_bind].
      rewrite <- Nat.add_succ_comm. apply IH; [done|lia|lia].
  - assert (MemIter_Valid it = false) as ->.
    { unfold MemIter_Valid. rewrite (cursor_valid _ _ _ _ _ (proj1 Hc)), length_fmap.
      apply bool_decide_eq_false_2. apply lookup_ge_None in Hw. lia. }
    apply lookup_ge_None in Hw. rewrite drop_ge by done. exists it. by rewrite Nat.add_0_r.
Qed.
End holds.

(** ** Properties *)

(** The writes of a sequence, added one after the other. *)
Fixpoint add_all (U : Comparator) (new_char : list (Z * Z) → Z → Z) (m : MemTable) (ws : list write) : res MemTable :=
  match ws with
  | [] => Ret m
  | w :: ws =>
      m ← MemTable_Add U new_char m (wr_seq w) (wr_type w) (wr_key w) (wr_value w);
      add_all U new_char m ws
  end.

Lemma add_all_holds U (OU : ComparatorOrder U) new_char m ws0 ws :
  new_ok new_char → holds U m ws0 → Forall write_ok ws → NoDup (wr_seq <$> ws ++ ws0) →
  ∃ m', add_all U new_char m ws = Ret m' ∧ (∃ ws', ws' ≡ₚ ws ++ ws0 ∧ holds U m' ws') ∧ is_ready_ m' = is_ready_ m.
Proof.
  intros [Hf Hal]. revert m ws0. induction ws as [|w ws IH]; intros m ws0 Hm Hok Hnd; cbn.
  - exists m. split_and!; [done|by exists ws0|done].
  - inversion Hok as [|? ? Hw Hok']; subst. cbn in Hnd. apply NoDup_cons in Hnd as [Hni Hnd].
    destruct (holds_add U new_char Hf Hal m ws0 w Hm Hw) as (m1 & -> & Hm1 & Hr1).
    { intros Hin. apply Hni. rewrite fmap_app. set_solver. }
    cbn [mbind res_bind]. destruct (IH m1 (w :: ws0) Hm1 Hok') as (m' & -> & (ws' & Hp & Hm') & Hr).
    { rewrite fmap_app, fmap_cons, <- Permutation_middle, <- fmap_app. by constructor. }
    exists m'. split_and!; [done| |congruence]. exists ws'. split; [|done]. by rewrite Hp, <- Permutation_middle.
Qed.

(** C12. A memtable answers snapshot reads: after any sequence of writes with
    distinct sequence numbers, none of which fails, a lookup at a snapshot
    returns the value of the newest write of the key the snapshot sees, the
    deletion mark if that write is a deletion, and nothing exactly when it
    sees no write of the key. *)
Theorem memtable_get_newest (U : Comparator) (OU : ComparatorOrder U) new_char id ws cfgs u snap :
  new_ok new_char → Forall write_ok ws → NoDup (wr_seq <$> ws) → seq_ok snap → size_of u + 8 < 2 ^ 32 →
  ∃ m r, (m ← MemTable_init new_char id true; add_all U new_char m ws) = Ret m
    ∧ MemTable_Get U cfgs m (LookupKey_make u snap) = Ret r ∧ get_spec U u snap ws r.
Proof.
  intros Hnew Hok Hnd Hs Hu. destruct Hnew as [Hf Hal] eqn:Hn. clear Hn.
  destruct (holds_init U new_char Hf Hal id true) as (m0 & -> & Hm0 & Hr0). cbn [mbind res_bind].
  destruct (add_all_holds U OU new_char m0 [] ws Hnew Hm0 Hok) as (m & -> & (ws' & Hp & Hm) & Hr);
    [by rewrite app_nil_r|]. rewrite app_nil_r in Hp.
  destruct (holds_get U cfgs m ws' u snap Hm) as (r & E & Hg); [congruence|done|done|].
  exists m, r. split_and!; [done|done|].
  assert (∀ w, newest U u snap ws' w → newest U u snap ws w) as Hperm.
  { intros w (H1 & H2 & H3). split_and!; [by rewrite <- Hp|done|].
    intros w' Hin. rewrite <- Hp in Hin. by apply H3. }
  destruct r; cbn in *; [intros w Hin; rewrite <- Hp in Hin; by apply Hg|..];
    destruct Hg as (w & Hw & Hrest); exists w; (split; [by apply Hperm|done]).
Qed.

Definition example_writes : list write :=
  [mkWrite 3 kTypeValue [107] [1]; mkWrite 5 kTypeValue [107] [2]; mkWrite 7 kTypeDeletion [107] []].

Lemma memtable_get_newest_witness :
  (m ← MemTable_init bump 0 true; m ← add_all BytewiseComparator bump m example_writes;
   MemTable_Get BytewiseComparator 2 m (LookupKey_make [107] 6)) = Ret (Value [2])
  ∧ ∃ m r, (m ← MemTable_init bump 0 true; add_all BytewiseComparator bump m example_writes) = Ret m
    ∧ MemTable_Get BytewiseComparator 2 m (LookupKey_make [107] 6) = Ret r
    ∧ get_spec BytewiseComparator [107] 6 example_writes r.
Proof.
  split; [vm_compute; reflexivity|].
  apply (memtable_get_newest BytewiseComparator Bytewise_order bump 0 example_writes 2 [107] 6).
  - exact bump_ok.
  - repeat constructor; try (vm_compute; discriminate); reflexivity.
  - apply (bool_decide_unpack _). vm_compute. exact I.
  - seq_lit.
  - reflexivity.
Defined.
