(* ===== verification/Block.v ===== *)
(** * Block: prefix-compressed blocks of a table

    [table/block_builder.cc], [table/block_builder.h], [table/block.cc] and
    [table/block.h].  A pointer into the block is an offset; the iterator's
    [value_] is an offset and a length, or [None] while it refers to no part of
    the block.  Reading outside the block is [Abort]. *)

From S2P Require Import Prelude Coding Comparator Cursor NovaCommon DbFormat UserScan.

(** ** Building *)

Record BlockBuilder := mkBuilder {
  buffer_ : bytes;
  bb_restarts_ : list Z;
  counter_ : Z;
  finished_ : bool;
  last_key_ : bytes
}.

(** [BlockBuilder(options)] and [Reset()]. *)
Definition BlockBuilder_init : BlockBuilder := mkBuilder [] [0] 0 false [].
Definition BlockBuilder_Reset (b : BlockBuilder) : BlockBuilder := mkBuilder [] [0] 0 false [].

Definition CurrentSizeEstimate (b : BlockBuilder) : Z :=
  size_of (buffer_ b) + size_of (bb_restarts_ b) * 4 + 4.

Definition BlockBuilder_empty (b : BlockBuilder) : bool := bool_decide (buffer_ b = []).

(** [Finish()]: the builder and the contents of the block. *)
Definition BlockBuilder_Finish (b : BlockBuilder) : BlockBuilder * bytes :=
  let buffer := foldl PutFixed32 (buffer_ b) (bb_restarts_ b) in
  let buffer := PutFixed32 buffer (w32 (size_of (bb_restarts_ b))) in
  (mkBuilder buffer (bb_restarts_ b) (counter_ b) true (last_key_ b), buffer).

Section builder.
Context (comparator : Comparator) (block_restart_interval : Z).

(** [Add(key, value)]. *)
Definition BlockBuilder_Add (b : BlockBuilder) (key value : bytes) : res BlockBuilder :=
  if finished_ b then Abort
  else if decide (counter_ b > block_restart_interval) then Abort
  else if decide (buffer_ b ≠ [] ∧ ¬ Compare key (last_key_ b) > 0) then Abort
  else
    let '(shared, restarts, counter) :=
      if decide (counter_ b < block_restart_interval)
      then (diff_index (last_key_ b) key, bb_restarts_ b, counter_ b)
      else (0%nat, bb_restarts_ b ++ [w32 (size_of (buffer_ b))], 0) in
    let non_shared := size_of key - Z.of_nat shared in
    let buffer := PutVarint32 (buffer_ b) (w32 (Z.of_nat shared)) in
    let buffer := PutVarint32 buffer (w32 non_shared) in
    let buffer := PutVarint32 buffer (w32 (size_of value)) in
    let buffer := buffer ++ drop shared key ++ value in
    let last_key := take shared (last_key_ b) ++ drop shared key in
    if Slice_eq last_key key then Ret (mkBuilder buffer restarts (counter + 1) false last_key) else Abort.
End builder.

(** ** Reading *)

(** [Block(contents, ...)]: the members [data_], [size_] and
    [restart_offset_]. *)
Record Block := mkBlock { block_data : bytes; block_size : Z; restart_offset_ : Z }.

Definition NumRestarts_of (data : bytes) : Z := DecodeFixed32_ptr (drop (length data - 4) data).

Definition Block_make (contents : bytes) : Block :=
  if decide (size_of contents < 4) then mkBlock contents 0 0
  else
    let max_restarts_allowed := (size_of contents - 4) / 4 in
    let num := NumRestarts_of contents in
    if decide (num > max_restarts_allowed) then mkBlock contents 0 0
    else mkBlock contents (size_of contents) (w32 (size_of contents - (1 + num) * 4)).

(** [DecodeEntry(p, limit, ...)] on the bytes from [p] to [limit]: shared,
    non-shared and value length, and the bytes from the key delta on. *)
Definition DecodeEntry (p : bytes) : option (Z * Z * Z * bytes) :=
  if decide (size_of p < 3) then None
  else
    let r :=
      if decide (Z.lor (Z.lor (byte_at p 0) (byte_at p 1)) (byte_at p 2) < 128)
      then Some (byte_at p 0, byte_at p 1, byte_at p 2, drop 3 p)
      else
        match GetVarint32Ptr p with
        | None => None
        | Some (shared, p) =>
            match GetVarint32Ptr p with
            | None => None
            | Some (non_shared, p) =>
                match GetVarint32Ptr p with
                | None => None
                | Some (value_length, p) => Some (shared, non_shared, value_length, p)
                end
            end
        end in
    match r with
    | None => None
    | Some (shared, non_shared, value_length, p) =>
        if decide (w32 (size_of p) < w32 (non_shared + value_length)) then None
        else Some (shared, non_shared, value_length, p)
    end.

Record BlockIter := mkBlockIter {
  current_ : Z;
  restart_index_ : Z;
  key_ : bytes;
  value_ : option (Z * Z);
  status_corrupt : bool;
  iter_seeked_ : bool
}.

Section iter.
Context (comparator : Comparator) (data : bytes) (restarts num_restarts : Z).

(** [Iter(comparator, data, restarts, num_restarts)]. *)
Definition BlockIter_init : BlockIter := mkBlockIter restarts num_restarts [] None false false.

(** The bytes from offset [p] to the restart array. *)
Definition upto_limit (p : Z) : bytes := take (Z.to_nat (restarts - p)) (drop (Z.to_nat p) data).

(** [n] bytes read at offset [p]. *)
Definition read_at (p n : Z) : res bytes :=
  if decide (p + n <= size_of data) then Ret (take (Z.to_nat n) (drop (Z.to_nat p) data)) else Abort.

Definition NextEntryOffset (it : BlockIter) : res Z :=
  match value_ it with Some (off, len) => Ret (w32 (off + len)) | None => Abort end.

Definition GetRestartPoint (index : Z) : res Z :=
  if decide (0 <= index < num_restarts)
  then Ret (DecodeFixed32_ptr (drop (Z.to_nat (restarts + index * 4)) data)) else Abort.

Definition SeekToRestartPoint (it : BlockIter) (index : Z) : res BlockIter :=
  offset ← GetRestartPoint index;
  Ret (mkBlockIter (current_ it) index [] (Some (offset, 0)) (status_corrupt it) (iter_seeked_ it)).

Definition BlockIter_Valid (it : BlockIter) : bool := bool_decide (current_ it < restarts).
Definition BlockIter_key (it : BlockIter) : res bytes :=
  if BlockIter_Valid it then Ret (key_ it) else Abort.
Definition BlockIter_value (it : BlockIter) : res bytes :=
  if BlockIter_Valid it then
    match value_ it with Some (off, len) => read_at off len | None => Ret [] end
  else Abort.

Definition CorruptionError (it : BlockIter) : BlockIter :=
  mkBlockIter restarts num_restarts [] None true (iter_seeked_ it).

Definition past_end (it : BlockIter) : BlockIter :=
  mkBlockIter restarts num_restarts (key_ it) (value_ it) (status_corrupt it) (iter_seeked_ it).

(** [while (restart_index_ + 1 < num_restarts_ && ...) ++restart_index_;] *)
Fixpoint advance_restart (rounds : nat) (index current : Z) : res Z :=
  match rounds with
  | O => Ret index
  | S rounds =>
      if decide (index + 1 < num_restarts) then
        p ← GetRestartPoint (index + 1);
        if decide (p < current) then advance_restart rounds (index + 1) current else Ret index
      else Ret index
  end.

(** [ParseNextKey()]. *)
Definition ParseNextKey (it : BlockIter) : res (BlockIter * bool) :=
  current ← NextEntryOffset it;
  if decide (current >= restarts) then Ret (past_end it, false)
  else
    match DecodeEntry (upto_limit current) with
    | None => Ret (CorruptionError it, false)
    | Some (shared, non_shared, value_length, p) =>
        if decide (size_of (key_ it) < shared) then Ret (CorruptionError it, false)
        else
          let key_ptr := restarts - size_of p in
          delta ← read_at key_ptr non_shared;
          let key := take (Z.to_nat shared) (key_ it) ++ delta in
          index ← advance_restart (Z.to_nat num_restarts) (restart_index_ it) current;
          Ret (mkBlockIter current index key (Some (key_ptr + non_shared, value_length))
                 (status_corrupt it) (iter_seeked_ it), true)
    end.

Definition BlockIter_Next (it : BlockIter) : res BlockIter :=
  if BlockIter_Valid it then '(it, _) ← ParseNextKey it; Ret it else Abort.

(** [while (GetRestartPoint(restart_index_) >= original)]: the index of a
    restart point before [original], if there is one. *)
Fixpoint restart_before (rounds : nat) (index original : Z) : res (option Z) :=
  match rounds with
  | O => Abort
  | S rounds =>
      p ← GetRestartPoint index;
      if decide (p >= original) then
        if decide (index = 0) then Ret None else restart_before rounds (index - 1) original
      else Ret (Some index)
  end.

(** [do {} while (ParseNextKey() && NextEntryOffset() < bound)]: entries are
    not empty, so the block bounds the rounds. *)
Fixpoint parse_until (fuel : nat) (it : BlockIter) (bound : Z) : res BlockIter :=
  match fuel with
  | O => Abort
  | S fuel =>
      '(it, ok) ← ParseNextKey it;
      if (ok : bool) then
        next ← NextEntryOffset it;
        if decide (next < bound) then parse_until fuel it bound else Ret it
      else Ret it
  end.

Definition BlockIter_Prev (it : BlockIter) : res BlockIter :=
  if BlockIter_Valid it then
    r ← restart_before (S (Z.to_nat num_restarts)) (restart_index_ it) (current_ it);
    match r with
    | None => Ret (past_end it)
    | Some index => it' ← SeekToRestartPoint it index; parse_until (S (length data)) it' (current_ it)
    end
  else Abort.

(** The binary search of [Seek]: the restart point found, [None] on a corrupt
    entry. *)
Fixpoint Seek_search (rounds : nat) (target : bytes) (left right : Z) : res (option Z) :=
  match rounds with
  | O => Abort
  | S rounds =>
      if decide (left < right) then
        let mid := w32 (left + right + 1) / 2 in
        region_offset ← GetRestartPoint mid;
        match DecodeEntry (upto_limit region_offset) with
        | None => Ret None
        | Some (shared, non_shared, _, p) =>
            if decide (shared ≠ 0) then Ret None
            else
              mid_key ← read_at (restarts - size_of p) non_shared;
              if decide (Compare mid_key target < 0) then Seek_search rounds target mid right
              else Seek_search rounds target left (mid - 1)
        end
      else Ret (Some left)
  end.

(** The linear search of [Seek]. *)
Fixpoint Seek_scan (fuel : nat) (it : BlockIter) (target : bytes) : res BlockIter :=
  match fuel with
  | O => Abort
  | S fuel =>
      '(it, ok) ← ParseNextKey it;
      if (ok : bool) then
        if decide (Compare (key_ it) target >= 0) then Ret it else Seek_scan fuel it target
      else Ret it
  end.

Definition with_seeked (it : BlockIter) : BlockIter :=
  mkBlockIter (current_ it) (restart_index_ it) (key_ it) (value_ it) (status_corrupt it) true.

Definition BlockIter_Seek (it : BlockIter) (target : bytes) : res BlockIter :=
  let it := with_seeked it in
  r ← Seek_search (S (Z.to_nat num_restarts)) target 0 (num_restarts - 1);
  match r with
  | None => Ret (CorruptionError it)
  | Some index => it ← SeekToRestartPoint it index; Seek_scan (S (length data)) it target
  end.

Definition BlockIter_SeekToFirst (it : BlockIter) : res BlockIter :=
  it ← SeekToRestartPoint (with_seeked it) 0;
  '(it, _) ← ParseNextKey it; Ret it.

Definition BlockIter_SeekToLast (it : BlockIter) : res BlockIter :=
  it ← SeekToRestartPoint (with_seeked it) (num_restarts - 1);
  parse_until (S (length data)) it restarts.

(** The loop of [SkipToNextUserKey]. *)
Fixpoint BlockIter_skip (fuel : nat) (it : BlockIter) (userkeyint : Z) : res BlockIter :=
  match fuel with
  | O => Abort
  | S fuel =>
      if BlockIter_Valid it then
        if decide (key_int (ExtractUserKey (key_ it)) > userkeyint) then Ret it
        else '(it, _) ← ParseNextKey it; BlockIter_skip fuel it userkeyint
      else Ret it
  end.
Definition BlockIter_SkipToNextUserKey (it : BlockIter) (target : bytes) : res BlockIter :=
  it ← (if iter_seeked_ it then Ret it else BlockIter_Seek it target);
  BlockIter_skip (S (length data)) it (key_int (ExtractUserKey target)).
End iter.

(** [Block::NewIterator(comparator)]: an iterator that reports corruption, an
    empty one, or one over the entries. *)
Inductive AnyIter := ErrorIterator | EmptyIterator | EntryIterator (it : BlockIter).

Definition Block_NewIterator (b : Block) : AnyIter :=
  if decide (block_size b < 4) then ErrorIterator
  else
    let num := NumRestarts_of (block_data b) in
    if decide (num = 0) then EmptyIterator
    else EntryIterator (BlockIter_init (restart_offset_ b) num).

(** The iterator of a block as an [Iterator]. *)
Definition BlockIter_ops (comparator : Comparator) (data : bytes) (restarts num_restarts : Z) : IterOps BlockIter :=
  mkIterOps (BlockIter_Valid restarts) (BlockIter_key restarts) (BlockIter_value data restarts)
    (λ it m,
       match m with
       | SeekToFirst => BlockIter_SeekToFirst data restarts num_restarts it
       | SeekToLast => BlockIter_SeekToLast data restarts num_restarts it
       | Seek target => BlockIter_Seek comparator data restarts num_restarts it target
       | Next => BlockIter_Next data restarts num_restarts it
       | Prev => BlockIter_Prev data restarts num_restarts it
       end).

(** A client that adds [kvs] in order and finishes the block. *)
Fixpoint add_entries (comparator : Comparator) (interval : Z) (b : BlockBuilder) (kvs : list (bytes * bytes)) :
    res BlockBuilder :=
  match kvs with
  | [] => Ret b
  | (k, v) :: kvs => b' ← BlockBuilder_Add comparator interval b k v; add_entries comparator interval b' kvs
  end.

(** ** Layout of a block *)

(** The encoding of an entry that shares [s] bytes with the previous key. *)
Definition encode_kv (s : nat) (kv : bytes * bytes) : bytes :=
  EncodeVarint32 (Z.of_nat s) ++ EncodeVarint32 (size_of kv.1 - Z.of_nat s)
  ++ EncodeVarint32 (size_of kv.2) ++ drop s kv.1 ++ kv.2.

Lemma lor_bound_128 a b : 0 <= a → 0 <= b → Z.lor a b < 128 ↔ a < 128 ∧ b < 128.
Proof.
  intros Ha Hb. split.
  - intros Hl. assert (∀ x y, 0 <= x → 0 <= y → x <= Z.lor x y) as Hle.
    { intros x y Hx Hy. assert (Z.lor x y = x + Z.ldiff y x) as ->.
      - rewrite Z.add_nocarry_lor.
        + apply Z.bits_inj'. intros i Hi. rewrite !Z.lor_spec, Z.ldiff_spec.
          destruct (Z.testbit x i), (Z.testbit y i); done.
        + apply Z.bits_inj'. intros i Hi. rewrite Z.land_spec, Z.ldiff_spec, Z.bits_0.
          destruct (Z.testbit x i), (Z.testbit y i); done.
      - pose proof (Z.ldiff_nonneg y x). lia. }
    pose proof (Hle a b Ha Hb). pose proof (Hle b a Hb Ha). rewrite Z.lor_comm in H0. lia.
  - intros [H1 H2]. rewrite <- (Z.mod_small a (2 ^ 7)), <- (Z.mod_small b (2 ^ 7)) by lia.
    rewrite <- !Z.land_ones, <- Z.land_lor_distr_l, Z.land_ones by lia.
    pose proof (Z.mod_pos_bound (Z.lor a b) (2 ^ 7)). lia.
Qed.

(** The first byte of a varint tells whether it is the only one. *)
Lemma EncodeVarint32_first v :
  is_u32 v → ∃ b l, EncodeVarint32 v = b :: l ∧ 0 <= b ∧ (v < 128 → b = v ∧ l = []) ∧ (128 <= v → 128 <= b).
Proof.
  intros Hv. rewrite EncodeVarint32_loop by done. cbn [EncodeVarint64_loop].
  destruct (decide (v >= 128)) as [H|H].
  - eexists _, _. split; [done|]. rewrite w8_continuation. pose proof (Z.mod_pos_bound v 128). split_and!; lia.
  - eexists _, _. split; [done|]. rewrite w8_small by mlia. split_and!; done || mlia.
Qed.

Lemma DecodeEntry_varints a b c p :
  is_u32 a → is_u32 b → is_u32 c → b + c <= size_of p < 2 ^ 32 →
  DecodeEntry (EncodeVarint32 a ++ EncodeVarint32 b ++ EncodeVarint32 c ++ p) = Some (a, b, c, p).
Proof.
  intros Ha Hb Hc Hp. pose proof Ha as Ha'. pose proof Hb as Hb'. pose proof Hc as Hc'. unfold is_u32 in Ha', Hb', Hc'.
  assert ((if decide (w32 (size_of p) < w32 (b + c)) then None else Some (a, b, c, p)) = Some (a, b, c, p)) as Hfin.
  { rewrite !w32_small by mlia. by rewrite decide_False by lia. }
  destruct (EncodeVarint32_first a Ha) as (a0 & la & Ea & Ha0 & Ha1 & Ha2).
  destruct (EncodeVarint32_first b Hb) as (b0 & lb & Eb & Hb0 & Hb1 & Hb2).
  destruct (EncodeVarint32_first c Hc) as (c0 & lc & Ec & Hc0 & Hc1 & Hc2).
  unfold DecodeEntry. rewrite decide_False by (rewrite !length_app, Ea, Eb, Ec; cbn; lia).
  destruct (decide (Z.lor _ _ < 128)) as [Hfast|Hfast];
    [|do 3 (rewrite GetVarint32Ptr_encode by done; cbv beta iota zeta); exact Hfin].
  set (E := EncodeVarint32 a ++ EncodeVarint32 b ++ EncodeVarint32 c ++ p) in *.
  assert (∀ i, (i < 3)%nat → 0 <= byte_at E i) as Hpos.
  { intros i Hi. unfold byte_at. assert (Forall is_u8 (EncodeVarint32 a ++ EncodeVarint32 b ++ EncodeVarint32 c)) as Hu
      by (rewrite !Forall_app; split_and!; apply EncodeVarint32_bytes).
    destruct (E !! i) as [x|] eqn:Hx; [|done]. cbn. subst E. rewrite !(assoc_L (++)) in Hx.
    rewrite lookup_app_l in Hx by (rewrite !length_app, Ea, Eb, Ec; cbn; lia).
    rewrite <- (assoc_L (++)) in Hx. rewrite Forall_lookup in Hu. apply Hu in Hx. unfold is_u8 in Hx. lia. }
  rewrite !lor_bound_128 in Hfast by (try apply Z.lor_nonneg; try split; apply Hpos; lia).
  destruct Hfast as [[F0 F1] F2].
  assert (byte_at E 0 = a0) as E0 by (subst E; by rewrite Ea).
  assert (a < 128) as [H0 H0']%Ha1 by (destruct (decide (a < 128)); [done|specialize (Ha2 ltac:(lia)); lia]).
  assert (byte_at E 1 = b0) as E1 by (subst E; by rewrite Ea, H0', Eb).
  assert (b < 128) as [H1 H1']%Hb1 by (destruct (decide (b < 128)); [done|specialize (Hb2 ltac:(lia)); lia]).
  assert (byte_at E 2 = c0) as E2 by (subst E; by rewrite Ea, H0', Eb, H1', Ec).
  assert (c < 128) as [H2 H2']%Hc1 by (destruct (decide (c < 128)); [done|specialize (Hc2 ltac:(lia)); lia]).
  rewrite E0, E1, E2, H0, H1, H2. replace (drop 3 E) with p by (subst E; by rewrite Ea, H0', Eb, H1', Ec, H2').
  exact Hfin.
Qed.

Lemma DecodeEntry_encode s k v rest :
  (s <= length k)%nat → Z.of_nat s < 2 ^ 32 → size_of k - Z.of_nat s + size_of v + size_of rest < 2 ^ 32 →
  DecodeEntry (encode_kv s (k, v) ++ rest) =
    Some (Z.of_nat s, size_of k - Z.of_nat s, size_of v, drop s k ++ v ++ rest).
Proof.
  intros Hs Hs32 Hr. unfold encode_kv. cbn [fst snd]. rewrite <- !(assoc_L (++)).
  apply DecodeEntry_varints; [mlia..|]. rewrite !length_app, length_drop. lia.
Qed.

Lemma length_bind_Fixed32 {A} (f : A → Z) (l : list A) :
  length (l ≫= λ e, EncodeFixed32 (f e)) = (4 * length l)%nat.
Proof.
  induction l as [|e l IH]; [done|]. rewrite bind_cons, length_app, length_EncodeFixed32, IH. cbn [length]. lia.
Qed.

Lemma encode_kv_pos s kv : (0 < length (encode_kv s kv))%nat.
Proof.
  unfold encode_kv. rewrite !length_app.
  assert (0 < length (EncodeVarint32 (Z.of_nat s)))%nat; [|lia].
  unfold EncodeVarint32. repeat case_decide; cbn; lia.
Qed.

Section layout.
Context (kvs : list (bytes * bytes)) (ss : list nat) (ridx : list nat).

(** [ss] are the shared prefixes of the entries [kvs] and [ridx] the entries
    at which compression restarts. *)
Record well_laid : Prop := {
  wl_len : length ss = length kvs;
  wl_shared i s k v : ss !! i = Some s → kvs !! i = Some (k, v) →
    (s <= length k)%nat
    ∧ match i with
      | O => s = 0%nat
      | S j => ∃ pk pv, kvs !! j = Some (pk, pv) ∧ (s <= length pk)%nat ∧ take s pk = take s k
      end;
  wl_first : ridx !! 0%nat = Some 0%nat;
  wl_sorted r e e' : ridx !! r = Some e → ridx !! S r = Some e' → (e < e')%nat;
  wl_restart r e : ridx !! S r = Some e → (e < length kvs)%nat ∧ ss !! e = Some 0%nat
}.

Definition encs : list bytes := zip_with encode_kv ss kvs.
Definition body : bytes := concat encs.
Definition off (i : nat) : nat := length (concat (take i encs)).
Definition restart_array : bytes := ridx ≫= λ e, EncodeFixed32 (Z.of_nat (off e)).
Definition block : bytes := body ++ restart_array ++ EncodeFixed32 (size_of ridx).
Definition limit : Z := size_of body.

Hypothesis WL : well_laid.
Hypothesis small : size_of block < 2 ^ 32.

Lemma encs_lookup i kv : kvs !! i = Some kv → ∃ s, ss !! i = Some s ∧ encs !! i = Some (encode_kv s kv).
Proof.
  intros Hkv. pose proof (lookup_lt_Some _ _ _ Hkv) as Hlt. rewrite <- (wl_len WL) in Hlt.
  apply lookup_lt_is_Some in Hlt as [s Hs]. exists s. split; [done|]. apply lookup_zip_with_Some. eauto.
Qed.

Lemma length_encs : length encs = length kvs.
Proof. unfold encs. rewrite length_zip_with, (wl_len WL). lia. Qed.

Lemma off_step i e : encs !! i = Some e → off (S i) = (off i + length e)%nat.
Proof.
  intros He. unfold off. rewrite (take_S_r _ _ _ He), concat_app, length_app. cbn. by rewrite app_nil_r.
Qed.

Lemma off_lt_S i : (i < length kvs)%nat → (off i < off (S i))%nat.
Proof.
  intros Hi. apply lookup_lt_is_Some in Hi as [kv Hkv]. destruct (encs_lookup i kv Hkv) as (s & _ & He).
  rewrite (off_step i _ He). pose proof (encode_kv_pos s kv). lia.
Qed.

Lemma off_mono i j : (i < j <= length kvs)%nat → (off i < off j)%nat.
Proof.
  intros [Hij Hj]. induction Hij as [|j Hij IH]; [apply off_lt_S; lia|].
  specialize (IH ltac:(lia)). pose proof (off_lt_S j ltac:(lia)). lia.
Qed.

Lemma off_end : off (length kvs) = length body.
Proof. unfold off, body. rewrite <- length_encs. by rewrite firstn_all. Qed.

Lemma off_le i : (i <= length kvs)%nat → (off i <= length body)%nat.
Proof.
  intros Hi. rewrite <- off_end. destruct (decide (i = length kvs)) as [->|]; [done|].
  pose proof (off_mono i (length kvs)). lia.
Qed.

Lemma body_at i s kv :
  kvs !! i = Some kv → ss !! i = Some s → drop (off i) body = encode_kv s kv ++ drop (off (S i)) body.
Proof.
  intros Hkv Hs. destruct (encs_lookup i kv Hkv) as (s' & Hs' & He). rewrite Hs in Hs'. injection Hs' as <-.
  assert (body = concat (take i encs) ++ encode_kv s kv ++ concat (drop (S i) encs)) as Hb.
  { unfold body. rewrite <- (take_drop_middle encs i _ He) at 1. by rewrite concat_app. }
  rewrite (off_step i _ He). rewrite Hb. unfold off. rewrite drop_app_length, <- drop_drop, drop_app_length.
  by rewrite drop_app_length.
Qed.

Lemma length_block : size_of block = limit + 4 * size_of ridx + 4.
Proof.
  unfold block, limit, restart_array. rewrite !length_app, length_EncodeFixed32.
  rewrite length_bind_Fixed32. lia.
Qed.

Lemma limit_small : 0 <= limit < 2 ^ 32.
Proof. pose proof length_block. unfold limit in *. lia. Qed.

Lemma upto_limit_off i : (i <= length kvs)%nat → upto_limit block limit (Z.of_nat (off i)) = drop (off i) body.
Proof.
  intros Hi. pose proof (off_le i Hi). unfold upto_limit, block, limit. rewrite Nat2Z.id.
  rewrite drop_app_le by lia. rewrite take_app_exact; [done|]. rewrite length_drop. lia.
Qed.

Lemma restart_array_at r e :
  ridx !! r = Some e → ∃ rest, drop (4 * r) restart_array = EncodeFixed32 (Z.of_nat (off e)) ++ rest.
Proof.
  unfold restart_array. clear WL small. generalize off as f. intros f.
  revert r. induction ridx as [|x l IH]; intros r; [done|]. destruct r as [|r]; cbn [lookup list_lookup].
  - intros [= ->]. cbn [mbind list_bind]. by eexists.
  - intros Hr. destruct (IH r Hr) as [rest Hrest]. exists rest. cbn [mbind list_bind].
    replace (4 * S r)%nat with (length (EncodeFixed32 (Z.of_nat (f x))) + 4 * r)%nat by (rewrite length_EncodeFixed32; lia).
    by rewrite <- drop_drop, drop_app_length.
Qed.

Lemma GetRestartPoint_spec r e :
  ridx !! r = Some e → (e <= length kvs)%nat →
  GetRestartPoint block limit (size_of ridx) (Z.of_nat r) = Ret (Z.of_nat (off e)).
Proof.
  intros Hr He. pose proof (lookup_lt_Some _ _ _ Hr). unfold GetRestartPoint.
  rewrite decide_True by lia. f_equal. destruct (restart_array_at r e Hr) as [rest Hrest].
  replace (Z.to_nat (limit + Z.of_nat r * 4)) with (length body + 4 * r)%nat by (unfold limit; lia).
  unfold block. rewrite <- drop_drop, drop_app_length.
  assert (4 * r <= length restart_array)%nat as Hle.
  { destruct (decide (4 * r <= length restart_array)%nat) as [|Hgt]; [done|].
    rewrite drop_ge in Hrest by lia. done. }
  rewrite drop_app_le by done. rewrite Hrest, <- (assoc_L (++)), DecodeFixed32_ptr_encode, w32_small; [done|].
  pose proof (off_le e He). pose proof limit_small. unfold limit in *. mlia.
Qed.

Lemma restart_le r e : ridx !! r = Some e → (e <= length kvs)%nat.
Proof.
  intros Hr. destruct r as [|r].
  - rewrite (wl_first WL) in Hr. injection Hr as <-. lia.
  - destruct (wl_restart WL r e Hr). lia.
Qed.

Lemma restart_shared r e s : ridx !! r = Some e → ss !! e = Some s → s = 0%nat.
Proof.
  intros Hr Hs. destruct r as [|r].
  - rewrite (wl_first WL) in Hr. injection Hr as <-. pose proof (lookup_lt_Some _ _ _ Hs) as Hlt.
    rewrite (wl_len WL) in Hlt. apply lookup_lt_is_Some in Hlt as [[k v] Hkv].
    by destruct (wl_shared WL _ _ _ _ Hs Hkv) as [_ ?].
  - destruct (wl_restart WL r e Hr). congruence.
Qed.

(** ** Positions of the iterator *)

Local Abbreviation n := (length kvs).
Local Abbreviation nr := (size_of ridx).
Local Abbreviation parse := (ParseNextKey block limit nr).

(** The restart point of the iterator is at or before entry [i]. *)
Definition restart_ok (it : BlockIter) (i : nat) : Prop :=
  ∃ r e, restart_index_ it = Z.of_nat r ∧ ridx !! r = Some e ∧ (e <= i)%nat.

(** The iterator is at entry [i]. *)
Record at_entry (it : BlockIter) (i : nat) : Prop := {
  ae_current : current_ it = Z.of_nat (off i);
  ae_entry : ∃ k v, kvs !! i = Some (k, v) ∧ key_ it = k
    ∧ value_ it = Some (Z.of_nat (off (S i)) - size_of v, size_of v);
  ae_restart : restart_ok it i;
  ae_status : status_corrupt it = false
}.

(** The iterator is past the last entry. *)
Record at_end (it : BlockIter) : Prop := {
  nd_current : current_ it = limit;
  nd_status : status_corrupt it = false
}.

(** [ParseNextKey] will read entry [i]. *)
Record before_entry (it : BlockIter) (i : nat) : Prop := {
  be_next : NextEntryOffset it = Ret (Z.of_nat (off i));
  be_key k v s : kvs !! i = Some (k, v) → ss !! i = Some s →
    (s <= length (key_ it))%nat ∧ take s (key_ it) = take s k;
  be_restart : restart_ok it i;
  be_status : status_corrupt it = false
}.

Lemma at_before it i : at_entry it i → before_entry it (S i).
Proof.
  intros [Hc (k & v & Hkv & Hk & Hv) (r & e & Hr & He & Hle) Hst].
  pose proof (lookup_lt_Some _ _ _ Hkv) as Hi.
  split; [|..|exists r, e; split_and!; [done|done|lia]|done].
  - unfold NextEntryOffset. rewrite Hv. f_equal. rewrite Z.sub_add. apply w32_small.
    pose proof (off_le (S i) ltac:(lia)). pose proof limit_small. unfold limit in *. mlia.
  - intros k' v' s Hkv' Hs. destruct (wl_shared WL _ _ _ _ Hs Hkv') as [_ (pk & pv & Hp & Hl & Ht)].
    rewrite Hkv in Hp. injection Hp as <- <-. by rewrite Hk.
Qed.

Lemma advance_restart_spec rounds r e i :
  ridx !! r = Some e → (e <= i)%nat → (i < n)%nat →
  ∃ r' e', advance_restart block limit nr rounds (Z.of_nat r) (Z.of_nat (off i)) = Ret (Z.of_nat r')
    ∧ ridx !! r' = Some e' ∧ (e' <= i)%nat.
Proof.
  revert r e. induction rounds as [|rounds IH]; intros r e Hr He Hi; cbn [advance_restart]; [by exists r, e|].
  case_decide as Hlt; [|by exists r, e].
  destruct (lookup_lt_is_Some_2 ridx (S r) ltac:(lia)) as [e' Hr'].
  replace (Z.of_nat r + 1) with (Z.of_nat (S r)) by lia.
  rewrite (GetRestartPoint_spec (S r) e' Hr' (restart_le _ _ Hr')). cbn [mbind res_bind].
  case_decide as Hp; [|by exists r, e]. apply (IH (S r) e'); [done| |done].
  destruct (decide (e' <= i)%nat) as [|Hgt]; [done|].
  pose proof (off_mono i e'). pose proof (restart_le _ _ Hr'). lia.
Qed.

(** The value slice of entry [i]. *)
Lemma entry_sizes i k v s :
  kvs !! i = Some (k, v) → ss !! i = Some s →
  size_of (drop s k ++ v ++ drop (off (S i)) body) = size_of k - Z.of_nat s + size_of v + (limit - Z.of_nat (off (S i))).
Proof.
  intros Hkv Hs. destruct (wl_shared WL _ _ _ _ Hs Hkv) as [Hsk _].
  pose proof (lookup_lt_Some _ _ _ Hkv). pose proof (off_le (S i) ltac:(lia)).
  rewrite !length_app, !length_drop. unfold limit. lia.
Qed.

Lemma encode_kv_size s k v : (length k - s + length v <= length (encode_kv s (k, v)))%nat.
Proof. unfold encode_kv. cbn [fst snd]. rewrite !length_app, length_drop. lia. Qed.

(** A key is no longer than the block up to its entry. *)
Lemma key_size i k v : kvs !! i = Some (k, v) → (length k <= off (S i))%nat.
Proof.
  revert k v. induction i as [|i IH]; intros k v Hkv; destruct (encs_lookup _ _ Hkv) as (s & Hs & He);
    destruct (wl_shared WL _ _ _ _ Hs Hkv) as [Hsk Hsh]; rewrite (off_step _ _ He);
    pose proof (encode_kv_size s k v); [lia|].
  destruct Hsh as (pk & pv & Hp & Hl & _). specialize (IH _ _ Hp). lia.
Qed.

(** Reading the key delta and the value of entry [i]. *)
Lemma read_entry i k v s :
  kvs !! i = Some (k, v) → ss !! i = Some s →
  read_at block (Z.of_nat (off (S i)) - size_of v - (size_of k - Z.of_nat s)) (size_of k - Z.of_nat s) = Ret (drop s k)
  ∧ read_at block (Z.of_nat (off (S i)) - size_of v) (size_of v) = Ret v.
Proof.
  intros Hkv Hs. destruct (encs_lookup i _ Hkv) as (s' & Hs' & He). rewrite Hs in Hs'. injection Hs' as <-.
  destruct (wl_shared WL _ _ _ _ Hs Hkv) as [Hsk _]. pose proof (off_step i _ He) as Hstep.
  pose proof (lookup_lt_Some _ _ _ Hkv) as Hi. pose proof (off_le (S i) ltac:(lia)) as Hle.
  pose proof (encode_kv_size s k v) as Hsz. pose proof length_block as Hlb. unfold limit in Hlb.
  set (h := EncodeVarint32 (Z.of_nat s) ++ EncodeVarint32 (size_of k - Z.of_nat s) ++ EncodeVarint32 (size_of v)).
  assert (encode_kv s (k, v) = h ++ drop s k ++ v) as Henc
    by (unfold encode_kv; subst h; cbn [fst snd]; by rewrite <- !(assoc_L (++))).
  assert (length (encode_kv s (k, v)) = length h + (length k - s) + length v)%nat as Hlen
    by (rewrite Henc, !length_app, length_drop; lia).
  assert (drop (off i) block = h ++ drop s k ++ v ++ drop (off (S i)) body ++ restart_array ++ EncodeFixed32 (size_of ridx)) as Hdrop.
  { unfold block. rewrite drop_app_le by lia. rewrite (body_at i s (k, v) Hkv Hs), Henc. by rewrite <- !(assoc_L (++)). }
  unfold read_at. rewrite !decide_True by lia. split; f_equal.
  - replace (Z.to_nat (Z.of_nat (off (S i)) - size_of v - (size_of k - Z.of_nat s))) with (off i + length h)%nat by lia.
    rewrite <- drop_drop, Hdrop, drop_app_length. apply take_app_exact. rewrite length_drop. lia.
  - replace (Z.to_nat (Z.of_nat (off (S i)) - size_of v)) with (off i + (length h + length (drop s k)))%nat
      by (rewrite length_drop; lia).
    rewrite <- !drop_drop, Hdrop, !drop_app_length. apply take_app_exact. lia.
Qed.

Lemma parse_entry it i :
  before_entry it i → (i < n)%nat → ∃ it', parse it = Ret (it', true) ∧ at_entry it' i.
Proof.
  intros [Hnext Hkey (r & e & Hri & Hr & He) Hst] Hi. unfold ParseNextKey. rewrite Hnext. cbn [mbind res_bind].
  pose proof (off_mono i n ltac:(lia)) as Hoff. rewrite off_end in Hoff. rewrite decide_False by (unfold limit; lia).
  rewrite upto_limit_off by lia. destruct (lookup_lt_is_Some_2 kvs i Hi) as [[k v] Hkv].
  destruct (encs_lookup i _ Hkv) as (s & Hs & Henc). destruct (wl_shared WL _ _ _ _ Hs Hkv) as [Hsk _].
  destruct (Hkey k v s Hkv Hs) as [Hsl Htake]. pose proof (off_le (S i) ltac:(lia)) as Hle.
  pose proof (off_step i _ Henc) as Hstep. pose proof limit_small as Hlim. pose proof (key_size i k v Hkv) as Hks.
  pose proof (encode_kv_size s k v) as Henl. pose proof (entry_sizes i k v s Hkv Hs) as Hsz.
  rewrite (body_at i s (k, v) Hkv Hs), DecodeEntry_encode;
    [|done|unfold limit in *; lia|rewrite length_drop; unfold limit in *; lia].
  rewrite decide_False, Hsz by lia.
  replace (limit - (size_of k - Z.of_nat s + size_of v + (limit - Z.of_nat (off (S i)))))
    with (Z.of_nat (off (S i)) - size_of v - (size_of k - Z.of_nat s)) by lia.
  destruct (read_entry i k v s Hkv Hs) as [-> _].
  cbn [mbind res_bind]. rewrite Nat2Z.id, Htake, take_drop, Hri.
  destruct (advance_restart_spec (Z.to_nat nr) r e i Hr He Hi) as (r' & e' & -> & Hr' & He'). cbn [mbind res_bind].
  eexists. split; [done|]. split; cbn; [done| |by exists r', e'|done].
  exists k, v. split_and!; [done|done|]. do 2 f_equal. lia.
Qed.

Lemma parse_end it : before_entry it n → parse it = Ret (past_end limit nr it, false) ∧ at_end (past_end limit nr it).
Proof.
  intros [Hnext _ _ Hst]. unfold ParseNextKey. rewrite Hnext, off_end. cbn [mbind res_bind].
  rewrite decide_True by (unfold limit; lia). split; [done|]. by split.
Qed.

Lemma SeekToRestartPoint_before it r e :
  ridx !! r = Some e → status_corrupt it = false →
  ∃ it', SeekToRestartPoint block limit nr it (Z.of_nat r) = Ret it' ∧ before_entry it' e
    ∧ current_ it' = current_ it ∧ iter_seeked_ it' = iter_seeked_ it.
Proof.
  intros Hr Hst. unfold SeekToRestartPoint. rewrite (GetRestartPoint_spec r e Hr (restart_le _ _ Hr)).
  cbn [mbind res_bind]. eexists. split; [done|]. split; [|done]. split; cbn.
  - unfold NextEntryOffset. cbn. f_equal. rewrite Z.add_0_r. apply w32_small.
    pose proof (off_le e (restart_le _ _ Hr)). pose proof limit_small. unfold limit in *. mlia.
  - intros k v s Hkv Hs. rewrite (restart_shared r e s Hr Hs). split; [lia|done].
  - by exists r, e.
  - done.
Qed.

(** Parsing up to the end of entry [m]. *)
Lemma parse_until_spec fuel it i m :
  before_entry it i → (i <= m < n)%nat → (m - i < fuel)%nat →
  ∃ it', parse_until block limit nr fuel it (Z.of_nat (off (S m))) = Ret it' ∧ at_entry it' m.
Proof.
  revert it i. induction fuel as [|fuel IH]; intros it i Hb Hi Hf; [lia|]. cbn [parse_until].
  destruct (parse_entry it i Hb ltac:(lia)) as (it' & -> & Ha). cbn [mbind res_bind].
  pose proof (at_before it' i Ha) as Hb'. rewrite (be_next _ _ Hb'). cbn [mbind res_bind].
  destruct (decide (i = m)) as [->|Hne].
  - rewrite decide_False by lia. by exists it'.
  - pose proof (off_mono (S i) (S m) ltac:(lia)). rewrite decide_True by lia. apply (IH it' (S i)); [done|lia|lia].
Qed.

(** Position [i] of the iterator; [n] is past the end. *)
Definition position (it : BlockIter) (i : nat) : Prop :=
  (i < n)%nat ∧ at_entry it i ∨ i = n ∧ at_end it.

Lemma parse_position it i :
  before_entry it i → (i <= n)%nat → ∃ it' ok, parse it = Ret (it', ok) ∧ position it' i ∧ ok = bool_decide (i < n)%nat.
Proof.
  intros Hb Hi. destruct (decide (i < n)%nat) as [Hlt|Hge].
  - destruct (parse_entry it i Hb Hlt) as (it' & E & Ha). exists it', true. split_and!; [done|by left|].
    by rewrite bool_decide_eq_true_2.
  - assert (i = n) as -> by lia. destruct (parse_end it Hb) as [E He]. eexists _, false.
    split_and!; [done|by right|]. by rewrite bool_decide_eq_false_2.
Qed.

Lemma SeekToFirst_position it :
  status_corrupt it = false → ∃ it', BlockIter_SeekToFirst block limit nr it = Ret it' ∧ position it' 0.
Proof.
  intros Hst. unfold BlockIter_SeekToFirst.
  destruct (SeekToRestartPoint_before (with_seeked it) 0 0 (wl_first WL) Hst) as (it1 & E1 & Hb & _).
  change (Z.of_nat 0) with 0 in E1. rewrite E1. cbn [mbind res_bind].
  destruct (parse_position it1 0 Hb ltac:(lia)) as (it' & ok & -> & Hp & _). by exists it'.
Qed.

Lemma length_body_le : (n <= length body)%nat.
Proof.
  assert (∀ i, (i <= n)%nat → (i <= off i)%nat) as H.
  { induction i as [|i IH]; intros Hi; [lia|]. pose proof (off_lt_S i). specialize (IH ltac:(lia)). lia. }
  rewrite <- off_end. by apply H.
Qed.

Lemma block_fuel : (n < S (length block))%nat.
Proof. pose proof length_body_le. unfold block. rewrite length_app. lia. Qed.

Lemma SeekToLast_position it :
  status_corrupt it = false →
  ∃ it', BlockIter_SeekToLast block limit nr it = Ret it' ∧ position it' (back_from n n).
Proof.
  intros Hst. unfold BlockIter_SeekToLast. pose proof (lookup_lt_Some _ _ _ (wl_first WL)) as Hlen.
  destruct (lookup_lt_is_Some_2 ridx (length ridx - 1) ltac:(lia)) as [e Hr].
  destruct (SeekToRestartPoint_before (with_seeked it) _ e Hr Hst) as (it1 & E1 & Hb & _).
  replace (nr - 1) with (Z.of_nat (length ridx - 1)) by lia. rewrite E1. cbn [mbind res_bind].
  pose proof (restart_le _ _ Hr) as Hle. destruct (decide (n = 0%nat)) as [H0|H0].
  - rewrite H0. cbn [back_from]. assert (e = n) as -> by lia. cbn [parse_until].
    destruct (parse_end it1 Hb) as [-> He]. cbn [mbind res_bind]. eexists. split; [done|]. right. by split.
  - assert (e < n)%nat as Hlt.
    { destruct (length ridx - 1)%nat as [|r] eqn:Er; [rewrite (wl_first WL) in Hr; injection Hr as <-; lia|].
      by destruct (wl_restart WL r e Hr). }
    destruct (parse_until_spec (S (length block)) it1 e (n - 1)) as (it' & E & Ha); [done|lia|pose proof block_fuel; lia|].
    replace (S (n - 1)) with n in E by lia. rewrite off_end in E.
    exists it'. split; [exact E|]. left. assert (back_from n n = n - 1)%nat as -> by (destruct n; cbn; lia).
    split; [lia|done].
Qed.

Lemma Valid_position it i : position it i → BlockIter_Valid limit it = bool_decide (i < n)%nat.
Proof.
  intros [[Hi [Hc _ _ _]]|[-> [Hc _]]]; unfold BlockIter_Valid; rewrite Hc.
  - rewrite !bool_decide_eq_true_2; [done|done|]. pose proof (off_mono i n ltac:(lia)). rewrite off_end in *.
    unfold limit. lia.
  - by rewrite !bool_decide_eq_false_2 by lia.
Qed.

Lemma key_position it i k v :
  position it i → kvs !! i = Some (k, v) →
  BlockIter_key limit it = Ret k ∧ BlockIter_value block limit it = Ret v.
Proof.
  intros Hp Hkv. pose proof (lookup_lt_Some _ _ _ Hkv) as Hi. unfold BlockIter_key, BlockIter_value.
  rewrite (Valid_position it i Hp), bool_decide_eq_true_2 by done.
  destruct Hp as [[_ [_ (k' & v' & Hkv' & -> & ->) _ _]]|[-> _]]; [|lia]. rewrite Hkv in Hkv'. injection Hkv' as <- <-.
  split; [done|]. destruct (encs_lookup i _ Hkv) as (s & Hs & _). by destruct (read_entry i k v s Hkv Hs).
Qed.

Lemma Next_position it i :
  position it i → (i < n)%nat → ∃ it', BlockIter_Next block limit nr it = Ret it' ∧ position it' (S i).
Proof.
  intros Hp Hi. unfold BlockIter_Next. rewrite (Valid_position it i Hp), bool_decide_eq_true_2 by done.
  destruct Hp as [[_ Ha]|[-> _]]; [|lia].
  destruct (parse_position it (S i) (at_before it i Ha) ltac:(lia)) as (it' & ok & -> & Hp & _). by exists it'.
Qed.

Lemma restart_before_spec rounds r e i :
  ridx !! r = Some e → (e <= i < n)%nat → (r < rounds)%nat →
  restart_before block limit nr rounds (Z.of_nat r) (Z.of_nat (off i)) = Ret None ∧ i = 0%nat
  ∨ ∃ r' e', restart_before block limit nr rounds (Z.of_nat r) (Z.of_nat (off i)) = Ret (Some (Z.of_nat r'))
      ∧ ridx !! r' = Some e' ∧ (e' < i)%nat.
Proof.
  revert r e. induction rounds as [|rounds IH]; intros r e Hr Hi Hrd; [lia|]. cbn [restart_before].
  rewrite (GetRestartPoint_spec r e Hr (restart_le _ _ Hr)). cbn [mbind res_bind].
  case_decide as Hge.
  - assert (e = i) as ->.
    { destruct (decide (e < i)%nat) as [Hlt|]; [|lia]. pose proof (off_mono e i ltac:(lia)). lia. }
    destruct r as [|r].
    + rewrite (wl_first WL) in Hr. injection Hr as <-. left. by rewrite decide_True.
    + rewrite decide_False by lia. replace (Z.of_nat (S r) - 1) with (Z.of_nat r) by lia.
      pose proof (lookup_lt_Some _ _ _ Hr) as Hlt. destruct (lookup_lt_is_Some_2 ridx r ltac:(lia)) as [e' Hr'].
      pose proof (wl_sorted WL _ _ _ Hr' Hr). apply (IH r e'); [done|lia|lia].
  - right. exists r, e. split_and!; [done|done|]. destruct (decide (e = i)) as [->|]; lia.
Qed.

Lemma Prev_position it i :
  position it i → (i < n)%nat → ∃ it', BlockIter_Prev block limit nr it = Ret it' ∧ position it' (back_from n i).
Proof.
  intros Hp Hi. unfold BlockIter_Prev. rewrite (Valid_position it i Hp), bool_decide_eq_true_2 by done.
  destruct Hp as [[_ Ha]|[-> _]]; [|lia]. pose proof (ae_status _ _ Ha) as Hst.
  destruct (ae_restart _ _ Ha) as (r & e & -> & Hr & He). rewrite (ae_current _ _ Ha).
  pose proof (lookup_lt_Some _ _ _ Hr) as Hlt.
  destruct (restart_before_spec (S (Z.to_nat nr)) r e i Hr ltac:(lia) ltac:(lia)) as [[-> ->]|(r' & e' & -> & Hr' & He')];
    cbn [mbind res_bind].
  - eexists. split; [done|]. right. by split.
  - destruct (SeekToRestartPoint_before it r' e' Hr' Hst) as (it1 & -> & Hb & _). cbn [mbind res_bind].
    destruct i as [|i]; [lia|].
    destruct (parse_until_spec (S (length block)) it1 e' i Hb ltac:(lia)) as (it' & -> & Ha');
      [pose proof block_fuel; lia|]. exists it'. split; [done|]. left. cbn [back_from]. split; [lia|done].
Qed.

(** ** Seeking *)

Context (cmp : Comparator) {OC : ComparatorOrder cmp}.
Hypothesis sorted : StronglySorted (λ a b, Compare a.1 b.1 < 0) kvs.

(** The first entry at or after [target] is at position [j]. *)
Definition first_at_or_after (target : bytes) (j : nat) : Prop :=
  (j <= n)%nat ∧ (∀ i k v, (i < j)%nat → kvs !! i = Some (k, v) → Compare k target < 0)
  ∧ (∀ k v, kvs !! j = Some (k, v) → Compare k target >= 0).

(** Entries before restart point [r] are before [target]. *)
Definition restart_below (target : bytes) (r : nat) : Prop :=
  ∃ e, ridx !! r = Some e ∧ ∀ i k v, (i < e)%nat → kvs !! i = Some (k, v) → Compare k target < 0.

Lemma sorted_lt i j a b : (i < j)%nat → kvs !! i = Some a → kvs !! j = Some b → Compare a.1 b.1 < 0.
Proof.
  intros Hij Ha Hb. rewrite <- (take_drop_middle kvs i a Ha) in sorted.
  apply StronglySorted_app in sorted as (_ & _ & Hs). apply StronglySorted_inv in Hs as [_ Hs].
  rewrite Forall_forall in Hs. apply Hs. apply list_elem_of_lookup. exists (j - S i)%nat.
  rewrite lookup_drop. by replace (S i + (j - S i))%nat with j by lia.
Qed.

Lemma Seek_search_spec rounds target l r :
  restart_below target l → (l <= r < length ridx)%nat → (r - l < rounds)%nat →
  ∃ x, Seek_search cmp block limit nr rounds target (Z.of_nat l) (Z.of_nat r) = Ret (Some (Z.of_nat x))
    ∧ restart_below target x.
Proof.
  revert l r. induction rounds as [|rounds IH]; intros l r Hl Hr Hrd; [lia|]. cbn [Seek_search].
  case_decide as Hlt; [|by exists l]. pose proof length_block as Hlb. pose proof limit_small.
  rewrite w32_small by (unfold limit in *; mlia).
  set (m := ((l + r + 1) / 2)%nat).
  assert ((Z.of_nat l + Z.of_nat r + 1) / 2 = Z.of_nat m) as ->
    by (subst m; rewrite Nat2Z.inj_div; f_equal; lia).
  assert (l < m <= r)%nat as Hm by (subst m; pose proof (Nat.div_mod (l + r + 1) 2); pose proof (Nat.mod_upper_bound (l + r + 1) 2); lia).
  destruct (lookup_lt_is_Some_2 ridx m ltac:(lia)) as [e He].
  rewrite (GetRestartPoint_spec m e He (restart_le _ _ He)). cbn [mbind res_bind].
  assert (e < n)%nat as Hen.
  { destruct m as [|m0] eqn:Em; [lia|]. by destruct (wl_restart WL m0 e He). }
  rewrite upto_limit_off by lia. destruct (lookup_lt_is_Some_2 kvs e Hen) as [[k v] Hkv].
  destruct (encs_lookup e _ Hkv) as (s & Hs & Henc). pose proof (restart_shared m e s He Hs) as ->.
  pose proof (off_le (S e) ltac:(lia)) as Hoff. pose proof (off_step e _ Henc) as Hstep.
  pose proof (encode_kv_size 0 k v) as Henl. pose proof (entry_sizes e k v 0 Hkv Hs) as Hsz.
  rewrite (body_at e 0 (k, v) Hkv Hs), DecodeEntry_encode; [|lia|done|rewrite length_drop; unfold limit in *; lia].
  rewrite decide_False by tauto. rewrite Hsz.
  replace (limit - (size_of k - Z.of_nat 0 + size_of v + (limit - Z.of_nat (off (S e)))))
    with (Z.of_nat (off (S e)) - size_of v - (size_of k - Z.of_nat 0)) by lia.
  destruct (read_entry e k v 0 Hkv Hs) as [-> _]. cbn [mbind res_bind]. rewrite drop_0.
  case_decide as Hc.
  - apply IH; [|lia|lia]. exists e. split; [done|]. intros i k' v' Hi Hkv'.
    apply (cmp_lt_trans k' k); [|done]. by apply (sorted_lt i e (k', v') (k, v)).
  - replace (Z.of_nat m - 1) with (Z.of_nat (m - 1)) by lia. apply IH; [done|lia|lia].
Qed.

Lemma Seek_scan_spec fuel it target i :
  before_entry it i → (i <= n)%nat → (n - i < fuel)%nat →
  (∀ j k v, (j < i)%nat → kvs !! j = Some (k, v) → Compare k target < 0) →
  ∃ it' j, Seek_scan cmp block limit nr fuel it target = Ret it' ∧ position it' j ∧ first_at_or_after target j.
Proof.
  revert it i. induction fuel as [|fuel IH]; intros it i Hb Hi Hf Hlow; [lia|]. cbn [Seek_scan].
  destruct (parse_position it i Hb Hi) as (it' & ok & -> & Hp & ->). cbn [mbind res_bind].
  case_bool_decide as Hlt.
  - destruct Hp as [[_ Ha]|[-> _]]; [|lia]. destruct (ae_entry _ _ Ha) as (k & v & Hkv & Hk & _).
    rewrite Hk. case_decide as Hc.
    + exists it', i. split_and!; [done|by left|]. split_and!; [lia|done|]. intros k' v' Hkv'.
      rewrite Hkv in Hkv'. by injection Hkv' as <- <-.
    + apply (IH it' (S i)); [by apply at_before|lia|lia|]. intros j k' v' Hj Hkv'.
      destruct (decide (j = i)) as [->|]; [|apply (Hlow j k' v'); [lia|done]].
      rewrite Hkv in Hkv'. injection Hkv' as <- <-. lia.
  - exists it', i. split_and!; [done|done|]. split_and!; [lia|done|]. intros k v Hkv.
    apply lookup_lt_Some in Hkv. lia.
Qed.

Lemma Seek_position it target :
  status_corrupt it = false →
  ∃ it' j, BlockIter_Seek cmp block limit nr it target = Ret it' ∧ position it' j ∧ first_at_or_after target j.
Proof.
  intros Hst. unfold BlockIter_Seek. pose proof (lookup_lt_Some _ _ _ (wl_first WL)) as Hlen.
  destruct (Seek_search_spec (S (Z.to_nat nr)) target 0 (length ridx - 1)) as (x & E & (e & He & Hlow)).
  - exists 0%nat. split; [apply (wl_first WL)|lia].
  - lia.
  - lia.
  - replace (Z.of_nat (length ridx - 1)) with (nr - 1) in E by lia. change (Z.of_nat 0) with 0 in E.
    rewrite E. cbn [mbind res_bind].
    destruct (SeekToRestartPoint_before (with_seeked it) x e He Hst) as (it1 & -> & Hb & _). cbn [mbind res_bind].
    apply (Seek_scan_spec _ _ _ e); [done|by eapply restart_le|pose proof block_fuel; lia|done].
Qed.
End layout.

(** ** What the builder writes *)

Section built.
Context (cmp : Comparator) {OC : ComparatorOrder cmp} (interval : Z).
Hypothesis interval_pos : 1 <= interval.

(** An upper bound on the size of a block. *)
Definition kvs_bound (kvs : list (bytes * bytes)) : Z :=
  foldr (λ kv acc, size_of kv.1 + size_of kv.2 + 19 + acc) 8 kvs.

(** The last key added, or the empty string. *)
Definition last_key_of (kvs : list (bytes * bytes)) : bytes :=
  match last kvs with Some kv => kv.1 | None => [] end.

Record built (b : BlockBuilder) (kvs : list (bytes * bytes)) (ss ridx : list nat) : Prop := {
  bt_laid : well_laid kvs ss ridx;
  bt_buffer : buffer_ b = body kvs ss;
  bt_restarts : bb_restarts_ b = (λ e, Z.of_nat (off kvs ss e)) <$> ridx;
  bt_counter : 0 <= counter_ b <= interval;
  bt_fresh : kvs = [] → counter_ b = 0;
  bt_open : finished_ b = false;
  bt_last : last_key_ b = last_key_of kvs;
  bt_many : (length ridx <= S (length kvs))%nat
}.

Lemma encs_snoc kvs ss kv s :
  length ss = length kvs → encs (kvs ++ [kv]) (ss ++ [s]) = encs kvs ss ++ [encode_kv s kv].
Proof. intros Hl. unfold encs. by rewrite zip_with_app. Qed.

Lemma body_snoc kvs ss kv s :
  length ss = length kvs → body (kvs ++ [kv]) (ss ++ [s]) = body kvs ss ++ encode_kv s kv.
Proof. intros Hl. unfold body. rewrite encs_snoc, concat_app by done. cbn. by rewrite app_nil_r. Qed.

Lemma off_snoc kvs ss kv s i :
  length ss = length kvs → (i <= length kvs)%nat → off (kvs ++ [kv]) (ss ++ [s]) i = off kvs ss i.
Proof.
  intros Hl Hi. unfold off. rewrite encs_snoc by done. rewrite take_app_le; [done|].
  unfold encs. rewrite length_zip_with. lia.
Qed.

Lemma length_EncodeVarint32_le v : (length (EncodeVarint32 v) <= 5)%nat.
Proof. unfold EncodeVarint32. repeat case_decide; cbn; lia. Qed.

Lemma encode_kv_upper s kv : (length (encode_kv s kv) <= 15 + length kv.1 + length kv.2)%nat.
Proof.
  unfold encode_kv. rewrite !length_app, length_drop.
  pose proof (length_EncodeVarint32_le (Z.of_nat s)). pose proof (length_EncodeVarint32_le (size_of kv.1 - Z.of_nat s)).
  pose proof (length_EncodeVarint32_le (size_of kv.2)). lia.
Qed.

Lemma body_bound kvs ss :
  length ss = length kvs → size_of (body kvs ss) + 4 * size_of kvs + 8 <= kvs_bound kvs.
Proof.
  revert ss. induction kvs as [|kv kvs IH]; intros ss Hl; [by destruct ss|].
  destruct ss as [|s ss]; [done|]. injection Hl as Hl. specialize (IH ss Hl).
  change (kvs_bound (kv :: kvs)) with (size_of kv.1 + size_of kv.2 + 19 + kvs_bound kvs).
  unfold body, encs in *. cbn [zip_with concat length] in *. rewrite length_app.
  pose proof (encode_kv_upper s kv). lia.
Qed.

Lemma diff_index_bounds a b :
  (diff_index a b <= length a)%nat ∧ (diff_index a b <= length b)%nat ∧ take (diff_index a b) a = take (diff_index a b) b.
Proof.
  revert b. induction a as [|x a IH]; intros [|y b]; cbn; try (split_and!; lia || done).
  case_decide as Hxy; [|split_and!; lia || done]. destruct (IH b) as (H1 & H2 & H3). subst.
  split_and!; [lia|lia|]. cbn. by rewrite H3.
Qed.

Lemma memcmp_refl n s : memcmp n s s = 0.
Proof.
  revert s. induction n as [|n IH]; intros [|x s]; cbn [memcmp]; try done.
  rewrite !decide_False by lia. apply IH.
Qed.

Lemma Slice_eq_refl s : Slice_eq s s = true.
Proof.
  unfold Slice_eq. rewrite bool_decide_eq_true_2 by done. apply bool_decide_eq_true_2, memcmp_refl.
Qed.

(** Laying out one more entry, which shares [s] bytes with the last key. *)
Lemma well_laid_snoc kvs ss ridx k v s ridx' :
  well_laid kvs ss ridx → (s <= length k)%nat → (s <= length (last_key_of kvs))%nat →
  take s (last_key_of kvs) = take s k →
  (ridx' = ridx ∨ ridx' = ridx ++ [length kvs] ∧ s = 0%nat ∧ kvs ≠ []) →
  well_laid (kvs ++ [(k, v)]) (ss ++ [s]) ridx'.
Proof.
  intros WL Hsk Hsl Ht Hr. pose proof (wl_len _ _ _ WL) as Hlen.
  assert (ridx' !! 0%nat = Some 0%nat) as H0.
  { destruct Hr as [->|(-> & _)]; [apply (wl_first _ _ _ WL)|].
    rewrite lookup_app_l by (by eapply lookup_lt_Some, (wl_first _ _ _ WL)). apply (wl_first _ _ _ WL). }
  split; [rewrite !length_app; cbn; lia| |done|..].
  - intros i s' k' v' Hs' Hk'. destruct (decide (i < length kvs)%nat) as [Hi|Hi].
    + rewrite lookup_app_l in Hs' by lia. rewrite lookup_app_l in Hk' by lia. destruct (wl_shared _ _ _ WL _ _ _ _ Hs' Hk') as [H1 H2].
      split; [done|]. destruct i as [|i]; [done|]. rewrite lookup_app_l by lia. done.
    + apply lookup_app_Some in Hk' as [Hk'|[Hge Hk']]; [apply lookup_lt_Some in Hk'; lia|].
      rewrite lookup_app_r in Hs' by lia. rewrite Hlen in Hs'.
      apply list_lookup_singleton_Some in Hk' as [Hi0 [= -> ->]]. assert (i = length kvs) as -> by lia.
      rewrite Nat.sub_diag in Hs'. injection Hs' as <-. split; [done|]. unfold last_key_of in *.
      destruct (length kvs) as [|j] eqn:El.
      * destruct kvs; [|done]. cbn in Hsl. lia.
      * destruct (last kvs) as [[pk pv]|] eqn:Elast; [|by apply last_None in Elast as ->].
        exists pk, pv. rewrite last_lookup, El in Elast. cbn in Elast. rewrite lookup_app_l by lia. done.
  - intros r e e' H1 H2. destruct Hr as [->|(-> & _ & Hne)]; [by apply (wl_sorted _ _ _ WL r)|].
    destruct (decide (S r < length ridx)%nat) as [Hlt|Hge].
    + rewrite lookup_app_l in H1 by lia. rewrite lookup_app_l in H2 by lia. by apply (wl_sorted _ _ _ WL r).
    + apply lookup_app_Some in H2 as [H2|[_ H2]]; [apply lookup_lt_Some in H2; lia|].
      apply list_lookup_singleton_Some in H2 as [Hr0 <-].
      rewrite lookup_app_l in H1 by lia. destruct r as [|r].
      * rewrite (wl_first _ _ _ WL) in H1. injection H1 as <-. destruct kvs; [tauto|cbn; lia].
      * by destruct (wl_restart _ _ _ WL r e H1).
  - intros r e H1. destruct Hr as [->|(-> & -> & Hne)].
    + destruct (wl_restart _ _ _ WL r e H1) as [H2 H3]. rewrite length_app. split; [lia|].
      rewrite lookup_app_l; [done|lia].
    + apply lookup_app_Some in H1 as [H1|[_ H1]].
      * destruct (wl_restart _ _ _ WL r e H1) as [H2 H3]. rewrite length_app. split; [lia|].
        rewrite lookup_app_l; [done|lia].
      * apply list_lookup_singleton_Some in H1 as [_ <-]. rewrite length_app. cbn. split; [lia|].
        rewrite <- Hlen. by apply list_lookup_middle.
Qed.

Lemma last_key_of_snoc kvs k v : last_key_of (kvs ++ [(k, v)]) = k.
Proof. unfold last_key_of. by rewrite last_snoc. Qed.

Lemma kvs_bound_snoc kvs kv : kvs_bound (kvs ++ [kv]) = kvs_bound kvs + size_of kv.1 + size_of kv.2 + 19.
Proof. induction kvs as [|kv' kvs IH]; unfold kvs_bound in *; cbn in *; lia. Qed.

(** An entry that shares [s] bytes with the last key, with or without a new
    restart point in front of it. *)
Lemma built_snoc b kvs ss ridx k v s ridx' c :
  built b kvs ss ridx → kvs_bound (kvs ++ [(k, v)]) < 2 ^ 32 →
  (s <= length k)%nat → (s <= length (last_key_of kvs))%nat → take s (last_key_of kvs) = take s k →
  (ridx' = ridx ∨ ridx' = ridx ++ [length kvs] ∧ s = 0%nat ∧ kvs ≠ []) → 0 <= c <= interval →
  built (mkBuilder
           (PutVarint32 (PutVarint32 (PutVarint32 (buffer_ b) (w32 (Z.of_nat s)))
              (w32 (size_of k - Z.of_nat s))) (w32 (size_of v)) ++ drop s k ++ v)
           ((λ e, Z.of_nat (off kvs ss e)) <$> ridx') c false (take s (last_key_ b) ++ drop s k))
    (kvs ++ [(k, v)]) (ss ++ [s]) ridx'.
Proof.
  intros Hb Hbound Hsk Hsl Ht Hr Hc. pose proof (bt_laid _ _ _ _ Hb) as WL. pose proof (wl_len _ _ _ WL) as Hlen.
  assert (well_laid (kvs ++ [(k, v)]) (ss ++ [s]) ridx') as WL' by (by eapply well_laid_snoc).
  assert (size_of k + size_of v < 2 ^ 32) as Hkv.
  { pose proof (kvs_bound_snoc kvs (k, v)) as Hs. pose proof (body_bound kvs ss Hlen). cbn in Hs. lia. }
  split; cbn [buffer_ bb_restarts_ counter_ finished_ last_key_]; try done.
  - rewrite body_snoc, (bt_buffer _ _ _ _ Hb) by done. unfold PutVarint32, encode_kv. cbn [fst snd].
    rewrite !w32_small by mlia. by rewrite <- !app_assoc.
  - apply list_fmap_ext. intros i e He. rewrite off_snoc; [done|done|].
    assert (In_le : ∀ r e, ridx !! r = Some e → (e <= length kvs)%nat) by (by apply (restart_le kvs ss ridx WL)).
    destruct Hr as [->|(-> & _)]; [by eapply In_le|].
    apply lookup_app_Some in He as [He|[_ He]]; [by eapply In_le|].
    by apply list_lookup_singleton_Some in He as [_ <-].
  - intros Hnil. by destruct kvs.
  - by rewrite last_key_of_snoc, (bt_last _ _ _ _ Hb), Ht, take_drop.
  - pose proof (bt_many _ _ _ _ Hb). rewrite length_app. cbn.
    destruct Hr as [->|(-> & _)]; [lia|rewrite length_app; cbn; lia].
Qed.

(** What [Add] appends. *)
Lemma Add_built b kvs ss ridx k v :
  built b kvs ss ridx → kvs_bound (kvs ++ [(k, v)]) < 2 ^ 32 →
  (kvs ≠ [] → Compare (last_key_of kvs) k < 0) →
  ∃ b' ss' ridx', BlockBuilder_Add cmp interval b k v = Ret b' ∧ built b' (kvs ++ [(k, v)]) ss' ridx'.
Proof.
  intros Hb Hbound Hlt. pose proof (bt_laid _ _ _ _ Hb) as WL. pose proof (bt_counter _ _ _ _ Hb) as Hc.
  unfold BlockBuilder_Add. rewrite (bt_open _ _ _ _ Hb), decide_False by lia.
  rewrite decide_False.
  2:{ intros [Hne Hn]. apply Hn. rewrite (bt_last _ _ _ _ Hb). apply cmp_antisym, Hlt.
      intros ->. apply Hne. rewrite (bt_buffer _ _ _ _ Hb). by destruct ss. }
  assert (last_key_ b = last_key_of kvs) as El by apply (bt_last _ _ _ _ Hb).
  destruct (decide (counter_ b < interval)) as [Hci|Hci].
  - destruct (diff_index_bounds (last_key_ b) k) as (H1 & H2 & H3).
    pose proof (built_snoc b kvs ss ridx k v (diff_index (last_key_ b) k) ridx (counter_ b + 1) Hb Hbound) as Hn.
    rewrite <- El, <- (bt_restarts _ _ _ _ Hb) in Hn. rewrite H3 in Hn |- *. rewrite take_drop in Hn |- *.
    rewrite Slice_eq_refl. eexists _, _, ridx. split; [done|]. apply Hn; auto. lia.
  - assert (kvs ≠ []) as Hne by (intros Hnil; apply (bt_fresh _ _ _ _ Hb) in Hnil; lia).
    pose proof (built_snoc b kvs ss ridx k v 0 (ridx ++ [length kvs]) 1 Hb Hbound) as Hn.
    pose proof (body_bound kvs ss (wl_len _ _ _ WL)) as Hbb. pose proof (kvs_bound_snoc kvs (k, v)) as Hsn.
    rewrite fmap_app, <- (bt_restarts _ _ _ _ Hb) in Hn. cbn [fmap list_fmap] in Hn.
    rewrite (off_end kvs ss ridx WL) in Hn. rewrite (bt_buffer _ _ _ _ Hb) in Hn |- *.
    rewrite (w32_small (size_of (body kvs ss))) by mlia. cbn [take app drop] in Hn |- *.
    rewrite Slice_eq_refl. eexists _, _, _. split; [done|]. apply Hn; auto; lia.
Qed.

Lemma built_init : built BlockBuilder_init [] [] [0%nat].
Proof.
  assert (well_laid [] [] [0%nat]) as WL.
  { by split; try done; intros [|r] ?. }
  split; cbn; try done; lia.
Qed.

Lemma add_entries_built b done_kvs ss ridx kvs :
  built b done_kvs ss ridx → kvs_bound (done_kvs ++ kvs) < 2 ^ 32 →
  StronglySorted (λ a b, Compare a.1 b.1 < 0) (done_kvs ++ kvs) →
  ∃ b' ss' ridx', add_entries cmp interval b kvs = Ret b' ∧ built b' (done_kvs ++ kvs) ss' ridx'.
Proof.
  revert b done_kvs ss ridx. induction kvs as [|[k v] kvs IH]; intros b dk ss ridx Hb Hbound Hs; cbn.
  { rewrite app_nil_r. eauto. }
  rewrite cons_middle, app_assoc in Hbound, Hs |- *.
  destruct (Add_built b dk ss ridx k v Hb) as (b' & ss' & ridx' & -> & Hb').
  - clear -Hbound. induction kvs as [|kv kvs IH] using rev_ind; [by rewrite app_nil_r in Hbound|].
    rewrite app_assoc, kvs_bound_snoc in Hbound. apply IH. lia.
  - intros Hne. destruct (exists_last Hne) as (l & [lk lv] & ->). rewrite last_key_of_snoc. rewrite <- app_assoc in Hs.
    apply StronglySorted_app_1_elem_of with (x1 := (lk, lv)) (x2 := (k, v)) in Hs; [done|elem|elem].
  - cbn. by apply (IH b' _ ss' ridx').
Qed.

Lemma Finish_built b kvs ss ridx :
  built b kvs ss ridx → kvs_bound kvs < 2 ^ 32 →
  (BlockBuilder_Finish b).2 = block kvs ss ridx ∧ size_of (block kvs ss ridx) = CurrentSizeEstimate b
  ∧ size_of (block kvs ss ridx) <= kvs_bound kvs.
Proof.
  intros Hb Hbound. pose proof (bt_laid _ _ _ _ Hb) as WL. pose proof (bt_many _ _ _ _ Hb) as Hm.
  pose proof (body_bound kvs ss (wl_len _ _ _ WL)) as Hbb.
  unfold BlockBuilder_Finish, CurrentSizeEstimate. cbn [snd]. rewrite (bt_restarts _ _ _ _ Hb), length_fmap.
  rewrite w32_small by mlia. rewrite (length_block kvs ss ridx), (bt_buffer _ _ _ _ Hb). unfold limit.
  split_and!; [|lia|lia]. unfold block, restart_array, PutFixed32 at 1. rewrite app_assoc. f_equal.
  clear. generalize (body kvs ss). induction ridx as [|e ridx IH]; intros bs; cbn; [by rewrite app_nil_r|].
  rewrite IH. unfold PutFixed32. by rewrite <- app_assoc.
Qed.
End built.

(** ** The iterator follows the contract *)

Section block_cursor.
Context (kvs : list (bytes * bytes)) (ss ridx : list nat) (cmp : Comparator) {OC : ComparatorOrder cmp}.
Hypothesis WL : well_laid kvs ss ridx.
Hypothesis small : size_of (block kvs ss ridx) < 2 ^ 32.
Hypothesis sorted : StronglySorted (λ a b, Compare a.1 b.1 < 0) kvs.

Lemma position_status it i : position kvs ss ridx it i → status_corrupt it = false.
Proof. intros [[_ []]|[_ []]]; done. Qed.

Lemma block_cursor :
  Cursor cmp kvs (BlockIter_ops cmp (block kvs ss ridx) (limit kvs ss) (size_of ridx)) (position kvs ss ridx).
Proof.
  split; cbn.
  - intros it i [[? _]|[-> _]]; lia.
  - intros it i. by apply Valid_position.
  - intros it i k v. by apply key_position.
  - intros it i m j Hp Hm. pose proof (position_status it i Hp) as Hst. destruct m; cbn in Hm.
    + injection Hm as <-. by apply SeekToFirst_position.
    + injection Hm as <-. by apply SeekToLast_position.
    + destruct (Seek_position kvs ss ridx WL small cmp sorted it target Hst) as (it' & j' & E & Hp' & Hle & Hb & Ha).
      exists it'. split; [done|]. injection Hm as <-. rewrite <- (lower_bound_unique cmp kvs target j'); [done|done|done|].
      intros k v Hk. specialize (Ha k v Hk). lia.
    + case_decide; [|done]. injection Hm as <-. by apply Next_position.
    + case_decide; [|done]. injection Hm as <-. by apply Prev_position.
Qed.

(** *** Skipping a user key *)

Local Abbreviation skip := (BlockIter_skip (block kvs ss ridx) (limit kvs ss) (size_of ridx)).

Lemma skip_position fuel it p x :
  user_sorted kvs → position kvs ss ridx it p → (length kvs - p < fuel)%nat →
  ∃ it', skip fuel it x = Ret it' ∧ position kvs ss ridx it' (p `max` upto kvs x).
Proof using All.
  intros Hu. revert it p. induction fuel as [|fuel IH]; intros it p Hp Hf; [lia|]. cbn [BlockIter_skip].
  rewrite (Valid_position kvs ss ridx WL it p Hp). pose proof (upto_le kvs x). destruct (decide (p < length kvs)%nat) as [Hlt|Hge].
  - rewrite bool_decide_eq_true_2 by done. pose proof Hp as [[_ Ha]|[-> _]]; [|lia].
    destruct (ae_entry _ _ _ _ _ Ha) as (k & v & Hkv & -> & _). pose proof (upto_spec kvs Hu x p _ Hkv) as Hs. cbn in Hs.
    unfold user_int in Hs. destruct (decide (key_int (ExtractUserKey k) > x)).
    + exists it. split; [done|]. by rewrite Nat.max_l by lia.
    + destruct (Next_position kvs ss ridx WL small it p Hp Hlt) as (it' & E & Hp'). unfold BlockIter_Next in E.
      rewrite (Valid_position kvs ss ridx WL it p Hp), bool_decide_eq_true_2 in E by done.
      destruct (ParseNextKey _ _ _ it) as [[it1 ok]| |]; cbn [mbind res_bind] in E |- *; simplify_eq.
      destruct (IH it' (S p) Hp' ltac:(lia)) as (it2 & -> & Hp2). exists it2. split; [done|].
      replace (p `max` upto kvs x)%nat with (S p `max` upto kvs x)%nat by lia. done.
  - rewrite bool_decide_eq_false_2 by done. exists it. split; [done|]. assert (p = length kvs) as ->.
    { destruct Hp as [[? _]|[? _]]; lia. }
    by rewrite Nat.max_l by lia.
Qed.

(** [SkipToNextUserKey] from a position that is not before the user key; an
    iterator that was never positioned seeks first. *)
Lemma SkipToNextUserKey_position it p t :
  NumericKeys cmp → position kvs ss ridx it p →
  ∃ it' q, BlockIter_SkipToNextUserKey cmp (block kvs ss ridx) (limit kvs ss) (size_of ridx) it t = Ret it'
    ∧ position kvs ss ridx it' q
    ∧ q = (if iter_seeked_ it then p `max` upto kvs (user_int t) else upto kvs (user_int t))%nat.
Proof using All.
  intros HN Hp. pose proof (sorted_user_sorted cmp kvs sorted) as Hu. unfold BlockIter_SkipToNextUserKey.
  pose proof (block_fuel kvs ss ridx WL). destruct (iter_seeked_ it).
  - cbn [mbind res_bind]. destruct (skip_position (S (length (block kvs ss ridx))) it p (user_int t) Hu Hp ltac:(lia)) as (it' & E & Hp').
    exists it', (p `max` upto kvs (user_int t))%nat. by split_and!.
  - pose proof block_cursor as HC. destruct (cur_move _ _ it p (Seek t) _ Hp eq_refl) as (it1 & E1 & Hp1).
    cbn [op_move BlockIter_ops] in E1. rewrite E1. cbn [mbind res_bind].
    destruct (skip_position (S (length (block kvs ss ridx))) it1 _ (user_int t) Hu Hp1 ltac:(lia)) as (it' & E & Hp').
    exists it', (upto kvs (user_int t)). split; [done|]. split; [|done].
    rewrite Nat.max_r in Hp'; [done|]. by apply (lower_bound_user cmp).
Qed.

Lemma NumRestarts_block : NumRestarts_of (block kvs ss ridx) = size_of ridx.
Proof.
  pose proof (length_block kvs ss ridx) as Hl. unfold NumRestarts_of.
  unfold block at 2. rewrite app_assoc, drop_app_length'.
  - rewrite <- (app_nil_r (EncodeFixed32 _)). rewrite DecodeFixed32_ptr_encode, w32_small; [done|].
    pose proof (limit_small kvs ss ridx small). mlia.
  - unfold block. rewrite app_assoc, (length_app (_ ++ _)), length_EncodeFixed32. lia.
Qed.

Lemma Block_make_block :
  Block_make (block kvs ss ridx) = mkBlock (block kvs ss ridx) (size_of (block kvs ss ridx)) (limit kvs ss).
Proof.
  pose proof (length_block kvs ss ridx) as Hl. pose proof (limit_small kvs ss ridx small). unfold Block_make.
  rewrite decide_False by lia. rewrite NumRestarts_block.
  rewrite decide_False by dlia.
  f_equal. rewrite w32_small; [lia|mlia].
Qed.
End block_cursor.

(** ** Blocks by their entries *)

(** [contents] is a block of the entries [kvs]. *)
Definition block_of (cmp : Comparator) (contents : bytes) (kvs : list (bytes * bytes)) : Prop :=
  ∃ ss ridx, contents = block kvs ss ridx ∧ well_laid kvs ss ridx ∧ size_of contents <= kvs_bound kvs < 2 ^ 32
    ∧ StronglySorted (λ a b, Compare a.1 b.1 < 0) kvs.

(** The operations of the iterator that [Block(contents).NewIterator] makes. *)
Definition contents_ops (cmp : Comparator) (contents : bytes) : IterOps BlockIter :=
  BlockIter_ops cmp contents (restart_offset_ (Block_make contents)) (NumRestarts_of contents).

(** Builders that hold the same keys with values of the same sizes. *)
Record same_shape (b b' : BlockBuilder) : Prop := {
  sh_buffer : length (buffer_ b) = length (buffer_ b');
  sh_restarts : bb_restarts_ b = bb_restarts_ b';
  sh_counter : counter_ b = counter_ b';
  sh_last : last_key_ b = last_key_ b'
}.

Lemma Add_shape cmp interval b b' k v v' c c' :
  same_shape b b' → length v = length v' → BlockBuilder_Add cmp interval b k v = Ret c →
  BlockBuilder_Add cmp interval b' k v' = Ret c' → same_shape c c'.
Proof.
  intros [Hb Hr Hc Hl] Hv. unfold BlockBuilder_Add. rewrite <- Hr, <- Hc, <- Hl, <- Hb, <- Hv.
  destruct (finished_ b), (finished_ b'); try done. destruct (decide (counter_ b > interval)); [done|].
  destruct (decide (buffer_ b ≠ [] ∧ _)); [done|]. destruct (decide (buffer_ b' ≠ [] ∧ _)); [done|]. destruct (if decide (counter_ b < interval) then _ else _) as [[shared restarts] counter].
  destruct (Slice_eq _ _); [|done]. intros [= <-] [= <-]. split; cbn; [|done..].
  unfold PutVarint32. rewrite !length_app. lia.
Qed.

Lemma add_entries_shape cmp interval b b' kvs kvs' c c' :
  same_shape b b' → Forall2 (λ e e' : bytes * bytes, e.1 = e'.1 ∧ length e.2 = length e'.2) kvs kvs' →
  add_entries cmp interval b kvs = Ret c → add_entries cmp interval b' kvs' = Ret c' → same_shape c c'.
Proof.
  intros Hs H. revert b b' Hs. induction H as [|[k v] [k' v'] kvs kvs' [E Hv] _ IH]; intros b b' Hs; cbn [add_entries].
  { by intros [= <-] [= <-]. }
  cbn [fst snd] in E, Hv. subst k'. destruct (BlockBuilder_Add cmp interval b k v) as [d| |] eqn:Ed; [|done..].
  destruct (BlockBuilder_Add cmp interval b' k v') as [d'| |] eqn:Ed'; [|done..]. cbn [mbind res_bind].
  apply IH. by eapply Add_shape.
Qed.

Lemma Finish_shape b b' : same_shape b b' → size_of (BlockBuilder_Finish b).2 = size_of (BlockBuilder_Finish b').2.
Proof.
  intros [Hb Hr _ _]. unfold BlockBuilder_Finish. cbn [snd]. rewrite <- Hr. generalize (w32 (size_of (bb_restarts_ b))).
  intros n. unfold PutFixed32. rewrite !length_app. do 2 f_equal. clear Hr. revert Hb. generalize (buffer_ b) (buffer_ b').
  induction (bb_restarts_ b) as [|r rs IH]; intros x y Hxy; cbn [foldl]; [done|]. apply IH. rewrite !length_app. lia.
Qed.

Lemma add_entries_app cmp interval b l l' :
  add_entries cmp interval b (l ++ l') = (b' ← add_entries cmp interval b l; add_entries cmp interval b' l').
Proof.
  revert b. induction l as [|[k v] l IH]; intros b; cbn [add_entries app]; [done|].
  destruct (BlockBuilder_Add cmp interval b k v); [|done..]. cbn [mbind res_bind]. apply IH.
Qed.

Lemma Finish_block_of cmp interval b kvs ss ridx :
  built interval b kvs ss ridx → kvs_bound kvs < 2 ^ 32 → StronglySorted (λ a b, Compare a.1 b.1 < 0) kvs →
  block_of cmp (BlockBuilder_Finish b).2 kvs ∧ size_of (BlockBuilder_Finish b).2 = CurrentSizeEstimate b.
Proof.
  intros Hb Hbound Hs. destruct (Finish_built interval b kvs ss ridx Hb Hbound) as (-> & Hsz & Hsmall).
  split; [|done]. exists ss, ridx. by pose proof (bt_laid _ _ _ _ _ Hb).
Qed.

Lemma block_of_iterator cmp {OC : ComparatorOrder cmp} contents kvs :
  block_of cmp contents kvs →
  ∃ it R, Block_NewIterator (Block_make contents) = EntryIterator it
    ∧ Cursor cmp kvs (contents_ops cmp contents) R ∧ R it (length kvs)
    ∧ ∀ it i, R it i → status_corrupt it = false.
Proof.
  intros (ss & ridx & -> & WL & [Hle Hsmall'] & Hs). unfold contents_ops.
  assert (size_of (block kvs ss ridx) < 2 ^ 32) as Hsmall by lia.
  rewrite Block_make_block, NumRestarts_block by done. cbn [restart_offset_].
  exists (BlockIter_init (limit kvs ss) (size_of ridx)), (position kvs ss ridx).
  pose proof (length_block kvs ss ridx). pose proof (lookup_lt_Some _ _ _ (wl_first _ _ _ WL)).
  pose proof (limit_small kvs ss ridx Hsmall). split_and!.
  - unfold Block_NewIterator. cbn [block_size block_data restart_offset_].
    rewrite (NumRestarts_block kvs ss ridx) by done. by rewrite !decide_False by lia.
  - by apply block_cursor.
  - by right.
  - intros it i. apply position_status.
Qed.

(** ** Properties *)

(** C14. A block built from strictly increasing keys is read back by its iterator:
    every [Add] succeeds, the finished block has the estimated size and is
    accepted by [Block], and after any sequence of moves the interface allows,
    the iterator is where the contract says and shows that entry. *)
Theorem block_iterator_refines (cmp : Comparator) (interval : Z) (kvs : list (bytes * bytes)) :
  ComparatorOrder cmp → 1 <= interval → kvs_bound kvs < 2 ^ 32 →
  StronglySorted (λ a b, Compare a.1 b.1 < 0) kvs →
  ∃ b, add_entries cmp interval BlockBuilder_init kvs = Ret b
    ∧ let contents := (BlockBuilder_Finish b).2 in
      let blk := Block_make contents in
      let ops := BlockIter_ops cmp contents (restart_offset_ blk) (NumRestarts_of contents) in
      size_of contents = CurrentSizeEstimate b
      ∧ ∃ it, Block_NewIterator blk = EntryIterator it
        ∧ ∀ ms i, cursor_moves cmp kvs (length kvs) ms = Some i →
          ∃ it', run_moves ops it ms = Ret it' ∧ shows kvs ops it' i ∧ status_corrupt it' = false.
Proof.
  intros OC Hi Hbound Hs.
  destruct (add_entries_built cmp interval Hi BlockBuilder_init [] [] [0%nat] kvs) as (b & ss & ridx & E & Hb).
  { by apply built_init. } 1-2: done.
  exists b. split; [done|]. destruct (Finish_block_of cmp interval b kvs ss ridx Hb Hbound Hs) as [Hblk Hsz].
  cbv zeta. split; [done|]. destruct (block_of_iterator cmp _ _ Hblk) as (it & R & -> & HC & H0 & Hst).
  exists it. split; [done|]. intros ms i Hms.
  destruct (Cursor_moves cmp kvs _ _ _ _ ms i H0 Hms) as (it' & E' & Hp).
  exists it'. split; [exact E'|]. split; [exact (Cursor_shows _ _ _ _ _ _ Hp)|by eapply Hst].
Qed.

Lemma block_iterator_refines_witness :
  let kvs := [([97; 98], [1]); ([97; 99], [2; 3]); ([97; 99; 100], []); ([98], [4])] in
  ∃ b, add_entries BytewiseComparator 2 BlockBuilder_init kvs = Ret b
    ∧ let contents := (BlockBuilder_Finish b).2 in
      let blk := Block_make contents in
      let ops := BlockIter_ops BytewiseComparator contents (restart_offset_ blk) (NumRestarts_of contents) in
      size_of contents = CurrentSizeEstimate b
      ∧ ∃ it, Block_NewIterator blk = EntryIterator it
        ∧ ∀ ms i, cursor_moves BytewiseComparator kvs (length kvs) ms = Some i →
          ∃ it', run_moves ops it ms = Ret it' ∧ shows kvs ops it' i ∧ status_corrupt it' = false.
Proof.
  apply (block_iterator_refines BytewiseComparator 2); [apply _|lia|by vm_compute|].
  repeat constructor.
Defined.
