(* ===== verification/Bloom.v ===== *)
(** * Bloom: hashing and filter policies

    [util/hash.cc], [util/bloom.cc], [include/leveldb/filter_policy.h] and the
    [InternalFilterPolicy] of [db/dbformat.cc].  A filter policy is a class of
    operations with the promise the interface documents; the Bloom filter and
    the policy on internal keys keep it. *)

From S2P Require Import Prelude Coding Comparator NovaCommon DbFormat.

(** ** Hash *)

Definition hash_m : Z := 0xc6a4a793.

(** [while (data + 4 <= limit)]: the hash and the remaining bytes. *)
Fixpoint Hash_words (h : Z) (data : bytes) : Z * bytes :=
  match data with
  | a :: b :: c :: d :: rest =>
      let w := DecodeFixed32_ptr [a; b; c; d] in
      let h := w32 (h + w) in
      let h := w32 (h * hash_m) in
      Hash_words (Z.lxor h (h ≫ 16)) rest
  | _ => (h, data)
  end.

(** The [switch] on the remaining bytes, with its fall through. *)
Definition Hash_tail (h : Z) (data : bytes) : Z :=
  let h := if decide (length data = 3)%nat then w32 (h + (byte_at data 2 ≪ 16)) else h in
  let h := if decide (length data = 3 ∨ length data = 2)%nat then w32 (h + (byte_at data 1 ≪ 8)) else h in
  if decide (length data = 0)%nat then h
  else
    let h := w32 (h + byte_at data 0) in
    let h := w32 (h * hash_m) in
    Z.lxor h (h ≫ 24).

Definition Hash (data : bytes) (seed : Z) : Z :=
  let h := w32 (Z.lxor seed (w64 (size_of data * hash_m))) in
  let '(h, rest) := Hash_words h data in
  Hash_tail h rest.

(** ** Filter policies *)

Class FilterPolicy := {
  CreateFilter : list bytes → bytes → bytes;
  KeyMayMatch : bytes → bytes → bool
}.

(** The promise of [filter_policy.h]: a filter is appended to [dst], and every
    key it was made of matches it.  The number of keys is an [int]. *)
Class FilterContract (P : FilterPolicy) : Prop := {
  filter_appended keys dst : CreateFilter keys dst = dst ++ CreateFilter keys [];
  filter_matches keys key :
    size_of keys < 2 ^ 31 → key ∈ keys → KeyMayMatch key (CreateFilter keys []) = true
}.

(** A bound on the size of filters. *)
Class FilterSized (P : FilterPolicy) (c : Z) : Prop := {
  filter_sized_pos : 0 <= c;
  filter_sized keys : size_of keys < 2 ^ 31 → size_of (CreateFilter keys []) <= c * size_of keys + 10
}.

(** ** Bloom filters *)

Definition BloomHash (key : bytes) : Z := Hash key 0xbc9f1d34.

Record BloomFilterPolicy := mkBloom { bits_per_key_ : Z; k_ : Z }.

(** [BloomFilterPolicy(bits_per_key)] for a non-negative argument: below the cap
    of 30 the rounded product with 0.69 truncates like the exact one. *)
Definition Bloom_make (bits_per_key : Z) : BloomFilterPolicy :=
  let k := bits_per_key * 69 / 100 in
  let k := if decide (k < 1) then 1 else k in
  let k := if decide (k > 30) then 30 else k in
  mkBloom bits_per_key k.

(** [(h >> 17) | (h << 15)]. *)
Definition rotate_17 (h : Z) : Z := Z.lor (h ≫ 17) (w32 (h ≪ 15)).

(** [array[bitpos / 8] |= (1 << (bitpos % 8))]. *)
Definition set_bit (array : bytes) (bitpos : Z) : bytes :=
  alter (λ b, Z.lor b (1 ≪ (bitpos mod 8))) (Z.to_nat (bitpos / 8)) array.

(** The inner loop of [CreateFilter]. *)
Fixpoint set_probes (j : nat) (array : bytes) (bits h delta : Z) : bytes :=
  match j with
  | O => array
  | S j => set_probes j (set_bit array (h mod bits)) bits (w32 (h + delta)) delta
  end.

Definition filter_bits (n bits_per_key : Z) : Z :=
  let bits := w64 (n * bits_per_key) in
  if decide (bits < 64) then 64 else bits.

Definition filter_bytes (n bits_per_key : Z) : Z := w64 (filter_bits n bits_per_key + 7) / 8.

Definition Bloom_CreateFilter (P : BloomFilterPolicy) (keys : list bytes) (dst : bytes) : bytes :=
  let nbytes := filter_bytes (size_of keys) (bits_per_key_ P) in
  let bits := w64 (nbytes * 8) in
  let array := replicate (Z.to_nat nbytes) 0 ++ [w8 (k_ P)] in
  dst ++ foldl (λ array key,
                  let h := BloomHash key in
                  set_probes (Z.to_nat (k_ P)) array bits h (rotate_17 h)) array keys.

(** The loop of [KeyMayMatch]. *)
Fixpoint check_probes (j : nat) (array : bytes) (bits h delta : Z) : bool :=
  match j with
  | O => true
  | S j =>
      let bitpos := h mod bits in
      if decide (Z.land (byte_at array (Z.to_nat (bitpos / 8))) (1 ≪ (bitpos mod 8)) = 0) then false
      else check_probes j array bits (w32 (h + delta)) delta
  end.

(** [array[len - 1]] is a [char]; converted to [size_t] a negative one is
    larger than 30, like its unsigned value. *)
Definition Bloom_KeyMayMatch (key filter : bytes) : bool :=
  let len := length filter in
  if decide (len < 2)%nat then false
  else
    let bits := (Z.of_nat len - 1) * 8 in
    let k := byte_at filter (len - 1) in
    if decide (k > 30) then true
    else
      let h := BloomHash key in
      check_probes (Z.to_nat k) filter bits h (rotate_17 h).

Definition BloomPolicy (P : BloomFilterPolicy) : FilterPolicy := {|
  CreateFilter := Bloom_CreateFilter P;
  KeyMayMatch := Bloom_KeyMayMatch
|}.

(** [NewBloomFilterPolicy(bits_per_key)]. *)
Definition NewBloomFilterPolicy (bits_per_key : Z) : FilterPolicy := BloomPolicy (Bloom_make bits_per_key).

(** [InternalFilterPolicy]: filters on the user keys of internal keys. *)
Definition InternalFilterPolicy (user_policy : FilterPolicy) : FilterPolicy := {|
  CreateFilter keys dst := CreateFilter (ExtractUserKey <$> keys) dst;
  KeyMayMatch key f := KeyMayMatch (ExtractUserKey key) f
|}.

(** The values [util/hash_test.cc] expects. *)
Example Hash_test_vectors :
  Hash [] 0xbc9f1d34 = 0xbc9f1d34
  ∧ Hash [0x62] 0xbc9f1d34 = 0xef1345c4
  ∧ Hash [0xc3; 0x97] 0xbc9f1d34 = 0x5b663814
  ∧ Hash [0xe2; 0x99; 0xa5] 0xbc9f1d34 = 0x323c078f
  ∧ Hash [0xe1; 0x80; 0xb9; 0x32] 0xbc9f1d34 = 0xed21633a
  ∧ Hash [1; 192; 0; 0; 0; 0; 0; 0; 0; 0; 0; 0; 0; 0; 0; 0; 20; 0; 0; 0; 0; 0; 4; 0; 0; 0; 0; 20;
          0; 0; 0; 24; 40; 0; 0; 0; 0; 0; 0; 0; 2; 0; 0; 0; 0; 0; 0; 0] 0x12345678 = 0xf333dabb.
Proof. by vm_compute. Qed.

(** ** No false negatives *)

(** Bit [p] of a byte array. *)
Definition has_bit (array : bytes) (p : Z) : Prop :=
  Z.testbit (byte_at array (Z.to_nat (p / 8))) (p mod 8) = true.

Lemma length_set_bit array q : length (set_bit array q) = length array.
Proof. apply length_alter. Qed.

Lemma length_set_probes j array bits h delta : length (set_probes j array bits h delta) = length array.
Proof. revert array h. induction j; intros; cbn; [done|]. by rewrite IHj, length_set_bit. Qed.

Lemma byte_at_set_bit array q i :
  byte_at (set_bit array q) i
  = if decide (i = Z.to_nat (q / 8) ∧ (i < length array)%nat)
    then Z.lor (byte_at array i) (1 ≪ (q mod 8)) else byte_at array i.
Proof.
  unfold set_bit, byte_at. destruct (decide (i = Z.to_nat (q / 8))) as [->|Hne].
  - rewrite list_lookup_alter_eq. case_decide as Hd.
    + destruct (lookup_lt_is_Some_2 array _ (proj2 Hd)) as [b ->]. done.
    + rewrite lookup_ge_None_2; [done|lia].
  - rewrite decide_False by tauto. by rewrite list_lookup_alter_ne.
Qed.

Lemma has_bit_keep array q p : has_bit array p → has_bit (set_bit array q) p.
Proof.
  unfold has_bit. intros H. rewrite byte_at_set_bit. case_decide; [|done]. rewrite Z.lor_spec, H. done.
Qed.

Lemma has_bit_set array p : 0 <= p < 8 * size_of array → has_bit (set_bit array p) p.
Proof.
  intros Hp. unfold has_bit. rewrite byte_at_set_bit, decide_True by dlia.
  rewrite Z.lor_spec, Z.shiftl_spec by dlia. by rewrite Z.sub_diag, orb_true_r.
Qed.

Lemma has_bit_land array p :
  has_bit array p → Z.land (byte_at array (Z.to_nat (p / 8))) (1 ≪ (p mod 8)) ≠ 0.
Proof.
  unfold has_bit. intros H E. apply (f_equal (λ z, Z.testbit z (p mod 8))) in E.
  rewrite Z.land_spec, H, Z.shiftl_spec, Z.sub_diag, Z.bits_0 in E by dlia. done.
Qed.

(** Probe positions of a key. *)
Fixpoint probes (j : nat) (bits h delta : Z) : list Z :=
  match j with O => [] | S j => (h mod bits) :: probes j bits (w32 (h + delta)) delta end.

Lemma set_probes_keep j array bits h delta p :
  has_bit array p → has_bit (set_probes j array bits h delta) p.
Proof. revert array h. induction j; intros; cbn; [done|]. by apply IHj, has_bit_keep. Qed.

Lemma set_probes_set j array bits h delta :
  0 < bits <= 8 * size_of array →
  ∀ p, p ∈ probes j bits h delta → has_bit (set_probes j array bits h delta) p.
Proof.
  revert array h. induction j as [|j IH]; intros array h Hb p; cbn; [by intros ?%not_elem_of_nil|].
  intros [->|Hp]%elem_of_cons.
  - apply set_probes_keep, has_bit_set. pose proof (Z.mod_pos_bound h bits). lia.
  - apply IH; [by rewrite length_set_bit|done].
Qed.

Lemma check_probes_true j array bits h delta :
  (∀ p, p ∈ probes j bits h delta → has_bit array p) → check_probes j array bits h delta = true.
Proof.
  revert h. induction j as [|j IH]; intros h H; cbn; [done|].
  rewrite decide_False by (apply has_bit_land, H; cbn; elem). apply IH. intros p Hp. apply H. cbn. elem.
Qed.

Section bloom.
Context (P : BloomFilterPolicy).

Definition add_key (bits : Z) (array key : bytes) : bytes :=
  set_probes (Z.to_nat (k_ P)) array bits (BloomHash key) (rotate_17 (BloomHash key)).

Lemma add_keys_keep bits keys array p :
  has_bit array p → has_bit (foldl (add_key bits) array keys) p.
Proof. revert array. induction keys; intros; cbn; [done|]. by apply IHkeys, set_probes_keep. Qed.

Lemma length_add_keys bits keys array : length (foldl (add_key bits) array keys) = length array.
Proof. revert array. induction keys; intros; cbn; [done|]. rewrite IHkeys. apply length_set_probes. Qed.

Lemma add_keys_set bits keys array key p :
  0 < bits <= 8 * size_of array → key ∈ keys →
  p ∈ probes (Z.to_nat (k_ P)) bits (BloomHash key) (rotate_17 (BloomHash key)) →
  has_bit (foldl (add_key bits) array keys) p.
Proof.
  intros Hb Hin Hp. revert array Hb. induction Hin as [? keys|? k' keys Hin IH]; intros array Hb; cbn.
  - apply add_keys_keep. by apply set_probes_set.
  - apply (IH Hp). unfold add_key. by rewrite length_set_probes.
Qed.

(** The probes stay below the last byte, which keeps the number of probes. *)
Lemma set_probes_last j l x bits h delta :
  0 < bits <= 8 * size_of l → ∃ l', set_probes j (l ++ [x]) bits h delta = l' ++ [x] ∧ length l' = length l.
Proof.
  revert l h. induction j as [|j IH]; intros l h Hb; cbn; [eauto|].
  pose proof (Z.mod_pos_bound h bits). unfold set_bit at 1. rewrite alter_app_l by dlia.
  match goal with |- context [alter ?f ?i l ++ _] => destruct (IH (alter f i l) (w32 (h + delta))) as (l' & E & Hl) end;
    [by rewrite length_alter|].
  exists l'. rewrite length_alter in Hl. done.
Qed.

Lemma add_keys_last bits keys l x :
  0 < bits <= 8 * size_of l → ∃ l', foldl (add_key bits) (l ++ [x]) keys = l' ++ [x] ∧ length l' = length l.
Proof.
  revert l. induction keys as [|key keys IH]; intros l Hb; cbn; [eauto|]. unfold add_key at 2.
  destruct (set_probes_last (Z.to_nat (k_ P)) l x bits (BloomHash key) (rotate_17 (BloomHash key)) Hb) as (l1 & -> & Hl1).
  destruct (IH l1) as (l2 & -> & Hl2); [by rewrite Hl1|]. exists l2. split; [done|lia].
Qed.

Hypothesis k_range : 1 <= k_ P <= 30.
Hypothesis bits_range : 0 <= bits_per_key_ P < 2 ^ 31.

Lemma filter_bytes_range n :
  0 <= n < 2 ^ 31 → 8 <= filter_bytes n (bits_per_key_ P) ∧ w64 (filter_bytes n (bits_per_key_ P) * 8) = filter_bytes n (bits_per_key_ P) * 8.
Proof.
  intros Hn. unfold filter_bytes, filter_bits. assert (0 <= n * bits_per_key_ P < 2 ^ 62) by nia.
  rewrite (w64_small (n * _)) by (unfold is_u64; lia).
  case_decide; rewrite !w64_small; unfold is_u64; dlia.
Qed.

Lemma Bloom_matches keys key :
  size_of keys < 2 ^ 31 → key ∈ keys → Bloom_KeyMayMatch key (Bloom_CreateFilter P keys []) = true.
Proof.
  intros Hn Hin. destruct (filter_bytes_range (size_of keys)) as [H8 Hw]; [lia|].
  unfold Bloom_CreateFilter. rewrite Hw. cbn [app].
  set (nb := filter_bytes _ _) in *. change (foldl _ ?a keys) with (foldl (add_key (nb * 8)) a keys).
  destruct (add_keys_last (nb * 8) keys (replicate (Z.to_nat nb) 0) (w8 (k_ P))) as (l & E & Hl).
  { rewrite length_replicate. lia. }
  rewrite length_replicate in Hl.
  pose proof (add_keys_set (nb * 8) keys (replicate (Z.to_nat nb) 0 ++ [w8 (k_ P)]) key) as Hset.
  rewrite E in Hset |- *. unfold Bloom_KeyMayMatch. rewrite length_app, Hl. cbn [length].
  rewrite decide_False by lia. unfold byte_at. rewrite lookup_app_r by lia.
  replace (Z.to_nat nb + 1 - 1 - length l)%nat with 0%nat by lia. cbn [lookup list_lookup default].
  rewrite w8_small in Hset |- * by (unfold is_u8; lia). cbn. rewrite decide_False by lia.
  replace ((Z.of_nat (Z.to_nat nb + 1) - 1) * 8) with (nb * 8) by lia.
  apply check_probes_true. intros p Hp. apply Hset; [|done|done].
  rewrite length_app, length_replicate. cbn. lia.
Qed.
End bloom.

Lemma Bloom_contract bits_per_key :
  0 <= bits_per_key < 2 ^ 31 → FilterContract (NewBloomFilterPolicy bits_per_key).
Proof.
  intros Hb. split; [done|]. intros keys key.
  apply (Bloom_matches (Bloom_make bits_per_key)); [|done]. unfold Bloom_make. cbn. repeat case_decide; dlia.
Qed.

Lemma Bloom_sized bits_per_key :
  0 <= bits_per_key < 2 ^ 31 → FilterSized (NewBloomFilterPolicy bits_per_key) (bits_per_key / 8 + 1).
Proof.
  intros Hb. split; [dlia|]. intros keys Hn. cbn [CreateFilter NewBloomFilterPolicy BloomPolicy].
  unfold Bloom_CreateFilter. cbn [app].
  change (foldl _ ?a keys) with (foldl (add_key (Bloom_make bits_per_key) (w64 (filter_bytes (size_of keys) bits_per_key * 8))) a keys).
  rewrite length_add_keys, length_app, length_replicate. cbn [length].
  change (bits_per_key_ (Bloom_make bits_per_key)) with bits_per_key.
  unfold filter_bytes, filter_bits. set (n := size_of keys) in *.
  assert (0 <= n * bits_per_key < 2 ^ 62) by (unfold n; nia).
  assert (n * bits_per_key <= n * (bits_per_key / 8 + 1) * 8)
    by (pose proof (Z.mul_succ_div_gt bits_per_key 8); unfold n; nia).
  rewrite (w64_small (n * _)) by (unfold is_u64; lia).
  case_decide; rewrite w64_small by (unfold is_u64; lia); dlia.
Qed.

#[export] Instance Internal_sized P c `{!FilterSized P c} : FilterSized (InternalFilterPolicy P) c.
Proof.
  split; [by apply (filter_sized_pos (P := P))|]. intros keys. cbn. rewrite <- (length_fmap ExtractUserKey keys).
  apply filter_sized.
Qed.

#[export] Instance Internal_contract P `{!FilterContract P} : FilterContract (InternalFilterPolicy P).
Proof.
  split; cbn.
  - intros keys dst. apply filter_appended.
  - intros keys key Hn Hin. apply filter_matches; [by rewrite length_fmap|]. by apply list_elem_of_fmap_2.
Qed.

(** ** Properties *)

(** A table never hides an entry behind its filter: the filter made of the user
    keys of some internal keys is appended to what was there, and matches every
    lookup key whose user key is among them, whatever its sequence number. *)
Lemma bloom_no_false_negatives (bits_per_key : Z) (keys : list bytes) (dst key lookup : bytes) :
  0 <= bits_per_key < 2 ^ 31 → size_of keys < 2 ^ 31 →
  key ∈ keys → ExtractUserKey lookup = ExtractUserKey key →
  ∃ f, (InternalFilterPolicy (NewBloomFilterPolicy bits_per_key)).(CreateFilter) keys dst = dst ++ f
    ∧ (InternalFilterPolicy (NewBloomFilterPolicy bits_per_key)).(KeyMayMatch) lookup f = true.
Proof.
  intros Hb Hn Hin Hu. pose proof (Bloom_contract bits_per_key Hb) as HP.
  eexists. split; [apply filter_appended|]. cbn [KeyMayMatch InternalFilterPolicy]. rewrite Hu.
  by apply (filter_matches (P := InternalFilterPolicy (NewBloomFilterPolicy bits_per_key))).
Qed.


(** The database compares keys by their decimal value and filters them by their
    bytes: a key written with a leading zero equals one the filter was made of,
    and the filter rejects it. *)
Theorem numeric_keys_filtered_apart :
  let P := NewBloomFilterPolicy 10 in
  YCSBKeyComparator.(Compare) [48; 55] [55] = 0
  ∧ P.(KeyMayMatch) [48; 55] (P.(CreateFilter) [[55]] []) = false.
Proof. by vm_compute. Qed.
