(* ===== verification/FilterBlock.v ===== *)
(** * FilterBlock: the filters of a table

    [table/filter_block.cc] and [table/filter_block.h].  The builder makes one
    filter for every 2 KB of data blocks; the reader picks the filter of a data
    block by its offset.  The filter policy is known by its contract only. *)

From S2P Require Import Prelude Coding Comparator NovaCommon DbFormat Bloom.

Definition kFilterBaseLg : Z := 11.
Definition kFilterBase : Z := 1 ≪ kFilterBaseLg.

(** ** Building *)

Record FilterBlockBuilder := mkFilterBuilder {
  fb_keys_ : bytes;
  fb_start_ : list Z;
  fb_result_ : bytes;
  fb_offsets_ : list Z
}.

Section filters.
Context (policy : FilterPolicy).

Definition FilterBlockBuilder_init : FilterBlockBuilder := mkFilterBuilder [] [] [] [].

(** The keys between consecutive offsets of the flattened keys. *)
Fixpoint unflatten (keys : bytes) (start : list Z) : list bytes :=
  match start with
  | a :: ((b :: _) as rest) => take (Z.to_nat (b - a)) (drop (Z.to_nat a) keys) :: unflatten keys rest
  | _ => []
  end.

Definition GenerateFilter (b : FilterBlockBuilder) : FilterBlockBuilder :=
  let offsets := fb_offsets_ b ++ [w32 (size_of (fb_result_ b))] in
  if decide (fb_start_ b = []) then mkFilterBuilder (fb_keys_ b) (fb_start_ b) (fb_result_ b) offsets
  else
    let start := fb_start_ b ++ [size_of (fb_keys_ b)] in
    let tmp_keys := unflatten (fb_keys_ b) start in
    mkFilterBuilder [] [] (CreateFilter tmp_keys (fb_result_ b)) offsets.

(** [while (filter_index > filter_offsets_.size()) GenerateFilter();] *)
Fixpoint generate_until (rounds : nat) (filter_index : Z) (b : FilterBlockBuilder) : FilterBlockBuilder :=
  match rounds with
  | O => b
  | S rounds =>
      if decide (filter_index > size_of (fb_offsets_ b)) then generate_until rounds filter_index (GenerateFilter b)
      else b
  end.

Definition StartBlock (b : FilterBlockBuilder) (block_offset : Z) : res FilterBlockBuilder :=
  let filter_index := block_offset / kFilterBase in
  if decide (filter_index >= size_of (fb_offsets_ b))
  then Ret (generate_until (Z.to_nat filter_index) filter_index b) else Abort.

Definition AddKey (b : FilterBlockBuilder) (key : bytes) : FilterBlockBuilder :=
  mkFilterBuilder (fb_keys_ b ++ key) (fb_start_ b ++ [size_of (fb_keys_ b)]) (fb_result_ b) (fb_offsets_ b).

Definition FilterBlockBuilder_Finish (b : FilterBlockBuilder) : FilterBlockBuilder * bytes :=
  let b := if decide (fb_start_ b ≠ []) then GenerateFilter b else b in
  let filter_block_size := w32 (size_of (fb_result_ b)) in
  let result := foldl PutFixed32 (fb_result_ b) (fb_offsets_ b) in
  let result := PutFixed32 result (w32 (size_of (fb_offsets_ b))) in
  let result := PutFixed32 result filter_block_size in
  let result := result ++ [kFilterBaseLg] in
  (mkFilterBuilder (fb_keys_ b) (fb_start_ b) result (fb_offsets_ b), result).

(** ** Reading *)

Record FilterBlockReader := mkFilterReader {
  fr_data_ : option bytes;
  fr_size_ : Z;
  fr_base_lg_ : Z;
  fr_offsets_ : list Z;
  fr_filter_size_ : Z
}.

(** [DecodeFixed32(contents.data() + pos)]; a position outside [contents] is a
    wild read. *)
Definition fixed32_at (contents : bytes) (pos : Z) : res Z :=
  if decide (0 <= pos ∧ pos + 4 <= size_of contents)
  then Ret (DecodeFixed32_ptr (drop (Z.to_nat pos) contents)) else Abort.

(** The loop that reads the filter offsets. *)
Fixpoint read_offsets (n : nat) (contents : bytes) (pos : Z) : res (list Z) :=
  match n with
  | O => Ret []
  | S n => o ← fixed32_at contents pos; os ← read_offsets n contents (pos + 4); Ret (o :: os)
  end.

Definition FilterBlockReader_make (contents : bytes) : res FilterBlockReader :=
  let n := size_of contents in
  if decide (n < 5) then Ret (mkFilterReader None n 0 [] 0)
  else
    let base_lg := byte_at contents (length contents - 1) in
    filter_size ← fixed32_at contents (n - 5);
    num_filter_offsets ← fixed32_at contents (n - 9);
    if decide (base_lg = kFilterBaseLg) then
      let size := w32 (filter_size + num_filter_offsets * 4 + 4 + 4 + 1) in
      if decide (size = n) then
        offsets ← read_offsets (Z.to_nat num_filter_offsets) contents filter_size;
        Ret (mkFilterReader (Some contents) n base_lg offsets filter_size)
      else Abort
    else Abort.

(** [Slice(data_ + start, end - start)] of a slice of the filter data; a slice
    that leaves the contents is a wild read. *)
Definition FilterBlockReader_KeyMayMatch (r : FilterBlockReader) (block_offset : Z) (key : bytes) : res bool :=
  let index := block_offset / kFilterBase in
  match fr_offsets_ r !! Z.to_nat index with
  | None => Ret true
  | Some start =>
      let stop := match fr_offsets_ r !! S (Z.to_nat index) with Some o => o | None => fr_filter_size_ r end in
      match fr_data_ r with
      | None => Abort
      | Some data =>
          if decide (start <= stop <= size_of data)
          then Ret (KeyMayMatch key (take (Z.to_nat (stop - start)) (drop (Z.to_nat start) data)))
          else Abort
      end
  end.

(** A client that starts blocks at the given offsets and adds their keys. *)
Fixpoint add_blocks (b : FilterBlockBuilder) (blocks : list (Z * list bytes)) : res FilterBlockBuilder :=
  match blocks with
  | [] => Ret b
  | (offset, keys) :: blocks => b' ← StartBlock b offset; add_blocks (foldl AddKey b' keys) blocks
  end.
End filters.

(** ** Layout of the filters *)

(** Where each string starts in the concatenation. *)
Fixpoint starts (base : Z) (l : list bytes) : list Z :=
  match l with [] => [] | s :: l => base :: starts (base + size_of s) l end.

Lemma starts_snoc base l s : starts base (l ++ [s]) = starts base l ++ [base + size_of (concat l)].
Proof.
  revert base. induction l as [|x l IH]; intros base; cbn; [f_equal; lia|].
  rewrite IH, length_app. do 3 f_equal. lia.
Qed.

Lemma length_starts base l : length (starts base l) = length l.
Proof. revert base. induction l; intros; cbn; [done|]. by rewrite IHl. Qed.

Lemma starts_lookup base l i :
  (i < length l)%nat → starts base l !! i = Some (base + size_of (concat (take i l))).
Proof.
  revert base i. induction l as [|x l IH]; intros base [|i]; cbn; try lia.
  - intros _. f_equal. lia.
  - intros Hi. rewrite IH by lia. f_equal. rewrite length_app. lia.
Qed.

Lemma starts_w32 base l : 0 <= base → base + size_of (concat l) < 2 ^ 32 → w32 <$> starts base l = starts base l.
Proof.
  revert base. induction l as [|x l IH]; intros base Hb Hs; [done|]. cbn [starts concat] in *.
  rewrite length_app in Hs. rewrite fmap_cons, IH, w32_small by mlia. done.
Qed.

Lemma unflatten_starts pre l :
  unflatten (pre ++ concat l) (starts (size_of pre) l ++ [size_of pre + size_of (concat l)]) = l.
Proof.
  revert pre. induction l as [|s l IH]; intros pre; [done|].
  assert (unflatten (pre ++ s ++ concat l)
    (starts (size_of (pre ++ s)) l ++ [size_of (pre ++ s) + size_of (concat l)]) = l) as H.
  { specialize (IH (pre ++ s)). by rewrite <- app_assoc in IH. }
  assert (take (Z.to_nat (size_of (pre ++ s) - size_of pre)) (drop (Z.to_nat (size_of pre)) (pre ++ s ++ concat l)) = s) as Hs.
  { rewrite Nat2Z.id, drop_app_length, length_app. replace (Z.to_nat _) with (length s) by lia. by rewrite take_app_length. }
  cbn [starts concat]. rewrite (length_app s). replace (size_of pre + size_of s) with (size_of (pre ++ s)) by (rewrite length_app; lia).
  replace (size_of pre + _) with (size_of (pre ++ s) + size_of (concat l)) by (rewrite length_app; lia).
  destruct l as [|s' l].
  - cbn [starts app unflatten concat length] in *. rewrite Z.add_0_r. by rewrite Hs.
  - cbn [starts app unflatten] in *. by rewrite Hs, H.
Qed.

Section correct.
Context (policy : FilterPolicy) {FC : FilterContract policy}.

(** The filter of the keys of one range of offsets. *)
Definition filter_of (g : list bytes) : bytes := if decide (g = []) then [] else CreateFilter g [].

(** [groups] are the keys of the filters made so far, [pending] the keys of the
    next one, [added] all keys with the offset of their block. *)
Record filters_ok (b : FilterBlockBuilder) (groups : list (list bytes)) (pending : list bytes)
    (added : list (Z * bytes)) : Prop := {
  fo_result : fb_result_ b = concat (filter_of <$> groups);
  fo_offsets : fb_offsets_ b = w32 <$> starts 0 (filter_of <$> groups);
  fo_keys : fb_keys_ b = concat pending;
  fo_start : fb_start_ b = starts 0 pending;
  fo_count : (length (concat groups) + length pending = length added)%nat;
  fo_added o k : (o, k) ∈ added →
    (∃ g, groups !! Z.to_nat (o / kFilterBase) = Some g ∧ k ∈ g)
    ∨ Z.to_nat (o / kFilterBase) = length groups ∧ k ∈ pending
}.

Lemma filters_ok_init : filters_ok FilterBlockBuilder_init [] [] [].
Proof. split; try done. by intros ? ? ?%not_elem_of_nil. Qed.

Lemma fo_size b groups pending added : filters_ok b groups pending added → length (fb_offsets_ b) = length groups.
Proof. intros H. by rewrite (fo_offsets _ _ _ _ H), length_fmap, length_starts, length_fmap. Qed.

Lemma GenerateFilter_ok b groups pending added :
  filters_ok b groups pending added → filters_ok (GenerateFilter policy b) (groups ++ [pending]) [] added.
Proof.
  intros H. pose proof H as [Hr Ho Hk Hs Hc Ha]. unfold GenerateFilter.
  assert (filter_of <$> (groups ++ [pending]) = (filter_of <$> groups) ++ [filter_of pending]) as Ef by (by rewrite fmap_app).
  assert (∀ o k, (o, k) ∈ added → (∃ g, (groups ++ [pending]) !! Z.to_nat (o / kFilterBase) = Some g ∧ k ∈ g)
     ∨ Z.to_nat (o / kFilterBase) = length (groups ++ [pending]) ∧ k ∈ []) as Ha'.
  { intros o k Hok. left. destruct (Ha o k Hok) as [(g & Hg & Hin)|[Hi Hin]].
    - exists g. split; [|done]. by apply lookup_app_l_Some.
    - exists pending. split; [|done]. rewrite Hi. by apply list_lookup_middle. }
  assert (length (concat (groups ++ [pending])) + length (A := bytes) [] = length added)%nat as Hc'.
  { rewrite concat_app, length_app. cbn. rewrite app_nil_r. lia. }
  assert (fb_offsets_ b ++ [w32 (size_of (fb_result_ b))] = w32 <$> starts 0 (filter_of <$> (groups ++ [pending]))) as Ho'.
  { rewrite Ef, starts_snoc, fmap_app, Ho, Hr. done. }
  destruct (decide (pending = [])) as [->|Hne].
  - rewrite Hs, decide_True by done. split; cbn; [|done|done|done|done|done].
    rewrite Ef, concat_app, Hr. unfold filter_of at 3. cbn. by rewrite app_nil_r.
  - rewrite decide_False by (rewrite Hs; by destruct pending). split; cbn; [|done|done|done|done|done].
    rewrite Hk, Hs, Ef, concat_app, Hr, filter_appended.
    pose proof (unflatten_starts [] pending) as Hu. cbn [app length] in Hu. change (Z.of_nat 0) with 0 in Hu.
    rewrite Z.add_0_l in Hu. rewrite Hu. cbn. rewrite app_nil_r.
    unfold filter_of at 3. by rewrite decide_False.
Qed.

Lemma generate_until_ok rounds idx b groups pending added :
  filters_ok b groups pending added → size_of groups <= idx → (Z.to_nat idx <= rounds + length groups)%nat →
  ∃ groups' pending', filters_ok (generate_until policy rounds idx b) groups' pending' added ∧ size_of groups' = idx.
Proof.
  revert b groups pending. induction rounds as [|rounds IH]; intros b groups pending H Hle Hr; cbn.
  { exists groups, pending. split; [done|lia]. }
  rewrite (fo_size _ _ _ _ H). case_decide.
  - apply (IH _ (groups ++ [pending]) []); [by apply GenerateFilter_ok|rewrite length_app; cbn; lia..].
  - exists groups, pending. split; [done|lia].
Qed.

Lemma AddKey_ok b groups pending added o k :
  filters_ok b groups pending added → Z.to_nat (o / kFilterBase) = length groups →
  filters_ok (AddKey b k) groups (pending ++ [k]) (added ++ [(o, k)]).
Proof.
  intros [Hr Ho Hk Hs Hc Ha] Hi. unfold AddKey. split; cbn; [done|done|..].
  - rewrite concat_app, Hk. cbn. by rewrite app_nil_r.
  - by rewrite Hs, starts_snoc, Hk.
  - rewrite !length_app. cbn. lia.
  - intros o' k' [Hin|[= -> ->]%list_elem_of_singleton]%elem_of_app.
    + destruct (Ha o' k' Hin) as [?|[? ?]]; [by left|right]. split; [done|elem].
    + right. split; [done|]. elem.
Qed.

Lemma StartBlock_ok b groups pending added o :
  filters_ok b groups pending added → size_of groups <= o / kFilterBase →
  ∃ b' groups' pending', StartBlock policy b o = Ret b' ∧ filters_ok b' groups' pending' added
    ∧ size_of groups' = o / kFilterBase.
Proof.
  intros H Hle. unfold StartBlock. rewrite (fo_size _ _ _ _ H), decide_True by lia.
  destruct (generate_until_ok (Z.to_nat (o / kFilterBase)) (o / kFilterBase) b groups pending added H Hle) as (g & p & Hg & Hl);
    [lia|]. eauto 10.
Qed.

(** ** Reading back *)

(** A finished filter block. *)
Definition filter_block (F : list bytes) : bytes :=
  concat F ++ (starts 0 F ≫= EncodeFixed32) ++ EncodeFixed32 (size_of F) ++ EncodeFixed32 (size_of (concat F))
  ++ [kFilterBaseLg].

Lemma foldl_PutFixed32 dst l : foldl PutFixed32 dst l = dst ++ (l ≫= EncodeFixed32).
Proof.
  revert dst. induction l as [|x l IH]; intros dst; cbn; [by rewrite app_nil_r|].
  rewrite IH. unfold PutFixed32. by rewrite <- app_assoc.
Qed.

Lemma length_bind_EncodeFixed32 (l : list Z) : length (l ≫= EncodeFixed32) = (4 * length l)%nat.
Proof. induction l as [|x l IH]; [done|]. rewrite bind_cons, length_app, IH. cbn. lia. Qed.

Lemma length_filter_block F : size_of (filter_block F) = size_of (concat F) + 4 * size_of F + 9.
Proof.
  unfold filter_block. rewrite !length_app, length_bind_EncodeFixed32, length_starts. cbn. lia.
Qed.

Lemma Finish_block b groups pending added :
  filters_ok b groups pending added → size_of (FilterBlockBuilder_Finish policy b).2 < 2 ^ 32 →
  ∃ groups', (FilterBlockBuilder_Finish policy b).2 = filter_block (filter_of <$> groups')
    ∧ length (concat groups') = length added
    ∧ ∀ o k, (o, k) ∈ added → ∃ g, groups' !! Z.to_nat (o / kFilterBase) = Some g ∧ k ∈ g.
Proof.
  intros H Hsz. unfold FilterBlockBuilder_Finish in *. cbn [snd fb_result_ fb_offsets_] in *.
  assert (∃ b' groups', (if decide (fb_start_ b ≠ []) then GenerateFilter policy b else b) = b'
    ∧ filters_ok b' groups' [] added) as (b' & groups' & Eb & H').
  { case_decide as Hd.
    - eexists _, _. split; [done|]. by eapply GenerateFilter_ok.
    - exists b, groups. split; [done|]. rewrite (fo_start _ _ _ _ H) in Hd. by destruct pending. }
  rewrite Eb in *. clear Eb. exists groups'. destruct H' as [Hr Ho Hk Hs Hc Ha].
  assert (filter_block (filter_of <$> groups') =
    PutFixed32 (PutFixed32 (foldl PutFixed32 (fb_result_ b') (fb_offsets_ b')) (w32 (size_of (fb_offsets_ b'))))
      (w32 (size_of (fb_result_ b'))) ++ [kFilterBaseLg]) as E.
  { unfold PutFixed32 in Hsz. rewrite foldl_PutFixed32 in Hsz.
    rewrite !length_app, length_bind_EncodeFixed32, !length_EncodeFixed32 in Hsz. cbn [length] in Hsz.
    unfold PutFixed32. rewrite foldl_PutFixed32, !w32_small by mlia. rewrite Ho, length_fmap, length_starts, Hr in *.
    rewrite <- !app_assoc. unfold filter_block. rewrite starts_w32 by lia. by rewrite length_fmap. }
  split; [by rewrite E|]. cbn in Hc. split; [lia|]. intros o k Hok.
  destruct (Ha o k Hok) as [?|[_ ?%not_elem_of_nil]]; done.
Qed.

Lemma fixed32_at_app a v b pos : pos = size_of a → fixed32_at (a ++ EncodeFixed32 v ++ b) pos = Ret (w32 v).
Proof.
  intros ->. unfold fixed32_at. rewrite decide_True by (rewrite !length_app, length_EncodeFixed32; lia).
  by rewrite Nat2Z.id, drop_app_length, DecodeFixed32_ptr_encode.
Qed.

Lemma read_offsets_app a l b pos :
  pos = size_of a → read_offsets (length l) (a ++ (l ≫= EncodeFixed32) ++ b) pos = Ret (w32 <$> l).
Proof.
  revert a pos. induction l as [|x l IH]; intros a pos ->; cbn [length read_offsets]; [done|].
  rewrite bind_cons, <- app_assoc, fixed32_at_app by done. cbn [mbind res_bind].
  rewrite (app_assoc a), IH by (rewrite length_app, length_EncodeFixed32; lia). done.
Qed.

Lemma FilterBlockReader_make_block F :
  size_of (filter_block F) < 2 ^ 32 →
  FilterBlockReader_make (filter_block F)
  = Ret (mkFilterReader (Some (filter_block F)) (size_of (filter_block F)) kFilterBaseLg (starts 0 F) (size_of (concat F))).
Proof.
  intros Hs. pose proof (length_filter_block F) as Hl. unfold FilterBlockReader_make.
  rewrite decide_False by lia.
  assert (byte_at (filter_block F) (length (filter_block F) - 1) = kFilterBaseLg) as ->.
  { unfold filter_block. rewrite !app_assoc. generalize (((concat F ++ (starts 0 F ≫= EncodeFixed32)) ++
      EncodeFixed32 (size_of F)) ++ EncodeFixed32 (size_of (concat F))). intros l. unfold byte_at.
    rewrite length_app. cbn [length]. replace (length l + 1 - 1)%nat with (length l) by lia.
    by rewrite list_lookup_middle. }
  set (a := concat F ++ (starts 0 F ≫= EncodeFixed32)).
  assert (filter_block F = a ++ EncodeFixed32 (size_of F) ++ EncodeFixed32 (size_of (concat F)) ++ [kFilterBaseLg]) as E
    by (unfold filter_block, a; by rewrite <- app_assoc).
  assert (size_of a = size_of (concat F) + 4 * size_of F) as Ha.
  { unfold a. rewrite length_app, length_bind_EncodeFixed32, length_starts. lia. }
  rewrite E at 1. rewrite (app_assoc a), fixed32_at_app by (rewrite length_app, length_EncodeFixed32; lia).
  cbn [mbind res_bind]. rewrite E at 1. rewrite fixed32_at_app by lia. cbn [mbind res_bind].
  rewrite (w32_small (size_of F)), (w32_small (size_of (concat F))) by mlia. rewrite w32_small by mlia. rewrite decide_True by done. rewrite (decide_True (P := _ = _)) by lia.
  rewrite E at 1. unfold a. rewrite <- app_assoc, Nat2Z.id, <- (length_starts 0 F), read_offsets_app by done.
  cbn [mbind res_bind]. by rewrite starts_w32 by lia.
Qed.

Lemma reader_slice F i f :
  F !! i = Some f → (i < length F)%nat →
  take (Z.to_nat (size_of (concat (take (S i) F)) - size_of (concat (take i F))))
    (drop (Z.to_nat (size_of (concat (take i F)))) (filter_block F)) = f
  ∧ size_of (concat (take (S i) F)) = size_of (concat (take i F)) + size_of f
  ∧ size_of (concat (take (S i) F)) <= size_of (concat F).
Proof.
  intros Hf Hi. rewrite (take_S_r _ _ _ Hf), concat_app, length_app. cbn [concat]. rewrite app_nil_r.
  assert (concat F = concat (take i F) ++ f ++ concat (drop (S i) F)) as EF.
  { rewrite <- (take_drop_middle F i f Hf) at 1. by rewrite concat_app. }
  split_and!; [|lia|rewrite EF, !length_app; lia].
  unfold filter_block. rewrite EF at 1. rewrite <- !app_assoc, Nat2Z.id, drop_app_length.
  replace (Z.to_nat _) with (length f) by lia. by rewrite take_app_length.
Qed.

(** A reader of a filter block asks the policy about the filter of the block. *)
Lemma KeyMayMatch_block F o key :
  size_of (filter_block F) < 2 ^ 32 → 0 <= o →
  ∃ r, FilterBlockReader_make (filter_block F) = Ret r
    ∧ FilterBlockReader_KeyMayMatch policy r o key
      = Ret (match F !! Z.to_nat (o / kFilterBase) with Some f => KeyMayMatch key f | None => true end).
Proof.
  intros Hs Ho. eexists. split; [by apply FilterBlockReader_make_block|].
  unfold FilterBlockReader_KeyMayMatch. cbn [fr_offsets_ fr_data_ fr_filter_size_].
  set (i := Z.to_nat (o / kFilterBase)). destruct (F !! i) as [f|] eqn:Ef.
  - pose proof (lookup_lt_Some _ _ _ Ef) as Hi. rewrite starts_lookup by done.
    destruct (reader_slice F i f Ef Hi) as (Hsl & Hadd & Hle). rewrite Z.add_0_l.
    pose proof (length_filter_block F).
    assert (match starts 0 F !! S i with Some o => o | None => size_of (concat F) end = size_of (concat (take (S i) F))) as ->.
    { destruct (decide (S i < length F)%nat) as [Hlt|Hge]; [by rewrite starts_lookup|].
      rewrite lookup_ge_None_2 by (rewrite length_starts; lia). by rewrite take_ge by lia. }
    rewrite decide_True by lia. by rewrite Hsl.
  - rewrite lookup_ge_None_2; [done|]. rewrite length_starts. by apply lookup_ge_None.
Qed.

Lemma concat_group_length (gs : list (list bytes)) g : g ∈ gs → (length g <= length (concat gs))%nat.
Proof. induction 1; cbn; rewrite length_app; lia. Qed.

(** The size of the finished block. *)
Lemma Finish_size b groups pending added c :
  FilterSized policy c → filters_ok b groups pending added → size_of added < 2 ^ 31 →
  size_of (FilterBlockBuilder_Finish policy b).2 <= (c + 10) * size_of added + 4 * (size_of groups + 1) + 9.
Proof.
  intros HS H Hn. unfold FilterBlockBuilder_Finish. cbn [snd].
  assert (∃ b' groups', (if decide (fb_start_ b ≠ []) then GenerateFilter policy b else b) = b'
    ∧ filters_ok b' groups' [] added ∧ (length groups' <= S (length groups))%nat) as (b' & groups' & -> & H' & Hl).
  { case_decide as Hd.
    - eexists _, _. split_and!; [done|by eapply GenerateFilter_ok|]. rewrite length_app. cbn. lia.
    - exists b, groups. split_and!; [done| |lia]. rewrite (fo_start _ _ _ _ H) in Hd. by destruct pending. }
  unfold PutFixed32. rewrite foldl_PutFixed32, !length_app, length_bind_EncodeFixed32, !length_EncodeFixed32, (fo_size _ _ _ _ H').
  rewrite (fo_result _ _ _ _ H'). cbn [length].
  enough (size_of (concat (filter_of <$> groups')) <= (c + 10) * size_of (concat groups')) as Hc.
  { pose proof (fo_count _ _ _ _ H'). cbn in *. lia. }
  assert (size_of (concat groups') < 2 ^ 31) as Hg by (pose proof (fo_count _ _ _ _ H'); cbn in *; lia).
  pose proof filter_sized_pos as Hp. clear -HS Hg Hp. induction groups' as [|g gs IH]; [cbn; lia|].
  cbn [fmap list_fmap concat] in *. rewrite length_app in Hg |- *. rewrite (length_app g). specialize (IH ltac:(lia)).
  assert (size_of (filter_of g) <= (c + 10) * size_of g); [|lia].
  unfold filter_of. case_decide as Hd; [subst; cbn; lia|]. pose proof (filter_sized g ltac:(lia)).
  destruct g as [|k g]; [done|]. cbn [length] in *. lia.
Qed.

(** Every added key matches. *)
Lemma Finish_matches b groups pending added :
  filters_ok b groups pending added → size_of added < 2 ^ 31 →
  size_of (FilterBlockBuilder_Finish policy b).2 < 2 ^ 32 →
  ∃ r, FilterBlockReader_make (FilterBlockBuilder_Finish policy b).2 = Ret r
    ∧ (∀ o key, 0 <= o → ∃ m, FilterBlockReader_KeyMayMatch policy r o key = Ret m)
    ∧ ∀ o key, 0 <= o → (o, key) ∈ added → FilterBlockReader_KeyMayMatch policy r o key = Ret true.
Proof.
  intros H Hn Hsz. destruct (Finish_block b groups pending added H Hsz) as (gs & E & Hc & Ha).
  rewrite E in *. eexists. split; [by apply FilterBlockReader_make_block|]. split.
  - intros o key Ho. destruct (KeyMayMatch_block (filter_of <$> gs) o key Hsz Ho) as (r & Er & Em).
    rewrite FilterBlockReader_make_block in Er by done. injection Er as <-. eauto.
  - intros o key Ho Hin. destruct (KeyMayMatch_block (filter_of <$> gs) o key Hsz Ho) as (r & Er & Em).
    rewrite FilterBlockReader_make_block in Er by done. injection Er as <-. rewrite Em.
    destruct (Ha o key Hin) as (g & Hg & Hk). rewrite list_lookup_fmap, Hg. cbn. f_equal. unfold filter_of.
    rewrite decide_False by (intros ->; by apply not_elem_of_nil in Hk).
    apply filter_matches; [|done]. pose proof (concat_group_length gs g ltac:(by eapply list_elem_of_lookup_2)). lia.
Qed.

Lemma AddKeys_ok b groups pending added o keys :
  filters_ok b groups pending added → Z.to_nat (o / kFilterBase) = length groups →
  filters_ok (foldl AddKey b keys) groups (pending ++ keys) (added ++ (pair o <$> keys)).
Proof.
  revert b pending added. induction keys as [|k keys IH]; intros b pending added H Hi; cbn; [by rewrite !app_nil_r|].
  pose proof (IH _ _ _ (AddKey_ok _ _ _ _ o k H Hi) Hi) as H'. by rewrite <- !app_assoc in H'.
Qed.

Lemma add_blocks_ok b groups pending added blocks :
  filters_ok b groups pending added →
  Forall (λ bl, 0 <= bl.1 ∧ size_of groups <= bl.1 / kFilterBase) blocks → StronglySorted (λ x y, x.1 <= y.1) blocks →
  ∃ b' groups' pending', add_blocks policy b blocks = Ret b'
    ∧ filters_ok b' groups' pending' (added ++ (blocks ≫= λ bl, pair bl.1 <$> bl.2)).
Proof.
  revert b groups pending added. induction blocks as [|[o keys] blocks IH]; intros b groups pending added H Hf Hs.
  { cbn. rewrite app_nil_r. eauto. }
  apply Forall_cons in Hf as [[Ho Hle] Hf]. apply StronglySorted_inv in Hs as [Hs Hall].
  destruct (StartBlock_ok b groups pending added o H Hle) as (b1 & g1 & p1 & E & H1 & Hg1).
  cbn [add_blocks]. rewrite E. cbn [mbind res_bind].
  pose proof (AddKeys_ok b1 g1 p1 added o keys H1 ltac:(lia)) as H2.
  destruct (IH _ _ _ _ H2) as (b' & g' & p' & -> & H'); [|done|].
  - rewrite Forall_forall in Hf, Hall |- *. intros bl Hbl. destruct (Hf bl Hbl). split; [done|].
    rewrite Hg1. apply Z.div_le_mono; [done|]. by apply (Hall bl).
  - exists b', g', p'. split; [done|]. rewrite bind_cons. by rewrite app_assoc.
Qed.
End correct.

(** ** Properties *)

(** C17. The filters of a table hide no key: when blocks are started at increasing
    offsets and their keys added, the finished filter block is accepted by the
    reader, a lookup never reads outside it, and every key matches at the offset
    of its block. *)
Theorem filter_block_no_false_negatives (policy : FilterPolicy) (blocks : list (Z * list bytes)) :
  FilterContract policy →
  Forall (λ bl, 0 <= bl.1) blocks → StronglySorted (λ x y, x.1 <= y.1) blocks →
  size_of (blocks ≫= snd) < 2 ^ 31 →
  ∃ b, add_blocks policy FilterBlockBuilder_init blocks = Ret b
    ∧ let contents := (FilterBlockBuilder_Finish policy b).2 in
      size_of contents < 2 ^ 32 →
      ∃ r, FilterBlockReader_make contents = Ret r
        ∧ (∀ o key, 0 <= o → ∃ m, FilterBlockReader_KeyMayMatch policy r o key = Ret m)
        ∧ ∀ o keys key, (o, keys) ∈ blocks → key ∈ keys → FilterBlockReader_KeyMayMatch policy r o key = Ret true.
Proof.
  intros FC Hf Hs Hn.
  destruct (add_blocks_ok policy _ [] [] [] blocks (filters_ok_init policy)) as (b & g & p & E & H); [|done|].
  { rewrite Forall_forall in Hf |- *. intros bl Hbl. specialize (Hf bl Hbl). split; [done|]. by apply Z.div_pos. }
  exists b. split; [done|]. cbn [app] in H. intros contents Hc.
  destruct (Finish_matches policy b g p _ H) as (r & Er & Hm & Hk); [|done|].
  { enough (length (blocks ≫= λ bl, pair bl.1 <$> bl.2) = length (blocks ≫= snd)) by lia. clear.
    induction blocks as [|bl blocks IH]; [done|]. rewrite !bind_cons, !length_app, length_fmap. lia. }
  exists r. split_and!; [done|done|]. intros o keys key Hb Hin.
  apply Hk; [rewrite Forall_forall in Hf; by apply (Hf _ Hb)|].
  apply list_elem_of_bind. exists (o, keys). split; [by apply list_elem_of_fmap_2|done].
Qed.

(** The reader checks for five bytes and reads nine: contents of five to eight
    bytes make it read in front of them. *)
Lemma filter_reader_short_contents (contents : bytes) :
  5 <= size_of contents < 9 → FilterBlockReader_make contents = Abort.
Proof.
  intros Hn. unfold FilterBlockReader_make. rewrite decide_False by lia.
  assert (fixed32_at contents (size_of contents - 9) = Abort) as ->.
  { unfold fixed32_at. by rewrite decide_False by lia. }
  assert (∃ v, fixed32_at contents (size_of contents - 5) = Ret v) as [v ->]; [|done].
  unfold fixed32_at. rewrite decide_True by lia. eauto.
Qed.

Definition example_blocks : list (Z * list bytes) :=
  [(0, [[1; 2]; [3]]); (1500, [[4; 5; 6]]); (9000, [[7]; [8; 9]])].

Lemma filter_block_no_false_negatives_witness :
  ∃ b, add_blocks (NewBloomFilterPolicy 10) FilterBlockBuilder_init example_blocks = Ret b
    ∧ let contents := (FilterBlockBuilder_Finish (NewBloomFilterPolicy 10) b).2 in
      size_of contents < 2 ^ 32 →
      ∃ r, FilterBlockReader_make contents = Ret r
        ∧ (∀ o key, 0 <= o → ∃ m, FilterBlockReader_KeyMayMatch (NewBloomFilterPolicy 10) r o key = Ret m)
        ∧ ∀ o keys key, (o, keys) ∈ example_blocks → key ∈ keys →
          FilterBlockReader_KeyMayMatch (NewBloomFilterPolicy 10) r o key = Ret true.
Proof.
  apply (filter_block_no_false_negatives (NewBloomFilterPolicy 10)).
  - apply Bloom_contract. lia.
  - repeat constructor; cbn; lia.
  - repeat constructor; cbn; lia.
  - by vm_compute.
Defined.
