(* ===== verification/Format.v ===== *)
(** * Format: block handles and the footer of a table

    [table/format.cc] and [table/format.h]. *)

From S2P Require Import Prelude Coding.

(** ** Block handles *)

Record BlockHandle := mkBlockHandle { bh_offset : Z; bh_size : Z }.

Definition kMaxEncodedLength : nat := 10 + 10.

(** [BlockHandle()]. *)
Definition BlockHandle_init : BlockHandle := mkBlockHandle (2 ^ 64 - 1) (2 ^ 64 - 1).

Definition BlockHandle_EncodeTo (h : BlockHandle) (dst : bytes) : res bytes :=
  if decide (bh_offset h ≠ 2 ^ 64 - 1 ∧ bh_size h ≠ 2 ^ 64 - 1)
  then Ret (PutVarint64 (PutVarint64 dst (bh_offset h)) (bh_size h)) else Abort.

Definition BlockHandle_DecodeFrom : parser BlockHandle :=
  let! offset := GetVarint64 in
  let! size := GetVarint64 in
  pret (mkBlockHandle offset size).

(** [operator<]. *)
Definition BlockHandle_lt (h1 h2 : BlockHandle) : bool :=
  if decide (bh_offset h1 < bh_offset h2) then true else bool_decide (bh_size h1 < bh_size h2).

(** ** The footer *)

Record Footer := mkFooter { metaindex_handle : BlockHandle; index_handle : BlockHandle }.

Definition kFooterLength : nat := 2 * kMaxEncodedLength + 8.
Definition kTableMagicNumber : Z := 0xdb4775248b80fb57.
Definition kBlockTrailerSize : nat := 5.

(** [std::string::resize]. *)
Definition resize (n : nat) (s : bytes) : bytes := take n s ++ replicate (n - length s) 0.

Definition Footer_EncodeTo (f : Footer) (dst : bytes) : res bytes :=
  let original_size := length dst in
  dst ← BlockHandle_EncodeTo (metaindex_handle f) dst;
  dst ← BlockHandle_EncodeTo (index_handle f) dst;
  let dst := resize (2 * kMaxEncodedLength) dst in
  let dst := PutFixed32 dst (Z.land kTableMagicNumber 0xffffffff) in
  let dst := PutFixed32 dst (kTableMagicNumber ≫ 32) in
  if decide (length dst = original_size + kFooterLength)%nat then Ret dst else Abort.

(** [DecodeFrom(input)]: the footer and the input after it; a wild read where the
    input is shorter than a footer. *)
Definition Footer_DecodeFrom (input : bytes) : res (Footer * bytes) :=
  if decide (kFooterLength <= length input)%nat then
    let magic_lo := DecodeFixed32_ptr (drop (kFooterLength - 8) input) in
    let magic_hi := DecodeFixed32_ptr (drop (kFooterLength - 4) input) in
    let magic := Z.lor (magic_hi ≪ 32) magic_lo in
    if decide (magic = kTableMagicNumber) then
      let '(r, rest) := BlockHandle_DecodeFrom input in
      metaindex ← r;
      let '(r, rest) := BlockHandle_DecodeFrom rest in
      index ← r;
      Ret (mkFooter metaindex index, drop kFooterLength input)
    else Fail
  else Abort.

(** ** Round trips *)

(** A handle of a block that was written. *)
Definition handle_set (h : BlockHandle) : Prop := 0 <= bh_offset h < 2 ^ 64 - 1 ∧ 0 <= bh_size h < 2 ^ 64 - 1.

Definition encode_handle (h : BlockHandle) : bytes := EncodeVarint64 (bh_offset h) ++ EncodeVarint64 (bh_size h).

Lemma BlockHandle_EncodeTo_set h dst : handle_set h → BlockHandle_EncodeTo h dst = Ret (dst ++ encode_handle h).
Proof.
  intros [H1 H2]. unfold BlockHandle_EncodeTo. rewrite decide_True by lia. unfold PutVarint64, encode_handle.
  by rewrite app_assoc.
Qed.

Lemma parses_BlockHandle h : handle_set h → parses BlockHandle_DecodeFrom (encode_handle h) h.
Proof.
  intros [H1 H2]. unfold BlockHandle_DecodeFrom, encode_handle.
  eapply parses_bind; [apply parses_Varint64; mlia|].
  eapply parses_bind_last; [apply parses_Varint64; mlia|]. destruct h. apply parses_ret.
Qed.

Lemma length_encode_handle h : (length (encode_handle h) <= kMaxEncodedLength)%nat.
Proof.
  unfold encode_handle, EncodeVarint64. rewrite length_app.
  pose proof (EncodeVarint64_loop_length 9 (bh_offset h)). pose proof (EncodeVarint64_loop_length 9 (bh_size h)).
  unfold kMaxEncodedLength. lia.
Qed.

(** The bytes of a footer. *)
Definition encode_footer (f : Footer) : bytes :=
  let hs := encode_handle (metaindex_handle f) ++ encode_handle (index_handle f) in
  hs ++ replicate (2 * kMaxEncodedLength - length hs) 0
  ++ EncodeFixed32 (Z.land kTableMagicNumber 0xffffffff) ++ EncodeFixed32 (kTableMagicNumber ≫ 32).

Definition footer_set (f : Footer) : Prop := handle_set (metaindex_handle f) ∧ handle_set (index_handle f).

Lemma length_footer_handles f :
  (length (encode_handle (metaindex_handle f) ++ encode_handle (index_handle f)) <= 2 * kMaxEncodedLength)%nat.
Proof.
  rewrite length_app. pose proof (length_encode_handle (metaindex_handle f)).
  pose proof (length_encode_handle (index_handle f)). lia.
Qed.

Lemma length_encode_footer f : length (encode_footer f) = kFooterLength.
Proof.
  unfold encode_footer. cbv zeta. pose proof (length_footer_handles f) as Hl.
  generalize dependent (encode_handle (metaindex_handle f) ++ encode_handle (index_handle f)). intros hs Hl.
  rewrite !length_app, length_replicate. cbn [length EncodeFixed32 Nat.add]. unfold kFooterLength. lia.
Qed.

Lemma Footer_EncodeTo_set f : footer_set f → Footer_EncodeTo f [] = Ret (encode_footer f).
Proof.
  intros [H1 H2]. unfold Footer_EncodeTo. rewrite BlockHandle_EncodeTo_set by done. cbn [mbind res_bind app].
  rewrite BlockHandle_EncodeTo_set by done. cbn [mbind res_bind].
  pose proof (length_footer_handles f) as Hl. pose proof (length_encode_footer f) as Hf.
  unfold resize. rewrite take_ge by done. unfold PutFixed32. rewrite <- !app_assoc. rewrite decide_True.
  - unfold encode_footer. by rewrite <- !app_assoc.
  - unfold encode_footer in Hf. rewrite <- !app_assoc in Hf. done.
Qed.

Lemma Footer_DecodeFrom_set f rest : footer_set f → Footer_DecodeFrom (encode_footer f ++ rest) = Ret (f, rest).
Proof.
  intros [H1 H2]. pose proof (length_encode_footer f) as Hl. unfold Footer_DecodeFrom.
  rewrite decide_True by (rewrite length_app; lia).
  set (pad := replicate (2 * kMaxEncodedLength - length (encode_handle (metaindex_handle f) ++ encode_handle (index_handle f))) 0).
  set (lo := EncodeFixed32 (Z.land kTableMagicNumber 0xffffffff)). set (hi := EncodeFixed32 (kTableMagicNumber ≫ 32)).
  assert (encode_footer f = (encode_handle (metaindex_handle f) ++ encode_handle (index_handle f) ++ pad) ++ lo ++ hi) as E
    by (unfold encode_footer, pad, lo, hi; by rewrite <- !app_assoc).
  assert (length (encode_handle (metaindex_handle f) ++ encode_handle (index_handle f) ++ pad) = kFooterLength - 8)%nat as Hp.
  { rewrite E, !length_app in Hl. cbn [length lo hi EncodeFixed32] in Hl. rewrite !length_app. lia. }
  assert (drop (kFooterLength - 8) (encode_footer f ++ rest) = lo ++ hi ++ rest) as ->.
  { rewrite E, <- Hp, <- app_assoc, drop_app_length, <- app_assoc. done. }
  assert (drop (kFooterLength - 4) (encode_footer f ++ rest) = hi ++ rest) as ->.
  { replace (kFooterLength - 4)%nat with (length ((encode_handle (metaindex_handle f) ++ encode_handle (index_handle f) ++ pad) ++ lo)).
    - rewrite E, (app_assoc _ lo hi), <- (app_assoc _ hi rest). apply drop_app_length.
    - rewrite length_app, Hp. done. }
  unfold lo, hi. rewrite !DecodeFixed32_ptr_encode. rewrite decide_True by done.
  rewrite E, <- !app_assoc. rewrite (parses_BlockHandle _ H1). cbn [mbind res_bind].
  rewrite (parses_BlockHandle _ H2). cbn [mbind res_bind]. destruct f. do 2 f_equal.
  rewrite !app_assoc. apply drop_app_length'. rewrite <- !app_assoc, <- Hl, E. by rewrite <- !app_assoc.
Qed.
