(* ===== verification/TableBuilder.v ===== *)
(** * TableBuilder: writing a table

    [table/table_builder.cc].  The file is known by [WritableFile], its append
    and flush; the Snappy library is a parameter.  The builder writes the data
    blocks, the filter block, the index of the meta blocks, the index of the data
    blocks and the footer, one after the other. *)

From S2P Require Import Prelude Coding Comparator Cursor NovaCommon DbFormat Block Bloom FilterBlock Crc32c Format.

(** [WritableFile]: the file after the operation and whether its status is ok. *)
Class WritableFile (F : Type) := {
  file_Append : F → bytes → res (F * bool);
  file_Flush : F → res (F * bool)
}.

Inductive CompressionType := kNoCompression | kSnappyCompression.

Definition compression_byte (t : CompressionType) : Z :=
  match t with kNoCompression => 0 | kSnappyCompression => 1 end.

(** The part of [Options] that a table depends on. *)
Record TableOptions := mkTableOptions {
  opt_comparator : Comparator;
  opt_restart_interval : Z;
  opt_block_size : Z;
  opt_compression : CompressionType;
  opt_filter : option (FilterPolicy * bytes)
}.

Record Rep (F : Type) := mkRep {
  rep_file : F;
  rep_offset : Z;
  rep_status : bool;
  rep_data_block : BlockBuilder;
  rep_index_block : BlockBuilder;
  rep_last_key : bytes;
  rep_num_entries : Z;
  rep_num_data_blocks : Z;
  rep_closed : bool;
  rep_filter_block : option FilterBlockBuilder;
  rep_pending_index_entry : bool;
  rep_pending_handle : BlockHandle
}.
Arguments mkRep {F} _ _ _ _ _ _ _ _ _ _ _ _.
Arguments rep_file {F} _.
Arguments rep_offset {F} _.
Arguments rep_status {F} _.
Arguments rep_data_block {F} _.
Arguments rep_index_block {F} _.
Arguments rep_last_key {F} _.
Arguments rep_num_entries {F} _.
Arguments rep_num_data_blocks {F} _.
Arguments rep_closed {F} _.
Arguments rep_filter_block {F} _.
Arguments rep_pending_index_entry {F} _.
Arguments rep_pending_handle {F} _.

Section builder.
Context {F : Type} {WF : WritableFile F}.
(** [port::AcceleratedCRC32C] and [port::Snappy_Compress]. *)
Context (AcceleratedCRC32C : Z → bytes → Z) (Snappy_Compress : bytes → option bytes).
Context (options : TableOptions).

Local Abbreviation Rep := (Rep F).
Local Abbreviation cmp := (opt_comparator options).

(** Assignments to some members. *)
Definition set_file (r : Rep) (file : F) (status : bool) (offset : Z) : Rep :=
  mkRep file offset status (rep_data_block r) (rep_index_block r) (rep_last_key r) (rep_num_entries r)
    (rep_num_data_blocks r) (rep_closed r) (rep_filter_block r) (rep_pending_index_entry r) (rep_pending_handle r).
Definition set_data_block (r : Rep) (b : BlockBuilder) : Rep :=
  mkRep (rep_file r) (rep_offset r) (rep_status r) b (rep_index_block r) (rep_last_key r) (rep_num_entries r)
    (rep_num_data_blocks r) (rep_closed r) (rep_filter_block r) (rep_pending_index_entry r) (rep_pending_handle r).
Definition set_filter (r : Rep) (f : option FilterBlockBuilder) : Rep :=
  mkRep (rep_file r) (rep_offset r) (rep_status r) (rep_data_block r) (rep_index_block r) (rep_last_key r)
    (rep_num_entries r) (rep_num_data_blocks r) (rep_closed r) f (rep_pending_index_entry r) (rep_pending_handle r).
Definition set_pending (r : Rep) (pending : bool) (h : BlockHandle) : Rep :=
  mkRep (rep_file r) (rep_offset r) (rep_status r) (rep_data_block r) (rep_index_block r) (rep_last_key r)
    (rep_num_entries r) (rep_num_data_blocks r) (rep_closed r) (rep_filter_block r) pending h.
Definition set_last_key (r : Rep) (key : bytes) (num_entries : Z) : Rep :=
  mkRep (rep_file r) (rep_offset r) (rep_status r) (rep_data_block r) (rep_index_block r) key num_entries
    (rep_num_data_blocks r) (rep_closed r) (rep_filter_block r) (rep_pending_index_entry r) (rep_pending_handle r).
Definition set_closed (r : Rep) : Rep :=
  mkRep (rep_file r) (rep_offset r) (rep_status r) (rep_data_block r) (rep_index_block r) (rep_last_key r)
    (rep_num_entries r) (rep_num_data_blocks r) true (rep_filter_block r) (rep_pending_index_entry r) (rep_pending_handle r).

Definition set_index_block (r : Rep) (b : BlockBuilder) : Rep :=
  mkRep (rep_file r) (rep_offset r) (rep_status r) (rep_data_block r) b (rep_last_key r) (rep_num_entries r)
    (rep_num_data_blocks r) (rep_closed r) (rep_filter_block r) (rep_pending_index_entry r) (rep_pending_handle r).

(** [TableBuilder(options, file)]. *)
Definition TableBuilder_make (file : F) : res Rep :=
  let r := mkRep file 0 true BlockBuilder_init BlockBuilder_init [] 0 0 false None false BlockHandle_init in
  match opt_filter options with
  | None => Ret r
  | Some (policy, _) => f ← StartBlock policy FilterBlockBuilder_init 0; Ret (set_filter r (Some f))
  end.

(** The trailer of a block: its last byte is overwritten with ['!']. *)
Definition block_trailer (block_contents : bytes) (type : CompressionType) : bytes :=
  let crc := Value AcceleratedCRC32C 0 block_contents in
  let crc := Extend AcceleratedCRC32C 0 crc [compression_byte type] in
  take (kBlockTrailerSize - 1) (compression_byte type :: EncodeFixed32 (Mask crc)) ++ [33].

Definition WriteRawBlock (r : Rep) (block_contents : bytes) (type : CompressionType) : res (Rep * BlockHandle) :=
  let handle := mkBlockHandle (rep_offset r) (size_of block_contents) in
  '(file, ok) ← file_Append (rep_file r) block_contents;
  if (ok : bool) then
    '(file, ok) ← file_Append file (block_trailer block_contents type);
    let offset :=
      if (ok : bool) then w64 (rep_offset r + (size_of block_contents + Z.of_nat kBlockTrailerSize)) else rep_offset r in
    Ret (set_file r file ok offset, handle)
  else Ret (set_file r file ok (rep_offset r), handle).

(** [WriteBlock(block, handle)] up to the reset of [block]. *)
Definition WriteBlock (r : Rep) (block : BlockBuilder) : res (Rep * BlockHandle) :=
  if rep_status r then
    let raw := (BlockBuilder_Finish block).2 in
    let '(block_contents, type) :=
      match opt_compression options with
      | kNoCompression => (raw, kNoCompression)
      | kSnappyCompression =>
          match Snappy_Compress raw with
          | Some compressed =>
              if decide (size_of compressed < size_of raw - size_of raw / 8) then (compressed, kSnappyCompression)
              else (raw, kNoCompression)
          | None => (raw, kNoCompression)
          end
      end in
    WriteRawBlock r block_contents type
  else Abort.

Definition Flush (r : Rep) : res Rep :=
  if rep_closed r then Abort
  else if negb (rep_status r) then Ret r
  else if BlockBuilder_empty (rep_data_block r) then Ret r
  else if rep_pending_index_entry r then Abort
  else
    '(r, handle) ← WriteBlock r (rep_data_block r);
    let r := set_data_block r (BlockBuilder_Reset (rep_data_block r)) in
    let r := set_pending r (rep_pending_index_entry r) handle in
    r ← (if rep_status r then
           '(file, ok) ← file_Flush (rep_file r);
           Ret (set_pending (set_file r file ok (rep_offset r)) true handle)
         else Ret r);
    match rep_filter_block r, opt_filter options with
    | Some f, Some (policy, _) => f ← StartBlock policy f (rep_offset r); Ret (set_filter r (Some f))
    | _, _ => Ret r
    end.

(** Emitting the pending index entry under the given key. *)
Definition add_index_entry (r : Rep) (key : bytes) : res Rep :=
  handle_encoding ← BlockHandle_EncodeTo (rep_pending_handle r) [];
  index_block ← BlockBuilder_Add cmp 1 (rep_index_block r) key handle_encoding;
  Ret (mkRep (rep_file r) (rep_offset r) (rep_status r) (rep_data_block r) index_block key (rep_num_entries r)
         (rep_num_data_blocks r + 1) (rep_closed r) (rep_filter_block r) false (rep_pending_handle r)).

Definition TableBuilder_Add (r : Rep) (key value : bytes) : res (Rep * bool) :=
  if rep_closed r then Abort
  else if negb (rep_status r) then Ret (r, false)
  else if decide (rep_num_entries r > 0 ∧ cmp.(Compare) key (rep_last_key r) <= 0) then Ret (r, false)
  else
    r ← (if rep_pending_index_entry r then
           if BlockBuilder_empty (rep_data_block r)
           then add_index_entry r (cmp.(FindShortestSeparator) (rep_last_key r) key) else Abort
         else Ret r);
    let r := match rep_filter_block r with
             | Some f => set_filter r (Some (AddKey f key))
             | None => r
             end in
    let r := set_last_key r key (rep_num_entries r + 1) in
    data_block ← BlockBuilder_Add cmp (opt_restart_interval options) (rep_data_block r) key value;
    let r := set_data_block r data_block in
    r ← (if decide (CurrentSizeEstimate (rep_data_block r) >= opt_block_size options) then Flush r else Ret r);
    Ret (r, true).

(** "filter." *)
Definition filter_key_prefix : bytes := [102; 105; 108; 116; 101; 114; 46].

(** The steps of [Finish], each skipped once a write has failed: the filter
    block, ... *)
Definition finish_filter (r : Rep) : res (Rep * BlockHandle) :=
  match rep_filter_block r, opt_filter options with
  | Some f, Some (policy, _) =>
      if rep_status r then WriteRawBlock r (FilterBlockBuilder_Finish policy f).2 kNoCompression
      else Ret (r, BlockHandle_init)
  | _, _ => Ret (r, BlockHandle_init)
  end.

(** ... the metaindex block, ... *)
Definition finish_metaindex (r : Rep) (filter_block_handle : BlockHandle) : res (Rep * BlockHandle) :=
  if rep_status r then
    meta_index_block ←
      match rep_filter_block r, opt_filter options with
      | Some _, Some (_, name) =>
          handle_encoding ← BlockHandle_EncodeTo filter_block_handle [];
          BlockBuilder_Add cmp (opt_restart_interval options) BlockBuilder_init (filter_key_prefix ++ name) handle_encoding
      | _, _ => Ret BlockBuilder_init
      end;
    WriteBlock r meta_index_block
  else Ret (r, BlockHandle_init).

(** ... the index block ... *)
Definition finish_index (r : Rep) : res (Rep * BlockHandle) :=
  if rep_status r then
    r ← (if rep_pending_index_entry r then add_index_entry r (cmp.(FindShortSuccessor) (rep_last_key r)) else Ret r);
    '(r, handle) ← WriteBlock r (rep_index_block r);
    Ret (set_index_block r (BlockBuilder_Reset (rep_index_block r)), handle)
  else Ret (r, BlockHandle_init).

(** ... and the footer. *)
Definition finish_footer (r : Rep) (metaindex_block_handle index_block_handle : BlockHandle) : res Rep :=
  if rep_status r then
    footer_encoding ← Footer_EncodeTo (mkFooter metaindex_block_handle index_block_handle) [];
    '(file, ok) ← file_Append (rep_file r) footer_encoding;
    let offset := if (ok : bool) then w64 (rep_offset r + size_of footer_encoding) else rep_offset r in
    Ret (set_file r file ok offset)
  else Ret r.

Definition TableBuilder_Finish (r : Rep) : res Rep :=
  r ← Flush r;
  if rep_closed r then Abort
  else
    '(r, filter_block_handle) ← finish_filter (set_closed r);
    '(r, metaindex_block_handle) ← finish_metaindex r filter_block_handle;
    '(r, index_block_handle) ← finish_index r;
    finish_footer r metaindex_block_handle index_block_handle.

Definition Abandon (r : Rep) : res Rep := if rep_closed r then Abort else Ret (set_closed r).

Definition NumEntries (r : Rep) : Z := rep_num_entries r.
Definition NumDataBlocks (r : Rep) : Z := rep_num_data_blocks r.
Definition FileSize (r : Rep) : Z := rep_offset r.

(** A client that adds [kvs] in order; every [Add] must succeed. *)
Fixpoint add_table_entries (r : Rep) (kvs : list (bytes * bytes)) : res Rep :=
  match kvs with
  | [] => Ret r
  | (k, v) :: kvs => '(r, ok) ← TableBuilder_Add r k v; if (ok : bool) then add_table_entries r kvs else Fail
  end.

(** A client that writes a table of [kvs]. *)
Definition build_table (file : F) (kvs : list (bytes * bytes)) : res Rep :=
  r ← TableBuilder_make file;
  r ← add_table_entries r kvs;
  TableBuilder_Finish r.
End builder.

(** A file in memory that never runs out of space. *)
#[export] Instance memory_file : WritableFile bytes := {|
  file_Append f data := Ret (f ++ data, true);
  file_Flush f := Ret (f, true)
|}.

(** ** Layout of a table *)

Abbreviation kv := (bytes * bytes)%type.

Section layout.
Context (AcceleratedCRC32C : Z → bytes → Z).

(** A block as it is stored. *)
Definition stored (c : bytes) : bytes := c ++ block_trailer AcceleratedCRC32C c kNoCompression.

Definition region (cs : list bytes) : bytes := concat (stored <$> cs).

(** The handles of consecutive blocks, the first at [base]. *)
Fixpoint handles_from (base : Z) (cs : list bytes) : list BlockHandle :=
  match cs with
  | [] => []
  | c :: cs => mkBlockHandle base (size_of c) :: handles_from (base + size_of (stored c)) cs
  end.

(** The entries of the index block. *)
Definition index_entries (seps cs : list bytes) : list kv := zip seps (encode_handle <$> handles_from 0 cs).

(** The keys of the blocks with the offset of their block. *)
Fixpoint keys_from (base : Z) (cs : list bytes) (bls : list (list kv)) : list (Z * bytes) :=
  match cs, bls with
  | c :: cs, bl :: bls => (pair base <$> bl.*1) ++ keys_from (base + size_of (stored c)) cs bls
  | _, _ => []
  end.

Lemma length_block_trailer c t : length (block_trailer AcceleratedCRC32C c t) = kBlockTrailerSize.
Proof. done. Qed.

Lemma size_stored c : size_of (stored c) = size_of c + 5.
Proof. unfold stored. rewrite length_app, length_block_trailer. unfold kBlockTrailerSize. lia. Qed.

Lemma region_snoc cs c : region (cs ++ [c]) = region cs ++ stored c.
Proof. unfold region. rewrite fmap_app, concat_app. cbn. by rewrite app_nil_r. Qed.

Lemma region_cons cs c : region (c :: cs) = stored c ++ region cs.
Proof. done. Qed.

Lemma handles_snoc base cs c :
  handles_from base (cs ++ [c]) = handles_from base cs ++ [mkBlockHandle (base + size_of (region cs)) (size_of c)].
Proof.
  revert base. induction cs as [|x cs IH]; intros base; cbn [handles_from app]; [do 2 f_equal; cbn; lia|].
  rewrite IH, region_cons, length_app.
  by replace (base + size_of (stored x) + _) with (base + Z.of_nat (length (stored x) + length (region cs))) by lia.
Qed.

Lemma length_handles base cs : length (handles_from base cs) = length cs.
Proof. revert base. induction cs; intros; cbn; [done|]. by rewrite IHcs. Qed.

Lemma keys_snoc base cs bls c bl :
  length cs = length bls →
  keys_from base (cs ++ [c]) (bls ++ [bl]) = keys_from base cs bls ++ (pair (base + size_of (region cs)) <$> bl.*1).
Proof.
  revert base bls. induction cs as [|x cs IH]; intros base [|bl' bls]; intros Hl; try done; cbn [keys_from app].
  - cbn. by rewrite app_nil_r, Z.add_0_r.
  - rewrite IH by (cbn in Hl; lia). rewrite <- app_assoc, region_cons, length_app.
    by replace (base + size_of (stored x) + _) with (base + Z.of_nat (length (stored x) + length (region cs))) by lia.
Qed.

Lemma index_entries_snoc seps cs sep h :
  length cs = S (length seps) → last (handles_from 0 cs) = Some h →
  index_entries (seps ++ [sep]) cs = index_entries seps cs ++ [(sep, encode_handle h)].
Proof.
  intros Hl Hh. apply last_Some in Hh as [hs E]. unfold index_entries. rewrite E.
  pose proof (length_handles 0 cs) as Hlen. rewrite E, length_app in Hlen. cbn in Hlen.
  rewrite fmap_app, zip_with_app by (rewrite length_fmap; lia). f_equal.
  rewrite <- (app_nil_r seps) at 2. rewrite zip_with_app by (rewrite length_fmap; lia). cbn. by rewrite app_nil_r.
Qed.
End layout.

(** ** Sizes *)

(** An upper bound on the data, index and trailers of a table. *)
Definition data_bound (kvs : list kv) : Z := foldr (λ e acc, size_of e.1 + size_of e.2 + 64 + acc) 64 kvs.

Lemma data_bound_app a b : data_bound (a ++ b) = data_bound a + data_bound b - 64.
Proof. unfold data_bound. induction a as [|e a IH]; cbn [foldr app] in *; lia. Qed.

Lemma data_bound_pos a : 64 <= data_bound a.
Proof. unfold data_bound. induction a as [|e a IH]; cbn [foldr]; lia. Qed.

Lemma kvs_bound_app a b : kvs_bound (a ++ b) = kvs_bound a + kvs_bound b - 8.
Proof. unfold kvs_bound. induction a as [|e a IH]; cbn [foldr app] in *; lia. Qed.

Lemma kvs_data_bound a : kvs_bound a + 45 * size_of a + 56 = data_bound a.
Proof. unfold kvs_bound, data_bound. induction a as [|e a IH]; cbn [foldr length] in *; lia. Qed.

(** Members after assignments. *)
Ltac rep_cbn :=
  cbn [rep_file rep_offset rep_status rep_data_block rep_index_block rep_last_key rep_num_entries rep_num_data_blocks
       rep_closed rep_filter_block rep_pending_index_entry rep_pending_handle
       set_file set_data_block set_index_block set_filter set_pending set_last_key set_closed] in *.

Section builder_ok.
Context (AcceleratedCRC32C : Z → bytes → Z) (Snappy_Compress : bytes → option bytes).
Context (cmp : Comparator) {SC : Separating cmp} (interval block_size : Z).
Context (policy : FilterPolicy) {FC : FilterContract policy} (name : bytes).
Hypothesis interval_pos : 1 <= interval.

Definition table_options : TableOptions :=
  mkTableOptions cmp interval block_size kNoCompression (Some (policy, name)).

Local Abbreviation stored := (stored AcceleratedCRC32C).
Local Abbreviation region := (region AcceleratedCRC32C).
Local Abbreviation handles_from := (handles_from AcceleratedCRC32C).
Local Abbreviation index_entries := (index_entries AcceleratedCRC32C).
Local Abbreviation keys_from := (keys_from AcceleratedCRC32C).
Local Abbreviation lt := (λ a b : kv, Compare a.1 b.1 < 0).

(** Every key of block [i] is at or before separator [i], every key of a later
    block is after it. *)
Definition seps_ok (bls : list (list kv)) (seps : list bytes) : Prop :=
  ∀ i sep j bl e, seps !! i = Some sep → bls !! j = Some bl → e ∈ bl →
    ((j <= i)%nat → Compare e.1 sep <= 0) ∧ ((i < j)%nat → Compare sep e.1 < 0).

(** A separator comes from the keys next to it. *)
Definition seps_tight (bls : list (list kv)) (seps : list bytes) : Prop :=
  ∀ i sep bl x bl' y, seps !! i = Some sep → bls !! i = Some bl → last bl = Some x →
    bls !! S i = Some bl' → head bl' = Some y → sep = FindShortestSeparator x.1 y.1.

(** A separator is no longer than a key of its block. *)
Definition sep_sizes (bls : list (list kv)) (seps : list bytes) : Prop :=
  ∀ i sep bl, seps !! i = Some sep → bls !! i = Some bl → ∃ e, e ∈ bl ∧ (length sep <= length e.1)%nat.

(** A block exceeds the configured size by at most one entry. *)
Definition block_sizes (cs : list bytes) (bls : list (list kv)) : Prop :=
  Forall2 (λ c bl, ∃ e, e ∈ bl ∧ size_of c <= Z.max block_size 8 + size_of e.1 + size_of e.2 + 19) cs bls.

(** The state of the builder when the blocks [bls] are written with contents
    [cs], their index keys so far are [seps], and [cur] is in the data block. *)
Record tb_ok (r : Rep bytes) (bls : list (list kv)) (cs seps : list bytes) (cur : list kv) : Prop := {
  ok_file : rep_file r = region cs;
  ok_offset : rep_offset r = size_of (region cs);
  ok_status : rep_status r = true;
  ok_data : ∃ ss ridx, built interval (rep_data_block r) cur ss ridx;
  ok_blocks : Forall2 (block_of cmp) cs bls;
  ok_nonempty : Forall (λ bl, bl ≠ []) bls;
  ok_index : ∃ ss ridx, built 1 (rep_index_block r) (index_entries seps cs) ss ridx;
  ok_pending : if rep_pending_index_entry r
    then length bls = S (length seps) ∧ cur = [] ∧ last (handles_from 0 cs) = Some (rep_pending_handle r)
    else length bls = length seps;
  ok_seps : seps_ok (bls ++ [cur]) seps;
  ok_sep_sizes : sep_sizes bls seps;
  ok_num_blocks : rep_num_data_blocks r = size_of seps;
  ok_filter : ∃ f groups pending, rep_filter_block r = Some f
    ∧ filters_ok policy f groups pending (keys_from 0 cs bls ++ (pair (size_of (region cs)) <$> cur.*1))
    ∧ size_of groups = rep_offset r / kFilterBase
}.

Lemma blocks_length cs bls : Forall2 (block_of cmp) cs bls → length cs = length bls.
Proof. apply Forall2_length. Qed.

(** Data blocks and their trailers stay within the bound. *)
Lemma region_bound cs bls :
  Forall2 (block_of cmp) cs bls → Forall (λ bl, bl ≠ []) bls →
  size_of (region cs) + 64 <= data_bound (concat bls).
Proof.
  induction 1 as [|c bl cs bls Hc H IH]; intros Hne; [done|]. apply Forall_cons in Hne as [Hb Hne].
  specialize (IH Hne). destruct Hc as (ss & ridx & _ & _ & [Hle _] & _).
  cbn [concat]. rewrite data_bound_app, region_cons, length_app. pose proof (size_stored AcceleratedCRC32C c).
  pose proof (kvs_data_bound bl). destruct bl; [done|]. cbn [length] in *. lia.
Qed.

(** The index entries stay within the bound. *)
Lemma zip_bound (hs : list BlockHandle) bls seps :
  (length seps <= length bls)%nat → sep_sizes bls seps →
  kvs_bound (zip seps (encode_handle <$> hs)) + 56 <= data_bound (concat bls).
Proof.
  revert bls hs. induction seps as [|sep seps IH]; intros bls hs Hl Hs.
  { cbn. pose proof (data_bound_pos (concat bls)). lia. }
  destruct hs as [|h hs]; [cbn; pose proof (data_bound_pos (concat bls)); lia|].
  destruct bls as [|bl bls]; [cbn in Hl; lia|]. cbn [concat].
  change (zip (sep :: seps) (encode_handle <$> h :: hs)) with ((sep, encode_handle h) :: zip seps (encode_handle <$> hs)).
  destruct (Hs 0%nat sep bl eq_refl eq_refl) as (e & He & Hle).
  assert (kvs_bound (zip seps (encode_handle <$> hs)) + 56 <= data_bound (concat bls)) as H'.
  { apply IH; [cbn in Hl; lia|]. intros i s b Hi Hb. by apply (Hs (S i)). }
  rewrite data_bound_app. change (kvs_bound ((sep, encode_handle h) :: ?l)) with (size_of sep + size_of (encode_handle h) + 19 + kvs_bound l).
  pose proof (length_encode_handle h). unfold kMaxEncodedLength in *.
  assert (size_of e.1 + 128 <= data_bound bl).
  { apply list_elem_of_split in He as (l1 & l2 & ->). rewrite data_bound_app. unfold data_bound at 2. cbn [foldr].
    fold (data_bound l2). pose proof (data_bound_pos l1). pose proof (data_bound_pos l2). lia. }
  lia.
Qed.

Lemma index_entries_more seps cs c :
  length cs = length seps → index_entries seps (cs ++ [c]) = index_entries seps cs.
Proof.
  intros Hl. unfold TableBuilder.index_entries. rewrite handles_snoc, fmap_app, <- (app_nil_r seps) at 1.
  rewrite zip_with_app by (rewrite length_fmap, length_handles; lia). cbn. by rewrite app_nil_r.
Qed.

Lemma built_buffer i b kvs ss ridx : built i b kvs ss ridx → BlockBuilder_empty b = bool_decide (kvs = []).
Proof.
  intros Hb. unfold BlockBuilder_empty. apply bool_decide_ext. rewrite (bt_buffer _ _ _ _ _ Hb).
  pose proof (wl_len _ _ _ (bt_laid _ _ _ _ _ Hb)) as Hl. destruct kvs as [|e kvs], ss as [|s ss]; try done.
  split; [|done]. intros E. pose proof (encode_kv_pos s e) as Hp. unfold body, encs in E. cbn in E.
  apply app_eq_nil in E as [E _]. rewrite E in Hp. cbn in Hp. lia.
Qed.

(** How much an entry adds to the estimate. *)
Lemma Add_estimate b k v b' :
  BlockBuilder_Add cmp interval b k v = Ret b' →
  CurrentSizeEstimate b' <= CurrentSizeEstimate b + size_of k + size_of v + 19.
Proof.
  unfold BlockBuilder_Add. repeat (case_match || case_decide); intros [= <-] || done;
    unfold CurrentSizeEstimate, PutVarint32; cbn [buffer_ bb_restarts_]; rewrite !length_app, ?length_drop;
    repeat match goal with |- context [length (EncodeVarint32 ?x)] =>
      let H := fresh in pose proof (length_EncodeVarint32_le x) as H; revert H; generalize (length (EncodeVarint32 x)) end;
    simplify_eq; rewrite ?length_app; cbn [length]; lia.
Qed.

Lemma built_empty_estimate b ss ridx : built interval b [] ss ridx → CurrentSizeEstimate b <= 8.
Proof.
  intros Hb. unfold CurrentSizeEstimate. rewrite (bt_buffer _ _ _ _ _ Hb), (bt_restarts _ _ _ _ _ Hb), length_fmap.
  pose proof (bt_many _ _ _ _ _ Hb) as Hm. cbn in Hm. unfold body, encs. destruct ss; cbn; lia.
Qed.

Lemma WriteRawBlock_memory (r : Rep bytes) c :
  0 <= rep_offset r → rep_offset r + size_of c + 5 < 2 ^ 64 →
  WriteRawBlock AcceleratedCRC32C r c kNoCompression
  = Ret (set_file r (rep_file r ++ stored c) true (rep_offset r + size_of (stored c)),
         mkBlockHandle (rep_offset r) (size_of c)).
Proof.
  intros H0 Hb. unfold WriteRawBlock. cbn [file_Append memory_file mbind res_bind].
  rewrite w64_small by (unfold kBlockTrailerSize; mlia).
  rewrite size_stored, <- app_assoc. unfold kBlockTrailerSize. do 3 f_equal.
Qed.

Lemma WriteBlock_memory (r : Rep bytes) b :
  rep_status r = true → 0 <= rep_offset r → rep_offset r + size_of (BlockBuilder_Finish b).2 + 5 < 2 ^ 64 →
  WriteBlock AcceleratedCRC32C Snappy_Compress table_options r b
  = Ret (set_file r (rep_file r ++ stored (BlockBuilder_Finish b).2) true
           (rep_offset r + size_of (stored (BlockBuilder_Finish b).2)),
         mkBlockHandle (rep_offset r) (size_of (BlockBuilder_Finish b).2)).
Proof.
  intros Hs H0 Hb. unfold WriteBlock. rewrite Hs. cbn [opt_compression table_options]. by apply WriteRawBlock_memory.
Qed.

(** Writing the data block. *)
Lemma Flush_ok r bls cs seps cur :
  tb_ok r bls cs seps cur → rep_closed r = false → rep_pending_index_entry r = false → cur ≠ [] →
  StronglySorted lt cur → data_bound (concat bls ++ cur) < 2 ^ 31 →
  ∃ r' c, Flush AcceleratedCRC32C Snappy_Compress table_options r = Ret r'
    ∧ tb_ok r' (bls ++ [cur]) (cs ++ [c]) seps [] ∧ rep_pending_index_entry r' = true
    ∧ rep_closed r' = false ∧ rep_last_key r' = rep_last_key r ∧ rep_num_entries r' = rep_num_entries r
    ∧ size_of c = CurrentSizeEstimate (rep_data_block r).
Proof.
  intros [Hf Ho Hst (ss & ridx & Hd) Hbl Hne (iss & iridx & Hi) Hp Hseps Hss Hnb (f & gs & pd & Ef & Hfo & Hg)] Hcl Hpe Hcur Hsort Hbound.
  rewrite data_bound_app in Hbound. pose proof (region_bound cs bls Hbl Hne) as Hreg. pose proof (kvs_data_bound cur) as Hkd.
  pose proof (data_bound_pos (concat bls)) as Hpos. pose proof (data_bound_pos cur) as Hpos'.
  destruct (Finish_block_of cmp interval _ cur ss ridx Hd) as [Hblk Hsz]; [lia|done|].
  set (c := (BlockBuilder_Finish (rep_data_block r)).2) in *.
  assert (size_of c <= kvs_bound cur) as Hcb by (by destruct Hblk as (? & ? & _ & _ & [? _] & _)).
  rewrite Hpe in Hp. pose proof (blocks_length _ _ Hbl) as Hlen.
  assert (Flush AcceleratedCRC32C Snappy_Compress table_options r =
    (f' ← StartBlock policy f (rep_offset r + size_of (stored c));
     Ret (set_filter (set_pending (set_file (set_data_block (set_file r (rep_file r ++ stored c) true (rep_offset r + size_of (stored c)))
            (BlockBuilder_Reset (rep_data_block r))) (rep_file r ++ stored c) true (rep_offset r + size_of (stored c))) true
            (mkBlockHandle (rep_offset r) (size_of c))) (Some f')))) as EF.
  { unfold Flush. rewrite Hcl, Hst. cbn [negb]. rewrite (built_buffer _ _ _ _ _ Hd), bool_decide_eq_false_2 by done.
    rewrite Hpe. rewrite WriteBlock_memory by (done || (rewrite Ho; fold c; lia)). fold c. cbn [mbind res_bind]. cbn. by rewrite Ef. }
  destruct (StartBlock_ok policy f gs pd _ (rep_offset r + size_of (stored c)) Hfo) as (f' & gs' & pd' & Es & Hfo' & Hg').
  { rewrite Hg. apply Z.div_le_mono; [done|lia]. }
  rewrite EF, Es. cbn [mbind res_bind]. eexists _, c. split; [done|]. split; [|done].
  split; rep_cbn.
  - by rewrite Hf, region_snoc.
  - by rewrite Ho, region_snoc, length_app, Nat2Z.inj_add.
  - done.
  - exists [], [0%nat]. by apply built_init.
  - by apply Forall2_app; [|constructor].
  - apply Forall_app. by split; [|constructor].
  - exists iss, iridx. rewrite index_entries_more by lia. done.
  - rewrite length_app, handles_snoc, last_snoc, Ho. cbn. split_and!; [lia|done|]. by rewrite Z.add_0_l.
  - intros i sep j bl e Hi' Hj He. destruct (decide (j < length (bls ++ [cur]))%nat) as [Hlt|Hge].
    + rewrite lookup_app_l in Hj by done. by eapply Hseps.
    + rewrite lookup_app_r in Hj by lia. apply list_lookup_singleton_Some in Hj as [_ <-]. by apply not_elem_of_nil in He.
  - intros i sep bl Hi' Hb'. rewrite lookup_app_l in Hb' by (apply lookup_lt_Some in Hi'; lia). by eapply Hss.
  - done.
  - exists f', gs', pd'. split; [done|]. rewrite keys_snoc by done. rewrite Z.add_0_l.
    change ((pair ?x <$> [])) with (@nil (Z * bytes)). rewrite app_nil_r. done.
Qed.

Lemma handles_bound base cs h :
  h ∈ handles_from base cs → base <= bh_offset h ∧ 0 <= bh_size h
  ∧ bh_offset h + bh_size h <= base + size_of (region cs).
Proof.
  revert base. induction cs as [|c cs IH]; intros base; cbn [TableBuilder.handles_from]; [by intros ?%not_elem_of_nil|].
  rewrite region_cons, length_app. pose proof (size_stored AcceleratedCRC32C c).
  intros [->|Hh]%elem_of_cons; [cbn; lia|]. specialize (IH _ Hh). lia.
Qed.

(** The last index key is before the next one. *)
Lemma seps_below bls cur seps e k :
  seps_ok (bls ++ [cur]) seps → (∃ j bl, (bls ++ [cur]) !! j = Some bl ∧ (length seps <= j)%nat ∧ e ∈ bl) →
  Compare e.1 k <= 0 → ∀ sep, sep ∈ seps → Compare sep k < 0.
Proof.
  intros Hs (j & bl & Hj & Hlen & He) Hk sep [i Hi]%list_elem_of_lookup. pose proof (lookup_lt_Some _ _ _ Hi).
  destruct (Hs i sep j bl e Hi Hj He) as [_ Hlt]. eapply cmp_lt_le_trans; [apply Hlt; lia|done].
Qed.

(** The index block with the entry of the last block. *)
Lemma add_index_block r bls cs seps sep e :
  tb_ok r bls cs seps [] → rep_pending_index_entry r = true →
  (∀ e, e ∈ concat bls → Compare e.1 sep <= 0) →
  last bls ≫= last = Some e → (length sep <= length e.1)%nat → data_bound (concat bls) < 2 ^ 31 →
  handle_set (rep_pending_handle r)
  ∧ (∃ b' ss ridx, BlockBuilder_Add cmp 1 (rep_index_block r) sep (encode_handle (rep_pending_handle r)) = Ret b'
       ∧ built 1 b' (index_entries (seps ++ [sep]) cs) ss ridx)
  ∧ seps_ok (bls ++ [[]]) (seps ++ [sep]) ∧ sep_sizes bls (seps ++ [sep]) ∧ length bls = S (length seps).
Proof.
  intros [Hf Ho Hst Hd Hbl Hne (iss & iridx & Hi) Hp Hseps Hss Hnb Hfl] Hpe Hle Hlast Hshort Hbound.
  rewrite Hpe in Hp. destruct Hp as (Hlen & _ & Hh). pose proof (blocks_length _ _ Hbl) as Hcl.
  pose proof (region_bound cs bls Hbl Hne) as Hreg.
  destruct (last bls) as [lb|] eqn:Elb; [|done]. cbn in Hlast.
  assert (e ∈ lb) as Hel by (apply last_Some in Hlast as [? ->]; elem).
  assert (bls !! length seps = Some lb) as Hlb by (rewrite last_lookup, Hlen in Elb; done).
  assert (sep_sizes bls (seps ++ [sep])) as Hss'.
  { intros i s bl Hi' Hb'. destruct (decide (i < length seps)%nat).
    - rewrite lookup_app_l in Hi' by done. by eapply Hss.
    - rewrite lookup_app_r in Hi' by lia. apply list_lookup_singleton_Some in Hi' as [? <-].
      assert (i = length seps) as -> by lia. rewrite Hlb in Hb'. injection Hb' as <-. eauto. }
  assert (handle_set (rep_pending_handle r)) as Hhs.
  { destruct (handles_bound 0 cs (rep_pending_handle r)) as (? & ? & ?); [|split; lia].
    apply last_Some in Hh as [? ->]. elem. }
  pose proof (index_entries_snoc AcceleratedCRC32C seps cs sep _ ltac:(lia) Hh) as Ei.
  split_and!; [done| | |done|done].
  - destruct (Add_built cmp 1 ltac:(lia) _ _ iss iridx sep (encode_handle (rep_pending_handle r)) Hi) as (b' & iss' & iridx' & E & Hi').
    + rewrite <- Ei. pose proof (zip_bound (handles_from 0 cs) bls (seps ++ [sep])) as Hz. unfold TableBuilder.index_entries.
      enough (kvs_bound (zip (seps ++ [sep]) (encode_handle <$> handles_from 0 cs)) + 56 <= data_bound (concat bls)) by lia.
      apply Hz; [rewrite length_app; cbn; lia|done].
    + intros Hnn. destruct (exists_last Hnn) as (l & [k v] & El). rewrite El, last_key_of_snoc.
      apply (seps_below bls [] seps e sep Hseps).
      * exists (length seps), lb. split_and!; [|done|done]. by apply lookup_app_l_Some.
      * apply Hle. apply elem_of_concat. exists lb. split; [done|]. by eapply list_elem_of_lookup_2.
      * assert ((k, v) ∈ index_entries seps cs) as Hin by (rewrite El; elem). by apply elem_of_zip_l in Hin.
    + rewrite <- Ei in Hi'. eauto.
  - intros i s j bl x Hi0 Hj Hx. destruct (decide (i < length seps)%nat).
    { rewrite lookup_app_l in Hi0 by done. by eapply Hseps. }
    rewrite lookup_app_r in Hi0 by lia. apply list_lookup_singleton_Some in Hi0 as [Hi0 <-].
    assert (j < length bls)%nat as Hjl.
    { destruct (decide (j < length bls)%nat); [done|]. rewrite lookup_app_r in Hj by lia.
      apply list_lookup_singleton_Some in Hj as [_ <-]. by apply not_elem_of_nil in Hx. }
    rewrite lookup_app_l in Hj by done. split; [|lia]. intros _. apply Hle. apply elem_of_concat. exists bl.
    split; [done|]. by eapply list_elem_of_lookup_2.
Qed.

(** Emitting the index entry of the last block. *)
Lemma add_index_ok r bls cs seps sep e :
  tb_ok r bls cs seps [] → rep_pending_index_entry r = true →
  (∀ e, e ∈ concat bls → Compare e.1 sep <= 0) →
  last bls ≫= last = Some e → (length sep <= length e.1)%nat → data_bound (concat bls) < 2 ^ 31 →
  ∃ r', add_index_entry table_options r sep = Ret r' ∧ tb_ok r' bls cs (seps ++ [sep]) []
    ∧ rep_pending_index_entry r' = false ∧ rep_closed r' = rep_closed r ∧ rep_num_entries r' = rep_num_entries r.
Proof.
  intros Hok Hpe Hle Hlast Hshort Hbound.
  destruct (add_index_block r bls cs seps sep e Hok Hpe Hle Hlast Hshort Hbound)
    as (Hhs & (b' & ss & ridx & Eb & Hb') & Hseps' & Hss' & Hlen).
  destruct Hok as [Hf Ho Hst Hd Hbl Hne Hi Hp Hseps Hss Hnb Hfl].
  unfold add_index_entry. rewrite BlockHandle_EncodeTo_set by done. cbn [mbind res_bind app opt_comparator table_options].
  rewrite Eb. cbn [mbind res_bind]. eexists. split; [done|]. split; [|done]. split; rep_cbn; try done.
  - eauto.
  - rewrite length_app. cbn. lia.
  - rewrite Hnb, length_app. cbn. lia.
Qed.

(** Adding an entry to the data block and its key to the filter. *)
Lemma add_data_ok r bls cs seps cur k v :
  tb_ok r bls cs seps cur → rep_pending_index_entry r = false →
  (∀ sep, sep ∈ seps → Compare sep k < 0) → (cur ≠ [] → Compare (last_key_of cur) k < 0) →
  data_bound (concat bls ++ cur ++ [(k, v)]) < 2 ^ 31 →
  ∃ b' f f', rep_filter_block r = Some f ∧ f' = AddKey f k
    ∧ BlockBuilder_Add cmp interval (rep_data_block r) k v = Ret b'
    ∧ tb_ok (set_data_block (set_last_key (set_filter r (Some f')) k (rep_num_entries r + 1)) b') bls cs seps (cur ++ [(k, v)]).
Proof.
  intros [Hf Ho Hst (ss & ridx & Hd) Hbl Hne Hi Hp Hseps Hss Hnb (f & gs & pd & Ef & Hfo & Hg)] Hpe Hlow Hlast Hbound.
  rewrite !data_bound_app in Hbound. pose proof (kvs_data_bound (cur ++ [(k, v)])) as Hkd.
  rewrite data_bound_app in Hkd. pose proof (data_bound_pos (concat bls)).
  destruct (Add_built cmp interval interval_pos _ cur ss ridx k v Hd) as (b' & ss' & ridx' & Eb & Hb'); [lia|done|].
  exists b', f, (AddKey f k). split_and!; [done|done|done|]. rewrite Hpe in Hp.
  split; rep_cbn; try done; [eauto|by rewrite Hpe| |].
  - intros i sep j bl e Hi' Hj He. destruct (decide (j < length bls)%nat).
    { rewrite lookup_app_l in Hj by done. eapply Hseps; [done| |done]. by apply lookup_app_l_Some. }
    rewrite lookup_app_r in Hj by lia. apply list_lookup_singleton_Some in Hj as [Hj <-].
    pose proof (lookup_lt_Some _ _ _ Hi') as Hil.
    split; [lia|]. intros _. apply elem_of_app in He as [He| ->%list_elem_of_singleton].
    + destruct (Hseps i sep (length bls) cur e Hi') as [_ Hlt]; [by apply list_lookup_middle|done|]. apply Hlt. lia.
    + apply Hlow. by eapply list_elem_of_lookup_2.
  - exists (AddKey f k), gs, (pd ++ [k]). split; [done|]. split; [|done].
    rewrite !fmap_app, app_assoc. apply (AddKey_ok policy f gs pd _ (size_of (region cs)) k Hfo). rewrite Ho in Hg. lia.
Qed.

Lemma lt_app (a b : list kv) x y : StronglySorted lt (a ++ b) → x ∈ a → y ∈ b → Compare x.1 y.1 < 0.
Proof. intros Hs Hx Hy. by eapply (StronglySorted_app_1_elem_of lt) in Hs. Qed.

Lemma last_key_of_app a b : b ≠ [] → last_key_of (a ++ b) = last_key_of b.
Proof. intros Hb. destruct (exists_last Hb) as (l & [k v] & ->). rewrite app_assoc, !last_key_of_snoc. done. Qed.

Lemma seps_tight_flush bls seps : seps_tight bls seps → seps_tight (bls ++ [[]]) seps.
Proof.
  intros H i sep bl x bl' y Hs Hb Hx Hb' Hy. destruct (decide (S i < length bls)%nat).
  - rewrite lookup_app_l in Hb, Hb' by lia. by eapply H.
  - rewrite lookup_app_r in Hb' by lia. by apply list_lookup_singleton_Some in Hb' as [_ <-].
Qed.

Lemma seps_tight_drop bls bl seps : seps_tight (bls ++ [bl]) seps → seps_tight bls seps.
Proof. intros H i sep b x b' y Hs Hb Hx Hb' Hy. eapply H; try done; by apply lookup_app_l_Some. Qed.

Lemma seps_tight_extend bls cur e seps :
  cur ≠ [] ∨ bls = [] → seps_tight (bls ++ [cur]) seps → seps_tight (bls ++ [cur ++ [e]]) seps.
Proof.
  intros Hc H i sep bl x bl' y Hs Hb Hx Hb' Hy.
  destruct (decide (S i < length bls)%nat); [rewrite lookup_app_l in Hb, Hb' by lia|].
  - eapply H; [done|by apply lookup_app_l_Some|done|by apply lookup_app_l_Some|done].
  - rewrite lookup_app_r in Hb' by lia. apply list_lookup_singleton_Some in Hb' as [Hi <-].
    destruct Hc as [Hc| ->]; [|cbn in Hi; lia]. rewrite lookup_app_l in Hb by lia.
    eapply (H i sep bl x cur y); [done|by apply lookup_app_l_Some|done| |by destruct cur].
    rewrite lookup_app_r by lia. by replace (S i - length bls)%nat with 0%nat by lia.
Qed.

Lemma seps_tight_add bls seps e k v :
  length bls = S (length seps) → last bls ≫= last = Some e → seps_tight bls seps →
  seps_tight (bls ++ [[(k, v)]]) (seps ++ [FindShortestSeparator e.1 k]).
Proof.
  intros Hl Hlast H i sep bl x bl' y Hs Hb Hx Hb' Hy. destruct (decide (i < length seps)%nat).
  - rewrite lookup_app_l in Hs by done. rewrite lookup_app_l in Hb, Hb' by lia. by eapply H.
  - rewrite lookup_app_r in Hs by lia. apply list_lookup_singleton_Some in Hs as [Hi <-].
    rewrite lookup_app_r in Hb' by lia. apply list_lookup_singleton_Some in Hb' as [_ <-]. injection Hy as <-.
    rewrite lookup_app_l in Hb by lia. destruct (last bls) as [lb|] eqn:E; [|done]. cbn in Hlast.
    rewrite last_lookup, Hl in E. cbn in E. replace i with (length seps) in Hb by lia.
    rewrite E in Hb. injection Hb as <-. rewrite Hlast in Hx. by injection Hx as <-.
Qed.

Lemma seps_tight_last bls seps sep :
  length bls = S (length seps) → seps_tight bls seps → seps_tight bls (seps ++ [sep]).
Proof.
  intros Hl H i s bl x bl' y Hs Hb Hx Hb' Hy. pose proof (lookup_lt_Some _ _ _ Hb').
  rewrite lookup_app_l in Hs by lia. by eapply H.
Qed.

(** What a client sees between two calls of [Add]. *)
Record tb_open (r : Rep bytes) (bls : list (list kv)) (cs seps : list bytes) (cur : list kv) : Prop := {
  op_ok : tb_ok r bls cs seps cur;
  op_closed : rep_closed r = false;
  op_last : concat bls ++ cur ≠ [] → rep_last_key r = last_key_of (concat bls ++ cur);
  op_num : rep_num_entries r = size_of (concat bls ++ cur);
  op_cur : rep_pending_index_entry r = false → cur ≠ [] ∨ bls = [];
  op_tight : seps_tight (bls ++ [cur]) seps;
  op_room : cur = [] ∨ CurrentSizeEstimate (rep_data_block r) < block_size;
  op_sizes : block_sizes cs bls
}.

(** The first half of [Add]: the index entry of a finished block. *)
Lemma add_pending_ok r bls cs seps cur k v :
  tb_open r bls cs seps cur → StronglySorted lt (concat bls ++ cur ++ [(k, v)]) →
  data_bound (concat bls ++ cur ++ [(k, v)]) < 2 ^ 31 →
  ∃ r' seps', (if rep_pending_index_entry r then
           if BlockBuilder_empty (rep_data_block r)
           then add_index_entry table_options r (FindShortestSeparator (rep_last_key r) k) else Abort
         else Ret r) = Ret r'
    ∧ tb_ok r' bls cs seps' cur ∧ rep_pending_index_entry r' = false ∧ rep_closed r' = false
    ∧ rep_num_entries r' = rep_num_entries r ∧ (∀ sep, sep ∈ seps' → Compare sep k < 0)
    ∧ seps_tight (bls ++ [cur ++ [(k, v)]]) seps' ∧ (cur = [] ∨ r' = r).
Proof.
  intros [Hok Hcl Hlast Hnum Hcur Htight _ _] Hs Hbound. pose proof Hok as [Hf Ho Hst (ss & ridx & Hd) Hbl Hne Hi Hp Hseps Hss Hnb Hfl].
  assert (∀ e, e ∈ concat bls ++ cur → Compare e.1 k < 0) as Hlow.
  { intros e He. rewrite app_assoc in Hs.
    apply (lt_app _ _ e (k, v) Hs); [done|elem]. }
  destruct (rep_pending_index_entry r) eqn:Hpe.
  - destruct Hp as (Hlen & -> & Hh). rewrite (built_buffer _ _ _ _ _ Hd), bool_decide_eq_true_2 by done.
    destruct (exists_last (l := bls)) as (bls' & lb & ->); [by destruct bls|].
    apply Forall_app in Hne as [Hne' Hlbne]. apply Forall_cons in Hlbne as [Hlbne _].
    destruct (exists_last Hlbne) as (lb' & e & ->).
    assert (rep_last_key r = e.1) as El.
    { rewrite Hlast; rewrite app_nil_r, concat_app; cbn; rewrite app_nil_r, app_assoc;
        [destruct e as [ek ev]; by rewrite last_key_of_snoc|by destruct (concat bls' ++ lb')]. }
    assert (Compare e.1 k < 0) as Hek by (apply Hlow; rewrite app_nil_r, concat_app; cbn; rewrite app_nil_r; elem).
    destruct (separator_between e.1 k Hek) as [Hge Hlt].
    rewrite !data_bound_app in Hbound. pose proof (data_bound_pos [(k, v)]). pose proof (data_bound_pos (@nil kv)).
    destruct (add_index_ok r (bls' ++ [lb' ++ [e]]) cs seps (FindShortestSeparator e.1 k) e Hok Hpe) as (r' & Er & Hok' & Hpe' & Hcl' & Hnum').
    + intros x Hx. eapply cmp_le_trans; [|exact Hge].
      rewrite concat_app in Hx, Hs. cbn in Hx, Hs. rewrite app_nil_r in Hx, Hs. rewrite app_assoc in Hx, Hs.
      rewrite <- app_assoc in Hs. apply elem_of_app in Hx as [Hx| ->%list_elem_of_singleton]; [|rewrite cmp_refl; lia].
      enough (Compare x.1 e.1 < 0) by lia.
      apply (lt_app _ _ x e Hs); [done|elem].
    + rewrite last_snoc. cbn. by rewrite last_snoc.
    + apply separator_short.
    + lia.
    + exists r', (seps ++ [FindShortestSeparator e.1 k]). rewrite El. split_and!; [done|done|done|congruence|done| | |by left].
      2:{ cbn [app]. apply seps_tight_add; [done| |by eapply seps_tight_drop].
          rewrite last_snoc. cbn. by rewrite last_snoc. }
      intros sep [Hsep| ->%list_elem_of_singleton]%elem_of_app; [|done].
      apply (seps_below (bls' ++ [lb' ++ [e]]) [] seps e k Hseps); [|lia|done].
      exists (length bls'), (lb' ++ [e]). rewrite length_app in Hlen. cbn in Hlen.
      split_and!; [|lia|elem]. rewrite <- app_assoc. by apply list_lookup_middle.
  - exists r, seps. split_and!; [done|done|done|done|done| |by apply seps_tight_extend; [apply Hcur|]|by right]. intros sep Hsep.
    destruct (Hcur eq_refl) as [Hc| ->].
    + destruct cur as [|e cur]; [done|].
      apply (seps_below bls (e :: cur) seps e k Hseps); [|apply Z.lt_le_incl, Hlow; elem|done].
      exists (length bls), (e :: cur). split_and!; [by apply list_lookup_middle|lia|elem].
    + destruct seps; [by apply not_elem_of_nil in Hsep|done].
Qed.

Lemma Add_ok r bls cs seps cur k v :
  tb_open r bls cs seps cur → StronglySorted lt (concat bls ++ cur ++ [(k, v)]) →
  data_bound (concat bls ++ cur ++ [(k, v)]) < 2 ^ 31 →
  ∃ r' bls' cs' seps' cur',
    TableBuilder_Add AcceleratedCRC32C Snappy_Compress table_options r k v = Ret (r', true)
    ∧ tb_open r' bls' cs' seps' cur' ∧ concat bls' ++ cur' = (concat bls ++ cur) ++ [(k, v)].
Proof.
  intros Hop Hs Hbound. pose proof Hop as [Hok Hcl Hlast Hnum Hcur _ Hroom Hsizes].
  assert (∀ e, e ∈ concat bls ++ cur → Compare e.1 k < 0) as Hlow.
  { intros e He. rewrite app_assoc in Hs. apply (lt_app _ _ e (k, v) Hs); [done|elem]. }
  unfold TableBuilder_Add. rewrite Hcl, (ok_status _ _ _ _ _ Hok). cbn [negb opt_comparator table_options].
  rewrite decide_False.
  2:{ intros [Hgt Hle]. rewrite Hnum in Hgt. cbn [opt_comparator table_options] in Hle.
      destruct (exists_last (l := concat bls ++ cur)) as (l & [lk lv] & E); [intros E; rewrite E in Hgt; done|].
      rewrite Hlast in Hle by (rewrite E; by destruct l). rewrite E, last_key_of_snoc in Hle.
      pose proof (Hlow (lk, lv) ltac:(rewrite E; elem)) as Hlt. apply (cmp_antisym lk k) in Hlt. lia. }
  destruct (add_pending_ok r bls cs seps cur k v Hop Hs Hbound) as (r1 & seps1 & -> & Hok1 & Hpe1 & Hcl1 & Hnum1 & Hlow1 & Ht1 & Hr1).
  cbn [mbind res_bind].
  destruct (add_data_ok r1 bls cs seps1 cur k v Hok1 Hpe1 Hlow1) as (b' & f & f' & Ef & -> & Eb & Hok2); [|done|].
  { intros Hc. destruct (exists_last Hc) as (l & [lk lv] & ->). rewrite last_key_of_snoc.
    apply (Hlow (lk, lv)). elem. }
  rewrite Ef. rep_cbn. cbn [opt_comparator opt_restart_interval table_options]. rewrite Eb. cbn [mbind res_bind].
  set (r2 := set_data_block (set_last_key (set_filter r1 (Some (AddKey f k))) k (rep_num_entries r1 + 1)) b') in *.
  change (mkRep _ _ _ _ _ _ _ _ _ _ _ _) with r2.
  assert (concat bls ++ cur ++ [(k, v)] = (concat bls ++ cur) ++ [(k, v)]) as Ea by apply app_assoc.
  assert (CurrentSizeEstimate (rep_data_block r1) <= Z.max block_size 8) as He1.
  { destruct (ok_data _ _ _ _ _ Hok1) as (ss & ridx & Hd1). destruct (decide (cur = [])) as [->|Hc].
    - pose proof (built_empty_estimate _ _ _ Hd1). lia.
    - destruct Hr1 as [?| ->]; [done|]. destruct Hroom; [done|lia]. }
  pose proof (Add_estimate _ _ _ _ Eb) as He2.
  case_decide as Hsz.
  - destruct (Flush_ok r2 bls cs seps1 (cur ++ [(k, v)]) Hok2) as (r3 & c & -> & Hok3 & Hpe3 & Hcl3 & Hl3 & Hn3 & Hc3);
      [done|done|by destruct cur|by apply StronglySorted_app_1_r in Hs|done|].
    exists r3, (bls ++ [cur ++ [(k, v)]]), (cs ++ [c]), seps1, []. split; [done|].
    assert (concat (bls ++ [cur ++ [(k, v)]]) ++ [] = concat bls ++ cur ++ [(k, v)]) as E
      by (rewrite concat_app; cbn; by rewrite !app_nil_r).
    split; [|by rewrite E]. split; [done|done|..].
    + intros _. rewrite E, Ea, last_key_of_snoc, Hl3. done.
    + rewrite E, Ea, length_app, Hn3. cbn. rewrite Hnum1, Hnum. cbn. lia.
    + by rewrite Hpe3.
    + by apply seps_tight_flush.
    + by left.
    + apply Forall2_app; [done|]. constructor; [|done]. exists (k, v). split; [elem|]. rewrite Hc3. cbn. lia.
  - exists r2, bls, cs, seps1, (cur ++ [(k, v)]). split; [done|]. split; [|done]. split; [done|done|..].
    + intros _. rewrite Ea, last_key_of_snoc. done.
    + rewrite Ea, length_app. cbn. rewrite Hnum1, Hnum. lia.
    + intros _. left. by destruct cur.
    + done.
    + right. change (opt_block_size table_options) with block_size in Hsz.
      change (rep_data_block r2) with b'. lia.
    + done.
Qed.

Lemma add_table_entries_ok r bls cs seps cur kvs :
  tb_open r bls cs seps cur → StronglySorted lt (concat bls ++ cur ++ kvs) →
  data_bound (concat bls ++ cur ++ kvs) < 2 ^ 31 →
  ∃ r' bls' cs' seps' cur',
    add_table_entries AcceleratedCRC32C Snappy_Compress table_options r kvs = Ret r'
    ∧ tb_open r' bls' cs' seps' cur' ∧ concat bls' ++ cur' = (concat bls ++ cur) ++ kvs.
Proof.
  revert r bls cs seps cur. induction kvs as [|[k v] kvs IH]; intros r bls cs seps cur Hop Hs Hbound.
  { cbn. rewrite app_nil_r. eauto 10. }
  rewrite (cons_middle (k, v)), !app_assoc in Hs, Hbound.
  pose proof Hs as Hs1. apply StronglySorted_app_1_l in Hs1. rewrite <- app_assoc in Hs1.
  pose proof (data_bound_pos kvs). rewrite data_bound_app in Hbound.
  destruct (Add_ok r bls cs seps cur k v Hop Hs1) as (r1 & bls1 & cs1 & seps1 & cur1 & E1 & Hop1 & Ec1).
  { rewrite <- app_assoc in Hbound. lia. }
  cbn [add_table_entries]. rewrite E1. cbn [mbind res_bind].
  destruct (IH r1 bls1 cs1 seps1 cur1 Hop1) as (r2 & bls2 & cs2 & seps2 & cur2 & -> & Hop2 & Ec2).
  - rewrite app_assoc, Ec1. done.
  - rewrite app_assoc, Ec1, data_bound_app. lia.
  - exists r2, bls2, cs2, seps2, cur2. split; [done|]. split; [done|].
    rewrite Ec2, Ec1, (cons_middle (k, v)), <- !app_assoc. done.
Qed.

(** ** The finished file *)

(** The key of the filter in the index of the meta blocks. *)
Definition filter_key : bytes := filter_key_prefix ++ name.

(** [file] is a table of [kvs]: data blocks [bls] stored with the contents [cs],
    their index keys [seps], the filter, the two index blocks and the footer. *)
Record table_image (file : bytes) (kvs : list kv) (bls : list (list kv)) (cs seps : list bytes)
    (filt meta index : bytes) : Prop := {
  im_file : file = region cs ++ stored filt ++ stored meta ++ stored index
    ++ encode_footer (mkFooter
         (mkBlockHandle (size_of (region cs ++ stored filt)) (size_of meta))
         (mkBlockHandle (size_of (region cs ++ stored filt ++ stored meta)) (size_of index)));
  im_kvs : concat bls = kvs;
  im_blocks : Forall2 (block_of cmp) cs bls;
  im_nonempty : Forall (λ bl, bl ≠ []) bls;
  im_seps : seps_ok bls seps;
  im_tight : seps_tight bls seps;
  im_seps_length : length seps = length bls;
  im_sep_sizes : sep_sizes bls seps;
  im_block_sizes : block_sizes cs bls;
  im_index : block_of cmp index (index_entries seps cs);
  im_meta : block_of cmp meta [(filter_key, encode_handle (mkBlockHandle (size_of (region cs)) (size_of filt)))];
  im_filter : ∃ f groups pending, filters_ok policy f groups pending (keys_from 0 cs bls)
    ∧ filt = (FilterBlockBuilder_Finish policy f).2 ∧ size_of filt < 2 ^ 32;
  im_small : size_of file < 2 ^ 34
}.

Lemma seps_ok_drop_last bls seps : seps_ok (bls ++ [[]]) seps → seps_ok bls seps.
Proof. intros H i sep j bl e Hi Hj He. eapply H; [done| |done]. by apply lookup_app_l_Some. Qed.

(** Index keys increase. *)
Lemma seps_sorted bls seps vs :
  seps_ok bls seps → (length seps <= length bls)%nat → Forall (λ bl, bl ≠ []) bls → StronglySorted lt (zip seps vs).
Proof using SC.
  intros Hs Hl Hne. clear - SC Hs Hl Hne. apply StronglySorted_lookup. intros i j [s1 v1] [s2 v2] Hij Hi Hj. cbn.
  apply lookup_zip_with_Some in Hi as (? & ? & [= <- <-] & Hi & _).
  apply lookup_zip_with_Some in Hj as (? & ? & [= <- <-] & Hj & _).
  destruct (lookup_lt_is_Some_2 bls j) as [bl Hb]; [apply lookup_lt_Some in Hj; lia|].
  destruct bl as [|e bl]; [rewrite Forall_lookup in Hne; by destruct (Hne _ _ Hb)|].
  destruct (Hs i s1 j _ e Hi Hb) as [_ H1]; [elem|]. destruct (Hs j s2 j _ e Hj Hb) as [H2 _]; [elem|].
  eapply cmp_lt_le_trans; [by apply H1|by apply H2].
Qed.

(** Adding one entry to a fresh block. *)
Lemma single_entry_block i k v :
  1 <= i → size_of k + size_of v < 2 ^ 31 →
  ∃ b, BlockBuilder_Add cmp i BlockBuilder_init k v = Ret b ∧ block_of cmp (BlockBuilder_Finish b).2 [(k, v)]
    ∧ size_of (BlockBuilder_Finish b).2 <= size_of k + size_of v + 27.
Proof.
  intros Hi Hb. destruct (Add_built cmp i Hi BlockBuilder_init [] [] [0%nat] k v) as (b & ss & ridx & E & Hbt).
  { by apply built_init. } { cbn. lia. } { done. }
  exists b. split; [done|]. destruct (Finish_block_of cmp i b [(k, v)] ss ridx Hbt) as [Hblk _].
  { cbn. lia. } { repeat constructor. }
  split; [done|]. destruct Hblk as (? & ? & _ & _ & [Hle _] & _). unfold kvs_bound in Hle. cbn [foldr fst snd] in Hle. lia.
Qed.

(** Writing everything after the data blocks. *)
Lemma Finish_tail r bls cs seps e sep fsize :
  tb_ok r bls cs seps [] → rep_pending_index_entry r = true → rep_closed r = false →
  (∀ e, e ∈ concat bls → Compare e.1 sep <= 0) → last bls ≫= last = Some e → (length sep <= length e.1)%nat →
  sep = FindShortSuccessor (rep_last_key r) → seps_tight bls (seps ++ [sep]) →
  block_sizes cs bls → data_bound (concat bls) < 2 ^ 31 → size_of name < 2 ^ 30 →
  (∀ f, rep_filter_block r = Some f → size_of (FilterBlockBuilder_Finish policy f).2 <= fsize) → fsize < 2 ^ 32 →
  ∃ r' filt meta index,
    TableBuilder_Finish AcceleratedCRC32C Snappy_Compress table_options r = Ret r'
    ∧ table_image (rep_file r') (concat bls) bls cs (seps ++ [sep]) filt meta index
    ∧ rep_status r' = true ∧ rep_offset r' = size_of (rep_file r')
    ∧ rep_num_data_blocks r' = size_of bls ∧ rep_num_entries r' = rep_num_entries r ∧ size_of filt <= fsize.
Proof.
  intros Hok Hpe Hcl Hle Hlast Hshort Esep Htight Hsizes Hbound Hname Hfsz Hf32.
  destruct (add_index_block r bls cs seps sep e Hok Hpe Hle Hlast Hshort Hbound)
    as (Hhs & (b' & iss & iridx & Eb & Hb') & Hseps' & Hss' & Hlen).
  pose proof Hok as [Hf Ho Hst (ss & ridx & Hd) Hbl Hne Hi Hp Hseps Hss Hnb (f & gs & pd & Ef & Hfo & Hg)].
  specialize (Hfsz f Ef). set (filt := (FilterBlockBuilder_Finish policy f).2) in *.
  pose proof (region_bound cs bls Hbl Hne) as Hreg.
  set (fh := mkBlockHandle (size_of (region cs)) (size_of filt)).
  assert (handle_set fh) as Hfh by (unfold fh; split; cbn [bh_offset bh_size]; lia).
  destruct (single_entry_block interval filter_key (encode_handle fh) interval_pos) as (mb & Em & Hmeta & Hmsz).
  { pose proof (length_encode_handle fh). unfold kMaxEncodedLength, filter_key in *.
    rewrite length_app. change (length filter_key_prefix) with 7%nat. lia. }
  set (meta := (BlockBuilder_Finish mb).2) in *.
  assert (size_of meta < 2 ^ 31) as Hmeta31.
  { pose proof (length_encode_handle fh). unfold kMaxEncodedLength, filter_key in *.
    rewrite length_app in Hmsz. change (length filter_key_prefix) with 7%nat in Hmsz. lia. }
  set (ies := index_entries (seps ++ [sep]) cs) in *.
  assert (kvs_bound ies + 56 <= data_bound (concat bls)) as Hib.
  { apply zip_bound; [rewrite length_app; cbn; lia|done]. }
  destruct (Finish_block_of cmp 1 b' ies iss iridx Hb') as [Hindex _];
    [lia|apply (seps_sorted bls); [by apply seps_ok_drop_last|rewrite length_app; cbn; lia|done]|].
  set (index := (BlockBuilder_Finish b').2) in *.
  assert (size_of index < 2 ^ 31) as Hindex31 by (destruct Hindex as (? & ? & _ & _ & [? _] & _); lia).
  pose proof (size_stored AcceleratedCRC32C filt) as Sf. pose proof (size_stored AcceleratedCRC32C meta) as Sm.
  pose proof (size_stored AcceleratedCRC32C index) as Si.
  unfold TableBuilder_Finish. unfold Flush at 1.
  rewrite Hcl, Hst. cbn [negb]. rewrite (built_buffer _ _ _ _ _ Hd), bool_decide_eq_true_2 by done.
  cbn [mbind res_bind]. rewrite Hcl. unfold finish_filter. rep_cbn. rewrite Ef, Hst. cbn [opt_filter table_options]. fold filt.
  rewrite WriteRawBlock_memory by (rep_cbn; rewrite Ho; lia). cbn [mbind res_bind]. unfold finish_metaindex. rep_cbn. rewrite Ef.
  rewrite Ho. fold fh. rewrite BlockHandle_EncodeTo_set by done. cbn [mbind res_bind app opt_comparator opt_restart_interval opt_filter table_options].
  change (filter_key_prefix ++ name) with filter_key. rewrite Em. cbn [mbind res_bind].
  rewrite WriteBlock_memory by (rep_cbn; done || (fold meta; lia)). fold meta. cbn [mbind res_bind]. unfold finish_index. rep_cbn. rewrite Hpe.
  unfold add_index_entry. rep_cbn. rewrite BlockHandle_EncodeTo_set by done. cbn [mbind res_bind app opt_comparator table_options].
  rewrite <- Esep, Eb. cbn [mbind res_bind]. rewrite WriteBlock_memory by (rep_cbn; done || (fold index; lia)).
  cbn [mbind res_bind]. unfold finish_footer. rep_cbn. fold index.
  rewrite Footer_EncodeTo_set by (split; split; cbn [bh_offset bh_size metaindex_handle index_handle]; lia). cbn [mbind res_bind file_Append memory_file]. rep_cbn.
  eexists _, filt, meta, index. split; [done|]. rep_cbn. rewrite Hf.
  match goal with |- context [encode_footer ?f] => pose proof (length_encode_footer f) as Hfl end.
  unfold kFooterLength, kMaxEncodedLength in Hfl. split_and!; [|done| |lia|done|done].
  - split; try done; [|by apply seps_ok_drop_last|rewrite length_app; cbn; lia| |rewrite !length_app, Hfl; lia].
    + rewrite <- !app_assoc, !length_app, !Nat2Z.inj_add, Z.add_assoc. done.
    + exists f, gs, pd. rewrite app_nil_r in Hfo. split_and!; [done|done|fold filt; lia].
  - rewrite w64_small; [rewrite !length_app, Hfl; lia|]. rewrite Hfl. mlia.
Qed.

Lemma Flush_empty r bls cs seps :
  tb_ok r bls cs seps [] → rep_closed r = false →
  Flush AcceleratedCRC32C Snappy_Compress table_options r = Ret r.
Proof.
  intros Hok Hcl. destruct (ok_data _ _ _ _ _ Hok) as (ss & ridx & Hd). unfold Flush.
  rewrite Hcl, (ok_status _ _ _ _ _ Hok). cbn [negb]. by rewrite (built_buffer _ _ _ _ _ Hd), bool_decide_eq_true_2.
Qed.

Lemma filter_size r bls cs seps f c :
  FilterSized policy c → tb_ok r bls cs seps [] → rep_filter_block r = Some f →
  data_bound (concat bls) < 2 ^ 31 → (c + 10) * size_of (concat bls) < 2 ^ 31 →
  size_of (FilterBlockBuilder_Finish policy f).2 <= (c + 10) * size_of (concat bls) + data_bound (concat bls).
Proof.
  intros HS [Hf Ho Hst Hd Hbl Hne Hi Hp Hseps Hss Hnb (f' & gs & pd & Ef & Hfo & Hg)] Ef' Hbound Hc.
  rewrite Ef in Ef'. injection Ef' as ->. rewrite app_nil_r in Hfo.
  assert (length (keys_from 0 cs bls) = length (concat bls)) as Hk.
  { pose proof (blocks_length _ _ Hbl) as Hl. clear -Hl. revert cs Hl. generalize 0.
    induction bls as [|bl bls IH]; intros b [|x cs] Hl; try done. cbn [TableBuilder.keys_from concat].
    rewrite !length_app, !length_fmap, IH by (cbn in Hl; lia). done. }
  pose proof (Finish_size policy f gs pd _ c HS Hfo) as Hs. rewrite Hk in Hs.
  pose proof (region_bound cs bls Hbl Hne). pose proof (kvs_data_bound (concat bls)). pose proof (filter_sized_pos (P := policy) (c := c)).
  assert (0 <= kvs_bound (concat bls)).
  { unfold kvs_bound. clear. induction (concat bls) as [|e l IH]; cbn [foldr]; lia. }
  specialize (Hs ltac:(lia)). rewrite Hg, Ho in Hs. unfold kFilterBase in Hs. change (1 ≪ kFilterBaseLg) with 2048 in Hs.
  pose proof (Z.mul_div_le (size_of (region cs)) 2048). lia.
Qed.

Lemma make_open : ∃ r0, TableBuilder_make table_options ([] : bytes) = Ret r0 ∧ tb_open r0 [] [] [] [].
Proof using interval_pos.
  eexists. split; [reflexivity|]. split; [|done..|by right|done|by left|by constructor]. split; try done.
  - exists [], [0%nat]. by apply built_init.
  - exists [], [0%nat]. apply built_init. lia.
  - eexists _, [], []. split; [reflexivity|]. split; [apply filters_ok_init|done].
Qed.

(** A builder after some entries: what it reports, and that it takes more. *)
Lemma add_table_entries_app r kvs kvs' :
  add_table_entries AcceleratedCRC32C Snappy_Compress table_options r (kvs ++ kvs')
  = (r' ← add_table_entries AcceleratedCRC32C Snappy_Compress table_options (r : Rep bytes) kvs;
     add_table_entries AcceleratedCRC32C Snappy_Compress table_options r' kvs').
Proof.
  revert r. induction kvs as [|[k v] kvs IH]; intros r; [done|]. cbn [app add_table_entries].
  destruct (TableBuilder_Add _ _ _ r k v) as [[r1 [|]]| |]; cbn [mbind res_bind]; [apply IH|done..].
Qed.

Lemma builder_grows kvs :
  StronglySorted lt kvs → data_bound kvs < 2 ^ 31 →
  ∃ r, (r0 ← TableBuilder_make table_options ([] : bytes);
        add_table_entries AcceleratedCRC32C Snappy_Compress table_options r0 kvs) = Ret r
    ∧ NumEntries r = size_of kvs ∧ FileSize r = size_of (rep_file r) ∧ size_of (rep_file r) + 64 <= data_bound kvs.
Proof using SC FC interval_pos.
  intros Hs Hb. destruct make_open as (r0 & -> & H0). cbn [mbind res_bind].
  destruct (add_table_entries_ok r0 [] [] [] [] kvs H0 Hs Hb) as (r & bls & cs & seps & cur & -> & H1 & Ec).
  exists r. cbn [concat app] in Ec. destruct H1 as [Hok Hcl Hlast Hnum Hcur Htight Hroom Hsizes]. rewrite Ec in Hnum.
  split; [done|]. split; [done|]. unfold FileSize. rewrite (ok_offset _ _ _ _ _ Hok), (ok_file _ _ _ _ _ Hok). split; [done|].
  rewrite <- Ec, data_bound_app. pose proof (data_bound_pos cur).
  pose proof (region_bound cs bls (ok_blocks _ _ _ _ _ Hok) (ok_nonempty _ _ _ _ _ Hok)). lia.
Qed.

(** The table a client writes. *)
Lemma build_table_image kvs c :
  FilterSized policy c → kvs ≠ [] → StronglySorted lt kvs → data_bound kvs < 2 ^ 31 →
  (c + 10) * size_of kvs < 2 ^ 31 → size_of name < 2 ^ 30 →
  ∃ r bls cs seps filt meta index,
    build_table AcceleratedCRC32C Snappy_Compress table_options ([] : bytes) kvs = Ret r
    ∧ table_image (rep_file r) kvs bls cs seps filt meta index ∧ rep_status r = true
    ∧ FileSize r = size_of (rep_file r) ∧ NumEntries r = size_of kvs ∧ NumDataBlocks r = size_of bls
    ∧ size_of filt <= (c + 10) * size_of kvs + data_bound kvs.
Proof.
  intros HS Hne Hs Hbound Hc Hname. unfold build_table.
  destruct make_open as (r0 & -> & H0).
  cbn [mbind res_bind].
  destruct (add_table_entries_ok r0 [] [] [] [] kvs H0 Hs Hbound) as (r1 & bls & cs & seps & cur & -> & H1 & Ec).
  cbn [mbind res_bind]. cbn [concat app] in Ec.
  assert (∃ r2 bls2 cs2, Flush AcceleratedCRC32C Snappy_Compress table_options r1 = Ret r2
    ∧ tb_ok r2 bls2 cs2 seps [] ∧ rep_pending_index_entry r2 = true ∧ rep_closed r2 = false
    ∧ rep_last_key r2 = last_key_of kvs ∧ rep_num_entries r2 = size_of kvs ∧ concat bls2 = kvs ∧ seps_tight bls2 seps
    ∧ block_sizes cs2 bls2)
    as (r2 & bls2 & cs2 & EF & H2 & Hp2 & Hcl2 & Hl2 & Hn2 & Ec2 & Ht2 & Hbs2).
  { destruct H1 as [Hok Hcl Hlast Hnum Hcur Htight Hroom Hsizes]. rewrite Ec in Hlast, Hnum. specialize (Hlast Hne).
    destruct (decide (cur = [])) as [->|Hcne].
    - exists r1, bls, cs. rewrite app_nil_r in Ec. split_and!; try done; [by eapply Flush_empty| |by eapply seps_tight_drop].
      destruct (rep_pending_index_entry r1) eqn:Hpe; [done|]. destruct (Hcur eq_refl) as [?| ->]; [done|]. by subst kvs.
    - assert (rep_pending_index_entry r1 = false) as Hpe.
      { destruct (rep_pending_index_entry r1) eqn:Hpe; [|done]. pose proof (ok_pending _ _ _ _ _ Hok) as Hp.
        rewrite Hpe in Hp. by destruct Hp as (_ & ? & _). }
      destruct (Flush_ok r1 bls cs seps cur Hok Hcl Hpe Hcne) as (r2 & cc & E & Hok2 & Hp2 & Hcl2 & Hl2 & Hn2 & Hc2).
      { rewrite <- Ec in Hs. by apply StronglySorted_app_1_r in Hs. } { by rewrite Ec. }
      exists r2, (bls ++ [cur]), (cs ++ [cc]). split_and!; try done; [by rewrite Hl2|by rewrite Hn2| |].
      + rewrite concat_app. cbn. by rewrite app_nil_r.
      + apply Forall2_app; [done|]. constructor; [|done]. destruct cur as [|e cur]; [done|]. exists e.
        split; [elem|]. destruct Hroom; [done|]. lia. }
  assert (TableBuilder_Finish AcceleratedCRC32C Snappy_Compress table_options r1
    = TableBuilder_Finish AcceleratedCRC32C Snappy_Compress table_options r2) as ->.
  { unfold TableBuilder_Finish. by rewrite EF, (Flush_empty r2 bls2 cs2 seps H2 Hcl2). }
  destruct (exists_last (l := bls2)) as (bls' & lb & Eb); [by intros ->; subst kvs|].
  destruct (exists_last (l := lb)) as (lb' & e & El).
  { pose proof (ok_nonempty _ _ _ _ _ H2) as Hn. rewrite Eb, Forall_app, Forall_cons in Hn. tauto. }
  assert (kvs = (concat bls' ++ lb') ++ [e]) as Ek.
  { rewrite <- Ec2, Eb, El, concat_app. cbn. by rewrite app_nil_r, app_assoc. }
  assert (rep_last_key r2 = e.1) as Hle by (rewrite Hl2, Ek; destruct e; by rewrite last_key_of_snoc).
  pose proof (successor_above e.1) as Hsucc.
  destruct (Finish_tail r2 bls2 cs2 seps e (FindShortSuccessor e.1) ((c + 10) * size_of kvs + data_bound kvs) H2 Hp2 Hcl2)
    as (r3 & filt & meta & index & E3 & Him & Hst & Ho & Hnb & Hne3 & Hfs).
  - intros x Hx. eapply cmp_le_trans; [|exact Hsucc]. rewrite Ec2, Ek in Hx.
    apply elem_of_app in Hx as [Hx| ->%list_elem_of_singleton]; [|rewrite cmp_refl; lia].
    rewrite Ek in Hs. pose proof (lt_app _ _ x e Hs Hx ltac:(elem)). lia.
  - rewrite Eb, last_snoc. cbn. by rewrite El, last_snoc.
  - apply successor_short.
  - by rewrite Hle.
  - pose proof (ok_pending _ _ _ _ _ H2) as Hpd. rewrite Hp2 in Hpd. destruct Hpd as (Hlen & _).
    by apply seps_tight_last.
  - done.
  - by rewrite Ec2.
  - done.
  - intros f Ef. rewrite <- Ec2 in Hbound, Hc |- *. by eapply (filter_size r2).
  - lia.
  - rewrite Ec2 in Him. eexists r3, bls2, cs2, _, filt, meta, index. split_and!; try done. by rewrite <- Hn2.
Qed.
End builder_ok.

Arguments im_file {_ _ _ _ _ _ _ _ _ _ _ _ _} _.
Arguments im_kvs {_ _ _ _ _ _ _ _ _ _ _ _ _} _.
Arguments im_blocks {_ _ _ _ _ _ _ _ _ _ _ _ _} _.
Arguments im_nonempty {_ _ _ _ _ _ _ _ _ _ _ _ _} _.
Arguments im_seps {_ _ _ _ _ _ _ _ _ _ _ _ _} _.
Arguments im_tight {_ _ _ _ _ _ _ _ _ _ _ _ _} _.
Arguments im_seps_length {_ _ _ _ _ _ _ _ _ _ _ _ _} _.
Arguments im_sep_sizes {_ _ _ _ _ _ _ _ _ _ _ _ _} _.
Arguments im_block_sizes {_ _ _ _ _ _ _ _ _ _ _ _ _} _.
Arguments im_index {_ _ _ _ _ _ _ _ _ _ _ _ _} _.
Arguments im_meta {_ _ _ _ _ _ _ _ _ _ _ _ _} _.
Arguments im_filter {_ _ _ _ _ _ _ _ _ _ _ _ _} _.
Arguments im_small {_ _ _ _ _ _ _ _ _ _ _ _ _} _.
