(* ===== verification/LogFormat.v ===== *)
(** * LogFormat: the log files of LevelDB

    [db/log_format.h], [db/log_writer.cc] and [db/log_reader.cc].  A record is
    split into fragments that do not cross the blocks of the file, each with a
    checksum, its length and its type.  The writer knows its file by
    [WritableFile], the reader by [SequentialFile]. *)

From S2P Require Import Prelude Coding Comparator Cursor NovaCommon DbFormat Block Bloom FilterBlock Crc32c Format TableBuilder.

Definition kZeroType : Z := 0.
Definition kFullType : Z := 1.
Definition kFirstType : Z := 2.
Definition kMiddleType : Z := 3.
Definition kLastType : Z := 4.
Definition kMaxRecordType : Z := kLastType.
Definition kLogBlockSize : Z := 32768.
Definition kHeaderSize : Z := 4 + 2 + 1.

(** ** The writer *)

Section writer.
Context {F : Type} {WF : WritableFile F}.
(** [port::AcceleratedCRC32C]. *)
Context (AcceleratedCRC32C : Z → bytes → Z).

Record Writer := mkWriter { dest_ : F; block_offset_ : Z; type_crc_ : list Z }.

(** [InitTypeCrc(type_crc)]. *)
Definition InitTypeCrc : list Z := (λ i, Value AcceleratedCRC32C 0 [i]) <$> seqZ 0 (kMaxRecordType + 1).

(** [Writer(dest)] and [Writer(dest, dest_length)]. *)
Definition Writer_make (dest : F) : Writer := mkWriter dest 0 InitTypeCrc.
Definition Writer_reopen (dest : F) (dest_length : Z) : Writer := mkWriter dest (dest_length `mod` kLogBlockSize) InitTypeCrc.

(** [EmitPhysicalRecord(t, ptr, length)]. *)
Definition EmitPhysicalRecord (w : Writer) (t : Z) (data : bytes) : res (Writer * bool) :=
  let length := size_of data in
  if decide (length <= 0xffff ∧ block_offset_ w + kHeaderSize + length <= kLogBlockSize) then
    match type_crc_ w !! Z.to_nat t with
    | None => Abort
    | Some type_crc =>
        let crc := Extend AcceleratedCRC32C 0 type_crc data in
        let buf := EncodeFixed32 (Mask crc) ++ [w8 (Z.land length 0xff); w8 (length ≫ 8); w8 t] in
        '(dest, ok) ← file_Append (dest_ w) buf;
        '(dest, ok) ←
          (if ok : bool then
             '(dest, ok) ← file_Append dest data;
             if ok : bool then file_Flush dest else Ret (dest, ok)
           else Ret (dest, ok));
        Ret (mkWriter dest (block_offset_ w + (kHeaderSize + length)) (type_crc_ w), ok)
    end
  else Abort.

(** Switching to a new block: the status of the append is not looked at. *)
Definition fill_trailer (w : Writer) : res Writer :=
  let leftover := kLogBlockSize - block_offset_ w in
  if decide (leftover >= 0) then
    if decide (leftover < kHeaderSize) then
      dest ← (if decide (leftover > 0) then '(dest, _) ← file_Append (dest_ w) (replicate (Z.to_nat leftover) 0); Ret dest
              else Ret (dest_ w));
      Ret (mkWriter dest 0 (type_crc_ w))
    else Ret w
  else Abort.

(** The type of a fragment. *)
Definition fragment_type (begin end_ : bool) : Z :=
  if begin && end_ then kFullType else if begin then kFirstType else if end_ then kLastType else kMiddleType.

(** The loop of [AddRecord(slice)]; [None] when the rounds run out. *)
Fixpoint AddRecord_loop (rounds : nat) (w : Writer) (begin : bool) (data : bytes) : res (option (Writer * bool)) :=
  match rounds with
  | O => Ret None
  | S rounds =>
      w ← fill_trailer w;
      if decide (kLogBlockSize - block_offset_ w - kHeaderSize >= 0) then
        let avail := kLogBlockSize - block_offset_ w - kHeaderSize in
        let fragment_length := if decide (size_of data < avail) then size_of data else avail in
        let end_ := bool_decide (size_of data = fragment_length) in
        '(w, ok) ← EmitPhysicalRecord w (fragment_type begin end_) (take (Z.to_nat fragment_length) data);
        let data := drop (Z.to_nat fragment_length) data in
        if (ok : bool) && bool_decide (size_of data > 0) then AddRecord_loop rounds w false data else Ret (Some (w, ok))
      else Abort
  end.

(** [AddRecord(slice)]. *)
Definition AddRecord (w : Writer) (slice : bytes) : res (option (Writer * bool)) :=
  AddRecord_loop (length slice + 2) w true slice.
End writer.
Arguments mkWriter {F} _ _ _.
Arguments dest_ {F} _.
Arguments block_offset_ {F} _.
Arguments type_crc_ {F} _.
Arguments Writer F : clear implicits.

(** ** The reader *)

(** [SequentialFile]: the file after the operation, the bytes read, and whether
    the status is ok. *)
Class SequentialFile (F : Type) := {
  file_Read : F → Z → F * bytes * bool;
  file_Skip : F → Z → F * bool
}.

(** [kEof] and [kBadRecord] of the reader. *)
Definition kEof : Z := kMaxRecordType + 1.
Definition kBadRecord : Z := kMaxRecordType + 2.

(** What is reported to the [Reporter]. *)
Inductive corruption := Bad_record_length | Checksum_mismatch | Partial_record | Missing_start | Error_in_middle | Unknown_type (t : Z) | File_error.

Section reader.
Context {F : Type} {SF : SequentialFile F}.
Context (AcceleratedCRC32C : Z → bytes → Z).
(** The members that do not change; whether there is a reporter. *)
Context (reporter checksum_ : bool) (initial_offset_ : Z).

(** [drops] holds the calls of the reporter. *)
Record Reader := mkReader {
  file_ : F;
  lr_buffer_ : bytes;
  eof_ : bool;
  last_record_offset_ : Z;
  end_of_buffer_offset_ : Z;
  resyncing_ : bool;
  drops : list (Z * corruption)
}.

Definition Reader_make (file : F) : Reader := mkReader file [] false 0 0 (bool_decide (initial_offset_ > 0)) [].

Definition set_buffer (r : Reader) (b : bytes) : Reader :=
  mkReader (file_ r) b (eof_ r) (last_record_offset_ r) (end_of_buffer_offset_ r) (resyncing_ r) (drops r).
Definition set_resyncing (r : Reader) (b : bool) : Reader :=
  mkReader (file_ r) (lr_buffer_ r) (eof_ r) (last_record_offset_ r) (end_of_buffer_offset_ r) b (drops r).
Definition set_last_record (r : Reader) (o : Z) : Reader :=
  mkReader (file_ r) (lr_buffer_ r) (eof_ r) o (end_of_buffer_offset_ r) (resyncing_ r) (drops r).

(** [ReportDrop(bytes, reason)] and [ReportCorruption]. *)
Definition ReportDrop (r : Reader) (n : Z) (reason : corruption) : Reader :=
  if reporter && bool_decide (w64 (end_of_buffer_offset_ r - size_of (lr_buffer_ r) - n) >= initial_offset_) then
    mkReader (file_ r) (lr_buffer_ r) (eof_ r) (last_record_offset_ r) (end_of_buffer_offset_ r) (resyncing_ r)
      (drops r ++ [(n, reason)])
  else r.

(** [SkipToInitialBlock()]. *)
Definition SkipToInitialBlock (r : Reader) : Reader * bool :=
  let offset_in_block := initial_offset_ `mod` kLogBlockSize in
  let block_start_location := w64 (initial_offset_ - offset_in_block) in
  let block_start_location :=
    if decide (offset_in_block > kLogBlockSize - 6) then w64 (block_start_location + kLogBlockSize) else block_start_location in
  let r := mkReader (file_ r) (lr_buffer_ r) (eof_ r) (last_record_offset_ r) block_start_location (resyncing_ r) (drops r) in
  if decide (block_start_location > 0) then
    let '(file, ok) := file_Skip (file_ r) block_start_location in
    let r := mkReader file (lr_buffer_ r) (eof_ r) (last_record_offset_ r) (end_of_buffer_offset_ r) (resyncing_ r) (drops r) in
    if ok : bool then (r, true) else (ReportDrop r block_start_location File_error, false)
  else (r, true).

(** [const unsigned int type = header[6]]: a [char] is signed. *)
Definition type_of_char (b : Z) : Z := if decide (b < 128) then b else w32 (b - 256).

(** Reading a record out of a buffer with a whole header. *)
Definition parse_physical (r : Reader) (result : bytes) : Reader * Z * bytes :=
  let header := lr_buffer_ r in
  let a := Z.land (byte_at header 4) 0xff in
  let b := Z.land (byte_at header 5) 0xff in
  let type := type_of_char (byte_at header 6) in
  let length := Z.lor a (b ≪ 8) in
  let drop_size := size_of (lr_buffer_ r) in
  if decide (kHeaderSize + length > size_of (lr_buffer_ r)) then
    let r := set_buffer r [] in
    if negb (eof_ r) then (ReportDrop r drop_size Bad_record_length, kBadRecord, result) else (r, kEof, result)
  else if decide (type = kZeroType ∧ length = 0) then (set_buffer r [], kBadRecord, result)
  else if checksum_ && bool_decide (Value AcceleratedCRC32C 0 (take (Z.to_nat (1 + length)) (drop 6 header)) ≠ Unmask (DecodeFixed32_ptr header)) then
    (ReportDrop (set_buffer r []) drop_size Checksum_mismatch, kBadRecord, result)
  else
    let r := set_buffer r (drop (Z.to_nat (kHeaderSize + length)) header) in
    if decide (w64 (end_of_buffer_offset_ r - size_of (lr_buffer_ r) - kHeaderSize - length) < initial_offset_) then (r, kBadRecord, [])
    else (r, type, take (Z.to_nat length) (drop (Z.to_nat kHeaderSize) header)).

(** [file_->Read(kBlockSize, &buffer_, backing_store_)] into an empty buffer. *)
Definition read_block (r : Reader) : Reader * bool :=
  let '(file, data, ok) := file_Read (file_ r) kLogBlockSize in
  let r := mkReader file data (eof_ r) (last_record_offset_ r) (w64 (end_of_buffer_offset_ r + size_of data)) (resyncing_ r) (drops r) in
  if ok : bool then
    (mkReader (file_ r) (lr_buffer_ r) (bool_decide (size_of data < kLogBlockSize) || eof_ r) (last_record_offset_ r)
       (end_of_buffer_offset_ r) (resyncing_ r) (drops r), true)
  else
    let r := ReportDrop (set_buffer r []) kLogBlockSize File_error in
    (mkReader (file_ r) (lr_buffer_ r) true (last_record_offset_ r) (end_of_buffer_offset_ r) (resyncing_ r) (drops r), false).

(** The loop of [ReadPhysicalRecord(result)]: after a read the buffer has a
    header or the end of the file was seen, so three rounds are enough. *)
Fixpoint ReadPhysicalRecord_loop (rounds : nat) (r : Reader) (result : bytes) : res (Reader * Z * bytes) :=
  match rounds with
  | O => Fail
  | S rounds =>
      if decide (size_of (lr_buffer_ r) < kHeaderSize) then
        if negb (eof_ r) then
          let '(r, ok) := read_block (set_buffer r []) in
          if ok : bool then ReadPhysicalRecord_loop rounds r result else Ret (r, kEof, result)
        else Ret (set_buffer r [], kEof, result)
      else Ret (parse_physical r result)
  end.

Definition ReadPhysicalRecord (r : Reader) (result : bytes) : res (Reader * Z * bytes) := ReadPhysicalRecord_loop 3 r result.

(** The part of [ReadRecord] on resyncing: the reader, and whether to go on
    with the next physical record. *)
Definition resync (r : Reader) (record_type : Z) : Reader * bool :=
  if resyncing_ r then
    if decide (record_type = kMiddleType) then (r, true)
    else if decide (record_type = kLastType) then (set_resyncing r false, true)
    else (set_resyncing r false, false)
  else (r, false).

(** [partial record without end]. *)
Definition report_partial (r : Reader) (in_fragmented_record : bool) (scratch : bytes) : Reader :=
  if in_fragmented_record && bool_decide (scratch ≠ []) then ReportDrop r (size_of scratch) Partial_record else r.

(** The loop of [ReadRecord]: the record when there is one; [Fail] when the
    rounds run out. *)
Fixpoint ReadRecord_loop (rounds : nat) (r : Reader) (in_fragmented_record : bool) (prospective_record_offset : Z)
    (scratch fragment : bytes) : res (Reader * option bytes) :=
  match rounds with
  | O => Fail
  | S rounds =>
      '(r, record_type, fragment) ← ReadPhysicalRecord r fragment;
      let physical_record_offset := w64 (end_of_buffer_offset_ r - size_of (lr_buffer_ r) - kHeaderSize - size_of fragment) in
      let '(r, again) := resync r record_type in
      if again : bool then ReadRecord_loop rounds r in_fragmented_record prospective_record_offset scratch fragment
      else if decide (record_type = kFullType) then
        let r := report_partial r in_fragmented_record scratch in
        Ret (set_last_record r physical_record_offset, Some fragment)
      else if decide (record_type = kFirstType) then
        let r := report_partial r in_fragmented_record scratch in
        ReadRecord_loop rounds r true physical_record_offset fragment fragment
      else if decide (record_type = kMiddleType) then
        if in_fragmented_record then ReadRecord_loop rounds r true prospective_record_offset (scratch ++ fragment) fragment
        else ReadRecord_loop rounds (ReportDrop r (size_of fragment) Missing_start) false prospective_record_offset scratch fragment
      else if decide (record_type = kLastType) then
        if in_fragmented_record then Ret (set_last_record r prospective_record_offset, Some (scratch ++ fragment))
        else ReadRecord_loop rounds (ReportDrop r (size_of fragment) Missing_start) false prospective_record_offset scratch fragment
      else if decide (record_type = kEof) then Ret (r, None)
      else if decide (record_type = kBadRecord) then
        if in_fragmented_record then
          ReadRecord_loop rounds (ReportDrop r (size_of scratch) Error_in_middle) false prospective_record_offset [] fragment
        else ReadRecord_loop rounds r false prospective_record_offset scratch fragment
      else
        let r := ReportDrop r (w64 (size_of fragment + (if in_fragmented_record then size_of scratch else 0))) (Unknown_type record_type) in
        ReadRecord_loop rounds r false prospective_record_offset [] fragment
  end.

(** [ReadRecord(record, scratch)]. *)
Definition ReadRecord (rounds : nat) (r : Reader) : res (Reader * option bytes) :=
  let '(r, ok) := if decide (last_record_offset_ r < initial_offset_) then SkipToInitialBlock r else (r, true) in
  if ok : bool then ReadRecord_loop rounds r false 0 [] [] else Ret (r, None).

(** A reader that is used until it returns [false]. *)
Fixpoint read_all (records rounds : nat) (r : Reader) : res (Reader * list bytes) :=
  match records with
  | O => Fail
  | S records =>
      '(r, record) ← ReadRecord rounds r;
      match record with
      | None => Ret (r, [])
      | Some b => '(r, bs) ← read_all records rounds r; Ret (r, b :: bs)
      end
  end.
End reader.
Arguments mkReader {F} _ _ _ _ _ _ _.
Arguments file_ {F} _.
Arguments lr_buffer_ {F} _.
Arguments eof_ {F} _.
Arguments last_record_offset_ {F} _.
Arguments end_of_buffer_offset_ {F} _.
Arguments resyncing_ {F} _.
Arguments drops {F} _.
Arguments Reader F : clear implicits.

(** ** Files that work *)

(** A file that takes what is appended. *)
Class AppendOk (F : Type) `{WF : WritableFile F} (contents : F → bytes) : Prop := {
  append_ok f data : ∃ f', file_Append f data = Ret (f', true) ∧ contents f' = contents f ++ data;
  flush_ok f : ∃ f', file_Flush f = Ret (f', true) ∧ contents f' = contents f
}.

(** A file that is read from the front: less than asked for only at the end. *)
Class ReadOk (F : Type) `{SF : SequentialFile F} (rest : F → bytes) : Prop := {
  read_ok f n : 0 < n → ∃ f', file_Read f n = (f', take (Z.to_nat n) (rest f), true) ∧ rest f' = drop (Z.to_nat n) (rest f)
}.

(** ** The layout of a log *)

(** A fragment: its type and its data. *)
Abbreviation chunk := (Z * bytes)%type.

Section layout.
Context (AcceleratedCRC32C : Z → bytes → Z).

(** A fragment with its header. *)
Definition physical (t : Z) (data : bytes) : bytes :=
  EncodeFixed32 (Mask (Value AcceleratedCRC32C 0 (t :: data))) ++ [size_of data `mod` 256; size_of data `div` 256; t] ++ data.

(** The zeros in front of a fragment that is written at [pos]. *)
Definition pad (pos : Z) : Z :=
  let leftover := kLogBlockSize - pos `mod` kLogBlockSize in if decide (leftover < kHeaderSize) then leftover else 0.

(** The position behind a fragment. *)
Definition after (pos : Z) (c : chunk) : Z := pos + pad pos + kHeaderSize + size_of c.2.

Fixpoint layout (pos : Z) (cs : list chunk) : bytes :=
  match cs with
  | [] => []
  | c :: cs => replicate (Z.to_nat (pad pos)) 0 ++ physical c.1 c.2 ++ layout (after pos c) cs
  end.

(** Fragments of known types that do not cross blocks. *)
Fixpoint fits (pos : Z) (cs : list chunk) : Prop :=
  match cs with
  | [] => True
  | c :: cs => (pos + pad pos) `mod` kLogBlockSize + kHeaderSize + size_of c.2 <= kLogBlockSize ∧ 1 <= c.1 <= 4 ∧ u8s c.2 ∧ fits (after pos c) cs
  end.

(** The fragments of a record; [begin] when the first one is among them. *)
Inductive record_chunks : bool → bytes → list chunk → Prop :=
| chunks_end begin data : record_chunks begin data [(fragment_type begin true, data)]
| chunks_more begin f data cs : record_chunks false data cs → record_chunks begin (f ++ data) ((fragment_type begin false, f) :: cs).
End layout.

(** ** What is written *)

Section checksums.
Context (AcceleratedCRC32C : Z → bytes → Z).
Hypothesis portable : CanAccelerateCRC32C AcceleratedCRC32C = false.

Lemma Value_u32 data : u8s data → is_u32 (Value AcceleratedCRC32C 0 data) ∧ Value AcceleratedCRC32C 0 data = crc32c 0 data.
Proof.
  intros Hd. unfold Value, Extend. rewrite portable, Extend_portable_consume by (done || (unfold is_u32; lia)). split; [|done].
  assert (is_u32 kCRC32Xor) as Hx by (unfold is_u32, kCRC32Xor; lia). apply lxor_u32; [|done]. apply consume_u32; [|done]. apply lxor_u32; [unfold is_u32; lia|done].
Qed.

Lemma Extend_Value t data : is_u8 t → u8s data → Extend AcceleratedCRC32C 0 (Value AcceleratedCRC32C 0 [t]) data = Value AcceleratedCRC32C 0 (t :: data).
Proof.
  intros Ht Hd. assert (u8s [t]) as Hts by (by constructor). destruct (Value_u32 [t] Hts) as [Hu E]. destruct (Value_u32 (t :: data)) as [_ ->]; [by constructor|].
  unfold Extend. rewrite portable, Extend_portable_consume by done. rewrite E. unfold crc32c. rewrite Z.lxor_assoc, Z.lxor_nilpotent, Z.lxor_0_r. done.
Qed.
End checksums.

Lemma pad_spec pos :
  0 <= pad pos < kHeaderSize ∧ 0 <= (pos + pad pos) `mod` kLogBlockSize <= kLogBlockSize - kHeaderSize
  ∧ (pad pos = 0 ∧ (pos + pad pos) `mod` kLogBlockSize = pos `mod` kLogBlockSize
     ∨ pad pos = kLogBlockSize - pos `mod` kLogBlockSize ∧ (pos + pad pos) `mod` kLogBlockSize = 0).
Proof.
  unfold pad, kLogBlockSize, kHeaderSize. case_decide; dlia.
Qed.

Lemma size_physical acc t data : size_of (physical acc t data) = kHeaderSize + size_of data.
Proof. unfold physical, kHeaderSize. rewrite !length_app, length_EncodeFixed32. cbn [length]. lia. Qed.

Section written.
Context {F : Type} {WF : WritableFile F} (contents : F → bytes) {AO : AppendOk F contents}.
Context (AcceleratedCRC32C : Z → bytes → Z).
Hypothesis portable : CanAccelerateCRC32C AcceleratedCRC32C = false.

Record writer_ok (w : Writer F) : Prop := {
  wo_crc : type_crc_ w = InitTypeCrc AcceleratedCRC32C;
  wo_offset : 0 <= block_offset_ w <= kLogBlockSize;
  wo_block : block_offset_ w `mod` kLogBlockSize = size_of (contents (dest_ w)) `mod` kLogBlockSize
}.

Lemma EmitPhysicalRecord_ok w t data :
  writer_ok w → 1 <= t <= 4 → u8s data → block_offset_ w + kHeaderSize + size_of data <= kLogBlockSize →
  ∃ w', EmitPhysicalRecord AcceleratedCRC32C w t data = Ret (w', true) ∧ writer_ok w'
    ∧ contents (dest_ w') = contents (dest_ w) ++ physical AcceleratedCRC32C t data
    ∧ block_offset_ w' = block_offset_ w + (kHeaderSize + size_of data).
Proof.
  intros [Hc Ho Hb] Ht Hd Hfit. unfold EmitPhysicalRecord. rewrite decide_True by (unfold kHeaderSize, kLogBlockSize in *; lia).
  assert (type_crc_ w !! Z.to_nat t = Some (Value AcceleratedCRC32C 0 [t])) as ->.
  { rewrite Hc. unfold InitTypeCrc. rewrite list_lookup_fmap, lookup_seqZ_lt by (unfold kMaxRecordType, kLastType; lia). cbn. do 3 f_equal. lia. }
  rewrite (Extend_Value _ portable t data) by (done || (unfold is_u8; lia)).
  destruct (append_ok (dest_ w) (EncodeFixed32 (Mask (Value AcceleratedCRC32C 0 (t :: data))) ++ [w8 (Z.land (size_of data) 0xff); w8 (size_of data ≫ 8); w8 t]))
    as (f1 & -> & E1). cbn [mbind res_bind].
  destruct (append_ok f1 data) as (f2 & -> & E2). cbn [mbind res_bind]. destruct (flush_ok f2) as (f3 & -> & E3). cbn [mbind res_bind].
  assert (contents f3 = contents (dest_ w) ++ physical AcceleratedCRC32C t data) as E.
  { rewrite E3, E2, E1. unfold physical, kHeaderSize, kLogBlockSize in *. rewrite <- !(assoc_L (++)). cbn [app].
    assert (w8 (Z.land (size_of data) 255) = size_of data `mod` 256) as -> by (rewrite land_255; unfold w8; by rewrite Z.mod_mod).
    assert (w8 (size_of data ≫ 8) = size_of data `div` 256) as -> by (rewrite Z.shiftr_div_pow2 by lia; apply w8_small; dlia).
    by rewrite (w8_small t) by mlia. }
  eexists. split; [done|]. cbn [dest_ block_offset_]. split; [|done]. split; cbn [dest_ block_offset_ type_crc_]; [done|unfold kHeaderSize in *; lia|].
  rewrite E, length_app, Nat2Z.inj_add, size_physical.
  rewrite Z.add_mod, Hb, <- Z.add_mod by (unfold kLogBlockSize; lia). done.
Qed.

Lemma fill_trailer_ok w :
  writer_ok w →
  ∃ w', fill_trailer w = Ret w' ∧ writer_ok w'
    ∧ contents (dest_ w') = contents (dest_ w) ++ replicate (Z.to_nat (pad (size_of (contents (dest_ w))))) 0
    ∧ block_offset_ w' = (size_of (contents (dest_ w)) + pad (size_of (contents (dest_ w)))) `mod` kLogBlockSize.
Proof.
  intros [Hc Ho Hb]. set (P := size_of (contents (dest_ w))) in *. unfold fill_trailer. rewrite decide_True by lia.
  assert (pad P = if decide (kLogBlockSize - block_offset_ w < kHeaderSize) then kLogBlockSize - block_offset_ w else 0) as Ep.
  { unfold pad. rewrite <- Hb. unfold kLogBlockSize, kHeaderSize in *. destruct (decide (block_offset_ w = 32768)) as [->|]; [done|].
    by rewrite Z.mod_small by lia. }
  destruct (pad_spec P) as (_ & _ & Hcase). case_decide as Hl.
  - assert (∃ dest, (if decide (kLogBlockSize - block_offset_ w > 0)
        then '(dest, _) ← file_Append (dest_ w) (replicate (Z.to_nat (kLogBlockSize - block_offset_ w)) 0); Ret dest else Ret (dest_ w)) = Ret dest
        ∧ contents dest = contents (dest_ w) ++ replicate (Z.to_nat (pad P)) 0) as (dest & -> & Ed).
    { rewrite Ep. case_decide as Hpos.
      - destruct (append_ok (dest_ w) (replicate (Z.to_nat (kLogBlockSize - block_offset_ w)) 0)) as (f & -> & E). by exists f.
      - exists (dest_ w). split; [done|]. replace (kLogBlockSize - block_offset_ w) with 0 by lia. by rewrite app_nil_r. }
    assert ((P + pad P) `mod` kLogBlockSize = 0) as Hm.
    { rewrite Ep. rewrite Z.add_mod, <- Hb, <- Z.add_mod by (unfold kLogBlockSize; lia). by rewrite Zplus_minus, Z_mod_same_full. }
    cbn [mbind res_bind]. eexists. split; [done|]. cbn [dest_ block_offset_]. split; [|done]. split; cbn [dest_ block_offset_ type_crc_]; [done|unfold kLogBlockSize; lia|].
    rewrite Ed, length_app, length_replicate. destruct (pad_spec P) as ([Hp _] & _). rewrite Nat2Z.inj_add, Z2Nat.id by lia. fold P. by rewrite Hm.
  - rewrite Ep. eexists. split; [done|]. split; [done|]. rewrite app_nil_r, Z.add_0_r, <- Hb. split; [done|]. symmetry. apply Z.mod_small. unfold kHeaderSize in Hl. lia.
Qed.

Lemma fragment_type_range begin end_ : 1 <= fragment_type begin end_ <= 4.
Proof. by destruct begin, end_; vm_compute. Qed.

(** The rounds that are enough: one more when only an empty fragment fits into
    the block. *)
Definition rounds_needed (pos : Z) (data : bytes) : nat :=
  length data + (if decide ((pos + pad pos) `mod` kLogBlockSize = kLogBlockSize - kHeaderSize) then 2 else 1).

Lemma AddRecord_loop_ok rounds w begin data :
  writer_ok w → u8s data → (rounds_needed (size_of (contents (dest_ w))) data <= rounds)%nat →
  ∃ w' cs, AddRecord_loop AcceleratedCRC32C rounds w begin data = Ret (Some (w', true)) ∧ writer_ok w' ∧ record_chunks begin data cs
    ∧ fits (size_of (contents (dest_ w))) cs
    ∧ contents (dest_ w') = contents (dest_ w) ++ layout AcceleratedCRC32C (size_of (contents (dest_ w))) cs.
Proof.
  revert w begin data. induction rounds as [|rounds IH]; intros w begin data Hw Hd Hr; [unfold rounds_needed in Hr; case_decide; lia|].
  set (P := size_of (contents (dest_ w))) in *. cbn [AddRecord_loop]. destruct (fill_trailer_ok w Hw) as (w1 & -> & Hw1 & E1 & Ho1). fold P in E1, Ho1. cbn [mbind res_bind].
  destruct (pad_spec P) as (Hp1 & Hp2 & _). set (avail := kLogBlockSize - block_offset_ w1 - kHeaderSize). rewrite decide_True by (unfold avail; lia).
  assert (0 <= avail) as Hav by (unfold avail; lia). set (fl := if decide (size_of data < avail) then size_of data else avail).
  assert (0 <= fl <= size_of data ∧ fl <= avail) as Hfl by (unfold fl; case_decide; lia).
  assert (size_of (take (Z.to_nat fl) data) = fl) as Et by (rewrite length_take; lia).
  destruct (EmitPhysicalRecord_ok w1 (fragment_type begin (bool_decide (size_of data = fl))) (take (Z.to_nat fl) data)) as (w2 & E & Hw2 & E2 & Ho2);
    [done|apply fragment_type_range|by apply Forall_take|rewrite Et; unfold avail in *; lia|].
  rewrite E. cbn [mbind res_bind andb]. rewrite E1, <- (assoc_L (++)) in E2. rewrite Et in Ho2. clear E. destruct (decide (size_of data = fl)) as [Ee|Ene].
  - rewrite bool_decide_eq_false_2 by (rewrite length_drop; lia). rewrite bool_decide_eq_true_2 in E2 by done. rewrite take_ge in E2 by lia.
    exists w2, [(fragment_type begin true, data)]. split_and!; [done..|constructor| |].
    + split_and!; [cbn [snd]; unfold avail in *; lia|apply fragment_type_range..|done|done].
    + cbn [layout fst snd]. by rewrite app_nil_r.
  - rewrite bool_decide_eq_true_2 by (rewrite length_drop; lia). rewrite bool_decide_eq_false_2 in E2 by done.
    assert (fl = avail) as Efl by (unfold fl in *; case_decide; lia). set (rest := drop (Z.to_nat fl) data).
    assert (size_of (contents (dest_ w2)) = after P (fragment_type begin false, take (Z.to_nat fl) data)) as EP.
    { rewrite E2, !length_app, length_replicate, !Nat2Z.inj_add, size_physical, Et. unfold after. cbn [snd]. rewrite Et. fold P. lia. }
    assert (size_of (contents (dest_ w2)) `mod` kLogBlockSize = 0) as Hm0.
    { rewrite <- (wo_block _ Hw2), Ho2, Efl. unfold avail. by replace (block_offset_ w1 + _) with kLogBlockSize by lia. }
    destruct (IH w2 false rest) as (w3 & cs & -> & Hw3 & Hcs & Hfit & E3); [done|by apply Forall_drop| |].
    { unfold rounds_needed in Hr |- *. rewrite decide_False.
      - unfold rest. rewrite length_drop. case_decide as Hz; [lia|]. unfold avail, kHeaderSize in *. lia.
      - unfold pad. rewrite Hm0. cbn. rewrite Z.add_0_r, Hm0. done. }
    exists w3, ((fragment_type begin false, take (Z.to_nat fl) data) :: cs). split_and!; [done..| | |].
    + rewrite <- (take_drop (Z.to_nat fl) data) at 1. by constructor.
    + cbn [fits fst snd]. rewrite <- EP. split_and!; [rewrite Et; unfold avail in *; lia|apply fragment_type_range..|by apply Forall_take|done].
    + rewrite E3, E2. cbn [layout fst snd]. rewrite <- EP, E2. by rewrite <- !(assoc_L (++)).
Qed.

Lemma AddRecord_ok w slice :
  writer_ok w → u8s slice →
  ∃ w' cs, AddRecord AcceleratedCRC32C w slice = Ret (Some (w', true)) ∧ writer_ok w' ∧ record_chunks true slice cs
    ∧ fits (size_of (contents (dest_ w))) cs
    ∧ contents (dest_ w') = contents (dest_ w) ++ layout AcceleratedCRC32C (size_of (contents (dest_ w))) cs.
Proof. intros Hw Hs. apply AddRecord_loop_ok; [done..|]. unfold rounds_needed. case_decide; lia. Qed.
End written.

(** ** What is read *)

(** The fields of a header. *)
Lemma header_fields acc t f tl n :
  (7 <= n)%nat → size_of f <= 0xffff → 1 <= t <= 4 →
  let h := take n (physical acc t f ++ tl) in
  Z.lor (Z.land (byte_at h 4) 0xff) (Z.land (byte_at h 5) 0xff ≪ 8) = size_of f ∧ type_of_char (byte_at h 6) = t.
Proof.
  intros Hn Hf Ht h.
  assert (∀ i, (i < 3)%nat → byte_at h (4 + i) = byte_at [size_of f `mod` 256; size_of f `div` 256; t] i) as Hb.
  { intros i Hi. unfold byte_at, h. f_equal. rewrite lookup_take_lt by lia. unfold physical. rewrite <- !(assoc_L (++)).
    rewrite lookup_app_r by (rewrite length_EncodeFixed32; lia). rewrite length_EncodeFixed32. replace (4 + i - 4)%nat with i by lia.
    by destruct i as [|[|[|i]]]; [..|lia]. }
  pose proof (Hb 0%nat ltac:(lia)) as H4. pose proof (Hb 1%nat ltac:(lia)) as H5. pose proof (Hb 2%nat ltac:(lia)) as H6.
  cbn [Nat.add] in H4, H5, H6. rewrite H4, H5, H6. unfold byte_at. cbn [lookup list_lookup from_option id].
  split; [|unfold type_of_char; by rewrite decide_True by lia]. rewrite !land_255, !w8_small by dlia.
  rewrite lor_shiftl_add by dlia. dlia.
Qed.

Section layouts.
Context (AcceleratedCRC32C : Z → bytes → Z).
Local Abbreviation lay := (layout AcceleratedCRC32C).

Lemma size_layout_cons pos c cs : size_of (lay pos (c :: cs)) = pad pos + kHeaderSize + size_of c.2 + size_of (lay (after pos c) cs).
Proof. cbn [layout]. destruct (pad_spec pos) as (Hp & _). rewrite !length_app, length_replicate, !Nat2Z.inj_add, size_physical. lia. Qed.

Lemma layout_app pos cs cs' : lay pos (cs ++ cs') = lay pos cs ++ lay (pos + size_of (lay pos cs)) cs'.
Proof.
  revert pos. induction cs as [|c cs IH]; intros pos; [cbn [layout app length]; by rewrite Z.add_0_r|]. cbn [app]. rewrite size_layout_cons. cbn [layout].
  rewrite IH, <- !(assoc_L (++)). do 4 f_equal. unfold after. lia.
Qed.

Lemma fits_app pos cs cs' : fits pos (cs ++ cs') ↔ fits pos cs ∧ fits (pos + size_of (lay pos cs)) cs'.
Proof.
  revert pos. induction cs as [|c cs IH]; intros pos; [cbn [layout app length fits]; rewrite Z.add_0_r; tauto|]. cbn [app fits]. rewrite IH, size_layout_cons.
  replace (after pos c + size_of (lay (after pos c) cs)) with (pos + (pad pos + kHeaderSize + size_of c.2 + size_of (lay (after pos c) cs))) by (unfold after; lia). tauto.
Qed.

End layouts.

Section read.
Context {F : Type} {SF : SequentialFile F} (rest : F → bytes) {RO : ReadOk F rest}.
Context (AcceleratedCRC32C : Z → bytes → Z).
Hypothesis portable : CanAccelerateCRC32C AcceleratedCRC32C = false.
Context (reporter checksum : bool).

Local Abbreviation parse := (parse_physical AcceleratedCRC32C reporter checksum 0).

Lemma parse_whole (r : Reader F) t f tl result :
  lr_buffer_ r = physical AcceleratedCRC32C t f ++ tl → size_of f <= 0xffff → 1 <= t <= 4 → u8s f →
  parse r result = (set_buffer r tl, t, f).
Proof.
  intros Hb Hf Ht Hu. unfold parse_physical. rewrite Hb.
  destruct (header_fields AcceleratedCRC32C t f tl (length (physical AcceleratedCRC32C t f ++ tl))) as [El Et]; [|done..|].
  { rewrite length_app. pose proof (size_physical AcceleratedCRC32C t f). unfold kHeaderSize in *. lia. }
  rewrite firstn_all in El, Et. rewrite El, Et. pose proof (size_physical AcceleratedCRC32C t f) as Hs.
  rewrite decide_False by (rewrite length_app; lia). rewrite decide_False by (unfold kZeroType; lia).
  assert (Value AcceleratedCRC32C 0 (take (Z.to_nat (1 + size_of f)) (drop 6 (physical AcceleratedCRC32C t f ++ tl)))
    = Unmask (DecodeFixed32_ptr (physical AcceleratedCRC32C t f ++ tl))) as ->.
  { assert (u8s (t :: f)) as Htf by (constructor; [mlia|done]). destruct (Value_u32 _ portable _ Htf) as [Hv _].
    assert (drop 6 (physical AcceleratedCRC32C t f ++ tl) = (t :: f) ++ tl) as -> by done. rewrite take_app_exact by (cbn [length]; lia).
    unfold physical. rewrite <- !(assoc_L (++)), DecodeFixed32_ptr_encode. rewrite w32_small by apply w32_range. by rewrite Unmask_Mask. }
  rewrite bool_decide_eq_false_2 by tauto. rewrite andb_false_r. rewrite decide_False.
  - do 2 f_equal; [f_equal; apply drop_app_exact; lia|]. assert (drop (Z.to_nat kHeaderSize) (physical AcceleratedCRC32C t f ++ tl) = f ++ tl) as -> by done.
    apply take_app_exact. lia.
  - match goal with |- ¬ w64 ?x < 0 => pose proof (w64_range x) end. unfold is_u64 in *. lia.
Qed.

(** The end of the file in front of the end of a fragment. *)
Lemma parse_short (r : Reader F) t f n result :
  lr_buffer_ r = take n (physical AcceleratedCRC32C t f) → (7 <= n)%nat → Z.of_nat n < kHeaderSize + size_of f →
  size_of f <= 0xffff → 1 <= t <= 4 → eof_ r = true → parse r result = (set_buffer r [], kEof, result).
Proof.
  intros Hb Hn Hlt Hf Ht Heof. unfold parse_physical. rewrite Hb.
  destruct (header_fields AcceleratedCRC32C t f [] n Hn Hf Ht) as [El Et]. rewrite app_nil_r in El, Et. rewrite El, Et.
  rewrite decide_True by (rewrite length_take; pose proof (size_physical AcceleratedCRC32C t f); lia). cbn [set_buffer eof_]. by rewrite Heof.
Qed.

Context (T : bytes).
Hypothesis HT : size_of T < 2 ^ 63.

(** The reader stands at [pos] of the file [T]. *)
Record at_pos (pos : Z) (r : Reader F) : Prop := {
  ap_pos : 0 <= pos <= end_of_buffer_offset_ r;
  ap_end : end_of_buffer_offset_ r <= size_of T;
  ap_buffer : lr_buffer_ r = take (Z.to_nat (end_of_buffer_offset_ r - pos)) (drop (Z.to_nat pos) T);
  ap_rest : rest (file_ r) = drop (Z.to_nat (end_of_buffer_offset_ r)) T;
  ap_resync : resyncing_ r = false;
  ap_last : 0 <= last_record_offset_ r;
  ap_block : (eof_ r = false ∧ end_of_buffer_offset_ r `mod` kLogBlockSize = 0 ∧ end_of_buffer_offset_ r - pos <= kLogBlockSize)
    ∨ (eof_ r = true ∧ end_of_buffer_offset_ r = size_of T
       ∧ ∃ b, b `mod` kLogBlockSize = 0 ∧ b <= pos ∧ end_of_buffer_offset_ r < b + kLogBlockSize)
}.

Lemma at_buffer_size pos r : at_pos pos r → size_of (lr_buffer_ r) = end_of_buffer_offset_ r - pos.
Proof. intros [Hp He Hb _ _ _ _]. rewrite Hb, length_take, length_drop. lia. Qed.

(** A block that is read after a trailer. *)
Lemma read_block_ok pos r :
  at_pos pos r → eof_ r = false →
  ∃ r', read_block reporter 0 (set_buffer r []) = (r', true) ∧ at_pos (end_of_buffer_offset_ r) r' ∧ drops r' = drops r
    ∧ (eof_ r' = true ∨ size_of (lr_buffer_ r') = kLogBlockSize).
Proof.
  intros [Hp He Hb Hr Hres Hl [(Heof & Hm & Hk)|(Heof & _)]] Heof'; [|congruence]. unfold read_block. cbn [set_buffer file_ eof_ last_record_offset_ end_of_buffer_offset_ resyncing_ drops].
  destruct (read_ok (file_ r) kLogBlockSize) as (f' & -> & Ef); [unfold kLogBlockSize; lia|]. rewrite Hr in Ef |- *. set (data := take _ _).
  set (E := end_of_buffer_offset_ r) in *. assert (size_of data = Z.min kLogBlockSize (size_of T - E)) as Ed.
  { unfold data. rewrite length_take, length_drop. unfold kLogBlockSize. lia. }
  assert (w64 (E + size_of data) = E + size_of data) as Ew by (apply w64_small; unfold is_u64; unfold kLogBlockSize in *; lia).
  eexists. split; [reflexivity|]. cbn [file_ lr_buffer_ eof_ last_record_offset_ end_of_buffer_offset_ resyncing_ drops]. rewrite Heof, orb_false_r, Ew. split; [|split; [done|]].
  - split; cbn [file_ lr_buffer_ eof_ last_record_offset_ end_of_buffer_offset_ resyncing_ drops]; [lia|unfold kLogBlockSize in *; lia| | |done|done|].
    + replace (E + size_of data - E) with (size_of data) by lia. fold data. unfold data at 1.
      destruct (decide (size_of T - E < kLogBlockSize)) as [Hs|Hs].
      * rewrite !take_ge; [done|rewrite length_drop; lia|rewrite length_drop; unfold kLogBlockSize in *; lia].
      * f_equal. lia.
    + rewrite Ef, drop_drop. destruct (decide (size_of T - E < kLogBlockSize)) as [Hs|Hs].
      * rewrite !drop_ge; [done|lia|unfold kLogBlockSize in *; lia].
      * f_equal. unfold kLogBlockSize in *. lia.
    + destruct (decide (size_of data < kLogBlockSize)) as [Hs|Hs].
      * right. split; [by apply bool_decide_eq_true_2|]. split; [lia|]. exists E. split_and!; [done|lia|lia].
      * left. split; [by apply bool_decide_eq_false_2|]. assert (size_of data = kLogBlockSize) as -> by (unfold kLogBlockSize in *; lia). split; [|lia].
        by rewrite <- (Z.mul_1_l kLogBlockSize) at 1; rewrite Z_mod_plus_full.
  - destruct (decide (size_of data < kLogBlockSize)) as [Hs|Hs]; [left; by apply bool_decide_eq_true_2|right; unfold kLogBlockSize in *; lia].
Qed.

Local Abbreviation read_physical := (ReadPhysicalRecord AcceleratedCRC32C reporter checksum 0).

(** Where a fragment starts, seen from the buffer. *)
Lemma pad_at pos r :
  at_pos pos r →
  (kHeaderSize <= end_of_buffer_offset_ r - pos → pad pos = 0)
  ∧ (eof_ r = false → end_of_buffer_offset_ r - pos < kHeaderSize → pos + pad pos = end_of_buffer_offset_ r)
  ∧ (eof_ r = false → kHeaderSize <= end_of_buffer_offset_ r - pos → pos `mod` kLogBlockSize = kLogBlockSize - (end_of_buffer_offset_ r - pos)).
Proof.
  intros [Hp _ _ _ _ _ Hblock]. unfold pad, kHeaderSize, kLogBlockSize in *. destruct Hblock as [(He & Hm & Hk)|(He & _ & b & Hb & Hbp & Hk)].
  - split_and!; intros; try case_decide; dlia.
  - split_and!; [intros; try case_decide; dlia|congruence..].
Qed.

(** Moving on in the buffer. *)
Lemma at_advance pos r n :
  at_pos pos r → 0 <= n <= end_of_buffer_offset_ r - pos → at_pos (pos + n) (set_buffer r (drop (Z.to_nat n) (lr_buffer_ r))).
Proof.
  intros [Hp He Hb Hr Hres Hl Hblock] Hn. split; cbn [set_buffer file_ lr_buffer_ eof_ last_record_offset_ end_of_buffer_offset_ resyncing_]; [lia|done| |done..|].
  - rewrite Hb, skipn_firstn_comm, drop_drop. f_equal; [lia|]. f_equal. lia.
  - destruct Hblock as [(? & ? & ?)|(? & ? & b & ? & ? & ?)]; [left; split_and!; [done..|lia]|right; split_and!; [done..|]; exists b; split_and!; [done|lia|done]].
Qed.

Lemma parse_at pos r t f tl result :
  at_pos pos r → kHeaderSize <= end_of_buffer_offset_ r - pos → drop (Z.to_nat pos) T = physical AcceleratedCRC32C t f ++ tl →
  pos `mod` kLogBlockSize + kHeaderSize + size_of f <= kLogBlockSize → 1 <= t <= 4 → u8s f →
  ∃ r', parse r result = (r', t, f) ∧ at_pos (pos + kHeaderSize + size_of f) r' ∧ drops r' = drops r.
Proof.
  intros Hat Hh Hd Hfit Ht Hu. pose proof (size_physical AcceleratedCRC32C t f) as Hs. destruct (pad_at pos r Hat) as (_ & _ & Hmod).
  assert (kHeaderSize + size_of f <= end_of_buffer_offset_ r - pos) as Hle.
  { pose proof (ap_block _ _ Hat) as [(He & _)|(_ & Ee & _)]; [rewrite (Hmod He Hh) in Hfit; lia|].
    apply (f_equal length) in Hd. rewrite length_drop, length_app in Hd. rewrite Ee. pose proof (ap_pos _ _ Hat). lia. }
  pose proof (Z.mod_pos_bound pos kLogBlockSize eq_refl) as Hm0.
  assert (lr_buffer_ r = physical AcceleratedCRC32C t f ++ drop (Z.to_nat (kHeaderSize + size_of f)) (lr_buffer_ r)) as Hb.
  { rewrite <- (take_drop (Z.to_nat (kHeaderSize + size_of f)) (lr_buffer_ r)) at 1. f_equal. rewrite (ap_buffer _ _ Hat), Hd, take_take, Nat.min_l by lia.
    apply take_app_exact. lia. }
  rewrite (parse_whole r t f _ result Hb) by (done || (unfold kHeaderSize, kLogBlockSize in *; lia)). eexists. split; [done|]. split; [|done].
  rewrite <- Z.add_assoc. apply at_advance; [done|]. unfold kHeaderSize in *. lia.
Qed.

(** A fragment that is whole in the file. *)
Lemma read_whole pos r t f tl result :
  at_pos pos r → drop (Z.to_nat pos) T = replicate (Z.to_nat (pad pos)) 0 ++ physical AcceleratedCRC32C t f ++ tl →
  (pos + pad pos) `mod` kLogBlockSize + kHeaderSize + size_of f <= kLogBlockSize → 1 <= t <= 4 → u8s f →
  ∃ r', read_physical r result = Ret (r', t, f) ∧ at_pos (after pos (t, f)) r' ∧ drops r' = drops r.
Proof.
  intros Hat Hd Hfit Ht Hu. destruct (pad_at pos r Hat) as (Hp0 & Hpe & _). pose proof (at_buffer_size pos r Hat) as Hs. destruct (pad_spec pos) as (Hpr & _).
  pose proof (size_physical AcceleratedCRC32C t f) as Hsz. pose proof (f_equal length Hd) as Hlen. rewrite length_drop, !length_app, length_replicate in Hlen.
  pose proof (ap_pos _ _ Hat) as Hpos. pose proof (ap_end _ _ Hat) as Hend. unfold ReadPhysicalRecord, after. cbn [ReadPhysicalRecord_loop snd].
  destruct (decide (size_of (lr_buffer_ r) < kHeaderSize)) as [Hshort|Hlong].
  - destruct (ap_block _ _ Hat) as [(He & _)|(_ & Ee & _)]; [|lia]. rewrite He. cbn [negb].
    destruct (read_block_ok pos r Hat He) as (r1 & -> & Hat1 & Hdr & Hfull). rewrite <- (Hpe He) in Hat1 by lia.
    assert (drop (Z.to_nat (pos + pad pos)) T = physical AcceleratedCRC32C t f ++ tl) as Hd1.
    { rewrite Z2Nat.inj_add, <- drop_drop, Hd by lia. apply drop_app_exact. by rewrite length_replicate. }
    pose proof (at_buffer_size _ _ Hat1) as Hs1. assert (kHeaderSize <= end_of_buffer_offset_ r1 - (pos + pad pos)) as Hh1.
    { destruct Hfull as [He1|Hfull]; [|rewrite <- Hs1, Hfull; unfold kHeaderSize, kLogBlockSize; lia].
      destruct (ap_block _ _ Hat1) as [(? & _)|(_ & -> & _)]; [congruence|lia]. }
    rewrite decide_False by lia. destruct (parse_at _ r1 t f tl result Hat1 Hh1 Hd1 Hfit Ht Hu) as (r2 & -> & Hat2 & Hdr2). exists r2. split_and!; [done..|congruence].
  - rewrite Hp0 in * by lia. rewrite Z.add_0_r in *. cbn [Z.to_nat replicate app] in Hd.
    destruct (parse_at pos r t f tl result Hat ltac:(lia) Hd Hfit Ht Hu) as (r2 & -> & Hat2 & Hdr2). by exists r2.
Qed.

(** The end of the file in or in front of a fragment. *)
Lemma read_cut pos r t f m result :
  at_pos pos r → drop (Z.to_nat pos) T = take m (replicate (Z.to_nat (pad pos)) 0 ++ physical AcceleratedCRC32C t f) →
  Z.of_nat m < pad pos + kHeaderSize + size_of f →
  (pos + pad pos) `mod` kLogBlockSize + kHeaderSize + size_of f <= kLogBlockSize → 1 <= t <= 4 →
  ∃ r', read_physical r result = Ret (r', kEof, result) ∧ drops r' = drops r.
Proof.
  intros Hat Hd Hm Hfit Ht. destruct (pad_at pos r Hat) as (Hp0 & Hpe & Hpm). pose proof (at_buffer_size pos r Hat) as Hs. destruct (pad_spec pos) as (Hpr & Hpb & _).
  pose proof (size_physical AcceleratedCRC32C t f) as Hsz. pose proof (f_equal length Hd) as Hlen. rewrite length_drop, length_take, length_app, length_replicate in Hlen.
  pose proof (ap_pos _ _ Hat) as Hpos. pose proof (ap_end _ _ Hat) as Hend. assert (size_of f <= 0xffff) as Hf by (unfold kHeaderSize, kLogBlockSize in *; lia).
  unfold ReadPhysicalRecord. cbn [ReadPhysicalRecord_loop].
  destruct (decide (size_of (lr_buffer_ r) < kHeaderSize)) as [Hshort|Hlong].
  - destruct (eof_ r) eqn:He; cbn [negb]; [by eexists|]. destruct (read_block_ok pos r Hat He) as (r1 & -> & Hat1 & Hdr & Hfull). specialize (Hpe eq_refl ltac:(lia)). rewrite <- Hpe in Hat1.
    assert (drop (Z.to_nat (pos + pad pos)) T = take (m - Z.to_nat (pad pos)) (physical AcceleratedCRC32C t f)) as Hd1.
    { rewrite Z2Nat.inj_add, <- drop_drop, Hd, skipn_firstn_comm by lia. f_equal. apply drop_app_exact. by rewrite length_replicate. }
    pose proof (at_buffer_size _ _ Hat1) as Hs1. pose proof (ap_buffer _ _ Hat1) as Hb1. rewrite Hd1, take_take in Hb1. pose proof (ap_end _ _ Hat1) as Hend1.
    assert (eof_ r1 = true) as He1. { destruct Hfull as [?|Hfull]; [done|]. unfold kLogBlockSize, kHeaderSize in *. lia. }
    destruct (ap_block _ _ Hat1) as [(? & _)|(_ & Ee1 & _)]; [congruence|].
    destruct (decide (size_of (lr_buffer_ r1) < kHeaderSize)) as [Hs7|Hs7]; [rewrite He1; cbn [negb]; by eexists|].
    erewrite parse_short; [by eexists|exact Hb1|unfold kHeaderSize in *; lia|unfold kHeaderSize in *; lia|done|done|done].
  - specialize (Hp0 ltac:(lia)). rewrite Hp0 in *. rewrite Z.add_0_r in *. cbn [Z.to_nat replicate app] in Hd. pose proof (ap_buffer _ _ Hat) as Hb. rewrite Hd, take_take in Hb.
    destruct (ap_block _ _ Hat) as [(He & _)|(He & Ee & _)]; [specialize (Hpm He ltac:(lia)); lia|].
    erewrite parse_short; [by eexists|exact Hb|unfold kHeaderSize in *; lia|unfold kHeaderSize in *; lia|done|done|done].
Qed.

(** ** Records *)

Local Abbreviation read_record_loop := (ReadRecord_loop AcceleratedCRC32C reporter checksum 0).
Local Abbreviation lay := (layout AcceleratedCRC32C).

(** The file ends before the next record does. *)
Lemma loop_eof rounds r in_frag prospective scratch fragment r' :
  read_physical r fragment = Ret (r', kEof, fragment) → drops r' = drops r →
  ∃ r'', read_record_loop (S rounds) r in_frag prospective scratch fragment = Ret (r'', None) ∧ drops r'' = drops r.
Proof.
  intros E Hd. cbn [ReadRecord_loop]. rewrite E. cbn [mbind res_bind]. unfold resync. destruct (resyncing_ r').
  - rewrite (decide_False (P := kEof = kMiddleType)), (decide_False (P := kEof = kLastType)) by done. cbn. by eexists.
  - cbn. by eexists.
Qed.

(** The next fragment is read, or the file ends in it. *)
Lemma next_chunk pos r (c : chunk) more m fragment :
  at_pos pos r → (pos + pad pos) `mod` kLogBlockSize + kHeaderSize + size_of c.2 <= kLogBlockSize → 1 <= c.1 <= 4 → u8s c.2 →
  drop (Z.to_nat pos) T = take m (lay pos (c :: more)) →
  if decide (pad pos + kHeaderSize + size_of c.2 <= Z.of_nat m)
  then ∃ r', read_physical r fragment = Ret (r', c.1, c.2) ∧ at_pos (after pos c) r' ∧ drops r' = drops r
    ∧ drop (Z.to_nat (after pos c)) T = take (m - Z.to_nat (pad pos + kHeaderSize + size_of c.2)) (lay (after pos c) more)
  else ∃ r', read_physical r fragment = Ret (r', kEof, fragment) ∧ drops r' = drops r.
Proof.
  intros Hat Hfit Ht Hu Hd. destruct c as [t f]. cbn [fst snd layout] in *. destruct (pad_spec pos) as (Hpr & _). pose proof (size_physical AcceleratedCRC32C t f) as Hsz.
  set (hd := replicate (Z.to_nat (pad pos)) 0 ++ physical AcceleratedCRC32C t f).
  assert (size_of hd = pad pos + kHeaderSize + size_of f) as Eh by (unfold hd; rewrite length_app, length_replicate; lia).
  rewrite (assoc_L (++)) in Hd. fold hd in Hd. case_decide as Hm.
  - rewrite take_app_ge in Hd by lia. replace (m - length hd)%nat with (m - Z.to_nat (pad pos + kHeaderSize + size_of f))%nat in Hd by lia.
    assert (drop (Z.to_nat pos) T = replicate (Z.to_nat (pad pos)) 0 ++ physical AcceleratedCRC32C t f
      ++ take (m - Z.to_nat (pad pos + kHeaderSize + size_of f)) (lay (after pos (t, f)) more)) as Hd' by (rewrite Hd; unfold hd; by rewrite <- (assoc_L (++))).
    destruct (read_whole pos r t f _ fragment Hat Hd' Hfit Ht Hu) as (r' & E & Hat' & Hdr). exists r'. split_and!; [done..|].
    unfold after at 1. cbn [snd]. pose proof (ap_pos _ _ Hat). replace (Z.to_nat (pos + pad pos + kHeaderSize + size_of f)) with (Z.to_nat pos + length hd)%nat by lia.
    rewrite <- drop_drop, Hd. by apply drop_app_length.
  - rewrite take_app_le in Hd by lia. by apply (read_cut pos r t f m fragment Hat Hd); [lia|..].
Qed.

Lemma at_set_last pos r o : 0 <= o → at_pos pos r → at_pos pos (set_last_record r o).
Proof. by intros Ho []. Qed.

Lemma record_read begin data cs :
  record_chunks begin data cs → ∀ more rounds r pos m scratch prospective fragment,
  at_pos pos r → 0 <= prospective → fits pos cs → drop (Z.to_nat pos) T = take m (lay pos (cs ++ more)) → (m < rounds)%nat →
  if decide (length (lay pos cs) <= m)%nat
  then ∃ r', read_record_loop rounds r (negb begin) prospective scratch fragment = Ret (r', Some ((if begin then [] else scratch) ++ data))
    ∧ at_pos (pos + size_of (lay pos cs)) r' ∧ drops r' = drops r
  else ∃ r', read_record_loop rounds r (negb begin) prospective scratch fragment = Ret (r', None) ∧ drops r' = drops r.
Proof.
  induction 1 as [begin data|begin f data cs Hcs IH]; intros more rounds r pos m scratch prospective fragment Hat Hpro Hfit Hd Hr;
    (destruct rounds as [|rounds]; [lia|]); cbn [fits] in Hfit; destruct Hfit as (Hf1 & Ht & Hu & Hf2); pose proof (pad_spec pos) as (Hpr & _);
    cbn [app] in Hd; pose proof (next_chunk pos r _ _ m fragment Hat Hf1 Ht Hu Hd) as Hn; cbn [fst snd] in Hn.
  - pose proof (size_layout_cons AcceleratedCRC32C pos (fragment_type begin true, data) []) as Hsz. cbn [snd] in Hsz. change (size_of (lay _ [])) with 0 in Hsz. rewrite Z.add_0_r in Hsz.
    case_decide as Hc; (destruct (decide (length (lay pos [(fragment_type begin true, data)]) <= m)%nat); [|try lia]); [| lia | ].
    + destruct Hn as (r' & E & Hat' & Hdr & _). cbn [ReadRecord_loop]. rewrite E. cbn [mbind res_bind]. unfold resync. rewrite (ap_resync _ _ Hat').
      replace (pos + size_of (lay pos [(fragment_type begin true, data)])) with (after pos (fragment_type begin true, data)) by (unfold after; cbn [snd]; lia).
      destruct begin; cbn; (eexists; split; [reflexivity|]; split; [apply at_set_last; [|done]|done]); [apply w64_range|done].
    + destruct Hn as (r' & E & Hdr). by eapply loop_eof.
  - pose proof (size_layout_cons AcceleratedCRC32C pos (fragment_type begin false, f) (cs)) as Hsz. cbn [snd] in Hsz. case_decide as Hc.
    + destruct Hn as (r' & E & Hat' & Hdr & Hd').
      set (k := Z.to_nat (pad pos + kHeaderSize + size_of f)) in *. assert (k <= m ∧ 7 <= k)%nat as Hk by (unfold k, kHeaderSize in *; lia).
      replace (pos + size_of (lay pos ((fragment_type begin false, f) :: cs))) with (after pos (fragment_type begin false, f) + size_of (lay (after pos (fragment_type begin false, f)) cs))
        by (unfold after in *; cbn [snd] in *; lia).
      set (po := w64 (end_of_buffer_offset_ r' - size_of (lr_buffer_ r') - kHeaderSize - size_of f)).
      assert (0 <= po) as Hpo by apply w64_range.
      specialize (IH more rounds r' _ (m - k)%nat (if begin then f else scratch ++ f) (if begin then po else prospective) f Hat' ltac:(by destruct begin) Hf2 Hd' ltac:(lia)).
      assert (read_record_loop (S rounds) r (negb begin) prospective scratch fragment
        = read_record_loop rounds r' true (if begin then po else prospective) (if begin then f else scratch ++ f) f) as El.
      { cbn [ReadRecord_loop]. rewrite E. cbn [mbind res_bind]. unfold resync. rewrite (ap_resync _ _ Hat'). by destruct begin. }
      rewrite El. clear El. cbn [negb] in IH.
      destruct (decide (length (lay (after pos (fragment_type begin false, f)) cs) <= m - k)%nat) as [Hc1|Hc1];
        (destruct (decide (length (lay pos ((fragment_type begin false, f) :: cs)) <= m)%nat) as [Hc2|Hc2]; [|try (unfold k in *; lia)]); [|unfold k in *; lia|].
      * destruct IH as (r2 & E2 & Hat2 & Hdr2). exists r2. split_and!; [|done|congruence]. rewrite E2. destruct begin; by rewrite ?(assoc_L (++)).
      * destruct IH as (r2 & E2 & Hdr2). exists r2. by split; [|congruence].
    + destruct Hn as (r' & E & Hdr). rewrite decide_False by lia. by eapply loop_eof.
Qed.

Lemma read_all_ok rs css :
  Forall2 (record_chunks true) rs css → ∀ n rounds r pos m,
  at_pos pos r → fits pos (concat css) → drop (Z.to_nat pos) T = take m (lay pos (concat css)) → (m < rounds)%nat → (length rs < n)%nat →
  ∃ r' k, read_all AcceleratedCRC32C reporter checksum 0 n rounds r = Ret (r', take k rs) ∧ drops r' = drops r
    ∧ ∀ j, (j <= length rs)%nat → (length (lay pos (concat (take j css))) <= m)%nat → (j <= k)%nat.
Proof.
  induction 1 as [|data cs rs css Hcs Hall IH]; intros n rounds r pos m Hat Hfit Hd Hm Hn; (destruct n as [|n]; [cbn in Hn; lia|]);
    cbn [read_all]; unfold ReadRecord; rewrite decide_False by (pose proof (ap_last _ _ Hat); lia).
  - cbn [concat layout] in Hd. rewrite take_nil in Hd. destruct rounds as [|rounds]; [lia|]. destruct (pad_spec pos) as (Hp1 & Hp2 & _).
    destruct (read_cut pos r kFullType [] 0 [] Hat) as (r' & E & Hdr); [by rewrite Hd|unfold kHeaderSize; cbn; lia|cbn [length]; lia|unfold kFullType; lia|].
    destruct (loop_eof rounds r false 0 [] [] r' E Hdr) as (r2 & -> & Hdr2). cbn [mbind res_bind]. exists r2, 0%nat. split_and!; [done..|]. cbn. lia.
  - cbn [concat] in Hd, Hfit. apply (fits_app AcceleratedCRC32C) in Hfit as [Hf1 Hf2]. pose proof (record_read true data cs Hcs (concat css) rounds r pos m [] 0 [] Hat ltac:(lia) Hf1 Hd Hm) as Hrec.
    cbn [negb app] in Hrec. case_decide as Hc.
    + destruct Hrec as (r1 & -> & Hat1 & Hdr1). cbn [mbind res_bind]. pose proof (ap_pos _ _ Hat) as Hpos.
      destruct (IH n rounds r1 (pos + size_of (lay pos cs)) (m - length (lay pos cs))%nat Hat1 Hf2) as (r2 & k & -> & Hdr2 & Hk); [|lia|cbn in Hn; lia|].
      { replace (Z.to_nat (pos + size_of (lay pos cs))) with (Z.to_nat pos + length (lay pos cs))%nat by lia. rewrite <- drop_drop, Hd, layout_app, take_app_ge by done.
        by apply drop_app_length. }
      cbn [mbind res_bind]. exists r2, (S k). split_and!; [done|congruence|]. intros [|j] Hj Hl; [lia|]. cbn [take concat] in Hl. rewrite layout_app, length_app in Hl.
      cbn in Hj. specialize (Hk j). lia.
    + destruct Hrec as (r1 & -> & Hdr1). cbn [mbind res_bind]. exists r1, 0%nat. split_and!; [done..|]. intros [|j] Hj Hl; [lia|]. cbn [take concat] in Hl.
      rewrite layout_app, length_app in Hl. lia.
Qed.
End read.

Section log.
Context {F : Type} {WF : WritableFile F} (contents : F → bytes).
Context (AcceleratedCRC32C : Z → bytes → Z).

(** A sequence of records; before a record the file may have been opened again. *)
Fixpoint write_all (w : Writer F) (records : list (bool * bytes)) : res (option (Writer F * bool)) :=
  match records with
  | [] => Ret (Some (w, true))
  | (reopened, record) :: records =>
      let w := if reopened : bool then Writer_reopen AcceleratedCRC32C (dest_ w) (size_of (contents (dest_ w))) else w in
      r ← AddRecord AcceleratedCRC32C w record;
      match r with
      | Some (w, true) => write_all w records
      | r => Ret r
      end
  end.

Context {AO : AppendOk F contents}.
Hypothesis portable : CanAccelerateCRC32C AcceleratedCRC32C = false.

Lemma write_all_ok records w :
  writer_ok contents AcceleratedCRC32C w → Forall u8s records.*2 →
  ∃ w' css, write_all w records = Ret (Some (w', true)) ∧ Forall2 (record_chunks true) records.*2 css
    ∧ fits (size_of (contents (dest_ w))) (concat css)
    ∧ contents (dest_ w') = contents (dest_ w) ++ layout AcceleratedCRC32C (size_of (contents (dest_ w))) (concat css)
    ∧ ∀ j, ∃ wj, write_all w (take j records) = Ret (Some (wj, true))
        ∧ contents (dest_ wj) = contents (dest_ w) ++ layout AcceleratedCRC32C (size_of (contents (dest_ w))) (concat (take j css)).
Proof.
  revert w. induction records as [|[reopened record] records IH]; intros w Hw Hu.
  - exists w, []. cbn. split_and!; [done|constructor|done|by rewrite app_nil_r|]. intros j. exists w. rewrite !take_nil. cbn. by rewrite app_nil_r.
  - cbn [fmap list_fmap snd] in Hu. apply Forall_cons in Hu as [Hr Hu]. set (w0 := if reopened then Writer_reopen AcceleratedCRC32C (dest_ w) (size_of (contents (dest_ w))) else w).
    assert (writer_ok contents AcceleratedCRC32C w0 ∧ dest_ w0 = dest_ w) as [Hw0 Ed].
    { unfold w0. destruct reopened; [|done]. split; [|done]. split; cbn [Writer_reopen type_crc_ block_offset_ dest_]; [done| |by apply Z.mod_mod].
      pose proof (Z.mod_pos_bound (size_of (contents (dest_ w))) kLogBlockSize eq_refl). lia. }
    destruct (AddRecord_ok contents AcceleratedCRC32C portable w0 record Hw0 Hr) as (w1 & cs & E & Hw1 & Hcs & Hfit & E1). rewrite Ed in Hfit, E1.
    set (P := size_of (contents (dest_ w))) in *. assert (size_of (contents (dest_ w1)) = P + size_of (layout AcceleratedCRC32C P cs)) as EP by (rewrite E1, length_app; lia).
    destruct (IH w1 Hw1 Hu) as (w2 & css & E2 & Hall & Hfit2 & Hc2 & Hj). rewrite EP, E1 in Hc2. exists w2, (cs :: css). split_and!.
    + cbn [write_all]. fold P; fold w0. rewrite E. by cbn [mbind res_bind].
    + by constructor.
    + cbn [concat]. rewrite (fits_app AcceleratedCRC32C). by rewrite EP in Hfit2.
    + cbn [concat]. by rewrite layout_app, (assoc_L (++)).
    + intros [|j]; [exists w; cbn; by rewrite app_nil_r|]. destruct (Hj j) as (wj & Ej & Hcj). exists wj. rewrite EP, E1 in Hcj. cbn [take write_all]. fold P; fold w0. rewrite E.
      cbn [mbind res_bind concat]. split; [done|]. by rewrite layout_app, (assoc_L (++)).
Qed.
End log.

(** ** Properties *)

(** C26. A log survives a crash: every record is written, also by several writers
    in turn; and when the file is cut at any byte, the reader returns a prefix of
    the records that has every record that was written before the cut, then
    reports the end; it reports no corruption. *)
Theorem log_survives_cut {F G : Type} {WF : WritableFile F} {SF : SequentialFile G} (contents : F → bytes) (rest : G → bytes)
    (AcceleratedCRC32C : Z → bytes → Z) (f : F) (records : list (bool * bytes)) :
  AppendOk F contents → ReadOk G rest → CanAccelerateCRC32C AcceleratedCRC32C = false → contents f = [] → Forall u8s records.*2 →
  let written l := write_all contents AcceleratedCRC32C (Writer_make AcceleratedCRC32C f) l in
  ∃ w, written records = Ret (Some (w, true))
    ∧ ∀ (g : G) (n : nat) (reporter checksum : bool), size_of (contents (dest_ w)) < 2 ^ 63 → rest g = take n (contents (dest_ w)) →
      ∃ r k, read_all AcceleratedCRC32C reporter checksum 0 (S (length records)) (S (length (rest g))) (Reader_make 0 g) = Ret (r, take k records.*2)
        ∧ drops r = []
        ∧ ∀ j, (j <= length records)%nat → ∃ wj, written (take j records) = Ret (Some (wj, true)) ∧ ((length (contents (dest_ wj)) <= n)%nat → (j <= k)%nat).
Proof.
  intros AO RO Hp Hf Hu written. assert (writer_ok contents AcceleratedCRC32C (Writer_make AcceleratedCRC32C f)) as Hw.
  { split; cbn [Writer_make type_crc_ block_offset_ dest_]; [done|unfold kLogBlockSize; lia|by rewrite Hf]. }
  destruct (write_all_ok contents AcceleratedCRC32C Hp records _ Hw Hu) as (w & css & E & Hall & Hfit & Ec & Hj). exists w. split; [done|].
  intros g n reporter checksum Hs Hg. cbn [Writer_make dest_] in *. rewrite Hf in *. cbn [app length] in *. change (Z.of_nat 0) with 0 in *.
  assert (at_pos rest (rest g) 0 (Reader_make 0 g)) as Hat.
  { split; cbn [Reader_make end_of_buffer_offset_ lr_buffer_ file_ eof_ last_record_offset_ resyncing_]; [lia|lia|done|done|done|lia|left; done]. }
  rewrite Ec in Hg, Hs. set (L := layout AcceleratedCRC32C 0 (concat css)) in *.
  destruct (read_all_ok rest AcceleratedCRC32C Hp reporter checksum (rest g)) with (rs := records.*2) (css := css) (n := S (length records)) (rounds := S (length (rest g)))
    (r := Reader_make (F := G) 0 g) (pos := 0) (m := length (rest g)) as (r & k & -> & Hd & Hk); [rewrite Hg, length_take; lia|done|done|done| |lia|rewrite length_fmap; lia|].
  { rewrite Hg. cbn [Z.to_nat drop]. fold L. rewrite length_take. destruct (decide (n <= length L)%nat); [by rewrite Nat.min_l|rewrite Nat.min_r by lia; rewrite !take_ge by lia; done]. }
  exists r, k. split_and!; [done..|]. intros j Hjl. destruct (Hj j) as (wj & Ej & Hcj). exists wj. split; [done|]. rewrite Hcj. intros Hle. apply Hk; [by rewrite length_fmap|].
  rewrite Hg, length_take. apply Nat.min_glb; [done|]. unfold L. rewrite <- (take_drop j css) at 2. rewrite concat_app, layout_app, length_app. lia.
Qed.

(** A file in memory. *)
#[export] Instance memory_writable : WritableFile bytes := {
  file_Append f data := Ret (f ++ data, true);
  file_Flush f := Ret (f, true)
}.
#[export] Instance memory_sequential : SequentialFile bytes := {
  file_Read f n := (drop (Z.to_nat n) f, take (Z.to_nat n) f, true);
  file_Skip f n := (drop (Z.to_nat n) f, true)
}.

Definition cut_records : list (bool * bytes) := [(false, [1; 2; 3]); (true, []); (false, [4; 5])].

(** A log of three records that ends within the last one. *)
Lemma log_survives_cut_witness :
  ∃ w : Writer bytes, write_all id (λ _ _, 0) (Writer_make (λ _ _, 0) []) cut_records = Ret (Some (w, true)) ∧ size_of (dest_ w) = 26
    ∧ ∃ r k, read_all (λ _ _, 0) true true 0 4 26 (Reader_make 0 (take 25 (dest_ w))) = Ret (r, take k cut_records.*2) ∧ drops r = [] ∧ (2 <= k)%nat.
Proof.
  destruct (log_survives_cut (F := bytes) (G := bytes) id id (λ _ _, 0) [] cut_records) as (w & Ew & H).
  - split; [intros f data; by exists (f ++ data)|intros f; by exists f].
  - split. intros f n _. by exists (drop (Z.to_nat n) f).
  - by vm_compute.
  - done.
  - repeat constructor; done.
  - exists w. split; [exact Ew|]. vm_compute in Ew. injection Ew as <-. split; [reflexivity|]. set (w := mkWriter _ _ _) in *.
    destruct (H (take 25 (dest_ w)) 25%nat true true) as (r & k & Er & Hd & Hk); [by vm_compute|done|].
    exists r, k. split_and!; [exact Er|done|]. destruct (Hk 2%nat) as (wj & Ej & Hj); [cbn; lia|]. apply Hj. vm_compute in Ej. injection Ej as <-. vm_compute. lia.
Defined.
