(* ===== verification/LruCache.v ===== *)
(** * LruCache: the cache of tables and blocks

    [util/cache.cc].  Entries live in a heap; the two circular lists are linked
    through the [next] and [prev] members as in the source, the chains of the
    hash table are lists.  The list heads have the addresses 0 and 1. *)

From S2P Require Import Prelude Coding Comparator NovaCommon DbFormat Bloom.

Section lru.
Context {V : Type}.

Record LRUHandle := mkEntry {
  e_value : V;
  e_charge : Z;
  e_key : bytes;
  e_in_cache : bool;
  e_refs : Z;
  e_hash : Z
}.

Record HandleTable := mkHandleTable { length_ : Z; elems_ : Z; list_ : list (list Z) }.

(** [LRUCache]; [c_deleted] records the calls of the deleters. *)
Record LRUCache := mkCache {
  c_heap : gmap Z LRUHandle;
  c_next : gmap Z Z;
  c_prev : gmap Z Z;
  c_table : HandleTable;
  c_capacity : Z;
  c_usage : Z;
  c_deleted : list (bytes * V)
}.

Definition lru_ : Z := 0.
Definition in_use_ : Z := 1.

Definition set_heap (c : LRUCache) (h : gmap Z LRUHandle) : LRUCache :=
  mkCache h (c_next c) (c_prev c) (c_table c) (c_capacity c) (c_usage c) (c_deleted c).
Definition set_links (c : LRUCache) (n p : gmap Z Z) : LRUCache :=
  mkCache (c_heap c) n p (c_table c) (c_capacity c) (c_usage c) (c_deleted c).
Definition set_table (c : LRUCache) (t : HandleTable) : LRUCache :=
  mkCache (c_heap c) (c_next c) (c_prev c) t (c_capacity c) (c_usage c) (c_deleted c).
Definition set_usage (c : LRUCache) (u : Z) : LRUCache :=
  mkCache (c_heap c) (c_next c) (c_prev c) (c_table c) (c_capacity c) u (c_deleted c).
Definition set_refs (e : LRUHandle) (in_cache : bool) (n : Z) : LRUHandle :=
  mkEntry (e_value e) (e_charge e) (e_key e) in_cache n (e_hash e).

(** [*e]: a freed entry has no contents. *)
Definition entry (c : LRUCache) (e : Z) : res LRUHandle :=
  match c_heap c !! e with Some h => Ret h | None => Abort end.

Definition next_of (c : LRUCache) (e : Z) : res Z := match c_next c !! e with Some n => Ret n | None => Abort end.
Definition prev_of (c : LRUCache) (e : Z) : res Z := match c_prev c !! e with Some p => Ret p | None => Abort end.

(** [LRUHandle::key]. *)
Definition key_of (c : LRUCache) (e : Z) : res bytes :=
  if decide (c_next c !! e = Some e) then Abort else h ← entry c e; Ret (e_key h).

(** ** The hash table *)

(** [FindPointer] in a chain: the position of the entry, or the end. *)
Fixpoint FindPointer (c : LRUCache) (chain : list Z) (key : bytes) (hash : Z) (pos : nat) : res nat :=
  match chain with
  | [] => Ret pos
  | e :: chain =>
      h ← entry c e;
      if decide (e_hash h ≠ hash) then FindPointer c chain key hash (S pos)
      else
        k ← key_of c e;
        if decide (key = k) then Ret pos else FindPointer c chain key hash (S pos)
  end.

Definition bucket (t : HandleTable) (hash : Z) : nat := Z.to_nat (Z.land hash (w32 (length_ t - 1))).

Definition Table_Lookup (c : LRUCache) (key : bytes) (hash : Z) : res (option Z) :=
  match list_ (c_table c) !! bucket (c_table c) hash with
  | None => Abort
  | Some chain => pos ← FindPointer c chain key hash 0; Ret (chain !! pos)
  end.

(** [while (new_length < elems_) new_length *= 2]; without fuel the loop does
    not end. *)
Fixpoint new_length (fuel : nat) (n elems : Z) : res Z :=
  match fuel with
  | O => Abort
  | S fuel => if decide (n < elems) then new_length fuel (w32 (n * 2)) elems else Ret n
  end.

(** Moves the entries of a chain to their new chains. *)
Fixpoint rehash (c : LRUCache) (n : Z) (new_list : list (list Z)) (chain : list Z) : res (list (list Z)) :=
  match chain with
  | [] => Ret new_list
  | e :: chain =>
      h ← entry c e;
      let i := Z.to_nat (Z.land (e_hash h) (w32 (n - 1))) in
      match new_list !! i with
      | None => Abort
      | Some l => rehash c n (<[i := e :: l]> new_list) chain
      end
  end.

Definition Resize (c : LRUCache) : res LRUCache :=
  let t := c_table c in
  n ← new_length 32 4 (elems_ t);
  new_list ← rehash c n (replicate (Z.to_nat n) []) (concat (list_ t));
  if decide (elems_ t = size_of (concat (list_ t))) then Ret (set_table c (mkHandleTable n (elems_ t) new_list)) else Abort.

Definition Table_Insert (c : LRUCache) (e : Z) : res (LRUCache * option Z) :=
  let t := c_table c in
  h ← entry c e;
  key ← key_of c e;
  match list_ t !! bucket t (e_hash h) with
  | None => Abort
  | Some chain =>
      pos ← FindPointer c chain key (e_hash h) 0;
      match chain !! pos with
      | Some old =>
          Ret (set_table c (mkHandleTable (length_ t) (elems_ t) (<[bucket t (e_hash h) := <[pos := e]> chain]> (list_ t))), Some old)
      | None =>
          let elems := w32 (elems_ t + 1) in
          let c := set_table c (mkHandleTable (length_ t) elems (<[bucket t (e_hash h) := chain ++ [e]]> (list_ t))) in
          c ← (if decide (elems > length_ t) then Resize c else Ret c);
          Ret (c, None)
      end
  end.

Definition Table_Remove (c : LRUCache) (key : bytes) (hash : Z) : res (LRUCache * option Z) :=
  let t := c_table c in
  match list_ t !! bucket t hash with
  | None => Abort
  | Some chain =>
      pos ← FindPointer c chain key hash 0;
      match chain !! pos with
      | Some e =>
          Ret (set_table c (mkHandleTable (length_ t) (w32 (elems_ t - 1)) (<[bucket t hash := delete pos chain]> (list_ t))), Some e)
      | None => Ret (c, None)
      end
  end.

(** ** The lists *)

Definition LRU_Remove (c : LRUCache) (e : Z) : res LRUCache :=
  n ← next_of c e;
  p ← prev_of c e;
  let c := set_links c (c_next c) (<[n := p]> (c_prev c)) in
  n ← next_of c e;
  p ← prev_of c e;
  Ret (set_links c (<[p := n]> (c_next c)) (c_prev c)).

Definition LRU_Append (c : LRUCache) (list e : Z) : res LRUCache :=
  let c := set_links c (<[e := list]> (c_next c)) (c_prev c) in
  p ← prev_of c list;
  let c := set_links c (c_next c) (<[e := p]> (c_prev c)) in
  p ← prev_of c e;
  let c := set_links c (<[p := e]> (c_next c)) (c_prev c) in
  n ← next_of c e;
  Ret (set_links c (c_next c) (<[n := e]> (c_prev c))).

(** ** References *)

Definition Ref (c : LRUCache) (e : Z) : res LRUCache :=
  h ← entry c e;
  c ← (if bool_decide (e_refs h = 1) && e_in_cache h then c ← LRU_Remove c e; LRU_Append c in_use_ e else Ret c);
  Ret (set_heap c (<[e := set_refs h (e_in_cache h) (w32 (e_refs h + 1))]> (c_heap c))).

Definition Unref (c : LRUCache) (e : Z) : res LRUCache :=
  h ← entry c e;
  if decide (e_refs h > 0) then
    let h := set_refs h (e_in_cache h) (e_refs h - 1) in
    let c := set_heap c (<[e := h]> (c_heap c)) in
    if decide (e_refs h = 0) then
      if e_in_cache h then Abort
      else
        key ← key_of c e;
        Ret (mkCache (delete e (c_heap c)) (c_next c) (c_prev c) (c_table c) (c_capacity c) (c_usage c)
               (c_deleted c ++ [(key, e_value h)]))
    else if e_in_cache h && bool_decide (e_refs h = 1) then c ← LRU_Remove c e; LRU_Append c lru_ e
    else Ret c
  else Abort.

(** ** Operations *)

Definition Cache_Lookup (c : LRUCache) (key : bytes) (hash : Z) : res (LRUCache * option Z) :=
  r ← Table_Lookup c key hash;
  match r with
  | None => Ret (c, None)
  | Some e => c ← Ref c e; Ret (c, Some e)
  end.

Definition Cache_Release (c : LRUCache) (e : Z) : res LRUCache := Unref c e.

Definition FinishErase (c : LRUCache) (r : option Z) : res (LRUCache * bool) :=
  match r with
  | None => Ret (c, false)
  | Some e =>
      h ← entry c e;
      if e_in_cache h then
        c ← LRU_Remove c e;
        let c := set_heap c (<[e := set_refs h false (e_refs h)]> (c_heap c)) in
        let c := set_usage c (w64 (c_usage c - e_charge h)) in
        c ← Unref c e;
        Ret (c, true)
      else Abort
  end.

Definition Cache_Erase (c : LRUCache) (key : bytes) (hash : Z) : res LRUCache :=
  '(c, r) ← Table_Remove c key hash;
  '(c, _) ← FinishErase c r;
  Ret c.

(** The body of the loops of [Insert] and [Prune]. *)
Definition evict_oldest (c : LRUCache) (old : Z) : res LRUCache :=
  h ← entry c old;
  if decide (e_refs h = 1) then
    key ← key_of c old;
    '(c, r) ← Table_Remove c key (e_hash h);
    '(c, erased) ← FinishErase c r;
    if (erased : bool) then Ret c else Abort
  else Abort.

(** [over] is the condition on the usage. *)
Fixpoint evict (over : LRUCache → bool) (fuel : nat) (c : LRUCache) : res LRUCache :=
  match fuel with
  | O => Abort
  | S fuel =>
      old ← next_of c lru_;
      if over c && bool_decide (old ≠ lru_) then c ← evict_oldest c old; evict over fuel c else Ret c
  end.

(** [Insert]; [malloc] returns the address [e]. *)
Definition Cache_Insert (c : LRUCache) (e : Z) (key : bytes) (hash : Z) (value : V) (charge : Z) : res LRUCache :=
  c ← (
    if decide (c_capacity c > 0) then
      let c := set_heap c (<[e := mkEntry value charge key true 2 hash]> (c_heap c)) in
      c ← LRU_Append c in_use_ e;
      let c := set_usage c (w64 (c_usage c + charge)) in
      '(c, old) ← Table_Insert c e;
      '(c, _) ← FinishErase c old;
      Ret c
    else
      let c := set_heap c (<[e := mkEntry value charge key false 1 hash]> (c_heap c)) in
      Ret (set_links c (delete e (c_next c)) (c_prev c)));
  evict (λ c, bool_decide (c_usage c > c_capacity c)) (S (size (c_heap c))) c.

Definition Cache_Prune (c : LRUCache) : res LRUCache := evict (λ _, true) (S (size (c_heap c))) c.

(** [~LRUCache]. *)
Fixpoint destroy_loop (fuel : nat) (c : LRUCache) (e : Z) : res LRUCache :=
  match fuel with
  | O => Abort
  | S fuel =>
      if decide (e = lru_) then Ret c
      else
        next ← next_of c e;
        h ← entry c e;
        if e_in_cache h then
          let c := set_heap c (<[e := set_refs h false (e_refs h)]> (c_heap c)) in
          if decide (e_refs h = 1) then c ← Unref c e; destroy_loop fuel c next else Abort
        else Abort
  end.

Definition Cache_destroy (c : LRUCache) : res LRUCache :=
  n ← next_of c in_use_;
  if decide (n = in_use_) then e ← next_of c lru_; destroy_loop (S (size (c_heap c))) c e else Abort.

(** The constructor with [SetCapacity]; [Resize] makes the first table. *)
Definition LRUCache_make (capacity : Z) : res LRUCache :=
  Resize (mkCache ∅ {[ lru_ := lru_; in_use_ := in_use_ ]} {[ lru_ := lru_; in_use_ := in_use_ ]} (mkHandleTable 0 0 []) capacity 0 []).
End lru.
Arguments LRUHandle : clear implicits.
Arguments LRUCache : clear implicits.

(** ** The sharded cache *)

Section sharded.
Context {V : Type}.

Definition kNumShardBits : Z := 8.
Definition kNumShards : Z := 1 ≪ kNumShardBits.

Record ShardedLRUCache := mkSharded { shard_ : list (LRUCache V); last_id_ : Z }.

Definition Shard (hash : Z) : nat := Z.to_nat (hash ≫ (32 - kNumShardBits)).

Definition NewLRUCache (capacity : Z) : res ShardedLRUCache :=
  c ← LRUCache_make (w64 (capacity + (kNumShards - 1)) / kNumShards);
  Ret (mkSharded (replicate (Z.to_nat kNumShards) c) 0).

(** An operation on the shard with this index. *)
Definition on_shard {A} (s : ShardedLRUCache) (i : nat) (f : LRUCache V → res (LRUCache V * A)) : res (ShardedLRUCache * A) :=
  match shard_ s !! i with
  | None => Abort
  | Some c => '(c, r) ← f c; Ret (mkSharded (<[i := c]> (shard_ s)) (last_id_ s), r)
  end.

Definition Sharded_Insert (s : ShardedLRUCache) (e : Z) (key : bytes) (value : V) (charge : Z) : res (ShardedLRUCache * Z) :=
  let hash := Hash key 0 in
  on_shard s (Shard hash) (λ c, c ← Cache_Insert c e key hash value charge; Ret (c, e)).

Definition Sharded_Lookup (s : ShardedLRUCache) (key : bytes) : res (ShardedLRUCache * option Z) :=
  let hash := Hash key 0 in on_shard s (Shard hash) (λ c, Cache_Lookup c key hash).

Definition Sharded_Erase (s : ShardedLRUCache) (key : bytes) : res ShardedLRUCache :=
  let hash := Hash key 0 in
  '(s, _) ← on_shard s (Shard hash) (λ c, c ← Cache_Erase c key hash; Ret (c, tt)); Ret s.

(** [*handle]: the entry is in the memory of one of the shards. *)
Definition handle_entry (s : ShardedLRUCache) (handle : Z) : res (LRUHandle V) :=
  match omap (λ c : LRUCache V, c_heap c !! handle) (shard_ s) with h :: _ => Ret h | [] => Abort end.

Definition Sharded_Release (s : ShardedLRUCache) (handle : Z) : res ShardedLRUCache :=
  h ← handle_entry s handle;
  '(s, _) ← on_shard s (Shard (e_hash h)) (λ c, c ← Cache_Release c handle; Ret (c, tt)); Ret s.

Definition Sharded_Value (s : ShardedLRUCache) (handle : Z) : res V := h ← handle_entry s handle; Ret (e_value h).

Definition NewId (s : ShardedLRUCache) : ShardedLRUCache * Z :=
  let id := w64 (last_id_ s + 1) in (mkSharded (shard_ s) id, id).

Fixpoint prune_all (l : list (LRUCache V)) : res (list (LRUCache V)) :=
  match l with [] => Ret [] | c :: l => c ← Cache_Prune c; l ← prune_all l; Ret (c :: l) end.

Definition Sharded_Prune (s : ShardedLRUCache) : res ShardedLRUCache :=
  l ← prune_all (shard_ s); Ret (mkSharded l (last_id_ s)).

Definition TotalCharge (s : ShardedLRUCache) : Z := foldl (λ total c, w64 (total + c_usage c)) 0 (shard_ s).
Definition TotalCapacity (s : ShardedLRUCache) : Z := foldl (λ total c, w64 (total + c_capacity c)) 0 (shard_ s).
End sharded.
Arguments ShardedLRUCache : clear implicits.

(** ** Circular lists *)

(** Neighbours in the list point to each other. *)
Fixpoint linked (n p : gmap Z Z) (l : list Z) : Prop :=
  match l with
  | a :: (b :: _) as l' => n !! a = Some b ∧ p !! b = Some a ∧ linked n p l'
  | _ => True
  end.

Definition ring (n p : gmap Z Z) (h : Z) (l : list Z) : Prop := linked n p (h :: l ++ [h]).

Lemma linked_app n p l1 x l2 : linked n p (l1 ++ x :: l2) ↔ linked n p (l1 ++ [x]) ∧ linked n p (x :: l2).
Proof.
  induction l1 as [|a l1 IH]; [cbn; tauto|]. destruct l1 as [|b l1]; [cbn; tauto|].
  change ((a :: b :: l1) ++ x :: l2) with (a :: (b :: l1) ++ x :: l2).
  change ((a :: b :: l1) ++ [x]) with (a :: (b :: l1) ++ [x]). cbn [linked app] in IH |- *. tauto.
Qed.

Lemma linked_pair n p a b : linked n p [a; b] ↔ n !! a = Some b ∧ p !! b = Some a.
Proof. cbn. tauto. Qed.

(** Changes elsewhere do not matter. *)
Lemma linked_frame n p n' p' l :
  linked n p l → (∀ a l1 l2, l = l1 ++ a :: l2 → l2 ≠ [] → n' !! a = n !! a) →
  (∀ b l1 l2, l = l1 ++ b :: l2 → l1 ≠ [] → p' !! b = p !! b) → linked n' p' l.
Proof.
  induction l as [|a l IH]; intros Hl Hn Hp; [done|]. destruct l as [|b l]; [done|]. destruct Hl as (H1 & H2 & H3).
  split; [rewrite (Hn a [] (b :: l)); done|]. split; [rewrite (Hp b [a] l); done|]. apply IH; [done|..].
  - intros x l1 l2 E. apply (Hn x (a :: l1) l2). by rewrite E.
  - intros x l1 l2 E Hne. apply (Hp x (a :: l1) l2); [by rewrite E|done].
Qed.

(** The same, with the sources and the targets of the links. *)
Lemma linked_same n p n' p' l l' y x l'' :
  l = l' ++ [y] → l = x :: l'' → (∀ a, a ∈ l' → n' !! a = n !! a) → (∀ b, b ∈ l'' → p' !! b = p !! b) →
  linked n p l → linked n' p' l.
Proof.
  intros E1 E2 Hn Hp Hl. eapply linked_frame; [exact Hl|..].
  - intros a l1 l2 E Hne. apply Hn. destruct (exists_last Hne) as (l3 & z & ->). rewrite E1 in E.
    change (l1 ++ a :: l3 ++ [z]) with (l1 ++ (a :: l3) ++ [z]) in E. rewrite app_assoc in E. apply app_inj_tail in E as [-> _]. elem.
  - intros b l1 l2 E Hne. apply Hp. destruct l1 as [|z l1]; [done|]. rewrite E2 in E. injection E as -> ->. elem.
Qed.

Lemma snoc_or_nil {A} (x : A) (l : list A) : ∃ l' y, x :: l = l' ++ [y].
Proof. destruct (exists_last (l := x :: l)) as (l' & y & E); [done|]. by exists l', y. Qed.

Lemma cons_snoc_split (h : Z) l : ∃ m t, l ++ [h] = m :: t.
Proof. destruct l as [|m l]; [by exists h, []|by exists m, (l ++ [h])]. Qed.

Section rings.
Context {V : Type}.
Implicit Types (c : LRUCache V).

(** [LRU_Remove] takes the entry out of its list. *)
Lemma LRU_Remove_ok c h l1 e l2 :
  ring (c_next c) (c_prev c) h (l1 ++ e :: l2) → NoDup (h :: l1 ++ e :: l2) →
  ∃ pe ne, LRU_Remove c e = Ret (set_links c (<[pe := ne]> (c_next c)) (<[ne := pe]> (c_prev c)))
    ∧ pe ∈ h :: l1 ∧ ne ∈ l2 ++ [h]
    ∧ ring (<[pe := ne]> (c_next c)) (<[ne := pe]> (c_prev c)) h (l1 ++ l2).
Proof.
  intros Hr Hnd. unfold ring in *. destruct (snoc_or_nil h l1) as (A & pe & EA). destruct (cons_snoc_split h l2) as (ne & B & EB).
  assert (h :: (l1 ++ e :: l2) ++ [h] = A ++ pe :: e :: ne :: B) as E.
  { rewrite <- app_assoc. cbn. rewrite EB. change (h :: l1 ++ e :: ne :: B) with ((h :: l1) ++ e :: ne :: B). by rewrite EA, <- app_assoc. }
  rewrite E in Hr. apply linked_app in Hr as [HA Hr]. destruct Hr as (N1 & P1 & Hr). destruct Hr as (N2 & P2 & HB).
  assert (∀ x, x ∈ h :: l1 ↔ x ∈ A ∨ x = pe) as HinA by (intros x; rewrite EA; set_solver).
  assert (NoDup (A ++ [pe])) as HndA by (rewrite <- EA; eapply sublist_NoDup; [exact Hnd|by apply sublist_skip, sublist_inserts_r]).
  apply NoDup_cons in Hnd as [Hh Hnd]. apply NoDup_app in Hnd as (Hnd1 & Hd & [He Hnd2]%NoDup_cons).
  assert (pe ∉ A) as HpA by (apply NoDup_app in HndA as (_ & H & _); intros Hx; apply (H _ Hx); elem).
  assert (pe ∈ h :: l1) as Hpe by (apply HinA; by right).
  assert (pe ∉ l2 ∧ pe ≠ e) as [Hpl Hpne] by set_solver.
  assert (∀ x, x ∈ l2 ++ [h] ↔ x = ne ∨ x ∈ B) as HinB by (intros x; rewrite EB; set_solver).
  assert (ne ∈ l2 ++ [h]) as Hne by (apply HinB; by left). assert (ne ≠ e) as Hnne by set_solver.
  exists pe, ne. unfold LRU_Remove, next_of, prev_of. rewrite N2, P1. cbn [mbind res_bind set_links c_next c_prev].
  rewrite N2, lookup_insert_ne, P1 by done. cbn [mbind res_bind]. split; [done|]. split; [done|]. split; [done|].
  assert (h :: (l1 ++ l2) ++ [h] = A ++ pe :: ne :: B) as ->.
  { rewrite <- app_assoc, EB. change (h :: l1 ++ ne :: B) with ((h :: l1) ++ ne :: B). by rewrite EA, <- app_assoc. }
  apply linked_app. split; [|split; [by rewrite lookup_insert_eq|split; [by rewrite lookup_insert_eq|]]].
  - eapply (linked_same _ _ _ _ _ A pe h l1); [done|done| | |exact HA].
    + intros a Ha. rewrite lookup_insert_ne; [done|]. by intros ->.
    + intros b Hb. rewrite lookup_insert_ne; [done|]. intros ->. set_solver.
  - eapply (linked_same _ _ _ _ _ l2 h ne B); [done|done| | |exact HB].
    + intros a Ha. rewrite lookup_insert_ne; [done|]. by intros ->.
    + intros b Hb. rewrite lookup_insert_ne; [done|]. intros ->.
      destruct l2 as [|m l2]; cbn in EB; injection EB as <- <-; [by apply not_elem_of_nil in Hb|].
      apply NoDup_cons in Hnd2 as [Hm _]. set_solver.
Qed.

(** [LRU_Append] puts it at the end of the list. *)
Lemma LRU_Append_ok c h l e :
  ring (c_next c) (c_prev c) h l → NoDup (h :: l) → e ∉ h :: l →
  ∃ pe, LRU_Append c h e = Ret (set_links c (<[pe := e]> (<[e := h]> (c_next c))) (<[h := e]> (<[e := pe]> (c_prev c))))
    ∧ pe ∈ h :: l
    ∧ ring (<[pe := e]> (<[e := h]> (c_next c))) (<[h := e]> (<[e := pe]> (c_prev c))) h (l ++ [e]).
Proof.
  intros Hr Hnd He. unfold ring in *. destruct (snoc_or_nil h l) as (A & pe & EA).
  assert (h :: l ++ [h] = A ++ pe :: [h]) as E.
  { change (h :: l ++ [h]) with ((h :: l) ++ [h]). by rewrite EA, <- app_assoc. }
  rewrite E in Hr. apply linked_app in Hr as [HA [N P]%linked_pair].
  assert (NoDup (A ++ [pe])) as HndA by (by rewrite <- EA).
  assert (pe ∉ A) as HpA by (apply NoDup_app in HndA as (_ & H & _); intros Hx; apply (H _ Hx); elem).
  assert (pe ∈ h :: l) as Hpe by (rewrite EA; elem). assert (pe ≠ e) as Hpne by (by intros ->).
  assert (h ≠ e) as Hhe by (intros ->; set_solver).
  exists pe. unfold LRU_Append, next_of, prev_of. cbn [mbind res_bind set_links c_next c_prev]. rewrite P. cbn [mbind res_bind set_links c_next c_prev].
  rewrite lookup_insert_eq. cbn [mbind res_bind set_links c_next c_prev].
  rewrite lookup_insert_ne, lookup_insert_eq by done. cbn [mbind res_bind]. split; [done|]. split; [done|].
  assert (h :: (l ++ [e]) ++ [h] = A ++ pe :: [e; h]) as ->.
  { rewrite <- app_assoc. cbn. change (h :: l ++ [e; h]) with ((h :: l) ++ [e; h]). by rewrite EA, <- app_assoc. }
  apply linked_app. split; [|split; [by rewrite lookup_insert_eq|split; [by rewrite lookup_insert_ne, lookup_insert_eq|]]].
  - eapply (linked_same _ _ _ _ _ A pe h l); [done|done| | |exact HA].
    + intros a Ha. rewrite !lookup_insert_ne; [done|..]; intros ->; [|done]. apply He. rewrite EA. elem.
    + intros b Hb. apply NoDup_cons in Hnd as [Hh _]. rewrite !lookup_insert_ne; [done|..]; intros ->; [|done]. apply He. elem.
  - split; [by rewrite lookup_insert_ne, lookup_insert_eq by done|]. split; [by rewrite lookup_insert_eq|done].
Qed.

(** A list keeps its links when nodes of another one change. *)
Lemma ring_other n p n' p' h l :
  ring n p h l → (∀ a, a ∈ h :: l → n' !! a = n !! a ∧ p' !! a = p !! a) → ring n' p' h l.
Proof.
  intros Hr Ha. eapply (linked_same _ _ _ _ _ (h :: l) h h (l ++ [h])); [done|done| | |exact Hr].
  - intros a Hin. by apply Ha.
  - intros b Hin. apply Ha. set_solver.
Qed.
End rings.

(** ** The hash table is a map *)

Section table.
Context {V : Type}.
Implicit Types (c : LRUCache V) (heap : gmap Z (LRUHandle V)).

(** What an entry is found by. *)
Definition kh heap (e : Z) : option (bytes * Z) := (λ h, (e_key h, e_hash h)) <$> heap !! e.

Definition find_kh heap (T : list Z) (key : bytes) (hash : Z) : option Z :=
  head (filter (λ e, kh heap e = Some (key, hash)) T).

(** The table holds the entries [T]. *)
Record table_ok heap (t : HandleTable) (T : list Z) : Prop := {
  tk_length : ∃ k, 2 <= k <= 31 ∧ length_ t = 2 ^ k ∧ length (list_ t) = Z.to_nat (2 ^ k);
  tk_elems : elems_ t = size_of T;
  tk_entries : concat (list_ t) ≡ₚ T;
  tk_buckets : ∀ i chain e, list_ t !! i = Some chain → e ∈ chain →
    ∃ key hash, kh heap e = Some (key, hash) ∧ bucket t hash = i
}.

Definition unique_keys heap (T : list Z) : Prop := ∀ e e', e ∈ T → e' ∈ T → kh heap e = kh heap e' → e = e'.

Lemma bucket_range t k hash : length_ t = 2 ^ k → 2 <= k <= 31 → (bucket t hash < Z.to_nat (2 ^ k))%nat.
Proof.
  intros Hl Hk. unfold bucket. rewrite Hl.
  assert (2 ^ k <= 2 ^ 31) by (apply Z.pow_le_mono_r; lia). assert (2 ^ 2 <= 2 ^ k) by (apply Z.pow_le_mono_r; lia).
  rewrite w32_small by (unfold is_u32; change (2 ^ 31) with 2147483648 in *; change (2 ^ 32) with 4294967296; change (2 ^ 2) with 4 in *; lia).
  rewrite land_pow2_ones by lia. pose proof (Z.mod_pos_bound hash (2 ^ k) ltac:(lia)). lia.
Qed.

Lemma bucket_chain heap t T hash : table_ok heap t T → is_Some (list_ t !! bucket t hash).
Proof.
  intros [(k & Hk & Hl & Hll) _ _ _]. apply lookup_lt_is_Some_2. rewrite Hll. by apply bucket_range.
Qed.

Lemma FindPointer_ok c chain key hash pos :
  (∀ e, e ∈ chain → is_Some (c_heap c !! e) ∧ c_next c !! e ≠ Some e) →
  ∃ n, FindPointer c chain key hash pos = Ret (pos + n)%nat
    ∧ ((chain !! n = None ∧ ∀ e, e ∈ chain → kh (c_heap c) e ≠ Some (key, hash))
       ∨ ∃ e, chain !! n = Some e ∧ kh (c_heap c) e = Some (key, hash)).
Proof.
  revert pos. induction chain as [|e chain IH]; intros pos Hc; cbn [FindPointer].
  { exists 0%nat. rewrite Nat.add_0_r. split; [done|]. left. split; [done|]. by intros e ?%not_elem_of_nil. }
  destruct (Hc e) as [[h Hh] Hn]; [by left|]. unfold entry. rewrite Hh. cbn [mbind res_bind].
  assert (kh (c_heap c) e = Some (e_key h, e_hash h)) as Ek by (unfold kh; by rewrite Hh).
  assert (kh (c_heap c) e ≠ Some (key, hash) → ∃ n, FindPointer c chain key hash (S pos) = Ret (pos + n)%nat
    ∧ (((e :: chain) !! n = None ∧ ∀ x, x ∈ e :: chain → kh (c_heap c) x ≠ Some (key, hash))
       ∨ ∃ x, (e :: chain) !! n = Some x ∧ kh (c_heap c) x = Some (key, hash))) as Hrest.
  { intros Hne. destruct (IH (S pos)) as (n & E & Hn'); [intros x Hx; apply Hc; by right|].
    exists (S n). rewrite E. split; [f_equal; lia|]. destruct Hn' as [[H1 H2]|(x & H1 & H2)]; [left|right; by exists x].
    split; [done|]. intros x [->|Hx]%elem_of_cons; [done|by apply H2]. }
  case_decide as Hhash; [apply Hrest; rewrite Ek; congruence|]. unfold key_of. rewrite decide_False by done.
  unfold entry. rewrite Hh. cbn [mbind res_bind]. case_decide as Hkey; [|apply Hrest; rewrite Ek; congruence].
  exists 0%nat. rewrite Nat.add_0_r. split; [done|]. right. exists e. split; [done|]. rewrite Ek. congruence.
Qed.

Lemma find_kh_some heap T key hash e :
  unique_keys heap T → e ∈ T → kh heap e = Some (key, hash) → find_kh heap T key hash = Some e.
Proof.
  intros Hu He Ek. unfold find_kh. destruct (filter _ T) as [|x l] eqn:Ef.
  - assert (e ∈ filter (λ e, kh heap e = Some (key, hash)) T) as Hin by (by apply list_elem_of_filter). rewrite Ef in Hin. by apply not_elem_of_nil in Hin.
  - assert (x ∈ filter (λ e, kh heap e = Some (key, hash)) T) as [Hx Hin]%list_elem_of_filter by (rewrite Ef; by left).
    cbn. f_equal. apply Hu; [done|done|congruence].
Qed.

Lemma find_kh_none heap T key hash : (∀ e, e ∈ T → kh heap e ≠ Some (key, hash)) → find_kh heap T key hash = None.
Proof. intros H. unfold find_kh. rewrite filter_none; [done|]. apply Forall_forall. exact H. Qed.

Lemma find_kh_inv heap T key hash e : find_kh heap T key hash = Some e → e ∈ T ∧ kh heap e = Some (key, hash).
Proof.
  unfold find_kh. destruct (filter _ T) as [|x l] eqn:Ef; [done|]. intros [= ->].
  assert (e ∈ filter (λ e, kh heap e = Some (key, hash)) T) as [Hx Hin]%list_elem_of_filter by (rewrite Ef; by left). done.
Qed.

(** [FindPointer] in the chain of a hash finds the entry of the table. *)
Lemma FindPointer_table c T key hash chain :
  table_ok (c_heap c) (c_table c) T → unique_keys (c_heap c) T → (∀ e, e ∈ T → c_next c !! e ≠ Some e) →
  list_ (c_table c) !! bucket (c_table c) hash = Some chain →
  ∃ n, FindPointer c chain key hash 0 = Ret n ∧ chain !! n = find_kh (c_heap c) T key hash.
Proof.
  intros Ht Hu Hn Hc. assert (∀ e, e ∈ chain → e ∈ T) as HT.
  { intros e He. rewrite <- (tk_entries _ _ _ Ht). apply elem_of_concat. exists chain. split; [done|]. by eapply list_elem_of_lookup_2. }
  destruct (FindPointer_ok c chain key hash 0) as (n & E & Hf).
  { intros e He. split; [|by apply Hn, HT]. destruct (tk_buckets _ _ _ Ht _ _ _ Hc He) as (k & h & Ek & _).
    unfold kh in Ek. by destruct (c_heap c !! e). }
  exists n. split; [done|]. destruct Hf as [[-> Hnone]|(e & He & Ek)].
  - symmetry. apply find_kh_none. intros e He Ek. rewrite <- (tk_entries _ _ _ Ht) in He.
    apply elem_of_concat in He as (chain' & He & (i & Hi)%list_elem_of_lookup).
    destruct (tk_buckets _ _ _ Ht _ _ _ Hi He) as (k & h & Ek' & Hb). rewrite Ek in Ek'. injection Ek' as <- <-.
    rewrite Hb, Hi in Hc. injection Hc as ->. by eapply Hnone.
  - rewrite He. symmetry. apply find_kh_some; [done| |done]. apply HT. by eapply list_elem_of_lookup_2.
Qed.

Lemma Table_Lookup_ok c T key hash :
  table_ok (c_heap c) (c_table c) T → unique_keys (c_heap c) T → (∀ e, e ∈ T → c_next c !! e ≠ Some e) →
  Table_Lookup c key hash = Ret (find_kh (c_heap c) T key hash).
Proof.
  intros Ht Hu Hn. unfold Table_Lookup. destruct (bucket_chain _ _ _ hash Ht) as [chain Hc]. rewrite Hc.
  destruct (FindPointer_table c T key hash chain Ht Hu Hn Hc) as (n & -> & <-). done.
Qed.

(** The entries of one chain and those of the others. *)
Lemma concat_delete {A} (ls : list (list A)) i l : ls !! i = Some l → concat ls ≡ₚ l ++ concat (delete i ls).
Proof.
  intros Hi. rewrite <- (take_drop_middle ls i l Hi) at 1. rewrite delete_take_drop, !concat_app. cbn [concat].
  apply Permutation_app_swap_app.
Qed.

Lemma concat_insert {A} (ls : list (list A)) i l l' : ls !! i = Some l → concat (<[i := l']> ls) ≡ₚ l' ++ concat (delete i ls).
Proof.
  intros Hi. rewrite (concat_delete _ i l') by (apply list_lookup_insert_eq; by eapply lookup_lt_Some).
  rewrite !delete_take_drop, take_insert_ge, drop_insert_lt by lia. done.
Qed.

Lemma delete_perm {A} (l : list A) n x : l !! n = Some x → l ≡ₚ x :: delete n l.
Proof.
  intros Hn. rewrite <- (take_drop_middle l n x Hn) at 1. rewrite delete_take_drop. symmetry. apply Permutation_middle.
Qed.

Lemma insert_perm {A} (l : list A) n x y : l !! n = Some x → <[n := y]> l ≡ₚ y :: delete n l.
Proof.
  intros Hn. rewrite insert_take_drop by (by eapply lookup_lt_Some). rewrite delete_take_drop. symmetry. apply Permutation_middle.
Qed.

(** The entries other than the one found. *)
Definition others heap (T : list Z) (key : bytes) (hash : Z) : list Z := filter (λ e, kh heap e ≠ Some (key, hash)) T.

Lemma others_found heap T key hash e :
  unique_keys heap T → NoDup T → find_kh heap T key hash = Some e → T ≡ₚ e :: others heap T key hash.
Proof.
  intros Hu Hnd [He Ek]%find_kh_inv. apply list_elem_of_split in He as (l1 & l2 & ->). apply NoDup_app in Hnd as (_ & Hd & [He _]%NoDup_cons).
  unfold others. rewrite filter_app, filter_cons_False by (by intros ?). rewrite !filter_all.
  - symmetry. apply Permutation_middle.
  - apply Forall_forall. intros x Hx Ex. rewrite (Hu x e) in Hx; [done|elem|elem|congruence].
  - apply Forall_forall. intros x Hx Ex. rewrite (Hu x e) in Hx; [|elem|elem|congruence]. apply (Hd e Hx). elem.
Qed.

Lemma others_none heap T key hash : find_kh heap T key hash = None → others heap T key hash = T.
Proof.
  unfold find_kh, others. intros Hf. apply filter_all, Forall_forall. intros x Hx Ex.
  assert (x ∈ filter (λ e, kh heap e = Some (key, hash)) T) as Hin by (by apply list_elem_of_filter).
  destruct (filter _ T); [by apply not_elem_of_nil in Hin|done].
Qed.

Lemma Table_Remove_ok c T key hash :
  table_ok (c_heap c) (c_table c) T → unique_keys (c_heap c) T → (∀ e, e ∈ T → c_next c !! e ≠ Some e) → NoDup T → size_of T < 2 ^ 32 →
  ∃ t, Table_Remove c key hash = Ret (set_table c t, find_kh (c_heap c) T key hash)
    ∧ table_ok (c_heap c) t (others (c_heap c) T key hash).
Proof.
  intros Ht Hu Hn Hnd Hsz. unfold Table_Remove. destruct (bucket_chain _ _ _ hash Ht) as [chain Hc]. rewrite Hc.
  destruct (FindPointer_table c T key hash chain Ht Hu Hn Hc) as (n & -> & Hf). cbn [mbind res_bind]. rewrite Hf.
  destruct (find_kh (c_heap c) T key hash) as [e|] eqn:Ef.
  - eexists. split; [done|]. pose proof (others_found _ _ _ _ _ Hu Hnd Ef) as Hp. destruct Ht as [Hl He Hen Hb].
    pose proof (Permutation_length Hp) as Hlen. cbn [length] in Hlen. split; cbn [length_ elems_ list_].
    + destruct Hl as (k & Hk & Hl & Hll). exists k. by rewrite length_insert.
    + rewrite He, Hlen, w32_small; [lia|]. mlia.
    + rewrite (concat_insert _ _ _ _ Hc). rewrite (concat_delete _ _ _ Hc), (delete_perm _ _ _ Hf), Hp in Hen. cbn in Hen.
      by apply Permutation_cons_inv in Hen.
    + intros i ch x Hi Hx. destruct (decide (i = bucket (c_table c) hash)) as [->|Hne].
      * rewrite list_lookup_insert_eq in Hi by (by eapply lookup_lt_Some). injection Hi as <-. eapply Hb; [exact Hc|].
        rewrite (delete_perm _ _ _ Hf). by right.
      * rewrite list_lookup_insert_ne in Hi by done. by eapply Hb.
  - exists (c_table c). rewrite others_none by done. split; [|done]. by destruct c.
Qed.

(** The loop of [Resize] ends at a power of two with room for the entries. *)
Lemma new_length_ok fuel k elems :
  2 <= k → elems <= 2 ^ 31 → (Z.to_nat (32 - k) <= fuel)%nat → k <= 31 →
  ∃ k', new_length fuel (2 ^ k) elems = Ret (2 ^ k') ∧ k <= k' <= 31 ∧ elems <= 2 ^ k'.
Proof.
  revert k. induction fuel as [|fuel IH]; intros k Hk He Hf Hk'; [lia|]. cbn [new_length]. case_decide as Hd; [|exists k; split_and!; done || lia].
  assert (k < 31) by (destruct (decide (k = 31)) as [->|]; lia).
  assert (w32 (2 ^ k * 2) = 2 ^ (k + 1)) as ->.
  { rewrite w32_small, Z.pow_add_r by lia || (split; [lia|]; change (2 ^ k * 2) with (2 ^ k * 2 ^ 1); rewrite <- Z.pow_add_r by lia; apply Z.pow_lt_mono_r; lia). done. }
  destruct (IH (k + 1)) as (k' & -> & Hb & He'); [lia..|]. exists k'. split_and!; done || lia.
Qed.

(** Moving entries to the new chains. *)
Lemma rehash_ok c k new_list l :
  2 <= k <= 31 → length new_list = Z.to_nat (2 ^ k) → (∀ e, e ∈ l → is_Some (c_heap c !! e)) →
  (∀ i chain e, new_list !! i = Some chain → e ∈ chain →
     ∃ key hash, kh (c_heap c) e = Some (key, hash) ∧ Z.to_nat (Z.land hash (w32 (2 ^ k - 1))) = i) →
  ∃ new_list', rehash c (2 ^ k) new_list l = Ret new_list' ∧ length new_list' = Z.to_nat (2 ^ k)
    ∧ concat new_list' ≡ₚ l ++ concat new_list
    ∧ ∀ i chain e, new_list' !! i = Some chain → e ∈ chain →
        ∃ key hash, kh (c_heap c) e = Some (key, hash) ∧ Z.to_nat (Z.land hash (w32 (2 ^ k - 1))) = i.
Proof.
  intros Hk. revert new_list. induction l as [|e l IH]; intros nl Hl Hin Hb; cbn [rehash]; [by exists nl|].
  destruct (Hin e) as [h Hh]; [by left|]. unfold entry. rewrite Hh. cbn [mbind res_bind].
  set (i := Z.to_nat (Z.land (e_hash h) (w32 (2 ^ k - 1)))).
  assert (i < Z.to_nat (2 ^ k))%nat as Hi by (by apply (bucket_range (mkHandleTable (2 ^ k) 0 []) k)).
  destruct (lookup_lt_is_Some_2 nl i) as [ch Hch]; [by rewrite Hl|]. rewrite Hch.
  destruct (IH (<[i := e :: ch]> nl)) as (nl' & E & Hl' & Hp & Hb').
  - by rewrite length_insert.
  - intros x Hx. apply Hin. by right.
  - intros j chain x Hj Hx. destruct (decide (j = i)) as [->|Hne]; [|rewrite list_lookup_insert_ne in Hj by done; by eapply Hb].
    rewrite list_lookup_insert_eq in Hj by (by rewrite Hl). injection Hj as <-. apply elem_of_cons in Hx as [->|Hx]; [|by eapply Hb].
    exists (e_key h), (e_hash h). unfold kh. by rewrite Hh.
  - exists nl'. split; [done|]. split; [done|]. split; [|done]. rewrite Hp, (concat_insert _ _ _ _ Hch), (concat_delete _ _ _ Hch).
    cbn. by rewrite <- Permutation_middle.
Qed.

Lemma Resize_ok c T :
  elems_ (c_table c) = size_of T → concat (list_ (c_table c)) ≡ₚ T → (∀ e, e ∈ T → is_Some (c_heap c !! e)) → size_of T <= 2 ^ 31 →
  ∃ t, Resize c = Ret (set_table c t) ∧ table_ok (c_heap c) t T.
Proof.
  intros He Hp Hin Hsz. unfold Resize.
  destruct (new_length_ok 32 2 (elems_ (c_table c))) as (k & E & Hk & Hle); [lia|by rewrite He|lia|lia|].
  change (2 ^ 2) with 4 in E. rewrite E. cbn [mbind res_bind].
  destruct (rehash_ok c k (replicate (Z.to_nat (2 ^ k)) []) (concat (list_ (c_table c)))) as (nl & -> & Hl & Hpl & Hb).
  - lia.
  - by rewrite length_replicate.
  - intros e Hx. apply Hin. by rewrite <- Hp.
  - intros i chain e [-> _]%lookup_replicate Hx. by apply not_elem_of_nil in Hx.
  - cbn [mbind res_bind]. rewrite (Permutation_length Hp), decide_True by done. eexists. split; [done|].
    assert (concat (replicate (Z.to_nat (2 ^ k)) ([] : list Z)) = []) as En by (generalize (Z.to_nat (2 ^ k)); induction n; done).
    rewrite En, app_nil_r in Hpl. split; cbn [length_ elems_ list_]; [|done|by rewrite Hpl|exact Hb]. exists k. split_and!; done || lia.
Qed.

Lemma Table_Insert_ok c T e h :
  table_ok (c_heap c) (c_table c) T → unique_keys (c_heap c) T → (∀ x, x ∈ e :: T → c_next c !! x ≠ Some x) → NoDup (e :: T) →
  size_of T < 2 ^ 31 → c_heap c !! e = Some h →
  ∃ t, Table_Insert c e = Ret (set_table c t, find_kh (c_heap c) T (e_key h) (e_hash h))
    ∧ table_ok (c_heap c) t (e :: others (c_heap c) T (e_key h) (e_hash h)).
Proof.
  intros Ht Hu Hn [Hne Hnd]%NoDup_cons Hsz Hh. unfold Table_Insert, entry. rewrite Hh. cbn [mbind res_bind].
  unfold key_of at 1. rewrite decide_False by (apply Hn; by left). unfold entry. rewrite Hh. cbn [mbind res_bind].
  destruct (bucket_chain _ _ _ (e_hash h) Ht) as [chain Hc]. rewrite Hc.
  destruct (FindPointer_table c T (e_key h) (e_hash h) chain Ht Hu) as (n & -> & Hf); [intros x Hx; apply Hn; by right|done|].
  cbn [mbind res_bind]. rewrite Hf. assert (kh (c_heap c) e = Some (e_key h, e_hash h)) as Ek by (unfold kh; by rewrite Hh).
  assert (∀ T', (∀ x, x ∈ T' → x ∈ T) → ∀ x, x ∈ e :: T' → is_Some (c_heap c !! x)) as Hheap.
  { intros T' HT' x [->|Hx%HT']%elem_of_cons; [by eexists|]. rewrite <- (tk_entries _ _ _ Ht) in Hx.
    apply elem_of_concat in Hx as (ch & Hx & [i Hi]%list_elem_of_lookup). destruct (tk_buckets _ _ _ Ht _ _ _ Hi Hx) as (? & ? & Ekx & _).
    unfold kh in Ekx. by destruct (c_heap c !! x). }
  destruct (find_kh (c_heap c) T (e_key h) (e_hash h)) as [old|] eqn:Ef.
  - eexists. split; [done|]. pose proof (others_found _ _ _ _ _ Hu Hnd Ef) as Hp. destruct Ht as [Hl He Hen Hb].
    pose proof (Permutation_length Hp) as Hlen. split; cbn [length_ elems_ list_].
    + destruct Hl as (k & Hk & Hl & Hll). exists k. by rewrite length_insert.
    + by rewrite He, Hlen.
    + rewrite (concat_insert _ _ _ _ Hc), (insert_perm _ _ _ e Hf).
      rewrite (concat_delete _ _ _ Hc), (delete_perm _ _ _ Hf), Hp in Hen. cbn in Hen |- *. apply Permutation_cons_inv in Hen. by rewrite Hen.
    + intros i ch x Hi Hx. destruct (decide (i = bucket (c_table c) (e_hash h))) as [->|Hne'].
      * rewrite list_lookup_insert_eq in Hi by (by eapply lookup_lt_Some). injection Hi as <-. rewrite (insert_perm _ _ _ e Hf) in Hx.
        apply elem_of_cons in Hx as [->|Hx]; [by eexists _, _|]. eapply Hb; [exact Hc|]. rewrite (delete_perm _ _ _ Hf). by right.
      * rewrite list_lookup_insert_ne in Hi by done. by eapply Hb.
  - rewrite others_none by done. destruct Ht as [Hl He Hen Hb]. set (t' := mkHandleTable _ _ _).
    assert (elems_ t' = size_of (e :: T)) as He' by (cbn [elems_ t' length]; rewrite He, w32_small; mlia).
    assert (concat (list_ t') ≡ₚ e :: T) as Hp'.
    { cbn [list_ t']. rewrite (concat_insert _ _ _ _ Hc). rewrite (concat_delete _ _ _ Hc) in Hen. rewrite <- Hen, <- app_assoc. cbn. by rewrite <- Permutation_middle. }
    assert (w32 (elems_ (c_table c) + 1) = elems_ t') as -> by done.
    destruct (decide (elems_ t' > length_ (c_table c))) as [Hbig|Hsmall].
    + destruct (Resize_ok (set_table c t') (e :: T) He' Hp') as (t & E & Ht); [by apply Hheap|cbn [length]; lia|].
      rewrite E. cbn [mbind res_bind]. by exists t.
    + cbn [mbind res_bind]. exists t'. split; [done|]. split; [|done|done|].
      * destruct Hl as (k & Hk & Hl & Hll). exists k. cbn [list_ t']. by rewrite length_insert.
      * intros i ch x Hi Hx. cbn [list_ t'] in Hi. destruct (decide (i = bucket (c_table c) (e_hash h))) as [->|Hne'].
        -- rewrite list_lookup_insert_eq in Hi by (by eapply lookup_lt_Some). injection Hi as <-.
           apply elem_of_app in Hx as [Hx| ->%list_elem_of_singleton]; [by eapply Hb|by eexists _, _].
        -- rewrite list_lookup_insert_ne in Hi by done. by eapply Hb.
Qed.
End table.

(** ** What the cache promises

    An entry is live while the cache or a client refers to it.  [a_lru] are the
    cached entries nobody else refers to, oldest first, [a_used] the other
    cached ones, and [a_held] the references of the clients.  Reference counts,
    the table and the links do not appear. *)

Section contract.
Context {V : Type}.

Record info := mkInfo { i_key : bytes; i_hash : Z; i_value : V; i_charge : Z }.

Record lru_spec := mkSpec {
  a_live : gmap Z info;
  a_lru : list Z;
  a_used : list Z;
  a_held : list Z;
  a_deleted : list (bytes * V)
}.

Definition cached (a : lru_spec) : list Z := a_lru a ++ a_used a.

Definition spec_find (a : lru_spec) (key : bytes) (hash : Z) : option Z :=
  head (filter (λ e, (λ i, (i_key i, i_hash i)) <$> a_live a !! e = Some (key, hash)) (cached a)).

Definition total_charge (live : gmap Z info) (l : list Z) : Z :=
  foldr (λ e acc, from_option i_charge 0 (live !! e) + acc) 0 l.

(** An entry that nobody refers to goes to its deleter. *)
Definition spec_free (a : lru_spec) (e : Z) : lru_spec :=
  if decide (e ∈ cached a ∨ e ∈ a_held a) then a
  else mkSpec (delete e (a_live a)) (a_lru a) (a_used a) (a_held a)
         (a_deleted a ++ match a_live a !! e with Some i => [(i_key i, i_value i)] | None => [] end).

Definition without (e : Z) (l : list Z) : list Z := filter (λ x, x ≠ e) l.

Definition spec_uncache (a : lru_spec) (e : Z) : lru_spec :=
  spec_free (mkSpec (a_live a) (without e (a_lru a)) (without e (a_used a)) (a_held a) (a_deleted a)) e.

Definition spec_lookup (a : lru_spec) (key : bytes) (hash : Z) : lru_spec * option Z :=
  match spec_find a key hash with
  | None => (a, None)
  | Some e =>
      let used := if decide (e ∈ a_lru a) then a_used a ++ [e] else a_used a in
      (mkSpec (a_live a) (without e (a_lru a)) used (e :: a_held a) (a_deleted a), Some e)
  end.

(** One reference less. *)
Fixpoint drop_one (e : Z) (l : list Z) : list Z :=
  match l with [] => [] | x :: l => if decide (x = e) then l else x :: drop_one e l end.

Definition spec_release (a : lru_spec) (e : Z) : lru_spec :=
  let held := drop_one e (a_held a) in
  if decide (e ∈ held) then mkSpec (a_live a) (a_lru a) (a_used a) held (a_deleted a)
  else if decide (e ∈ a_used a) then mkSpec (a_live a) (a_lru a ++ [e]) (without e (a_used a)) held (a_deleted a)
  else spec_free (mkSpec (a_live a) (a_lru a) (a_used a) held (a_deleted a)) e.

Definition spec_erase (a : lru_spec) (key : bytes) (hash : Z) : lru_spec :=
  match spec_find a key hash with None => a | Some e => spec_uncache a e end.

(** The oldest entries leave while the cache is too full. *)
Fixpoint spec_evict (over : lru_spec → bool) (fuel : nat) (a : lru_spec) : lru_spec :=
  match fuel, a_lru a with
  | S fuel, e :: _ => if over a then spec_evict over fuel (spec_uncache a e) else a
  | _, _ => a
  end.

Definition too_full (capacity : Z) (a : lru_spec) : bool := bool_decide (w64 (total_charge (a_live a) (cached a)) > capacity).

(** The new entry replaces one with the same key; without a capacity it is not
    kept in the cache. *)
Definition spec_enter (capacity : Z) (a : lru_spec) (e : Z) (key : bytes) (hash : Z) (value : V) (charge : Z) : lru_spec :=
  let live := <[e := mkInfo key hash value charge]> (a_live a) in
  if decide (capacity > 0) then
    let a' := mkSpec live (a_lru a) (a_used a ++ [e]) (e :: a_held a) (a_deleted a) in
    match spec_find a key hash with None => a' | Some old => spec_uncache a' old end
  else mkSpec live (a_lru a) (a_used a) (e :: a_held a) (a_deleted a).

Definition spec_insert (capacity : Z) (a : lru_spec) (e : Z) (key : bytes) (hash : Z) (value : V) (charge : Z) : lru_spec :=
  let a' := spec_enter capacity a e key hash value charge in
  spec_evict (too_full capacity) (length (a_lru a')) a'.

Definition spec_prune (a : lru_spec) : lru_spec := spec_evict (λ _, true) (length (a_lru a)) a.
End contract.
Arguments info : clear implicits.
Arguments lru_spec : clear implicits.

(** ** The cache implements it *)

Lemma without_split e l1 l2 : e ∉ l1 → e ∉ l2 → without e (l1 ++ e :: l2) = l1 ++ l2.
Proof.
  intros H1 H2. unfold without. rewrite filter_app, filter_cons_False by tauto.
  rewrite !filter_all; [done|..]; apply Forall_forall; by intros x Hx ->.
Qed.

Lemma without_notin e l : e ∉ l → without e l = l.
Proof. intros H. apply filter_all, Forall_forall. by intros x Hx ->. Qed.

Lemma elem_of_without x e l : x ∈ without e l ↔ x ≠ e ∧ x ∈ l.
Proof. unfold without. by rewrite list_elem_of_filter. Qed.

Section refines.
Context {V : Type}.
Implicit Types (c : LRUCache V) (a : lru_spec V).

Definition links_ok (n p : gmap Z Z) (lru used : list Z) : Prop :=
  ring n p lru_ lru ∧ ring n p in_use_ used ∧ ∀ e, e ≠ lru_ → e ≠ in_use_ → n !! e ≠ Some e.

Lemma LRU_Remove_links c lru used e :
  links_ok (c_next c) (c_prev c) lru used → NoDup (lru_ :: in_use_ :: lru ++ used) → e ∈ lru ++ used →
  ∃ n p, LRU_Remove c e = Ret (set_links c n p) ∧ links_ok n p (without e lru) (without e used).
Proof.
  intros (Hl & Hu & Hn) Hnd He. apply NoDup_cons in Hnd as [H0 Hnd]. apply NoDup_cons in Hnd as [H1 Hnd].
  apply NoDup_app in Hnd as (Hndl & Hd & Hndu). unfold lru_, in_use_ in *.
  apply elem_of_app in He as [He|He]; [rewrite (without_notin e used) by (by apply Hd)|rewrite (without_notin e lru) by (intros Hx; by apply (Hd e Hx))].
  - apply list_elem_of_split in He as (l1 & l2 & ->).
    assert (NoDup (0 :: l1 ++ e :: l2)) as Hnd by (constructor; [set_solver|done]).
    destruct (LRU_Remove_ok c 0 l1 e l2 Hl Hnd) as (pe & ne & E & Hpe & Hne & Hr).
    apply NoDup_app in Hndl as (_ & Hd12 & [He2 _]%NoDup_cons). rewrite without_split by (done || (intros Hx; apply (Hd12 e Hx); by left)).
    eexists _, _. split; [done|]. split; [done|]. split.
    + eapply ring_other; [exact Hu|]. intros x Hx. rewrite !lookup_insert_ne; [done|..]; intros Heq; subst; set_solver.
    + intros x Hx0 Hx1. destruct (decide (x = pe)) as [->|]; [rewrite lookup_insert_eq|rewrite lookup_insert_ne by done; by apply Hn].
      intros Heq; injection Heq as Heq; subst; set_solver.
  - apply list_elem_of_split in He as (l1 & l2 & ->).
    assert (NoDup (1 :: l1 ++ e :: l2)) as Hnd by (constructor; [set_solver|done]).
    destruct (LRU_Remove_ok c 1 l1 e l2 Hu Hnd) as (pe & ne & E & Hpe & Hne & Hr).
    apply NoDup_app in Hndu as (_ & Hd12 & [He2 _]%NoDup_cons). rewrite without_split by (done || (intros Hx; apply (Hd12 e Hx); by left)).
    eexists _, _. split; [done|]. split; [|split; [done|]].
    + eapply ring_other; [exact Hl|]. intros x Hx. rewrite !lookup_insert_ne; [done|..]; intros Heq; subst; set_solver.
    + intros x Hx0 Hx1. destruct (decide (x = pe)) as [->|]; [rewrite lookup_insert_eq|rewrite lookup_insert_ne by done; by apply Hn].
      intros Heq; injection Heq as Heq; subst; set_solver.
Qed.

Lemma LRU_Append_links c lru used e h :
  links_ok (c_next c) (c_prev c) lru used → NoDup (lru_ :: in_use_ :: lru ++ used) → e ∉ lru_ :: in_use_ :: lru ++ used →
  h = lru_ ∨ h = in_use_ →
  ∃ n p, LRU_Append c h e = Ret (set_links c n p)
    ∧ links_ok n p (if decide (h = lru_) then lru ++ [e] else lru) (if decide (h = lru_) then used else used ++ [e]).
Proof.
  intros (Hl & Hu & Hn) Hnd He Hh. apply NoDup_cons in Hnd as [H0 Hnd]. apply NoDup_cons in Hnd as [H1 Hnd].
  apply NoDup_app in Hnd as (Hndl & Hd & Hndu). unfold lru_, in_use_ in *. destruct Hh as [-> | ->]; cbn [decide].
  - assert (NoDup (0 :: lru)) as Hnd by (constructor; [set_solver|done]).
    destruct (LRU_Append_ok c 0 lru e Hl Hnd) as (pe & E & Hpe & Hr); [set_solver|].
    eexists _, _. split; [done|]. split; [done|]. split.
    + eapply ring_other; [exact Hu|]. intros x Hx. rewrite !lookup_insert_ne; [done|..]; intros Heq; subst; set_solver.
    + intros x Hx0 Hx1. destruct (decide (x = pe)) as [->|]; [rewrite lookup_insert_eq; intros Heq; injection Heq as Heq; subst; set_solver|].
      rewrite lookup_insert_ne by done. destruct (decide (x = e)) as [->|]; [rewrite lookup_insert_eq; intros Heq; injection Heq as Heq; by subst|].
      rewrite lookup_insert_ne by done. by apply Hn.
  - assert (NoDup (1 :: used)) as Hnd by (constructor; [set_solver|done]).
    destruct (LRU_Append_ok c 1 used e Hu Hnd) as (pe & E & Hpe & Hr); [set_solver|].
    eexists _, _. split; [done|]. split; [|split; [done|]].
    + eapply ring_other; [exact Hl|]. intros x Hx. rewrite !lookup_insert_ne; [done|..]; intros Heq; subst; set_solver.
    + intros x Hx0 Hx1. destruct (decide (x = pe)) as [->|]; [rewrite lookup_insert_eq; intros Heq; injection Heq as Heq; subst; set_solver|].
      rewrite lookup_insert_ne by done. destruct (decide (x = e)) as [->|]; [rewrite lookup_insert_eq; intros Heq; injection Heq as Heq; by subst|].
      rewrite lookup_insert_ne by done. by apply Hn.
Qed.

Definition references (held : list Z) (e : Z) : Z := size_of (filter (λ x, x = e) held).

(** The entry of the heap for a live entry. *)
Definition entry_of (cache held : list Z) (e : Z) (i : info V) : LRUHandle V :=
  mkEntry (i_value i) (i_charge i) (i_key i) (bool_decide (e ∈ cache))
    (references held e + if decide (e ∈ cache) then 1 else 0) (i_hash i).

(** The invariant of the contract: every live entry is cached or held, and the
    cached ones are those in use or in the list of the others. *)
Record spec_ok a : Prop := {
  so_nodup : NoDup (cached a);
  so_heads : ∀ e, is_Some (a_live a !! e) → e ≠ lru_ ∧ e ≠ in_use_;
  so_cached : ∀ e, e ∈ cached a → is_Some (a_live a !! e);
  so_held : ∀ e, e ∈ a_held a → is_Some (a_live a !! e);
  so_live : ∀ e, is_Some (a_live a !! e) → e ∈ cached a ∨ e ∈ a_held a;
  so_lru : ∀ e, e ∈ a_lru a → e ∉ a_held a;
  so_used : ∀ e, e ∈ a_used a → e ∈ a_held a;
  so_unique : ∀ e e' i i', e ∈ cached a → e' ∈ cached a → a_live a !! e = Some i → a_live a !! e' = Some i' →
    i_key i = i_key i' → i_hash i = i_hash i' → e = e'
}.

(** The state of the cache, when its table holds [T]. *)
Record sim (capacity : Z) c a (T : list Z) : Prop := {
  sm_heap : ∀ e, c_heap c !! e = entry_of (cached a) (a_held a) e <$> a_live a !! e;
  sm_links : links_ok (c_next c) (c_prev c) (a_lru a) (a_used a);
  sm_table : table_ok (c_heap c) (c_table c) T;
  sm_capacity : c_capacity c = capacity;
  sm_usage : c_usage c = w64 (total_charge (a_live a) (cached a));
  sm_deleted : c_deleted c = a_deleted a
}.

Lemma heads_nodup a : spec_ok a → NoDup (lru_ :: in_use_ :: a_lru a ++ a_used a).
Proof.
  intros H. assert (∀ e, e ∈ cached a → e ≠ lru_ ∧ e ≠ in_use_) as Hh by (intros e He; apply (so_heads _ H), (so_cached _ H), He).
  constructor; [|constructor; [|apply (so_nodup _ H)]].
  - intros [Hx|Hx]%elem_of_cons; [done|]. by destruct (Hh _ Hx).
  - intros Hx. by destruct (Hh _ Hx).
Qed.

Lemma sim_kh capacity c a T e : sim capacity c a T → kh (c_heap c) e = (λ i, (i_key i, i_hash i)) <$> a_live a !! e.
Proof. intros H. unfold kh. rewrite (sm_heap _ _ _ _ H). by destruct (a_live a !! e). Qed.

Lemma sim_find capacity c a T key hash :
  sim capacity c a T → find_kh (c_heap c) (cached a) key hash = spec_find a key hash.
Proof.
  intros H. unfold find_kh, spec_find. f_equal. apply list_filter_iff. intros e. by rewrite (sim_kh _ _ _ _ _ H).
Qed.

Lemma sim_unique capacity c a T : sim capacity c a T → spec_ok a → unique_keys (c_heap c) (cached a).
Proof.
  intros Hs Ha e e' He He'. rewrite !(sim_kh _ _ _ _ _ Hs).
  destruct (so_cached _ Ha _ He) as [i Hi]. destruct (so_cached _ Ha _ He') as [i' Hi']. rewrite Hi, Hi'. cbn. intros [= Hk Hh].
  by eapply (so_unique _ Ha).
Qed.

Lemma table_ok_heap (heap heap' : gmap Z (LRUHandle V)) t T : (∀ e, e ∈ T → kh heap' e = kh heap e) → table_ok heap t T → table_ok heap' t T.
Proof.
  intros Hk [Hl He Hp Hb]. split; [done..|]. intros i chain e Hi Hin.
  rewrite Hk; [by eapply Hb|]. rewrite <- Hp. apply elem_of_concat. exists chain. split; [done|]. by eapply list_elem_of_lookup_2.
Qed.

Lemma table_ok_perm (heap : gmap Z (LRUHandle V)) t T T' : T ≡ₚ T' → table_ok heap t T → table_ok heap t T'.
Proof. intros Hp [Hl He Hpt Hb]. split; [done|by rewrite He, Hp|by rewrite Hpt|done]. Qed.

Lemma references_pos held e : e ∈ held ↔ 0 < references held e.
Proof.
  unfold references. split.
  - intros He. assert (e ∈ filter (λ x, x = e) held) as Hin by (by apply list_elem_of_filter). destruct (filter _ held); [by apply not_elem_of_nil in Hin|cbn; lia].
  - intros Hp. destruct (filter (λ x, x = e) held) as [|x l] eqn:Ef; [cbn in Hp; lia|].
    assert (x ∈ filter (λ x, x = e) held) as [-> Hin]%list_elem_of_filter by (rewrite Ef; by left). done.
Qed.

Lemma references_zero held e : e ∉ held → references held e = 0.
Proof. intros H. unfold references. rewrite filter_none; [done|]. apply Forall_forall. by intros x Hx ->. Qed.

Lemma references_cons held e x : references (x :: held) e = references held e + if decide (x = e) then 1 else 0.
Proof. unfold references. rewrite filter_cons. case_decide; cbn [length]; lia. Qed.

Lemma references_bound held e : 0 <= references held e <= size_of held.
Proof. unfold references. pose proof (length_filter (λ x, x = e) held). lia. Qed.

Lemma total_charge_perm (live : gmap Z (info V)) l l' : l ≡ₚ l' → total_charge live l = total_charge live l'.
Proof. unfold total_charge. induction 1; cbn [foldr] in *; lia. Qed.

(** Only the membership in the cache and the references of an entry matter. *)
Lemma entry_of_same cache cache' held held' e (i : info V) :
  (e ∈ cache ↔ e ∈ cache') → references held e = references held' e → entry_of cache held e i = entry_of cache' held' e i.
Proof.
  intros Hc Hh. unfold entry_of. rewrite Hh. f_equal; [by apply bool_decide_ext|].
  destruct (decide (e ∈ cache)), (decide (e ∈ cache')); tauto.
Qed.

Lemma without_perm e (l : list Z) : NoDup l → e ∈ l → l ≡ₚ e :: without e l.
Proof.
  intros Hnd (l1 & l2 & ->)%list_elem_of_split. apply NoDup_app in Hnd as (_ & Hd & [He _]%NoDup_cons).
  rewrite without_split; [symmetry; apply Permutation_middle| |done]. intros Hx. apply (Hd e Hx). by left.
Qed.

(** ** References *)

Definition spec_hold a e : lru_spec V :=
  mkSpec (a_live a) (without e (a_lru a)) (if decide (e ∈ a_lru a) then a_used a ++ [e] else a_used a) (e :: a_held a) (a_deleted a).

Lemma hold_cached a e : spec_ok a → e ∈ cached a → cached (spec_hold a e) ≡ₚ cached a.
Proof.
  intros Ha He. unfold cached, spec_hold. cbn [a_lru a_used]. pose proof (so_nodup _ Ha) as Hnd. apply NoDup_app in Hnd as (Hnd & _).
  destruct (decide (e ∈ a_lru a)) as [Hl|Hl]; [|by rewrite without_notin].
  rewrite (without_perm e (a_lru a) Hnd Hl) at 2. rewrite app_assoc, <- Permutation_cons_append. done.
Qed.

Lemma hold_ok a e : spec_ok a → e ∈ cached a → spec_ok (spec_hold a e).
Proof.
  intros Ha He. pose proof (hold_cached a e Ha He) as Hp. destruct Ha as [Hnd Hhd Hc Hh Hl Hlru Hused Hu].
  assert (∀ x, x ∈ cached (spec_hold a e) ↔ x ∈ cached a) as Hin by (intros x; by rewrite Hp).
  split; cbn [a_live a_held spec_hold].
  - by rewrite Hp.
  - done.
  - intros x Hx%Hin. by apply Hc.
  - intros x [->|Hx]%elem_of_cons; [by apply Hc|by apply Hh].
  - intros x Hx. rewrite Hin. destruct (Hl x Hx); [by left|right; by right].
  - cbn [a_lru spec_hold]. intros x [Hne Hx]%elem_of_without. rewrite not_elem_of_cons. split; [done|by apply Hlru].
  - cbn [a_used spec_hold]. intros x Hx. destruct (decide (e ∈ a_lru a)).
    + apply elem_of_app in Hx as [Hx| ->%list_elem_of_singleton]; [right; by apply Hused|by left].
    + right. by apply Hused.
  - intros x y i i' Hx%Hin Hy%Hin. by apply Hu.
Qed.

Lemma CacheRef_ok capacity c a e T :
  sim capacity c a T → spec_ok a → e ∈ cached a → size_of (a_held a) + 2 < 2 ^ 32 → (∀ x, x ∈ T → x ∈ cached a) →
  ∃ c', Ref c e = Ret c' ∧ sim capacity c' (spec_hold a e) T.
Proof.
  intros Hs Ha He Hheld HT. pose proof (hold_cached a e Ha He) as Hp. destruct (so_cached _ Ha e He) as [i Hi]. unfold Ref, entry.
  rewrite (sm_heap _ _ _ _ Hs), Hi. cbn [fmap option_fmap option_map mbind res_bind]. set (h := entry_of _ _ _ _).
  assert (e_in_cache h = true) as Hin by (by apply bool_decide_eq_true_2).
  assert (e_refs h = references (a_held a) e + 1) as Hr by (unfold h, entry_of; cbn [e_refs]; by rewrite decide_True).
  pose proof (references_bound (a_held a) e) as Hb.
  assert (∃ n p, (if bool_decide (e_refs h = 1) && e_in_cache h then c ← LRU_Remove c e; LRU_Append c in_use_ e else Ret c)
    = Ret (set_links c n p) ∧ links_ok n p (a_lru (spec_hold a e)) (a_used (spec_hold a e))) as (n & p & -> & Hl).
  { rewrite Hin, andb_true_r, Hr. cbn [spec_hold a_lru a_used]. pose proof (heads_nodup a Ha) as Hnd.
    destruct (decide (e ∈ a_lru a)) as [Hel|Hel].
    - rewrite references_zero by (by apply (so_lru _ Ha)). rewrite bool_decide_eq_true_2 by lia.
      destruct (LRU_Remove_links c _ _ e (sm_links _ _ _ _ Hs) Hnd He) as (n & p & -> & Hl). cbn [mbind res_bind].
      assert (e ∉ a_used a) as Heu by (pose proof (so_nodup _ Ha) as H; apply NoDup_app in H as (_ & H & _); by apply H).
      rewrite (without_notin e (a_used a)) in Hl by done.
      destruct (LRU_Append_links (set_links c n p) (without e (a_lru a)) (a_used a) e in_use_ Hl) as (n' & p' & -> & Hl'); [| |by right|].
      + eapply sublist_NoDup; [exact Hnd|]. repeat apply sublist_skip. apply sublist_app; [apply sublist_filter|done].
      + destruct (so_heads _ Ha e) as [H0 H1]; [by eexists|]. intros [|[|[[]%elem_of_without|]%elem_of_app]%elem_of_cons]%elem_of_cons; done.
      + exists n', p'. done.
    - assert (e ∈ a_used a) as Heu by (apply elem_of_app in He as [|]; done). apply (so_used _ Ha), references_pos in Heu.
      rewrite bool_decide_eq_false_2 by lia. exists (c_next c), (c_prev c). rewrite without_notin by done. split; [by destruct c|apply (sm_links _ _ _ _ Hs)]. }
  cbn [mbind res_bind]. eexists. split; [done|]. destruct Hs as [Hheap Hlk Ht Hcap Hus Hdel]. split; try done.
  - intros x. cbn [c_heap set_heap set_links spec_hold a_live a_held]. destruct (decide (x = e)) as [->|Hne].
    + rewrite lookup_insert_eq, Hi. cbn [fmap option_fmap option_map]. f_equal. unfold set_refs. rewrite Hin, Hr. unfold h, entry_of. cbn [e_value e_charge e_key e_hash h entry_of].
      rewrite references_cons, !decide_True, bool_decide_eq_true_2, w32_small by (mlia || by rewrite ?Hp || done). done.
    + rewrite lookup_insert_ne by done. rewrite Hheap. destruct (a_live a !! x) as [j|]; [|done]. cbn. f_equal. apply entry_of_same; [by rewrite Hp|].
      rewrite references_cons, decide_False by done. lia.
  - cbn [c_heap set_heap set_links c_table]. eapply table_ok_heap; [|exact Ht]. intros x Hx. unfold kh.
    destruct (decide (x = e)) as [->|Hne]; [|by rewrite lookup_insert_ne]. rewrite lookup_insert_eq, Hheap, Hi. done.
  - cbn [c_usage set_heap set_links spec_hold a_live]. rewrite Hus. f_equal. by apply total_charge_perm.
Qed.

(** ** Lookups *)

Lemma Cache_Lookup_ok capacity c a key hash :
  sim capacity c a (cached a) → spec_ok a → size_of (a_held a) + 2 < 2 ^ 32 →
  ∃ c', Cache_Lookup c key hash = Ret (c', (spec_lookup a key hash).2)
    ∧ sim capacity c' (spec_lookup a key hash).1 (cached (spec_lookup a key hash).1) ∧ spec_ok (spec_lookup a key hash).1.
Proof.
  intros Hs Ha Hheld. unfold Cache_Lookup.
  assert (∀ e, e ∈ cached a → c_next c !! e ≠ Some e) as Hn.
  { intros e He. destruct (so_heads _ Ha e (so_cached _ Ha e He)). by apply (sm_links _ _ _ _ Hs). }
  rewrite (Table_Lookup_ok c (cached a) key hash (sm_table _ _ _ _ Hs) (sim_unique _ _ _ _ Hs Ha) Hn).
  rewrite (sim_find _ _ _ _ _ _ Hs). cbn [mbind res_bind]. unfold spec_lookup.
  destruct (spec_find a key hash) as [e|] eqn:Ef; [|by exists c].
  assert (e ∈ cached a) as He by (rewrite <- (sim_find _ _ _ _ _ _ Hs) in Ef; by apply find_kh_inv in Ef as [? _]).
  destruct (CacheRef_ok capacity c a e (cached a) Hs Ha He Hheld) as (c' & -> & Hs'); [done|]. cbn [mbind res_bind fst snd].
  exists c'. split; [done|]. pose proof (hold_cached a e Ha He) as Hp. split; [|by apply hold_ok].
  destruct Hs' as [Hheap Hlk Ht Hcap Hus Hdel]. split; try done. by eapply table_ok_perm.
Qed.

(** ** Releases *)

Lemma references_drop held e x :
  e ∈ held → references (drop_one e held) x = references held x - if decide (x = e) then 1 else 0.
Proof.
  induction held as [|y held IH]; intros He; [by apply not_elem_of_nil in He|]. cbn [drop_one].
  destruct (decide (y = e)) as [->|Hy].
  - rewrite references_cons. destruct (decide (x = e)) as [->|Hne]; [rewrite decide_True by done; lia|rewrite decide_False by done; lia].
  - apply elem_of_cons in He as [->|He]; [done|]. rewrite !references_cons, IH by done. lia.
Qed.

Lemma drop_one_elem held e x : x ∈ drop_one e held → x ∈ held.
Proof.
  induction held as [|y held IH]; cbn [drop_one]; [done|]. destruct (decide (y = e)); [by right|].
  intros [->|Hx]%elem_of_cons; [by left|right; by apply IH].
Qed.

Lemma drop_one_other held e x : x ≠ e → x ∈ held → x ∈ drop_one e held.
Proof.
  intros Hne. induction held as [|y held IH]; cbn [drop_one]; [done|]. destruct (decide (y = e)) as [->|].
  - by intros [->|]%elem_of_cons.
  - intros [->|Hx]%elem_of_cons; [by left|right; by apply IH].
Qed.

(** Freeing an entry keeps the others. *)
Lemma free_ok a e :
  NoDup (cached a) → (∀ x, is_Some (a_live a !! x) → x ≠ lru_ ∧ x ≠ in_use_) →
  (∀ x, x ∈ cached a → is_Some (a_live a !! x)) → (∀ x, x ∈ a_held a → is_Some (a_live a !! x)) →
  (∀ x, x ≠ e → is_Some (a_live a !! x) → x ∈ cached a ∨ x ∈ a_held a) →
  (∀ x, x ∈ a_lru a → x ∉ a_held a) → (∀ x, x ∈ a_used a → x ∈ a_held a) →
  (∀ x y i i', x ∈ cached a → y ∈ cached a → a_live a !! x = Some i → a_live a !! y = Some i' →
     i_key i = i_key i' → i_hash i = i_hash i' → x = y) → spec_ok (spec_free a e).
Proof.
  intros Hnd Hhd Hc Hh Hl Hlru Hused Hu. unfold spec_free. destruct (decide _) as [He|He].
  - split; try done. intros x Hx. destruct (decide (x = e)) as [->|Hne]; [done|by apply Hl].
  - assert (∀ x, x ∈ cached a ∨ x ∈ a_held a → x ≠ e) as Hne by (intros x Hx ->; done).
    split; cbn [a_live a_lru a_used a_held]; try done.
    + intros x Hx. apply Hhd. destruct (decide (e = x)) as [->|]; [rewrite lookup_delete_eq in Hx; by destruct Hx|by rewrite lookup_delete_ne in Hx].
    + intros x Hx. rewrite lookup_delete_ne by (symmetry; apply Hne; by left). by apply Hc.
    + intros x Hx. rewrite lookup_delete_ne by (symmetry; apply Hne; by right). by apply Hh.
    + intros x Hx. destruct (decide (x = e)) as [->|]; [rewrite lookup_delete_eq in Hx; by destruct Hx|]. rewrite lookup_delete_ne in Hx by done. by apply Hl.
    + intros x y i i' Hx Hy. rewrite !lookup_delete_ne by (symmetry; apply Hne; by left). by apply Hu.
Qed.

Lemma release_ok a e : spec_ok a → e ∈ a_held a → spec_ok (spec_release a e).
Proof.
  intros [Hnd Hhd Hc Hh Hl Hlru Hused Hu] He. unfold spec_release. set (held := drop_one e (a_held a)).
  assert (∀ x, x ∈ held → x ∈ a_held a) as Hsub by (intros x; apply drop_one_elem).
  assert (∀ x, x ≠ e → x ∈ a_held a → x ∈ held) as Hoth by (intros x; apply drop_one_other).
  destruct (decide (e ∈ held)) as [Heh|Heh]; [|destruct (decide (e ∈ a_used a)) as [Heu|Heu]].
  - split; cbn [a_live a_lru a_used a_held]; try done.
    + intros x Hx. by apply Hh, Hsub.
    + intros x Hx. destruct (Hl x Hx) as [|Hxh]; [by left|right]. destruct (decide (x = e)) as [->|]; [done|by apply Hoth].
    + intros x Hx Hxh. apply (Hlru x Hx), Hsub, Hxh.
    + intros x Hx. destruct (decide (x = e)) as [->|]; [done|]. by apply Hoth, Hused.
  - assert (cached (mkSpec (a_live a) (a_lru a ++ [e]) (without e (a_used a)) held (a_deleted a)) ≡ₚ cached a) as Hp.
    { unfold cached. cbn [a_lru a_used]. apply NoDup_app in Hnd as (_ & _ & Hnd). rewrite (without_perm e (a_used a) Hnd Heu) at 2. by rewrite <- app_assoc. }
    split; cbn [a_live a_lru a_used a_held]; try done.
    + by rewrite Hp.
    + intros x Hx. rewrite Hp in Hx. by apply Hc.
    + intros x Hx. by apply Hh, Hsub.
    + intros x Hx. rewrite Hp. destruct (Hl x Hx) as [|Hxh]; [by left|]. destruct (decide (x = e)) as [->|]; [left; unfold cached; elem|right; by apply Hoth].
    + intros x [Hx| ->%list_elem_of_singleton]%elem_of_app; [|done]. intros Hxh. apply (Hlru x Hx), Hsub, Hxh.
    + intros x [Hne Hx]%elem_of_without. by apply Hoth, Hused.
    + intros x y i i'. rewrite Hp. apply Hu.
  - apply free_ok; cbn [a_live a_lru a_used a_held]; try done.
    + intros x Hx. by apply Hh, Hsub.
    + intros x Hne Hx. destruct (Hl x Hx) as [|Hxh]; [by left|right; by apply Hoth].
    + intros x Hx Hxh. apply (Hlru x Hx), Hsub, Hxh.
    + intros x Hx. apply Hoth; [by intros ->|by apply Hused].
Qed.

(** What happens to an entry after a reference to it is gone. *)
Definition spec_settle a e : lru_spec V :=
  if decide (e ∈ a_held a) then a
  else if decide (e ∈ a_used a) then mkSpec (a_live a) (a_lru a ++ [e]) (without e (a_used a)) (a_held a) (a_deleted a)
  else spec_free a e.

Lemma CacheUnref_ok capacity c a e i T :
  (∀ x, x ≠ e → c_heap c !! x = entry_of (cached a) (a_held a) x <$> a_live a !! x) → a_live a !! e = Some i →
  c_heap c !! e = Some (mkEntry (i_value i) (i_charge i) (i_key i) (bool_decide (e ∈ cached a))
    (references (a_held a) e + (if decide (e ∈ cached a) then 1 else 0) + 1) (i_hash i)) →
  links_ok (c_next c) (c_prev c) (a_lru a) (a_used a) → NoDup (lru_ :: in_use_ :: a_lru a ++ a_used a) →
  e ∉ a_lru a → e ≠ lru_ → e ≠ in_use_ → table_ok (c_heap c) (c_table c) T → (∀ x, x ∈ T → x ∈ cached a) →
  c_capacity c = capacity → c_usage c = w64 (total_charge (a_live a) (cached a)) → c_deleted c = a_deleted a →
  ∃ c', Unref c e = Ret c' ∧ sim capacity c' (spec_settle a e) T.
Proof.
  intros Hheap Hi He Hl Hnd Hlru H0 H1 Ht HT Hcap Hus Hdel. unfold Unref, entry. rewrite He. cbn [mbind res_bind e_refs].
  pose proof (references_bound (a_held a) e) as Hb. rewrite decide_True by (case_decide; lia). cbn [set_refs e_in_cache e_refs e_value e_charge e_key e_hash].
  set (r := references (a_held a) e + (if decide (e ∈ cached a) then 1 else 0)) in *. replace (r + 1 - 1) with r by lia.
  set (c1 := set_heap c _).
  assert (∀ x, c_heap c1 !! x = entry_of (cached a) (a_held a) x <$> a_live a !! x) as Hheap1.
  { intros x. cbn [c_heap c1 set_heap]. destruct (decide (x = e)) as [->|]; [by rewrite lookup_insert_eq, Hi|rewrite lookup_insert_ne by done; by apply Hheap]. }
  assert (∀ x, kh (c_heap c1) x = kh (c_heap c) x) as Hkh.
  { intros x. unfold kh. cbn [c_heap c1 set_heap]. destruct (decide (x = e)) as [->|]; [by rewrite lookup_insert_eq, He|by rewrite lookup_insert_ne]. }
  assert (sim capacity c1 a T) as Hs1 by (split; try done; eapply table_ok_heap; [intros x _; apply Hkh|done]).
  unfold spec_settle. destruct (decide (r = 0)) as [Hr|Hr].
  - assert (e ∉ cached a) as Hec by (intros Hx; unfold r in Hr; rewrite decide_True in Hr by done; lia).
    assert (e ∉ a_held a) as Heh by (intros Hx%references_pos; unfold r in Hr; rewrite decide_False in Hr by done; lia).
    rewrite bool_decide_eq_false_2 by done. unfold key_of. rewrite decide_False by (by apply Hl). unfold entry. rewrite Hheap1, Hi. cbn [fmap option_fmap option_map mbind res_bind].
    rewrite decide_False by done. rewrite decide_False by (unfold cached in Hec; set_solver). eexists. split; [done|].
    unfold spec_free. rewrite decide_False by tauto. rewrite Hi. destruct Hs1 as [_ Hlk1 Ht1 Hcap1 Hus1 Hdel1].
    split; cbn [c_heap c_next c_prev c_table c_capacity c_usage c_deleted a_live a_lru a_used a_held a_deleted]; try done.
    + intros x. destruct (decide (x = e)) as [->|Hne]; [by rewrite !lookup_delete_eq|]. rewrite !lookup_delete_ne by done. apply Hheap1.
    + eapply table_ok_heap; [|exact Ht1]. intros x Hx%HT. unfold kh. rewrite lookup_delete_ne; [done|]. by intros ->.
    + rewrite Hus1. f_equal. unfold cached. cbn [a_lru a_used]. fold (cached a). revert Hec. generalize (cached a). intros l Hel. induction l as [|x l IH]; [done|].
      cbn [total_charge foldr]. unfold total_charge in IH. rewrite IH by (by apply not_elem_of_cons in Hel as [_ ?]). rewrite lookup_delete_ne; [done|]. intros ->. apply Hel. by left.
    + by rewrite Hdel1.
  - destruct (bool_decide (e ∈ cached a) && bool_decide (r = 1)) eqn:Hmv.
    + apply andb_true_iff in Hmv as [Hec%bool_decide_eq_true Hr1%bool_decide_eq_true].
      assert (e ∈ a_used a) as Heu by (apply elem_of_app in Hec as [|]; done).
      assert (e ∉ a_held a) as Heh by (intros Hx%references_pos; unfold r in Hr1; rewrite decide_True in Hr1 by done; lia).
      rewrite decide_False, decide_True by done.
      destruct (LRU_Remove_links c1 _ _ e (sm_links _ _ _ _ Hs1) Hnd) as (n & p & -> & Hl1); [elem|]. cbn [mbind res_bind].
      rewrite (without_notin e (a_lru a)) in Hl1 by done.
      destruct (LRU_Append_links (set_links c1 n p) (a_lru a) (without e (a_used a)) e lru_ Hl1) as (n' & p' & -> & Hl2); [| |by left|].
      { eapply sublist_NoDup; [exact Hnd|]. repeat apply sublist_skip. apply sublist_app; [done|apply sublist_filter]. }
      { intros [|[|[|[]%elem_of_without]%elem_of_app]%elem_of_cons]%elem_of_cons; done. }
      eexists. split; [done|]. destruct Hs1 as [_ Hlk1 Ht1 Hcap1 Hus1 Hdel1].
      assert (cached (mkSpec (a_live a) (a_lru a ++ [e]) (without e (a_used a)) (a_held a) (a_deleted a)) ≡ₚ cached a) as Hp.
      { unfold cached. cbn [a_lru a_used]. apply NoDup_cons in Hnd as [_ [_ Hnd]%NoDup_cons]. apply NoDup_app in Hnd as (_ & _ & Hndu).
        rewrite (without_perm e (a_used a) Hndu Heu) at 2. by rewrite <- app_assoc. }
      split; cbn [c_heap c_next c_prev c_table c_capacity c_usage c_deleted a_live a_held a_deleted set_links]; try done.
      * intros x. rewrite Hheap1. destruct (a_live a !! x); [|done]. cbn. f_equal. apply entry_of_same; [by rewrite Hp|done].
      * rewrite Hus1. f_equal. by apply total_charge_perm.
    + assert (e ∈ a_held a) as Heh.
      { apply references_pos. unfold r in *. destruct (decide (e ∈ cached a)) as [Hec|Hec]; [|lia].
        rewrite (bool_decide_eq_true_2 _ Hec) in Hmv. apply bool_decide_eq_false in Hmv. lia. }
      rewrite decide_True by done. by exists c1.
Qed.

Lemma Cache_Release_ok capacity c a e :
  sim capacity c a (cached a) → spec_ok a → e ∈ a_held a → size_of (a_held a) + 2 < 2 ^ 32 →
  ∃ c', Cache_Release c e = Ret c' ∧ sim capacity c' (spec_release a e) (cached (spec_release a e)) ∧ spec_ok (spec_release a e).
Proof.
  intros Hs Ha He Hb. pose proof (release_ok a e Ha He) as Hok. destruct (so_held _ Ha e He) as [i Hi]. destruct (so_heads _ Ha e) as [H0 H1]; [by eexists|].
  set (a' := mkSpec (a_live a) (a_lru a) (a_used a) (drop_one e (a_held a)) (a_deleted a)).
  change (spec_release a e) with (spec_settle a' e) in *. destruct Hs as [Hheap Hl Ht Hcap Hus Hdel].
  destruct (CacheUnref_ok capacity c a' e i (cached a)) as (c' & E & Hs'); try done.
  - intros x Hne. rewrite Hheap. cbn [a_live a']. destruct (a_live a !! x); [|done]. cbn. f_equal. apply entry_of_same; [done|].
    rewrite references_drop, decide_False by done. lia.
  - rewrite Hheap, Hi. cbn [fmap option_fmap option_map]. unfold entry_of. change (cached a') with (cached a). cbn [a_held a'].
    rewrite references_drop by done. rewrite (decide_True (P := e = e)) by done. do 2 f_equal. lia.
  - exact (heads_nodup a Ha).
  - intros Hx. by apply (so_lru _ Ha e Hx).
  - exists c'. split; [done|]. split; [|done]. destruct Hs' as [Hheap' Hl' Ht' Hcap' Hus' Hdel']. split; try done.
    eapply table_ok_perm; [|exact Ht']. unfold spec_settle. destruct (decide _); [done|]. destruct (decide (e ∈ a_used a')) as [Heu|Heu].
    + unfold cached. cbn [a_lru a_used a']. pose proof (so_nodup _ Ha) as Hnd. apply NoDup_app in Hnd as (_ & _ & Hndu).
      rewrite (without_perm e (a_used a) Hndu Heu) at 1. by rewrite <- app_assoc.
    + unfold spec_free. by destruct (decide _).
Qed.

(** ** Removals *)

Definition spec_unlist a e : lru_spec V := mkSpec (a_live a) (without e (a_lru a)) (without e (a_used a)) (a_held a) (a_deleted a).

Lemma unlist_cached a e : cached (spec_unlist a e) = without e (cached a).
Proof. unfold cached, without. cbn [a_lru a_used spec_unlist]. by rewrite filter_app. Qed.

Lemma uncache_settle a e : spec_uncache a e = spec_settle (spec_unlist a e) e.
Proof.
  change (spec_uncache a e) with (spec_free (spec_unlist a e) e). unfold spec_settle.
  destruct (decide (e ∈ a_held (spec_unlist a e))) as [Hh|Hh]; [unfold spec_free; by rewrite decide_True by tauto|].
  rewrite decide_False; [done|]. by intros [? _]%elem_of_without.
Qed.

Lemma total_charge_without live e (i : info V) l :
  NoDup l → e ∈ l → live !! e = Some i → total_charge live (without e l) = total_charge live l - i_charge i.
Proof.
  intros Hnd He Hi. rewrite (total_charge_perm live l _ (without_perm e l Hnd He)). cbn [total_charge foldr]. rewrite Hi. cbn.
  unfold total_charge. lia.
Qed.

Lemma w64_sub x y : w64 (w64 x - y) = w64 (x - y).
Proof. unfold w64. by rewrite Zminus_mod_idemp_l. Qed.

Lemma w64_add x y : w64 (w64 x + y) = w64 (x + y).
Proof. unfold w64. by rewrite Z.add_mod_idemp_l. Qed.

Lemma FinishErase_ok capacity c a e i T :
  sim capacity c a T → NoDup (lru_ :: in_use_ :: a_lru a ++ a_used a) → e ∈ cached a → a_live a !! e = Some i →
  (∀ x, x ∈ T → x ∈ without e (cached a)) →
  ∃ c', FinishErase c (Some e) = Ret (c', true) ∧ sim capacity c' (spec_uncache a e) T.
Proof.
  intros [Hheap Hl Ht Hcap Hus Hdel] Hnd He Hi HT. unfold FinishErase, entry. rewrite Hheap, Hi. cbn [fmap option_fmap option_map mbind res_bind].
  set (h := entry_of _ _ _ _). assert (e_in_cache h = true) as -> by (by apply bool_decide_eq_true_2).
  destruct (LRU_Remove_links c _ _ e Hl Hnd He) as (n & p & -> & Hl'). cbn [mbind res_bind].
  assert (NoDup (cached a)) as Hndc by (by apply NoDup_cons in Hnd as [_ [_ ?]%NoDup_cons]).
  assert (e ≠ lru_ ∧ e ≠ in_use_) as [H0 H1].
  { apply NoDup_cons in Hnd as [Hx0 [Hx1 _]%NoDup_cons]. split; intros ->; [apply Hx0; by right|by apply Hx1]. }
  set (c1 := set_usage _ _). rewrite uncache_settle. assert (e ∉ without e (cached a)) as Hout by (by intros [? _]%elem_of_without).
  destruct (CacheUnref_ok capacity c1 (spec_unlist a e) e i T) as (c' & -> & Hs); try done.
  - intros x Hne. cbn [c1 c_heap set_usage set_heap set_links a_live a_held spec_unlist]. rewrite lookup_insert_ne by done. rewrite Hheap.
    destruct (a_live a !! x); [|done]. cbn [fmap option_fmap option_map]. f_equal. apply entry_of_same; [|done]. rewrite unlist_cached, elem_of_without. tauto.
  - cbn [c1 c_heap set_usage set_heap set_links a_held spec_unlist]. rewrite lookup_insert_eq. f_equal. rewrite unlist_cached.
    rewrite bool_decide_eq_false_2, decide_False by done. unfold set_refs, h, entry_of. cbn [e_value e_charge e_key e_hash e_refs].
    rewrite decide_True by done. f_equal. lia.
  - eapply sublist_NoDup; [exact Hnd|]. repeat apply sublist_skip. apply sublist_app; apply sublist_filter.
  - by intros [? _]%elem_of_without.
  - cbn [c1 c_heap set_usage set_heap set_links c_table]. eapply table_ok_heap; [|exact Ht]. intros x Hx%HT. unfold kh.
    rewrite lookup_insert_ne; [done|]. by intros ->.
  - intros x Hx. rewrite unlist_cached. by apply HT.
  - cbn [c1 c_usage set_usage set_heap set_links]. rewrite unlist_cached. change (a_live (spec_unlist a e)) with (a_live a). rewrite (total_charge_without _ e i), Hus, w64_sub by done. done.
  - exists c'. split; [done|]. done.
Qed.

(** Only the other entries need to have different keys. *)
Lemma uncache_ok_but a e :
  NoDup (cached a) → (∀ x, is_Some (a_live a !! x) → x ≠ lru_ ∧ x ≠ in_use_) →
  (∀ x, x ∈ cached a → is_Some (a_live a !! x)) → (∀ x, x ∈ a_held a → is_Some (a_live a !! x)) →
  (∀ x, is_Some (a_live a !! x) → x ∈ cached a ∨ x ∈ a_held a) →
  (∀ x, x ∈ a_lru a → x ∉ a_held a) → (∀ x, x ∈ a_used a → x ∈ a_held a) →
  (∀ x y i i', x ≠ e → y ≠ e → x ∈ cached a → y ∈ cached a → a_live a !! x = Some i → a_live a !! y = Some i' →
     i_key i = i_key i' → i_hash i = i_hash i' → x = y) → spec_ok (spec_uncache a e).
Proof.
  intros Hnd Hhd Hc Hh Hl Hlru Hused Hu. change (spec_uncache a e) with (spec_free (spec_unlist a e) e).
  assert (∀ x, x ∈ cached (spec_unlist a e) ↔ x ≠ e ∧ x ∈ cached a) as Hin by (intros x; rewrite unlist_cached; apply elem_of_without).
  apply free_ok; cbn [a_live a_held spec_unlist]; try done.
  - rewrite unlist_cached. by apply NoDup_filter.
  - intros x [_ Hx]%Hin. by apply Hc.
  - intros x Hne Hx. rewrite Hin. destruct (Hl x Hx); [by left|by right].
  - cbn [a_lru spec_unlist]. intros x [_ Hx]%elem_of_without. by apply Hlru.
  - cbn [a_used spec_unlist]. intros x [_ Hx]%elem_of_without. by apply Hused.
  - intros x y i i' [Hxe Hx]%Hin [Hye Hy]%Hin. by apply Hu.
Qed.

Lemma uncache_ok a e : spec_ok a → spec_ok (spec_uncache a e).
Proof. intros [Hnd Hhd Hc Hh Hl Hlru Hused Hu]. apply uncache_ok_but; try done. intros x y i i' _ _. apply Hu. Qed.

Lemma uncache_cached a e : cached (spec_uncache a e) = without e (cached a).
Proof.
  change (spec_uncache a e) with (spec_free (spec_unlist a e) e). rewrite <- unlist_cached. unfold spec_free. by destruct (decide _).
Qed.

Lemma find_others capacity c a T e key hash :
  sim capacity c a T → spec_ok a → spec_find a key hash = Some e →
  e ∈ cached a ∧ (∃ i, a_live a !! e = Some i ∧ i_key i = key ∧ i_hash i = hash)
  ∧ others (c_heap c) (cached a) key hash = without e (cached a).
Proof.
  intros Hs Ha Hf. rewrite <- (sim_find _ _ _ _ _ _ Hs) in Hf. pose proof (sim_unique _ _ _ _ Hs Ha) as Hu.
  apply find_kh_inv in Hf as [He Ek]. split; [done|]. pose proof Ek as Ek'. rewrite (sim_kh _ _ _ _ _ Hs) in Ek'. split.
  - destruct (a_live a !! e) as [i|]; [|done]. injection Ek' as <- <-. by exists i.
  - unfold others, without. apply filter_ext_in. intros x Hx. split.
    + intros Hne ->. done.
    + intros Hne Ex. apply Hne. apply Hu; [done|done|congruence].
Qed.

Lemma sim_next capacity c a T e : sim capacity c a T → spec_ok a → e ∈ cached a → c_next c !! e ≠ Some e.
Proof. intros Hs Ha He. destruct (so_heads _ Ha e (so_cached _ Ha e He)). by apply (sm_links _ _ _ _ Hs). Qed.

(** Removing an entry from the table and from its list. *)
Lemma remove_entry_ok capacity c a key hash e :
  sim capacity c a (cached a) → spec_ok a → size_of (cached a) < 2 ^ 32 → spec_find a key hash = Some e →
  ∃ c', ('(c, r) ← Table_Remove c key hash; FinishErase c r) = Ret (c', true)
    ∧ sim capacity c' (spec_uncache a e) (cached (spec_uncache a e)) ∧ spec_ok (spec_uncache a e).
Proof.
  intros Hs Ha Hsz Hf. destruct (find_others _ _ _ _ _ _ _ Hs Ha Hf) as (He & (i & Hi & Hk & Hh) & Ho).
  destruct (Table_Remove_ok c (cached a) key hash (sm_table _ _ _ _ Hs) (sim_unique _ _ _ _ Hs Ha)) as (t & -> & Ht);
    [intros x Hx; by eapply sim_next|apply (so_nodup _ Ha)|done|].
  rewrite (sim_find _ _ _ _ _ _ Hs), Hf. cbn [mbind res_bind]. rewrite Ho in Ht.
  destruct (FinishErase_ok capacity (set_table c t) a e i (without e (cached a))) as (c' & E & Hs'); [|by apply heads_nodup|done..|].
  { destruct Hs as [Hheap Hl _ Hcap Hus Hdel]. by split. }
  exists c'. split; [exact E|]. rewrite uncache_cached. split; [done|by apply uncache_ok].
Qed.

Lemma Cache_Erase_ok capacity c a key hash :
  sim capacity c a (cached a) → spec_ok a → size_of (cached a) < 2 ^ 32 →
  ∃ c', Cache_Erase c key hash = Ret c' ∧ sim capacity c' (spec_erase a key hash) (cached (spec_erase a key hash))
    ∧ spec_ok (spec_erase a key hash).
Proof.
  intros Hs Ha Hsz. unfold Cache_Erase, spec_erase. destruct (spec_find a key hash) as [e|] eqn:Hf.
  - destruct (remove_entry_ok capacity c a key hash e Hs Ha Hsz Hf) as (c' & E & Hs'). exists c'. split; [|done].
    destruct (Table_Remove c key hash) as [[c1 r]| |]; [|done..]. cbn [mbind res_bind] in E |- *. by rewrite E.
  - destruct (Table_Remove_ok c (cached a) key hash (sm_table _ _ _ _ Hs) (sim_unique _ _ _ _ Hs Ha)) as (t & -> & Ht);
      [intros x Hx; by eapply sim_next|apply (so_nodup _ Ha)|done|].
    rewrite (sim_find _ _ _ _ _ _ Hs), Hf. cbn [mbind res_bind FinishErase].
    rewrite others_none in Ht by (by rewrite (sim_find _ _ _ _ _ _ Hs)). eexists. split; [done|]. split; [|done].
    destruct Hs as [Hheap Hl _ Hcap Hus Hdel]. by split.
Qed.

(** ** Evictions *)

Lemma sim_oldest capacity c a T :
  sim capacity c a T → next_of c lru_ = Ret (match a_lru a with e :: _ => e | [] => lru_ end).
Proof.
  intros Hs. unfold next_of. destruct (sm_links _ _ _ _ Hs) as (Hl & _ & _). unfold ring in Hl.
  destruct (a_lru a); cbn [linked app] in Hl; destruct Hl as (-> & _); done.
Qed.

Lemma find_cached a e i :
  spec_ok a → e ∈ cached a → a_live a !! e = Some i → spec_find a (i_key i) (i_hash i) = Some e.
Proof.
  intros Ha He Hi. unfold spec_find. set (P := λ x, _ = _). destruct (filter P (cached a)) as [|x l] eqn:Ef.
  - assert (e ∈ filter P (cached a)) as Hin by (apply list_elem_of_filter; split; [|done]; unfold P; by rewrite Hi).
    rewrite Ef in Hin. by apply not_elem_of_nil in Hin.
  - assert (x ∈ filter P (cached a)) as [Hx Hin]%list_elem_of_filter by (rewrite Ef; by left). cbn. f_equal.
    unfold P in Hx. destruct (a_live a !! x) as [j|] eqn:Hj; [|done]. injection Hx as Hk Hh. by eapply (so_unique _ Ha).
Qed.

Lemma evict_oldest_ok capacity c a e l :
  sim capacity c a (cached a) → spec_ok a → size_of (cached a) < 2 ^ 32 → a_lru a = e :: l →
  ∃ c', evict_oldest c e = Ret c' ∧ sim capacity c' (spec_uncache a e) (cached (spec_uncache a e))
    ∧ spec_ok (spec_uncache a e) ∧ a_lru (spec_uncache a e) = l.
Proof.
  intros Hs Ha Hsz El. assert (e ∈ a_lru a) as Hel by (rewrite El; by left). assert (e ∈ cached a) as He by (unfold cached; elem).
  destruct (so_cached _ Ha e He) as [i Hi]. unfold evict_oldest, entry. rewrite (sm_heap _ _ _ _ Hs), Hi. cbn [fmap option_fmap option_map mbind res_bind].
  cbn [entry_of e_refs e_hash]. rewrite references_zero by (by apply (so_lru _ Ha)). rewrite (decide_True (P := e ∈ cached a)) by done.
  rewrite decide_True by done. unfold key_of. rewrite decide_False by (by eapply sim_next). unfold entry. rewrite (sm_heap _ _ _ _ Hs), Hi.
  cbn [fmap option_fmap option_map mbind res_bind entry_of e_key].
  destruct (remove_entry_ok capacity c a (i_key i) (i_hash i) e Hs Ha Hsz (find_cached a e i Ha He Hi)) as (c' & E & Hs' & Hok).
  destruct (Table_Remove c (i_key i) (i_hash i)) as [[c1 r]| |]; [|done..]. cbn [mbind res_bind] in E |- *. rewrite E. cbn [mbind res_bind].
  exists c'. split; [done|]. split; [done|]. split; [done|].
  assert (a_lru (spec_uncache a e) = without e (a_lru a)) as -> by (unfold spec_uncache, spec_free; by destruct (decide _)).
  rewrite El. pose proof (so_nodup _ Ha) as Hnd. apply NoDup_app in Hnd as (Hnd & _). rewrite El in Hnd. apply NoDup_cons in Hnd as [Hn _].
  by apply (without_split e [] l); [apply not_elem_of_nil|].
Qed.

Lemma evict_ok capacity (over : LRUCache V → bool) (over' : lru_spec V → bool) fuel n c a :
  (∀ c a, sim capacity c a (cached a) → over c = over' a) →
  sim capacity c a (cached a) → spec_ok a → size_of (cached a) < 2 ^ 32 → (length (a_lru a) < fuel)%nat → (length (a_lru a) <= n)%nat →
  ∃ c', evict over fuel c = Ret c' ∧ sim capacity c' (spec_evict over' n a) (cached (spec_evict over' n a))
    ∧ spec_ok (spec_evict over' n a) ∧ (over' (spec_evict over' n a) = true → a_lru (spec_evict over' n a) = []).
Proof.
  intros Hover. revert n c a. induction fuel as [|fuel IH]; intros n c a Hs Ha Hsz Hf Hn; [lia|]. cbn [evict].
  rewrite (sim_oldest _ _ _ _ Hs), (Hover c a Hs). cbn [mbind res_bind]. destruct (a_lru a) as [|e l] eqn:El.
  - rewrite (bool_decide_eq_false_2 (lru_ ≠ lru_)) by tauto. rewrite andb_false_r. exists c. split; [done|].
    assert (spec_evict over' n a = a) as -> by (destruct n; cbn; by rewrite ?El). by rewrite El.
  - assert (e ∈ cached a) as He by (unfold cached; rewrite El; elem).
    assert (e ≠ lru_) as Hne by (apply (so_heads _ Ha), (so_cached _ Ha), He). rewrite bool_decide_eq_true_2, andb_true_r by done.
    destruct n as [|n]; [cbn in Hn; lia|]. cbn [spec_evict]. rewrite El. destruct (over' a) eqn:Eo.
    + destruct (evict_oldest_ok capacity c a e l Hs Ha Hsz El) as (c1 & -> & Hs1 & Ha1 & El1). cbn [mbind res_bind].
      apply IH; [done|done| |rewrite El1; cbn in Hf; lia|rewrite El1; cbn in Hn; lia].
      rewrite uncache_cached. pose proof (length_filter (λ x, x ≠ e) (cached a)). unfold without. lia.
    + exists c. split; [done|]. split; [done|]. split; [done|]. by rewrite Eo.
Qed.

(** ** Insertions *)

Lemma lru_size capacity c a T : sim capacity c a T → spec_ok a → (length (a_lru a) <= size (c_heap c))%nat.
Proof.
  intros Hs Ha. pose proof (so_nodup _ Ha) as Hnd. apply NoDup_app in Hnd as (Hnd & _).
  rewrite <- (size_list_to_set (C := gset Z) (a_lru a)) by done. rewrite <- size_dom. apply subseteq_size.
  intros e He%elem_of_list_to_set. apply elem_of_dom. rewrite (sm_heap _ _ _ _ Hs).
  destruct (so_cached _ Ha e) as [i ->]; [unfold cached; elem|]. by eexists.
Qed.

Definition spec_add a (keep : bool) e key hash value charge : lru_spec V :=
  mkSpec (<[e := mkInfo key hash value charge]> (a_live a)) (a_lru a) (if keep then a_used a ++ [e] else a_used a) (e :: a_held a) (a_deleted a).

Lemma add_cached a e key hash value charge : cached (spec_add a true e key hash value charge) = cached a ++ [e].
Proof. unfold cached. cbn. by rewrite app_assoc. Qed.

Section insert.
Context (capacity : Z) (c : LRUCache V) (a : lru_spec V) (e : Z) (key : bytes) (hash : Z) (value : V) (charge : Z).
Hypothesis (Hs : sim capacity c a (cached a)) (Ha : spec_ok a).
Hypothesis (Hfresh : a_live a !! e = None) (H0 : e ≠ lru_) (H1 : e ≠ in_use_).
Local Abbreviation a1 := (spec_add a true e key hash value charge).
Local Abbreviation a0 := (spec_add a false e key hash value charge).

Lemma fresh_notin x : x ∈ cached a ∨ x ∈ a_held a → x ≠ e.
Proof using Ha Hfresh.
  intros Hx ->. assert (is_Some (a_live a !! e)) as [? ?]; [|congruence].
  destruct Hx; [by apply (so_cached _ Ha)|by apply (so_held _ Ha)].
Qed.

Lemma live_old x : x ≠ e → a_live a1 !! x = a_live a !! x.
Proof. intros Hne. cbn. by rewrite lookup_insert_ne. Qed.

Lemma add_live x : is_Some (a_live a1 !! x) ↔ x = e ∨ is_Some (a_live a !! x).
Proof. cbn. destruct (decide (x = e)) as [->|Hne]; [rewrite lookup_insert_eq; split; [by left|by eexists]|rewrite lookup_insert_ne by done; tauto]. Qed.

Lemma not_added_ok : spec_ok a0.
Proof using Ha Hfresh H0 H1.
  destruct Ha as [Hnd Hhd Hc Hh Hl Hlru Hused Hu]. pose proof fresh_notin as Hne.
  split; change (cached a0) with (cached a); change (a_live a0) with (a_live a1); cbn [a_held a_lru a_used spec_add]; try done.
  - intros x [->|Hx]%add_live; [done|by apply Hhd].
  - intros x Hx. apply add_live. right. by apply Hc.
  - intros x [->|Hx]%elem_of_cons; apply add_live; [by left|right; by apply Hh].
  - intros x [->|Hx]%add_live; [right; by left|]. destruct (Hl x Hx); [by left|right; by right].
  - intros x Hx [->|Hxh]%elem_of_cons; [|by apply (Hlru x Hx)]. apply (Hne e); [left; unfold cached; elem|done].
  - intros x Hx. right. by apply Hused.
  - intros x y i i' Hx Hy. rewrite !live_old by (apply Hne; by left). by apply Hu.
Qed.

(** The fields of [spec_ok] for the state with the new entry, but for the keys. *)
Lemma added_fields :
  NoDup (cached a1) ∧ (∀ x, is_Some (a_live a1 !! x) → x ≠ lru_ ∧ x ≠ in_use_)
  ∧ (∀ x, x ∈ cached a1 → is_Some (a_live a1 !! x)) ∧ (∀ x, x ∈ a_held a1 → is_Some (a_live a1 !! x))
  ∧ (∀ x, is_Some (a_live a1 !! x) → x ∈ cached a1 ∨ x ∈ a_held a1)
  ∧ (∀ x, x ∈ a_lru a1 → x ∉ a_held a1) ∧ (∀ x, x ∈ a_used a1 → x ∈ a_held a1).
Proof using Ha Hfresh H0 H1.
  destruct Ha as [Hnd Hhd Hc Hh Hl Hlru Hused Hu]. pose proof fresh_notin as Hne. rewrite add_cached. split_and!.
  - apply NoDup_app. split; [done|]. split; [|apply NoDup_singleton]. intros x Hx ->%list_elem_of_singleton. by apply (Hne e); [left|].
  - intros x [->|Hx]%add_live; [done|by apply Hhd].
  - intros x [Hx| ->%list_elem_of_singleton]%elem_of_app; apply add_live; [right; by apply Hc|by left].
  - cbn [a_held spec_add]. intros x [->|Hx]%elem_of_cons; apply add_live; [by left|right; by apply Hh].
  - cbn [a_held spec_add]. intros x [->|Hx]%add_live; [right; by left|]. destruct (Hl x Hx); [left; elem|right; by right].
  - cbn [a_held a_lru spec_add]. intros x Hx [->|Hxh]%elem_of_cons; [|by apply (Hlru x Hx)]. apply (Hne e); [left; unfold cached; elem|done].
  - cbn [a_held a_used spec_add]. intros x [Hx| ->%list_elem_of_singleton]%elem_of_app; [right; by apply Hused|by left].
Qed.

Lemma added_find x i : x ∈ cached a → a_live a !! x = Some i → i_key i = key → i_hash i = hash → spec_find a key hash = Some x.
Proof using Ha. intros Hx Hi <- <-. by apply find_cached. Qed.

Lemma added_ok : spec_find a key hash = None → spec_ok a1.
Proof using Ha Hfresh H0 H1.
  intros Hf. destruct added_fields as (Hnd & Hhd & Hc & Hh & Hl & Hlru & Hused). split; try done.
  assert (∀ x i, x ∈ cached a → a_live a1 !! x = Some i → i_key i = key → i_hash i = hash → False) as Hno.
  { intros x i Hx Hi Hk Hk'. rewrite live_old in Hi by (apply fresh_notin; by left). by rewrite (added_find x i) in Hf. }
  assert (a_live a1 !! e = Some (mkInfo key hash value charge)) as He by (cbn; by rewrite lookup_insert_eq).
  intros x y i i'. rewrite add_cached. intros [Hx| ->%list_elem_of_singleton]%elem_of_app [Hy| ->%list_elem_of_singleton]%elem_of_app Hi Hi' Hk Hk'; [|..|done].
  - rewrite live_old in Hi, Hi' by (apply fresh_notin; by left). by eapply (so_unique _ Ha).
  - rewrite He in Hi'. injection Hi' as <-. exfalso. by eapply (Hno x i).
  - rewrite He in Hi. injection Hi as <-. exfalso. by eapply (Hno y i').
Qed.

Lemma replaced_ok old : spec_find a key hash = Some old → spec_ok (spec_uncache a1 old).
Proof using Ha Hfresh H0 H1.
  intros Hf. destruct added_fields as (Hnd & Hhd & Hc & Hh & Hl & Hlru & Hused). apply uncache_ok_but; try done.
  assert (∀ x i, x ∈ cached a → a_live a1 !! x = Some i → i_key i = key → i_hash i = hash → x = old) as Hno.
  { intros x i Hx Hi Hk Hk'. rewrite live_old in Hi by (apply fresh_notin; by left). rewrite (added_find x i) in Hf by done. by injection Hf. }
  assert (a_live a1 !! e = Some (mkInfo key hash value charge)) as He by (cbn; by rewrite lookup_insert_eq).
  intros x y i i' Hxo Hyo. rewrite add_cached. intros [Hx| ->%list_elem_of_singleton]%elem_of_app [Hy| ->%list_elem_of_singleton]%elem_of_app Hi Hi' Hk Hk'; [|..|done].
  - rewrite live_old in Hi, Hi' by (apply fresh_notin; by left). by eapply (so_unique _ Ha).
  - rewrite He in Hi'. injection Hi' as <-. destruct Hxo. by eapply (Hno x i).
  - rewrite He in Hi. injection Hi as <-. destruct Hyo. by eapply (Hno y i').
Qed.

Lemma entry_of_old cache x (i : info V) :
  x ≠ e → (x ∈ cache ↔ x ∈ cached a) → entry_of (cached a) (a_held a) x i = entry_of cache (e :: a_held a) x i.
Proof. intros Hne Hc. apply entry_of_same; [by rewrite Hc|]. rewrite references_cons, decide_False by done. lia. Qed.

Lemma entry_of_new cache :
  entry_of cache (e :: a_held a) e (mkInfo key hash value charge)
  = mkEntry value charge key (bool_decide (e ∈ cache)) (1 + if decide (e ∈ cache) then 1 else 0) hash.
Proof using Ha Hfresh.
  unfold entry_of. cbn. rewrite references_cons, references_zero by (intros Hx; by apply (fresh_notin e); [right|]).
  by rewrite (decide_True (P := e = e)).
Qed.

(** The new entry at the end of the list of those in use. *)
Lemma append_new :
  ∃ n p, LRU_Append (set_heap c (<[e := mkEntry value charge key true 2 hash]> (c_heap c))) in_use_ e
      = Ret (set_links (set_heap c (<[e := mkEntry value charge key true 2 hash]> (c_heap c))) n p)
    ∧ sim capacity (set_usage (set_links (set_heap c (<[e := mkEntry value charge key true 2 hash]> (c_heap c))) n p)
        (w64 (c_usage c + charge))) a1 (cached a).
Proof using All.
  pose proof fresh_notin as Hne. set (c1 := set_heap c _).
  destruct (LRU_Append_links c1 (a_lru a) (a_used a) e in_use_ (sm_links _ _ _ _ Hs) (heads_nodup a Ha)) as (n & p & -> & Hl); [|by right|].
  { intros [|[|Hx]%elem_of_cons]%elem_of_cons; [done..|]. by apply (Hne e); [left|]. }
  exists n, p. split; [done|]. destruct Hs as [Hheap _ Ht Hcap Hus Hdel]. split; try done.
  - intros x. cbn [c_heap c1 set_heap set_links set_usage a_live a_held spec_add]. rewrite add_cached. destruct (decide (x = e)) as [->|Hx].
    + rewrite !lookup_insert_eq. cbn [fmap option_fmap option_map]. rewrite entry_of_new, bool_decide_eq_true_2, decide_True by elem. done.
    + rewrite !lookup_insert_ne by done. rewrite Hheap. destruct (a_live a !! x); [|done]. cbn [fmap option_fmap option_map]. f_equal.
      apply entry_of_old; [done|]. set_solver.
  - eapply table_ok_heap; [|exact Ht]. intros x Hx. unfold kh. cbn [c_heap c1 set_heap set_links set_usage].
    rewrite lookup_insert_ne; [done|]. intros <-. by apply (Hne e); [left|].
  - cbn [c_usage set_usage]. rewrite Hus, w64_add, add_cached. f_equal. change (a_live a1) with (<[e := mkInfo key hash value charge]> (a_live a)).
    rewrite (total_charge_perm _ (cached a ++ [e]) (e :: cached a)) by (symmetry; apply Permutation_cons_append).
    cbn [total_charge foldr]. rewrite lookup_insert_eq. cbn [from_option i_charge].
    assert (∀ l, (∀ x, x ∈ l → x ≠ e) → total_charge (<[e := mkInfo key hash value charge]> (a_live a)) l = total_charge (a_live a) l) as Hch.
    { induction l as [|x l IH]; intros Hle; [done|]. cbn [total_charge foldr]. rewrite lookup_insert_ne by (symmetry; apply Hle; by left).
      f_equal. apply IH. intros y Hy. apply Hle. by right. }
    unfold total_charge in Hch |- *. rewrite Hch; [lia|]. intros x Hx. apply Hne. by left.
Qed.

(** Insertion into a cache with a capacity, before the eviction. *)
Definition spec_replace : lru_spec V := match spec_find a key hash with Some old => spec_uncache a1 old | None => a1 end.

Lemma insert_kept :
  size_of (cached a) + 1 < 2 ^ 31 →
  ∃ c2, (let c := set_heap c (<[e := mkEntry value charge key true 2 hash]> (c_heap c)) in
      c ← LRU_Append c in_use_ e;
      let c := set_usage c (w64 (c_usage c + charge)) in
      '(c, old) ← Table_Insert c e;
      '(c, _) ← FinishErase c old;
      Ret c) = Ret c2
    ∧ sim capacity c2 spec_replace (cached spec_replace) ∧ spec_ok spec_replace ∧ size_of (cached spec_replace) < 2 ^ 32.
Proof using All.
  intros Hsz. unfold spec_replace. cbv zeta.
  destruct append_new as (n & p & -> & Hs1). cbn [mbind res_bind]. set (c1 := set_links _ n p) in *.
  change (c_usage c1) with (c_usage c). set (c1' := set_usage c1 _) in *.
  assert (∀ x, x ∈ cached a → kh (c_heap c1') x = kh (c_heap c) x) as Hkh.
  { intros x Hx. unfold kh. cbn [c1' c1 c_heap set_usage set_links set_heap]. rewrite lookup_insert_ne; [done|]. intros <-. by apply (fresh_notin e); [left|]. }
  assert (unique_keys (c_heap c1') (cached a)) as Hu.
  { intros x y Hx Hy. rewrite !Hkh by done. by apply (sim_unique _ _ _ _ Hs Ha). }
  assert (find_kh (c_heap c1') (cached a) key hash = spec_find a key hash) as Hfind.
  { rewrite <- (sim_find _ _ _ _ key hash Hs). unfold find_kh. f_equal. apply filter_ext_in. intros x Hx. by rewrite Hkh. }
  destruct added_fields as (Hnd1 & Hhd1 & Hc1 & _).
  assert (NoDup (lru_ :: in_use_ :: a_lru a1 ++ a_used a1)) as Hnh.
  { change (NoDup (lru_ :: in_use_ :: cached a1)). constructor; [|constructor; [|done]].
    - intros [Hx|Hx%Hc1%Hhd1]%elem_of_cons; [done|]. by destruct Hx.
    - intros Hx%Hc1%Hhd1. by destruct Hx. }
  destruct (Table_Insert_ok c1' (cached a) e (mkEntry value charge key true 2 hash)) as (t & -> & Ht).
  { exact (sm_table _ _ _ _ Hs1). } { done. }
  { intros x Hx. assert (is_Some (a_live a1 !! x)) as [Hx0 Hx1]%Hhd1 by (apply Hc1; rewrite add_cached; set_solver). by apply (sm_links _ _ _ _ Hs1). }
  { constructor; [intros Hx; by apply (fresh_notin e); [left|]|apply (so_nodup _ Ha)]. }
  { lia. } { cbn [c1' c1 c_heap set_usage set_links set_heap]. by rewrite lookup_insert_eq. }
  cbn [e_key e_hash] in Ht |- *. rewrite Hfind. cbn [mbind res_bind].
  destruct (spec_find a key hash) as [old|] eqn:Hf.
  + destruct (find_others _ _ _ _ _ _ _ Hs Ha Hf) as (Ho & (i & Hi & _) & Hoth).
    assert (old ≠ e) as Hoe by (apply fresh_notin; by left).
    assert (others (c_heap c1') (cached a) key hash = without old (cached a)) as Hoth'.
    { rewrite <- Hoth. unfold others. apply filter_ext_in. intros x Hx. by rewrite Hkh. }
    rewrite Hoth' in Ht.
    destruct (FinishErase_ok capacity (set_table c1' t) a1 old i (e :: without old (cached a))) as (c2 & -> & Hs2); [|done|rewrite add_cached; elem|by rewrite live_old| |].
    { destruct Hs1 as [Hh1 Hl1 _ Hc1' Hu1 Hd1]. by split. }
    { intros x [->|[Hne Hx]%elem_of_without]%elem_of_cons; apply elem_of_without; rewrite add_cached; [split; [done|elem]|split; [done|elem]]. }
    cbn [mbind res_bind]. exists c2. split; [done|]. rewrite uncache_cached, add_cached.
    assert (without old (cached a ++ [e]) = without old (cached a) ++ [e]) as Hw.
    { unfold without. by rewrite filter_app, filter_cons_True, filter_nil. }
    rewrite Hw. split; [|split; [by apply replaced_ok|]].
    * destruct Hs2 as [Hh2 Hl2 Ht2 Hc2 Hu2 Hd2]. split; try done. eapply table_ok_perm; [|exact Ht2]. apply Permutation_cons_append.
    * rewrite length_app. cbn [length]. pose proof (length_filter (λ x, x ≠ old) (cached a)). unfold without. mlia.
  + rewrite others_none in Ht by done. cbn [FinishErase mbind res_bind]. eexists. split; [done|]. rewrite add_cached. split; [|split; [by apply added_ok|]].
    * destruct Hs1 as [Hh1 Hl1 _ Hc1' Hu1 Hd1]. split; try done. eapply table_ok_perm; [|exact Ht]. apply Permutation_cons_append.
    * rewrite length_app. cbn [length]. mlia.
Qed.

(** Without a capacity the cache keeps nothing. *)
Lemma insert_not_kept :
  size_of (cached a) + 1 < 2 ^ 31 →
  ∃ c2, (let c := set_heap c (<[e := mkEntry value charge key false 1 hash]> (c_heap c)) in
      Ret (set_links c (delete e (c_next c)) (c_prev c))) = Ret c2
    ∧ sim capacity c2 a0 (cached a0) ∧ spec_ok a0 ∧ size_of (cached a0) < 2 ^ 32.
Proof using All.
  intros Hsz. cbv zeta.
  eexists. split; [done|]. split; [|split; [apply not_added_ok|change (cached a0) with (cached a); mlia]].
  change (cached a0) with (cached a). assert (∀ x, x ∈ cached a → x ≠ e) as Hne by (intros x Hx; apply fresh_notin; by left).
  destruct Hs as [Hheap (Hl & Hu & Hn) Ht Hcp Hus Hdel]. split; try done.
  + intros x. cbn [c_heap set_heap set_links a_live a_held spec_add]. change (cached a0) with (cached a). destruct (decide (x = e)) as [->|Hx].
    * rewrite !lookup_insert_eq. cbn [fmap option_fmap option_map]. rewrite entry_of_new, bool_decide_eq_false_2, decide_False by (intros Hx; by apply (Hne e)). done.
    * rewrite !lookup_insert_ne by done. rewrite Hheap. destruct (a_live a !! x); [|done]. cbn [fmap option_fmap option_map]. f_equal. by apply entry_of_old.
  + cbn [c_next c_prev set_heap set_links a_lru a_used spec_add]. split; [|split].
    * eapply ring_other; [exact Hl|]. intros x Hx. rewrite lookup_delete_ne; [done|]. intros <-. apply elem_of_cons in Hx as [Hx|Hx]; [done|].
      apply (Hne e); [unfold cached; elem|done].
    * eapply ring_other; [exact Hu|]. intros x Hx. rewrite lookup_delete_ne; [done|]. intros <-. apply elem_of_cons in Hx as [Hx|Hx]; [done|].
      apply (Hne e); [unfold cached; elem|done].
    * intros x Hx0 Hx1. destruct (decide (x = e)) as [->|]; [by rewrite lookup_delete_eq|rewrite lookup_delete_ne by done; by apply Hn].
  + eapply table_ok_heap; [|exact Ht]. intros x Hx. unfold kh. cbn [c_heap set_heap set_links]. rewrite lookup_insert_ne; [done|]. intros <-. by apply (Hne e).
  + cbn [c_usage set_heap set_links]. rewrite Hus. f_equal. change (cached a0) with (cached a). cbn [a_live spec_add]. generalize Hne. generalize (cached a).
    induction l as [|x l IH]; intros Hle; [done|]. cbn [total_charge foldr]. rewrite lookup_insert_ne by (symmetry; apply Hle; by left).
    f_equal. apply IH. intros y Hy. apply Hle. by right.
Qed.

Lemma Cache_Insert_ok :
  capacity = c_capacity c → size_of (cached a) + 1 < 2 ^ 31 →
  ∃ c', Cache_Insert c e key hash value charge = Ret c'
    ∧ sim capacity c' (spec_insert capacity a e key hash value charge) (cached (spec_insert capacity a e key hash value charge))
    ∧ spec_ok (spec_insert capacity a e key hash value charge)
    ∧ (too_full capacity (spec_insert capacity a e key hash value charge) = true → a_lru (spec_insert capacity a e key hash value charge) = []).
Proof using All.
  intros Hcap Hsz. unfold Cache_Insert, spec_insert, spec_enter. rewrite <- Hcap. change (mkSpec _ _ (a_used a ++ [e]) _ _) with a1.
  change (mkSpec _ _ (a_used a) (e :: a_held a) _) with a0.
  fold spec_replace. set (a2 := if decide (capacity > 0) then spec_replace else a0).
  match goal with |- context [mbind _ ?m] =>
    assert (∃ c2, m = Ret c2 ∧ sim capacity c2 a2 (cached a2) ∧ spec_ok a2 ∧ size_of (cached a2) < 2 ^ 32) as (c2 & -> & Hs2 & Ha2 & Hsz2) end.
  { unfold a2. destruct (decide (capacity > 0)); [by apply insert_kept|by apply insert_not_kept]. }
  cbn [mbind res_bind]. eapply (evict_ok capacity _ (too_full capacity)); [|done|done|done|pose proof (lru_size _ _ _ _ Hs2 Ha2); lia|done].
  intros c3 a3 H3. unfold too_full. by rewrite (sm_usage _ _ _ _ H3), (sm_capacity _ _ _ _ H3).
Qed.
End insert.

(** ** The other operations *)

Lemma Cache_Prune_ok capacity c a :
  sim capacity c a (cached a) → spec_ok a → size_of (cached a) < 2 ^ 32 →
  ∃ c', Cache_Prune c = Ret c' ∧ sim capacity c' (spec_prune a) (cached (spec_prune a)) ∧ spec_ok (spec_prune a).
Proof.
  intros Hs Ha Hsz. unfold Cache_Prune, spec_prune.
  destruct (evict_ok capacity (λ _, true) (λ _, true) (S (size (c_heap c))) (length (a_lru a)) c a) as (c' & E & Hs' & Ha' & _);
    [done..|pose proof (lru_size _ _ _ _ Hs Ha); lia|done|]. by exists c'.
Qed.

Definition spec_init : lru_spec V := mkSpec ∅ [] [] [] [].

Lemma LRUCache_make_ok capacity :
  ∃ c : LRUCache V, LRUCache_make capacity = Ret c ∧ sim capacity c spec_init [] ∧ spec_ok spec_init.
Proof.
  unfold LRUCache_make. set (c := mkCache _ _ _ _ _ _ _).
  destruct (Resize_ok c []) as (t & -> & Ht); [done|done|by intros e ?%not_elem_of_nil|cbn; lia|].
  exists (set_table c t). split; [done|]. split.
  - split; try done. split; [done|]. split; [done|]. intros e H0 H1. cbn [set_table c c_next].
    rewrite lookup_insert_ne, lookup_singleton_ne by done. done.
  - split; cbn; try (by intros ? ?%not_elem_of_nil); try (by intros ? [? ?%lookup_empty_Some]). { constructor. } by intros ? ? ? ? ?%not_elem_of_nil.
Qed.

(** The destructor hands the entries of the list to their deleters. *)
Definition pair_of (live : gmap Z (info V)) (e : Z) : list (bytes * V) :=
  match live !! e with Some i => [(i_key i, i_value i)] | None => [] end.

Lemma destroy_loop_ok fuel c l (live : gmap Z (info V)) :
  linked (c_next c) (c_prev c) (l ++ [lru_]) → NoDup l → lru_ ∉ l →
  (∀ e, e ∈ l → c_next c !! e ≠ Some e ∧ ∃ i, live !! e = Some i
     ∧ c_heap c !! e = Some (mkEntry (i_value i) (i_charge i) (i_key i) true 1 (i_hash i))) →
  (length l < fuel)%nat →
  ∃ c', destroy_loop fuel c (default lru_ (head l)) = Ret c' ∧ c_heap c' = foldr delete (c_heap c) (reverse l)
    ∧ c_deleted c' = c_deleted c ++ l ≫= pair_of live.
Proof.
  revert c l. induction fuel as [|fuel IH]; intros c l Hl Hnd H0 Hin Hf; [lia|]. cbn [destroy_loop].
  destruct l as [|e l]; cbn [head default from_option id].
  { rewrite decide_True by done. exists c. split; [done|]. split; [done|]. cbn. by rewrite app_nil_r. }
  rewrite decide_False by set_solver. destruct (Hin e) as (Hne & i & Hi & He); [by left|].
  assert (c_next c !! e = Some (default lru_ (head l))) as Hnx by (destruct l; cbn in Hl; destruct Hl as (-> & _); done).
  unfold next_of.
  rewrite Hnx. cbn [mbind res_bind]. unfold entry. rewrite He. cbn [mbind res_bind e_in_cache e_refs].
  rewrite decide_True by done. unfold Unref, entry. cbn [c_heap set_heap]. rewrite lookup_insert_eq. cbn [mbind res_bind set_refs e_refs e_in_cache].
  rewrite decide_True by lia. rewrite decide_True by done. unfold key_of. cbn [c_next set_heap]. rewrite decide_False by done.
  unfold entry. cbn [c_heap set_heap]. rewrite lookup_insert_eq. cbn [mbind res_bind e_key].
  apply NoDup_cons in Hnd as [Hel Hnd].
  destruct (IH (mkCache (delete e (<[e := mkEntry (i_value i) (i_charge i) (i_key i) false 0 (i_hash i)]>
      (<[e := mkEntry (i_value i) (i_charge i) (i_key i) false 1 (i_hash i)]> (c_heap c)))) (c_next c) (c_prev c) (c_table c) (c_capacity c) (c_usage c)
      (c_deleted c ++ [(i_key i, i_value i)])) l) as (c' & E & Hh & Hd).
  - cbn [c_next c_prev]. destruct l; [done|]. by destruct Hl as (_ & _ & ?).
  - done.
  - set_solver.
  - intros x Hx. destruct (Hin x) as (Hnex & j & Hj & Hhx); [by right|]. split; [done|]. exists j. split; [done|]. cbn [c_heap].
    rewrite lookup_delete_ne, !lookup_insert_ne by (by intros ->). done.
  - cbn in Hf. lia.
  - exists c'. split; [exact E|]. split.
    + rewrite Hh. cbn [c_heap]. rewrite !delete_insert_eq. rewrite reverse_cons, foldr_app. done.
    + rewrite Hd. cbn [c_deleted]. rewrite <- app_assoc. f_equal. cbn. unfold pair_of at 2. by rewrite Hi.
Qed.
End refines.

(** ** Runs *)

Section runs.
Context {V : Type}.

Inductive cache_op :=
| Op_Insert (e : Z) (key : bytes) (hash : Z) (value : V) (charge : Z)
| Op_Lookup (key : bytes) (hash : Z)
| Op_Release (e : Z)
| Op_Erase (key : bytes) (hash : Z)
| Op_Prune.

(** The operation and the handle it returns. *)
Definition apply_op (c : LRUCache V) (op : cache_op) : res (LRUCache V * option Z) :=
  match op with
  | Op_Insert e key hash value charge => c ← Cache_Insert c e key hash value charge; Ret (c, Some e)
  | Op_Lookup key hash => Cache_Lookup c key hash
  | Op_Release e => c ← Cache_Release c e; Ret (c, None)
  | Op_Erase key hash => c ← Cache_Erase c key hash; Ret (c, None)
  | Op_Prune => c ← Cache_Prune c; Ret (c, None)
  end.

Definition spec_op (capacity : Z) (a : lru_spec V) (op : cache_op) : lru_spec V * option Z :=
  match op with
  | Op_Insert e key hash value charge => (spec_insert capacity a e key hash value charge, Some e)
  | Op_Lookup key hash => spec_lookup a key hash
  | Op_Release e => (spec_release a e, None)
  | Op_Erase key hash => (spec_erase a key hash, None)
  | Op_Prune => (spec_prune a, None)
  end.

(** What clients have to respect: [malloc] returns memory that is not in use, a
    handle is released by those who hold it, and the counters are wide enough. *)
Definition legal (a : lru_spec V) (op : cache_op) : Prop :=
  match op with
  | Op_Insert e _ _ _ _ => a_live a !! e = None ∧ e ≠ lru_ ∧ e ≠ in_use_ ∧ size_of (cached a) + 1 < 2 ^ 31 ∧ size_of (a_held a) + 3 < 2 ^ 32
  | Op_Lookup _ _ => size_of (a_held a) + 3 < 2 ^ 32
  | Op_Release e => e ∈ a_held a
  | Op_Erase _ _ | Op_Prune => True
  end.

Fixpoint run_ops (c : LRUCache V) (ops : list cache_op) : res (LRUCache V * list (option Z)) :=
  match ops with
  | [] => Ret (c, [])
  | op :: ops => '(c, r) ← apply_op c op; '(c, rs) ← run_ops c ops; Ret (c, r :: rs)
  end.

Fixpoint spec_ops (capacity : Z) (a : lru_spec V) (ops : list cache_op) : lru_spec V * list (option Z) :=
  match ops with
  | [] => (a, [])
  | op :: ops => let '(a, r) := spec_op capacity a op in let '(a, rs) := spec_ops capacity a ops in (a, r :: rs)
  end.

Fixpoint legal_ops (capacity : Z) (a : lru_spec V) (ops : list cache_op) : Prop :=
  match ops with
  | [] => True
  | op :: ops => legal a op ∧ legal_ops capacity (spec_op capacity a op).1 ops
  end.

(** Sizes that the operations keep. *)
Definition sized (a : lru_spec V) : Prop := size_of (cached a) < 2 ^ 31 ∧ size_of (a_held a) + 2 < 2 ^ 32.

Lemma evict_shrinks over n (a : lru_spec V) :
  (length (cached (spec_evict over n a)) <= length (cached a))%nat ∧ a_held (spec_evict over n a) = a_held a.
Proof.
  revert a. induction n as [|n IH]; intros a; cbn [spec_evict]; [done|]. destruct (a_lru a) as [|e l]; [done|]. destruct (over a); [|done].
  destruct (IH (spec_uncache a e)) as [H1 ->]. split.
  - rewrite uncache_cached in H1. pose proof (length_filter (λ x, x ≠ e) (cached a)). unfold without in H1. lia.
  - unfold spec_uncache, spec_free. by destruct (decide _).
Qed.

Lemma uncache_shrinks (a : lru_spec V) e :
  (length (cached (spec_uncache a e)) <= length (cached a))%nat ∧ a_held (spec_uncache a e) = a_held a.
Proof.
  rewrite uncache_cached. split; [apply length_filter|]. unfold spec_uncache, spec_free. by destruct (decide _).
Qed.

Lemma enter_sizes capacity (a : lru_spec V) e key hash v ch :
  (length (cached (spec_enter capacity a e key hash v ch)) <= length (cached a) + 1)%nat
  ∧ a_held (spec_enter capacity a e key hash v ch) = e :: a_held a.
Proof.
  unfold spec_enter. change (mkSpec _ _ (a_used a ++ [e]) _ _) with (spec_add a true e key hash v ch).
  destruct (decide (capacity > 0)); [|cbn; split; [unfold cached; cbn; lia|done]]. destruct (spec_find a key hash) as [old|].
  - destruct (uncache_shrinks (spec_add a true e key hash v ch) old) as [H1 ->]. rewrite add_cached, length_app in H1. split; [cbn in H1; lia|done].
  - rewrite add_cached, length_app. split; [cbn; lia|done].
Qed.

Lemma drop_one_length e l : (length (drop_one e l) <= length l)%nat.
Proof. induction l as [|x l IH]; cbn [drop_one length]; [lia|]. case_decide; cbn [length]; lia. Qed.

Lemma op_sized capacity a op : spec_ok a → sized a → legal a op → sized (spec_op capacity a op).1.
Proof.
  intros Ha [Hc Hh] Hl. destruct op as [e key hash v ch|key hash|e|key hash|]; cbn [spec_op legal fst] in *; unfold sized.
  - destruct Hl as (_ & _ & _ & Hlc & Hlh). unfold spec_insert. destruct (enter_sizes capacity a e key hash v ch) as [H1 H2].
    destruct (evict_shrinks (too_full capacity) (length (a_lru (spec_enter capacity a e key hash v ch))) (spec_enter capacity a e key hash v ch)) as [H3 H4].
    rewrite H4, H2. cbn [length]. lia.
  - unfold spec_lookup. destruct (spec_find a key hash) as [e|] eqn:Ef; [|done]. change (mkSpec _ _ _ _ _) with (spec_hold a e). cbn [fst].
    rewrite (hold_cached a e Ha); [cbn [spec_hold a_held length]; lia|]. unfold spec_find in Ef.
    destruct (filter _ (cached a)) as [|x l] eqn:El; [done|]. injection Ef as ->. eapply list_elem_of_filter. rewrite El. by left.
  - unfold spec_release. pose proof (drop_one_length e (a_held a)). destruct (decide (e ∈ drop_one e (a_held a))); [cbn [a_held]; change (cached _) with (cached a); lia|].
    destruct (decide (e ∈ a_used a)) as [He|He].
    + unfold cached in *. cbn [a_lru a_used a_held]. pose proof (so_nodup _ Ha) as Hnd. apply NoDup_app in Hnd as (_ & _ & Hnd).
      pose proof (Permutation_length (without_perm e (a_used a) Hnd He)) as Hp. rewrite !length_app in *. cbn [length] in *. lia.
    + unfold spec_free. destruct (decide _); cbn [a_held]; (split; [exact Hc|lia]).
  - unfold spec_erase. destruct (spec_find a key hash) as [e|]; [|done]. destruct (uncache_shrinks a e) as [H1 ->]. lia.
  - unfold spec_prune. destruct (evict_shrinks (λ _, true) (length (a_lru a)) a) as [H1 ->]. lia.
Qed.

(** Every operation that clients may start does what the contract says. *)
Lemma apply_op_ok capacity c a op :
  sim capacity c a (cached a) → spec_ok a → sized a → legal a op →
  ∃ c', apply_op c op = Ret (c', (spec_op capacity a op).2)
    ∧ sim capacity c' (spec_op capacity a op).1 (cached (spec_op capacity a op).1) ∧ spec_ok (spec_op capacity a op).1.
Proof.
  intros Hs Ha [Hc Hh] Hl. destruct op as [e key hash v ch|key hash|e|key hash|]; cbn [apply_op spec_op legal fst snd] in *.
  - destruct Hl as (Hf & H0 & H1 & Hlc & Hlh).
    destruct (Cache_Insert_ok capacity c a e key hash v ch Hs Ha Hf H0 H1) as (c' & -> & Hs' & Ha' & _); [by rewrite (sm_capacity _ _ _ _ Hs)|done|]. by exists c'.
  - by apply Cache_Lookup_ok.
  - destruct (Cache_Release_ok capacity c a e Hs Ha Hl Hh) as (c' & -> & Hs'). by exists c'.
  - destruct (Cache_Erase_ok capacity c a key hash Hs Ha) as (c' & -> & Hs'); [mlia|]. by exists c'.
  - destruct (Cache_Prune_ok capacity c a Hs Ha) as (c' & -> & Hs'); [mlia|]. by exists c'.
Qed.

Lemma run_ops_ok capacity ops c a :
  sim capacity c a (cached a) → spec_ok a → sized a → legal_ops capacity a ops →
  ∃ c', run_ops c ops = Ret (c', (spec_ops capacity a ops).2)
    ∧ sim capacity c' (spec_ops capacity a ops).1 (cached (spec_ops capacity a ops).1) ∧ spec_ok (spec_ops capacity a ops).1.
Proof.
  revert c a. induction ops as [|op ops IH]; intros c a Hs Ha Hz Hl; cbn [run_ops spec_ops legal_ops] in *; [by exists c|].
  destruct Hl as [Hl Hls]. destruct (apply_op_ok capacity c a op Hs Ha Hz Hl) as (c1 & -> & Hs1 & Ha1). pose proof (op_sized capacity a op Ha Hz Hl) as Hz1.
  destruct (spec_op capacity a op) as [a1 r]. cbn [fst snd] in *. cbn [mbind res_bind].
  destruct (IH c1 a1 Hs1 Ha1 Hz1 Hls) as (c2 & -> & Hs2 & Ha2). destruct (spec_ops capacity a1 ops) as [a2 rs]. cbn [fst snd] in *. by exists c2.
Qed.

(** ** Every entry reaches its deleter once *)

Definition live_pairs (live : gmap Z (info V)) : list (bytes * V) := (λ p, (i_key p.2, i_value p.2)) <$> map_to_list live.

(** The entries so far: deleted or live. *)
Definition account (a : lru_spec V) : list (bytes * V) := a_deleted a ++ live_pairs (a_live a).

Definition inserted (ops : list cache_op) : list (bytes * V) :=
  ops ≫= λ op, match op with Op_Insert _ key _ value _ => [(key, value)] | _ => [] end.

Lemma free_account a e : account (spec_free a e) ≡ₚ account a.
Proof.
  unfold spec_free. destruct (decide _); [done|]. unfold account, live_pairs. cbn [a_deleted a_live].
  destruct (a_live a !! e) as [i|] eqn:Hi; [|by rewrite delete_id, app_nil_r].
  rewrite <- (map_to_list_delete (a_live a) e i Hi), fmap_cons, <- app_assoc. done.
Qed.

Lemma evict_account over n a : account (spec_evict over n a) ≡ₚ account a.
Proof.
  revert a. induction n as [|n IH]; intros a; cbn [spec_evict]; [done|]. destruct (a_lru a) as [|e l]; [done|]. destruct (over a); [|done].
  rewrite IH. unfold spec_uncache. by rewrite free_account.
Qed.

Lemma op_account capacity a op : spec_ok a → legal a op → account (spec_op capacity a op).1 ≡ₚ account a ++ inserted [op].
Proof.
  intros Ha Hl. destruct op as [e key hash v ch|key hash|e|key hash|]; cbn [spec_op fst legal] in *; unfold inserted; cbn [mbind list_bind]; rewrite ?app_nil_r.
  - unfold spec_insert. rewrite evict_account. destruct Hl as (Hf & _).
    assert (∀ keep, account (spec_add a keep e key hash v ch) ≡ₚ account a ++ [(key, v)]) as Hadd.
    { intros keep. unfold account, live_pairs. cbn [a_deleted a_live spec_add]. rewrite map_to_list_insert, fmap_cons by done.
      by rewrite <- app_assoc, <- Permutation_cons_append. }
    unfold spec_enter. change (mkSpec _ _ (a_used a ++ [e]) _ _) with (spec_add a true e key hash v ch).
    destruct (decide (capacity > 0)); [|by apply (Hadd false)]. destruct (spec_find a key hash) as [old|]; [|by apply (Hadd true)].
    unfold spec_uncache. rewrite free_account. by apply (Hadd true).
  - unfold spec_lookup. by destruct (spec_find a key hash).
  - unfold spec_release. destruct (decide _); [done|]. destruct (decide _); [done|]. by rewrite free_account.
  - unfold spec_erase, spec_uncache. destruct (spec_find a key hash); [|done]. by rewrite free_account.
  - unfold spec_prune. by rewrite evict_account.
Qed.

Lemma ops_account capacity ops c a :
  sim capacity c a (cached a) → spec_ok a → sized a → legal_ops capacity a ops →
  account (spec_ops capacity a ops).1 ≡ₚ account a ++ inserted ops.
Proof.
  revert c a. induction ops as [|op ops IH]; intros c a Hs Ha Hz Hl; cbn [spec_ops legal_ops] in *; [by rewrite app_nil_r|].
  destruct Hl as [Hl Hls]. destruct (apply_op_ok capacity c a op Hs Ha Hz Hl) as (c1 & _ & Hs1 & Ha1).
  pose proof (op_sized capacity a op Ha Hz Hl) as Hz1. pose proof (op_account capacity a op Ha Hl) as Hacc.
  destruct (spec_op capacity a op) as [a1 r]. cbn [fst snd] in *. specialize (IH c1 a1 Hs1 Ha1 Hz1 Hls).
  destruct (spec_ops capacity a1 ops) as [a2 rs]. cbn [fst snd] in *. rewrite IH, Hacc, <- app_assoc.
  unfold inserted. cbn [mbind list_bind]. by rewrite app_nil_r.
Qed.

Lemma foldr_delete_all (m : gmap Z (LRUHandle V)) l : (∀ e, is_Some (m !! e) → e ∈ l) → foldr delete m l = ∅.
Proof.
  intros Hl. apply map_empty. intros e. destruct (decide (e ∈ l)) as [He|He].
  - by apply lookup_foldr_delete.
  - rewrite lookup_foldr_delete_not_elem_of by done. destruct (m !! e) eqn:Em; [|done]. destruct He. apply Hl. by eexists.
Qed.

Lemma live_pairs_listed (live : gmap Z (info V)) l :
  NoDup l → (∀ e, is_Some (live !! e) → e ∈ l) → (∀ e, e ∈ l → is_Some (live !! e)) → live_pairs live ≡ₚ l ≫= pair_of live.
Proof.
  intros Hnd. revert live. induction Hnd as [|e l He Hnd IH]; intros live Hl Hin.
  { assert (live = ∅) as ->; [|done]. apply map_empty. intros e. destruct (live !! e) eqn:E; [|done].
    assert (e ∈ []) as Hx by (apply Hl; by eexists). by apply not_elem_of_nil in Hx. }
  destruct (Hin e) as [i Hi]; [by left|]. unfold live_pairs. rewrite <- (map_to_list_delete live e i Hi), fmap_cons.
  change (_ <$> map_to_list (delete e live)) with (live_pairs (delete e live)). rewrite IH.
  - rewrite bind_cons. unfold pair_of at 2. rewrite Hi. cbn. f_equiv.
    assert (∀ k, e ∉ k → k ≫= pair_of (delete e live) = k ≫= pair_of live) as ->; [|done|done].
    induction k as [|x k IHk]; intros Hk; [done|]. apply not_elem_of_cons in Hk as [Hx Hk]. rewrite !bind_cons, IHk by done.
    unfold pair_of at 1. by rewrite lookup_delete_ne.
  - intros x Hx. destruct (decide (x = e)) as [->|Hne]; [rewrite lookup_delete_eq in Hx; by destruct Hx|]. rewrite lookup_delete_ne in Hx by done.
    apply Hl, elem_of_cons in Hx as [|]; done.
  - intros x Hx. rewrite lookup_delete_ne by (by intros ->). apply Hin. by right.
Qed.

Lemma Cache_destroy_ok capacity c a :
  sim capacity c a (cached a) → spec_ok a → a_held a = [] →
  ∃ c', Cache_destroy c = Ret c' ∧ c_heap c' = ∅ ∧ c_deleted c' ≡ₚ account a.
Proof.
  intros Hs Ha Hh. assert (a_used a = []) as Hu.
  { destruct (a_used a) as [|e l] eqn:E; [done|]. assert (e ∈ a_held a) as Hx by (apply (so_used _ Ha); rewrite E; by left). rewrite Hh in Hx. by apply not_elem_of_nil in Hx. }
  pose proof Hs as [Hheap (Hl & Hlu & Hn) Ht Hcap Hus Hdel]. assert (cached a = a_lru a) as Hc by (unfold cached; by rewrite Hu, app_nil_r).
  unfold Cache_destroy. rewrite Hu in Hlu.
  assert (next_of c in_use_ = Ret in_use_) as -> by (unfold next_of; by destruct Hlu as (-> & _)). cbn [mbind res_bind]. rewrite decide_True by done.
  rewrite (sim_oldest _ _ _ _ Hs). cbn [mbind res_bind].
  assert (∀ e, is_Some (a_live a !! e) → e ∈ a_lru a) as Hlive.
  { intros e He. destruct (so_live _ Ha e He) as [Hx|Hx]; [by rewrite Hc in Hx|]. rewrite Hh in Hx. by apply not_elem_of_nil in Hx. }
  destruct (destroy_loop_ok (S (size (c_heap c))) c (a_lru a) (a_live a)) as (c' & E & Hh' & Hd').
  - unfold ring in Hl. destruct (a_lru a) as [|x l]; [done|]. by destruct Hl as (_ & _ & ?).
  - rewrite <- Hc. apply (so_nodup _ Ha).
  - intros Hx. rewrite <- Hc in Hx. by destruct (so_heads _ Ha lru_ (so_cached _ Ha _ Hx)).
  - intros e He. rewrite <- Hc in He. destruct (so_cached _ Ha e He) as [i Hi]. destruct (so_heads _ Ha e) as [H0 H1]; [by eexists|].
    split; [by apply Hn|]. exists i. split; [done|]. rewrite Hheap, Hi. cbn [fmap option_fmap option_map]. unfold entry_of.
    rewrite bool_decide_eq_true_2, decide_True, Hh by done. done.
  - pose proof (lru_size _ _ _ _ Hs Ha). lia.
  - exists c'. split; [rewrite <- E; f_equal; by destruct (a_lru a)|]. split.
    + rewrite Hh'. apply foldr_delete_all. intros e He. rewrite Hheap in He. rewrite elem_of_reverse. apply Hlive. by rewrite fmap_is_Some in He.
    + rewrite Hd', Hdel. unfold account. f_equiv.
      symmetry. apply live_pairs_listed; [|done|].
      * rewrite <- Hc. apply (so_nodup _ Ha).
      * intros e He. apply (so_cached _ Ha). by rewrite Hc.
Qed.

Lemma spec_ops_app capacity a ops op : (spec_ops capacity a (ops ++ [op])).1 = (spec_op capacity (spec_ops capacity a ops).1 op).1.
Proof.
  revert a. induction ops as [|o ops IH]; intros a; cbn [app spec_ops].
  - cbn [fst]. by destruct (spec_op capacity a op).
  - destruct (spec_op capacity a o) as [a1 r]. specialize (IH a1). destruct (spec_ops capacity a1 (ops ++ [op])), (spec_ops capacity a1 ops). exact IH.
Qed.

Lemma legal_ops_app capacity a ops op : legal_ops capacity a (ops ++ [op]) → legal_ops capacity a ops ∧ legal (spec_ops capacity a ops).1 op.
Proof.
  revert a. induction ops as [|o ops IH]; intros a; cbn [app legal_ops spec_ops]; [tauto|]. intros [Ho Hl]. destruct (spec_op capacity a o) as [a1 r].
  cbn [fst] in Hl |- *. destruct (IH a1 Hl) as [H1 H2]. destruct (spec_ops capacity a1 ops). done.
Qed.

(** After an insertion the cache is not too full, unless nothing can leave. *)
Lemma insert_not_full capacity ops e key hash v ch :
  legal_ops capacity spec_init (ops ++ [Op_Insert e key hash v ch]) →
  let a := (spec_ops capacity spec_init (ops ++ [Op_Insert e key hash v ch])).1 in
  too_full capacity a = true → a_lru a = [].
Proof.
  intros [Hl Hi]%legal_ops_app. cbv zeta. rewrite spec_ops_app. destruct (LRUCache_make_ok (V := V) capacity) as (c0 & _ & Hs0 & Ha0).
  destruct (run_ops_ok capacity ops c0 spec_init Hs0 Ha0) as (c & _ & Hs & Ha); [done|done|].
  destruct Hi as (Hf & H0 & H1 & Hz & _).
  by destruct (Cache_Insert_ok capacity c _ e key hash v ch Hs Ha Hf H0 H1) as (c' & _ & _ & _ & Hfull); [by rewrite (sm_capacity _ _ _ _ Hs)|done|].
Qed.
End runs.

(** ** Shards *)

Section shards.
Context {V : Type}.

Lemma Shard_lt hash : is_u32 hash → (Shard hash < Z.to_nat kNumShards)%nat.
Proof.
  intros H. unfold Shard, kNumShards, kNumShardBits. change (32 - 8) with 24. rewrite Z.shiftr_div_pow2 by lia.
  change (1 ≪ 8) with 256. unfold is_u32 in H. pow2_consts. Z.div_mod_to_equations. lia.
Qed.

(** All shards are simulated. *)
Definition sharded_sim (capacity : Z) (s : ShardedLRUCache V) (l : list (lru_spec V)) : Prop :=
  length l = Z.to_nat kNumShards
  ∧ Forall2 (λ c a, sim capacity c a (cached a) ∧ spec_ok a ∧ sized a) (shard_ s) l.

Lemma NewLRUCache_ok capacity :
  0 <= capacity < 2 ^ 63 →
  ∃ s, NewLRUCache capacity = Ret s ∧ capacity <= TotalCapacity s
    ∧ sharded_sim ((capacity + 255) / 256) s (replicate (Z.to_nat kNumShards) spec_init).
Proof.
  intros Hc. unfold NewLRUCache. change (kNumShards - 1) with 255. rewrite w64_small by mlia. change kNumShards with 256.
  destruct (LRUCache_make_ok (V := V) ((capacity + 255) / 256)) as (c & E & Hs & Ha). rewrite E. cbn [mbind res_bind]. eexists. split; [done|]. split.
  - unfold TotalCapacity. cbn [shard_]. change (Z.to_nat kNumShards) with 256%nat. pose proof (sm_capacity _ _ _ _ Hs) as Hcap.
    set (q := (capacity + 255) / 256) in *. assert (0 <= q /\ capacity <= 256 * q /\ 256 * q < 2 ^ 64) as (Hq & Hle & Hlt).
    { unfold q. pow2_consts. Z.div_mod_to_equations. lia. }
    assert (∀ n t, 0 <= t → t + Z.of_nat n * q < 2 ^ 64 → foldl (λ total c, w64 (total + c_capacity c)) t (replicate n c) = t + Z.of_nat n * q) as Hsum.
    { induction n as [|n IH]; intros t Ht Hb; cbn [replicate foldl]; [lia|]. rewrite Hcap, w64_small by (split; nia). rewrite IH; nia. }
    rewrite Hsum by lia. lia.
  - split; [by rewrite length_replicate|]. cbn [shard_]. apply Forall2_same_length_lookup. rewrite !length_replicate. split; [done|].
    intros i x y [-> _]%lookup_replicate [-> _]%lookup_replicate. split; [done|]. split; [done|]. done.
Qed.

(** A lookup in the sharded cache is one in the shard of its hash; the other
    shards do not change. *)
Lemma Sharded_Lookup_ok capacity s l key a :
  sharded_sim capacity s l → is_u32 (Hash key 0) → l !! Shard (Hash key 0) = Some a → size_of (a_held a) + 3 < 2 ^ 32 →
  ∃ s', Sharded_Lookup s key = Ret (s', (spec_lookup a key (Hash key 0)).2)
    ∧ sharded_sim capacity s' (<[Shard (Hash key 0) := (spec_lookup a key (Hash key 0)).1]> l).
Proof.
  intros [Hlen HF] Hu Ha Hb. unfold Sharded_Lookup, on_shard. destruct (Forall2_lookup_r _ _ _ _ _ HF Ha) as (c & Hc & Hs & Hok & Hz). rewrite Hc.
  destruct (apply_op_ok capacity c a (Op_Lookup key (Hash key 0)) Hs Hok Hz Hb) as (c' & E & Hs' & Hok'). cbn [apply_op spec_op] in E, Hs', Hok'.
  rewrite E. cbn [mbind res_bind]. eexists. split; [done|]. split; [by rewrite length_insert|]. cbn [shard_]. apply Forall2_insert; [done|]. split; [done|]. split; [done|].
  exact (op_sized capacity a (Op_Lookup key (Hash key 0)) Hok Hz Hb).
Qed.
End shards.

(** C15. The cache does what its contract says.  In every sequence of operations by
    clients that release only what they hold, no operation fails an assertion or
    touches a freed entry, and each returns the handle that the contract names.
    The contents of a handle that a client holds are those that were inserted.
    Every inserted entry is either live or was handed to its deleter exactly
    once, and the destructor, once all handles are released, hands over the
    rest.  After an insertion the usage is within the capacity unless every
    cached entry is held by a client. *)
Theorem lru_cache_refines {V : Type} (capacity : Z) (ops : list (cache_op (V := V))) :
  legal_ops capacity spec_init ops →
  ∃ c a rs, spec_ops capacity spec_init ops = (a, rs)
    ∧ (c ← LRUCache_make capacity; run_ops c ops) = Ret (c, rs)
    ∧ c_deleted c = a_deleted a ∧ inserted ops ≡ₚ c_deleted c ++ live_pairs (a_live a)
    ∧ (∀ e, e ∈ a_held a → ∃ i h, a_live a !! e = Some i ∧ entry c e = Ret h ∧ e_value h = i_value i ∧ e_key h = i_key i)
    ∧ (a_held a = [] → ∃ c', Cache_destroy c = Ret c' ∧ c_heap c' = ∅ ∧ c_deleted c' ≡ₚ inserted ops)
    ∧ (∀ ops' e key hash v ch, ops = ops' ++ [Op_Insert e key hash v ch] → c_usage c <= capacity ∨ ∀ x, x ∈ cached a → x ∈ a_held a).
Proof.
  intros Hl. destruct (LRUCache_make_ok (V := V) capacity) as (c0 & -> & Hs0 & Ha0). cbn [mbind res_bind].
  destruct (run_ops_ok capacity ops c0 spec_init Hs0 Ha0) as (c & -> & Hs & Ha); [done|done|].
  pose proof (ops_account capacity ops c0 spec_init Hs0 Ha0 ltac:(done) Hl) as Hacc. pose proof (insert_not_full (V := V) capacity) as Hfull.
  destruct (spec_ops capacity spec_init ops) as [a rs] eqn:Eops. cbn [fst snd] in *. exists c, a, rs.
  split; [done|]. split; [done|]. split; [apply (sm_deleted _ _ _ _ Hs)|]. rewrite (sm_deleted _ _ _ _ Hs). split; [by rewrite <- Hacc|]. split; [|split].
  - intros e He. destruct (so_held _ Ha e He) as [i Hi]. unfold entry. rewrite (sm_heap _ _ _ _ Hs), Hi. by eexists i, _.
  - intros Hh. destruct (Cache_destroy_ok capacity c a Hs Ha Hh) as (c' & E & Hem & Hd). exists c'. split; [done|]. split; [done|]. by rewrite Hd, Hacc.
  - intros ops' e key hash v ch ->. specialize (Hfull ops' e key hash v ch Hl). cbv zeta in Hfull. rewrite Eops in Hfull. cbn [fst] in Hfull.
    unfold too_full in Hfull. rewrite <- (sm_usage _ _ _ _ Hs) in Hfull. destruct (decide (c_usage c <= capacity)) as [|Hgt]; [by left|]. right.
    intros x [Hx|Hx]%elem_of_app; [|by apply (so_used _ Ha)]. rewrite Hfull in Hx; [by apply not_elem_of_nil in Hx|]. apply bool_decide_eq_true_2. lia.
Qed.

(** A full cache drops the entry that was released first. *)
Lemma lru_cache_refines_witness :
  ∃ c a, (c ← LRUCache_make 2;
      run_ops c [Op_Insert 10 [97] 1 11 1; Op_Insert 20 [98] 2 22 1; Op_Release 20; Op_Release 10; Op_Lookup [97] 1;
        Op_Insert 30 [99] 3 33 1; Op_Lookup [98] 2])
      = Ret (c, [Some 10; Some 20; None; None; Some 10; Some 30; None])
    ∧ a_held a = [30; 10] ∧ inserted [Op_Insert 10 [97] 1 11 1; Op_Insert 20 [98] 2 22 1; Op_Insert 30 [99] 3 33 1] ≡ₚ c_deleted c ++ live_pairs (a_live a).
Proof.
  destruct (lru_cache_refines 2 [Op_Insert 10 [97] 1 11 1; Op_Insert 20 [98] 2 22 1; Op_Release 20; Op_Release 10; Op_Lookup [97] 1;
        Op_Insert 30 [99] 3 33 1; Op_Lookup [98] 2]) as (c & a & rs & E & Er & _ & Hins & _).
  - repeat split; try (by vm_compute); cbn [legal]; apply (bool_decide_eq_true_1 (_ ∈ _)); by vm_compute.
  - vm_compute in E. injection E as <- <-. exists c. eexists. split; [exact Er|]. split; [|exact Hins]. done.
Defined.
