(* ===== verification/MemManager.v ===== *)
(** * MemManager: the slab allocator

    [common/nova_mem_manager.h] and [common/nova_mem_manager.cpp].  The
    registered memory of a server is split into partitions, a partition into
    slabs, and a slab into the items of one size class.  A [Slab *] is the
    position at which the constructor created the slab, an address an integer
    and [nullptr] 0.  Members that a constructor leaves uninitialised are
    [None].  Each method runs under the mutex of its size class, so it is one
    step. *)

From S2P Require Import Prelude Arena.

Definition MAX_NUMBER_OF_SLAB_CLASSES : nat := 64.
Definition SLAB_SIZE_FACTOR : Z := 2.

Record Slab := mkSlab {
  item_size_ : option Z;
  next_ : Z;
  available_bytes_ : Z;
  sl_size_mb_ : Z
}.

Definition Slab_make (base slab_size_mb : Z) : Slab := mkSlab None base 0 slab_size_mb.

(** [Slab::Init(item_size)]; the product of two [uint32_t] wraps. *)
Definition Slab_Init (slab : Slab) (item_size : Z) : res Slab :=
  let size := w64 (sl_size_mb_ slab * 1024 * 1024) in
  if decide (item_size = 0) then Abort
  else
    let num_items := w32 (size `div` item_size) in
    Ret (mkSlab (Some item_size) (next_ slab) (w32 (item_size * num_items)) (sl_size_mb_ slab)).

(** [Slab::AllocItem()]. *)
Definition Slab_AllocItem (slab : Slab) : res (Slab * Z) :=
  match item_size_ slab with
  | None => Abort
  | Some item_size =>
      if decide (available_bytes_ slab < item_size) then Ret (slab, 0)
      else Ret (mkSlab (item_size_ slab) (next_ slab + item_size) (available_bytes_ slab - item_size) (sl_size_mb_ slab),
                next_ slab)
  end.

Record SlabClass := mkClass {
  nitems_per_slab : Z;
  sc_size : Z;
  slabs : list nat;
  free_list : list Z
}.

Definition SlabClass_AddSlab (c : SlabClass) (slab : nat) : SlabClass :=
  mkClass (nitems_per_slab c) (sc_size c) (slabs c ++ [slab]) (free_list c).

Definition SlabClass_FreeItem (c : SlabClass) (buf : Z) : SlabClass :=
  mkClass (nitems_per_slab c) (sc_size c) (slabs c) (free_list c ++ [buf]).

(** A slab behind its pointer. *)
Definition slab_at (heap : list Slab) (slab : nat) : res Slab :=
  match heap !! slab with Some s => Ret s | None => Abort end.

(** [SlabClass::AllocItem()]. *)
Definition SlabClass_AllocItem (heap : list Slab) (c : SlabClass) : res (list Slab * SlabClass * Z) :=
  match free_list c with
  | ptr :: rest =>
      if decide (ptr = 0) then Abort
      else Ret (heap, mkClass (nitems_per_slab c) (sc_size c) (slabs c) rest, ptr)
  | [] =>
      match last (slabs c) with
      | None => Ret (heap, c, 0)
      | Some i =>
          slab ← slab_at heap i;
          '(slab, buf) ← Slab_AllocItem slab;
          Ret (<[i := slab]> heap, c, buf)
      end
  end.

Record NovaPartitionedMemManager := mkPartitioned {
  pm_heap : list Slab;
  slab_classes_ : list SlabClass;
  print_class_oom : bool;
  free_slabs_ : list nat;
  free_slab_index_ : Z;
  slab_size_mb_ : Z
}.

(** The loop that sets the sizes of the classes. *)
Fixpoint init_classes (i : nat) (slab_size size : Z) : res (list SlabClass) :=
  match i with
  | O => Ret []
  | S i =>
      if decide (size = 0) then Abort
      else
        let c := mkClass (slab_size `div` size) size [] [] in
        let size := w64 (size * SLAB_SIZE_FACTOR) in
        let size := if decide (size > slab_size) then slab_size else size in
        cs ← init_classes i slab_size size;
        Ret (c :: cs)
  end.

(** The loop that creates the slabs. *)
Fixpoint init_slabs (n : nat) (slab_buf slab_size slab_size_mb : Z) : list Slab :=
  match n with
  | O => []
  | S n => Slab_make slab_buf slab_size_mb :: init_slabs n (slab_buf + slab_size) slab_size slab_size_mb
  end.

(** The constructor of a partition. *)
Definition Partitioned_make (buf data_size slab_size_mb : Z) : res NovaPartitionedMemManager :=
  let slab_size := w64 (slab_size_mb * 1024 * 1024) in
  classes ← init_classes MAX_NUMBER_OF_SLAB_CLASSES slab_size 1200;
  if decide (slab_size = 0) then Abort
  else
    let ndataslabs := data_size `div` slab_size in
    Ret (mkPartitioned (init_slabs (Z.to_nat ndataslabs) buf slab_size slab_size_mb) classes false
           (seq 0 (Z.to_nat ndataslabs)) (w64 (ndataslabs - 1)) slab_size_mb).

(** The loop of [slabclassid]; it reads past the array when no class is large
    enough. *)
Fixpoint slabclassid_loop (sizes : list Z) (res : nat) (size : Z) : Prelude.res nat :=
  match sizes with
  | [] => Abort
  | s :: sizes => if decide (size > s) then slabclassid_loop sizes (S res) size else Ret res
  end.

(** [slabclassid(size)]. *)
Definition Partitioned_slabclassid (m : NovaPartitionedMemManager) (size : Z) : res nat :=
  if decide (size > 0 ∧ size <= w64 (slab_size_mb_ m * 1024 * 1024)) then
    slabclassid_loop (sc_size <$> slab_classes_ m) 0 size
  else Abort.

(** [ItemAlloc(scid)]. *)
Definition Partitioned_ItemAlloc (m : NovaPartitionedMemManager) (scid : nat) : res (NovaPartitionedMemManager * Z) :=
  match slab_classes_ m !! scid with
  | None => Abort
  | Some c =>
      '(heap, c, free_item) ← SlabClass_AllocItem (pm_heap m) c;
      if decide (free_item ≠ 0) then
        Ret (mkPartitioned heap (<[scid := c]> (slab_classes_ m)) (print_class_oom m) (free_slabs_ m)
               (free_slab_index_ m) (slab_size_mb_ m), free_item)
      else if decide (free_slab_index_ m = w64 (-1)) then
        Ret (mkPartitioned heap (<[scid := c]> (slab_classes_ m)) true (free_slabs_ m)
               (free_slab_index_ m) (slab_size_mb_ m), 0)
      else
        match free_slabs_ m !! Z.to_nat (free_slab_index_ m) with
        | None => Abort
        | Some i =>
            slab ← slab_at heap i;
            slab ← Slab_Init slab (w32 (sc_size c));
            '(slab, free_item) ← Slab_AllocItem slab;
            Ret (mkPartitioned (<[i := slab]> heap) (<[scid := SlabClass_AddSlab c i]> (slab_classes_ m))
                   (print_class_oom m) (free_slabs_ m) (w64 (free_slab_index_ m - 1)) (slab_size_mb_ m), free_item)
        end
  end.

(** [FreeItem(buf, scid)]. *)
Definition Partitioned_FreeItem (m : NovaPartitionedMemManager) (buf : Z) (scid : nat) : res NovaPartitionedMemManager :=
  match slab_classes_ m !! scid with
  | None => Abort
  | Some c =>
      Ret (mkPartitioned (pm_heap m) (<[scid := SlabClass_FreeItem c buf]> (slab_classes_ m)) (print_class_oom m)
             (free_slabs_ m) (free_slab_index_ m) (slab_size_mb_ m))
  end.

(** [FreeItems(items, scid)]. *)
Definition Partitioned_FreeItems (m : NovaPartitionedMemManager) (items : list Z) (scid : nat) : res NovaPartitionedMemManager :=
  match slab_classes_ m !! scid with
  | None => Abort
  | Some c =>
      Ret (mkPartitioned (pm_heap m) (<[scid := foldl SlabClass_FreeItem c items]> (slab_classes_ m)) (print_class_oom m)
             (free_slabs_ m) (free_slab_index_ m) (slab_size_mb_ m))
  end.

(** [NovaMemManager]: its partitions. *)
Abbreviation NovaMemManager := (list NovaPartitionedMemManager).

(** The loop of the constructor. *)
Fixpoint init_partitions (n : nat) (base partition_size slab_size_mb : Z) : res NovaMemManager :=
  match n with
  | O => Ret []
  | S n =>
      m ← Partitioned_make base partition_size slab_size_mb;
      ms ← init_partitions n (base + partition_size) partition_size slab_size_mb;
      Ret (m :: ms)
  end.

Definition NovaMemManager_make (buf num_mem_partitions mem_pool_size_gb slab_size_mb : Z) : res NovaMemManager :=
  if decide (num_mem_partitions = 0) then Abort
  else
    let partition_size := w64 (mem_pool_size_gb * 1024 * 1024 * 1024) `div` num_mem_partitions in
    init_partitions (Z.to_nat num_mem_partitions) buf partition_size slab_size_mb.

(** [partitioned_mem_managers_[key % partitioned_mem_managers_.size()]]. *)
Definition partition_of (ms : NovaMemManager) (key : Z) : nat := Z.to_nat (key `mod` size_of ms).

Definition partition_at (ms : NovaMemManager) (key : Z) : res NovaPartitionedMemManager :=
  match ms !! partition_of ms key with Some m => Ret m | None => Abort end.

Definition Manager_slabclassid (ms : NovaMemManager) (key size : Z) : res nat :=
  m ← partition_at ms key; Partitioned_slabclassid m size.

Definition Manager_ItemAlloc (ms : NovaMemManager) (key : Z) (scid : nat) : res (NovaMemManager * Z) :=
  m ← partition_at ms key;
  '(m, buf) ← Partitioned_ItemAlloc m scid;
  Ret (<[partition_of ms key := m]> ms, buf).

Definition Manager_FreeItem (ms : NovaMemManager) (key buf : Z) (scid : nat) : res NovaMemManager :=
  m ← partition_at ms key;
  m ← Partitioned_FreeItem m buf scid;
  Ret (<[partition_of ms key := m]> ms).

Definition Manager_FreeItems (ms : NovaMemManager) (key : Z) (items : list Z) (scid : nat) : res NovaMemManager :=
  m ← partition_at ms key;
  m ← Partitioned_FreeItems m items scid;
  Ret (<[partition_of ms key := m]> ms).

(** ** Clients

    A client asks for the class of a size, allocates an item of it, and frees
    what it holds with the same key and class. *)

(** An item that a client holds: the key, the address and the size asked for. *)
Abbreviation held_item := (Z * Z * Z)%type.

Definition request (ms : NovaMemManager) (key size : Z) : res (NovaMemManager * Z) :=
  scid ← Manager_slabclassid ms key size; Manager_ItemAlloc ms key scid.

Definition release (ms : NovaMemManager) (key size : Z) (items : list Z) : res NovaMemManager :=
  scid ← Manager_slabclassid ms key size; Manager_FreeItems ms key items scid.

Definition release_one (ms : NovaMemManager) (key size buf : Z) : res NovaMemManager :=
  scid ← Manager_slabclassid ms key size; Manager_FreeItem ms key buf scid.

Definition held_of (key size : Z) (items : list Z) : list held_item := (λ p, (key, p, size)) <$> items.

(** The states of an allocator with what is held; [max] is the largest request. *)
Inductive mem_run (max : Z) (ms0 : NovaMemManager) : NovaMemManager → list held_item → Prop :=
| run_start : mem_run max ms0 ms0 []
| run_request ms held key size ms' p :
    mem_run max ms0 ms held → 0 <= key → 0 < size <= max → request ms key size = Ret (ms', p) →
    mem_run max ms0 ms' (if decide (p = 0) then held else (key, p, size) :: held)
| run_release ms held held' key size items ms' :
    mem_run max ms0 ms held → 0 <= key → 0 < size <= max → held ≡ₚ held_of key size items ++ held' →
    release ms key size items = Ret ms' → mem_run max ms0 ms' held'
| run_release_one ms held held' key size p ms' :
    mem_run max ms0 ms held → 0 <= key → 0 < size <= max → held ≡ₚ held_of key size [p] ++ held' →
    release_one ms key size p = Ret ms' → mem_run max ms0 ms' held'.

(** ** Slabs and classes *)

Section partition.
Context (base mb : Z).
Hypothesis Hbase : 0 < base.
Hypothesis Hmb : 0 < mb < 4096.

Definition slab_bytes : Z := mb * 1024 * 1024.
Definition cap (s : Z) : Z := slab_bytes `div` s.
Definition slab_base (i : nat) : Z := base + Z.of_nat i * slab_bytes.

(** The first [k] items of size [s] of slab [i]. *)
Definition slab_items (s : Z) (i : nat) (k : Z) : list Z := (λ j, slab_base i + j * s) <$> seqZ 0 k.

(** [k] items of slab [i] were taken from it. *)
Definition slab_state (heap : list Slab) (s : Z) (i : nat) (k : Z) : Prop :=
  heap !! i = Some (mkSlab (Some s) (slab_base i + k * s) ((cap s - k) * s) mb) ∧ 0 <= k <= cap s.

(** A class whose items [hs] are held: every item taken from its slabs is free
    or held, and only the last slab has items left. *)
Definition class_ok (heap : list Slab) (c : SlabClass) (hs : list Z) : Prop :=
  ∃ ks, Forall2 (slab_state heap (sc_size c)) (slabs c) ks
    ∧ (∀ l k, ks = l ++ [k] → Forall (eq (cap (sc_size c))) l)
    ∧ concat (zip_with (slab_items (sc_size c)) (slabs c) ks) ≡ₚ free_list c ++ hs.

(** The size of class [i]. *)
Definition class_size (i : nat) : Z := Z.min (1200 * 2 ^ Z.of_nat i) slab_bytes.

Lemma slab_bytes_range : 2 ^ 20 <= slab_bytes < 2 ^ 32 ∧ w64 (mb * 1024 * 1024) = slab_bytes.
Proof. unfold slab_bytes. split; [lia|]. apply w64_small. mlia. Qed.

Lemma class_size_range i : 1200 <= class_size i <= slab_bytes.
Proof. pose proof slab_bytes_range. unfold class_size. assert (1 <= 2 ^ Z.of_nat i) by (apply (Z.pow_le_mono_r 2 0); lia). lia. Qed.

(** A size that is the size of a class. *)
Definition item_size_ok (s : Z) : Prop := 1200 <= s <= slab_bytes.

Lemma cap_spec s : item_size_ok s → 1 <= cap s ∧ cap s * s <= slab_bytes.
Proof.
  intros [H1 H2]. unfold cap. split; [by apply Z.div_le_lower_bound; lia|].
  rewrite Z.mul_comm. apply Z.mul_div_le. lia.
Qed.

Lemma Slab_Init_ok i s :
  item_size_ok s →
  Slab_Init (Slab_make (slab_base i) mb) (w32 s) = Ret (mkSlab (Some s) (slab_base i) (cap s * s) mb).
Proof.
  intros Hs. destruct slab_bytes_range as [Hr Hw]. pose proof (cap_spec s Hs) as [Hc1 Hc2]. destruct Hs as [H1 H2].
  unfold Slab_Init, Slab_make. cbn [sl_size_mb_ next_]. rewrite Hw, (w32_small s) by mlia.
  rewrite decide_False by lia. fold (cap s). rewrite (w32_small (cap s)) by (split; [lia|nia]).
  by rewrite Z.mul_comm, w32_small by mlia.
Qed.

Lemma Slab_AllocItem_ok heap s i k slab :
  item_size_ok s → slab_state heap s i k → heap !! i = Some slab →
  if decide (k = cap s) then Slab_AllocItem slab = Ret (slab, 0)
  else ∃ slab', Slab_AllocItem slab = Ret (slab', slab_base i + k * s) ∧ slab_state (<[i := slab']> heap) s i (k + 1).
Proof.
  intros Hs [Hi Hk] Hi'. rewrite Hi in Hi'. injection Hi' as <-. destruct Hs as [H1 H2]. unfold Slab_AllocItem. cbn [item_size_ available_bytes_ next_ sl_size_mb_].
  case_decide as Hc; [subst k; rewrite decide_True by lia; done|]. rewrite decide_False by nia. eexists. split; [done|].
  split; [|lia]. rewrite list_lookup_insert_eq by (by eapply lookup_lt_Some). do 2 f_equal; lia.
Qed.

(** ** A class *)

Lemma slab_items_next s i k : 0 <= k → slab_items s i (k + 1) = slab_items s i k ++ [slab_base i + k * s].
Proof. intros Hk. unfold slab_items. rewrite seqZ_app, fmap_app by lia. done. Qed.

Lemma slab_items_elem s i k p : p ∈ slab_items s i k ↔ ∃ j, 0 <= j < k ∧ p = slab_base i + j * s.
Proof.
  unfold slab_items. rewrite list_elem_of_fmap. split; intros (j & H1 & H2); exists j.
  - rewrite elem_of_seqZ in H2. split; [lia|done].
  - rewrite elem_of_seqZ. split; [done|lia].
Qed.

Lemma class_ok_frame heap heap' c hs :
  (∀ i, i ∈ slabs c → heap' !! i = heap !! i) → class_ok heap c hs → class_ok heap' c hs.
Proof.
  intros Hf (ks & Hks & Hl & Hp). exists ks. split; [|done]. apply Forall2_same_length_lookup. split; [by eapply Forall2_length|].
  intros j i k Hi Hk. destruct (Forall2_lookup_lr _ _ _ _ _ _ Hks Hi Hk) as [H1 H2]. split; [|done]. rewrite Hf; [done|]. by eapply list_elem_of_lookup_2.
Qed.

Lemma class_ok_perm heap c hs hs' : hs ≡ₚ hs' → class_ok heap c hs → class_ok heap c hs'.
Proof. intros Hp (ks & H1 & H2 & H3). exists ks. split_and!; [done..|]. by rewrite <- Hp. Qed.

(** The items of a class, with the slab and the position of each. *)
Lemma class_item heap c hs p :
  class_ok heap c hs → p ∈ free_list c ++ hs →
  ∃ i j, i ∈ slabs c ∧ 0 <= j < cap (sc_size c) ∧ p = slab_base i + j * sc_size c.
Proof.
  intros (ks & H1 & _ & H3) Hp. rewrite <- H3 in Hp. apply list_elem_of_In, in_concat in Hp as (l & Hl & Hp).
  apply list_elem_of_In, list_elem_of_lookup in Hl as [m Hl]. apply lookup_zip_with_Some in Hl as (i & k & -> & Hi & Hk).
  apply list_elem_of_In, slab_items_elem in Hp as (j & Hj & ->). destruct (Forall2_lookup_lr _ _ _ _ _ _ H1 Hi Hk) as [_ Hc].
  exists i, j. split; [by eapply list_elem_of_lookup_2|]. split; [lia|done].
Qed.

(** Nothing is left in a class. *)
Definition class_full (heap : list Slab) (c : SlabClass) (hs : list Z) : Prop :=
  free_list c = [] ∧ Forall (λ i, slab_state heap (sc_size c) i (cap (sc_size c))) (slabs c)
  ∧ (slabs c ≫= λ i, slab_items (sc_size c) i (cap (sc_size c))) ≡ₚ hs.

Lemma class_full_count heap c hs : 0 <= cap (sc_size c) → class_full heap c hs → size_of hs = size_of (slabs c) * cap (sc_size c).
Proof.
  intros Hc (_ & _ & <-). induction (slabs c) as [|i l IH]; [done|]. rewrite bind_cons, length_app. cbn [length].
  unfold slab_items at 1. rewrite length_fmap, length_seqZ. lia.
Qed.

(** All slabs are used up once the last one is. *)
Lemma class_used_up heap c hs i ks k :
  Forall2 (slab_state heap (sc_size c)) (slabs c) ks → (∀ l k, ks = l ++ [k] → Forall (eq (cap (sc_size c))) l) →
  last (slabs c) = Some i → last ks = Some k → k = cap (sc_size c) → free_list c = [] →
  concat (zip_with (slab_items (sc_size c)) (slabs c) ks) ≡ₚ free_list c ++ hs → class_full heap c hs.
Proof.
  intros H1 H2 _ Hk -> Hf Hp. apply last_Some in Hk as [l ->]. specialize (H2 _ _ eq_refl).
  assert (Forall (eq (cap (sc_size c))) (l ++ [cap (sc_size c)])) as Hall by (apply Forall_app; split; [done|by repeat constructor]).
  split; [done|]. rewrite Hf in Hp. cbn [app] in Hp. rewrite <- Hp. clear Hp H2 Hf. revert H1 Hall. generalize (l ++ [cap (sc_size c)]). generalize (slabs c).
  intros ids ks H1. induction H1 as [|i' k' ids ks Hs H1 IH]; intros Hall; [done|]. inversion Hall as [|? ? <- Hall']; subst.
  destruct (IH Hall') as [IH1 IH2]. split; [by constructor|]. cbn. by rewrite <- IH2.
Qed.

Lemma class_empty heap c hs : slabs c = [] → class_ok heap c hs → class_full heap c hs.
Proof.
  intros Hs (ks & H1 & _ & H3). rewrite Hs in *. inversion H1; subst. cbn in H3. apply Permutation_nil in H3.
  apply app_eq_nil in H3 as [H3 ->]. split; [done|]. rewrite Hs. by split; [constructor|].
Qed.

Lemma slab_base_pos i : 0 < slab_base i.
Proof. unfold slab_base. pose proof slab_bytes_range. nia. Qed.

(** What an allocation from a class does. *)
Definition class_alloc (heap : list Slab) (c : SlabClass) (hs : list Z) (heap' : list Slab) (c' : SlabClass) (p : Z) : Prop :=
  slabs c' = slabs c ∧ sc_size c' = sc_size c ∧ nitems_per_slab c' = nitems_per_slab c
  ∧ (∀ i, i ∉ slabs c → heap' !! i = heap !! i)
  ∧ ((p = 0 ∧ heap' = heap ∧ c' = c ∧ class_full heap c hs) ∨ (p ≠ 0 ∧ class_ok heap' c' (p :: hs))).

Lemma SlabClass_AllocItem_last heap c hs i :
  item_size_ok (sc_size c) → NoDup (slabs c) → class_ok heap c hs → free_list c = [] → last (slabs c) = Some i →
  ∃ heap' p, (slab ← slab_at heap i; '(slab, buf) ← Slab_AllocItem slab; Ret (<[i := slab]> heap, c, buf)) = Ret (heap', c, p)
    ∧ class_alloc heap c hs heap' c p.
Proof.
  intros Hs Hnd (ks & H1 & H2 & H3) Hf Hi. pose proof Hi as Hi'. apply last_Some in Hi as [l El].
  rewrite El in H1. apply Forall2_app_inv_l in H1 as (kl & kk & Hl & Hk & Eks). inversion Hk as [|? k ? ? Hst Hnil]; subst. inversion Hnil; subst. clear Hk Hnil.
  pose proof (H2 _ _ eq_refl) as Hfull. pose proof Hst as [Hhi Hkc]. unfold slab_at. rewrite Hhi. cbn [mbind res_bind].
  pose proof (Slab_AllocItem_ok heap _ i k _ Hs Hst Hhi) as Ha. case_decide as Ek.
  - rewrite Ha. cbn [mbind res_bind]. eexists _, 0. split; [done|]. rewrite list_insert_id by done. split_and!; [done..|]. left. split_and!; [done..|].
    eapply (class_used_up _ _ _ i (kl ++ [k]) k); try done; [|by rewrite last_snoc]. rewrite El. apply Forall2_app; [done|by constructor; [|constructor]].
  - destruct Ha as (slab' & -> & Hst'). cbn [mbind res_bind]. eexists _, _. split; [done|]. split_and!; [done..| |].
    + intros i' Hi''. rewrite list_lookup_insert_ne; [done|]. intros ->. apply Hi''. rewrite El. apply elem_of_app. right. by apply list_elem_of_singleton.
    + right. pose proof (slab_base_pos i). destruct Hs as [Hs1 Hs2]. split; [nia|]. exists (kl ++ [k + 1]). rewrite El in Hnd. apply NoDup_app in Hnd as (_ & Hnd & _).
      split_and!.
      * rewrite El. apply Forall2_app; [|by constructor; [|constructor]]. apply Forall2_same_length_lookup. split; [by eapply Forall2_length|].
        intros j i' k' Hi'' Hk'. destruct (Forall2_lookup_lr _ _ _ _ _ _ Hl Hi'' Hk') as [Ho Hc]. split; [|done]. rewrite list_lookup_insert_ne; [done|].
        intros ->. apply (Hnd i'); [by eapply list_elem_of_lookup_2|by apply list_elem_of_singleton].
      * intros l' k' [-> _]%app_inj_tail. done.
      * rewrite El in H3 |- *. rewrite zip_with_app in H3 |- * by (by eapply Forall2_length). rewrite concat_app in H3 |- *. cbn [zip_with concat] in *.
        rewrite app_nil_r in H3 |- *. rewrite slab_items_next, (assoc_L (++)), H3 by lia. rewrite Hf. cbn [app]. by rewrite Permutation_app_comm.
Qed.

Lemma SlabClass_AllocItem_ok heap c hs :
  item_size_ok (sc_size c) → NoDup (slabs c) → class_ok heap c hs →
  ∃ heap' c' p, SlabClass_AllocItem heap c = Ret (heap', c', p) ∧ class_alloc heap c hs heap' c' p.
Proof.
  intros Hs Hnd Hc. unfold SlabClass_AllocItem. destruct (free_list c) as [|p fl] eqn:Hf.
  - destruct (last (slabs c)) as [i|] eqn:Hl.
    + destruct (SlabClass_AllocItem_last heap c hs i) as (heap' & p & -> & Ha); [done..|]. by eexists _, _, _.
    + eexists _, _, _. split; [done|]. split_and!; [done..|]. left. split_and!; [done..|]. apply class_empty; [by apply last_None|done].
  - destruct (class_item heap c hs p) as (i & j & Hi & Hj & Ep); [done|rewrite Hf; by left|]. pose proof (slab_base_pos i). destruct Hs as [Hs1 Hs2].
    assert (p ≠ 0) as Hp0 by nia. rewrite decide_False by done. eexists _, _, _. split; [done|]. split_and!; [done..|]. right. split; [done|].
    destruct Hc as (ks & H1 & H2 & H3). exists ks. cbn [sc_size slabs free_list]. split_and!; [done..|]. rewrite H3, Hf. cbn. by rewrite Permutation_middle.
Qed.

(** A slab that is added to a full class. *)
Lemma AddSlab_ok heap c hs i :
  item_size_ok (sc_size c) → i ∉ slabs c → class_full heap c hs → heap !! i = Some (Slab_make (slab_base i) mb) →
  ∃ slab, (slab ← Slab_Init (Slab_make (slab_base i) mb) (w32 (sc_size c)); Slab_AllocItem slab) = Ret (slab, slab_base i)
    ∧ class_ok (<[i := slab]> heap) (SlabClass_AddSlab c i) (slab_base i :: hs).
Proof.
  intros Hs Hi (Hf & Hst & Hp) Hh. rewrite Slab_Init_ok by done. cbn [mbind res_bind]. pose proof (cap_spec _ Hs) as [Hc1 Hc2].
  set (fresh := mkSlab (Some (sc_size c)) (slab_base i) (cap (sc_size c) * sc_size c) mb).
  assert (slab_state (<[i := fresh]> heap) (sc_size c) i 0) as H0.
  { split; [|lia]. rewrite list_lookup_insert_eq by (by eapply lookup_lt_Some). unfold fresh. do 2 f_equal; lia. }
  pose proof (Slab_AllocItem_ok _ _ i 0 fresh Hs H0) as Ha. rewrite decide_False in Ha by lia.
  destruct Ha as (slab & E & Hst'); [by rewrite list_lookup_insert_eq by (by eapply lookup_lt_Some)|]. rewrite list_insert_insert_eq in Hst'.
  exists slab. split; [rewrite E; do 2 f_equal; lia|]. exists (replicate (length (slabs c)) (cap (sc_size c)) ++ [0 + 1]).
  cbn [SlabClass_AddSlab sc_size slabs free_list]. split_and!.
  - apply Forall2_app; [|by constructor; [|constructor]]. apply Forall2_replicate_r; [done|]. eapply Forall_impl; [|intros i' Hi'; exact Hi'].
    apply Forall_forall. intros i' Hi'. rewrite Forall_forall in Hst. destruct (Hst i' Hi') as [Ho Hk]. split; [|done]. rewrite list_lookup_insert_ne; [done|]. by intros ->.
  - intros l k [<- _]%app_inj_tail. by apply Forall_replicate.
  - rewrite zip_with_app by (by rewrite length_replicate). rewrite concat_app, Hf. cbn [app zip_with concat]. rewrite app_nil_r, slab_items_next by lia.
    rewrite zip_with_replicate_r_eq by done. rewrite concat_fmap_bind, Hp. cbn. rewrite Permutation_app_comm. cbn.
    change (slab_base i + 0 * sc_size c :: hs ≡ₚ slab_base i :: hs). by rewrite Z.add_0_r.
Qed.

(** ** Classes of sizes *)

(** The class of a request. *)
Definition class_of (size : Z) : res nat := slabclassid_loop (class_size <$> seq 0 MAX_NUMBER_OF_SLAB_CLASSES) 0 size.

Lemma slabclassid_loop_ok sizes k size i s :
  sizes !! i = Some s → size <= s →
  ∃ c s', slabclassid_loop sizes k size = Ret (k + c)%nat ∧ sizes !! c = Some s' ∧ size <= s'
    ∧ ∀ j t, (j < c)%nat → sizes !! j = Some t → t < size.
Proof.
  revert k i. induction sizes as [|t sizes IH]; intros k i Hi Hs; [done|]. cbn [slabclassid_loop]. case_decide as Ht.
  - destruct i as [|i]; [injection Hi as ->; lia|]. destruct (IH (S k) i Hi Hs) as (c & s' & E & Hc & Hs' & Hlt). exists (S c), s'.
    split; [rewrite E; f_equal; lia|]. split_and!; [done..|]. intros [|j] u Hj Hu; [injection Hu as ->; lia|]. apply (Hlt j); [lia|done].
  - exists 0%nat, t. split; [f_equal; lia|]. split_and!; [done|lia|]. lia.
Qed.

(** The class of a request is the smallest that fits. *)
Lemma class_of_ok size :
  0 < size <= slab_bytes →
  ∃ c, class_of size = Ret c ∧ (c < MAX_NUMBER_OF_SLAB_CLASSES)%nat ∧ size <= class_size c ∧ ∀ j, (j < c)%nat → class_size j < size.
Proof.
  intros Hs. destruct (slabclassid_loop_ok (class_size <$> seq 0 MAX_NUMBER_OF_SLAB_CLASSES) 0 size 63 slab_bytes) as (c & s' & E & Hc & Hs' & Hlt).
  - rewrite list_lookup_fmap, lookup_seq_lt by (unfold MAX_NUMBER_OF_SLAB_CLASSES; lia). cbn [fmap option_fmap option_map Nat.add]. f_equal. unfold class_size.
    pose proof slab_bytes_range. change (1200 * 2 ^ Z.of_nat 63) with (1200 * 2 ^ 63). mlia.
  - lia.
  - rewrite list_lookup_fmap in Hc. destruct (seq 0 MAX_NUMBER_OF_SLAB_CLASSES !! c) as [j|] eqn:Hj; [|done]. apply lookup_seq in Hj as [-> Hj]. injection Hc as <-.
    exists c. split_and!; [done..|]. intros j Hjc. apply (Hlt j); [done|]. by rewrite list_lookup_fmap, lookup_seq_lt by lia.
Qed.

Lemma class_size_next i : (let size := w64 (class_size i * SLAB_SIZE_FACTOR) in if decide (size > slab_bytes) then slab_bytes else size) = class_size (S i).
Proof.
  pose proof slab_bytes_range as [Hb _]. pose proof (class_size_range i). cbv zeta. unfold SLAB_SIZE_FACTOR. rewrite w64_small by mlia.
  unfold class_size in *. rewrite Nat2Z.inj_succ, Z.pow_succ_r by lia. case_decide; lia.
Qed.

Lemma init_classes_ok k i :
  init_classes k slab_bytes (class_size i) = Ret ((λ j, mkClass (cap (class_size j)) (class_size j) [] []) <$> seq i k).
Proof.
  revert i. induction k as [|k IH]; intros i; [done|]. cbn [init_classes]. pose proof (class_size_range i). rewrite decide_False by lia.
  rewrite class_size_next, IH. done.
Qed.

Lemma init_slabs_lookup k b i : (i < k)%nat → init_slabs k b slab_bytes mb !! i = Some (Slab_make (b + Z.of_nat i * slab_bytes) mb).
Proof.
  revert b i. induction k as [|k IH]; intros b i Hi; [lia|]. cbn [init_slabs]. destruct i as [|i]; cbn [lookup list_lookup]; [by rewrite Z.add_0_r|].
  rewrite IH by lia. do 2 f_equal. lia.
Qed.

Lemma concat_nils {A B} (l : list A) : concat ((λ _, []) <$> l) = ([] : list B).
Proof. by induction l. Qed.

Lemma slab_item_inside s i j :
  item_size_ok s → 0 <= j < cap s → slab_base i <= slab_base i + j * s ∧ slab_base i + j * s + s <= slab_base i + slab_bytes.
Proof. intros Hs Hj. pose proof (cap_spec s Hs). destruct Hs. nia. Qed.

Lemma slab_bases_apart (i j : nat) : i ≠ j → slab_base i + slab_bytes <= slab_base j ∨ slab_base j + slab_bytes <= slab_base i.
Proof.
  intros Hij. pose proof slab_bytes_range as [Hb _]. unfold slab_base.
  destruct (decide (i < j)%nat) as [Hlt|Hge]; [left|right]; [assert (Z.of_nat i + 1 <= Z.of_nat j) by lia|assert (Z.of_nat j + 1 <= Z.of_nat i) by lia]; nia.
Qed.

Lemma class_nodup heap c hs : item_size_ok (sc_size c) → NoDup (slabs c) → class_ok heap c hs → NoDup hs.
Proof.
  intros Hs Hnd (ks & H1 & _ & H3). enough (NoDup (concat (zip_with (slab_items (sc_size c)) (slabs c) ks))) as H by (rewrite H3 in H; by apply NoDup_app in H as (_ & _ & ?)).
  clear H3. revert Hnd H1. generalize (slabs c). intros l Hnd H1. induction H1 as [|i k l ks [_ Hk] H1 IH]; [constructor|]. apply NoDup_cons in Hnd as [Hi Hnd].
  cbn [zip_with concat]. apply NoDup_app. split_and!; [| |by apply IH].
  - unfold slab_items. apply NoDup_fmap_2_strong; [|apply NoDup_seqZ]. intros x y _ _ E. destruct Hs. nia.
  - intros p (j & Hj & ->)%slab_items_elem (q & Hq & Hin)%list_elem_of_In%in_concat. apply list_elem_of_In, list_elem_of_lookup in Hq as [x Hq].
    apply lookup_zip_with_Some in Hq as (i' & k' & -> & Hi' & Hk'). apply list_elem_of_In, slab_items_elem in Hin as (j' & Hj' & E).
    destruct (Forall2_lookup_lr _ _ _ _ _ _ H1 Hi' Hk') as [_ Hc']. assert (i ≠ i') as Hne by (intros ->; by apply Hi; eapply list_elem_of_lookup_2).
    pose proof (slab_item_inside _ i j Hs ltac:(lia)). pose proof (slab_item_inside _ i' j' Hs ltac:(lia)). pose proof (slab_bases_apart i i' Hne). destruct Hs. lia.
Qed.

(** ** The invariant of a partition *)

Context (n : nat).
Hypothesis Hn : Z.of_nat n < 2 ^ 31.

Record partition_ok (m : NovaPartitionedMemManager) (hs : nat → list Z) : Prop := {
  po_mb : slab_size_mb_ m = mb;
  po_sizes : sc_size <$> slab_classes_ m = class_size <$> seq 0 MAX_NUMBER_OF_SLAB_CLASSES;
  po_nitems : Forall (λ c, nitems_per_slab c = cap (sc_size c)) (slab_classes_ m);
  po_slabs : free_slabs_ m = seq 0 n;
  po_free : ∃ r, (r <= n)%nat ∧ free_slab_index_ m = w64 (Z.of_nat r - 1)
    ∧ concat (slabs <$> slab_classes_ m) ++ seq 0 r ≡ₚ seq 0 n
    ∧ ∀ i, (i < r)%nat → pm_heap m !! i = Some (Slab_make (slab_base i) mb);
  po_class i c : slab_classes_ m !! i = Some c → class_ok (pm_heap m) c (hs i)
}.

(** ** The operations of a partition *)

(** The items held with one more or less in class [i]. *)
Definition upd (hs : nat → list Z) (i : nat) (l : list Z) : nat → list Z := λ j, if decide (j = i) then l else hs j.

Lemma class_size_ok m hs i c : partition_ok m hs → slab_classes_ m !! i = Some c → sc_size c = class_size i ∧ item_size_ok (sc_size c).
Proof.
  intros Hm Hc. assert (sc_size c = class_size i) as E; [|split; [done|rewrite E; apply class_size_range]].
  pose proof (f_equal (.!! i) (po_sizes _ _ Hm)) as H. rewrite !list_lookup_fmap, Hc in H. cbn [fmap option_fmap option_map] in H.
  destruct (seq 0 MAX_NUMBER_OF_SLAB_CLASSES !! i) as [j|] eqn:Hj; [|done]. apply lookup_seq in Hj as [-> _]. by injection H.
Qed.

Lemma concat_fmap_insert {A B} (f : A → list B) (l : list A) i x y :
  l !! i = Some x → ∃ rest, concat (f <$> l) ≡ₚ f x ++ rest ∧ concat (f <$> <[i := y]> l) ≡ₚ f y ++ rest.
Proof.
  intros Hi. exists (concat (f <$> take i l) ++ concat (f <$> drop (S i) l)). rewrite insert_take_drop by (by eapply lookup_lt_Some).
  rewrite <- (take_drop_middle l i x Hi) at 1. rewrite !fmap_app, !concat_app. cbn. split; by rewrite Permutation_app_swap_app.
Qed.

(** A class keeps its slabs apart from those of the others and from the free ones. *)
Lemma slabs_apart m hs i j c d k :
  partition_ok m hs → slab_classes_ m !! i = Some c → slab_classes_ m !! j = Some d → k ∈ slabs c → k ∈ slabs d → i = j.
Proof.
  intros Hm Hc Hd Hk1 Hk2. destruct (po_free _ _ Hm) as (r & _ & _ & Hp & _). pose proof (NoDup_seq 0 n) as Hnd. rewrite <- Hp in Hnd.
  apply NoDup_app in Hnd as (Hnd & _ & _). destruct (decide (i = j)) as [|Hij]; [done|]. exfalso.
  destruct (concat_fmap_insert slabs (slab_classes_ m) i c (mkClass 0 0 [] []) Hc) as (rest & E1 & E2). rewrite E1 in Hnd. apply NoDup_app in Hnd as (_ & Hnd & _).
  apply (Hnd k Hk1). cbn [slabs app] in E2. rewrite <- E2. apply list_elem_of_In, in_concat. exists (slabs d). split; [|by apply list_elem_of_In].
  apply list_elem_of_In, list_elem_of_fmap. exists d. split; [done|]. apply (list_elem_of_lookup_2 _ j). by rewrite list_lookup_insert_ne.
Qed.

Lemma slabs_nodup m hs i c : partition_ok m hs → slab_classes_ m !! i = Some c → NoDup (slabs c).
Proof.
  intros Hm Hc. destruct (po_free _ _ Hm) as (r & _ & _ & Hp & _). pose proof (NoDup_seq 0 n) as Hnd. rewrite <- Hp in Hnd. apply NoDup_app in Hnd as (Hnd & _ & _).
  destruct (concat_fmap_insert slabs _ i c c Hc) as (rest & E1 & _). rewrite E1 in Hnd. by apply NoDup_app in Hnd as (? & _).
Qed.

(** A slab of a class is not free. *)
Lemma slab_taken classes (i : nat) c k r :
  concat (slabs <$> classes) ++ seq 0 r ≡ₚ seq 0 n → classes !! i = Some c → k ∈ slabs c → (r <= k)%nat.
Proof.
  intros Hp Hc Hk. pose proof (NoDup_seq 0 n) as Hnd. rewrite <- Hp in Hnd. apply NoDup_app in Hnd as (_ & Hnd & _).
  destruct (decide (r <= k)%nat) as [|Hlt]; [done|]. exfalso. apply (Hnd k); [|apply elem_of_seq; lia].
  apply list_elem_of_In, in_concat. exists (slabs c). split; [|by apply list_elem_of_In]. apply list_elem_of_In, list_elem_of_fmap. exists c.
  split; [done|by eapply list_elem_of_lookup_2].
Qed.

(** A class replaced by one with the same size and slabs. *)
Lemma partition_replace m hs i c c' heap l oom :
  partition_ok m hs → slab_classes_ m !! i = Some c → slabs c' = slabs c → sc_size c' = sc_size c → nitems_per_slab c' = nitems_per_slab c →
  (∀ j, j ∉ slabs c → heap !! j = pm_heap m !! j) → class_ok heap c' l →
  partition_ok (mkPartitioned heap (<[i := c']> (slab_classes_ m)) oom (free_slabs_ m) (free_slab_index_ m) (slab_size_mb_ m)) (upd hs i l).
Proof.
  intros Hm Hc Hsl Hsz Hni Hheap Hok. pose proof (lookup_lt_Some _ _ _ Hc) as Hlt. destruct (po_free _ _ Hm) as (r & Hr & Hidx & Hp & Hfree).
  split; cbn [slab_size_mb_ slab_classes_ free_slabs_ pm_heap free_slab_index_].
  - apply (po_mb _ _ Hm).
  - rewrite list_fmap_insert, Hsz, <- (po_sizes _ _ Hm). apply list_insert_id. by rewrite list_lookup_fmap, Hc.
  - apply Forall_insert; [apply (po_nitems _ _ Hm)|]. rewrite Hni, Hsz. by apply (Forall_lookup_1 _ _ _ _ (po_nitems _ _ Hm) Hc).
  - apply (po_slabs _ _ Hm).
  - exists r. split_and!; [done..| |].
    + rewrite list_fmap_insert, Hsl, list_insert_id; [done|]. by rewrite list_lookup_fmap, Hc.
    + intros j Hj. rewrite Hheap; [by apply Hfree|]. intros Hin. pose proof (slab_taken _ _ _ _ _ Hp Hc Hin). lia.
  - intros j d. unfold upd. destruct (decide (j = i)) as [->|Hji].
    + rewrite list_lookup_insert_eq by done. by intros [= <-].
    + rewrite list_lookup_insert_ne by done. intros Hd. eapply class_ok_frame; [|by apply (po_class _ _ Hm)]. intros k Hk. apply Hheap. intros Hk'.
      apply Hji. by eapply slabs_apart.
Qed.

(** A free slab given to a class that is full. *)
Lemma partition_add_slab m hs i c heap r slab :
  partition_ok m hs → slab_classes_ m !! i = Some c → (r < n)%nat → free_slab_index_ m = w64 (Z.of_nat (S r) - 1) →
  concat (slabs <$> slab_classes_ m) ++ seq 0 (S r) ≡ₚ seq 0 n →
  (∀ j, (j < S r)%nat → pm_heap m !! j = Some (Slab_make (slab_base j) mb)) →
  (∀ j, j ≠ r → heap !! j = pm_heap m !! j) → class_ok heap (SlabClass_AddSlab c r) slab →
  partition_ok (mkPartitioned heap (<[i := SlabClass_AddSlab c r]> (slab_classes_ m)) (print_class_oom m) (free_slabs_ m)
    (w64 (free_slab_index_ m - 1)) (slab_size_mb_ m)) (upd hs i slab).
Proof.
  intros Hm Hc Hr Hidx Hp Hfree Hheap Hok. pose proof (lookup_lt_Some _ _ _ Hc) as Hlt.
  split; cbn [slab_size_mb_ slab_classes_ free_slabs_ pm_heap free_slab_index_].
  - apply (po_mb _ _ Hm).
  - rewrite list_fmap_insert, <- (po_sizes _ _ Hm). apply list_insert_id. by rewrite list_lookup_fmap, Hc.
  - apply Forall_insert; [apply (po_nitems _ _ Hm)|]. by apply (Forall_lookup_1 _ _ _ _ (po_nitems _ _ Hm) Hc).
  - apply (po_slabs _ _ Hm).
  - exists r. split_and!; [lia|rewrite Hidx, (w64_small (Z.of_nat (S r) - 1)) by mlia; f_equal; lia| |].
    + destruct (concat_fmap_insert slabs (slab_classes_ m) i c (SlabClass_AddSlab c r) Hc) as (rest & E1 & E2).
      rewrite <- Hp, E1, E2, seq_S. cbn [slabs SlabClass_AddSlab Nat.add]. solve_Permutation.
    + intros j Hj. rewrite Hheap by lia. apply Hfree. lia.
  - intros j d. unfold upd. destruct (decide (j = i)) as [->|Hji].
    + rewrite list_lookup_insert_eq by done. by intros [= <-].
    + rewrite list_lookup_insert_ne by done. intros Hd. eapply class_ok_frame; [|by apply (po_class _ _ Hm)]. intros k Hk. apply Hheap. intros ->.
      pose proof (slab_taken _ _ _ _ _ Hp Hd Hk). lia.
Qed.

Lemma partition_ok_perm m hs hs' : (∀ i, hs i ≡ₚ hs' i) → partition_ok m hs → partition_ok m hs'.
Proof. intros Hp []. split; [done..|]. intros i c Hc. eapply class_ok_perm; [apply Hp|by eauto]. Qed.

(** Memory is used up for class [i]: all slabs were given to classes and all
    items of the class are held. *)
Definition exhausted (m : NovaPartitionedMemManager) (i : nat) (l : list Z) : Prop :=
  concat (slabs <$> slab_classes_ m) ≡ₚ seq 0 n
  ∧ ∃ c, slab_classes_ m !! i = Some c ∧ size_of l = size_of (slabs c) * nitems_per_slab c.

Lemma class_exists m hs i : partition_ok m hs → (i < MAX_NUMBER_OF_SLAB_CLASSES)%nat → ∃ c, slab_classes_ m !! i = Some c.
Proof.
  intros Hm Hi. apply lookup_lt_is_Some. rewrite <- (length_fmap sc_size), (po_sizes _ _ Hm), length_fmap, length_seq. done.
Qed.

Lemma Partitioned_ItemAlloc_ok m hs i :
  partition_ok m hs → (i < MAX_NUMBER_OF_SLAB_CLASSES)%nat →
  ∃ m' p, Partitioned_ItemAlloc m i = Ret (m', p)
    ∧ ((p ≠ 0 ∧ partition_ok m' (upd hs i (p :: hs i))) ∨ (p = 0 ∧ partition_ok m' hs ∧ exhausted m i (hs i))).
Proof.
  intros Hm Hi. destruct (class_exists m hs i Hm Hi) as [c Hc]. destruct (class_size_ok m hs i c Hm Hc) as [_ Hs]. pose proof (slabs_nodup m hs i c Hm Hc) as Hnd.
  destruct (SlabClass_AllocItem_ok (pm_heap m) c (hs i) Hs Hnd (po_class _ _ Hm i c Hc)) as (heap & c' & p & E & H1 & H2 & H3 & H4 & Hcase).
  unfold Partitioned_ItemAlloc. rewrite Hc, E. cbn [mbind res_bind]. destruct Hcase as [(-> & -> & -> & Hfull)|[Hp Hok]].
  - rewrite decide_False by tauto. destruct (po_free _ _ Hm) as (r & Hr & Hidx & Hperm & Hfree). case_decide as Hnone.
    + eexists _, _. split; [done|]. right. split; [done|]. assert (r = 0%nat) as ->.
      { rewrite Hidx in Hnone. destruct r as [|r]; [done|]. rewrite w64_small in Hnone by mlia. change (w64 (-1)) with (2 ^ 64 - 1) in Hnone. mlia. }
      split.
      * eapply partition_ok_perm; [|by eapply (partition_replace m hs i c c (pm_heap m) (hs i)); eauto using po_class].
        intros j. unfold upd. by case_decide; subst.
      * split; [by rewrite <- Hperm, app_nil_r|]. exists c. split; [done|]. rewrite (Forall_lookup_1 _ _ _ _ (po_nitems _ _ Hm) Hc).
        apply (class_full_count (pm_heap m)); [|done]. pose proof (cap_spec _ Hs). lia.
    + destruct r as [|r]; [by rewrite Hidx in Hnone|]. assert (Z.to_nat (free_slab_index_ m) = r) as Er by (rewrite Hidx, w64_small by mlia; lia).
      rewrite Er, (po_slabs _ _ Hm), lookup_seq_lt by lia. cbn [Nat.add]. unfold slab_at. rewrite Hfree by lia. cbn [mbind res_bind].
      assert (r ∉ slabs c) as Hrc.
      { intros Hin. pose proof (slab_taken _ _ _ _ _ Hperm Hc Hin). lia. }
      destruct (AddSlab_ok (pm_heap m) c (hs i) r Hs Hrc Hfull (Hfree r ltac:(lia))) as (slab & Es & Hok). rewrite res_bind_Ret in Es. destruct Es as (slab0 & -> & Es).
      cbn [mbind res_bind]. rewrite Es. cbn [mbind res_bind]. eexists _, _. split; [done|]. left. split; [pose proof (slab_base_pos r); lia|].
      rewrite <- (po_slabs _ _ Hm). eapply partition_add_slab; try done. intros j Hj. by rewrite list_lookup_insert_ne.
  - rewrite decide_True by done. eexists _, _. split; [done|]. left. split; [done|]. by eapply partition_replace.
Qed.

Lemma foldl_FreeItem c items :
  foldl SlabClass_FreeItem c items = mkClass (nitems_per_slab c) (sc_size c) (slabs c) (free_list c ++ items).
Proof.
  revert c. induction items as [|p items IH]; intros c; cbn [foldl]; [by rewrite app_nil_r; destruct c|]. rewrite IH. cbn. by rewrite <- (assoc_L (++)).
Qed.

Lemma Partitioned_FreeItems_ok m hs i items l :
  partition_ok m hs → (i < MAX_NUMBER_OF_SLAB_CLASSES)%nat → hs i ≡ₚ items ++ l →
  ∃ m', Partitioned_FreeItems m items i = Ret m' ∧ partition_ok m' (upd hs i l).
Proof.
  intros Hm Hi Hl. destruct (class_exists m hs i Hm Hi) as [c Hc]. unfold Partitioned_FreeItems. rewrite Hc, foldl_FreeItem. eexists. split; [done|].
  eapply partition_replace; try done. destruct (po_class _ _ Hm i c Hc) as (ks & H1 & H2 & H3). exists ks. cbn [sc_size slabs free_list]. split_and!; [done..|].
  by rewrite H3, Hl, (assoc_L (++)).
Qed.

Lemma FreeItem_FreeItems m p i : Partitioned_FreeItem m p i = Partitioned_FreeItems m [p] i.
Proof. unfold Partitioned_FreeItem, Partitioned_FreeItems. by destruct (slab_classes_ m !! i). Qed.

Lemma Partitioned_slabclassid_ok m hs size : partition_ok m hs → 0 < size <= slab_bytes → Partitioned_slabclassid m size = class_of size.
Proof.
  intros Hm Hs. unfold Partitioned_slabclassid. rewrite (po_mb _ _ Hm), (proj2 slab_bytes_range), decide_True by lia. by rewrite (po_sizes _ _ Hm).
Qed.

Lemma Partitioned_make_ok data_size :
  0 <= data_size → n = Z.to_nat (data_size `div` slab_bytes) →
  ∃ m, Partitioned_make base data_size mb = Ret m ∧ partition_ok m (λ _, []).
Proof.
  intros Hd En. pose proof slab_bytes_range as [Hb Hw]. unfold Partitioned_make. rewrite Hw. assert (1200 = class_size 0) as -> by (unfold class_size; cbn; lia).
  rewrite init_classes_ok. cbn [mbind res_bind]. rewrite decide_False by lia. eexists. split; [done|]. rewrite <- En.
  assert (0 <= data_size `div` slab_bytes) by (apply Z.div_pos; lia).
  split; cbn [slab_size_mb_ slab_classes_ free_slabs_ pm_heap free_slab_index_]; [done|by rewrite <- list_fmap_compose| |done| |].
  - by apply Forall_fmap, Forall_forall.
  - exists n. split_and!; [done|f_equal; lia| |intros; by apply init_slabs_lookup].
    rewrite <- list_fmap_compose. unfold compose. cbn [slabs]. by rewrite concat_nils.
  - intros i c Hc. apply list_lookup_fmap_Some in Hc as (j & -> & _). exists []. cbn [slabs sc_size free_list]. split_and!; [constructor| |done].
    by intros [].
Qed.

(** ** What is held *)

Lemma held_inside m hs i c p :
  partition_ok m hs → slab_classes_ m !! i = Some c → p ∈ hs i →
  inside (p, class_size i) (base, Z.of_nat n * slab_bytes)
  ∧ ∃ k j, k ∈ slabs c ∧ 0 <= j < cap (class_size i) ∧ p = slab_base k + j * class_size i.
Proof.
  intros Hm Hc Hp. destruct (class_size_ok m hs i c Hm Hc) as [Es Hs]. destruct (class_item _ _ _ p (po_class _ _ Hm i c Hc)) as (k & j & Hk & Hj & ->); [set_solver|].
  rewrite Es in *. split; [|by exists k, j]. destruct (po_free _ _ Hm) as (r & _ & _ & Hperm & _).
  assert (k ∈ seq 0 n) as Hkn%elem_of_seq.
  { rewrite <- Hperm. apply elem_of_app. left. apply list_elem_of_In, in_concat. exists (slabs c). split; [|by apply list_elem_of_In].
    apply list_elem_of_In, list_elem_of_fmap. exists c. split; [done|by eapply list_elem_of_lookup_2]. }
  pose proof (slab_item_inside _ k j Hs Hj) as Hin. pose proof slab_bytes_range as [Hb _]. unfold inside, slab_base in *. cbn [fst snd]. nia.
Qed.

Lemma held_apart m hs i j p q :
  partition_ok m hs → (i < MAX_NUMBER_OF_SLAB_CLASSES)%nat → (j < MAX_NUMBER_OF_SLAB_CLASSES)%nat → p ∈ hs i → q ∈ hs j → i ≠ j ∨ p ≠ q →
  disjoint_regions (p, class_size i) (q, class_size j).
Proof.
  intros Hm Hi Hj Hp Hq Hne. destruct (class_exists m hs i Hm Hi) as [c Hc]. destruct (class_exists m hs j Hm Hj) as [d Hd].
  destruct (held_inside m hs i c p Hm Hc Hp) as [_ (k & x & Hk & Hx & ->)]. destruct (held_inside m hs j d q Hm Hd Hq) as [_ (l & y & Hl & Hy & ->)].
  pose proof (slab_item_inside _ k x (class_size_range i) Hx). pose proof (slab_item_inside _ l y (class_size_range j) Hy). unfold disjoint_regions. cbn [fst snd].
  destruct (decide (k = l)) as [->|Hkl]; [|destruct (slab_bases_apart k l Hkl); lia]. assert (i = j) as -> by (by eapply slabs_apart).
  destruct Hne as [?|Hne]; [done|]. assert (x ≠ y) by (by intros ->). pose proof (class_size_range j). destruct (decide (x < y)); nia.
Qed.
End partition.

(** ** All partitions *)

Section manager.
Context (buf mb psize : Z) (np : nat).
Hypothesis Hbuf : 0 < buf.
Hypothesis Hmb : 0 < mb < 4096.
Hypothesis Hps : 0 <= psize.
Hypothesis Hnp : (0 < np)%nat.

(** The slabs and the first byte of a partition. *)
Definition nslabs : nat := Z.to_nat (psize `div` slab_bytes mb).
Definition partition_base (q : nat) : Z := buf + Z.of_nat q * psize.
Hypothesis Hns : Z.of_nat nslabs < 2 ^ 31.

(** The addresses held of class [c] in partition [q]. *)
Definition held_in (held : list held_item) (q c : nat) : list Z :=
  omap (λ h, if decide (Z.to_nat (h.1.1 `mod` Z.of_nat np) = q ∧ class_of mb h.2 = Ret c) then Some h.1.2 else None) held.

Record manager_ok (ms : NovaMemManager) (held : list held_item) : Prop := {
  mo_length : length ms = np;
  mo_held : Forall (λ h, 0 <= h.1.1 ∧ 0 < h.2 <= slab_bytes mb) held;
  mo_partition q m : ms !! q = Some m → partition_ok (partition_base q) mb nslabs m (held_in held q)
}.

Lemma partition_base_pos q : 0 < partition_base q.
Proof. unfold partition_base. nia. Qed.

Lemma partition_of_lt ms key : length ms = np → (partition_of ms key < np)%nat ∧ partition_of ms key = Z.to_nat (key `mod` Z.of_nat np).
Proof. intros E. unfold partition_of. rewrite E. split; [|done]. pose proof (Z.mod_pos_bound key (Z.of_nat np)). lia. Qed.

Lemma partition_at_ok ms held key :
  manager_ok ms held →
  ∃ m, partition_at ms key = Ret m ∧ ms !! partition_of ms key = Some m
    ∧ partition_ok (partition_base (partition_of ms key)) mb nslabs m (held_in held (partition_of ms key)).
Proof.
  intros Hm. destruct (partition_of_lt ms key (mo_length _ _ Hm)) as [Hlt _].
  destruct (lookup_lt_is_Some_2 ms (partition_of ms key)) as [m E]; [by rewrite (mo_length _ _ Hm)|].
  exists m. unfold partition_at. rewrite E. split_and!; [done..|]. by apply (mo_partition _ _ Hm).
Qed.

Lemma held_in_perm held held' q c : held ≡ₚ held' → held_in held q c ≡ₚ held_in held' q c.
Proof. unfold held_in. by intros ->. Qed.

Lemma held_in_of key size items q c held :
  held_in (held_of key size items ++ held) q c =
  (if decide (Z.to_nat (key `mod` Z.of_nat np) = q ∧ class_of mb size = Ret c) then items else []) ++ held_in held q c.
Proof.
  unfold held_in, held_of. rewrite omap_app. f_equal. case_decide as H; induction items as [|p items IH]; cbn; [done| |done|].
  - rewrite decide_True by done. f_equal. exact IH.
  - rewrite decide_False by done. exact IH.
Qed.

(** One partition is replaced, with what is held in it. *)
Lemma manager_replace ms held held' key size c m l :
  manager_ok ms held → class_of mb size = Ret c → Forall (λ h, 0 <= h.1.1 ∧ 0 < h.2 <= slab_bytes mb) held' →
  partition_ok (partition_base (partition_of ms key)) mb nslabs m (upd (held_in held (partition_of ms key)) c l) →
  (∀ q d, held_in held' q d ≡ₚ if decide (partition_of ms key = q ∧ c = d) then l else held_in held q d) →
  manager_ok (<[partition_of ms key := m]> ms) held'.
Proof.
  intros Hm Hc Hf Hok Hh. destruct (partition_of_lt ms key (mo_length _ _ Hm)) as [Hlt _]. split; [by rewrite length_insert, (mo_length _ _ Hm)|done|].
  intros q m'. destruct (decide (q = partition_of ms key)) as [->|Hq].
  - rewrite list_lookup_insert_eq by (by rewrite (mo_length _ _ Hm)). intros [= <-]. eapply partition_ok_perm; [|exact Hok].
    intros d. rewrite Hh. unfold upd. by repeat case_decide; naive_solver.
  - rewrite list_lookup_insert_ne by done. intros Hq'. eapply partition_ok_perm; [|by apply (mo_partition _ _ Hm)]. intros d. rewrite Hh. by case_decide; naive_solver.
Qed.

(** All memory that [key] can use for requests of [size] is held. *)
Definition used_up (ms : NovaMemManager) (held : list held_item) (key size : Z) : Prop :=
  ∃ m c, partition_at ms key = Ret m ∧ class_of mb size = Ret c ∧ exhausted nslabs m c (held_in held (partition_of ms key) c).

Lemma request_ok ms held key size :
  manager_ok ms held → 0 <= key → 0 < size <= slab_bytes mb →
  ∃ ms' p, request ms key size = Ret (ms', p) ∧ manager_ok ms' (if decide (p = 0) then held else (key, p, size) :: held)
    ∧ (p = 0 → used_up ms held key size).
Proof.
  intros Hm Hk Hs. destruct (partition_at_ok ms held key Hm) as (m & Em & Hl & Hok). destruct (class_of_ok mb Hmb size Hs) as (c & Ec & Hc & _ & _).
  unfold request, Manager_slabclassid, Manager_ItemAlloc. rewrite Em. cbn [mbind res_bind]. rewrite (Partitioned_slabclassid_ok _ mb Hmb nslabs m _ size Hok Hs), Ec. cbn [mbind res_bind].
  destruct (Partitioned_ItemAlloc_ok _ mb (partition_base_pos _) Hmb nslabs Hns m _ c Hok Hc) as (m' & p & -> & Hcase). cbn [mbind res_bind]. eexists _, _. split; [done|].
  destruct (partition_of_lt ms key (mo_length _ _ Hm)) as [_ Eq]. destruct Hcase as [[Hp Hok']|(-> & Hok' & Hex)].
  - rewrite decide_False by done. split; [|done]. eapply (manager_replace _ held); try done; [constructor; [done|apply (mo_held _ _ Hm)]|].
    intros q d. change ((key, p, size) :: held) with (held_of key size [p] ++ held). rewrite held_in_of, <- Eq, Ec. repeat case_decide; naive_solver.
  - rewrite decide_True by done. split; [|intros _; by exists m, c]. eapply (manager_replace _ held held key size c m' (held_in held (partition_of ms key) c)); try done; [apply (mo_held _ _ Hm)| |].
    + eapply partition_ok_perm; [|exact Hok']. intros d. unfold upd. by case_decide; subst.
    + intros q d. by case_decide; naive_solver.
Qed.

Lemma release_items_ok ms held held' key size items :
  manager_ok ms held → 0 <= key → 0 < size <= slab_bytes mb → held ≡ₚ held_of key size items ++ held' →
  ∃ ms', release ms key size items = Ret ms' ∧ manager_ok ms' held'.
Proof.
  intros Hm Hk Hs Hh. destruct (partition_at_ok ms held key Hm) as (m & Em & Hl & Hok). destruct (class_of_ok mb Hmb size Hs) as (c & Ec & Hc & _ & _).
  unfold release, Manager_slabclassid, Manager_FreeItems. rewrite Em. cbn [mbind res_bind]. rewrite (Partitioned_slabclassid_ok _ mb Hmb nslabs m _ size Hok Hs), Ec. cbn [mbind res_bind].
  destruct (partition_of_lt ms key (mo_length _ _ Hm)) as [_ Eq].
  destruct (Partitioned_FreeItems_ok _ mb nslabs m _ c items (held_in held' (partition_of ms key) c) Hok Hc) as (m' & -> & Hok').
  { rewrite (held_in_perm _ _ _ _ Hh), held_in_of, <- Eq. by rewrite decide_True. }
  cbn [mbind res_bind]. eexists. split; [done|]. eapply (manager_replace _ held); try done.
  - pose proof (mo_held _ _ Hm) as Hf. rewrite Hh in Hf. by apply Forall_app in Hf as [_ ?].
  - intros q d. case_decide as Hd; [by destruct Hd as [-> ->]|]. rewrite (held_in_perm _ _ _ _ Hh), held_in_of, <- Eq, Ec, decide_False by naive_solver. done.
Qed.

Lemma release_one_release ms key size p : release_one ms key size p = release ms key size [p].
Proof.
  unfold release_one, release, Manager_FreeItem, Manager_FreeItems. destruct (Manager_slabclassid ms key size); [|done..]. cbn [mbind res_bind].
  destruct (partition_at ms key); [|done..]. cbn [mbind res_bind]. by rewrite FreeItem_FreeItems.
Qed.

Lemma mem_run_ok ms0 ms held : manager_ok ms0 [] → mem_run (slab_bytes mb) ms0 ms held → manager_ok ms held.
Proof.
  intros H0. induction 1 as [|ms held key size ms' p _ IH Hk Hs E|ms held held' key size items ms' _ IH Hk Hs Hh E|ms held held' key size p ms' _ IH Hk Hs Hh E]; [done|..].
  - destruct (request_ok ms held key size IH Hk Hs) as (ms1 & p1 & E1 & Hok & _). rewrite E in E1. by injection E1 as <- <-.
  - destruct (release_items_ok ms held held' key size items IH Hk Hs Hh) as (ms1 & E1 & Hok). rewrite E in E1. by injection E1 as <-.
  - rewrite release_one_release in E. destruct (release_items_ok ms held held' key size [p] IH Hk Hs Hh) as (ms1 & E1 & Hok). rewrite E in E1. by injection E1 as <-.
Qed.

Lemma init_partitions_ok k q :
  ∃ ms, init_partitions k (partition_base q) psize mb = Ret ms ∧ length ms = k
    ∧ ∀ i m, ms !! i = Some m → partition_ok (partition_base (q + i)) mb nslabs m (λ _, []).
Proof. clear Hnp np Hns Hbuf.
  revert q. induction k as [|k IH]; intros q; [by exists []|]. cbn [init_partitions].
  destruct (Partitioned_make_ok (partition_base q) mb Hmb nslabs psize Hps eq_refl) as (m & -> & Hm). cbn [mbind res_bind].
  replace (partition_base q + psize) with (partition_base (S q)) by (unfold partition_base; lia).
  destruct (IH (S q)) as (ms & -> & Hl & Hms). cbn [mbind res_bind]. exists (m :: ms). split_and!; [done|cbn; lia|].
  intros [|i] m' Hi; [injection Hi as <-; by rewrite Nat.add_0_r|]. rewrite Nat.add_succ_r. by apply (Hms i).
Qed.

(** ** What is held is apart *)

Lemma held_entry ms held (h : held_item) :
  manager_ok ms held → h ∈ held →
  ∃ q c m, q = Z.to_nat (h.1.1 `mod` Z.of_nat np) ∧ class_of mb h.2 = Ret c ∧ (c < MAX_NUMBER_OF_SLAB_CLASSES)%nat ∧ h.2 <= class_size mb c
    ∧ ms !! q = Some m ∧ (q < np)%nat ∧ h.1.2 ∈ held_in held q c.
Proof.
  intros Hm Hh. pose proof (mo_held _ _ Hm) as Hf. rewrite Forall_forall in Hf. destruct (Hf h Hh) as [Hk Hs].
  destruct (class_of_ok mb Hmb h.2 Hs) as (c & Ec & Hc & Hle & _). destruct (partition_of_lt ms h.1.1 (mo_length _ _ Hm)) as [Hlt Eq].
  destruct (lookup_lt_is_Some_2 ms (partition_of ms h.1.1)) as [m E]; [by rewrite (mo_length _ _ Hm)|].
  exists (partition_of ms h.1.1), c, m. split_and!; try done. unfold held_in. apply list_elem_of_omap. exists h. split; [done|]. by rewrite decide_True.
Qed.

Lemma partition_inside : Z.of_nat nslabs * slab_bytes mb <= psize.
Proof. clear -Hmb Hps.
  pose proof (slab_bytes_range mb Hmb) as [Hb _]. unfold nslabs. rewrite Z2Nat.id by (apply Z.div_pos; lia). rewrite Z.mul_comm. apply Z.mul_div_le. lia.
Qed.

Lemma held_region ms held (h : held_item) q c m :
  manager_ok ms held → ms !! q = Some m → (c < MAX_NUMBER_OF_SLAB_CLASSES)%nat → h.2 <= class_size mb c → h.1.2 ∈ held_in held q c →
  inside (h.1.2, h.2) (partition_base q, psize).
Proof.
  intros Hm Hq Hc Hle Hin. pose proof (mo_partition _ _ Hm q m Hq) as Hok. destruct (class_exists _ _ _ m _ c Hok Hc) as [d Hd].
  destruct (held_inside _ mb (partition_base_pos q) Hmb nslabs Hns m _ c d _ Hok Hd Hin) as [[H1 H2] _]. pose proof partition_inside. unfold inside in *. cbn [fst snd] in *. lia.
Qed.

Lemma omap_nodup_inj {A B} (f : A → option B) (l : list A) i j x y b :
  NoDup (omap f l) → l !! i = Some x → l !! j = Some y → f x = Some b → f y = Some b → i = j.
Proof.
  revert i j. induction l as [|z l IH]; intros i j Hnd Hi Hj Hx Hy; [done|]. cbn in Hnd.
  assert (∀ k w, l !! k = Some w → f w = Some b → b ∈ omap f l) as Hin.
  { intros k w Hk Hw. apply list_elem_of_omap. exists w. split; [by eapply list_elem_of_lookup_2|done]. }
  destruct i as [|i], j as [|j]; [done|..]; cbn in Hi, Hj.
  - injection Hi as ->. rewrite Hx in Hnd. apply NoDup_cons in Hnd as [Hnd _]. exfalso. apply Hnd. by eapply Hin.
  - injection Hj as ->. rewrite Hy in Hnd. apply NoDup_cons in Hnd as [Hnd _]. exfalso. apply Hnd. by eapply Hin.
  - f_equal. eapply IH; try done. destruct (f z); [by apply NoDup_cons in Hnd as [_ ?]|done].
Qed.

Lemma held_disjoint ms held i j h h' :
  manager_ok ms held → i ≠ j → held !! i = Some h → held !! j = Some h' → disjoint_regions (h.1.2, h.2) (h'.1.2, h'.2).
Proof.
  intros Hm Hij Hi Hj. destruct (held_entry ms held h Hm) as (q & c & m & Eq & Ec & Hc & Hle & Hm1 & Hq & Hin); [by eapply list_elem_of_lookup_2|].
  destruct (held_entry ms held h' Hm) as (q' & c' & m' & Eq' & Ec' & Hc' & Hle' & Hm2 & Hq' & Hin'); [by eapply list_elem_of_lookup_2|].
  destruct (decide (q = q')) as [<-|Hqq].
  - rewrite Hm1 in Hm2. injection Hm2 as <-. pose proof (mo_partition _ _ Hm q m Hm1) as Hok.
    enough (disjoint_regions (h.1.2, class_size mb c) (h'.1.2, class_size mb c')) as H by (unfold disjoint_regions in *; cbn [fst snd] in *; lia).
    apply (held_apart _ mb (partition_base_pos q) Hmb nslabs Hns m _ c c' _ _ Hok); try done. destruct (decide (c = c')) as [<-|]; [right|by left].
    intros Ep. apply Hij. destruct (class_exists _ _ _ m _ c Hok Hc) as [d Hd]. destruct (class_size_ok _ mb Hmb nslabs m _ c d Hok Hd) as [_ Hs].
    pose proof (class_nodup _ mb Hmb _ d _ Hs (slabs_nodup _ _ _ m _ c d Hok Hd) (po_class _ _ _ _ _ Hok c d Hd)) as Hnd. unfold held_in in Hnd.
    eapply (omap_nodup_inj _ _ _ _ _ _ h.1.2 Hnd Hi Hj); rewrite decide_True by done; [done|by rewrite Ep].
  - pose proof (held_region ms held h q c m Hm Hm1 Hc Hle Hin) as H1. pose proof (held_region ms held h' q' c' m' Hm Hm2 Hc' Hle' Hin') as H2.
    unfold inside, disjoint_regions, partition_base in *. cbn [fst snd] in *. destruct (decide (q < q')%nat) as [Hlt|Hge]; [left|right].
    + assert (Z.of_nat q + 1 <= Z.of_nat q') by lia. nia.
    + assert (Z.of_nat q' + 1 <= Z.of_nat q) by lia. nia.
Qed.
End manager.

(** ** Properties *)

Lemma NovaMemManager_make_ok buf np gb mb :
  0 < buf → 0 < np → 0 < mb < 4096 → 0 <= gb < 2 ^ 20 →
  let psize := (gb * 2 ^ 30) `div` np in
  Z.of_nat (nslabs mb psize) < 2 ^ 31 ∧ 0 <= psize ∧ np * psize <= gb * 2 ^ 30
  ∧ ∃ ms, NovaMemManager_make buf np gb mb = Ret ms ∧ manager_ok buf mb psize (Z.to_nat np) ms [].
Proof.
  intros Hb Hn Hm Hg psize. assert (0 <= psize) as Hp by (apply Z.div_pos; lia). assert (np * psize <= gb * 2 ^ 30) as Hle by (apply Z.mul_div_le; lia).
  pose proof (slab_bytes_range mb Hm) as [Hs _]. assert (Z.of_nat (nslabs mb psize) < 2 ^ 31) as Hns.
  { pose proof (partition_inside mb psize Hm Hp) as H. assert (psize < 2 ^ 50) by nia. nia. }
  split_and!; [done..|]. unfold NovaMemManager_make. rewrite decide_False by lia. rewrite w64_small by mlia.
  replace (gb * 1024 * 1024 * 1024) with (gb * 2 ^ 30) by lia. fold psize.
  destruct (init_partitions_ok buf mb psize Hm Hp (Z.to_nat np) 0) as (ms & E & Hl & Hms). unfold partition_base in E. rewrite Z.mul_0_l, Z.add_0_r in E.
  exists ms. split; [done|]. split; [done|by constructor|]. intros q m Hq. by apply (Hms q).
Qed.

(** C16. Memory is never handed out twice: the constructor succeeds; in every state
    that clients can reach the items that are held lie inside the registered
    memory and are pairwise disjoint; every request of up to a slab and every
    release of held items succeeds; and a request is turned down only when all
    slabs of the partition belong to a class and all items of the class asked
    for are held, so no item is lost. *)
Theorem mem_manager_disjoint (buf np gb mb : Z) :
  0 < buf → 0 < np → 0 < mb < 4096 → 0 <= gb < 2 ^ 20 →
  ∃ ms0, NovaMemManager_make buf np gb mb = Ret ms0
    ∧ ∀ ms held, mem_run (slab_bytes mb) ms0 ms held →
      (∀ h, h ∈ held → inside (h.1.2, h.2) (buf, gb * 2 ^ 30))
      ∧ (∀ i j h h', i ≠ j → held !! i = Some h → held !! j = Some h' → disjoint_regions (h.1.2, h.2) (h'.1.2, h'.2))
      ∧ (∀ key size, 0 <= key → 0 < size <= slab_bytes mb → ∃ ms' p, request ms key size = Ret (ms', p)
           ∧ (p = 0 → used_up mb ((gb * 2 ^ 30) `div` np) (Z.to_nat np) ms held key size))
      ∧ (∀ key size items held', 0 <= key → 0 < size <= slab_bytes mb → held ≡ₚ held_of key size items ++ held' →
           ∃ ms', release ms key size items = Ret ms').
Proof.
  intros Hb Hn Hm Hg. destruct (NovaMemManager_make_ok buf np gb mb Hb Hn Hm Hg) as (Hns & Hp & Hle & ms0 & E & H0). set (psize := (gb * 2 ^ 30) `div` np) in *.
  exists ms0. split; [done|]. intros ms held Hrun. assert (0 < Z.to_nat np)%nat as Hnp by lia.
  pose proof (mem_run_ok buf mb psize (Z.to_nat np) Hb Hm Hp Hnp Hns ms0 ms held H0 Hrun) as Hok. split_and!.
  - intros h Hh. destruct (held_entry buf mb psize (Z.to_nat np) Hm Hnp ms held h Hok Hh) as (q & c & m & _ & _ & Hc & Hsz & Hq & Hlt & Hin).
    pose proof (held_region buf mb psize (Z.to_nat np) Hb Hm Hp Hnp Hns ms held h q c m Hok Hq Hc Hsz Hin) as Hr. unfold inside, partition_base in *. cbn [fst snd] in *.
    assert (Z.of_nat q + 1 <= np) by lia. nia.
  - intros i j h h'. intros Hij Hi Hj. by eapply (held_disjoint buf mb psize (Z.to_nat np)).
  - intros key size Hk Hs. destruct (request_ok buf mb psize (Z.to_nat np) Hb Hm Hp Hnp Hns ms held key size Hok Hk Hs) as (ms' & p & Er & _ & Hu). by exists ms', p.
  - intros key size items held' Hk Hs Hh. destruct (release_items_ok buf mb psize (Z.to_nat np) Hm Hnp ms held held' key size items Hok Hk Hs Hh) as (ms' & Er & _). by exists ms'.
Qed.

(** Two slabs of 512 MB in one partition: once a class has each of them, a
    request of another slab is turned down. *)
Lemma mem_manager_disjoint_witness :
  ∃ ms0, NovaMemManager_make 4096 1 1 512 = Ret ms0
    ∧ ∃ ms, mem_run (slab_bytes 512) ms0 ms [(0, 4096, 1000); (7, 536875008, 536870912)]
      ∧ inside (4096, 1000) (4096, 1 * 2 ^ 30) ∧ disjoint_regions (4096, 1000) (536875008, 536870912)
      ∧ (∃ ms', request ms 3 536870912 = Ret (ms', 0))
      ∧ used_up 512 ((1 * 2 ^ 30) `div` 1) (Z.to_nat 1) ms [(0, 4096, 1000); (7, 536875008, 536870912)] 3 536870912.
Proof.
  destruct (mem_manager_disjoint 4096 1 1 512) as (ms0 & E & H); [lia..|]. exists ms0. split; [done|]. vm_compute in E. injection E as <-.
  set (ms0 := [_]) in *. eassert (mem_run (slab_bytes 512) ms0 _ [(0, 4096, 1000); (7, 536875008, 536870912)]) as Hrun.
  { refine (run_request _ _ _ [(7, 536875008, 536870912)] 0 1000 _ 4096 _ _ _ _); [|lia|vm_compute; split; [done|discriminate]|].
    - refine (run_request _ _ _ [] 7 536870912 _ 536875008 _ _ _ _); [apply run_start|lia|vm_compute; split; [done|discriminate]|vm_compute; reflexivity].
    - vm_compute. reflexivity. }
  eexists. split; [exact Hrun|]. destruct (H _ _ Hrun) as (H1 & H2 & H3 & _). split_and!.
  - apply (H1 (0, 4096, 1000)). by left.
  - by apply (H2 0%nat 1%nat (0, 4096, 1000) (7, 536875008, 536870912)).
  - eexists. vm_compute. reflexivity.
  - destruct (H3 3 536870912) as (ms' & p & Er & Hu); [lia|vm_compute; split; [done|discriminate]|]. apply Hu. vm_compute in Er. by injection Er.
Defined.
