(* ===== verification/AtomicMemTable.v ===== *)
(** * AtomicMemTable: the slots of the memtables of a database

    [AtomicMemTable] and [MemTablePartition] of [db/memtable.h] and
    [db/memtable.cc].  A slot refers to its memtable until it is flushed, then
    to the level-0 files it was flushed to; readers that found the memtable
    keep it alive.  The mutex of a slot makes each method one step. *)

From S2P Require Import Prelude Coding SkipList Arena Comparator DbFormat MemTable.

Record AtomicMemTable := mkSlot {
  is_immutable_ : bool;
  is_flushed_ : bool;
  generation_id_ : Z;
  is_scheduled_for_flushing : bool;
  last_version_id_ : Z;
  slot_memtable_id_ : Z;
  l0_file_numbers_ : list Z;
  memtable_ : option MemTable;
  nentries_ : Z;
  memtable_size_ : Z;
  number_of_pending_writes_ : Z
}.

(** A slot as constructed; the atomic members start at zero. *)
Definition AtomicMemTable_init : AtomicMemTable := mkSlot false false 0 false 0 0 [] None 0 0 0.

Definition with_memtable (a : AtomicMemTable) (m : option MemTable) : AtomicMemTable :=
  mkSlot (is_immutable_ a) (is_flushed_ a) (generation_id_ a) (is_scheduled_for_flushing a)
    (last_version_id_ a) (slot_memtable_id_ a) (l0_file_numbers_ a) m (nentries_ a) (memtable_size_ a) (number_of_pending_writes_ a).

(** [SetMemTable(generation_id, mem)]. *)
Definition SetMemTable (a : AtomicMemTable) (generation_id : Z) (mem : MemTable) : AtomicMemTable :=
  mkSlot false false generation_id false (last_version_id_ a) (memtable_id_ mem) []
    (Some (MemTable_Ref mem)) (nentries_ a) (memtable_size_ a) (number_of_pending_writes_ a).

(** [if (refs <= 0) { delete memtable_; memtable_ = nullptr; }]; the
    destructor asserts that no reference is left. *)
Definition drop_memtable (a : AtomicMemTable) (m : MemTable) (refs : Z) : res AtomicMemTable :=
  if decide (refs <= 0) then
    if decide (refs_ m = 0) then Ret (with_memtable a None) else Abort
  else Ret (with_memtable a (Some m)).

(** [SetFlushed(dbname, l0_file_numbers, version_id)]. *)
Definition SetFlushed (a : AtomicMemTable) (l0_file_numbers : list Z) (version_id : Z) : res AtomicMemTable :=
  if is_flushed_ a then Abort
  else if decide (l0_file_numbers_ a ≠ []) then Abort
  else if is_immutable_ a then
    match memtable_ a with
    | None => Abort
    | Some m =>
        let a := mkSlot (is_immutable_ a) true (generation_id_ a) (is_scheduled_for_flushing a)
                   (Z.max (last_version_id_ a) version_id) (slot_memtable_id_ a)
                   (foldl (λ s n, set_insert n s) [] l0_file_numbers) (memtable_ a) (nentries_ a) (memtable_size_ a) (number_of_pending_writes_ a) in
        '(m, refs) ← MemTable_Unref m 1;
        drop_memtable a m refs
    end
  else Abort.

(** [RefMemTable()]: whether a memtable was found. *)
Definition RefMemTable (a : AtomicMemTable) : AtomicMemTable * bool :=
  match memtable_ a with
  | Some m => (with_memtable a (Some (MemTable_Ref m)), true)
  | None => (a, false)
  end.

(** [UpdateL0Files(version_id, edit)]. *)
Definition UpdateL0Files (a : AtomicMemTable) (version_id : Z) (add_fns remove_fns : list Z) : res AtomicMemTable :=
  if negb (is_immutable_ a) then Abort
  else if negb (is_flushed_ a) then Abort
  else
    let added := foldl (λ s n, set_insert n s) (l0_file_numbers_ a) add_fns in
    let left := foldl (λ s n, filter (λ x, x ≠ n) s) added remove_fns in
    Ret (mkSlot (is_immutable_ a) (is_flushed_ a) (generation_id_ a) (is_scheduled_for_flushing a)
           (Z.max (last_version_id_ a) version_id) (slot_memtable_id_ a) left (memtable_ a)
           (nentries_ a) (memtable_size_ a) (number_of_pending_writes_ a)).

(** [Unref(dbname, unrefcount)]. *)
Definition AtomicMemTable_Unref (a : AtomicMemTable) (unrefcount : Z) : res AtomicMemTable :=
  match memtable_ a with
  | None => Abort
  | Some m =>
      '(m, refs) ← MemTable_Unref m unrefcount;
      if decide (refs = 0) then drop_memtable a m refs else Ret (with_memtable a (Some m))
  end.

(** [Encode(buf)]. *)
Definition AtomicMemTable_Encode (a : AtomicMemTable) : bytes :=
  EncodeBool (is_immutable_ a) ++ EncodeBool (is_flushed_ a) ++ EncodeFixed32 (last_version_id_ a)
  ++ EncodeFixed32 (slot_memtable_id_ a) ++ EncodeFixed32 (w32 (nentries_ a)) ++ EncodeFixed32 (memtable_size_ a)
  ++ EncodeFixed32 (w32 (size_of (l0_file_numbers_ a)))
  ++ (l0_file_numbers_ a ≫= EncodeFixed64).

(** [Decode(buf, cmp)]: whether the memtable exists already.  The fresh
    memtable waits for its entries; [new_memtable] is its constructor. *)
Definition AtomicMemTable_Decode (new_memtable : Z → MemTable) (a : AtomicMemTable) : parser (AtomicMemTable * bool) :=
  let! immutable := must DecodeBool in
  let! flushed := must DecodeBool in
  let! last_version_id := must DecodeFixed32 in
  let! memtable_id := must DecodeFixed32 in
  let! nentries := must DecodeFixed32 in
  let! memtable_size := must DecodeFixed32 in
  let! size := must DecodeFixed32 in
  let! l0 := repeatP (Z.to_nat size) (must DecodeFixed64) in
  let l0_files := foldl (λ s n, set_insert n s) (l0_file_numbers_ a) l0 in
  let fresh := negb flushed && bool_decide (memtable_ a = None) in
  let mem := if fresh then Some (new_memtable memtable_id) else memtable_ a in
  pret (mkSlot immutable flushed (generation_id_ a) (is_scheduled_for_flushing a) last_version_id
          memtable_id l0_files mem nentries memtable_size (number_of_pending_writes_ a), negb fresh).

(** ** The mapping from memtable ids to slots *)

(** [VersionSet::EncodeTableIdMapping(buf, latest_memtableid)] over
    [mid_table_mapping_]. *)
Definition EncodeTableIdMapping (mapping : list AtomicMemTable) (latest_memtableid : Z) : bytes :=
  (take (Z.to_nat latest_memtableid) mapping ≫= λ a,
     if decide (memtable_ a = None ∧ l0_file_numbers_ a = []) then []
     else EncodeFixed32 (slot_memtable_id_ a) ++ AtomicMemTable_Encode a)
  ++ EncodeFixed32 0.

(** [VersionSet::DecodeTableIdMapping(buf, cmp, mid_table_map)]: the mapping
    and the ids entered into [mid_table_map]; a round consumes at least the
    four bytes of an id, so the length of the buffer bounds the rounds. *)
Fixpoint DecodeTableIdMapping_loop (fuel : nat) (new_memtable : Z → MemTable) (mapping : list AtomicMemTable)
    (mids : list Z) : parser (list AtomicMemTable * list Z) :=
  match fuel with
  | O => pabort
  | S fuel =>
      let! mid := must DecodeFixed32 in
      if decide (mid = 0) then pret (mapping, mids)
      else
        match mapping !! Z.to_nat mid with
        | None => pabort
        | Some a =>
            let! r := AtomicMemTable_Decode new_memtable a in
            let a : AtomicMemTable := r.1 in
            DecodeTableIdMapping_loop fuel new_memtable (<[Z.to_nat mid := a]> mapping)
              (if decide (memtable_ a = None) then mids else mids ++ [mid])
        end
  end.
Definition DecodeTableIdMapping (new_memtable : Z → MemTable) (mapping : list AtomicMemTable)
    : parser (list AtomicMemTable * list Z) := λ buf,
  DecodeTableIdMapping_loop (S (length buf)) new_memtable mapping [] buf.

(** ** Partitions *)

(** The memtables of a partition, by generation ([generation_num_memtables_]). *)
Definition AddMemTable (gens : gmap Z (gset Z)) (generation_id memtableid : Z) : gmap Z (gset Z) :=
  <[generation_id := {[memtableid]} ∪ default ∅ (gens !! generation_id)]> gens.

Definition RemoveMemTable (gens : gmap Z (gset Z)) (generation_id memtableid : Z) : res (gmap Z (gset Z)) :=
  match gens !! generation_id with
  | None => Abort
  | Some ids =>
      let ids := ids ∖ {[memtableid]} in
      Ret (if decide (ids = ∅) then delete generation_id gens else <[generation_id := ids]> gens)
  end.

(** ** Readers and the life of a memtable *)

(** A slot and the references its readers and writers hold. *)
Record SlotSys := mkSlotSys { slot : AtomicMemTable; holders : Z }.

Definition make_immutable (a : AtomicMemTable) : AtomicMemTable :=
  mkSlot true (is_flushed_ a) (generation_id_ a) (is_scheduled_for_flushing a) (last_version_id_ a)
    (slot_memtable_id_ a) (l0_file_numbers_ a) (memtable_ a) (nentries_ a) (memtable_size_ a) (number_of_pending_writes_ a).

Inductive slot_step : SlotSys → SlotSys → Prop :=
  | slot_ref a h a' : RefMemTable a = (a', true) → slot_step (mkSlotSys a h) (mkSlotSys a' (h + 1))
  | slot_ref_fail a h a' : RefMemTable a = (a', false) → slot_step (mkSlotSys a h) (mkSlotSys a' h)
  | slot_unref a h n a' :
      0 < n <= h → AtomicMemTable_Unref a n = Ret a' → slot_step (mkSlotSys a h) (mkSlotSys a' (h - n))
  | slot_immutable a h : slot_step (mkSlotSys a h) (mkSlotSys (make_immutable a) h)
  | slot_flush a h l0 v a' : SetFlushed a l0 v = Ret a' → slot_step (mkSlotSys a h) (mkSlotSys a' h)
  | slot_update a h v adds removes a' :
      UpdateL0Files a v adds removes = Ret a' → slot_step (mkSlotSys a h) (mkSlotSys a' h).

(** A slot starts with a memtable nobody refers to yet. *)
Definition slot_reachable (S : SlotSys) : Prop :=
  ∃ a g m, refs_ m = 0 ∧ rtc slot_step (mkSlotSys (SetMemTable a g m) 0) S.

Definition slot_refs (S : SlotSys) : Z := holders S + (if is_flushed_ (slot S) then 0 else 1).

Record slot_ok (S : SlotSys) : Prop := {
  sk_holders : 0 <= holders S;
  sk_refs m : memtable_ (slot S) = Some m → refs_ m = slot_refs S ∧ 0 < refs_ m;
  sk_freed : memtable_ (slot S) = None → slot_refs S = 0;
  sk_l0 : is_flushed_ (slot S) = false → l0_file_numbers_ (slot S) = [];
  sk_immutable : is_flushed_ (slot S) = true → is_immutable_ (slot S) = true
}.

Lemma MemTable_Unref_spec m n :
  n <= refs_ m → ∃ m', MemTable_Unref m n = Ret (m', refs_ m - n) ∧ refs_ m' = refs_ m - n.
Proof. intros Hn. unfold MemTable_Unref. rewrite decide_True by lia. by eexists. Qed.

(** Dropping references keeps the count: the memtable is freed with the last. *)
Lemma drop_memtable_spec a m :
  0 <= refs_ m → drop_memtable a m (refs_ m) = Ret (with_memtable a (if decide (refs_ m = 0) then None else Some m)).
Proof. intros Hr. unfold drop_memtable. repeat case_decide; done || lia. Qed.

Lemma AtomicMemTable_Unref_spec a m n :
  memtable_ a = Some m → n <= refs_ m →
  ∃ m', AtomicMemTable_Unref a n = Ret (with_memtable a (if decide (refs_ m' = 0) then None else Some m'))
    ∧ refs_ m' = refs_ m - n.
Proof.
  intros Hm Hn. unfold AtomicMemTable_Unref. rewrite Hm. destruct (MemTable_Unref_spec m n Hn) as (m' & -> & Hr).
  exists m'. split; [|done]. cbn [mbind res_bind]. rewrite <- Hr.
  destruct (decide (refs_ m' = 0)) as [H0|H0]; [|done]. rewrite drop_memtable_spec, decide_True by lia. done.
Qed.

Lemma SetFlushed_spec S m l0 v :
  slot_ok S → memtable_ (slot S) = Some m → is_flushed_ (slot S) = false → is_immutable_ (slot S) = true →
  ∃ m' a, SetFlushed (slot S) l0 v = Ret a ∧ refs_ m' = refs_ m - 1
    ∧ memtable_ a = (if decide (refs_ m' = 0) then None else Some m')
    ∧ is_flushed_ a = true ∧ is_immutable_ a = true.
Proof.
  intros Hok Hm Hf Hi. unfold SetFlushed. rewrite Hf, (sk_l0 _ Hok Hf), decide_False, Hi, Hm by tauto.
  destruct (sk_refs _ Hok m Hm) as [_ Hr]. destruct (MemTable_Unref_spec m 1) as (m' & -> & Hr'); [lia|].
  cbn [mbind res_bind]. rewrite <- Hr'. rewrite drop_memtable_spec by lia. exists m'. by eexists.
Qed.

Lemma slot_step_ok S S' : slot_ok S → slot_step S S' → slot_ok S'.
Proof.
  intros Hok Hst. destruct Hst as [a h a' E|a h a' E|a h n a' Hn E|a h|a h l0 v a' E|a h v adds removes a' E];
    pose proof (sk_holders _ Hok) as Hh; cbn [holders slot] in Hh.
  - unfold RefMemTable in E. destruct (memtable_ a) as [m|] eqn:Hm; [|done]. injection E as <-.
    destruct (sk_refs _ Hok m Hm) as [Hr Hp]. split; unfold slot_refs in *; cbn in *; try done; [lia| |apply Hok..].
    intros m' [= <-]. cbn. lia.
  - unfold RefMemTable in E. destruct (memtable_ a) as [m|] eqn:Hm; [done|]. by injection E as <-.
  - destruct (memtable_ a) as [m|] eqn:Hm.
    + destruct (sk_refs _ Hok m Hm) as [Hr Hp]. unfold slot_refs in Hr. cbn in Hr.
      destruct (AtomicMemTable_Unref_spec a m n Hm) as (m' & E' & Hr'); [destruct (is_flushed_ a); lia|].
      rewrite E' in E. injection E as <-.
      split; unfold slot_refs; cbn [holders slot with_memtable memtable_ is_flushed_ l0_file_numbers_ is_immutable_];
        [lia| | |apply Hok..].
      * case_decide; [done|]. intros m'' [= <-]. destruct (is_flushed_ a); lia.
      * case_decide; [|done]. intros _. lia.
    + unfold AtomicMemTable_Unref in E. by rewrite Hm in E.
  - split; [done|apply Hok..|done].
  - assert (∃ m, memtable_ a = Some m ∧ is_flushed_ a = false ∧ is_immutable_ a = true) as (m & Hm & Hf & Hi).
    { unfold SetFlushed in E. destruct (is_flushed_ a); [done|]. case_decide; [done|].
      destruct (is_immutable_ a); [|done]. destruct (memtable_ a) as [m|]; [|done]. by exists m. }
    destruct (sk_refs _ Hok m Hm) as [Hr Hp]. unfold slot_refs in Hr. cbn [slot holders] in Hr. rewrite Hf in Hr.
    destruct (SetFlushed_spec _ m l0 v Hok Hm Hf Hi) as (m' & a'' & E' & Hr' & Hm' & Hf' & Hi').
    cbn [slot] in E'. rewrite E in E'. injection E' as <-.
    split; unfold slot_refs; cbn [slot holders]; rewrite ?Hf'; try done.
    + intros m''. rewrite Hm'. case_decide; [done|]. intros [= <-]. lia.
    + rewrite Hm'. case_decide; [lia|done].
  - unfold UpdateL0Files in E. destruct (is_immutable_ a) eqn:Hi; [|done]. destruct (is_flushed_ a) eqn:Hf; [|done].
    injection E as <-. destruct Hok as [H1 H2 H3 H4 H5]. unfold slot_refs in *. cbn in *. rewrite Hf in *.
    split; unfold slot_refs; cbn; rewrite ?Hf; done.
Qed.

Lemma slot_reachable_ok S : slot_reachable S → slot_ok S.
Proof.
  intros (a & g & m & Hm & Hsteps).
  assert (slot_ok (mkSlotSys (SetMemTable a g m) 0)) as Hinit.
  { split; unfold slot_refs; cbn; try done. intros m' [= <-]. cbn. lia. }
  revert Hinit. induction Hsteps as [|S1 S2 S3 Hst _ IH]; [done|]. intros H1. apply IH. by eapply slot_step_ok.
Qed.

(** ** Encoded slots *)

Record slot_encodable (a : AtomicMemTable) : Prop := {
  se_version : is_u32 (last_version_id_ a);
  se_id : is_u32 (slot_memtable_id_ a);
  se_entries : is_u32 (nentries_ a);
  se_size : is_u32 (memtable_size_ a);
  se_l0 : StronglySorted Z.lt (l0_file_numbers_ a) ∧ Forall is_u64 (l0_file_numbers_ a)
          ∧ size_of (l0_file_numbers_ a) < 2 ^ 32
}.

(** The slot [t] after decoding slot [a] into it. *)
Definition decoded_slot (new_memtable : Z → MemTable) (a t : AtomicMemTable) : AtomicMemTable :=
  mkSlot (is_immutable_ a) (is_flushed_ a) (generation_id_ t) (is_scheduled_for_flushing t) (last_version_id_ a)
    (slot_memtable_id_ a) (l0_file_numbers_ a)
    (match memtable_ t with
     | Some m => Some m
     | None => if is_flushed_ a then None else Some (new_memtable (slot_memtable_id_ a))
     end) (nentries_ a) (memtable_size_ a) (number_of_pending_writes_ t).

Lemma parses_AtomicMemTable new_memtable a t :
  slot_encodable a → l0_file_numbers_ t = [] →
  parses (AtomicMemTable_Decode new_memtable t) (AtomicMemTable_Encode a)
    (decoded_slot new_memtable a t, is_flushed_ a || bool_decide (memtable_ t ≠ None)).
Proof.
  intros [H1 H2 H3 H4 (Hs & Hu & Hl)] Ht. unfold AtomicMemTable_Decode, AtomicMemTable_Encode.
  rewrite !w32_small by mlia. do 7 parse_step. rewrite Nat2Z.id.
  eapply parses_bind_last.
  { apply parses_repeat. eapply Forall_impl; [exact Hu|]. intros x Hx. eauto with nova. }
  cbn beta zeta. rewrite Ht, foldl_set_insert_sorted by done.
  assert (negb (is_flushed_ a) && bool_decide (memtable_ t = None) =
          negb (is_flushed_ a || bool_decide (memtable_ t ≠ None))) as E.
  { destruct (is_flushed_ a), (memtable_ t); done. }
  rewrite E, negb_involutive. unfold decoded_slot.
  destruct (is_flushed_ a), (memtable_ t) as [m|]; apply parses_ret.
Qed.

(** Slots that are skipped by the encoder. *)
Definition unused (a : AtomicMemTable) : Prop := memtable_ a = None ∧ l0_file_numbers_ a = [].
#[global] Instance unused_dec a : Decision (unused a).
Proof. unfold unused. apply _. Defined.

(** The mapping after decoding the slots [srcs], which start at index [k]. *)
Fixpoint restored (new_memtable : Z → MemTable) (k : nat) (srcs mapping : list AtomicMemTable) : list AtomicMemTable :=
  match srcs with
  | [] => mapping
  | a :: srcs =>
      restored new_memtable (S k) srcs
        (if decide (unused a) then mapping else alter (decoded_slot new_memtable a) k mapping)
  end.

Lemma restored_lookup new_memtable k srcs mapping i :
  restored new_memtable k srcs mapping !! i =
    match srcs !! (i - k)%nat with
    | Some a => if decide (k <= i)%nat then
                  if decide (unused a) then mapping !! i else decoded_slot new_memtable a <$> mapping !! i
                else mapping !! i
    | None => mapping !! i
    end.
Proof.
  revert k mapping. induction srcs as [|a srcs IH]; intros k mapping; cbn [restored]; [done|].
  rewrite IH. destruct (decide (i < k)%nat) as [Hlt|Hge].
  - replace (i - k)%nat with 0%nat by lia. replace (i - S k)%nat with 0%nat by lia. cbn.
    rewrite (decide_False (P := (k <= i)%nat)) by lia.
    assert ((if decide (unused a) then mapping else alter (decoded_slot new_memtable a) k mapping) !! i = mapping !! i) as ->
      by (case_decide; [done|]; by rewrite list_lookup_alter_ne by lia).
    destruct srcs; [done|]. cbn. by rewrite (decide_False (P := (S k <= i)%nat)) by lia.
  - destruct (decide (i = k)) as [->|Hne].
    + rewrite Nat.sub_diag. cbn. rewrite (decide_True (P := (k <= k)%nat)) by lia.
      assert ((if decide (unused a) then mapping else alter (decoded_slot new_memtable a) k mapping) !! k =
        if decide (unused a) then mapping !! k else decoded_slot new_memtable a <$> mapping !! k) as <-
        by (case_decide; [done|]; apply list_lookup_alter_eq).
      destruct (srcs !! (k - S k)%nat); [|done]. by rewrite (decide_False (P := (S k <= k)%nat)) by lia.
    + replace (i - k)%nat with (S (i - S k)) by lia. cbn [lookup list_lookup].
      assert ((if decide (unused a) then mapping else alter (decoded_slot new_memtable a) k mapping) !! i = mapping !! i) as ->
        by (case_decide; [done|]; by rewrite list_lookup_alter_ne by lia).
      destruct (srcs !! (i - S k)%nat); [|done].
      by rewrite (decide_True (P := (k <= i)%nat)), (decide_True (P := (S k <= i)%nat)) by lia.
Qed.

Definition encode_slot (a : AtomicMemTable) : bytes :=
  if decide (memtable_ a = None ∧ l0_file_numbers_ a = []) then []
  else EncodeFixed32 (slot_memtable_id_ a) ++ AtomicMemTable_Encode a.

(** A slot in use is found under its id. *)
Definition slot_placed (i : nat) (a : AtomicMemTable) : Prop :=
  unused a ∨ slot_encodable a ∧ slot_memtable_id_ a = Z.of_nat i ∧ (0 < i)%nat.

Lemma parses_mapping_loop new_memtable srcs k mapping mids fuel :
  (∀ j a, srcs !! j = Some a → slot_placed (k + j) a) → (k + length srcs <= length mapping)%nat →
  (∀ i t, (k <= i)%nat → mapping !! i = Some t → l0_file_numbers_ t = []) →
  (length (filter (λ a, ¬ unused a) srcs) < fuel)%nat →
  ∃ mids', parses (DecodeTableIdMapping_loop fuel new_memtable mapping mids)
    ((srcs ≫= encode_slot) ++ EncodeFixed32 0) (restored new_memtable k srcs mapping, mids').
Proof.
  revert k mapping mids fuel. induction srcs as [|a srcs IH]; intros k mapping mids fuel Hp Hlen Hl0 Hf.
  - destruct fuel as [|fuel]; [lia|]. exists mids. cbn [mbind list_bind app DecodeTableIdMapping_loop restored].
    eapply parses_bind_last; [apply parses_must, parses_Fixed32; mlia|]. apply parses_ret.
  - assert (∀ j a, srcs !! j = Some a → slot_placed (S k + j) a) as Hp'.
    { intros j a' Hj. rewrite Nat.add_succ_comm. by apply Hp. }
    pose proof (Hp 0%nat a eq_refl) as Ha. rewrite Nat.add_0_r in Ha.
    cbn [mbind list_bind restored]. rewrite filter_cons in Hf. cbn [length] in Hlen. unfold encode_slot at 1.
    change (memtable_ a = None ∧ l0_file_numbers_ a = []) with (unused a).
    destruct (decide (unused a)) as [Hu|Hu].
    + rewrite decide_False in Hf by tauto. apply IH; [done|lia| |done]. intros i t Hi. apply Hl0. lia.
    + rewrite (decide_True (P := ¬ unused a)) in Hf by done. cbn [length] in Hf.
      destruct fuel as [|fuel]; [lia|]. destruct Ha as [?|(He & Hid & Hk)]; [done|].
      destruct (lookup_lt_is_Some_2 mapping k ltac:(lia)) as [t Ht].
      assert (alter (decoded_slot new_memtable a) k mapping = <[k := decoded_slot new_memtable a t]> mapping) as Halt.
      { apply list_eq. intros i. destruct (decide (i = k)) as [->|Hi].
        - rewrite list_lookup_alter_eq, Ht, list_lookup_insert_eq by lia. done.
        - by rewrite list_lookup_alter_ne, list_lookup_insert_ne by done. }
      destruct (IH (S k) (alter (decoded_slot new_memtable a) k mapping)
        (if decide (memtable_ (decoded_slot new_memtable a t) = None) then mids else mids ++ [Z.of_nat k]) fuel)
        as (mids' & Hm); [done|rewrite length_alter; lia| |lia|].
      { intros i t' Hi. rewrite list_lookup_alter_ne by lia. apply Hl0. lia. }
      exists mids'. cbn [DecodeTableIdMapping_loop]. rewrite <- !(assoc_L (++)).
      eapply parses_bind; [apply parses_must, parses_Fixed32; apply He|]. cbn beta.
      rewrite decide_False by lia. rewrite Hid, Nat2Z.id, Ht.
      eapply parses_bind; [apply parses_AtomicMemTable; [done|by apply (Hl0 k)]|]. cbn beta zeta. cbn [fst].
      by rewrite <- Halt.
Qed.

Lemma used_bytes srcs :
  (length (filter (λ a, ¬ unused a) srcs) <= length (srcs ≫= encode_slot))%nat.
Proof.
  induction srcs as [|a srcs IH]; [done|]. rewrite filter_cons. cbn [mbind list_bind].
  unfold encode_slot at 1. change (memtable_ a = None ∧ l0_file_numbers_ a = []) with (unused a).
  rewrite length_app. destruct (decide (unused a)).
  - rewrite decide_False by tauto. lia.
  - rewrite (decide_True (P := ¬ unused a)) by done. rewrite length_app. cbn [length EncodeFixed32]. lia.
Qed.

(** ** Properties *)


Definition example_memtable : MemTable := mkMemTable (SkipList_init []) Arena_init 0 7 true.

(** A memtable that was referenced by a reader when it was flushed. *)
Definition example_slot : SlotSys :=
  match SetFlushed (make_immutable (RefMemTable (SetMemTable AtomicMemTable_init 1 example_memtable)).1) [40; 41] 3 with
  | Ret a => mkSlotSys a 1
  | _ => mkSlotSys AtomicMemTable_init 0
  end.


(** The table of memtable slots survives a migration: decoding what
    [EncodeTableIdMapping] wrote restores every slot in use under its id, with
    its files, flags and counters, creates a memtable where the destination
    has none and the slot is not flushed, and leaves the other slots alone. *)
Theorem table_id_mapping_roundtrip new_memtable srcs latest mapping rest :
  (∀ i a, srcs !! i = Some a → slot_placed i a) → 0 <= latest → latest <= size_of mapping →
  (∀ i t, mapping !! i = Some t → l0_file_numbers_ t = []) →
  ∃ mapping' mids,
    DecodeTableIdMapping new_memtable mapping (EncodeTableIdMapping srcs latest ++ rest) = (Ret (mapping', mids), rest)
    ∧ ∀ i, mapping' !! i =
        match srcs !! i with
        | Some a => if decide (Z.of_nat i < latest ∧ ¬ unused a)
                    then decoded_slot new_memtable a <$> mapping !! i else mapping !! i
        | None => mapping !! i
        end.
Proof.
  intros Hp H0 Hlatest Hl0. set (n := Z.to_nat latest).
  destruct (parses_mapping_loop new_memtable (take n srcs) 0 mapping []
    (S (length (EncodeTableIdMapping srcs latest ++ rest)))) as (mids & Hm).
  - intros j a Hj. apply lookup_take_Some in Hj as [Hj _]. by apply Hp.
  - rewrite length_take. lia.
  - intros i t _. apply Hl0.
  - pose proof (used_bytes (take n srcs)) as Hb. unfold EncodeTableIdMapping. fold n.
    change (λ a, if decide _ then _ else _) with encode_slot. rewrite !length_app. lia.
  - eexists _, mids. split; [apply Hm|]. intros i. rewrite restored_lookup, Nat.sub_0_r.
    destruct (srcs !! i) as [a|] eqn:Hi.
    + destruct (decide (i < n)%nat) as [Hlt|Hge].
      * rewrite lookup_take_lt, Hi by done. rewrite decide_True by lia.
        destruct (decide (unused a)); [by rewrite decide_False by tauto|]. rewrite decide_True; [done|]. split; [lia|done].
      * rewrite lookup_take_ge by lia. by rewrite decide_False by lia.
    + destruct (decide (i < n)%nat); [by rewrite lookup_take_lt, Hi by done|by rewrite lookup_take_ge by lia].
Qed.

Definition example_slots : list AtomicMemTable :=
  [AtomicMemTable_init; mkSlot true true 0 false 3 1 [40; 41] None 10 400 0;
   SetMemTable AtomicMemTable_init 1 (mkMemTable (SkipList_init []) Arena_init 0 2 true)].

Lemma table_id_mapping_roundtrip_witness :
  ∃ mapping' mids,
    DecodeTableIdMapping (λ id, mkMemTable (SkipList_init []) Arena_init 0 id false)
      (replicate 3 AtomicMemTable_init) (EncodeTableIdMapping example_slots 3 ++ [9]) = (Ret (mapping', mids), [9])
    ∧ l0_file_numbers_ <$> mapping' !! 1%nat = Some [40; 41].
Proof.
  destruct (table_id_mapping_roundtrip (λ id, mkMemTable (SkipList_init []) Arena_init 0 id false)
    example_slots 3 (replicate 3 AtomicMemTable_init) [9]) as (mapping' & mids & E & Hl).
  - intros [|[|[|i]]] a Ha; cbn in Ha; try done; injection Ha as <-.
    + by left.
    + right. split; [|split; [reflexivity|lia]]. split; cbn; [lit..|].
      split_and!; [repeat constructor; lia|repeat constructor; lit|lit].
    + right. split; [|split; [reflexivity|lia]]. split; cbn; [lit..|].
      split_and!; [repeat constructor|repeat constructor|lit].
  - lia.
  - reflexivity.
  - intros i t Ht. by apply lookup_replicate in Ht as [-> _].
  - exists mapping', mids. split; [exact E|]. rewrite (Hl 1%nat). reflexivity.
Defined.
