(* ===== verification/FlushOrder.v ===== *)
(** * FlushOrder: which memtables may be flushed

    [db/flush_order.h] and [db/flush_order.cpp].  A reorganization of the
    subranges moves keys between partitions; with ordered flushes, memtables of
    the partitions it touched may only be flushed after the older memtables of
    these partitions.  Each partition counts its memtables by generation. *)

From S2P Require Import Prelude Coding SkipList Arena Comparator DbFormat MemTable AtomicMemTable.

Record ImpactedDranges := mkDranges {
  lower_drange_index : Z;
  upper_drange_index : Z;
  dr_generation_id : Z
}.

(** [impacted_dranges_], a null pointer at first, and [latest_generation_id]. *)
Record FlushOrder := mkFlushOrder {
  impacted_dranges_ : option (list ImpactedDranges);
  latest_generation_id : Z
}.

Definition INIT_GEN_ID : Z := 1.
Definition FlushOrder_init : FlushOrder := mkFlushOrder None INIT_GEN_ID.

Section order.
Context (use_ordered_flush : bool) (partitioned_active_memtables_ : list (gmap Z (gset Z))).

(** The loop over [generation_num_memtables_] of a partition. *)
Definition has_older (gens : gmap Z (gset Z)) (generation_id : Z) : bool :=
  existsb (λ p : Z * gset Z, bool_decide (p.1 < generation_id)) (map_to_list gens).

(** The loop over the partitions from [idx] on: whether one of them has an
    older memtable.  Reading outside the vector is [Abort]. *)
Fixpoint some_older (n : nat) (idx generation_id : Z) : res bool :=
  match n with
  | O => Ret false
  | S n =>
      match partitioned_active_memtables_ !! Z.to_nat idx with
      | None => Abort
      | Some gens => if has_older gens generation_id then Ret true else some_older n (idx + 1) generation_id
      end
  end.
Definition dranges_older (d : ImpactedDranges) : res bool :=
  some_older (Z.to_nat (upper_drange_index d - lower_drange_index d + 1)) (lower_drange_index d) (dr_generation_id d).

Definition concerns (d : ImpactedDranges) (drange_idx generation_id : Z) : bool :=
  bool_decide (drange_idx >= lower_drange_index d ∧ drange_idx <= upper_drange_index d ∧ generation_id >= dr_generation_id d).

Fixpoint safe_loop (l : list ImpactedDranges) (drange_idx generation_id : Z) : res bool :=
  match l with
  | [] => Ret true
  | d :: l =>
      if concerns d drange_idx generation_id then
        older ← dranges_older d;
        if (older : bool) then Ret false else safe_loop l drange_idx generation_id
      else safe_loop l drange_idx generation_id
  end.

Definition IsSafeToFlush (f : FlushOrder) (drange_idx generation_id : Z) : res bool :=
  if negb use_ordered_flush then Ret true
  else match impacted_dranges_ f with
       | None => Ret true
       | Some l => safe_loop l drange_idx generation_id
       end.

Fixpoint keep_loop (l : list ImpactedDranges) : res (list ImpactedDranges) :=
  match l with
  | [] => Ret []
  | d :: l =>
      older ← dranges_older d;
      rest ← keep_loop l;
      Ret (if (older : bool) then rest else d :: rest)
  end.

Definition UpdateImpactedDranges (f : FlushOrder) (impacted_dranges : ImpactedDranges) : res FlushOrder :=
  if negb use_ordered_flush then Ret f
  else
    kept ← match impacted_dranges_ f with Some l => keep_loop l | None => Ret [] end;
    Ret (mkFlushOrder (Some (kept ++ [impacted_dranges])) (w64 (latest_generation_id f + 1))).

(** ** What the check means *)

(** The partitions of a reorganization exist. *)
Definition dranges_ok (d : ImpactedDranges) : Prop :=
  0 <= lower_drange_index d ∧ upper_drange_index d < size_of partitioned_active_memtables_.

(** Some partition of [d] still has a memtable from before [d]. *)
Definition unflushed (d : ImpactedDranges) : Prop :=
  ∃ i gens g, lower_drange_index d <= i <= upper_drange_index d
    ∧ partitioned_active_memtables_ !! Z.to_nat i = Some gens ∧ is_Some (gens !! g) ∧ g < dr_generation_id d.

Lemma has_older_spec gens generation : has_older gens generation = true ↔ ∃ g, is_Some (gens !! g) ∧ g < generation.
Proof.
  unfold has_older. rewrite existsb_exists. split.
  - intros ([g ids] & Hin & Hlt%bool_decide_eq_true). exists g. apply list_elem_of_In, elem_of_map_to_list in Hin. split; [by exists ids|done].
  - intros (g & [ids Hg] & Hlt). exists (g, ids). split; [by apply list_elem_of_In, elem_of_map_to_list|by apply bool_decide_eq_true].
Qed.

Lemma some_older_spec n idx generation :
  0 <= idx → idx + Z.of_nat n <= size_of partitioned_active_memtables_ →
  ∃ b, some_older n idx generation = Ret b
    ∧ (b = true ↔ ∃ i gens g, idx <= i < idx + Z.of_nat n ∧ partitioned_active_memtables_ !! Z.to_nat i = Some gens
                    ∧ is_Some (gens !! g) ∧ g < generation).
Proof.
  revert idx. induction n as [|n IH]; intros idx H0 Hn; cbn [some_older].
  - exists false. split; [done|]. split; [done|]. intros (i & _ & _ & Hi & _). lia.
  - destruct (lookup_lt_is_Some_2 partitioned_active_memtables_ (Z.to_nat idx)) as [gens Hg]; [lia|]. rewrite Hg.
    destruct (has_older gens generation) eqn:E.
    + apply has_older_spec in E as (g & H1 & H2). exists true. split; [done|]. split; [|done]. intros _. exists idx, gens, g. split; [lia|done].
    + destruct (IH (idx + 1)) as (b & -> & Hb); [lia|lia|]. exists b. split; [done|]. rewrite Hb. split.
      * intros (i & gs & g & Hi & H). exists i, gs, g. split; [lia|done].
      * intros (i & gs & g & Hi & H1 & H2 & H3). exists i, gs, g. split; [|done]. destruct (decide (i = idx)) as [->|]; [|lia].
        rewrite Hg in H1. injection H1 as <-. assert (has_older gens generation = true) by (apply has_older_spec; by exists g). congruence.
Qed.

Lemma dranges_older_spec d : dranges_ok d → ∃ b, dranges_older d = Ret b ∧ (b = true ↔ unflushed d).
Proof.
  intros [H0 H1]. unfold dranges_older, unflushed. destruct (decide (lower_drange_index d <= upper_drange_index d)) as [Hle|Hgt].
  - destruct (some_older_spec (Z.to_nat (upper_drange_index d - lower_drange_index d + 1)) (lower_drange_index d) (dr_generation_id d))
      as (b & -> & Hb); [lia|lia|]. exists b. split; [done|]. rewrite Hb. split; intros (i & gs & g & Hi & H); exists i, gs, g; (split; [lia|done]).
  - replace (Z.to_nat _) with 0%nat by lia. exists false. split; [done|]. split; [done|]. intros (i & _ & _ & Hi & _). lia.
Qed.

Lemma safe_loop_spec l idx generation :
  Forall dranges_ok l →
  ∃ b, safe_loop l idx generation = Ret b
    ∧ (b = true ↔ Forall (λ d, concerns d idx generation = true → ¬ unflushed d) l).
Proof.
  induction 1 as [|d l Hd _ IH]; cbn [safe_loop]; [exists true; split; [done|]; split; [constructor|done]|].
  destruct (dranges_older_spec d Hd) as (o & Ho & Hu). destruct IH as (b & Eb & Hb). setoid_rewrite Forall_cons.
  destruct (concerns d idx generation) eqn:Ec.
  - rewrite Ho. cbn [mbind res_bind]. destruct o.
    + exists false. split; [done|]. split; [done|]. intros [Hn _]. by destruct (Hn eq_refl); apply Hu.
    + exists b. split; [done|]. rewrite Hb. assert (¬ unflushed d) by (by intros ?%Hu). tauto.
  - exists b. split; [done|]. rewrite Hb. split; [|tauto]. by intros H.
Qed.

Lemma keep_loop_spec l :
  Forall dranges_ok l → ∃ kept, keep_loop l = Ret kept ∧ ∀ d, d ∈ kept ↔ d ∈ l ∧ ¬ unflushed d.
Proof.
  induction 1 as [|d l Hd _ IH]; cbn [keep_loop]; [exists []; split; [done|]; intros e; split; [by intros ?%not_elem_of_nil|by intros [?%not_elem_of_nil _]]|].
  destruct (dranges_older_spec d Hd) as (o & -> & Hu). destruct IH as (kept & -> & Hk). cbn [mbind res_bind].
  destruct o; eexists; (split; [done|]); intros e; rewrite ?elem_of_cons, Hk.
  - split; [by intros [? ?]; split; [right|]|]. intros [[->|H] Hn]; [by destruct Hn; apply Hu|done].
  - assert (¬ unflushed d) by (by intros ?%Hu). split; [intros [->|]; tauto|tauto].
Qed.
End order.

(** ** Properties *)


(** Two partitions; the second still has a memtable of generation 1 when the
    first is reorganized again: the memtable of generation 2 becomes safe. *)
Definition example_generations : list (gmap Z (gset Z)) := [{[3 := {[103]}]}; {[1 := {[101]}; 2 := {[102]}]}].
Definition example_order : FlushOrder := mkFlushOrder (Some [mkDranges 0 1 2]) 2.

