(* ===== verification/LookupIndex.v ===== *)
(** * LookupIndex: which memtable holds the last write of a key

    [db/lookup_index.h] and [db/lookup_index.cpp]: an array of memtable ids,
    addressed by the hash of the key modulo its size.  Keys with the same
    remainder share an entry. *)

From S2P Require Import Prelude Coding.

(** [table_locator_]; [size_] is its length. *)
Abbreviation LookupIndex := (list Z).

Definition LookupIndex_make (size : Z) : LookupIndex := replicate (Z.to_nat size) 0.

(** [hash % size_]; a division by zero is [Abort]. *)
Definition locator (t : LookupIndex) (hash : Z) : res nat :=
  if decide (t = []) then Abort else Ret (Z.to_nat (hash mod size_of t)).

Definition Index_Lookup (t : LookupIndex) (hash : Z) : res Z :=
  i ← locator t hash; match t !! i with Some id => Ret id | None => Abort end.

Definition Index_Insert (t : LookupIndex) (hash memtableid : Z) : res LookupIndex :=
  i ← locator t hash; Ret (<[i := memtableid]> t).

(** [compare_exchange_strong]. *)
Definition Index_CAS (t : LookupIndex) (hash current_memtableid new_memtableid : Z) : res LookupIndex :=
  i ← locator t hash;
  match t !! i with
  | Some id => Ret (if decide (id = current_memtableid) then <[i := new_memtableid]> t else t)
  | None => Abort
  end.

Definition Index_Encode (t : LookupIndex) : bytes := EncodeFixed32 (size_of t) ++ (t ≫= EncodeFixed32).

(** The loop of [Decode]: an entry past the end of the array is [Abort]. *)
Fixpoint Index_Decode_loop (n : nat) (i : nat) (t : LookupIndex) : parser LookupIndex :=
  match n with
  | O => pret t
  | S n =>
      let! id := must DecodeFixed32 in
      if decide (i < length t)%nat then Index_Decode_loop n (S i) (<[i := id]> t) else pabort
  end.
Definition Index_Decode (t : LookupIndex) : parser LookupIndex :=
  let! size := must DecodeFixed32 in Index_Decode_loop (Z.to_nat size) 0 t.

(** ** Lookups after insertions *)

Section index.
Context (t : LookupIndex).
Hypothesis nonempty : t ≠ [].

Lemma locator_lt hash : ∃ i, locator t hash = Ret i ∧ (i < length t)%nat ∧ Z.of_nat i = hash mod size_of t.
Proof using nonempty.
  unfold locator. rewrite decide_False by done. exists (Z.to_nat (hash mod size_of t)).
  assert (0 < size_of t) as Hp by (destruct t; [done|cbn; lia]). pose proof (Z.mod_pos_bound hash (size_of t) Hp). split; [done|]. lia.
Qed.

Lemma Index_Lookup_total hash : ∃ id, Index_Lookup t hash = Ret id.
Proof using nonempty.
  unfold Index_Lookup. destruct (locator_lt hash) as (i & -> & Hi & _). cbn [mbind res_bind].
  destruct (lookup_lt_is_Some_2 t i Hi) as [id ->]. by exists id.
Qed.

Lemma Index_Insert_ok hash id :
  ∃ t', Index_Insert t hash id = Ret t' ∧ length t' = length t
    ∧ ∀ hash', Index_Lookup t' hash' = if decide (hash' mod size_of t = hash mod size_of t) then Ret id else Index_Lookup t hash'.
Proof using nonempty.
  unfold Index_Insert. destruct (locator_lt hash) as (i & -> & Hi & Ei). cbn [mbind res_bind]. exists (<[i := id]> t).
  split; [done|]. rewrite length_insert. split; [done|]. intros hash'. destruct (locator_lt hash') as (j & Ej & Hj & Ej').
  unfold Index_Lookup. unfold locator at 1. rewrite decide_False by (intros E; apply (f_equal length) in E; rewrite length_insert in E; cbn in E; lia).
  rewrite length_insert, <- Ej', Nat2Z.id, Ej. cbn [mbind res_bind]. rewrite <- Ei. case_decide as He.
  - assert (j = i) as -> by lia. by rewrite list_lookup_insert_eq.
  - by rewrite list_lookup_insert_ne by lia.
Qed.
End index.

(** The index survives a migration into an index of the same size. *)
Lemma Index_Decode_loop_ok l1 l2 t rest :
  length t = (length l1 + length l2)%nat → take (length l1) t = l1 → Forall is_u32 l2 →
  Index_Decode_loop (length l2) (length l1) t ((l2 ≫= EncodeFixed32) ++ rest) = (Ret (l1 ++ l2), rest).
Proof.
  revert l1 t. induction l2 as [|x l2 IH]; intros l1 t Hlen Ht Hu.
  - cbn [Index_Decode_loop length mbind list_bind app]. rewrite app_nil_r. rewrite take_ge in Ht by (cbn in Hlen; lia). by rewrite Ht.
  - apply Forall_cons in Hu as [Hx Hu]. cbn [length Index_Decode_loop]. rewrite bind_cons, <- (assoc_L (++)).
    unfold pbind. rewrite (parses_must _ _ _ (parses_Fixed32 x Hx)). cbn beta iota. rewrite decide_True by (cbn [length] in Hlen; lia).
    replace (S (length l1)) with (length (l1 ++ [x])) by (rewrite length_app; cbn; lia).
    rewrite (IH (l1 ++ [x]) (<[length l1 := x]> t)); [by rewrite <- (assoc_L (++))| | |done].
    + rewrite length_insert, length_app. cbn [length] in *. lia.
    + rewrite length_app. cbn [length]. rewrite Nat.add_1_r. rewrite (take_S_r _ _ x); [|apply list_lookup_insert_eq; cbn [length] in Hlen; lia].
      by rewrite take_insert_ge, Ht by lia.
Qed.

Lemma lookup_index_roundtrip t t' rest :
  length t' = length t → Forall is_u32 t → is_u32 (size_of t) → Index_Decode t' (Index_Encode t ++ rest) = (Ret t, rest).
Proof.
  intros Hlen Hu Hs. unfold Index_Decode, Index_Encode. rewrite <- (assoc_L (++)). unfold pbind.
  rewrite (parses_must _ _ _ (parses_Fixed32 _ Hs)). cbn beta iota. rewrite Nat2Z.id.
  by apply (Index_Decode_loop_ok [] t t' rest).
Qed.
