(* ===== verification/Subrange.v ===== *)
(** * Subrange: tiny ranges, subranges and their search

    [include/leveldb/subrange.h] and [db/subrange.cpp].  The keys of a database
    are partitioned into subranges, each a sequence of tiny ranges; a hot point
    may be duplicated into several identical subranges.  A subrange is found by
    binary search on its bounds. *)

From Stdlib Require Import Floats.SpecFloat.
From S2P Require Import Prelude Coding Comparator NovaCommon.

(** ** Doubles: binary64 with the operations of [SpecFloat] *)

Abbreviation double := spec_float.
Definition f64_zero : double := S754_zero false.
Definition f64_add (x y : double) : double := SFadd 53 1024 x y.
Definition f64_div (x y : double) : double := SFdiv 53 1024 x y.
Definition f64_gt (x y : double) : bool := SFltb y x.

(** ** Ranges *)

Record Range := mkRange {
  lower : bytes;
  upper : bytes;
  lower_inclusive : bool;
  upper_inclusive : bool;
  r_num_duplicates : Z;
  r_ninserts : double;
  r_insertion_ratio : double;
  prior_subrange_id : Z
}.

(** [Range r = {}]. *)
Definition Range_init : Range := mkRange [] [] true false 0 f64_zero f64_zero (-1).

Definition lower_int (r : Range) : Z := (str_to_int (lower r) 0 (w32 (size_of (lower r)))).1.
Definition upper_int (r : Range) : Z := (str_to_int (upper r) 0 (w32 (size_of (upper r)))).1.

Definition Range_Encode (r : Range) : bytes :=
  EncodeStr (lower r) ++ EncodeStr (upper r) ++ EncodeBool (lower_inclusive r)
    ++ EncodeBool (upper_inclusive r) ++ EncodeFixed32 (r_num_duplicates r).

(** [Range::Decode] into an existing range: the strings are appended to. *)
Definition Range_Decode (r : Range) : parser Range :=
  let! lower' := DecodeStr (lower r) in
  let! upper' := DecodeStr (upper r) in
  let! lower_inclusive' := DecodeBool in
  let! upper_inclusive' := DecodeBool in
  let! num_duplicates' := DecodeFixed32 in
  pret (mkRange lower' upper' lower_inclusive' upper_inclusive' num_duplicates'
          (r_ninserts r) (r_insertion_ratio r) (prior_subrange_id r)).

Section range.
Context (comparator : Comparator).

Definition Range_Equals (r other : Range) : bool :=
  if decide (lower_inclusive r ≠ lower_inclusive other) then false
  else if decide (upper_inclusive r ≠ upper_inclusive other) then false
  else if decide (r_num_duplicates r ≠ r_num_duplicates other) then false
  else if decide (Compare (lower r) (lower other) ≠ 0) then false
  else if decide (Compare (upper r) (upper other) ≠ 0) then false
  else true.

Definition Range_IsSmallerThanLower (r : Range) (key : bytes) : bool :=
  let comp := Compare key (lower r) in
  if decide (comp < 0) then true
  else bool_decide (comp = 0) && negb (lower_inclusive r).

Definition Range_IsGreaterThanLower (r : Range) (key : bytes) : bool :=
  let comp := Compare key (lower r) in
  if decide (comp > 0) then true
  else bool_decide (comp = 0) && negb (lower_inclusive r).

Definition Range_IsGreaterThanUpper (r : Range) (key : bytes) : bool :=
  let comp := Compare key (upper r) in
  if decide (comp > 0) then true
  else bool_decide (comp = 0) && negb (upper_inclusive r).

(** [upper_int() - lower_int() == 1] in 64 bits. *)
Definition Range_IsAPoint (r : Range) : bool :=
  bool_decide (w64 (upper_int r - lower_int r) = 1).
End range.

(** ** Binary search

    Both searches of the source run the same loop; [probe m] is the pair of
    answers to the two tests on element [m]. *)

Inductive side := Smaller | Greater | Inside.

(** [while (l <= r)]; [Ret None] when nothing is found.  [Fail] stands for
    running out of fuel, which never happens with a round per element. *)
Fixpoint BinarySearch_loop (fuel : nat) (probe : Z → res side) (l r : Z) : res (option Z) :=
  match fuel with
  | O => Fail
  | S fuel =>
      if decide (l <= r) then
        let m := l + (r - l) / 2 in
        match probe m with
        | Ret Smaller => BinarySearch_loop fuel probe l (m - 1)
        | Ret Greater => BinarySearch_loop fuel probe (m + 1) r
        | Ret Inside => Ret (Some m)
        | _ => Abort
        end
      else Ret None
  end.

Section search.
Context (user_comparator : Comparator).
Local Abbreviation IsSmallerThanLower := (Range_IsSmallerThanLower user_comparator).
Local Abbreviation IsGreaterThanUpper := (Range_IsGreaterThanUpper user_comparator).

Definition Range_probe (ranges : list Range) (key : bytes) (m : Z) : res side :=
  match ranges !! Z.to_nat m with
  | None => Abort
  | Some range =>
      if IsSmallerThanLower range key then Ret Smaller
      else if IsGreaterThanUpper range key then Ret Greater
      else Ret Inside
  end.

(** [BinarySearch(ranges, key, &range_id, cmp)]: [*range_id], -1 when not found. *)
Definition Ranges_BinarySearch (ranges : list Range) (key : bytes) : res (option Z) :=
  BinarySearch_loop (S (length ranges)) (Range_probe ranges key) 0 (size_of ranges - 1).
End search.

(** ** Subranges *)

Record SubRange := mkSubRange {
  tiny_ranges : list Range;
  num_duplicates : Z;
  ninserts : double;
  insertion_ratio : double;
  start_tid : Z;
  end_tid : Z;
  merge_memtables_without_flushing : bool;
  decoded_subrange_id : Z
}.

(** [SubRange sr = {}]. *)
Definition SubRange_init : SubRange := mkSubRange [] 0 f64_zero f64_zero 0 0 false 0.

Definition SubRange_Encode (sr : SubRange) (subrange_id : Z) : bytes :=
  EncodeFixed32 subrange_id ++ EncodeFixed32 (num_duplicates sr)
    ++ EncodeFixed32 (size_of (tiny_ranges sr)) ++ (tiny_ranges sr ≫= Range_Encode).

(** [SubRange::Decode] asserts each step, so it never returns [false]. *)
Definition SubRange_Decode (sr : SubRange) : parser SubRange :=
  let! id := must DecodeFixed32 in
  let! dup := must DecodeFixed32 in
  let! nranges := must DecodeFixed32 in
  let! rs := repeatP (Z.to_nat nranges) (must (Range_Decode Range_init)) in
  pret (mkSubRange (tiny_ranges sr ++ rs) dup (ninserts sr) (insertion_ratio sr)
          (start_tid sr) (end_tid sr) (merge_memtables_without_flushing sr) id).

(** The range from the first lower to the last upper bound.  [None] where the
    source reads an element of an empty vector. *)
Definition SubRange_bounds (sr : SubRange) : option Range :=
  match head (tiny_ranges sr), last (tiny_ranges sr) with
  | Some f, Some l =>
      Some (mkRange (lower f) (upper l) (lower_inclusive f) (upper_inclusive l)
              (num_duplicates sr) f64_zero f64_zero (-1))
  | _, _ => None
  end.

Definition SubRange_EncodeForCompaction (sr : SubRange) (subrange_id : Z) : res bytes :=
  match SubRange_bounds sr with
  | None => Abort
  | Some r =>
      Ret (EncodeFixed32 subrange_id ++ EncodeFixed32 (num_duplicates sr) ++ Range_Encode r)
  end.

Definition SubRange_DecodeForCompaction (sr : SubRange) : parser SubRange :=
  let! id := DecodeFixed32 in
  let! dup := DecodeFixed32 in
  let! r := Range_Decode Range_init in
  pret (mkSubRange (tiny_ranges sr ++ [r]) dup (ninserts sr) (insertion_ratio sr)
          (start_tid sr) (end_tid sr) (merge_memtables_without_flushing sr) id).

(** [SubRange::UpdateStats]. *)
Definition SubRange_UpdateStats (sr : SubRange) (num_inserts_since_last_major : double) : SubRange :=
  let n := num_inserts_since_last_major in
  let rs := (λ r,
    if f64_gt n f64_zero
    then mkRange (lower r) (upper r) (lower_inclusive r) (upper_inclusive r)
           (r_num_duplicates r) (r_ninserts r) (f64_div (r_ninserts r) n) (prior_subrange_id r)
    else r) <$> tiny_ranges sr in
  let total := foldl (λ acc r, f64_add acc (r_ninserts r)) f64_zero (tiny_ranges sr) in
  mkSubRange rs (num_duplicates sr) total (f64_div total n) (start_tid sr) (end_tid sr)
    (merge_memtables_without_flushing sr) (decoded_subrange_id sr).

(** [GetCompactionThreadId(rr_id, flag)]: the new counter, [*flag] and the
    thread id; the remainder is the one of C++. *)
Definition SubRange_GetCompactionThreadId (sr : SubRange) (rr_id : Z) : res (Z * bool * Z) :=
  let flag := merge_memtables_without_flushing sr in
  if decide (start_tid sr = end_tid sr) then Ret (rr_id, flag, start_tid sr)
  else
    let range := end_tid sr - start_tid sr + 1 in
    let index := Z.rem rr_id range in
    if decide (start_tid sr + index <= end_tid sr)
    then Ret (rr_id + 1, flag, start_tid sr + index) else Abort.

(** [keys()]: the difference of the 64-bit bounds, before the conversion to
    [int]. *)
Definition SubRange_keys (sr : SubRange) : option Z :=
  match head (tiny_ranges sr), last (tiny_ranges sr) with
  | Some f, Some l => Some (w64 (upper_int l - lower_int f))
  | _, _ => None
  end.

Definition SubRange_RangeEquals (sr other : SubRange) : option bool :=
  match head (tiny_ranges sr), head (tiny_ranges other),
        last (tiny_ranges sr), last (tiny_ranges other) with
  | Some f, Some f', Some l, Some l' =>
      Some (bool_decide (lower_int f = lower_int f') && bool_decide (upper_int l = upper_int l'))
  | _, _, _, _ => None
  end.

Definition SubRange_IsAPoint (sr : SubRange) : bool :=
  match tiny_ranges sr with [r] => Range_IsAPoint r | _ => false end.

Section subrange.
Context (comparator : Comparator).

(** The loop over both vectors, of equal length. *)
Fixpoint Ranges_Equals (rs others : list Range) : bool :=
  match rs, others with
  | r :: rs, o :: others => Range_Equals comparator r o && Ranges_Equals rs others
  | _, _ => true
  end.

Definition SubRange_Equals (sr other : SubRange) : bool :=
  if decide (num_duplicates sr ≠ num_duplicates other) then false
  else if decide (length (tiny_ranges sr) ≠ length (tiny_ranges other)) then false
  else Ranges_Equals (tiny_ranges sr) (tiny_ranges other).

Definition SubRange_IsSmallerThanLower (sr : SubRange) (key : bytes) : res bool :=
  match head (tiny_ranges sr) with
  | None => Abort
  | Some r => Ret (Range_IsSmallerThanLower comparator r key)
  end.

Definition SubRange_IsGreaterThanLower (sr : SubRange) (key : bytes) : res bool :=
  match head (tiny_ranges sr) with
  | None => Abort
  | Some r => Ret (Range_IsGreaterThanLower comparator r key)
  end.

Definition SubRange_IsGreaterThanUpper (sr : SubRange) (key : bytes) : res bool :=
  match last (tiny_ranges sr) with
  | None => Abort
  | Some r => Ret (Range_IsGreaterThanUpper comparator r key)
  end.

(** ** [class SubRanges] *)

Definition SubRange_probe (subranges : list SubRange) (key : bytes) (m : Z) : res side :=
  match subranges !! Z.to_nat m with
  | None => Abort
  | Some subrange =>
      match SubRange_IsSmallerThanLower subrange key with
      | Ret true => Ret Smaller
      | Ret false =>
          match SubRange_IsGreaterThanUpper subrange key with
          | Ret true => Ret Greater
          | Ret false => Ret Inside
          | _ => Abort
          end
      | _ => Abort
      end
  end.

Definition SubRanges_BinarySearch (subranges : list SubRange) (key : bytes) : res (option Z) :=
  BinarySearch_loop (S (length subranges)) (SubRange_probe subranges key)
    0 (size_of subranges - 1).

(** [i = *subrange_id - 1; while (i >= 0 && subranges[i].Equals(sr)) i--;]
    the count of equal subranges directly below index [n]. *)
Fixpoint equal_below (subranges : list SubRange) (sr : SubRange) (n : nat) : nat :=
  match n with
  | O => O
  | S n =>
      match subranges !! n with
      | Some other =>
          if SubRange_Equals other sr then S (equal_below subranges sr n) else O
      | None => O
      end
  end.

(** [BinarySearchWithDuplicate]; [rand] is the number drawn by [rand_r] when
    a seed is given, [None] without a seed. *)
Definition SubRanges_BinarySearchWithDuplicate (subranges : list SubRange) (key : bytes)
    (rand : option Z) : res (option Z) :=
  match SubRanges_BinarySearch subranges key with
  | Ret (Some id) =>
      match subranges !! Z.to_nat id with
      | None => Abort
      | Some sr =>
          if decide (num_duplicates sr = 0) then Ret (Some id)
          else
            let first := id - Z.of_nat (equal_below subranges sr (Z.to_nat id)) in
            let id' := match rand with
                       | Some n => first + n mod num_duplicates sr
                       | None => first
                       end in
            match SubRange_probe subranges key id' with
            | Ret Inside => Ret (Some id')
            | _ => Abort
            end
      end
  | r => r
  end.
End subrange.

(** [SubRanges::Encode] and [Decode]. *)
Definition SubRanges_Encode (subranges : list SubRange) : bytes :=
  EncodeFixed32 (size_of subranges)
    ++ concat (imap (λ i sr, SubRange_Encode sr (Z.of_nat i)) subranges).

Definition SubRanges_Decode (subranges : list SubRange) : parser (list SubRange) :=
  let! num_subranges := must DecodeFixed32 in
  let! srs := repeatP (Z.to_nat num_subranges) (must (SubRange_Decode SubRange_init)) in
  pret (subranges ++ srs).

(** [SubRanges(const std::vector<SubRange> &)]: a copy without the statistics
    and threads, which are not needed for reorganisation. *)
Definition SubRanges_copy (other : list SubRange) : list SubRange :=
  (λ o, mkSubRange
    ((λ r, mkRange (lower r) (upper r) (lower_inclusive r) (upper_inclusive r)
             (r_num_duplicates r) (r_ninserts r) f64_zero (prior_subrange_id r)) <$> tiny_ranges o)
    (num_duplicates o) (ninserts o) f64_zero 0 0 false 0) <$> other.

(** ** [AssertSubrangeBoundary] *)

(** Conversion of a 64-bit unsigned number to [int]. *)
Definition to_int (z : Z) : Z := let m := w32 z in if decide (m < 2 ^ 31) then m else m - 2 ^ 32.

Definition assert_that (b : bool) : res unit := if b then Ret () else Abort.

(** The inner loop over the copies of a duplicated point, from iterator [it];
    the bound [it->num_duplicates - 1] is read again at each round.  Reading
    past the end is [Abort].  At most one round per remaining subrange. *)
Fixpoint AssertDuplicates_loop (it : list SubRange) (i lk : Z) : res (list SubRange) :=
  match it with
  | [] => Abort
  | sr :: it' =>
      if decide (i < w32 (num_duplicates sr - 1)) then
        match tiny_ranges sr with
        | [r] =>
            _ ← assert_that (Range_IsAPoint r);
            _ ← assert_that (bool_decide (lk = lower_int r));
            _ ← assert_that (bool_decide (r_num_duplicates r = num_duplicates sr));
            AssertDuplicates_loop it' (i + 1) lk
        | _ => Abort
        end
      else Ret it
  end.

(** The first [while] loop; a round consumes at least one subrange. *)
Fixpoint AssertDuplicates (fuel : nat) (it : list SubRange) : res unit :=
  match fuel, it with
  | _, [] => Ret ()
  | O, _ => Fail
  | S fuel, sr :: it' =>
      match tiny_ranges sr with
      | [] => Abort
      | r :: rs =>
          if decide (num_duplicates sr > 0) then
            _ ← assert_that (bool_decide (rs = []));
            _ ← assert_that (SubRange_IsAPoint sr);
            it'' ← AssertDuplicates_loop it 0 (lower_int r);
            AssertDuplicates fuel (drop 1 it'')
          else AssertDuplicates fuel it'
      end
  end.

(** The state of the second loop: [prior_lower], [prior_upper], [isPriorDup]. *)
Record boundary := mkBoundary { prior_lower : Z; prior_upper : Z; isPriorDup : bool }.

Definition boundary_of (r : Range) : boundary :=
  mkBoundary (to_int (lower_int r)) (to_int (upper_int r)) (bool_decide (r_num_duplicates r > 0)).

(** The body for tiny range [r] of a subrange with [dup] duplicates. *)
Definition AssertBoundary_step (b : boundary) (dup : Z) (r : Range) : res boundary :=
  _ ← assert_that (bool_decide (dup = r_num_duplicates r));
  _ ← assert_that (lower_inclusive r);
  _ ← assert_that (negb (upper_inclusive r));
  if decide (prior_lower b = -1) then Ret (boundary_of r)
  else if decide (lower_int r = w64 (prior_lower b)) then
    _ ← assert_that (bool_decide (upper_int r = w64 (prior_upper b)));
    _ ← assert_that (bool_decide (r_num_duplicates r > 0));
    _ ← assert_that (isPriorDup b);
    Ret b
  else
    _ ← assert_that (bool_decide (lower_int r >= w64 (prior_upper b)));
    _ ← assert_that (bool_decide (upper_int r > lower_int r));
    Ret (boundary_of r).

Fixpoint AssertBoundary_tiny (b : boundary) (dup : Z) (rs : list Range) : res boundary :=
  match rs with
  | [] => Ret b
  | r :: rs => b ← AssertBoundary_step b dup r; AssertBoundary_tiny b dup rs
  end.

Fixpoint AssertBoundary (b : boundary) (srs : list SubRange) : res boundary :=
  match srs with
  | [] => Ret b
  | sr :: srs =>
      b ← AssertBoundary_tiny b (num_duplicates sr) (tiny_ranges sr);
      AssertBoundary b srs
  end.

Definition AssertSubrangeBoundary (subranges : list SubRange) : res unit :=
  _ ← AssertDuplicates (length subranges) subranges;
  _ ← AssertBoundary (mkBoundary (-1) (-1) false) subranges;
  Ret ().

(** ** Codecs *)

(** What the encoding keeps of a range and of a subrange. *)
Definition Range_persist (r : Range) : Range :=
  mkRange (lower r) (upper r) (lower_inclusive r) (upper_inclusive r) (r_num_duplicates r)
    f64_zero f64_zero (-1).
Definition SubRange_persist (id : nat) (sr : SubRange) : SubRange :=
  mkSubRange (Range_persist <$> tiny_ranges sr) (num_duplicates sr) f64_zero f64_zero 0 0 false
    (Z.of_nat id).

Definition Range_ok (r : Range) : Prop :=
  short (lower r) ∧ short (upper r) ∧ is_u32 (r_num_duplicates r).
Definition SubRange_ok (sr : SubRange) : Prop :=
  Forall Range_ok (tiny_ranges sr) ∧ is_u32 (num_duplicates sr)
  ∧ is_u32 (size_of (tiny_ranges sr)).

Lemma parses_Range r :
  Range_ok r → parses (Range_Decode Range_init) (Range_Encode r) (Range_persist r).
Proof.
  intros (Hl & Hu & Hd). unfold Range_Decode, Range_Encode, Range_init. cbn [lower upper].
  parse_solve.
Qed.
#[export] Hint Resolve parses_Range : nova.

Lemma Ranges_bind_persist rs : (Range_persist <$> rs) ≫= Range_Encode = rs ≫= Range_Encode.
Proof. induction rs as [|r rs IH]; cbn; [done|]. by rewrite IH. Qed.

Lemma parses_Ranges rs :
  Forall Range_ok rs →
  parses (repeatP (length rs) (must (Range_Decode Range_init))) (rs ≫= Range_Encode)
    (Range_persist <$> rs).
Proof.
  intros Hrs. rewrite <- Ranges_bind_persist, <- (length_fmap Range_persist).
  apply parses_repeat. apply Forall_fmap. eapply Forall_impl; [done|].
  intros r Hr. apply parses_must, (parses_Range r Hr).
Qed.

Lemma parses_SubRange id sr :
  SubRange_ok sr → is_u32 (Z.of_nat id) →
  parses (SubRange_Decode SubRange_init) (SubRange_Encode sr (Z.of_nat id)) (SubRange_persist id sr).
Proof.
  intros (Hrs & Hd & Hn) Hid. unfold SubRange_Decode, SubRange_Encode.
  do 3 (eapply parses_bind; [by apply parses_must, parses_Fixed32|]; cbn beta).
  rewrite Nat2Z.id. eapply parses_bind_last; [by apply parses_Ranges|]. apply parses_ret.
Qed.

Lemma imap_persist_encode k srs :
  imap (λ i, SubRange_persist (k + i)) srs ≫=
    (λ sr, SubRange_Encode sr (decoded_subrange_id sr)) =
  concat (imap (λ i sr, SubRange_Encode sr (Z.of_nat (k + i))) srs).
Proof.
  revert k. induction srs as [|sr srs IH]; intros k; [done|]. cbn.
  rewrite (imap_ext _ (λ i, SubRange_persist (S k + i)))
    by (intros; cbn; by rewrite Nat.add_succ_r).
  rewrite (imap_ext _ (λ i sr, SubRange_Encode sr (Z.of_nat (S k + i))))
    by (intros; cbn; by rewrite Nat.add_succ_r).
  rewrite <- IH. f_equal. unfold SubRange_Encode. cbn.
  by rewrite length_fmap, Ranges_bind_persist.
Qed.

Lemma parses_SubRanges srs :
  Forall SubRange_ok srs → size_of srs < 2 ^ 32 →
  parses (SubRanges_Decode []) (SubRanges_Encode srs) (imap SubRange_persist srs).
Proof.
  intros Hok Hn. unfold SubRanges_Decode, SubRanges_Encode.
  eapply parses_bind; [apply parses_must, parses_Fixed32; mlia|]; cbn beta.
  rewrite Nat2Z.id, <- (imap_persist_encode 0), <- (length_imap SubRange_persist srs).
  eapply parses_bind_last; [apply parses_repeat|apply parses_ret].
  apply Forall_lookup_2. intros i v. rewrite list_lookup_imap.
  destruct (srs !! i) as [sr|] eqn:Hi; cbn; [|done]. intros [= <-]. apply parses_must.
  pose proof (lookup_lt_Some _ _ _ Hi). rewrite Forall_lookup in Hok. specialize (Hok _ _ Hi).
  pose proof (parses_SubRange i sr Hok ltac:(mlia)) as Hp.
  unfold SubRange_Encode in *. cbn in *. by rewrite length_fmap, Ranges_bind_persist.
Qed.

(** ** The search loop *)

Section bsearch.
Context (probe : Z → res side) (n : Z).
Hypothesis probe_total : ∀ m, 0 <= m < n → ∃ s, probe m = Ret s.
Hypothesis probe_smaller : ∀ i j,
  0 <= i <= j → j < n → probe i = Ret Smaller → probe j = Ret Smaller.
Hypothesis probe_greater : ∀ i j,
  0 <= i <= j → j < n → probe j = Ret Greater → probe i = Ret Greater.

Lemma BinarySearch_loop_spec fuel l r :
  0 <= l <= r + 1 → r < n → r - l + 1 < Z.of_nat fuel →
  match BinarySearch_loop fuel probe l r with
  | Ret (Some m) => l <= m <= r ∧ probe m = Ret Inside
  | Ret None => ∀ m, l <= m <= r → probe m ≠ Ret Inside
  | _ => False
  end.
Proof.
  revert l r. induction fuel as [|fuel IH]; intros l r Hl Hr Hf; [lia|].
  cbn [BinarySearch_loop]. case_decide as Hlr; [|intros m Hm; lia].
  set (m := l + (r - l) / 2).
  assert (l <= m <= r) as Hm by (subst m; dlia).
  destruct (probe_total m) as [[] Hp]; [lia|..]; rewrite Hp.
  - specialize (IH l (m - 1) ltac:(lia) ltac:(lia) ltac:(lia)).
    destruct (BinarySearch_loop fuel probe l (m - 1)) as [[k|]| |]; [|..|done]; [|intros k Hk|done].
    + split; [lia|tauto].
    + destruct (decide (k <= m - 1)); [apply IH; lia|].
      rewrite (probe_smaller m k) by (done || lia). done.
  - specialize (IH (m + 1) r ltac:(lia) Hr ltac:(lia)).
    destruct (BinarySearch_loop fuel probe (m + 1) r) as [[k|]| |]; [|..|done]; [|intros k Hk|done].
    + split; [lia|tauto].
    + destruct (decide (m + 1 <= k)); [apply IH; lia|].
      rewrite (probe_greater k m) by (done || lia). done.
  - done.
Qed.
End bsearch.

(** ** What the boundary assertions establish *)

(** [before r1 r2]: both are nonempty as sets of numbers and [r2] is a copy of
    [r1] or starts at or after its end. *)
Definition valid (r : Range) : Prop := lower_int r < upper_int r.
Definition before (r1 r2 : Range) : Prop :=
  valid r1 ∧ valid r2 ∧
  (lower_int r1 = lower_int r2 ∧ upper_int r1 = upper_int r2 ∨ upper_int r1 <= lower_int r2).

#[export] Instance before_trans : Transitive before.
Proof. unfold before, valid. intros x y z. lia. Qed.

(** Bounds that survive the conversion to [int]. *)
Definition int_bounds (r : Range) : Prop :=
  0 <= lower_int r < 2 ^ 31 ∧ 0 <= upper_int r < 2 ^ 31.

Definition half_open (r : Range) : Prop := lower_inclusive r = true ∧ upper_inclusive r = false.

Lemma to_int_small z : 0 <= z < 2 ^ 31 → to_int z = z.
Proof. intros Hz. unfold to_int. rewrite w32_small by mlia. rewrite decide_True by lia. done. Qed.

Lemma assert_that_bind {A} b (k : unit → res A) a :
  (assert_that b ≫= k) = Ret a ↔ b = true ∧ k () = Ret a.
Proof. destruct b; cbn; (split; [by intros|by intros []]). Qed.

(** The two nested loops visit the tiny ranges of all subranges in order. *)
Fixpoint boundary_path (b : boundary) (l : list (Z * Range)) : res boundary :=
  match l with
  | [] => Ret b
  | (dup, r) :: l => b ← AssertBoundary_step b dup r; boundary_path b l
  end.

Lemma boundary_path_tiny b dup rs l :
  boundary_path b ((pair dup <$> rs) ++ l) =
    (b ← AssertBoundary_tiny b dup rs; boundary_path b l).
Proof.
  revert b. induction rs as [|r rs IH]; intros b; cbn; [done|].
  destruct (AssertBoundary_step b dup r) as [b'| |]; cbn; [|done..]. apply IH.
Qed.

Lemma AssertBoundary_path b srs :
  AssertBoundary b srs = boundary_path b (srs ≫= λ sr, pair (num_duplicates sr) <$> tiny_ranges sr).
Proof.
  revert b. induction srs as [|sr srs IH]; intros b; cbn; [done|].
  rewrite boundary_path_tiny.
  destruct (AssertBoundary_tiny b _ _) as [b'| |]; cbn; [|done..]. apply IH.
Qed.

Definition matches (b : boundary) (p : Range) : Prop :=
  prior_lower b = lower_int p ∧ prior_upper b = upper_int p.

Lemma AssertBoundary_step_after b dup r b' p :
  matches b p → valid p → int_bounds p → int_bounds r →
  AssertBoundary_step b dup r = Ret b' →
  before p r ∧ matches b' r ∧ half_open r.
Proof.
  intros [Hl Hu] Hv [[] []] [[] []]. unfold AssertBoundary_step, before, matches, half_open, valid in *.
  rewrite !assert_that_bind, negb_true_iff. intros (_ & Hi & He & Hs). revert Hs.
  rewrite Hl, Hu, !w64_small by mlia. rewrite decide_False by lia.
  case_decide as Heq; rewrite !assert_that_bind, !bool_decide_eq_true.
  - intros (? & ? & ? & [= <-]). rewrite Hl, Hu. repeat split; (done || lia).
  - intros (? & ? & [= <-]). cbn. rewrite !to_int_small by lia. repeat split; (done || lia).
Qed.

Lemma boundary_path_sorted l : ∀ b b' p,
  matches b p → valid p → int_bounds p → Forall (int_bounds ∘ snd) l →
  boundary_path b l = Ret b' →
  Sorted before (p :: l.*2) ∧ Forall half_open l.*2.
Proof.
  induction l as [|[dup r] l IH]; intros b b' p Hm Hv Hp Hl Hb; [repeat constructor|].
  cbn in Hb. apply res_bind_Ret in Hb as (b1 & Hs & Hb).
  inversion Hl as [|?? Hr Hl']; subst. cbn in Hr.
  apply (AssertBoundary_step_after b dup r b1 p) in Hs as (Hbef & Hm1 & Hh); [|done..].
  destruct (IH b1 b' r) as [Hsort Hho]; [done|apply Hbef|done..|].
  cbn. split; [|by constructor]. by constructor; [|constructor].
Qed.

Lemma flat_tiny srs :
  (srs ≫= λ sr, pair (num_duplicates sr) <$> tiny_ranges sr).*2 = srs ≫= tiny_ranges.
Proof.
  induction srs as [|sr srs IH]; cbn; [done|]. rewrite fmap_app, IH. f_equal.
  rewrite <- list_fmap_compose. apply (list_fmap_id (tiny_ranges sr)).
Qed.

(** The tiny ranges of accepted subranges are sorted, as soon as the first one
    is nonempty. *)
Lemma AssertBoundary_sorted srs b' f rs :
  AssertBoundary (mkBoundary (-1) (-1) false) srs = Ret b' →
  srs ≫= tiny_ranges = f :: rs → valid f → Forall int_bounds (f :: rs) →
  StronglySorted before (f :: rs) ∧ Forall half_open (f :: rs).
Proof.
  intros Hb Hflat Hv Hi. rewrite AssertBoundary_path in Hb. rewrite <- flat_tiny in Hflat.
  destruct (srs ≫= _) as [|[dup r] l]; [done|]. cbn in Hflat. injection Hflat as -> Hl.
  cbn in Hb. apply res_bind_Ret in Hb as (b1 & Hs & Hb). inversion Hi as [|?? Hf Hrs]; subst.
  unfold AssertBoundary_step in Hs. cbn in Hs.
  rewrite !assert_that_bind, negb_true_iff in Hs. destruct Hs as (_ & Hli & Hui & [= <-]).
  destruct (boundary_path_sorted l (boundary_of f) b' f) as [Hsort Hho]; [..|done|].
  - destruct Hf as [[] []]. split; cbn; by rewrite to_int_small.
  - done.
  - done.
  - apply Forall_fmap. exact Hrs.
  - split; [by apply Sorted_StronglySorted; [apply _|]|by constructor].
Qed.

(** ** Search among accepted subranges, with decimal keys *)


(** A subrange covers the keys from its first lower to its last upper bound. *)
Definition covers (sr : SubRange) (key : bytes) : Prop :=
  match head (tiny_ranges sr), last (tiny_ranges sr) with
  | Some f, Some l => lower_int f <= key_int key < upper_int l
  | _, _ => False
  end.

Lemma YCSB_Compare_int a b :
  YCSB_Compare a b =
    if decide (key_int a < key_int b) then -1 else if decide (key_int a > key_int b) then 1 else 0.
Proof. done. Qed.

Lemma half_open_smaller r key :
  half_open r →
  Range_IsSmallerThanLower YCSBKeyComparator r key = bool_decide (key_int key < lower_int r).
Proof.
  intros [Hl _]. unfold Range_IsSmallerThanLower. cbn. rewrite Hl, andb_false_r.
  rewrite YCSB_Compare_int. change (key_int (lower r)) with (lower_int r).
  repeat case_decide; case_bool_decide; (done || lia).
Qed.

Lemma half_open_greater r key :
  half_open r →
  Range_IsGreaterThanUpper YCSBKeyComparator r key = bool_decide (upper_int r <= key_int key).
Proof.
  intros [_ Hu]. unfold Range_IsGreaterThanUpper. cbn. rewrite Hu, andb_true_r.
  rewrite YCSB_Compare_int. change (key_int (upper r)) with (upper_int r).
  repeat case_decide; repeat case_bool_decide; (done || lia).
Qed.

Section accepted.
Context (srs : list SubRange).
Hypothesis srs_nonempty : Forall (λ sr, tiny_ranges sr ≠ []) srs.
Hypothesis srs_half_open : Forall half_open (srs ≫= tiny_ranges).
Hypothesis srs_sorted : StronglySorted before (srs ≫= tiny_ranges).
Local Abbreviation probe := (SubRange_probe YCSBKeyComparator srs).

Lemma tiny_elem i sr r :
  srs !! i = Some sr → r ∈ tiny_ranges sr → r ∈ srs ≫= tiny_ranges.
Proof.
  intros Hi Hr. apply list_elem_of_bind. exists sr. split; [done|].
  by eapply list_elem_of_lookup_2.
Qed.

Lemma first_last i sr :
  srs !! i = Some sr →
  ∃ f l, head (tiny_ranges sr) = Some f ∧ last (tiny_ranges sr) = Some l
    ∧ half_open f ∧ half_open l ∧ f ∈ tiny_ranges sr ∧ l ∈ tiny_ranges sr.
Proof.
  intros Hi. rewrite Forall_lookup in srs_nonempty. pose proof (srs_nonempty _ _ Hi) as Hn.
  destruct (tiny_ranges sr) as [|f rs] eqn:E; [done|].
  destruct (last (f :: rs)) as [l|] eqn:Hl; [|by apply last_None in Hl].
  assert (l ∈ tiny_ranges sr) by (rewrite E; by apply last_Some_elem_of).
  assert (f ∈ tiny_ranges sr) by (rewrite E; left).
  rewrite Forall_forall in srs_half_open.
  exists f, l. rewrite <- E. cbn. split_and!; eauto using tiny_elem.
  by rewrite E.
Qed.

Lemma probe_eq m sr f l key :
  srs !! Z.to_nat m = Some sr →
  head (tiny_ranges sr) = Some f → last (tiny_ranges sr) = Some l →
  half_open f → half_open l →
  probe key m = Ret (if decide (key_int key < lower_int f) then Smaller
                     else if decide (upper_int l <= key_int key) then Greater else Inside).
Proof.
  intros Hm Hf Hl Hhf Hhl. unfold SubRange_probe, SubRange_IsSmallerThanLower,
    SubRange_IsGreaterThanUpper. rewrite Hm, Hf, Hl, half_open_smaller, half_open_greater by done.
  repeat case_bool_decide; repeat case_decide; (done || lia).
Qed.

(** Bounds are monotone along the subranges. *)
Lemma bounds_mono i j a b x y :
  (i < j)%nat → srs !! i = Some a → srs !! j = Some b →
  x ∈ tiny_ranges a → y ∈ tiny_ranges b → before x y.
Proof.
  intros Hij Hi Hj Hx Hy. rewrite <- (take_drop j srs), bind_app in srs_sorted.
  apply StronglySorted_app in srs_sorted as (Hs & _ & _). apply Hs; apply list_elem_of_bind.
  - exists a. split; [done|]. apply (list_elem_of_lookup_2 _ i). by rewrite lookup_take_lt.
  - exists b. split; [done|]. apply (list_elem_of_lookup_2 _ 0). by rewrite lookup_drop, Nat.add_0_r.
Qed.

Lemma search_spec key :
  match SubRanges_BinarySearch YCSBKeyComparator srs key with
  | Ret (Some id) => ∃ sr, srs !! Z.to_nat id = Some sr ∧ covers sr key ∧ 0 <= id
  | Ret None => ∀ i sr, srs !! i = Some sr → ¬ covers sr key
  | _ => False
  end.
Proof.
  assert (∀ m, 0 <= m < size_of srs → ∃ sr f l, srs !! Z.to_nat m = Some sr
    ∧ head (tiny_ranges sr) = Some f ∧ last (tiny_ranges sr) = Some l
    ∧ half_open f ∧ half_open l ∧ f ∈ tiny_ranges sr ∧ l ∈ tiny_ranges sr) as Hall.
  { intros m Hm. destruct (lookup_lt_is_Some_2 srs (Z.to_nat m)) as [sr Hsr]; [lia|].
    destruct (first_last _ _ Hsr) as (f & l & ?). eauto. }
  pose proof (BinarySearch_loop_spec (probe key) (size_of srs)) as Hspec.
  assert (∀ m, 0 <= m < size_of srs → ∃ s, probe key m = Ret s) as Htot.
  { intros m Hm. destruct (Hall m Hm) as (sr & f & l & ? & ? & ? & ? & ? & _).
    rewrite (probe_eq m sr f l) by done. eauto. }
  assert (∀ i j, 0 <= i <= j → j < size_of srs → 
    (probe key i = Ret Smaller → probe key j = Ret Smaller)
    ∧ (probe key j = Ret Greater → probe key i = Ret Greater)) as Hmono.
  { intros i j Hij Hj. destruct (decide (i = j)) as [->|Hne]; [done|].
    destruct (Hall i ltac:(lia)) as (a & fa & la & ? & ? & ? & ? & ? & Hfa & Hla).
    destruct (Hall j ltac:(lia)) as (b & fb & lb & ? & ? & ? & ? & ? & Hfb & Hlb).
    rewrite (probe_eq i a fa la), (probe_eq j b fb lb) by done.
    assert (before fa fb ∧ before la lb) as [Hbf Hbl]
      by (split; by apply (bounds_mono (Z.to_nat i) (Z.to_nat j) a b); [lia|..]).
    unfold before, valid in *. repeat case_decide; (done || lia). }
  specialize (Hspec Htot ltac:(intros; by eapply Hmono) ltac:(intros; by eapply Hmono)
    (S (length srs)) 0 (size_of srs - 1) ltac:(lia) ltac:(lia) ltac:(lia)).
  unfold SubRanges_BinarySearch.
  destruct (BinarySearch_loop _ _ _ _) as [[id|]| |]; [..|done|done].
  - destruct Hspec as [Hid Hp]. destruct (Hall id ltac:(lia)) as (sr & f & l & Hs & Hf & Hl & ? & ? & _).
    rewrite (probe_eq id sr f l) in Hp by done. exists sr. unfold covers. rewrite Hf, Hl.
    repeat case_decide; try done. repeat split; (done || lia).
  - intros i sr Hi Hc. pose proof (lookup_lt_Some _ _ _ Hi).
    apply (Hspec (Z.of_nat i)); [lia|].
    destruct (first_last _ _ Hi) as (f & l & Hf & Hl & ? & ? & _).
    rewrite (probe_eq _ sr f l) by (rewrite ?Nat2Z.id; done). unfold covers in Hc.
    rewrite Hf, Hl in Hc. rewrite !decide_False by lia. done.
Qed.
End accepted.

(** ** Duplicated subranges *)

Lemma BinarySearch_loop_found fuel probe l r m :
  BinarySearch_loop fuel probe l r = Ret (Some m) → probe m = Ret Inside.
Proof.
  revert l r. induction fuel as [|fuel IH]; intros l r; cbn; [done|].
  case_decide; [|done]. set (k := l + (r - l) / 2).
  destruct (probe k) as [[]| |] eqn:Hp; [apply IH|apply IH| |done|done]. by intros [= <-].
Qed.

Section duplicates.
Context (C : Comparator) {O : ComparatorOrder C}.

Lemma cmp_eq_sign k a b :
  Compare a b = 0 →
  (Compare k a < 0 ↔ Compare k b < 0) ∧ (Compare k a > 0 ↔ Compare k b > 0).
Proof.
  intros Hab. pose proof (cmp_antisym a b). pose proof (cmp_antisym b a).
  assert (Compare b a <= 0) by (apply cmp_ge_le; lia).
  rewrite !cmp_gt_lt. split; split; intros H'.
  - apply (cmp_lt_le_trans k a b); lia.
  - apply (cmp_lt_le_trans k b a); lia.
  - apply (cmp_le_lt_trans b a k); lia.
  - apply (cmp_le_lt_trans a b k); lia.
Qed.

Lemma Range_Equals_tests r o key :
  Range_Equals C r o = true →
  Range_IsSmallerThanLower C r key = Range_IsSmallerThanLower C o key
  ∧ Range_IsGreaterThanUpper C r key = Range_IsGreaterThanUpper C o key.
Proof.
  unfold Range_Equals, Range_IsSmallerThanLower, Range_IsGreaterThanUpper.
  destruct (decide (lower_inclusive r ≠ _)) as [|Hl%dec_stable]; [done|].
  destruct (decide (upper_inclusive r ≠ _)) as [|Hu%dec_stable]; [done|].
  destruct (decide (r_num_duplicates r ≠ _)); [done|].
  destruct (decide (Compare (lower r) _ ≠ 0)) as [|Hcl%dec_stable]; [done|].
  destruct (decide (Compare (upper r) _ ≠ 0)) as [|Hcu%dec_stable]; [done|]. intros _.
  rewrite Hl, Hu. destruct (cmp_eq_sign key _ _ Hcl), (cmp_eq_sign key _ _ Hcu).
  split; repeat case_decide; repeat case_bool_decide; (done || lia).
Qed.

Lemma Ranges_Equals_lookup rs os i r o :
  Ranges_Equals C rs os = true → rs !! i = Some r → os !! i = Some o →
  Range_Equals C r o = true.
Proof.
  revert os i. induction rs as [|x rs IH]; intros [|y os] [|i] He; try done; cbn in *;
    apply andb_true_iff in He as [Hxy He]; [congruence|eauto].
Qed.

Lemma SubRange_Equals_probe srs i j a b key :
  srs !! Z.to_nat i = Some a → srs !! Z.to_nat j = Some b →
  SubRange_Equals C a b = true →
  SubRange_probe C srs key j = Ret Inside → SubRange_probe C srs key i = Ret Inside.
Proof.
  intros Hi Hj. unfold SubRange_Equals. destruct (decide (num_duplicates a ≠ _)); [done|].
  destruct (decide (length _ ≠ _)) as [|Hdec%dec_stable]; [done|]. intros He. unfold SubRange_probe. rewrite Hi, Hj.
  unfold SubRange_IsSmallerThanLower, SubRange_IsGreaterThanUpper.
  rewrite !head_lookup, !last_lookup, Hdec.
  destruct (tiny_ranges b !! 0%nat) as [fb|] eqn:Hfb; [|done].
  destruct (tiny_ranges b !! pred (length (tiny_ranges b))) as [lb|] eqn:Hlb;
    [|by destruct (Range_IsSmallerThanLower _ _ _)].
  destruct (lookup_lt_is_Some_2 (tiny_ranges a) 0) as [fa Hfa];
    [rewrite Hdec; exact (lookup_lt_Some _ _ _ Hfb)|].
  destruct (lookup_lt_is_Some_2 (tiny_ranges a) (pred (length (tiny_ranges b)))) as [la Hla];
    [rewrite Hdec; exact (lookup_lt_Some _ _ _ Hlb)|].
  rewrite Hfa, Hla.
  destruct (Range_Equals_tests fa fb key) as [-> _]; [by eapply Ranges_Equals_lookup|].
  destruct (Range_Equals_tests la lb key) as [_ ->]; [by eapply Ranges_Equals_lookup|].
  done.
Qed.

Lemma equal_below_run srs sr start n :
  (∀ j, (start <= j < n)%nat → ∃ o, srs !! j = Some o ∧ SubRange_Equals C o sr = true) →
  (start = 0%nat ∨ ∃ o, srs !! pred start = Some o ∧ SubRange_Equals C o sr = false) →
  (start <= n)%nat → equal_below C srs sr n = (n - start)%nat.
Proof.
  intros Hrun Hstop. induction n as [|n IH]; intros Hle; [done|]. cbn [equal_below].
  destruct (decide (start = S n)) as [->|Hne].
  - destruct Hstop as [|(o & Ho & He)]; [done|]. cbn in Ho. rewrite Ho, He. lia.
  - destruct (Hrun n) as (o & Ho & He); [lia|]. rewrite Ho, He, IH by (lia || (intros; apply Hrun; lia)).
    lia.
Qed.
End duplicates.

(** ** Properties *)

(** Subranges, their tiny ranges, bounds, flags and duplicate counts survive
    encoding and decoding (the position becomes the decoded id; statistics and
    thread ids are not stored), whatever bytes follow. *)
Theorem subranges_roundtrip srs rest :
  Forall SubRange_ok srs → size_of srs < 2 ^ 32 →
  SubRanges_Decode [] (SubRanges_Encode srs ++ rest) = (Ret (imap SubRange_persist srs), rest).
Proof. intros Hok Hn. by apply parses_SubRanges. Qed.

Definition example_range (a b : Z) (dup : Z) : Range :=
  mkRange (decimal a) (decimal b) true false dup f64_zero f64_zero (-1).
Definition example_subrange (a b dup : Z) : SubRange :=
  mkSubRange [example_range a b dup] dup f64_zero f64_zero 0 0 false 0.
Definition example_subranges : list SubRange :=
  [example_subrange 0 9 0; example_subrange 9 10 2; example_subrange 9 10 2;
   example_subrange 10 100 0].

Lemma subranges_roundtrip_witness :
  SubRanges_Decode [] (SubRanges_Encode example_subranges ++ [7]) =
    (Ret (imap SubRange_persist example_subranges), [7]).
Proof.
  apply (subranges_roundtrip example_subranges [7]); [|vm_compute; reflexivity].
  unfold SubRange_ok, Range_ok. lit.
Defined.



(** For a duplicated subrange (a run of as many equal copies as its
    duplicate count) the search steps back to the first copy and picks a copy
    of the run that contains the key: the first without a seed, and with a seed
    each copy for a suitable draw, never an element outside the run. *)
Theorem search_duplicates_uniform (C : Comparator) (O : ComparatorOrder C)
    srs key (id start : Z) sr rand :
  SubRanges_BinarySearch C srs key = Ret (Some id) →
  srs !! Z.to_nat id = Some sr → num_duplicates sr > 0 →
  0 <= start <= id → id < start + num_duplicates sr →
  (∀ j, (Z.to_nat start <= j < Z.to_nat (start + num_duplicates sr))%nat →
     ∃ o, srs !! j = Some o ∧ SubRange_Equals C o sr = true) →
  (start = 0 ∨ ∃ o, srs !! pred (Z.to_nat start) = Some o ∧ SubRange_Equals C o sr = false) →
  0 <= default 0 rand →
  ∃ id', SubRanges_BinarySearchWithDuplicate C srs key rand = Ret (Some id')
    ∧ SubRange_probe C srs key id' = Ret Inside
    ∧ id' = start + default 0 rand mod num_duplicates sr
    ∧ start <= id' < start + num_duplicates sr.
Proof.
  intros Hb Hid Hn Hs Hlt Hrun Hstop Hrand. set (id' := start + default 0 rand mod num_duplicates sr).
  pose proof (Z.mod_pos_bound (default 0 rand) (num_duplicates sr)) as Hmod.
  assert (SubRange_probe C srs key id' = Ret Inside) as Hin.
  { destruct (Hrun (Z.to_nat id')) as (o & Ho & He); [subst id'; lia|].
    apply (SubRange_Equals_probe C srs id' id o sr key); try done.
    by eapply BinarySearch_loop_found. }
  exists id'. split_and!; try done; [|subst id'; lia..].
  unfold SubRanges_BinarySearchWithDuplicate. rewrite Hb, Hid, decide_False by lia.
  rewrite (equal_below_run C srs sr (Z.to_nat start)) by
    ((intros; apply Hrun; lia) || (destruct Hstop as [->|]; [by left|by right]) || lia).
  replace (id - Z.of_nat (Z.to_nat id - Z.to_nat start)) with start by lia.
  destruct rand as [n|]; cbn in *; subst id'.
  - by rewrite Hin.
  - rewrite Zmod_0_l, Z.add_0_r in *. by rewrite Hin.
Qed.

Lemma search_duplicates_uniform_witness :
  ∃ id', SubRanges_BinarySearchWithDuplicate YCSBKeyComparator example_subranges (decimal 9) (Some 5)
           = Ret (Some id') ∧ id' = 2.
Proof.
  destruct (search_duplicates_uniform YCSBKeyComparator YCSB_order example_subranges (decimal 9)
    1 1 (example_subrange 9 10 2) (Some 5)) as (id' & H & _ & Hid & _).
  - vm_compute. reflexivity.
  - reflexivity.
  - cbn. lia.
  - lia.
  - cbn. lia.
  - intros j Hj. change (1 <= j < 3)%nat in Hj.
    assert (j = 1%nat ∨ j = 2%nat) as [-> | ->] by lia;
      eexists; (split; [reflexivity|vm_compute; reflexivity]).
  - right. eexists. split; [reflexivity|vm_compute; reflexivity].
  - cbn. lia.
  - exists id'. split; [exact H|exact Hid].
Defined.
