(* ===== verification/FileMeta.v ===== *)
(** * FileMeta: block handles, table metadata and compaction requests

    [StoCBlockHandle], [FileMetaData] and [ReplicationPair] of
    [include/leveldb/db_types.h] with their codecs in [db/dbformat.cc] and
    [stoc/persistent_stoc_file.cpp], the choice of a replica, and
    [CompactionRequest], the message by which an LTC offloads a compaction to a
    StoC. *)

From S2P Require Import Prelude Coding Comparator NovaCommon DbFormat Subrange.

(** ** Block handles *)

Record StoCBlockHandle := mkHandle {
  bh_server_id : Z;
  bh_stoc_file_id : Z;
  bh_offset : Z;
  bh_size : Z
}.

Definition StoCBlockHandle_init : StoCBlockHandle := mkHandle 0 0 0 0.

Definition HandleSize : nat := 4 + 4 + 8 + 4.

Definition EncodeHandle (h : StoCBlockHandle) : bytes :=
  EncodeFixed32 (bh_server_id h) ++ EncodeFixed32 (bh_stoc_file_id h)
    ++ EncodeFixed64 (bh_offset h) ++ EncodeFixed32 (bh_size h).

(** [DecodeHandle(const char *buf)]. *)
Definition DecodeHandle_ptr (buf : bytes) : StoCBlockHandle :=
  mkHandle (DecodeFixed32_ptr buf) (DecodeFixed32_ptr (drop 4 buf))
    (DecodeFixed64_ptr (drop 8 buf)) (DecodeFixed32_ptr (drop 16 buf)).

(** [DecodeHandle(Slice *data, StoCBlockHandle *handle)]. *)
Definition DecodeHandle : parser StoCBlockHandle := λ data,
  if decide (length data < HandleSize)%nat then (Fail, data)
  else (Ret (DecodeHandle_ptr data), drop HandleSize data).

(** [DecodeHandles]: the handles appended. *)
Definition DecodeHandles : parser (list StoCBlockHandle) :=
  let! size := DecodeFixed32 in repeatP (Z.to_nat size) DecodeHandle.

(** ** Table metadata *)

Record FileReplicaMetaData := mkReplica {
  meta_block_handle : StoCBlockHandle;
  data_block_group_handles : list StoCBlockHandle
}.

Inductive FileCompactionStatus := NONE | COMPACTING | COMPACTED.

(** [memtable_ids] is a [std::set]: an increasing list. *)
Record FileMetaData := mkFile {
  refs : Z;
  allowed_seeks : Z;
  memtable_ids : list Z;
  number : Z;
  file_size : Z;
  converted_file_size : Z;
  flush_timestamp : Z;
  level : Z;
  smallest : bytes;
  largest : bytes;
  compaction_status : FileCompactionStatus;
  block_replica_handles : list FileReplicaMetaData;
  parity_block_handle : StoCBlockHandle
}.

(** The default constructor. *)
Definition FileMetaData_init : FileMetaData :=
  mkFile 0 (1 ≪ 30) [] 0 0 0 0 0 [] [] NONE [] StoCBlockHandle_init.

Definition EncodeReplica (r : FileReplicaMetaData) : bytes :=
  EncodeHandle (meta_block_handle r)
    ++ EncodeFixed32 (size_of (data_block_group_handles r))
    ++ (data_block_group_handles r ≫= EncodeHandle).

(** The bytes of [FileMetaData::Encode], for nonempty keys. *)
Definition FileMetaData_bytes (f : FileMetaData) : bytes :=
  EncodeFixed64 (number f) ++ EncodeFixed64 (file_size f)
    ++ EncodeFixed64 (converted_file_size f)
    ++ EncodeStr (smallest f) ++ EncodeStr (largest f)
    ++ EncodeFixed64 (flush_timestamp f) ++ EncodeFixed32 (level f)
    ++ EncodeFixed32 (size_of (memtable_ids f)) ++ (memtable_ids f ≫= EncodeFixed32)
    ++ EncodeFixed32 (size_of (block_replica_handles f))
    ++ (block_replica_handles f ≫= EncodeReplica)
    ++ EncodeHandle (parity_block_handle f).

(** [FileMetaData::Encode]; [InternalKey::Encode] asserts a nonempty key. *)
Definition FileMetaData_Encode (f : FileMetaData) : res bytes :=
  if decide (smallest f = [] ∨ largest f = []) then Abort else Ret (FileMetaData_bytes f).

(** [GetInternalKey(input, dst, copy)]: [dst->DecodeFrom(str)] replaces the
    key, whatever [copy] is, and fails on an empty one. *)
Definition GetInternalKey (rep : bytes) : parser bytes :=
  let! str := DecodeStr_slice in
  match InternalKey_DecodeFrom rep str false with
  | (rep, true) => pret rep
  | (_, false) => pfail
  end.

(** [DecodeMemTableIds]: the ids are inserted into the set the object has. *)
Definition DecodeMemTableIds (ids : list Z) : parser (list Z) :=
  let! num_ids := DecodeFixed32 in
  let! mids := repeatP (Z.to_nat num_ids) DecodeFixed32 in
  pret (foldl (λ s mid, set_insert mid s) ids mids).

Definition DecodeReplica : parser FileReplicaMetaData :=
  let! meta := DecodeHandle in
  let! data := DecodeHandles in
  pret (mkReplica meta data).

(** [DecodeReplicas]: appended to the replicas the object has. *)
Definition DecodeReplicas (replicas : list FileReplicaMetaData)
    : parser (list FileReplicaMetaData) :=
  let! num_replicas := DecodeFixed32 in
  let! rs := repeatP (Z.to_nat num_replicas) DecodeReplica in
  pret (replicas ++ rs).

(** [FileMetaData::Decode] into the object [f]. *)
Definition FileMetaData_Decode (f : FileMetaData) : parser FileMetaData :=
  let! number' := DecodeFixed64 in
  let! file_size' := DecodeFixed64 in
  let! converted_file_size' := DecodeFixed64 in
  let! smallest' := GetInternalKey (smallest f) in
  let! largest' := GetInternalKey (largest f) in
  let! flush_timestamp' := DecodeFixed64 in
  let! level' := DecodeFixed32 in
  let! memtable_ids' := DecodeMemTableIds (memtable_ids f) in
  let! replicas' := DecodeReplicas (block_replica_handles f) in
  let! parity' := DecodeHandle in
  pret (mkFile (refs f) (allowed_seeks f) memtable_ids' number' file_size' converted_file_size'
          flush_timestamp' level' smallest' largest' (compaction_status f) replicas' parity').

(** [SelectReplica()]: [servers] are the ids of the available StoC servers. *)
Fixpoint SelectReplica_loop (servers : list Z) (rs : list FileReplicaMetaData) (i : Z) : option Z :=
  match rs with
  | [] => None
  | r :: rs =>
      if decide (bh_server_id (meta_block_handle r) ∈ servers) then Some i
      else SelectReplica_loop servers rs (i + 1)
  end.
Definition SelectReplica (servers : list Z) (f : FileMetaData) : res Z :=
  if decide (length (block_replica_handles f) = 1%nat) then Ret 0
  else match SelectReplica_loop servers (block_replica_handles f) 0 with
       | Some i => Ret i
       | None => Abort
       end.

(** [TotalFileSize]: the sum in [int64_t]. *)
Definition TotalFileSize (files : list FileMetaData) : Z :=
  foldl (λ sum f, w64 (sum + file_size f)) 0 files.

(** ** Replication pairs *)

Inductive FileInternalType := kFileMetadata | kFileData | kFileParity.

Definition FileInternalType_char (t : FileInternalType) : Z :=
  match t with kFileMetadata => 109 | kFileData => 100 | kFileParity => 112 end.

(** [DecodeInternalFileType]: indexing an empty slice fails its assertion. *)
Definition DecodeInternalFileType : parser FileInternalType := λ ptr,
  match ptr with
  | [] => (Abort, ptr)
  | type :: rest =>
      if decide (type = 109) then (Ret kFileMetadata, rest)
      else if decide (type = 100) then (Ret kFileData, rest)
      else if decide (type = 112) then (Ret kFileParity, rest)
      else (Fail, ptr)
  end.

Record ReplicationPair := mkReplicationPair {
  source_stoc_file_id : Z;
  source_file_size : Z;
  dest_stoc_id : Z;
  sstable_file_number : Z;
  replica_id : Z;
  internal_type : FileInternalType;
  dest_stoc_file_id : Z
}.

Definition ReplicationPair_Encode (p : ReplicationPair) : bytes :=
  EncodeFixed32 (source_stoc_file_id p) ++ [FileInternalType_char (internal_type p)]
    ++ EncodeFixed32 (source_file_size p) ++ EncodeFixed32 (dest_stoc_id p)
    ++ EncodeFixed64 (sstable_file_number p) ++ EncodeFixed32 (replica_id p)
    ++ EncodeFixed32 (dest_stoc_file_id p).

Definition ReplicationPair_Decode : parser ReplicationPair :=
  let! source_stoc_file_id' := DecodeFixed32 in
  let! internal_type' := DecodeInternalFileType in
  let! source_file_size' := DecodeFixed32 in
  let! dest_stoc_id' := DecodeFixed32 in
  let! sstable_file_number' := DecodeFixed64 in
  let! replica_id' := DecodeFixed32 in
  let! dest_stoc_file_id' := DecodeFixed32 in
  pret (mkReplicationPair source_stoc_file_id' source_file_size' dest_stoc_id'
          sstable_file_number' replica_id' internal_type' dest_stoc_file_id').

(** ** Compaction requests *)

Record CompactionRequest := mkRequest {
  dbname : bytes;
  smallest_snapshot : Z;
  inputs0 : list FileMetaData;
  inputs1 : list FileMetaData;
  guides : list FileMetaData;
  subranges : list SubRange;
  source_level : Z;
  target_level : Z
}.

(** A vector of files: its size and the encodings. *)
Definition EncodeFiles (files : list FileMetaData) : res bytes :=
  encs ← mapM FileMetaData_Encode files;
  Ret (EncodeFixed32 (size_of files) ++ concat encs).

(** [CompactionRequest::EncodeRequest]. *)
Definition EncodeRequest (r : CompactionRequest) : res bytes :=
  in0 ← EncodeFiles (inputs0 r);
  in1 ← EncodeFiles (inputs1 r);
  gs ← EncodeFiles (guides r);
  srs ← mapM id (imap (λ i sr, SubRange_EncodeForCompaction sr (Z.of_nat i)) (subranges r));
  Ret (EncodeStr (dbname r) ++ EncodeFixed64 (smallest_snapshot r)
    ++ EncodeFixed32 (source_level r) ++ EncodeFixed32 (target_level r)
    ++ in0 ++ in1 ++ gs ++ EncodeFixed32 (size_of (subranges r)) ++ concat srs).

Definition DecodeFiles (files : list FileMetaData) : parser (list FileMetaData) :=
  let! num := must DecodeFixed32 in
  let! fs := repeatP (Z.to_nat num) (must (FileMetaData_Decode FileMetaData_init)) in
  pret (files ++ fs).

(** The part of [DecodeRequest] that reads from the slice. *)
Definition DecodeRequest_slice (r : CompactionRequest) (dbname' : bytes) : parser CompactionRequest :=
  let! smallest_snapshot' := must DecodeFixed64 in
  let! source_level' := must DecodeFixed32 in
  let! target_level' := must DecodeFixed32 in
  let! in0 := DecodeFiles (inputs0 r) in
  let! in1 := DecodeFiles (inputs1 r) in
  let! gs := DecodeFiles (guides r) in
  let! num_subranges := must DecodeFixed32 in
  let! srs := repeatP (Z.to_nat num_subranges) (must (SubRange_DecodeForCompaction SubRange_init)) in
  pret (mkRequest dbname' smallest_snapshot' in0 in1 gs (subranges r ++ srs)
          source_level' target_level').

(** [CompactionRequest::DecodeRequest(buf, buf_size)]: [buf] is the memory from
    the buffer on.  The slice starts after the database name and has the size
    [buf_size] of the whole message. *)
Definition DecodeRequest (r : CompactionRequest) (buf : bytes) (buf_size : Z)
    : res CompactionRequest :=
  let '(dbname', n) := DecodeStr_ptr buf (dbname r) in
  (DecodeRequest_slice r dbname' (take (Z.to_nat buf_size) (drop (Z.to_nat n) buf))).1.

(** ** Round trips *)

Definition handle_ok (h : StoCBlockHandle) : Prop :=
  is_u32 (bh_server_id h) ∧ is_u32 (bh_stoc_file_id h) ∧ is_u64 (bh_offset h) ∧ is_u32 (bh_size h).

Lemma parses_DecodeHandle h : handle_ok h → parses DecodeHandle (EncodeHandle h) h.
Proof.
  destruct h as [a b c d]. intros (Ha & Hb & Hc & Hd) rest. cbn in Ha, Hb, Hc, Hd.
  unfold DecodeHandle. rewrite decide_False by (rewrite length_app; cbn; lia).
  unfold EncodeHandle, DecodeHandle_ptr. cbn [bh_server_id bh_stoc_file_id bh_offset bh_size].
  rewrite <- !(assoc_L (++)).
  change (drop 16 ?s) with (drop 8 (drop 4 (drop 4 s))).
  change (drop 8 (EncodeFixed32 a ++ ?s)) with (drop 4 (drop 4 (EncodeFixed32 a ++ s))).
  rewrite !(drop_app_exact (EncodeFixed32 _)) by done.
  rewrite (drop_app_exact (EncodeFixed64 c)) by done.
  rewrite !DecodeFixed32_ptr_encode, DecodeFixed64_ptr_encode, !w32_small, w64_small by done.
  done.
Qed.
#[export] Hint Resolve parses_DecodeHandle : nova.

Lemma length_EncodeHandle h : length (EncodeHandle h) = HandleSize.
Proof. done. Qed.

Definition replica_ok (r : FileReplicaMetaData) : Prop :=
  handle_ok (meta_block_handle r) ∧ Forall handle_ok (data_block_group_handles r)
  ∧ is_u32 (size_of (data_block_group_handles r)).

Lemma parses_DecodeHandles hs :
  Forall handle_ok hs → is_u32 (size_of hs) →
  parses DecodeHandles (EncodeFixed32 (size_of hs) ++ (hs ≫= EncodeHandle)) hs.
Proof.
  intros Hhs Hn. eapply parses_bind; [by apply parses_Fixed32|]. cbn beta. rewrite Nat2Z.id.
  apply parses_repeat. eapply Forall_impl; [done|]. eauto with nova.
Qed.
#[export] Hint Resolve parses_DecodeHandles : nova.

Lemma parses_DecodeReplica r : replica_ok r → parses DecodeReplica (EncodeReplica r) r.
Proof.
  destruct r as [m d]. intros (Hm & Hd & Hn). unfold DecodeReplica, EncodeReplica. parse_solve.
Qed.
#[export] Hint Resolve parses_DecodeReplica : nova.

(** A table whose fields fit their encodings; the memtable ids are a set. *)
Definition file_ok (f : FileMetaData) : Prop :=
  is_u64 (number f) ∧ is_u64 (file_size f) ∧ is_u64 (converted_file_size f)
  ∧ smallest f ≠ [] ∧ short (smallest f) ∧ largest f ≠ [] ∧ short (largest f)
  ∧ is_u64 (flush_timestamp f) ∧ is_u32 (level f)
  ∧ is_u32 (size_of (memtable_ids f)) ∧ Forall is_u32 (memtable_ids f)
  ∧ StronglySorted Z.lt (memtable_ids f)
  ∧ is_u32 (size_of (block_replica_handles f)) ∧ Forall replica_ok (block_replica_handles f)
  ∧ handle_ok (parity_block_handle f).

(** What the encoding keeps of the metadata. *)
Definition FileMetaData_persist (f : FileMetaData) : FileMetaData :=
  mkFile 0 (1 ≪ 30) (memtable_ids f) (number f) (file_size f) (converted_file_size f)
    (flush_timestamp f) (level f) (smallest f) (largest f) NONE (block_replica_handles f)
    (parity_block_handle f).

Lemma parses_GetInternalKey rep k :
  k ≠ [] → short k → parses (GetInternalKey rep) (EncodeStr k) k.
Proof.
  intros Hk Hs. unfold GetInternalKey. eapply parses_bind_last; [by apply parses_DecodeStr_slice|].
  cbn. rewrite bool_decide_eq_true_2 by done. apply parses_ret.
Qed.
#[export] Hint Resolve parses_GetInternalKey : nova.

Lemma parses_DecodeMemTableIds s ids :
  is_u32 (size_of ids) → Forall is_u32 ids →
  parses (DecodeMemTableIds s) (EncodeFixed32 (size_of ids) ++ (ids ≫= EncodeFixed32))
    (foldl (λ s mid, set_insert mid s) s ids).
Proof.
  intros Hn Hids. eapply parses_bind; [by apply parses_Fixed32|]. cbn beta. rewrite Nat2Z.id.
  eapply parses_bind_last; [|apply parses_ret]. apply parses_repeat.
  eapply Forall_impl; [done|]. eauto with nova.
Qed.

Lemma parses_DecodeReplicas rs0 rs :
  is_u32 (size_of rs) → Forall replica_ok rs →
  parses (DecodeReplicas rs0) (EncodeFixed32 (size_of rs) ++ (rs ≫= EncodeReplica)) (rs0 ++ rs).
Proof.
  intros Hn Hrs. eapply parses_bind; [by apply parses_Fixed32|]. cbn beta. rewrite Nat2Z.id.
  eapply parses_bind_last; [|apply parses_ret]. apply parses_repeat.
  eapply Forall_impl; [done|]. eauto with nova.
Qed.
#[export] Hint Resolve parses_DecodeMemTableIds parses_DecodeReplicas : nova.

(** Decoding into an object [g] that is not fresh: its memtable ids and
    replicas stay. *)
Definition FileMetaData_into (g f : FileMetaData) : FileMetaData :=
  mkFile (refs g) (allowed_seeks g) (foldl (λ s mid, set_insert mid s) (memtable_ids g) (memtable_ids f))
    (number f) (file_size f) (converted_file_size f) (flush_timestamp f) (level f)
    (smallest f) (largest f) (compaction_status g)
    (block_replica_handles g ++ block_replica_handles f) (parity_block_handle f).

Lemma parses_FileMetaData_into g f :
  file_ok f → parses (FileMetaData_Decode g) (FileMetaData_bytes f) (FileMetaData_into g f).
Proof.
  intros (? & ? & ? & ? & ? & ? & ? & ? & ? & ? & ? & ? & ? & ? & ?).
  unfold FileMetaData_Decode, FileMetaData_bytes.
  rewrite (assoc_L (++) (EncodeFixed32 (size_of (memtable_ids f)))).
  rewrite (assoc_L (++) (EncodeFixed32 (size_of (block_replica_handles f)))).
  parse_solve.
Qed.

Lemma FileMetaData_into_init f :
  file_ok f → FileMetaData_into FileMetaData_init f = FileMetaData_persist f.
Proof.
  intros Hf. unfold FileMetaData_into, FileMetaData_persist. cbn.
  rewrite (foldl_set_insert_sorted (memtable_ids f)); [done|apply Hf].
Qed.

Lemma parses_FileMetaData f :
  file_ok f →
  parses (FileMetaData_Decode FileMetaData_init) (FileMetaData_bytes f) (FileMetaData_persist f).
Proof. intros Hf. rewrite <- FileMetaData_into_init by done. by apply parses_FileMetaData_into. Qed.
#[export] Hint Resolve parses_FileMetaData : nova.

Lemma FileMetaData_Encode_ok f : file_ok f → FileMetaData_Encode f = Ret (FileMetaData_bytes f).
Proof.
  intros (_ & _ & _ & Hs & _ & Hl & _). unfold FileMetaData_Encode.
  rewrite decide_False by tauto. done.
Qed.

(** *** Compaction requests *)

Lemma mapM_Ret {A B} (f : A → res B) (g : A → B) (l : list A) :
  Forall (λ x, f x = Ret (g x)) l → mapM f l = Ret (g <$> l).
Proof. induction 1 as [|x l Hx _ IH]; cbn; [done|]. by rewrite Hx, IH. Qed.

Definition files_ok (fs : list FileMetaData) : Prop := Forall file_ok fs ∧ is_u32 (size_of fs).

Definition EncodeFiles_bytes (fs : list FileMetaData) : bytes :=
  EncodeFixed32 (size_of fs) ++ (fs ≫= FileMetaData_bytes).

Lemma EncodeFiles_ok fs : files_ok fs → EncodeFiles fs = Ret (EncodeFiles_bytes fs).
Proof.
  intros [Hfs _]. unfold EncodeFiles. rewrite (mapM_Ret _ FileMetaData_bytes).
  - cbn. unfold EncodeFiles_bytes. do 2 f_equal. by rewrite concat_fmap_bind.
  - eapply Forall_impl; [done|]. apply FileMetaData_Encode_ok.
Qed.

Lemma files_bind_persist fs :
  (FileMetaData_persist <$> fs) ≫= FileMetaData_bytes = fs ≫= FileMetaData_bytes.
Proof. induction fs as [|f fs IH]; cbn; [done|]. by rewrite IH. Qed.

Lemma parses_DecodeFiles fs :
  files_ok fs → parses (DecodeFiles []) (EncodeFiles_bytes fs) (FileMetaData_persist <$> fs).
Proof.
  intros [Hfs Hn]. unfold DecodeFiles, EncodeFiles_bytes.
  eapply parses_bind; [by apply parses_must, parses_Fixed32|]. cbn beta.
  rewrite Nat2Z.id, <- files_bind_persist, <- (length_fmap FileMetaData_persist fs).
  eapply parses_bind_last; [|apply parses_ret]. apply parses_repeat, Forall_fmap.
  eapply Forall_impl; [done|]. intros f Hf. apply parses_must, (parses_FileMetaData f Hf).
Qed.
#[export] Hint Resolve parses_DecodeFiles : nova.

(** The encoding keeps the outer bounds of each subrange. *)
Definition SubRange_outline (id : nat) (sr : SubRange) : SubRange :=
  mkSubRange (option_list (SubRange_bounds sr)) (num_duplicates sr) f64_zero f64_zero 0 0 false
    (Z.of_nat id).

Definition outline_ok (sr : SubRange) : Prop :=
  match SubRange_bounds sr with Some r => Range_ok r | None => False end
  ∧ is_u32 (num_duplicates sr).

Definition outline_bytes (sr : SubRange) : bytes :=
  EncodeFixed32 (decoded_subrange_id sr) ++ EncodeFixed32 (num_duplicates sr)
    ++ (tiny_ranges sr ≫= Range_Encode).

Lemma EncodeForCompaction_outline sr id :
  outline_ok sr →
  SubRange_EncodeForCompaction sr (Z.of_nat id) = Ret (outline_bytes (SubRange_outline id sr)).
Proof.
  unfold outline_ok, SubRange_EncodeForCompaction, outline_bytes, SubRange_outline. cbn.
  destruct (SubRange_bounds sr) as [r|]; [|tauto]. intros _. cbn. by rewrite app_nil_r.
Qed.

Lemma parses_outline sr id :
  outline_ok sr → is_u32 (Z.of_nat id) →
  parses (SubRange_DecodeForCompaction SubRange_init) (outline_bytes (SubRange_outline id sr))
    (SubRange_outline id sr).
Proof.
  unfold outline_ok, outline_bytes, SubRange_outline, SubRange_bounds.
  cbn -[Range_Encode EncodeFixed32].
  destruct (head (tiny_ranges sr)) as [f|], (last (tiny_ranges sr)) as [l|];
    try (intros [[] _]; done).
  intros [Hr Hd] Hid. cbn -[Range_Encode EncodeFixed32]. rewrite app_nil_r. unfold SubRange_DecodeForCompaction.
  do 2 (eapply parses_bind; [by apply parses_Fixed32|]; cbn beta).
  eapply parses_bind_last; [by apply parses_Range|]. apply parses_ret.
Qed.

Definition outlines (srs : list SubRange) : list SubRange := imap SubRange_outline srs.

Lemma mapM_outlines k srs :
  Forall outline_ok srs →
  mapM id (imap (λ i sr, SubRange_EncodeForCompaction sr (Z.of_nat (k + i))) srs) =
    Ret (outline_bytes <$> imap (λ i, SubRange_outline (k + i)) srs).
Proof.
  intros Hs. revert k. induction Hs as [|sr srs Hsr _ IH]; intros k; [done|].
  cbn -[SubRange_outline]. rewrite EncodeForCompaction_outline by done.
  rewrite (imap_ext _ (λ i sr, SubRange_EncodeForCompaction sr (Z.of_nat (S k + i))))
    by (intros; cbn; by rewrite Nat.add_succ_r).
  rewrite (imap_ext (_ ∘ S) (λ i, SubRange_outline (S k + i)))
    by (intros; cbn; by rewrite Nat.add_succ_r).
  specialize (IH (S k)). cbn -[SubRange_outline] in IH |- *. by rewrite IH.
Qed.

Definition request_ok (r : CompactionRequest) : Prop :=
  short (EncodeStr (dbname r)) ∧ is_u64 (smallest_snapshot r)
  ∧ is_u32 (source_level r) ∧ is_u32 (target_level r)
  ∧ files_ok (inputs0 r) ∧ files_ok (inputs1 r) ∧ files_ok (guides r)
  ∧ Forall outline_ok (subranges r) ∧ is_u32 (size_of (subranges r)).

Definition Request_persist (r : CompactionRequest) : CompactionRequest :=
  mkRequest (dbname r) (smallest_snapshot r) (FileMetaData_persist <$> inputs0 r)
    (FileMetaData_persist <$> inputs1 r) (FileMetaData_persist <$> guides r)
    (outlines (subranges r)) (source_level r) (target_level r).

Definition CompactionRequest_init : CompactionRequest := mkRequest [] 0 [] [] [] [] 0 0.

(** The request after its database name. *)
Definition Request_body (r : CompactionRequest) : bytes :=
  EncodeFixed64 (smallest_snapshot r) ++ EncodeFixed32 (source_level r)
    ++ EncodeFixed32 (target_level r) ++ EncodeFiles_bytes (inputs0 r)
    ++ EncodeFiles_bytes (inputs1 r) ++ EncodeFiles_bytes (guides r)
    ++ EncodeFixed32 (size_of (subranges r)) ++ (outlines (subranges r) ≫= outline_bytes).

Lemma EncodeRequest_ok r :
  request_ok r → EncodeRequest r = Ret (EncodeStr (dbname r) ++ Request_body r).
Proof.
  intros (_ & _ & _ & _ & H0 & H1 & Hg & Hs & _). unfold EncodeRequest.
  rewrite !EncodeFiles_ok by done. cbn -[EncodeStr EncodeFixed32 EncodeFixed64].
  pose proof (mapM_outlines 0 (subranges r) Hs) as Hm. cbn [Nat.add] in Hm. rewrite Hm.
  cbn -[EncodeStr EncodeFixed32 EncodeFixed64]. unfold Request_body.
  by rewrite concat_fmap_bind.
Qed.

Lemma parses_Request_body r :
  request_ok r →
  parses (DecodeRequest_slice CompactionRequest_init (dbname r)) (Request_body r) (Request_persist r).
Proof.
  intros (_ & ? & ? & ? & ? & ? & ? & Hs & Hn).
  unfold DecodeRequest_slice, Request_body, outlines.
  do 7 (eapply parses_bind; [solve [eauto with nova]|]; cbn beta).
  rewrite Nat2Z.id. eapply parses_bind_last; [|apply parses_ret].
  rewrite <- (length_imap SubRange_outline). apply parses_repeat, Forall_lookup_2.
  intros i v. unfold outlines. rewrite list_lookup_imap. destruct (subranges r !! i) as [sr|] eqn:Hi; cbn; [|done].
  intros [= <-]. pose proof (lookup_lt_Some _ _ _ Hi). rewrite Forall_lookup in Hs.
  apply parses_must, parses_outline; [by eapply Hs|mlia].
Qed.

(** The slice [DecodeRequest] reads holds the request's body as soon as its
    size does not fall short by more than the name in front of it. *)
Lemma DecodeRequest_body r rest n :
  request_ok r →
  size_of (Request_body r) <= n →
  DecodeRequest CompactionRequest_init ((EncodeStr (dbname r) ++ Request_body r) ++ rest) n =
    Ret (Request_persist r).
Proof.
  intros Hr Hn. unfold DecodeRequest, DecodeStr_ptr, EncodeStr. rewrite <- !(assoc_L (++)).
  pose proof (proj1 Hr) as Hs. unfold short, EncodeStr in Hs. rewrite length_app in Hs. cbn in Hs.
  rewrite DecodeFixed32_ptr_encode, w32_small by mlia.
  rewrite (drop_app_exact (EncodeFixed32 _)) by done. rewrite Nat2Z.id, take_app_length.
  rewrite w32_small by mlia. cbn [dbname CompactionRequest_init app].
  rewrite (assoc_L (++) (EncodeFixed32 _)), drop_app_exact by (rewrite length_app; cbn; lia).
  rewrite take_app_ge by lia. by rewrite parses_Request_body.
Qed.

(** ** Properties *)

(** Table metadata written by [FileMetaData::Encode] is read back by
    [Decode] into a fresh object with every persistent field: sizes, keys,
    memtable ids, all replicas with their data block handles, and the parity
    block. *)
Theorem file_metadata_roundtrip f rest :
  file_ok f →
  ∃ bs, FileMetaData_Encode f = Ret bs
    ∧ FileMetaData_Decode FileMetaData_init (bs ++ rest) = (Ret (FileMetaData_persist f), rest).
Proof.
  intros Hf. exists (FileMetaData_bytes f). split; [by apply FileMetaData_Encode_ok|].
  by apply parses_FileMetaData.
Qed.

Definition example_file (n lo hi : Z) (ids : list Z) : FileMetaData :=
  mkFile 1 (1 ≪ 30) ids n 4096 5000 77 1
    (InternalKey_make (decimal lo) 9 kTypeValue) (InternalKey_make (decimal hi) 3 kTypeValue) NONE
    [mkReplica (mkHandle 1 2 0 100) [mkHandle 1 3 0 2048; mkHandle 2 4 0 2048];
     mkReplica (mkHandle 2 5 0 100) []] (mkHandle 3 6 0 2048).

Lemma decimal_key_short x s t :
  InternalKey_make (decimal x) s t ≠ [] ∧ short (InternalKey_make (decimal x) s t).
Proof.
  pose proof (decimal_length x).
  assert (length (InternalKey_make (decimal x) s t) = length (decimal x) + 8)%nat as Hl
    by (unfold InternalKey_make, AppendInternalKey, PutFixed64; by rewrite length_app).
  split; [intros E; rewrite E in Hl; cbn in Hl; lia|unfold short; mlia].
Qed.

Lemma example_file_ok n lo hi ids :
  is_u64 n → is_u32 (size_of ids) → Forall is_u32 ids → StronglySorted Z.lt ids →
  file_ok (example_file n lo hi ids).
Proof.
  intros. pose proof (decimal_key_short lo 9 kTypeValue). pose proof (decimal_key_short hi 3 kTypeValue).
  unfold file_ok, replica_ok, handle_ok. cbn -[InternalKey_make decimal].
  split_and!; try tauto; try mlia. lit.
Qed.

Lemma file_metadata_roundtrip_witness :
  ∃ bs, FileMetaData_Encode (example_file 12 5 80 [3; 4]) = Ret bs
    ∧ FileMetaData_Decode FileMetaData_init (bs ++ [9]) =
        (Ret (FileMetaData_persist (example_file 12 5 80 [3; 4])), [9]).
Proof.
  apply (file_metadata_roundtrip (example_file 12 5 80 [3; 4]) [9]).
  apply example_file_ok; [mlia|lit|lit|repeat constructor].
Defined.

(** A replication pair decodes to the pair that was encoded, for each of
    the three kinds of file. *)
Theorem replication_pair_roundtrip p rest :
  is_u32 (source_stoc_file_id p) → is_u32 (source_file_size p) → is_u32 (dest_stoc_id p) →
  is_u64 (sstable_file_number p) → is_u32 (replica_id p) → is_u32 (dest_stoc_file_id p) →
  ReplicationPair_Decode (ReplicationPair_Encode p ++ rest) = (Ret p, rest).
Proof.
  intros. destruct p as [a b c d e t g]. cbn in *. revert rest.
  change (parses ReplicationPair_Decode
    (ReplicationPair_Encode (mkReplicationPair a b c d e t g)) (mkReplicationPair a b c d e t g)).
  assert (parses DecodeInternalFileType [FileInternalType_char t] t) by by destruct t.
  unfold ReplicationPair_Decode, ReplicationPair_Encode.
  cbn [source_stoc_file_id internal_type source_file_size dest_stoc_id sstable_file_number
       replica_id dest_stoc_file_id]. parse_solve.
Qed.

Lemma replication_pair_roundtrip_witness :
  ReplicationPair_Decode (ReplicationPair_Encode (mkReplicationPair 1 2 3 4 0 kFileParity 9) ++ [5]) =
    (Ret (mkReplicationPair 1 2 3 4 0 kFileParity 9), [5]).
Proof.
  apply (replication_pair_roundtrip (mkReplicationPair 1 2 3 4 0 kFileParity 9) [5]); lit.
Defined.

(** C32. A compaction request reaches the StoC intact: inputs, guides, levels,
    snapshot and subrange bounds.  The decoder gives its slice the size of the
    whole message although the slice starts after the database name, so it
    accepts a size that falls short by up to the name and its length, reading
    bytes past the size it was given. *)
Theorem compaction_request_roundtrip r rest missing :
  request_ok r →
  0 <= missing <= 4 + size_of (dbname r) →
  ∃ bs, EncodeRequest r = Ret bs
    ∧ DecodeRequest CompactionRequest_init (bs ++ rest) (size_of bs - missing) =
        Ret (Request_persist r).
Proof.
  intros Hr Hm. exists (EncodeStr (dbname r) ++ Request_body r).
  split; [by apply EncodeRequest_ok|]. apply DecodeRequest_body; [done|].
  rewrite length_app, length_EncodeStr. lia.
Qed.

Definition example_request : CompactionRequest :=
  mkRequest [100; 98; 49] 7 [example_file 12 5 80 [3; 4]] [example_file 13 81 90 []] []
    example_subranges 0 1.

Lemma example_request_ok : request_ok example_request.
Proof.
  unfold request_ok, files_ok, example_request.
  cbn -[example_file example_subranges EncodeStr].
  split_and!; try (repeat (apply Forall_cons; split); try apply Forall_nil_2;
    apply example_file_ok; [mlia|lit|lit|repeat constructor]); try lit; try mlia.
Qed.

Lemma compaction_request_roundtrip_witness :
  ∃ bs, EncodeRequest example_request = Ret bs
    ∧ DecodeRequest CompactionRequest_init (bs ++ [1; 2; 3]) (size_of bs - 7) =
        Ret (Request_persist example_request).
Proof.
  apply (compaction_request_roundtrip example_request [1; 2; 3] 7); [apply example_request_ok|].
  cbn. lia.
Defined.

(** [SelectReplica] returns the first replica whose metadata server is
    available, does not look at availability when there is a single replica,
    and fails its assertion exactly when there are none or several and no
    server is available. *)
Theorem select_replica_first servers f :
  match SelectReplica servers f with
  | Ret i => (length (block_replica_handles f) = 1%nat ∧ i = 0)
      ∨ ∃ r, block_replica_handles f !! Z.to_nat i = Some r ∧ 0 <= i
          ∧ bh_server_id (meta_block_handle r) ∈ servers
          ∧ Forall (λ r', bh_server_id (meta_block_handle r') ∉ servers)
              (take (Z.to_nat i) (block_replica_handles f))
  | Fail => False
  | Abort => length (block_replica_handles f) ≠ 1%nat
      ∧ Forall (λ r, bh_server_id (meta_block_handle r) ∉ servers) (block_replica_handles f)
  end.
Proof.
  unfold SelectReplica. case_decide as Hone; [by left|].
  assert (∀ rs k, 0 <= k →
    match SelectReplica_loop servers rs k with
    | Some i => ∃ r, rs !! Z.to_nat (i - k) = Some r ∧ k <= i
        ∧ bh_server_id (meta_block_handle r) ∈ servers
        ∧ Forall (λ r', bh_server_id (meta_block_handle r') ∉ servers) (take (Z.to_nat (i - k)) rs)
    | None => Forall (λ r, bh_server_id (meta_block_handle r) ∉ servers) rs
    end) as Hloop.
  { induction rs as [|r rs IH]; intros k Hk; cbn; [done|]. case_decide as Hin.
    - exists r. rewrite Z.sub_diag. by split_and!; [|lia|..].
    - specialize (IH (k + 1) ltac:(lia)).
      destruct (SelectReplica_loop servers rs (k + 1)) as [i|]; [|by constructor].
      destruct IH as (r' & Hr' & Hle & Hs & Hf). exists r'.
      replace (Z.to_nat (i - k)) with (S (Z.to_nat (i - (k + 1)))) by lia. cbn.
      split_and!; [done|lia|done|by constructor]. }
  specialize (Hloop (block_replica_handles f) 0 ltac:(lia)).
  destruct (SelectReplica_loop _ _ _) as [i|]; [right|done].
  by rewrite Z.sub_0_r in Hloop.
Qed.
