(* ===== verification/Filename.v ===== *)
(** * Filename: the names of the files of a database

    [db/filename.cc] with [FileType] of [db/filename.h], and the decimal
    numbers of [util/logging.cc].  A name is a byte string; the printed numbers
    are padded to six digits as [snprintf] pads them. *)

From S2P Require Import Prelude Coding Comparator NovaCommon FileMeta.

(** The bytes of a literal. *)
Definition str (s : string) : bytes := (λ a, Z.of_N (Ascii.N_of_ascii a)) <$> String.list_ascii_of_string s.

(** ** Decimal numbers *)

Definition kMaxUint64 : Z := 2 ^ 64 - 1.
Definition kLastDigitOfMaxUint64 : Z := 48 + kMaxUint64 mod 10.

Definition AppendNumberTo (s : bytes) (num : Z) : bytes := s ++ decimal num.
Definition NumberToString (num : Z) : bytes := AppendNumberTo [] num.

(** A hexadecimal digit as [snprintf] prints it with ["%02x"]. *)
Definition hex_digit (d : Z) : Z := if decide (d < 10) then 48 + d else 97 + (d - 10).

Fixpoint AppendEscapedStringTo (s value : bytes) : bytes :=
  match value with
  | [] => s
  | c :: value =>
      AppendEscapedStringTo
        (s ++ (if decide (32 <= c <= 126) then [c]
               else [92; 120; hex_digit (c / 16); hex_digit (c mod 16)])) value
  end.

Definition EscapeString (value : bytes) : bytes := AppendEscapedStringTo [] value.

(** The loop of [ConsumeDecimalNumber]: the value and the bytes from [current]
    on, or the early return on an overflow. *)
Fixpoint consume_digits (current : bytes) (value : Z) : option (Z * bytes) :=
  match current with
  | [] => Some (value, [])
  | ch :: rest =>
      if decide (ch < 48 ∨ ch > 57) then Some (value, current)
      else if decide (value > kMaxUint64 / 10
                      ∨ value = kMaxUint64 / 10 ∧ ch > kLastDigitOfMaxUint64) then None
      else consume_digits rest (w64 (w64 (value * 10) + (ch - 48)))
  end.

Definition ConsumeDecimalNumber : parser Z := λ s,
  match consume_digits s 0 with
  | None => (Fail, s)
  | Some (value, rest) => if decide (length rest = length s) then (Fail, rest) else (Ret value, rest)
  end.

(** ** Names *)

(** ["%06llu"]. *)
Definition padded (n : Z) : bytes :=
  let d := decimal n in replicate (6 - length d) 48 ++ d.

Definition MakeFileName (dbname : bytes) (number replica_id : Z) (suffix : bytes) : bytes :=
  dbname ++ str "/" ++ padded number ++ str "-" ++ padded replica_id ++ str "." ++ suffix.

(** [LogFileName] of this file; the one of the replicated logs is in
    [NovaCommon]. *)
Definition LogFileName_db (dbname : bytes) (number : Z) : res bytes :=
  if decide (number > 0) then Ret (MakeFileName dbname number 0 (str "log")) else Abort.

Definition TableFileName (dbname : bytes) (number : Z) (internal_type : FileInternalType) (replica_id : Z) :
    res bytes :=
  if decide (number > 0) then
    Ret match internal_type with
        | kFileMetadata => MakeFileName dbname number replica_id (str "ldb-meta")
        | kFileParity => MakeFileName dbname number replica_id (str "ldb-parity")
        | kFileData => MakeFileName dbname number replica_id (str "ldb")
        end
  else Abort.

Definition DescriptorFileName (dbname : bytes) (number replica_id : Z) : bytes :=
  dbname ++ str "/MANIFEST-" ++ padded number ++ str "-" ++ padded replica_id.

Definition CurrentFileName (dbname : bytes) : bytes := dbname ++ str "/CURRENT".
Definition LockFileName (dbname : bytes) : bytes := dbname ++ str "/LOCK".
Definition TempFileName (dbname : bytes) (number : Z) : res bytes :=
  if decide (number > 0) then Ret (MakeFileName dbname number 0 (str "dbtmp")) else Abort.
Definition InfoLogFileName (dbname : bytes) : bytes := dbname ++ str "/LOG".
Definition OldInfoLogFileName (dbname : bytes) : bytes := dbname ++ str "/LOG.old".

Inductive FileType :=
| kLogFile | kDBLockFile | kTableFile | kDescriptorFile | kCurrentFile | kTempFile | kInfoLogFile.

(** ** Parsing *)

(** [ParseFileName] with the number: [filename] has no directory. *)
Definition ParseFileName (filename : bytes) : option (Z * FileType) :=
  if decide (filename = str "CURRENT") then Some (0, kCurrentFile)
  else if decide (filename = str "LOCK") then Some (0, kDBLockFile)
  else if decide (filename = str "LOG" ∨ filename = str "LOG.old") then Some (0, kInfoLogFile)
  else if decide (take (length (str "MANIFEST-")) filename = str "MANIFEST-") then
    match ConsumeDecimalNumber (drop (length (str "MANIFEST-")) filename) with
    | (Ret num, rest) =>
        match ConsumeDecimalNumber rest with
        | (Ret _, []) => Some (num, kDescriptorFile)
        | _ => None
        end
    | _ => None
    end
  else
    match ConsumeDecimalNumber filename with
    | (Ret num, rest) =>
        match ConsumeDecimalNumber rest with
        | (Ret _, suffix) =>
            if decide (suffix = str ".log") then Some (num, kLogFile)
            else if decide (suffix = str ".sst" ∨ suffix = str ".ldb" ∨ suffix = str ".ldb-parity"
                            ∨ suffix = str ".ldb-meta") then Some (num, kTableFile)
            else if decide (suffix = str ".dbtmp") then Some (num, kTempFile)
            else None
        | _ => None
        end
    | _ => None
    end.

(** [s.rfind(p) != npos]. *)
Fixpoint rfind (s p : bytes) : bool :=
  bool_decide (take (length p) s = p) || match s with [] => false | _ :: s' => rfind s' p end.

(** [ParseFileName] without the number: [filename] is a whole path. *)
Definition ParseFileName_type (filename : bytes) : option FileType :=
  if rfind filename (str "CURRENT") then Some kCurrentFile
  else if rfind filename (str "LOCK") then Some kDBLockFile
  else if rfind filename (str "LOG") then Some kInfoLogFile
  else if rfind filename (str "MANIFEST") then Some kDescriptorFile
  else if rfind filename (str "log") then Some kLogFile
  else if rfind filename (str "ldb") then Some kTableFile
  else if rfind filename (str "tmp") then Some kTempFile
  else None.

(** ** Reading numbers *)

Abbreviation digits_value := (foldl (λ acc c, acc * 10 + (c - 48))).

Definition no_digit_first (rest : bytes) : Prop :=
  match rest with [] => True | c :: _ => ¬ is_digit c end.

Lemma consume_digits_exact ds rest x :
  Forall is_digit ds → no_digit_first rest → is_u64 x →
  consume_digits (ds ++ rest) x =
    if decide (digits_value x ds < 2 ^ 64) then Some (digits_value x ds, rest) else None.
Proof.
  intros Hds Hrest. revert x. induction Hds as [|c ds Hc Hds IH]; intros x Hx.
  - cbn [app foldl]. rewrite decide_True by apply Hx. destruct rest as [|c rest]; [done|].
    cbn in *. rewrite decide_True; [done|]. unfold is_digit in Hrest. lia.
  - cbn [app foldl consume_digits]. unfold is_digit in Hc. rewrite decide_False by lia.
    pose proof (foldl_digits_mono (x * 10 + (c - 48)) ds Hds ltac:(mlia)) as Hm.
    change (kMaxUint64 / 10) with 1844674407370955161. change kLastDigitOfMaxUint64 with 53.
    case_decide as Ho.
    + rewrite decide_False; [done|]. mlia.
    + rewrite (w64_small (x * 10)), w64_small by mlia. apply IH. mlia.
Qed.

Lemma ConsumeDecimalNumber_exact ds rest :
  ds ≠ [] → Forall is_digit ds → no_digit_first rest →
  ConsumeDecimalNumber (ds ++ rest) =
    if decide (digits_value 0 ds < 2 ^ 64) then (Ret (digits_value 0 ds), rest)
    else (Fail, ds ++ rest).
Proof.
  intros Hn Hds Hrest. unfold ConsumeDecimalNumber. rewrite consume_digits_exact by (done || mlia).
  case_decide; [|done]. rewrite decide_False; [done|]. rewrite length_app.
  destruct ds; [done|]. cbn. lia.
Qed.

Lemma ConsumeDecimalNumber_no_digit rest : no_digit_first rest → ConsumeDecimalNumber rest = (Fail, rest).
Proof.
  intros Hr. unfold ConsumeDecimalNumber. destruct rest as [|c rest]; cbn [consume_digits]; [done|].
  unfold no_digit_first, is_digit in Hr. rewrite decide_True by lia. by rewrite decide_True.
Qed.

(** ** Numbers in names *)

Lemma digits_value_zeros n ds : digits_value 0 (replicate n 48 ++ ds) = digits_value 0 ds.
Proof. by induction n as [|n IH]. Qed.

Lemma padded_digits n : Forall is_digit (padded n).
Proof.
  apply Forall_app. split; [|apply decimal_digits]. apply Forall_replicate. unfold is_digit. lia.
Qed.

Lemma padded_value n : is_u64 n → digits_value 0 (padded n) = n.
Proof. intros. unfold padded. rewrite digits_value_zeros. by apply decimal_value. Qed.

Lemma padded_not_nil n : padded n ≠ [].
Proof.
  unfold padded. pose proof (decimal_length n) as Hl. destruct (decimal n); [cbn in Hl; lia|].
  by destruct (replicate _ _).
Qed.

Lemma padded_inj n m : is_u64 n → is_u64 m → padded n = padded m → n = m.
Proof. intros Hn Hm E. rewrite <- (padded_value n), <- (padded_value m), E by done. done. Qed.

(** Digits end where the first other byte is. *)
Lemma digits_split (a a' b b' : bytes) c c' :
  Forall is_digit a → Forall is_digit a' → ¬ is_digit c → ¬ is_digit c' →
  a ++ c :: b = a' ++ c' :: b' → a = a' ∧ c :: b = c' :: b'.
Proof.
  intros Ha Ha' Hc Hc'. revert a' Ha'. induction Ha as [|x a Hx Ha IH]; intros a' Ha' E.
  - destruct Ha' as [|y a' Hy _]; [done|]. cbn in E. by simplify_eq.
  - destruct Ha' as [|y a' Hy Ha']; cbn in E; [by simplify_eq|].
    injection E as -> E. by destruct (IH a' Ha' E) as [-> ?].
Qed.

(** A byte that does not occur behind a position marks it. *)
Lemma last_split (a a' b b' : bytes) c :
  c ∉ b → c ∉ b' → a ++ c :: b = a' ++ c :: b' → a = a' ∧ b = b'.
Proof.
  intros Hb Hb'. revert a'. induction a as [|x a IH]; intros a' E; destruct a' as [|y a']; cbn in E.
  - by simplify_eq.
  - exfalso. injection E as -> ->. apply Hb. elem.
  - exfalso. injection E as -> E. apply Hb'. rewrite <- E. elem.
  - injection E as -> E. by destruct (IH a' E) as [-> ->].
Qed.

Lemma digits_avoid c l : ¬ is_digit c → Forall is_digit l → c ∉ l.
Proof. intros Hc Hl Hin. rewrite Forall_forall in Hl. by apply Hc, Hl. Qed.

(** A file name determines all it was made from. *)
Lemma MakeFileName_inj db n r s db' n' r' s' :
  is_u64 n → is_u64 r → is_u64 n' → is_u64 r' → 47 ∉ s → 47 ∉ s' →
  MakeFileName db n r s = MakeFileName db' n' r' s' → db = db' ∧ n = n' ∧ r = r' ∧ s = s'.
Proof.
  intros Hn Hr Hn' Hr' Hs Hs' E. unfold MakeFileName in E.
  change (str "/") with [47] in E. change (str "-") with [45] in E. change (str ".") with [46] in E.
  cbn [app] in E.
  assert (Hno : ∀ m k t, 47 ∉ t → 47 ∉ padded m ++ 45 :: padded k ++ 46 :: t).
  { intros m k t Ht. rewrite elem_of_app, elem_of_cons, elem_of_app, elem_of_cons.
    pose proof (digits_avoid 47 (padded m) ltac:(unfold is_digit; lia) (padded_digits m)).
    pose proof (digits_avoid 47 (padded k) ltac:(unfold is_digit; lia) (padded_digits k)).
    intuition lia. }
  destruct (last_split _ _ _ _ _ (Hno n r s Hs) (Hno n' r' s' Hs') E) as [-> E1].
  apply digits_split in E1 as [E1 E2]; [|apply padded_digits..|unfold is_digit; lia|unfold is_digit; lia].
  injection E2 as E2. apply digits_split in E2 as [E2 E3];
    [|apply padded_digits..|unfold is_digit; lia|unfold is_digit; lia].
  injection E3 as ->. apply padded_inj in E1, E2; done.
Qed.

(** ** Search for a word *)

Lemma rfind_spec s p : rfind s p = true ↔ ∃ a b, s = a ++ p ++ b.
Proof.
  induction s as [|c s IH]; cbn [rfind]; rewrite orb_true_iff, bool_decide_eq_true.
  - split; [intros [Hp|]; [|done]|].
    + exists [], []. destruct p; done.
    + intros (a & b & E). left. destruct a, p; done.
  - rewrite IH. split.
    + intros [Hp|(a & b & ->)]; [|by exists (c :: a), b].
      exists [], (drop (length p) (c :: s)). cbn [app]. rewrite <- Hp at 1. by rewrite take_drop.
    + intros ([|x a] & b & E); cbn in E.
      * left. rewrite E. apply take_app_exact. done.
      * right. injection E as -> ->. by exists a, b.
Qed.

Lemma rfind_false s p : rfind s p = false ↔ ∀ a b, s ≠ a ++ p ++ b.
Proof.
  rewrite <- not_true_iff_false, rfind_spec. split; [intros H a b ->; apply H; by exists a, b|].
  intros H (a & b & E). by apply (H a b).
Qed.

(** A byte outside the word separates the text. *)
Lemma rfind_separator s c t p : c ∉ p → p ≠ [] → rfind (s ++ c :: t) p = rfind s p || rfind t p.
Proof.
  intros Hc Hp. apply eq_true_iff_eq. rewrite orb_true_iff, !rfind_spec. split.
  - intros (a & b & E). apply app_eq_inv in E as [(k & -> & E)|(k & -> & E)].
    + left. apply app_eq_inv in E as [(k' & -> & E)|(k' & -> & E)]; [|by exists a, k'].
      destruct k' as [|x k']; [exists a, []; by rewrite !app_nil_r|].
      exfalso. injection E as <- _. apply Hc. elem.
    + right. destruct k as [|x k]; cbn in E; [|injection E as <- ->; by exists k, b].
      destruct p as [|y p]; [done|]. exfalso. injection E as <- _. apply Hc. elem.
  - intros [(a & b & ->)|(a & b & ->)].
    + exists a, (b ++ c :: t). by rewrite <- !(assoc_L (++)).
    + exists (s ++ c :: a), b. by rewrite <- !(assoc_L (++)).
Qed.

Lemma rfind_nil p : p ≠ [] → rfind [] p = false.
Proof. by destruct p. Qed.

(** Separators between two texts, numbers among them, do not matter. *)
Lemma rfind_separators s m t p :
  p ≠ [] → m ≠ [] → Forall (λ c, c ∉ p) m → rfind (s ++ m ++ t) p = rfind s p || rfind t p.
Proof.
  intros Hp Hm Hs. destruct Hs as [|c m Hc Hs]; [done|]. clear Hm. cbn [app].
  rewrite rfind_separator by done. f_equal. induction Hs as [|d m Hd Hs IH]; [done|].
  cbn [app]. change (d :: m ++ t) with ([] ++ d :: (m ++ t)). rewrite rfind_separator by done.
  by rewrite rfind_nil.
Qed.

(** A word without digits and punctuation. *)
Definition word (p : bytes) : Prop := p ≠ [] ∧ Forall (λ c, 65 <= c) p.

Lemma word_avoids p m : word p → Forall (λ c, c < 65) m → Forall (λ c, c ∉ p) m.
Proof.
  intros [_ Hp] Hm. eapply Forall_impl; [exact Hm|]. intros c Hc Hin. rewrite Forall_forall in Hp.
  pose proof (Hp c Hin). cbn in *. lia.
Qed.

Lemma digits_below m : Forall is_digit m → Forall (λ c, c < 65) m.
Proof. intros Hm. eapply Forall_impl; [exact Hm|]. unfold is_digit. cbn. lia. Qed.

Lemma rfind_MakeFileName db n r s p : word p → rfind (MakeFileName db n r s) p = rfind db p || rfind s p.
Proof.
  intros Hp. unfold MakeFileName. rewrite <- (rfind_separators db (str "/" ++ padded n ++ str "-" ++ padded r ++ str ".")).
  - by rewrite <- !(assoc_L (++)).
  - apply Hp.
  - done.
  - apply word_avoids; [done|]. rewrite !Forall_app.
    repeat split; try apply digits_below, padded_digits; repeat constructor.
Qed.

Lemma rfind_plain_suffix db s p :
  word p → rfind (db ++ str "/" ++ s) p = rfind db p || rfind s p.
Proof.
  intros Hp. apply rfind_separators; [apply Hp|done|]. apply word_avoids; [done|].
  repeat constructor.
Qed.

Lemma rfind_DescriptorFileName db n r p :
  word p → rfind (DescriptorFileName db n r) p = rfind db p || rfind (str "MANIFEST") p.
Proof.
  intros Hp.
  assert (DescriptorFileName db n r =
    db ++ str "/" ++ str "MANIFEST" ++ (str "-" ++ padded n ++ str "-" ++ padded r) ++ []) as ->
    by (rewrite app_nil_r; done).
  rewrite rfind_plain_suffix by done. rewrite rfind_separators; [|apply Hp|done|].
  - rewrite (rfind_nil p) by apply Hp. by rewrite orb_false_r.
  - apply word_avoids; [done|]. rewrite !Forall_app.
    repeat split; try apply digits_below, padded_digits; repeat constructor.
Qed.

(** ** Properties *)

Definition keywords : list bytes :=
  [str "CURRENT"; str "LOCK"; str "LOG"; str "MANIFEST"; str "log"; str "ldb"; str "tmp"].

Lemma keywords_words : Forall word keywords.
Proof. repeat constructor; vm_compute; congruence. Qed.

(** A database name in which no keyword of the names occurs. *)
Definition plain_name (dbname : bytes) : Prop := Forall (λ p, rfind dbname p = false) keywords.

Lemma ParseFileName_type_words s db t :
  plain_name db → (∀ p, word p → rfind s p = rfind db p || rfind t p) →
  ParseFileName_type s = ParseFileName_type t.
Proof.
  intros Hd Hs. unfold ParseFileName_type. pose proof keywords_words as Hw. unfold plain_name in Hd.
  unfold keywords in Hd, Hw. rewrite !Forall_cons in Hd, Hw. destruct_and!.
  rewrite !Hs by done.
  repeat match goal with H : rfind db ?p = false |- _ => rewrite H; clear H end. done.
Qed.

(** Every name the store makes is classified as what it is, for a database
    whose name contains none of the keywords.  (One that does is taken for a
    file of that kind: a table of the database [catalog] is a log.) *)
Lemma file_names_classified db n r :
  plain_name db → n > 0 →
  (∃ s, LogFileName_db db n = Ret s ∧ ParseFileName_type s = Some kLogFile)
  ∧ (∀ t, ∃ s, TableFileName db n t r = Ret s ∧ ParseFileName_type s = Some kTableFile)
  ∧ (∃ s, TempFileName db n = Ret s ∧ ParseFileName_type s = Some kTempFile)
  ∧ ParseFileName_type (DescriptorFileName db n r) = Some kDescriptorFile
  ∧ ParseFileName_type (CurrentFileName db) = Some kCurrentFile
  ∧ ParseFileName_type (LockFileName db) = Some kDBLockFile
  ∧ ParseFileName_type (InfoLogFileName db) = Some kInfoLogFile
  ∧ ParseFileName_type (OldInfoLogFileName db) = Some kInfoLogFile
  ∧ TableFileName (str "catalog") n kFileData r = Ret (MakeFileName (str "catalog") n r (str "ldb"))
  ∧ ParseFileName_type (MakeFileName (str "catalog") n r (str "ldb")) = Some kLogFile.
Proof.
  intros Hd Hn. unfold LogFileName_db, TableFileName, TempFileName. rewrite !decide_True by done.
  assert (Hm : ∀ s, ParseFileName_type (MakeFileName db n r s) = ParseFileName_type s).
  { intros s. apply (ParseFileName_type_words _ db); [done|]. intros. by apply rfind_MakeFileName. }
  assert (Hm0 : ∀ s, ParseFileName_type (MakeFileName db n 0 s) = ParseFileName_type s).
  { intros s. apply (ParseFileName_type_words _ db); [done|]. intros. by apply rfind_MakeFileName. }
  assert (Hs : ∀ s, ParseFileName_type (db ++ str "/" ++ s) = ParseFileName_type s).
  { intros s. apply (ParseFileName_type_words _ db); [done|]. intros. by apply rfind_plain_suffix. }
  split_and!.
  - eexists. split; [done|]. by rewrite Hm0.
  - intros t. rewrite decide_True by done. destruct t; eexists; (split; [done|]); by rewrite Hm.
  - eexists. split; [done|]. by rewrite Hm0.
  - rewrite (ParseFileName_type_words _ db (str "MANIFEST")); [done|done|]. intros.
    by apply rfind_DescriptorFileName.
  - exact (Hs (str "CURRENT")).
  - exact (Hs (str "LOCK")).
  - exact (Hs (str "LOG")).
  - exact (Hs (str "LOG.old")).
  - done.
  - unfold ParseFileName_type.
    rewrite !rfind_MakeFileName by (repeat constructor; vm_compute; congruence). done.
Qed.

(** [ParseFileName] with a number rejects every numbered name the store makes:
    the writer separates number and replica by a dash, the reader expects the
    second number right after the first. *)
Lemma numbered_names_rejected n r s :
  is_u64 n → is_u64 r →
  ParseFileName (drop 1 (MakeFileName [] n r s)) = None
  ∧ ParseFileName (drop 1 (DescriptorFileName [] n r)) = None.
Proof.
  intros Hn Hr.
  assert (Hdash : ∀ rest, ConsumeDecimalNumber (padded n ++ str "-" ++ rest) = (Ret n, str "-" ++ rest)).
  { intros rest. rewrite ConsumeDecimalNumber_exact;
      [|apply padded_not_nil|apply padded_digits|cbn; unfold is_digit; lia].
    rewrite padded_value by done. by rewrite decide_True by apply Hn. }
  assert (Hstop : ∀ rest, ConsumeDecimalNumber (str "-" ++ rest) = (Fail, str "-" ++ rest)).
  { intros rest. apply ConsumeDecimalNumber_no_digit. cbn. unfold is_digit. lia. }
  split.
  - change (drop 1 (MakeFileName [] n r s)) with (padded n ++ str "-" ++ padded r ++ str "." ++ s).
    unfold ParseFileName. pose proof (padded_digits n) as Hd. pose proof (padded_not_nil n) as Hp.
    rewrite Hdash, Hstop. destruct Hd as [|c l Hc Hl]; [done|]. unfold is_digit in Hc.
    assert (Hne : ∀ t p, 65 <= byte_at p 0 → c :: t ≠ p) by (intros t p Hb E; rewrite <- E in Hb; cbn in Hb; lia).
    cbn [app]. do 2 (rewrite decide_False by by apply Hne).
    rewrite decide_False by (intros [E|E]; revert E; by apply Hne).
    by rewrite decide_False by by apply Hne.
  - change (drop 1 (DescriptorFileName [] n r)) with (str "MANIFEST-" ++ padded n ++ str "-" ++ padded r).
    unfold ParseFileName. rewrite take_app_length, drop_app_length, Hdash, Hstop. done.
Qed.

(** No two of the numbered files share a name, whatever their databases. *)
Lemma TableFileName_inj db n t r db' n' t' r' s :
  is_u64 n → is_u64 r → is_u64 n' → is_u64 r' →
  TableFileName db n t r = Ret s → TableFileName db' n' t' r' = Ret s →
  db = db' ∧ n = n' ∧ t = t' ∧ r = r'.
Proof.
  intros Hn Hr Hn' Hr' H H'. unfold TableFileName in *. do 2 (case_decide; [|done]).
  destruct t, t'; injection H as <-; injection H' as E;
    (apply MakeFileName_inj in E; [|done|done|done|done|vm_compute; set_solver..]); naive_solver.
Qed.

(** C40. [ConsumeDecimalNumber] reads the whole run of digits, of any length: the
    result is their exact value when it fits 64 bits, and a failure that leaves
    the input alone when it does not.  Numbers written by [AppendNumberTo] read
    back. *)
Theorem consume_decimal_exact ds rest :
  ds ≠ [] → Forall is_digit ds → no_digit_first rest →
  ConsumeDecimalNumber (ds ++ rest) =
    (if decide (foldl (λ acc c, acc * 10 + (c - 48)) 0 ds < 2 ^ 64)
     then (Ret (foldl (λ acc c, acc * 10 + (c - 48)) 0 ds), rest) else (Fail, ds ++ rest))
  ∧ ∀ n, is_u64 n → ConsumeDecimalNumber (NumberToString n ++ rest) = (Ret n, rest).
Proof.
  intros Hn Hds Hr. split; [by apply ConsumeDecimalNumber_exact|]. intros n Hu.
  unfold NumberToString, AppendNumberTo. cbn [app]. pose proof (decimal_length n) as Hl.
  rewrite ConsumeDecimalNumber_exact by (done || apply decimal_digits || (intros E; rewrite E in Hl; cbn in Hl; lia)).
  rewrite decimal_value by done. by rewrite decide_True by apply Hu.
Qed.

Lemma consume_decimal_exact_witness :
  ConsumeDecimalNumber (str "18446744073709551615.ldb") = (Ret (2 ^ 64 - 1), str ".ldb")
  ∧ ConsumeDecimalNumber (str "18446744073709551616.ldb") = (Fail, str "18446744073709551616.ldb").
Proof.
  split.
  - refine (eq_trans (proj1 (consume_decimal_exact (str "18446744073709551615") (str ".ldb") _ _ _)) _);
      [done|lit|unfold no_digit_first, is_digit; vm_compute; naive_solver|reflexivity].
  - refine (eq_trans (proj1 (consume_decimal_exact (str "18446744073709551616") (str ".ldb") _ _ _)) _);
      [done|lit|unfold no_digit_first, is_digit; vm_compute; naive_solver|reflexivity].
Defined.
