(* ===== verification/PersistentStoC.v ===== *)
(** * PersistentStoC: the files of a storage component

    [stoc/persistent_stoc_file.h] and [.cpp].  A StoC file has a memory buffer
    into which blocks are written, by a client over RDMA or by [memcpy], and a
    file on disk to which [Persist] appends the blocks that are completely
    written.  The manager keeps one StoC file per file name.  The sections
    between [mutex_.lock()] and [mutex_.unlock()] are separate definitions, of
    which the operations and the step relation of the threads are composed.

    The disk file is its contents: [file_->Append] appends, [file_->Read] cuts
    out a range.  The statistics counters are left out. *)

From S2P Require Import Prelude Coding Comparator NovaCommon FileMeta Filename Format.

(** [Slice(buf + offset, n)] of a buffer. *)
Definition slice (s : bytes) (offset n : Z) : bytes := take (Z.to_nat n) (drop (Z.to_nat offset) s).

(** [memcpy(buf + offset, data, data.size())] inside a buffer. *)
Definition mem_write (s : bytes) (offset : Z) (data : bytes) : bytes :=
  take (Z.to_nat offset) s ++ data ++ drop (Z.to_nat offset + length data) s.

Record AllocatedBuf := mkAllocatedBuf {
  ab_filename : bytes;
  ab_offset : Z;
  ab_size : Z;
  ab_written_to_mem : bool;
  ab_internal_type : FileInternalType
}.

Record StoCPersistStatus := mkPersistStatus { disk_handle : BlockHandle; persisted : bool }.

Record BatchWrite := mkBatchWrite {
  mem_handle : BlockHandle;
  bw_sstable : bytes;
  bw_internal_type : FileInternalType
}.

(** [backing_mem_] is the address and the contents of the buffer, [None] when
    it is null; [file_] is the contents of the disk file. *)
Record StoCPersistentFile := mkStoCFile {
  file_id_ : Z;
  stoc_file_name_ : bytes;
  file_ : option bytes;
  file_block_offset_ : gmap bytes StoCPersistStatus;
  file_meta_block_offset_ : gmap bytes StoCPersistStatus;
  file_parity_block_offset_ : gmap bytes StoCPersistStatus;
  allocated_bufs_ : list AllocatedBuf;
  is_full_ : bool;
  sealed_ : bool;
  backing_mem_ : option (Z * bytes);
  current_disk_offset_ : Z;
  current_mem_offset_ : Z;
  file_size_ : Z;
  allocated_mem_size_ : Z;
  persisting_cnt : Z;
  reading_cnt : Z;
  waiting_to_be_deleted : bool;
  deleted_ : bool;
  written_mem_blocks_ : list BatchWrite
}.

(** The constructor; [addr] and [mem] are the address and the contents of the
    buffer the memory manager returns, [content] what the file of that name
    holds, nothing when it is created. *)
Definition StoCPersistentFile_make (file_id : Z) (filename : bytes) (file_size addr : Z)
    (mem content : bytes) : StoCPersistentFile :=
  mkStoCFile file_id filename (Some content) ∅ ∅ ∅ [] false false (Some (addr, mem)) 0 0 0 file_size 0 0
    false false [].

(** ** Parts of the state *)

Definition offsets_of (f : StoCPersistentFile) (t : FileInternalType) : gmap bytes StoCPersistStatus :=
  match t with
  | kFileMetadata => file_meta_block_offset_ f
  | kFileParity => file_parity_block_offset_ f
  | kFileData => file_block_offset_ f
  end.

Definition with_offsets (f : StoCPersistentFile) (t : FileInternalType) (m : gmap bytes StoCPersistStatus) :
    StoCPersistentFile :=
  let '(d, i, p) := match t with
    | kFileData => (m, file_meta_block_offset_ f, file_parity_block_offset_ f)
    | kFileMetadata => (file_block_offset_ f, m, file_parity_block_offset_ f)
    | kFileParity => (file_block_offset_ f, file_meta_block_offset_ f, m)
    end in
  mkStoCFile (file_id_ f) (stoc_file_name_ f) (file_ f) d i p
    (allocated_bufs_ f) (is_full_ f) (sealed_ f) (backing_mem_ f)
    (current_disk_offset_ f) (current_mem_offset_ f) (file_size_ f) (allocated_mem_size_ f)
    (persisting_cnt f) (reading_cnt f) (waiting_to_be_deleted f) (deleted_ f) (written_mem_blocks_ f).

Definition with_bufs (f : StoCPersistentFile) (bufs : list AllocatedBuf) (mem_offset file_size : Z) :
    StoCPersistentFile :=
  mkStoCFile (file_id_ f) (stoc_file_name_ f) (file_ f)
    (file_block_offset_ f) (file_meta_block_offset_ f) (file_parity_block_offset_ f)
    bufs (is_full_ f) (sealed_ f) (backing_mem_ f)
    (current_disk_offset_ f) mem_offset file_size (allocated_mem_size_ f)
    (persisting_cnt f) (reading_cnt f) (waiting_to_be_deleted f) (deleted_ f) (written_mem_blocks_ f).

Definition with_sealed (f : StoCPersistentFile) (full sealed : bool) (mem : option (Z * bytes)) :
    StoCPersistentFile :=
  mkStoCFile (file_id_ f) (stoc_file_name_ f) (file_ f)
    (file_block_offset_ f) (file_meta_block_offset_ f) (file_parity_block_offset_ f)
    (allocated_bufs_ f) full sealed mem
    (current_disk_offset_ f) (current_mem_offset_ f) (file_size_ f) (allocated_mem_size_ f)
    (persisting_cnt f) (reading_cnt f) (waiting_to_be_deleted f) (deleted_ f) (written_mem_blocks_ f).

Definition with_writes (f : StoCPersistentFile) (disk_offset cnt : Z) (writes : list BatchWrite) :
    StoCPersistentFile :=
  mkStoCFile (file_id_ f) (stoc_file_name_ f) (file_ f)
    (file_block_offset_ f) (file_meta_block_offset_ f) (file_parity_block_offset_ f)
    (allocated_bufs_ f) (is_full_ f) (sealed_ f) (backing_mem_ f)
    disk_offset (current_mem_offset_ f) (file_size_ f) (allocated_mem_size_ f)
    cnt (reading_cnt f) (waiting_to_be_deleted f) (deleted_ f) writes.

Definition with_file (f : StoCPersistentFile) (file : option bytes) (waiting deleted : bool) (readers : Z) :
    StoCPersistentFile :=
  mkStoCFile (file_id_ f) (stoc_file_name_ f) file
    (file_block_offset_ f) (file_meta_block_offset_ f) (file_parity_block_offset_ f)
    (allocated_bufs_ f) (is_full_ f) (sealed_ f) (backing_mem_ f)
    (current_disk_offset_ f) (current_mem_offset_ f) (file_size_ f) (allocated_mem_size_ f)
    (persisting_cnt f) readers waiting deleted (written_mem_blocks_ f).

(** ** Sealing *)

(** [Seal]: releases the buffer of a full file once everything is on disk. *)
Definition Seal (f : StoCPersistentFile) : res StoCPersistentFile :=
  if decide (allocated_bufs_ f = [] ∧ is_full_ f = true ∧ persisting_cnt f = 0 ∧ sealed_ f = false) then
    if decide (current_disk_offset_ f = file_size_ f) then
      match backing_mem_ f with
      | Some _ => Ret (with_sealed f (is_full_ f) true None)
      | None => Abort
      end
    else Abort
  else Ret f.

Definition ForceSeal (f : StoCPersistentFile) : res StoCPersistentFile :=
  if decide (allocated_bufs_ f = [] ∧ persisting_cnt f = 0) then
    Seal (with_sealed f true (sealed_ f) (backing_mem_ f))
  else Abort.

Definition Close (f : StoCPersistentFile) : res StoCPersistentFile :=
  f ← ForceSeal f;
  match file_ f with
  | Some _ => Ret (with_file f None (waiting_to_be_deleted f) (deleted_ f) (reading_cnt f))
  | None => Abort
  end.

(** ** Writing into the buffer *)

(** [AllocateBuf]: the address of the space, or [UINT64_MAX]. *)
Definition AllocateBuf (f : StoCPersistentFile) (filename : bytes) (size : Z)
    (internal_type : FileInternalType) : res (StoCPersistentFile * Z) :=
  if decide (current_mem_offset_ f + size <= allocated_mem_size_ f) then
    match ParseFileName_type filename with
    | None => Abort
    | Some type =>
        if is_full_ f then
          f ← Seal f;
          Ret (f, 2 ^ 64 - 1)
        else if sealed_ f then Abort
        else
          let off := w32 (current_mem_offset_ f) in
          let present := bool_decide (is_Some (offsets_of f internal_type !! filename)) in
          let checked := match internal_type with
            | kFileMetadata | kFileParity => true
            | kFileData => match type with kTableFile => true | _ => false end
            end in
          if checked && present then Abort
          else
            match backing_mem_ f with
            | None => Abort
            | Some (addr, _) =>
                Ret (with_bufs f (allocated_bufs_ f ++ [mkAllocatedBuf filename off size false internal_type])
                       (w64 (current_mem_offset_ f + size)) (w32 (file_size_ f + size)),
                     w64 (addr + off))
            end
    end
  else Abort.

(** The write into the allocated space, by [memcpy] or by an RDMA WRITE. *)
Definition write_buf (f : StoCPersistentFile) (address : Z) (data : bytes) : res StoCPersistentFile :=
  match backing_mem_ f with
  | Some (addr, mem) =>
      let off := w64 (address - addr) in
      if decide (off + size_of data <= size_of mem) then
        Ret (with_sealed f (is_full_ f) (sealed_ f) (Some (addr, mem_write mem off data)))
      else Abort
  | None => Abort
  end.

(** The search from the end in [MarkOffsetAsWritten], on the reversed list. *)
Fixpoint mark_first (bufs : list AllocatedBuf) (offset : Z) : option (list AllocatedBuf) :=
  match bufs with
  | [] => None
  | b :: bufs =>
      if decide (ab_offset b = offset) then
        Some (mkAllocatedBuf (ab_filename b) (ab_offset b) (ab_size b) true (ab_internal_type b) :: bufs)
      else l ← mark_first bufs offset; Some (b :: l)
  end.

Definition MarkOffsetAsWritten (f : StoCPersistentFile) (given_file_id_for_assertion offset : Z) :
    res (StoCPersistentFile * bool) :=
  if decide (given_file_id_for_assertion = file_id_ f) then
    let relative_off := w64 (offset - match backing_mem_ f with Some (addr, _) => addr | None => 0 end) in
    match mark_first (rev (allocated_bufs_ f)) relative_off with
    | Some l => Ret (with_bufs f (rev l) (current_mem_offset_ f) (file_size_ f), true)
    | None => Ret (f, false)
    end
  else Abort.

(** ** Persisting *)

(** The loop over [allocated_bufs_]: a buffer that is not written stays, a
    written one gets the next range of the disk file and joins the writes. *)
Fixpoint collect_loop (bufs kept : list AllocatedBuf) (f : StoCPersistentFile) : res StoCPersistentFile :=
  match bufs with
  | [] => Ret (with_bufs f kept (current_mem_offset_ f) (file_size_ f))
  | b :: bufs =>
      if ab_written_to_mem b then
        match ParseFileName_type (ab_filename b) with
        | None => Abort
        | Some type =>
            let m := offsets_of f (ab_internal_type b) in
            let checked := match ab_internal_type b with
              | kFileMetadata | kFileParity => true
              | kFileData => match type with kTableFile => true | _ => false end
              end in
            if checked && bool_decide (is_Some (m !! ab_filename b)) then Abort
            else
              let f := with_offsets f (ab_internal_type b)
                (<[ab_filename b :=
                     mkPersistStatus (mkBlockHandle (current_disk_offset_ f) (ab_size b)) false]> m) in
              collect_loop bufs kept
                (with_writes f (w64 (current_disk_offset_ f + ab_size b)) (w32 (persisting_cnt f + 1))
                   (written_mem_blocks_ f
                    ++ [mkBatchWrite (mkBlockHandle (ab_offset b) (ab_size b)) (ab_filename b)
                          (ab_internal_type b)]))
        end
      else collect_loop bufs (kept ++ [b]) f
  end.

(** The first section of [Persist]; the result tells whether it goes on. *)
Definition persist_collect (f : StoCPersistentFile) : res (StoCPersistentFile * bool) :=
  if decide (allocated_bufs_ f = []) then
    f ← Seal f;
    Ret (f, false)
  else
    f ← collect_loop (allocated_bufs_ f) [] f;
    if decide (current_disk_offset_ f <= file_size_ f) then Ret (f, true) else Abort.

(** The section that copies [written_mem_blocks_]. *)
Definition persist_copy (f : StoCPersistentFile) : res (StoCPersistentFile * list BatchWrite) :=
  let writes := written_mem_blocks_ f in
  if decide (writes = []) then
    f ← Seal f;
    Ret (f, writes)
  else Ret (f, writes).

(** [file_->Append(Slice(backing_mem_ + offset, size))]. *)
Definition append_range (f : StoCPersistentFile) (offset size : Z) : res StoCPersistentFile :=
  match backing_mem_ f, file_ f with
  | Some (_, mem), Some content =>
      if decide (offset + size <= size_of mem) then
        Ret (with_file f (Some (content ++ slice mem offset size)) (waiting_to_be_deleted f) (deleted_ f)
               (reading_cnt f))
      else Abort
  | _, _ => Abort
  end.

(** The section that marks the writes of an appended range. *)
Fixpoint mark_persisted (writes : list BatchWrite) (f : StoCPersistentFile) : res StoCPersistentFile :=
  match writes with
  | [] => Ret f
  | w :: writes =>
      let m := offsets_of f (bw_internal_type w) in
      match m !! bw_sstable w with
      | None => Abort
      | Some s =>
          let f := with_offsets f (bw_internal_type w)
            (<[bw_sstable w := mkPersistStatus (disk_handle s) true]> m) in
          mark_persisted writes
            (with_writes f (current_disk_offset_ f) (w32 (persisting_cnt f - 1)) (written_mem_blocks_ f))
      end
  end.

(** The loop over the writes: adjacent ranges of the buffer are appended
    together.  [group] is [writes[persisted_i .. i)], which covers [size] bytes
    from [offset]. *)
Fixpoint persist_ranges (writes group : list BatchWrite) (offset size persisted_bytes : Z)
    (f : StoCPersistentFile) : res (StoCPersistentFile * Z) :=
  match writes with
  | [] =>
      f ← append_range f offset size;
      f ← mark_persisted group f;
      Ret (f, w64 (persisted_bytes + size))
  | w :: writes =>
      if decide (w64 (offset + size) = bh_offset (mem_handle w)) then
        persist_ranges writes (group ++ [w]) offset (w64 (size + bh_size (mem_handle w))) persisted_bytes f
      else
        f ← append_range f offset size;
        f ← mark_persisted group f;
        persist_ranges writes [w] (bh_offset (mem_handle w)) (bh_size (mem_handle w))
          (w64 (persisted_bytes + size)) f
  end.

(** The last section of [Persist]. *)
Definition persist_finish (f : StoCPersistentFile) (n : nat) : res StoCPersistentFile :=
  Seal (with_writes f (current_disk_offset_ f) (persisting_cnt f) (drop n (written_mem_blocks_ f))).

Definition Persist (f : StoCPersistentFile) (given_file_id_for_assertion : Z) : res (StoCPersistentFile * Z) :=
  if decide (given_file_id_for_assertion = file_id_ f) then
    '(f, go_on) ← persist_collect f;
    if (go_on : bool) then
      '(f, writes) ← persist_copy f;
      match writes with
      | [] => Ret (f, 0)
      | w :: rest =>
          '(f, persisted_bytes) ←
            persist_ranges rest [w] (bh_offset (mem_handle w)) (bh_size (mem_handle w)) 0 f;
          f ← persist_finish f (length writes);
          Ret (f, persisted_bytes)
      end
    else Ret (f, 0)
  else Abort.

(** [Handle]: [None] while the loop of the source waits for the block. *)
Definition Handle (f : StoCPersistentFile) (filename : bytes) (internal_type : FileInternalType) :
    res (option BlockHandle) :=
  match offsets_of f internal_type !! filename with
  | None => Abort
  | Some s => Ret (if persisted s then Some (disk_handle s) else None)
  end.

(** ** Reading and deleting *)

Definition StoC_Read (f : StoCPersistentFile) (offset size : Z) : res bytes :=
  match file_ f with Some content => Ret (slice content offset size) | None => Abort end.

(** [file_->Close()], [delete file_] and [env_->DeleteFile]. *)
Definition remove_file (f : StoCPersistentFile) : res StoCPersistentFile :=
  match file_ f with
  | Some _ => Ret (with_file f None (waiting_to_be_deleted f) (deleted_ f) (reading_cnt f))
  | None => Abort
  end.

(** [ReadForReplication]: the section before the read, the read, and the
    section after it, in which the last reader of a deleted file removes it.
    [Fail] is [NotFound]. *)
Definition replication_begin (f : StoCPersistentFile) : res StoCPersistentFile :=
  if deleted_ f then Fail
  else Ret (with_file f (file_ f) (waiting_to_be_deleted f) (deleted_ f) (w32 (reading_cnt f + 1))).

Definition replication_end (f : StoCPersistentFile) : res (StoCPersistentFile * bool) :=
  let f := with_file f (file_ f) (waiting_to_be_deleted f) (deleted_ f) (w32 (reading_cnt f - 1)) in
  f ← (if decide (reading_cnt f = 0 ∧ waiting_to_be_deleted f = true ∧ deleted_ f = false) then
         remove_file (with_file f (file_ f) false true (reading_cnt f))
       else Ret f);
  Ret (f, negb (deleted_ f)).

(** The [NOVA_ASSERT(it->second.persisted)] and [erase] of one of the maps. *)
Definition erase_offset (f : StoCPersistentFile) (t : FileInternalType) (filename : bytes) :
    res StoCPersistentFile :=
  match offsets_of f t !! filename with
  | None => Ret f
  | Some s => if persisted s then Ret (with_offsets f t (delete filename (offsets_of f t))) else Abort
  end.

Definition StoCFile_DeleteSSTable (f : StoCPersistentFile) (given_fileid_for_assertion : Z)
    (filename : bytes) : res (StoCPersistentFile * bool) :=
  if decide (given_fileid_for_assertion = file_id_ f) then
    f ← Seal f;
    f ← erase_offset f kFileData filename;
    f ← erase_offset f kFileMetadata filename;
    f ← erase_offset f kFileParity filename;
    if decide (file_block_offset_ f = ∅ ∧ file_meta_block_offset_ f = ∅ ∧ file_parity_block_offset_ f = ∅
               ∧ is_full_ f = true ∧ allocated_bufs_ f = [] ∧ persisting_cnt f = 0 ∧ sealed_ f = true) then
      if decide (reading_cnt f = 0 ∧ deleted_ f = false) then
        if decide (current_disk_offset_ f = file_size_ f) then
          f ← remove_file (with_file f (file_ f) true true (reading_cnt f));
          Ret (f, true)
        else Abort
      else Ret (with_file f (file_ f) true (deleted_ f) (reading_cnt f), false)
    else Ret (f, false)
  else Abort.

(** ** The manager

    [stoc_files_] maps ids to the files, [fn_stoc_file_map_] names to the ids
    of the same files.  [block_cache_] is null and never set. *)

Record StocPersistentFileManager := mkManager {
  stoc_file_size_ : Z;
  manifest_file_size : Z;
  current_manifest_file_stoc_file_id_ : Z;
  current_stoc_file_id_ : Z;
  stoc_files_ : gmap Z StoCPersistentFile;
  fn_stoc_file_map_ : gmap bytes Z
}.

Definition MAX_MANIFEST_FILE_ID : Z := 10000.

Definition Manager_init (stoc_file_size manifest_size : Z) : StocPersistentFileManager :=
  mkManager stoc_file_size manifest_size 1 (MAX_MANIFEST_FILE_ID + 1) ∅ ∅.

Definition with_files (m : StocPersistentFileManager) (files : gmap Z StoCPersistentFile) :
    StocPersistentFileManager :=
  mkManager (stoc_file_size_ m) (manifest_file_size m) (current_manifest_file_stoc_file_id_ m)
    (current_stoc_file_id_ m) files (fn_stoc_file_map_ m).

Definition FindStoCFile (m : StocPersistentFileManager) (stoc_file_id : Z) : res StoCPersistentFile :=
  match stoc_files_ m !! stoc_file_id with
  | Some f => if decide (file_id_ f = stoc_file_id) then Ret f else Abort
  | None => Abort
  end.

(** The memory manager: address and contents of a buffer for a new file. *)
Section memory.
Variable alloc : Z → Z * bytes.

Definition OpenStoCFile (m : StocPersistentFileManager) (filename : bytes) :
    res (StocPersistentFileManager * Z) :=
  match fn_stoc_file_map_ m !! filename with
  | Some id => Ret (m, id)
  | None =>
      match ParseFileName_type filename with
      | None => Abort
      | Some type =>
          let manifest := match type with kDescriptorFile => true | _ => false end in
          let id := if manifest then current_manifest_file_stoc_file_id_ m else current_stoc_file_id_ m in
          let manifest_id := if manifest then w32 (current_manifest_file_stoc_file_id_ m + 1)
                             else current_manifest_file_stoc_file_id_ m in
          let stoc_id := if manifest then current_stoc_file_id_ m else w32 (current_stoc_file_id_ m + 1) in
          let file_size := if manifest then manifest_file_size m else stoc_file_size_ m in
          if manifest && bool_decide (manifest_id > MAX_MANIFEST_FILE_ID) then Abort
          else if decide (is_Some (stoc_files_ m !! id)) then Abort
          else
            let '(addr, mem) := alloc file_size in
            Ret (mkManager (stoc_file_size_ m) (manifest_file_size m) manifest_id stoc_id
                   (<[id := StoCPersistentFile_make id filename file_size addr mem []]> (stoc_files_ m))
                   (<[filename := id]> (fn_stoc_file_map_ m)), id)
      end
  end.

(** [OpenStoCFiles]: the files named in a recovered mapping, sealed; [content]
    is what they hold on disk. *)
Fixpoint open_each (m : StocPersistentFileManager) (content : bytes → bytes) (fn_files : list (bytes * Z)) :
    res StocPersistentFileManager :=
  match fn_files with
  | [] => Ret m
  | (fn, fileid) :: fn_files =>
      let '(addr, mem) := alloc (stoc_file_size_ m) in
      f ← ForceSeal (StoCPersistentFile_make fileid fn (stoc_file_size_ m) addr mem (content fn));
      if decide (is_Some (stoc_files_ m !! fileid)) then Abort
      else
        open_each
          (mkManager (stoc_file_size_ m) (manifest_file_size m) (current_manifest_file_stoc_file_id_ m)
             (Z.max (current_stoc_file_id_ m) fileid) (<[fileid := f]> (stoc_files_ m))
             (<[fn := fileid]> (fn_stoc_file_map_ m))) content fn_files
  end.

Definition OpenStoCFiles (m : StocPersistentFileManager) (content : bytes → bytes)
    (fn_files : list (bytes * Z)) : res StocPersistentFileManager :=
  m ← open_each m content fn_files;
  Ret (mkManager (stoc_file_size_ m) (manifest_file_size m) (current_manifest_file_stoc_file_id_ m)
         (w32 (current_stoc_file_id_ m + 1)) (stoc_files_ m) (fn_stoc_file_map_ m)).

Definition Manager_DeleteSSTable (m : StocPersistentFileManager) (filename : bytes) :
    res StocPersistentFileManager :=
  match fn_stoc_file_map_ m !! filename with
  | None => Ret m
  | Some id =>
      match stoc_files_ m !! id with
      | None => Abort
      | Some f =>
          '(f, _) ← StoCFile_DeleteSSTable f (file_id_ f) filename;
          Ret (mkManager (stoc_file_size_ m) (manifest_file_size m) (current_manifest_file_stoc_file_id_ m)
                 (current_stoc_file_id_ m) (<[id := f]> (stoc_files_ m))
                 (delete filename (fn_stoc_file_map_ m)))
      end
  end.

Definition ReadDataBlock (m : StocPersistentFileManager) (stoc_file_id offset size : Z) : res bytes :=
  f ← FindStoCFile m stoc_file_id;
  match ParseFileName_type (stoc_file_name_ f) with
  | None => Abort
  | Some type =>
      result ← StoC_Read f offset size;
      match type with
      | kTableFile =>
          if decide (size_of result = size ∧ sealed_ f = true) then Ret result else Abort
      | _ => Ret result
      end
  end.

(** ** Requests of the local server

    [StoCBlockClient::InitiateAppendBlock], [InitiateReadDataBlock] and
    [InitiateDeleteTables] of [ltc/stoc_client_impl.cpp] when the storage
    component is this server.  A write reports the handle of the stored block. *)

(** The operations on the file, from the allocation to the bytes persisted. *)
Definition store_block (f : StoCPersistentFile) (filename data : bytes) (internal_type : FileInternalType) :
    res (StoCPersistentFile * Z) :=
  '(f, off) ← AllocateBuf f filename (size_of data) internal_type;
  if decide (off = 2 ^ 64 - 1) then Abort
  else
    f ← write_buf f off data;
    '(f, found) ← MarkOffsetAsWritten f (file_id_ f) off;
    if (found : bool) then Persist f (file_id_ f) else Abort.

(** [append_local] looks at the handle once: its block is persisted, so the loop
    of [Handle] ends at once. *)
Definition append_local (my_server_id : Z) (m : StocPersistentFileManager) (dbname : bytes)
    (file_number replica_id : Z) (data : bytes) (internal_type : FileInternalType) :
    res (StocPersistentFileManager * StoCBlockHandle) :=
  filename ← (if decide (file_number = 0) then Ret (DescriptorFileName dbname 0 replica_id)
              else TableFileName dbname file_number internal_type replica_id);
  '(m, id) ← OpenStoCFile m filename;
  f ← FindStoCFile m id;
  '(f, persisted_bytes) ← store_block f filename data internal_type;
  if decide (persisted_bytes = size_of data) then
    h ← Handle f filename internal_type;
    match h with
    | None => Abort
    | Some h =>
        let rh := mkHandle my_server_id (file_id_ f) (bh_offset h) (w32 (bh_size h)) in
        f ← (if decide (file_number ≠ 0) then
               if decide (bh_offset h = 0 ∧ bh_size h = size_of data) then ForceSeal f else Abort
             else Ret f);
        Ret (with_files m (<[id := f]> (stoc_files_ m)), rh)
    end
  else Abort.

Definition read_local (m : StocPersistentFileManager) (block_handle : StoCBlockHandle)
    (offset size : Z) (filename : bytes) : res (StocPersistentFileManager * bytes) :=
  '(m, id) ← (if decide (filename = []) then Ret (m, bh_stoc_file_id block_handle)
              else OpenStoCFile m filename);
  output ← ReadDataBlock m id offset size;
  Ret (m, output).

Fixpoint delete_local (m : StocPersistentFileManager) (stoc_file_ids : list (bytes * Z)) :
    res StocPersistentFileManager :=
  match stoc_file_ids with
  | [] => Ret m
  | (sstable_name, id) :: rest =>
      f ← FindStoCFile m id;
      '(f, _) ← StoCFile_DeleteSSTable f id sstable_name;
      let m := with_files m (<[id := f]> (stoc_files_ m)) in
      match ParseFileName_type sstable_name with
      | None => Abort
      | Some kTableFile =>
          m ← Manager_DeleteSSTable m (sstable_name ++ str "-meta");
          delete_local m rest
      | Some _ => delete_local m rest
      end
  end.

End memory.

(** ** Ranges of a buffer *)

Lemma slice_all (s : bytes) : slice s 0 (size_of s) = s.
Proof. unfold slice. rewrite Nat2Z.id. cbn. by rewrite drop_0, firstn_all. Qed.

Lemma slice_app_l (s t : bytes) o n : 0 <= o → 0 <= n → o + n <= size_of s → slice (s ++ t) o n = slice s o n.
Proof.
  intros. unfold slice. rewrite drop_app_le by lia. rewrite take_app_le; [done|]. rewrite length_drop. lia.
Qed.

Lemma slice_app_r (s t : bytes) o n : size_of s <= o → 0 <= n → slice (s ++ t) o n = slice t (o - size_of s) n.
Proof.
  intros. unfold slice. rewrite drop_app_ge by lia. f_equal. f_equal. lia.
Qed.

Lemma slice_length (s : bytes) o n : 0 <= o → 0 <= n → o + n <= size_of s → size_of (slice s o n) = n.
Proof. intros. unfold slice. rewrite length_take, length_drop. lia. Qed.

Lemma slice_slice (s : bytes) o n o' n' :
  0 <= o → 0 <= o' → 0 <= n' → o' + n' <= n → slice (slice s o n) o' n' = slice s (o + o') n'.
Proof.
  intros. unfold slice. rewrite skipn_firstn_comm, take_take, drop_drop. f_equal; [lia|]. f_equal. lia.
Qed.

Lemma length_mem_write (s data : bytes) o :
  0 <= o → o + size_of data <= size_of s → length (mem_write s o data) = length s.
Proof. intros. unfold mem_write. rewrite !length_app, length_take, length_drop. lia. Qed.

Lemma slice_mem_write (s data : bytes) o :
  0 <= o → o + size_of data <= size_of s → slice (mem_write s o data) o (size_of data) = data.
Proof.
  intros. unfold mem_write. rewrite slice_app_r by (rewrite ?length_take; lia).
  rewrite length_take. replace (o - _) with 0 by lia. rewrite slice_app_l by lia. apply slice_all.
Qed.

(** A write leaves the ranges before and after it alone. *)
Lemma slice_mem_write_other (s data : bytes) o o' n :
  0 <= o → o + size_of data <= size_of s → 0 <= o' → 0 <= n → o' + n <= size_of s →
  o' + n <= o ∨ o + size_of data <= o' → slice (mem_write s o data) o' n = slice s o' n.
Proof.
  intros ?????. unfold mem_write. rewrite <- (take_drop (Z.to_nat o) s) at 3.
  rewrite <- (take_drop (length data) (drop (Z.to_nat o) s)), drop_drop.
  assert (Hl : size_of (take (Z.to_nat o) s) = o) by (rewrite length_take; lia).
  assert (Hd : size_of (take (length data) (drop (Z.to_nat o) s)) = size_of data)
    by (rewrite length_take, length_drop; lia).
  intros [Hb|Ha].
  - by rewrite !slice_app_l by lia.
  - rewrite !(slice_app_r (take (Z.to_nat o) s)) by lia. rewrite !slice_app_r by lia. by rewrite Hd.
Qed.

(** ** Storing a block of a table

    The state of a StoC file that was created for one block of a table, has it
    on disk and is sealed. *)

Definition stored_file (id : Z) (fn : bytes) (t : FileInternalType) (cap : Z) (data : bytes) :
    StoCPersistentFile :=
  let m := {[ fn := mkPersistStatus (mkBlockHandle 0 (size_of data)) true ]} in
  mkStoCFile id fn (Some data)
    (match t with kFileData => m | _ => ∅ end) (match t with kFileMetadata => m | _ => ∅ end)
    (match t with kFileParity => m | _ => ∅ end)
    [] true true None (size_of data) (size_of data) (size_of data) cap 0 0 false false [].

(** Brings the state of a file into record form. *)
Ltac stoc_cbn := cbv beta iota zeta delta [file_id_ stoc_file_name_ file_ file_block_offset_ file_meta_block_offset_
  file_parity_block_offset_ allocated_bufs_ is_full_ sealed_ backing_mem_ current_disk_offset_
  current_mem_offset_ file_size_ allocated_mem_size_ persisting_cnt reading_cnt waiting_to_be_deleted
  deleted_ written_mem_blocks_ with_offsets with_bufs with_sealed with_writes with_file
  StoCPersistentFile_make offsets_of mbind res_bind option_bind app rev
  ab_filename ab_offset ab_size ab_written_to_mem ab_internal_type
  mem_handle bw_sstable bw_internal_type bh_offset bh_size disk_handle persisted].

(** One execution of the operations on a fresh file, for a given internal type. *)
Ltac store_run Ht :=
  rewrite bool_decide_eq_false_2 by (rewrite lookup_empty; by intros [? ?]);
  change (true && false) with false; stoc_cbn; change (w32 0) with 0;
  rewrite (w64_small (_ + 0)), (w64_small (0 + _)), (w32_small (0 + _)) by mlia;
  rewrite !Z.add_0_r, !Z.add_0_l; rewrite decide_False by mlia;
  unfold write_buf, MarkOffsetAsWritten; stoc_cbn; rewrite Z.sub_diag; change (w64 0) with 0;
  rewrite decide_True by lia; rewrite decide_True by done; rewrite Z.sub_diag; change (w64 0) with 0;
  cbn [mark_first]; stoc_cbn; rewrite decide_True by done; stoc_cbn;
  unfold Persist; stoc_cbn; rewrite decide_True by done; unfold persist_collect; stoc_cbn;
  rewrite decide_False by done; cbn [collect_loop]; stoc_cbn; rewrite Ht; stoc_cbn;
  rewrite bool_decide_eq_false_2 by (rewrite lookup_empty; by intros [? ?]);
  change (true && false) with false; stoc_cbn; rewrite !Z.add_0_l; rewrite (w64_small (size_of _)) by mlia;
  rewrite decide_True by lia; unfold persist_copy; stoc_cbn; rewrite decide_False by done; stoc_cbn;
  cbn [persist_ranges]; unfold append_range; stoc_cbn;
  rewrite decide_True by (rewrite length_mem_write; lia); stoc_cbn;
  cbn [mark_persisted]; stoc_cbn; rewrite lookup_insert_eq; stoc_cbn; rewrite insert_insert_eq;
  rewrite (w64_small (0 + _)) by mlia; unfold persist_finish, Seal; stoc_cbn;
  rewrite decide_False by naive_solver; cbn [length drop];
  eexists; split; [reflexivity|]; split; [reflexivity|]; unfold Handle, ForceSeal; stoc_cbn;
  rewrite lookup_insert_eq; split; [reflexivity|];
  rewrite decide_True by done; unfold Seal; stoc_cbn; rewrite !decide_True by done;
  rewrite slice_mem_write by lia; reflexivity.

Lemma store_block_fresh id fn t cap addr mem data :
  ParseFileName_type fn = Some kTableFile → 0 <= addr → addr + size_of mem < 2 ^ 64 - 1 →
  size_of data <= cap → cap <= size_of mem → cap < 2 ^ 32 →
  ∃ f, store_block (StoCPersistentFile_make id fn cap addr mem []) fn data t = Ret (f, size_of data)
    ∧ file_id_ f = id
    ∧ Handle f fn t = Ret (Some (mkBlockHandle 0 (size_of data)))
    ∧ ForceSeal f = Ret (stored_file id fn t cap data).
Proof.
  intros Ht Ha Hm Hd Hc Hs. unfold store_block, AllocateBuf. stoc_cbn.
  rewrite decide_True by lia. rewrite Ht. destruct t; stoc_cbn; store_run Ht.
Qed.

(** ** The manager keeps files apart *)

(** Ids are below the counters, manifests and other files apart, and a name
    leads to the file of that name. *)
Record mgr_ok (m : StocPersistentFileManager) : Prop := {
  mo_ids : ∀ id f, stoc_files_ m !! id = Some f → file_id_ f = id
    ∧ (0 < id < current_manifest_file_stoc_file_id_ m
       ∨ MAX_MANIFEST_FILE_ID < id < current_stoc_file_id_ m);
  mo_names : ∀ fn id, fn_stoc_file_map_ m !! fn = Some id →
    ∃ f, stoc_files_ m !! id = Some f ∧ stoc_file_name_ f = fn;
  mo_manifest : 0 < current_manifest_file_stoc_file_id_ m <= MAX_MANIFEST_FILE_ID;
  mo_current : MAX_MANIFEST_FILE_ID < current_stoc_file_id_ m < 2 ^ 32
}.

Lemma Manager_init_ok s t : mgr_ok (Manager_init s t).
Proof. split; unfold Manager_init, MAX_MANIFEST_FILE_ID; cbn; try lia; intros ?? H; by rewrite lookup_empty in H. Qed.

Section storage.
Variable alloc : Z → Z * bytes.
(** What the memory manager promises for a buffer. *)
Hypothesis alloc_ok : ∀ n, 0 <= n < 2 ^ 32 →
  n <= size_of (alloc n).2 ∧ 0 <= (alloc n).1 ∧ (alloc n).1 + size_of (alloc n).2 < 2 ^ 64 - 1.

(** A table file that is opened for the first time gets the next id. *)
Lemma OpenStoCFile_fresh m fn :
  mgr_ok m → fn_stoc_file_map_ m !! fn = None → ParseFileName_type fn = Some kTableFile →
  OpenStoCFile alloc m fn =
    Ret (mkManager (stoc_file_size_ m) (manifest_file_size m) (current_manifest_file_stoc_file_id_ m)
           (w32 (current_stoc_file_id_ m + 1))
           (<[current_stoc_file_id_ m :=
                StoCPersistentFile_make (current_stoc_file_id_ m) fn (stoc_file_size_ m)
                  (alloc (stoc_file_size_ m)).1 (alloc (stoc_file_size_ m)).2 []]> (stoc_files_ m))
           (<[fn := current_stoc_file_id_ m]> (fn_stoc_file_map_ m)), current_stoc_file_id_ m).
Proof.
  intros Hm Hf Ht. unfold OpenStoCFile. rewrite Hf, Ht. cbn [andb].
  rewrite decide_False.
  - by destruct (alloc (stoc_file_size_ m)).
  - intros [f Hl]. apply (mo_ids _ Hm) in Hl as [_ Hr]. pose proof (mo_manifest _ Hm). pose proof (mo_current _ Hm). lia.
Qed.

(** The manager after a block of a new table file was stored. *)
Definition stored_manager (m : StocPersistentFileManager) (fn : bytes) (t : FileInternalType) (data : bytes) :
    StocPersistentFileManager :=
  let id := current_stoc_file_id_ m in
  mkManager (stoc_file_size_ m) (manifest_file_size m) (current_manifest_file_stoc_file_id_ m) (id + 1)
    (<[id := stored_file id fn t (stoc_file_size_ m) data]> (stoc_files_ m))
    (<[fn := id]> (fn_stoc_file_map_ m)).

Lemma append_local_stored me m db n r data t fn :
  mgr_ok m → n ≠ 0 → TableFileName db n t r = Ret fn → ParseFileName_type fn = Some kTableFile →
  fn_stoc_file_map_ m !! fn = None → size_of data <= stoc_file_size_ m < 2 ^ 32 →
  current_stoc_file_id_ m + 1 < 2 ^ 32 →
  append_local alloc me m db n r data t =
    Ret (stored_manager m fn t data, mkHandle me (current_stoc_file_id_ m) 0 (size_of data)).
Proof.
  intros Hm Hn Hfn Ht Hfree Hsz Hid. unfold append_local. rewrite decide_False by done. rewrite Hfn.
  cbn [mbind res_bind]. rewrite OpenStoCFile_fresh by done. cbn [mbind res_bind].
  unfold FindStoCFile. cbn [stoc_files_]. rewrite lookup_insert_eq. rewrite decide_True by done.
  cbn [mbind res_bind].
  destruct (alloc_ok (stoc_file_size_ m)) as (Ha1 & Ha2 & Ha3); [lia|].
  destruct (store_block_fresh (current_stoc_file_id_ m) fn t (stoc_file_size_ m)
    (alloc (stoc_file_size_ m)).1 (alloc (stoc_file_size_ m)).2 data) as (f & Hs & Hi & Hh & Hseal); [done|lia..|].
  rewrite Hs. cbn [mbind res_bind]. rewrite decide_True by done. rewrite Hh. cbn [mbind res_bind bh_offset bh_size].
  rewrite decide_True by done. rewrite decide_True by done. rewrite Hseal. cbn [mbind res_bind].
  rewrite Hi, (w32_small (size_of data)) by mlia. unfold with_files, stored_manager. cbn. rewrite insert_insert_eq.
  pose proof (mo_current _ Hm). unfold MAX_MANIFEST_FILE_ID in *. by rewrite w32_small by mlia.
Qed.

Lemma stored_manager_ok m fn t data :
  mgr_ok m → current_stoc_file_id_ m + 1 < 2 ^ 32 → mgr_ok (stored_manager m fn t data).
Proof.
  intros [Hids Hnames Hman Hcur] Hid. split; cbn; [| |done|unfold MAX_MANIFEST_FILE_ID in *; lia].
  - intros id f [[<- <-]|[Hne Hl]]%lookup_insert_Some; [cbn; unfold MAX_MANIFEST_FILE_ID in *; lia|].
    destruct (Hids id f Hl). lia.
  - intros fn' id [[<- <-]|[Hne Hl]]%lookup_insert_Some.
    + eexists. split; [apply lookup_insert_eq|done].
    + destruct (Hnames fn' id Hl) as (f & Hf & Hn). exists f. split; [|done].
      rewrite lookup_insert_ne; [done|]. intros <-. apply Hids in Hf as [_ ?]. lia.
Qed.

(** Reading back what was stored, and everything that could be read before. *)
Lemma ReadDataBlock_stored m fn t data o n :
  ParseFileName_type fn = Some kTableFile → 0 <= o → 0 <= n → o + n <= size_of data →
  ReadDataBlock (stored_manager m fn t data) (current_stoc_file_id_ m) o n = Ret (slice data o n).
Proof.
  intros Ht Ho Hn Hs. unfold ReadDataBlock, FindStoCFile. cbn [stored_manager stoc_files_].
  rewrite lookup_insert_eq. rewrite decide_True by done. cbn [mbind res_bind stored_file stoc_file_name_].
  rewrite Ht. unfold StoC_Read; cbn [stored_file file_ mbind res_bind sealed_].
  rewrite decide_True; [done|]. split; [by apply slice_length|done].
Qed.

Lemma ReadDataBlock_other m fn t data id o n :
  mgr_ok m → is_Some (stoc_files_ m !! id) →
  ReadDataBlock (stored_manager m fn t data) id o n = ReadDataBlock m id o n.
Proof.
  intros Hm [f Hf]. unfold ReadDataBlock, FindStoCFile. cbn [stored_manager stoc_files_].
  rewrite lookup_insert_ne; [done|]. intros <-. apply (mo_ids _ Hm) in Hf as [_ Hr].
  pose proof (mo_manifest _ Hm). pose proof (mo_current _ Hm). lia.
Qed.

End storage.
