(* ===== verification/Table.v ===== *)
(** * Table: reading a table

    [table/table.cc]: reading and checking a block, opening a table, point
    lookups, and the offset estimate.  A table is read through
    [StoCRandomAccessFileClient::Read], a parameter here that [StoCFile]
    instantiates: blocks of the metadata file have StoC file id 0, data blocks
    are on storage components.  The block cache is the function of its lookups;
    an insertion is reported in the result. *)

From S2P Require Import Prelude Coding Comparator Cursor NovaCommon DbFormat UserScan Merger TwoLevel Subrange FileMeta Block Bloom FilterBlock Crc32c Format TableBuilder.

(** The iterator of a block of any contents, as an [Iterator]; key and value of
    an invalid one fail an assertion. *)
Definition block_ops (cmp : Comparator) (contents : bytes) : IterOps AnyIter :=
  let ops := contents_ops cmp contents in
  mkIterOps
    (λ it, match it with EntryIterator it => op_Valid ops it | _ => false end)
    (λ it, match it with EntryIterator it => op_key ops it | _ => Abort end)
    (λ it, match it with EntryIterator it => op_value ops it | _ => Abort end)
    (λ it m, match it with
             | EntryIterator it => it ← op_move ops it m; Ret (EntryIterator it)
             | ErrorIterator => match m with Next | Prev => Abort | _ => Ret ErrorIterator end
             | EmptyIterator => match m with Next | Prev => Abort | _ => Ret EmptyIterator end
             end).

(** [status().ok()] of such an iterator. *)
Definition iter_ok (it : AnyIter) : bool :=
  match it with
  | ErrorIterator => false
  | EmptyIterator => true
  | EntryIterator it => negb (status_corrupt it)
  end.

(** The iterator of a block together with the block it reads. *)
Definition block_iter (cmp : Comparator) : Iter (bytes * AnyIter) :=
  mkIter
    (mkIterOps
       (λ s, op_Valid (block_ops cmp s.1) s.2)
       (λ s, op_key (block_ops cmp s.1) s.2)
       (λ s, op_value (block_ops cmp s.1) s.2)
       (λ s m, it ← op_move (block_ops cmp s.1) s.2 m; Ret (s.1, it)))
    (λ s target,
       match s.2 with
       | EntryIterator it =>
           it ← BlockIter_SkipToNextUserKey cmp s.1 (restart_offset_ (Block_make s.1)) (NumRestarts_of s.1) it target;
           Ret (s.1, EntryIterator it)
       | _ => Ret s
       end)
    (λ s, iter_ok s.2).

Section table.
(** [port::AcceleratedCRC32C] and [port::Snappy_Uncompress] with the length
    prefix of [port::Snappy_GetUncompressedLength]. *)
Variable AcceleratedCRC32C : Z → bytes → Z.
Variable Snappy_Uncompress : bytes → option bytes.

(** ** Blocks *)

(** [ReadBlock(buf, contents, options, handle, result)], [n] the size of the
    handle; the address of the data does not matter to the checksum. *)
Definition ReadBlock_contents (verify_checksums : bool) (contents : bytes) (n : nat) : res bytes :=
  let crc := Unmask (DecodeFixed32_ptr (drop (n + 1) contents)) in
  let actual := Value AcceleratedCRC32C 0 (take (n + 1) contents) in
  if verify_checksums && bool_decide (actual ≠ crc) then Fail
  else
    match contents !! n with
    | None => Abort
    | Some type =>
        if decide (type = compression_byte kNoCompression) then Ret (take n contents)
        else if decide (type = compression_byte kSnappyCompression) then
          match Snappy_Uncompress (take n contents) with Some ubuf => Ret ubuf | None => Fail end
        else Fail
    end.

(** [StoCRandomAccessFileClient::Read]. *)
Variable file_Read : StoCBlockHandle → Z → Z → res bytes.

Definition ReadBlock (verify_checksums : bool) (h : StoCBlockHandle) : res bytes :=
  let n := FileMeta.bh_size h in
  contents ← file_Read h (FileMeta.bh_offset h) (n + Z.of_nat kBlockTrailerSize);
  if decide (size_of contents ≠ n + Z.of_nat kBlockTrailerSize) then Fail
  else ReadBlock_contents verify_checksums contents (Z.to_nat n).

(** ** Opening a table *)

Record Table := mkTable {
  t_index_block : bytes;
  t_metaindex_handle : BlockHandle;
  t_filter : option FilterBlockReader;
  t_replicas : list FileReplicaMetaData;
  t_relative_offset : gmap Z Z;
  t_cache_id : Z
}.

Variable options : TableOptions.
Variable paranoid_checks : bool.

(** A block of the metadata file. *)
Definition local_handle (h : BlockHandle) : StoCBlockHandle := mkHandle 0 0 (bh_offset h) (w32 (bh_size h)).

(** [NOVA_ASSERT(... .ok())]. *)
Definition must_ok {A} (r : res A) : res A := match r with Fail => Abort | r => r end.

Definition ReadFilter (filter_handle_value : bytes) : res FilterBlockReader :=
  filter_handle ← must_ok (BlockHandle_DecodeFrom filter_handle_value).1;
  block ← must_ok (ReadBlock paranoid_checks (local_handle filter_handle));
  FilterBlockReader_make block.

Definition ReadMeta (footer : Footer) : res (option FilterBlockReader) :=
  match opt_filter options with
  | None => Ret None
  | Some (_, name) =>
      meta ← must_ok (ReadBlock paranoid_checks (local_handle (metaindex_handle footer)));
      let ops := block_ops BytewiseComparator meta in
      let key := filter_key_prefix ++ name in
      iter ← op_move ops (Block_NewIterator (Block_make meta)) (Seek key);
      if op_Valid ops iter then
        k ← op_key ops iter;
        if decide (k = key) then
          v ← op_value ops iter;
          f ← ReadFilter v;
          Ret (Some f)
        else Abort
      else Abort
  end.

(** The id of a StoC file across servers. *)
Definition stoc_key (h : StoCBlockHandle) : Z := Z.lor (bh_server_id h ≪ 32) (bh_stoc_file_id h).

(** Where each data fragment starts in the table. *)
Fixpoint relative_offsets (handles : list StoCBlockHandle) (offset : Z) (m : gmap Z Z) : res (gmap Z Z) :=
  match handles with
  | [] => Ret m
  | h :: handles =>
      if decide (is_Some (m !! stoc_key h)) then Abort
      else relative_offsets handles (w64 (offset + FileMeta.bh_size h)) (<[stoc_key h := offset]> m)
  end.

Definition Table_Open (verify_checksums : bool) (replicas : list FileReplicaMetaData) (replica_id : nat)
    (cache_id size : Z) : res Table :=
  if decide (size < Z.of_nat kFooterLength) then Fail
  else
    let off := size - Z.of_nat kFooterLength in
    footer_input ← must_ok (file_Read (mkHandle 0 0 off (Z.of_nat kFooterLength)) off (Z.of_nat kFooterLength));
    if decide (length footer_input ≠ kFooterLength) then Abort
    else
      '(footer, _) ← Footer_DecodeFrom footer_input;
      index_block ← ReadBlock verify_checksums (local_handle (index_handle footer));
      filter ← ReadMeta footer;
      match replicas !! replica_id with
      | None => Abort
      | Some r =>
          m ← relative_offsets (data_block_group_handles r) 0 ∅;
          Ret (mkTable index_block (metaindex_handle footer) filter replicas m cache_id)
      end.

(** ** Lookups *)

Definition TranslateToDataBlockOffset (t : Table) (h : StoCBlockHandle) : res Z :=
  if decide (size (t_relative_offset t) = 1%nat) then Ret (FileMeta.bh_offset h)
  else
    match t_relative_offset t !! stoc_key h with
    | None => Abort
    | Some off => Ret (w64 (off + FileMeta.bh_offset h))
    end.

(** The lookups of [options.block_cache], [None] without a cache. *)
Variable block_cache : option (bytes → option bytes).
Variable fill_cache : bool.

(** The handle of an index entry; a table of one replica with one fragment
    takes server and StoC file from its metadata. *)
Definition data_handle (t : Table) (index_value : bytes) : StoCBlockHandle :=
  let h := DecodeHandle_ptr index_value in
  match t_replicas t with
  | [r] =>
      match data_block_group_handles r with
      | [g] => mkHandle (bh_server_id g) (bh_stoc_file_id g) (FileMeta.bh_offset h) (FileMeta.bh_size h)
      | _ => h
      end
  | _ => h
  end.

Definition cache_key (t : Table) (h : StoCBlockHandle) : bytes :=
  EncodeFixed64 (t_cache_id t) ++ EncodeHandle h.

(** [DataBlockReader]: the contents of the block and what is inserted into the
    cache.  Contents are cachable when [Read] filled the buffer it was given,
    which the StoC client does. *)
Definition DataBlockReader (verify_checksums : bool) (t : Table) (index_value : bytes) :
    res (bytes * option (bytes * bytes)) :=
  let h := data_handle t index_value in
  match block_cache with
  | Some lookup =>
      let key := cache_key t h in
      match lookup key with
      | Some block => Ret (block, None)
      | None =>
          contents ← must_ok (ReadBlock verify_checksums h);
          Ret (contents, if fill_cache then Some (key, contents) else None)
      end
  | None =>
      contents ← must_ok (ReadBlock verify_checksums h);
      Ret (contents, None)
  end.

(** [InternalGet]: the key and the value passed to [handle_result], if any;
    [Fail] is a status that is not ok. *)
Definition InternalGet (verify_checksums : bool) (t : Table) (k : bytes) : res (option (bytes * bytes)) :=
  let iops := block_ops (opt_comparator options) (t_index_block t) in
  iiter ← op_move iops (Block_NewIterator (Block_make (t_index_block t))) (Seek k);
  found ← (
    if op_Valid iops iiter then
      handle_value ← op_value iops iiter;
      match t_filter t, opt_filter options with
      | Some filter, Some (policy, _) =>
          handle ← must_ok (DecodeHandle handle_value).1;
          data_block_offset ← TranslateToDataBlockOffset t handle;
          may_match ← FilterBlockReader_KeyMayMatch policy filter data_block_offset k;
          if (may_match : bool) then
            '(block, _) ← DataBlockReader verify_checksums t handle_value;
            let ops := block_ops (opt_comparator options) block in
            block_iter ← op_move ops (Block_NewIterator (Block_make block)) (Seek k);
            r ← (if op_Valid ops block_iter then
                   key ← op_key ops block_iter;
                   value ← op_value ops block_iter;
                   Ret (Some (key, value))
                 else Ret None);
            if iter_ok block_iter then Ret r else Fail
          else Ret None
      | _, _ => Abort
      end
    else Ret None);
  if iter_ok iiter then Ret found else Fail.

(** [NewIterator]: the index block with [DataBlockReader] as block function. *)
Definition data_block (verify_checksums : bool) (t : Table) (index_value : bytes) (_ : bool) : res (bytes * AnyIter) :=
  '(block, _) ← DataBlockReader verify_checksums t index_value;
  Ret (block, Block_NewIterator (Block_make block)).

Definition Table_NewIterator (t : Table) : res (TwoLevelIterator (bytes * AnyIter) (bytes * AnyIter)) :=
  TwoLevel_init (block_iter (opt_comparator options)) (t_index_block t, Block_NewIterator (Block_make (t_index_block t))).

Definition table_iter (verify_checksums : bool) (rounds : nat) (t : Table) :
    Iter (TwoLevelIterator (bytes * AnyIter) (bytes * AnyIter)) :=
  TwoLevel_ops (block_iter (opt_comparator options)) (block_iter (opt_comparator options))
    (data_block verify_checksums t) false rounds.

(** [ApproximateOffsetOf]. *)
Definition ApproximateOffsetOf (t : Table) (key : bytes) : res Z :=
  let iops := block_ops (opt_comparator options) (t_index_block t) in
  index_iter ← op_move iops (Block_NewIterator (Block_make (t_index_block t))) (Seek key);
  if op_Valid iops index_iter then
    input ← op_value iops index_iter;
    match (BlockHandle_DecodeFrom input).1 with
    | Ret handle => Ret (bh_offset handle)
    | Fail => Ret (bh_offset (t_metaindex_handle t))
    | Abort => Abort
    end
  else Ret (bh_offset (t_metaindex_handle t)).

End table.

(** ** Seeking in a block *)

Lemma block_seek cmp {OC : ComparatorOrder cmp} c kvs k :
  block_of cmp c kvs →
  ∃ it, op_move (block_ops cmp c) (Block_NewIterator (Block_make c)) (Seek k) = Ret it
    ∧ iter_ok it = true
    ∧ op_Valid (block_ops cmp c) it = bool_decide (lower_bound cmp kvs k < length kvs)%nat
    ∧ ∀ key v, kvs !! lower_bound cmp kvs k = Some (key, v) →
        op_key (block_ops cmp c) it = Ret key ∧ op_value (block_ops cmp c) it = Ret v.
Proof.
  intros Hb. destruct (block_of_iterator cmp c kvs Hb) as (it & R & -> & HC & HR & Hok).
  destruct (cur_move cmp kvs it _ (Seek k) _ HR eq_refl) as (it' & E & HR').
  exists (EntryIterator it'). cbn [block_ops op_move op_Valid op_key op_value]. rewrite E. cbn [mbind res_bind].
  split; [done|]. split; [cbn; by rewrite (Hok _ _ HR')|]. split; [by apply (cur_valid cmp kvs)|].
  intros key v Hl. by apply (cur_entry cmp kvs it' _ key v HR').
Qed.

(** *** Walking through a block *)

(** The iterator of the block [c] of the entries [kvs] is at position [p]. *)
Definition block_at (cmp : Comparator) (c : bytes) (kvs : list kv) (s : bytes * AnyIter) (p : nat) : Prop :=
  s.1 = c ∧ ∃ ss ridx it, c = block kvs ss ridx ∧ well_laid kvs ss ridx ∧ size_of c < 2 ^ 32
    ∧ s.2 = EntryIterator it ∧ position kvs ss ridx it p.

Section block_scan.
Context (cmp : Comparator) {OC : ComparatorOrder cmp} (c : bytes) (kvs : list kv).
Hypothesis Hb : block_of cmp c kvs.

Lemma block_sorted : StronglySorted (λ a b, Compare a.1 b.1 < 0) kvs.
Proof using Hb. by destruct Hb as (_ & _ & _ & _ & _ & ?). Qed.

Lemma block_at_ops ss ridx :
  c = block kvs ss ridx → well_laid kvs ss ridx → size_of c < 2 ^ 32 →
  contents_ops cmp c = BlockIter_ops cmp (block kvs ss ridx) (limit kvs ss) (size_of ridx)
  ∧ restart_offset_ (Block_make c) = limit kvs ss ∧ NumRestarts_of c = size_of ridx.
Proof.
  intros -> WL Hs. unfold contents_ops. by rewrite Block_make_block, NumRestarts_block.
Qed.

Lemma block_Cursor : Cursor cmp kvs (iter_ops (block_iter cmp)) (block_at cmp c kvs).
Proof using All.
  pose proof block_sorted as Hsort. split.
  - intros [c' it'] i (_ & ss & ridx & it & _ & _ & _ & _ & [[? _]|[-> _]]); lia.
  - intros [c' it'] i ([= ->] & ss & ridx & it & Ec & WL & Hs & [= ->] & Hp). cbn [iter_ops block_iter op_Valid fst snd block_ops].
    destruct (block_at_ops ss ridx Ec WL Hs) as [-> _]. by apply (Valid_position kvs ss ridx).
  - intros [c' it'] i k v ([= ->] & ss & ridx & it & Ec & WL & Hs & [= ->] & Hp) Hkv. cbn [iter_ops block_iter op_key op_value fst snd block_ops].
    destruct (block_at_ops ss ridx Ec WL Hs) as [-> _]. rewrite Ec in Hs. by apply (key_position kvs ss ridx WL it i).
  - intros [c' it'] i m j ([= ->] & ss & ridx & it & Ec & WL & Hs & [= ->] & Hp) Hm. cbn [iter_ops block_iter op_move fst snd block_ops].
    destruct (block_at_ops ss ridx Ec WL Hs) as [-> _].
    assert (size_of (block kvs ss ridx) < 2 ^ 32) as Hs' by (by rewrite <- Ec).
    pose proof (block_cursor kvs ss ridx cmp WL Hs' Hsort) as HC. destruct (cur_move _ _ it i m j Hp Hm) as (it1 & E & Hp').
    rewrite E. cbn [mbind res_bind]. eexists. split; [done|]. split; [done|]. by exists ss, ridx, it1.
Qed.

Lemma block_fresh : block_at cmp c kvs (c, Block_NewIterator (Block_make c)) (length kvs).
Proof using Hb OC.
  destruct Hb as (ss & ridx & Ec & WL & [Hle Hsmall] & Hsort). split; [done|].
  exists ss, ridx, (BlockIter_init (limit kvs ss) (size_of ridx)). split_and!; [done|done|lia| |by right].
  assert (size_of (block kvs ss ridx) < 2 ^ 32) as Hs by (rewrite <- Ec; lia). cbn [snd]. rewrite Ec.
  pose proof (length_block kvs ss ridx). pose proof (lookup_lt_Some _ _ _ (wl_first _ _ _ WL)).
  pose proof (limit_small kvs ss ridx Hs). rewrite Block_make_block by done. unfold Block_NewIterator.
  cbn [block_size block_data restart_offset_]. rewrite NumRestarts_block by done. by rewrite !decide_False by lia.
Qed.

(** *** Skipping a user key *)

Lemma block_skip s p t :
  NumericKeys cmp → block_at cmp c kvs s p →
  ∃ s' q it, op_SkipToNextUserKey (block_iter cmp) s t = Ret s' ∧ block_at cmp c kvs s' q ∧ s.2 = EntryIterator it
    ∧ q = (if iter_seeked_ it then p `max` upto kvs (user_int t) else upto kvs (user_int t))%nat.
Proof using All.
  intros HN. destruct s as [c' it']. intros ([= ->] & ss & ridx & it & Ec & WL & Hs & [= ->] & Hp).
  cbn [op_SkipToNextUserKey block_iter fst snd]. destruct (block_at_ops ss ridx Ec WL Hs) as (_ & -> & ->).
  assert (size_of (block kvs ss ridx) < 2 ^ 32) as Hs' by (by rewrite <- Ec).
  destruct (SkipToNextUserKey_position kvs ss ridx cmp WL Hs' block_sorted it p t HN Hp) as (it1 & q & E & Hp' & Hq).
  rewrite <- Ec in E. rewrite E. cbn [mbind res_bind]. eexists _, q, it. split; [done|]. split; [|done]. split; [done|].
  by exists ss, ridx, it1.
Qed.

#[local] Instance block_SkipIndexLaw : NumericKeys cmp → SkipIndexLaw (block_iter cmp) (block_at cmp c kvs) kvs.
Proof using All.
  intros HN s p t Hp _. destruct (block_skip s p t HN Hp) as (s' & q & it & E & Hp' & _ & ->).
  exists s'. eexists. split; [done|]. split; [done|]. destruct (iter_seeked_ it); lia.
Qed.

Lemma block_SkipLaw : NumericKeys cmp → SkipLaw (block_iter cmp) (block_at cmp c kvs) kvs.
Proof using All.
  intros HN s p t Hp Hr. destruct (block_skip s p t HN Hp) as (s' & q & it & E & Hp' & _ & ->).
  exists s'. split; [done|]. replace (upto kvs (user_int t)) with (if iter_seeked_ it then p `max` upto kvs (user_int t) else upto kvs (user_int t))%nat; [done|].
  destruct (iter_seeked_ it); lia.
Qed.

Lemma block_fresh_skip t :
  NumericKeys cmp →
  ∃ s', op_SkipToNextUserKey (block_iter cmp) (c, Block_NewIterator (Block_make c)) t = Ret s'
    ∧ block_at cmp c kvs s' (upto kvs (user_int t)).
Proof using All.
  intros HN. destruct (block_skip _ _ t HN block_fresh) as (s' & q & it & E & Hp & Hit & ->).
  exists s'. split; [done|]. cbn [snd] in Hit. unfold Block_NewIterator in Hit. by repeat case_decide; simplify_eq.
Qed.
End block_scan.

(** A block of one entry has no order to respect. *)
Lemma block_of_single cmp cmp' c e : block_of cmp c [e] → block_of cmp' c [e].
Proof. intros (ss & ridx & E & Hw & Hs & _). exists ss, ridx. split_and!; [done|done|lia|lia|]. repeat constructor. Qed.

Lemma lower_bound_app_ge cmp l1 l2 k :
  (∀ e, e ∈ l1 → cmp.(Compare) e.1 k < 0) →
  lower_bound cmp (l1 ++ l2) k = (length l1 + lower_bound cmp l2 k)%nat.
Proof.
  induction l1 as [|[a v] l1 IH]; intros H; cbn; [done|]. rewrite decide_True by (apply (H (a, v)); elem).
  rewrite IH; [done|]. intros e He. apply H. elem.
Qed.

Lemma lower_bound_app_lt cmp l1 l2 k :
  (lower_bound cmp l1 k < length l1)%nat → lower_bound cmp (l1 ++ l2) k = lower_bound cmp l1 k.
Proof.
  induction l1 as [|[a v] l1 IH]; cbn; [lia|]. case_decide; [|done]. intros Hl. rewrite IH by lia. done.
Qed.

Lemma lower_bound_all cmp l k e :
  lower_bound cmp l k = length l → e ∈ l → cmp.(Compare) e.1 k < 0.
Proof.
  intros Hl [i Hi]%list_elem_of_lookup. destruct e as [a v]. eapply lower_bound_before; [|exact Hi].
  rewrite Hl. by eapply lookup_lt_Some.
Qed.

(** ** Lookups in an opened table *)

Section lookup.
Context (cmp : Comparator) {SC : Separating cmp} (policy : FilterPolicy) (name : bytes).
Context (same : bytes → bytes → Prop) {SG : SeparatesGroups cmp same}.
Context (AcceleratedCRC32C : Z → bytes → Z) (Snappy_Uncompress : bytes → option bytes).
Context (file_Read : StoCBlockHandle → Z → Z → res bytes) (options : TableOptions).
Context (cache : option (bytes → option bytes)) (fill_cache verify : bool).
Hypothesis opt_cmp : opt_comparator options = cmp.
Hypothesis opt_pol : opt_filter options = Some (policy, name).

(** An opened table of the blocks [bls] with contents [cs]: block [i] has the
    index key [seps[i]] and the handle [hs[i]], and starts at [offs[i]] for the
    filter. *)
Record table_opened (t : Table) (bls : list (list kv)) (cs seps : list bytes) (hs : list StoCBlockHandle)
    (offs : list Z) : Prop := {
  to_blocks : Forall2 (block_of cmp) cs bls;
  to_nonempty : Forall (λ bl, bl ≠ []) bls;
  to_sorted : StronglySorted (λ a b : kv, Compare a.1 b.1 < 0) (concat bls);
  to_seps : seps_ok cmp bls seps;
  to_tight : seps_tight cmp bls seps;
  to_lengths : length seps = length bls ∧ length hs = length bls ∧ length offs = length bls;
  to_offsets : NoDup offs;
  to_index : block_of cmp (t_index_block t) (zip seps (EncodeHandle <$> hs));
  to_handles : Forall (λ h, DecodeHandle (EncodeHandle h) = (Ret h, [])) hs;
  to_translate : ∀ i h o, hs !! i = Some h → offs !! i = Some o → TranslateToDataBlockOffset t h = Ret o;
  to_read : ∀ i h c, hs !! i = Some h → cs !! i = Some c →
    ∃ ins, DataBlockReader AcceleratedCRC32C Snappy_Uncompress file_Read cache fill_cache verify t (EncodeHandle h)
      = Ret (c, ins);
  to_filter : ∃ fr, t_filter t = Some fr
    ∧ (∀ o k, o ∈ offs → ∃ m, FilterBlockReader_KeyMayMatch policy fr o k = Ret m)
    ∧ (∀ i o bl e k, offs !! i = Some o → bls !! i = Some bl → e ∈ bl →
         (∀ f, KeyMayMatch k f = KeyMayMatch e.1 f) → FilterBlockReader_KeyMayMatch policy fr o k = Ret true)
}.

(** The index leads to the first block whose index key is not before [k]: the
    entries of the blocks before it are before [k]. *)
Lemma index_seek bls seps (vs : list bytes) k :
  seps_ok cmp bls seps → length seps = length bls → length vs = length bls →
  let i := lower_bound cmp (zip seps vs) k in
  (∀ e, e ∈ concat (take i bls) → Compare e.1 k < 0)
  ∧ (∀ sep, seps !! i = Some sep → Compare k sep <= 0).
Proof.
  intros Hs Hl Hv i. split.
  - intros e (bl & He & [j Hj]%list_elem_of_lookup)%elem_of_concat.
    apply lookup_take_Some in Hj as [Hj Hlt].
    destruct (lookup_lt_is_Some_2 seps j) as [sep Hsep]; [apply lookup_lt_Some in Hj; lia|].
    destruct (lookup_lt_is_Some_2 vs j) as [v Hvj]; [apply lookup_lt_Some in Hj; lia|].
    destruct (Hs j sep j bl e Hsep Hj He) as [Hle _].
    eapply cmp_le_lt_trans; [by apply Hle|].
    eapply (lower_bound_before cmp (zip seps vs) k j sep v Hlt).
    rewrite lookup_zip_with, Hsep, Hvj. done.
  - intros sep Hsep. destruct (lookup_lt_is_Some_2 vs i) as [v Hvi]; [apply lookup_lt_Some in Hsep; lia|].
    pose proof (lower_bound_at cmp (zip seps vs) k sep v) as Hn. fold i in Hn.
    rewrite lookup_zip_with, Hsep, Hvi in Hn. specialize (Hn eq_refl).
    pose proof (cmp_antisym k sep). pose proof (cmp_antisym sep k). lia.
Qed.

(** Blocks around block [i]. *)
Lemma concat_around (bls : list (list kv)) i bl :
  bls !! i = Some bl → concat bls = concat (take i bls) ++ bl ++ concat (drop (S i) bls).
Proof. intros Hi. rewrite <- (take_drop_middle bls i bl Hi) at 1. by rewrite concat_app. Qed.

(** No entry behind block [i] is in the group of a key that the index sends to
    block [i] and that is after its last entry. *)
Lemma group_in_block bls seps i sep bl k e :
  seps_ok cmp bls seps → seps_tight cmp bls seps → Forall (λ bl, bl ≠ []) bls →
  StronglySorted (λ a b : kv, Compare a.1 b.1 < 0) (concat bls) →
  seps !! i = Some sep → bls !! i = Some bl → Compare k sep <= 0 → (∀ x, x ∈ bl → Compare x.1 k < 0) →
  e ∈ concat (drop (S i) bls) → ¬ same k e.1.
Proof.
  intros Hs Ht Hne Hsort Hsep Hbl Hk Hlast He.
  assert (Hb : bl ≠ []) by (rewrite Forall_lookup in Hne; by eapply Hne).
  destruct (exists_last Hb) as (bl0 & x & ->).
  assert (∃ bl' rest, drop (S i) bls = bl' :: rest) as (bl' & rest & Ed).
  { destruct (drop (S i) bls) eqn:E; [by apply not_elem_of_nil in He|eauto]. }
  assert (Hbl' : bls !! S i = Some bl').
  { rewrite <- (Nat.add_0_r (S i)), <- lookup_drop, Ed. done. }
  destruct bl' as [|y bl'].
  { rewrite Forall_lookup in Hne. by destruct (Hne _ _ Hbl'). }
  pose proof (Ht i sep _ x _ y Hsep Hbl ltac:(by rewrite last_snoc) Hbl' eq_refl) as ->.
  rewrite (concat_around bls i _ Hbl), Ed in Hsort. apply StronglySorted_app_1_r in Hsort.
  rewrite Ed in He. apply (separates_groups x.1 y.1 e.1 k).
  - eapply (StronglySorted_app_1_elem_of _ _ _ x y Hsort); [elem|cbn; elem].
  - apply StronglySorted_app_1_r in Hsort. cbn in Hsort, He. apply elem_of_cons in He as [->|He]; [rewrite cmp_refl; lia|].
    inversion Hsort as [|? ? _ Hf]; subst. rewrite Forall_forall in Hf. apply Z.lt_le_incl, Hf. done.
  - apply Hlast. elem.
  - done.
Qed.

Lemma InternalGet_opened t bls cs seps hs offs k :
  table_opened t bls cs seps hs offs →
  ∃ r, InternalGet AcceleratedCRC32C Snappy_Uncompress file_Read options cache fill_cache verify t k = Ret r
    ∧ (∀ e, r = Some e → concat bls !! lower_bound cmp (concat bls) k = Some e)
    ∧ (∀ e, concat bls !! lower_bound cmp (concat bls) k = Some e → same k e.1 →
         (∀ f, KeyMayMatch k f = KeyMayMatch e.1 f) → r = Some e).
Proof.
  intros [Hbl Hne Hsort Hs Ht (Hl1 & Hl2 & Hl3) _ Hidx Hh Htr Hrd (fr & Efr & Hmay & Hmatch)].
  unfold InternalGet. rewrite opt_cmp, opt_pol, Efr.
  destruct (block_seek cmp (t_index_block t) _ k Hidx) as (it & -> & Hok & Hv & Hkv). cbn [mbind res_bind].
  set (vs := EncodeHandle <$> hs) in *. set (i := lower_bound cmp (zip seps vs) k) in *.
  assert (Hvs : length vs = length bls) by (unfold vs; rewrite length_fmap; lia).
  destruct (index_seek bls seps vs k Hs Hl1 Hvs) as [Hbefore Hsepk]. fold i in Hbefore, Hsepk.
  assert (Hzl : length (zip seps vs) = length bls) by (rewrite length_zip_with; lia).
  rewrite Hzl in Hv. rewrite Hv. clear Hv. case_bool_decide as Hi.
  - destruct (lookup_lt_is_Some_2 bls i Hi) as [bl Ebl].
    destruct (lookup_lt_is_Some_2 seps i) as [sep Esep]; [lia|].
    destruct (lookup_lt_is_Some_2 hs i) as [h Eh]; [lia|].
    destruct (lookup_lt_is_Some_2 offs i) as [o Eo]; [lia|].
    destruct (Forall2_lookup_r _ _ _ _ _ Hbl Ebl) as (c & Ec & Hc).
    destruct (Hkv sep (EncodeHandle h)) as [_ ->].
    { rewrite lookup_zip_with, Esep. unfold vs. rewrite list_lookup_fmap, Eh. done. }
    cbn [mbind res_bind]. rewrite Forall_lookup in Hh. rewrite (Hh _ _ Eh). cbn [fst must_ok mbind res_bind].
    rewrite (Htr _ _ _ Eh Eo). cbn [mbind res_bind].
    destruct (Hmay o k) as [m Em]; [by eapply list_elem_of_lookup_2|]. rewrite Em. cbn [mbind res_bind].
    rewrite (concat_around bls i bl Ebl), lower_bound_app_ge by done.
    specialize (Hsepk sep Esep).
    assert (Hin : ∀ e, e ∈ bl → (∀ f, KeyMayMatch k f = KeyMayMatch e.1 f) → m = true).
    { intros e He Hf. rewrite (Hmatch i o bl e k Eo Ebl He Hf) in Em. by injection Em. }
    destruct (decide (lower_bound cmp bl k < length bl)%nat) as [Hp|Hp].
    + rewrite lower_bound_app_lt by done. rewrite lookup_app_r, Nat.add_comm, Nat.add_sub by lia.
      rewrite lookup_app_l by done. destruct (lookup_lt_is_Some_2 bl _ Hp) as [[ek ev] Ee].
      destruct m; [|exists None; rewrite Hok; split; [done|]; split; [done|]].
      2:{ intros e He _ Hf. exfalso. assert (false = true); [|done]. apply (Hin e); [|done].
          by eapply list_elem_of_lookup_2. }
      destruct (Hrd _ _ _ Eh Ec) as [ins ->]. cbn [mbind res_bind].
      destruct (block_seek cmp c bl k Hc) as (bit & -> & Hbok & Hbv & Hbkv). cbn [mbind res_bind].
      rewrite Hbv, bool_decide_eq_true_2 by done. destruct (Hbkv ek ev Ee) as [-> ->]. cbn [mbind res_bind].
      rewrite Hbok, Hok. exists (Some (ek, ev)). rewrite Ee. split; [done|]. split; naive_solver.
    + pose proof (lower_bound_le cmp bl k). assert (Hall : lower_bound cmp bl k = length bl) by lia.
      assert (Hlt : ∀ x, x ∈ bl → Compare x.1 k < 0) by (intros x; by apply lower_bound_all).
      rewrite lower_bound_app_ge by done. exists None. split; [|split; [done|]].
      * destruct m; cbn [mbind res_bind]; [|by rewrite Hok]. destruct (Hrd _ _ _ Eh Ec) as [ins ->]. cbn [mbind res_bind].
        destruct (block_seek cmp c bl k Hc) as (bit & -> & Hbok & Hbv & Hbkv). cbn [mbind res_bind].
        rewrite Hbv, bool_decide_eq_false_2 by done. cbn [mbind res_bind]. by rewrite Hbok, Hok.
      * intros e He Hsame _. exfalso. rewrite app_assoc, lookup_app_r in He by (rewrite length_app; lia).
        refine (group_in_block bls seps i sep bl k e Hs Ht Hne Hsort Esep Ebl Hsepk Hlt _ Hsame).
        by eapply list_elem_of_lookup_2.
  - cbn [mbind res_bind]. rewrite Hok. exists None. split; [done|]. split; [done|]. intros e He.
    pose proof (lookup_lt_Some _ _ _ He) as Hlt. exfalso.
    rewrite <- (firstn_all2 (n := i) bls) in Hlt by lia.
    assert (∀ l, (∀ x, x ∈ l → Compare x.1 k < 0) → lower_bound cmp l k = length l) as Hall.
    { intros l Hx. rewrite <- (app_nil_r l) at 1. rewrite lower_bound_app_ge by done. cbn. lia. }
    rewrite (Hall _ Hbefore) in Hlt. lia.
Qed.

(** *** Scans of an opened table *)

Section scan.
Context (t : Table) (bls : list (list kv)) (cs seps : list bytes) (hs : list StoCBlockHandle) (offs : list Z).
Hypothesis Ht : table_opened t bls cs seps hs offs.
Context (rounds : nat) (Hrounds : (length bls < rounds)%nat).

Local Abbreviation index_kvs := (zip seps (EncodeHandle <$> hs)).
Local Abbreviation RI := (block_at cmp (t_index_block t) index_kvs).
Local Abbreviation RD := (λ b, block_at cmp (default [] (cs !! b)) (default [] (bls !! b))).
Local Abbreviation block_function :=
  (data_block AcceleratedCRC32C Snappy_Uncompress file_Read cache fill_cache verify t).

Lemma index_entry b sep h :
  index_kvs !! b = Some (sep, h) → ∃ hd, seps !! b = Some sep ∧ hs !! b = Some hd ∧ h = EncodeHandle hd.
Proof.
  rewrite lookup_zip_with, list_lookup_fmap. destruct (seps !! b), (hs !! b); cbn; try done. intros [= -> <-]. eauto.
Qed.

Lemma opened_block b sep h bl :
  index_kvs !! b = Some (sep, h) → bls !! b = Some bl →
  ∃ c, cs !! b = Some c ∧ block_of cmp c bl
    ∧ ∀ flag, block_function h flag = Ret (c, Block_NewIterator (Block_make c)).
Proof using Ht.
  intros (hd & Hsep & Hh & ->)%index_entry Hbl. destruct (Forall2_lookup_r _ _ _ _ _ (to_blocks _ _ _ _ _ _ Ht) Hbl) as (c & Hc & Hb).
  exists c. split_and!; [done..|]. intros flag. unfold data_block.
  destruct (to_read _ _ _ _ _ _ Ht _ _ _ Hh Hc) as [ins ->]. done.
Qed.

Lemma opened_two_level : two_level_ok cmp (block_iter cmp) (block_iter cmp) block_function rounds RI RD index_kvs bls.
Proof using Ht Hrounds SC.
  destruct (to_lengths _ _ _ _ _ _ Ht) as (Hl1 & Hl2 & Hl3).
  assert (length index_kvs = length bls) as Hl by (rewrite length_zip_with, length_fmap; lia). split.
  - apply (block_Cursor cmp), (to_index _ _ _ _ _ _ Ht).
  - done.
  - done.
  - intros b sep h bl He Hbl. destruct (opened_block b sep h bl He Hbl) as (c & Hc & Hb & Ef). rewrite Hc, Hbl. cbn [default].
    split; [by apply (block_Cursor cmp)|]. eexists _, _. split; [apply Ef|]. by apply (block_fresh cmp).
  - intros b b' sep sep' h (hd & _ & Hh & ->)%index_entry (hd' & _ & Hh' & E)%index_entry.
    pose proof (to_handles _ _ _ _ _ _ Ht) as Hdec. rewrite Forall_lookup in Hdec.
    pose proof (Hdec _ _ Hh) as H1. rewrite E, (Hdec _ _ Hh') in H1. injection H1 as ->.
    destruct (lookup_lt_is_Some_2 offs b) as [o Ho]; [apply lookup_lt_Some in Hh; lia|].
    destruct (lookup_lt_is_Some_2 offs b') as [o' Ho']; [apply lookup_lt_Some in Hh'; lia|].
    pose proof (to_translate _ _ _ _ _ _ Ht _ _ _ Hh Ho) as T1.
    rewrite (to_translate _ _ _ _ _ _ Ht _ _ _ Hh' Ho') in T1. injection T1 as ->.
    by apply (NoDup_lookup offs b b' o (to_offsets _ _ _ _ _ _ Ht)).
  - by destruct (to_index _ _ _ _ _ _ Ht) as (_ & _ & _ & _ & _ & ?).
  - intros b sep h bl e (hd & Hsep & _)%index_entry Hbl Hin.
    by apply (to_seps _ _ _ _ _ _ Ht b sep b bl e Hsep Hbl Hin).
  - intros b b' sep h bl e Hlt (hd & Hsep & _)%index_entry Hbl Hin.
    by apply (to_seps _ _ _ _ _ _ Ht b sep b' bl e Hsep Hbl Hin).
Qed.

Local Abbreviation at_ := (two_at RI RD index_kvs bls).

(** The iterator of a table walks through its entries. *)
Lemma opened_Cursor :
  Cursor cmp (concat bls) (iter_ops (table_iter AcceleratedCRC32C Snappy_Uncompress file_Read options cache fill_cache verify rounds t)) at_.
Proof using Ht Hrounds SC opt_cmp. unfold table_iter. rewrite opt_cmp. apply (two_Cursor cmp), opened_two_level. Qed.

Lemma NewIterator_opened : ∃ it, Table_NewIterator options t = Ret it ∧ at_ it (length (concat bls)).
Proof using Ht Hrounds SC opt_cmp.
  unfold Table_NewIterator. rewrite opt_cmp. eapply (TwoLevel_init_at cmp); [apply opened_two_level|].
  apply (block_fresh cmp), (to_index _ _ _ _ _ _ Ht).
Qed.

Lemma opened_SkipLaw :
  NumericKeys cmp →
  SkipLaw (table_iter AcceleratedCRC32C Snappy_Uncompress file_Read options cache fill_cache verify rounds t) at_ (concat bls).
Proof using Ht Hrounds SC opt_cmp.
  intros HN. unfold table_iter. rewrite opt_cmp. apply (two_SkipLaw cmp _ _ _ _ _ _ _ _ opened_two_level).
  - apply (block_SkipIndexLaw cmp); [apply (to_index _ _ _ _ _ _ Ht)|done].
  - intros b bl Hbl. destruct (Forall2_lookup_r _ _ _ _ _ (to_blocks _ _ _ _ _ _ Ht) Hbl) as (c & Hc & Hb).
    rewrite Hc, Hbl. by apply (block_SkipLaw cmp).
  - intros b sep h bl d t' He Hbl Ed. destruct (opened_block b sep h bl He Hbl) as (c & Hc & Hb & Ef).
    rewrite Ef in Ed. injection Ed as <-. rewrite Hc, Hbl. by apply (block_fresh_skip cmp).
  - apply (sorted_user_sorted cmp), (to_sorted _ _ _ _ _ _ Ht).
Qed.
End scan.
End lookup.
