(* ===== verification/StorageSelector.v ===== *)
(** * StorageSelector: choosing storage components

    [ltc/storage_selector.h] and [.cpp].  The numbers [rand_r] returns, the queue
    lengths the components report and [std::sort] are arguments. *)

From S2P Require Import Prelude Coding Comparator NovaCommon DbFormat Subrange FileMeta.

Inductive ScatterPolicy := SCATTER_DC_STATS | RANDOM | POWER_OF_TWO | POWER_OF_THREE | LOCAL.

Section selector.
(** [available_stoc_servers], [my_server_id] and the reported queue lengths. *)
Context (servers : list Z) (my_server_id : Z) (stoc_queue_depth : Z → Z).
Context (sort : ∀ A, (A → A → bool) → list A → list A).

Local Abbreviation nservers := (size_of servers).

(** [n] indices from [start] on, around the end. *)
Fixpoint round_robin (n : nat) (start : Z) : list Z :=
  match n with
  | O => []
  | S n => start :: round_robin n ((start + 1) mod nservers)
  end.

Definition servers_at (ids : list Z) : res (list Z) :=
  match mapM (λ i, servers !! Z.to_nat i) ids with Some l => Ret l | None => Abort end.

(** [SelectStorageServers]: [rand] is what [rand_r] returns. *)
Definition SelectStorageServers (scatter_policy : ScatterPolicy) (rand num_storage_to_select : Z) : res (list Z) :=
  let n := Z.to_nat num_storage_to_select in
  match scatter_policy with
  | LOCAL => match replicate n 0 with [] => Abort | _ :: l => Ret (my_server_id :: l) end
  | _ =>
      if decide (num_storage_to_select = nservers) then Ret servers
      else if decide (nservers = 0) then Abort
      else
        let start_storage_id := rand mod nservers in
        match scatter_policy with
        | POWER_OF_TWO =>
            let candidates := Z.min (2 * num_storage_to_select) nservers in
            candidate_servers ← servers_at (round_robin (Z.to_nat candidates) start_storage_id);
            let storage_stats :=
              sort _ (λ a b, bool_decide (stoc_queue_depth a < stoc_queue_depth b)) candidate_servers in
            if decide (n <= length storage_stats)%nat then Ret (take n storage_stats) else Abort
        | _ => servers_at (round_robin n start_storage_id)
        end
  end.

(** [SelectAvailableStoCs]. *)
Definition SelectAvailableStoCs (rand : Z) (nstocs : nat) : res (list Z) :=
  if decide (nservers = 0) then Abort
  else servers_at ((λ i, (rand mod nservers + Z.of_nat i) mod nservers) <$> seq 0 nstocs).

(** [SelectAvailableStoCsForCompaction]: [seq_id] is the shared counter, when no
    other thread draws from it. *)
Definition SelectAvailableStoCsForCompaction (seq_id : Z) (nstocs : nat) : res (Z * list Z) :=
  if decide (nservers = 0) then Abort
  else l ← servers_at ((λ i, (seq_id + Z.of_nat i) mod nservers) <$> seq 0 nstocs); Ret (seq_id + Z.of_nat nstocs, l).

(** [SelectAvailableStoCForFailedMetaBlock]: the component for the new replica,
    and the replica to copy. *)
Definition SelectAvailableStoCForFailedMetaBlock (handles : list FileReplicaMetaData) (failed_replica_id : Z)
    (is_stoc_failed : bool) (rand rand' : Z) : res (Z * Z) :=
  let n := size_of handles in
  if decide (n = 0) then Abort
  else
    let available_replica_id := rand mod n in
    match handles !! Z.to_nat available_replica_id with
    | None => Abort
    | Some replica =>
        let available_replica_id :=
          if is_stoc_failed && bool_decide (bh_server_id (meta_block_handle replica) = failed_replica_id)
          then (failed_replica_id + 1) mod n else available_replica_id in
        let used_replicas := (λ r, bh_server_id (meta_block_handle r)) <$> handles in
        let candidate_stocs := filter (λ s, s ∉ used_replicas) servers in
        match candidate_stocs !! Z.to_nat (rand' mod size_of candidate_stocs) with
        | None => Abort
        | Some stoc => Ret (stoc, available_replica_id)
        end
    end.
End selector.

(** ** [ValidateReplicas] *)

(** The metadata files: [used] are the servers so far, [size] the size of the
    first one. *)
Fixpoint validate_metas (used : list Z) (size : Z) (replicas : list FileReplicaMetaData) : bool :=
  match replicas with
  | [] => true
  | r :: replicas =>
      let h := meta_block_handle r in
      let size := if decide (size = 0) then bh_size h else size in
      bool_decide (bh_server_id h ∉ used) && bool_decide (bh_offset h = 0) && bool_decide (size = bh_size h)
      && validate_metas (bh_server_id h :: used) size replicas
  end.

(** Fragment [frag] of every replica: on different servers, at the same offset
    and of the same size. *)
Fixpoint validate_fragment (frag : nat) (used : list Z) (offset size : Z) (replicas : list FileReplicaMetaData) : bool :=
  match replicas with
  | [] => true
  | r :: replicas =>
      match data_block_group_handles r !! frag with
      | None => false
      | Some h =>
          bool_decide (bh_server_id h ∉ used) && bool_decide (bh_offset h = offset) && bool_decide (bh_size h = size)
          && validate_fragment frag (bh_server_id h :: used) offset size replicas
      end
  end.

(** With one data replica: the fragments are on different servers, and the other
    replicas name the same fragments. *)
Fixpoint validate_fragments (frag : nat) (used : list Z) (handles : list StoCBlockHandle)
    (others : list FileReplicaMetaData) : bool :=
  match handles with
  | [] => true
  | h :: handles =>
      bool_decide (bh_server_id h ∉ used)
      && forallb (λ r, match data_block_group_handles r !! frag with
                       | None => false
                       | Some h' => bool_decide (bh_size h = bh_size h') && bool_decide (bh_stoc_file_id h = bh_stoc_file_id h')
                                    && bool_decide (bh_offset h = bh_offset h') && bool_decide (bh_server_id h = bh_server_id h')
                       end) others
      && validate_fragments (S frag) (bh_server_id h :: used) handles others
  end.

(** Whether [ValidateReplicas] passes all its assertions. *)
Definition ValidateReplicas (number_of_sstable_data_replicas : nat) (replicas : list FileReplicaMetaData)
    (parity_block_handle : StoCBlockHandle) : bool :=
  validate_metas [] 0 replicas
  && match replicas with
     | [] => false
     | r0 :: others =>
         let handles := data_block_group_handles r0 in
         if decide (1 < number_of_sstable_data_replicas)%nat then
           forallb (λ r, bool_decide (length handles = length (data_block_group_handles r))) others
           && forallb (λ frag, match handles !! frag with
                               | None => false
                               | Some h => validate_fragment frag [] (bh_offset h) (bh_size h) replicas
                               end) (seq 0 (length handles))
           && (if decide (1 < length replicas)%nat then
                 forallb (λ r, forallb (λ h, bool_decide (bh_server_id (meta_block_handle r) = bh_server_id h))
                                 (take (length handles) (data_block_group_handles r))) replicas
               else true)
         else
           validate_fragments 0 [] handles others
           && (if decide (bh_stoc_file_id parity_block_handle ≠ 0)
               then bool_decide (bh_server_id parity_block_handle ∉ bh_server_id <$> handles) else true)
     end.

(** ** Selections are distinct *)

Section distinct.
Context (servers : list Z).
Local Abbreviation N := (size_of servers).

Lemma round_robin_eq n start :
  0 <= start < N → round_robin servers n start = (λ i, (start + Z.of_nat i) mod N) <$> seq 0 n.
Proof.
  revert start. induction n as [|n IH]; intros start Hs; [done|]. cbn [round_robin seq fmap list_fmap].
  f_equal; [rewrite Z.add_0_r, Z.mod_small; done|]. rewrite IH by (apply Z.mod_pos_bound; lia).
  rewrite <- seq_shift. rewrite <- list_fmap_compose. apply list_fmap_ext. intros _ i _. cbn.
  rewrite Z.add_mod_idemp_l by lia. f_equal. lia.
Qed.

(** Fewer consecutive numbers than there are servers are different servers. *)
Lemma servers_at_consecutive start n :
  NoDup servers → (n <= length servers)%nat → 0 < N →
  ∃ l, servers_at servers ((λ i, (start + Z.of_nat i) mod N) <$> seq 0 n) = Ret l
    ∧ length l = n ∧ NoDup l ∧ l ⊆ servers.
Proof.
  intros Hnd Hn HN. set (ids := _ <$> seq 0 n). unfold servers_at.
  assert (∀ i, i ∈ ids → 0 <= i < N) as Hids.
  { intros i (j & -> & _)%list_elem_of_fmap. apply Z.mod_pos_bound. lia. }
  assert (is_Some (mapM (λ i, servers !! Z.to_nat i) ids)) as [l El].
  { apply mapM_is_Some. apply Forall_forall. intros i Hi%Hids. apply lookup_lt_is_Some_2. lia. }
  rewrite El. apply mapM_Some in El. exists l. split; [done|]. pose proof (Forall2_length _ _ _ El) as Hl.
  unfold ids in Hl. rewrite length_fmap, length_seq in Hl. split; [done|]. split.
  - apply NoDup_alt. intros a b x Ha Hb.
    destruct (Forall2_lookup_r _ _ _ _ _ El Ha) as (ia & Hia & Ea). destruct (Forall2_lookup_r _ _ _ _ _ El Hb) as (ib & Hib & Eb).
    assert (ia = ib) as Eab.
    { pose proof (Hids _ (list_elem_of_lookup_2 _ _ _ Hia)). pose proof (Hids _ (list_elem_of_lookup_2 _ _ _ Hib)).
      pose proof (NoDup_lookup _ _ _ _ Hnd Ea Eb). lia. }
    unfold ids in Hia, Hib. apply list_lookup_fmap_Some in Hia as (ja & -> & Hja), Hib as (jb & -> & Hjb).
    apply lookup_seq in Hja as [-> ?], Hjb as [-> ?].
    assert ((Z.of_nat (0 + a) - Z.of_nat (0 + b)) mod N = 0) as Hmod.
    { replace (Z.of_nat (0 + a) - Z.of_nat (0 + b)) with ((start + Z.of_nat (0 + a)) - (start + Z.of_nat (0 + b))) by lia.
      rewrite Zminus_mod, Eab, Z.sub_diag. apply Z.mod_0_l. lia. }
    apply Z.mod_divide in Hmod as [q Hq]; [|lia].
    assert (- N < Z.of_nat (0 + a) - Z.of_nat (0 + b) < N) as Hab by lia. rewrite Hq in Hab. assert (q = 0) as -> by nia. lia.
  - intros x [j Hj]%list_elem_of_lookup. destruct (Forall2_lookup_r _ _ _ _ _ El Hj) as (i & _ & Hi). by eapply list_elem_of_lookup_2.
Qed.
End distinct.

(** ** Placements that pass the validation *)

Lemma validate_metas_ok used size sz l srvs :
  Forall2 (λ r x, bh_server_id (meta_block_handle r) = x ∧ bh_offset (meta_block_handle r) = 0 ∧ bh_size (meta_block_handle r) = sz) l srvs →
  size = 0 ∨ size = sz → NoDup (srvs ++ used) → validate_metas used size l = true.
Proof.
  intros H. revert used size. induction H as [|r x l srvs (Hx & Ho & Hs) _ IH]; intros used size Hsz Hnd; [done|].
  cbn [validate_metas]. cbn [app] in Hnd. apply NoDup_cons in Hnd as [Hnin Hnd]. rewrite Hx, Ho, Hs.
  assert ((if decide (size = 0) then sz else size) = sz) as -> by (case_decide; destruct Hsz; congruence).
  rewrite !bool_decide_eq_true_2 by (done || set_solver). cbn [andb]. apply IH; [by right|].
  rewrite <- Permutation_middle. by constructor.
Qed.

Lemma validate_fragment_ok frag used offset size l srvs :
  Forall2 (λ r x, ∃ h, data_block_group_handles r !! frag = Some h ∧ bh_server_id h = x ∧ bh_offset h = offset ∧ bh_size h = size) l srvs →
  NoDup (srvs ++ used) → validate_fragment frag used offset size l = true.
Proof.
  intros H. revert used. induction H as [|r x l srvs (h & Hh & Hx & Ho & Hs) _ IH]; intros used Hnd; [done|].
  cbn [validate_fragment]. cbn [app] in Hnd. apply NoDup_cons in Hnd as [Hnin Hnd]. rewrite Hh, Hx, Ho, Hs.
  rewrite !bool_decide_eq_true_2 by (done || set_solver). cbn [andb]. apply IH.
  rewrite <- Permutation_middle. by constructor.
Qed.

Lemma validate_fragments_ok frag used handles others all :
  (∀ r, r ∈ others → data_block_group_handles r = all) → drop frag all = handles →
  NoDup ((bh_server_id <$> handles) ++ used) → validate_fragments frag used handles others = true.
Proof.
  intros Hall. revert frag used. induction handles as [|h handles IH]; intros frag used Hd Hnd; [done|].
  cbn [validate_fragments]. cbn [fmap list_fmap app] in Hnd. apply NoDup_cons in Hnd as [Hnin Hnd].
  assert (all !! frag = Some h) as Hh by (rewrite <- (Nat.add_0_r frag), <- lookup_drop, Hd; done).
  rewrite bool_decide_eq_true_2 by set_solver. cbn [andb]. apply andb_true_intro. split.
  - apply forallb_forall. intros r Hr. rewrite (Hall r) by (by apply list_elem_of_In). rewrite Hh.
    by rewrite !bool_decide_eq_true_2.
  - apply IH; [by rewrite (drop_S _ _ _ Hh) in Hd; injection Hd|].
    rewrite <- Permutation_middle. by constructor.
Qed.

Lemma SelectStorageServers_ok servers my_server_id depth sort policy rand num :
  (∀ A lt l, sort A lt l ≡ₚ l) → policy ≠ LOCAL → NoDup servers → 0 <= num <= size_of servers → 0 < size_of servers →
  ∃ l, SelectStorageServers servers my_server_id depth sort policy rand num = Ret l
    ∧ size_of l = num ∧ NoDup l ∧ l ⊆ servers.
Proof.
  intros Hsort Hp Hnd Hnum HN. unfold SelectStorageServers. set (start := rand mod size_of servers).
  assert (0 <= start < size_of servers) as Hstart by (apply Z.mod_pos_bound; lia).
  assert (∀ n, (n <= length servers)%nat → ∃ l, servers_at servers (round_robin servers n start) = Ret l
    ∧ length l = n ∧ NoDup l ∧ l ⊆ servers) as Hrr.
  { intros n Hn. rewrite round_robin_eq by done. by apply servers_at_consecutive. }
  destruct (decide (num = size_of servers)) as [->|Hne]; [destruct policy; [by eauto..|done]|].
  destruct (decide (size_of servers = 0)); [lia|].
  destruct policy; try done; try (destruct (Hrr (Z.to_nat num)) as (l & -> & Hl & Hd & Hs); [lia|];
    exists l; split; [done|]; split; [lia|done]).
  set (c := Z.min (2 * num) (size_of servers)).
  destruct (Hrr (Z.to_nat c)) as (l & -> & Hl & Hd & Hs); [lia|]. cbn [mbind res_bind]. set (l' := sort _ _ l).
  assert (l' ≡ₚ l) as Hl' by apply Hsort. pose proof (Permutation_length Hl') as Hlen.
  rewrite decide_True by lia. eexists. split; [done|]. rewrite length_take. split; [lia|]. split.
  - eapply sublist_NoDup; [|apply sublist_take]. by rewrite Hl'.
  - intros x Hx. apply Hs. rewrite <- Hl'. eapply elem_of_sublist; [exact Hx|apply sublist_take].
Qed.


(** C38. The replica to copy after a failure is compared with its position among the
    replicas as if that were a server: when the draw hits the failed replica
    itself and its server has another number, the failed server is to copy. *)
Theorem failed_replica_selected servers handles (failed : nat) rand rand' :
  handles ≠ [] → rand mod size_of handles = Z.of_nat failed →
  (∀ r, handles !! failed = Some r → bh_server_id (meta_block_handle r) ≠ Z.of_nat failed) →
  (∃ s, s ∈ servers ∧ s ∉ (λ r, bh_server_id (meta_block_handle r)) <$> handles) →
  ∃ stoc, SelectAvailableStoCForFailedMetaBlock servers handles (Z.of_nat failed) true rand rand'
    = Ret (stoc, Z.of_nat failed) ∧ stoc ∈ servers ∧ stoc ∉ (λ r, bh_server_id (meta_block_handle r)) <$> handles.
Proof.
  intros Hne Hr Hsrv (s & Hs & Hu). unfold SelectAvailableStoCForFailedMetaBlock.
  assert (0 < size_of handles) as Hn by (destruct handles; [done|cbn; lia]). rewrite decide_False by lia.
  pose proof (Z.mod_pos_bound rand (size_of handles) Hn) as Hb. rewrite Hr in Hb |- *. rewrite Nat2Z.id.
  destruct (lookup_lt_is_Some_2 handles failed) as [r Er]; [lia|]. rewrite Er.
  rewrite (bool_decide_eq_false_2 (bh_server_id _ = _)) by (by apply Hsrv). cbn [andb].
  set (cands := filter _ servers). assert (s ∈ cands) as Hin by (by apply list_elem_of_filter).
  assert (0 < size_of cands) as Hc by (destruct cands; [by apply not_elem_of_nil in Hin|cbn; lia]).
  pose proof (Z.mod_pos_bound rand' (size_of cands) Hc) as Hb'.
  destruct (lookup_lt_is_Some_2 cands (Z.to_nat (rand' mod size_of cands))) as [stoc Estoc]; [lia|]. rewrite Estoc.
  exists stoc. apply list_elem_of_lookup_2, list_elem_of_filter in Estoc as [? ?]. done.
Qed.

Lemma failed_replica_selected_witness :
  let replica s := mkReplica (mkHandle s 1 0 10) [] in
  ∃ stoc, SelectAvailableStoCForFailedMetaBlock [5; 6; 7] [replica 5; replica 6] 0 true 2 0 = Ret (stoc, 0)
    ∧ stoc ∈ [5; 6; 7] ∧ stoc ∉ [5; 6].
Proof.
  intros replica. apply (failed_replica_selected [5; 6; 7] [replica 5; replica 6] 0 2 0); [done|done| |].
  - intros r [= <-]. done.
  - exists 7. split; [set_solver|]. cbn. set_solver.
Defined.
