(* ===== verification/StoCFile.v ===== *)
(** * StoCFile: scattering a table over storage components

    [ltc/stoc_file_client_impl.h] and [.cpp].  [StoCWritableFileClient] collects
    a table in memory, cuts its data blocks into fragments, appends each to a
    storage component, and then writes the metadata file: filter, meta index, an
    index whose entries are handles into the fragments, and a footer.
    [StoCRandomAccessFileClientImpl] reads it back.

    The storage components are behind the interface [BlockStore], which the
    StoC files of [PersistentStoC] implement.  An append is complete when it is
    initiated; the waiting for responses is left out.  The choice of components
    is an argument, which [StorageSelector] provides. *)

From S2P Require Import Prelude Coding Comparator Cursor NovaCommon DbFormat Subrange FileMeta Filename Block Bloom FilterBlock Crc32c Format PersistentStoC TableBuilder Table.

(** ** The storage components

    Blocks are appended under a database, a file number, a replica and a type,
    and read by their handle. *)
Class BlockStore (S : Type) := {
  bs_append : S → Z → bytes → Z → Z → bytes → FileInternalType → res (S * StoCBlockHandle);
  bs_read : S → StoCBlockHandle → Z → Z → res bytes
}.

(** The configuration. *)
Record StoCConfig := mkStoCConfig {
  num_stocs_scatter_data_blocks : Z;
  number_of_sstable_data_replicas : nat;
  number_of_sstable_metadata_replicas : nat;
  use_parity_for_sstable_data_blocks : bool
}.

Definition METABLOCK_SIZE_PADDING : Z := 1024 * 1024.

(** [StoCWritableFileClient]; [wf_replicas] is [data_replica_status_] with the
    handles of the responses. *)
Record StoCWritableFileClient := mkClient {
  wf_backing_mem : bytes;
  wf_allocated_size : Z;
  wf_used_size : Z;
  wf_num_data_blocks : Z;
  wf_index_block : bytes;
  wf_nblocks_in_group : list Z;
  wf_stocs : list Z;
  wf_replicas : list (list StoCBlockHandle);
  wf_parity : option StoCBlockHandle;
  wf_meta_block_handles : list StoCBlockHandle
}.

Definition Client_make (cfg : StoCConfig) (file_size : Z) (mem : bytes) : StoCWritableFileClient :=
  mkClient mem file_size 0 0 [] [] [] (replicate (number_of_sstable_data_replicas cfg) []) None
    (replicate (number_of_sstable_metadata_replicas cfg) StoCBlockHandle_init).

Definition set_mem (w : StoCWritableFileClient) (mem : bytes) (used : Z) : StoCWritableFileClient :=
  mkClient mem (wf_allocated_size w) used (wf_num_data_blocks w) (wf_index_block w) (wf_nblocks_in_group w)
    (wf_stocs w) (wf_replicas w) (wf_parity w) (wf_meta_block_handles w).

Definition set_num_data_blocks (w : StoCWritableFileClient) (num : Z) : StoCWritableFileClient :=
  mkClient (wf_backing_mem w) (wf_allocated_size w) (wf_used_size w) num (wf_index_block w)
    (wf_nblocks_in_group w) (wf_stocs w) (wf_replicas w) (wf_parity w) (wf_meta_block_handles w).

Definition set_format (w : StoCWritableFileClient) (index : bytes) (groups stocs : list Z)
    (replicas : list (list StoCBlockHandle)) (parity : option StoCBlockHandle) : StoCWritableFileClient :=
  mkClient (wf_backing_mem w) (wf_allocated_size w) (wf_used_size w) (wf_num_data_blocks w) index groups
    stocs replicas parity (wf_meta_block_handles w).

Definition set_meta_handles (w : StoCWritableFileClient) (hs : list StoCBlockHandle) : StoCWritableFileClient :=
  mkClient (wf_backing_mem w) (wf_allocated_size w) (wf_used_size w) (wf_num_data_blocks w)
    (wf_index_block w) (wf_nblocks_in_group w) (wf_stocs w) (wf_replicas w) (wf_parity w) hs.

(** ** The memory file *)

(** [Read(offset, n, result, scratch)]: clipped to the used part. *)
Definition Client_Read (w : StoCWritableFileClient) (offset n : Z) : bytes :=
  let available := wf_used_size w - Z.min (wf_used_size w) offset in
  let n := if decide (n > available) then available else n in
  slice (wf_backing_mem w) offset n.

Definition Client_Append (w : StoCWritableFileClient) (data : bytes) : res StoCWritableFileClient :=
  if decide (wf_used_size w + size_of data < wf_allocated_size w) then
    Ret (set_mem w (mem_write (wf_backing_mem w) (wf_used_size w) data) (wf_used_size w + size_of data))
  else Abort.

(** [Append(uint32_t size)]: the space after [Buf()] that the caller has filled. *)
Definition Client_Append_size (w : StoCWritableFileClient) (n : Z) : res StoCWritableFileClient :=
  if decide (wf_used_size w + n < wf_allocated_size w) then
    Ret (set_mem w (wf_backing_mem w) (wf_used_size w + n))
  else Abort.

(** [Write(backing_mem, offset, data, allocated_size, &used_size)]. *)
Definition write_at (mem : bytes) (used_size offset : Z) (data : bytes) (allocated_size : Z) : res (bytes * Z) :=
  if decide (offset + size_of data < allocated_size) then
    Ret (mem_write mem offset data, Z.max used_size (offset + size_of data))
  else Abort.

Definition Client_Write (w : StoCWritableFileClient) (offset : Z) (data : bytes) : res StoCWritableFileClient :=
  '(mem, used) ← write_at (wf_backing_mem w) (wf_used_size w) offset data (wf_allocated_size w);
  Ret (set_mem w mem used).

(** The file a table is built in. *)
#[export] Instance Client_file : WritableFile StoCWritableFileClient := {|
  file_Append w data := w ← Client_Append w data; Ret (w, true);
  file_Flush w := Ret (w, true)
|}.

(** ** Fragments *)

(** The loop that distributes [remaining] blocks over the first groups. *)
Fixpoint assign_blocks (groups : nat) (min_num remaining : Z) : list Z :=
  match groups with
  | O => []
  | S groups =>
      if decide (remaining > 0) then (min_num + 1) :: assign_blocks groups min_num (remaining - 1)
      else min_num :: assign_blocks groups min_num remaining
  end.

(** [nblocks_in_group_]. *)
Definition nblocks_in_group (cfg : StoCConfig) (num_data_blocks : Z) : res (list Z) :=
  let scatter := num_stocs_scatter_data_blocks cfg in
  groups ← (if decide (num_data_blocks >= scatter) then
              if decide (scatter = 0) then Abort
              else
                let l := assign_blocks (Z.to_nat scatter) (num_data_blocks / scatter) (num_data_blocks mod scatter) in
                if decide (foldr Z.add 0 l = num_data_blocks) then Ret l else Abort
            else Ret [num_data_blocks]);
  Ret (if decide (1 < number_of_sstable_data_replicas cfg)%nat then [num_data_blocks] else groups).

(** [num_stocs_to_select]. *)
Definition num_stocs_to_select (cfg : StoCConfig) (groups : list Z) : Z :=
  if decide (1 < number_of_sstable_data_replicas cfg)%nat then Z.of_nat (number_of_sstable_data_replicas cfg)
  else
    Z.max (size_of groups + if use_parity_for_sstable_data_blocks cfg then 1 else 0)
      (Z.of_nat (number_of_sstable_metadata_replicas cfg)).

Section client.
Context {S : Type} {BS : BlockStore S}.
Context (AcceleratedCRC32C : Z → bytes → Z) (Snappy_Compress Snappy_Uncompress : bytes → option bytes).
Context (options : TableOptions) (cfg : StoCConfig).
Context (dbname : bytes) (file_number : Z).

Local Abbreviation cmp := (opt_comparator options).

(** The footer at the end of the used part. *)
Definition client_footer (w : StoCWritableFileClient) : res Footer :=
  '(footer, _) ← must_ok (Footer_DecodeFrom
      (slice (wf_backing_mem w) (wf_used_size w - Z.of_nat kFooterLength) (Z.of_nat kFooterLength)));
  Ret footer.

(** The index block in memory, with the byte of its type after it. *)
Definition client_index (w : StoCWritableFileClient) (footer : Footer) : res bytes :=
  let h := index_handle footer in
  must_ok (ReadBlock_contents AcceleratedCRC32C Snappy_Uncompress false
    (drop (Z.to_nat (bh_offset h)) (wf_backing_mem w)) (Z.to_nat (w32 (bh_size h)))).

(** A loop over the entries of the index: [body] sees the key, the handle and
    whether another entry follows. *)
Fixpoint index_loop {A} (fuel : nat) (index : bytes) (it : AnyIter)
    (body : A → bytes → BlockHandle → bool → res (A * bool)) (a : A) : res A :=
  match fuel with
  | O => Abort
  | Datatypes.S fuel =>
      let ops := block_ops cmp index in
      if op_Valid ops it then
        key ← op_key ops it;
        value ← op_value ops it;
        handle ← must_ok (BlockHandle_DecodeFrom value).1;
        it ← op_move ops it Next;
        '(a, stop) ← body a key handle (op_Valid ops it);
        if (stop : bool) then Ret a else index_loop fuel index it body a
      else Ret a
  end.

(** The entries of an index block; a block has fewer entries than bytes. *)
Definition for_index {A} (index : bytes) (body : A → bytes → BlockHandle → bool → res (A * bool)) (a : A) : res A :=
  it ← op_move (block_ops cmp index) (Block_NewIterator (Block_make index)) SeekToFirst;
  index_loop (Datatypes.S (length index)) index it body a.

(** The state of the loop of [Format]. *)
Record FormatState := mkFormat {
  fs_store : S;
  fs_n : Z;
  fs_offset : Z;
  fs_size : Z;
  fs_group_id : nat;
  fs_fragments : list (Z * Z);
  fs_replicas : list (list StoCBlockHandle)
}.

(** The loop over the replicas of one fragment. *)
Fixpoint append_replicas (w : StoCWritableFileClient) (stocs : list Z) (group_id replica_id : nat)
    (offset size : Z) (s : S) (replicas : list (list StoCBlockHandle)) : res (S * list (list StoCBlockHandle)) :=
  match replicas with
  | [] => Ret (s, [])
  | r :: replicas =>
      let which := if decide (1 < number_of_sstable_data_replicas cfg)%nat then replica_id else group_id in
      match stocs !! which with
      | None => Abort
      | Some stoc =>
          '(s, h) ← bs_append s stoc dbname file_number (Z.of_nat replica_id)
                      (slice (wf_backing_mem w) offset size) kFileData;
          '(s, rest) ← append_replicas w stocs group_id (Datatypes.S replica_id) offset size s replicas;
          Ret (s, (r ++ [h]) :: rest)
      end
  end.

(** One round of the loop of [Format]. *)
Definition format_body (w : StoCWritableFileClient) (groups stocs : list Z) (f : FormatState)
    (key : bytes) (handle : BlockHandle) (more : bool) : res (FormatState * bool) :=
  let hsize := bh_size handle + Z.of_nat kBlockTrailerSize in
  let offset := if decide (fs_n f = 0) then bh_offset handle else fs_offset f in
  let size := fs_size f + hsize in
  let n := fs_n f + 1 in
  if decide (offset + size = bh_offset handle + hsize) then
    match groups !! fs_group_id f with
    | None => Abort
    | Some nblocks =>
        if decide (n = nblocks) then
          '(s, replicas) ← append_replicas w stocs (fs_group_id f) 0 offset size (fs_store f) (fs_replicas f);
          Ret (mkFormat s 0 0 0 (Datatypes.S (fs_group_id f))
                 (fs_fragments f ++ replicate (length replicas) (offset, size)) replicas, false)
        else
          Ret (mkFormat (fs_store f) n offset size (fs_group_id f) (fs_fragments f) (fs_replicas f), false)
    end
  else Abort.

(** ** Parity *)

(** The exclusive or of byte [i] of all fragments: every fragment takes part,
    the condition of the source holds for each. *)
Fixpoint parity_byte (mem : bytes) (fragments : list (Z * Z)) (parity_size i : Z) : option Z :=
  match fragments with
  | [] => Some 0
  | (offset, size) :: fragments =>
      b ← parity_byte mem fragments parity_size i;
      if decide (size <= parity_size) then
        x ← mem !! Z.to_nat (offset + i);
        Some (Z.lxor b x)
      else Some b
  end.

Fixpoint parity_bytes (mem : bytes) (fragments : list (Z * Z)) (parity_size i : Z) (n : nat) : option bytes :=
  match n with
  | O => Some []
  | Datatypes.S n =>
      b ← parity_byte mem fragments parity_size i;
      l ← parity_bytes mem fragments parity_size (i + 1) n;
      Some (b :: l)
  end.

Definition parity_block_size (fragments : list (Z * Z)) : Z :=
  foldr (λ f m, Z.max f.2 m) 0 fragments.

Definition parity_block (mem : bytes) (fragments : list (Z * Z)) : option bytes :=
  let n := parity_block_size fragments in
  parity_bytes mem fragments n 0 (Z.to_nat n).

(** [Format]: [select] is [StorageSelector::SelectStorageServers] with the
    configured policy, by the number of components to select. *)
Definition Format (s : S) (w : StoCWritableFileClient) (select : Z → res (list Z)) : res (S * StoCWritableFileClient) :=
  footer ← client_footer w;
  index ← client_index w footer;
  groups ← nblocks_in_group cfg (wf_num_data_blocks w);
  stocs ← select (num_stocs_to_select cfg groups);
  f ← for_index index (format_body w groups stocs) (mkFormat s 0 0 0 0 [] (wf_replicas w));
  '(s, parity) ← (
    if use_parity_for_sstable_data_blocks cfg then
      match stocs !! fs_group_id f, parity_block (wf_backing_mem w) (fs_fragments f) with
      | Some stoc, Some block =>
          '(s, h) ← bs_append (fs_store f) stoc dbname file_number 0 block kFileParity;
          Ret (s, Some h)
      | _, _ => Abort
      end
    else Ret (fs_store f, None));
  if decide (fs_group_id f = length groups ∧ fs_n f = 0) then
    Ret (s, set_format w index groups stocs (fs_replicas f) parity)
  else Abort.

(** [Fsync]: [file_size] is the size recorded in the metadata. *)
Definition Fsync (s : S) (w : StoCWritableFileClient) (select : Z → res (list Z)) (file_size : Z) :
    res (S * StoCWritableFileClient) :=
  if decide (wf_used_size w = file_size) then Format s w select else Abort.

(** ** The metadata file *)

(** [WriteRawBlock] and [WriteBlock] of the client: the trailer keeps the whole
    checksum, the ['!'] is overwritten.  The result is the memory, its used size
    and the bytes written. *)
Definition client_trailer (block_contents : bytes) (type : CompressionType) : bytes :=
  let crc := Value AcceleratedCRC32C 0 block_contents in
  let crc := Extend AcceleratedCRC32C 0 crc [compression_byte type] in
  compression_byte type :: EncodeFixed32 (Mask crc).

Definition Client_WriteRawBlock (mem : bytes) (used_size offset : Z) (block_contents : bytes)
    (type : CompressionType) (allocated_size : Z) : res (bytes * Z * Z) :=
  '(mem, used) ← write_at mem used_size offset block_contents allocated_size;
  '(mem, used) ← write_at mem used (offset + size_of block_contents) (client_trailer block_contents type)
                   allocated_size;
  Ret (mem, used, w32 (size_of block_contents + Z.of_nat kBlockTrailerSize)).

Definition Client_WriteBlock (mem : bytes) (used_size offset : Z) (block : BlockBuilder) (allocated_size : Z) :
    res (bytes * Z * Z) :=
  let raw := (BlockBuilder_Finish block).2 in
  match opt_compression options with
  | kNoCompression => Client_WriteRawBlock mem used_size offset raw kNoCompression allocated_size
  | kSnappyCompression =>
      match Snappy_Compress raw with
      | Some compressed =>
          if decide (size_of compressed < size_of raw - size_of raw / 8)
          then Client_WriteRawBlock mem used_size offset compressed kSnappyCompression allocated_size
          else Client_WriteRawBlock mem used_size offset raw kNoCompression allocated_size
      | None => Client_WriteRawBlock mem used_size offset raw kNoCompression allocated_size
      end
  end.

(** The state of the loop of [WriteMetaDataBlock]. *)
Record MetaState := mkMeta {
  ms_builder : BlockBuilder;
  ms_current : StoCBlockHandle;
  ms_relative_offset : Z;
  ms_group_id : nat;
  ms_n : Z;
  ms_filter_start : Z
}.

Definition meta_body (groups : list Z) (statuses : list StoCBlockHandle) (m : MetaState)
    (key : bytes) (handle : BlockHandle) (more : bool) : res (MetaState * bool) :=
  let cur := ms_current m in
  let relative_offset := if decide (ms_n m = 0) then bh_offset handle else ms_relative_offset m in
  let filter_start := bh_offset handle + bh_size handle + Z.of_nat kBlockTrailerSize in
  let ih := mkHandle (bh_server_id cur) (bh_stoc_file_id cur)
              (w64 ((bh_offset handle - relative_offset) + FileMeta.bh_offset cur)) (w32 (bh_size handle)) in
  b ← BlockBuilder_Add cmp (opt_restart_interval options) (ms_builder m) key (EncodeHandle ih);
  let n := ms_n m + 1 in
  match groups !! ms_group_id m with
  | None => Abort
  | Some nblocks =>
      if decide (n = nblocks) then
        if decide (FileMeta.bh_offset cur + FileMeta.bh_size cur
                   = FileMeta.bh_offset ih + FileMeta.bh_size ih + Z.of_nat kBlockTrailerSize) then
          let group_id := Datatypes.S (ms_group_id m) in
          if decide (group_id = length statuses) then
            if more then Abort else Ret (mkMeta b cur 0 group_id 0 filter_start, true)
          else
            match statuses !! group_id with
            | None => Abort
            | Some cur => Ret (mkMeta b cur 0 group_id 0 filter_start, false)
            end
        else Abort
      else Ret (mkMeta b cur relative_offset (ms_group_id m) n filter_start, false)
  end.

(** The memory manager: the contents of a buffer of a given size. *)
Context (ItemAlloc : Z → bytes).

(** The buffer of [WriteMetaDataBlock] and how much of it is the metadata file. *)
Definition metadata_file (w : StoCWritableFileClient) (footer : Footer) (m : MetaState) : res (bytes * Z) :=
  let filter_block_size :=
    w32 (bh_offset (metaindex_handle footer) - ms_filter_start m - Z.of_nat kBlockTrailerSize) in
  let new_file_size := filter_block_size + Z.of_nat kBlockTrailerSize in
  let rewrite_start_offset := ms_filter_start m in
  let allocated_size := wf_used_size w - rewrite_start_offset + METABLOCK_SIZE_PADDING in
  let mem := mem_write (ItemAlloc allocated_size) 0 (slice (wf_backing_mem w) rewrite_start_offset new_file_size) in
  match opt_filter options with
  | None => Abort
  | Some (_, name) =>
      handle_encoding ← BlockHandle_EncodeTo (mkBlockHandle 0 filter_block_size) [];
      meta_index_block ← BlockBuilder_Add cmp (opt_restart_interval options) BlockBuilder_init
                           (filter_key_prefix ++ name) handle_encoding;
      '(mem, used, size) ← Client_WriteBlock mem 0 new_file_size meta_index_block allocated_size;
      let new_metaindex_handle := mkBlockHandle new_file_size (w32 (size - Z.of_nat kBlockTrailerSize)) in
      let new_file_size := new_file_size + size in
      '(mem, used, size) ← Client_WriteBlock mem used new_file_size (ms_builder m) allocated_size;
      let new_idx_handle := mkBlockHandle new_file_size (w32 (size - Z.of_nat kBlockTrailerSize)) in
      let new_file_size := new_file_size + size in
      footer_encoding ← Footer_EncodeTo (mkFooter new_metaindex_handle new_idx_handle) [];
      '(mem, used) ← write_at mem used new_file_size footer_encoding allocated_size;
      let new_file_size := new_file_size + size_of footer_encoding in
      if decide (rewrite_start_offset + new_file_size < wf_allocated_size w) then Ret (mem, new_file_size)
      else Abort
  end.

(** [WriteMetaDataBlock]: the new local metadata file, and the handle of its
    copy on [stoc_id]. *)
Definition WriteMetaDataBlock (s : S) (w : StoCWritableFileClient) (stoc_id : Z) (replica_id : nat) :
    res (S * bytes * StoCBlockHandle) :=
  footer ← client_footer w;
  let data_replica_id := if decide (length (wf_replicas w) = 1%nat) then 0%nat else replica_id in
  match wf_replicas w !! data_replica_id with
  | None => Abort
  | Some statuses =>
      match statuses !! 0%nat with
      | None => Abort
      | Some cur =>
          m ← for_index (wf_index_block w) (meta_body (wf_nblocks_in_group w) statuses)
                (mkMeta BlockBuilder_init cur 0 0 0 0);
          if decide (ms_n m = 0) then
            '(mem, new_file_size) ← metadata_file w footer m;
            let meta_sstable := slice mem 0 new_file_size in
            '(s, h) ← bs_append s stoc_id dbname file_number (Z.of_nat replica_id) meta_sstable kFileMetadata;
            Ret (s, meta_sstable, h)
          else Abort
      end
  end.

(** The loop of [Finalize] over the metadata replicas; [random_stocs] is the
    second choice of the selector. *)
Fixpoint write_metas (s : S) (w : StoCWritableFileClient) (random_stocs : list Z) (replica_id n : nat) :
    res (S * list (bytes * StoCBlockHandle)) :=
  match n with
  | O => Ret (s, [])
  | Datatypes.S n =>
      match wf_stocs w !! replica_id with
      | None => Abort
      | Some stoc =>
          stoc_id ← (if decide (number_of_sstable_data_replicas cfg = 1%nat) then
                       match random_stocs !! replica_id with Some stoc => Ret stoc | None => Abort end
                     else Ret stoc);
          '(s, meta, h) ← WriteMetaDataBlock s w stoc_id replica_id;
          '(s, rest) ← write_metas s w random_stocs (Datatypes.S replica_id) n;
          Ret (s, (meta, h) :: rest)
      end
  end.

(** [Finalize]: the local metadata files and the size reported; [select] is the
    selector again, with its policy for metadata files. *)
Definition Finalize (s : S) (w : StoCWritableFileClient) (select : Z → res (list Z)) :
    res (S * StoCWritableFileClient * list bytes * Z) :=
  random_stocs ← select (size_of (wf_meta_block_handles w));
  '(s, metas) ← write_metas s w random_stocs 0 (length (wf_meta_block_handles w));
  let new_file_size := match last metas with Some (meta, _) => size_of meta | None => 0 end in
  if decide (new_file_size = 0) then Abort
  else Ret (s, set_meta_handles w metas.*2, metas.*1, w32 new_file_size).

(** [replicas()]. *)
Fixpoint replicas_from (w : StoCWritableFileClient) (replica_id : nat) (metas : list StoCBlockHandle) :
    res (list FileReplicaMetaData) :=
  match metas with
  | [] => Ret []
  | h :: metas =>
      let data_replica_id := if decide (length (wf_replicas w) = 1%nat) then 0%nat else replica_id in
      match wf_replicas w !! data_replica_id with
      | None => Abort
      | Some handles =>
          rest ← replicas_from w (Datatypes.S replica_id) metas;
          Ret (mkReplica h handles :: rest)
      end
  end.

Definition replicas (w : StoCWritableFileClient) : res (list FileReplicaMetaData) :=
  replicas_from w 0 (wf_meta_block_handles w).

(** ** Reading *)

Definition MAX_BLOCK_SIZE : Z := 10240.

Record DataBlockStoCFileLocalBuf := mkLocalBuf { lb_offset : Z; lb_size : Z; lb_local_offset : Z }.

(** [StoCRandomAccessFileClientImpl]: the local metadata file, and the prefetched
    fragments when [prefetch_all_] is set. *)
Record StoCReader := mkReader {
  rd_local : bytes;
  rd_prefetched : option (bytes * gmap Z DataBlockStoCFileLocalBuf)
}.

(** [ReadAll]: the fragments of the first replica one after the other. *)
Fixpoint read_fragments (s : S) (handles : list StoCBlockHandle) (offset file_size : Z)
    (m : gmap Z DataBlockStoCFileLocalBuf) : res (bytes * gmap Z DataBlockStoCFileLocalBuf) :=
  match handles with
  | [] => Ret ([], m)
  | h :: handles =>
      if decide (offset + FileMeta.bh_size h <= file_size) then
        data ← bs_read s h (FileMeta.bh_offset h) (FileMeta.bh_size h);
        let m := <[stoc_key h := mkLocalBuf (FileMeta.bh_offset h) (FileMeta.bh_size h) offset]> m in
        '(rest, m) ← read_fragments s handles (offset + FileMeta.bh_size h) file_size m;
        Ret (data ++ rest, m)
      else Abort
  end.

Definition ReadAll (s : S) (replicas : list FileReplicaMetaData) (file_size : Z) :
    res (bytes * gmap Z DataBlockStoCFileLocalBuf) :=
  match replicas with
  | [] => Abort
  | r :: _ => read_fragments s (data_block_group_handles r) 0 file_size ∅
  end.

(** [Read]. *)
Definition Reader_Read (s : S) (rd : StoCReader) (h : StoCBlockHandle) (offset n : Z) : res bytes :=
  if decide (bh_stoc_file_id h = 0) then Ret (slice (rd_local rd) offset n)
  else
    match rd_prefetched rd with
    | Some (mem, m) =>
        let buf := default (mkLocalBuf 0 0 0) (m !! stoc_key h) in
        let local_offset := w64 (lb_local_offset buf + (offset - lb_offset buf)) in
        if decide (local_offset + n <= size_of mem) then Ret (slice mem local_offset n) else Abort
    | None => if decide (n < MAX_BLOCK_SIZE) then bs_read s h offset n else Abort
    end.

End client.
