(* ===== verification/Scatter.v ===== *)
(** * Scatter: what is scattered is found again

    The write path of a table, [TableBuilder] into the memory file of
    [StoCFile], its fragments and metadata on the storage components, and the
    read path [Table], against the interface [BlockStore] of the storage
    components. *)

From S2P Require Import Prelude Coding Comparator Cursor NovaCommon DbFormat UserScan Merger TwoLevel Subrange FileMeta Filename Block Bloom FilterBlock Crc32c Format PersistentStoC TableBuilder Table StorageSelector StoCFile.

(** ** What the storage components promise *)

(** [h] can be read as [data], through any handle into the same StoC file. *)
Definition stored_at {S} {BS : BlockStore S} (s : S) (h : StoCBlockHandle) (data : bytes) : Prop :=
  ∀ h' o n, bh_server_id h' = bh_server_id h → bh_stoc_file_id h' = bh_stoc_file_id h →
    0 <= o → 0 <= n → o + n <= size_of data → bs_read s h' o n = Ret (slice data o n).

Definition extends {S} {BS : BlockStore S} (s s' : S) : Prop := ∀ h d, stored_at s h d → stored_at s' h d.

(** What identifies a block: server, database, file number, replica, type. *)
Definition block_key : Type := Z * bytes * Z * Z * FileInternalType.

(** [free s k key]: [k] appends are possible, one of them under [key].  Blocks
    are stored at the start of a StoC file of their own. *)
Class BlockStoreLaws (S : Type) {BS : BlockStore S} (cap : Z) (free : S → nat → block_key → Prop) : Prop := {
  free_server s k srv db n r t : free s k (srv, db, n, r, t) → is_u32 srv;
  append_stores s k srv db n r t data :
    free s (Datatypes.S k) (srv, db, n, r, t) → size_of data <= cap →
    ∃ s' id, bs_append s srv db n r data t = Ret (s', mkHandle srv id 0 (size_of data))
      ∧ 0 < id < 2 ^ 32
      ∧ stored_at s' (mkHandle srv id 0 (size_of data)) data
      ∧ extends s s'
      ∧ ∀ key, key ≠ (srv, db, n, r, t) → free s (Datatypes.S k) key → free s' k key
}.

(** ** Loops over an index *)

Section index.
Context (options : TableOptions) {OC : ComparatorOrder (opt_comparator options)}.
Local Abbreviation cmp := (opt_comparator options).

(** The body of [for_index] over entries with their handles decoded; [more]
    tells whether entries follow the given ones. *)
Fixpoint fold_index {A} (body : A → bytes → BlockHandle → bool → res (A * bool))
    (es : list (bytes * BlockHandle)) (more : bool) (a : A) : res (A * bool) :=
  match es with
  | [] => Ret (a, false)
  | (key, handle) :: es =>
      '(a, stop) ← body a key handle (match es with [] => more | _ => true end);
      if (stop : bool) then Ret (a, true) else fold_index body es more a
  end.

Lemma fold_index_cons {A} (body : A → bytes → BlockHandle → bool → res (A * bool)) key handle es more a :
  fold_index body ((key, handle) :: es) more a =
    ('(a, stop) ← body a key handle (match es with [] => more | _ => true end);
     if (stop : bool) then Ret (a, true) else fold_index body es more a).
Proof. done. Qed.

Lemma fold_index_app {A} (body : A → bytes → BlockHandle → bool → res (A * bool)) es1 es2 more a a' :
  fold_index body es1 (match es2 with [] => more | _ => true end) a = Ret (a', false) →
  fold_index body (es1 ++ es2) more a = fold_index body es2 more a'.
Proof.
  revert a. induction es1 as [|[k h] es1 IH]; intros a; cbn [fold_index app].
  { by intros [= <-]. }
  assert (match es1 ++ es2 with [] => more | _ => true end
    = match es1 with [] => match es2 with [] => more | _ => true end | _ => true end) as -> by (by destruct es1).
  destruct (body a k h _) as [[a1 stop]| |]; cbn [mbind res_bind]; [|done..]. destruct stop; [done|]. apply IH.
Qed.

Lemma index_loop_fold {A} (body : A → bytes → BlockHandle → bool → res (A * bool)) index es fuel it R i a :
  Cursor cmp (prod_map id encode_handle <$> es) (contents_ops cmp index) R → R it i →
  Forall (λ e, handle_set e.2) es → (length es < fuel + i)%nat →
  index_loop options fuel index (EntryIterator it) body a =
    ('(a, _) ← fold_index body (drop i es) false a; Ret a).
Proof.
  intros HC HR Hh. revert it i a HR. induction fuel as [|fuel IH]; intros it i a HR Hf.
  { pose proof (cur_le cmp _ it i HR) as Hi. rewrite length_fmap in Hi. lia. }
  cbn [index_loop block_ops op_Valid op_key op_value op_move].
  rewrite (cur_valid cmp _ it i HR), length_fmap. case_bool_decide as Hi.
  - destruct (lookup_lt_is_Some_2 es i Hi) as [[k h] E].
    destruct (cur_entry cmp _ it i k (encode_handle h) HR) as [Ek Ev].
    { by rewrite list_lookup_fmap, E. }
    rewrite Ek, Ev. cbn [mbind res_bind]. rewrite Forall_lookup in Hh. specialize (Hh i _ E). cbn in Hh.
    rewrite <- (app_nil_r (encode_handle h)), (parses_BlockHandle h Hh). cbn [fst must_ok mbind res_bind].
    destruct (cur_move cmp _ it i Next (S i) HR) as (it' & Em & HR').
    { cbn. by rewrite decide_True by (rewrite length_fmap; lia). }
    rewrite Em. cbn [mbind res_bind]. rewrite (cur_valid cmp _ it' (S i) HR'), length_fmap.
    rewrite (drop_S es (k, h) i E). cbn [fold_index].
    assert (bool_decide (S i < length es)%nat = match drop (S i) es with [] => false | _ => true end) as ->.
    { destruct (drop (S i) es) as [|x l] eqn:Ed.
      - apply bool_decide_eq_false. assert (Hl : length (drop (S i) es) = 0%nat) by by rewrite Ed.
        rewrite length_drop in Hl. lia.
      - apply bool_decide_eq_true. assert (Hl : length (drop (S i) es) = S (length l)) by by rewrite Ed.
        rewrite length_drop in Hl. lia. }
    destruct (body a k h _) as [[a1 stop]| |]; cbn [mbind res_bind]; [|done..]. destruct stop; [done|].
    apply (IH it' (S i) a1 HR'). lia.
  - pose proof (cur_le cmp _ it i HR) as Hi'. rewrite length_fmap in Hi'. by rewrite drop_ge by lia.
Qed.

Lemma for_index_fold {A} (body : A → bytes → BlockHandle → bool → res (A * bool)) index es a :
  block_of cmp index (prod_map id encode_handle <$> es) → Forall (λ e, handle_set e.2) es →
  for_index options index body a = ('(a, _) ← fold_index body es false a; Ret a).
Proof.
  intros Hb Hh. destruct (block_of_iterator cmp index _ Hb) as (it & R & En & HC & HR & _).
  unfold for_index. rewrite En. cbn [block_ops op_move].
  destruct (cur_move cmp _ it _ SeekToFirst 0%nat HR eq_refl) as (it' & -> & HR'). cbn [mbind res_bind].
  rewrite (index_loop_fold body index es (S (length index)) it' R 0 a HC HR' Hh); [by rewrite drop_0|].
  destruct Hb as (ss & ridx & E & Hw & Hs & _). pose proof (block_fuel _ ss ridx Hw) as Hbf.
  rewrite length_fmap, <- E in Hbf. lia.
Qed.
End index.

(** ** Writing the fragments *)

Section store.
Context {S : Type} {BS : BlockStore S} (cap : Z) (free : S → nat → block_key → Prop).
Context {BL : BlockStoreLaws S cap free}.

Definition all_free (s : S) (k : nat) (keys : list block_key) : Prop := Forall (free s k) keys.

(** [h] is the handle of [data] stored under [key]. *)
Definition handle_of (s : S) (key : block_key) (data : bytes) (h : StoCBlockHandle) : Prop :=
  let '(srv, _, _, _, _) := key in
  is_u32 srv ∧ ∃ id, h = mkHandle srv id 0 (size_of data) ∧ 0 < id < 2 ^ 32 ∧ stored_at s h data.

Lemma extends_refl (s : S) : extends s s.
Proof. by intros h d. Qed.

Lemma extends_trans (s1 s2 s3 : S) : extends s1 s2 → extends s2 s3 → extends s1 s3.
Proof. intros H1 H2 h d Hd. by apply H2, H1. Qed.

Lemma handle_of_extends s s' key data h : extends s s' → handle_of s key data h → handle_of s' key data h.
Proof. intros He. destruct key as [[[[srv db] n] r] t]. intros (Hu & id & -> & Hid & Hst). split; [done|]. exists id. auto. Qed.

(** One append of a sequence. *)
Lemma append_next s k key keys data :
  all_free s (Datatypes.S k) (key :: keys) → key ∉ keys → size_of data <= cap →
  let '(srv, db, n, r, t) := key in
  ∃ s' h, bs_append s srv db n r data t = Ret (s', h) ∧ handle_of s' key data h ∧ extends s s' ∧ all_free s' k keys.
Proof.
  destruct key as [[[[srv db] n] r] t]. intros [Hk Hks]%Forall_cons Hnin Hcap.
  destruct (append_stores s k srv db n r t data Hk Hcap) as (s' & id & E & Hid & Hst & He & Hfree).
  exists s', (mkHandle srv id 0 (size_of data)). split; [done|]. split; [|split; [done|]].
  - split; [by eapply free_server|]. exists id. done.
  - unfold all_free in *. rewrite Forall_forall in *. intros key Hkey. apply Hfree; [|by apply Hks].
    intros ->. done.
Qed.

Context (cfg : StoCConfig) (dbname : bytes) (file_number : Z).
Local Abbreviation R := (number_of_sstable_data_replicas cfg).

(** The component that stores replica [r] of fragment [g]. *)
Definition stoc_of (stocs : list Z) (g r : nat) : option Z := stocs !! (if decide (1 < R)%nat then r else g).

Definition data_key (stocs : list Z) (g r : nat) : block_key :=
  (default 0 (stoc_of stocs g r), dbname, file_number, Z.of_nat r, kFileData).

Definition group_keys (stocs : list Z) (r0 : nat) (g : nat) : list block_key :=
  data_key stocs g <$> seq r0 (R - r0).

Lemma append_replicas_ok w stocs g r0 offset size reps s k rest :
  length reps = (R - r0)%nat → (∀ r, (r0 <= r < R)%nat → is_Some (stoc_of stocs g r)) →
  all_free s (length (group_keys stocs r0 g ++ rest) + k) (group_keys stocs r0 g ++ rest) →
  NoDup (group_keys stocs r0 g ++ rest) →
  size_of (slice (wf_backing_mem w) offset size) <= cap →
  ∃ s' hs, append_replicas cfg dbname file_number w stocs g r0 offset size s reps
      = Ret (s', zip_with (λ r h, r ++ [h]) reps hs)
    ∧ Forall2 (λ key h, handle_of s' key (slice (wf_backing_mem w) offset size) h) (group_keys stocs r0 g) hs
    ∧ extends s s' ∧ all_free s' (length rest + k) rest.
Proof.
  revert r0 s. induction reps as [|rep reps IH]; intros r0 s Hlen Hst Hfree Hnd Hcap.
  - assert (group_keys stocs r0 g = []) as E.
    { unfold group_keys. cbn in Hlen. by replace (R - r0)%nat with 0%nat by lia. }
    rewrite E in *. exists s, []. cbn. split_and!; [done|constructor|apply extends_refl|done].
  - cbn [length] in Hlen.
    assert (group_keys stocs r0 g = data_key stocs g r0 :: group_keys stocs (Datatypes.S r0) g) as E.
    { unfold group_keys. replace (R - r0)%nat with (Datatypes.S (R - Datatypes.S r0)) by lia. done. }
    rewrite E in *. cbn [app length] in Hfree. cbn [app] in Hnd. apply NoDup_cons in Hnd as [Hnin Hnd].
    cbn [append_replicas]. destruct (Hst r0) as [stoc Hstoc]; [lia|]. unfold stoc_of in Hstoc. rewrite Hstoc.
    pose proof (append_next s _ _ _ (slice (wf_backing_mem w) offset size) Hfree Hnin Hcap) as Ha.
    unfold data_key, stoc_of in Ha. rewrite Hstoc in Ha. cbn [from_option id] in Ha.
    destruct Ha as (s1 & h & E1 & Hh & Hext & Hfree1).
    rewrite E1. cbn [mbind res_bind].
    destruct (IH (Datatypes.S r0) s1) as (s2 & hs & E2 & Hhs & Hext2 & Hfree2); [lia| |done|done|done|].
    { intros r Hr. apply Hst. lia. }
    rewrite E2. cbn [mbind res_bind]. exists s2, (h :: hs). split_and!; [done| |by eapply extends_trans|done].
    constructor; [|done]. eapply handle_of_extends; [done|]. unfold data_key, stoc_of. rewrite Hstoc. done.
Qed.

Context (AcceleratedCRC32C : Z → bytes → Z).
Local Abbreviation stored := (stored AcceleratedCRC32C).
Local Abbreviation region := (region AcceleratedCRC32C).
Local Abbreviation handles_from := (handles_from AcceleratedCRC32C).

Lemma region_app cs1 cs2 : region (cs1 ++ cs2) = region cs1 ++ region cs2.
Proof. unfold TableBuilder.region. by rewrite fmap_app, concat_app. Qed.

Lemma handles_app base cs1 cs2 :
  handles_from base (cs1 ++ cs2) = handles_from base cs1 ++ handles_from (base + size_of (region cs1)) cs2.
Proof.
  revert base. induction cs1 as [|c cs1 IH]; intros base; cbn [app TableBuilder.handles_from].
  - cbn. by rewrite Z.add_0_r.
  - rewrite IH, region_cons, length_app. do 3 f_equal. lia.
Qed.

(** The blocks of one fragment, from a point inside it. *)
Lemma format_chunk w groups stocs g reps frags base c1 c2 es more s k rest :
  c2 ≠ [] → es.*2 = handles_from (base + size_of (region c1)) c2 →
  groups !! g = Some (size_of (c1 ++ c2)) → length reps = R →
  (∀ r, (r < R)%nat → is_Some (stoc_of stocs g r)) →
  all_free s (length (group_keys stocs 0 g ++ rest) + k) (group_keys stocs 0 g ++ rest) →
  NoDup (group_keys stocs 0 g ++ rest) →
  slice (wf_backing_mem w) base (size_of (region (c1 ++ c2))) = region (c1 ++ c2) →
  size_of (region (c1 ++ c2)) <= cap →
  ∃ s' hs frags', fold_index (format_body cfg dbname file_number w groups stocs) es more
      (mkFormat s (size_of c1) (if decide (c1 = []) then 0 else base) (size_of (region c1)) g frags reps)
      = Ret (mkFormat s' 0 0 0 (Datatypes.S g) (frags ++ frags') (zip_with (λ r h, r ++ [h]) reps hs), false)
    ∧ Forall2 (λ key h, handle_of s' key (region (c1 ++ c2)) h) (group_keys stocs 0 g) hs
    ∧ extends s s' ∧ all_free s' (length rest + k) rest
    ∧ frags' = replicate R (base, size_of (region (c1 ++ c2))).
Proof.
  revert c1 es. induction c2 as [|c c2 IH]; intros c1 es Hne Hes Hg Hlen Hst Hfree Hnd Hmem Hcap; [done|].
  destruct es as [|[key h] es]; [done|]. cbn [fmap list_fmap snd TableBuilder.handles_from] in Hes.
  injection Hes as -> Hes. rewrite fold_index_cons.
  match goal with |- context [mbind _ ?b] => set (call := b) end. unfold format_body in call. subst call.
  cbn [fs_n fs_offset fs_size fs_store fs_group_id fs_fragments fs_replicas bh_offset bh_size].
  assert ((if decide (size_of c1 = 0) then base + size_of (region c1) else if decide (c1 = []) then 0 else base) = base) as ->.
  { destruct c1; cbn [length]; [rewrite decide_True by done; cbn; lia|]. by rewrite !decide_False by (done || lia). }
  pose proof (size_stored AcceleratedCRC32C c) as Hsz. unfold kBlockTrailerSize.
  rewrite decide_True by lia. rewrite Hg.
  assert (region (c1 ++ [c]) = region c1 ++ stored c) as Hr1 by apply region_snoc.
  destruct c2 as [|c' c2].
  - rewrite decide_True by (rewrite length_app; cbn; lia).
    replace (size_of (region c1) + (size_of c + Z.of_nat 5)) with (size_of (region (c1 ++ [c])))
      by (rewrite Hr1, length_app; lia).
    destruct (append_replicas_ok w stocs g 0 base (size_of (region (c1 ++ [c]))) reps s k rest)
      as (s' & hs & -> & Hhs & Hext & Hfree'); [lia|intros r Hr; apply Hst; lia|done|done|by rewrite Hmem|].
    rewrite Hmem in Hhs. cbn [mbind res_bind].
    destruct es; [|done]. cbn [fold_index]. eexists s', hs, _. split; [done|]. split_and!; try done.
    f_equal. rewrite length_zip_with. apply Forall2_length in Hhs. unfold group_keys in Hhs.
    rewrite length_fmap, length_seq in Hhs. lia.
  - rewrite decide_False by (rewrite length_app; cbn; lia). cbn [mbind res_bind].
    specialize (IH (c1 ++ [c]) es). rewrite <- !app_assoc in IH. cbn [app] in IH.
    assert (size_of (c1 ++ [c]) = size_of c1 + 1) as Hn by (rewrite length_app; cbn; lia). rewrite Hn in IH.
    assert (size_of (region (c1 ++ [c])) = size_of (region c1) + (size_of c + Z.of_nat 5)) as Hs1
      by (rewrite Hr1, length_app; lia).
    rewrite Hs1 in IH. rewrite decide_False in IH by (by destruct c1).
    apply IH; try done. rewrite Hes. f_equal. lia.
Qed.

(** What each replica holds after the fragments [chunks]. *)
Record replicas_hold (s : S) (stocs : list Z) (reps : list (list StoCBlockHandle)) (chunks : list (list bytes)) :
    Prop := {
  rh_length : length reps = R;
  rh_handles r hs : reps !! r = Some hs → length hs = length chunks
    ∧ ∀ g chunk h, chunks !! g = Some chunk → hs !! g = Some h →
        handle_of s (data_key stocs g r) (region chunk) h
}.

Lemma replicas_hold_init s stocs : replicas_hold s stocs (replicate R []) [].
Proof. split; [by rewrite length_replicate|]. intros r hs [-> _]%lookup_replicate. split; [done|]. intros g chunk h. by rewrite lookup_nil. Qed.

Lemma replicas_hold_extends s s' stocs reps chunks :
  extends s s' → replicas_hold s stocs reps chunks → replicas_hold s' stocs reps chunks.
Proof.
  intros He [Hl Hh]. split; [done|]. intros r hs Hr. destruct (Hh r hs Hr) as [Hn Hg]. split; [done|].
  intros g chunk h Hc Hi. eapply handle_of_extends; eauto.
Qed.

Lemma replicas_hold_snoc s s' stocs reps chunks chunk hs :
  replicas_hold s stocs reps chunks → extends s s' →
  Forall2 (λ key h, handle_of s' key (region chunk) h) (group_keys stocs 0 (length chunks)) hs →
  replicas_hold s' stocs (zip_with (λ r h, r ++ [h]) reps hs) (chunks ++ [chunk]).
Proof.
  intros Hrep He Hhs. destruct (replicas_hold_extends s s' stocs reps chunks He Hrep) as [Hl Hh].
  pose proof (Forall2_length _ _ _ Hhs) as Hk. unfold group_keys in Hk. rewrite length_fmap, length_seq in Hk.
  split; [rewrite length_zip_with; lia|]. intros r l.
  intros (rep & h & -> & Hr & Hhr)%lookup_zip_with_Some. destruct (Hh r rep Hr) as [Hn Hg].
  split; [rewrite !length_app; cbn; lia|]. intros g c h' Hc Hh'.
  apply lookup_app_Some in Hc as [Hc|[Hge Hc]].
  - rewrite lookup_app_l in Hh' by (apply lookup_lt_Some in Hc; lia). by eapply Hg.
  - apply list_lookup_singleton_Some in Hc as [Hg0 ->]. assert (g = length chunks) as -> by lia.
    rewrite <- Hn, lookup_app_r, Nat.sub_diag in Hh' by lia. injection Hh' as ->.
    destruct (Forall2_lookup_r _ _ _ _ _ Hhs Hhr) as (key & Ek & Hk').
    unfold group_keys in Ek. apply list_lookup_fmap_Some in Ek as (r' & -> & Er).
    apply lookup_seq in Er as [-> _]. done.
Qed.

(** All fragments, [done] of them already written. *)
Lemma format_chunks w stocs groups chunks written reps frags es more s k rest :
  groups = (λ c, size_of c) <$> written ++ chunks → Forall (λ c, c ≠ []) chunks →
  es.*2 = handles_from (size_of (region (concat written))) (concat chunks) →
  replicas_hold s stocs reps written →
  (∀ g r, (g < length groups)%nat → (r < R)%nat → is_Some (stoc_of stocs g r)) →
  let keys := concat (group_keys stocs 0 <$> seq (length written) (length chunks)) ++ rest in
  all_free s (length keys + k) keys → NoDup keys →
  (∀ pre c post, concat (written ++ chunks) = pre ++ c ++ post →
     slice (wf_backing_mem w) (size_of (region pre)) (size_of (region c)) = region c) →
  Forall (λ c, size_of (region c) <= cap) chunks →
  ∃ s' reps' frags', fold_index (format_body cfg dbname file_number w groups stocs) es more
      (mkFormat s 0 0 0 (length written) frags reps)
      = Ret (mkFormat s' 0 0 0 (length groups) frags' reps', false)
    ∧ replicas_hold s' stocs reps' (written ++ chunks) ∧ extends s s' ∧ all_free s' (length rest + k) rest.
Proof.
  revert written reps frags es s. induction chunks as [|c chunks IH];
    intros written reps frags es s Hgr Hne Hes Hrep Hst keys Hfree Hnd Hmem Hcap; subst keys.
  - destruct es; [|done]. rewrite app_nil_r in *. exists s, reps, frags. subst groups. rewrite length_fmap.
    split_and!; [done|done|apply extends_refl|done].
  - apply Forall_cons in Hne as [Hc Hne]. apply Forall_cons in Hcap as [Hc1 Hcap].
    cbn [concat] in Hes. rewrite handles_app in Hes. apply fmap_app_inv in Hes as (es1 & es2 & Hes1 & Hes2 & ->).
    cbn [length seq fmap list_fmap concat] in Hfree, Hnd. rewrite <- app_assoc in Hfree, Hnd.
    assert (Hg : groups !! length written = Some (size_of c)).
    { subst groups. by rewrite list_lookup_fmap, list_lookup_middle. }
    destruct (format_chunk w groups stocs (length written) reps frags (size_of (region (concat written))) [] c es1
      (match es2 with [] => more | _ => true end) s k
      (concat (group_keys stocs 0 <$> seq (Datatypes.S (length written)) (length chunks)) ++ rest) Hc)
      as (s1 & hs & fr & E1 & Hhs & He1 & Hfree1 & _);
      [by rewrite <- Hes1, Z.add_0_r|done|by eapply rh_length| |done|done| |done|].
    { intros r Hr. apply Hst; [by eapply lookup_lt_Some|done]. }
    { apply (Hmem _ c (concat chunks)). by rewrite concat_app. }
    cbn [length Z.of_nat] in E1. rewrite decide_True in E1 by done. cbn [TableBuilder.region concat fmap list_fmap length] in E1.
    change (Z.of_nat 0) with 0 in E1. rewrite (fold_index_app _ es1 es2 more _ _ E1).
    assert (Hl : length (written ++ [c]) = Datatypes.S (length written)) by (rewrite length_app; cbn; lia).
    destruct (IH (written ++ [c]) (zip_with (λ r h, r ++ [h]) reps hs) (frags ++ fr) es2 s1) as (s2 & reps2 & fr2 & E2 & Hr2 & He2 & Hf2).
    { by rewrite <- app_assoc. } { done. }
    { rewrite <- Hes2, concat_app, region_app, length_app. cbn [concat]. rewrite app_nil_r. f_equal. lia. }
    { by eapply replicas_hold_snoc. } { done. }
    { by rewrite Hl. }
    { rewrite Hl. by apply NoDup_app in Hnd as (_ & _ & ?). }
    { rewrite <- app_assoc. done. } { done. }
    rewrite <- app_assoc in Hr2. rewrite Hl in E2. eexists s2, reps2, _. split_and!; [exact E2|done| |done].
    by eapply extends_trans.
Qed.
End store.

(** ** Groups of blocks *)

Lemma assign_blocks_sum n min_num remaining :
  0 <= min_num → 0 <= remaining <= Z.of_nat n →
  foldr Z.add 0 (assign_blocks n min_num remaining) = Z.of_nat n * min_num + remaining.
Proof.
  intros Hm. revert remaining. induction n as [|n IH]; intros r Hr; cbn [assign_blocks foldr]; [lia|].
  case_decide; cbn [foldr]; rewrite IH by lia; lia.
Qed.

Lemma assign_blocks_pos n min_num remaining :
  0 < min_num → Forall (λ x, 0 < x) (assign_blocks n min_num remaining).
Proof.
  intros Hm. revert remaining. induction n as [|n IH]; intros r; cbn [assign_blocks]; [constructor|].
  case_decide; constructor; try done; lia.
Qed.

(** The fragments of a table are not empty and together have all its blocks. *)
Lemma nblocks_in_group_ok cfg n :
  0 < n → 0 < num_stocs_scatter_data_blocks cfg →
  ∃ groups, nblocks_in_group cfg n = Ret groups ∧ Forall (λ x, 0 < x) groups ∧ foldr Z.add 0 groups = n
    ∧ groups ≠ [].
Proof.
  intros Hn Hs. unfold nblocks_in_group.
  assert (Forall (λ x, 0 < x) [n]) as H1 by (by repeat constructor).
  assert (foldr Z.add 0 [n] = n) as H2 by (cbn; lia).
  set (sc := num_stocs_scatter_data_blocks cfg) in *. destruct (decide (n >= sc)) as [Hge|Hge].
  - rewrite decide_False by lia.
    pose proof (Z.mod_pos_bound n sc Hs) as Hm. pose proof (Z.div_mod n sc ltac:(lia)) as Hd.
    assert (1 <= n / sc) as H3 by (apply Z.div_le_lower_bound; lia).
    pose proof (assign_blocks_sum (Z.to_nat sc) (n / sc) (n mod sc) ltac:(lia) ltac:(lia)) as Hsum.
    rewrite Z2Nat.id in Hsum by lia. rewrite decide_True by lia. cbn [mbind res_bind].
    case_decide; [by exists [n]|]. eexists. split; [done|]. split_and!; [apply assign_blocks_pos; lia|lia|].
    destruct (Z.to_nat sc) eqn:E; [lia|]. cbn. by case_decide.
  - cbn [mbind res_bind]. exists [n]. by case_decide.
Qed.

(** Blocks divided into groups. *)
Lemma divide_blocks {A} (groups : list Z) (l : list A) :
  Forall (λ x, 0 < x) groups → foldr Z.add 0 groups = size_of l →
  ∃ chunks, concat chunks = l ∧ groups = (λ c, size_of c) <$> chunks ∧ Forall (λ c, c ≠ []) chunks.
Proof.
  revert l. induction groups as [|n groups IH]; intros l Hp Hs; cbn [foldr] in Hs.
  { exists []. destruct l; [done|cbn in Hs; lia]. }
  apply Forall_cons in Hp as [Hn Hp].
  assert (0 <= foldr Z.add 0 groups) by (clear -Hp; induction Hp; cbn; lia).
  destruct (IH (drop (Z.to_nat n) l)) as (chunks & Ec & Eg & Hne); [done|rewrite length_drop; lia|].
  exists (take (Z.to_nat n) l :: chunks). cbn [concat fmap list_fmap]. rewrite Ec, take_drop. split; [done|].
  split; [f_equal; [rewrite length_take; lia|done]|]. constructor; [|done].
  intros E. assert (length (take (Z.to_nat n) l) = 0%nat) as E0 by by rewrite E. rewrite length_take in E0. lia.
Qed.

(** ** The table in the memory of the client *)

Lemma slice_middle (a b c : bytes) : slice (a ++ b ++ c) (size_of a) (size_of b) = b.
Proof. unfold slice. rewrite !Nat2Z.id, drop_app_length. apply take_app_length. Qed.

Lemma mem_write_prefix (mem p d : bytes) :
  p `prefix_of` mem → size_of p + size_of d <= size_of mem →
  (p ++ d) `prefix_of` mem_write mem (size_of p) d ∧ size_of (mem_write mem (size_of p) d) = size_of mem.
Proof.
  intros [junk ->] Hl. split; [|rewrite length_mem_write by lia; done]. unfold mem_write.
  rewrite Nat2Z.id, take_app_length, app_assoc. by eexists.
Qed.

Lemma prefix_slice (mem p : bytes) : p `prefix_of` mem → slice mem 0 (size_of p) = p.
Proof. intros [junk ->]. unfold slice. by rewrite Nat2Z.id, drop_0, take_app_length. Qed.

Lemma lower_bound_self cmp {OC : ComparatorOrder cmp} k (v : bytes) l : lower_bound cmp ((k, v) :: l) k = 0%nat.
Proof. cbn. rewrite decide_False; [done|]. rewrite cmp_refl. lia. Qed.

Section scatter.
Context {S : Type} {BS : BlockStore S} (cap : Z) (free : S → nat → block_key → Prop).
Context {BL : BlockStoreLaws S cap free}.
Context (cfg : StoCConfig) (dbname : bytes) (file_number : Z).
Context (AcceleratedCRC32C : Z → bytes → Z) (Snappy_Compress Snappy_Uncompress : bytes → option bytes).
Context (cmp : Comparator) {SC : Separating cmp} (interval block_size : Z).
Context (policy : FilterPolicy) {FC : FilterContract policy} (name : bytes).
Hypothesis interval_pos : 1 <= interval.

Local Abbreviation options := (table_options cmp interval block_size policy name).
Local Abbreviation stored := (stored AcceleratedCRC32C).
Local Abbreviation region := (region AcceleratedCRC32C).
Local Abbreviation table_image := (table_image AcceleratedCRC32C cmp block_size policy name).

Definition footer_of (cs : list bytes) (filt meta index : bytes) : Footer :=
  mkFooter (mkBlockHandle (size_of (region cs ++ stored filt)) (size_of meta))
    (mkBlockHandle (size_of (region cs ++ stored filt ++ stored meta)) (size_of index)).

(** The client holds [file] and may have written more memory behind it. *)
Record holds (w : StoCWritableFileClient) (file : bytes) (bls : list (list kv)) : Prop := {
  ho_mem : ∃ junk, wf_backing_mem w = file ++ junk;
  ho_used : wf_used_size w = size_of file;
  ho_blocks : wf_num_data_blocks w = size_of bls
}.

(** The contents of a stored block, whatever follows it. *)
Lemma ReadBlock_typed c rest :
  ReadBlock_contents AcceleratedCRC32C Snappy_Uncompress false (c ++ compression_byte kNoCompression :: rest) (length c)
  = Ret c.
Proof.
  unfold ReadBlock_contents. cbn [andb]. rewrite list_lookup_middle by done.
  rewrite decide_True by done. by rewrite take_app_length.
Qed.

Lemma ReadBlock_stored c rest :
  ReadBlock_contents AcceleratedCRC32C Snappy_Uncompress false (stored c ++ rest) (length c) = Ret c.
Proof. unfold TableBuilder.stored, block_trailer. rewrite <- !app_assoc. apply ReadBlock_typed. Qed.

Lemma image_footer_set file kvs bls cs seps filt meta index :
  table_image file kvs bls cs seps filt meta index → footer_set (footer_of cs filt meta index).
Proof.
  intros H. pose proof (im_small H) as Hs. rewrite (im_file H) in Hs.
  rewrite !length_app in Hs. pose proof (size_stored AcceleratedCRC32C meta). pose proof (size_stored AcceleratedCRC32C index).
  split; unfold handle_set, footer_of; cbn [metaindex_handle index_handle bh_offset bh_size]; rewrite !length_app; lia.
Qed.

Lemma client_footer_image w file kvs bls cs seps filt meta index :
  holds w file bls → table_image file kvs bls cs seps filt meta index →
  client_footer w = Ret (footer_of cs filt meta index).
Proof.
  intros [[junk Em] Hu _] H. unfold client_footer. rewrite Em, Hu.
  pose proof (im_file H) as Ef. fold (footer_of cs filt meta index) in Ef.
  rewrite Ef, !app_assoc, <- app_assoc, (length_app _ (encode_footer _)), (length_encode_footer (footer_of cs filt meta index)).
  set (pre := ((region cs ++ stored filt) ++ stored meta) ++ stored index).
  replace (Z.of_nat (length pre + kFooterLength) - Z.of_nat kFooterLength) with (size_of pre) by lia.
  rewrite <- (length_encode_footer (footer_of cs filt meta index)), slice_middle.
  rewrite <- (app_nil_r (encode_footer _)), Footer_DecodeFrom_set by (by eapply image_footer_set). done.
Qed.

Lemma client_index_image w file kvs bls cs seps filt meta index :
  holds w file bls → table_image file kvs bls cs seps filt meta index →
  client_index AcceleratedCRC32C Snappy_Uncompress w (footer_of cs filt meta index) = Ret index.
Proof.
  intros [[junk Em] Hu _] H. unfold client_index. rewrite Em.
  pose proof (im_small H) as Hs. rewrite (im_file H) in Hs |- *.
  destruct (im_index H) as (ss & ridx & _ & _ & [Hsz1 Hsz] & _).
  unfold footer_of at 1 2. cbn [index_handle bh_offset bh_size]. rewrite w32_small by mlia. rewrite !Nat2Z.id.
  set (tail := encode_footer _).
  assert ((region cs ++ stored filt ++ stored meta ++ stored index ++ tail) ++ junk
    = (region cs ++ stored filt ++ stored meta) ++ stored index ++ tail ++ junk) as -> by (by rewrite <- !app_assoc).
  by rewrite drop_app_length, ReadBlock_stored.
Qed.

(** The entries of the index block with their handles. *)
Definition index_handles (seps cs : list bytes) : list (bytes * BlockHandle) := zip seps (handles_from AcceleratedCRC32C 0 cs).

Lemma index_handles_entries seps cs :
  index_entries AcceleratedCRC32C seps cs = prod_map id encode_handle <$> index_handles seps cs.
Proof.
  unfold index_entries, index_handles. generalize (handles_from AcceleratedCRC32C 0 cs). induction seps as [|sep seps IH]; intros [|h hs]; try done.
  cbn. by rewrite <- IH.
Qed.

Lemma index_handles_snd seps cs : length seps = length cs → (index_handles seps cs).*2 = handles_from AcceleratedCRC32C 0 cs.
Proof. intros Hl. unfold index_handles. apply snd_zip. rewrite length_handles. lia. Qed.

Lemma image_lengths file kvs bls cs seps filt meta index :
  table_image file kvs bls cs seps filt meta index → length cs = length bls ∧ length seps = length cs.
Proof.
  intros H. pose proof (blocks_length cmp cs bls (im_blocks H)).
  pose proof (im_seps_length H). lia.
Qed.

Lemma index_handles_set file kvs bls cs seps filt meta index :
  table_image file kvs bls cs seps filt meta index → Forall (λ e, handle_set e.2) (index_handles seps cs).
Proof.
  intros H. apply Forall_forall. intros [sep h] He%elem_of_zip_r.
  apply handles_bound in He. pose proof (im_small H) as Hs.
  rewrite (im_file H), length_app in Hs. split; cbn [snd]; lia.
Qed.

(** A loop over the index block of the table. *)
Lemma for_index_image {A} (body : A → bytes → BlockHandle → bool → res (A * bool)) file kvs bls cs seps filt meta index a :
  table_image file kvs bls cs seps filt meta index →
  for_index options index body a = ('(a, _) ← fold_index body (index_handles seps cs) false a; Ret a).
Proof.
  intros H. apply (for_index_fold options).
  - rewrite <- index_handles_entries. apply (im_index H).
  - by eapply index_handles_set.
Qed.

Definition data_keys (stocs : list Z) (n : nat) : list block_key :=
  concat (group_keys cfg dbname file_number stocs 0 <$> seq 0 n).

(** [Format] stores every fragment once per replica. *)
Lemma Format_ok s w select stocs file kvs bls cs seps filt meta index chunks k rest :
  holds w file bls → table_image file kvs bls cs seps filt meta index →
  wf_replicas w = replicate (number_of_sstable_data_replicas cfg) [] →
  use_parity_for_sstable_data_blocks cfg = false →
  nblocks_in_group cfg (size_of bls) = Ret ((λ c, size_of c) <$> chunks) → concat chunks = cs →
  select (num_stocs_to_select cfg ((λ c, size_of c) <$> chunks)) = Ret stocs →
  Forall (λ c, c ≠ []) chunks → size_of (region cs) <= cap →
  (∀ g r, (g < length chunks)%nat → (r < number_of_sstable_data_replicas cfg)%nat → is_Some (stoc_of cfg stocs g r)) →
  let keys := data_keys stocs (length chunks) ++ rest in
  all_free free s (length keys + k) keys → NoDup keys →
  ∃ s' reps, Format AcceleratedCRC32C Snappy_Uncompress options cfg dbname file_number s w select
      = Ret (s', set_format w index ((λ c, size_of c) <$> chunks) stocs reps None)
    ∧ replicas_hold cfg dbname file_number AcceleratedCRC32C s' stocs reps chunks
    ∧ extends s s' ∧ all_free free s' (length rest + k) rest.
Proof.
  intros Hh Hi Hrep Hpar Hgr Hcs Hsel Hne Hcap Hst keys Hfree Hnd.
  destruct (image_lengths _ _ _ _ _ _ _ _ Hi) as [Hl1 Hl2].
  unfold Format. rewrite (client_footer_image _ _ _ _ _ _ _ _ _ Hh Hi). cbn [mbind res_bind].
  rewrite (client_index_image _ _ _ _ _ _ _ _ _ Hh Hi). cbn [mbind res_bind].
  rewrite (ho_blocks _ _ _ Hh), Hgr. cbn [mbind res_bind]. rewrite Hsel. cbn [mbind res_bind]. rewrite (for_index_image _ _ _ _ _ _ _ _ _ _ Hi), Hrep, Hpar.
  destruct (format_chunks cap free cfg dbname file_number AcceleratedCRC32C w stocs ((λ c, size_of c) <$> chunks) chunks []
    (replicate (number_of_sstable_data_replicas cfg) []) [] (index_handles seps cs) false s k rest)
    as (s' & reps & frags & E & Hhold & Hext & Hfree'); try done.
  - rewrite index_handles_snd, <- Hcs by done. done.
  - apply replicas_hold_init.
  - intros g r Hg. apply Hst. by rewrite length_fmap in Hg.
  - cbn [app]. rewrite Hcs. intros pre c post ->. destruct (ho_mem _ _ _ Hh) as [junk ->].
    rewrite (im_file Hi), !region_app, <- !app_assoc. apply slice_middle.
  - apply Forall_forall. intros c Hc. etrans; [|exact Hcap]. rewrite <- Hcs.
    apply list_elem_of_split in Hc as (l1 & l2 & ->). rewrite concat_app. cbn [concat]. rewrite !region_app, !length_app. lia.
  - cbn [length] in E. rewrite E. cbn [mbind res_bind fs_group_id fs_n fs_store fs_replicas]. rewrite decide_True by done. eauto 10.
Qed.

(** ** The index of the metadata file *)

Local Abbreviation lt := (λ a b : kv, Compare a.1 b.1 < 0).
Local Abbreviation handles_from := (handles_from AcceleratedCRC32C).

(** A block at [b] of the fragment [h]. *)
Definition in_fragment (h : StoCBlockHandle) (b : BlockHandle) : StoCBlockHandle :=
  mkHandle (bh_server_id h) (bh_stoc_file_id h) (bh_offset b) (bh_size b).

Definition fragment_handles (hs : list StoCBlockHandle) (chunks : list (list bytes)) : list StoCBlockHandle :=
  concat (zip_with (λ h chunk, in_fragment h <$> handles_from 0 chunk) hs chunks).

Lemma kvs_bound_pos E : 8 <= kvs_bound E.
Proof. unfold kvs_bound. induction E as [|e E IH]; cbn [foldr]; lia. Qed.

(** The builder [b] has been filled with [E]. *)
Definition builds (b : BlockBuilder) (E : list kv) : Prop :=
  (∃ ss ridx, built interval b E ss ridx) ∧ add_entries cmp interval BlockBuilder_init E = Ret b.

(** [contents] is the block that a builder makes of [E]. *)
Definition finishes (contents : bytes) (E : list kv) : Prop :=
  ∃ b, add_entries cmp interval BlockBuilder_init E = Ret b ∧ contents = (BlockBuilder_Finish b).2.

Lemma finishes_size c c' (E E' : list kv) :
  finishes c E → finishes c' E' → Forall2 (λ e e' : kv, e.1 = e'.1 ∧ length e.2 = length e'.2) E E' → size_of c = size_of c'.
Proof.
  intros (b & Eb & ->) (b' & Eb' & ->) HE. apply Finish_shape. by eapply add_entries_shape.
Qed.

Lemma Add_entry b E k v :
  builds b E → kvs_bound (E ++ [(k, v)]) < 2 ^ 32 → StronglySorted lt (E ++ [(k, v)]) →
  ∃ b', BlockBuilder_Add cmp interval b k v = Ret b' ∧ builds b' (E ++ [(k, v)]).
Proof.
  intros [(ss & ridx & Hb) Ea] Hbound Hs.
  destruct (Add_built cmp interval interval_pos b E ss ridx k v Hb Hbound) as (b' & ss' & ridx' & E' & Hb').
  2: { exists b'. split; [done|]. split; [by eauto|]. rewrite add_entries_app, Ea. cbn [mbind res_bind add_entries]. by rewrite E'. }
  intros Hne. destruct (exists_last Hne) as (l & [k' v'] & ->). rewrite last_key_of_snoc.
  eapply (StronglySorted_app_1_elem_of _ _ _ (k', v') (k, v) Hs); elem.
Qed.

(** The rest of one fragment. *)
Lemma meta_chunk groups statuses g cur base c1 c2 keys E b fs more :
  c2 ≠ [] → length keys = length c2 → groups !! g = Some (size_of (c1 ++ c2)) →
  FileMeta.bh_offset cur = 0 → FileMeta.bh_size cur = size_of (region (c1 ++ c2)) →
  size_of (region (c1 ++ c2)) < 2 ^ 32 →
  builds b E →
  let new := zip keys (EncodeHandle ∘ in_fragment cur <$> handles_from (size_of (region c1)) c2) in
  kvs_bound (E ++ new) < 2 ^ 32 → StronglySorted lt (E ++ new) →
  ∃ b', builds b' (E ++ new)
    ∧ fold_index (meta_body options groups statuses) (zip keys (handles_from (base + size_of (region c1)) c2)) more
        (mkMeta b cur (if decide (c1 = []) then 0 else base) g (size_of c1) fs)
      = let fs' := base + size_of (region (c1 ++ c2)) in
        if decide (Datatypes.S g = length statuses) then
          if more then Abort else Ret (mkMeta b' cur 0 (Datatypes.S g) 0 fs', true)
        else
          match statuses !! Datatypes.S g with
          | None => Abort
          | Some cur => Ret (mkMeta b' cur 0 (Datatypes.S g) 0 fs', false)
          end.
Proof.
  revert c1 keys E b fs. induction c2 as [|c c2 IH]; intros c1 keys E b fs Hne Hk Hg Ho Hsz Hsmall Hb new Hbound Hs; [done|].
  destruct keys as [|key keys]; [done|]. cbn [length] in Hk. subst new.
  cbn [TableBuilder.handles_from fmap list_fmap zip zip_with compose] in Hbound, Hs |- *.
  rewrite cons_middle, app_assoc in Hbound, Hs |- *.
  pose proof (size_stored AcceleratedCRC32C c) as Hst.
  assert (Hr : size_of (region (c1 ++ c :: c2)) = size_of (region c1) + size_of c + 5 + size_of (region c2))
    by (rewrite region_app, region_cons, !length_app; lia).
  rewrite fold_index_cons.
  match goal with |- context [mbind _ ?m] => set (call := m) end. unfold meta_body in call. subst call.
  cbn [ms_current ms_relative_offset ms_n ms_builder ms_group_id ms_filter_start bh_offset bh_size bh_server_id bh_stoc_file_id FileMeta.bh_offset FileMeta.bh_size].
  assert ((if decide (size_of c1 = 0) then base + size_of (region c1) else if decide (c1 = []) then 0 else base) = base) as ->.
  { destruct c1; cbn [length]; [rewrite decide_True by done; cbn; lia|]. by rewrite !decide_False by (done || lia). }
  rewrite Ho. replace (w64 (base + size_of (region c1) - base + 0)) with (size_of (region c1)) by (rewrite w64_small; mlia).
  rewrite (w32_small (size_of c)) by mlia.
  change (mkHandle (bh_server_id cur) (bh_stoc_file_id cur) (size_of (region c1)) (size_of c))
    with (in_fragment cur (mkBlockHandle (size_of (region c1)) (size_of c))).
  set (v := EncodeHandle _) in *.
  destruct (Add_entry b E key v Hb) as (b1 & E1 & Hb1).
  { rewrite kvs_bound_app in Hbound. pose proof (kvs_bound_pos (zip keys (EncodeHandle ∘ in_fragment cur <$> handles_from (size_of (region c1) + size_of (stored c)) c2))). lia. }
  { by eapply StronglySorted_app_1_l. }
  cbn [opt_comparator opt_restart_interval table_options]. rewrite E1. cbn [mbind res_bind]. rewrite Hg.
  destruct c2 as [|c' c2].
  - destruct keys; [|done]. rewrite decide_True by (rewrite length_app; cbn; lia).
    unfold in_fragment. cbn [FileMeta.bh_offset FileMeta.bh_size bh_offset bh_size].
    cbn [region concat fmap list_fmap length] in Hr. change (size_of (region [])) with 0 in Hr.
    rewrite decide_True by (rewrite Hsz, Hr; unfold kBlockTrailerSize; lia).
    exists b1. cbn [TableBuilder.handles_from fmap list_fmap zip_with]. rewrite app_nil_r. split; [done|].
    replace (base + size_of (region c1) + size_of c + Z.of_nat kBlockTrailerSize) with (base + size_of (region (c1 ++ [c])))
      by (rewrite Hr; unfold kBlockTrailerSize; lia).
    case_decide; [by destruct more|]. by destruct (statuses !! Datatypes.S g).
  - rewrite decide_False by (rewrite length_app; cbn; lia). cbn [mbind res_bind].
    specialize (IH (c1 ++ [c]) keys (E ++ [(key, v)]) b1). rewrite <- !(app_assoc c1) in IH. cbn [app] in IH.
    assert (size_of (region (c1 ++ [c])) = size_of (region c1) + size_of (stored c)) as Hr1
      by (rewrite region_snoc, length_app; lia).
    assert (size_of (c1 ++ [c]) = size_of c1 + 1) as Hn by (rewrite length_app; cbn; lia). rewrite Hr1, Hn in IH.
    rewrite decide_False in IH by (by destruct c1). rewrite Z.add_assoc in IH.
    apply IH; try done. lia.
Qed.

(** Each fragment has its handle: at the start of its StoC file, of its size. *)
Definition fragments_at (hs : list StoCBlockHandle) (chunks : list (list bytes)) : Prop :=
  Forall2 (λ h chunk, FileMeta.bh_offset h = 0 ∧ FileMeta.bh_size h = size_of (region chunk)) hs chunks.

Lemma in_fragment_compose h (hs : list BlockHandle) : EncodeHandle ∘ in_fragment h <$> hs = EncodeHandle <$> (in_fragment h <$> hs).
Proof. apply list_fmap_compose. Qed.

(** All fragments, from one of them on. *)
Lemma meta_chunks groups written chunks hs1 h hs2 keys E b fs :
  groups = (λ c, size_of c) <$> written ++ chunks → chunks ≠ [] → Forall (λ c, c ≠ []) chunks →
  length hs1 = length written → fragments_at (h :: hs2) chunks →
  size_of (region (concat chunks)) < 2 ^ 32 → length keys = length (concat chunks) →
  builds b E →
  let new := zip keys (EncodeHandle <$> fragment_handles (h :: hs2) chunks) in
  kvs_bound (E ++ new) < 2 ^ 32 → StronglySorted lt (E ++ new) →
  ∃ b' cur, builds b' (E ++ new)
    ∧ fold_index (meta_body options groups (hs1 ++ h :: hs2))
        (zip keys (handles_from (size_of (region (concat written))) (concat chunks))) false
        (mkMeta b h 0 (length written) 0 fs)
      = Ret (mkMeta b' cur 0 (length groups) 0 (size_of (region (concat (written ++ chunks)))), true).
Proof.
  revert written hs1 h hs2 keys E b fs.
  induction chunks as [|c chunks IH]; intros written hs1 h hs2 keys E b fs Hgr Hne Hall Hl1 Hat Hsz Hk Hb new Hbound Hs; [done|].
  subst new. apply Forall_cons in Hall as [Hc Hall]. apply Forall2_cons in Hat as [[Ho Hcs] Hat].
  cbn [concat] in Hk, Hsz |- *. rewrite length_app in Hk. rewrite region_app, length_app in Hsz.
  set (k1 := take (length c) keys). set (k2 := drop (length c) keys).
  assert (Ek : keys = k1 ++ k2) by (by rewrite <- (take_drop (length c) keys)).
  assert (Hk1 : length k1 = length c) by (unfold k1; rewrite length_take; lia).
  assert (Hk2 : length k2 = length (concat chunks)) by (unfold k2; rewrite length_drop; lia).
  clearbody k1 k2. subst keys. clear Hk.
  assert (Enew : zip (k1 ++ k2) (EncodeHandle <$> fragment_handles (h :: hs2) (c :: chunks))
    = zip k1 (EncodeHandle ∘ in_fragment h <$> handles_from 0 c) ++ zip k2 (EncodeHandle <$> fragment_handles hs2 chunks)).
  { unfold fragment_handles. cbn [zip_with concat]. rewrite fmap_app, <- in_fragment_compose.
    apply zip_with_app. rewrite length_fmap, length_handles. done. }
  rewrite Enew, app_assoc in Hbound, Hs. rewrite Enew, app_assoc. clear Enew.
  rewrite handles_app, zip_with_app by (by rewrite length_handles).
  assert (Hg : groups !! length written = Some (size_of c)) by (subst groups; by rewrite list_lookup_fmap, list_lookup_middle).
  destruct (meta_chunk groups (hs1 ++ h :: hs2) (length written) h (size_of (region (concat written))) [] c k1 E b fs
    (match zip k2 (handles_from (size_of (region (concat written)) + size_of (region c)) (concat chunks)) with [] => false | _ => true end)
    Hc Hk1 Hg Ho Hcs) as (b1 & Hb1 & E1); [cbn [app]; lia|done| | |].
  { rewrite kvs_bound_app in Hbound. pose proof (kvs_bound_pos (zip k2 (EncodeHandle <$> fragment_handles hs2 chunks))).
    cbn [TableBuilder.region concat fmap list_fmap length]. change (Z.of_nat 0) with 0. lia. }
  { by eapply StronglySorted_app_1_l. }
  cbn [TableBuilder.region concat fmap list_fmap length app] in E1, Hb1. change (Z.of_nat 0) with 0 in E1, Hb1.
  fold (region c) in E1. rewrite Z.add_0_r, decide_True, length_app in E1 by done. cbn [length] in E1.
  destruct chunks as [|c' chunks].
  - apply Forall2_nil_inv_r in Hat as ->. destruct k2; [|done]. cbn [concat TableBuilder.handles_from zip_with] in E1 |- *.
    rewrite decide_True in E1 by (cbn; lia). exists b1, h. rewrite !app_nil_r. split; [done|]. rewrite E1. do 3 f_equal.
    + subst groups. rewrite length_fmap, length_app. cbn. lia.
    + rewrite concat_app, region_app, length_app. cbn [concat]. rewrite app_nil_r. lia.
  - apply Forall2_cons_inv_r in Hat as (h' & hs3 & Hh' & Hat & ->).
    rewrite decide_False, lookup_app_r in E1 by (cbn [length]; lia).
    replace (Datatypes.S (length written) - length hs1)%nat with 1%nat in E1 by lia. cbn [lookup list_lookup] in E1.
    rewrite (fold_index_app _ _ _ _ _ _ E1).
    destruct (IH (written ++ [c]) (hs1 ++ [h]) h' hs3 k2 (E ++ zip k1 (EncodeHandle ∘ in_fragment h <$> handles_from 0 c)) b1 (size_of (region (concat written)) + size_of (region c)))
      as (b2 & cur & Hb2 & E2); try done.
    { by rewrite <- app_assoc. } { rewrite !length_app. cbn. lia. } { by constructor. } { cbn in Hsz |- *. lia. }
    exists b2, cur. split; [done|]. rewrite <- !app_assoc in E2. cbn [app] in E2.
    rewrite concat_app, region_app, !length_app in E2. cbn [concat length] in E2. rewrite app_nil_r, Nat.add_1_r, Nat2Z.inj_add in E2.
    exact E2.
Qed.

(** ** The metadata file *)

Context (ItemAlloc : Z → bytes).
(** The memory manager returns buffers of the size asked for. *)
Hypothesis ItemAlloc_size : ∀ n, 0 <= n → size_of (ItemAlloc n) = n.

Definition client_stored (c : bytes) : bytes := c ++ client_trailer AcceleratedCRC32C c kNoCompression.

Lemma size_client_stored c : size_of (client_stored c) = size_of c + 5.
Proof. unfold client_stored, client_trailer. rewrite length_app. cbn [length EncodeFixed32]. lia. Qed.

Lemma Client_WriteBlock_prefix mem used p b allocated :
  let raw := (BlockBuilder_Finish b).2 in
  p `prefix_of` mem → size_of p + size_of raw + 5 < allocated → allocated <= size_of mem → size_of raw + 5 < 2 ^ 32 →
  ∃ mem' used', Client_WriteBlock AcceleratedCRC32C Snappy_Compress options mem used (size_of p) b allocated
      = Ret (mem', used', size_of raw + 5)
    ∧ (p ++ client_stored raw) `prefix_of` mem' ∧ size_of mem' = size_of mem.
Proof.
  intros raw Hp Hfit Hal Hsmall. unfold Client_WriteBlock. cbn [opt_compression table_options]. fold raw.
  unfold Client_WriteRawBlock, write_at. rewrite decide_True by lia. cbn [mbind res_bind].
  destruct (mem_write_prefix mem p raw Hp ltac:(lia)) as [Hp1 Hl1].
  pose proof (size_client_stored raw) as Hst. unfold client_stored in Hst. rewrite length_app in Hst.
  rewrite decide_True by lia. cbn [mbind res_bind].
  replace (size_of p + size_of raw) with (size_of (p ++ raw)) by (rewrite length_app; lia).
  destruct (mem_write_prefix _ (p ++ raw) (client_trailer AcceleratedCRC32C raw kNoCompression) Hp1) as [Hp2 Hl2].
  { rewrite Hl1, length_app. lia. }
  rewrite w32_small by (unfold kBlockTrailerSize; mlia). eexists _, _. split; [done|].
  rewrite <- app_assoc in Hp2. split; [done|lia].
Qed.

(** The metadata file: filter, index of the meta blocks, index, footer. *)
Definition metadata_of (filt meta index : bytes) : bytes :=
  stored filt ++ client_stored meta ++ client_stored index
  ++ encode_footer (mkFooter (mkBlockHandle (size_of (stored filt)) (size_of meta))
       (mkBlockHandle (size_of (stored filt ++ client_stored meta)) (size_of index))).

Lemma metadata_file_ok w file kvs bls cs seps filt meta index m :
  holds w file bls → table_image file kvs bls cs seps filt meta index → ms_filter_start m = size_of (region cs) →
  let index' := (BlockBuilder_Finish (ms_builder m)).2 in
  size_of index' + size_of name + 64 < METABLOCK_SIZE_PADDING →
  size_of (region cs) + size_of filt + size_of index' + size_of name + 128 < wf_allocated_size w →
  ∃ meta' mem, metadata_file AcceleratedCRC32C Snappy_Compress options ItemAlloc w (footer_of cs filt meta index) m
      = Ret (mem, size_of (metadata_of filt meta' index'))
    ∧ metadata_of filt meta' index' `prefix_of` mem
    ∧ block_of cmp meta' [(filter_key name, encode_handle (mkBlockHandle 0 (size_of filt)))]
    ∧ finishes meta' [(filter_key name, encode_handle (mkBlockHandle 0 (size_of filt)))].
Proof.
  intros [[junk Em] Hu _] Hi Hm index' Hpad Hroom. unfold METABLOCK_SIZE_PADDING in Hpad.
  pose proof (im_filter Hi) as (_ & _ & _ & _ & _ & Hf32).
  pose proof (size_stored AcceleratedCRC32C filt) as Sf. pose proof (size_stored AcceleratedCRC32C meta) as Sm.
  pose proof (size_stored AcceleratedCRC32C index) as Si. pose proof (im_file Hi) as Ef.
  unfold metadata_file. rewrite Hm. unfold footer_of. cbn [metaindex_handle bh_offset]. cbn [opt_filter table_options].
  replace (w32 (size_of (region cs ++ stored filt) - size_of (region cs) - Z.of_nat kBlockTrailerSize)) with (size_of filt)
    by (rewrite length_app, w32_small; unfold kBlockTrailerSize; mlia).
  replace (size_of filt + Z.of_nat kBlockTrailerSize) with (size_of (stored filt)) by (unfold kBlockTrailerSize; lia).
  set (fh := mkBlockHandle 0 (size_of filt)).
  rewrite BlockHandle_EncodeTo_set by (unfold fh; split; cbn; lia). cbn [mbind res_bind app].
  destruct (single_entry_block cmp interval (filter_key name) (encode_handle fh) interval_pos) as (mb & Emb & Hmeta & Hmsz).
  all: pose proof (length_encode_handle fh) as Hlh; unfold kMaxEncodedLength in Hlh; change (length (filter_key name)) with (7 + length name)%nat in *.
  { lia. }
  change (filter_key_prefix ++ name) with (filter_key name). cbn [opt_comparator opt_restart_interval table_options].
  rewrite Emb. cbn [mbind res_bind]. set (meta' := (BlockBuilder_Finish mb).2) in *.
  set (allocated := wf_used_size w - size_of (region cs) + METABLOCK_SIZE_PADDING).
  assert (Hal : allocated = size_of (stored filt) + size_of (stored meta) + size_of (stored index) + 48 + 1048576).
  { unfold allocated, METABLOCK_SIZE_PADDING. rewrite Hu, Ef, !length_app, length_encode_footer.
    unfold kFooterLength, kMaxEncodedLength. lia. }
  assert (slice (wf_backing_mem w) (size_of (region cs)) (size_of (stored filt)) = stored filt) as ->.
  { rewrite Em, Ef, <- !app_assoc. apply slice_middle. }
  pose proof (ItemAlloc_size allocated ltac:(lia)) as Hmem.
  destruct (mem_write_prefix (ItemAlloc allocated) [] (stored filt)) as [Hp0 Hl0]; [apply prefix_nil|cbn; lia|].
  change (size_of (@nil Z)) with 0 in Hp0, Hl0. cbn [app] in Hp0.
  destruct (Client_WriteBlock_prefix _ 0 (stored filt) mb allocated Hp0) as (mem1 & used1 & -> & Hp1 & Hl1);
    [fold meta'; lia|lia|fold meta'; lia|]. fold meta' in Hp1 |- *. cbn [mbind res_bind].
  pose proof (size_client_stored meta') as Sm'. pose proof (size_client_stored index') as Si'.
  replace (size_of (stored filt) + (size_of meta' + 5)) with (size_of (stored filt ++ client_stored meta'))
    by (rewrite length_app; lia).
  destruct (Client_WriteBlock_prefix mem1 used1 _ (ms_builder m) allocated Hp1) as (mem2 & used2 & -> & Hp2 & Hl2);
    [fold index'; rewrite length_app; lia|lia|fold index'; lia|]. fold index' in Hp2 |- *. cbn [mbind res_bind].
  unfold kBlockTrailerSize. rewrite !Z.add_simpl_r, !w32_small by mlia.
  set (footer := mkFooter _ _). rewrite Footer_EncodeTo_set by (unfold footer; split; split; cbn [bh_offset bh_size metaindex_handle index_handle]; rewrite ?length_app; lia).
  cbn [mbind res_bind]. unfold write_at. pose proof (length_encode_footer footer) as Hlf. unfold kFooterLength, kMaxEncodedLength in Hlf.
  replace (size_of (stored filt ++ client_stored meta') + (size_of index' + 5))
    with (size_of ((stored filt ++ client_stored meta') ++ client_stored index')) by (rewrite !length_app; lia).
  rewrite decide_True by (rewrite !length_app; lia). cbn [mbind res_bind]. rewrite decide_True by (rewrite !length_app; lia).
  destruct (mem_write_prefix mem2 _ (encode_footer footer) Hp2) as [Hp3 _]; [rewrite !length_app; lia|].
  exists meta', (mem_write mem2 (size_of ((stored filt ++ client_stored meta') ++ client_stored index')) (encode_footer footer)).
  split_and!; [do 2 f_equal|..|done|exists mb; by cbn [add_entries]; rewrite Emb]; unfold metadata_of; fold footer; rewrite !app_assoc; [rewrite (length_app _ (encode_footer footer)); lia|done].
Qed.

Lemma size_metadata_of filt meta index :
  block_of cmp meta [(filter_key name, encode_handle (mkBlockHandle 0 (size_of filt)))] →
  size_of (metadata_of filt meta index) <= size_of filt + size_of index + size_of name + 117.
Proof.
  intros (? & ? & _ & _ & [Hm _] & _). unfold metadata_of. rewrite !length_app, length_encode_footer.
  pose proof (size_stored AcceleratedCRC32C filt). pose proof (size_client_stored meta). pose proof (size_client_stored index).
  unfold kvs_bound in Hm. cbn [foldr fst snd] in Hm. change (length (filter_key name)) with (7 + length name)%nat in Hm.
  pose proof (length_encode_handle (mkBlockHandle 0 (size_of filt))). unfold kFooterLength, kMaxEncodedLength in *. lia.
Qed.

(** An upper bound on the index of a metadata file. *)
Definition keys_bound (kvs : list kv) : Z := foldr (λ e acc, size_of e.1 + 39 + acc) 8 kvs.

Lemma keys_bound_app a b : keys_bound (a ++ b) = keys_bound a + keys_bound b - 8.
Proof. unfold keys_bound. induction a as [|e a IH]; cbn [app foldr]; lia. Qed.

Lemma keys_bound_pos a : 8 <= keys_bound a.
Proof. unfold keys_bound. induction a as [|e a IH]; cbn [foldr]; lia. Qed.

Lemma keys_bound_elem a e : e ∈ a → size_of e.1 + 47 <= keys_bound a.
Proof.
  intros (l1 & l2 & ->)%list_elem_of_split. rewrite keys_bound_app. pose proof (keys_bound_pos l1).
  change (keys_bound (e :: l2)) with (size_of e.1 + 39 + keys_bound l2). pose proof (keys_bound_pos l2). lia.
Qed.

Lemma index_bound (hs : list StoCBlockHandle) bls seps :
  (length seps <= length bls)%nat → sep_sizes bls seps →
  kvs_bound (zip seps (EncodeHandle <$> hs)) <= keys_bound (concat bls).
Proof.
  revert bls hs. induction seps as [|sep seps IH]; intros bls hs Hl Hs.
  { apply keys_bound_pos. }
  destruct hs as [|h hs]; [apply keys_bound_pos|].
  destruct bls as [|bl bls]; [cbn in Hl; lia|]. cbn [concat]. rewrite keys_bound_app.
  destruct (Hs 0%nat sep bl eq_refl eq_refl) as (e & He%keys_bound_elem & Hle).
  assert (kvs_bound (zip seps (EncodeHandle <$> hs)) <= keys_bound (concat bls)) as H'.
  { apply IH; [cbn in Hl; lia|]. intros i s' b Hi Hb. by apply (Hs (Datatypes.S i)). }
  change (zip (sep :: seps) (EncodeHandle <$> h :: hs)) with ((sep, EncodeHandle h) :: zip seps (EncodeHandle <$> hs)).
  change (kvs_bound ((sep, EncodeHandle h) :: ?l)) with (size_of sep + size_of (EncodeHandle h) + 19 + kvs_bound l).
  rewrite length_EncodeHandle. unfold HandleSize. lia.
Qed.

Definition meta_key (stoc_id : Z) (replica_id : nat) : block_key :=
  (stoc_id, dbname, file_number, Z.of_nat replica_id, kFileMetadata).

(** [WriteMetaDataBlock] writes an index with the handles of one data replica. *)
Lemma WriteMetaDataBlock_ok s w file kvs bls cs seps filt meta index chunks stoc_id replica_id hs k keys :
  holds w file bls → table_image file kvs bls cs seps filt meta index →
  wf_index_block w = index → wf_nblocks_in_group w = (λ c, size_of c) <$> chunks →
  concat chunks = cs → Forall (λ c, c ≠ []) chunks → cs ≠ [] → size_of (region cs) < 2 ^ 32 →
  wf_replicas w !! (if decide (length (wf_replicas w) = 1%nat) then 0%nat else replica_id) = Some hs →
  fragments_at hs chunks →
  keys_bound kvs + size_of name + 64 < METABLOCK_SIZE_PADDING →
  size_of (region cs) + size_of filt + keys_bound kvs + size_of name + 192 < wf_allocated_size w →
  size_of filt + keys_bound kvs + size_of name + 192 <= cap →
  all_free free s (Datatypes.S k) (meta_key stoc_id replica_id :: keys) → meta_key stoc_id replica_id ∉ keys →
  ∃ s' h meta' index', WriteMetaDataBlock AcceleratedCRC32C Snappy_Compress options dbname file_number ItemAlloc
        s w stoc_id replica_id = Ret (s', metadata_of filt meta' index', h)
    ∧ block_of cmp index' (zip seps (EncodeHandle <$> fragment_handles hs chunks))
    ∧ finishes index' (zip seps (EncodeHandle <$> fragment_handles hs chunks))
    ∧ size_of index' <= keys_bound kvs
    ∧ block_of cmp meta' [(filter_key name, encode_handle (mkBlockHandle 0 (size_of filt)))]
    ∧ finishes meta' [(filter_key name, encode_handle (mkBlockHandle 0 (size_of filt)))]
    ∧ handle_of s' (meta_key stoc_id replica_id) (metadata_of filt meta' index') h
    ∧ extends s s' ∧ all_free free s' k keys.
Proof.
  intros Hh Hi Hidx Hgr Hcs Hne Hcne Hsz Hrep Hat Hpad Hroom Hcap Hfree Hnin.
  destruct (image_lengths _ _ _ _ _ _ _ _ Hi) as [Hl1 Hl2].
  unfold WriteMetaDataBlock. rewrite (client_footer_image _ _ _ _ _ _ _ _ _ Hh Hi). cbn [mbind res_bind]. rewrite Hrep.
  destruct chunks as [|ch chunks]; [by subst cs|]. apply Forall2_cons_inv_r in Hat as (h & hs' & Hh0 & Hat & ->).
  cbn [lookup list_lookup]. rewrite Hidx, (for_index_image _ _ _ _ _ _ _ _ _ _ Hi).
  pose proof (index_bound (fragment_handles (h :: hs') (ch :: chunks)) bls seps ltac:(lia) (im_sep_sizes Hi)) as Hib.
  rewrite (im_kvs Hi) in Hib. unfold METABLOCK_SIZE_PADDING in Hpad.
  set (entries := zip seps (EncodeHandle <$> fragment_handles (h :: hs') (ch :: chunks))) in *.
  assert (Hsorted : StronglySorted lt entries).
  { apply (seps_sorted cmp bls); [apply (im_seps Hi)|lia|apply (im_nonempty Hi)]. }
  destruct (meta_chunks (wf_nblocks_in_group w) [] (ch :: chunks) [] h hs' seps [] BlockBuilder_init 0)
    as (b & cur & [(ss & ridx & Hb) Hbe] & E); try done.
  { by constructor. } { by rewrite Hcs. } { by rewrite Hcs. } { split; [|done]. exists [], [0%nat]. by apply built_init. } { cbn [app]. fold entries. lia. }
  unfold index_handles. cbn [app] in E. rewrite Hcs in E. cbn [concat length] in E. change (size_of (region [])) with 0 in E.
  rewrite E. cbn [mbind res_bind ms_n]. rewrite decide_True by done. cbn [app] in Hb, Hbe. fold entries in Hb, Hbe.
  destruct (Finish_block_of cmp interval b entries ss ridx Hb ltac:(lia) Hsorted) as [Hblk _].
  assert (size_of (BlockBuilder_Finish b).2 <= keys_bound kvs) as Hib' by (destruct Hblk as (? & ? & _ & _ & [? _] & _); lia).
  destruct (metadata_file_ok w file kvs bls cs seps filt meta index
    (mkMeta b cur 0 (length (wf_nblocks_in_group w)) 0 (size_of (region cs))) Hh Hi)
    as (meta' & mem & -> & Hp & Hmeta & Hmf); cbn [ms_filter_start ms_builder]; [done|unfold METABLOCK_SIZE_PADDING; lia|lia|].
  cbn [mbind res_bind]. rewrite prefix_slice by done. cbn [ms_builder] in Hp |- *.
  pose proof (append_next cap free s k (meta_key stoc_id replica_id) keys (metadata_of filt meta' (BlockBuilder_Finish b).2) Hfree Hnin) as Ha.
  destruct Ha as (s' & hm & -> & Hhm & Hext & Hfree'); [|].
  { pose proof (size_metadata_of filt meta' (BlockBuilder_Finish b).2 Hmeta). lia. }
  cbn [mbind res_bind]. eexists _, _, _, _. split; [done|]. split_and!; try done. by exists b.
Qed.

(** ** Where a block is *)

Lemma handles_lookup base cs i c :
  cs !! i = Some c → handles_from base cs !! i = Some (mkBlockHandle (base + size_of (region (take i cs))) (size_of c)).
Proof.
  revert base i. induction cs as [|c' cs IH]; intros base [|i] Hi; try done.
  - injection Hi as ->. cbn. by rewrite Z.add_0_r.
  - cbn [TableBuilder.handles_from lookup list_lookup take] in *. change (handles_from (base + size_of (stored c')) cs !! i = Some (mkBlockHandle (base + size_of (region (c' :: take i cs))) (size_of c))).
    rewrite (IH _ i Hi), region_cons, length_app. do 2 f_equal. lia.
Qed.

(** Block [i] of the table is in some fragment, at the offset of its handle. *)
Lemma fragment_block hs chunks i h c :
  length hs = length chunks → fragment_handles hs chunks !! i = Some h → concat chunks !! i = Some c →
  ∃ g hg chunk o, hs !! g = Some hg ∧ chunks !! g = Some chunk ∧ h = in_fragment hg (mkBlockHandle o (size_of c))
    ∧ size_of (region (take i (concat chunks))) = size_of (region (concat (take g chunks))) + o
    ∧ 0 <= o ∧ o + size_of c + 5 <= size_of (region chunk) ∧ slice (region chunk) o (size_of c + 5) = stored c.
Proof.
  revert hs i. induction chunks as [|ch chunks IH]; intros [|hg hs] i Hl Hh Hc; try done.
  unfold fragment_handles in Hh. cbn [zip_with concat] in Hh, Hc |- *.
  destruct (decide (i < length ch)%nat) as [Hlt|Hge].
  - rewrite lookup_app_l in Hh by (rewrite length_fmap, length_handles; lia). rewrite lookup_app_l in Hc by done.
    rewrite list_lookup_fmap, (handles_lookup 0 ch i c Hc) in Hh. injection Hh as <-.
    exists 0%nat, hg, ch, (size_of (region (take i ch))). rewrite Z.add_0_l. split_and!; try done.
    + cbn [take concat]. rewrite take_app_le by lia. change (size_of (region [])) with 0. lia.
    + lia.
    + rewrite <- (take_drop_middle ch i c Hc) at 2. rewrite region_app, region_cons, !length_app.
      pose proof (size_stored AcceleratedCRC32C c). lia.
    + rewrite <- (take_drop_middle ch i c Hc) at 1. rewrite region_app, region_cons.
      rewrite <- (size_stored AcceleratedCRC32C c). apply slice_middle.
  - rewrite lookup_app_r in Hh by (rewrite length_fmap, length_handles; lia).
    rewrite length_fmap, length_handles in Hh. rewrite lookup_app_r in Hc by lia.
    destruct (IH hs (i - length ch)%nat) as (g & hg' & chunk & o & Hg & Hch & -> & Ho & Hrest); [by injection Hl|done|done|].
    exists (Datatypes.S g), hg', chunk, o. split_and!; [done|done|done| |by apply Hrest..].
    cbn [take concat]. rewrite take_app_ge, !region_app, !length_app by lia. lia.
Qed.

Lemma length_fragment_handles hs chunks : length hs = length chunks → length (fragment_handles hs chunks) = length (concat chunks).
Proof.
  revert hs. induction chunks as [|ch chunks IH]; intros [|h hs] Hl; try done. unfold fragment_handles. cbn [zip_with concat].
  rewrite !length_app, length_fmap, length_handles. f_equal. apply IH. by injection Hl.
Qed.

(** The offsets of the fragments in the table. *)
Lemma relative_offsets_ok hs chunks off (m : gmap Z Z) :
  fragments_at hs chunks → NoDup (stoc_key <$> hs) → (∀ h, h ∈ hs → m !! stoc_key h = None) →
  0 <= off → off + size_of (region (concat chunks)) < 2 ^ 64 →
  ∃ m', relative_offsets hs off m = Ret m' ∧ size m' = (size m + length hs)%nat
    ∧ (∀ g h, hs !! g = Some h → m' !! stoc_key h = Some (off + size_of (region (concat (take g chunks)))))
    ∧ (∀ x, x ∉ stoc_key <$> hs → m' !! x = m !! x).
Proof.
  intros Hat. revert off m. induction Hat as [|h chunk hs chunks [Ho Hsz] Hat IH]; intros off m Hnd Hm Hoff Hb.
  { exists m. cbn. split_and!; [done|lia|done|done]. }
  cbn [fmap list_fmap] in Hnd. apply NoDup_cons in Hnd as [Hnin Hnd]. cbn [relative_offsets].
  rewrite (Hm h) by elem. rewrite decide_False by (by intros [? ?]). rewrite Hsz.
  cbn [concat] in Hb. rewrite region_app, length_app in Hb. rewrite w64_small by mlia.
  destruct (IH (off + size_of (region chunk)) (<[stoc_key h := off]> m)) as (m' & E & Hs & Hg & Hother); [done| |lia|lia|].
  { intros h' Hh'. rewrite lookup_insert_ne; [apply Hm; elem|]. intros He. apply Hnin. rewrite He. by apply list_elem_of_fmap_2. }
  exists m'. split; [done|]. split; [|split].
  - rewrite Hs, map_size_insert_None by (apply Hm; elem). cbn. lia.
  - intros [|g] h' Hh'; cbn in Hh'.
    + injection Hh' as <-. rewrite Hother, lookup_insert_eq by done. cbn. by rewrite Z.add_0_r.
    + rewrite (Hg g h' Hh'). cbn [take concat]. rewrite region_app, length_app. f_equal. lia.
  - intros x Hx. cbn in Hx. rewrite Hother by set_solver. apply lookup_insert_ne. set_solver.
Qed.

(** ** Opening the table *)

Lemma Reader_Read_local s rd h o n : bh_stoc_file_id h = 0 → Reader_Read s rd h o n = Ret (slice (rd_local rd) o n).
Proof. intros H. unfold Reader_Read. by rewrite decide_True. Qed.

(** A block of the metadata file, with a trailer of either kind. *)
Lemma ReadBlock_local s pf pre c trailer post :
  length trailer = 5%nat → head trailer = Some (compression_byte kNoCompression) → size_of c + 5 < 2 ^ 32 →
  ReadBlock AcceleratedCRC32C Snappy_Uncompress (Reader_Read s (mkReader (pre ++ (c ++ trailer) ++ post) pf)) false
    (local_handle (mkBlockHandle (size_of pre) (size_of c))) = Ret c.
Proof.
  intros Ht Hhd Hsz. unfold ReadBlock, local_handle, Reader_Read. cbn [bh_offset bh_size FileMeta.bh_size FileMeta.bh_offset bh_stoc_file_id rd_local].
  rewrite w32_small by mlia. rewrite decide_True by done. unfold kBlockTrailerSize.
  replace (size_of c + Z.of_nat 5) with (size_of (c ++ trailer)) by (rewrite length_app; lia).
  rewrite slice_middle. cbn [mbind res_bind]. rewrite decide_False by (intros H; by apply H).
  rewrite Nat2Z.id. destruct trailer as [|x trailer]; [done|]. injection Hhd as ->. apply ReadBlock_typed.
Qed.

Lemma metadata_parts filt meta index :
  size_of (metadata_of filt meta index) = size_of filt + size_of meta + size_of index + 63.
Proof.
  unfold metadata_of. rewrite !length_app, length_encode_footer.
  pose proof (size_stored AcceleratedCRC32C filt). pose proof (size_client_stored meta). pose proof (size_client_stored index).
  unfold kFooterLength, kMaxEncodedLength. lia.
Qed.

Definition metadata_footer (filt meta index : bytes) : Footer :=
  mkFooter (mkBlockHandle (size_of (stored filt)) (size_of meta))
    (mkBlockHandle (size_of (stored filt ++ client_stored meta)) (size_of index)).

Lemma ReadMeta_ok s pf filt meta index f groups pending added :
  filters_ok policy f groups pending added → size_of added < 2 ^ 31 →
  size_of (metadata_of filt meta index) < 2 ^ 32 → filt = (FilterBlockBuilder_Finish policy f).2 →
  block_of cmp meta [(filter_key name, encode_handle (mkBlockHandle 0 (size_of filt)))] →
  ∃ fr, ReadMeta AcceleratedCRC32C Snappy_Uncompress (Reader_Read s (mkReader (metadata_of filt meta index) pf)) options false
      (metadata_footer filt meta index) = Ret (Some fr)
    ∧ (∀ o key, 0 <= o → ∃ m, FilterBlockReader_KeyMayMatch policy fr o key = Ret m)
    ∧ ∀ o key, 0 <= o → (o, key) ∈ added → FilterBlockReader_KeyMayMatch policy fr o key = Ret true.
Proof.
  intros Hf Hadd Hsz Hfilt Hmeta. pose proof (metadata_parts filt meta index) as Hparts.
  destruct (Finish_matches policy f groups pending added Hf Hadd) as (fr & Efr & Hmay & Hmatch); [rewrite <- Hfilt; lia|].
  exists fr. split; [|done]. unfold ReadMeta, table_options, metadata_footer. cbn [opt_filter metaindex_handle].
  change (filter_key_prefix ++ name) with (filter_key name).
  set (file := metadata_of filt meta index).
  assert (file = stored filt ++ (meta ++ client_trailer AcceleratedCRC32C meta kNoCompression) ++ client_stored index
    ++ encode_footer (metadata_footer filt meta index)) as Ef by (unfold file, metadata_of, client_stored; by rewrite <- !app_assoc).
  rewrite Ef at 1. rewrite ReadBlock_local by (done || lia). cbn [must_ok mbind res_bind].
  apply (block_of_single cmp BytewiseComparator) in Hmeta.
  destruct (block_seek BytewiseComparator meta _ (filter_key name) Hmeta) as (it & -> & _ & Hv & Hkv). cbn [mbind res_bind].
  rewrite lower_bound_self in Hv, Hkv by apply _. rewrite Hv, bool_decide_eq_true_2 by (cbn; lia).
  destruct (Hkv _ _ eq_refl) as [-> ->]. cbn [mbind res_bind]. rewrite decide_True by done. unfold ReadFilter.
  set (fh := mkBlockHandle 0 (size_of filt)). rewrite <- (app_nil_r (encode_handle fh)), parses_BlockHandle by (unfold fh; split; cbn; lia).
  cbn [fst must_ok mbind res_bind].
  assert (file = [] ++ (filt ++ block_trailer AcceleratedCRC32C filt kNoCompression) ++ client_stored meta ++ client_stored index
    ++ encode_footer (metadata_footer filt meta index)) as Ef2 by done.
  rewrite Ef2. change fh with (mkBlockHandle (size_of (@nil Z)) (size_of filt)). rewrite ReadBlock_local by (done || lia).
  cbn [must_ok mbind res_bind]. by rewrite Hfilt, Efr.
Qed.

(** A replica of the fragments on the storage components. *)
Definition replica_stored (s : S) (hs : list StoCBlockHandle) (chunks : list (list bytes)) : Prop :=
  Forall2 (λ h chunk, ∃ srv id, h = mkHandle srv id 0 (size_of (region chunk)) ∧ is_u32 srv ∧ 0 < id < 2 ^ 32
    ∧ stored_at s h (region chunk)) hs chunks.

Lemma replica_stored_at s hs chunks : replica_stored s hs chunks → fragments_at hs chunks.
Proof. intros H. eapply Forall2_impl; [exact H|]. by intros h chunk (srv & id & -> & _). Qed.

Lemma length_keys_from cs bls base :
  length cs = length bls → length (keys_from AcceleratedCRC32C base cs bls) = length (concat bls).
Proof.
  revert cs base. induction bls as [|bl bls IH]; intros [|x cs] b Hl; try done. cbn [keys_from concat].
  rewrite !length_app, !length_fmap, IH by (cbn in Hl; lia). done.
Qed.

Lemma keys_from_elem cs bls base i c bl k :
  cs !! i = Some c → bls !! i = Some bl → k ∈ bl.*1 →
  (base + size_of (region (take i cs)), k) ∈ keys_from AcceleratedCRC32C base cs bls.
Proof.
  revert bls base i. induction cs as [|c' cs IH]; intros [|bl' bls] base [|i] Hc Hb Hk; try done; cbn [keys_from].
  - injection Hb as ->. apply elem_of_app. left. change (size_of (region (take 0 (c' :: cs)))) with 0. rewrite Z.add_0_r.
    by apply list_elem_of_fmap_2.
  - apply elem_of_app. right. cbn [take]. rewrite region_cons, length_app.
    replace (base + Z.of_nat (length (stored c') + length (region (take i cs))))
      with (base + size_of (stored c') + size_of (region (take i cs))) by lia. by apply (IH bls).
Qed.

(** Reading block [i] of the table. *)
Lemma read_fragment_block s meta t hs chunks i h c fill :
  replica_stored s hs chunks → size_of (region (concat chunks)) < 2 ^ 32 →
  fragment_handles hs chunks !! i = Some h → concat chunks !! i = Some c → size_of c + 5 < MAX_BLOCK_SIZE →
  (∀ r, t_replicas t = [r] → data_block_group_handles r = hs) →
  handle_ok h
  ∧ DataBlockReader AcceleratedCRC32C Snappy_Uncompress (Reader_Read s (mkReader meta None)) None fill false t
      (EncodeHandle h) = Ret (c, None).
Proof.
  intros Hst Hsz Hh Hc Hmax Ht. pose proof (Forall2_length _ _ _ Hst) as Hl.
  destruct (fragment_block hs chunks i h c Hl Hh Hc) as (g & hg & chunk & o & Hg & Hch & -> & Hoff & Ho & Hfit & Hsl).
  destruct (Forall2_lookup_lr _ _ _ _ _ _ Hst Hg Hch) as (srv & id & -> & Hsrv & Hid & Hat).
  assert (size_of (region chunk) <= size_of (region (concat chunks))) as Hchs.
  { apply list_elem_of_lookup_2, list_elem_of_split in Hch as (l1 & l2 & ->). rewrite concat_app. cbn [concat].
    rewrite !region_app, !length_app. lia. }
  unfold in_fragment. cbn [bh_server_id bh_stoc_file_id bh_offset bh_size].
  set (h := mkHandle srv id o (size_of c)).
  assert (handle_ok h) as Hok by (unfold h, handle_ok; cbn; split_and!; mlia). split; [done|].
  assert (DecodeHandle_ptr (EncodeHandle h) = h) as Ed.
  { pose proof (parses_DecodeHandle h Hok []) as Hp. rewrite app_nil_r in Hp. unfold DecodeHandle in Hp.
    rewrite decide_False in Hp by (rewrite length_EncodeHandle; lia). clear -Hp. congruence. }
  assert (data_handle t (EncodeHandle h) = h) as Eh.
  { unfold data_handle. rewrite Ed. destruct (t_replicas t) as [|r [|r' l]]; [done| |done].
    rewrite (Ht r eq_refl). destruct hs as [|h0 [|h1 hs]]; [done| |done]. destruct g as [|g]; [|done]. injection Hg as ->. done. }
  unfold DataBlockReader. rewrite Eh. unfold ReadBlock, Reader_Read. subst h. cbn [FileMeta.bh_offset FileMeta.bh_size bh_stoc_file_id rd_prefetched].
  unfold kBlockTrailerSize. change (Z.of_nat 5) with 5. rewrite decide_False by lia. rewrite decide_True by done.
  rewrite (Hat (mkHandle srv id o (size_of c)) o (size_of c + 5)) by (done || lia).
  rewrite Hsl. cbn [mbind res_bind]. rewrite decide_False by (pose proof (size_stored AcceleratedCRC32C c); lia).
  rewrite <- (app_nil_r (stored c)), Nat2Z.id, ReadBlock_stored. done.
Qed.

Lemma FilterBlockReader_same fr o k k' :
  (∀ f, KeyMayMatch k f = KeyMayMatch k' f) →
  FilterBlockReader_KeyMayMatch policy fr o k = FilterBlockReader_KeyMayMatch policy fr o k'.
Proof. intros H. unfold FilterBlockReader_KeyMayMatch. repeat case_match; try done; by rewrite H. Qed.

(** The offset the filter knows block [i] by. *)
Definition block_offsets (cs : list bytes) : list Z := bh_offset <$> handles_from 0 cs.

Lemma block_offsets_lookup cs i o : block_offsets cs !! i = Some o → o = size_of (region (take i cs)) ∧ (i < length cs)%nat.
Proof.
  unfold block_offsets. rewrite list_lookup_fmap. intros (b & Hb & ->)%fmap_Some.
  pose proof (lookup_lt_Some _ _ _ Hb) as Hi. rewrite length_handles in Hi.
  destruct (lookup_lt_is_Some_2 cs i Hi) as [c Hc]. rewrite (handles_lookup 0 cs i c Hc) in Hb. by injection Hb as <-.
Qed.

Lemma NoDup_block_offsets cs : NoDup (block_offsets cs).
Proof.
  unfold block_offsets. generalize 0 as base. induction cs as [|c cs IH]; intros base; cbn [TableBuilder.handles_from fmap list_fmap];
    [constructor|]. constructor; [|apply IH]. intros (h & E & Hh)%list_elem_of_fmap.
  apply handles_bound in Hh. pose proof (size_stored AcceleratedCRC32C c). cbn [bh_offset] in E. lia.
Qed.

Lemma translate_block t hs chunks i h :
  fragments_at hs chunks → NoDup (stoc_key <$> hs) → size_of (region (concat chunks)) < 2 ^ 32 →
  relative_offsets hs 0 ∅ = Ret (t_relative_offset t) →
  fragment_handles hs chunks !! i = Some h →
  TranslateToDataBlockOffset t h = Ret (size_of (region (take i (concat chunks)))).
Proof.
  intros Hat Hnd Hsz Hrel Hh. pose proof (Forall2_length _ _ _ Hat) as Hl.
  destruct (relative_offsets_ok hs chunks 0 ∅ Hat Hnd) as (m & Em & Hms & Hg & _); [by intros|lia|lia|].
  rewrite Em in Hrel. injection Hrel as ->. pose proof (lookup_lt_Some _ _ _ Hh) as Hi.
  rewrite (length_fragment_handles hs chunks Hl) in Hi. destruct (lookup_lt_is_Some_2 _ _ Hi) as [c Hc].
  destruct (fragment_block hs chunks i h c Hl Hh Hc) as (g & hg & chunk & o & Hgh & Hch & -> & Hoff & Ho & Hfit & _).
  unfold TranslateToDataBlockOffset. rewrite Hms, map_size_empty. cbn [Nat.add FileMeta.bh_offset in_fragment bh_offset].
  case_decide as H1.
  - destruct hs as [|h0 [|? ?]]; [done| |done]. destruct g as [|g]; [|done]. rewrite Hoff. cbn [take concat].
    change (size_of (region [])) with 0. by rewrite Z.add_0_l.
  - change (stoc_key (in_fragment hg _)) with (stoc_key hg). rewrite (Hg g hg Hgh), Hoff. f_equal.
    rewrite Z.add_0_l. apply w64_small. pose proof (Nat.le_refl 0).
    assert (size_of (region (take i (concat chunks))) <= size_of (region (concat chunks))) as Hle.
    { rewrite <- (take_drop i (concat chunks)) at 2. rewrite region_app, length_app. lia. }
    mlia.
Qed.

(** Opening reads the footer, the index, the filter and the fragment offsets. *)
Lemma Table_Open_metadata s filt meta index fr reps r rm m cache_id :
  let mf := metadata_of filt meta index in
  let rd := Reader_Read s (mkReader mf None) in
  size_of mf < 2 ^ 32 →
  ReadMeta AcceleratedCRC32C Snappy_Uncompress rd options false (metadata_footer filt meta index) = Ret (Some fr) →
  reps !! r = Some rm → relative_offsets (data_block_group_handles rm) 0 ∅ = Ret m →
  Table_Open AcceleratedCRC32C Snappy_Uncompress rd options false false reps r cache_id (size_of mf)
  = Ret (mkTable index (metaindex_handle (metadata_footer filt meta index)) (Some fr) reps m cache_id).
Proof.
  intros mf rd Hm32 Emeta Hr Em. subst rd. pose proof (metadata_parts filt meta index) as Hparts. fold mf in Hparts.
  set (footer := metadata_footer filt meta index) in *. unfold Table_Open.
  rewrite decide_False by (unfold kFooterLength, kMaxEncodedLength; lia).
  assert (Emf : mf = (stored filt ++ client_stored meta ++ client_stored index) ++ encode_footer footer ++ [])
    by (unfold mf, metadata_of; by rewrite app_nil_r, <- !app_assoc).
  assert (size_of mf - Z.of_nat kFooterLength = size_of (stored filt ++ client_stored meta ++ client_stored index)) as ->.
  { rewrite Emf, app_nil_r, (length_app _ (encode_footer _)), length_encode_footer. lia. }
  rewrite Reader_Read_local by done. cbn [rd_local]. rewrite Emf at 1.
  rewrite <- (length_encode_footer footer), slice_middle. cbn [must_ok mbind res_bind]. rewrite decide_False by (intros Hn0; by apply Hn0).
  rewrite <- (app_nil_r (encode_footer footer)), Footer_DecodeFrom_set
    by (unfold footer, metadata_footer; split; split; cbn [bh_offset bh_size metaindex_handle index_handle];
        rewrite ?length_app; pose proof (size_stored AcceleratedCRC32C filt); pose proof (size_client_stored meta); lia).
  cbn [mbind res_bind].
  assert (Emf2 : mf = (stored filt ++ client_stored meta) ++ (index ++ client_trailer AcceleratedCRC32C index kNoCompression)
    ++ encode_footer footer) by (unfold mf, metadata_of, client_stored; by rewrite <- !app_assoc).
  rewrite Emf2 at 1.
  change (index_handle footer) with (mkBlockHandle (size_of (stored filt ++ client_stored meta)) (size_of index)).
  rewrite ReadBlock_local by (done || lia). cbn [mbind res_bind]. rewrite Emeta. cbn [mbind res_bind]. rewrite Hr, Em. done.
Qed.

Lemma Table_Open_ok s file kvs bls cs seps filt meta index meta' index' chunks hs reps r rm cache_id fill :
  table_image file kvs bls cs seps filt meta index → StronglySorted lt kvs →
  concat chunks = cs → size_of (region cs) < 2 ^ 32 → size_of kvs < 2 ^ 31 → Forall (λ c, size_of c + 5 < MAX_BLOCK_SIZE) cs →
  replica_stored s hs chunks → NoDup (stoc_key <$> hs) →
  block_of cmp index' (zip seps (EncodeHandle <$> fragment_handles hs chunks)) →
  block_of cmp meta' [(filter_key name, encode_handle (mkBlockHandle 0 (size_of filt)))] →
  size_of (metadata_of filt meta' index') < 2 ^ 32 →
  reps !! r = Some rm → data_block_group_handles rm = hs →
  let mf := metadata_of filt meta' index' in
  ∃ t, Table_Open AcceleratedCRC32C Snappy_Uncompress (Reader_Read s (mkReader mf None)) options false false
      reps r cache_id (size_of mf) = Ret t
    ∧ table_opened cmp policy AcceleratedCRC32C Snappy_Uncompress (Reader_Read s (mkReader mf None)) None fill false
        t bls cs seps (fragment_handles hs chunks) (block_offsets cs).
Proof.
  intros Hi Hsort Hcs Hsz Hn Hmax Hst Hnd Hidx Hmeta Hm32 Hr Hrm mf.
  destruct (image_lengths _ _ _ _ _ _ _ _ Hi) as [Hl1 Hl2]. destruct (im_filter Hi) as (f & groups & pending & Hf & Efilt & _).
  destruct (ReadMeta_ok s None filt meta' index' f groups pending _ Hf) as (fr & Emeta & Hmay & Hmatch); [|done|done|done|].
  { rewrite length_keys_from, (im_kvs Hi) by done. done. }
  pose proof (replica_stored_at s hs chunks Hst) as Hat. pose proof (Forall2_length _ _ _ Hat) as Hlh.
  destruct (relative_offsets_ok hs chunks 0 ∅ Hat Hnd) as (m & Em & _); [by intros|lia|rewrite Hcs; lia|].
  eexists. split; [eapply Table_Open_metadata; [done|exact Emeta|exact Hr|rewrite Hrm; exact Em]|].
  set (t := mkTable _ _ _ _ _ _).
  assert (Hblock : ∀ i h c, fragment_handles hs chunks !! i = Some h → cs !! i = Some c → handle_ok h
    ∧ DataBlockReader AcceleratedCRC32C Snappy_Uncompress (Reader_Read s (mkReader mf None)) None fill false t (EncodeHandle h) = Ret (c, None)).
  { intros i h c Hh Hc. rewrite Forall_lookup in Hmax. pose proof (Hmax _ _ Hc). rewrite <- Hcs in Hc, Hsz.
    eapply read_fragment_block; try done. cbn [t_replicas t]. intros r0 ->. destruct r; [|done]. by injection Hr as ->. }
  split; [apply (im_blocks Hi)|apply (im_nonempty Hi)|by rewrite (im_kvs Hi)|apply (im_seps Hi)|apply (im_tight Hi)|..].
  - unfold block_offsets. rewrite length_fmap, length_handles, length_fragment_handles, Hcs by done. lia.
  - apply NoDup_block_offsets.
  - done.
  - apply Forall_forall. intros h [i Hh]%list_elem_of_lookup. destruct (lookup_lt_is_Some_2 cs i) as [c Hc].
    { rewrite <- Hcs, <- (length_fragment_handles hs chunks Hlh). by eapply lookup_lt_Some. }
    destruct (Hblock i h c Hh Hc) as [Hok _]. rewrite <- (app_nil_r (EncodeHandle h)). by apply parses_DecodeHandle.
  - intros i h o Hh [-> _]%block_offsets_lookup. rewrite <- Hcs. by eapply translate_block; rewrite ?Hcs.
  - intros i h c Hh Hc. exists None. by eapply Hblock.
  - exists fr. split; [done|]. split.
    + intros o k [i [-> _]%block_offsets_lookup]%list_elem_of_lookup. apply Hmay. lia.
    + intros i o bl e k [-> Hil]%block_offsets_lookup Hbl He Hk. rewrite (FilterBlockReader_same fr _ k e.1 Hk).
      destruct (lookup_lt_is_Some_2 cs i Hil) as [c Hc]. apply Hmatch; [lia|].
      apply (keys_from_elem cs bls 0 i c bl); [done|done|]. by apply list_elem_of_fmap_2.
Qed.

(** ** Finalize *)

Local Abbreviation R := (number_of_sstable_data_replicas cfg).

(** The component that stores the metadata of replica [r]. *)
Definition meta_stoc (stocs random_stocs : list Z) (r : nat) : option Z :=
  if decide (R = 1%nat) then random_stocs !! r else stocs !! r.

Definition meta_keys (stocs random_stocs : list Z) (r0 n : nat) : list block_key :=
  (λ r, meta_key (default 0 (meta_stoc stocs random_stocs r)) r) <$> seq r0 n.

(** The data replica that the metadata of replica [r] refers to. *)
Definition data_replica (r : nat) : nat := if decide (R = 1%nat) then 0%nat else r.

(** The metadata file of replica [r] with its handle. *)
Definition metadata_ok (s : S) (stocs random_stocs : list Z) (chunks : list (list bytes)) (seps : list bytes) (filt : bytes)
    (kvs : list kv) (reps : list (list StoCBlockHandle)) (r : nat) (m : bytes * StoCBlockHandle) : Prop :=
  ∃ hs meta index, reps !! data_replica r = Some hs ∧ m.1 = metadata_of filt meta index
    ∧ size_of index <= keys_bound kvs
    ∧ block_of cmp index (zip seps (EncodeHandle <$> fragment_handles hs chunks))
    ∧ block_of cmp meta [(filter_key name, encode_handle (mkBlockHandle 0 (size_of filt)))]
    ∧ finishes index (zip seps (EncodeHandle <$> fragment_handles hs chunks))
    ∧ finishes meta [(filter_key name, encode_handle (mkBlockHandle 0 (size_of filt)))]
    ∧ handle_of s (meta_key (default 0 (meta_stoc stocs random_stocs r)) r) m.1 m.2.

Lemma replicas_hold_stored s stocs reps chunks r hs :
  replicas_hold cfg dbname file_number AcceleratedCRC32C s stocs reps chunks → reps !! r = Some hs →
  replica_stored s hs chunks
  ∧ ∀ g h, hs !! g = Some h → bh_server_id h = default 0 (stoc_of cfg stocs g r).
Proof.
  intros [_ Hh] Hr. destruct (Hh r hs Hr) as [Hl Hg]. split.
  - apply Forall2_same_length_lookup_2; [done|]. intros g h chunk Hi Hc.
    destruct (Hg g chunk h Hc Hi) as (Hu & id & -> & Hid & Hst). eauto 10.
  - intros g h Hi. destruct (lookup_lt_is_Some_2 chunks g) as [chunk Hc]; [rewrite <- Hl; by eapply lookup_lt_Some|].
    destruct (Hg g chunk h Hc Hi) as (Hu & id & -> & _). done.
Qed.

Section finalize.
Context (w : StoCWritableFileClient) (file : bytes) (kvs : list kv) (bls : list (list kv)) (cs seps : list bytes).
Context (filt meta index : bytes) (chunks : list (list bytes)) (stocs random_stocs : list Z) (reps : list (list StoCBlockHandle)).
Hypothesis Hh : holds w file bls.
Hypothesis Hi : table_image file kvs bls cs seps filt meta index.
Hypothesis Hidx : wf_index_block w = index.
Hypothesis Hgr : wf_nblocks_in_group w = (λ c, size_of c) <$> chunks.
Hypothesis Hcs : concat chunks = cs.
Hypothesis Hne : Forall (λ c, c ≠ []) chunks.
Hypothesis Hcne : cs ≠ [].
Hypothesis Hsz : size_of (region cs) < 2 ^ 32.
Hypothesis Hreps : wf_replicas w = reps.
Hypothesis Hstocs : wf_stocs w = stocs.
Hypothesis Hpad : keys_bound kvs + size_of name + 64 < METABLOCK_SIZE_PADDING.
Hypothesis Hroom : size_of (region cs) + size_of filt + keys_bound kvs + size_of name + 192 < wf_allocated_size w.
Hypothesis Hcap : size_of filt + keys_bound kvs + size_of name + 192 <= cap.

Lemma write_metas_ok s r0 n k rest :
  replicas_hold cfg dbname file_number AcceleratedCRC32C s stocs reps chunks →
  (∀ r, (r0 <= r < r0 + n)%nat → (data_replica r < R)%nat ∧ is_Some (stocs !! r) ∧ is_Some (meta_stoc stocs random_stocs r)) →
  let keys := meta_keys stocs random_stocs r0 n ++ rest in
  all_free free s (length keys + k) keys → NoDup keys →
  ∃ s' metas, write_metas AcceleratedCRC32C Snappy_Compress options cfg dbname file_number ItemAlloc s w random_stocs r0 n
      = Ret (s', metas) ∧ length metas = n
    ∧ (∀ i m, metas !! i = Some m → metadata_ok s' stocs random_stocs chunks seps filt kvs reps (r0 + i) m)
    ∧ extends s s' ∧ all_free free s' (length rest + k) rest.
Proof.
  revert s r0. induction n as [|n IH]; intros s r0 Hold Hst keys Hfree Hnd; subst keys.
  { exists s, []. split_and!; [done|done|by intros|apply extends_refl|done]. }
  cbn [write_metas]. rewrite Hstocs. destruct (Hst r0) as (Hdr & [stoc Hstoc] & [ms Hms]); [lia|]. rewrite Hstoc.
  pose proof (rh_length _ _ _ _ _ _ _ _ Hold) as HR.
  assert ((if decide (R = 1%nat) then match random_stocs !! r0 with Some x => Ret x | None => Abort end else Ret stoc) = Ret ms) as ->.
  { unfold meta_stoc in Hms. case_decide; [by rewrite Hms|]. rewrite Hms in Hstoc. by injection Hstoc as ->. }
  cbn [mbind res_bind]. destruct (lookup_lt_is_Some_2 reps (data_replica r0)) as [hs Hhs]; [lia|].
  destruct (replicas_hold_stored s stocs reps chunks _ hs Hold Hhs) as [Hrs _].
  unfold meta_keys in Hfree, Hnd. cbn [seq fmap list_fmap app length Nat.add] in Hfree, Hnd.
  fold (meta_keys stocs random_stocs (Datatypes.S r0) n) in Hfree, Hnd. rewrite Hms in Hfree, Hnd. cbn [from_option id] in Hfree, Hnd.
  apply NoDup_cons in Hnd as [Hnin Hnd].
  destruct (WriteMetaDataBlock_ok s w file kvs bls cs seps filt meta index chunks ms r0 hs
    (length (meta_keys stocs random_stocs (Datatypes.S r0) n ++ rest) + k) (meta_keys stocs random_stocs (Datatypes.S r0) n ++ rest) Hh Hi Hidx Hgr Hcs Hne Hcne Hsz)
    as (s1 & h & meta' & index' & E & Hidx' & Hif & Hib & Hmeta' & Hmf & Hhm & Hext & Hfree1); [|by eapply replica_stored_at|done|done|done|exact Hfree|done|].
  { rewrite Hreps, HR. exact Hhs. }
  rewrite E. cbn [mbind res_bind].
  destruct (IH s1 (Datatypes.S r0)) as (s2 & metas & -> & Hlm & Hall & Hext2 & Hfree2); [by eapply replicas_hold_extends| |done|done|].
  { intros r Hr. apply Hst. lia. }
  cbn [mbind res_bind]. exists s2, ((metadata_of filt meta' index', h) :: metas). split_and!; [done|cbn; lia| |by eapply extends_trans|done].
  intros [|i] m Hm; cbn in Hm.
  - injection Hm as <-. rewrite Nat.add_0_r. exists hs, meta', index'. rewrite Hms. cbn [fst snd from_option id].
    split_and!; try done. by eapply handle_of_extends.
  - replace (r0 + Datatypes.S i)%nat with (Datatypes.S r0 + i)%nat by lia. by apply Hall.
Qed.

Lemma Finalize_ok select s k rest :
  let n := length (wf_meta_block_handles w) in
  select (Z.of_nat n) = Ret random_stocs →
  (0 < n)%nat →
  replicas_hold cfg dbname file_number AcceleratedCRC32C s stocs reps chunks →
  (∀ r, (r < n)%nat → (data_replica r < R)%nat ∧ is_Some (stocs !! r) ∧ is_Some (meta_stoc stocs random_stocs r)) →
  let keys := meta_keys stocs random_stocs 0 n ++ rest in
  all_free free s (length keys + k) keys → NoDup keys →
  ∃ s' metas size, Finalize AcceleratedCRC32C Snappy_Compress options cfg dbname file_number ItemAlloc s w select
      = Ret (s', set_meta_handles w metas.*2, metas.*1, size) ∧ length metas = n
    ∧ (∀ r m, metas !! r = Some m → metadata_ok s' stocs random_stocs chunks seps filt kvs reps r m)
    ∧ extends s s' ∧ all_free free s' (length rest + k) rest.
Proof.
  intros n Hsel Hn Hold Hst keys Hfree Hnd.
  destruct (write_metas_ok s 0 n k rest Hold) as (s' & metas & E & Hl & Hall & Hext & Hfree'); [|done|done|].
  { intros r Hr. apply Hst. lia. }
  unfold Finalize. fold n. rewrite Hsel. cbn [mbind res_bind]. rewrite E. cbn [mbind res_bind].
  destruct (exists_last (l := metas)) as (metas0 & m & ->); [intros ->; cbn in Hl; lia|].
  rewrite last_snoc. destruct (Hall (length metas0) m) as (hs & meta' & index' & _ & Em & _); [by apply list_lookup_middle|].
  destruct m as [mf h]. cbn [fst] in Em. subst mf. pose proof (metadata_parts filt meta' index').
  rewrite decide_False by lia. eauto 10.
Qed.
End finalize.

(** The replicas a finished client reports. *)
Lemma replicas_ok w metas :
  (∀ r, (r < length metas)%nat →
     is_Some (wf_replicas w !! (if decide (length (wf_replicas w) = 1%nat) then 0%nat else r))) →
  wf_meta_block_handles w = metas →
  ∃ l, replicas w = Ret l ∧ length l = length metas
    ∧ ∀ r h hs, metas !! r = Some h →
        wf_replicas w !! (if decide (length (wf_replicas w) = 1%nat) then 0%nat else r) = Some hs →
        l !! r = Some (mkReplica h hs).
Proof.
  intros Hr Hm. unfold replicas. rewrite Hm. clear Hm.
  assert (∀ r0, (∀ r, (r0 <= r < r0 + length metas)%nat →
     is_Some (wf_replicas w !! (if decide (length (wf_replicas w) = 1%nat) then 0%nat else r))) →
    ∃ l, replicas_from w r0 metas = Ret l ∧ length l = length metas
      ∧ ∀ r h hs, metas !! r = Some h →
        wf_replicas w !! (if decide (length (wf_replicas w) = 1%nat) then 0%nat else (r0 + r)%nat) = Some hs →
        l !! r = Some (mkReplica h hs)) as Hgen.
  { clear Hr. induction metas as [|h metas IH]; intros r0 Hr; [by exists []|]. cbn [replicas_from].
    destruct (Hr r0) as [hs Hhs]; [cbn; lia|]. rewrite Hhs.
    destruct (IH (Datatypes.S r0)) as (l & -> & Hl & Hall); [intros r Hlt; apply Hr; cbn; lia|]. cbn [mbind res_bind].
    exists (mkReplica h hs :: l). split; [done|]. split; [cbn; lia|]. intros [|r] h' hs' Hh' Hhs'; cbn in Hh' |- *.
    - rewrite Nat.add_0_r in Hhs'. congruence.
    - apply Hall; [done|]. by rewrite <- Nat.add_succ_comm in Hhs'. }
  apply (Hgen 0%nat). intros r Hlt. apply Hr. lia.
Qed.

(** ** From the memory file to lookups *)

Context (same : bytes → bytes → Prop) {SG : SeparatesGroups cmp same}.

(** The most fragments a table has. *)
Definition max_groups : nat := if decide (1 < R)%nat then 1%nat else Z.to_nat (num_stocs_scatter_data_blocks cfg).

Lemma length_assign_blocks n min_num remaining : length (assign_blocks n min_num remaining) = n.
Proof. revert remaining. induction n as [|n IH]; intros r; cbn [assign_blocks]; [done|]. case_decide; cbn; by rewrite IH. Qed.

Lemma groups_length n groups :
  0 < num_stocs_scatter_data_blocks cfg → nblocks_in_group cfg n = Ret groups → (length groups <= max_groups)%nat.
Proof.
  intros Hs. unfold nblocks_in_group, max_groups. repeat case_decide; cbn [mbind res_bind]; intros [= <-];
    rewrite ?length_assign_blocks; cbn [length]; lia.
Qed.

(** Everything a table stores: fragments, and metadata files. *)
Definition table_keys (stocs random_stocs : list Z) (groups : nat) : list block_key :=
  data_keys stocs groups ++ meta_keys stocs random_stocs 0 (number_of_sstable_metadata_replicas cfg).

(** The components chosen for a table with [groups] fragments. *)
Record stocs_ok (groups : nat) (stocs random_stocs : list Z) : Prop := {
  so_distinct : NoDup stocs;
  so_groups : (1 < R)%nat ∨ (groups <= length stocs)%nat;
  so_replicas : (0 < R <= length stocs)%nat;
  so_metas : (0 < number_of_sstable_metadata_replicas cfg <= length stocs)%nat;
  so_random : if decide (R = 1%nat) then (number_of_sstable_metadata_replicas cfg <= length random_stocs)%nat ∧ NoDup random_stocs
    else (number_of_sstable_metadata_replicas cfg <= R)%nat
}.

Lemma stoc_of_some groups stocs random_stocs g r :
  stocs_ok groups stocs random_stocs → (g < groups <= max_groups)%nat → (r < R)%nat → is_Some (stoc_of cfg stocs g r).
Proof.
  intros [_ Hg Hr _ _] Hlt Hlr. unfold stoc_of, max_groups in *. apply lookup_lt_is_Some_2.
  case_decide; [lia|]. destruct Hg; lia.
Qed.

Lemma meta_stocs_some groups stocs random_stocs r :
  stocs_ok groups stocs random_stocs → (r < number_of_sstable_metadata_replicas cfg)%nat →
  (data_replica r < R)%nat ∧ is_Some (stocs !! r) ∧ is_Some (meta_stoc stocs random_stocs r).
Proof.
  intros [_ _ HR HM Hr] Hlt. unfold data_replica, meta_stoc.
  case_decide; split_and!; try apply lookup_lt_is_Some_2; lia.
Qed.

Lemma NoDup_data_keys groups stocs random_stocs :
  (groups <= max_groups)%nat → stocs_ok groups stocs random_stocs → NoDup (data_keys stocs groups).
Proof.
  intros Hmax [Hd Hg Hr _ _]. unfold data_keys, group_keys, max_groups in *. destruct (decide (1 < R)%nat) as [H1|H1].
  - destruct groups as [|[|]]; [constructor| |lia]. cbn [seq fmap list_fmap concat]. rewrite app_nil_r. apply NoDup_fmap_2_strong; [|apply NoDup_seq].
    intros a b _ _. unfold data_key. intros [= _ Hab]. lia.
  - assert (R = 1%nat) as E by lia. rewrite E. cbn [Nat.sub seq fmap list_fmap]. destruct Hg as [|Hg]; [lia|].
    assert (∀ l, concat ((λ g, [data_key cfg dbname file_number stocs g 0]) <$> l)
      = (λ g, data_key cfg dbname file_number stocs g 0) <$> l) as -> by (induction l; cbn; congruence).
    apply NoDup_fmap_2_strong; [|apply NoDup_seq]. intros a b Ha%elem_of_seq Hb%elem_of_seq.
    unfold data_key, stoc_of. rewrite !decide_False by done. intros [= Hab].
    destruct (lookup_lt_is_Some_2 stocs a) as [x Hx]; [lia|]. destruct (lookup_lt_is_Some_2 stocs b) as [y Hy]; [lia|].
    rewrite Hx, Hy in Hab. cbn in Hab. subst y. by eapply NoDup_lookup.
Qed.

Lemma NoDup_table_keys groups stocs random_stocs :
  (groups <= max_groups)%nat → stocs_ok groups stocs random_stocs → NoDup (table_keys stocs random_stocs groups).
Proof.
  intros Hg Hs. apply NoDup_app. split; [by eapply NoDup_data_keys|]. split.
  - intros key Hk Hm. unfold meta_keys in Hm. apply list_elem_of_fmap in Hm as (r & -> & _).
    apply elem_of_concat in Hk as (l & Hk & (g & -> & _)%list_elem_of_fmap).
    apply list_elem_of_fmap in Hk as (r' & E & _). by injection E.
  - apply NoDup_fmap_2_strong; [|apply NoDup_seq]. intros a b _ _. unfold meta_key. intros [= _ Hab]. lia.
Qed.

(** Different fragments of a replica are in different StoC files. *)
Lemma stoc_keys_distinct s stocs random_stocs reps chunks r hs :
  stocs_ok (length chunks) stocs random_stocs → (length chunks <= max_groups)%nat →
  replicas_hold cfg dbname file_number AcceleratedCRC32C s stocs reps chunks → reps !! r = Some hs →
  NoDup (stoc_key <$> hs).
Proof.
  intros Hs Hg Hold Hr. destruct (replicas_hold_stored s stocs reps chunks r hs Hold Hr) as [Hst Hsrv].
  pose proof (Forall2_length _ _ _ Hst) as Hl. pose proof Hs as [Hd Hgr _ _ _]. unfold max_groups in *.
  destruct (decide (1 < R)%nat) as [H1|H1].
  { destruct hs as [|h [|h' hs]]; [constructor|apply NoDup_singleton|cbn in Hl; lia]. }
  apply NoDup_alt. intros i j x Hi Hj. apply list_lookup_fmap_Some in Hi as (h1 & -> & Hi).
  apply list_lookup_fmap_Some in Hj as (h2 & E & Hj).
  destruct (Forall2_lookup_l _ _ _ _ _ Hst Hi) as (c1 & Hc1 & srv1 & id1 & -> & Hu1 & Hid1 & _).
  destruct (Forall2_lookup_l _ _ _ _ _ Hst Hj) as (c2 & Hc2 & srv2 & id2 & -> & Hu2 & Hid2 & _).
  assert (srv1 = srv2) as <-.
  { unfold stoc_key in E. cbn [bh_server_id bh_stoc_file_id] in E.
    rewrite !(Z.lor_comm (_ ≪ _)), !lor_shiftl_add in E by lia. lia. }
  pose proof (Hsrv _ _ Hi) as E1. pose proof (Hsrv _ _ Hj) as E2. cbn [bh_server_id] in E1, E2.
  unfold stoc_of in E1, E2. rewrite decide_False in E1, E2 by done. destruct Hgr as [|Hgr]; [lia|].
  apply lookup_lt_Some in Hc1, Hc2.
  destruct (lookup_lt_is_Some_2 stocs i) as [x Hx]; [lia|]. destruct (lookup_lt_is_Some_2 stocs j) as [y Hy]; [lia|].
  rewrite Hx in E1. rewrite Hy in E2. cbn in E1, E2. subst. by eapply NoDup_lookup.
Qed.

(** What a lookup of [k] in a table of [kvs] may answer. *)
Definition lookup_answer (kvs : list kv) (k : bytes) (r : option (bytes * bytes)) : Prop :=
  (∀ e, r = Some e → kvs !! lower_bound cmp kvs k = Some e)
  ∧ (∀ e, kvs !! lower_bound cmp kvs k = Some e → same k e.1 →
       (∀ f, KeyMayMatch k f = KeyMayMatch e.1 f) → r = Some e).

(** An iterator over [kvs], new and not positioned. *)
Definition iterates {I} (kvs : list kv) (it : Iter I) (s : I) : Prop :=
  ∃ R, Cursor cmp kvs (iter_ops it) R ∧ R s (length kvs) ∧ (NumericKeys cmp → SkipLaw it R kvs).

(** Replica [r] of a stored table answers lookups and is scanned, also when more
    is stored later. *)
Definition replica_answers (s : S) (kvs : list kv) (reps : list FileReplicaMetaData) (r : nat) (mf : bytes) : Prop :=
  ∀ s' cache_id, extends s s' →
    let read := Reader_Read s' (mkReader mf None) in
    ∃ t, Table_Open AcceleratedCRC32C Snappy_Uncompress read options false false reps r cache_id (size_of mf) = Ret t
      ∧ (∀ k fill, ∃ a, InternalGet AcceleratedCRC32C Snappy_Uncompress read options None fill false t k = Ret a
          ∧ lookup_answer kvs k a)
      ∧ ∀ fill rounds, (length kvs < rounds)%nat →
          ∃ it, Table_NewIterator options t = Ret it
            ∧ iterates kvs (table_iter AcceleratedCRC32C Snappy_Uncompress read options None fill false rounds t) it.

Lemma replica_answers_ok s file kvs bls cs seps filt meta index chunks stocs random_stocs reps l r m :
  table_image file kvs bls cs seps filt meta index → StronglySorted lt kvs →
  concat chunks = cs → size_of (region cs) < 2 ^ 32 → size_of kvs < 2 ^ 31 → Forall (λ c, size_of c + 5 < MAX_BLOCK_SIZE) cs →
  stocs_ok (length chunks) stocs random_stocs → (length chunks <= max_groups)%nat →
  keys_bound kvs + size_of name + 64 < METABLOCK_SIZE_PADDING → size_of filt < 2 ^ 31 →
  replicas_hold cfg dbname file_number AcceleratedCRC32C s stocs reps chunks →
  metadata_ok s stocs random_stocs chunks seps filt kvs reps r m →
  (∀ hs, reps !! data_replica r = Some hs → l !! r = Some (mkReplica m.2 hs)) →
  replica_answers s kvs l r m.1.
Proof.
  intros Hi Hsort Hcs Hsz Hn Hmax Hso Hch Hpad Hfilt Hold (hs & meta' & index' & Hhs & -> & Hib & Hidx & Hmeta & _) Hl s' cache_id Hext.
  pose proof (replicas_hold_extends _ _ _ _ s s' stocs reps chunks Hext Hold) as Hold'.
  destruct (replicas_hold_stored s' stocs reps chunks _ hs Hold' Hhs) as [Hst _].
  pose proof (stoc_keys_distinct s' stocs random_stocs reps chunks _ hs Hso Hch Hold' Hhs) as Hnd.
  pose proof (size_metadata_of filt meta' index' Hmeta) as Hms. unfold METABLOCK_SIZE_PADDING in Hpad.
  pose proof (λ fill, Table_Open_ok s' file kvs bls cs seps filt meta index meta' index' chunks hs l r _ cache_id fill Hi Hsort Hcs Hsz Hn
    Hmax Hst Hnd Hidx Hmeta ltac:(lia) (Hl hs Hhs) eq_refl) as Hopen.
  destruct (Hopen false) as (t & Et & _). exists t. split; [done|]. split.
  2: { intros fill rounds Hr. destruct (Hopen fill) as (t' & Et' & Ht). rewrite Et in Et'. injection Et' as <-.
    assert (length bls < rounds)%nat as Hr'.
    { rewrite <- (im_kvs Hi) in Hr. pose proof (concat_nonempty_length bls (im_nonempty Hi)). lia. }
    destruct (NewIterator_opened cmp policy AcceleratedCRC32C Snappy_Uncompress
      (Reader_Read s' (mkReader (metadata_of filt meta' index') None)) options None fill false eq_refl t bls cs seps _ _ Ht rounds Hr')
      as (it & Eit & Hit). exists it. split; [done|]. rewrite <- (im_kvs Hi). eexists. split_and!.
    - by eapply (opened_Cursor cmp policy).
    - exact Hit.
    - intros HN. by eapply (opened_SkipLaw cmp policy). }
  intros k fill. destruct (Hopen fill) as (t' & Et' & Ht). rewrite Et in Et'. injection Et' as <-.
  destruct (InternalGet_opened cmp policy name same AcceleratedCRC32C Snappy_Uncompress
    (Reader_Read s' (mkReader (metadata_of filt meta' index') None)) options None fill false eq_refl eq_refl t bls cs seps _ _ k Ht) as (a & Ea & Ha).
  rewrite (im_kvs Hi) in Ha. exists a. split; [done|]. exact Ha.
Qed.

(** *** The placement is valid *)

Lemma fragment_handles_shape seps hs hs' chunks :
  length hs = length hs' →
  Forall2 (λ e e' : kv, e.1 = e'.1 ∧ length e.2 = length e'.2)
    (zip seps (EncodeHandle <$> fragment_handles hs chunks)) (zip seps (EncodeHandle <$> fragment_handles hs' chunks)).
Proof.
  intros Hl. assert (length (fragment_handles hs chunks) = length (fragment_handles hs' chunks)) as Hlen.
  { revert hs hs' Hl. induction chunks as [|ch chunks IH]; intros [|h hs] [|h' hs'] Hl; try done. unfold fragment_handles. cbn [zip_with concat].
    rewrite !length_app, !length_fmap. f_equal. apply IH. by injection Hl. }
  revert Hlen. generalize (fragment_handles hs chunks) (fragment_handles hs' chunks). clear.
  induction seps as [|sep seps IH]; intros l l' Hlen; [by constructor|].
  destruct l as [|x l], l' as [|x' l']; try done. cbn [fmap list_fmap zip_with].
  constructor; [|apply IH; by injection Hlen]. cbn [fst snd]. split; [done|]. by rewrite !length_EncodeHandle.
Qed.

Lemma metadata_sizes s stocs random_stocs chunks seps filt kvs reps r m r' m' :
  replicas_hold cfg dbname file_number AcceleratedCRC32C s stocs reps chunks →
  metadata_ok s stocs random_stocs chunks seps filt kvs reps r m →
  metadata_ok s stocs random_stocs chunks seps filt kvs reps r' m' → size_of m.1 = size_of m'.1.
Proof.
  intros [_ Hh] (hs & meta & index & Hhs & -> & _ & _ & _ & Hif & Hmf & _) (hs' & meta' & index' & Hhs' & -> & _ & _ & _ & Hif' & Hmf' & _).
  rewrite !metadata_parts. destruct (Hh _ _ Hhs) as [Hl _]. destruct (Hh _ _ Hhs') as [Hl' _].
  pose proof (finishes_size _ _ _ _ Hif Hif' (fragment_handles_shape seps hs hs' chunks ltac:(lia))).
  pose proof (finishes_size _ _ _ _ Hmf Hmf') as Hm. rewrite Hm; [lia|]. by repeat constructor.
Qed.

Lemma NoDup_default_lookup (l : list Z) n :
  NoDup l → (n <= length l)%nat → NoDup ((λ i, default 0 (l !! i)) <$> seq 0 n).
Proof.
  intros Hnd Hn. apply NoDup_fmap_2_strong; [|apply NoDup_seq]. intros a b Ha%elem_of_seq Hb%elem_of_seq Hab.
  destruct (lookup_lt_is_Some_2 l a) as [x Hx]; [lia|]. destruct (lookup_lt_is_Some_2 l b) as [y Hy]; [lia|].
  rewrite Hx, Hy in Hab. cbn in Hab. subst y. by eapply NoDup_lookup.
Qed.

(** The replicas that a client reports, for [n] metadata files of [sz] bytes. *)
Record placed (stocs random_stocs : list Z) (chunks : list (list bytes)) (reps : list (list StoCBlockHandle)) (sz : Z)
    (n : nat) (l : list FileReplicaMetaData) : Prop := {
  pl_length : length l = n;
  pl_meta r rep : l !! r = Some rep → reps !! data_replica r = Some (data_block_group_handles rep)
    ∧ let h := meta_block_handle rep in
      bh_server_id h = default 0 (meta_stoc stocs random_stocs r) ∧ FileMeta.bh_offset h = 0 ∧ FileMeta.bh_size h = sz;
  pl_frags r rep : l !! r = Some rep → length (data_block_group_handles rep) = length chunks;
  pl_frag r rep g h chunk : l !! r = Some rep → data_block_group_handles rep !! g = Some h → chunks !! g = Some chunk →
    bh_server_id h = default 0 (stoc_of cfg stocs g (data_replica r)) ∧ FileMeta.bh_offset h = 0
    ∧ FileMeta.bh_size h = size_of (region chunk)
}.

Lemma replicas_placed s stocs random_stocs chunks seps filt kvs reps l (metas : list (bytes * StoCBlockHandle)) :
  replicas_hold cfg dbname file_number AcceleratedCRC32C s stocs reps chunks → length l = length metas →
  (∀ r m, metas !! r = Some m → metadata_ok s stocs random_stocs chunks seps filt kvs reps r m) →
  (∀ r m hs, metas !! r = Some m → reps !! data_replica r = Some hs → l !! r = Some (mkReplica m.2 hs)) →
  ∃ sz, placed stocs random_stocs chunks reps sz (length metas) l.
Proof.
  intros Hold Hll Hmeta Hl. exists (match metas !! 0%nat with Some m => size_of m.1 | None => 0 end).
  assert (∀ r rep, l !! r = Some rep → ∃ m hs, metas !! r = Some m ∧ rep = mkReplica m.2 hs ∧ reps !! data_replica r = Some hs
    ∧ metadata_ok s stocs random_stocs chunks seps filt kvs reps r m) as Hrep.
  { intros r rep Hr. destruct (lookup_lt_is_Some_2 metas r) as [m Hm]; [apply lookup_lt_Some in Hr; lia|].
    pose proof (Hmeta r m Hm) as Hmo. pose proof Hmo as (hs & meta & index & Hhs & _). exists m, hs.
    rewrite (Hl r m hs Hm Hhs) in Hr. by injection Hr as <-. }
  split; [done|..].
  - intros r rep Hr. destruct (Hrep r rep Hr) as (m & hs & Hm & -> & Hhs & Hmo). split; [done|]. cbn [meta_block_handle].
    pose proof Hmo as (_ & _ & _ & _ & _ & _ & _ & _ & _ & _ & Hu & id & -> & _). split_and!; [done..|]. cbn.
    destruct (metas !! 0%nat) as [m0|] eqn:Hm0; [by eapply metadata_sizes; [..|by apply Hmeta]|].
    apply lookup_ge_None in Hm0. apply lookup_lt_Some in Hm. lia.
  - intros r rep Hr. destruct (Hrep r rep Hr) as (m & hs & Hm & -> & Hhs & _).
    destruct (replicas_hold_stored _ _ _ _ _ _ Hold Hhs) as [Hst _]. by apply Forall2_length in Hst.
  - intros r rep g h chunk Hr Hh Hc. destruct (Hrep r rep Hr) as (m & hs & Hm & -> & Hhs & _). cbn in Hh.
    destruct (replicas_hold_stored _ _ _ _ _ _ Hold Hhs) as [Hst Hsrv]. split; [by apply Hsrv|].
    destruct (Forall2_lookup_l _ _ _ _ _ Hst Hh) as (chunk' & Hc' & srv & id & -> & _). simplify_eq. done.
Qed.

Section valid.
Context (stocs random_stocs : list Z) (chunks : list (list bytes)) (reps : list (list StoCBlockHandle)) (sz : Z) (n : nat).
Context (l : list FileReplicaMetaData) (Hpl : placed stocs random_stocs chunks reps sz n l).
Context (Hso : stocs_ok (length chunks) stocs random_stocs) (Hch : (length chunks <= max_groups)%nat).
Context (Hn : n = number_of_sstable_metadata_replicas cfg).

Lemma metas_valid : validate_metas [] 0 l = true.
Proof using All.
  pose proof Hso as [Hd _ HR HM Hrand]. pose proof (pl_length _ _ _ _ _ _ _ Hpl) as Hll.
  apply (validate_metas_ok [] 0 sz l ((λ r, default 0 (meta_stoc stocs random_stocs r)) <$> seq 0 n)); [|by left|rewrite app_nil_r].
  - apply Forall2_same_length_lookup_2; [by rewrite length_fmap, length_seq|]. intros r rep x Hr Hx.
    apply list_lookup_fmap_Some in Hx as (r' & -> & [-> _]%lookup_seq). by apply (pl_meta _ _ _ _ _ _ _ Hpl).
  - unfold meta_stoc. destruct (decide (R = 1%nat)); [apply NoDup_default_lookup; [apply Hrand|lia]|by apply NoDup_default_lookup; [|lia]].
Qed.

(** With one data replica. *)
Lemma fragments_valid_one r0 others :
  R = 1%nat → l = r0 :: others → validate_fragments 0 [] (data_block_group_handles r0) others = true.
Proof using All.
  intros E1 El. pose proof Hso as [Hd Hg _ _ _]. unfold max_groups in Hch. rewrite decide_False in Hch by lia.
  assert (l !! 0%nat = Some r0) as H0 by (by rewrite El). assert (∀ r, data_replica r = 0%nat) as Hdr by (intros; unfold data_replica; by rewrite decide_True).
  destruct (pl_meta _ _ _ _ _ _ _ Hpl _ _ H0) as [Hr0 _]. rewrite Hdr in Hr0.
  apply (validate_fragments_ok 0 [] _ others (data_block_group_handles r0)); [|done|rewrite app_nil_r].
  - intros r [i Hi]%list_elem_of_lookup. destruct (pl_meta _ _ _ _ _ _ _ Hpl (Datatypes.S i) r) as [Hr _]; [by rewrite El|].
    rewrite Hdr, Hr0 in Hr. by injection Hr.
  - destruct Hg as [|Hg]; [lia|]. pose proof (pl_frags _ _ _ _ _ _ _ Hpl _ _ H0) as Hl0.
    assert (bh_server_id <$> data_block_group_handles r0 = (λ g, default 0 (stocs !! g)) <$> seq 0 (length chunks)) as ->.
    { apply list_eq_same_length with (length chunks); [by rewrite length_fmap, length_seq|by rewrite length_fmap|].
      intros g x y Hlt Hx Hy. apply list_lookup_fmap_Some in Hx as (h & -> & Hh). destruct (lookup_lt_is_Some_2 chunks g Hlt) as [chunk Hc].
      destruct (pl_frag _ _ _ _ _ _ _ Hpl _ _ _ _ _ H0 Hh Hc) as [-> _]. unfold stoc_of.
      rewrite decide_False by lia. apply list_lookup_fmap_Some in Hy as (g' & -> & [-> _]%lookup_seq). done. }
    by apply NoDup_default_lookup.
Qed.

(** With several: every fragment of every replica is on the server of its
    metadata file. *)
Lemma many_frag r rep g h chunk :
  (1 < R)%nat → l !! r = Some rep → data_block_group_handles rep !! g = Some h → chunks !! g = Some chunk →
  bh_server_id h = default 0 (stocs !! r) ∧ bh_server_id (meta_block_handle rep) = default 0 (stocs !! r)
  ∧ FileMeta.bh_offset h = 0 ∧ FileMeta.bh_size h = size_of (region chunk).
Proof using All.
  intros H1 Hr Hh Hc. destruct (pl_meta _ _ _ _ _ _ _ Hpl _ _ Hr) as (_ & Hm & _).
  destruct (pl_frag _ _ _ _ _ _ _ Hpl _ _ _ _ _ Hr Hh Hc) as [Hs ?]. unfold meta_stoc in Hm. unfold stoc_of, data_replica in Hs.
  rewrite decide_False in Hm by lia. rewrite decide_True, decide_False in Hs by lia. done.
Qed.

Lemma fragment_valid_many g h chunk :
  (1 < R)%nat → chunks !! g = Some chunk → FileMeta.bh_offset h = 0 → FileMeta.bh_size h = size_of (region chunk) →
  validate_fragment g [] (FileMeta.bh_offset h) (FileMeta.bh_size h) l = true.
Proof using All.
  intros H1 Hc Ho Hz. pose proof Hso as [Hd _ _ HM _]. pose proof (pl_length _ _ _ _ _ _ _ Hpl) as Hll.
  apply (validate_fragment_ok _ _ _ _ _ ((λ r, default 0 (stocs !! r)) <$> seq 0 n)); [|rewrite app_nil_r; by apply NoDup_default_lookup; [|lia]].
  apply Forall2_same_length_lookup_2; [by rewrite length_fmap, length_seq|]. intros r rep x Hr Hx.
  apply list_lookup_fmap_Some in Hx as (r' & -> & [-> _]%lookup_seq).
  destruct (lookup_lt_is_Some_2 (data_block_group_handles rep) g) as [h' Hh'].
  { rewrite (pl_frags _ _ _ _ _ _ _ Hpl _ _ Hr). by eapply lookup_lt_Some. }
  destruct (many_frag r rep g h' chunk H1 Hr Hh' Hc) as (Hs & _ & Ho' & Hz'). exists h'. rewrite Ho, Hz. done.
Qed.

Lemma placed_valid : ValidateReplicas R l StoCBlockHandle_init = true.
Proof using All.
  pose proof (pl_length _ _ _ _ _ _ _ Hpl) as Hll. pose proof Hso as [_ _ HR HM _].
  assert (∃ r0 others, l = r0 :: others) as (r0 & others & El) by (destruct l; [cbn in Hll; lia|eauto]).
  unfold ValidateReplicas. rewrite metas_valid. cbn [andb]. rewrite El. rewrite <- El.
  assert (l !! 0%nat = Some r0) as H0 by (by rewrite El). destruct (decide (1 < R)%nat) as [H1|H1].
  2: { rewrite (fragments_valid_one r0 others) by (done || lia). done. }
  assert (∀ r rep g h, l !! r = Some rep → data_block_group_handles rep !! g = Some h → is_Some (chunks !! g)) as Hin.
  { intros r rep g h Hr Hh. apply lookup_lt_is_Some_2. rewrite <- (pl_frags _ _ _ _ _ _ _ Hpl _ _ Hr). by eapply lookup_lt_Some. }
  apply andb_true_intro. split; [apply andb_true_intro; split|].
  - apply forallb_forall. intros r [i Hi]%list_elem_of_In%list_elem_of_lookup. apply bool_decide_eq_true_2.
    rewrite (pl_frags _ _ _ _ _ _ _ Hpl _ _ H0). symmetry. apply (pl_frags _ _ _ _ _ _ _ Hpl (Datatypes.S i)). by rewrite El.
  - apply forallb_forall. intros g Hg%list_elem_of_In%elem_of_seq.
    destruct (lookup_lt_is_Some_2 (data_block_group_handles r0) g) as [h Hh]; [lia|]. rewrite Hh.
    destruct (Hin _ _ _ _ H0 Hh) as [chunk Hc]. destruct (many_frag _ _ _ _ _ H1 H0 Hh Hc) as (_ & _ & Ho & Hz).
    by eapply fragment_valid_many.
  - case_decide; [|done]. apply forallb_forall. intros rep [r Hr]%list_elem_of_In%list_elem_of_lookup.
    apply forallb_forall. intros h [g Hh]%list_elem_of_In%list_elem_of_lookup. apply bool_decide_eq_true_2.
    apply lookup_take_Some in Hh as [Hh _]. destruct (Hin _ _ _ _ Hr Hh) as [chunk Hc].
    destruct (many_frag _ _ _ _ _ H1 Hr Hh Hc) as (-> & -> & _). done.
Qed.
End valid.

(** The selector finds components with room for a table, however many
    fragments it has, and for the blocks [more] stored later. *)
Definition selection_ok (s : S) (select select_meta : Z → res (list Z)) (k : nat) (more : list block_key) : Prop :=
  ∀ groups : list Z, (0 < length groups <= max_groups)%nat →
    ∃ stocs random_stocs, select (num_stocs_to_select cfg groups) = Ret stocs
      ∧ select_meta (Z.of_nat (number_of_sstable_metadata_replicas cfg)) = Ret random_stocs
      ∧ stocs_ok (length groups) stocs random_stocs
      ∧ let keys := table_keys stocs random_stocs (length groups) in
        all_free free s (length keys + length more + k) (keys ++ more) ∧ NoDup (keys ++ more).

Lemma scatter_finds s w select select_meta file kvs bls cs seps filt meta index k more :
  holds w file bls → table_image file kvs bls cs seps filt meta index → StronglySorted lt kvs → kvs ≠ [] →
  wf_replicas w = replicate R [] → length (wf_meta_block_handles w) = number_of_sstable_metadata_replicas cfg →
  use_parity_for_sstable_data_blocks cfg = false → 0 < num_stocs_scatter_data_blocks cfg →
  size_of (region cs) < 2 ^ 32 → size_of kvs < 2 ^ 31 → size_of filt < 2 ^ 31 →
  Forall (λ c, size_of c + 5 < MAX_BLOCK_SIZE) cs →
  keys_bound kvs + size_of name + 64 < METABLOCK_SIZE_PADDING →
  size_of (region cs) + size_of filt + keys_bound kvs + size_of name + 192 < wf_allocated_size w →
  size_of (region cs) + size_of filt + keys_bound kvs + size_of name + 192 <= cap →
  selection_ok s select select_meta k more →
  ∃ s1 w1 s2 w2 metas size l,
    Fsync AcceleratedCRC32C Snappy_Uncompress options cfg dbname file_number s w select (size_of file) = Ret (s1, w1)
    ∧ Finalize AcceleratedCRC32C Snappy_Compress options cfg dbname file_number ItemAlloc s1 w1 select_meta
      = Ret (s2, w2, metas, size)
    ∧ replicas w2 = Ret l ∧ length metas = number_of_sstable_metadata_replicas cfg
    ∧ (∀ r mf, metas !! r = Some mf → replica_answers s2 kvs l r mf)
    ∧ ValidateReplicas R l (default StoCBlockHandle_init (wf_parity w2)) = true
    ∧ extends s s2 ∧ all_free free s2 (length more + k) more.
Proof.
  intros Hh Hi Hsort Hne Hrep Hmh Hpar Hsc Hsz Hn Hfilt Hmax Hpad Hroom Hcap Hselect.
  destruct (image_lengths _ _ _ _ _ _ _ _ Hi) as [Hl1 Hl2]. pose proof (keys_bound_pos kvs) as Hkb.
  assert (Hcne : cs ≠ []) by (intros ->; destruct bls; [|done]; apply Hne; by rewrite <- (im_kvs Hi)).
  assert (0 < size_of cs) as Hc0 by (destruct cs; [done|cbn; lia]).
  destruct (nblocks_in_group_ok cfg (size_of cs) Hc0 Hsc) as (groups & Eg & Hpos & Hsum & _).
  destruct (divide_blocks groups cs Hpos Hsum) as (chunks & Hcs & -> & Hchn).
  pose proof (groups_length _ _ Hsc Eg) as Hgl. rewrite length_fmap in Hgl. rewrite Hl1 in Eg.
  assert (0 < length chunks)%nat as Hch0 by (destruct chunks; [by subst cs|cbn; lia]).
  destruct (Hselect ((λ c, size_of c) <$> chunks)) as (stocs & random_stocs & Esel & Emeta & Hso & Hfree & Hnd);
    [by rewrite length_fmap|].
  rewrite length_fmap in Hso, Hfree, Hnd. set (keys := table_keys stocs random_stocs (length chunks)) in *.
  assert (keys ++ more = data_keys stocs (length chunks)
    ++ (meta_keys stocs random_stocs 0 (number_of_sstable_metadata_replicas cfg) ++ more)) as Ekeys by (by rewrite app_assoc).
  rewrite <- length_app, Ekeys in Hfree. rewrite Ekeys in Hnd.
  destruct (Format_ok s w select stocs file kvs bls cs seps filt meta index chunks k
    (meta_keys stocs random_stocs 0 (number_of_sstable_metadata_replicas cfg) ++ more) Hh Hi Hrep Hpar Eg Hcs Esel Hchn)
    as (s1 & reps & EF & Hold & Hext1 & Hfree1); [lia| |done|done|].
  { intros g r Hg Hr. eapply stoc_of_some; [done|lia|done]. }
  set (w1 := set_format w index ((λ c, size_of c) <$> chunks) stocs reps None) in *.
  assert (Hh1 : holds w1 file bls) by (destruct Hh; by split).
  destruct (Finalize_ok w1 file kvs bls cs seps filt meta index chunks stocs random_stocs reps Hh1 Hi eq_refl eq_refl Hcs Hchn Hcne
    Hsz eq_refl eq_refl Hpad Hroom ltac:(lia) select_meta s1 k more) as (s2 & metas & size & EFin & Hlm & Hall & Hext & Hfree2).
  { cbn [wf_meta_block_handles w1 set_format]. by rewrite Hmh. }
  { cbn [wf_meta_block_handles w1 set_format]. rewrite Hmh. apply (so_metas _ _ _ Hso). }
  { done. }
  { intros r. change (wf_meta_block_handles w1) with (wf_meta_block_handles w). rewrite Hmh. by eapply meta_stocs_some. }
  { change (wf_meta_block_handles w1) with (wf_meta_block_handles w). by rewrite Hmh. }
  { change (wf_meta_block_handles w1) with (wf_meta_block_handles w). rewrite Hmh.
    by apply NoDup_app in Hnd as (_ & _ & ?). }
  change (wf_meta_block_handles w1) with (wf_meta_block_handles w) in Hlm. rewrite Hmh in Hlm.
  pose proof (rh_length _ _ _ _ _ _ _ _ Hold) as HR.
  destruct (replicas_ok (set_meta_handles w1 metas.*2) metas.*2) as (l & El & Hll & Hrl); [|done|].
  { intros r Hr. rewrite length_fmap, Hlm in Hr. cbn [wf_replicas set_meta_handles w1 set_format].
    rewrite HR. destruct (meta_stocs_some _ _ _ r Hso Hr) as [Hd _]. by apply lookup_lt_is_Some_2; rewrite HR. }
  exists s1, w1, s2, (set_meta_handles w1 metas.*2), metas.*1, size, l.
  unfold Fsync. rewrite (ho_used _ _ _ Hh), decide_True by done. rewrite length_fmap. split_and!; try done.
  2: { change (ValidateReplicas R l StoCBlockHandle_init = true).
    assert (replicas_hold cfg dbname file_number AcceleratedCRC32C s2 stocs reps chunks) as Hold2 by (by eapply replicas_hold_extends).
    destruct (replicas_placed s2 stocs random_stocs chunks seps filt kvs reps l metas Hold2) as [sz Hpl]; [by rewrite Hll, length_fmap|done| |].
    - intros r m hs Hm Hhs. apply Hrl; [by rewrite list_lookup_fmap, Hm|].
      cbn [wf_replicas set_meta_handles w1 set_format]. rewrite HR. done.
    - by eapply placed_valid. }
  2: by eapply extends_trans.
  intros r mf Hmf. apply list_lookup_fmap_Some in Hmf as (m & -> & Hm).
  eapply (replica_answers_ok s2 file kvs bls cs seps filt meta index chunks stocs random_stocs reps); try done.
  - by eapply replicas_hold_extends.
  - by apply Hall.
  - intros hs Hhs. apply Hrl; [by rewrite list_lookup_fmap, Hm|].
    cbn [wf_replicas set_meta_handles w1 set_format]. rewrite HR. done.
Qed.
End scatter.
