(* ===== verification/TableStore.v ===== *)
(** * TableStore: tables on storage components

    A table is built in the memory file of a client ([TableBuilder] over
    [StoCFile]), scattered over storage components whose StoC files are those
    of [PersistentStoC], and read back ([Table]).  The files before this one
    prove the steps; this one joins them: the builder does on a client what it
    does on a file in memory, the components keep the promises of
    [BlockStoreLaws], and so lookups find what was added. *)

From S2P Require Import Prelude Coding Comparator Cursor NovaCommon DbFormat Subrange FileMeta Filename Block Bloom FilterBlock Crc32c Format PersistentStoC TableBuilder Table StorageSelector StoCFile Scatter.

(** ** The builder on a client *)

(** Follows the first call in a computation that returned. *)
Ltac first_call H E :=
  match type of H with
  | mbind _ ?m = Ret _ => destruct m eqn:E; cbn [mbind res_bind] in H; [|done|done]
  end.

Section client_builder.
Context (w0 : StoCWritableFileClient).
Hypothesis w0_size : size_of (wf_backing_mem w0) = wf_allocated_size w0.

(** The client when its memory file is [f]. *)
Definition client_of (f : bytes) : StoCWritableFileClient :=
  set_mem w0 (f ++ drop (length f) (wf_backing_mem w0)) (size_of f).

Definition lift (r : Rep bytes) : Rep StoCWritableFileClient :=
  mkRep (client_of (rep_file r)) (rep_offset r) (rep_status r) (rep_data_block r) (rep_index_block r) (rep_last_key r)
    (rep_num_entries r) (rep_num_data_blocks r) (rep_closed r) (rep_filter_block r) (rep_pending_index_entry r)
    (rep_pending_handle r).

Lemma Append_lift f d :
  size_of (f ++ d) < wf_allocated_size w0 → file_Append (client_of f) d = Ret (client_of (f ++ d), true).
Proof.
  rewrite length_app. intros Hs. cbn [file_Append Client_file]. unfold Client_Append, client_of.
  cbn [wf_used_size set_mem wf_allocated_size wf_backing_mem]. rewrite decide_True by lia. cbn [mbind res_bind].
  unfold set_mem at 1. cbn [wf_allocated_size wf_num_data_blocks wf_index_block wf_nblocks_in_group wf_stocs wf_replicas wf_parity wf_meta_block_handles set_mem].
  unfold set_mem. do 3 f_equal; [|rewrite length_app; lia].
  unfold mem_write. rewrite Nat2Z.id, take_app_length, <- app_assoc. do 2 f_equal.
  rewrite drop_app_ge by lia. rewrite drop_drop. f_equal. rewrite length_app. lia.
Qed.

Context (AcceleratedCRC32C : Z → bytes → Z) (Snappy_Compress : bytes → option bytes) (options : TableOptions).

Lemma WriteRawBlock_lift r c t r' h :
  WriteRawBlock AcceleratedCRC32C r c t = Ret (r', h) →
  size_of (rep_file r) <= size_of (rep_file r')
  ∧ (size_of (rep_file r') < wf_allocated_size w0 → WriteRawBlock AcceleratedCRC32C (lift r) c t = Ret (lift r', h)).
Proof.
  unfold WriteRawBlock. cbn [file_Append memory_file mbind res_bind]. intros [= <- <-]. cbn [set_file rep_file].
  split; [rewrite !length_app; lia|]. intros Hs. cbn [rep_file lift].
  rewrite Append_lift by (rewrite length_app in Hs; lia). cbn [mbind res_bind]. by rewrite Append_lift.
Qed.

Lemma WriteBlock_lift r b r' h :
  WriteBlock AcceleratedCRC32C Snappy_Compress options r b = Ret (r', h) →
  size_of (rep_file r) <= size_of (rep_file r')
  ∧ (size_of (rep_file r') < wf_allocated_size w0 →
     WriteBlock AcceleratedCRC32C Snappy_Compress options (lift r) b = Ret (lift r', h)).
Proof.
  unfold WriteBlock. cbn [lift rep_status]. destruct (rep_status r); [|done].
  destruct (match opt_compression options with kNoCompression => _ | kSnappyCompression => _ end) as [c t].
  apply WriteRawBlock_lift.
Qed.

Lemma Flush_lift r r' :
  Flush AcceleratedCRC32C Snappy_Compress options r = Ret r' →
  size_of (rep_file r) <= size_of (rep_file r')
  ∧ (size_of (rep_file r') < wf_allocated_size w0 →
     Flush AcceleratedCRC32C Snappy_Compress options (lift r) = Ret (lift r')).
Proof.
  unfold Flush. cbn [lift rep_status rep_closed rep_data_block rep_pending_index_entry].
  destruct (rep_closed r); [done|]. destruct (negb (rep_status r)); [by intros [= <-]|].
  destruct (BlockBuilder_empty (rep_data_block r)); [by intros [= <-]|]. destruct (rep_pending_index_entry r); [done|].
  intros H. first_call H EW. destruct a as [r1 h]. destruct (WriteBlock_lift r _ r1 h EW) as [Hle HW].
  revert H. unfold lift in HW at 2.
  destruct r1 as [f off st db ib lk ne nb cl fb pe ph]. cbn [rep_file] in Hle, HW.
  cbn [set_pending set_data_block rep_status rep_file rep_offset rep_filter_block rep_pending_index_entry rep_data_block] in *.
  destruct st, fb as [fb|], (opt_filter options) as [[policy name]|];
    cbn [mbind res_bind file_Flush memory_file]; rep_cbn; cbn [mbind res_bind]; rep_cbn; intros H;
    try (first_call H EB); injection H as <-; cbn [rep_file set_filter]; (split; [done|]); intros Hs; rewrite (HW Hs);
    cbn [mbind res_bind file_Flush Client_file]; rep_cbn; cbn [mbind res_bind]; rep_cbn; rewrite ?EB; done.
Qed.

Lemma add_index_entry_lift r k r' :
  add_index_entry options r k = Ret r' → rep_file r' = rep_file r ∧ add_index_entry options (lift r) k = Ret (lift r').
Proof.
  unfold add_index_entry. cbn [lift rep_pending_handle rep_index_block]. intros H.
  first_call H EH. first_call H EB. injection H as <-. cbn [mbind res_bind]. by rewrite EB.
Qed.

Lemma Add_lift r k v r' ok :
  TableBuilder_Add AcceleratedCRC32C Snappy_Compress options r k v = Ret (r', ok) →
  size_of (rep_file r) <= size_of (rep_file r')
  ∧ (size_of (rep_file r') < wf_allocated_size w0 →
     TableBuilder_Add AcceleratedCRC32C Snappy_Compress options (lift r) k v = Ret (lift r', ok)).
Proof.
  unfold TableBuilder_Add. cbn [lift rep_closed rep_status rep_num_entries rep_last_key rep_pending_index_entry rep_data_block].
  destruct (rep_closed r); [done|]. destruct (negb (rep_status r)); [by intros [= <- <-]|].
  destruct (decide _); [by intros [= <- <-]|]. intros H. first_call H E1.
  assert (∃ r1c, (if rep_pending_index_entry r then if BlockBuilder_empty (rep_data_block r)
      then add_index_entry options (lift r) ((opt_comparator options).(FindShortestSeparator) (rep_last_key r) k) else Abort
    else Ret (lift r)) = Ret r1c ∧ r1c = lift a ∧ rep_file a = rep_file r) as (r1c & -> & -> & Hf1).
  { revert E1. destruct (rep_pending_index_entry r); [|intros [= <-]; eauto].
    destruct (BlockBuilder_empty _); [|done]. intros E1. apply add_index_entry_lift in E1 as [? ->]. eauto. }
  cbn [mbind res_bind].
  set (r2 := match rep_filter_block a with Some f => set_filter a (Some (AddKey f k)) | None => a end) in *.
  assert (match rep_filter_block (lift a) with Some f => set_filter (lift a) (Some (AddKey f k)) | None => lift a end = lift r2) as ->.
  { unfold r2. cbn [lift rep_filter_block]. by destruct (rep_filter_block a). }
  assert (Hf2 : rep_file r2 = rep_file r) by (unfold r2; destruct (rep_filter_block a); by rewrite <- Hf1).
  clearbody r2. first_call H E2. set (r3 := set_data_block (set_last_key r2 k (rep_num_entries r2 + 1)) a0) in *.
  change (rep_data_block (set_last_key (lift r2) k (rep_num_entries (lift r2) + 1)))
    with (rep_data_block (set_last_key r2 k (rep_num_entries r2 + 1))). rewrite E2. cbn [mbind res_bind].
  change (set_data_block (set_last_key (lift r2) k (rep_num_entries (lift r2) + 1)) a0) with (lift r3).
  change (rep_data_block (lift r3)) with (rep_data_block r3).
  assert (Hf3 : rep_file r3 = rep_file r) by done. clearbody r3. rewrite <- Hf3.
  first_call H E3. injection H as <- <-. revert E3. destruct (decide _) as [Hd|Hd].
  - intros (Hle & HF)%Flush_lift. split; [done|]. intros Hs. by rewrite (HF Hs).
  - intros [= <-]. by split.
Qed.

Lemma add_table_entries_lift r kvs r' :
  add_table_entries AcceleratedCRC32C Snappy_Compress options r kvs = Ret r' →
  size_of (rep_file r) <= size_of (rep_file r')
  ∧ (size_of (rep_file r') < wf_allocated_size w0 →
     add_table_entries AcceleratedCRC32C Snappy_Compress options (lift r) kvs = Ret (lift r')).
Proof.
  revert r. induction kvs as [|[k v] kvs IH]; intros r; cbn [add_table_entries]; [by intros [= <-]|].
  intros H. first_call H EA. destruct a as [r1 [|]]; [|done].
  destruct (Add_lift r k v r1 true EA) as [Hle HA]. destruct (IH r1 H) as [Hle' HI]. split; [lia|].
  intros Hs. rewrite HA by lia. cbn [mbind res_bind]. by apply HI.
Qed.

Lemma finish_filter_lift r r' h :
  finish_filter AcceleratedCRC32C options r = Ret (r', h) →
  size_of (rep_file r) <= size_of (rep_file r')
  ∧ (size_of (rep_file r') < wf_allocated_size w0 → finish_filter AcceleratedCRC32C options (lift r) = Ret (lift r', h)).
Proof.
  unfold finish_filter. cbn [lift rep_filter_block rep_status].
  destruct (rep_filter_block r) as [f|], (opt_filter options) as [[policy name]|], (rep_status r);
    try (by intros [= <- <-]). apply WriteRawBlock_lift.
Qed.

Lemma finish_metaindex_lift r fh r' h :
  finish_metaindex AcceleratedCRC32C Snappy_Compress options r fh = Ret (r', h) →
  size_of (rep_file r) <= size_of (rep_file r')
  ∧ (size_of (rep_file r') < wf_allocated_size w0 →
     finish_metaindex AcceleratedCRC32C Snappy_Compress options (lift r) fh = Ret (lift r', h)).
Proof.
  unfold finish_metaindex. cbn [lift rep_filter_block rep_status]. destruct (rep_status r); [|by intros [= <- <-]].
  intros H. first_call H E. apply WriteBlock_lift in H as [Hle HW]. split; [done|]. intros Hs. by apply HW.
Qed.

Lemma finish_index_lift r r' h :
  finish_index AcceleratedCRC32C Snappy_Compress options r = Ret (r', h) →
  size_of (rep_file r) <= size_of (rep_file r')
  ∧ (size_of (rep_file r') < wf_allocated_size w0 →
     finish_index AcceleratedCRC32C Snappy_Compress options (lift r) = Ret (lift r', h)).
Proof.
  unfold finish_index. cbn [lift rep_pending_index_entry rep_status rep_last_key].
  destruct (rep_status r); [|by intros [= <- <-]]. intros H. first_call H E1. first_call H E2.
  assert (rep_file a = rep_file r ∧ (if rep_pending_index_entry r
    then add_index_entry options (lift r) ((opt_comparator options).(FindShortSuccessor) (rep_last_key r)) else Ret (lift r)) = Ret (lift a))
    as [Hf ->].
  { destruct (rep_pending_index_entry r); [by apply add_index_entry_lift|]. by injection E1 as ->. }
  destruct a0 as [r2 h2]. apply WriteBlock_lift in E2 as [Hle HW]. injection H as <- <-. rewrite <- Hf. split; [done|].
  intros Hs. cbn [mbind res_bind]. change (rep_index_block (lift a)) with (rep_index_block a). by rewrite (HW Hs).
Qed.

Lemma finish_footer_lift r mh ih r' :
  finish_footer r mh ih = Ret r' →
  size_of (rep_file r) <= size_of (rep_file r')
  ∧ (size_of (rep_file r') < wf_allocated_size w0 → finish_footer (lift r) mh ih = Ret (lift r')).
Proof.
  unfold finish_footer. cbn [lift rep_status rep_file]. destruct (rep_status r); [|by intros [= <-]].
  intros H. first_call H E. cbn [file_Append memory_file mbind res_bind] in H. injection H as <-. cbn [set_file rep_file].
  split; [rewrite length_app; lia|]. intros Hs. cbn [mbind res_bind]. by rewrite Append_lift.
Qed.

Lemma Finish_lift r r' :
  TableBuilder_Finish AcceleratedCRC32C Snappy_Compress options r = Ret r' →
  size_of (rep_file r) <= size_of (rep_file r')
  ∧ (size_of (rep_file r') < wf_allocated_size w0 →
     TableBuilder_Finish AcceleratedCRC32C Snappy_Compress options (lift r) = Ret (lift r')).
Proof.
  unfold TableBuilder_Finish. intros H. first_call H E0. apply Flush_lift in E0 as [L0 H0].
  destruct (rep_closed a) eqn:Ec; [done|]. first_call H E1. destruct a0 as [r1 h1]. apply finish_filter_lift in E1 as [L1 H1].
  first_call H E2. destruct a0 as [r2 h2]. apply finish_metaindex_lift in E2 as [L2 H2].
  first_call H E3. destruct a0 as [r3 h3]. apply finish_index_lift in E3 as [L3 H3]. apply finish_footer_lift in H as [L4 H4].
  cbn [set_closed rep_file] in L1. split; [lia|]. intros Hs.
  rewrite H0 by lia. cbn [mbind res_bind]. change (rep_closed (lift a)) with (rep_closed a). rewrite Ec.
  change (set_closed (lift a)) with (lift (set_closed a)). rewrite H1 by lia. cbn [mbind res_bind].
  rewrite H2 by lia. cbn [mbind res_bind]. rewrite H3 by lia. cbn [mbind res_bind]. by apply H4.
Qed.

Lemma make_lift r :
  wf_used_size w0 = 0 → TableBuilder_make options ([] : bytes) = Ret r → TableBuilder_make options w0 = Ret (lift r).
Proof.
  intros Hu E0. assert (client_of [] = w0) as Ec by (unfold client_of, set_mem; destruct w0; cbn in Hu |- *; by rewrite Hu).
  unfold TableBuilder_make in *. destruct (opt_filter options) as [[policy name]|].
  - first_call E0 EF. injection E0 as <-. cbn [mbind res_bind]. unfold lift. cbn [rep_file set_filter]. by rewrite Ec.
  - injection E0 as <-. cbn [mbind res_bind]. unfold lift. cbn [rep_file]. by rewrite Ec.
Qed.

(** A table built in the memory of a client is the table built in memory. *)
Lemma build_table_lift kvs r :
  wf_used_size w0 = 0 → build_table AcceleratedCRC32C Snappy_Compress options ([] : bytes) kvs = Ret r →
  size_of (rep_file r) < wf_allocated_size w0 →
  build_table AcceleratedCRC32C Snappy_Compress options w0 kvs = Ret (lift r).
Proof.
  intros Hu H Hs. unfold build_table in *. first_call H E0. first_call H E1. apply add_table_entries_lift in E1 as [L1 H1].
  apply Finish_lift in H as [L2 H2].
  rewrite (make_lift a Hu E0).
  cbn [mbind res_bind]. rewrite H1 by lia. cbn [mbind res_bind]. by apply H2.
Qed.
End client_builder.

(** ** The storage components *)

(** The managers of the StoC files, by server. *)
Abbreviation cluster := (gmap Z StocPersistentFileManager).

Section cluster.
Context (alloc : Z → Z * bytes).
Hypothesis alloc_ok : ∀ n, 0 <= n < 2 ^ 32 →
  n <= size_of (alloc n).2 ∧ 0 <= (alloc n).1 ∧ (alloc n).1 + size_of (alloc n).2 < 2 ^ 64 - 1.

(** A block goes to its component, which stores it as its own clients do. *)
Definition cluster_append (s : cluster) (srv : Z) (dbname : bytes) (file_number replica_id : Z) (data : bytes)
    (t : FileInternalType) : res (cluster * StoCBlockHandle) :=
  match s !! srv with
  | None => Abort
  | Some m => '(m, h) ← append_local alloc srv m dbname file_number replica_id data t; Ret (<[srv := m]> s, h)
  end.

Definition cluster_read (s : cluster) (h : StoCBlockHandle) (offset n : Z) : res bytes :=
  match s !! bh_server_id h with
  | None => Abort
  | Some m => '(_, data) ← read_local alloc m h offset n []; Ret data
  end.

#[local] Instance cluster_store : BlockStore cluster := {| bs_append := cluster_append; bs_read := cluster_read |}.

(** A server with room for [k] more StoC files of [cap] bytes, which does not
    have the file of this block yet. *)
Definition cluster_free (cap : Z) (s : cluster) (k : nat) (key : block_key) : Prop :=
  let '(srv, db, n, r, t) := key in
  ∃ m fn, s !! srv = Some m ∧ is_u32 srv ∧ mgr_ok m ∧ 0 < n < 2 ^ 64 ∧ is_u64 r
    ∧ TableFileName db n t r = Ret fn ∧ ParseFileName_type fn = Some kTableFile
    ∧ fn_stoc_file_map_ m !! fn = None ∧ cap <= stoc_file_size_ m < 2 ^ 32
    ∧ current_stoc_file_id_ m + Z.of_nat k < 2 ^ 32.

Lemma cluster_read_eq s h o n :
  cluster_read s h o n = match s !! bh_server_id h with None => Abort | Some m => ReadDataBlock m (bh_stoc_file_id h) o n end.
Proof.
  unfold cluster_read, read_local. destruct (s !! bh_server_id h) as [m|]; [|done].
  rewrite decide_True by done. cbn [mbind res_bind]. by destruct (ReadDataBlock _ _ _ _).
Qed.

(** What can be read stays as it is when a component stores another block. *)
Lemma cluster_extends s srv m fn t data :
  s !! srv = Some m → mgr_ok m → extends s (<[srv := stored_manager m fn t data]> s).
Proof.
  intros Hm Hok h d Hst h' o n Hs Hf Ho Hn Hfit. cbn [bs_read cluster_store] in *. rewrite cluster_read_eq.
  specialize (Hst h') as Hst'. cbn [bs_read cluster_store] in Hst'.
  assert (H0 := Hst' 0 0 Hs Hf ltac:(lia) ltac:(lia) ltac:(lia)). rewrite cluster_read_eq in H0.
  rewrite <- (Hst' o n Hs Hf Ho Hn Hfit), cluster_read_eq.
  destruct (decide (bh_server_id h' = srv)) as [Heq|Hne].
  - rewrite Heq in H0 |- *. rewrite lookup_insert_eq. rewrite Hm in H0 |- *. apply ReadDataBlock_other; [done|].
    unfold ReadDataBlock, FindStoCFile in H0. by destruct (stoc_files_ m !! bh_stoc_file_id h').
  - by rewrite lookup_insert_ne.
Qed.

#[local] Instance cluster_laws cap : BlockStoreLaws cluster cap (cluster_free cap).
Proof using alloc_ok.
  split.
  - intros s k srv db n r t (m & fn & _ & Hu & _). done.
  - intros s k srv db n r t data (m & fn & Hm & Hu & Hok & Hn & Hr & Hfn & Ht & Hfree & Hsz & Hid) Hd.
    assert (Happ := append_local_stored alloc alloc_ok srv m db n r data t fn Hok ltac:(lia) Hfn Ht Hfree ltac:(lia) ltac:(lia)).
    pose proof (mo_current _ Hok) as Hcur. unfold MAX_MANIFEST_FILE_ID in Hcur.
    exists (<[srv := stored_manager m fn t data]> s), (current_stoc_file_id_ m).
    cbn [bs_append cluster_store]. unfold cluster_append. rewrite Hm, Happ. split_and!; [done|lia|lia| | |].
    + intros h' o l Hs Hf Ho Hl Hfit. cbn [bs_read cluster_store bh_server_id bh_stoc_file_id] in *.
      rewrite cluster_read_eq, Hs, Hf, lookup_insert_eq. by apply ReadDataBlock_stored.
    + by apply cluster_extends.
    + intros [[[[srv' db'] n'] r'] t'] Hne (m' & fn' & Hm' & Hu' & Hok' & Hn' & Hr' & Hfn' & Ht' & Hfree' & Hsz' & Hid').
      destruct (decide (srv' = srv)) as [->|Hsrv].
      * rewrite Hm in Hm'. injection Hm' as <-. exists (stored_manager m fn t data), fn'. rewrite lookup_insert_eq.
        split_and!; try done; try apply Hn'; try apply Hsz'; try apply Hu'; try apply Hr';
          [apply stored_manager_ok; [done|lia]| |cbn; lia].
        cbn [stored_manager fn_stoc_file_map_]. rewrite lookup_insert_ne; [done|]. intros <-. apply Hne.
        destruct (TableFileName_inj db n t r db' n' t' r' fn) as (-> & -> & -> & ->); try done; unfold is_u64; lia.
      * exists m', fn'. rewrite lookup_insert_ne by done. split_and!; try done; lia.
Qed.

(** ** Tables are found again *)

Context (AcceleratedCRC32C : Z → bytes → Z) (Snappy_Compress Snappy_Uncompress : bytes → option bytes).
Context (ItemAlloc : Z → bytes).
Hypothesis ItemAlloc_size : ∀ n, 0 <= n → size_of (ItemAlloc n) = n.
Context (cmp : Comparator) {SC : Separating cmp} (same : bytes → bytes → Prop) {SG : SeparatesGroups cmp same}.
Context (interval block_size : Z) (policy : FilterPolicy) {FC : FilterContract policy} (name : bytes) (c : Z).
Context {FS : FilterSized policy c}.
Context (cfg : StoCConfig) (dbname : bytes) (file_number : Z).
Local Abbreviation options := (table_options cmp interval block_size policy name).

(** More than any file of a table of [kvs] takes. *)
Definition table_bound (kvs : list kv) : Z :=
  3 * data_bound kvs + (c + 10) * size_of kvs + keys_bound kvs + size_of name + 512.

(** The entries fit: into the memory of the client, a StoC file, the padding of
    the metadata file, and every block into the buffer of a reader. *)
Record table_fits (kvs : list kv) (file_size cap : Z) : Prop := {
  tf_small : table_bound kvs < 2 ^ 31;
  tf_memory : table_bound kvs < file_size;
  tf_stoc : table_bound kvs <= cap;
  tf_padding : keys_bound kvs + size_of name + 64 < METABLOCK_SIZE_PADDING;
  tf_blocks : Forall (λ e : kv, Z.max block_size 8 + size_of e.1 + size_of e.2 + 24 < MAX_BLOCK_SIZE) kvs
}.

Lemma image_file_size file kvs bls cs seps filt meta index :
  table_image AcceleratedCRC32C cmp block_size policy name file kvs bls cs seps filt meta index →
  size_of filt <= (c + 10) * size_of kvs + data_bound kvs →
  size_of file < table_bound kvs
  ∧ size_of (region AcceleratedCRC32C cs) + size_of filt + keys_bound kvs + size_of name + 192 < table_bound kvs.
Proof.
  intros Hi Hf. pose proof (region_bound AcceleratedCRC32C cmp cs bls (im_blocks Hi) (im_nonempty Hi)) as Hr.
  rewrite (im_kvs Hi) in Hr. pose proof (data_bound_pos kvs). pose proof (keys_bound_pos kvs). unfold table_bound.
  assert (0 <= (c + 10) * size_of kvs) by (pose proof (filter_sized_pos (P := policy) (c := c)); lia).
  split; [|lia]. rewrite (im_file Hi), !length_app, length_encode_footer.
  pose proof (size_stored AcceleratedCRC32C filt). pose proof (size_stored AcceleratedCRC32C meta).
  pose proof (size_stored AcceleratedCRC32C index).
  assert (size_of index <= data_bound kvs).
  { destruct (im_index Hi) as (? & ? & _ & _ & [Hx _] & _). etrans; [exact Hx|].
    pose proof (zip_bound (handles_from AcceleratedCRC32C 0 cs) bls seps) as Hz. rewrite (im_kvs Hi) in Hz. unfold index_entries.
    specialize (Hz ltac:(rewrite (im_seps_length Hi); lia) (im_sep_sizes Hi)). lia. }
  assert (size_of meta <= size_of name + 54).
  { destruct (im_meta Hi) as (? & ? & _ & _ & [Hm _] & _). unfold kvs_bound in Hm. cbn [foldr fst snd] in Hm.
    change (length (filter_key name)) with (7 + length name)%nat in Hm.
    pose proof (length_encode_handle (mkBlockHandle (size_of (region AcceleratedCRC32C cs)) (size_of filt))).
    unfold kMaxEncodedLength in *. lia. }
  unfold kFooterLength, kMaxEncodedLength. lia.
Qed.

Lemma image_blocks_small file kvs bls cs seps filt meta index :
  table_image AcceleratedCRC32C cmp block_size policy name file kvs bls cs seps filt meta index →
  Forall (λ e : kv, Z.max block_size 8 + size_of e.1 + size_of e.2 + 24 < MAX_BLOCK_SIZE) kvs →
  Forall (λ x, size_of x + 5 < MAX_BLOCK_SIZE) cs.
Proof.
  intros Hi Hk. apply Forall_forall. intros x [i Hx]%list_elem_of_lookup.
  destruct (Forall2_lookup_l _ _ _ _ _ (im_block_sizes Hi) Hx) as (bl & Hbl & e & He & Hle).
  rewrite Forall_forall in Hk. assert (e ∈ kvs) as Hin%Hk.
  { rewrite <- (im_kvs Hi). apply elem_of_concat. exists bl. split; [done|]. by eapply list_elem_of_lookup_2. }
  lia.
Qed.

(** [more] are the keys of blocks that are stored later. *)
Lemma store_table kvs file_size cap mem select select_meta s k more :
  1 <= interval → kvs ≠ [] → StronglySorted (λ a b : kv, Compare a.1 b.1 < 0) kvs → table_fits kvs file_size cap →
  size_of mem = file_size →
  use_parity_for_sstable_data_blocks cfg = false → 0 < num_stocs_scatter_data_blocks cfg →
  selection_ok (cluster_free cap) cfg dbname file_number s select select_meta k more →
  ∃ r s1 w1 s2 w2 metas size l,
    build_table AcceleratedCRC32C Snappy_Compress options (Client_make cfg file_size mem) kvs = Ret r
    ∧ Fsync AcceleratedCRC32C Snappy_Uncompress options cfg dbname file_number s
        (set_num_data_blocks (rep_file r) (NumDataBlocks r)) select (FileSize r) = Ret (s1, w1)
    ∧ Finalize AcceleratedCRC32C Snappy_Compress options cfg dbname file_number ItemAlloc s1 w1 select_meta
      = Ret (s2, w2, metas, size)
    ∧ replicas w2 = Ret l ∧ length metas = number_of_sstable_metadata_replicas cfg
    ∧ (∀ i mf, metas !! i = Some mf →
        replica_answers AcceleratedCRC32C Snappy_Uncompress cmp interval block_size policy name same s2 kvs l i mf)
    ∧ ValidateReplicas (number_of_sstable_data_replicas cfg) l (default StoCBlockHandle_init (wf_parity w2)) = true
    ∧ rep_status r = true ∧ 0 < FileSize r
    ∧ extends s s2 ∧ all_free (cluster_free cap) s2 (length more + k) more.
Proof using alloc_ok ItemAlloc_size SC FC FS SG.
  intros Hint Hne Hsort [Hsmall Hmemory Hstoc Hpad Hblocks] Hmem Hpar Hsc Hso.
  pose proof (data_bound_pos kvs) as Hdb. pose proof (keys_bound_pos kvs) as Hkb. pose proof (kvs_data_bound kvs) as Hkd.
  pose proof (kvs_bound_pos kvs) as Hkp. assert (size_of name < 2 ^ 30) as Hname by (unfold METABLOCK_SIZE_PADDING in Hpad; lia).
  assert (0 <= (c + 10) * size_of kvs) as Hc by (pose proof (filter_sized_pos (P := policy) (c := c)); lia).
  destruct (build_table_image AcceleratedCRC32C Snappy_Compress cmp interval block_size policy name Hint kvs c)
    as (r & bls & cs & seps & filt & meta & index & Hb & Hi & Hstat & Hfs & _ & Hnb & Hf); try done; try (unfold table_bound in Hsmall; lia).
  destruct (image_file_size _ _ _ _ _ _ _ _ Hi Hf) as [Hfsz Hroom].
  set (w0 := Client_make cfg file_size mem).
  assert (build_table AcceleratedCRC32C Snappy_Compress options w0 kvs = Ret (lift w0 r)) as Hbl.
  { apply build_table_lift; [done|done|done|]. cbn [wf_allocated_size w0 Client_make]. lia. }
  set (w := set_num_data_blocks (rep_file (lift w0 r)) (NumDataBlocks (lift w0 r))).
  assert (Hh : holds w (rep_file r) bls).
  { split; [|done|exact Hnb]. eexists. done. }
  destruct (scatter_finds cap (cluster_free cap) cfg dbname file_number AcceleratedCRC32C Snappy_Compress Snappy_Uncompress
    cmp interval block_size policy name Hint ItemAlloc ItemAlloc_size same s w select select_meta (rep_file r) kvs bls cs seps filt meta index k more
    Hh Hi Hsort Hne) as (s1 & w1 & s2 & w2 & metas & size & l & EF & EFin & El & Hlm & Hans & Hval & Hext & Hmore); try done; try lia.
  - cbn [wf_meta_block_handles w set_num_data_blocks lift rep_file client_of set_mem w0 Client_make]. by rewrite length_replicate.
  - unfold table_bound in Hsmall. lia.
  - by eapply image_blocks_small.
  - change (wf_allocated_size w) with file_size. lia.
  - exists (lift w0 r), s1, w1, s2, w2, metas, size, l. rewrite <- Hfs in EF. split_and!; try done.
    change (FileSize (lift w0 r)) with (FileSize r). rewrite Hfs, (im_file Hi), !length_app, length_encode_footer.
    unfold kFooterLength, kMaxEncodedLength. lia.
Qed.
(** C3. A table of sorted entries that fit is built, scattered and finalized without
    an error, and every replica of it answers every lookup, after any number of
    further tables were stored: with nothing but the first entry at or after the
    key, and with that entry when it is of the same group as the key and the
    filter does not tell them apart.  The replicas are placed as
    [ValidateReplicas] demands.  Its iterator walks through the entries in
    both directions, as the contract of iterators says. *)
Theorem stored_table_found kvs file_size cap mem select select_meta s :
  1 <= interval → kvs ≠ [] → StronglySorted (λ a b : kv, Compare a.1 b.1 < 0) kvs → table_fits kvs file_size cap →
  size_of mem = file_size →
  use_parity_for_sstable_data_blocks cfg = false → 0 < num_stocs_scatter_data_blocks cfg →
  selection_ok (cluster_free cap) cfg dbname file_number s select select_meta 0 [] →
  ∃ r s1 w1 s2 w2 metas size l,
    build_table AcceleratedCRC32C Snappy_Compress options (Client_make cfg file_size mem) kvs = Ret r
    ∧ Fsync AcceleratedCRC32C Snappy_Uncompress options cfg dbname file_number s
        (set_num_data_blocks (rep_file r) (NumDataBlocks r)) select (FileSize r) = Ret (s1, w1)
    ∧ Finalize AcceleratedCRC32C Snappy_Compress options cfg dbname file_number ItemAlloc s1 w1 select_meta
      = Ret (s2, w2, metas, size)
    ∧ replicas w2 = Ret l ∧ length metas = number_of_sstable_metadata_replicas cfg
    ∧ ValidateReplicas (number_of_sstable_data_replicas cfg) l (default StoCBlockHandle_init (wf_parity w2)) = true
    ∧ ∀ i mf, metas !! i = Some mf →
        replica_answers AcceleratedCRC32C Snappy_Uncompress cmp interval block_size policy name same s2 kvs l i mf.
Proof using alloc_ok ItemAlloc_size SC FC FS SG.
  intros Hint Hne Hsort Hfits Hmem Hpar Hsc Hso.
  destruct (store_table kvs file_size cap mem select select_meta s 0 [] Hint Hne Hsort Hfits Hmem Hpar Hsc Hso)
    as (r & s1 & w1 & s2 & w2 & metas & size & l & Eb & EF & EFin & El & Hlm & Hans & Hval & _).
  exists r, s1, w1, s2, w2, metas, size, l. done.
Qed.
End cluster.

(** ** A table of three entries on three components *)

Definition example_key (u : Z) (s : Z) : bytes := InternalKey_make [u] s kTypeValue.
Definition example_table : list kv := [(example_key 97 3, [1]); (example_key 98 5, [2; 2]); (example_key 98 2, [3])].
Definition example_policy : FilterPolicy := InternalFilterPolicy (NewBloomFilterPolicy 10).
Definition example_config : StoCConfig := mkStoCConfig 2 1 1 false.
Definition example_memory (n : Z) : bytes := replicate (Z.to_nat n) 0.
Definition example_cluster : cluster :=
  <[1 := Manager_init 1048576 100]> (<[2 := Manager_init 1048576 100]> (<[3 := Manager_init 1048576 100]> ∅)).

Definition example_select (servers : list Z) (n : Z) : res (list Z) := Ret (take (Z.to_nat n) servers).

Lemma example_free key :
  key ∈ table_keys example_config (str "db") 7 [1; 2] [3] 2 → cluster_free 5000 example_cluster 3 key.
Proof.
  intros Hk. change (table_keys _ _ _ _ _ _)
    with [(1, str "db", 7, 0, kFileData); (2, str "db", 7, 0, kFileData); (3, str "db", 7, 0, kFileMetadata)] in Hk.
  repeat (apply elem_of_cons in Hk as [->|Hk]); [| | |by apply not_elem_of_nil in Hk];
    (eexists _, _; split; [reflexivity|]; split; [by vm_compute|]; split; [apply Manager_init_ok|];
     split; [lia|]; split; [by vm_compute|]; split; [reflexivity|]; split; [reflexivity|]; split; [reflexivity|];
     split; [by vm_compute|]; by vm_compute).
Qed.

Lemma cluster_free_le cap s k k' key : (k' <= k)%nat → cluster_free cap s k key → cluster_free cap s k' key.
Proof.
  intros Hk. destruct key as [[[[srv db] n] r] t]. intros (m & fn & Hm & Hu & Hok & Hn & Hr & Hfn & Ht & Hf & Hsz & Hid).
  exists m, fn. split_and!; try done; lia.
Qed.

Lemma example_selection :
  selection_ok (cluster_free 5000) example_config (str "db") 7 example_cluster (example_select [1; 2]) (example_select [3]) 0 [].
Proof.
  intros groups [H0 Hm]. destruct groups as [|g1 [|g2 [|]]]; [cbn in H0; lia| | |vm_compute in Hm; lia].
  - exists [1], [3]. split; [done|]. split; [done|].
    assert (stocs_ok example_config 1 [1] [3]) as Hs.
    { split; [apply NoDup_singleton|right; cbn; lia|cbn; lia|cbn; lia|cbn; split; [lia|apply NoDup_singleton]]. }
    split; [done|]. cbv zeta. rewrite !app_nil_r. split.
    + apply Forall_forall. intros key Hk. apply (cluster_free_le _ _ 3); [cbn; lia|]. apply example_free.
      change (table_keys _ _ _ _ _ _) with [(1, str "db", 7, 0, kFileData); (3, str "db", 7, 0, kFileMetadata)] in Hk.
      repeat (apply elem_of_cons in Hk as [->|Hk]); [| |by apply not_elem_of_nil in Hk]; [by left|by right; right; left].
    + by apply (NoDup_table_keys _ _ _ 1); [vm_compute; lia|].
  - exists [1; 2], [3]. split; [done|]. split; [done|].
    assert (stocs_ok example_config 2 [1; 2] [3]) as Hs.
    { split; [repeat constructor; set_solver|right; cbn; lia|cbn; lia|cbn; lia|cbn; split; [lia|apply NoDup_singleton]]. }
    split; [done|]. cbv zeta. rewrite !app_nil_r. split.
    + apply Forall_forall. intros key Hk. by apply example_free.
    + by apply (NoDup_table_keys _ _ _ 2); [vm_compute; lia|].
Qed.

(** The lookup of a key finds its newest entry at or below the sequence number. *)
Lemma stored_table_found_witness :
  ∃ s2 l mf t,
    Table_Open (λ _ _, 0) (λ _, None) (Reader_Read (BS := cluster_store (λ n, (0, example_memory n))) s2 (mkReader mf None))
      (table_options (InternalKeyComparator BytewiseComparator) 16 1 example_policy (str "bloom")) false false l 0 0 (size_of mf) = Ret t
    ∧ InternalGet (λ _ _, 0) (λ _, None) (Reader_Read (BS := cluster_store (λ n, (0, example_memory n))) s2 (mkReader mf None))
        (table_options (InternalKeyComparator BytewiseComparator) 16 1 example_policy (str "bloom")) None false false t (example_key 98 4)
      = Ret (Some (example_key 98 2, [3])).
Proof.
  pose (HB := Bloom_contract 10 ltac:(lia)). pose (HS := Bloom_sized 10 ltac:(lia)).
  destruct (stored_table_found (λ n, (0, example_memory n))
    ltac:(intros n Hn; unfold example_memory; cbn [fst snd]; rewrite length_replicate; lia)
    (λ _ _, 0) (λ _, None) (λ _, None) example_memory
    ltac:(intros n Hn; unfold example_memory; rewrite length_replicate; lia)
    (InternalKeyComparator BytewiseComparator) (same_user_key BytewiseComparator) 16 1 example_policy (str "bloom") 2
    example_config (str "db") 7 example_table 5000 5000 (example_memory 5000) (example_select [1; 2]) (example_select [3]) example_cluster)
    as (r & s1 & w1 & s2 & w2 & metas & size & l & _ & _ & _ & _ & Hl & _ & Hans).
  - lia.
  - done.
  - repeat constructor; by vm_compute.
  - split; try by vm_compute. repeat constructor; by vm_compute.
  - by vm_compute.
  - done.
  - done.
  - exact example_selection.
  - cbn in Hl. destruct metas as [|mf [|? ?]]; try done.
    destruct (Hans 0%nat mf eq_refl s2 0) as (t & Ht & Hget & _); [by intros ?|].
    destruct (Hget (example_key 98 4) false) as (a & Ha & _ & Hfound).
    exists s2, l, mf, t. split; [exact Ht|]. rewrite Ha. f_equal. by apply (Hfound (example_key 98 2, [3])).
Defined.
