(* ===== verification/VersionEdit.v ===== *)
(** * VersionEdit: the records of the manifest

    [db/version_edit.h] and [db/version_edit.cc]: a version edit, its
    mutators, its encoding as tagged entries closed by an end tag, and the
    decoder, which reuses one [FileMetaData] for all the files it reads. *)

From S2P Require Import Prelude Coding Comparator NovaCommon DbFormat Subrange FileMeta.

(** [Status]: success, or corruption with the message of the source. *)
Inductive Status := OK | Corruption (msg : string).

Record VersionEdit := mkEdit {
  comparator_ : bytes;
  next_file_number_ : Z;
  last_sequence_ : Z;
  has_comparator_ : bool;
  has_prev_log_number_ : bool;
  has_next_file_number_ : bool;
  has_last_sequence_ : bool;
  update_replica_locations_ : bool;
  compact_pointers_ : list (Z * bytes);
  deleted_files_ : list (Z * Z);
  new_files_ : list (Z * FileMetaData);
  new_subranges_ : list SubRange
}.

(** [Clear()]; [update_replica_locations_] is not reset. *)
Definition VersionEdit_Clear (e : VersionEdit) : VersionEdit :=
  mkEdit [] 0 0 false false false false (update_replica_locations_ e) [] [] [] [].

(** The constructor. *)
Definition VersionEdit_init : VersionEdit :=
  mkEdit [] 0 0 false false false false false [] [] [] [].

(** ** Mutators *)

Definition SetComparatorName (e : VersionEdit) (name : bytes) : VersionEdit :=
  mkEdit name (next_file_number_ e) (last_sequence_ e) true (has_prev_log_number_ e)
    (has_next_file_number_ e) (has_last_sequence_ e) (update_replica_locations_ e)
    (compact_pointers_ e) (deleted_files_ e) (new_files_ e) (new_subranges_ e).

Definition SetNextFile (e : VersionEdit) (num : Z) : VersionEdit :=
  mkEdit (comparator_ e) num (last_sequence_ e) (has_comparator_ e) (has_prev_log_number_ e)
    true (has_last_sequence_ e) (update_replica_locations_ e)
    (compact_pointers_ e) (deleted_files_ e) (new_files_ e) (new_subranges_ e).

Definition SetLastSequence (e : VersionEdit) (seq : Z) : VersionEdit :=
  mkEdit (comparator_ e) (next_file_number_ e) seq (has_comparator_ e) (has_prev_log_number_ e)
    (has_next_file_number_ e) true (update_replica_locations_ e)
    (compact_pointers_ e) (deleted_files_ e) (new_files_ e) (new_subranges_ e).

Definition SetCompactPointer (e : VersionEdit) (level : Z) (key : bytes) : VersionEdit :=
  mkEdit (comparator_ e) (next_file_number_ e) (last_sequence_ e) (has_comparator_ e)
    (has_prev_log_number_ e) (has_next_file_number_ e) (has_last_sequence_ e)
    (update_replica_locations_ e) (compact_pointers_ e ++ [(level, key)]) (deleted_files_ e)
    (new_files_ e) (new_subranges_ e).

Definition SetUpdateReplicaLocations (e : VersionEdit) (flag : bool) : VersionEdit :=
  mkEdit (comparator_ e) (next_file_number_ e) (last_sequence_ e) (has_comparator_ e)
    (has_prev_log_number_ e) (has_next_file_number_ e) (has_last_sequence_ e) flag
    (compact_pointers_ e) (deleted_files_ e) (new_files_ e) (new_subranges_ e).

Definition add_new_file (e : VersionEdit) (level : Z) (f : FileMetaData) : VersionEdit :=
  mkEdit (comparator_ e) (next_file_number_ e) (last_sequence_ e) (has_comparator_ e)
    (has_prev_log_number_ e) (has_next_file_number_ e) (has_last_sequence_ e)
    (update_replica_locations_ e) (compact_pointers_ e) (deleted_files_ e)
    (new_files_ e ++ [(level, f)]) (new_subranges_ e).

Definition add_subrange (e : VersionEdit) (sr : SubRange) : VersionEdit :=
  mkEdit (comparator_ e) (next_file_number_ e) (last_sequence_ e) (has_comparator_ e)
    (has_prev_log_number_ e) (has_next_file_number_ e) (has_last_sequence_ e)
    (update_replica_locations_ e) (compact_pointers_ e) (deleted_files_ e)
    (new_files_ e) (new_subranges_ e ++ [sr]).

(** [AddFile(...)]. *)
Definition AddFile (e : VersionEdit) (level : Z) (memtable_ids : list Z) (file file_size
    converted_file_size flush_timestamp : Z) (smallest largest : bytes)
    (replicas : list FileReplicaMetaData) (parity_block_handle : StoCBlockHandle) : VersionEdit :=
  add_new_file e level
    (mkFile 0 (1 ≪ 30) memtable_ids file file_size converted_file_size flush_timestamp level
       smallest largest NONE replicas parity_block_handle).

Definition DeleteFile (e : VersionEdit) (level file : Z) : VersionEdit :=
  mkEdit (comparator_ e) (next_file_number_ e) (last_sequence_ e) (has_comparator_ e)
    (has_prev_log_number_ e) (has_next_file_number_ e) (has_last_sequence_ e)
    (update_replica_locations_ e) (compact_pointers_ e) (deleted_files_ e ++ [(level, file)])
    (new_files_ e) (new_subranges_ e).

Definition UpdateSubRange (e : VersionEdit) (subrange_id : Z) (tiny : list Range)
    (num_duplicates : Z) : VersionEdit :=
  add_subrange e
    (mkSubRange tiny num_duplicates f64_zero f64_zero 0 0 false subrange_id).

(** ** Encoding *)

Definition kComparator : Z := 1.
Definition kNextFileNumber : Z := 3.
Definition kLastSequence : Z := 4.
Definition kDeletedFile : Z := 6.
Definition kNewFile : Z := 7.
Definition kUpdateSubRange : Z := 8.
Definition kEndEdit : Z := 10.

Definition EncodeDeleted (d : Z * Z) : bytes :=
  [kDeletedFile] ++ EncodeFixed32 d.1 ++ EncodeFixed64 d.2.

Definition EncodeNewFile (nf : Z * FileMetaData) : res bytes :=
  enc ← FileMetaData_Encode nf.2; Ret ([kNewFile] ++ EncodeFixed32 nf.1 ++ enc).

Definition EncodeNewSubrange (i : nat) (sr : SubRange) : bytes :=
  [kUpdateSubRange] ++ SubRange_Encode sr (Z.of_nat i).

(** [VersionEdit::EncodeTo(dst)]: the bytes stored. *)
Definition VersionEdit_EncodeTo (e : VersionEdit) : res bytes :=
  files ← mapM EncodeNewFile (new_files_ e);
  Ret ((if has_comparator_ e then [kComparator] ++ EncodeStr (comparator_ e) else [])
    ++ (if has_next_file_number_ e
        then [kNextFileNumber] ++ EncodeFixed64 (next_file_number_ e) else [])
    ++ (if has_last_sequence_ e
        then [kLastSequence] ++ EncodeFixed64 (last_sequence_ e) else [])
    ++ (deleted_files_ e ≫= EncodeDeleted)
    ++ concat files
    ++ concat (imap EncodeNewSubrange (new_subranges_ e))
    ++ [kEndEdit]).

(** ** Decoding *)

Section decode.
(** [NovaConfig::config->level]. *)
Context (config_level : Z).

Definition GetLevel : parser Z :=
  let! v := DecodeFixed32 in
  if decide (v < config_level) then pret v else pfail.

(** The body of the loop after the tag: the edit under construction and the
    [FileMetaData f] that all files are decoded into.  [Fail] stands for a
    message, given by [tag_msg]. *)
Definition DecodeFrom_entry (tag : Z) (e : VersionEdit) (f : FileMetaData)
    : parser (VersionEdit * FileMetaData) :=
  if decide (tag = kComparator) then pret (e, f)
  else if decide (tag = kNextFileNumber) then
    let! n := DecodeFixed64 in pret (SetNextFile e n, f)
  else if decide (tag = kLastSequence) then
    let! n := DecodeFixed64 in pret (SetLastSequence e n, f)
  else if decide (tag = kDeletedFile) then
    let! l := GetLevel in
    let! n := DecodeFixed64 in pret (DeleteFile e l n, f)
  else if decide (tag = kNewFile) then
    let! l := GetLevel in
    let! f := FileMetaData_Decode f in
    pret (add_new_file e l f,
          mkFile (refs f) (allowed_seeks f) (memtable_ids f) (number f) (file_size f)
            (converted_file_size f) (flush_timestamp f) (level f) (smallest f) (largest f)
            (compaction_status f) [] (parity_block_handle f))
  else if decide (tag = kUpdateSubRange) then
    let! sr := SubRange_Decode SubRange_init in pret (add_subrange e sr, f)
  else pfail.

Definition tag_msg (tag : Z) : string :=
  if decide (tag = kNextFileNumber) then "next file number"
  else if decide (tag = kLastSequence) then "last sequence number"
  else if decide (tag = kDeletedFile) then "deleted file"
  else if decide (tag = kNewFile) then "new-file entry"
  else if decide (tag = kUpdateSubRange) then "update-subrange entry"
  else "unknown tag".

(** The loop; a round consumes the tag, so a round per byte is enough.  The
    result is the status, the edit and the rest of the input. *)
Fixpoint DecodeFrom_loop (fuel : nat) (e : VersionEdit) (f : FileMetaData) (input : bytes)
    : res (Status * VersionEdit * bytes) :=
  match fuel, input with
  | _, [] => Ret (OK, e, [])
  | O, _ => Fail
  | S fuel, tag :: input =>
      if decide (tag = kEndEdit) then Ret (OK, e, input)
      else match DecodeFrom_entry tag e f input with
           | (Ret (e, f), input) => DecodeFrom_loop fuel e f input
           | (Fail, input) => Ret (Corruption (tag_msg tag), e, input)
           | (Abort, _) => Abort
           end
  end.

(** [VersionEdit::DecodeFrom(src, result)]. *)
Definition VersionEdit_DecodeFrom (e : VersionEdit) (src : bytes)
    : res (Status * VersionEdit * bytes) :=
  DecodeFrom_loop (length src) (VersionEdit_Clear e) FileMetaData_init src.
End decode.

(** ** What an edit decodes to *)

Definition with_ids (f : FileMetaData) (ids : list Z) : FileMetaData :=
  mkFile (refs f) (allowed_seeks f) ids (number f) (file_size f) (converted_file_size f)
    (flush_timestamp f) (level f) (smallest f) (largest f) (compaction_status f)
    (block_replica_handles f) (parity_block_handle f).

(** The files read back: the set of memtable ids in the shared object only
    grows from one file to the next. *)
Fixpoint decoded_files (ids : list Z) (files : list (Z * FileMetaData)) : list (Z * FileMetaData) :=
  match files with
  | [] => []
  | (l, f) :: files =>
      let ids := foldl (λ s mid, set_insert mid s) ids (memtable_ids f) in
      (l, with_ids (FileMetaData_persist f) ids) :: decoded_files ids files
  end.

Definition decoded_edit (e0 e : VersionEdit) : VersionEdit :=
  mkEdit [] (if has_next_file_number_ e then next_file_number_ e else 0)
    (if has_last_sequence_ e then last_sequence_ e else 0) false false
    (has_next_file_number_ e) (has_last_sequence_ e) (update_replica_locations_ e0) []
    (deleted_files_ e) (decoded_files [] (new_files_ e)) (imap SubRange_persist (new_subranges_ e)).

Section roundtrip.
Context (config_level : Z).

Definition level_ok (l : Z) : Prop := is_u32 l ∧ l < config_level.

(** Fields in range; levels below the configured number of levels. *)
Definition edit_ok (e : VersionEdit) : Prop :=
  is_u64 (next_file_number_ e) ∧ is_u64 (last_sequence_ e)
  ∧ Forall (λ d, level_ok d.1 ∧ is_u64 d.2) (deleted_files_ e)
  ∧ Forall (λ nf, level_ok nf.1 ∧ file_ok nf.2) (new_files_ e)
  ∧ Forall SubRange_ok (new_subranges_ e) ∧ size_of (new_subranges_ e) < 2 ^ 32.

Local Abbreviation loop := (DecodeFrom_loop config_level).
Local Abbreviation entry := (DecodeFrom_entry config_level).

(** One entry, whatever follows it. *)
Lemma loop_entry fuel tag e f bs e' f' rest :
  tag ≠ kEndEdit → parses (entry tag e f) bs (e', f') →
  loop (S fuel) e f ((tag :: bs) ++ rest) = loop fuel e' f' rest.
Proof. intros Ht Hp. cbn. rewrite decide_False by done. by rewrite Hp. Qed.

Lemma parses_GetLevel l : level_ok l → parses (GetLevel config_level) (EncodeFixed32 l) l.
Proof.
  intros [Hl Hlt]. unfold GetLevel. eapply parses_bind_last; [by apply parses_Fixed32|].
  cbn beta. rewrite decide_True by done. apply parses_ret.
Qed.

Lemma loop_deleted ds : ∀ fuel e f rest,
  Forall (λ d, level_ok d.1 ∧ is_u64 d.2) ds →
  loop (length ds + fuel) e f ((ds ≫= EncodeDeleted) ++ rest) =
    loop fuel (foldl (λ e d, DeleteFile e d.1 d.2) e ds) f rest.
Proof.
  induction ds as [|[l n] ds IH]; intros fuel e f rest Hds; [done|].
  inversion Hds as [|?? [Hl Hn] Hds']; subst.
  change (((l, n) :: ds) ≫= EncodeDeleted) with (EncodeDeleted (l, n) ++ (ds ≫= EncodeDeleted)).
  rewrite <- (assoc_L (++)). cbn [length Nat.add foldl fst snd].
  rewrite (loop_entry _ kDeletedFile e f (EncodeFixed32 l ++ EncodeFixed64 n)
    (DeleteFile e l n) f); [by apply IH|done|].
  change (parses (let! l := GetLevel config_level in let! n := DecodeFixed64 in
    pret (DeleteFile e l n, f)) (EncodeFixed32 l ++ EncodeFixed64 n) (DeleteFile e l n, f)).
  eapply parses_bind; [by apply parses_GetLevel|].
  eapply parses_bind_last; [by apply parses_Fixed64|]. apply parses_ret.
Qed.

(** The object files are decoded into, between two files. *)
Definition reused (ids : list Z) (f : FileMetaData) : Prop :=
  refs f = 0 ∧ allowed_seeks f = 1 ≪ 30 ∧ compaction_status f = NONE
  ∧ block_replica_handles f = [] ∧ memtable_ids f = ids.

Definition new_file_bytes (nf : Z * FileMetaData) : bytes :=
  [kNewFile] ++ EncodeFixed32 nf.1 ++ FileMetaData_bytes nf.2.

Lemma loop_files fs : ∀ fuel ids e f rest,
  Forall (λ nf, level_ok nf.1 ∧ file_ok nf.2) fs → reused ids f →
  ∃ f' ids', reused ids' f' ∧
  loop (length fs + fuel) e f ((fs ≫= new_file_bytes) ++ rest) =
    loop fuel (foldl (λ e nf, add_new_file e nf.1 nf.2) e (decoded_files ids fs)) f' rest.
Proof.
  induction fs as [|[l g] fs IH]; intros fuel ids e f rest Hfs Hf; [by exists f, ids|].
  inversion Hfs as [|?? [Hl Hg] Hfs']; subst. destruct Hf as (Hr & Ha & Hc & Hb & Hi).
  change (((l, g) :: fs) ≫= new_file_bytes) with (new_file_bytes (l, g) ++ (fs ≫= new_file_bytes)).
  rewrite <- (assoc_L (++)). cbn [length Nat.add foldl decoded_files fst snd].
  set (ids1 := foldl _ ids (memtable_ids g)).
  assert (FileMetaData_into f g = with_ids (FileMetaData_persist g) ids1) as Hinto.
  { unfold FileMetaData_into. by rewrite Hr, Ha, Hc, Hb, Hi. }
  destruct (IH fuel ids1 (add_new_file e l (FileMetaData_into f g))
    (mkFile 0 (1 ≪ 30) ids1 (number g) (file_size g) (converted_file_size g) (flush_timestamp g)
       (level g) (smallest g) (largest g) NONE [] (parity_block_handle g)) rest Hfs')
    as (f' & ids' & Hf' & Hloop); [by repeat split|].
  exists f', ids'. split; [done|]. rewrite <- Hinto, <- Hloop.
  apply (loop_entry _ kNewFile); [done|].
  eapply parses_bind; [by apply parses_GetLevel|]. cbn beta.
  eapply parses_bind_last; [by apply parses_FileMetaData_into|]. cbn [fst snd].
  rewrite Hinto. apply parses_ret.
Qed.

Lemma loop_subranges srs : ∀ k fuel e f rest,
  Forall SubRange_ok srs → Z.of_nat (k + length srs) < 2 ^ 32 →
  loop (length srs + fuel) e f
    (concat (imap (λ i, EncodeNewSubrange (k + i)) srs) ++ rest) =
  loop fuel (foldl add_subrange e (imap (λ i, SubRange_persist (k + i)) srs)) f rest.
Proof.
  induction srs as [|sr srs IH]; intros k fuel e f rest Hok Hn; [done|].
  inversion Hok as [|?? Hsr Hok']; subst. cbn [length] in Hn.
  specialize (IH (S k) fuel (add_subrange e (SubRange_persist k sr)) f rest Hok' ltac:(lia)).
  cbn [length Nat.add imap concat]. rewrite <- (assoc_L (++)).
  rewrite (imap_ext _ (λ i, EncodeNewSubrange (S k + i)))
    by (intros; unfold compose; by rewrite Nat.add_succ_r).
  rewrite (imap_ext (_ ∘ S) (λ i, SubRange_persist (S k + i)))
    by (intros; unfold compose; by rewrite Nat.add_succ_r).
  rewrite !Nat.add_0_r. cbn [foldl]. rewrite <- IH.
  apply (loop_entry _ kUpdateSubRange); [done|].
  change (parses (let! sr := SubRange_Decode SubRange_init in pret (add_subrange e sr, f))
    (SubRange_Encode sr (Z.of_nat k)) (add_subrange e (SubRange_persist k sr), f)).
  eapply parses_bind_last; [apply parses_SubRange; [done|mlia]|]. apply parses_ret.
Qed.

Lemma EncodeTo_ok e :
  edit_ok e → mapM EncodeNewFile (new_files_ e) = Ret (new_file_bytes <$> new_files_ e).
Proof.
  intros (_ & _ & _ & Hfs & _). apply mapM_Ret. eapply Forall_impl; [done|].
  intros nf [_ Hf]. unfold EncodeNewFile. by rewrite FileMetaData_Encode_ok.
Qed.

Lemma loop_fixed64 fuel (b : bool) tag v (set : VersionEdit → Z → VersionEdit) e f rest :
  tag ≠ kEndEdit → is_u64 v →
  entry tag e f = (let! n := DecodeFixed64 in pret (set e n, f)) →
  loop ((if b then 1 else 0) + fuel) e f ((if b then tag :: EncodeFixed64 v else []) ++ rest) =
    loop fuel (if b then set e v else e) f rest.
Proof.
  intros Ht Hv He. destruct b; [|done]. apply (loop_entry _ tag); [done|]. rewrite He.
  eapply parses_bind_last; [by apply parses_Fixed64|]. apply parses_ret.
Qed.
End roundtrip.

Lemma foldl_DeleteFile e ds :
  foldl (λ e d, DeleteFile e d.1 d.2) e ds =
  mkEdit (comparator_ e) (next_file_number_ e) (last_sequence_ e) (has_comparator_ e)
    (has_prev_log_number_ e) (has_next_file_number_ e) (has_last_sequence_ e)
    (update_replica_locations_ e) (compact_pointers_ e) (deleted_files_ e ++ ds)
    (new_files_ e) (new_subranges_ e).
Proof.
  revert e. induction ds as [|[l n] ds IH]; intros e; cbn; [by rewrite app_nil_r; destruct e|].
  rewrite IH. cbn. by rewrite <- (assoc_L (++)).
Qed.

Lemma foldl_add_new_file e fs :
  foldl (λ e nf, add_new_file e nf.1 nf.2) e fs =
  mkEdit (comparator_ e) (next_file_number_ e) (last_sequence_ e) (has_comparator_ e)
    (has_prev_log_number_ e) (has_next_file_number_ e) (has_last_sequence_ e)
    (update_replica_locations_ e) (compact_pointers_ e) (deleted_files_ e)
    (new_files_ e ++ fs) (new_subranges_ e).
Proof.
  revert e. induction fs as [|[l n] fs IH]; intros e; cbn; [by rewrite app_nil_r; destruct e|].
  rewrite IH. cbn. by rewrite <- (assoc_L (++)).
Qed.

Lemma foldl_add_subrange e srs :
  foldl add_subrange e srs =
  mkEdit (comparator_ e) (next_file_number_ e) (last_sequence_ e) (has_comparator_ e)
    (has_prev_log_number_ e) (has_next_file_number_ e) (has_last_sequence_ e)
    (update_replica_locations_ e) (compact_pointers_ e) (deleted_files_ e)
    (new_files_ e) (new_subranges_ e ++ srs).
Proof.
  revert e. induction srs as [|sr srs IH]; intros e; cbn; [by rewrite app_nil_r; destruct e|].
  rewrite IH. cbn. by rewrite <- (assoc_L (++)).
Qed.

(** Number of rounds the decoder makes over an encoded edit. *)
Definition rounds (e : VersionEdit) : nat :=
  (if has_next_file_number_ e then 1 else 0) + ((if has_last_sequence_ e then 1 else 0) +
  (length (deleted_files_ e) + (length (new_files_ e) + (length (new_subranges_ e) + 1)))).

Lemma concat_encodings_length {A} (f : A → bytes) l :
  (∀ x, 1 <= length (f x))%nat → (length l <= length (l ≫= f))%nat.
Proof.
  intros Hf. induction l as [|x l IH]; cbn; [lia|]. rewrite length_app.
  specialize (Hf x). lia.
Qed.

Lemma concat_imap_length_ge k (srs : list SubRange) :
  (length srs <= length (concat (imap (λ i, EncodeNewSubrange (k + i)) srs)))%nat.
Proof.
  revert k. induction srs as [|sr srs IH]; intros k; [done|].
  cbn [imap concat length]. rewrite length_app.
  rewrite (imap_ext _ (λ i, EncodeNewSubrange (S k + i)))
    by (intros; unfold compose; by rewrite Nat.add_succ_r).
  specialize (IH (S k)). unfold EncodeNewSubrange at 1. cbn [app length]. lia.
Qed.

Lemma version_edit_decode config_level e0 e rest :
  edit_ok config_level e → has_comparator_ e = false →
  ∃ bs, VersionEdit_EncodeTo e = Ret bs
    ∧ VersionEdit_DecodeFrom config_level e0 (bs ++ rest) = Ret (OK, decoded_edit e0 e, rest).
Proof.
  intros Hok Hc. unfold VersionEdit_EncodeTo. rewrite (EncodeTo_ok config_level e Hok).
  cbn [mbind res_bind]. rewrite Hc, concat_fmap_bind. eexists. split; [reflexivity|]. cbn [app].
  destruct Hok as (Hnext & Hseq & Hds & Hfs & Hsr & Hn).
  rewrite <- !(assoc_L (++)). unfold VersionEdit_DecodeFrom. set (src := _ ++ _).
  assert (rounds e <= length src)%nat as Hfuel.
  { subst src. unfold rounds. rewrite !length_app.
    pose proof (concat_encodings_length EncodeDeleted (deleted_files_ e) ltac:(intros; cbn; lia)).
    pose proof (concat_encodings_length new_file_bytes (new_files_ e) ltac:(intros; cbn; lia)).
    pose proof (concat_imap_length_ge 0 (new_subranges_ e)
      : (_ <= length (concat (imap EncodeNewSubrange _)))%nat).
    cbn [length]. destruct (has_next_file_number_ e), (has_last_sequence_ e); cbn [length]; lia. }
  replace (length src) with (rounds e + (length src - rounds e))%nat by lia.
  generalize (length src - rounds e)%nat. intros fuel. subst src. unfold rounds.
  rewrite <- !Nat.add_assoc. cbn [app].
  rewrite (loop_fixed64 _ _ _ kNextFileNumber _ SetNextFile) by done.
  rewrite (loop_fixed64 _ _ _ kLastSequence _ SetLastSequence) by done.
  rewrite loop_deleted by done.
  edestruct (loop_files config_level (new_files_ e)) as (f' & ids' & _ & ->);
    [done|by repeat split|].
  pose proof (loop_subranges config_level (new_subranges_ e) 0) as Hsub. cbn [Nat.add] in Hsub.
  rewrite Hsub by done. cbn [Nat.add DecodeFrom_loop app]. rewrite decide_True by done.
  rewrite foldl_add_subrange, foldl_add_new_file, foldl_DeleteFile. unfold decoded_edit.
  by destruct (has_next_file_number_ e), (has_last_sequence_ e).
Qed.

(** Each decoded file has its own fields; its memtable ids are those of all
    the files up to it. *)
Lemma decoded_files_lookup fs : ∀ ids i l f,
  fs !! i = Some (l, f) →
  ∃ ids', decoded_files ids fs !! i = Some (l, with_ids (FileMetaData_persist f) ids')
    ∧ ∀ m, m ∈ ids' ↔ m ∈ ids ∨ ∃ j l' g, (j <= i)%nat ∧ fs !! j = Some (l', g) ∧ m ∈ memtable_ids g.
Proof.
  assert (∀ mids ids m, m ∈ foldl (λ s mid, set_insert mid s) ids mids ↔ m ∈ ids ∨ m ∈ mids) as Hfold.
  { induction mids as [|x mids IH]; intros ids m; cbn; [rewrite elem_of_nil; tauto|].
    rewrite IH, set_insert_elem, elem_of_cons. tauto. }
  induction fs as [|[l0 f0] fs IH]; intros ids i l f Hi; [done|]. cbn.
  destruct i as [|i]; cbn in Hi.
  - injection Hi as -> ->. eexists. split; [done|]. intros m. rewrite Hfold. split.
    + intros [|Hm]; [by left|right]. by exists 0%nat, l, f.
    + intros [|(j & l' & g & Hj & Hg & Hm)]; [by left|right]. replace j with 0%nat in Hg by lia.
      by injection Hg as -> ->.
  - edestruct IH as (ids' & Hl & Hids); [done|]. exists ids'. split; [done|]. intros m.
    rewrite Hids, Hfold. split.
    + intros [[|Hm]|(j & l' & g & Hj & Hg & Hm)]; [by left|right|right].
      * exists 0%nat, l0, f0. split; [lia|done].
      * exists (S j), l', g. split; [lia|done].
    + intros [|(j & l' & g & Hj & Hg & Hm)]; [tauto|]. destruct j as [|j]; cbn in Hg.
      * injection Hg as -> ->. tauto.
      * right. exists j, l', g. split; [lia|done].
Qed.

(** When no file but the last names a memtable nothing leaks. *)
Lemma decoded_files_last_ids fs :
  Forall (λ nf, file_ok nf.2) fs → Forall (λ nf, memtable_ids nf.2 = []) (removelast fs) →
  decoded_files [] fs = (λ nf, (nf.1, FileMetaData_persist nf.2)) <$> fs.
Proof.
  induction fs as [|[l f] fs IH]; intros Hok Hids; [done|].
  inversion Hok as [|?? Hf Hok']; subst. cbn in Hf. cbn [decoded_files fmap list_fmap fst snd].
  rewrite foldl_set_insert_sorted by apply Hf.
  assert (with_ids (FileMetaData_persist f) (memtable_ids f) = FileMetaData_persist f) as -> by done.
  f_equal. destruct fs as [|nf fs]; [done|]. inversion Hids as [|?? Hf0 Hids']; subst. cbn in Hf0.
  rewrite Hf0. by apply IH.
Qed.

(** ** Properties *)


Definition example_edit : VersionEdit :=
  add_subrange (add_new_file (add_new_file (DeleteFile (SetLastSequence
    (SetNextFile VersionEdit_init 42) 900) 1 7) 0 (example_file 12 5 80 [])) 1
    (example_file 13 81 90 [4; 6])) (example_subrange 0 9 0).

Lemma example_edit_ok : edit_ok 3 example_edit.
Proof.
  unfold edit_ok, example_edit, level_ok. cbn -[example_file example_subrange]. split_and!; try mlia.
  - repeat (apply Forall_cons; split); try apply Forall_nil_2. cbn. mlia.
  - repeat (apply Forall_cons; split); try apply Forall_nil_2; (split; [cbn; mlia|]);
      (apply example_file_ok; [mlia|lit|lit|repeat constructor]).
  - unfold SubRange_ok, Range_ok. lit.
Qed.


(** Since one [FileMetaData] is reused for all the files of an edit, the
    memtable ids decoded for a file are the union of the ids of all the files
    up to it in the edit: ids leak from one file into the following ones. *)
Lemma version_edit_ids_accumulate config_level e0 e rest :
  edit_ok config_level e → has_comparator_ e = false →
  ∃ bs e', VersionEdit_EncodeTo e = Ret bs
    ∧ VersionEdit_DecodeFrom config_level e0 (bs ++ rest) = Ret (OK, e', rest)
    ∧ ∀ i l f, new_files_ e !! i = Some (l, f) →
      ∃ f', new_files_ e' !! i = Some (l, f')
        ∧ ∀ m, m ∈ memtable_ids f' ↔
            ∃ j l' g, (j <= i)%nat ∧ new_files_ e !! j = Some (l', g) ∧ m ∈ memtable_ids g.
Proof.
  intros Hok Hc. destruct (version_edit_decode config_level e0 e rest Hok Hc) as (bs & He & Hd).
  exists bs, (decoded_edit e0 e). split_and!; [done..|]. intros i l f Hi. cbn.
  destruct (decoded_files_lookup _ [] _ _ _ Hi) as (ids & Hl & Hids).
  eexists. split; [done|]. intros m. cbn. rewrite Hids, elem_of_nil. tauto.
Qed.

Definition leaking_edit : VersionEdit :=
  add_new_file (add_new_file VersionEdit_init 0 (example_file 12 5 80 [1])) 0
    (example_file 13 81 90 [2]).

(** A comparator entry is written with its name but decoded without it: the
    bytes of the name's length are then read as tags. *)
Lemma version_edit_comparator_unreadable name :
  size_of name = 26 →
  ∃ bs e' rest, VersionEdit_EncodeTo (SetComparatorName VersionEdit_init name) = Ret bs
    ∧ VersionEdit_DecodeFrom 3 VersionEdit_init bs = Ret (Corruption "unknown tag", e', rest).
Proof.
  intros Hn. eexists _, _, _. split; [reflexivity|].
  unfold VersionEdit_DecodeFrom, EncodeStr. cbn -[Z.of_nat w8 Z.shiftr]. rewrite Hn.
  cbn [app length DecodeFrom_loop]. reflexivity.
Qed.
