(* ===== verification/FileSearch.v ===== *)
(** * FileSearch: the files of a level and their overlap

    The search functions of [db/version_set.cc]: [FindFile],
    [SomeFileOverlapsRange], the file visits of a point lookup, the file number
    iterator of a level, boundary files, and the selection of overlapping files
    on which compactions are built.  Files are the metadata records; the
    assertions of [InternalKey] on well-formed keys are hypotheses of the
    theorems ([file_wf]). *)

From S2P Require Import Prelude Coding Comparator NovaCommon DbFormat Subrange FileMeta.

Section search.
(** [icmp.user_comparator()]. *)
Context (ucmp : Comparator).
Local Abbreviation icmp := (InternalKey_Compare ucmp).
Local Abbreviation UCompare := (@Compare ucmp).

Definition smallest_user_key (f : FileMetaData) : bytes := ExtractUserKey (smallest f).
Definition largest_user_key (f : FileMetaData) : bytes := ExtractUserKey (largest f).

(** ** [FindFile] *)

(** The loop [while (left < right)] with 32-bit bounds; a round halves the
    interval, so a round per file is more than enough. *)
Fixpoint FindFile_loop (fuel : nat) (files : list FileMetaData) (key : bytes) (left right : Z) : Z :=
  match fuel with
  | O => right
  | S fuel =>
      if decide (left < right) then
        let mid := w32 (left + right) / 2 in
        match files !! Z.to_nat mid with
        | None => right
        | Some f =>
            if decide (icmp (largest f) key < 0)
            then FindFile_loop fuel files key (mid + 1) right
            else FindFile_loop fuel files key left mid
        end
      else right
  end.

Definition FindFile (files : list FileMetaData) (key : bytes) : Z :=
  FindFile_loop (S (length files)) files key 0 (size_of files).

(** [AfterFile] and [BeforeFile]; [None] is the null key. *)
Definition AfterFile (user_key : option bytes) (f : FileMetaData) : bool :=
  match user_key with
  | None => false
  | Some k => bool_decide (UCompare k (largest_user_key f) > 0)
  end.

Definition BeforeFile (user_key : option bytes) (f : FileMetaData) : bool :=
  match user_key with
  | None => false
  | Some k => bool_decide (UCompare k (smallest_user_key f) < 0)
  end.

(** ** [SomeFileOverlapsRange] *)

(** The loop over all files. *)
Fixpoint SomeFileOverlapsRange_all (files : list FileMetaData) (lo hi : option bytes) : bool :=
  match files with
  | [] => false
  | f :: files =>
      if AfterFile lo f || BeforeFile hi f then SomeFileOverlapsRange_all files lo hi else true
  end.

Definition SomeFileOverlapsRange (disjoint_sorted_files : bool) (files : list FileMetaData)
    (lo hi : option bytes) : bool :=
  if disjoint_sorted_files then
    let index := match lo with
                 | Some k => FindFile files (InternalKey_make k kMaxSequenceNumber kValueTypeForSeek)
                 | None => 0
                 end in
    if decide (index >= size_of files) then false
    else match files !! Z.to_nat index with
         | Some f => negb (BeforeFile hi f)
         | None => false
         end
  else SomeFileOverlapsRange_all files lo hi.

(** ** [Version::ForEachOverlapping] *)

Inductive GetSearchScope := kAllLevels | kAllL0AndAllLevels | kL1AndAbove.

Section visits.
(** The callback: it updates its argument and says whether to go on. *)
Context {A : Type} (func : A → Z → FileMetaData → A * bool) (use_ordered_flush : bool).

Definition l0_candidates (user_key : bytes) (files : list FileMetaData) : list FileMetaData :=
  filter (λ f, UCompare user_key (smallest_user_key f) >= 0
               ∧ UCompare user_key (largest_user_key f) <= 0) files.

(** [if (use_ordered_flush && !func(arg, 0, tmp[i])) return;]: [true] when
    the search of level 0 ran to its end. *)
Fixpoint visit_l0 (arg : A) (tmp : list FileMetaData) : A * bool :=
  match tmp with
  | [] => (arg, true)
  | f :: tmp =>
      if use_ordered_flush then
        let '(arg, continue) := func arg 0 f in
        if continue then visit_l0 arg tmp else (arg, false)
      else visit_l0 arg tmp
  end.

(** The candidate of a sorted level. *)
Definition level_candidate (user_key ikey : bytes) (files : list FileMetaData)
    : option FileMetaData :=
  let index := FindFile files ikey in
  if decide (index < size_of files) then
    match files !! Z.to_nat index with
    | Some f => if decide (UCompare user_key (smallest_user_key f) < 0) then None else Some f
    | None => None
    end
  else None.

Fixpoint visit_levels (arg : A) (user_key ikey : bytes) (level : Z)
    (levels : list (list FileMetaData)) : A :=
  match levels with
  | [] => arg
  | files :: levels =>
      match level_candidate user_key ikey files with
      | None => visit_levels arg user_key ikey (level + 1) levels
      | Some f =>
          let '(arg, continue) := func arg level f in
          if use_ordered_flush && negb continue then arg
          else visit_levels arg user_key ikey (level + 1) levels
      end
  end.

(** [files] are the files of all levels, level 0 first. *)
Definition ForEachOverlapping (arg : A) (user_key ikey : bytes) (scope : GetSearchScope)
    (files : list (list FileMetaData)) : A :=
  let '(arg, continue) :=
    match scope with
    | kAllLevels => visit_l0 arg (l0_candidates user_key (default [] (head files)))
    | _ => (arg, true)
    end in
  if continue then visit_levels arg user_key ikey 1 (tail files) else arg.
End visits.

(** ** [Version::LevelFileNumIterator] *)

Record LevelFileNumIterator := mkLevelIter { lf_index : Z; lf_seeked : bool }.

Section level_iterator.
Context (flist : list FileMetaData).

Definition LevelIter_init : LevelFileNumIterator := mkLevelIter (size_of flist) false.
Definition LevelIter_Valid (it : LevelFileNumIterator) : bool :=
  bool_decide (lf_index it < size_of flist).
Definition LevelIter_Seek (target : bytes) : LevelFileNumIterator :=
  mkLevelIter (FindFile flist target) true.
Definition LevelIter_SeekToFirst : LevelFileNumIterator := mkLevelIter 0 true.
Definition LevelIter_SeekToLast : LevelFileNumIterator :=
  mkLevelIter (if decide (flist = []) then 0 else size_of flist - 1) true.

(** [Next], [Prev], [key] and [value] assert a valid position. *)
Definition LevelIter_Next (it : LevelFileNumIterator) : res LevelFileNumIterator :=
  if LevelIter_Valid it then Ret (mkLevelIter (w32 (lf_index it + 1)) (lf_seeked it)) else Abort.
Definition LevelIter_Prev (it : LevelFileNumIterator) : res LevelFileNumIterator :=
  if LevelIter_Valid it then
    Ret (mkLevelIter (if decide (lf_index it = 0) then size_of flist else lf_index it - 1)
           (lf_seeked it))
  else Abort.
Definition LevelIter_key (it : LevelFileNumIterator) : res bytes :=
  match flist !! Z.to_nat (lf_index it) with Some f => Ret (largest f) | None => Abort end.
Definition LevelIter_value (it : LevelFileNumIterator) : res bytes :=
  match flist !! Z.to_nat (lf_index it) with
  | Some f => Ret (EncodeFixed64 (number f))
  | None => Abort
  end.

(** The loop of [SkipToNextUserKey]: skip files that end at the same
    decimal user key; a round advances the index. *)
Fixpoint LevelIter_skip (fuel : nat) (it : LevelFileNumIterator) (userkeyint : Z)
    : LevelFileNumIterator :=
  match fuel with
  | O => it
  | S fuel =>
      match flist !! Z.to_nat (lf_index it) with
      | None => it
      | Some f =>
          if decide (userkeyint ≠ key_int (largest_user_key f)) then it
          else LevelIter_skip fuel (mkLevelIter (lf_index it + 1) (lf_seeked it)) userkeyint
      end
  end.
Definition LevelIter_SkipToNextUserKey (it : LevelFileNumIterator) (target : bytes)
    : LevelFileNumIterator :=
  let it := if lf_seeked it then it else LevelIter_Seek target in
  LevelIter_skip (S (length flist)) it (key_int (ExtractUserKey target)).
End level_iterator.

(** ** Boundary files *)

Definition FindLargestKey (files : list FileMetaData) : option bytes :=
  match files with
  | [] => None
  | f :: files =>
      Some (foldl (λ k f, if decide (icmp (largest f) k > 0) then largest f else k)
              (largest f) files)
  end.

(** The minimum so far, [None] for the null pointer. *)
Definition boundary_step (largest_key : bytes) (best : option FileMetaData) (f : FileMetaData)
    : option FileMetaData :=
  if decide (icmp (smallest f) largest_key > 0
             ∧ UCompare (smallest_user_key f) (ExtractUserKey largest_key) = 0) then
    match best with
    | None => Some f
    | Some b => if decide (icmp (smallest f) (smallest b) < 0) then Some f else best
    end
  else best.

Definition FindSmallestBoundaryFile (level_files : list FileMetaData) (largest_key : bytes)
    : option FileMetaData :=
  foldl (boundary_step largest_key) None level_files.

(** The loop of [AddBoundaryInputs]; [None] when the fuel is used up. *)
Fixpoint AddBoundaryInputs_loop (fuel : nat) (level_files : list FileMetaData)
    (largest_key : bytes) (compaction_files : list FileMetaData) : option (list FileMetaData) :=
  match fuel with
  | O => None
  | S fuel =>
      match FindSmallestBoundaryFile level_files largest_key with
      | None => Some compaction_files
      | Some f =>
          AddBoundaryInputs_loop fuel level_files (largest f) (compaction_files ++ [f])
      end
  end.

Definition AddBoundaryInputs (level_files compaction_files : list FileMetaData)
    : option (list FileMetaData) :=
  match FindLargestKey compaction_files with
  | None => Some compaction_files
  | Some k => AddBoundaryInputs_loop (S (length level_files)) level_files k compaction_files
  end.
End search.

(** ** Sorted levels *)

(** A well-formed internal key. *)
Definition ikey (k : bytes) : Prop := ∃ u s t, seq_ok s ∧ k = InternalKey_make u s t.

Lemma ikey_tag k : ikey k → ExtractTag k <= seek_tag.
Proof.
  intros (u & s & t & Hs & ->). rewrite InternalKey_make_tag by done.
  rewrite <- PackSequenceAndType_add by done. by apply seek_tag_max.
Qed.

Section sorted.
Context (U : Comparator) {OU : ComparatorOrder U}.
Local Abbreviation icmp := (InternalKey_Compare U).
Local Abbreviation UCompare := (@Compare U).

Local Lemma icmp_refl a : icmp a a = 0.
Proof. apply (cmp_refl (C := InternalKeyComparator U)). Qed.
Local Lemma icmp_le_trans a b c : icmp a b <= 0 → icmp b c <= 0 → icmp a c <= 0.
Proof. apply (cmp_le_trans (C := InternalKeyComparator U)). Qed.
Local Lemma icmp_lt_le a b c : icmp a b < 0 → icmp b c <= 0 → icmp a c < 0.
Proof. apply (cmp_lt_le_trans (C := InternalKeyComparator U)). Qed.
Local Lemma icmp_le_lt a b c : icmp a b <= 0 → icmp b c < 0 → icmp a c < 0.
Proof. apply (cmp_le_lt_trans (C := InternalKeyComparator U)). Qed.
Local Lemma icmp_not_lt a b : ¬ icmp a b < 0 ↔ icmp b a <= 0.
Proof. apply (cmp_not_lt (C := InternalKeyComparator U)). Qed.
Local Lemma icmp_gt_lt a b : icmp a b > 0 ↔ icmp b a < 0.
Proof. apply (cmp_gt_lt (C := InternalKeyComparator U)). Qed.

Definition file_wf (f : FileMetaData) : Prop :=
  ikey (smallest f) ∧ ikey (largest f) ∧ icmp (smallest f) (largest f) <= 0.

Definition file_before (f g : FileMetaData) : Prop := icmp (largest f) (smallest g) < 0.

(** The invariant of levels above 0, which [MaybeAddFile] asserts file by
    file and the debug check of [SaveTo] again. *)
Definition level_sorted (files : list FileMetaData) : Prop :=
  Forall file_wf files ∧ StronglySorted file_before files.

Lemma level_sorted_lookup files i j f g :
  level_sorted files → (i < j)%nat → files !! i = Some f → files !! j = Some g →
  file_before f g ∧ file_wf f ∧ file_wf g.
Proof.
  intros [Hwf Hs] Hij Hi Hj. rewrite Forall_lookup in Hwf. split; [|by eauto].
  rewrite <- (take_drop j files) in Hs. apply StronglySorted_app in Hs as (Hs & _ & _).
  apply Hs.
  - apply (list_elem_of_lookup_2 _ i). by rewrite lookup_take_lt.
  - apply (list_elem_of_lookup_2 _ 0). by rewrite lookup_drop, Nat.add_0_r.
Qed.

Lemma level_sorted_wf files i f : level_sorted files → files !! i = Some f → file_wf f.
Proof. intros [Hwf _] Hi. rewrite Forall_lookup in Hwf. eauto. Qed.

Lemma level_sorted_largest files i j f g :
  level_sorted files → (i <= j)%nat → files !! i = Some f → files !! j = Some g →
  icmp (largest f) (largest g) <= 0.
Proof.
  intros Hs Hij Hi Hj. destruct (decide (i = j)) as [->|Hne].
  - assert (f = g) as -> by congruence. by rewrite icmp_refl.
  - destruct (level_sorted_lookup files i j f g) as (Hb & Hf & Hg); [done|lia|done|done|].
    apply Z.lt_le_incl, (icmp_lt_le _ (smallest g)); [done|apply Hg].
Qed.

(** ** [FindFile] returns the first file that ends at or after the key *)

Lemma FindFile_loop_spec files key fuel : ∀ left right,
  level_sorted files → size_of files < 2 ^ 31 →
  0 <= left <= right → right <= size_of files → right - left < Z.of_nat fuel →
  (∀ i f, files !! i = Some f → Z.of_nat i < left → icmp (largest f) key < 0) →
  (∀ i f, files !! i = Some f → right <= Z.of_nat i → ¬ icmp (largest f) key < 0) →
  let r := FindFile_loop U fuel files key left right in
  left <= r <= right
  ∧ ∀ i f, files !! i = Some f → (Z.of_nat i < r ↔ icmp (largest f) key < 0).
Proof.
  induction fuel as [|fuel IH]; intros left right Hs Hn Hlr Hr Hf Hlo Hhi; [lia|].
  cbn [FindFile_loop]. case_decide as Hlt.
  - rewrite w32_small by mlia. set (mid := (left + right) / 2).
    assert (left <= mid < right) as Hmid by (subst mid; dlia).
    destruct (lookup_lt_is_Some_2 files (Z.to_nat mid)) as [f Hfm]; [lia|]. rewrite Hfm.
    case_decide as Hc.
    + destruct (IH (mid + 1) right) as [Hb Hi]; try done; try lia; [|split; [lia|done]].
      intros i g Hg Hi. apply (icmp_le_lt _ (largest f)); [|done].
      apply (level_sorted_largest files i (Z.to_nat mid)); (done || lia).
    + destruct (IH left mid) as [Hb Hi]; try done; try lia; [|split; [lia|done]].
      intros i g Hg Hi Hlt'. apply Hc. apply (icmp_le_lt _ (largest g)); [|done].
      apply (level_sorted_largest files (Z.to_nat mid) i); (done || lia).
  - split; [lia|]. intros i f Hi. split; [intros; apply (Hlo i f Hi); lia|].
    intros Hc. destruct (decide (Z.of_nat i < right)); [done|].
    exfalso. apply (Hhi i f Hi); [lia|done].
Qed.

Lemma FindFile_spec files key :
  level_sorted files → size_of files < 2 ^ 31 →
  0 <= FindFile U files key <= size_of files
  ∧ ∀ i f, files !! i = Some f →
      (Z.of_nat i < FindFile U files key ↔ icmp (largest f) key < 0).
Proof.
  intros Hs Hn. unfold FindFile.
  apply (FindFile_loop_spec files key (S (length files)) 0 (size_of files)); try done; try lia.
  intros i f Hi Hge. apply lookup_lt_Some in Hi. lia.
Qed.

(** The file [FindFile] returns, if any, is the first that ends at or after
    the key. *)
Lemma FindFile_first files key f :
  level_sorted files → size_of files < 2 ^ 31 →
  files !! Z.to_nat (FindFile U files key) = Some f →
  icmp key (largest f) <= 0
  ∧ ∀ i g, files !! i = Some g → Z.of_nat i < FindFile U files key → icmp (largest g) key < 0.
Proof.
  intros Hs Hn Hf. destruct (FindFile_spec files key Hs Hn) as [Hb Hi]. split.
  - apply icmp_not_lt. rewrite <- (Hi _ _ Hf). lia.
  - intros i g Hg. by apply Hi.
Qed.

(** ** The binary search for overlap agrees with the exhaustive one *)

Lemma SomeFileOverlapsRange_all_spec files lo hi :
  SomeFileOverlapsRange_all U files lo hi = true ↔
  ∃ i f, files !! i = Some f ∧ AfterFile U lo f = false ∧ BeforeFile U hi f = false.
Proof.
  induction files as [|f files IH]; cbn.
  - split; [done|]. by intros (i & f & ? & _).
  - destruct (AfterFile U lo f) eqn:Ha, (BeforeFile U hi f) eqn:Hb; cbn;
      [rewrite IH; split; intros (i & g & Hi & H'); [by exists (S i), g|
        destruct i as [|i]; cbn in Hi; [injection Hi as <-; by destruct H'; congruence|by eauto]]..|].
    split; [|done]. intros _. by exists 0%nat, f.
Qed.

Lemma seek_key_after_file k f :
  file_wf f →
  (icmp (largest f) (InternalKey_make k kMaxSequenceNumber kValueTypeForSeek) < 0
     ↔ AfterFile U (Some k) f = true).
Proof.
  intros (_ & Hl & _). unfold AfterFile. rewrite bool_decide_eq_true, cmp_gt_lt, icmp_lt.
  rewrite InternalKey_make_user_key. unfold largest_user_key. split; [|by left].
  intros [|[_ Ht]]; [done|]. apply ikey_tag in Hl. rewrite InternalKey_make_tag in Ht by seq_lit.
  unfold seek_tag in Hl. rewrite PackSequenceAndType_add in Hl by seq_lit. lia.
Qed.

Lemma file_user_order f g :
  file_wf f → file_wf g → file_before f g →
  UCompare (smallest_user_key f) (largest_user_key f) <= 0
  ∧ UCompare (largest_user_key f) (smallest_user_key g) <= 0
  ∧ UCompare (smallest_user_key f) (smallest_user_key g) <= 0.
Proof.
  intros (_ & _ & Hf) _ Hb. unfold file_before in Hb. apply icmp_le in Hf. apply icmp_lt in Hb.
  unfold smallest_user_key, largest_user_key.
  assert (UCompare (ExtractUserKey (smallest f)) (ExtractUserKey (largest f)) <= 0) by lia.
  assert (UCompare (ExtractUserKey (largest f)) (ExtractUserKey (smallest g)) <= 0) by lia.
  split_and!; [done..|]. by eapply cmp_le_trans.
Qed.

(** ** Point lookup in a sorted level *)

Lemma level_candidate_newest files u k e f i :
  level_sorted files → size_of files < 2 ^ 31 →
  ExtractUserKey k = u → UCompare u (ExtractUserKey e) = 0 → icmp k e <= 0 →
  files !! i = Some f → icmp (smallest f) e <= 0 → icmp e (largest f) <= 0 →
  ∃ g, level_candidate U u k files = Some g
    ∧ (g = f ∨ icmp k (largest g) <= 0 ∧ icmp (largest g) e < 0
               ∧ UCompare u (largest_user_key g) = 0).
Proof.
  intros Hs Hn <- He Hke Hi Hsf Hlf.
  destruct (FindFile_spec files k Hs Hn) as [Hb Hspec].
  assert (FindFile U files k <= Z.of_nat i) as Hle.
  { apply Z.nlt_ge. rewrite (Hspec _ _ Hi), icmp_not_lt. by apply (icmp_le_trans _ e). }
  pose proof (lookup_lt_Some _ _ _ Hi).
  destruct (lookup_lt_is_Some_2 files (Z.to_nat (FindFile U files k))) as [g Hg]; [lia|].
  destruct (FindFile_first files k g Hs Hn Hg) as [Hkg _].
  assert (icmp (smallest g) e <= 0 ∧ (g = f ∨ icmp (largest g) e < 0)) as [Hge Hcase].
  { destruct (decide (FindFile U files k = Z.of_nat i)) as [Heq|Hne].
    - rewrite Heq, Nat2Z.id in Hg. assert (g = f) as -> by congruence. split; [done|by left].
    - destruct (level_sorted_lookup files (Z.to_nat (FindFile U files k)) i g f Hs)
        as (Hbef & (_ & _ & Hwf) & _); [lia|done..|].
      assert (icmp (largest g) e < 0) by (by apply (icmp_lt_le _ (smallest f))).
      split; [|by right]. apply Z.lt_le_incl. by apply (icmp_le_lt _ (largest g)). }
  apply icmp_le in Hge.
  assert (UCompare (ExtractUserKey e) (ExtractUserKey k) <= 0) as Hek
    by (apply cmp_ge_le; lia).
  exists g. split.
  - unfold level_candidate. rewrite decide_True, Hg by lia.
    rewrite decide_False; [done|]. rewrite cmp_not_lt. unfold smallest_user_key.
    apply (cmp_le_trans _ (ExtractUserKey e)); [lia|done].
  - destruct Hcase as [->|Hlt]; [by left|right]. split_and!; [done..|].
    apply icmp_le in Hkg. apply icmp_lt in Hlt. unfold largest_user_key.
    assert (UCompare (ExtractUserKey (largest g)) (ExtractUserKey k) <= 0) as Hgk
      by (apply (cmp_le_trans _ (ExtractUserKey e)); [lia|done]).
    apply cmp_ge_le in Hgk. lia.
Qed.

(** ** Boundary files *)

Definition is_boundary (key : bytes) (f : FileMetaData) : Prop :=
  icmp (smallest f) key > 0 ∧ UCompare (smallest_user_key f) (ExtractUserKey key) = 0.

Lemma FindSmallestBoundaryFile_spec files key :
  match FindSmallestBoundaryFile U files key with
  | None => Forall (λ f, ¬ is_boundary key f) files
  | Some b => b ∈ files ∧ is_boundary key b
      ∧ Forall (λ f, is_boundary key f → icmp (smallest b) (smallest f) <= 0) files
  end.
Proof.
  unfold FindSmallestBoundaryFile. induction files as [|f files IH] using rev_ind; [constructor|].
  rewrite foldl_app. cbn [foldl]. unfold boundary_step at 1.
  destruct (foldl _ None files) as [b|]; case_decide as Hf.
  - destruct IH as (Hb & Hbb & Hmin). case_decide as Hlt.
    + split_and!; [elem|done|]. apply Forall_app. split; [|repeat constructor; by rewrite icmp_refl].
      eapply Forall_impl; [done|]. intros g Hg Hgb. apply Z.lt_le_incl.
      apply (icmp_lt_le _ (smallest b)); auto.
    + split_and!; [elem|done|]. apply Forall_app. split; [done|].
      constructor; [|done]. intros _. by apply icmp_not_lt.
  - destruct IH as (Hb & Hbb & Hmin). split_and!; [elem|done|].
    apply Forall_app. split; [done|]. by constructor.
  - split_and!; [elem|done|]. apply Forall_app.
    split; [|repeat constructor; by rewrite icmp_refl].
    eapply Forall_impl; [done|]. by intros g Hg Hgb.
  - apply Forall_app. split; [done|]. by constructor.
Qed.

(** Files that start after a key; each boundary file found leaves fewer. *)
Definition later_files (key : bytes) (files : list FileMetaData) : nat :=
  length (filter (λ f, icmp (smallest f) key > 0) files).

Lemma later_files_decrease files key f :
  f ∈ files → file_wf f → icmp (smallest f) key > 0 →
  (later_files (largest f) files < later_files key files)%nat.
Proof.
  intros Hin (_ & _ & Hwf) Hgt. apply icmp_gt_lt in Hgt. unfold later_files.
  assert (∀ g, icmp (smallest g) (largest f) > 0 → icmp (smallest g) key > 0) as Himp.
  { intros g Hg. apply icmp_gt_lt in Hg. apply icmp_gt_lt.
    apply (icmp_le_lt _ (smallest f)); [lia|]. by apply (icmp_le_lt _ (largest f)). }
  induction files as [|g files IH]; [by apply not_elem_of_nil in Hin|].
  rewrite !filter_cons. apply elem_of_cons in Hin as [->|Hin].
  - rewrite decide_False, decide_True; [| |].
    + cbn. apply Nat.lt_succ_r. clear -Himp.
      induction files as [|h files IH]; [done|]. rewrite !filter_cons.
      repeat case_decide; cbn; try lia. exfalso. eauto.
    + by apply icmp_gt_lt.
    + lia.
  - specialize (IH Hin). repeat case_decide; cbn; try lia. exfalso. eauto.
Qed.

Lemma AddBoundaryInputs_loop_spec files : Forall file_wf files → ∀ fuel key out,
  (later_files key files < fuel)%nat →
  ∃ added key', AddBoundaryInputs_loop U fuel files key out = Some (out ++ added)
    ∧ Forall (λ f, f ∈ files) added ∧ icmp key key' <= 0
    ∧ Forall (λ f, icmp (largest f) key' <= 0) added
    ∧ (key' = key ∨ ∃ f, f ∈ added ∧ largest f = key')
    ∧ Forall (λ f, ¬ is_boundary key' f) files.
Proof.
  intros Hwf. induction fuel as [|fuel IH]; intros key out Hf; [lia|].
  cbn [AddBoundaryInputs_loop]. pose proof (FindSmallestBoundaryFile_spec files key) as Hfind.
  destruct (FindSmallestBoundaryFile U files key) as [b|].
  - destruct Hfind as (Hb & (Hgt & _) & _). rewrite Forall_forall in Hwf.
    assert (icmp key (largest b) <= 0) as Hkb.
    { apply icmp_gt_lt in Hgt. apply Z.lt_le_incl, (icmp_lt_le _ (smallest b)); [done|].
      apply (Hwf b Hb). }
    pose proof (later_files_decrease files key b Hb (Hwf b Hb) Hgt).
    destruct (IH (largest b) (out ++ [b])) as (added & key' & He & Hin & Hle & Hall & Hk & Hno); [lia|].
    exists (b :: added), key'. rewrite He, <- (assoc_L (++)). split_and!; try done.
    + by constructor.
    + by apply (icmp_le_trans _ (largest b)).
    + by constructor.
    + right. destruct Hk as [->|(f & Hf' & Hk)]; [exists b|exists f]; split; (done || elem).
  - exists [], key. rewrite app_nil_r, icmp_refl. split_and!; try done. by left.
Qed.

Lemma FindLargestKey_spec files k :
  FindLargestKey U files = Some k →
  Forall (λ f, icmp (largest f) k <= 0) files ∧ ∃ f, f ∈ files ∧ largest f = k.
Proof.
  destruct files as [|f files]; [done|]. cbn. intros [= <-].
  induction files as [|g files IH] using rev_ind.
  - cbn. split; [repeat constructor; by rewrite icmp_refl|]. exists f. split; [left|done].
  - rewrite foldl_app. cbn [foldl]. destruct IH as (Hall & h & Hh & Heq).
    set (k := foldl _ _ files) in *. rewrite app_comm_cons. case_decide as Hg.
    + apply icmp_gt_lt in Hg. split.
      * apply Forall_app. split; [|repeat constructor; by rewrite icmp_refl].
        eapply Forall_impl; [done|]. intros x Hx. cbn in Hx.
        apply Z.lt_le_incl. by apply (icmp_le_lt _ k).
      * exists g. split; [elem|done].
    + split.
      * apply Forall_app. split; [done|]. constructor; [|done].
        apply icmp_not_lt. rewrite <- icmp_gt_lt. lia.
      * exists h. split; [elem|done].
Qed.
End sorted.

(** ** Properties *)

(** On a sorted level [FindFile] returns the number of files that end
    before the key: the smallest index whose largest key is at or after the
    key, or the number of files when there is none (the promise of
    [version_set.h]). *)
Theorem find_file_correct (U : Comparator) (OU : ComparatorOrder U) files key :
  level_sorted U files → size_of files < 2 ^ 31 →
  0 <= FindFile U files key <= size_of files
  ∧ ∀ i f, files !! i = Some f →
      (Z.of_nat i < FindFile U files key ↔ InternalKey_Compare U (largest f) key < 0).
Proof. apply FindFile_spec. done. Qed.

Definition example_level : list FileMetaData :=
  [example_file 1 0 9 []; example_file 2 20 29 []; example_file 3 30 39 []].

Lemma example_level_sorted : level_sorted YCSBKeyComparator example_level.
Proof.
  split.
  - repeat (apply Forall_cons; split); try apply Forall_nil_2;
      (split; [|split]; [eexists _, _, _; split; [|reflexivity]; seq_lit..|lit]).
  - repeat constructor; lit.
Qed.

Lemma find_file_correct_witness :
  FindFile YCSBKeyComparator example_level (InternalKey_make (decimal 25) 7 kTypeValue) = 1
  ∧ ∀ i f, example_level !! i = Some f →
      (Z.of_nat i < 1 ↔ InternalKey_Compare YCSBKeyComparator (largest f)
                          (InternalKey_make (decimal 25) 7 kTypeValue) < 0).
Proof.
  assert (FindFile YCSBKeyComparator example_level (InternalKey_make (decimal 25) 7 kTypeValue) = 1)
    as E by (vm_compute; reflexivity).
  split; [exact E|]. rewrite <- E.
  apply (find_file_correct YCSBKeyComparator YCSB_order example_level
    (InternalKey_make (decimal 25) 7 kTypeValue)); [apply example_level_sorted|lit].
Defined.

(** On a sorted level the overlap test by binary search gives the answer
    of the exhaustive test over all files, for open and closed user key
    ranges. *)
Lemma some_file_overlaps_agree (U : Comparator) (OU : ComparatorOrder U) files lo hi :
  level_sorted U files → size_of files < 2 ^ 31 →
  SomeFileOverlapsRange U true files lo hi = SomeFileOverlapsRange U false files lo hi.
Proof.
  intros Hs Hn. cbn [SomeFileOverlapsRange]. set (index := match lo with Some _ => _ | None => 0 end).
  assert (0 <= index <= size_of files ∧ ∀ i f, files !! i = Some f →
    (Z.of_nat i < index ↔ AfterFile U lo f = true)) as [Hb Hindex].
  { subst index. destruct lo as [k|]; [|split; [lia|]; intros; cbn; split; (lia || done)].
    destruct (FindFile_spec U files (InternalKey_make k kMaxSequenceNumber kValueTypeForSeek) Hs Hn)
      as [? Hi]. split; [done|]. intros i f Hf. rewrite (Hi i f Hf).
    by apply seek_key_after_file, (level_sorted_wf U files i). }
  clearbody index. apply eq_true_iff_eq. rewrite SomeFileOverlapsRange_all_spec. case_decide as Hge.
  - split; [done|]. intros (i & f & Hi & Ha & _). pose proof (lookup_lt_Some _ _ _ Hi).
    assert (AfterFile U lo f = true) by (apply (Hindex i f Hi); lia). congruence.
  - destruct (lookup_lt_is_Some_2 files (Z.to_nat index)) as [f Hf]; [lia|]. rewrite Hf.
    assert (AfterFile U lo f = false) as Haf.
    { apply not_true_iff_false. rewrite <- (Hindex _ f Hf). lia. }
    rewrite negb_true_iff. split; [by eauto|]. intros (i & g & Hi & Ha & Hbg).
    destruct (decide (i = Z.to_nat index)) as [->|Hne]; [congruence|].
    assert (Z.to_nat index < i)%nat.
    { destruct (decide (Z.of_nat i < index)) as [Hlt|]; [|lia].
      apply (Hindex i g Hi) in Hlt. congruence. }
    destruct (level_sorted_lookup U files _ i f g Hs ltac:(eassumption) Hf Hi) as (Hbef & Hwf & Hwg).
    destruct (file_user_order U f g Hwf Hwg Hbef) as (_ & _ & Hle).
    destruct hi as [h|]; [|done]. cbn in *. apply bool_decide_eq_false in Hbg.
    apply bool_decide_eq_false. apply cmp_not_lt. apply cmp_not_lt in Hbg. by eapply cmp_le_trans.
Qed.

(** C20. A point lookup at a snapshot misses nothing in a sorted level: if a
    file holds an entry [e] of the user key that the snapshot may see, the file
    the lookup opens is that file, or one whose last key is a newer visible
    entry of the same user key. *)
Theorem level_lookup_newest (U : Comparator) (OU : ComparatorOrder U) files u s e f i :
  level_sorted U files → size_of files < 2 ^ 31 →
  let k := internal_key (LookupKey_make u s) in
  @Compare U u (ExtractUserKey e) = 0 → InternalKey_Compare U k e <= 0 →
  files !! i = Some f →
  InternalKey_Compare U (smallest f) e <= 0 → InternalKey_Compare U e (largest f) <= 0 →
  ∃ g, level_candidate U u k files = Some g
    ∧ (g = f ∨ InternalKey_Compare U k (largest g) <= 0 ∧ InternalKey_Compare U (largest g) e < 0
               ∧ @Compare U u (largest_user_key g) = 0).
Proof.
  intros Hs Hn k Hu Hk Hi Hsf Hlf.
  apply (level_candidate_newest U files u k e f i); try done.
  apply ExtractUserKey_app.
Qed.

Lemma level_lookup_newest_witness :
  let U := YCSBKeyComparator in
  let k := internal_key (LookupKey_make (decimal 25) 8) in
  ∃ g, level_candidate U (decimal 25) k example_level = Some g
    ∧ (g = example_file 2 20 29 []
       ∨ InternalKey_Compare U k (largest g) <= 0
         ∧ InternalKey_Compare U (largest g) (InternalKey_make (decimal 25) 5 kTypeValue) < 0
         ∧ @Compare U (decimal 25) (largest_user_key g) = 0).
Proof.
  cbv zeta.
  apply (level_lookup_newest YCSBKeyComparator YCSB_order example_level (decimal 25) 8
    (InternalKey_make (decimal 25) 5 kTypeValue) (example_file 2 20 29 []) 1).
  - apply example_level_sorted.
  - lit.
  - vm_compute. reflexivity.
  - lit.
  - reflexivity.
  - lit.
  - lit.
Defined.


(** Adding boundary files terminates (with one round per file of the
    level), only appends files of the level, and leaves none behind: no file of
    the level starts, with the same user key, after the largest key of the
    result, so no older version of a compacted key is stranded. *)
Lemma add_boundary_inputs_closed (U : Comparator) (OU : ComparatorOrder U) level_files files :
  Forall (file_wf U) level_files → files ≠ [] →
  ∃ added k, AddBoundaryInputs U level_files files = Some (files ++ added)
    ∧ Forall (λ f, f ∈ level_files) added
    ∧ Forall (λ f, InternalKey_Compare U (largest f) k <= 0) (files ++ added)
    ∧ (∃ f, f ∈ files ++ added ∧ largest f = k)
    ∧ Forall (λ f, ¬ is_boundary U k f) level_files.
Proof.
  intros Hwf Hne. unfold AddBoundaryInputs.
  destruct (FindLargestKey U files) as [k0|] eqn:Hk; [|by destruct files].
  apply FindLargestKey_spec in Hk as (Hall & f0 & Hf0 & Hfk); [|done].
  destruct (AddBoundaryInputs_loop_spec U level_files Hwf (S (length level_files)) k0 files)
    as (added & k & He & Hin & Hle & Hadded & Hk & Hno).
  { unfold later_files. pose proof (length_filter (λ f, InternalKey_Compare U (smallest f) k0 > 0) level_files).
    lia. }
  exists added, k. split_and!; try done.
  - apply Forall_app. split; [|done]. eapply Forall_impl; [done|]. intros f Hf. cbn in Hf.
    by apply (cmp_le_trans (C := InternalKeyComparator U) _ k0).
  - destruct Hk as [->|(f & Hf & <-)]; [exists f0|exists f]; (split; [elem|done]).
Qed.

