(* ===== verification/VersionBuilder.v ===== *)
(** * VersionBuilder: applying edits to a version

    [Version] and [VersionSet::Builder] of [db/version_set.cc]: an edit is
    collected level by level and merged with the files of the base version.
    File pointers are the metadata records they point to.  The counter [refs]
    of a record is only written in the sources (the code that would free a file
    at zero is commented out); it is kept in the copy stored in the version
    under construction, without the decrement of [~Builder]. *)

From S2P Require Import Prelude Coding Comparator NovaCommon DbFormat Subrange FileMeta VersionEdit FileSearch.

(** ** Versions *)

Record Version := mkVersion {
  files_ : list (list FileMetaData);
  fn_files_ : gmap Z FileMetaData;
  l0_bytes_ : Z;
  version_id_ : Z
}.

(** The constructor: [files_] resized to the number of levels. *)
Definition Version_init (levels : nat) (version_id : Z) : Version :=
  mkVersion (replicate levels []) ∅ 0 version_id.

(** ** The builder *)

Record LevelState := mkLevelState {
  deleted_files : list Z;
  added_files : list FileMetaData
}.

Record Builder := mkBuilder {
  levels_ : list LevelState;
  added_files_map : gmap Z FileMetaData;
  builder_update_replica_locations_ : bool
}.

Definition Builder_init (levels : nat) : Builder :=
  mkBuilder (replicate levels (mkLevelState [] [])) ∅ false.

(** [std::set::erase]. *)
Definition set_erase (x : Z) (s : list Z) : list Z := filter (λ y, y ≠ x) s.

Definition with_allowed_seeks (f : FileMetaData) (refs' seeks : Z) : FileMetaData :=
  mkFile refs' seeks (memtable_ids f) (number f) (file_size f) (converted_file_size f)
    (flush_timestamp f) (level f) (smallest f) (largest f) (compaction_status f)
    (block_replica_handles f) (parity_block_handle f).

(** The file record [Apply] allocates for a new file. *)
Definition new_file (f : FileMetaData) : FileMetaData :=
  let seeks := to_int (file_size f / 16384) in
  with_allowed_seeks f 1 (if decide (seeks < 100) then 100 else seeks).

Section builder.
Context (ucmp : Comparator).
Local Abbreviation icmp := (InternalKey_Compare ucmp).

Definition BySmallestKey (f1 f2 : FileMetaData) : bool :=
  let r := icmp (smallest f1) (smallest f2) in
  if decide (r ≠ 0) then bool_decide (r < 0) else bool_decide (number f1 < number f2).

(** [std::set::insert] with this order: an equivalent element stays. *)
Fixpoint FileSet_insert (f : FileMetaData) (s : list FileMetaData) : list FileMetaData :=
  match s with
  | [] => [f]
  | g :: s' =>
      if BySmallestKey f g then f :: s
      else if BySmallestKey g f then g :: FileSet_insert f s' else s
  end.

Definition Apply_deleted (b : Builder) (d : Z * Z) : Builder :=
  mkBuilder
    (alter (λ l, mkLevelState (set_insert d.2 (deleted_files l)) (added_files l))
       (Z.to_nat d.1) (levels_ b))
    (added_files_map b) (builder_update_replica_locations_ b).

Definition Apply_new_file (b : Builder) (nf : Z * FileMetaData) : Builder :=
  let f := new_file nf.2 in
  mkBuilder
    (alter (λ l, mkLevelState (set_erase (number f) (deleted_files l))
                   (FileSet_insert f (added_files l)))
       (Z.to_nat nf.1) (levels_ b))
    (<[number f := f]> (added_files_map b)) (builder_update_replica_locations_ b).

(** [Builder::Apply(edit)]. *)
Definition Builder_Apply (b : Builder) (edit : VersionEdit) : Builder :=
  let b := mkBuilder (levels_ b) (added_files_map b) (update_replica_locations_ edit) in
  let b := foldl Apply_deleted b (deleted_files_ edit) in
  foldl Apply_new_file b (new_files_ edit).

(** The part of the version [MaybeAddFile] changes: the files of the level,
    the map of files and the bytes at level 0. *)
Record SaveState := mkSave {
  sv_files : list FileMetaData;
  sv_fn_files : gmap Z FileMetaData;
  sv_l0_bytes : Z
}.

Definition incr_refs (f : FileMetaData) : FileMetaData :=
  with_allowed_seeks f (refs f + 1) (allowed_seeks f).

(** The last file added ends at or after the start of [f]. *)
Definition overlaps_last (files : list FileMetaData) (f : FileMetaData) : bool :=
  match last files with
  | Some p => negb (bool_decide (icmp (largest p) (smallest f) < 0))
  | None => false
  end.

(** [Builder::MaybeAddFile(v, level, f)]. *)
Definition MaybeAddFile (deleted : list Z) (lvl : nat) (v : SaveState) (f : FileMetaData)
    : res SaveState :=
  if decide (number f ∈ deleted) then Ret v
  else if bool_decide (lvl ≠ 0%nat) && overlaps_last (sv_files v) f then Abort
  else
    let f := incr_refs f in
    let l0 := if decide (level f = 0) then w64 (sv_l0_bytes v + file_size f) else sv_l0_bytes v in
    match sv_fn_files v !! number f with
    | Some _ => Abort
    | None => Ret (mkSave (sv_files v ++ [f]) (<[number f := f]> (sv_fn_files v)) l0)
    end.

Fixpoint MaybeAddFiles (deleted : list Z) (lvl : nat) (v : SaveState) (fs : list FileMetaData)
    : res SaveState :=
  match fs with
  | [] => Ret v
  | f :: fs => v ← MaybeAddFile deleted lvl v f; MaybeAddFiles deleted lvl v fs
  end.

(** The base files up to [std::upper_bound(base_iter, base_end, added, cmp)],
    the first that [added] comes before, and the rest. *)
Fixpoint upper_bound (added : FileMetaData) (base : list FileMetaData)
    : list FileMetaData * list FileMetaData :=
  match base with
  | [] => ([], [])
  | g :: base' =>
      if BySmallestKey added g then ([], base)
      else let '(l, r) := upper_bound added base' in (g :: l, r)
  end.

(** The merging loops of [SaveTo] for one level. *)
Fixpoint SaveTo_merge (deleted : list Z) (lvl : nat) (v : SaveState)
    (added base : list FileMetaData) : res SaveState :=
  match added with
  | [] => MaybeAddFiles deleted lvl v base
  | f :: added =>
      let '(smaller, base) := upper_bound f base in
      v ← MaybeAddFiles deleted lvl v smaller;
      match compaction_status f with
      | COMPACTING => Abort
      | _ => v ← MaybeAddFile deleted lvl v f; SaveTo_merge deleted lvl v added base
      end
  end.

(** With [update_replica_locations_]: base files, replaced by their new
    metadata where there is one. *)
Definition replace_replicas (b : Builder) (base : list FileMetaData) : list FileMetaData :=
  (λ f, default f (added_files_map b !! number f)) <$> base.

(** The check [#ifndef NDEBUG] at the end of each level. *)
Fixpoint no_overlap (files : list FileMetaData) : bool :=
  match files with
  | f :: ((g :: _) as rest) => bool_decide (icmp (largest f) (smallest g) < 0) && no_overlap rest
  | _ => true
  end.

Definition SaveTo_level (b : Builder) (lvl : nat) (l : LevelState) (base : list FileMetaData)
    (fn_files : gmap Z FileMetaData) (l0_bytes : Z) : res SaveState :=
  let v := mkSave [] fn_files l0_bytes in
  v ← (if builder_update_replica_locations_ b
       then MaybeAddFiles (deleted_files l) lvl v (replace_replicas b base)
       else SaveTo_merge (deleted_files l) lvl v (added_files l) base);
  if decide (lvl ≠ 0%nat ∧ no_overlap (sv_files v) = false) then Abort else Ret v.

(** The loop over the levels: the files of each level, the map and the bytes. *)
Fixpoint SaveTo_levels (b : Builder) (lvl : nat) (ls : list LevelState)
    (base : list (list FileMetaData)) (fn_files : gmap Z FileMetaData) (l0_bytes : Z)
    : res (list (list FileMetaData) * gmap Z FileMetaData * Z) :=
  match ls with
  | [] => Ret ([], fn_files, l0_bytes)
  | l :: ls =>
      v ← SaveTo_level b lvl l (default [] (head base)) fn_files l0_bytes;
      '(fss, fn_files, l0_bytes) ←
        SaveTo_levels b (S lvl) ls (tail base) (sv_fn_files v) (sv_l0_bytes v);
      Ret (sv_files v :: fss, fn_files, l0_bytes)
  end.

(** [Builder::SaveTo(v)] into a fresh version [v]. *)
Definition Builder_SaveTo (b : Builder) (base : Version) (version_id : Z) : res Version :=
  '(fss, fn_files, l0_bytes) ← SaveTo_levels b 0 (levels_ b) (files_ base) ∅ 0;
  Ret (mkVersion fss fn_files l0_bytes version_id).

(** The first block of [VersionSet::LogAndApply]. *)
Definition LogAndApply_version (base : Version) (edit : VersionEdit) (version_id : Z) : res Version :=
  Builder_SaveTo (Builder_Apply (Builder_init (length (files_ base))) edit) base version_id.
End builder.

(** ** The files a version is made of *)

Definition kept (deleted : list Z) (fs : list FileMetaData) : list FileMetaData :=
  incr_refs <$> filter (λ f, number f ∉ deleted) fs.

Section proofs.
Context (U : Comparator) {OU : ComparatorOrder U}.
Local Abbreviation icmp := (InternalKey_Compare U).
Local Abbreviation by_smallest := (BySmallestKey U).
Local Abbreviation before := (file_before U).

Lemma kept_app del fs gs : kept del (fs ++ gs) = kept del fs ++ kept del gs.
Proof. unfold kept. by rewrite filter_app, fmap_app. Qed.

Lemma kept_cons del f fs :
  kept del (f :: fs) = (if decide (number f ∈ del) then [] else [incr_refs f]) ++ kept del fs.
Proof. unfold kept. rewrite filter_cons. repeat case_decide; (done || tauto). Qed.

Definition insert_all (m : gmap Z FileMetaData) (fs : list FileMetaData) : gmap Z FileMetaData :=
  foldl (λ m f, <[number f := f]> m) m fs.

Definition add_bytes (l0 : Z) (fs : list FileMetaData) : Z :=
  foldl (λ l0 f, if decide (level f = 0) then w64 (l0 + file_size f) else l0) l0 fs.

(** What [MaybeAddFile] requires of the files it keeps: above level 0 they
    follow each other, and their numbers are new. *)
Definition addable (lvl : nat) (prev : option FileMetaData) (seen : gmap Z FileMetaData)
    (fs : list FileMetaData) : Prop :=
  (lvl ≠ 0%nat → Sorted before (option_list prev ++ fs))
  ∧ NoDup (number <$> fs) ∧ Forall (λ f, seen !! number f = None) fs.

Lemma addable_cons lvl prev seen f fs :
  addable lvl prev seen (f :: fs) ↔
  (lvl ≠ 0%nat → ∀ p, prev = Some p → before p f) ∧ seen !! number f = None
  ∧ addable lvl (Some f) (<[number f := f]> seen) fs.
Proof.
  unfold addable. rewrite fmap_cons, NoDup_cons, Forall_cons. split.
  - intros (Hs & (Hni & Hnd) & Hf & Hfs). split_and!; try done.
    + intros Hl p ->. specialize (Hs Hl). cbn in Hs. inversion Hs as [|??? Hh]; subst.
      by inversion Hh.
    + intros Hl. specialize (Hs Hl). destruct prev; [by inversion Hs|done].
    + rewrite Forall_forall in *. intros g Hg. rewrite lookup_insert_ne; [by apply Hfs|].
      intros Heq. apply Hni. rewrite Heq. by apply list_elem_of_fmap_2.
  - intros (Hp & Hf & Hs & Hnd & Hfs). split_and!; try done.
    + intros Hl. specialize (Hs Hl). cbn in Hs. destruct prev as [p|]; cbn; [|done].
      constructor; [done|]. constructor. by apply Hp.
    + intros Hin. apply list_elem_of_fmap_1 in Hin as (g & Heq & Hg).
      rewrite Forall_forall in Hfs. specialize (Hfs g Hg). rewrite <- Heq in Hfs.
      by rewrite lookup_insert_eq in Hfs.
    + rewrite Forall_forall in *. intros g Hg. specialize (Hfs g Hg).
      destruct (decide (number f = number g)) as [<-|]; [done|].
      by rewrite lookup_insert_ne in Hfs.
Qed.

Lemma MaybeAddFile_step del lvl v f v' :
  MaybeAddFile U del lvl v f = Ret v' ↔
  (number f ∈ del ∧ v' = v)
  ∨ number f ∉ del ∧ (lvl ≠ 0%nat → ∀ p, last (sv_files v) = Some p → before p (incr_refs f))
    ∧ sv_fn_files v !! number f = None
    ∧ v' = mkSave (sv_files v ++ [incr_refs f]) (<[number f := incr_refs f]> (sv_fn_files v))
             (add_bytes (sv_l0_bytes v) [incr_refs f]).
Proof.
  unfold MaybeAddFile, add_bytes, before, overlaps_last. cbn. case_decide as Hd.
  { split; [intros [= <-]; by left|]. intros [[_ ->]|[? _]]; done. }
  destruct (bool_decide (lvl ≠ 0%nat) && _) eqn:Hov.
  - apply andb_true_iff in Hov as [Hl Hov]. apply bool_decide_eq_true in Hl. split; [done|].
    intros [[]|(_ & Hp & _)]; [done|]. exfalso. specialize (Hp Hl).
    destruct (last (sv_files v)) as [p|]; [|done]. apply negb_true_iff, bool_decide_eq_false in Hov.
    by apply Hov, Hp.
  - assert (lvl ≠ 0%nat → ∀ p, last (sv_files v) = Some p → icmp (largest p) (smallest f) < 0) as Hp.
    { intros Hl p Hlast. rewrite Hlast, bool_decide_eq_true_2 in Hov by done. cbn in Hov.
      by apply negb_false_iff, bool_decide_eq_true in Hov. }
    destruct (sv_fn_files v !! number f) eqn:Hfn.
    + split; [done|]. intros [[]|(_ & _ & ? & _)]; done.
    + split; [intros [= <-]; by right|]. intros [[]|(_ & _ & _ & ->)]; done.
Qed.

Lemma MaybeAddFiles_iff del lvl fs : ∀ v v',
  MaybeAddFiles U del lvl v fs = Ret v' ↔
  addable lvl (last (sv_files v)) (sv_fn_files v) (kept del fs)
  ∧ v' = mkSave (sv_files v ++ kept del fs) (insert_all (sv_fn_files v) (kept del fs))
           (add_bytes (sv_l0_bytes v) (kept del fs)).
Proof.
  induction fs as [|f fs IH]; intros v v'; cbn [MaybeAddFiles].
  - unfold kept, addable. cbn. rewrite !app_nil_r. split.
    + intros [= <-]. split; [|by destruct v]. split_and!; [|constructor..].
      intros _. destruct (last _); repeat constructor.
    + intros [_ ->]. by destruct v.
  - rewrite res_bind_Ret, kept_cons. setoid_rewrite MaybeAddFile_step. setoid_rewrite IH.
    case_decide as Hd; cbn [app].
    + split; [intros (v1 & [[_ ->]|[? _]] & H'); done|]. intros H'. exists v. split; [by left|done].
    + change (number f) with (number (incr_refs f)). rewrite addable_cons. split.
      * intros (v1 & [[? _]|(_ & Hp & Hfn & ->)] & Hadd & ->); [done|]. cbn in *.
        rewrite last_snoc in Hadd. rewrite <- (assoc_L (++)). done.
      * intros ((Hp & Hfn & Hadd) & ->). eexists. split; [by right|]. cbn.
        rewrite last_snoc, <- (assoc_L (++)). done.
Qed.

(** *** The merge of added and base files *)

Fixpoint merge_files (added base : list FileMetaData) : list FileMetaData :=
  match added with
  | [] => base
  | f :: added =>
      let '(smaller, base) := upper_bound U f base in
      smaller ++ f :: merge_files added base
  end.

Lemma upper_bound_split f base smaller rest :
  upper_bound U f base = (smaller, rest) → base = smaller ++ rest.
Proof.
  revert smaller rest. induction base as [|g base IH]; intros smaller rest; cbn.
  - by intros [= <- <-].
  - case_match; [by intros [= <- <-]|]. destruct (upper_bound U f base) as [l r].
    intros [= <- <-]. cbn. by rewrite (IH l r).
Qed.

Lemma merge_files_perm added base : merge_files added base ≡ₚ added ++ base.
Proof.
  revert base. induction added as [|f added IH]; intros base; cbn; [done|].
  destruct (upper_bound U f base) as [smaller rest] eqn:E. apply upper_bound_split in E as ->.
  rewrite IH. solve_Permutation.
Qed.

Lemma SaveTo_merge_iff del lvl added : ∀ v base v',
  SaveTo_merge U del lvl v added base = Ret v' ↔
  Forall (λ f, compaction_status f ≠ COMPACTING) added
  ∧ MaybeAddFiles U del lvl v (merge_files added base) = Ret v'.
Proof.
  assert (∀ fs gs v v', MaybeAddFiles U del lvl v (fs ++ gs) = Ret v' ↔
    ∃ v1, MaybeAddFiles U del lvl v fs = Ret v1 ∧ MaybeAddFiles U del lvl v1 gs = Ret v') as Happ.
  { induction fs as [|f fs IHf]; intros gs v v'; cbn.
    - split; [by eauto|]. by intros (? & [= <-] & ?).
    - rewrite res_bind_Ret. setoid_rewrite res_bind_Ret. setoid_rewrite IHf. naive_solver. }
  induction added as [|f added IH]; intros v base v'; cbn [SaveTo_merge merge_files].
  - split; [by intros; split; [constructor|]|by intros [_ ?]].
  - destruct (upper_bound U f base) as [smaller rest]. rewrite Happ, res_bind_Ret, Forall_cons.
    cbn [MaybeAddFiles]. setoid_rewrite res_bind_Ret.
    assert (∀ v1, match compaction_status f with
      | COMPACTING => Abort
      | _ => v ← MaybeAddFile U del lvl v1 f; SaveTo_merge U del lvl v added rest
      end = Ret v' ↔ compaction_status f ≠ COMPACTING ∧
        ∃ v2, MaybeAddFile U del lvl v1 f = Ret v2 ∧ SaveTo_merge U del lvl v2 added rest = Ret v') as Hf.
    { intros v1. destruct (compaction_status f); rewrite ?res_bind_Ret; naive_solver. }
    setoid_rewrite Hf. setoid_rewrite IH. naive_solver.
Qed.

Lemma Sorted_no_overlap fs : Sorted before fs → no_overlap U fs = true.
Proof.
  induction fs as [|f fs IH]; intros Hs; [done|]. inversion Hs as [|?? Hs' Hh]; subst.
  destruct fs as [|g fs]; [done|]. cbn [no_overlap]. apply andb_true_iff. split; [|by apply IH].
  inversion Hh. by apply bool_decide_eq_true.
Qed.

(** The files saved, level by level. *)
Definition saved_level (l : LevelState) (base : list FileMetaData) : list FileMetaData :=
  kept (deleted_files l) (merge_files (added_files l) base).

Fixpoint saved (ls : list LevelState) (base : list (list FileMetaData)) : list (list FileMetaData) :=
  match ls with
  | [] => []
  | l :: ls => saved_level l (default [] (head base)) :: saved ls (tail base)
  end.

Definition not_compacting (l : LevelState) : Prop :=
  Forall (λ f, compaction_status f ≠ COMPACTING) (added_files l).

Lemma SaveTo_level_iff b lvl l base fn l0 v :
  builder_update_replica_locations_ b = false →
  SaveTo_level U b lvl l base fn l0 = Ret v ↔
  not_compacting l ∧ addable lvl None fn (saved_level l base)
  ∧ v = mkSave (saved_level l base) (insert_all fn (saved_level l base))
          (add_bytes l0 (saved_level l base)).
Proof.
  intros Hb. unfold SaveTo_level. rewrite Hb, res_bind_Ret.
  setoid_rewrite SaveTo_merge_iff. setoid_rewrite MaybeAddFiles_iff. cbn [sv_files sv_fn_files sv_l0_bytes app last].
  fold (saved_level l base). split.
  - intros (v1 & (Hc & Hadd & ->) & H'). cbn in H'. case_decide; [done|]. by injection H' as <-.
  - intros (Hc & Hadd & ->). eexists. split; [done|]. cbn [sv_files].
    rewrite decide_False; [done|]. intros [Hl Hov]. destruct Hadd as [Hs _].
    by rewrite Sorted_no_overlap in Hov by by apply Hs.
Qed.

Lemma insert_all_app m fs gs : insert_all m (fs ++ gs) = insert_all (insert_all m fs) gs.
Proof. apply foldl_app. Qed.

Lemma insert_all_lookup fs : ∀ m n f,
  NoDup (number <$> fs) → Forall (λ g, m !! number g = None) fs →
  insert_all m fs !! n = Some f ↔ m !! n = Some f ∨ f ∈ fs ∧ number f = n.
Proof.
  induction fs as [|g fs IH]; intros m n f Hnd Hnone; cbn.
  - rewrite elem_of_nil. tauto.
  - rewrite fmap_cons, NoDup_cons in Hnd. destruct Hnd as [Hni Hnd].
    inversion Hnone as [|?? Hg Hnone']; subst. rewrite IH; [|done|].
    + rewrite elem_of_cons. destruct (decide (number g = n)) as [<-|Hne].
      * rewrite lookup_insert_eq, Hg. split.
        -- intros [[= ->]|[? ?]]; [by right; split; [left|]|by right; split; [right|]].
        -- intros [?|[[->|?] ?]]; [done|by left|by right].
      * rewrite lookup_insert_ne by done. split.
        -- intros [?|[? ?]]; [by left|by right; split; [right|]].
        -- intros [?|[[->|?] ?]]; [by left|done|by right].
    + rewrite Forall_forall in *. intros h Hh. rewrite lookup_insert_ne; [by apply Hnone'|].
      intros Heq. apply Hni. rewrite Heq. by apply list_elem_of_fmap_2.
Qed.

Lemma insert_all_none fs m n :
  NoDup (number <$> fs) → Forall (λ g, m !! number g = None) fs →
  insert_all m fs !! n = None ↔ m !! n = None ∧ n ∉ number <$> fs.
Proof.
  intros Hnd Hnone. rewrite !eq_None_not_Some. unfold is_Some. setoid_rewrite insert_all_lookup; [|done..].
  rewrite list_elem_of_fmap. naive_solver.
Qed.

Lemma SaveTo_levels_iff b ls : builder_update_replica_locations_ b = false → ∀ lvl base fn l0 r,
  SaveTo_levels U b lvl ls base fn l0 = Ret r ↔
  Forall not_compacting ls
  ∧ (∀ i fs, saved ls base !! i = Some fs → (lvl + i ≠ 0)%nat → Sorted before fs)
  ∧ NoDup (number <$> concat (saved ls base))
  ∧ Forall (λ f, fn !! number f = None) (concat (saved ls base))
  ∧ r = (saved ls base, insert_all fn (concat (saved ls base)),
         add_bytes l0 (concat (saved ls base))).
Proof.
  intros Hb. induction ls as [|l ls IH]; intros lvl base fn l0 r; cbn [SaveTo_levels saved concat].
  - split; [intros [= <-]; split_and!; done || constructor|]. by intros (_ & _ & _ & _ & ->).
  - rewrite res_bind_Ret. set (s0 := saved_level l (default [] (head base))).
    rewrite Forall_cons, fmap_app, NoDup_app, Forall_app, insert_all_app. unfold add_bytes.
    rewrite foldl_app. fold (add_bytes l0 s0). split.
    + intros (v & Hv & Hr). apply SaveTo_level_iff in Hv as (Hc & (Hs & Hnd & Hnone) & ->); [|done].
      apply res_bind_Ret in Hr as (r' & Hr' & Hr). cbn [sv_fn_files sv_l0_bytes sv_files] in *.
      apply IH in Hr' as (Hcs & Hss & Hnds & Hnones & ->). injection Hr as <-.
      rewrite Forall_forall in Hnones.
      setoid_rewrite insert_all_none in Hnones; [|done..].
      split_and!; try done.
      * intros [|i] fs; cbn; [intros [= <-] Hl; apply Hs; lia|].
        intros Hi Hl. apply (Hss i fs Hi). lia.
      * intros n Hn Hn'. apply list_elem_of_fmap in Hn' as (f & -> & Hf). by destruct (Hnones f Hf).
      * apply Forall_forall. intros f Hf. by destruct (Hnones f Hf).
    + intros ((Hc & Hcs) & Hss & (Hnd & Hdisj & Hnds) & (Hnone & Hnones) & ->).
      eexists. split; [apply SaveTo_level_iff; [done|]; split_and!; [done| |done]|].
      * split_and!; [|done..]. intros Hl. apply (Hss 0%nat s0); [done|lia].
      * apply res_bind_Ret. cbn [sv_fn_files sv_l0_bytes sv_files]. eexists.
        split; [apply IH; split_and!; [done| |done| |reflexivity]|done].
        -- intros i fs Hi Hl. apply (Hss (S i) fs Hi). lia.
        -- rewrite Forall_forall in *. intros f Hf. apply insert_all_none; [done| |].
           ++ by apply Forall_forall.
           ++ split; [by apply Hnones|]. intros Hin. apply (Hdisj _ Hin). by apply list_elem_of_fmap_2.
Qed.

(** *** The order of the files *)

(** The order [BySmallestKey] is strict part of. *)
Definition smallest_le (f g : FileMetaData) : Prop := by_smallest g f = false.

Local Abbreviation lexle f g :=
  (icmp (smallest f) (smallest g) < 0
   ∨ icmp (smallest f) (smallest g) = 0 ∧ number f <= number g).

Lemma smallest_le_lex f g : smallest_le f g ↔ lexle f g.
Proof.
  unfold smallest_le, BySmallestKey.
  pose proof (cmp_antisym (C := InternalKeyComparator U) (smallest f) (smallest g)) as H1.
  pose proof (cmp_antisym (C := InternalKeyComparator U) (smallest g) (smallest f)) as H2.
  cbn in H1, H2. case_decide; rewrite bool_decide_eq_false; lia.
Qed.

Lemma smallest_le_trans f g h : smallest_le f g → smallest_le g h → smallest_le f h.
Proof.
  rewrite !smallest_le_lex.
  pose proof (cmp_le_trans (C := InternalKeyComparator U) (smallest f) (smallest g) (smallest h)) as H1.
  pose proof (cmp_le_trans (C := InternalKeyComparator U) (smallest h) (smallest g) (smallest f)) as H2.
  pose proof (cmp_le_trans (C := InternalKeyComparator U) (smallest h) (smallest f) (smallest g)) as H3.
  pose proof (cmp_le_trans (C := InternalKeyComparator U) (smallest g) (smallest h) (smallest f)) as H4.
  pose proof (cmp_antisym (C := InternalKeyComparator U) (smallest f) (smallest g)).
  pose proof (cmp_antisym (C := InternalKeyComparator U) (smallest g) (smallest f)).
  pose proof (cmp_antisym (C := InternalKeyComparator U) (smallest g) (smallest h)).
  pose proof (cmp_antisym (C := InternalKeyComparator U) (smallest h) (smallest g)).
  pose proof (cmp_antisym (C := InternalKeyComparator U) (smallest f) (smallest h)).
  pose proof (cmp_antisym (C := InternalKeyComparator U) (smallest h) (smallest f)).
  cbn in *. lia.
Qed.

Lemma by_smallest_le f g : by_smallest f g = true → smallest_le f g.
Proof.
  rewrite smallest_le_lex. unfold BySmallestKey.
  case_decide; rewrite bool_decide_eq_true; lia.
Qed.

Lemma upper_bound_spec f base smaller rest :
  StronglySorted smallest_le base → upper_bound U f base = (smaller, rest) →
  Forall (λ g, smallest_le g f) smaller ∧ Forall (smallest_le f) rest.
Proof.
  revert smaller rest. induction base as [|g base IH]; intros smaller rest Hs; cbn.
  { by intros [= <- <-]. }
  inversion Hs as [|?? Hs' Hg]; subst. case_match eqn:Hfg.
  - intros [= <- <-]. split; [done|]. apply by_smallest_le in Hfg. constructor; [done|].
    eapply Forall_impl; [exact Hg|]. intros h. by apply smallest_le_trans.
  - destruct (upper_bound U f base) as [l r]. intros [= <- <-].
    destruct (IH l r Hs' eq_refl). split; [by constructor|done].
Qed.

Lemma merge_files_sorted added base :
  StronglySorted smallest_le added → StronglySorted smallest_le base →
  StronglySorted smallest_le (merge_files added base).
Proof.
  intros Ha. revert base. induction Ha as [|f added Ha IH Hf]; intros base Hb; cbn; [done|].
  destruct (upper_bound U f base) as [smaller rest] eqn:E.
  pose proof (upper_bound_spec _ _ _ _ Hb E) as [Hsm Hre]. apply upper_bound_split in E as ->.
  apply StronglySorted_app in Hb as (Hcross & Hs1 & Hs2). specialize (IH rest Hs2).
  assert (Forall (smallest_le f) (merge_files added rest)) as Hf'.
  { rewrite merge_files_perm. by apply Forall_app. }
  apply StronglySorted_app. split_and!; [|done|by constructor].
  intros x y Hx Hy. rewrite Forall_forall in Hsm, Hf'. apply elem_of_cons in Hy as [->|Hy]; [by apply Hsm|].
  apply smallest_le_trans with f; [by apply Hsm|by apply Hf'].
Qed.

Lemma FileSet_insert_elem f g s : g ∈ FileSet_insert U f s → g = f ∨ g ∈ s.
Proof.
  induction s as [|h s IH]; cbn; [rewrite list_elem_of_singleton; tauto|].
  repeat case_match; rewrite ?elem_of_cons; tauto || auto.
Qed.

Lemma FileSet_insert_perm f s : number f ∉ number <$> s → FileSet_insert U f s ≡ₚ f :: s.
Proof.
  induction s as [|h s IH]; intros Hni; cbn; [done|].
  rewrite fmap_cons, not_elem_of_cons in Hni. destruct Hni as [Hne Hni].
  case_match eqn:Hfh; [done|]. case_match eqn:Hhf; [rewrite IH by done; solve_Permutation|].
  exfalso. apply smallest_le_lex in Hfh, Hhf.
  pose proof (cmp_antisym (C := InternalKeyComparator U) (smallest f) (smallest h)).
  pose proof (cmp_antisym (C := InternalKeyComparator U) (smallest h) (smallest f)).
  cbn in *. lia.
Qed.

Lemma FileSet_insert_sorted f s :
  StronglySorted smallest_le s → StronglySorted smallest_le (FileSet_insert U f s).
Proof.
  induction 1 as [|h s Hs IH Hh]; cbn; [repeat constructor|].
  case_match eqn:Hfh; [|case_match eqn:Hhf]; [| |by constructor].
  - apply by_smallest_le in Hfh. constructor; [by constructor|]. constructor; [done|].
    eapply Forall_impl; [exact Hh|]. intros x. by apply smallest_le_trans.
  - constructor; [done|]. rewrite Forall_forall in *. intros x Hx.
    apply FileSet_insert_elem in Hx as [->|Hx]; [by apply by_smallest_le|by apply Hh].
Qed.

Lemma kept_sorted del fs : StronglySorted smallest_le fs → StronglySorted smallest_le (kept del fs).
Proof.
  intros Hs. induction Hs as [|f fs Hs IH Hf]; [constructor|]. rewrite kept_cons.
  case_decide; [done|]. cbn. constructor; [done|]. rewrite Forall_forall in *.
  intros g Hg. unfold kept in Hg. apply list_elem_of_fmap in Hg as (g' & -> & Hg).
  apply list_elem_of_filter in Hg as [_ Hg]. by apply Hf in Hg.
Qed.

(** *** Applying an edit to one level *)

Definition deleted_at (i : nat) (e : VersionEdit) : list Z :=
  snd <$> filter (λ d, Z.to_nat d.1 = i) (deleted_files_ e).

Definition new_at (i : nat) (e : VersionEdit) : list FileMetaData :=
  snd <$> filter (λ nf, Z.to_nat nf.1 = i) (new_files_ e).

Definition level_delete (l : LevelState) (n : Z) : LevelState :=
  mkLevelState (set_insert n (deleted_files l)) (added_files l).

Definition level_add (l : LevelState) (f : FileMetaData) : LevelState :=
  mkLevelState (set_erase (number f) (deleted_files l)) (FileSet_insert U (new_file f) (added_files l)).

Lemma foldl_Apply_deleted ds : ∀ b i,
  levels_ (foldl Apply_deleted b ds) !! i =
  (λ l, foldl level_delete l (snd <$> filter (λ d, Z.to_nat d.1 = i) ds)) <$> levels_ b !! i.
Proof.
  induction ds as [|d ds IH]; intros b i; cbn [foldl]; [by destruct (levels_ b !! i)|].
  rewrite IH, filter_cons. cbn [Apply_deleted levels_]. case_decide as Hi.
  - subst i. rewrite list_lookup_alter_eq. by destruct (levels_ b !! _).
  - by rewrite list_lookup_alter_ne.
Qed.

Lemma foldl_Apply_new_file nfs : ∀ b i,
  levels_ (foldl (Apply_new_file U) b nfs) !! i =
  (λ l, foldl level_add l (snd <$> filter (λ nf, Z.to_nat nf.1 = i) nfs)) <$> levels_ b !! i.
Proof.
  induction nfs as [|nf nfs IH]; intros b i; cbn [foldl]; [by destruct (levels_ b !! i)|].
  rewrite IH, filter_cons. cbn [Apply_new_file levels_]. case_decide as Hi.
  - subst i. rewrite list_lookup_alter_eq. by destruct (levels_ b !! _).
  - by rewrite list_lookup_alter_ne.
Qed.

Lemma Builder_Apply_lookup b e i :
  levels_ (Builder_Apply U b e) !! i =
  (λ l, foldl level_add (foldl level_delete l (deleted_at i e)) (new_at i e)) <$> levels_ b !! i.
Proof.
  unfold Builder_Apply. rewrite foldl_Apply_new_file, foldl_Apply_deleted. cbn.
  by destruct (levels_ b !! i).
Qed.

Lemma foldl_level_delete ns : ∀ l,
  added_files (foldl level_delete l ns) = added_files l
  ∧ ∀ n, n ∈ deleted_files (foldl level_delete l ns) ↔ n ∈ ns ∨ n ∈ deleted_files l.
Proof.
  induction ns as [|m ns IH]; intros l; cbn.
  - split; [done|]. intros n. rewrite elem_of_nil. tauto.
  - destruct (IH (level_delete l m)) as [-> Hd]. split; [done|]. intros n.
    rewrite Hd, elem_of_cons. cbn. rewrite set_insert_elem. tauto.
Qed.

Lemma foldl_level_add_deleted fs : ∀ l n,
  n ∈ deleted_files (foldl level_add l fs) ↔ n ∈ deleted_files l ∧ n ∉ number <$> fs.
Proof.
  induction fs as [|f fs IH]; intros l n; cbn.
  - rewrite elem_of_nil. tauto.
  - rewrite IH. cbn. unfold set_erase. rewrite list_elem_of_filter, not_elem_of_cons. tauto.
Qed.

Lemma foldl_level_add_elem fs : ∀ l g,
  g ∈ added_files (foldl level_add l fs) → g ∈ added_files l ∨ g ∈ new_file <$> fs.
Proof.
  induction fs as [|f fs IH]; intros l g Hg; cbn in *; [by left|].
  apply IH in Hg as [Hg|Hg]; [apply FileSet_insert_elem in Hg as [->|Hg]|]; rewrite elem_of_cons; auto.
Qed.

Lemma foldl_level_add_perm fs : ∀ l,
  NoDup (number <$> (fs ++ added_files l)) →
  added_files (foldl level_add l fs) ≡ₚ (new_file <$> fs) ++ added_files l.
Proof.
  induction fs as [|f fs IH]; intros l Hnd; cbn [foldl app fmap list_fmap]; [done|].
  cbn in Hnd. rewrite NoDup_cons in Hnd. destruct Hnd as [Hni Hnd].
  rewrite fmap_app, not_elem_of_app in Hni. destruct Hni as [Hni1 Hni2].
  assert (FileSet_insert U (new_file f) (added_files l) ≡ₚ new_file f :: added_files l) as Hins
    by by apply FileSet_insert_perm.
  rewrite IH; cbn [level_add added_files]; rewrite Hins; [solve_Permutation|].
  rewrite <- Permutation_middle. cbn. apply NoDup_cons. split; [|done].
  by rewrite fmap_app, not_elem_of_app.
Qed.

Lemma foldl_level_add_sorted fs : ∀ l,
  StronglySorted smallest_le (added_files l) →
  StronglySorted smallest_le (added_files (foldl level_add l fs)).
Proof.
  induction fs as [|f fs IH]; intros l Hl; cbn; [done|]. apply IH. by apply FileSet_insert_sorted.
Qed.

Lemma Builder_Apply_length b e : length (levels_ (Builder_Apply U b e)) = length (levels_ b).
Proof.
  apply Nat.le_antisymm.
  - apply Nat.nlt_ge. intros Hlt.
    destruct (lookup_lt_is_Some_2 (levels_ (Builder_Apply U b e)) (length (levels_ b))) as [l Hl]; [lia|].
    by rewrite Builder_Apply_lookup, lookup_ge_None_2 in Hl.
  - apply Nat.nlt_ge. intros Hlt.
    destruct (lookup_lt_is_Some_2 (levels_ b) (length (levels_ (Builder_Apply U b e)))) as [l Hl]; [lia|].
    pose proof (lookup_ge_None_2 (levels_ (Builder_Apply U b e)) (length (levels_ (Builder_Apply U b e))))
      as Hn. rewrite Builder_Apply_lookup, Hl in Hn. by specialize (Hn ltac:(lia)).
Qed.

Lemma Builder_Apply_update b e :
  builder_update_replica_locations_ (Builder_Apply U b e) = update_replica_locations_ e.
Proof.
  unfold Builder_Apply.
  assert (∀ ds b, builder_update_replica_locations_ (foldl Apply_deleted b ds)
                  = builder_update_replica_locations_ b) as Hd
    by (induction ds as [|d ds IH]; intros b'; cbn; [done|by rewrite IH]).
  assert (∀ fs b, builder_update_replica_locations_ (foldl (Apply_new_file U) b fs)
                  = builder_update_replica_locations_ b) as Hn
    by (induction fs as [|d fs IH]; intros b'; cbn; [done|by rewrite IH]).
  by rewrite Hn, Hd.
Qed.

Lemma saved_zip ls base : length ls = length base → saved ls base = zip_with saved_level ls base.
Proof.
  revert base. induction ls as [|l ls IH]; intros [|fs base] Hlen; try done.
  cbn. f_equal. apply IH. by injection Hlen.
Qed.

(** *** The invariant of versions *)

Definition l0_size (fs : list FileMetaData) : Z :=
  foldr Z.add 0 (file_size <$> filter (λ f, level f = 0) fs).

(** Files are well formed and in the order of their smallest keys, levels
    above 0 do not overlap, numbers are unique, and the map and the byte
    counter describe the files of the levels. *)
Record version_ok (v : Version) : Prop := {
  vo_wf : Forall (file_wf U) (concat (files_ v));
  vo_order : Forall (StronglySorted smallest_le) (files_ v);
  vo_levels i fs : files_ v !! i = Some fs → i ≠ 0%nat → level_sorted U fs;
  vo_numbers : NoDup (number <$> concat (files_ v));
  vo_map n f : fn_files_ v !! n = Some f ↔ f ∈ concat (files_ v) ∧ number f = n;
  vo_bytes : l0_bytes_ v = w64 (l0_size (concat (files_ v)))
}.

(** What callers of [LogAndApply] guarantee of an edit. *)
Record edit_applicable (levels : nat) (e : VersionEdit) : Prop := {
  ea_deleted : Forall (λ d, 0 <= d.1 < Z.of_nat levels) (deleted_files_ e);
  ea_new : Forall (λ nf, 0 <= nf.1 < Z.of_nat levels ∧ file_wf U nf.2) (new_files_ e);
  ea_idle : Forall (λ nf, compaction_status nf.2 ≠ COMPACTING) (new_files_ e);
  ea_numbers : NoDup (number <$> (new_files_ e).*2);
  ea_distinct d nf :
    d ∈ deleted_files_ e → nf ∈ new_files_ e → ¬ (d.1 = nf.1 ∧ d.2 = number nf.2);
  ea_not_replica : update_replica_locations_ e = false
}.

(** The levels an edit asks for: the files it does not delete and the new ones. *)
Definition edited_levels (base : Version) (e : VersionEdit) : list (list FileMetaData) :=
  imap (λ i fs, filter (λ f, number f ∉ deleted_at i e) fs ++ (new_file <$> new_at i e))
    (files_ base).

(** Such levels can be installed: numbers are unique, and above level 0 any
    two files are apart. *)
Definition installable (fss : list (list FileMetaData)) : Prop :=
  NoDup (number <$> concat fss)
  ∧ ∀ i fs f g, fss !! i = Some fs → i ≠ 0%nat → f ∈ fs → g ∈ fs →
      f = g ∨ before f g ∨ before g f.

Lemma add_bytes_w64 fs : ∀ l0, add_bytes (w64 l0) fs = w64 (l0 + l0_size fs).
Proof.
  unfold l0_size. induction fs as [|f fs IH]; intros l0; cbn [add_bytes foldl].
  - by rewrite Z.add_0_r.
  - rewrite filter_cons. case_decide; fold (add_bytes (w64 l0) fs); [|by rewrite IH].
    replace (w64 (w64 l0 + file_size f)) with (w64 (l0 + file_size f))
      by (unfold w64; by rewrite Zplus_mod_idemp_l).
    fold (add_bytes (w64 (l0 + file_size f)) fs). rewrite IH. cbn. f_equal. lia.
Qed.

Lemma file_before_trans f g h : file_wf U g → before f g → before g h → before f h.
Proof.
  intros (_ & _ & Hg) Hfg Hgh. unfold file_before in *.
  apply (cmp_lt_trans (C := InternalKeyComparator U) _ (smallest g)); [done|].
  by apply (cmp_le_lt_trans (C := InternalKeyComparator U) _ (largest g)).
Qed.

Lemma Sorted_before_strong fs :
  Forall (file_wf U) fs → Sorted before fs → StronglySorted before fs.
Proof.
  induction fs as [|f fs IH]; intros Hwf Hs; [constructor|].
  apply Forall_cons in Hwf as [Hf Hwf]. inversion Hs as [|?? Hs' Hh]; subst.
  constructor; [by apply IH|]. destruct fs as [|g fs]; [done|]. inversion Hh; subst.
  apply Forall_cons in Hwf as [Hg Hwf']. pose proof (IH ltac:(by constructor) Hs') as Hss.
  inversion Hss as [|?? _ Hgs]; subst. constructor; [done|].
  eapply Forall_impl; [exact Hgs|]. intros h. by apply file_before_trans.
Qed.

Lemma apart_Sorted fs :
  Forall (file_wf U) fs → StronglySorted smallest_le fs → NoDup (number <$> fs) →
  (∀ f g, f ∈ fs → g ∈ fs → f = g ∨ before f g ∨ before g f) →
  Sorted before fs.
Proof.
  intros Hwf Hs Hnd Hap. apply StronglySorted_Sorted.
  induction Hs as [|f fs Hs IH Hf]; [constructor|].
  apply Forall_cons in Hwf as [Hwf0 Hwf]. cbn in Hnd. apply NoDup_cons in Hnd as [Hni Hnd].
  constructor; [apply IH; [done..|intros; apply Hap; by right]|].
  rewrite Forall_forall in *. intros g Hg. specialize (Hf g Hg). specialize (Hwf g Hg) as (_ & _ & Hle).
  destruct (Hap f g ltac:(by left) ltac:(by right)) as [->|[Hb|Hb]]; [|done|].
  - exfalso. by apply Hni, list_elem_of_fmap_2.
  - exfalso. apply smallest_le_lex in Hf. unfold file_before in Hb.
    pose proof (cmp_le_lt_trans (C := InternalKeyComparator U) _ _ _ Hle Hb) as Hlt.
    apply (cmp_antisym (C := InternalKeyComparator U)) in Hlt. cbn in Hlt. lia.
Qed.

(** *** One level of the applied edit *)

Abbreviation applied base e := (Builder_Apply U (Builder_init (length (files_ base))) e).

Lemma applied_lookup base e i l :
  levels_ (applied base e) !! i = Some l →
  added_files l = added_files (foldl level_add (mkLevelState [] []) (new_at i e))
  ∧ StronglySorted smallest_le (added_files l)
  ∧ (∀ g, g ∈ added_files l → g ∈ new_file <$> new_at i e)
  ∧ ∀ n, n ∈ deleted_files l ↔ n ∈ deleted_at i e ∧ n ∉ number <$> new_at i e.
Proof.
  rewrite Builder_Apply_lookup. cbn [Builder_init levels_]. intros (l0 & Hl0 & Hl)%fmap_Some.
  apply lookup_replicate in Hl0 as [-> _]. subst l.
  destruct (foldl_level_delete (deleted_at i e) (mkLevelState [] [])) as [Ha Hd].
  set (l1 := foldl level_delete _ _) in *. cbn in Ha.
  assert (∀ fs l1 l2, added_files l1 = added_files l2 →
    added_files (foldl level_add l1 fs) = added_files (foldl level_add l2 fs)) as Hext.
  { induction fs as [|f fs IH]; intros l2 l3 Heq; cbn; [done|]. apply IH. cbn. by rewrite Heq. }
  split_and!.
  - by apply Hext.
  - apply foldl_level_add_sorted. rewrite Ha. constructor.
  - intros g Hg. apply foldl_level_add_elem in Hg as [Hg|Hg]; [|done]. rewrite Ha in Hg.
    by apply elem_of_nil in Hg.
  - intros n. rewrite foldl_level_add_deleted, Hd. cbn. rewrite elem_of_nil. tauto.
Qed.

Lemma new_at_elem i e f : f ∈ new_at i e → ∃ nf, nf ∈ new_files_ e ∧ nf.2 = f ∧ Z.to_nat nf.1 = i.
Proof.
  unfold new_at. intros (nf & -> & Hnf)%list_elem_of_fmap. apply list_elem_of_filter in Hnf as [? ?].
  by exists nf.
Qed.

Lemma new_at_numbers i e : NoDup (number <$> (new_files_ e).*2) → NoDup (number <$> new_at i e).
Proof.
  unfold new_at. induction (new_files_ e) as [|nf nfs IH]; intros Hnd; [done|].
  cbn in Hnd. apply NoDup_cons in Hnd as [Hni Hnd]. rewrite filter_cons. case_decide; [|by apply IH].
  cbn. apply NoDup_cons. split; [|by apply IH]. contradict Hni.
  apply list_elem_of_fmap in Hni as (f & -> & Hf). apply list_elem_of_fmap in Hf as (x & -> & Hx).
  apply list_elem_of_filter in Hx as [_ Hx]. by apply list_elem_of_fmap_2, list_elem_of_fmap_2.
Qed.

Lemma saved_elem l base f : f ∈ saved_level l base →
  ∃ g, f = incr_refs g ∧ (g ∈ added_files l ∨ g ∈ base).
Proof.
  unfold saved_level, kept. intros (g & -> & Hg)%list_elem_of_fmap. exists g. split; [done|].
  apply list_elem_of_filter in Hg as [_ Hg]. rewrite merge_files_perm in Hg. by apply elem_of_app.
Qed.

Lemma saved_level_order l base :
  StronglySorted smallest_le (added_files l) → StronglySorted smallest_le base →
  StronglySorted smallest_le (saved_level l base).
Proof. intros ??. by apply kept_sorted, merge_files_sorted. Qed.

(** What a level holds, when the edit does not delete a file it adds there. *)
Lemma saved_level_content base e i l fs :
  edit_applicable (length (files_ base)) e → levels_ (applied base e) !! i = Some l →
  saved_level l fs ≡ₚ
    incr_refs <$> (filter (λ f, number f ∉ deleted_at i e) fs ++ (new_file <$> new_at i e)).
Proof.
  intros He Hl. apply applied_lookup in Hl as (Ha & _ & _ & Hd).
  assert (∀ n, n ∈ deleted_files l ↔ n ∈ deleted_at i e) as Hd'.
  { intros n. rewrite Hd. split; [tauto|]. intros Hn. split; [done|]. intros Hin.
    apply list_elem_of_fmap in Hin as (f & -> & Hf). apply new_at_elem in Hf as (nf & Hnf & <- & Hi).
    unfold deleted_at in Hn. apply list_elem_of_fmap in Hn as (d & Hdn & Hdin).
    apply list_elem_of_filter in Hdin as [Hdi Hdin]. apply (ea_distinct _ _ He d nf Hdin Hnf).
    pose proof (ea_deleted _ _ He) as H1. pose proof (ea_new _ _ He) as H2.
    rewrite Forall_forall in H1. rewrite Forall_forall in H2. specialize (H1 d Hdin). destruct (H2 nf Hnf) as [H3 _]. lia. }
  unfold saved_level, kept. apply fmap_Permutation. rewrite merge_files_perm, filter_app, Ha.
  rewrite foldl_level_add_perm by (cbn; rewrite app_nil_r; by apply new_at_numbers, (ea_numbers _ _ He)).
  cbn [added_files]. rewrite app_nil_r, (Permutation_app_comm (filter _ (new_file <$> _))).
  apply Permutation_app.
  - rewrite (list_filter_iff _ (λ f, number f ∉ deleted_at i e)); [done|]. intros f. by rewrite Hd'.
  - rewrite filter_all; [done|]. apply Forall_forall. intros f Hf.
    rewrite Hd. intros [_ Hni]. apply Hni. apply list_elem_of_fmap in Hf as (g & -> & Hg).
    change (number (new_file g)) with (number g). by apply list_elem_of_fmap_2.
Qed.

(** *** The levels of the new version *)

Abbreviation new_levels base e := (saved (levels_ (applied base e)) (files_ base)).

Lemma applied_length base e : length (levels_ (applied base e)) = length (files_ base).
Proof. by rewrite Builder_Apply_length; cbn; rewrite length_replicate. Qed.

Lemma new_levels_lookup base e i fs :
  new_levels base e !! i = Some fs ↔
  ∃ l b, levels_ (applied base e) !! i = Some l ∧ files_ base !! i = Some b ∧ fs = saved_level l b.
Proof.
  rewrite saved_zip by apply applied_length. rewrite lookup_zip_with_Some. naive_solver.
Qed.

Lemma new_levels_length base e : length (new_levels base e) = length (files_ base).
Proof. rewrite saved_zip, length_zip_with, applied_length by apply applied_length. lia. Qed.

Lemma LogAndApply_iff base e id v :
  update_replica_locations_ e = false →
  LogAndApply_version U base e id = Ret v ↔
  Forall not_compacting (levels_ (applied base e))
  ∧ (∀ i fs, new_levels base e !! i = Some fs → i ≠ 0%nat → Sorted before fs)
  ∧ NoDup (number <$> concat (new_levels base e))
  ∧ v = mkVersion (new_levels base e) (insert_all ∅ (concat (new_levels base e)))
          (w64 (l0_size (concat (new_levels base e)))) id.
Proof.
  intros He. unfold LogAndApply_version, Builder_SaveTo. rewrite res_bind_Ret.
  change 0 with (w64 0) at 1.
  rewrite <- (Z.add_0_l (l0_size _)), <- add_bytes_w64. split.
  - intros ([[fss fn] l0] & Hr & Hv). apply SaveTo_levels_iff in Hr; [|by rewrite Builder_Apply_update].
    destruct Hr as (? & ? & ? & _ & [= -> -> ->]). by injection Hv as <-.
  - intros (Hc & Hs & Hnd & ->). eexists (_, _, _). split; [|done].
    apply SaveTo_levels_iff; [by rewrite Builder_Apply_update|]. split_and!; try done.
    apply Forall_forall. intros f _. apply lookup_empty.
Qed.

Lemma concat_elem {A} (x : A) (ls : list (list A)) :
  x ∈ concat ls ↔ ∃ i l, ls !! i = Some l ∧ x ∈ l.
Proof.
  rewrite list_elem_of_In, in_concat. setoid_rewrite <- list_elem_of_In.
  setoid_rewrite list_elem_of_lookup at 1. naive_solver.
Qed.

Lemma new_levels_wf base e :
  version_ok base → edit_applicable (length (files_ base)) e →
  Forall (file_wf U) (concat (new_levels base e)).
Proof.
  intros Hb He. apply Forall_forall. intros f Hf. apply concat_elem in Hf as (i & fs & Hfs & Hf).
  apply new_levels_lookup in Hfs as (l & b & Hl & Hb' & ->).
  apply saved_elem in Hf as (g & -> & [Hg|Hg]).
  - apply applied_lookup in Hl as (_ & _ & Hin & _). apply Hin in Hg.
    apply list_elem_of_fmap in Hg as (g' & -> & Hg). apply new_at_elem in Hg as (nf & Hnf & <- & _).
    pose proof (ea_new _ _ He) as Hn. rewrite Forall_forall in Hn. by apply Hn in Hnf as [_ ?].
  - pose proof (vo_wf _ Hb) as Hwf. rewrite Forall_forall in Hwf. apply (Hwf g).
    apply concat_elem. by eauto.
Qed.

Lemma new_levels_order base e :
  version_ok base → Forall (StronglySorted smallest_le) (new_levels base e).
Proof.
  intros Hb. apply Forall_lookup. intros i fs Hfs.
  apply new_levels_lookup in Hfs as (l & b & Hl & Hb' & ->). apply saved_level_order.
  - by apply applied_lookup in Hl as (_ & ? & _).
  - pose proof (vo_order _ Hb) as Ho. rewrite Forall_lookup in Ho. by apply (Ho i).
Qed.

(** Levels that passed the checks of [SaveTo] make a consistent version. *)
Lemma saved_version_ok fss id :
  Forall (file_wf U) (concat fss) → Forall (StronglySorted smallest_le) fss →
  (∀ i fs, fss !! i = Some fs → i ≠ 0%nat → Sorted before fs) → NoDup (number <$> concat fss) →
  version_ok (mkVersion fss (insert_all ∅ (concat fss)) (w64 (l0_size (concat fss))) id).
Proof.
  intros Hwf Ho Hs Hnd. split; cbn [files_ fn_files_ l0_bytes_]; try done.
  - intros i fs Hfs Hi.
    assert (Forall (file_wf U) fs) as Hwf'.
    { rewrite Forall_forall in *. intros f Hf. apply Hwf, concat_elem. by eauto. }
    split; [done|]. apply Sorted_before_strong; [done|]. by apply (Hs i).
  - intros n f. rewrite insert_all_lookup; [|done|].
    + rewrite lookup_empty. naive_solver.
    + apply Forall_forall. intros g _. apply lookup_empty.
Qed.

Lemma LogAndApply_ok base e id v :
  version_ok base → edit_applicable (length (files_ base)) e →
  LogAndApply_version U base e id = Ret v → version_ok v.
Proof.
  intros Hb He Hv. apply LogAndApply_iff in Hv as (_ & Hs & Hnd & ->); [|apply (ea_not_replica _ _ He)].
  apply saved_version_ok; [by apply new_levels_wf|by apply new_levels_order|done..].
Qed.

(** The new levels are those the edit asks for. *)
Lemma new_levels_content base e :
  edit_applicable (length (files_ base)) e →
  Forall2 (λ fs gs, fs ≡ₚ incr_refs <$> gs) (new_levels base e) (edited_levels base e).
Proof.
  intros He. apply Forall2_same_length_lookup. split.
  - unfold edited_levels. by rewrite new_levels_length, length_imap.
  - intros i fs gs Hfs Hgs. apply new_levels_lookup in Hfs as (l & b & Hl & Hb & ->).
    unfold edited_levels in Hgs. rewrite list_lookup_imap, Hb in Hgs. injection Hgs as <-.
    by apply (saved_level_content base).
Qed.

Lemma new_levels_numbers base e :
  edit_applicable (length (files_ base)) e →
  number <$> concat (new_levels base e) ≡ₚ number <$> concat (edited_levels base e).
Proof.
  intros He. pose proof (new_levels_content base e He) as Hc. induction Hc as [|fs gs fss gss Hfs _ IH]; [done|].
  cbn. rewrite !fmap_app, IH, Hfs, <- list_fmap_compose. done.
Qed.

Lemma new_levels_sorted_iff base e :
  version_ok base → edit_applicable (length (files_ base)) e →
  NoDup (number <$> concat (new_levels base e)) →
  (∀ i fs, new_levels base e !! i = Some fs → i ≠ 0%nat → Sorted before fs) ↔
  (∀ i fs f g, edited_levels base e !! i = Some fs → i ≠ 0%nat → f ∈ fs → g ∈ fs →
     f = g ∨ before f g ∨ before g f).
Proof.
  intros Hb He Hnd. pose proof (new_levels_content base e He) as Hc.
  pose proof (new_levels_wf base e Hb He) as Hwf.
  assert (∀ i fs, new_levels base e !! i = Some fs → Forall (file_wf U) fs ∧ NoDup (number <$> fs)) as Hlv.
  { intros i fs Hfs. split.
    - rewrite Forall_forall in *. intros f Hf. apply Hwf, concat_elem. by eauto.
    - rewrite <- (take_drop_middle _ _ _ Hfs), concat_app, fmap_app in Hnd.
      apply NoDup_app in Hnd as (_ & _ & Hnd). cbn in Hnd. rewrite fmap_app in Hnd.
      by apply NoDup_app in Hnd as (? & _ & _). }
  split; intros Hs i fs.
  - intros f g Hgs Hi Hf Hg. destruct (Forall2_lookup_r _ _ _ _ _ Hc Hgs) as (fs' & Hfs & Hperm).
    destruct (Hlv i fs' Hfs) as [Hwf' _].
    apply list_elem_of_fmap_2 with (f := incr_refs) in Hf, Hg. rewrite <- Hperm in Hf, Hg.
    apply list_elem_of_lookup in Hf as (j & Hj). apply list_elem_of_lookup in Hg as (k & Hk).
    assert (level_sorted U fs') as Hlvl.
    { split; [done|]. apply Sorted_before_strong; [done|]. by apply (Hs i). }
    destruct (lt_eq_lt_dec j k) as [[Hjk| ->]|Hjk].
    + right. left. apply (level_sorted_lookup U _ _ _ _ _ Hlvl Hjk Hj Hk).
    + left. rewrite Hj in Hk. injection Hk. destruct f, g. cbn. intros. f_equal; lia || done.
    + right. right. apply (level_sorted_lookup U _ _ _ _ _ Hlvl Hjk Hk Hj).
  - intros Hfs Hi. destruct (Forall2_lookup_l _ _ _ _ _ Hc Hfs) as (gs & Hgs & Hperm).
    destruct (Hlv i fs Hfs) as [Hwf' Hnd']. apply apart_Sorted; [done| |done|].
    + pose proof (new_levels_order base e Hb) as Ho. rewrite Forall_lookup in Ho. by apply (Ho i).
    + intros f g. rewrite Hperm, !list_elem_of_fmap. intros (f' & -> & Hf) (g' & -> & Hg).
      destruct (Hs i gs f' g' Hgs Hi Hf Hg) as [->|?]; by auto.
Qed.

Lemma not_compacting_applied base e :
  edit_applicable (length (files_ base)) e → Forall not_compacting (levels_ (applied base e)).
Proof.
  intros He. apply Forall_lookup. intros i l Hl. apply applied_lookup in Hl as (_ & _ & Hin & _).
  apply Forall_forall. intros f Hf. apply Hin in Hf. apply list_elem_of_fmap in Hf as (g & -> & Hg).
  apply new_at_elem in Hg as (nf & Hnf & <- & _). pose proof (ea_idle _ _ He) as Hi.
  rewrite Forall_forall in Hi. by apply (Hi nf).
Qed.
End proofs.

(** ** The theorems on edits *)

Lemma Version_init_ok U n id : version_ok U (Version_init n id).
Proof.
  assert (concat (replicate n (@nil FileMetaData)) = []) as Hc by (induction n; done).
  split; cbn [Version_init files_ fn_files_ l0_bytes_]; rewrite ?Hc.
  - constructor.
  - apply Forall_replicate. constructor.
  - intros i fs Hfs _. apply lookup_replicate in Hfs as [-> _]. split; constructor.
  - constructor.
  - intros k f. rewrite lookup_empty, elem_of_nil. naive_solver.
  - done.
Qed.


Definition example_add : VersionEdit :=
  foldl (λ e f, add_new_file e 1 f) VersionEdit_init example_level.

Lemma example_add_applicable : edit_applicable YCSBKeyComparator 2 example_add.
Proof.
  destruct example_level_sorted as [Hwf _]. split.
  - constructor.
  - cbn [example_add foldl add_new_file new_files_ VersionEdit_init app example_level] in *.
    repeat (apply Forall_cons in Hwf as [? Hwf]). repeat (constructor; [split; [cbn; lia|done]|]).
    constructor.
  - repeat constructor; done.
  - apply (bool_decide_unpack _). vm_compute. exact I.
  - intros d nf Hd. by apply elem_of_nil in Hd.
  - done.
Qed.

Definition example_version : Version :=
  match LogAndApply_version YCSBKeyComparator (Version_init 2 0) example_add 1 with
  | Ret v => v
  | _ => Version_init 2 0
  end.



Definition example_replace : VersionEdit :=
  add_new_file (DeleteFile VersionEdit_init 1 2) 1 (example_file 4 12 25 []).

Lemma example_replace_applicable : edit_applicable YCSBKeyComparator 2 example_replace.
Proof.
  split; cbn [example_replace new_files_ deleted_files_ add_new_file DeleteFile VersionEdit_init app].
  - repeat constructor; cbn; lia.
  - constructor; [|constructor]. split; [cbn; lia|].
    split; [|split]; [eexists _, _, _; split; [|reflexivity]; seq_lit..|lit].
  - repeat constructor; done.
  - apply (bool_decide_unpack _). vm_compute. exact I.
  - intros d nf ->%list_elem_of_singleton ->%list_elem_of_singleton. vm_compute. lia.
  - done.
Qed.

