(* ===== verification/VersionSet.v ===== *)
(** * VersionSet: the versions of a database and their lifetime

    [AtomicVersion] and the parts of [VersionSet] that install, reference and
    free versions, from [db/version_set.cc] and [db/version_set.h].  A
    [Version *] is the id of the version: every version object gets a fresh id
    from [version_id_seq_].  The objects live in a heap, so that the use of a
    freed version is visible: it is [Abort], like a failed assertion.  The
    circular list of versions is the list of their ids in order. *)

From S2P Require Import Prelude Coding Comparator NovaCommon DbFormat Subrange FileMeta VersionEdit FileSearch VersionBuilder.

(** ** Version objects and their reference counts *)

Record VersionObj := mkObj { ob_version : Version; refs_ : Z }.

Abbreviation version_heap := (gmap Z VersionObj).

(** Dereferencing a pointer. *)
Definition deref (h : version_heap) (v : Z) : res VersionObj :=
  match h !! v with Some o => Ret o | None => Abort end.

(** [Version::Ref] and [Version::Unref]. *)
Definition Version_Ref (h : version_heap) (v : Z) : res version_heap :=
  o ← deref h v; Ret (<[v := mkObj (ob_version o) (refs_ o + 1)]> h).

Definition Version_Unref (h : version_heap) (v : Z) : res (version_heap * Z) :=
  o ← deref h v;
  if decide (refs_ o >= 1)
  then Ret (<[v := mkObj (ob_version o) (refs_ o - 1)]> h, w32 (refs_ o - 1))
  else Abort.

(** ** AtomicVersion *)

Record AtomicVersion := mkAtomic {
  version : option Z;
  deleted : bool;
  is_compacting : bool
}.

Definition AtomicVersion_init : AtomicVersion := mkAtomic None false false.

Definition SetVersion (h : version_heap) (a : AtomicVersion) (v : Z)
    : res (version_heap * AtomicVersion * unit) :=
  match version a with
  | Some _ => Abort
  | None => h ← Version_Ref h v; Ret (h, mkAtomic (Some v) (deleted a) (is_compacting a), tt)
  end.

Definition SetCompaction (h : version_heap) (a : AtomicVersion)
    : res (version_heap * AtomicVersion * bool) :=
  match version a with
  | None => Abort
  | Some v =>
      if deleted a then Abort
      else
        o ← deref h v;
        if decide (refs_ o >= 1)
        then Ret (h, mkAtomic (version a) (deleted a) true, bool_decide (refs_ o = 1))
        else Abort
  end.

Definition AtomicVersion_Ref (h : version_heap) (a : AtomicVersion)
    : res (version_heap * AtomicVersion * option Z) :=
  match version a with
  | Some v =>
      if negb (deleted a) && negb (is_compacting a)
      then h ← Version_Ref h v; Ret (h, a, Some v)
      else Ret (h, a, None)
  | None => Ret (h, a, None)
  end.

Definition AtomicVersion_Unref (h : version_heap) (a : AtomicVersion)
    : res (version_heap * AtomicVersion * unit) :=
  match version a with
  | Some v =>
      if deleted a then Ret (h, a, tt)
      else
        '(h, refs) ← Version_Unref h v;
        Ret (h, mkAtomic (version a) (if decide (refs <= 0) then true else deleted a)
                  (is_compacting a), tt)
  | None => Ret (h, a, tt)
  end.

(** ** VersionSet *)

Record VersionSet := mkVersionSet {
  vs_heap : version_heap;
  versions_ : list AtomicVersion;
  version_list : list Z;
  current_ : option Z;
  version_id_seq_ : Z;
  current_version_id_ : Z
}.

(** An operation on [versions_[id]], an array access. *)
Definition on_version {A} (s : VersionSet) (id : Z)
    (op : version_heap → AtomicVersion → res (version_heap * AtomicVersion * A))
    : res (VersionSet * A) :=
  match (if decide (0 <= id) then versions_ s !! Z.to_nat id else None) with
  | None => Abort
  | Some a =>
      '(h, a, x) ← op (vs_heap s) a;
      Ret (mkVersionSet h (<[Z.to_nat id := a]> (versions_ s)) (version_list s) (current_ s)
             (version_id_seq_ s) (current_version_id_ s), x)
  end.

(** [new Version(..., version_id_seq_.fetch_add(1), ...)], then filled in. *)
Definition new_Version (s : VersionSet) (v : Version) : VersionSet * Z :=
  (mkVersionSet (<[version_id_seq_ s := mkObj v 0]> (vs_heap s)) (versions_ s) (version_list s)
     (current_ s) (version_id_seq_ s + 1) (current_version_id_ s), version_id_seq_ s).

Definition AppendVersion (s : VersionSet) (v : Z) : res VersionSet :=
  o ← deref (vs_heap s) v;
  if decide (refs_ o = 0 ∧ current_ s ≠ Some v) then
    s ← match current_ s with
        | Some c => '(s, _) ← on_version s c AtomicVersion_Unref; Ret s
        | None => Ret s
        end;
    let s := mkVersionSet (vs_heap s) (versions_ s) (version_list s ++ [v]) (Some v)
               (version_id_seq_ s) (current_version_id_ s) in
    '(s, _) ← on_version s v (λ h a, SetVersion h a v);
    Ret (mkVersionSet (vs_heap s) (versions_ s) (version_list s) (current_ s)
           (version_id_seq_ s) v)
  else Abort.

(** The constructor: the head of the list takes the first id, and the first
    version is empty.  [slots] is the size [MAX_LIVE_MEMTABLES] of [versions_]. *)
Definition VersionSet_init (slots : Z) (levels : nat) : res VersionSet :=
  let s := mkVersionSet ∅ (replicate (Z.to_nat slots) AtomicVersion_init) [] None 1 0 in
  let '(s, v) := new_Version s (Version_init levels 1) in
  AppendVersion s v.

(** [Version::Destroy] and [delete]. *)
Definition Version_Destroy (s : VersionSet) (v : Z) : res VersionSet :=
  o ← deref (vs_heap s) v;
  if decide (refs_ o = 0)
  then Ret (mkVersionSet (delete v (vs_heap s)) (versions_ s) (filter (λ w, w ≠ v) (version_list s))
              (current_ s) (version_id_seq_ s) (current_version_id_ s))
  else Abort.

Fixpoint DeleteObsoleteVersions_loop (s : VersionSet) (vs : list Z) : res VersionSet :=
  match vs with
  | [] => Ret s
  | v :: vs =>
      _ ← deref (vs_heap s) v;
      match (if decide (0 <= v) then versions_ s !! Z.to_nat v else None) with
      | None => Abort
      | Some a =>
          s ← (if deleted a then Version_Destroy s v else Ret s);
          DeleteObsoleteVersions_loop s vs
      end
  end.

Definition DeleteObsoleteVersions (s : VersionSet) : res VersionSet :=
  DeleteObsoleteVersions_loop s (version_list s).

(** [AddLiveFiles(live, compacting_version_id)] with [live] empty. *)
Fixpoint AddLiveFiles_loop (s : VersionSet) (skip : Z) (vs : list Z) (live : list Z) : res (list Z) :=
  match vs with
  | [] => Ret live
  | v :: vs =>
      o ← deref (vs_heap s) v;
      if decide (v = skip) then AddLiveFiles_loop s skip vs live
      else AddLiveFiles_loop s skip vs
             (foldl (λ live f, set_insert (number f) live) live (concat (files_ (ob_version o))))
  end.

Definition AddLiveFiles (s : VersionSet) (compacting_version_id : Z) : res (list Z) :=
  AddLiveFiles_loop s compacting_version_id (version_list s) [].

(** ** The threads that use the versions

    [held] has an element for every reference a thread obtained from
    [AtomicVersion::Ref] and did not give back yet. *)

Record Sys := mkSys { sys : VersionSet; held : list Z }.

(** [int refs_] does not overflow. *)
Definition int_max : Z := 2 ^ 31 - 1.

Inductive step : Sys → Sys → Prop :=
  | step_install s s' held v :
      (let '(s1, id) := new_Version s v in AppendVersion s1 id) = Ret s' →
      step (mkSys s held) (mkSys s' held)
  | step_ref s s' held id v :
      size_of held + 1 < int_max →
      on_version s id AtomicVersion_Ref = Ret (s', Some v) →
      step (mkSys s held) (mkSys s' (v :: held))
  | step_ref_fail s s' held id :
      on_version s id AtomicVersion_Ref = Ret (s', None) →
      step (mkSys s held) (mkSys s' held)
  | step_unref s s' held1 held2 id :
      on_version s id AtomicVersion_Unref = Ret (s', tt) →
      step (mkSys s (held1 ++ id :: held2)) (mkSys s' (held1 ++ held2))
  | step_compaction s s' held id b :
      id ∈ held → on_version s id SetCompaction = Ret (s', b) →
      step (mkSys s held) (mkSys s' held)
  | step_delete s s' held :
      DeleteObsoleteVersions s = Ret s' → step (mkSys s held) (mkSys s' held).

(** The references to a version: those held, and the one of being current. *)
Definition held_refs (held : list Z) (id : Z) : Z := size_of (filter (λ v, v = id) held).

Definition ref_count (held : list Z) (current : option Z) (id : Z) : Z :=
  held_refs held id + (if decide (current = Some id) then 1 else 0).

Record sys_ok (S : Sys) : Prop := {
  so_list : NoDup (version_list (sys S));
  so_heap id : is_Some (vs_heap (sys S) !! id) ↔ id ∈ version_list (sys S);
  so_range id : id ∈ version_list (sys S) →
    1 <= id < version_id_seq_ (sys S) ∧ (Z.to_nat id < length (versions_ (sys S)))%nat;
  so_live id o a :
    vs_heap (sys S) !! id = Some o → versions_ (sys S) !! Z.to_nat id = Some a →
    version a = Some id ∧ refs_ o = ref_count (held S) (current_ (sys S)) id
    ∧ deleted a = bool_decide (refs_ o = 0);
  so_gone id a :
    id ∉ version_list (sys S) → 0 <= id → versions_ (sys S) !! Z.to_nat id = Some a →
    version a = None ∨ deleted a = true;
  so_new id a :
    version_id_seq_ (sys S) <= id → versions_ (sys S) !! Z.to_nat id = Some a →
    a = AtomicVersion_init;
  so_held : Forall (λ id, id ∈ version_list (sys S)) (held S);
  so_current c : current_ (sys S) = Some c → c ∈ version_list (sys S);
  so_int : size_of (held S) < int_max;
  so_seq : 1 <= version_id_seq_ (sys S)
}.

Lemma held_refs_cons v held id :
  held_refs (v :: held) id = held_refs held id + (if decide (v = id) then 1 else 0).
Proof. unfold held_refs. rewrite filter_cons. repeat case_decide; cbn [length]; try done; lia. Qed.

Lemma held_refs_middle h1 h2 v id :
  held_refs (h1 ++ v :: h2) id = held_refs (h1 ++ h2) id + (if decide (v = id) then 1 else 0).
Proof.
  unfold held_refs. rewrite !filter_app, filter_cons, !length_app.
  repeat case_decide; cbn [length]; try done; lia.
Qed.

Lemma held_refs_bound held id : 0 <= held_refs held id <= size_of held.
Proof. unfold held_refs. pose proof (length_filter (λ v, v = id) held). lia. Qed.

Lemma held_refs_pos held id : id ∈ held ↔ 1 <= held_refs held id.
Proof.
  induction held as [|v held IH]; [rewrite elem_of_nil; done|].
  rewrite held_refs_cons, elem_of_cons. pose proof (held_refs_bound held id).
  case_decide; naive_solver lia.
Qed.

Lemma ref_count_bound held current id :
  held_refs held id <= ref_count held current id <= held_refs held id + 1
  ∧ 0 <= ref_count held current id <= size_of held + 1.
Proof. unfold ref_count. pose proof (held_refs_bound held id). case_decide; lia. Qed.

(** The object and the slot of a version in the list. *)
Lemma sys_ok_lookup S id :
  sys_ok S → id ∈ version_list (sys S) →
  ∃ v comp,
    let r := ref_count (held S) (current_ (sys S)) id in
    vs_heap (sys S) !! id = Some (mkObj v r)
    ∧ versions_ (sys S) !! Z.to_nat id = Some (mkAtomic (Some id) (bool_decide (r = 0)) comp)
    ∧ 0 <= r <= int_max ∧ 0 <= id.
Proof.
  intros H Hid. destruct (proj2 (so_heap S H id) Hid) as [o Ho].
  destruct (so_range S H id Hid) as [Hr Hlen]. apply lookup_lt_is_Some in Hlen as [a Ha].
  destruct (so_live S H id o a Ho Ha) as (Hv & Hrefs & Hd).
  exists (ob_version o), (is_compacting a). destruct o as [v r], a as [ver del comp].
  cbn [ob_version refs_ version deleted is_compacting] in *. subst. cbn zeta.
  pose proof (ref_count_bound (held S) (current_ (sys S)) id). pose proof (so_int S H).
  split_and!; (done || lia).
Qed.

Lemma on_version_Ret {A} s id (op : version_heap → AtomicVersion → res (version_heap * AtomicVersion * A))
    a h' a' x :
  0 <= id → versions_ s !! Z.to_nat id = Some a → op (vs_heap s) a = Ret (h', a', x) →
  on_version s id op =
    Ret (mkVersionSet h' (<[Z.to_nat id := a']> (versions_ s)) (version_list s) (current_ s)
           (version_id_seq_ s) (current_version_id_ s), x).
Proof. intros Hid Ha Hop. unfold on_version. by rewrite decide_True, Ha, Hop by done. Qed.

(** Changing the references to one version in the list. *)
Lemma sys_ok_update S id v comp held' current' cid :
  sys_ok S → id ∈ version_list (sys S) →
  Forall (λ w, w ∈ version_list (sys S)) held' → size_of held' < int_max →
  (∀ c, current' = Some c → c ∈ version_list (sys S)) →
  (∀ w, w ≠ id → ref_count held' current' w = ref_count (held S) (current_ (sys S)) w) →
  let r := ref_count held' current' id in
  sys_ok (mkSys (mkVersionSet (<[id := mkObj v r]> (vs_heap (sys S)))
                   (<[Z.to_nat id := mkAtomic (Some id) (bool_decide (r = 0)) comp]> (versions_ (sys S)))
                   (version_list (sys S)) current' (version_id_seq_ (sys S)) cid) held').
Proof.
  intros H Hid Hheld Hint Hcur Hother r. destruct (so_range S H id Hid) as [Hr Hlen].
  assert (∀ w, 0 <= w → w ≠ id → Z.to_nat id ≠ Z.to_nat w) as Hne by lia.
  split; cbn [sys held vs_heap versions_ version_list current_ version_id_seq_].
  - apply (so_list S H).
  - intros w. destruct (decide (w = id)) as [->|Hw].
    + rewrite lookup_insert_eq. naive_solver.
    + rewrite lookup_insert_ne by done. apply (so_heap S H).
  - intros w Hw. rewrite length_insert. by apply (so_range S H).
  - intros w o a. destruct (decide (w = id)) as [->|Hw].
    + rewrite lookup_insert_eq, list_lookup_insert_eq by done. by intros [= <-] [= <-].
    + rewrite lookup_insert_ne by done. intros Ho.
      assert (0 <= w) by (pose proof (so_range S H w ltac:(by apply (so_heap S H); eauto)); lia).
      rewrite list_lookup_insert_ne by by apply Hne. intros Ha. rewrite Hother by done.
      by apply (so_live S H).
  - intros w a Hw Hw0. destruct (decide (w = id)) as [->|]; [done|].
    rewrite list_lookup_insert_ne by by apply Hne. by apply (so_gone S H).
  - intros w a Hw. rewrite list_lookup_insert_ne by (apply Hne; lia). by apply (so_new S H).
  - done.
  - exact Hcur.
  - done.
  - apply (so_seq S H).
Qed.

(** A new version becomes the current one, the previous one being released. *)
Lemma sys_ok_new S v cid :
  sys_ok S → current_ (sys S) = None →
  (Z.to_nat (version_id_seq_ (sys S)) < length (versions_ (sys S)))%nat →
  let id := version_id_seq_ (sys S) in
  sys_ok (mkSys (mkVersionSet (<[id := mkObj v 1]> (vs_heap (sys S)))
                   (<[Z.to_nat id := mkAtomic (Some id) false false]> (versions_ (sys S)))
                   (version_list (sys S) ++ [id]) (Some id) (id + 1) cid) (held S)).
Proof.
  intros H Hcur Hlen id. pose proof (so_seq S H) as Hseq.
  assert (id ∉ version_list (sys S)) as Hni by (intros Hin; apply (so_range S H) in Hin; lia).
  assert (∀ w, 0 <= w → w ≠ id → Z.to_nat id ≠ Z.to_nat w) as Hne by lia.
  assert (ref_count (held S) (Some id) id = 1) as Hid.
  { unfold ref_count. rewrite decide_True by done. pose proof (held_refs_bound (held S) id).
    destruct (decide (id ∈ held S)) as [Hin|Hin].
    - pose proof (so_held S H) as Hh. rewrite Forall_forall in Hh. by apply Hh in Hin.
    - rewrite held_refs_pos in Hin. lia. }
  split; cbn [sys held vs_heap versions_ version_list current_ version_id_seq_].
  - apply NoDup_app. split; [apply (so_list S H)|]. split; [|apply NoDup_singleton].
    intros w Hw ->%list_elem_of_singleton. done.
  - intros w. rewrite elem_of_app, list_elem_of_singleton. destruct (decide (w = id)) as [->|Hw].
    + rewrite lookup_insert_eq. naive_solver.
    + rewrite lookup_insert_ne, (so_heap S H) by done. tauto.
  - intros w. rewrite elem_of_app, list_elem_of_singleton, length_insert.
    intros [Hw| ->]; [|lia]. pose proof (so_range S H w Hw). lia.
  - intros w o a. destruct (decide (w = id)) as [->|Hw].
    + rewrite lookup_insert_eq, list_lookup_insert_eq by done. by intros [= <-] [= <-].
    + rewrite lookup_insert_ne by done. intros Ho.
      assert (0 <= w) by (pose proof (so_range S H w ltac:(by apply (so_heap S H); eauto)); lia).
      rewrite list_lookup_insert_ne by by apply Hne. intros Ha.
      destruct (so_live S H w o a Ho Ha) as (? & Hr & ?). split_and!; try done. rewrite Hr, Hcur.
      unfold ref_count. rewrite !decide_False by congruence. done.
  - intros w a. rewrite not_elem_of_app, list_elem_of_singleton. intros [Hw1 Hw2] Hw0.
    rewrite list_lookup_insert_ne by by apply Hne. by apply (so_gone S H).
  - intros w a Hw. rewrite list_lookup_insert_ne by (apply Hne; lia). apply (so_new S H w a). lia.
  - eapply Forall_impl; [apply (so_held S H)|]. intros w Hw. apply elem_of_app. by left.
  - intros c [= <-]. apply elem_of_app. right. by left.
  - apply (so_int S H).
  - lia.
Qed.

(** *** Every operation, from a consistent state *)

Lemma Ref_ok S id :
  sys_ok S → size_of (held S) + 1 < int_max → 0 <= id < size_of (versions_ (sys S)) →
  ∃ s' r, on_version (sys S) id AtomicVersion_Ref = Ret (s', r)
    ∧ match r with
      | Some v => v = id ∧ id ∈ version_list (sys S) ∧ sys_ok (mkSys s' (id :: held S))
      | None => sys_ok (mkSys s' (held S))
      end
    ∧ version_list s' = version_list (sys S).
Proof.
  intros H Hint Hid. assert (Z.to_nat id < length (versions_ (sys S)))%nat as Hlen by lia.
  apply lookup_lt_is_Some in Hlen as [a Ha].
  assert (∀ r, mkSys (mkVersionSet (vs_heap (sys S)) (<[Z.to_nat id := a]> (versions_ (sys S)))
    (version_list (sys S)) (current_ (sys S)) (version_id_seq_ (sys S)) (current_version_id_ (sys S)))
    r = mkSys (sys S) r) as Hsame.
  { intros r. rewrite list_insert_id by done. by destruct (sys S). }
  destruct (decide (id ∈ version_list (sys S))) as [Hin|Hni].
  - destruct (sys_ok_lookup S id H Hin) as (v & comp & Ho & Ha' & Hr & _).
    rewrite Ha in Ha'. injection Ha' as ->.
    destruct (bool_decide (ref_count (held S) (current_ (sys S)) id = 0) || comp) eqn:E.
    + eexists _, None. split; [eapply on_version_Ret; [lia|exact Ha|]|split; [|reflexivity]].
      * unfold AtomicVersion_Ref.
        cbn [version deleted is_compacting]. rewrite <- negb_orb, E. done.
      * rewrite Hsame. by destruct S.
    + apply orb_false_iff in E as [Ed ->]. eexists _, (Some id).
      split; [eapply on_version_Ret; [lia|exact Ha|]|split; [|reflexivity]].
      * unfold AtomicVersion_Ref, Version_Ref, deref.
        cbn [version deleted is_compacting]. rewrite Ed, Ho. done.
      * split_and!; [done..|].
        pose proof (sys_ok_update S id v false (id :: held S) (current_ (sys S))
          (current_version_id_ (sys S)) H Hin) as Hup.
        assert (ref_count (id :: held S) (current_ (sys S)) id
                = ref_count (held S) (current_ (sys S)) id + 1) as Hc.
        { unfold ref_count. rewrite held_refs_cons, decide_True by done. lia. }
        cbn zeta in Hup. rewrite Hc in Hup. cbn [ob_version refs_].
        rewrite bool_decide_eq_false in Ed.
        rewrite (bool_decide_eq_false_2 (_ + 1 = 0)) in Hup by lia.
        rewrite ?(bool_decide_eq_false_2 _ Ed). apply Hup.
        -- constructor; [done|apply (so_held S H)].
        -- cbn [length]. lia.
        -- apply (so_current S H).
        -- intros w Hw. unfold ref_count. rewrite held_refs_cons, (decide_False (P := id = w)) by done. lia.
  - eexists _, None. split; [eapply on_version_Ret; [lia|exact Ha|]|split; [|reflexivity]].
    + unfold AtomicVersion_Ref.
      destruct (so_gone S H id a Hni ltac:(lia) Ha) as [->| ->]; [done|]. by destruct (version a).
    + rewrite Hsame. by destruct S.
Qed.

Lemma AtomicVersion_Unref_compute h id v r comp :
  h !! id = Some (mkObj v r) → 1 <= r <= int_max →
  AtomicVersion_Unref h (mkAtomic (Some id) (bool_decide (r = 0)) comp) =
    Ret (<[id := mkObj v (r - 1)]> h, mkAtomic (Some id) (bool_decide (r - 1 = 0)) comp, tt).
Proof.
  intros Hh Hr. unfold AtomicVersion_Unref, Version_Unref, deref. cbn [version deleted is_compacting].
  rewrite (bool_decide_eq_false_2 (r = 0)), Hh by lia. cbn [mbind res_bind ob_version refs_].
  rewrite decide_True by lia. cbn.
  assert (w32 (r - 1) = r - 1) as -> by (unfold w32, int_max in *; rewrite Z.mod_small; lia).
  do 2 f_equal. case_decide; case_bool_decide; lia || done.
Qed.

Lemma Unref_ok S h1 h2 id :
  sys_ok S → held S = h1 ++ id :: h2 →
  ∃ s', on_version (sys S) id AtomicVersion_Unref = Ret (s', tt) ∧ sys_ok (mkSys s' (h1 ++ h2))
    ∧ version_list s' = version_list (sys S).
Proof.
  intros H Hheld. pose proof (so_held S H) as Hin. rewrite Hheld, Forall_app, Forall_cons in Hin.
  destruct Hin as (Hin1 & Hin & Hin2).
  destruct (sys_ok_lookup S id H Hin) as (v & comp & Ho & Ha & Hr & Hid).
  assert (∀ w, ref_count (held S) (current_ (sys S)) w
               = ref_count (h1 ++ h2) (current_ (sys S)) w + if decide (id = w) then 1 else 0) as Hc.
  { intros w. unfold ref_count. rewrite Hheld, held_refs_middle. lia. }
  pose proof (Hc id) as Hcid. rewrite (decide_True (P := id = id)) in Hcid by done.
  pose proof (ref_count_bound (h1 ++ h2) (current_ (sys S)) id).
  eexists. split; [|split].
  - eapply on_version_Ret; [lia|exact Ha|]. apply AtomicVersion_Unref_compute; [exact Ho|lia].
  - rewrite Hcid, Z.add_simpl_r. apply (sys_ok_update S id v comp (h1 ++ h2)); try done.
    + by apply Forall_app.
    + pose proof (so_int S H) as Hi. rewrite Hheld, length_app in Hi. rewrite length_app. cbn in Hi. lia.
    + apply (so_current S H).
    + intros w Hw. rewrite Hc, decide_False by done. lia.
  - done.
Qed.

Lemma SetCompaction_ok S id :
  sys_ok S → id ∈ held S →
  ∃ s', on_version (sys S) id SetCompaction
        = Ret (s', bool_decide (ref_count (held S) (current_ (sys S)) id = 1))
    ∧ sys_ok (mkSys s' (held S)) ∧ version_list s' = version_list (sys S)
    ∧ vs_heap s' = vs_heap (sys S) ∧ current_ s' = current_ (sys S)
    ∧ ∃ a, versions_ s' !! Z.to_nat id = Some a ∧ is_compacting a = true.
Proof.
  intros H Hheld. pose proof (so_held S H) as Hh. rewrite Forall_forall in Hh.
  pose proof (Hh id Hheld) as Hin.
  destruct (sys_ok_lookup S id H Hin) as (v & comp & Ho & Ha & Hr & Hid).
  pose proof (so_range S H id Hin) as [_ Hlen].
  assert (1 <= ref_count (held S) (current_ (sys S)) id) as Hpos.
  { apply held_refs_pos in Hheld. pose proof (ref_count_bound (held S) (current_ (sys S)) id). lia. }
  eexists. split; [|split_and!].
  - eapply on_version_Ret; [lia|exact Ha|]. unfold SetCompaction, deref. cbn [version deleted].
    rewrite (bool_decide_eq_false_2 (_ = 0)), Ho by lia. cbn [mbind res_bind refs_].
    by rewrite decide_True by lia.
  - pose proof (sys_ok_update S id v true (held S) (current_ (sys S)) (current_version_id_ (sys S)) H Hin) as Hup.
    cbn zeta in Hup. rewrite (bool_decide_eq_false_2 (_ = 0)) in Hup by lia.
    rewrite (insert_id (vs_heap (sys S))) in Hup by done.
    apply Hup; [apply (so_held S H)|apply (so_int S H)|apply (so_current S H)|done].
  - done.
  - done.
  - done.
  - eexists. cbn [versions_]. by rewrite list_lookup_insert_eq.
Qed.

Lemma AppendVersion_ok S v :
  sys_ok S → (Z.to_nat (version_id_seq_ (sys S)) < length (versions_ (sys S)))%nat →
  ∃ s', (let '(s1, id) := new_Version (sys S) v in AppendVersion s1 id) = Ret s'
    ∧ sys_ok (mkSys s' (held S)) ∧ current_ s' = Some (version_id_seq_ (sys S))
    ∧ version_list s' = version_list (sys S) ++ [version_id_seq_ (sys S)]
    ∧ vs_heap s' !! version_id_seq_ (sys S) = Some (mkObj v 1)
    ∧ versions_ s' !! Z.to_nat (version_id_seq_ (sys S))
      = Some (mkAtomic (Some (version_id_seq_ (sys S))) false false).
Proof.
  intros H Hlen. pose proof (so_seq S H) as Hseq. set (id := version_id_seq_ (sys S)) in *.
  assert (∀ w, w ∈ version_list (sys S) → w ≠ id) as Hfresh.
  { intros w Hw. apply (so_range S H) in Hw. lia. }
  assert (∃ a, versions_ (sys S) !! Z.to_nat id = Some a) as [a Ha] by by apply lookup_lt_is_Some.
  pose proof (so_new S H id a ltac:(lia) Ha) as ->.
  unfold new_Version, AppendVersion, deref. cbn [vs_heap current_]. fold id.
  rewrite lookup_insert_eq. cbn [mbind res_bind refs_].
  rewrite decide_True by (split; [done|]; intros Hc; by apply (so_current S H), Hfresh in Hc).
  destruct (current_ (sys S)) as [c|] eqn:Hcur.
  - pose proof (so_current S H c Hcur) as Hc. pose proof (Hfresh c Hc) as Hne.
    destruct (sys_ok_lookup S c H Hc) as (vc & comp & Ho & Hac & Hr & Hc0). rewrite Hcur in Ho, Hac, Hr.
    assert (ref_count (held S) (Some c) c = ref_count (held S) None c + 1) as Hcc.
    { unfold ref_count. rewrite decide_True, decide_False by done. lia. }
    pose proof (ref_count_bound (held S) None c).
    erewrite on_version_Ret; [|done|exact Hac|apply AtomicVersion_Unref_compute;
      [cbn [vs_heap]; rewrite lookup_insert_ne by done; exact Ho|lia]].
    cbn [mbind res_bind vs_heap versions_ version_list current_ version_id_seq_ current_version_id_].
    erewrite on_version_Ret; cbn [versions_ vs_heap version_list current_ version_id_seq_ current_version_id_];
      [|lia|rewrite list_lookup_insert_ne by lia; exact Ha|].
    2: { unfold SetVersion, Version_Ref, deref, AtomicVersion_init. cbn [version].
         rewrite lookup_insert_ne, lookup_insert_eq by done. cbn [mbind res_bind]. reflexivity. }
    cbn [mbind res_bind]. eexists. split; [reflexivity|].
    split_and!; [|done|done|cbn [vs_heap]; by rewrite lookup_insert_eq
      |cbn [versions_]; by rewrite list_lookup_insert_eq by by rewrite ?length_insert].
    rewrite (insert_insert_ne _ c id), insert_insert_eq by done.
    rewrite Hcc, Z.add_simpl_r.
    pose proof (sys_ok_update S c vc comp (held S) None (current_version_id_ (sys S)) H Hc) as Hup.
    assert (∀ w, w ≠ c → ref_count (held S) None w = ref_count (held S) (current_ (sys S)) w) as Hother.
    { intros w Hw. unfold ref_count. rewrite Hcur, !decide_False by congruence. done. }
    specialize (Hup (so_held S H) (so_int S H) ltac:(done) Hother).
    apply (sys_ok_new _ v id) in Hup; [exact Hup|done|cbn; by rewrite length_insert].
  - cbn [mbind res_bind vs_heap versions_ version_list current_ version_id_seq_ current_version_id_].
    erewrite on_version_Ret; cbn [versions_ vs_heap version_list current_ version_id_seq_ current_version_id_];
      [|lia|exact Ha|].
    2: { unfold SetVersion, Version_Ref, deref, AtomicVersion_init. cbn [version].
         rewrite lookup_insert_eq by done. cbn [mbind res_bind]. reflexivity. }
    cbn [mbind res_bind]. eexists. split; [reflexivity|].
    split_and!; [|done|done|cbn [vs_heap]; by rewrite lookup_insert_eq
      |cbn [versions_]; by rewrite list_lookup_insert_eq by by rewrite ?length_insert].
    rewrite insert_insert_eq. by apply (sys_ok_new S v id).
Qed.

Lemma Version_Destroy_ok S id :
  sys_ok S → id ∈ version_list (sys S) → ref_count (held S) (current_ (sys S)) id = 0 →
  ∃ s', Version_Destroy (sys S) id = Ret s' ∧ sys_ok (mkSys s' (held S))
    ∧ (∀ w, w ∈ version_list s' ↔ w ∈ version_list (sys S) ∧ w ≠ id)
    ∧ (∀ w, w ≠ id → vs_heap s' !! w = vs_heap (sys S) !! w)
    ∧ current_ s' = current_ (sys S).
Proof.
  intros H Hin H0. destruct (sys_ok_lookup S id H Hin) as (v & comp & Ho & Ha & _ & Hid).
  unfold Version_Destroy, deref. rewrite Ho. cbn [mbind res_bind refs_]. rewrite decide_True by done.
  eexists. split; [done|]. cbn [version_list vs_heap current_].
  assert (∀ w, w ∈ filter (λ w, w ≠ id) (version_list (sys S)) ↔ w ∈ version_list (sys S) ∧ w ≠ id) as Hl.
  { intros w. rewrite list_elem_of_filter. tauto. }
  split_and!; [|done|intros w Hw; by rewrite lookup_delete_ne|done].
  split; cbn [sys held vs_heap versions_ version_list current_ version_id_seq_].
  - apply NoDup_filter, (so_list S H).
  - intros w. rewrite Hl. destruct (decide (w = id)) as [->|Hw].
    + rewrite lookup_delete_eq. split; [by intros []|naive_solver].
    + rewrite lookup_delete_ne, (so_heap S H) by done. tauto.
  - intros w Hw. apply (so_range S H). by apply Hl.
  - intros w o a. destruct (decide (w = id)) as [->|Hw]; [by rewrite lookup_delete_eq|].
    rewrite lookup_delete_ne by done. apply (so_live S H).
  - intros w a Hw Hw0 Hwa. destruct (decide (w = id)) as [->|Hne].
    + rewrite Ha in Hwa. injection Hwa as <-. right. cbn [deleted]. by rewrite H0.
    + apply (so_gone S H w a); try done. contradict Hw. by apply Hl.
  - apply (so_new S H).
  - apply Forall_forall. intros w Hw. apply Hl. pose proof (so_held S H) as Hh.
    rewrite Forall_forall in Hh. split; [by apply Hh|]. intros ->. apply held_refs_pos in Hw.
    pose proof (ref_count_bound (held S) (current_ (sys S)) id). lia.
  - intros c Hc. apply Hl. split; [by apply (so_current S H)|]. intros ->.
    unfold ref_count in H0. rewrite decide_True in H0 by done.
    pose proof (held_refs_bound (held S) id). lia.
  - apply (so_int S H).
  - apply (so_seq S H).
Qed.

Lemma DeleteObsoleteVersions_loop_ok vs : ∀ S,
  sys_ok S → NoDup vs → Forall (λ w, w ∈ version_list (sys S)) vs →
  ∃ s', DeleteObsoleteVersions_loop (sys S) vs = Ret s' ∧ sys_ok (mkSys s' (held S))
    ∧ (∀ w, w ∈ version_list s' ↔ w ∈ version_list (sys S) ∧
         (w ∈ vs → ref_count (held S) (current_ (sys S)) w ≠ 0))
    ∧ (∀ w, w ∈ version_list s' → vs_heap s' !! w = vs_heap (sys S) !! w)
    ∧ current_ s' = current_ (sys S).
Proof.
  induction vs as [|v vs IH]; intros S H Hnd Hvs; cbn [DeleteObsoleteVersions_loop].
  - eexists. split; [done|]. split_and!; [by destruct S| |done|done].
    intros w. rewrite elem_of_nil. tauto.
  - apply NoDup_cons in Hnd as [Hni Hnd]. apply Forall_cons in Hvs as [Hv Hvs].
    destruct (sys_ok_lookup S v H Hv) as (ver & comp & Ho & Ha & Hr & Hid).
    unfold deref. rewrite Ho. cbn [mbind res_bind]. rewrite decide_True, Ha by done. cbn [deleted].
    rewrite Forall_forall in Hvs. case_bool_decide as H0; cbn [mbind res_bind].
    + destruct (Version_Destroy_ok S v H Hv H0) as (s1 & -> & H1 & Hl1 & Hh1 & Hc1).
      cbn [mbind res_bind].
      destruct (IH (mkSys s1 (held S)) H1 Hnd) as (s' & Hs' & H' & Hl' & Hh' & Hc').
      { apply Forall_forall. intros w Hw. apply Hl1. split; [by apply Hvs|]. by intros ->. }
      cbn [sys held] in *. exists s'. split_and!; [done..| | |congruence].
      * intros w. rewrite Hl', Hl1, Hc1, elem_of_cons. destruct (decide (w = v)) as [->|]; naive_solver.
      * intros w Hw. rewrite Hh' by done. apply Hh1. by apply Hl', proj1, Hl1 in Hw as [_ ?].
    + destruct (IH S H Hnd) as (s' & Hs' & H' & Hl' & Hh' & Hc'); [by apply Forall_forall|].
      exists s'. split_and!; try done. intros w. rewrite Hl', elem_of_cons.
      destruct (decide (w = v)) as [->|]; naive_solver.
Qed.

Lemma DeleteObsoleteVersions_ok S :
  sys_ok S →
  ∃ s', DeleteObsoleteVersions (sys S) = Ret s' ∧ sys_ok (mkSys s' (held S))
    ∧ (∀ w, w ∈ version_list s' ↔ w ∈ version_list (sys S) ∧ (w ∈ held S ∨ current_ (sys S) = Some w))
    ∧ (∀ w, w ∈ version_list s' → vs_heap s' !! w = vs_heap (sys S) !! w)
    ∧ current_ s' = current_ (sys S).
Proof.
  intros H. destruct (DeleteObsoleteVersions_loop_ok (version_list (sys S)) S H (so_list S H))
    as (s' & Hs' & H' & Hl & Hh & Hc); [by apply Forall_forall|].
  exists s'. split_and!; try done. intros w. rewrite Hl. unfold ref_count.
  pose proof (held_refs_bound (held S) w). rewrite (held_refs_pos (held S)). case_decide as Hcw.
  - split; [|split; [tauto|lia]]. intros [? _]. split; [done|by right].
  - split; intros [Hw Hx]; (split; [done|]); [left; specialize (Hx Hw); lia|].
    destruct Hx; [lia|done].
Qed.

Lemma on_version_inv {A} s id (op : version_heap → AtomicVersion → res (version_heap * AtomicVersion * A)) s' x :
  on_version s id op = Ret (s', x) →
  0 <= id < size_of (versions_ s)
  ∧ ∃ a h' a', versions_ s !! Z.to_nat id = Some a ∧ op (vs_heap s) a = Ret (h', a', x)
    ∧ s' = mkVersionSet h' (<[Z.to_nat id := a']> (versions_ s)) (version_list s) (current_ s)
             (version_id_seq_ s) (current_version_id_ s).
Proof.
  unfold on_version. case_decide; [|done]. destruct (versions_ s !! Z.to_nat id) as [a|] eqn:Ha; [|done].
  intros ([[h' a'] x'] & Hop & [= <- <-])%res_bind_Ret.
  apply lookup_lt_Some in Ha as Hlen. split; [lia|]. by exists a, h', a'.
Qed.

Lemma step_ok S S' : step S S' → sys_ok S → sys_ok S'.
Proof.
  destruct 1 as [s s' held v Hv|s s' held id v Hint Hv|s s' held id Hv|s s' h1 h2 id Hv|s s' held id b Hid Hv|s s' held Hv];
    intros H.
  - assert (Z.to_nat (version_id_seq_ s) < length (versions_ s))%nat as Hlen.
    { unfold new_Version, AppendVersion in Hv. apply res_bind_Ret in Hv as (o & _ & Hv).
      case_decide; [|done]. apply res_bind_Ret in Hv as (s1 & Hs1 & Hv).
      apply res_bind_Ret in Hv as ([s2 u] & Hv & _). apply on_version_inv in Hv as [Hv _].
      pose proof (so_seq _ H). cbn in *.
      assert (length (versions_ s1) = length (versions_ s)) as Hl; [|lia].
      destruct (current_ s); [|by injection Hs1 as <-].
      apply res_bind_Ret in Hs1 as ([s3 u'] & Hs1 & [= <-]).
      apply on_version_inv in Hs1 as (_ & ? & ? & ? & _ & _ & ->). cbn. by rewrite length_insert. }
    destruct (AppendVersion_ok _ v H Hlen) as (s2 & Heq & H' & _). cbn [sys] in *.
    rewrite Heq in Hv. by injection Hv as <-.
  - destruct (on_version_inv _ _ _ _ _ Hv) as [Hid _].
    destruct (Ref_ok _ id H Hint Hid) as (s2 & r & Heq & Hr & _). cbn [sys] in *.
    rewrite Heq in Hv. injection Hv as -> ->. by destruct Hr as (-> & _ & Hr).
  - destruct (on_version_inv _ _ _ _ _ Hv) as (Hid & a & h' & a' & Ha & Hop & ->).
    unfold AtomicVersion_Ref in Hop. destruct (version a); [case_match|].
    + by apply res_bind_Ret in Hop as (? & _ & ?).
    + injection Hop as <- <-. rewrite list_insert_id by done. by destruct s.
    + injection Hop as <- <-. rewrite list_insert_id by done. by destruct s.
  - destruct (Unref_ok _ h1 h2 id H eq_refl) as (s2 & Heq & H' & _). cbn [sys] in *.
    rewrite Heq in Hv. by injection Hv as <-.
  - destruct (SetCompaction_ok _ id H Hid) as (s2 & Heq & H' & _). cbn [sys VersionSet.held] in *.
    rewrite Heq in Hv. by injection Hv as <- _.
  - destruct (DeleteObsoleteVersions_ok _ H) as (s2 & Heq & H' & _). cbn [sys] in *.
    rewrite Heq in Hv. by injection Hv as <-.
Qed.

Lemma steps_ok S S' : rtc step S S' → sys_ok S → sys_ok S'.
Proof. induction 1; intros; [done|]. eauto using step_ok. Qed.

(** The states a database goes through, from its construction. *)
Definition reachable (slots : Z) (levels : nat) (S : Sys) : Prop :=
  ∃ s0, VersionSet_init slots levels = Ret s0 ∧ rtc step (mkSys s0 []) S.

Lemma VersionSet_init_ok slots levels :
  2 <= slots → ∃ s0, VersionSet_init slots levels = Ret s0 ∧ sys_ok (mkSys s0 []).
Proof.
  intros Hslots.
  set (s := mkVersionSet ∅ (replicate (Z.to_nat slots) AtomicVersion_init) [] None 1 0).
  assert (sys_ok (mkSys s [])) as H.
  { split; cbn [s sys held vs_heap versions_ version_list current_ version_id_seq_ length].
    - constructor.
    - intros id. rewrite lookup_empty, elem_of_nil. split; [by intros []|done].
    - intros id Hid. by apply elem_of_nil in Hid.
    - intros id o a Ho. by rewrite lookup_empty in Ho.
    - intros id a _ _ Ha. apply lookup_replicate in Ha as [-> _]. by left.
    - intros id a _ Ha. by apply lookup_replicate in Ha as [-> _].
    - constructor.
    - done.
    - done.
    - done. }
  destruct (AppendVersion_ok (mkSys s []) (Version_init levels 1) H) as (s0 & Hs0 & H0 & _).
  { cbn [sys s versions_ version_id_seq_]. rewrite length_replicate. lia. }
  exists s0. split; [exact Hs0|done].
Qed.

Lemma reachable_ok slots levels S : 2 <= slots → reachable slots levels S → sys_ok S.
Proof.
  intros Hslots (s0 & Hs0 & Hsteps). destruct (VersionSet_init_ok slots levels Hslots) as (s1 & Hs1 & H1).
  rewrite Hs0 in Hs1. injection Hs1 as <-. by apply (steps_ok _ _ Hsteps).
Qed.

Lemma AddLiveFiles_loop_spec s skip vs : ∀ live,
  Forall (λ v, is_Some (vs_heap s !! v)) vs →
  ∃ live', AddLiveFiles_loop s skip vs live = Ret live'
    ∧ ∀ n, n ∈ live' ↔ n ∈ live ∨ ∃ v o f, v ∈ vs ∧ v ≠ skip ∧ vs_heap s !! v = Some o
                          ∧ f ∈ concat (files_ (ob_version o)) ∧ number f = n.
Proof.
  assert (∀ fs live n, n ∈ foldl (λ live f, set_insert (number f) live) live fs ↔
    n ∈ live ∨ ∃ f : FileMetaData, f ∈ fs ∧ number f = n) as Hins.
  { induction fs as [|f fs IH]; intros live n; cbn.
    - setoid_rewrite elem_of_nil. naive_solver.
    - rewrite IH, set_insert_elem. setoid_rewrite elem_of_cons. naive_solver. }
  induction vs as [|v vs IH]; intros live Hall; cbn [AddLiveFiles_loop].
  - exists live. split; [done|]. intros n. setoid_rewrite elem_of_nil. naive_solver.
  - apply Forall_cons in Hall as [[o Ho] Hall]. unfold deref. rewrite Ho. cbn [mbind res_bind].
    case_decide as Hv;
      match goal with |- context [AddLiveFiles_loop s skip vs ?l] =>
        destruct (IH l Hall) as (live' & Hlive & Hspec) end;
      (exists live'; split; [exact Hlive|]); intros n; rewrite Hspec; setoid_rewrite elem_of_cons.
    + naive_solver.
    + rewrite Hins. naive_solver.
Qed.

Lemma AddLiveFiles_ok S skip :
  sys_ok S →
  ∃ live, AddLiveFiles (sys S) skip = Ret live
    ∧ ∀ n, n ∈ live ↔ ∃ v o f, v ∈ version_list (sys S) ∧ v ≠ skip ∧ vs_heap (sys S) !! v = Some o
                        ∧ f ∈ concat (files_ (ob_version o)) ∧ number f = n.
Proof.
  intros H. destruct (AddLiveFiles_loop_spec (sys S) skip (version_list (sys S)) [])
    as (live & Hlive & Hspec).
  - apply Forall_forall. intros v Hv. by apply (so_heap S H).
  - exists live. split; [exact Hlive|]. intros n. rewrite Hspec, elem_of_nil. tauto.
Qed.

(** *** After [SetCompaction] *)

(** No thread can obtain a new reference to the version. *)
Definition frozen (id : Z) (s : VersionSet) : Prop :=
  id < version_id_seq_ s ∧ current_ s ≠ Some id
  ∧ ∃ a, versions_ s !! Z.to_nat id = Some a ∧ is_compacting a = true.

Lemma on_version_frozen {A} (op : version_heap → AtomicVersion → res (version_heap * AtomicVersion * A))
    id s id' s' x :
  (∀ h a h' a' x, op h a = Ret (h', a', x) → is_compacting a = true → is_compacting a' = true) →
  on_version s id' op = Ret (s', x) → frozen id s → frozen id s'.
Proof.
  intros Hop Hv (Hseq & Hcur & a & Ha & Hcomp).
  apply on_version_inv in Hv as (Hid' & a0 & h' & a' & Ha0 & Hv & ->).
  split_and!; try done. cbn [versions_].
  destruct (decide (Z.to_nat id' = Z.to_nat id)) as [Heq|Hne].
  - rewrite Heq in *. rewrite list_lookup_insert_eq by by eapply lookup_lt_Some.
    exists a'. split; [done|]. apply (Hop _ _ _ _ _ Hv). congruence.
  - rewrite list_lookup_insert_ne by done. by exists a.
Qed.

Lemma Ref_compacting h a h' a' r :
  AtomicVersion_Ref h a = Ret (h', a', r) → is_compacting a = true → a' = a ∧ r = None.
Proof.
  unfold AtomicVersion_Ref. intros Hop Hc. rewrite Hc, andb_false_r in Hop.
  destruct (version a); by injection Hop as <- <- <-.
Qed.

Lemma Unref_compacting h a h' a' r :
  AtomicVersion_Unref h a = Ret (h', a', r) → is_compacting a = true → is_compacting a' = true.
Proof.
  unfold AtomicVersion_Unref. intros Hop Hc. destruct (version a); [|by injection Hop as <- <-].
  destruct (deleted a); [by injection Hop as <- <-|].
  apply res_bind_Ret in Hop as ([h2 refs] & _ & Hop). by injection Hop as <- <-.
Qed.

Lemma DeleteObsoleteVersions_loop_versions vs : ∀ s s',
  DeleteObsoleteVersions_loop s vs = Ret s' →
  versions_ s' = versions_ s ∧ version_id_seq_ s' = version_id_seq_ s ∧ current_ s' = current_ s.
Proof.
  induction vs as [|v vs IH]; intros s s'; cbn [DeleteObsoleteVersions_loop]; [by intros [= <-]|].
  intros (o & _ & H)%res_bind_Ret. case_match; [|done].
  apply res_bind_Ret in H as (s1 & Hs1 & H). apply IH in H as (-> & -> & ->).
  case_match; [|by injection Hs1 as <-]. unfold Version_Destroy in Hs1.
  apply res_bind_Ret in Hs1 as (? & _ & Hs1). case_decide; [|done]. by injection Hs1 as <-.
Qed.

(** A frozen version stays frozen and its references only decrease. *)
Lemma step_frozen id S S' :
  step S S' → sys_ok S → 0 <= id → frozen id (sys S) →
  frozen id (sys S') ∧ held_refs (held S') id <= held_refs (held S) id.
Proof.
  destruct 1 as [s s' held v Hv|s s' held i v Hint Hv|s s' held i Hv|s s' h1 h2 i Hv|s s' held i b Hid Hv|s s' held Hv];
    intros H Hid0 Hfr; cbn [sys VersionSet.held] in *.
  - split; [|done]. unfold new_Version, AppendVersion in Hv. apply res_bind_Ret in Hv as (o & _ & Hv).
    case_decide; [|done]. apply res_bind_Ret in Hv as (s1 & Hs1 & Hv).
    apply res_bind_Ret in Hv as ([s2 u] & Hv & [= <-]).
    assert (frozen id s1 ∧ version_id_seq_ s1 = version_id_seq_ s + 1) as [(H1 & H2 & H3) Hseq].
    { destruct Hfr as (H1 & H2 & H3). cbn [current_] in Hs1. destruct (current_ s) as [c|] eqn:Hc.
      - apply res_bind_Ret in Hs1 as ([s3 u'] & Hs1 & [= <-]). split.
        + apply (on_version_frozen _ id) in Hs1; [done|apply Unref_compacting|].
          split_and!; cbn; [lia|congruence|done].
        + by apply on_version_inv in Hs1 as (_ & ? & ? & ? & _ & _ & ->).
      - injection Hs1 as <-. split; [|done]. split_and!; cbn; [lia|congruence|done]. }
    destruct Hfr as (Hlt & _).
    apply (on_version_frozen _ id) in Hv; [by destruct Hv as (? & ? & ?)| |].
    + intros h a h' a' x Hop Hc. unfold SetVersion in Hop. destruct (version a); [done|].
      apply res_bind_Ret in Hop as (? & _ & Hop). by injection Hop as <- <-.
    + split_and!; cbn; [lia|intros [= Heq]; lia|done].
  - destruct (on_version_inv _ _ _ _ _ Hv) as (Hi & a & h' & a' & Ha & Hop & Hs').
    split; [revert Hv Hfr; apply on_version_frozen; intros; by apply Ref_compacting in H0 as [-> _]|].
    rewrite held_refs_cons, decide_False; [lia|]. intros ->.
    destruct (Ref_ok _ i H Hint Hi) as (s2 & r & Heq & Hr & _). cbn [sys] in *.
    rewrite Heq in Hv. injection Hv as -> ->. destruct Hr as [<- _].
    destruct Hfr as (_ & _ & a0 & Ha0 & Hc). rewrite Ha in Ha0. injection Ha0 as ->.
    by destruct (Ref_compacting _ _ _ _ _ Hop Hc) as [_ ?].
  - split; [|done]. revert Hv Hfr. apply on_version_frozen. intros. by apply Ref_compacting in H0 as [-> _].
  - split; [revert Hv Hfr; apply on_version_frozen, Unref_compacting|].
    rewrite held_refs_middle. case_decide; lia.
  - split; [|done]. revert Hv Hfr. apply on_version_frozen. intros h a h' a' x Hop Hc.
    unfold SetCompaction in Hop. destruct (version a); [|done]. destruct (deleted a); [done|].
    apply res_bind_Ret in Hop as (? & _ & Hop). case_decide; [|done]. by injection Hop as <- <-.
  - split; [|done]. apply DeleteObsoleteVersions_loop_versions in Hv as (Hv1 & Hv2 & Hv3).
    unfold frozen. by rewrite Hv1, Hv2, Hv3.
Qed.

Lemma steps_frozen id S S' :
  rtc step S S' → sys_ok S → 0 <= id → frozen id (sys S) →
  frozen id (sys S') ∧ held_refs (held S') id <= held_refs (held S) id.
Proof.
  induction 1 as [S|S S1 S' Hstep _ IH]; intros H Hid Hfr; [done|].
  destruct (step_frozen id S S1 Hstep H Hid Hfr) as [Hfr1 Hle].
  destruct (IH (step_ok _ _ Hstep H) Hid Hfr1). split; [done|lia].
Qed.

(** ** The theorems on versions *)

(** C22. In every reachable state the operations on versions are safe: a version
    some thread holds is still allocated, and no operation a thread may start
    (installing a version while ids last, [Ref], [Unref] of a reference it
    holds, [SetCompaction] of a version it holds, [DeleteObsoleteVersions])
    fails an assertion or touches a freed version. *)
Theorem versions_never_dangle slots levels S :
  2 <= slots → reachable slots levels S → size_of (held S) + 1 < int_max →
  (∀ id, id ∈ held S → ∃ o, vs_heap (sys S) !! id = Some o ∧ refs_ o >= 1)
  ∧ (∀ id, 0 <= id < size_of (versions_ (sys S)) →
       ∃ r, on_version (sys S) id AtomicVersion_Ref = Ret r)
  ∧ (∀ id, id ∈ held S → ∃ r, on_version (sys S) id AtomicVersion_Unref = Ret r)
  ∧ (∀ id, id ∈ held S → ∃ r, on_version (sys S) id SetCompaction = Ret r)
  ∧ (∃ s', DeleteObsoleteVersions (sys S) = Ret s')
  ∧ (version_id_seq_ (sys S) < size_of (versions_ (sys S)) →
     ∀ v, ∃ s', (let '(s1, id) := new_Version (sys S) v in AppendVersion s1 id) = Ret s').
Proof.
  intros Hslots Hreach Hint. apply reachable_ok in Hreach as H; [|done]. split_and!.
  - intros id Hid. pose proof (so_held S H) as Hh. rewrite Forall_forall in Hh.
    destruct (sys_ok_lookup S id H (Hh id Hid)) as (v & comp & Ho & _). eexists. split; [exact Ho|].
    apply held_refs_pos in Hid. pose proof (ref_count_bound (held S) (current_ (sys S)) id). cbn. lia.
  - intros id Hid. destruct (Ref_ok S id H Hint Hid) as (s' & r & -> & _). by eexists.
  - intros id Hid. apply list_elem_of_split in Hid as (h1 & h2 & Heq).
    destruct (Unref_ok S h1 h2 id H Heq) as (s' & -> & _). by eexists.
  - intros id Hid. destruct (SetCompaction_ok S id H Hid) as (s' & -> & _). by eexists.
  - destruct (DeleteObsoleteVersions_ok S H) as (s' & -> & _). by eexists.
  - intros Hlt v. destruct (AppendVersion_ok S v H) as (s' & -> & _); [|by eexists].
    pose proof (so_seq S H). lia.
Qed.

(** [DeleteObsoleteVersions] frees exactly the versions that are neither
    current nor held by a thread, and leaves the others as they were. *)
Lemma obsolete_versions_exact slots levels S :
  2 <= slots → reachable slots levels S →
  ∃ s', DeleteObsoleteVersions (sys S) = Ret s'
    ∧ (∀ id, is_Some (vs_heap s' !! id) ↔ id ∈ held S ∨ current_ (sys S) = Some id)
    ∧ (∀ id o, vs_heap s' !! id = Some o → vs_heap (sys S) !! id = Some o).
Proof.
  intros Hslots Hreach. apply reachable_ok in Hreach as H; [|done].
  destruct (DeleteObsoleteVersions_ok S H) as (s' & Hs' & H' & Hl & Hh & _). exists s'. split; [done|].
  pose proof (so_heap _ H') as Hheap. cbn [sys] in Hheap. split.
  - intros id. rewrite Hheap, Hl. split; [tauto|]. intros Hid. split; [|done].
    destruct Hid as [Hid|Hid]; [|by apply (so_current S H)].
    pose proof (so_held S H) as Hall. rewrite Forall_forall in Hall. by apply Hall.
  - intros id o Ho. rewrite <- Hh; [done|]. apply Hheap. by eexists.
Qed.

(** C23. Files of a version under compaction may be collected once
    [SetCompaction] succeeds: from then on nobody but the compaction thread
    refers to that version, whatever the threads do, and the live files that
    exclude it contain every file of every other version still allocated. *)
Theorem compaction_collects_safely slots levels S id s1 S2 :
  2 <= slots → reachable slots levels S → id ∈ held S → current_ (sys S) ≠ Some id →
  on_version (sys S) id SetCompaction = Ret (s1, true) →
  rtc step (mkSys s1 (held S)) S2 →
  held_refs (held S2) id <= 1
  ∧ ∃ live, AddLiveFiles (sys S2) id = Ret live
      ∧ ∀ j o f, j ≠ id → vs_heap (sys S2) !! j = Some o → f ∈ concat (files_ (ob_version o)) → number f ∈ live.
Proof.
  intros Hslots Hreach Hid Hcur Hset Hsteps. apply reachable_ok in Hreach as H; [|done].
  destruct (SetCompaction_ok S id H Hid) as (s1' & Heq & H1 & Hl & Hh & Hc & Ha).
  rewrite Hset in Heq. injection Heq as <- Hone. symmetry in Hone. apply bool_decide_eq_true in Hone.
  pose proof (so_held S H) as Hin. rewrite Forall_forall in Hin. specialize (Hin id Hid).
  apply (so_range S H) in Hin as [Hrange _].
  assert (version_id_seq_ s1 = version_id_seq_ (sys S)) as Hseq
    by by apply on_version_inv in Hset as (_ & ? & ? & ? & _ & _ & ->).
  destruct (steps_frozen id _ _ Hsteps H1) as [_ Hle]; [lia|split_and!; cbn; [lia|congruence|done]|].
  cbn [held] in Hle. pose proof (ref_count_bound (held S) (current_ (sys S)) id).
  split; [lia|]. pose proof (steps_ok _ _ Hsteps H1) as H2.
  destruct (AddLiveFiles_ok S2 id H2) as (live & Hlive & Hspec). exists live. split; [done|].
  intros j o f Hj Ho Hf. apply Hspec. exists j, o, f. split_and!; try done.
  apply (so_heap S2 H2). by eexists.
Qed.

(** A run: a thread takes the first version, and a second one is installed. *)
Definition from_Ret {A} (default : A) (r : res A) : A := match r with Ret x => x | _ => default end.

Definition no_versions : VersionSet := mkVersionSet ∅ [] [] None 0 0.

Definition run_start : VersionSet := from_Ret no_versions (VersionSet_init 4 2).

Definition run_ref : VersionSet :=
  (from_Ret (no_versions, None) (on_version run_start 1 AtomicVersion_Ref)).1.

Definition run_end : VersionSet :=
  from_Ret no_versions (let '(s, id) := new_Version run_ref example_version in AppendVersion s id).

Lemma run_end_reachable : reachable 4 2 (mkSys run_end [1]).
Proof.
  exists run_start. split; [vm_compute; reflexivity|].
  apply rtc_l with (mkSys run_ref [1]).
  - apply (step_ref _ _ _ 1); [vm_compute; reflexivity|vm_compute; reflexivity].
  - apply rtc_once, (step_install _ _ _ example_version). vm_compute. reflexivity.
Qed.

Lemma versions_never_dangle_witness :
  ∃ s', DeleteObsoleteVersions run_end = Ret s'.
Proof.
  destruct (versions_never_dangle 4 2 (mkSys run_end [1])) as (_ & _ & _ & _ & Hd & _).
  - lia.
  - apply run_end_reachable.
  - vm_compute. reflexivity.
  - exact Hd.
Defined.

Definition run_compacting : VersionSet :=
  (from_Ret (no_versions, false) (on_version run_end 1 SetCompaction)).1.

Lemma compaction_collects_safely_witness :
  ∃ live, on_version run_end 1 SetCompaction = Ret (run_compacting, true)
    ∧ AddLiveFiles run_compacting 1 = Ret live ∧ ∀ f, f ∈ example_level → number f ∈ live.
Proof.
  assert (on_version run_end 1 SetCompaction = Ret (run_compacting, true)) as E by (vm_compute; reflexivity).
  destruct (compaction_collects_safely 4 2 (mkSys run_end [1]) 1 run_compacting (mkSys run_compacting [1]))
    as (_ & live & Hl & Hf).
  - lia.
  - apply run_end_reachable.
  - by left.
  - assert (current_ run_end = Some 2) as Hc by (vm_compute; reflexivity). cbn [sys]. rewrite Hc. congruence.
  - exact E.
  - apply rtc_refl.
  - exists live. split; [done|]. split; [exact Hl|]. intros f Hin.
    apply (Hf 2 (mkObj example_version 1) (incr_refs (new_file f))); [done|vm_compute; reflexivity|].
    assert (concat (files_ example_version) = map (λ f, incr_refs (new_file f)) example_level) as Heq
      by (vm_compute; reflexivity).
    cbn [ob_version]. rewrite Heq.
    by apply (list_elem_of_fmap_2 (λ f, incr_refs (new_file f))).
Defined.
