(* ===== verification/Recovery.v ===== *)
(** * Recovery: the manifest and the version recovered from it

    [VersionSet::AppendChangesToManifest] writes every edit to the manifest;
    [VersionSet::Recover] reads the manifest back and rebuilds the version
    ([db/version_set.cc]). *)

From S2P Require Import Prelude Coding Comparator NovaCommon DbFormat Subrange FileMeta VersionEdit FileSearch VersionBuilder.

(** ** Writing the manifest *)

(** The manifest file, and the counter of the bytes written to it. *)
Record Manifest := mkManifest {
  manifest_content : bytes;
  current_manifest_file_size_ : Z
}.

(** [AppendChangesToManifest(edit, manifest_file, stoc_id)] with the values of
    [next_file_number_] and [last_sequence_]: [SyncAppend] adds the edit to the
    file unless the file would get too large. *)
Definition AppendChangesToManifest (manifest_file_size next_file_number last_sequence : Z)
    (m : Manifest) (edit : VersionEdit) : res Manifest :=
  let edit := SetLastSequence (SetNextFile edit next_file_number) last_sequence in
  edit_str ← VersionEdit_EncodeTo edit;
  let size := w32 (current_manifest_file_size_ m + size_of edit_str) in
  Ret (mkManifest
         (if decide (size < manifest_file_size) then manifest_content m ++ edit_str
          else manifest_content m) size).

(** ** Recovery *)

(** The local variables of [Recover]. *)
Record Recovered := mkRecovered {
  rc_builder : Builder;
  rc_next_file : Z;
  rc_last_sequence : Z;
  rc_subranges : list SubRange
}.

(** Every new subrange is stored in [subrange_edits] at its id. *)
Fixpoint store_subranges (out srs : list SubRange) : res (list SubRange) :=
  match srs with
  | [] => Ret out
  | sr :: srs =>
      if decide (0 <= decoded_subrange_id sr < size_of out)
      then store_subranges (<[Z.to_nat (decoded_subrange_id sr) := sr]> out) srs
      else Abort
  end.

(** What [Recover] keeps of a version: the memtable ids are cleared. *)
Definition clear_memtable_ids (f : FileMetaData) : FileMetaData := with_ids f [].

(** What [Recover] installs and sets. *)
Record RecoverResult := mkRecoverResult {
  rr_version : Version;
  rr_next_file_number : Z;
  rr_last_sequence : Z;
  rr_subranges : list SubRange;
  rr_manifest_file_size : Z
}.

Section recover.
Context (U : Comparator).
(** [NovaConfig::config->level]. *)
Context (config_level : Z).

(** The body of the loop after a successful decode. *)
Definition Recover_apply (r : Recovered) (edit : VersionEdit) : res Recovered :=
  let builder := Builder_Apply U (rc_builder r) edit in
  let next_file :=
    if has_next_file_number_ edit then Z.max (rc_next_file r) (next_file_number_ edit)
    else rc_next_file r in
  let last_sequence :=
    if has_last_sequence_ edit then Z.max (rc_last_sequence r) (last_sequence_ edit)
    else rc_last_sequence r in
  match new_subranges_ edit with
  | [] => Ret (mkRecovered builder next_file last_sequence (rc_subranges r))
  | srs =>
      out ← store_subranges (replicate (length srs) SubRange_init) srs;
      Ret (mkRecovered builder next_file last_sequence out)
  end.

(** [while (true)]: [None] when the loop is still running after [fuel] rounds,
    else the variables and the rest of the input. *)
Fixpoint Recover_loop (fuel : nat) (r : Recovered) (input : bytes) : option (res (Recovered * bytes)) :=
  match fuel with
  | O => None
  | S fuel =>
      match VersionEdit_DecodeFrom config_level VersionEdit_init input with
      | Ret (OK, edit, next) =>
          match Recover_apply r edit with
          | Ret r => Recover_loop fuel r next
          | _ => Some Abort
          end
      | Ret (Corruption _, _, next) => Some (Ret (r, next))
      | _ => Some Abort
      end
  end.

(** [VersionSet::Recover(record, subrange_edits)] with the current version;
    [version_id] is the id of the new version. *)
Definition Recover (fuel : nat) (current : Version) (version_id : Z) (record : bytes)
    : option (res RecoverResult) :=
  let r := mkRecovered (Builder_init (length (files_ current))) 0 0 [] in
  match Recover_loop fuel r record with
  | None => None
  | Some (Ret (r, next)) =>
      Some (v ← Builder_SaveTo U (rc_builder r) current version_id;
            Ret (mkRecoverResult
                   (mkVersion (map (map clear_memtable_ids) (files_ v))
                      (clear_memtable_ids <$> fn_files_ v) (l0_bytes_ v) (version_id_ v))
                   (rc_next_file r + 1) (rc_last_sequence r) (rc_subranges r)
                   (size_of record - size_of next)))
  | Some _ => Some Abort
  end.
End recover.

(** ** The rounds of the loop *)

Section rounds.
Context (U : Comparator) (config_level : Z).
Local Abbreviation loop := (Recover_loop U config_level).

(** An edit as it comes back from the manifest. *)
Abbreviation read_back e := (decoded_edit VersionEdit_init e).

(** One edit that was written to the manifest. *)
Definition apply_written (r : Recovered) (e : VersionEdit) : Recovered :=
  mkRecovered (Builder_Apply U (rc_builder r) (read_back e))
    (if has_next_file_number_ e then Z.max (rc_next_file r) (next_file_number_ e) else rc_next_file r)
    (if has_last_sequence_ e then Z.max (rc_last_sequence r) (last_sequence_ e) else rc_last_sequence r)
    (if decide (new_subranges_ e = []) then rc_subranges r else imap SubRange_persist (new_subranges_ e)).

Lemma store_subranges_indexed srs : ∀ pre,
  (∀ i sr, srs !! i = Some sr → decoded_subrange_id sr = Z.of_nat (length pre + i)) →
  store_subranges (pre ++ replicate (length srs) SubRange_init) srs = Ret (pre ++ srs).
Proof.
  induction srs as [|sr srs IH]; intros pre Hids; cbn [store_subranges length replicate]; [done|].
  pose proof (Hids 0%nat sr eq_refl) as Hid. rewrite Nat.add_0_r in Hid. rewrite Hid.
  rewrite decide_True by (rewrite length_app; cbn [length]; lia).
  rewrite Nat2Z.id, insert_app_r_alt, Nat.sub_diag by lia. cbn.
  rewrite (cons_middle sr pre), (cons_middle sr pre srs), !(app_assoc pre [sr]). apply IH. intros i sr' Hi.
  rewrite length_app. cbn. rewrite (Hids (S i) sr' Hi). lia.
Qed.

Lemma Recover_apply_written r e :
  Recover_apply U r (read_back e) = Ret (apply_written r e).
Proof.
  unfold Recover_apply, apply_written. cbn [new_subranges_ decoded_edit].
  destruct (new_subranges_ e) as [|sr srs] eqn:E.
  - cbn. by destruct (has_next_file_number_ e), (has_last_sequence_ e).
  - set (l := imap SubRange_persist (sr :: srs)).
    assert (store_subranges (replicate (length l) SubRange_init) l = Ret l) as Hst.
    { apply (store_subranges_indexed l []). intros i sr' Hi. unfold l in Hi.
      rewrite list_lookup_imap in Hi. apply fmap_Some in Hi as (x & _ & ->). done. }
    rewrite decide_False by done. change (imap SubRange_persist (sr :: srs)) with l.
    destruct l as [|x l'] eqn:El; [done|]. rewrite Hst. cbn.
    by destruct (has_next_file_number_ e), (has_last_sequence_ e).
Qed.

(** The encodings of the edits, one after the other. *)
Fixpoint encoded (es : list VersionEdit) : res bytes :=
  match es with
  | [] => Ret []
  | e :: es => bs ← VersionEdit_EncodeTo e; rest ← encoded es; Ret (bs ++ rest)
  end.

Definition edit_written (e : VersionEdit) : Prop := edit_ok config_level e ∧ has_comparator_ e = false.

Lemma Recover_loop_written es : ∀ r fuel,
  Forall edit_written es →
  ∃ bs, encoded es = Ret bs
    ∧ ∀ rest, loop (length es + fuel) r (bs ++ rest) = loop fuel (foldl apply_written r es) rest.
Proof.
  induction es as [|e es IH]; intros r fuel Hes; [by exists []|].
  apply Forall_cons in Hes as [[Hok Hc] Hes].
  destruct (IH (apply_written r e) fuel Hes) as (bs & Hbs & Hloop).
  destruct (version_edit_decode config_level VersionEdit_init e [] Hok Hc) as (b & Hb & _).
  exists (b ++ bs). cbn [encoded]. rewrite Hb. cbn [mbind res_bind]. rewrite Hbs. split; [done|].
  intros rest. cbn [length Nat.add Recover_loop]. rewrite <- app_assoc.
  destruct (version_edit_decode config_level VersionEdit_init e (bs ++ rest) Hok Hc) as (b' & Hb' & Hd).
  rewrite Hb in Hb'. injection Hb' as <-. rewrite Hd, Recover_apply_written. apply Hloop.
Qed.

(** A byte that is no tag, such as the zeros after the last edit, ends the loop. *)
Lemma Recover_loop_end fuel r rest : loop (S fuel) r (0 :: rest) = Some (Ret (r, rest)).
Proof. done. Qed.

(** At the exact end of the input the loop goes on forever. *)
Lemma Recover_loop_empty fuel : ∀ r, loop fuel r [] = None.
Proof.
  induction fuel as [|fuel IH]; intros r; [done|]. cbn [Recover_loop].
  unfold VersionEdit_DecodeFrom. cbn [length DecodeFrom_loop Recover_apply VersionEdit_Clear new_subranges_].
  apply IH.
Qed.
End rounds.

(** ** One builder for many edits *)

Section sequence.
Context (U : Comparator) {OU : ComparatorOrder U}.

(** A level after the edits, one after the other. *)
Definition edited_level (i : nat) (base : list FileMetaData) (es : list VersionEdit) : list FileMetaData :=
  foldl (λ fs e, filter (λ f, number f ∉ deleted_at i e) fs ++ (new_file <$> new_at i e)) base es.

(** The files ever added to a level. *)
Definition all_new (i : nat) (es : list VersionEdit) : list FileMetaData := es ≫= new_at i.

Definition level_apply (i : nat) (l : LevelState) (e : VersionEdit) : LevelState :=
  foldl (level_add U) (foldl level_delete l (deleted_at i e)) (new_at i e).

Lemma foldl_Builder_Apply_lookup es : ∀ b i,
  levels_ (foldl (Builder_Apply U) b es) !! i = (λ l, foldl (level_apply i) l es) <$> levels_ b !! i.
Proof.
  induction es as [|e es IH]; intros b i; cbn [foldl]; [by destruct (levels_ b !! i)|].
  rewrite IH, Builder_Apply_lookup. by destruct (levels_ b !! i).
Qed.

Lemma level_apply_added i l e :
  NoDup (number <$> (new_at i e ++ added_files l)) →
  added_files (level_apply i l e) ≡ₚ (new_file <$> new_at i e) ++ added_files l.
Proof.
  intros Hnd. unfold level_apply. destruct (foldl_level_delete (deleted_at i e) l) as [Ha _].
  rewrite <- Ha in *. by apply (foldl_level_add_perm U).
Qed.

Lemma level_apply_deleted i l e n :
  n ∈ deleted_files (level_apply i l e) ↔
  (n ∈ deleted_at i e ∨ n ∈ deleted_files l) ∧ n ∉ number <$> new_at i e.
Proof.
  unfold level_apply. rewrite foldl_level_add_deleted.
  destruct (foldl_level_delete (deleted_at i e) l) as [_ Hd]. by rewrite Hd.
Qed.

(** The files of a level state on top of [base] that are not deleted. *)
Definition level_content (l : LevelState) (base : list FileMetaData) : list FileMetaData :=
  filter (λ f, number f ∉ deleted_files l) (added_files l ++ base).

Lemma level_apply_content i l e base :
  NoDup (number <$> new_at i e) →
  (∀ f, f ∈ added_files l ++ base → number f ∉ number <$> new_at i e) →
  NoDup (number <$> added_files l) →
  level_content (level_apply i l e) base ≡ₚ
    filter (λ f, number f ∉ deleted_at i e) (level_content l base) ++ (new_file <$> new_at i e).
Proof.
  intros Hnd Hfresh Hndl.
  assert (NoDup (number <$> (new_at i e ++ added_files l))) as Hnd'.
  { rewrite fmap_app. apply NoDup_app. split_and!; try done. intros n Hn Hn'.
    apply list_elem_of_fmap in Hn' as (f & -> & Hf). apply (Hfresh f); [|done].
    apply elem_of_app. by left. }
  unfold level_content at 1. rewrite level_apply_added, <- app_assoc, filter_app by done.
  rewrite filter_all.
  - rewrite (Permutation_app_comm (new_file <$> _)). apply Permutation_app_tail.
    unfold level_content. rewrite list_filter_filter. apply reflexive_eq, filter_ext_in.
    intros f Hf. rewrite level_apply_deleted. specialize (Hfresh f Hf). tauto.
  - apply Forall_forall. intros f (g & -> & Hg)%list_elem_of_fmap. rewrite level_apply_deleted.
    intros [_ Hni]. apply Hni. change (number (new_file g)) with (number g). by apply list_elem_of_fmap_2.
Qed.

Lemma edited_level_perm i es : ∀ fs gs, fs ≡ₚ gs → edited_level i fs es ≡ₚ edited_level i gs es.
Proof.
  induction es as [|e es IH]; intros fs gs Hp; cbn; [done|]. apply IH. by rewrite Hp.
Qed.

Lemma foldl_level_apply_content i es : ∀ l base,
  NoDup (number <$> all_new i es) →
  (∀ f, f ∈ added_files l ++ base → number f ∉ number <$> all_new i es) →
  NoDup (number <$> added_files l) →
  level_content (foldl (level_apply i) l es) base ≡ₚ edited_level i (level_content l base) es.
Proof.
  induction es as [|e es IH]; intros l base Hnd Hfresh Hndl; cbn [foldl edited_level]; [done|].
  unfold all_new in *. cbn in Hnd, Hfresh. rewrite fmap_app in Hnd. apply NoDup_app in Hnd as (Hnd1 & Hdisj & Hnd2).
  setoid_rewrite fmap_app in Hfresh. setoid_rewrite not_elem_of_app in Hfresh.
  assert (NoDup (number <$> (new_at i e ++ added_files l))) as Hnd'.
  { rewrite fmap_app. apply NoDup_app. split_and!; try done. intros n Hn Hn'.
    apply list_elem_of_fmap in Hn' as (f & -> & Hf). destruct (Hfresh f); [|done].
    apply elem_of_app. by left. }
  pose proof (level_apply_added i l e Hnd') as Hadd.
  assert (number <$> (new_file <$> new_at i e) = number <$> new_at i e) as Hnum
    by (rewrite <- list_fmap_compose; done).
  rewrite IH; [| |intros f Hf|].
  - apply edited_level_perm, level_apply_content; [done|by intros f Hf; apply Hfresh|done].
  - done.
  - rewrite Hadd, <- app_assoc in Hf. apply elem_of_app in Hf as [Hf|Hf]; [|by apply Hfresh].
    intros Hin. apply (Hdisj (number f)); [|done]. rewrite <- Hnum. by apply list_elem_of_fmap_2.
  - rewrite Hadd, fmap_app, Hnum. by rewrite fmap_app in Hnd'.
Qed.

Lemma foldl_level_apply_sorted i es : ∀ l,
  StronglySorted (smallest_le U) (added_files l) →
  StronglySorted (smallest_le U) (added_files (foldl (level_apply i) l es)).
Proof.
  induction es as [|e es IH]; intros l Hs; cbn; [done|]. apply IH. unfold level_apply.
  apply (foldl_level_add_sorted U).
  by destruct (foldl_level_delete (deleted_at i e) l) as [-> _].
Qed.

Lemma saved_level_perm l base : saved_level U l base ≡ₚ incr_refs <$> level_content l base.
Proof.
  unfold saved_level, kept, level_content. apply fmap_Permutation. by rewrite merge_files_perm.
Qed.

Lemma foldl_Builder_Apply_length es : ∀ b,
  length (levels_ (foldl (Builder_Apply U) b es)) = length (levels_ b).
Proof. induction es as [|e es IH]; intros b; cbn; [done|]. by rewrite IH, Builder_Apply_length. Qed.

Lemma foldl_Builder_Apply_update es : ∀ b,
  Forall (λ e, update_replica_locations_ e = false) es → builder_update_replica_locations_ b = false →
  builder_update_replica_locations_ (foldl (Builder_Apply U) b es) = false.
Proof.
  induction es as [|e es IH]; intros b Hes Hb; cbn; [done|]. apply Forall_cons in Hes as [He Hes].
  apply IH; [done|]. by rewrite Builder_Apply_update.
Qed.

(** The files ever added to a level come from the edits. *)
Lemma foldl_level_apply_elem i es : ∀ l g,
  g ∈ added_files (foldl (level_apply i) l es) → g ∈ added_files l ∨ g ∈ new_file <$> all_new i es.
Proof.
  unfold all_new. induction es as [|e es IH]; intros l g Hg; cbn in *; [by left|].
  rewrite fmap_app, elem_of_app. apply IH in Hg as [Hg|Hg]; [|by right; right].
  unfold level_apply in Hg. apply foldl_level_add_elem in Hg as [Hg|Hg]; [|by right; left].
  left. by destruct (foldl_level_delete (deleted_at i e) l) as [<- _].
Qed.
End sequence.

(** ** The recovered version *)

(** The files of a level after the edits of the manifest. *)
Definition surviving (i : nat) (es : list VersionEdit) : list FileMetaData :=
  foldl (λ fs e, filter (λ f, number f ∉ deleted_at i e) fs ++ new_at i e) [] es.

Definition surviving_levels (levels : nat) (es : list VersionEdit) : list (list FileMetaData) :=
  (λ i, surviving i es) <$> seq 0 levels.

(** A file after it was written to the manifest and recovered. *)
Definition recovered_file (f : FileMetaData) : FileMetaData :=
  clear_memtable_ids (incr_refs (new_file (FileMetaData_persist f))).

Lemma filter_number_fmap (h : FileMetaData → FileMetaData) (del : list Z) (fs : list FileMetaData) :
  (∀ f, number (h f) = number f) →
  filter (λ f, number f ∉ del) (h <$> fs) = h <$> filter (λ f, number f ∉ del) fs.
Proof.
  intros Hh. induction fs as [|f fs IH]; [done|]. rewrite fmap_cons, !filter_cons, IH.
  rewrite Hh. by case_decide.
Qed.

Lemma new_at_read_back i e :
  clear_memtable_ids <$> (new_file <$> new_at i (decoded_edit VersionEdit_init e)) =
  (λ f, clear_memtable_ids (new_file (FileMetaData_persist f))) <$> new_at i e.
Proof.
  unfold new_at. cbn [decoded_edit new_files_]. generalize (@nil Z) as ids.
  induction (new_files_ e) as [|[l f] nfs IH]; intros ids; [done|]. cbn [decoded_files].
  rewrite !filter_cons. cbn [fst]. case_decide; [|apply IH]. cbn. f_equal. apply IH.
Qed.

Lemma new_at_read_back_numbers i e :
  number <$> new_at i (decoded_edit VersionEdit_init e) = number <$> new_at i e.
Proof.
  unfold new_at. cbn [decoded_edit new_files_]. generalize (@nil Z) as ids.
  induction (new_files_ e) as [|[l f] nfs IH]; intros ids; [done|]. cbn [decoded_files].
  rewrite !filter_cons. cbn [fst]. case_decide; [|apply IH]. cbn. f_equal. apply IH.
Qed.

Lemma edited_level_read_back i es : ∀ fs gs : list FileMetaData,
  clear_memtable_ids <$> fs = (λ f, clear_memtable_ids (new_file (FileMetaData_persist f))) <$> gs →
  clear_memtable_ids <$> edited_level i fs ((λ e, decoded_edit VersionEdit_init e) <$> es) =
  (λ f, clear_memtable_ids (new_file (FileMetaData_persist f))) <$>
    foldl (λ fs e, filter (λ f, number f ∉ deleted_at i e) fs ++ new_at i e) gs es.
Proof.
  induction es as [|e es IH]; intros fs gs Heq; [done|]. rewrite fmap_cons. cbn [edited_level foldl].
  apply IH. rewrite !fmap_app, new_at_read_back. f_equal.
  change (deleted_at i (decoded_edit VersionEdit_init e)) with (deleted_at i e).
  rewrite <- (filter_number_fmap _ (deleted_at i e)), Heq by done.
  by rewrite filter_number_fmap.
Qed.

Lemma recovered_levels (U : Comparator) (OU : ComparatorOrder U) levels es b :
  (∀ i, NoDup (number <$> all_new i es)) →
  b = foldl (Builder_Apply U) (Builder_init levels) ((λ e, decoded_edit VersionEdit_init e) <$> es) →
  Forall2 (λ fs gs, clear_memtable_ids <$> fs ≡ₚ recovered_file <$> gs)
    (saved U (levels_ b) (replicate levels [])) (surviving_levels levels es).
Proof.
  intros Hnd ->. set (es' := (λ e, decoded_edit VersionEdit_init e) <$> es).
  assert (length (levels_ (foldl (Builder_Apply U) (Builder_init levels) es')) = levels) as Hlen.
  { rewrite foldl_Builder_Apply_length. cbn. apply length_replicate. }
  rewrite saved_zip by by rewrite length_replicate.
  apply Forall2_same_length_lookup. split.
  { rewrite length_zip_with, Hlen, length_replicate. unfold surviving_levels.
    rewrite length_fmap, length_seq. lia. }
  intros i fs gs Hfs Hgs. unfold surviving_levels in Hgs. rewrite list_lookup_fmap in Hgs.
  apply fmap_Some in Hgs as (j & Hj & ->). apply lookup_seq in Hj as [-> Hi]. cbn [Nat.add].
  apply lookup_zip_with_Some in Hfs as (l & b & -> & Hl & Hb).
  apply lookup_replicate in Hb as [-> _]. rewrite foldl_Builder_Apply_lookup in Hl. cbn [Builder_init levels_] in Hl.
  apply fmap_Some in Hl as (l0 & Hl0 & ->). apply lookup_replicate in Hl0 as [-> _].
  rewrite saved_level_perm, (foldl_level_apply_content U i es').
  - transitivity (incr_refs <$> (clear_memtable_ids <$> edited_level i [] es')).
    { rewrite <- !list_fmap_compose. done. }
    unfold es'. rewrite (edited_level_read_back i es [] []) by done.
    rewrite <- list_fmap_compose. done.
  - replace (number <$> all_new i es') with (number <$> all_new i es); [done|].
    unfold all_new, es'. clear. induction es as [|e es IH]; [done|].
    by rewrite fmap_cons, !bind_cons, !fmap_app, IH, new_at_read_back_numbers.
  - intros f Hf. by apply elem_of_nil in Hf.
  - constructor.
Qed.

(** What clearing the memtable ids keeps. *)
Lemma clear_same_keys f g :
  clear_memtable_ids f = recovered_file g →
  number f = number g ∧ smallest f = smallest g ∧ largest f = largest g.
Proof. intros Heq. by injection Heq. Qed.

Lemma NoDup_number_inj (fs : list FileMetaData) f g :
  NoDup (number <$> fs) → f ∈ fs → g ∈ fs → number f = number g → f = g.
Proof.
  intros Hnd Hf Hg Heq. apply list_elem_of_lookup in Hf as (i & Hi). apply list_elem_of_lookup in Hg as (j & Hj).
  assert (i = j) as ->; [|congruence].
  apply (NoDup_lookup (number <$> fs) i j (number f)); [done|..]; rewrite list_lookup_fmap.
  - by rewrite Hi.
  - by rewrite Hj, Heq.
Qed.

Lemma recovered_numbers fss gss :
  Forall2 (λ fs gs, clear_memtable_ids <$> fs ≡ₚ recovered_file <$> gs) fss gss →
  number <$> concat fss ≡ₚ number <$> concat gss.
Proof.
  induction 1 as [|fs gs fss gss Hp _ IH]; [done|]. cbn. rewrite !fmap_app, IH.
  apply Permutation_app_tail.
  transitivity (number <$> (clear_memtable_ids <$> fs)); [by rewrite <- list_fmap_compose|].
  rewrite Hp. by rewrite <- list_fmap_compose.
Qed.

Section recovered.
Context (U : Comparator) {OU : ComparatorOrder U} (levels : nat) (es : list VersionEdit).
Context (Hfresh : ∀ i, NoDup (number <$> all_new i es)).
Context (Hinst : installable U (surviving_levels levels es)).
Context (Hwf : Forall (file_wf U) (concat (surviving_levels levels es))).

Local Abbreviation b :=
  (foldl (Builder_Apply U) (Builder_init levels) ((λ e, decoded_edit VersionEdit_init e) <$> es)).
Local Abbreviation out := (saved U (levels_ b) (replicate levels [])).

Local Lemma out_content : Forall2 (λ fs gs, clear_memtable_ids <$> fs ≡ₚ recovered_file <$> gs)
  out (surviving_levels levels es).
Proof. by apply recovered_levels. Qed.

Local Lemma out_elem i fs gs f :
  out !! i = Some fs → surviving_levels levels es !! i = Some gs → f ∈ fs →
  ∃ g, g ∈ gs ∧ number f = number g ∧ smallest f = smallest g ∧ largest f = largest g.
Proof.
  intros Hfs Hgs Hf. pose proof (Forall2_lookup_lr _ _ _ _ _ _ out_content Hfs Hgs) as Hp.
  apply (list_elem_of_fmap_2 clear_memtable_ids) in Hf. rewrite Hp in Hf.
  apply list_elem_of_fmap in Hf as (g & Heq & Hg). exists g. split; [done|]. by apply clear_same_keys.
Qed.

Local Lemma out_numbers : NoDup (number <$> concat out).
Proof.
  destruct Hinst as [Hnd _]. by rewrite (recovered_numbers _ _ out_content).
Qed.

Local Lemma out_wf : Forall (file_wf U) (concat out).
Proof.
  apply Forall_forall. intros f Hf. apply concat_elem in Hf as (i & fs & Hfs & Hf).
  destruct (Forall2_lookup_l _ _ _ _ _ out_content Hfs) as (gs & Hgs & _).
  destruct (out_elem i fs gs f Hfs Hgs Hf) as (g & Hg & _ & Hs & Hl).
  rewrite Forall_forall in Hwf. unfold file_wf. rewrite Hs, Hl. apply Hwf, concat_elem. by eauto.
Qed.

Local Lemma out_lookup i fs : out !! i = Some fs →
  ∃ l, levels_ b !! i = Some l ∧ fs = saved_level U l [].
Proof.
  rewrite saved_zip; [|rewrite foldl_Builder_Apply_length; cbn; by rewrite !length_replicate].
  intros (l & base & -> & Hl & Hb)%lookup_zip_with_Some. apply lookup_replicate in Hb as [-> _]. by eauto.
Qed.

Local Lemma level_added i l : levels_ b !! i = Some l →
  StronglySorted (smallest_le U) (added_files l)
  ∧ Forall (λ f, compaction_status f = NONE) (added_files l).
Proof.
  rewrite foldl_Builder_Apply_lookup. intros (l0 & Hl0 & ->)%fmap_Some.
  apply lookup_replicate in Hl0 as [-> _]. split; [apply (foldl_level_apply_sorted U); constructor|].
  apply Forall_forall. intros f Hf. apply foldl_level_apply_elem in Hf as [Hf|Hf]; [by apply elem_of_nil in Hf|].
  apply list_elem_of_fmap in Hf as (g & -> & Hg). unfold all_new in Hg.
  apply list_elem_of_bind in Hg as (e' & Hg & He'). apply list_elem_of_fmap in He' as (e & -> & _).
  apply (list_elem_of_fmap_2 (λ g, clear_memtable_ids (new_file g))) in Hg.
  pose proof (new_at_read_back i e) as Hrb. rewrite <- list_fmap_compose in Hrb.
  unfold compose in Hrb. rewrite Hrb in Hg.
  apply list_elem_of_fmap in Hg as (h & Heq & _). by injection Heq.
Qed.

Local Lemma out_order : Forall (StronglySorted (smallest_le U)) out.
Proof.
  apply Forall_lookup. intros i fs Hfs. apply out_lookup in Hfs as (l & Hl & ->).
  apply (saved_level_order U); [|constructor]. by apply level_added in Hl as [? _].
Qed.

Local Lemma out_sorted i fs : out !! i = Some fs → i ≠ 0%nat → Sorted (file_before U) fs.
Proof.
  intros Hfs Hi. destruct (Forall2_lookup_l _ _ _ _ _ out_content Hfs) as (gs & Hgs & _).
  pose proof out_wf as Hw. pose proof out_order as Ho. pose proof out_numbers as Hnd.
  rewrite Forall_forall in Hw. rewrite Forall_lookup in Ho.
  assert (NoDup (number <$> fs)) as Hnd'.
  { rewrite <- (take_drop_middle _ _ _ Hfs), concat_app, fmap_app in Hnd.
    apply NoDup_app in Hnd as (_ & _ & Hnd). cbn in Hnd. rewrite fmap_app in Hnd.
    by apply NoDup_app in Hnd as (? & _ & _). }
  apply (apart_Sorted U); [|by apply (Ho i)|done|].
  - apply Forall_forall. intros f Hf. apply Hw, concat_elem. by eauto.
  - intros f g Hf Hg.
    destruct (out_elem i fs gs f Hfs Hgs Hf) as (f' & Hf' & Hn1 & Hs1 & Hl1).
    destruct (out_elem i fs gs g Hfs Hgs Hg) as (g' & Hg' & Hn2 & Hs2 & Hl2).
    unfold file_before. rewrite Hs1, Hl1, Hs2, Hl2.
    destruct Hinst as [_ Hap]. destruct (Hap i gs f' g' Hgs Hi Hf' Hg') as [->|?]; [left|by right].
    apply (NoDup_number_inj fs); congruence.
Qed.

Lemma recovered_SaveTo id :
  Builder_SaveTo U b (Version_init levels 1) id =
    Ret (mkVersion out (insert_all ∅ (concat out)) (w64 (l0_size (concat out))) id)
  ∧ version_ok U (mkVersion out (insert_all ∅ (concat out)) (w64 (l0_size (concat out))) id).
Proof.
  split; [|apply (saved_version_ok U); [apply out_wf|apply out_order|apply out_sorted|apply out_numbers]].
  unfold Builder_SaveTo. cbn [Version_init files_]. apply res_bind_Ret.
  eexists (out, insert_all ∅ (concat out), w64 (l0_size (concat out))). split; [|done].
  apply SaveTo_levels_iff.
  - apply foldl_Builder_Apply_update; [|done]. by apply Forall_fmap, Forall_forall.
  - split_and!.
    + apply Forall_lookup. intros i l Hl. apply level_added in Hl as [_ Hc].
      eapply Forall_impl; [exact Hc|]. cbn. congruence.
    + intros i fs Hfs Hi. by apply (out_sorted i).
    + apply out_numbers.
    + apply Forall_forall. intros f _. apply lookup_empty.
    + f_equal. change 0 with (w64 0). by rewrite add_bytes_w64, Z.add_0_l.
Qed.
End recovered.

Definition cleared (v : Version) : Version :=
  mkVersion (map (map clear_memtable_ids) (files_ v)) (clear_memtable_ids <$> fn_files_ v)
    (l0_bytes_ v) (version_id_ v).

Lemma l0_size_clear fs : l0_size (map clear_memtable_ids fs) = l0_size fs.
Proof.
  unfold l0_size. induction fs as [|f fs IH]; [done|]. cbn [map]. rewrite !filter_cons.
  change (level (clear_memtable_ids f)) with (level f). case_decide; [|done].
  cbn [fmap list_fmap foldr]. by rewrite IH.
Qed.

Lemma version_ok_cleared U v : version_ok U v → version_ok U (cleared v).
Proof.
  intros H. assert (concat (map (map clear_memtable_ids) (files_ v)) = map clear_memtable_ids (concat (files_ v)))
    as Hc by by rewrite concat_map.
  assert (∀ R fs, (∀ f g, R f g → R (clear_memtable_ids f) (clear_memtable_ids g)) →
    StronglySorted R fs → StronglySorted R (map clear_memtable_ids fs)) as Hmap.
  { intros R fs HR. induction 1 as [|f fs _ IH Hf]; [constructor|]. cbn. constructor; [done|].
    apply Forall_fmap. eapply Forall_impl; [exact Hf|]. apply HR. }
  split; cbn [cleared files_ fn_files_ l0_bytes_ version_id_]; rewrite ?Hc.
  - apply Forall_fmap. eapply Forall_impl; [apply (vo_wf U v H)|]. done.
  - apply Forall_fmap. eapply Forall_impl; [apply (vo_order U v H)|]. intros fs. by apply Hmap.
  - intros i fs Hfs Hi. apply list_lookup_fmap_Some in Hfs as (gs & -> & Hgs).
    destruct (vo_levels U v H i gs Hgs Hi) as [Hwf Hs].
    split; [apply Forall_fmap; eapply Forall_impl; [exact Hwf|done]|by apply Hmap].
  - replace (number <$> map clear_memtable_ids (concat (files_ v))) with (number <$> concat (files_ v))
      by (exact (list_fmap_compose clear_memtable_ids number (concat (files_ v)))). apply (vo_numbers U v H).
  - intros n f. rewrite lookup_fmap, fmap_Some. setoid_rewrite (vo_map U v H).
    rewrite list_elem_of_fmap. split.
    + intros (g & [Hg <-] & ->). split; [by exists g|done].
    + intros [(g & -> & Hg) <-]. by exists g.
  - by rewrite (vo_bytes U v H), l0_size_clear.
Qed.

(** ** From the writes to the recovered version *)

(** The edits as [AppendChangesToManifest] writes them, with the next file
    number and the last sequence at that time. *)
Definition stamped (w : Z * Z * VersionEdit) : VersionEdit :=
  SetLastSequence (SetNextFile w.2 w.1.1) w.1.2.

Fixpoint append_all (limit : Z) (m : Manifest) (log : list (Z * Z * VersionEdit)) : res Manifest :=
  match log with
  | [] => Ret m
  | w :: log => m ← AppendChangesToManifest limit w.1.1 w.1.2 m w.2; append_all limit m log
  end.

Lemma append_all_content limit log : ∀ m bs,
  encoded (stamped <$> log) = Ret bs →
  current_manifest_file_size_ m = size_of (manifest_content m) →
  size_of (manifest_content m) + size_of bs < limit → limit <= 2 ^ 32 →
  append_all limit m log =
    Ret (mkManifest (manifest_content m ++ bs) (size_of (manifest_content m ++ bs))).
Proof.
  induction log as [|w log IH]; intros m bs Hbs Hsize Hlt Hlimit; cbn [append_all].
  - injection Hbs as <-. rewrite app_nil_r, <- Hsize. by destruct m.
  - rewrite fmap_cons in Hbs. cbn [encoded] in Hbs. apply res_bind_Ret in Hbs as (b & Hb & Hbs).
    apply res_bind_Ret in Hbs as (rest & Hrest & [= <-]). rewrite length_app in Hlt.
    unfold AppendChangesToManifest. fold (stamped w). rewrite Hb. cbn [mbind res_bind].
    rewrite Hsize. unfold w32. rewrite Z.mod_small by lia. rewrite decide_True by lia.
    rewrite (IH _ rest); cbn [manifest_content current_manifest_file_size_];
      [by rewrite <- app_assoc|done|rewrite length_app; lia..|done].
Qed.

Lemma foldl_apply_written U es : ∀ r,
  rc_builder (foldl (apply_written U) r es)
    = foldl (Builder_Apply U) (rc_builder r) ((λ e, decoded_edit VersionEdit_init e) <$> es).
Proof. induction es as [|e es IH]; intros r; [done|]. rewrite fmap_cons. cbn [foldl]. by rewrite IH. Qed.

Lemma foldl_apply_stamped U log : ∀ r,
  rc_next_file (foldl (apply_written U) r (stamped <$> log))
    = foldl Z.max (rc_next_file r) ((λ w, w.1.1) <$> log)
  ∧ rc_last_sequence (foldl (apply_written U) r (stamped <$> log))
    = foldl Z.max (rc_last_sequence r) ((λ w, w.1.2) <$> log)
  ∧ rc_subranges (foldl (apply_written U) r (stamped <$> log))
    = foldl (λ srs w, if decide (new_subranges_ w.2 = []) then srs
                      else imap SubRange_persist (new_subranges_ w.2)) (rc_subranges r) log.
Proof.
  induction log as [|w log IH]; intros r; [done|]. rewrite !fmap_cons. cbn [foldl].
  destruct (IH (apply_written U r (stamped w))) as (-> & -> & ->). by split_and!.
Qed.

(** ** Properties *)


Definition example_log : list (Z * Z * VersionEdit) :=
  [(4, 100, example_add); (5, 200, add_subrange example_replace (example_subrange 0 9 0))].

Lemma example_log_written : Forall (edit_written 2) (stamped <$> example_log).
Proof.
  assert (∀ n lo hi, is_u64 n → level_ok 2 1 ∧ file_ok (example_file n lo hi [])) as Hf.
  { intros n lo hi Hn. split; [unfold level_ok; mlia|].
    apply example_file_ok; [done|lit|constructor|constructor]. }
  apply Forall_cons; split; [|apply Forall_cons; split; [|apply Forall_nil_2]]; (split; [|done]);
    unfold edit_ok; cbn -[example_file example_subrange level_ok]; split_and!; try mlia;
    repeat (apply Forall_cons; split); try apply Forall_nil_2.
  1-3: apply Hf; mlia.
  - unfold level_ok. cbn. mlia.
  - apply Hf. mlia.
  - unfold SubRange_ok, Range_ok. lit.
Qed.

Lemma ordered_apart U fs gs :
  fs ≡ₚ gs → StronglySorted (file_before U) gs →
  ∀ f g, f ∈ fs → g ∈ fs → f = g ∨ file_before U f g ∨ file_before U g f.
Proof.
  intros Hp Hs f g. rewrite Hp. clear fs Hp. induction Hs as [|h gs Hs IH Hh]; [by intros ?%elem_of_nil|].
  rewrite Forall_forall in Hh. rewrite !elem_of_cons. intros [->|Hf] [->|Hg]; auto.
Qed.


Lemma Recover_loop_mono U config_level n m : ∀ r input x,
  Recover_loop U config_level n r input = Some x → Recover_loop U config_level (n + m) r input = Some x.
Proof.
  induction n as [|n IH]; intros r input x; [done|]. cbn [Recover_loop Nat.add].
  destruct (VersionEdit_DecodeFrom _ _ _) as [[[[|msg] e] next]| |]; try done.
  destruct (Recover_apply U r e); try done. apply IH.
Qed.

(** C34. Recovery needs a byte after the last edit: on a manifest that ends
    exactly at the end of its last edit the loop of [Recover] never stops,
    since decoding the empty rest succeeds without consuming anything. *)
Theorem recover_exact_end_diverges U config_level es bs current id fuel :
  Forall (edit_written config_level) es → encoded es = Ret bs →
  Recover U config_level fuel current id bs = None.
Proof.
  intros Hes Hbs. unfold Recover. set (r := mkRecovered _ _ _ _).
  destruct (Recover_loop_written U config_level es r fuel Hes) as (bs' & Hbs' & Hloop).
  rewrite Hbs in Hbs'. injection Hbs' as <-. specialize (Hloop []). rewrite app_nil_r, Recover_loop_empty in Hloop.
  destruct (Recover_loop U config_level fuel r bs) as [x|] eqn:E; [|done].
  apply (Recover_loop_mono _ _ _ (length es)) in E. rewrite Nat.add_comm in E. congruence.
Qed.

Lemma recover_exact_end_diverges_witness :
  ∃ bs, encoded (stamped <$> example_log) = Ret bs
    ∧ Recover YCSBKeyComparator 2 1000 (Version_init 2 1) 2 bs = None.
Proof.
  destruct (encoded (stamped <$> example_log)) as [bs| |] eqn:E; [|vm_compute in E; discriminate..].
  exists bs. split; [done|].
  apply (recover_exact_end_diverges _ _ (stamped <$> example_log)); [apply example_log_written|exact E].
Defined.

Lemma FileSet_insert_equivalent (U : Comparator) {OU : ComparatorOrder U} f f' s :
  StronglySorted (smallest_le U) s → NoDup (number <$> s) → f ∈ s →
  number f' = number f → smallest f' = smallest f → FileSet_insert U f' s = s.
Proof.
  intros Hs Hnd Hf Hn Hk.
  assert (∀ g, BySmallestKey U f' g = BySmallestKey U f g) as Hl
    by (intros g; unfold BySmallestKey; by rewrite Hn, Hk).
  assert (∀ g, BySmallestKey U g f' = BySmallestKey U g f) as Hr
    by (intros g; unfold BySmallestKey; by rewrite Hn, Hk).
  induction Hs as [|g s Hs IH Hg]; cbn; [by apply elem_of_nil in Hf|]. rewrite Hl, Hr.
  apply NoDup_cons in Hnd as [Hni Hnd]. apply elem_of_cons in Hf as [<-|Hf].
  - assert (BySmallestKey U f f = false) as ->; [|done].
    change (smallest_le U f f). apply (smallest_le_lex U). right. split; [|lia].
    apply (cmp_refl (C := InternalKeyComparator U)).
  - rewrite Forall_forall in Hg. pose proof (Hg f Hf) as Hle.
    assert (BySmallestKey U f g = false) as -> by exact Hle.
    destruct (BySmallestKey U g f) eqn:E; [by rewrite (IH Hnd Hf)|done].
Qed.

(** Without replica locations to update, [SaveTo] depends on the levels only. *)
Lemma SaveTo_levels_only (U : Comparator) b b' current id :
  levels_ b' = levels_ b → builder_update_replica_locations_ b = false →
  builder_update_replica_locations_ b' = false →
  Builder_SaveTo U b' current id = Builder_SaveTo U b current id.
Proof.
  intros Hl Hb Hb'. unfold Builder_SaveTo. rewrite Hl.
  assert (∀ ls lvl base fn l0, SaveTo_levels U b' lvl ls base fn l0 = SaveTo_levels U b lvl ls base fn l0) as E.
  { induction ls as [|l ls IH]; intros lvl base fn l0; cbn; [done|].
    assert (∀ fs, SaveTo_level U b' lvl l fs fn l0 = SaveTo_level U b lvl l fs fn l0) as ->
      by (intros fs; unfold SaveTo_level; by rewrite Hb, Hb').
    destruct (SaveTo_level U b lvl l _ fn l0) as [v| |]; cbn; [|done..]. by rewrite IH. }
  by rewrite E.
Qed.


Definition relocated_file : FileMetaData :=
  let f := example_file 1 0 9 [] in
  mkFile (refs f) (allowed_seeks f) (memtable_ids f) (number f) (file_size f) (converted_file_size f)
    (flush_timestamp f) (level f) (smallest f) (largest f) (compaction_status f)
    [mkReplica (mkHandle 3 0 0 0) [mkHandle 3 0 0 0]] (parity_block_handle f).

