(* ===== verification/Migration.v ===== *)
(** * Migration: moving a database between servers

    [Version::Encode] and [Version::Decode] carry a version to another server,
    and [VersionSet::Restore] installs it there ([db/version_set.cc]). *)

From S2P Require Import Prelude Coding Comparator NovaCommon DbFormat Subrange FileMeta VersionEdit FileSearch VersionBuilder VersionSet.

(** ** Encoding a version *)

(** [Version::Encode(buf)]: the bytes stored. *)
Definition Version_Encode (v : Version) : res bytes :=
  encs ← mapM EncodeFiles (files_ v);
  Ret (EncodeFixed32 (size_of (files_ v)) ++ concat encs).

(** The files decoded for one level: the level, the map and the bytes of level 0. *)
Definition add_decoded (lvl : nat) (v : Version) (metas : list FileMetaData) : Version :=
  mkVersion (alter (λ files, files ++ metas) lvl (files_ v))
    (foldl (λ m meta, <[number meta := meta]> m) (fn_files_ v) metas)
    (if decide (lvl = 0%nat) then foldl (λ b meta, w64 (b + file_size meta)) (l0_bytes_ v) metas
     else l0_bytes_ v)
    (version_id_ v).

Fixpoint Version_Decode_levels (n lvl : nat) (v : Version) : parser Version :=
  match n with
  | O => pret v
  | S n =>
      let! metas := DecodeFiles [] in
      Version_Decode_levels n (S lvl) (add_decoded lvl v metas)
  end.

(** [Version::Decode(buf)] into [v], with [options_->level]. *)
Definition Version_Decode (options_level : nat) (v : Version) : parser Version :=
  let! levels := must DecodeFixed32 in
  if decide (levels = Z.of_nat options_level)
  then Version_Decode_levels options_level 0 v
  else pabort.

(** ** Restoring it *)

(** [VersionSet::Restore(buf, version_id, last_sequence, next_file_number)]: the
    versions, [next_file_number_] and [last_sequence_].  The new version gets
    the id it had on the other server, and one reference that is never given
    back. *)
Definition Restore (options_level : nat) (s : VersionSet) (buf : bytes)
    (version_id last_sequence next_file_number : Z) : res (VersionSet * Z * Z) :=
  v ← (Version_Decode options_level (Version_init options_level version_id) buf).1;
  let s := mkVersionSet (<[version_id := mkObj v 0]> (vs_heap s)) (versions_ s) (version_list s)
             (current_ s) (version_id_seq_ s) (current_version_id_ s) in
  s ← AppendVersion s version_id;
  let s := mkVersionSet (vs_heap s) (versions_ s) (version_list s) (current_ s) (version_id + 1)
             (current_version_id_ s) in
  '(s, _) ← on_version s version_id AtomicVersion_Ref;
  Ret (s, next_file_number + 1, last_sequence).

(** ** The round trip *)

(** The version on the other side. *)
Definition migrated (v : Version) (id : Z) : Version :=
  let fss := map (map FileMetaData_persist) (files_ v) in
  mkVersion fss (insert_all ∅ (concat fss)) (w64 (l0_size (concat fss))) id.

(** Fields in range, and every file knows whether it is in level 0. *)
Definition encodable (v : Version) : Prop :=
  Forall files_ok (files_ v) ∧ is_u32 (size_of (files_ v))
  ∧ ∀ i fs f, files_ v !! i = Some fs → f ∈ fs → level f = 0 ↔ i = 0%nat.

Lemma alter_middle {A} (h : A → A) (pre : list A) x post :
  alter h (length pre) (pre ++ x :: post) = pre ++ h x :: post.
Proof. induction pre as [|y pre IH]; cbn; [done|]. f_equal. apply IH. Qed.

Lemma parses_Version_levels fss : ∀ lvl v pre,
  Forall files_ok fss → length pre = lvl → files_ v = pre ++ replicate (length fss) [] →
  parses (Version_Decode_levels (length fss) lvl v) (concat (EncodeFiles_bytes <$> fss))
    (mkVersion (pre ++ map (map FileMetaData_persist) fss)
       (insert_all (fn_files_ v) (concat (map (map FileMetaData_persist) fss)))
       (if decide (lvl = 0%nat)
        then foldl (λ b meta, w64 (b + file_size meta)) (l0_bytes_ v)
               (default [] (head (map (map FileMetaData_persist) fss)))
        else l0_bytes_ v)
       (version_id_ v)).
Proof.
  induction fss as [|fs fss IH]; intros lvl v pre Hok Hpre Hfiles.
  - cbn. rewrite app_nil_r in *. case_decide; rewrite <- Hfiles; destruct v; apply parses_ret.
  - apply Forall_cons in Hok as [Hfs Hok]. cbn [length Version_Decode_levels]. rewrite fmap_cons. cbn [concat].
    eapply parses_bind; [by apply parses_DecodeFiles|].
    assert (files_ (add_decoded lvl v (FileMetaData_persist <$> fs))
      = (pre ++ [map FileMetaData_persist fs]) ++ replicate (length fss) []) as Hadd.
    { cbn [add_decoded files_]. rewrite Hfiles, <- Hpre. cbn [length replicate].
      rewrite alter_middle, <- app_assoc. done. }
    specialize (IH (S lvl) _ (pre ++ [map FileMetaData_persist fs]) Hok ltac:(rewrite length_app; cbn; lia) Hadd).
    cbn [map concat head default]. rewrite insert_all_app.
    rewrite decide_False, <- app_assoc in IH by done. exact IH.
Qed.

Lemma foldl_sizes fs : ∀ b, foldl (λ b meta, w64 (b + file_size meta)) (w64 b) fs
  = w64 (b + foldr Z.add 0 (file_size <$> fs)).
Proof.
  induction fs as [|f fs IH]; intros b; cbn [foldl]; [by rewrite Z.add_0_r|].
  replace (w64 (w64 b + file_size f)) with (w64 (b + file_size f))
    by (unfold w64; by rewrite Zplus_mod_idemp_l).
  rewrite IH. cbn. f_equal. lia.
Qed.

Lemma l0_size_app fs gs : l0_size (fs ++ gs) = l0_size fs + l0_size gs.
Proof.
  unfold l0_size. rewrite filter_app, fmap_app. generalize (file_size <$> filter (λ f, level f = 0) gs) as b.
  induction (file_size <$> filter (λ f, level f = 0) fs) as [|x l IH]; intros b; cbn; [done|].
  rewrite IH. lia.
Qed.

(** The bytes counted for level 0 are those of the files of level 0. *)
Lemma l0_size_levels (fss : list (list FileMetaData)) :
  (∀ i fs f, fss !! i = Some fs → f ∈ fs → level f = 0 ↔ i = 0%nat) →
  l0_size (concat fss) = foldr Z.add 0 (file_size <$> default [] (head fss)).
Proof.
  assert (∀ fs, (∀ f, f ∈ fs → level f ≠ 0) → l0_size fs = 0) as Hzero.
  { unfold l0_size. induction fs as [|f fs IH]; intros Hfs; [done|].
    rewrite filter_cons, decide_False by (apply Hfs; by left). apply IH. intros g Hg. apply Hfs. by right. }
  intros Hlvl. destruct fss as [|fs fss]; [done|]. cbn [concat head default]. rewrite l0_size_app.
  rewrite (Hzero (concat fss)), Z.add_0_r.
  - unfold l0_size. rewrite filter_all; [done|]. apply Forall_forall. intros f Hf. by apply (Hlvl 0%nat fs).
  - intros f (i & gs & Hgs & Hf)%concat_elem Hz. apply (Hlvl (S i) gs f Hgs Hf) in Hz. done.
Qed.

Lemma persist_levels v :
  encodable v → ∀ i fs f, map (map FileMetaData_persist) (files_ v) !! i = Some fs → f ∈ fs →
  level f = 0 ↔ i = 0%nat.
Proof.
  intros (_ & _ & Hlvl) i fs f Hfs Hf. apply list_lookup_fmap_Some in Hfs as (gs & -> & Hgs).
  apply list_elem_of_fmap in Hf as (g & -> & Hg). apply (Hlvl i gs g Hgs Hg).
Qed.

Lemma Version_Encode_ok v :
  Forall files_ok (files_ v) →
  Version_Encode v = Ret (EncodeFixed32 (size_of (files_ v)) ++ concat (EncodeFiles_bytes <$> files_ v)).
Proof.
  intros Hok. unfold Version_Encode. rewrite (mapM_Ret _ EncodeFiles_bytes); [done|].
  eapply Forall_impl; [exact Hok|]. apply EncodeFiles_ok.
Qed.

Lemma parses_Version v id :
  encodable v →
  parses (Version_Decode (length (files_ v)) (Version_init (length (files_ v)) id))
    (EncodeFixed32 (size_of (files_ v)) ++ concat (EncodeFiles_bytes <$> files_ v)) (migrated v id).
Proof.
  intros Henc. pose proof (l0_size_levels _ (persist_levels v Henc)) as Hl0. destruct Henc as (Hok & Hn & Hlvl).
  unfold Version_Decode. eapply parses_bind; [by apply parses_must, parses_Fixed32|]. cbn beta.
  rewrite decide_True by done.
  pose proof (parses_Version_levels (files_ v) 0 (Version_init (length (files_ v)) id) [] Hok eq_refl eq_refl) as Hp.
  rewrite decide_True in Hp by done. cbn [Version_init fn_files_ l0_bytes_ version_id_ app] in Hp.
  unfold migrated. rewrite Hl0.
  change 0 with (w64 0) in Hp. rewrite foldl_sizes, Z.add_0_l in Hp. exact Hp.
Qed.

(** ** Properties *)

(** C31. A version sent to another server arrives as it was: same files in the
    same levels and order, without the state of the local server, with the map
    of files and the byte count rebuilt; and it is a consistent version again. *)
Theorem version_migration_roundtrip (U : Comparator) (OU : ComparatorOrder U) v id rest :
  encodable v → version_ok U v →
  ∃ bs, Version_Encode v = Ret bs
    ∧ Version_Decode (length (files_ v)) (Version_init (length (files_ v)) id) (bs ++ rest)
      = (Ret (migrated v id), rest)
    ∧ version_ok U (migrated v id).
Proof.
  intros Henc H. eexists. split; [apply Version_Encode_ok, Henc|].
  split; [by apply parses_Version|].
  assert (concat (map (map FileMetaData_persist) (files_ v)) = map FileMetaData_persist (concat (files_ v)))
    as Hc by by rewrite concat_map.
  assert (∀ R fs, (∀ f g, R f g → R (FileMetaData_persist f) (FileMetaData_persist g)) →
    StronglySorted R fs → StronglySorted R (map FileMetaData_persist fs)) as Hmap.
  { intros R fs HR. induction 1 as [|f fs _ IH Hf]; [constructor|]. cbn. constructor; [done|].
    apply Forall_fmap. eapply Forall_impl; [exact Hf|]. apply HR. }
  apply (saved_version_ok U).
  - rewrite Hc. apply Forall_fmap. eapply Forall_impl; [apply (vo_wf U v H)|]. done.
  - apply Forall_fmap. eapply Forall_impl; [apply (vo_order U v H)|]. intros fs. by apply Hmap.
  - intros i fs Hfs Hi. apply list_lookup_fmap_Some in Hfs as (gs & -> & Hgs).
    destruct (vo_levels U v H i gs Hgs Hi) as [_ Hs]. by apply StronglySorted_Sorted, Hmap.
  - rewrite Hc. replace (number <$> map FileMetaData_persist (concat (files_ v))) with (number <$> concat (files_ v))
      by (exact (list_fmap_compose FileMetaData_persist number (concat (files_ v)))). apply (vo_numbers U v H).
Qed.

Lemma example_version_encodable : encodable example_version.
Proof.
  assert (files_ example_version = [[]; map (λ f, incr_refs (new_file f)) example_level]) as Hf
    by (vm_compute; reflexivity).
  unfold encodable. rewrite Hf. split_and!.
  - apply Forall_cons. split; [split; [apply Forall_nil_2|cbn; mlia]|].
    apply Forall_cons. split; [|apply Forall_nil_2].
    split; [|cbn; mlia].
    assert (∀ n lo hi, is_u64 n → file_ok (incr_refs (new_file (example_file n lo hi [])))) as Hok.
    { intros n lo hi Hn. apply (example_file_ok n lo hi []); [done|lit|constructor|constructor]. }
    repeat (apply Forall_cons; split); try apply Forall_nil_2; apply Hok; mlia.
  - cbn. mlia.
  - assert (Forall (λ f, level f = 1) (map (λ f, incr_refs (new_file f)) example_level)) as Hl
      by (repeat constructor). rewrite Forall_forall in Hl.
    intros [|[|i]] fs f Hi Hin; [| |discriminate Hi].
    + cbn [lookup list_lookup] in Hi. assert (fs = []) as -> by congruence. exfalso. exact (not_elem_of_nil _ Hin).
    + cbn [lookup list_lookup] in Hi.
      assert (fs = map (λ f, incr_refs (new_file f)) example_level) as -> by congruence.
      rewrite (Hl f Hin). split; discriminate.
Qed.

Lemma example_version_ok : version_ok YCSBKeyComparator example_version.
Proof.
  apply (LogAndApply_ok YCSBKeyComparator (Version_init 2 0) example_add 1).
  - apply Version_init_ok.
  - apply example_add_applicable.
  - vm_compute. reflexivity.
Qed.

Lemma version_migration_roundtrip_witness :
  ∃ bs, Version_Encode example_version = Ret bs
    ∧ Version_Decode 2 (Version_init 2 7) (bs ++ [1]) = (Ret (migrated example_version 7), [1])
    ∧ version_ok YCSBKeyComparator (migrated example_version 7).
Proof.
  apply (version_migration_roundtrip YCSBKeyComparator YCSB_order example_version 7 [1]).
  - apply example_version_encodable.
  - apply example_version_ok.
Defined.

(** *** Installing the restored version *)

Definition with_seq (q : Z) (s : VersionSet) : VersionSet :=
  mkVersionSet (vs_heap s) (versions_ s) (version_list s) (current_ s) q (current_version_id_ s).

Lemma on_version_with_seq {A} q s id (op : version_heap → AtomicVersion → res (version_heap * AtomicVersion * A)) :
  on_version (with_seq q s) id op = ('(s, x) ← on_version s id op; Ret (with_seq q s, x)).
Proof.
  unfold on_version. cbn [versions_ vs_heap with_seq]. destruct (if decide _ then _ else _) as [a|]; [|done].
  by destruct (op (vs_heap s) a) as [[[h' a'] x]| |].
Qed.

Lemma AppendVersion_with_seq q s v :
  AppendVersion (with_seq q s) v = (s ← AppendVersion s v; Ret (with_seq q s)).
Proof.
  unfold AppendVersion. cbn [vs_heap current_ with_seq]. destruct (deref (vs_heap s) v); [|done..].
  cbn [mbind res_bind]. case_decide; [|done].
  assert (∀ t, ('(s, _) ← on_version (mkVersionSet (vs_heap t) (versions_ t) (version_list t ++ [v]) (Some v) q
      (current_version_id_ t)) v (λ h a, SetVersion h a v);
      Ret (mkVersionSet (vs_heap s) (versions_ s) (version_list s) (current_ s) (version_id_seq_ s) v)) =
    (s ← ('(s, _) ← on_version (mkVersionSet (vs_heap t) (versions_ t) (version_list t ++ [v]) (Some v)
      (version_id_seq_ t) (current_version_id_ t)) v (λ h a, SetVersion h a v);
      Ret (mkVersionSet (vs_heap s) (versions_ s) (version_list s) (current_ s) (version_id_seq_ s) v));
     Ret (with_seq q s))) as Hset.
  { intros t.
    pose proof (on_version_with_seq q (mkVersionSet (vs_heap t) (versions_ t) (version_list t ++ [v]) (Some v)
      (version_id_seq_ t) (current_version_id_ t)) v (λ h a, SetVersion h a v)) as Heq.
    unfold with_seq at 1 in Heq. cbn [vs_heap versions_ version_list current_ current_version_id_] in Heq.
    rewrite Heq.
    match goal with |- context [on_version ?x ?y ?z] =>
      destruct (on_version x y z) as [[s1 u]| |] end; cbn; reflexivity. }
  destruct (current_ s) as [c|].
  - rewrite on_version_with_seq. destruct (on_version s c AtomicVersion_Unref) as [[s1 u]| |]; [|done..].
    cbn [mbind res_bind]. apply (Hset s1).
  - cbn [mbind res_bind]. apply (Hset s).
Qed.

Lemma sys_ok_with_seq S q :
  sys_ok S → version_id_seq_ (sys S) <= q → sys_ok (mkSys (with_seq q (sys S)) (held S)).
Proof.
  intros H Hq. pose proof (so_seq S H).
  split; cbn [sys held with_seq vs_heap versions_ version_list current_ version_id_seq_].
  - apply (so_list S H).
  - apply (so_heap S H).
  - intros id Hid. pose proof (so_range S H id Hid). lia.
  - apply (so_live S H).
  - apply (so_gone S H).
  - intros id a Hid. apply (so_new S H). lia.
  - apply (so_held S H).
  - apply (so_current S H).
  - apply (so_int S H).
  - lia.
Qed.

(** Restoring an encoded version installs it as the current version under
    its own id, with the counters of the sender; the version set stays
    consistent, with an extra reference that keeps the version from being
    collected. *)
Lemma restore_installs S v bs rest version_id last_sequence next_file_number :
  sys_ok S → size_of (held S) + 1 < int_max → encodable v → Version_Encode v = Ret bs →
  version_id_seq_ (sys S) <= version_id < size_of (versions_ (sys S)) →
  ∃ s', Restore (length (files_ v)) (sys S) (bs ++ rest) version_id last_sequence next_file_number
        = Ret (s', next_file_number + 1, last_sequence)
    ∧ sys_ok (mkSys s' (version_id :: held S)) ∧ current_ s' = Some version_id
    ∧ vs_heap s' !! version_id = Some (mkObj (migrated v version_id) 2).
Proof.
  intros H Hint Henc Hbs Hid. pose proof (so_seq S H) as Hseq.
  rewrite Version_Encode_ok in Hbs by apply Henc.
  assert (bs = EncodeFixed32 (size_of (files_ v)) ++ concat (EncodeFiles_bytes <$> files_ v)) as -> by congruence.
  clear Hbs.
  unfold Restore. rewrite (parses_Version v version_id Henc rest). cbn [fst mbind res_bind].
  pose proof (sys_ok_with_seq S version_id H ltac:(lia)) as H1.
  destruct (AppendVersion_ok _ (migrated v version_id) H1) as (s2 & Hs2 & H2 & Hc2 & Hl2 & Hh2 & Ha2).
  { cbn [sys with_seq version_id_seq_ versions_]. lia. }
  cbn [sys with_seq new_Version version_id_seq_ vs_heap versions_ version_list current_ current_version_id_ held] in Hs2, Hc2, H2, Hl2, Hh2, Ha2.
  set (s1 := mkVersionSet (<[version_id:=mkObj (migrated v version_id) 0]> (vs_heap (sys S))) (versions_ (sys S))
    (version_list (sys S)) (current_ (sys S)) (version_id_seq_ (sys S)) (current_version_id_ (sys S))).
  change (AppendVersion (with_seq (version_id + 1) s1) version_id = Ret s2) in Hs2.
  rewrite AppendVersion_with_seq in Hs2. apply res_bind_Ret in Hs2 as (s3 & Hs3 & [= <-]).
  rewrite Hs3. cbn [mbind res_bind]. fold (with_seq (version_id + 1) s3).
  set (s2 := with_seq (version_id + 1) s3) in *.
  destruct (Ref_ok (mkSys s2 (held S)) version_id H2 Hint) as (s' & r & Hr & Hok & _).
  { pose proof (so_range _ H2 version_id) as Hrange. cbn [sys] in *. rewrite Hl2, elem_of_app in Hrange.
    specialize (Hrange ltac:(right; by left)). lia. }
  cbn [sys held] in *.
  assert (on_version s2 version_id AtomicVersion_Ref = Ret (mkVersionSet
    (<[version_id := mkObj (migrated v version_id) 2]> (vs_heap s2)) (versions_ s2) (version_list s2)
    (current_ s2) (version_id_seq_ s2) (current_version_id_ s2), Some version_id)) as Heq.
  { erewrite on_version_Ret; [rewrite list_insert_id by exact Ha2; reflexivity|lia|exact Ha2|].
    unfold AtomicVersion_Ref, Version_Ref, deref. cbn [version deleted is_compacting negb andb].
    rewrite Hh2. reflexivity. }
  rewrite Heq in Hr. injection Hr as <- <-. rewrite Heq. cbn [mbind res_bind]. eexists.
  split; [reflexivity|]. split_and!; [apply Hok|done|cbn [vs_heap]; by rewrite lookup_insert_eq].
Qed.

