(* ===== verification/CompactionPick.v ===== *)
(** * CompactionPick: choosing compactions that can run in parallel

    [Version::ComputeNonOverlappingSet] and its helpers in
    [db/version_set.cc]: the files of a level and the next one are split into
    sets that background threads, or other servers, compact at the same time.
    A [Slice *] that is updated is an extra result. *)

From S2P Require Import Prelude Coding Comparator NovaCommon DbFormat Subrange FileMeta VersionEdit FileSearch VersionBuilder.

(** The members of [Compaction] that choosing inputs sets. *)
Record Compaction := mkCompaction {
  level_ : Z;
  target_level_ : Z;
  inputs_0 : list FileMetaData;
  inputs_1 : list FileMetaData;
  grandparents_ : list FileMetaData
}.

Definition all_inputs (c : Compaction) : list FileMetaData := inputs_0 c ++ inputs_1 c.

(** [IsTrivialMove]. *)
Definition IsTrivialMove (c : Compaction) : bool :=
  bool_decide (length (inputs_0 c) = 1%nat) && bool_decide (length (inputs_1 c) = 0%nat)
  && negb (bool_decide (level_ c = target_level_ c)).

(** [AddInputDeletions(edit)]. *)
Definition AddInputDeletions (c : Compaction) (edit : VersionEdit) : VersionEdit :=
  let edit := foldl (λ e f, DeleteFile e (level_ c) (number f)) edit (inputs_0 c) in
  foldl (λ e f, DeleteFile e (level_ c + 1) (number f)) edit (inputs_1 c).

Inductive OverlappingFileResult :=
  | OVERLAP_FOUND_NEW_TABLES | OVERLAP_EXCEED_MAX | OVERLAP_NO_NEW_TABLES.

#[export] Instance OverlappingFileResult_eq_dec : EqDecision OverlappingFileResult.
Proof. solve_decision. Defined.

(** The result of scanning the files for those in a range: the files left, the
    inputs chosen, and the range extended by them. *)
Record RangeScan := mkScan {
  sc_result : OverlappingFileResult;
  sc_files : list FileMetaData;
  sc_inputs : list FileMetaData;
  sc_lower : bytes;
  sc_upper : bytes
}.

Section pick.
Context (U : Comparator).
Local Abbreviation UCompare := (@Compare U).

(** [options_->max_num_sstables_in_nonoverlapping_set] and
    [options_->max_num_coordinated_compaction_nonoverlapping_sets]. *)
Context (max_files max_sets : Z).

(** [std::sort] with a comparison function. *)
Context (sort : ∀ A, (A → A → bool) → list A → list A).

(** The keys of [f] reach into the range. *)
Definition in_range (lower upper : bytes) (f : FileMetaData) : bool :=
  negb (bool_decide (UCompare lower (largest_user_key f) > 0))
  && negb (bool_decide (UCompare upper (smallest_user_key f) < 0)).

Definition min_key (a b : bytes) : bytes := if decide (UCompare a b < 0) then a else b.
Definition max_key (a b : bytes) : bytes := if decide (UCompare a b > 0) then a else b.

(** The loop of [ComputeOverlappingFilesInRange]; [inputs] is
    [compaction->inputs_[which]], [result] and the new range as so far. *)
Fixpoint InRange_loop (lower upper : bytes) (files inputs : list FileMetaData)
    (result : OverlappingFileResult) (new_lower new_upper : bytes) : RangeScan :=
  match files with
  | [] => mkScan result [] inputs new_lower new_upper
  | f :: files' =>
      if in_range lower upper f then
        let inputs := inputs ++ [f] in
        let new_lower := min_key (smallest_user_key f) new_lower in
        let new_upper := max_key (largest_user_key f) new_upper in
        if decide (size_of inputs > max_files)
        then mkScan OVERLAP_EXCEED_MAX files inputs new_lower new_upper
        else InRange_loop lower upper files' inputs OVERLAP_FOUND_NEW_TABLES new_lower new_upper
      else
        let s := InRange_loop lower upper files' inputs result new_lower new_upper in
        mkScan (sc_result s) (f :: sc_files s) (sc_inputs s) (sc_lower s) (sc_upper s)
  end.

Definition ComputeOverlappingFilesInRange (files inputs : list FileMetaData) (lower upper : bytes)
    : RangeScan :=
  InRange_loop lower upper files inputs OVERLAP_NO_NEW_TABLES lower upper.

(** The loop of [ComputeOverlappingFilesForRange]: the inputs at both levels.
    A round that continues takes a file out of [l0] or [l1]. *)
Fixpoint ForRange_loop (fuel : nat) (l0 l1 in0 in1 : list FileMetaData) (lower upper : bytes)
    : option (list FileMetaData * list FileMetaData) :=
  match fuel with
  | O => None
  | S fuel =>
      let s0 := ComputeOverlappingFilesInRange l0 in0 lower upper in
      let s1 := ComputeOverlappingFilesInRange l1 in1 (sc_lower s0) (sc_upper s0) in
      if decide (size_of (sc_inputs s0) + size_of (sc_inputs s1) > max_files)
      then Some (sc_inputs s0, sc_inputs s1)
      else if decide (sc_result s0 = OVERLAP_EXCEED_MAX ∨ sc_result s1 = OVERLAP_EXCEED_MAX)
      then Some (sc_inputs s0, sc_inputs s1)
      else if decide (sc_result s0 = OVERLAP_FOUND_NEW_TABLES ∨ sc_result s1 = OVERLAP_FOUND_NEW_TABLES)
      then ForRange_loop fuel (sc_files s0) (sc_files s1) (sc_inputs s0) (sc_inputs s1)
             (sc_lower s1) (sc_upper s1)
      else Some (sc_inputs s0, sc_inputs s1)
  end.

Definition ComputeOverlappingFilesForRange (l0 l1 : list FileMetaData)
    : option (list FileMetaData * list FileMetaData) :=
  match l0 with
  | [] => None
  | f :: _ => ForRange_loop (S (length l0 + length l1)) l0 l1 [] [] (smallest_user_key f) (largest_user_key f)
  end.

(** The files [GetOverlappingInputs] appends to [outputs]. *)
Fixpoint GetOverlapping_loop (inputs : list FileMetaData) (begin_ end_ : bytes) (limit new_files : Z)
    (skip_files : list Z) (contained : bool) : list FileMetaData :=
  match inputs with
  | [] => []
  | f :: inputs =>
      let add_file :=
        if decide (number f ∈ skip_files) then false
        else if decide (UCompare (largest_user_key f) begin_ < 0) then false
        else if decide (UCompare (smallest_user_key f) end_ > 0) then false
        else if contained
        then bool_decide (UCompare begin_ (smallest_user_key f) < 0)
             && bool_decide (UCompare end_ (largest_user_key f) > 0)
        else true in
      if add_file then
        f :: (if decide (new_files + 1 = limit) then []
              else GetOverlapping_loop inputs begin_ end_ limit (new_files + 1) skip_files contained)
      else GetOverlapping_loop inputs begin_ end_ limit new_files skip_files contained
  end.

Definition GetOverlappingInputs (inputs : list FileMetaData) (begin_ end_ : bytes) (limit : Z)
    (skip_files : list Z) (contained : bool) : list FileMetaData :=
  if decide (limit = 0) then []
  else GetOverlapping_loop inputs begin_ end_ limit 0 skip_files contained.

(** [GetRange(inputs, smallest, largest)]. *)
Definition GetRange (inputs : list FileMetaData) (smallest largest : bytes) : bytes * bytes :=
  match inputs with
  | [] => (smallest, largest)
  | f :: inputs =>
      foldl (λ '(s, l) f, (min_key (smallest_user_key f) s, max_key (largest_user_key f) l))
        (smallest_user_key f, largest_user_key f) inputs
  end.

(** The scan of [ExpandRangeWithBoundaries] from index [i]: [lower] and [upper]. *)
Fixpoint Expand_scan (inputs : list FileMetaData) (smallest largest : bytes) (i lower upper : Z)
    : Z * Z :=
  match inputs with
  | [] => (lower, upper)
  | f :: inputs =>
      let lower := if decide (UCompare (smallest_user_key f) smallest = 0) then i else lower in
      if decide (UCompare (largest_user_key f) largest = 0) then (lower, i)
      else Expand_scan inputs smallest largest (i + 1) lower upper
  end.

(** The loop over prior files, from index [lower]. *)
Fixpoint Expand_down (lower : nat) (inputs : list FileMetaData) (smallest : bytes) : bytes :=
  match lower with
  | O => smallest
  | S i =>
      match inputs !! i with
      | Some prior =>
          if decide (UCompare smallest (largest_user_key prior) = 0)
          then Expand_down i inputs (smallest_user_key prior) else smallest
      | None => smallest
      end
  end.

(** The loop over the files after index [upper]. *)
Fixpoint Expand_up (rest : list FileMetaData) (largest : bytes) : bytes :=
  match rest with
  | [] => largest
  | next :: rest =>
      if decide (UCompare largest (smallest_user_key next) = 0)
      then Expand_up rest (largest_user_key next) else largest
  end.

(** [ExpandRangeWithBoundaries(inputs, smallest, largest)]. *)
Definition ExpandRangeWithBoundaries (inputs : list FileMetaData) (smallest largest : bytes)
    : res (bytes * bytes) :=
  let '(lower, upper) := Expand_scan inputs smallest largest 0 (-1) (size_of inputs) in
  if decide (lower <= upper) then
    Ret (Expand_down (Z.to_nat lower) inputs smallest,
         Expand_up (drop (Z.to_nat (upper + 1)) inputs) largest)
  else Abort.

Definition RemoveOverlapTablesWithRange (inputs : list FileMetaData) (smallest largest : bytes)
    : list FileMetaData :=
  filter (λ f, UCompare (largest_user_key f) smallest < 0 ∨ UCompare (smallest_user_key f) largest > 0)
    inputs.

Definition RemoveTables (inputs remove_tables : list FileMetaData) : list FileMetaData :=
  filter (λ f, number f ∉ number <$> remove_tables) inputs.

(** A set with too many files is rebuilt from its first file: the inputs at
    both levels, the guides, and whether it still targets the next level. *)
Definition shrink_set (l0files l1files : list FileMetaData) (f : FileMetaData)
    : list FileMetaData * list FileMetaData * list FileMetaData * bool :=
  let smallest := smallest_user_key f in
  let largest := largest_user_key f in
  let l1 := GetOverlappingInputs l1files smallest largest (2 ^ 32 - 1) [] false in
  if decide (1 + size_of l1 > max_files) then
    (f :: GetOverlappingInputs l0files smallest largest (max_files - 1) [number f] false,
     [], l1, false)
  else
    match l1, last l1 with
    | first :: _, Some final =>
        if decide (1 + size_of l1 < max_files)
        then (f :: GetOverlappingInputs l0files (smallest_user_key first) (largest_user_key final)
                     (max_files - size_of l1 - 1) [number f] true, l1, [], true)
        else ([f], l1, [], true)
    | _, _ => ([f], l1, [], true)
    end.

(** Too many tables in a set: [inputs_[0].resize(1)] keeps its first file. *)
Definition adjust_set (l0files l1files in0 in1 : list FileMetaData)
    : res (list FileMetaData * list FileMetaData * list FileMetaData * bool) :=
  if decide (size_of in0 + size_of in1 > max_files) then
    match in0 with
    | [] => Abort
    | f :: _ => Ret (shrink_set l0files l1files f)
    end
  else Ret (in0, in1, [], true).

(** The files left for the next sets. *)
Definition remove_picked (c : Compaction) (remove_overlapping : bool) (l0files l1files : list FileMetaData)
    : res (list FileMetaData * list FileMetaData) :=
  '(l0files, l1files) ←
    (if remove_overlapping then
       let '(smallest, largest) := GetRange (all_inputs c) [] [] in
       '(smallest, largest) ← ExpandRangeWithBoundaries l1files smallest largest;
       Ret (RemoveOverlapTablesWithRange l0files smallest largest,
            RemoveOverlapTablesWithRange l1files smallest largest)
     else Ret (l0files, l1files));
  Ret (RemoveTables l0files (inputs_0 c), RemoveTables l1files (inputs_1 c)).

(** One round of [ComputeNonOverlappingSet]: a compaction and the files left. *)
Definition pick_set (level : Z) (l0files l1files : list FileMetaData)
    : res (Compaction * list FileMetaData * list FileMetaData) :=
  match ComputeOverlappingFilesForRange l0files l1files with
  | None => Abort
  | Some (in0, in1) =>
      '(in0, in1, guides, remove_overlapping) ← adjust_set l0files l1files in0 in1;
      let target := if remove_overlapping : bool then level + 1 else level in
      let c := mkCompaction level target in0 in1 guides in
      if decide (size_of in0 + size_of in1 <= max_files) then
        '(l0files, l1files) ← remove_picked c remove_overlapping l0files l1files;
        let sorted := sort _ (λ f1 f2, bool_decide (InternalKey_Compare U (smallest f1) (smallest f2) < 0)) in1 in
        Ret (mkCompaction level target in0 sorted guides, l0files, l1files)
      else Abort
  end.

(** The loop: [n] more sets at most. *)
Fixpoint pick_sets (n : nat) (level : Z) (l0files l1files : list FileMetaData) : res (list Compaction) :=
  match n, l0files with
  | O, _ | _, [] => Ret []
  | S n, _ =>
      '(c, l0files, l1files) ← pick_set level l0files l1files;
      cs ← pick_sets n level l0files l1files;
      Ret (c :: cs)
  end.

(** [ComputeNonOverlappingSet(compactions_result, ...)] for the level to
    compact, [compactions_result] being empty. *)
Definition ComputeNonOverlappingSet (compaction_level : Z) (files : list (list FileMetaData))
    : res (list Compaction) :=
  if decide (0 <= compaction_level ∧ compaction_level + 1 < size_of files) then
    let l0files := default [] (files !! Z.to_nat compaction_level) in
    let l1files := default [] (files !! Z.to_nat (compaction_level + 1)) in
    compactions ← pick_sets 64 compaction_level l0files l1files;
    Ret (if decide (size_of compactions > max_sets)
         then take (Z.to_nat max_sets)
                (sort _ (λ c1 c2, bool_decide (size_of (inputs_0 c1) > size_of (inputs_0 c2))) compactions)
         else compactions)
  else Abort.
End pick.

(** ** Key ranges *)

Section ranges.
Context (U : Comparator) {OU : ComparatorOrder U}.
Local Abbreviation UCompare := (@Compare U).
Local Abbreviation lo := smallest_user_key.
Local Abbreviation hi := largest_user_key.
Local Notation "a ⊑ b" := (UCompare a b <= 0) (at level 70).
Local Notation "a ⊏ b" := (UCompare a b < 0) (at level 70).

(** The order of user keys, for [lia]. *)
Local Lemma key_total a b : a ⊑ b ∨ b ⊏ a.
Proof. destruct (decide (b ⊏ a)); [by right|left]. by apply cmp_not_lt. Qed.

Local Lemma key_antisym a b : a ⊏ b → ¬ b ⊑ a.
Proof. intros Hab%cmp_antisym. lia. Qed.

Definition file_range_ok (f : FileMetaData) : Prop := lo f ⊑ hi f.

Lemma file_wf_range f : file_wf U f → file_range_ok f.
Proof.
  intros (_ & _ & Hf). apply icmp_le in Hf. unfold file_range_ok, smallest_user_key, largest_user_key. lia.
Qed.

Definition covers (f : FileMetaData) (x : bytes) : Prop := lo f ⊑ x ∧ x ⊑ hi f.

(** The files fill the range from [a] to [b] without gaps. *)
Record spans (fs : list FileMetaData) (a b : bytes) : Prop := {
  spans_bound f : f ∈ fs → a ⊑ lo f ∧ hi f ⊑ b;
  spans_fill x : a ⊑ x → x ⊑ b → ∃ f, f ∈ fs ∧ covers f x
}.

Definition overlaps (f : FileMetaData) (a b : bytes) : Prop := a ⊑ hi f ∧ lo f ⊑ b.

Lemma in_range_overlaps a b f : in_range U a b f = true ↔ overlaps f a b.
Proof.
  unfold in_range, overlaps. rewrite andb_true_iff, !negb_true_iff, !bool_decide_eq_false.
  rewrite (cmp_not_lt b (lo f)). split; intros [H1 H2]; (split; [|done]); lia.
Qed.

Lemma min_key_le x y : min_key U x y ⊑ x ∧ min_key U x y ⊑ y ∧ (min_key U x y = x ∨ min_key U x y = y).
Proof.
  unfold min_key. case_decide as H.
  - rewrite cmp_refl. split_and!; [lia..|by left].
  - apply cmp_not_lt in H. rewrite cmp_refl. split_and!; [lia..|by right].
Qed.

Lemma max_key_ge x y : x ⊑ max_key U x y ∧ y ⊑ max_key U x y ∧ (max_key U x y = x ∨ max_key U x y = y).
Proof.
  unfold max_key. case_decide as H.
  - apply cmp_gt_lt in H. rewrite cmp_refl. split_and!; [lia..|by left].
  - rewrite cmp_refl. split_and!; [lia..|by right].
Qed.

Lemma spans_single f : file_range_ok f → spans [f] (lo f) (hi f).
Proof.
  intros Hf. split.
  - intros g ->%list_elem_of_singleton. rewrite !cmp_refl. lia.
  - intros x Hx1 Hx2. exists f. split; [by left|done].
Qed.

Lemma spans_perm fs gs a b : fs ≡ₚ gs → spans fs a b → spans gs a b.
Proof.
  intros Hp [Hb Hf]. split.
  - intros f. rewrite <- Hp. apply Hb.
  - intros x Hx1 Hx2. destruct (Hf x Hx1 Hx2) as (f & Hin & Hc). exists f. by rewrite <- Hp.
Qed.

(** A file that reaches into the range extends it. *)
Lemma spans_add fs a b f :
  spans fs a b → overlaps f a b → file_range_ok f →
  spans (fs ++ [f]) (min_key U (lo f) a) (max_key U (hi f) b).
Proof.
  intros [Hb Hfill] [Ho1 Ho2] Hok.
  destruct (min_key_le (lo f) a) as (Hm1 & Hm2 & Hm). destruct (max_key_ge (hi f) b) as (Hx1 & Hx2 & Hx).
  split.
  - intros g [Hg| ->%list_elem_of_singleton]%elem_of_app; [|done].
    destruct (Hb g Hg). split; by eapply cmp_le_trans.
  - intros x Hxa Hxb.
    destruct (key_total a x) as [Hax|Hax]; [destruct (key_total x b) as [Hbx|Hbx]|].
    + destruct (Hfill x Hax Hbx) as (g & Hg & Hc). exists g. split; [|done]. apply elem_of_app. by left.
    + exists f. split; [apply elem_of_app; right; by left|]. split.
      * apply (cmp_le_trans _ b); [done|lia].
      * destruct Hx as [Hx|Hx]; rewrite Hx in Hxb; [done|]. by apply key_antisym in Hbx.
    + exists f. split; [apply elem_of_app; right; by left|]. split.
      * destruct Hm as [Hm|Hm]; rewrite Hm in Hxa; [done|]. by apply key_antisym in Hax.
      * apply (cmp_le_trans _ a); [lia|done].
Qed.

Lemma spans_inside fs gs a b :
  spans fs a b → (∀ f, f ∈ gs → a ⊑ lo f ∧ hi f ⊑ b) → spans (fs ++ gs) a b.
Proof.
  intros [Hb Hfill] Hgs. split.
  - intros f [Hf|Hf]%elem_of_app; [by apply Hb|by apply Hgs].
  - intros x Hx1 Hx2. destruct (Hfill x Hx1 Hx2) as (f & Hf & Hc). exists f. split; [|done].
    apply elem_of_app. by left.
Qed.

(** Files without gaps stay on one side of a range that none of them reaches into. *)
Lemma spans_apart fs a b s t :
  spans fs a b → a ⊑ b → s ⊑ t → (∀ f, f ∈ fs → ¬ overlaps f s t) → b ⊏ s ∨ t ⊏ a.
Proof.
  intros [_ Hfill] Hab Hst Hno.
  destruct (key_total s b) as [Hsb|Hsb]; [|by left]. destruct (key_total a t) as [Hat|Hat]; [|by right].
  exfalso. destruct (key_total a s) as [Has|Has].
  - destruct (Hfill s Has Hsb) as (f & Hf & Hc1 & Hc2). apply (Hno f Hf). split; [done|].
    by apply (cmp_le_trans _ s).
  - destruct (Hfill a) as (f & Hf & Hc1 & Hc2); [rewrite cmp_refl; lia|done|].
    apply (Hno f Hf). split; [|by apply (cmp_le_trans _ a)]. apply (cmp_le_trans _ a); [lia|done].
Qed.

(** *** Scanning for overlapping files *)

Context (max_files : Z).
Local Abbreviation scan := (InRange_loop U max_files).

Lemma scan_found lower upper fs : ∀ i nl nu,
  sc_result (scan lower upper fs i OVERLAP_FOUND_NEW_TABLES nl nu) ≠ OVERLAP_NO_NEW_TABLES.
Proof.
  induction fs as [|g fs IH]; intros i nl nu; cbn; [done|].
  case_match; [case_decide; [done|]|]; apply IH.
Qed.

Lemma InRange_loop_spec other lower upper files : ∀ inputs result nl nu,
  Forall file_range_ok files → spans (other ++ inputs) nl nu → nl ⊑ lower → upper ⊑ nu →
  let s := scan lower upper files inputs result nl nu in
  ∃ added rest, sc_inputs s = inputs ++ added ∧ files ≡ₚ added ++ rest
    ∧ spans (other ++ sc_inputs s) (sc_lower s) (sc_upper s)
    ∧ (sc_result s ≠ OVERLAP_EXCEED_MAX → rest = sc_files s)
    ∧ (sc_result s = OVERLAP_EXCEED_MAX → result = OVERLAP_EXCEED_MAX ∨ size_of (sc_inputs s) > max_files)
    ∧ (sc_result s = OVERLAP_FOUND_NEW_TABLES → result = OVERLAP_FOUND_NEW_TABLES ∨ added ≠ [])
    ∧ (sc_result s = OVERLAP_NO_NEW_TABLES →
       added = [] ∧ sc_lower s = nl ∧ sc_upper s = nu ∧ Forall (λ f, ¬ overlaps f lower upper) files).
Proof.
  induction files as [|f files IH]; intros inputs result nl nu Hok Hs Hl Hu; cbn [InRange_loop].
  { exists [], []. cbn. rewrite app_nil_r. split_and!; auto. }
  apply Forall_cons in Hok as [Hf Hok]. destruct (in_range U lower upper f) eqn:Hin.
  - apply in_range_overlaps in Hin.
    assert (spans (other ++ (inputs ++ [f])) (min_key U (lo f) nl) (max_key U (hi f) nu)) as Hs'.
    { rewrite app_assoc. apply spans_add; [done| |done]. destruct Hin.
      split; by eapply cmp_le_trans. }
    destruct (min_key_le (lo f) nl) as (_ & Hm & _). destruct (max_key_ge (hi f) nu) as (_ & Hx & _).
    case_decide.
    + exists [f], files. split_and!; try done. by right.
    + destruct (IH (inputs ++ [f]) OVERLAP_FOUND_NEW_TABLES _ _ Hok Hs')
        as (added & rest & Hi & Hp & Hsp & Hr & Hex & _ & Hno); [by eapply cmp_le_trans..|].
      cbn zeta in *. exists (f :: added), rest. split_and!; try done.
      * by rewrite Hi, <- app_assoc.
      * by rewrite Hp.
      * intros Hres. destruct (Hex Hres); [done|by right].
      * by right.
      * intros Hres. by apply scan_found in Hres.
  - destruct (IH inputs result nl nu Hok Hs Hl Hu) as (added & rest & Hi & Hp & Hsp & Hr & Hex & Hfound & Hno).
    cbn zeta in *. cbn [sc_result sc_files sc_inputs sc_lower sc_upper].
    exists added, (f :: rest). split_and!; try done.
    + rewrite Hp. solve_Permutation.
    + intros Hne. by rewrite Hr.
    + intros Hres. destruct (Hno Hres) as (? & ? & ? & ?). split_and!; try done. constructor; [|done].
      intros Ho. apply in_range_overlaps in Ho. congruence.
Qed.

(** What the loop computes: inputs taken from the files, without gaps, and
    complete unless there are too many. *)
Definition picked (l0 l1 in0 in1 : list FileMetaData) (r : option (list FileMetaData * list FileMetaData))
    : Prop :=
  ∃ a0 a1 r0 r1 a b, r = Some (in0 ++ a0, in1 ++ a1)
    ∧ l0 ≡ₚ a0 ++ r0 ∧ l1 ≡ₚ a1 ++ r1 ∧ spans ((in0 ++ a0) ++ (in1 ++ a1)) a b
    ∧ (size_of (in0 ++ a0) + size_of (in1 ++ a1) <= max_files →
       Forall (λ f, ¬ overlaps f a b) (r0 ++ r1)).

Definition ForRange_round (fuel : nat) (s0 : RangeScan) (l1 in1 : list FileMetaData) :=
  let s1 := ComputeOverlappingFilesInRange U max_files l1 in1 (sc_lower s0) (sc_upper s0) in
  if decide (size_of (sc_inputs s0) + size_of (sc_inputs s1) > max_files)
  then Some (sc_inputs s0, sc_inputs s1)
  else if decide (sc_result s0 = OVERLAP_EXCEED_MAX ∨ sc_result s1 = OVERLAP_EXCEED_MAX)
  then Some (sc_inputs s0, sc_inputs s1)
  else if decide (sc_result s0 = OVERLAP_FOUND_NEW_TABLES ∨ sc_result s1 = OVERLAP_FOUND_NEW_TABLES)
  then ForRange_loop U max_files fuel (sc_files s0) (sc_files s1) (sc_inputs s0) (sc_inputs s1)
         (sc_lower s1) (sc_upper s1)
  else Some (sc_inputs s0, sc_inputs s1).

Lemma ForRange_round_spec fuel l0 l1 in0 in1 lower upper result :
  (∀ l0 l1 in0 in1 lower upper,
     Forall file_range_ok l0 → Forall file_range_ok l1 → spans (in0 ++ in1) lower upper →
     (length l0 + length l1 < fuel)%nat →
     picked l0 l1 in0 in1 (ForRange_loop U max_files fuel l0 l1 in0 in1 lower upper)) →
  Forall file_range_ok l0 → Forall file_range_ok l1 → spans (in0 ++ in1) lower upper →
  result ≠ OVERLAP_EXCEED_MAX → (length l0 + length l1 < S fuel)%nat →
  (result = OVERLAP_FOUND_NEW_TABLES → length l0 + length l1 < fuel)%nat →
  picked l0 l1 in0 in1 (ForRange_round fuel (scan lower upper l0 in0 result lower upper) l1 in1).
Proof.
  intros IH Hok0 Hok1 Hs Hres Hlen Hlen'. unfold ForRange_round, ComputeOverlappingFilesInRange.
  destruct (InRange_loop_spec in1 lower upper l0 in0 result lower upper)
    as (a0 & r0 & Hi0 & Hp0 & Hs0 & Hr0 & He0 & Hf0 & Hn0);
    [done|by eapply spans_perm; [apply Permutation_app_comm|]|rewrite cmp_refl; lia..|].
  set (s0 := scan lower upper l0 in0 result lower upper) in *. cbn zeta in *.
  destruct (InRange_loop_spec (sc_inputs s0) (sc_lower s0) (sc_upper s0) l1 in1 OVERLAP_NO_NEW_TABLES
    (sc_lower s0) (sc_upper s0)) as (a1 & r1 & Hi1 & Hp1 & Hs1 & Hr1 & He1 & Hf1 & Hn1);
    [done|by eapply spans_perm; [apply Permutation_app_comm|]|rewrite cmp_refl; lia..|].
  set (s1 := scan (sc_lower s0) (sc_upper s0) l1 in1 OVERLAP_NO_NEW_TABLES (sc_lower s0) (sc_upper s0)) in *.
  cbn zeta in *. rewrite Hi0, Hi1 in *.
  case_decide as Hmax.
  { exists a0, a1, r0, r1, (sc_lower s1), (sc_upper s1). split_and!; (done || lia). }
  rewrite decide_False by (intros [H|H]; [destruct (He0 H)|destruct (He1 H)]; (done || lia)).
  assert (sc_result s0 ≠ OVERLAP_EXCEED_MAX) as Hx0 by (intros H; destruct (He0 H); (done || lia)).
  assert (sc_result s1 ≠ OVERLAP_EXCEED_MAX) as Hx1 by (intros H; destruct (He1 H); (done || lia)).
  rewrite (Hr0 Hx0) in Hp0. rewrite (Hr1 Hx1) in Hp1.
  pose proof (Permutation_length Hp0) as Hlen0. pose proof (Permutation_length Hp1) as Hlen1.
  rewrite length_app in Hlen0, Hlen1.
  case_decide as Hfound.
  - assert (Forall file_range_ok (sc_files s0)) as Hk0 by (rewrite Hp0 in Hok0; by apply Forall_app in Hok0 as [_ ?]).
    assert (Forall file_range_ok (sc_files s1)) as Hk1 by (rewrite Hp1 in Hok1; by apply Forall_app in Hok1 as [_ ?]).
    assert (length (sc_files s0) + length (sc_files s1) < fuel)%nat as Hlt.
    { destruct (decide (result = OVERLAP_FOUND_NEW_TABLES)) as [Hr|Hr]; [specialize (Hlen' Hr); lia|].
      assert (length a0 ≠ 0%nat ∨ length a1 ≠ 0%nat); [|lia].
      destruct Hfound as [H|H]; [left; destruct (Hf0 H)|right; destruct (Hf1 H)];
        try done; by intros ?%nil_length_inv. }
    destruct (IH (sc_files s0) (sc_files s1) _ _ _ _ Hk0 Hk1 Hs1 Hlt)
      as (b0 & b1 & q0 & q1 & a & b & -> & Hq0 & Hq1 & Hsp & Hcl).
    exists (a0 ++ b0), (a1 ++ b1), q0, q1, a, b. rewrite <- !app_assoc in *. split_and!; try done.
    + by rewrite Hp0, Hq0, app_assoc.
    + by rewrite Hp1, Hq1, app_assoc.
  - destruct (sc_result s0) eqn:E0; [by destruct Hfound; left|done|].
    destruct (sc_result s1) eqn:E1; [by destruct Hfound; right|done|].
    destruct (Hn0 eq_refl) as (-> & Hl0 & Hu0 & Hno0). destruct (Hn1 eq_refl) as (-> & Hl1 & Hu1 & Hno1).
    exists [], [], (sc_files s0), (sc_files s1), lower, upper. rewrite !app_nil_r in *.
    split_and!; try done. intros _. rewrite Hl0, Hu0 in Hno1. cbn in Hp0, Hp1.
    apply Forall_app. split; [by rewrite <- Hp0|by rewrite <- Hp1].
Qed.

Lemma ForRange_loop_spec fuel : ∀ l0 l1 in0 in1 lower upper,
  Forall file_range_ok l0 → Forall file_range_ok l1 → spans (in0 ++ in1) lower upper →
  (length l0 + length l1 < fuel)%nat →
  picked l0 l1 in0 in1 (ForRange_loop U max_files fuel l0 l1 in0 in1 lower upper).
Proof.
  induction fuel as [|fuel IH]; intros l0 l1 in0 in1 lower upper Hok0 Hok1 Hs Hlen; [lia|].
  apply (ForRange_round_spec fuel l0 l1 in0 in1 lower upper OVERLAP_NO_NEW_TABLES); done.
Qed.

Lemma ComputeOverlappingFilesForRange_spec f l0 l1 :
  1 <= max_files → Forall file_range_ok (f :: l0) → Forall file_range_ok l1 →
  picked l0 l1 [f] [] (ComputeOverlappingFilesForRange U max_files (f :: l0) l1).
Proof.
  intros Hmax Hok0 Hok1. apply Forall_cons in Hok0 as [Hf Hok0].
  assert (in_range U (lo f) (hi f) f = true) as Hin.
  { apply in_range_overlaps. split; apply Hf. }
  unfold ComputeOverlappingFilesForRange.
  change (picked l0 l1 [f] [] (ForRange_round (length (f :: l0) + length l1)
    (scan (lo f) (hi f) (f :: l0) [] OVERLAP_NO_NEW_TABLES (lo f) (hi f)) l1 [])).
  cbn [InRange_loop]. rewrite Hin. cbn [app]. rewrite decide_False by (cbn; lia).
  assert (min_key U (lo f) (lo f) = lo f) as -> by (unfold min_key; by case_decide).
  assert (max_key U (hi f) (hi f) = hi f) as -> by (unfold max_key; by case_decide).
  apply ForRange_round_spec; try done.
  - intros. by apply ForRange_loop_spec.
  - by apply spans_single.
  - cbn. lia.
  - cbn. lia.
Qed.

(** *** The files of a range *)

Lemma GetOverlapping_loop_spec begin_ end_ limit skip contained inputs : ∀ new_files,
  new_files < limit →
  let out := GetOverlapping_loop U inputs begin_ end_ limit new_files skip contained in
  out `sublist_of` inputs ∧ size_of out <= limit - new_files
  ∧ Forall (λ f, number f ∉ skip ∧ overlaps f begin_ end_
                 ∧ (contained = true → begin_ ⊏ lo f ∧ hi f ⊏ end_)) out.
Proof.
  induction inputs as [|f inputs IH]; intros new_files Hlt; cbn [GetOverlapping_loop].
  { split_and!; [done|cbn; lia|constructor]. }
  set (add := if decide (number f ∈ skip) then false else _).
  destruct add eqn:Hadd; subst add.
  - assert (number f ∉ skip ∧ overlaps f begin_ end_ ∧ (contained = true → begin_ ⊏ lo f ∧ hi f ⊏ end_)) as Hf.
    { unfold overlaps. do 3 (case_decide; [done|]). split; [done|]. split.
      - split; [by apply cmp_not_lt|lia].
      - intros ->. apply andb_true_iff in Hadd as [Hb1%bool_decide_eq_true Hb2%bool_decide_eq_true].
        split; [done|]. by apply cmp_gt_lt. }
    clear Hadd. case_decide.
    + cbn [length]. split_and!; [apply sublist_skip, sublist_nil_l|lia|by constructor].
    + destruct (IH (new_files + 1)) as (Hsub & Hsize & Hall); [lia|].
      cbn [length]. split_and!; [by apply sublist_skip|lia|by constructor].
  - destruct (IH new_files Hlt) as (Hsub & Hsize & Hall). split_and!; [by apply sublist_cons|done..].
Qed.

Lemma GetOverlappingInputs_spec inputs begin_ end_ limit skip contained :
  0 <= limit →
  let out := GetOverlappingInputs U inputs begin_ end_ limit skip contained in
  out `sublist_of` inputs ∧ size_of out <= limit
  ∧ Forall (λ f, number f ∉ skip ∧ overlaps f begin_ end_
                 ∧ (contained = true → begin_ ⊏ lo f ∧ hi f ⊏ end_)) out.
Proof.
  intros Hl. unfold GetOverlappingInputs. case_decide.
  - cbn. split_and!; [apply sublist_nil_l|lia|constructor].
  - destruct (GetOverlapping_loop_spec begin_ end_ limit skip contained inputs 0) as (? & ? & ?); [lia|].
    split_and!; (done || lia).
Qed.

(** Files that reach into the range of one file. *)
Lemma spans_star f gs :
  file_range_ok f → Forall file_range_ok gs → (∀ g, g ∈ gs → overlaps g (lo f) (hi f)) →
  ∃ a b, spans (f :: gs) a b ∧ a ⊑ lo f ∧ hi f ⊑ b.
Proof.
  intros Hf. induction gs as [|g gs IH] using rev_ind; intros Hok Hov.
  - exists (lo f), (hi f). rewrite !cmp_refl. split_and!; [by apply spans_single|lia..].
  - apply Forall_app in Hok as [Hok Hg]. inversion Hg; subst.
    destruct IH as (a & b & Hs & Ha & Hb); [done|intros; apply Hov, elem_of_app; by left|].
    destruct (Hov g) as [Ho1 Ho2]; [apply elem_of_app; right; by left|].
    destruct (min_key_le (lo g) a) as (_ & Hm & _). destruct (max_key_ge (hi g) b) as (_ & Hx & _).
    exists (min_key U (lo g) a), (max_key U (hi g) b). split_and!; try by eapply cmp_le_trans.
    apply (spans_add (f :: gs) a b g Hs); [|done]. split; by eapply cmp_le_trans.
Qed.

Lemma GetRange_fold fs : ∀ s t,
  let r := foldl (λ '(s, l) f, (min_key U (lo f) s, max_key U (hi f) l)) (s, t) fs in
  (r.1 ⊑ s ∧ t ⊑ r.2) ∧ (∀ f, f ∈ fs → r.1 ⊑ lo f ∧ hi f ⊑ r.2)
  ∧ (r.1 = s ∨ ∃ f, f ∈ fs ∧ r.1 = lo f) ∧ (r.2 = t ∨ ∃ f, f ∈ fs ∧ r.2 = hi f).
Proof.
  induction fs as [|g fs IH]; intros s t; cbn [foldl].
  - cbn. rewrite !cmp_refl. split_and!; [lia..| |by left|by left]. by intros f ?%elem_of_nil.
  - destruct (IH (min_key U (lo g) s) (max_key U (hi g) t)) as ([H1 H2] & H3 & H4 & H5). cbn zeta in *.
    destruct (min_key_le (lo g) s) as (Hm1 & Hm2 & Hm). destruct (max_key_ge (hi g) t) as (Hx1 & Hx2 & Hx).
    split_and!; try by eapply cmp_le_trans.
    + intros f [->|Hf]%elem_of_cons; [split; by eapply cmp_le_trans|by apply H3].
    + destruct H4 as [H4|(f & Hf & H4)]; [|right; exists f; split; [by right|done]].
      rewrite H4. destruct Hm as [->| ->]; [right; exists g; split; [by left|done]|by left].
    + destruct H5 as [H5|(f & Hf & H5)]; [|right; exists f; split; [by right|done]].
      rewrite H5. destruct Hx as [->| ->]; [right; exists g; split; [by left|done]|by left].
Qed.

Lemma GetRange_spans fs a b s0 t0 :
  fs ≠ [] → Forall file_range_ok fs → spans fs a b →
  let r := GetRange U fs s0 t0 in spans fs r.1 r.2 ∧ r.1 ⊑ r.2.
Proof.
  destruct fs as [|f fs]; [done|]. intros _ Hok [Hb Hfill]. cbn [GetRange].
  destruct (GetRange_fold fs (lo f) (hi f)) as ([H1 H2] & H3 & H4 & H5). cbn zeta.
  set (r := foldl _ _ _) in *. apply Forall_cons in Hok as [Hf _].
  assert (a ⊑ r.1) as Ha.
  { destruct H4 as [->|(g & Hg & ->)]; apply Hb; [by left|by right]. }
  assert (r.2 ⊑ b) as Hb'.
  { destruct H5 as [->|(g & Hg & ->)]; apply Hb; [by left|by right]. }
  split; [split|].
  - intros g [->|Hg]%elem_of_cons; [done|by apply H3].
  - intros x Hx1 Hx2. apply Hfill; by eapply cmp_le_trans.
  - apply (cmp_le_trans _ (lo f)); [done|]. by apply (cmp_le_trans _ (hi f)).
Qed.

(** *** Extending the range by boundary files *)

Lemma Expand_scan_order inputs smallest largest : ∀ i lower upper,
  lower < i → i + size_of inputs <= upper →
  let r := Expand_scan U inputs smallest largest i lower upper in r.1 <= r.2.
Proof.
  induction inputs as [|f inputs IH]; intros i lower upper Hl Hu; cbn [Expand_scan length] in *; [cbn; lia|].
  case_decide; case_decide; cbn; try lia; apply IH; lia.
Qed.

Lemma Expand_down_le lower inputs : ∀ smallest,
  Forall file_range_ok inputs → Expand_down U lower inputs smallest ⊑ smallest.
Proof.
  intros smallest Hok. revert smallest. induction lower as [|i IH]; intros smallest; cbn; [rewrite cmp_refl; lia|].
  destruct (inputs !! i) as [f|] eqn:Hi; [|rewrite cmp_refl; lia].
  case_decide as Heq; [|rewrite cmp_refl; lia].
  rewrite Forall_lookup in Hok. specialize (Hok i f Hi). unfold file_range_ok in Hok.
  apply (cmp_le_trans _ (lo f)); [apply IH|]. apply (cmp_le_trans _ (hi f)); [done|].
  apply cmp_ge_le. lia.
Qed.

Lemma Expand_up_ge rest : ∀ largest,
  Forall file_range_ok rest → largest ⊑ Expand_up U rest largest.
Proof.
  induction rest as [|f rest IH]; intros largest Hok; cbn; [rewrite cmp_refl; lia|].
  apply Forall_cons in Hok as [Hf Hok]. case_decide as Heq; [|rewrite cmp_refl; lia].
  apply (cmp_le_trans _ (lo f)); [lia|]. by apply (cmp_le_trans _ (hi f)); [|apply IH].
Qed.

Lemma ExpandRange_spec inputs smallest largest :
  Forall file_range_ok inputs →
  ∃ s t, ExpandRangeWithBoundaries U inputs smallest largest = Ret (s, t) ∧ s ⊑ smallest ∧ largest ⊑ t.
Proof.
  intros Hok. unfold ExpandRangeWithBoundaries.
  pose proof (Expand_scan_order inputs smallest largest 0 (-1) (size_of inputs)) as Hord.
  destruct (Expand_scan U inputs smallest largest 0 (-1) (size_of inputs)) as [lower upper]. cbn in Hord.
  rewrite decide_True by (apply Hord; lia). eexists _, _. split; [done|].
  split; [by apply Expand_down_le|]. apply Expand_up_ge. by apply Forall_drop.
Qed.

Lemma RemoveOverlap_spec inputs s t f :
  f ∈ RemoveOverlapTablesWithRange U inputs s t ↔ f ∈ inputs ∧ ¬ overlaps f s t.
Proof.
  unfold RemoveOverlapTablesWithRange, overlaps. rewrite list_elem_of_filter.
  rewrite cmp_gt_lt. split.
  - intros [H Hin]. split; [done|]. intros [H1 H2]. destruct H as [H|H]; by apply key_antisym in H.
  - intros [Hin H]. split; [|done]. destruct (key_total s (hi f)); [|by left].
    destruct (key_total (lo f) t); [tauto|by right].
Qed.

(** *** One set *)

(** What is picked from the files of two levels: inputs without gaps unless
    the set stays in its level, no file twice, at most [max_files]. *)
Record good_set (level : Z) (l0 l1 : list FileMetaData) (c : Compaction) : Prop := {
  gs_level : level_ c = level;
  gs_target : target_level_ c = level + 1 ∨ target_level_ c = level;
  gs_nonempty : inputs_0 c ≠ [];
  gs_size : size_of (inputs_0 c) + size_of (inputs_1 c) <= max_files;
  gs_inputs_0 f : f ∈ inputs_0 c → f ∈ l0;
  gs_inputs_1 f : f ∈ inputs_1 c → f ∈ l1;
  gs_numbers : NoDup (number <$> all_inputs c);
  gs_spans : target_level_ c = level + 1 → ∃ a b, spans (all_inputs c) a b
}.

Lemma NoDup_sublist_number (fs gs : list FileMetaData) :
  fs `sublist_of` gs → NoDup (number <$> gs) → NoDup (number <$> fs).
Proof. intros Hsub Hnd. apply (sublist_NoDup _ (number <$> gs)); [done|]. by apply fmap_sublist. Qed.

Lemma Forall_sublist {A} (P : A → Prop) (l k : list A) : l `sublist_of` k → Forall P k → Forall P l.
Proof.
  intros Hsub. rewrite !Forall_forall. intros Hk x Hx. apply Hk. by apply (elem_of_sublist l).
Qed.

(** Numbers of inputs taken from two lists of files. *)
Lemma picked_numbers (l0 l1 in0 in1 : list FileMetaData) :
  NoDup (number <$> l0 ++ l1) → NoDup (number <$> in0) → NoDup (number <$> in1) →
  (∀ f, f ∈ in0 → f ∈ l0) → (∀ f, f ∈ in1 → f ∈ l1) → NoDup (number <$> in0 ++ in1).
Proof.
  rewrite !fmap_app, !NoDup_app. intros (_ & Hdisj & _) H0 H1 Hs0 Hs1. split_and!; try done.
  intros n (f & -> & Hf)%list_elem_of_fmap (g & Heq & Hg)%list_elem_of_fmap.
  apply (Hdisj (number f)); [by apply list_elem_of_fmap_2, Hs0|].
  rewrite Heq. by apply list_elem_of_fmap_2, Hs1.
Qed.

Lemma shrink_set_spec level f l0 l1 :
  1 <= max_files → Forall file_range_ok (f :: l0) → Forall file_range_ok l1 →
  NoDup (number <$> (f :: l0) ++ l1) →
  ∃ in0 in1 guides ro, shrink_set U max_files (f :: l0) l1 f = (in0, in1, guides, ro)
    ∧ good_set level (f :: l0) l1 (mkCompaction level (if ro then level + 1 else level) in0 in1 guides).
Proof.
  intros Hmax Hok0 Hok1 Hnd. pose proof Hok0 as Hok0'. apply Forall_cons in Hok0' as [Hf _].
  pose proof Hnd as Hnd'. rewrite fmap_app, NoDup_app in Hnd'. destruct Hnd' as (Hnd0 & _ & Hnd1).
  unfold shrink_set.
  destruct (GetOverlappingInputs_spec l1 (lo f) (hi f) (2 ^ 32 - 1) [] false) as (Hsub1 & _ & Hall1); [lia|].
  set (in1 := GetOverlappingInputs U l1 (lo f) (hi f) (2 ^ 32 - 1) [] false) in *. cbn zeta in *.
  assert (∀ extra, extra `sublist_of` (f :: l0) → Forall (λ g, number g ∉ [number f]) extra →
    NoDup (number <$> f :: extra) ∧ ∀ g, g ∈ f :: extra → g ∈ f :: l0) as Hextra.
  { intros extra Hsub Hskip. split.
    - cbn. apply NoDup_cons. split; [|by apply (NoDup_sublist_number _ (f :: l0))].
      intros (g & Heq & Hg)%list_elem_of_fmap. rewrite Forall_forall in Hskip.
      apply (Hskip g Hg). rewrite Heq. by left.
    - intros g [->|Hg]%elem_of_cons; [by left|]. by apply (elem_of_sublist extra). }
  assert (∀ g, g ∈ in1 → g ∈ l1) as Hin1 by (intros g Hg; by apply (elem_of_sublist in1)).
  assert (NoDup (number <$> in1)) as Hndin1 by by apply (NoDup_sublist_number _ l1).
  destruct (spans_star f in1) as (a & b & Hs & Ha & Hb).
  { done. } { by apply (Forall_sublist _ _ l1). }
  { intros g Hg. rewrite Forall_forall in Hall1. by apply Hall1 in Hg as (_ & ? & _). }
  assert (∀ extra guides, extra `sublist_of` (f :: l0) → Forall (λ g, number g ∉ [number f]) extra →
    (∀ g, g ∈ extra → a ⊑ lo g ∧ hi g ⊑ b) → 1 + size_of extra + size_of in1 <= max_files →
    good_set level (f :: l0) l1 (mkCompaction level (level + 1) (f :: extra) in1 guides)) as Hgood.
  { intros extra guides Hsub Hskip Hins Hsize. destruct (Hextra extra Hsub Hskip) as [Hn He].
    split; unfold all_inputs; cbn [level_ target_level_ inputs_0 inputs_1 length]; try done; try lia.
    - by apply (picked_numbers (f :: l0) l1).
    - intros _. exists a, b. apply (spans_perm ((f :: in1) ++ extra)); [solve_Permutation|].
      by apply spans_inside. }
  case_decide as Hwide.
  - destruct (GetOverlappingInputs_spec (f :: l0) (lo f) (hi f) (max_files - 1) [number f] false)
      as (Hsub & Hsize & Hall); [lia|].
    set (extra := GetOverlappingInputs U (f :: l0) (lo f) (hi f) (max_files - 1) [number f] false) in *.
    eexists _, _, _, false. split; [done|].
    destruct (Hextra extra Hsub) as [Hn He]; [eapply Forall_impl; [exact Hall|]; by intros g []|].
    split; unfold all_inputs; cbn [level_ target_level_ inputs_0 inputs_1 length]; try done; try lia.
    + by intros g ?%elem_of_nil.
    + by rewrite app_nil_r.
  - assert (∀ g, good_set level (f :: l0) l1 (mkCompaction level (level + 1) [f] in1 g)) as Hone.
    { intros g. apply (Hgood []); [apply sublist_nil_l|constructor|by intros h ?%elem_of_nil|cbn; lia]. }
    destruct in1 as [|first in1'] eqn:Ein1; [by eexists _, _, _, true|].
    destruct (last (first :: in1')) as [final|] eqn:Elast; [|by eexists _, _, _, true].
    case_decide as Hroom; [|by eexists _, _, _, true].
    assert (first ∈ in1) as Hfirst by (rewrite Ein1; by left).
    assert (final ∈ in1) as Hfinal by (rewrite Ein1; by apply last_Some_elem_of).
    rewrite <- Ein1 in *. clear Ein1 Elast.
    destruct (GetOverlappingInputs_spec (f :: l0) (lo first) (hi final) (max_files - size_of in1 - 1)
      [number f] true) as (Hsub & Hsize & Hall); [lia|].
    eexists _, _, _, true. split; [done|]. rewrite Forall_forall in Hall. apply Hgood; [done| | |lia].
    + apply Forall_forall. intros g Hg. by apply Hall in Hg as (? & _).
    + intros g Hg. apply Hall in Hg as (_ & _ & Hc). destruct (Hc eq_refl) as [Hc1 Hc2].
      destruct (spans_bound _ _ _ Hs first) as [Hf1 _]; [by right|].
      destruct (spans_bound _ _ _ Hs final) as [_ Hf2]; [by right|].
      split; [apply (cmp_le_trans _ (lo first)); [done|lia]|apply (cmp_le_trans _ (hi final)); [lia|done]].
Qed.

Lemma adjust_set_spec level f l0 l1 :
  1 <= max_files → Forall file_range_ok (f :: l0) → Forall file_range_ok l1 →
  NoDup (number <$> (f :: l0) ++ l1) →
  ∃ in0 in1 in0' in1' guides ro,
    ComputeOverlappingFilesForRange U max_files (f :: l0) l1 = Some (in0, in1)
    ∧ adjust_set U max_files (f :: l0) l1 in0 in1 = Ret (in0', in1', guides, ro)
    ∧ good_set level (f :: l0) l1 (mkCompaction level (if ro then level + 1 else level) in0' in1' guides).
Proof.
  intros Hmax Hok0 Hok1 Hnd.
  pose proof Hnd as Hnd'. rewrite fmap_app, NoDup_app in Hnd'. destruct Hnd' as (Hnd0 & _ & Hnd1).
  destruct (ComputeOverlappingFilesForRange_spec f l0 l1 Hmax Hok0 Hok1)
    as (a0 & a1 & r0 & r1 & a & b & Heq & Hp0 & Hp1 & Hs & _). cbn [app] in *.
  exists (f :: a0), a1. unfold adjust_set. case_decide as Hbig.
  - destruct (shrink_set_spec level f l0 l1 Hmax Hok0 Hok1 Hnd) as (in0' & in1' & guides & ro & -> & Hg).
    by exists in0', in1', guides, ro.
  - exists (f :: a0), a1, [], true. split_and!; [done..|].
    assert (f :: l0 ≡ₚ (f :: a0) ++ r0) as Hp0' by by rewrite Hp0.
    rewrite Hp0' in Hnd0. rewrite Hp1 in Hnd1. rewrite fmap_app in Hnd0, Hnd1.
    apply NoDup_app in Hnd0 as (Hnd0 & _). apply NoDup_app in Hnd1 as (Hnd1 & _).
    assert (∀ g, g ∈ f :: a0 → g ∈ f :: l0) as Hin0 by (intros g Hg; rewrite Hp0'; apply elem_of_app; by left).
    assert (∀ g, g ∈ a1 → g ∈ l1) as Hin1 by (intros g Hg; rewrite Hp1; apply elem_of_app; by left).
    split; unfold all_inputs; cbn [level_ target_level_ inputs_0 inputs_1]; try done; try lia.
    + by apply (picked_numbers (f :: l0) l1).
    + intros _. by exists a, b.
Qed.

(** The files left after a set was picked. *)
Definition cleared_of (c : Compaction) (rest : list FileMetaData) : Prop :=
  (∀ g, g ∈ rest → number g ∉ number <$> all_inputs c)
  ∧ (target_level_ c = level_ c + 1 →
     ∃ s t, s ⊑ t ∧ (∀ f, f ∈ all_inputs c → s ⊑ lo f ∧ hi f ⊑ t) ∧ ∀ g, g ∈ rest → ¬ overlaps g s t).

Lemma remove_picked_spec level l0 l1 c (ro : bool) :
  Forall file_range_ok l0 → Forall file_range_ok l1 → NoDup (number <$> l0 ++ l1) →
  good_set level l0 l1 c → target_level_ c = (if ro then level + 1 else level) →
  ∃ l0' l1', remove_picked U c ro l0 l1 = Ret (l0', l1')
    ∧ l0' `sublist_of` l0 ∧ l1' `sublist_of` l1 ∧ cleared_of c (l0' ++ l1').
Proof.
  intros Hok0 Hok1 Hnd Hg Htarget.
  assert (∃ m0 m1, (if ro then
       let '(smallest, largest) := GetRange U (all_inputs c) [] [] in
       '(smallest, largest) ← ExpandRangeWithBoundaries U l1 smallest largest;
       Ret (RemoveOverlapTablesWithRange U l0 smallest largest,
            RemoveOverlapTablesWithRange U l1 smallest largest)
     else Ret (l0, l1)) = Ret (m0, m1) ∧ m0 `sublist_of` l0 ∧ m1 `sublist_of` l1
    ∧ (ro = true → ∃ s t, s ⊑ t ∧ (∀ f, f ∈ all_inputs c → s ⊑ lo f ∧ hi f ⊑ t)
                     ∧ ∀ g, g ∈ m0 ++ m1 → ¬ overlaps g s t)) as (m0 & m1 & Hm & Hs0 & Hs1 & Hm').
  { destruct ro; [|by exists l0, l1]. destruct (gs_spans _ _ _ _ Hg Htarget) as (a & b & Hsp).
    destruct (GetRange_spans (all_inputs c) a b [] []) as [[Hbound _] Hst]; [| |done|].
    - unfold all_inputs. intros [? _]%app_nil. by apply (gs_nonempty _ _ _ _ Hg).
    - apply Forall_forall. rewrite Forall_forall in Hok0. rewrite Forall_forall in Hok1.
      intros f [Hf|Hf]%elem_of_app; [by apply Hok0, (gs_inputs_0 _ _ _ _ Hg)|by apply Hok1, (gs_inputs_1 _ _ _ _ Hg)].
    - destruct (GetRange U (all_inputs c) [] []) as [s t]. cbn [fst snd] in *.
      destruct (ExpandRange_spec l1 s t Hok1) as (s' & t' & -> & Hs' & Ht').
      eexists _, _. split; [done|]. split_and!; [apply sublist_filter..|]. intros _.
      exists s', t'. split_and!.
      + apply (cmp_le_trans _ s); [done|]. by apply (cmp_le_trans _ t).
      + intros f Hf. destruct (Hbound f Hf). split; by eapply cmp_le_trans.
      + intros g [Hin|Hin]%elem_of_app; by apply RemoveOverlap_spec in Hin as [_ ?]. }
  unfold remove_picked. rewrite Hm. cbn [mbind res_bind]. eexists _, _. split; [done|].
  assert (RemoveTables m0 (inputs_0 c) `sublist_of` m0) as Hr0 by apply sublist_filter.
  assert (RemoveTables m1 (inputs_1 c) `sublist_of` m1) as Hr1 by apply sublist_filter.
  split_and!; [by etrans|by etrans|split].
  - rewrite fmap_app, NoDup_app in Hnd. destruct Hnd as (_ & Hdisj & _).
    intros g [Hin|Hin]%elem_of_app; unfold all_inputs; rewrite fmap_app, not_elem_of_app;
      unfold RemoveTables in Hin; apply list_elem_of_filter in Hin as [Hni Hin].
    + split; [done|]. intros (h & Heq & Hh)%list_elem_of_fmap.
      apply (Hdisj (number g)); [by apply list_elem_of_fmap_2, (elem_of_sublist m0)|].
      rewrite Heq. apply list_elem_of_fmap_2. by apply (gs_inputs_1 _ _ _ _ Hg).
    + split; [|done]. intros (h & Heq & Hh)%list_elem_of_fmap.
      apply (Hdisj (number g)); [|by apply list_elem_of_fmap_2, (elem_of_sublist m1)].
      rewrite Heq. apply list_elem_of_fmap_2. by apply (gs_inputs_0 _ _ _ _ Hg).
  - rewrite (gs_level _ _ _ _ Hg). intros Ht. destruct ro; [|lia].
    destruct (Hm' eq_refl) as (s & t & Hst & Hb & Hno). exists s, t. split_and!; try done.
    intros g [Hin|Hin]%elem_of_app; apply Hno, elem_of_app;
      [left; by apply (elem_of_sublist (RemoveTables m0 (inputs_0 c)))
      |right; by apply (elem_of_sublist (RemoveTables m1 (inputs_1 c)))].
Qed.

(** *** All sets *)

(** All keys of one set are before all keys of the other. *)
Definition sets_before (c d : Compaction) : Prop :=
  ∀ f g, f ∈ all_inputs c → g ∈ all_inputs d → hi f ⊏ lo g.

(** Two sets that target the next level are apart. *)
Definition sets_apart (c d : Compaction) : Prop :=
  target_level_ c = level_ c + 1 → target_level_ d = level_ d + 1 → sets_before c d ∨ sets_before d c.

Context (sort : ∀ A, (A → A → bool) → list A → list A).
Context (sort_permutes : ∀ A lt l, sort A lt l ≡ₚ l).

Lemma good_set_perm level l0 l1 t in0 in1 in1' guides :
  in1' ≡ₚ in1 → good_set level l0 l1 (mkCompaction level t in0 in1 guides) →
  good_set level l0 l1 (mkCompaction level t in0 in1' guides).
Proof.
  intros Hp [H1 H2 H3 H4 H5 H6 H7 H8].
  split; unfold all_inputs in *; cbn [level_ target_level_ inputs_0 inputs_1] in *; try done.
  - by rewrite Hp.
  - intros f. rewrite Hp. apply H6.
  - by rewrite Hp.
  - intros Ht. destruct (H8 Ht) as (a & b & Hs). exists a, b. apply (spans_perm (in0 ++ in1)); [by rewrite Hp|done].
Qed.

Lemma pick_set_spec level f l0 l1 :
  1 <= max_files → Forall file_range_ok (f :: l0) → Forall file_range_ok l1 →
  NoDup (number <$> (f :: l0) ++ l1) →
  ∃ c l0' l1', pick_set U max_files sort level (f :: l0) l1 = Ret (c, l0', l1')
    ∧ good_set level (f :: l0) l1 c ∧ l0' `sublist_of` (f :: l0) ∧ l1' `sublist_of` l1
    ∧ cleared_of c (l0' ++ l1').
Proof.
  intros Hmax Hok0 Hok1 Hnd.
  destruct (adjust_set_spec level f l0 l1 Hmax Hok0 Hok1 Hnd) as (in0 & in1 & in0' & in1' & guides & ro & Hfr & Hadj & Hg).
  unfold pick_set. rewrite Hfr, Hadj. cbn [mbind res_bind].
  rewrite decide_True by apply (gs_size _ _ _ _ Hg).
  set (t := if ro then level + 1 else level) in *.
  destruct (remove_picked_spec level (f :: l0) l1 (mkCompaction level t in0' in1' guides) ro Hok0 Hok1 Hnd Hg eq_refl)
    as (l0' & l1' & -> & Hs0 & Hs1 & Hc1 & Hc2).
  cbn [mbind res_bind]. set (sorted := sort _ _ in1').
  assert (sorted ≡ₚ in1') as Hp by apply sort_permutes.
  eexists _, l0', l1'. split; [done|]. split_and!; [by apply (good_set_perm _ _ _ _ _ in1')|done..|].
  split; unfold all_inputs in *; cbn [level_ target_level_ inputs_0 inputs_1] in *.
  - intros g Hg'. rewrite Hp. by apply Hc1.
  - intros Ht. destruct (Hc2 Ht) as (s & t' & Hst & Hb & Hno). exists s, t'. split_and!; try done.
    intros h. rewrite Hp. apply Hb.
Qed.

(** A set picked later, from the files left, is apart from the earlier one. *)
Lemma cleared_apart level l0 l1 c d :
  cleared_of c (l0 ++ l1) → good_set level l0 l1 d → Forall file_range_ok (l0 ++ l1) → sets_apart c d.
Proof.
  intros [_ Hc] Hd Hok Htc Htd. destruct (Hc Htc) as (s & t & Hst & Hb & Hno).
  rewrite (gs_level _ _ _ _ Hd) in Htd. destruct (gs_spans _ _ _ _ Hd Htd) as (a & b & Hs).
  assert (∀ g, g ∈ all_inputs d → g ∈ l0 ++ l1) as Hin.
  { intros g [Hg|Hg]%elem_of_app; apply elem_of_app;
      [left; by apply (gs_inputs_0 _ _ _ _ Hd)|right; by apply (gs_inputs_1 _ _ _ _ Hd)]. }
  assert (a ⊑ b) as Hab.
  { destruct (inputs_0 d) as [|g gs] eqn:E; [by destruct (gs_nonempty _ _ _ _ Hd)|].
    assert (g ∈ all_inputs d) as Hg by (unfold all_inputs; rewrite E; by left).
    rewrite Forall_forall in Hok. specialize (Hok g (Hin g Hg)). unfold file_range_ok in Hok.
    destruct (spans_bound _ _ _ Hs g Hg) as [H1 H2].
    apply (cmp_le_trans _ (lo g)); [done|]. by apply (cmp_le_trans _ (hi g)). }
  destruct (spans_apart (all_inputs d) a b s t Hs Hab Hst) as [H|H].
  - intros g Hg. by apply Hno, Hin.
  - right. intros g f Hg Hf. destruct (Hb f Hf) as [H1 _]. destruct (spans_bound _ _ _ Hs g Hg) as [_ H2].
    apply (cmp_le_lt_trans _ b); [done|]. by apply (cmp_lt_le_trans _ s).
  - left. intros f g Hf Hg. destruct (Hb f Hf) as [_ H1]. destruct (spans_bound _ _ _ Hs g Hg) as [H2 _].
    apply (cmp_le_lt_trans _ t); [done|]. by apply (cmp_lt_le_trans _ a).
Qed.

Lemma good_set_mono level l0 l1 k0 k1 c :
  good_set level l0 l1 c → l0 `sublist_of` k0 → l1 `sublist_of` k1 → good_set level k0 k1 c.
Proof.
  intros [H1 H2 H3 H4 H5 H6 H7 H8] Hs0 Hs1. split; try done.
  - intros f Hf. apply (elem_of_sublist l0); [by apply H5|done].
  - intros f Hf. apply (elem_of_sublist l1); [by apply H6|done].
Qed.

Lemma pick_sets_spec level n : ∀ l0 l1,
  1 <= max_files → Forall file_range_ok l0 → Forall file_range_ok l1 → NoDup (number <$> l0 ++ l1) →
  ∃ cs, pick_sets U max_files sort n level l0 l1 = Ret cs
    ∧ Forall (good_set level l0 l1) cs ∧ NoDup (number <$> (cs ≫= all_inputs))
    ∧ StronglySorted sets_apart cs ∧ (length cs <= n)%nat ∧ (l0 ≠ [] → n ≠ 0%nat → cs ≠ []).
Proof.
  induction n as [|n IH]; intros l0 l1 Hmax Hok0 Hok1 Hnd; cbn [pick_sets].
  { exists []. destruct l0; split_and!; (done || constructor). }
  destruct l0 as [|f l0]; [exists []; split_and!; (done || (cbn; lia) || constructor)|].
  destruct (pick_set_spec level f l0 l1 Hmax Hok0 Hok1 Hnd) as (c & l0' & l1' & -> & Hg & Hs0 & Hs1 & Hc).
  cbn [mbind res_bind].
  assert (l0' ++ l1' `sublist_of` (f :: l0) ++ l1) as Hsub by by apply sublist_app.
  assert (Forall file_range_ok l0') as Hk0 by by apply (Forall_sublist _ _ (f :: l0)).
  assert (Forall file_range_ok l1') as Hk1 by by apply (Forall_sublist _ _ l1).
  destruct (IH l0' l1' Hmax Hk0 Hk1) as (cs & -> & Hgs & Hnds & Hap & Hlen & _).
  { by apply (NoDup_sublist_number _ ((f :: l0) ++ l1)). }
  exists (c :: cs). cbn [mbind res_bind].
  assert (∀ d g, d ∈ cs → g ∈ all_inputs d → g ∈ l0' ++ l1') as Hin.
  { intros d g Hd [Hg'|Hg']%elem_of_app; rewrite Forall_forall in Hgs; specialize (Hgs d Hd); apply elem_of_app;
      [left; by apply (gs_inputs_0 _ _ _ _ Hgs)|right; by apply (gs_inputs_1 _ _ _ _ Hgs)]. }
  split_and!; [done| | | |cbn; lia|done].
  - constructor; [done|]. eapply Forall_impl; [exact Hgs|]. intros d Hd. by apply (good_set_mono _ l0' l1').
  - rewrite bind_cons, fmap_app. apply NoDup_app. split_and!; [apply (gs_numbers _ _ _ _ Hg)| |done].
    intros m Hm (g & -> & Hg')%list_elem_of_fmap. apply list_elem_of_bind in Hg' as (d & Hg' & Hd).
    apply (proj1 Hc g); [by apply (Hin d)|done].
  - constructor; [done|]. apply Forall_forall. intros d Hd. rewrite Forall_forall in Hgs.
    apply (cleared_apart level l0' l1'); [done|by apply Hgs|by apply Forall_app].
Qed.
End ranges.

(** ** Properties *)

Lemma two_levels {A} (files : list (list A)) i l0 l1 :
  files !! i = Some l0 → files !! S i = Some l1 → ∃ pre post, concat files = pre ++ (l0 ++ l1) ++ post.
Proof.
  intros H0 H1. exists (concat (take i files)), (concat (drop (S (S i)) files)).
  rewrite <- (take_drop_middle files i l0 H0) at 1. rewrite concat_app. cbn [concat].
  replace (drop (S i) files) with (l1 :: drop (S (S i)) files) by (symmetry; by apply drop_S).
  cbn [concat]. by rewrite !app_assoc.
Qed.

(** C30. The files that overlap transitively are found: the search terminates,
    splits the files of both levels into inputs and rest, and when the inputs
    are within the limit no file of the rest has a key range that meets one of
    an input. *)
Theorem overlapping_files_closed (U : Comparator) (OU : ComparatorOrder U) max_files f l0 l1 :
  1 <= max_files → Forall (file_wf U) (f :: l0) → Forall (file_wf U) l1 →
  ∃ in0 in1 rest0 rest1,
    ComputeOverlappingFilesForRange U max_files (f :: l0) l1 = Some (f :: in0, in1)
    ∧ l0 ≡ₚ in0 ++ rest0 ∧ l1 ≡ₚ in1 ++ rest1
    ∧ (size_of (f :: in0) + size_of in1 <= max_files → ∀ g h, g ∈ rest0 ++ rest1 → h ∈ f :: in0 ++ in1 →
       ¬ overlaps U g (smallest_user_key h) (largest_user_key h)).
Proof.
  intros Hmax H0 H1.
  destruct (ComputeOverlappingFilesForRange_spec U max_files f l0 l1 Hmax)
    as (in0 & in1 & rest0 & rest1 & a & b & Heq & Hp0 & Hp1 & Hs & Hno).
  - eapply Forall_impl; [exact H0|]. apply file_wf_range.
  - eapply Forall_impl; [exact H1|]. apply file_wf_range.
  - exists in0, in1, rest0, rest1. split_and!; [done..|]. intros Hsize g h Hg Hh [Ho1 Ho2].
    specialize (Hno Hsize). rewrite Forall_forall in Hno. apply (Hno g Hg).
    destruct (spans_bound _ _ _ _ Hs h Hh) as [Ha Hb]. split; by eapply cmp_le_trans.
Qed.

Lemma overlapping_files_closed_witness :
  ∃ in0 in1 rest0 rest1,
    ComputeOverlappingFilesForRange YCSBKeyComparator 20 [example_file 10 5 22 []; example_file 11 35 60 []]
      example_level = Some (example_file 10 5 22 [] :: in0, in1)
    ∧ [example_file 11 35 60 []] ≡ₚ in0 ++ rest0 ∧ example_level ≡ₚ in1 ++ rest1
    ∧ (size_of (example_file 10 5 22 [] :: in0) + size_of in1 <= 20 →
       ∀ g h, g ∈ rest0 ++ rest1 → h ∈ example_file 10 5 22 [] :: in0 ++ in1 →
       ¬ overlaps YCSBKeyComparator g (smallest_user_key h) (largest_user_key h)).
Proof.
  apply (overlapping_files_closed YCSBKeyComparator YCSB_order 20).
  - lia.
  - repeat (apply Forall_cons; split); try apply Forall_nil_2;
      (split; [|split]; [eexists _, _, _; split; [|reflexivity]; seq_lit..|lit]).
  - apply example_level_sorted.
Defined.

(** C18. The compactions chosen to run in parallel are independent: for a
    consistent version the choice never fails an assertion, every set has an
    input and respects the limit on files, no file is an input of two sets, and
    of two sets that target the next level one has all its keys before the
    other. *)
Theorem nonoverlapping_sets (U : Comparator) (OU : ComparatorOrder U) max_files max_sets
    (sort : ∀ A, (A → A → bool) → list A → list A) v level l0 l1 :
  (∀ A lt l, sort A lt l ≡ₚ l) → 1 <= max_files → 1 <= max_sets → version_ok U v → 0 <= level →
  files_ v !! Z.to_nat level = Some l0 → files_ v !! Z.to_nat (level + 1) = Some l1 →
  ∃ cs, ComputeNonOverlappingSet U max_files max_sets sort level (files_ v) = Ret cs
    ∧ (l0 ≠ [] → cs ≠ []) ∧ size_of cs <= max_sets
    ∧ (∀ c, c ∈ cs → good_set U max_files level l0 l1 c)
    ∧ NoDup (number <$> (cs ≫= all_inputs))
    ∧ (∀ c d, c ∈ cs → d ∈ cs → c = d ∨ sets_apart U c d).
Proof.
  intros Hsort Hmax Hsets Hv Hlevel H0 H1.
  assert (level + 1 < size_of (files_ v)) as Hlt by (apply lookup_lt_Some in H1; lia).
  rewrite Z2Nat.inj_add in H1 by lia. change (Z.to_nat 1) with 1%nat in H1. rewrite Nat.add_1_r in H1.
  destruct (two_levels (files_ v) _ l0 l1 H0 H1) as (pre & post & Hcat).
  pose proof (vo_wf U v Hv) as Hwf. pose proof (vo_numbers U v Hv) as Hnd. rewrite Hcat in Hwf, Hnd.
  rewrite !Forall_app in Hwf. destruct Hwf as (_ & [Hw0 Hw1] & _).
  rewrite fmap_app, NoDup_app, (fmap_app _ (l0 ++ l1)), NoDup_app in Hnd. destruct Hnd as (_ & _ & Hnd & _).
  destruct (pick_sets_spec U max_files sort Hsort level 64 l0 l1 Hmax)
    as (cs & Hcs & Hgood & Hnums & Hap & Hlen & Hne); [..|done|].
  { eapply Forall_impl; [exact Hw0|]. apply file_wf_range. }
  { eapply Forall_impl; [exact Hw1|]. apply file_wf_range. }
  assert (∀ c d, c ∈ cs → d ∈ cs → c = d ∨ sets_apart U c d) as Hpair.
  { clear -Hap. induction Hap as [|c cs _ IH Hc]; [by intros c d ?%elem_of_nil|].
    rewrite Forall_forall in Hc. intros x y [->|Hx]%elem_of_cons [->|Hy]%elem_of_cons; auto.
    right. intros Ht1 Ht2. destruct (Hc x Hx Ht2 Ht1); tauto. }
  unfold ComputeNonOverlappingSet. rewrite decide_True by lia.
  rewrite H0. rewrite Z2Nat.inj_add by lia. change (Z.to_nat 1) with 1%nat. rewrite Nat.add_1_r, H1.
  change (default [] (Some l0)) with l0. change (default [] (Some l1)) with l1. rewrite Hcs.
  cbn [mbind res_bind]. eexists. split; [done|].
  rewrite Forall_forall in Hgood. case_decide as Hbig.
  - set (sorted := sort _ _ cs). assert (sorted ≡ₚ cs) as Hp by apply Hsort.
    assert (∀ c, c ∈ take (Z.to_nat max_sets) sorted → c ∈ cs) as Hin.
    { intros c Hc. rewrite <- Hp. by apply (elem_of_sublist (take (Z.to_nat max_sets) sorted)); [|apply sublist_take]. }
    split_and!.
    + intros _ Hnil. apply (f_equal length) in Hnil. rewrite length_take in Hnil. rewrite Hp in Hnil. cbn in Hnil. lia.
    + rewrite length_take. lia.
    + intros c Hc. by apply Hgood, Hin.
    + rewrite <- Hp in Hnums. rewrite <- (take_drop (Z.to_nat max_sets) sorted), bind_app, fmap_app in Hnums.
      by apply NoDup_app in Hnums as (? & _).
    + intros c d Hc Hd. by apply Hpair; apply Hin.
  - split_and!; [intros Hl0; by apply Hne|lia|done..].
Qed.

(** A sorting function, and a version with two files at level 0. *)
Fixpoint insert_by {A} (lt : A → A → bool) (x : A) (l : list A) : list A :=
  match l with
  | [] => [x]
  | y :: l => if lt y x then y :: insert_by lt x l else x :: y :: l
  end.

Definition insertion_sort A (lt : A → A → bool) (l : list A) : list A := foldr (insert_by lt) [] l.

Lemma insertion_sort_permutes A lt (l : list A) : insertion_sort A lt l ≡ₚ l.
Proof.
  assert (∀ x k, insert_by lt x k ≡ₚ x :: k) as Hins.
  { intros x k. induction k as [|y k IH]; cbn; [done|]. case_match; [|done]. rewrite IH. solve_Permutation. }
  unfold insertion_sort. induction l as [|x l IH]; [done|]. cbn. by rewrite Hins, IH.
Qed.

Definition example_two_levels : VersionEdit :=
  add_new_file (add_new_file example_add 0 (example_file 10 5 22 [])) 0 (example_file 11 35 60 []).

Lemma example_two_levels_applicable : edit_applicable YCSBKeyComparator 2 example_two_levels.
Proof.
  destruct example_add_applicable as [Hd Hn Hi _ _ _]. unfold example_two_levels. split.
  - constructor.
  - cbn [add_new_file new_files_ app]. apply Forall_app. split; [apply Forall_app; split; [exact Hn|]|];
      (apply Forall_cons; split; [|apply Forall_nil_2]; split; [cbn; lia|];
       split; [|split]; [eexists _, _, _; split; [|reflexivity]; seq_lit..|lit]).
  - cbn [add_new_file new_files_ app]. apply Forall_app. split; [apply Forall_app; split; [exact Hi|]|];
      (apply Forall_cons; split; [done|apply Forall_nil_2]).
  - apply (bool_decide_unpack _). vm_compute. exact I.
  - intros d nf Hin. exfalso. exact (not_elem_of_nil _ Hin).
  - reflexivity.
Qed.

Definition version_two_levels : Version :=
  match LogAndApply_version YCSBKeyComparator (Version_init 2 0) example_two_levels 1 with
  | Ret v => v
  | _ => Version_init 2 0
  end.

Lemma nonoverlapping_sets_witness :
  ∃ cs, ComputeNonOverlappingSet YCSBKeyComparator 20 4 insertion_sort 0 (files_ version_two_levels) = Ret cs
    ∧ NoDup (number <$> (cs ≫= all_inputs))
    ∧ ∀ c d, c ∈ cs → d ∈ cs → c = d ∨ sets_apart YCSBKeyComparator c d.
Proof.
  assert (version_ok YCSBKeyComparator version_two_levels) as Hv.
  { apply (LogAndApply_ok YCSBKeyComparator (Version_init 2 0) example_two_levels 1).
    - apply Version_init_ok.
    - apply example_two_levels_applicable.
    - vm_compute. reflexivity. }
  destruct (nonoverlapping_sets YCSBKeyComparator YCSB_order 20 4 insertion_sort version_two_levels 0
    (map (λ f, incr_refs (new_file f)) [example_file 10 5 22 []; example_file 11 35 60 []])
    (map (λ f, incr_refs (new_file f)) example_level)) as (cs & Hcs & _ & _ & _ & Hn & Hap).
  - apply insertion_sort_permutes.
  - lia.
  - lia.
  - exact Hv.
  - lia.
  - vm_compute. reflexivity.
  - vm_compute. reflexivity.
  - exists cs. by split_and!.
Defined.
