(* ===== verification/Compaction.v ===== *)
(** * Compaction: merging tables and memtables

    [db/compaction.cpp] and [CompactionState] of [db/compaction.h].  A job reads
    an iterator over its inputs, drops the entries that no snapshot can see any
    more, and writes the others to new tables, or to a memtable.  The files it
    writes are behind the interface [TableWriter]; log messages, statistics and
    the eviction of the inputs from the table cache are left out. *)

From S2P Require Import Prelude Coding Comparator Cursor NovaCommon DbFormat UserScan Merger Subrange FileMeta VersionEdit FileSearch VersionBuilder CompactionPick.

(** What a job does with the tables it writes, over states of type [W]:
    [fn_generator_()]; a client and a builder for a new table; the builder's
    [Add], [NumEntries] and [FileSize]; and writing the table of a builder to
    the storage, which completes its metadata. *)
Class TableWriter (W B : Type) := {
  tw_number : W → W * Z;
  tw_open : W → Z → res (W * B);
  tw_Add : B → bytes → bytes → res (B * bool);
  tw_NumEntries : B → Z;
  tw_FileSize : B → Z;
  tw_finish : W → B → FileMetaData → res (W * FileMetaData)
}.

Inductive CompactOutputType := kCompactOutputMemTables | kCompactOutputSSTables.

(** The members of [Compaction] that [ShouldStopBefore] updates. *)
Record StopState := mkStop { grandparent_index_ : nat; seen_key_ : bool; overlapped_bytes_ : Z }.

(** [CompactionState]; the subrange index starts at 0 and only grows. *)
Record CompactionState (B : Type) := mkState {
  cs_compaction : option (Compaction * StopState);
  cs_subranges : option (list SubRange);
  cs_subrange_index : nat;
  cs_smallest_snapshot : Z;
  cs_outputs : list FileMetaData;
  cs_builder : option B;
  cs_total_bytes : Z
}.
Arguments mkState {B} _ _ _ _ _ _ _.
Arguments cs_compaction {B} _.
Arguments cs_subranges {B} _.
Arguments cs_subrange_index {B} _.
Arguments cs_smallest_snapshot {B} _.
Arguments cs_outputs {B} _.
Arguments cs_builder {B} _.
Arguments cs_total_bytes {B} _.

Definition CompactionState_init {B} (c : option Compaction) (s : option (list SubRange)) (n : Z) : CompactionState B :=
  mkState ((λ c, (c, mkStop 0 false 0)) <$> c) s 0 n [] None 0.

Definition set_stop {B} (c : CompactionState B) (st : option (Compaction * StopState)) (index : nat) : CompactionState B :=
  mkState st (cs_subranges c) index (cs_smallest_snapshot c) (cs_outputs c) (cs_builder c) (cs_total_bytes c).
Definition set_outputs {B} (c : CompactionState B) (outputs : list FileMetaData) (builder : option B) : CompactionState B :=
  mkState (cs_compaction c) (cs_subranges c) (cs_subrange_index c) (cs_smallest_snapshot c) outputs builder (cs_total_bytes c).
Definition add_bytes {B} (c : CompactionState B) (n : Z) : CompactionState B :=
  mkState (cs_compaction c) (cs_subranges c) (cs_subrange_index c) (cs_smallest_snapshot c) (cs_outputs c) (cs_builder c)
    (w64 (cs_total_bytes c + n)).

(** Updates of [*current_output()]. *)
Definition update_last {A} (f : A → A) (l : list A) : list A :=
  match last l with Some x => take (length l - 1) l ++ [f x] | None => l end.

Definition file_numbered (n : Z) : FileMetaData :=
  mkFile 0 (1 ≪ 30) [] n 0 0 0 0 [] [] NONE [] StoCBlockHandle_init.
Definition with_keys (smallest' largest' : bytes) (f : FileMetaData) : FileMetaData :=
  mkFile (refs f) (allowed_seeks f) (memtable_ids f) (number f) (file_size f) (converted_file_size f) (flush_timestamp f)
    (level f) smallest' largest' (compaction_status f) (block_replica_handles f) (parity_block_handle f).

Section stop.
Context (U : Comparator).

(** The loop over the grandparents that end before the key. *)
Fixpoint pass_grandparents (rest : list FileMetaData) (internal_key : bytes) (st : StopState) : StopState :=
  match rest with
  | [] => st
  | g :: rest =>
      if decide (InternalKey_Compare U internal_key (largest g) > 0) then
        pass_grandparents rest internal_key
          (mkStop (S (grandparent_index_ st)) (seen_key_ st)
             (if seen_key_ st then overlapped_bytes_ st + 1 else overlapped_bytes_ st))
      else st
  end.

(** [Compaction::ShouldStopBefore]. *)
Definition Compaction_ShouldStopBefore (c : Compaction) (st : StopState) (internal_key : bytes) : StopState * bool :=
  let st := pass_grandparents (drop (grandparent_index_ st) (grandparents_ c)) internal_key st in
  let max_overlap := Z.max (Z.min 5 (size_of (grandparents_ c) / 4)) 1 in
  if decide (overlapped_bytes_ st >= max_overlap) then (mkStop (grandparent_index_ st) true 0, true)
  else (mkStop (grandparent_index_ st) true (overlapped_bytes_ st), false).

(** The loop over the subranges that end before the key. *)
Fixpoint pass_subranges (rest : list SubRange) (userkey : bytes) (index : nat) (stop : bool) : res (nat * bool) :=
  match rest with
  | [] => Ret (index, stop)
  | sr :: rest =>
      greater ← SubRange_IsGreaterThanUpper U sr userkey;
      if (greater : bool) then pass_subranges rest userkey (S index) true else Ret (index, stop)
  end.

(** [CompactionState::ShouldStopBefore]. *)
Definition ShouldStopBefore {B} (c : CompactionState B) (internal_key : bytes) : res (CompactionState B * bool) :=
  '(index, subrange_stop) ←
    match cs_subranges c with
    | Some srs => pass_subranges (drop (cs_subrange_index c) srs) (ExtractUserKey internal_key) (cs_subrange_index c) false
    | None => Ret (cs_subrange_index c, false)
    end;
  let '(st, compaction_stop) :=
    match cs_compaction c with
    | Some (cp, st) => let '(st, stop) := Compaction_ShouldStopBefore cp st internal_key in (Some (cp, st), stop)
    | None => (None, false)
    end in
  Ret (set_stop c st index, subrange_stop || compaction_stop).
End stop.

Section job.
Context (U : Comparator) {W B : Type} {TW : TableWriter W B} {S : Type} (it : Iter S).
Context (max_file_size : Z) (drop_duplicates : bool) (output_type : CompactOutputType).
Context (add_to_memtable : W → ParsedInternalKey → bytes → res W).

Local Abbreviation state := (CompactionState B).

Definition OpenCompactionOutputFile (w : W) (c : state) : res (W * state) :=
  match cs_builder c with
  | Some _ => Abort
  | None =>
      let '(w, file_number) := tw_number w in
      if decide (file_number = 0) then Abort
      else
        '(w, b) ← tw_open w file_number;
        Ret (w, set_outputs c (cs_outputs c ++ [file_numbered file_number]) (Some b))
  end.

(** [FinishCompactionOutputFile]: an error of the input iterator ends in a failed
    assertion, after the builder was abandoned. *)
Definition FinishCompactionOutputFile (w : W) (c : state) (s : S) : res (W * state) :=
  match cs_builder c, last (cs_outputs c) with
  | Some b, Some out =>
      if decide (number out = 0) then Abort
      else if op_status_ok it s then
        '(w, f) ← tw_finish w b out;
        Ret (w, add_bytes (set_outputs c (update_last (λ _, f) (cs_outputs c)) None) (file_size f))
      else Abort
  | _, _ => Abort
  end.

(** The variables of the loop: [current_user_key] if there is one, and
    [last_sequence_for_key]. *)
Definition current_key (cur : option bytes) (last_sequence : Z) (ikey : ParsedInternalKey) : option bytes * Z :=
  match cur with
  | Some u => if decide (U.(Compare) (user_key ikey) u ≠ 0) then (Some (user_key ikey), kMaxSequenceNumber)
              else (Some u, last_sequence)
  | None => (Some (user_key ikey), kMaxSequenceNumber)
  end.

(** Adding an entry to the current output table, and closing it when it is big
    enough. *)
Definition add_to_table (w : W) (c : state) (s : S) (key value : bytes) : res (W * state) :=
  '(w, c) ← match cs_builder c with None => OpenCompactionOutputFile w c | Some _ => Ret (w, c) end;
  match cs_builder c with
  | None => Abort
  | Some b =>
      let outputs := update_last (λ f, with_keys (if decide (tw_NumEntries b = 0) then key else smallest f) key f) (cs_outputs c) in
      '(b, ok) ← tw_Add b key value;
      if (ok : bool) then
        let c := set_outputs c outputs (Some b) in
        if decide (tw_FileSize b >= max_file_size) then FinishCompactionOutputFile w c s else Ret (w, c)
      else Abort
  end.

(** A round of the loop, up to [input->Next()]. *)
Definition compact_entry (w : W) (c : state) (s : S) (cur : option bytes) (last_sequence : Z)
    : res (W * state * option bytes * Z) :=
  key ← op_key (iter_ops it) s;
  match ParseInternalKey key with
  | None => Abort
  | Some ikey =>
      '(w, c) ←
        match output_type with
        | kCompactOutputSSTables =>
            '(c, stop) ← ShouldStopBefore U c key;
            match cs_builder c with
            | Some b => if (stop : bool) && bool_decide (tw_NumEntries b > 0) then FinishCompactionOutputFile w c s
                        else Ret (w, c)
            | None => Ret (w, c)
            end
        | kCompactOutputMemTables => Ret (w, c)
        end;
      let '(cur, last_sequence) := current_key cur last_sequence ikey in
      let hidden := bool_decide (last_sequence <= cs_smallest_snapshot c) in
      if hidden && drop_duplicates then Ret (w, c, cur, sequence ikey)
      else
        value ← op_value (iter_ops it) s;
        '(w, c) ←
          match output_type with
          | kCompactOutputSSTables => add_to_table w c s key value
          | kCompactOutputMemTables => w ← add_to_memtable w ikey value; Ret (w, c)
          end;
        Ret (w, c, cur, sequence ikey)
  end.

Fixpoint compact_loop (fuel : nat) (w : W) (c : state) (s : S) (cur : option bytes) (last_sequence : Z)
    : res (W * state * S) :=
  match fuel with
  | O => Abort
  | Datatypes.S fuel =>
      if op_Valid (iter_ops it) s then
        '(w, c, cur, last_sequence) ← compact_entry w c s cur last_sequence;
        s ← op_move (iter_ops it) s Next;
        compact_loop fuel w c s cur last_sequence
      else Ret (w, c, s)
  end.

(** [CompactTables]: the result is whether the status is OK. *)
Definition CompactTables (rounds : nat) (w : W) (c : state) (s : S) : res (W * state * bool) :=
  match cs_builder c, cs_outputs c with
  | None, [] =>
      s ← op_move (iter_ops it) s SeekToFirst;
      '(w, c, s) ← compact_loop rounds w c s None kMaxSequenceNumber;
      '(w, c) ←
        match output_type, cs_builder c with
        | kCompactOutputSSTables, Some _ => FinishCompactionOutputFile w c s
        | _, _ => Ret (w, c)
        end;
      Ret (w, c, op_status_ok it s)
  | _, _ => Abort
  end.
End job.

(** ** What the tables promise

    [job_at w k cur done]: the files in [done] are stored with their entries,
    [cur] is the table being built, with its file number and the entries added
    so far, and [k] more tables can be made. *)
Class TableWriterLaws {W B : Type} (TW : TableWriter W B) (cmp : Comparator) (fits : list kv → Prop)
    (table_size : list kv → Z)
    (job_at : W → nat → option (B * Z * list kv) → list (FileMetaData * list kv) → Prop) : Prop := {
  tl_open w k done : job_at w (S k) None done →
    ∃ w' n w'' b, tw_number w = (w', n) ∧ n ≠ 0 ∧ tw_open w' n = Ret (w'', b) ∧ job_at w'' k (Some (b, n, [])) done;
  tl_add w k b n l e done : job_at w k (Some (b, n, l)) done → fits (l ++ [e]) →
    StronglySorted (λ x y, cmp.(Compare) x.1 y.1 < 0) (l ++ [e]) →
    ∃ b', tw_Add b e.1 e.2 = Ret (b', true) ∧ job_at w k (Some (b', n, l ++ [e])) done;
  tl_count w k b n l done : job_at w k (Some (b, n, l)) done → tw_NumEntries b = size_of l ∧ tw_FileSize b = table_size l;
  tl_finish w k b n l done f : job_at w k (Some (b, n, l)) done → l ≠ [] → number f = n →
    ∃ w' f', tw_finish w b f = Ret (w', f') ∧ number f' = n ∧ smallest f' = smallest f ∧ largest f' = largest f
      ∧ job_at w' k None (done ++ [(f', l)])
}.

(** The entries a compaction keeps: [cur] and [last] are the user key and the
    sequence number of the entry before. *)
Fixpoint compacted (U : Comparator) (snapshot : Z) (cur : option bytes) (last : Z) (l : list kv) : list kv :=
  match l with
  | [] => []
  | e :: l =>
      match ParseInternalKey e.1 with
      | None => []
      | Some ikey =>
          let '(cur, last) := current_key U cur last ikey in
          if decide (last <= snapshot) then compacted U snapshot cur (sequence ikey) l
          else e :: compacted U snapshot cur (sequence ikey) l
      end
  end.

(** The entry of a user key that a snapshot sees. *)
Fixpoint first_visible (U : Comparator) (l : list kv) (u : bytes) (snapshot : Z) : option kv :=
  match l with
  | [] => None
  | e :: l =>
      match ParseInternalKey e.1 with
      | None => None
      | Some ikey =>
          if decide (U.(Compare) (user_key ikey) u = 0 ∧ sequence ikey <= snapshot) then Some e
          else first_visible U l u snapshot
      end
  end.

Section reads.
Context (U : Comparator) {OU : ComparatorOrder U} (snapshot : Z).

Lemma compacted_sublist cur last l : compacted U snapshot cur last l `sublist_of` l.
Proof.
  revert cur last. induction l as [|e l IH]; intros cur last; cbn; [done|].
  destruct (ParseInternalKey e.1) as [ikey|]; [|apply sublist_nil_l].
  destruct (current_key U cur last ikey) as [cur' last']. case_decide; [by apply sublist_cons|by apply sublist_skip].
Qed.

(** Keys that compare equal do so with every other key. *)
Lemma same_key_trans (a b c : bytes) : U.(Compare) a b = 0 → U.(Compare) a c = 0 ↔ U.(Compare) b c = 0.
Proof using OU.
  intros H1. pose proof (cmp_antisym a b). pose proof (cmp_antisym b a).
  pose proof (cmp_le_trans a b c). pose proof (cmp_le_trans c b a). pose proof (cmp_le_trans b a c).
  pose proof (cmp_le_trans c a b). pose proof (cmp_antisym a c). pose proof (cmp_antisym c a).
  pose proof (cmp_antisym b c). pose proof (cmp_antisym c b). lia.
Qed.

(** Compaction changes nothing for the snapshots it has to serve. *)
Lemma compacted_visible l u snap cur last :
  Forall (λ e : kv, is_Some (ParseInternalKey e.1)) l → snapshot < kMaxSequenceNumber → snapshot <= snap →
  (∀ k, cur = Some k → U.(Compare) k u = 0 → snap < last) →
  first_visible U (compacted U snapshot cur last l) u snap = first_visible U l u snap.
Proof using OU.
  intros Hp Hs Hsnap. revert cur last. induction Hp as [|e l [ikey Ep] Hp IH]; intros cur last Hcur; [done|].
  cbn [compacted first_visible]. rewrite Ep. destruct (current_key U cur last ikey) as [cur' last'] eqn:Ek.
  assert (∃ k, cur' = Some k ∧ U.(Compare) (user_key ikey) k = 0 ∧ (U.(Compare) k u = 0 → snap < last' ∨ last' = kMaxSequenceNumber))
    as (k & -> & Hk & Hlast).
  { unfold current_key in Ek. destruct cur as [k|]; [destruct (decide _) as [|Hz]|]; simplify_eq.
    - eexists. split; [done|]. rewrite cmp_refl. auto.
    - exists k. split; [done|]. split; [lia|]. intros Hku. left. by eapply Hcur.
    - eexists. split; [done|]. rewrite cmp_refl. auto. }
  pose proof (same_key_trans (user_key ikey) k u Hk) as Htr. case_decide as Hd.
  - rewrite decide_False by (intros [H1 _]; apply Htr in H1; destruct (Hlast H1); lia).
    apply IH. intros k' [= <-] Hku. destruct (Hlast Hku); lia.
  - cbn [first_visible]. rewrite Ep. case_decide as Hv; [done|]. apply IH. intros k' [= <-] Hku.
    destruct (decide (sequence ikey <= snap)); [|lia]. destruct Hv. by rewrite Htr.
Qed.
End reads.

(** ** A job runs through *)

(** The metadata of an output table describes its entries. *)
Definition describes (f : FileMetaData) (l : list kv) : Prop :=
  (∃ e, head l = Some e ∧ smallest f = e.1) ∧ ∃ e, last l = Some e ∧ largest f = e.1.

Lemma update_last_snoc {A} (f : A → A) (l : list A) x : update_last f (l ++ [x]) = l ++ [f x].
Proof.
  unfold update_last. rewrite last_snoc, length_app. cbn.
  replace (length l + 1 - 1)%nat with (length l) by lia. by rewrite take_app_length.
Qed.

Lemma StronglySorted_sublist {A} (P : A → A → Prop) (l l' : list A) :
  l `sublist_of` l' → StronglySorted P l' → StronglySorted P l.
Proof.
  induction 1 as [|x l l' Hs IH|x l l' Hs IH]; intros Hl; [done| |]; apply StronglySorted_inv in Hl as [Hl Hx]; [|by apply IH].
  constructor; [by apply IH|]. by eapply Forall_sublist.
Qed.

Section run.
Context (U : Comparator) {OU : ComparatorOrder U}.
Local Abbreviation icmp := (InternalKeyComparator U).
Context {W B : Type} {TW : TableWriter W B} (fits : list kv → Prop) (table_size : list kv → Z).
Context (job_at : W → nat → option (B * Z * list kv) → list (FileMetaData * list kv) → Prop).
Context {TL : TableWriterLaws TW icmp fits table_size job_at}.
Context {S : Type} (it : Iter S) (kvs : list kv) (R : S → nat → Prop) {HC : Cursor icmp kvs (iter_ops it) R}.
Hypothesis status_ok : ∀ s i, R s i → op_status_ok it s = true.
Context (max_file_size : Z) (add_to_memtable : W → ParsedInternalKey → bytes → res W) (snapshot : Z).
Hypothesis parses : Forall (λ e : kv, is_Some (ParseInternalKey e.1)) kvs.
Hypothesis sorted : StronglySorted (λ a b : kv, icmp.(Compare) a.1 b.1 < 0) kvs.

Local Abbreviation kept := (compacted U snapshot None kMaxSequenceNumber kvs).

(** A table that may still grow has room for the next entry. *)
Hypothesis room : ∀ pre l e post, kept = pre ++ l ++ e :: post → l = [] ∨ table_size l < max_file_size → fits (l ++ [e]).

Local Abbreviation at_open := (@tl_open _ _ _ _ _ _ _ TL).
Local Abbreviation at_add := (@tl_add _ _ _ _ _ _ _ TL).
Local Abbreviation at_count := (@tl_count _ _ _ _ _ _ _ TL).
Local Abbreviation at_finish := (@tl_finish _ _ _ _ _ _ _ TL).

Definition subranges_ok (c : CompactionState B) : Prop :=
  match cs_subranges c with Some srs => Forall (λ sr, tiny_ranges sr ≠ []) srs | None => True end.

Lemma pass_subranges_ok rest u index stop :
  Forall (λ sr, tiny_ranges sr ≠ []) rest → ∃ r, pass_subranges U rest u index stop = Ret r.
Proof.
  intros H. revert index stop. induction H as [|sr rest Hsr _ IH]; intros index stop; cbn; [by eexists|].
  unfold SubRange_IsGreaterThanUpper. destruct (last (tiny_ranges sr)) as [r|] eqn:El; [|by apply last_None in El].
  cbn [mbind res_bind]. case_match; [apply IH|by eexists].
Qed.

Lemma ShouldStopBefore_ok (c : CompactionState B) key :
  subranges_ok c → ∃ st index stop, ShouldStopBefore U c key = Ret (set_stop c st index, stop).
Proof.
  intros H. unfold ShouldStopBefore.
  assert (∃ index stop, match cs_subranges c with
    | Some srs => pass_subranges U (drop (cs_subrange_index c) srs) (ExtractUserKey key) (cs_subrange_index c) false
    | None => Ret (cs_subrange_index c, false) end = Ret (index, stop)) as (index & stop & ->).
  { unfold subranges_ok in H. destruct (cs_subranges c) as [srs|]; [|by do 2 eexists].
    destruct (pass_subranges_ok (drop (cs_subrange_index c) srs) (ExtractUserKey key) (cs_subrange_index c) false) as [[i b] E].
    - by apply Forall_drop.
    - by do 2 eexists. }
  cbn [mbind res_bind]. destruct (match cs_compaction c with Some (cp, st) => _ | None => _ end) as [st stop'].
  by do 3 eexists.
Qed.

(** The state of a job: the tables in [done] are stored, the entries [cur] are
    in the table being built. *)
Record running (w : W) (c : CompactionState B) (k : nat) (done : list (FileMetaData * list kv)) (cur : list kv) : Prop := {
  ru_subranges : subranges_ok c;
  ru_snapshot : cs_smallest_snapshot c = snapshot;
  ru_done : Forall (λ p, describes p.1 p.2) done;
  ru_builder : match cs_builder c with
    | None => cur = [] ∧ job_at w k None done ∧ cs_outputs c = done.*1
    | Some b => ∃ out, job_at w k (Some (b, number out, cur)) done ∧ cs_outputs c = done.*1 ++ [out]
        ∧ number out ≠ 0 ∧ describes out cur
    end
}.

Lemma describes_nonempty f l : describes f l → l ≠ [].
Proof. intros [(e & He & _) _]. by destruct l. Qed.

Lemma Finish_running w c k done cur s i :
  running w c k done cur → is_Some (cs_builder c) → R s i →
  ∃ w' c' f, FinishCompactionOutputFile it w c s = Ret (w', c') ∧ running w' c' k (done ++ [(f, cur)]) [] ∧ cs_builder c' = None.
Proof using TL status_ok.
  intros [Hsr Hsn Hd Hb] [b Eb] HR. rewrite Eb in Hb. destruct Hb as (out & Hj & Ho & Hn & Hdesc).
  unfold FinishCompactionOutputFile. rewrite Eb, Ho, last_snoc, decide_False, (status_ok _ _ HR) by done.
  destruct (at_finish _ _ _ _ _ _ out Hj (describes_nonempty _ _ Hdesc) eq_refl) as (w' & f & -> & Hfn & Hfs & Hfl & Hj').
  cbn [mbind res_bind]. eexists _, _, f. split; [done|]. split; [|done]. split; try done.
  - apply Forall_app. split; [done|]. apply Forall_singleton. cbn. unfold describes. by rewrite Hfs, Hfl.
  - cbn [cs_builder add_bytes set_outputs cs_outputs]. split_and!; [done..|]. rewrite update_last_snoc, fmap_app. done.
Qed.

Lemma add_to_table_running w c k done cur s i e :
  running w c (Datatypes.S k) done cur → R s i → fits (cur ++ [e]) →
  StronglySorted (λ a b : kv, icmp.(Compare) a.1 b.1 < 0) (cur ++ [e]) →
  ∃ w' c' k' done' cur', add_to_table it max_file_size w c s e.1 e.2 = Ret (w', c') ∧ running w' c' k' done' cur'
    ∧ (k <= k')%nat ∧ concat done'.*2 ++ cur' = concat done.*2 ++ cur ++ [e]
    ∧ (cur' = [] ∨ table_size cur' < max_file_size).
Proof using TL status_ok.
  intros HRun HR Hfit Hsort. unfold add_to_table.
  assert (∃ w1 c1 b out k1, match cs_builder c with None => OpenCompactionOutputFile w c | Some _ => Ret (w, c) end = Ret (w1, c1)
    ∧ cs_builder c1 = Some b ∧ cs_outputs c1 = done.*1 ++ [out] ∧ number out ≠ 0 ∧ (cur = [] ∨ describes out cur)
    ∧ job_at w1 k1 (Some (b, number out, cur)) done ∧ subranges_ok c1 ∧ cs_smallest_snapshot c1 = snapshot ∧ (k <= k1)%nat)
    as (w1 & c1 & b & out & k1 & -> & Eb & Ho & Hn & Hdesc & Hj & Hsr & Hsn & Hk).
  { destruct HRun as [Hsr Hsn Hd Hb]. destruct (cs_builder c) as [b|] eqn:Eb.
    - destruct Hb as (out & Hj & Ho & Hn & Hdesc). exists w, c, b, out, (Datatypes.S k). split_and!; auto with lia.
    - destruct Hb as (-> & Hj & Ho). unfold OpenCompactionOutputFile. rewrite Eb.
      destruct (at_open _ _ _ Hj) as (w' & n & w'' & b & -> & Hn & -> & Hj'). rewrite decide_False by done. cbn [mbind res_bind].
      eexists _, _, b, (file_numbered n), k. split; [done|]. cbn [cs_builder set_outputs cs_outputs]. rewrite Ho. split_and!; auto with lia. }
  cbn [mbind res_bind]. rewrite Eb. destruct (at_add _ _ _ _ _ _ _ Hj Hfit Hsort) as (b' & -> & Hj'). cbn [mbind res_bind].
  destruct (at_count _ _ _ _ _ _ Hj) as [Hne _]. destruct (at_count _ _ _ _ _ _ Hj') as [_ Hfs].
  rewrite Hne, Ho, update_last_snoc. set (out' := with_keys _ _ _).
  assert (describes out' (cur ++ [e])) as Hdesc'.
  { split; [|exists e; by rewrite last_snoc]. unfold out'. cbn [smallest with_keys]. destruct cur as [|e0 cur].
    - exists e. by rewrite decide_True.
    - exists e0. rewrite decide_False by (cbn; lia). split; [done|]. destruct Hdesc as [|[(e1 & E1 & ->) _]]; [done|].
      cbn in E1. by injection E1 as <-. }
  assert (running w1 (set_outputs c1 (done.*1 ++ [out']) (Some b')) k1 done (cur ++ [e])) as HRun'.
  { destruct HRun as [_ _ Hd _]. split; [done..|]. cbn [cs_builder set_outputs cs_outputs]. by exists out'. }
  clearbody out'. rewrite Hfs. destruct (decide (table_size (cur ++ [e]) >= max_file_size)) as [Hbig|Hbig].
  - destruct (Finish_running _ _ _ _ _ s i HRun') as (w2 & c2 & f & -> & HRun2 & _); [by eexists|done|].
    exists w2, c2, k1, (done ++ [(f, cur ++ [e])]), [].
    split; [done|]. split; [done|]. split; [done|]. split; [|by left]. rewrite fmap_app, concat_app. cbn. by rewrite !app_nil_r.
  - eexists _, _, k1, done, (cur ++ [e]). split; [done|]. split; [done|]. split; [done|]. split; [done|]. right. lia.
Qed.

Lemma compacted_sorted : StronglySorted (λ a b : kv, icmp.(Compare) a.1 b.1 < 0) kept.
Proof using sorted. eapply StronglySorted_sublist; [|exact sorted]. apply compacted_sublist. Qed.

(** A round of the loop at the entry [e]. *)
Lemma compact_entry_running w c k done cur s i e rest ck last :
  running w c (Datatypes.S k) done cur → (cur = [] ∨ table_size cur < max_file_size) →
  R s i → kvs !! i = Some e →
  concat done.*2 ++ cur ++ compacted U snapshot ck last (e :: rest) = kept →
  ∃ w' c' k' done' cur' ck' last',
    compact_entry U it max_file_size true kCompactOutputSSTables add_to_memtable w c s ck last = Ret (w', c', ck', last')
    ∧ running w' c' k' done' cur' ∧ (k <= k')%nat ∧ (cur' = [] ∨ table_size cur' < max_file_size)
    ∧ concat done'.*2 ++ cur' ++ compacted U snapshot ck' last' rest = kept.
Proof using All.
  intros HRun Hcur HR He Hkept. destruct e as [key v]. destruct (@cur_entry _ _ _ _ _ HC _ _ _ _ HR He) as [Ek Ev].
  assert (is_Some (ParseInternalKey key)) as [ikey Ep] by (rewrite Forall_lookup in parses; exact (parses _ _ He)).
  unfold compact_entry. rewrite Ek. cbn [mbind res_bind]. rewrite Ep.
  destruct (ShouldStopBefore_ok c key (ru_subranges _ _ _ _ _ HRun)) as (st & index & stop & ->). cbn [mbind res_bind].
  set (c0 := set_stop c st index).
  assert (running w c0 (Datatypes.S k) done cur) as HRun0 by (by destruct HRun).
  assert (∃ w1 c1 done1 cur1,
    match cs_builder c0 with
    | Some b => if stop && bool_decide (tw_NumEntries b > 0) then FinishCompactionOutputFile it w c0 s else Ret (w, c0)
    | None => Ret (w, c0) end = Ret (w1, c1) ∧ running w1 c1 (Datatypes.S k) done1 cur1
    ∧ concat done1.*2 ++ cur1 = concat done.*2 ++ cur ∧ (cur1 = [] ∨ table_size cur1 < max_file_size))
    as (w1 & c1 & done1 & cur1 & -> & HRun1 & Hsame & Hcur1).
  { destruct (cs_builder c0) as [b|] eqn:Eb; [|by exists w, c0, done, cur].
    destruct (stop && _); [|by exists w, c0, done, cur].
    destruct (Finish_running _ _ _ _ _ s i HRun0) as (w1 & c1 & f & -> & HRun1 & _); [by eexists|done|].
    exists w1, c1, (done ++ [(f, cur)]), []. split; [done|]. split; [done|]. split; [|by left].
    rewrite fmap_app, concat_app. cbn. by rewrite !app_nil_r. }
  cbn [mbind res_bind compacted fst] in Hkept |- *. rewrite Ep in Hkept. rewrite app_assoc, <- Hsame, <- app_assoc in Hkept.
  destruct (current_key U ck last ikey) as [ck' last'] eqn:Eck. rewrite (ru_snapshot _ _ _ _ _ HRun1).
  destruct (decide (last' <= snapshot)) as [Hh|Hh].
  { rewrite bool_decide_eq_true_2 by done. cbn [andb].
    eexists _, _, (Datatypes.S k), done1, cur1, ck', _. split; [done|]. split; [done|]. split; [lia|]. done. }
  rewrite bool_decide_eq_false_2 by done. cbn [andb]. rewrite Ev. cbn [mbind res_bind].
  set (post := compacted U snapshot ck' (sequence ikey) rest) in *.
  assert (fits (cur1 ++ [(key, v)])) as Hfit by (eapply room; [symmetry; exact Hkept|done]).
  assert (StronglySorted (λ a b : kv, icmp.(Compare) a.1 b.1 < 0) (cur1 ++ [(key, v)])) as Hsort.
  { pose proof compacted_sorted as Hs. rewrite <- Hkept in Hs. change ((key, v) :: post) with ([(key, v)] ++ post) in Hs.
    rewrite (app_assoc cur1) in Hs. apply StronglySorted_app_1_r, StronglySorted_app_1_l in Hs. done. }
  destruct (add_to_table_running w1 c1 k done1 cur1 s i (key, v) HRun1 HR Hfit Hsort)
    as (w2 & c2 & k2 & done2 & cur2 & Eadd & HRun2 & Hk2 & Hsame2 & Hcur2).
  cbn [fst snd] in Eadd. rewrite Eadd. cbn [mbind res_bind]. eexists _, _, k2, done2, cur2, ck', _.
  split; [done|]. split; [done|]. split; [done|]. split; [done|].
  rewrite app_assoc, Hsame2, <- !app_assoc. done.
Qed.

Lemma compact_loop_running fuel w c k done cur s i ck last :
  running w c k done cur → (cur = [] ∨ table_size cur < max_file_size) →
  R s i → (i <= length kvs)%nat → (length kvs - i < fuel)%nat → (length kvs - i <= k)%nat →
  concat done.*2 ++ cur ++ compacted U snapshot ck last (drop i kvs) = kept →
  ∃ w' c' s' i' k' done' cur',
    compact_loop U it max_file_size true kCompactOutputSSTables add_to_memtable fuel w c s ck last = Ret (w', c', s')
    ∧ running w' c' k' done' cur' ∧ R s' i' ∧ concat done'.*2 ++ cur' = kept.
Proof using All.
  revert w c k done cur s i ck last. induction fuel as [|fuel IH]; intros w c k done cur s i ck last HRun Hcur HR Hi Hf Hk Hkept; [lia|].
  cbn [compact_loop]. rewrite (@cur_valid _ _ _ _ _ HC _ _ HR). destruct (kvs !! i) as [e|] eqn:He.
  - pose proof (lookup_lt_Some _ _ _ He) as Hlt. rewrite bool_decide_eq_true_2 by done. destruct k as [|k]; [lia|].
    rewrite (drop_S _ _ _ He) in Hkept.
    destruct (compact_entry_running w c k done cur s i e (drop (Datatypes.S i) kvs) ck last HRun Hcur HR He Hkept)
      as (w' & c' & k' & done' & cur' & ck' & last' & -> & HRun' & Hk' & Hcur' & Hkept').
    cbn [mbind res_bind]. destruct (@cur_move _ _ _ _ _ HC s i Next (Datatypes.S i) HR) as (s' & -> & HR'); [cbn; by rewrite decide_True|].
    cbn [mbind res_bind]. eapply IH; [done..| | | |done]; lia.
  - apply lookup_ge_None in He. rewrite bool_decide_eq_false_2 by lia. rewrite drop_ge in Hkept by lia.
    cbn [compacted] in Hkept. rewrite app_nil_r in Hkept. by exists w, c, s, i, k, done, cur.
Qed.

Lemma CompactTables_running rounds w c k s i :
  running w c k [] [] → cs_builder c = None → R s i → (length kvs < rounds)%nat → (length kvs <= k)%nat →
  ∃ w' c' k' done, CompactTables U it max_file_size true kCompactOutputSSTables add_to_memtable rounds w c s = Ret (w', c', true)
    ∧ running w' c' k' done [] ∧ cs_builder c' = None ∧ concat done.*2 = kept.
Proof using All.
  intros HRun Eb HR Hr Hk. unfold CompactTables. rewrite Eb.
  assert (cs_outputs c = []) as -> by (destruct HRun as [_ _ _ Hb]; rewrite Eb in Hb; by destruct Hb as (_ & _ & ->)).
  destruct (@cur_move _ _ _ _ _ HC s i SeekToFirst 0%nat HR eq_refl) as (s0 & -> & HR0). cbn [mbind res_bind].
  destruct (compact_loop_running rounds w c k [] [] s0 0 None kMaxSequenceNumber HRun (or_introl eq_refl) HR0)
    as (w1 & c1 & s1 & i1 & k1 & done1 & cur1 & -> & HRun1 & HR1 & Hkept); [lia..|done|].
  cbn [mbind res_bind]. destruct (cs_builder c1) as [b|] eqn:Eb1.
  - destruct (Finish_running _ _ _ _ _ s1 i1 HRun1) as (w2 & c2 & f & -> & HRun2 & Eb2); [by eexists|done|].
    cbn [mbind res_bind]. exists w2, c2, k1, (done1 ++ [(f, cur1)]). rewrite (status_ok _ _ HR1). split_and!; try done.
    rewrite fmap_app, concat_app. cbn. by rewrite app_nil_r.
  - cbn [mbind res_bind]. exists w1, c1, k1, done1. rewrite (status_ok _ _ HR1).
    assert (cur1 = []) as -> by (destruct HRun1 as [_ _ _ Hb]; rewrite Eb1 in Hb; by destruct Hb).
    rewrite app_nil_r in Hkept. done.
Qed.
End run.

(** A compaction runs through and keeps every read.  For an input
    iterator over sorted, well-formed entries and a storage that keeps its
    promises, [CompactTables] returns OK; the tables it has stored, in the order
    of its outputs, are together a subsequence of the input; every output's
    smallest and largest key are the first and the last of its table; and for
    every user key and every snapshot from the smallest one on, the entry that
    the snapshot sees is the same before and after. *)
Lemma CompactTables_keeps_reads (U : Comparator) {OU : ComparatorOrder U} {W B} {TW : TableWriter W B} fits table_size job_at
    {TL : TableWriterLaws TW (InternalKeyComparator U) fits table_size job_at}
    {S} (it : Iter S) kvs R {HC : Cursor (InternalKeyComparator U) kvs (iter_ops it) R}
    max_file_size add_to_memtable compaction subranges snapshot rounds w s i :
  (∀ s i, R s i → op_status_ok it s = true) →
  Forall (λ e, is_Some (ParseInternalKey e.1)) kvs →
  StronglySorted (λ a b, (InternalKeyComparator U).(Compare) a.1 b.1 < 0) kvs →
  (∀ pre l e post, compacted U snapshot None kMaxSequenceNumber kvs = pre ++ l ++ e :: post →
     l = [] ∨ table_size l < max_file_size → fits (l ++ [e])) →
  match subranges with Some srs => Forall (λ sr, tiny_ranges sr ≠ []) srs | None => True end →
  snapshot < kMaxSequenceNumber → job_at w (length kvs) None [] → R s i → (length kvs < rounds)%nat →
  ∃ w' c' k tables,
    CompactTables U it max_file_size true kCompactOutputSSTables add_to_memtable rounds w
      (CompactionState_init compaction subranges snapshot) s = Ret (w', c', true)
    ∧ job_at w' k None (zip (cs_outputs c') tables) ∧ length (cs_outputs c') = length tables
    ∧ Forall2 describes (cs_outputs c') tables ∧ concat tables `sublist_of` kvs
    ∧ ∀ u snap, snapshot <= snap → first_visible U (concat tables) u snap = first_visible U kvs u snap.
Proof.
  intros Hst Hp Hsort Hroom Hsr Hs Hj HR Hr.
  destruct (CompactTables_running U fits table_size job_at it kvs R Hst max_file_size add_to_memtable snapshot Hp Hsort Hroom
    rounds w (CompactionState_init compaction subranges snapshot) (length kvs) s i) as (w' & c' & k & tabs & E & HRun & Eb & Hk);
    [by split|done..|].
  destruct HRun as [_ _ Hd Hb]. rewrite Eb in Hb. destruct Hb as (_ & Hj' & Ho). exists w', c', k, tabs.*2.
  rewrite Ho, zip_fst_snd, !length_fmap, Hk. split_and!; try done.
  - apply Forall2_fmap, Forall_Forall2_diag. done.
  - apply compacted_sublist.
  - intros u snap Hsnap. by apply compacted_visible.
Qed.
