(* ===== verification/TableJob.v ===== *)
(** * TableJob: jobs that store tables

    The table writer of [db/compaction.cpp] on storage components: a job opens
    clients ([StoCFile]), builds tables in their memory ([TableBuilder]) and
    scatters them over the components that the selector chooses
    ([StorageSelector]).  It keeps the promises of [TableWriterLaws], so that
    compactions over it keep every read.  [BuildTable] of [db/builder.cc], which
    flushes a memtable, uses the same steps. *)

From S2P Require Import Prelude Coding Comparator Cursor NovaCommon DbFormat UserScan Merger Subrange FileMeta Filename Block Bloom FilterBlock Crc32c Format PersistentStoC TableBuilder Table StorageSelector StoCFile Scatter TableStore VersionEdit FileSearch VersionBuilder CompactionPick Compaction.

(** The storage components, the next file number, and the local metadata files
    of the tables by file number and replica. *)
Record JobStorage := mkStorage {
  js_cluster : cluster;
  js_next : Z;
  js_local : gmap Z (list bytes)
}.

Definition with_blocks (file_size' converted : Z) (reps : list FileReplicaMetaData) (parity : StoCBlockHandle)
    (f : FileMetaData) : FileMetaData :=
  mkFile (refs f) (allowed_seeks f) (memtable_ids f) (number f) file_size' converted (flush_timestamp f) (level f)
    (smallest f) (largest f) (compaction_status f) reps parity.

Section writer.
Context (alloc : Z → Z * bytes).
Context (AcceleratedCRC32C : Z → bytes → Z) (Snappy_Compress Snappy_Uncompress : bytes → option bytes).
Context (ItemAlloc backing : Z → bytes).
Context (options : TableOptions) (cfg : StoCConfig) (dbname : bytes) (max_stoc_file_size : Z).
(** The choices of the selector for each table: the components, their queue
    lengths, and the random numbers for the fragments and the metadata. *)
Context (servers : list Z) (my_server_id : Z) (depth : Z → Z → Z).
Context (sort : ∀ A, (A → A → bool) → list A → list A).
Context (scatter_policy : ScatterPolicy) (rand rand_meta : Z → Z).

#[local] Existing Instance cluster_store.

Definition select (file_number num : Z) : res (list Z) :=
  SelectStorageServers servers my_server_id (depth file_number) sort scatter_policy (rand file_number) num.

(** [Finalize] draws the components at random unless the policy is local. *)
Definition select_meta (file_number num : Z) : res (list Z) :=
  SelectStorageServers servers my_server_id (depth file_number) sort
    (match scatter_policy with LOCAL => LOCAL | _ => RANDOM end) (rand_meta file_number) num.

(** [NewFileNumber]. *)
Definition NewFileNumber (w : JobStorage) : JobStorage * Z :=
  (mkStorage (js_cluster w) (w64 (js_next w + 1)) (js_local w), js_next w).

(** The client and the builder of a new table; [backing n] is the memory that the
    client of file [n] gets. *)
Definition open_table (w : JobStorage) (file_number : Z) : res (JobStorage * Rep StoCWritableFileClient) :=
  b ← TableBuilder_make options (Client_make cfg max_stoc_file_size (backing file_number));
  Ret (w, b).

(** What follows a successful [Sync]: [WaitForPersistingDataBlocks], [Finalize],
    [replicas] and [Validate]. *)
Definition finalize_table (w : JobStorage) (s : cluster) (file : StoCWritableFileClient) (file_size' : Z) (f : FileMetaData)
    : res (JobStorage * FileMetaData) :=
  '(s, file, metas, size) ← Finalize (BS := cluster_store alloc) AcceleratedCRC32C Snappy_Compress options cfg dbname (number f)
    ItemAlloc s file (select_meta (number f));
  reps ← replicas file;
  let parity := default StoCBlockHandle_init (wf_parity file) in
  if ValidateReplicas (number_of_sstable_data_replicas cfg) reps parity then
    Ret (mkStorage s (js_next w) (<[number f := metas]> (js_local w)), with_blocks file_size' size reps parity f)
  else Abort.

Definition sync_table (w : JobStorage) (b : Rep StoCWritableFileClient) (f : FileMetaData)
    : res (cluster * StoCWritableFileClient) :=
  Fsync (BS := cluster_store alloc) AcceleratedCRC32C Snappy_Uncompress options cfg dbname (number f) (js_cluster w)
    (set_num_data_blocks (rep_file b) (NumDataBlocks b)) (select (number f)) (FileSize b).

(** [FinishCompactionOutputFile] from [builder->Finish()] on. *)
Definition finish_table (w : JobStorage) (b : Rep StoCWritableFileClient) (f : FileMetaData) : res (JobStorage * FileMetaData) :=
  b ← TableBuilder_Finish AcceleratedCRC32C Snappy_Compress options b;
  if rep_status b then
    '(s, file) ← sync_table w b f;
    finalize_table w s file (FileSize b) f
  else Abort.

#[export] Instance stoc_writer : TableWriter JobStorage (Rep StoCWritableFileClient) := {|
  tw_number := NewFileNumber;
  tw_open := open_table;
  tw_Add := TableBuilder_Add AcceleratedCRC32C Snappy_Compress options;
  tw_NumEntries := NumEntries;
  tw_FileSize := FileSize;
  tw_finish := finish_table
|}.

(** ** Flushing *)

Section flush.
Context (U : Comparator) {S : Type} (it : Iter S) (prune_memtables : bool).

(** The loop of [BuildTable]; [user_key] is the user key before.  The results of
    [Add] are ignored. *)
Fixpoint flush_loop (fuel : nat) (b : Rep StoCWritableFileClient) (s : S) (user_key : bytes) (meta : FileMetaData)
    : res (Rep StoCWritableFileClient * S * FileMetaData) :=
  match fuel with
  | O => Abort
  | Datatypes.S fuel =>
      if op_Valid (iter_ops it) s then
        key ← op_key (iter_ops it) s;
        let ukey := ExtractUserKey key in
        let insert := negb (prune_memtables && bool_decide (user_key ≠ [] ∧ U.(Compare) ukey user_key = 0)) in
        let user_key := if prune_memtables then ukey else user_key in
        '(b, meta) ← (
          if insert then
            value ← op_value (iter_ops it) s;
            '(b, _) ← TableBuilder_Add AcceleratedCRC32C Snappy_Compress options b key value;
            Ret (b, with_keys (smallest meta) key meta)
          else Ret (b, meta));
        s ← op_move (iter_ops it) s Next;
        flush_loop fuel b s user_key meta
      else Ret (b, s, meta)
  end.

(** [BuildTable]: the metadata and whether the status is OK.  The deletion of the
    file after an error concerns a local file that was never made. *)
Definition BuildTable (rounds : nat) (w : JobStorage) (s : S) (meta : FileMetaData) : res (JobStorage * FileMetaData * bool) :=
  let meta := with_blocks 0 (converted_file_size meta) (block_replica_handles meta) (parity_block_handle meta) meta in
  s ← op_move (iter_ops it) s SeekToFirst;
  if op_Valid (iter_ops it) s then
    '(w, b) ← open_table w (number meta);
    key ← op_key (iter_ops it) s;
    '(b, s, meta) ← flush_loop rounds b s [] (with_keys key (largest meta) meta);
    b ← TableBuilder_Finish AcceleratedCRC32C Snappy_Compress options b;
    if rep_status b then
      if decide (0 < FileSize b) then
        '(c, file) ← sync_table w b meta;
        '(w, meta) ← finalize_table w c file (FileSize b) meta;
        Ret (w, meta, op_status_ok it s)
      else Abort
    else
      '(w, meta) ← finalize_table w (js_cluster w) (rep_file b) (file_size meta) meta;
      Ret (w, meta, false)
  else Ret (w, meta, op_status_ok it s).
End flush.
End writer.

(** ** The components have room *)

Section room.
Context (cfg : StoCConfig) (dbname : bytes) (servers : list Z) (my_server_id : Z) (depth : Z → Z → Z).
Context (sort : ∀ A, (A → A → bool) → list A → list A) (scatter_policy : ScatterPolicy) (rand rand_meta : Z → Z) (cap : Z).
Local Abbreviation R := (number_of_sstable_data_replicas cfg).
Local Abbreviation M := (number_of_sstable_metadata_replicas cfg).

(** There are enough components for a table. *)
Record plan_ok : Prop := {
  po_sort : ∀ A lt (l : list A), sort A lt l ≡ₚ l;
  po_policy : scatter_policy ≠ LOCAL;
  po_servers : NoDup servers;
  po_scatter : 0 < num_stocs_scatter_data_blocks cfg;
  po_data : (0 < R)%nat ∧ (R <= length servers)%nat ∧ (max_groups cfg <= length servers)%nat;
  po_meta : (0 < M <= length servers)%nat ∧ (R = 1 ∨ M <= R)%nat;
  po_parity : use_parity_for_sstable_data_blocks cfg = false
}.

(** The blocks of a table at most. *)
Definition max_keys : nat := max_groups cfg * R + M.

(** Every component has room for all blocks of the next [k] tables. *)
Definition ready (s : cluster) (n : Z) (k : nat) : Prop :=
  ∀ i srv r t, (i < k)%nat → srv ∈ servers → (r < Nat.max R M)%nat →
    cluster_free cap s (k * max_keys) (srv, dbname, n + Z.of_nat i, Z.of_nat r, t).

Lemma select_ok n groups :
  plan_ok → (0 < length (groups : list Z) <= max_groups cfg)%nat →
  ∃ stocs random_stocs,
    select servers my_server_id depth sort scatter_policy rand n (num_stocs_to_select cfg groups) = Ret stocs
    ∧ select_meta servers my_server_id depth sort scatter_policy rand_meta n (Z.of_nat M) = Ret random_stocs
    ∧ stocs_ok cfg (length groups) stocs random_stocs ∧ stocs ⊆ servers ∧ random_stocs ⊆ servers.
Proof.
  intros [Hsort Hpol Hnd Hsc (HR & HRs & Hg) [HM HMR] Hpar] Hlen. unfold select, select_meta.
  assert (match scatter_policy with LOCAL => LOCAL | _ => RANDOM end ≠ LOCAL) as Hpol' by by destruct scatter_policy.
  destruct (SelectStorageServers_ok servers my_server_id (depth n) sort scatter_policy (rand n) (num_stocs_to_select cfg groups))
    as (stocs & -> & Hl & Hd & Hs); [done..| |lia|].
  { unfold num_stocs_to_select. rewrite Hpar. case_decide; lia. }
  destruct (SelectStorageServers_ok servers my_server_id (depth n) sort _ (rand_meta n) (Z.of_nat M) Hsort Hpol')
    as (rnd & -> & Hl' & Hd' & Hs'); [done|lia|lia|].
  exists stocs, rnd. split; [done|]. split; [done|]. split; [|done].
  unfold num_stocs_to_select in Hl. rewrite Hpar in Hl. split; [done|..].
  - destruct (decide (1 < R)%nat); [by left|]. right. lia.
  - destruct (decide (1 < R)%nat); lia.
  - destruct (decide (1 < R)%nat); lia.
  - destruct (decide (R = 1%nat)); [split; [lia|done]|]. lia.
Qed.

Lemma length_data_keys n stocs groups : length (data_keys cfg dbname n stocs groups) = (groups * R)%nat.
Proof.
  unfold data_keys. set (f := group_keys cfg dbname n stocs 0). generalize 0%nat.
  induction groups as [|g IH]; intros j; [done|]. cbn [seq fmap list_fmap concat].
  rewrite length_app, IH. unfold f, group_keys. rewrite length_fmap, length_seq. lia.
Qed.

Lemma length_table_keys n stocs rnd groups :
  (groups <= max_groups cfg)%nat → (length (table_keys cfg dbname n stocs rnd groups) <= max_keys)%nat.
Proof.
  intros Hg. unfold table_keys, max_keys. rewrite length_app, length_data_keys. unfold meta_keys. rewrite length_fmap, length_seq. nia.
Qed.

Lemma table_keys_shape n stocs rnd groups key :
  stocs_ok cfg groups stocs rnd → (groups <= max_groups cfg)%nat → stocs ⊆ servers → rnd ⊆ servers →
  key ∈ table_keys cfg dbname n stocs rnd groups →
  ∃ srv r t, key = (srv, dbname, n, Z.of_nat r, t) ∧ srv ∈ servers ∧ (r < Nat.max R M)%nat.
Proof.
  intros Hso Hg Hs Hs' [Hk|Hk]%elem_of_app.
  - apply elem_of_concat in Hk as (l & Hk & (g & -> & Hgi)%list_elem_of_fmap).
    apply list_elem_of_fmap in Hk as (r & -> & Hr). apply elem_of_seq in Hgi, Hr.
    destruct (stoc_of_some cfg groups stocs rnd g r Hso) as [srv Hsrv]; [lia..|].
    unfold data_key. rewrite Hsrv. exists srv, r, kFileData. split; [done|]. split; [|lia]. apply Hs. by eapply list_elem_of_lookup_2.
  - apply list_elem_of_fmap in Hk as (r & -> & Hr). apply elem_of_seq in Hr. unfold meta_key.
    assert (∃ srv, meta_stoc cfg stocs rnd r = Some srv ∧ srv ∈ servers) as (srv & -> & Hsrv).
    { pose proof (so_random _ _ _ _ Hso) as Hrnd. pose proof (so_metas _ _ _ _ Hso) as Hm. unfold meta_stoc. case_decide.
      - destruct (lookup_lt_is_Some_2 rnd r ltac:(lia)) as [srv E]. exists srv. split; [done|]. apply Hs'. by eapply list_elem_of_lookup_2.
      - destruct (lookup_lt_is_Some_2 stocs r ltac:(lia)) as [srv E]. exists srv. split; [done|]. apply Hs. by eapply list_elem_of_lookup_2. }
    exists srv, r, kFileMetadata. split; [done|]. split; [done|lia].
Qed.

(** A table can be stored, with room for the block [key] of another table. *)
Lemma ready_selection s n k (key : list block_key) :
  plan_ok → ready s n (S k) →
  (key = [] ∨ ∃ i srv r t, key = [(srv, dbname, n + Z.of_nat (S i), Z.of_nat r, t)] ∧ (i < k)%nat ∧ srv ∈ servers ∧ (r < Nat.max R M)%nat) →
  selection_ok (cluster_free cap) cfg dbname n s (select servers my_server_id depth sort scatter_policy rand n)
    (select_meta servers my_server_id depth sort scatter_policy rand_meta n) (k * max_keys - length key) key.
Proof.
  intros Hp Hr Hkey groups Hg. destruct (select_ok n groups Hp Hg) as (stocs & rnd & -> & -> & Hso & Hs & Hs').
  exists stocs, rnd. split; [done|]. split; [done|]. split; [done|]. cbv zeta. set (keys := table_keys _ _ _ _ _ _).
  pose proof (length_table_keys n stocs rnd (length groups) ltac:(lia)) as Hlen. fold keys in Hlen.
  assert (length key <= k * max_keys)%nat as Hlk.
  { destruct Hkey as [->|(i & srv & r & t & -> & Hi & _)]; cbn; [lia|]. destruct Hp. unfold max_keys. nia. }
  split.
  - apply Forall_app. split; apply Forall_forall; intros x Hx.
    + destruct (table_keys_shape n stocs rnd (length groups) x Hso) as (srv & r & t & -> & Hsrv & Hlt); [lia|done..|].
      apply (cluster_free_le _ _ (S k * max_keys)); [lia|]. specialize (Hr 0%nat srv r t). rewrite Z.add_0_r in Hr. apply Hr; [lia|done..].
    + destruct Hkey as [->|(i & srv & r & t & -> & Hi & Hsrv & Hlt)]; [by apply not_elem_of_nil in Hx|].
      apply list_elem_of_singleton in Hx as ->. apply (cluster_free_le _ _ (S k * max_keys)); [cbn in *; lia|]. apply Hr; [lia|done..].
  - apply NoDup_app. split; [apply NoDup_table_keys; [lia|done]|]. split.
    + intros x Hx Hx'. destruct Hkey as [->|(i & srv & r & t & -> & Hi & Hsrv & Hlt)]; [by apply not_elem_of_nil in Hx'|].
      apply list_elem_of_singleton in Hx' as ->.
      apply (table_keys_shape n) in Hx as (? & ? & ? & [= _ Hn _] & _); [lia|done|lia|done..].
    + destruct Hkey as [->|(i & srv & r & t & -> & _)]; [constructor|apply NoDup_singleton].
Qed.
End room.

(** ** The writer keeps its promises *)

Section laws.
Context (alloc : Z → Z * bytes).
Hypothesis alloc_ok : ∀ n, 0 <= n < 2 ^ 32 →
  n <= size_of (alloc n).2 ∧ 0 <= (alloc n).1 ∧ (alloc n).1 + size_of (alloc n).2 < 2 ^ 64 - 1.
Context (AcceleratedCRC32C : Z → bytes → Z) (Snappy_Compress Snappy_Uncompress : bytes → option bytes).
Context (ItemAlloc backing : Z → bytes).
Hypothesis ItemAlloc_size : ∀ n, 0 <= n → size_of (ItemAlloc n) = n.
Context (U : Comparator) {SU : Separating U}.
Local Abbreviation cmp := (InternalKeyComparator U).
Local Abbreviation same := (same_user_key U).
Context (interval block_size : Z) (policy : FilterPolicy) {FC : FilterContract policy} (name : bytes) (fc : Z).
Context {FS : FilterSized policy fc}.
Hypothesis interval_pos : 1 <= interval.
Context (cfg : StoCConfig) (dbname : bytes) (max_stoc_file_size : Z).
Hypothesis backing_size : ∀ n, size_of (backing n) = max_stoc_file_size.
Context (servers : list Z) (my_server_id : Z) (depth : Z → Z → Z).
Context (sort : ∀ A, (A → A → bool) → list A → list A) (scatter_policy : ScatterPolicy) (rand rand_meta : Z → Z) (cap : Z).
Hypothesis plan : plan_ok cfg servers sort scatter_policy.

Local Abbreviation options := (table_options cmp interval block_size policy name).
Local Abbreviation lt := (λ a b : kv, cmp.(Compare) a.1 b.1 < 0).
Local Abbreviation ready := (ready cfg dbname servers cap).
Local Abbreviation client n := (Client_make cfg max_stoc_file_size (backing n)).
Local Abbreviation select := (select servers my_server_id depth sort scatter_policy rand).
Local Abbreviation select_meta := (select_meta servers my_server_id depth sort scatter_policy rand_meta).
Local Abbreviation fits := (λ l, table_fits block_size name fc l max_stoc_file_size cap).
Local Abbreviation answers s l reps i mf :=
  (replica_answers (BS := cluster_store alloc) AcceleratedCRC32C Snappy_Uncompress cmp interval block_size policy name same s l reps i mf).
Local Abbreviation writer := (stoc_writer alloc AcceleratedCRC32C Snappy_Compress Snappy_Uncompress ItemAlloc backing options cfg dbname
  max_stoc_file_size servers my_server_id depth sort scatter_policy rand rand_meta).

#[local] Existing Instance cluster_store.

(** The builder after some entries, when the file is in memory. *)
Definition memory_run (l : list kv) : res (Rep bytes) :=
  r ← TableBuilder_make options ([] : bytes); add_table_entries AcceleratedCRC32C Snappy_Compress options r l.

Definition table_size (l : list kv) : Z := match memory_run l with Ret r => FileSize r | _ => 0 end.

Lemma fits_bound l : fits l → data_bound l < 2 ^ 31 ∧ data_bound l <= max_stoc_file_size.
Proof using FS.
  intros [Hs Hm _ Hp _]. unfold table_bound in Hs, Hm. pose proof (data_bound_pos l). pose proof (keys_bound_pos l).
  assert (0 <= (fc + 10) * size_of l) by (pose proof (filter_sized_pos (P := policy) (c := fc)); lia). lia.
Qed.

Lemma Add_building n l e r :
  memory_run l = Ret r → data_bound (l ++ [e]) < 2 ^ 31 → data_bound (l ++ [e]) <= max_stoc_file_size → StronglySorted lt (l ++ [e]) →
  ∃ r', TableBuilder_Add AcceleratedCRC32C Snappy_Compress options (lift (client n) r) e.1 e.2 = Ret (lift (client n) r', true)
    ∧ memory_run (l ++ [e]) = Ret r'.
Proof using SU FC interval_pos.
  intros Er Hb Hm Hsort.
  destruct (builder_grows AcceleratedCRC32C Snappy_Compress cmp interval block_size policy name interval_pos (l ++ [e]) Hsort Hb)
    as (r' & E' & _ & _ & Hsz).
  fold (memory_run (l ++ [e])) in E'. pose proof E' as E. unfold memory_run in E, Er.
  destruct (TableBuilder_make options ([] : bytes)) as [r0| |]; [|done..]. cbn [mbind res_bind] in E, Er.
  rewrite add_table_entries_app, Er in E. cbn [mbind res_bind add_table_entries] in E. destruct e as [key v].
  destruct (TableBuilder_Add _ _ _ r key v) as [[r1 [|]]| |] eqn:EA; [|done..]. cbn [mbind res_bind] in E. injection E as ->.
  destruct (Add_lift (client n) _ _ _ _ _ _ _ _ EA) as [_ HA]. exists r'. split; [|done]. apply HA.
  cbn [wf_allocated_size Client_make]. lia.
Qed.

(** Sealing the table of a builder and storing it. *)
Lemma store_built w n k l r f :
  ready (js_cluster w) n (S k) → l ≠ [] → StronglySorted lt l → fits l → memory_run l = Ret r → number f = n →
  ∃ b s file s2 metas size reps parity,
    TableBuilder_Finish AcceleratedCRC32C Snappy_Compress options (lift (client n) r) = Ret b
    ∧ rep_status b = true ∧ 0 < FileSize b
    ∧ sync_table alloc AcceleratedCRC32C Snappy_Uncompress options cfg dbname servers my_server_id depth sort scatter_policy rand w b f
      = Ret (s, file)
    ∧ finalize_table alloc AcceleratedCRC32C Snappy_Compress ItemAlloc options cfg dbname servers my_server_id depth sort
        scatter_policy rand_meta w s file (FileSize b) f
      = Ret (mkStorage s2 (js_next w) (<[n := metas]> (js_local w)), with_blocks (FileSize b) size reps parity f)
    ∧ length metas = number_of_sstable_metadata_replicas cfg
    ∧ (∀ i mf, metas !! i = Some mf → answers s2 l reps i mf)
    ∧ extends (BS := cluster_store alloc) (js_cluster w) s2 ∧ ready s2 (n + 1) k.
Proof using All.
  intros Hr Hne Hsort Hfits Hrun Hn. set (s := js_cluster w) in *.
  assert (∀ key, (key = [] ∨ ∃ i srv r t, key = [(srv, dbname, n + Z.of_nat (S i), Z.of_nat r, t)] ∧ (i < k)%nat ∧ srv ∈ servers
      ∧ (r < Nat.max (number_of_sstable_data_replicas cfg) (number_of_sstable_metadata_replicas cfg))%nat) →
    selection_ok (cluster_free cap) cfg dbname n s (select n) (select_meta n) (k * max_keys cfg - length key) key) as Hsel.
  { intros key Hk. by apply ready_selection. }
  assert (Hst := λ key Hk, store_table alloc alloc_ok AcceleratedCRC32C Snappy_Compress Snappy_Uncompress ItemAlloc ItemAlloc_size
    cmp same interval block_size policy name fc cfg dbname n l max_stoc_file_size cap (backing n) (select n) (select_meta n) s
    (k * max_keys cfg - length key) key interval_pos Hne Hsort Hfits (backing_size n) (po_parity _ _ _ _ plan) (po_scatter _ _ _ _ plan) (Hsel key Hk)).
  destruct (Hst [] (or_introl eq_refl)) as (b & s1 & w1 & s2 & w2 & metas & size & reps & Eb & EF & EFin & Er & Hlm & Hans & Hval & Hok & Hsz & Hext & _).
  assert (TableBuilder_Finish AcceleratedCRC32C Snappy_Compress options (lift (client n) r) = Ret b) as EB.
  { unfold build_table, memory_run in *. destruct (TableBuilder_make options ([] : bytes)) as [r0| |] eqn:E0; [|done..].
    cbn [mbind res_bind] in Hrun. rewrite (make_lift (client n) (backing_size n) options r0 eq_refl E0) in Eb. cbn [mbind res_bind] in Eb.
    destruct (builder_grows AcceleratedCRC32C Snappy_Compress cmp interval block_size policy name interval_pos l Hsort) as (r' & E' & _ & _ & Hb).
    { by apply fits_bound. }
    rewrite E0 in E'. cbn [mbind res_bind] in E'. rewrite Hrun in E'. injection E' as <-.
    destruct (add_table_entries_lift (client n) _ _ _ _ _ _ Hrun) as [_ ->] in Eb; [done|].
    cbn [wf_allocated_size Client_make]. pose proof (fits_bound l Hfits). lia. }
  exists b, s1, w1, s2, metas, size, reps, (default StoCBlockHandle_init (wf_parity w2)). subst n.
  split; [done|]. split; [done|]. split; [done|]. split; [exact EF|].
  unfold finalize_table. rewrite EFin. cbn [mbind res_bind]. rewrite Er. cbn [mbind res_bind]. rewrite Hval.
  split; [done|]. split; [done|]. split; [done|]. split; [done|].
  intros i srv r' t Hi Hsrv Hr'. replace (number f + 1 + Z.of_nat i) with (number f + Z.of_nat (S i)) by lia.
  destruct (Hst [(srv, dbname, number f + Z.of_nat (S i), Z.of_nat r', t)]) as (b' & s1' & w1' & s2' & w2' & metas' & size' & reps' & Eb' & EF' & EFin' & _ & _ & _ & _ & _ & _ & _ & Hfree).
  { right. by exists i, srv, r', t. }
  rewrite Eb in Eb'. injection Eb' as <-. rewrite EF in EF'. injection EF' as <- <-. rewrite EFin in EFin'. injection EFin' as <- <- <- <-.
  apply Forall_cons in Hfree as [Hfree _]. eapply cluster_free_le; [|exact Hfree]. cbn [length]. lia.
Qed.
(** A table is stored: each of its replicas answers with its entries. *)
Definition table_stored (w : JobStorage) (f : FileMetaData) (l : list kv) : Prop :=
  number f < js_next w ∧ ∃ metas, js_local w !! number f = Some metas
    ∧ length metas = number_of_sstable_metadata_replicas cfg
    ∧ ∀ i mf, metas !! i = Some mf → answers (js_cluster w) l (block_replica_handles f) i mf.

(** [b] is building the table of [l] with file number [n]. *)
Definition building (n : Z) (l : list kv) (b : Rep StoCWritableFileClient) : Prop :=
  StronglySorted lt l ∧ (l = [] ∨ fits l) ∧ ∃ r, memory_run l = Ret r ∧ b = lift (client n) r.

Definition job_at (w : JobStorage) (k : nat) (cur : option (Rep StoCWritableFileClient * Z * list kv))
    (tables : list (FileMetaData * list kv)) : Prop :=
  0 < js_next w ∧ js_next w + Z.of_nat k < 2 ^ 64
  ∧ match cur with
    | None => Forall (λ p, table_stored w p.1 p.2) tables ∧ ready (js_cluster w) (js_next w) k
    | Some (b, n, l) =>
        n + 1 = js_next w ∧ n ≠ 0 ∧ building n l b ∧ ready (js_cluster w) n (S k)
        ∧ Forall (λ p, number p.1 < n ∧ table_stored w p.1 p.2) tables
    end.

Lemma stored_extends w w' n metas f l :
  extends (BS := cluster_store alloc) (js_cluster w) (js_cluster w') → js_local w' = <[n := metas]> (js_local w) → js_next w' = js_next w →
  number f ≠ n → table_stored w f l → table_stored w' f l.
Proof.
  intros Hext Hl Hn Hf (Hlt & ms & Hms & Hlen & Hans). split; [lia|]. exists ms. rewrite Hl, lookup_insert_ne by done.
  split_and!; [done|done|]. intros i mf Hmf s' cid Hs'. eapply Hans; [done|]. by eapply extends_trans.
Qed.

Lemma table_size_run l r : memory_run l = Ret r → FileSize r = table_size l.
Proof. intros E. unfold table_size. by rewrite E. Qed.

#[export] Instance stoc_writer_laws : TableWriterLaws writer cmp fits table_size job_at.
Proof using All.
  split.
  - intros w k tables (Hpos & Hmax & Hst & Hr). exists (mkStorage (js_cluster w) (js_next w + 1) (js_local w)), (js_next w).
    cbn [tw_number tw_open stoc_writer]. unfold NewFileNumber, open_table. rewrite w64_small by mlia.
    destruct (make_open AcceleratedCRC32C cmp interval block_size policy name interval_pos) as (r & Er & Hop).
    rewrite (make_lift (client (js_next w)) (backing_size _) options r eq_refl Er). cbn [mbind res_bind].
    eexists _, _. split; [done|]. split; [lia|]. split; [done|]. split; [cbn; lia|]. split; [cbn; lia|].
    split; [done|]. split; [lia|]. split.
    + split; [constructor|]. split; [by left|]. exists r. unfold memory_run. rewrite Er. done.
    + split; [done|]. eapply Forall_impl; [exact Hst|]. intros [f l] [Hlt Hms]. split; [done|]. split; [cbn [js_next]; lia|done].
  - intros w k b n l e tables (Hpos & Hmax & Hn & Hn0 & (_ & _ & r & Er & ->) & Hr & Hst) Hfit Hsort.
    destruct (Add_building n l e r Er) as (r' & EA & Er'); [by apply fits_bound..|done|].
    exists (lift (client n) r'). split; [done|]. split; [done|]. split; [done|]. split; [done|]. split; [done|]. split; [|done].
    split; [done|]. split; [by right|]. by exists r'.
  - intros w k b n l tables (_ & _ & _ & _ & (Hsort & Hfit & r & Er & ->) & _). cbn [tw_NumEntries tw_FileSize stoc_writer].
    change (NumEntries (lift (client n) r)) with (NumEntries r). change (FileSize (lift (client n) r)) with (FileSize r).
    split; [|by apply table_size_run].
    destruct (builder_grows AcceleratedCRC32C Snappy_Compress cmp interval block_size policy name interval_pos l Hsort) as (r' & E' & Hnum & _).
    { destruct Hfit as [->|Hfit]; [by vm_compute|by apply fits_bound]. }
    fold (memory_run l) in E'. rewrite Er in E'. by injection E' as <-.
  - intros w k b n l tables f (Hpos & Hmax & Hn & Hn0 & (Hsort & [->|Hfit] & r & Er & ->) & Hr & Hst) Hne Hf; [done|].
    destruct (store_built w n k l r f Hr Hne Hsort Hfit Er Hf)
      as (b & s & file & s2 & metas & size & reps & parity & EB & Hok & _ & ES & EF & Hlm & Hans & Hext & Hr2).
    cbn [tw_finish stoc_writer]. unfold finish_table. rewrite EB. cbn [mbind res_bind]. rewrite Hok, ES. cbn [mbind res_bind]. rewrite EF.
    eexists _, _. split; [done|]. split; [done|]. split; [done|]. split; [done|]. split; [done|]. split; [done|]. cbn [js_next js_cluster].
    split; [|by rewrite <- Hn]. apply Forall_app. split.
    + eapply Forall_impl; [exact Hst|]. intros [f' l'] [Hlt Hs]. eapply (stored_extends w); [exact Hext|done|done| |exact Hs]. cbn in *. lia.
    + apply Forall_singleton. split; [cbn; lia|]. exists metas. cbn [js_local fst number with_blocks]. rewrite Hf, lookup_insert_eq. done.
Qed.

(** ** Flushed tables *)

(** The entries that [BuildTable] keeps. *)
Fixpoint flushed (prune : bool) (uk : bytes) (l : list kv) : list kv :=
  match l with
  | [] => []
  | e :: l =>
      let ukey := ExtractUserKey e.1 in
      let next := if prune then ukey else uk in
      if prune && bool_decide (uk ≠ [] ∧ U.(Compare) ukey uk = 0) then flushed prune next l else e :: flushed prune next l
  end.

Context {S : Type} (it : Iter S) (kvs : list kv) (R : S → nat → Prop) {HC : Cursor cmp kvs (iter_ops it) R}.

Lemma data_bound_mono (a b c : list kv) : data_bound b <= data_bound (a ++ b ++ c).
Proof. rewrite !data_bound_app. pose proof (data_bound_pos a). pose proof (data_bound_pos c). lia. Qed.

Lemma flush_loop_ok prune n fuel l r s i uk meta F :
  R s i → (i <= length kvs)%nat → (length kvs - i < fuel)%nat → memory_run l = Ret r →
  l ++ flushed prune uk (drop i kvs) = F → StronglySorted lt F → fits F →
  ∃ r' s' i', flush_loop AcceleratedCRC32C Snappy_Compress options U it prune fuel (lift (client n) r) s uk meta
      = Ret (lift (client n) r', s', with_keys (smallest meta) (from_option fst (largest meta) (last (flushed prune uk (drop i kvs)))) meta)
    ∧ memory_run F = Ret r' ∧ R s' i'.
Proof using SU FC FS interval_pos HC.
  revert l r s i uk meta. induction fuel as [|fuel IH]; intros l r s i uk meta HR Hi Hfuel Er HF Hsort Hfit; [lia|].
  cbn [flush_loop]. rewrite (@cur_valid _ _ _ _ _ HC _ _ HR). destruct (kvs !! i) as [[key v]|] eqn:He.
  - pose proof (lookup_lt_Some _ _ _ He) as Hlt. rewrite bool_decide_eq_true_2 by done.
    destruct (@cur_entry _ _ _ _ _ HC _ _ _ _ HR He) as [Ek Ev]. rewrite Ek. cbn [mbind res_bind].
    destruct (@cur_move _ _ _ _ _ HC s i Next (Datatypes.S i) HR) as (s1 & Emv & HR1); [cbn; by rewrite decide_True|].
    rewrite (drop_S _ _ _ He) in HF |- *. cbn [flushed fst] in HF |- *.
    destruct (prune && bool_decide (uk ≠ [] ∧ U.(Compare) (ExtractUserKey key) uk = 0)); cbn [negb].
    + cbn [mbind res_bind]. rewrite Emv. cbn [mbind res_bind]. eapply IH; done || lia.
    + rewrite Ev. cbn [mbind res_bind]. change ((key, v) :: flushed prune (if prune then ExtractUserKey key else uk) (drop (Datatypes.S i) kvs))
        with ([(key, v)] ++ flushed prune (if prune then ExtractUserKey key else uk) (drop (Datatypes.S i) kvs)) in HF.
      rewrite app_assoc in HF.
      pose proof (fits_bound F Hfit) as HbF.
      pose proof (data_bound_mono [] (l ++ [(key, v)]) (flushed prune (if prune then ExtractUserKey key else uk) (drop (Datatypes.S i) kvs))) as Hm.
      cbn [app] in Hm. rewrite HF in Hm.
      destruct (Add_building n l (key, v) r Er) as (r1 & EA & Er1).
      { lia. } { lia. }
      { rewrite <- HF in Hsort. by apply StronglySorted_app_1_l in Hsort. }
      cbn [fst snd] in EA. rewrite EA. cbn [mbind res_bind]. rewrite Emv. cbn [mbind res_bind].
      destruct (IH (l ++ [(key, v)]) r1 s1 (Datatypes.S i) (if prune then ExtractUserKey key else uk) (with_keys (smallest meta) key meta)
        HR1 ltac:(lia) ltac:(lia) Er1 HF Hsort Hfit) as (r' & s' & i' & E & Er' & HR').
      exists r', s', i'. split; [|done]. rewrite E. rewrite last_cons. cbn [with_keys smallest largest].
      destruct (last (flushed _ _ _)); done.
  - apply lookup_ge_None in He. rewrite bool_decide_eq_false_2 by lia. rewrite drop_ge in HF |- * by lia. cbn [flushed] in HF |- *.
    rewrite app_nil_r in HF. subst F. exists r, s, i. split; [|done]. by destruct meta.
Qed.

Lemma ParseInternalKey_user k ikey : ParseInternalKey k = Some ikey → user_key ikey = ExtractUserKey k.
Proof.
  unfold ParseInternalKey. case_decide; [done|]. repeat case_match; try done; intros [= <-]; done.
Qed.

(** Pruning changes nothing for a reader that sees every entry. *)
Lemma flushed_visible prune l u snap uk :
  Forall (λ e : kv, ∃ ikey, ParseInternalKey e.1 = Some ikey ∧ sequence ikey <= snap) l →
  (uk ≠ [] → U.(Compare) uk u ≠ 0) →
  first_visible U (flushed prune uk l) u snap = first_visible U l u snap.
Proof using SU.
  intros Hp. revert uk. induction Hp as [|e l (ikey & Ep & Hs) Hp IH]; intros uk Huk; [done|].
  cbn [flushed first_visible]. rewrite Ep. pose proof (ParseInternalKey_user _ _ Ep) as Eu.
  destruct (prune && bool_decide _) eqn:Hd.
  - apply andb_true_iff in Hd as [-> [Hne Hz]%bool_decide_eq_true]. specialize (Huk Hne). rewrite <- Eu in Hz |- *.
    assert (U.(Compare) (user_key ikey) u ≠ 0) as Hn by (by rewrite (same_key_trans U _ _ u Hz)).
    rewrite decide_False by (intros [? _]; done). apply IH. done.
  - cbn [first_visible]. rewrite Ep. destruct (decide (U.(Compare) (user_key ikey) u = 0 ∧ sequence ikey <= snap)) as [|Hv]; [done|]. apply IH. destruct prune; [|done].
    intros _ Hc. apply Hv. rewrite Eu. done.
Qed.

Lemma flushed_nonempty prune l : l ≠ [] → head (flushed prune [] l) = head l.
Proof. destruct l as [|e l]; [done|]. cbn [flushed]. rewrite bool_decide_eq_false_2 by (intros [? _]; done). by rewrite andb_false_r. Qed.

Lemma flushed_all l uk : flushed false uk l = l.
Proof. induction l as [|e l IH]; [done|]. cbn. by rewrite IH. Qed.

Lemma flushed_sublist prune uk l : flushed prune uk l `sublist_of` l.
Proof.
  revert uk. induction l as [|e l IH]; intros uk; cbn [flushed]; [done|].
  destruct (prune && _); [by apply sublist_cons|by apply sublist_skip].
Qed.

(** C9. A flush stores the memtable: [BuildTable] returns OK, every replica of the
    new table answers with the entries of the memtable, all of them or, when it
    prunes, the newest of each user key, its metadata has their first and last
    key, and a reader that sees every entry reads the same from the table as
    from the memtable. *)
Theorem flush_stores_table prune rounds w s i meta :
  kvs ≠ [] → StronglySorted (λ a b : kv, cmp.(Compare) a.1 b.1 < 0) kvs → fits (flushed prune [] kvs) →
  (∀ s i, R s i → op_status_ok it s = true) → R s i → (length kvs < rounds)%nat →
  number meta < js_next w → ready (js_cluster w) (number meta) 1 →
  ∃ w' meta', BuildTable alloc AcceleratedCRC32C Snappy_Compress Snappy_Uncompress ItemAlloc backing options cfg dbname max_stoc_file_size
      servers my_server_id depth sort scatter_policy rand rand_meta U it prune rounds w s meta = Ret (w', meta', true)
    ∧ number meta' = number meta ∧ describes meta' (flushed prune [] kvs) ∧ 0 < file_size meta'
    ∧ table_stored w' meta' (flushed prune [] kvs)
    ∧ (prune = false → flushed prune [] kvs = kvs)
    ∧ ∀ u snap, Forall (λ e : kv, ∃ ikey, ParseInternalKey e.1 = Some ikey ∧ sequence ikey <= snap) kvs →
        first_visible U (flushed prune [] kvs) u snap = first_visible U kvs u snap.
Proof using All.
  intros Hne Hsort Hfit Hst HR Hr Hn Hready. set (F := flushed prune [] kvs) in *. unfold BuildTable.
  set (m0 := with_blocks 0 _ _ _ meta).
  destruct (@cur_move _ _ _ _ _ HC s i SeekToFirst 0%nat HR eq_refl) as (s0 & -> & HR0). cbn [mbind res_bind].
  destruct (kvs !! 0%nat) as [e0|] eqn:E0; [|apply lookup_ge_None in E0; destruct kvs; [done|cbn in E0; lia]].
  pose proof (lookup_lt_Some _ _ _ E0) as Hlt.
  rewrite (@cur_valid _ _ _ _ _ HC _ _ HR0), bool_decide_eq_true_2 by done. destruct e0 as [k0 v0].
  destruct (make_open AcceleratedCRC32C cmp interval block_size policy name interval_pos) as (r0 & Er0 & Hop). unfold open_table.
  rewrite (make_lift (client (number m0)) (backing_size _) options r0 eq_refl Er0). cbn [mbind res_bind].
  destruct (@cur_entry _ _ _ _ _ HC _ _ _ _ HR0 E0) as [-> _]. cbn [mbind res_bind].
  assert (StronglySorted lt F) as HsF by (eapply StronglySorted_sublist; [apply flushed_sublist|done]).
  assert (F ≠ []) as HF by (intros HF; pose proof (flushed_nonempty prune kvs Hne) as Hh; fold F in Hh; rewrite HF in Hh; by destruct kvs).
  destruct (flush_loop_ok prune (number m0) rounds [] r0 s0 0 [] (with_keys k0 (largest m0) m0) F HR0)
    as (r & s1 & i1 & -> & Er & HR1); [lia|lia|unfold memory_run; by rewrite Er0|done|done|done|].
  cbn [mbind res_bind]. rewrite drop_0. fold F. set (m1 := with_keys _ _ _).
  destruct (store_built w (number m1) 0 F r m1 Hready HF HsF Hfit Er eq_refl)
    as (b & c & file & s2 & metas & size & reps & parity & EB & Hok & Hsz & ES & EF & Hlm & Hans & Hext & _).
  change (number m1) with (number m0) in EB. rewrite EB. cbn [mbind res_bind]. rewrite Hok, decide_True by done. rewrite ES. cbn [mbind res_bind]. rewrite EF. cbn [mbind res_bind].
  rewrite (Hst _ _ HR1). eexists _, _. split; [done|]. split; [done|]. split; [|split; [done|split]].
  - split.
    + exists (k0, v0). split; [|done]. unfold F. rewrite flushed_nonempty by done. destruct kvs; [done|]. by injection E0 as ->.
    + destruct (last F) as [e|] eqn:El; [|by apply last_None in El]. by exists e.
  - split; [done|]. exists metas. cbn [js_local js_cluster number with_blocks block_replica_handles]. by rewrite lookup_insert_eq.
  - split; [intros ->; apply flushed_all|]. intros u snap Hp. by apply flushed_visible.
Qed.

(** C4. A compaction to tables on storage components runs through and keeps every
    read.  For an input iterator over sorted, well-formed entries and components
    with room, [CompactTables] returns OK; every replica of every output table
    answers with its entries, which together are a subsequence of the input;
    every output's smallest and largest key are the first and the last of its
    table; and for every user key and every snapshot from the smallest one on,
    the entry that the snapshot sees is the same before and after. *)
Theorem compaction_keeps_reads max_file_size add_to_memtable compaction subranges snapshot rounds w s i :
  (∀ s i, R s i → op_status_ok it s = true) →
  Forall (λ e : kv, is_Some (ParseInternalKey e.1)) kvs →
  StronglySorted (λ a b : kv, cmp.(Compare) a.1 b.1 < 0) kvs →
  (∀ pre l e post, compacted U snapshot None kMaxSequenceNumber kvs = pre ++ l ++ e :: post →
     l = [] ∨ table_size l < max_file_size → fits (l ++ [e])) →
  match subranges with Some srs => Forall (λ sr, tiny_ranges sr ≠ []) srs | None => True end →
  snapshot < kMaxSequenceNumber →
  0 < js_next w → js_next w + size_of kvs < 2 ^ 64 → ready (js_cluster w) (js_next w) (length kvs) →
  R s i → (length kvs < rounds)%nat →
  ∃ w' c' tables,
    CompactTables U (TW := writer) it max_file_size true kCompactOutputSSTables add_to_memtable rounds w
      (CompactionState_init compaction subranges snapshot) s = Ret (w', c', true)
    ∧ Forall2 (table_stored w') (cs_outputs c') tables
    ∧ Forall2 describes (cs_outputs c') tables ∧ concat tables `sublist_of` kvs
    ∧ ∀ u snap, snapshot <= snap → first_visible U (concat tables) u snap = first_visible U kvs u snap.
Proof using All.
  intros Hst Hp Hsort Hroom Hsr Hs Hpos Hmax Hready HR Hr.
  destruct (CompactTables_keeps_reads U (TW := writer) (TL := stoc_writer_laws) fits table_size job_at it kvs R max_file_size add_to_memtable compaction subranges snapshot
    rounds w s i Hst Hp Hsort Hroom Hsr Hs) as (w' & c' & k & tables & E & (_ & _ & Hdone & _) & Hl & Hd & Hsub & Hv); [done|done|done|].
  exists w', c', tables. split; [done|]. split; [|done]. apply Forall2_same_length_lookup. split; [done|].
  intros j f l Hf Hl'. rewrite Forall_lookup in Hdone. apply (Hdone j (f, l)). by rewrite lookup_zip_with, Hf, Hl'.
Qed.
End laws.

(** ** Jobs on three components *)

Lemma example_ready k : (k <= 3)%nat → ready example_config (str "db") [1; 2; 3] 5000 example_cluster 7 k.
Proof.
  intros Hk i srv r t Hi Hsrv Hr. apply (cluster_free_le _ _ 9).
  { change (max_keys example_config) with 3%nat. lia. }
  assert (r = 0%nat) as -> by (cbn in Hr; lia).
  assert (i = 0 ∨ i = 1 ∨ i = 2)%nat as Hi3 by lia.
  repeat (apply elem_of_cons in Hsrv as [->|Hsrv]); [| | |by apply not_elem_of_nil in Hsrv];
    (destruct Hi3 as [->|[->| ->]]; destruct t;
     eexists _, _; (split; [reflexivity|]); (split; [by vm_compute|]); (split; [apply Manager_init_ok|]);
     (split; [lia|]); (split; [by vm_compute|]); (split; [reflexivity|]); (split; [reflexivity|]); (split; [reflexivity|]);
     (split; [by vm_compute|]); by vm_compute).
Qed.

Lemma example_plan : plan_ok example_config [1; 2; 3] (λ _ _ l, l) RANDOM.
Proof.
  split; try done.
  - repeat constructor; set_solver.
  - vm_compute. lia.
  - vm_compute. split; [lia|by left].
Qed.

Lemma example_backing (n : Z) : size_of (example_memory 5000) = 5000.
Proof. by vm_compute. Qed.

Definition example_storage : JobStorage := mkStorage example_cluster 7 ∅.

Lemma flush_stores_table_witness :
  ∃ w' meta', BuildTable (λ n, (0, example_memory n)) (λ _ _, 0) (λ _, None) (λ _, None) example_memory (λ _, example_memory 5000)
      (table_options (InternalKeyComparator BytewiseComparator) 16 1 example_policy (str "bloom")) example_config (str "db") 5000
      [1; 2; 3] 1 (λ _ _, 0) (λ _ _ l, l) RANDOM (λ n, n) (λ n, n) BytewiseComparator
      (list_iter (InternalKeyComparator BytewiseComparator) example_table) true 4 (mkStorage example_cluster 8 ∅) 3%nat (file_numbered 7)
      = Ret (w', meta', true)
    ∧ smallest meta' = example_key 97 3 ∧ largest meta' = example_key 98 5.
Proof.
  pose (HB := Bloom_contract 10 ltac:(lia)). pose (HS := Bloom_sized 10 ltac:(lia)).
  destruct (flush_stores_table (λ n, (0, example_memory n))
    ltac:(intros n Hn; unfold example_memory; cbn [fst snd]; rewrite length_replicate; lia)
    (λ _ _, 0) (λ _, None) (λ _, None) example_memory (λ _, example_memory 5000)
    ltac:(intros n Hn; unfold example_memory; rewrite length_replicate; lia)
    BytewiseComparator 16 1 example_policy (str "bloom") 2 ltac:(lia)
    example_config (str "db") 5000 example_backing [1; 2; 3] 1 (λ _ _, 0) (λ _ _ l, l) RANDOM (λ n, n) (λ n, n) 5000 example_plan
    (list_iter (InternalKeyComparator BytewiseComparator) example_table) example_table (list_at example_table)
    (HC := list_Cursor _ _) true 4 (mkStorage example_cluster 8 ∅) 3%nat 3%nat (file_numbered 7))
    as (w' & meta' & E & _ & [(e & He & Hs) (e' & He' & Hl)] & _).
  - done.
  - repeat constructor; by vm_compute.
  - split; try by vm_compute. repeat constructor; by vm_compute.
  - done.
  - split; [done|]. cbn; lia.
  - cbn; lia.
  - by vm_compute.
  - apply example_ready. lia.
  - exists w', meta'. split; [exact E|]. vm_compute in He, He'. injection He as <-. injection He' as <-. split; [exact Hs|exact Hl].
Defined.

Lemma compaction_keeps_reads_witness :
  ∃ w' c' tables,
    CompactTables BytewiseComparator
      (TW := stoc_writer (λ n, (0, example_memory n)) (λ _ _, 0) (λ _, None) (λ _, None) example_memory (λ _, example_memory 5000)
        (table_options (InternalKeyComparator BytewiseComparator) 16 1 example_policy (str "bloom")) example_config (str "db") 5000
        [1; 2; 3] 1 (λ _ _, 0) (λ _ _ l, l) RANDOM (λ n, n) (λ n, n))
      (list_iter (InternalKeyComparator BytewiseComparator) example_table) 1 true kCompactOutputSSTables (λ w _ _, Ret w) 4
      example_storage (CompactionState_init None None 6) 3%nat = Ret (w', c', true)
    ∧ Forall2 describes (cs_outputs c') tables
    ∧ first_visible BytewiseComparator (concat tables) [98] 7 = Some (example_key 98 5, [2; 2]).
Proof.
  pose (HB := Bloom_contract 10 ltac:(lia)). pose (HS := Bloom_sized 10 ltac:(lia)).
  destruct (compaction_keeps_reads (λ n, (0, example_memory n))
    ltac:(intros n Hn; unfold example_memory; cbn [fst snd]; rewrite length_replicate; lia)
    (λ _ _, 0) (λ _, None) (λ _, None) example_memory (λ _, example_memory 5000)
    ltac:(intros n Hn; unfold example_memory; rewrite length_replicate; lia)
    BytewiseComparator 16 1 example_policy (str "bloom") 2 ltac:(lia)
    example_config (str "db") 5000 example_backing [1; 2; 3] 1 (λ _ _, 0) (λ _ _ l, l) RANDOM (λ n, n) (λ n, n) 5000 example_plan
    (list_iter (InternalKeyComparator BytewiseComparator) example_table) example_table (list_at example_table)
    (HC := list_Cursor _ _) 1 (λ w _ _, Ret w) None None 6 4 example_storage 3%nat 3%nat)
    as (w' & c' & tables & E & _ & Hd & _ & Hv).
  - done.
  - apply Forall_forall. intros e He. repeat (apply elem_of_cons in He as [->|He]); [by eexists..|by apply not_elem_of_nil in He].
  - repeat constructor; by vm_compute.
  - intros pre l e post. change (compacted _ _ _ _ _) with [(example_key 97 3, [1]); (example_key 98 5, [2; 2])]. intros El _.
    assert (table_fits 1 (str "bloom") 2 [(example_key 97 3, [1])] 5000 5000) as Ha.
    { split; try (by vm_compute). repeat constructor; by vm_compute. }
    assert (table_fits 1 (str "bloom") 2 [(example_key 98 5, [2; 2])] 5000 5000) as Hb.
    { split; try (by vm_compute). repeat constructor; by vm_compute. }
    assert (table_fits 1 (str "bloom") 2 [(example_key 97 3, [1]); (example_key 98 5, [2; 2])] 5000 5000) as Hab.
    { split; try (by vm_compute). repeat constructor; by vm_compute. }
    revert Ha Hb Hab El. generalize (example_key 97 3, [1]) (example_key 98 5, [2; 2]). intros a b Ha Hb Hab El.
    pose proof (f_equal length El) as Hlen. rewrite !length_app in Hlen. cbn [length] in Hlen.
    destruct pre as [|? [|? pre]], l as [|? [|? l]]; cbn [length] in Hlen; try lia; simplify_list_eq; assumption.
  - done.
  - done.
  - done.
  - done.
  - by apply example_ready.
  - split; [done|]. cbn; lia.
  - cbn; lia.
  - exists w', c', tables. split; [exact E|]. split; [exact Hd|]. rewrite Hv by lia. by vm_compute.
Defined.
