(* ===== verification/VersionGet.v ===== *)
(** * VersionGet: point lookups in the files of a version

    The two overloads of [Version::Get] of [db/version_set.cc] and [SaveValue],
    the callback they pass to the table cache: one reads a list of level-0 files
    in reverse order, the other one file of each sorted level.  The table cache
    is an interface here: a table answers a lookup with its first entry at or
    after the key. *)

From S2P Require Import Prelude Coding Comparator Cursor NovaCommon DbFormat Merger FileMeta FileSearch VersionBuilder Compaction.

(** ** The callback *)

Inductive SaverState := kNotFound | kFound | kDeleted | kCorrupt.

(** [user_key] and [ucmp] of the source do not change; they are arguments. *)
Record Saver := mkSaver { sv_state : SaverState; sv_seq : Z; sv_value : bytes }.

Inductive ReadStatus := Read_OK | Read_NotFound | Read_IOError | Read_Corruption | Read_Failed.

Section get.
Context (U : Comparator).
Local Abbreviation icmp := (InternalKeyComparator U).

(** [table_cache_->Get(..., file, ..., k, arg, SaveValue)]: the entry passed
    to the callback, if any; [Fail] is a status that is not ok, [Abort] a
    failed assertion. *)
Context (table_get : FileMetaData → bytes → res (option kv)).

Definition SaveValue (user_key0 : bytes) (s : Saver) (e : kv) : Saver :=
  match ParseInternalKey e.1 with
  | None => mkSaver kCorrupt (sv_seq s) (sv_value s)
  | Some parsed_key =>
      if decide (U.(Compare) (user_key parsed_key) user_key0 = 0) then
        match type parsed_key with
        | kTypeValue => mkSaver kFound (sequence parsed_key) e.2
        | kTypeDeletion => mkSaver kDeleted (sv_seq s) (sv_value s)
        end
      else s
  end.

(** ** [Get(options, fns, key, seq, val, num_searched_files)] *)

(** What the loop has read: [found], [*seq], [*val] and [*num_searched_files]. *)
Record FnsState := mkFns { fs_found : bool; fs_seq : Z; fs_val : bytes; fs_searched : Z }.

(** One file: its status is not looked at. *)
Definition get_file (key : LookupKey) (st : FnsState) (file : FileMetaData) : res FnsState :=
  let ukey := LookupKey_user_key key in
  if decide (U.(Compare) (smallest_user_key file) ukey > 0) then Ret st
  else if decide (U.(Compare) (largest_user_key file) ukey < 0) then Ret st
  else
    let searched := w64 (fs_searched st + 1) in
    let saver := mkSaver kNotFound 0 (fs_val st) in
    match table_get file (internal_key key) with
    | Abort => Abort
    | r =>
        let saver := match r with Ret (Some e) => SaveValue ukey saver e | _ => saver end in
        match sv_state saver with
        | kFound => Ret (mkFns true (Z.max (fs_seq st) (sv_seq saver)) (sv_value saver) searched)
        | _ => Ret (mkFns (fs_found st) (fs_seq st) (sv_value saver) searched)
        end
    end.

(** The loop over the numbers, the last one first. *)
Fixpoint get_fns (v : Version) (key : LookupKey) (st : FnsState) (fns : list Z) : res (FnsState * bool) :=
  match fns with
  | [] => Ret (st, true)
  | fn :: fns =>
      match fn_files_ v !! fn with
      | None => Ret (st, false)
      | Some file =>
          if decide (number file = fn) then st ← get_file key st file; get_fns v key st fns else Abort
      end
  end.

Definition Version_Get_fns (v : Version) (fns : list Z) (key : LookupKey) (seq : Z) (val : bytes) (searched : Z)
    : res (ReadStatus * FnsState) :=
  '(st, present) ← get_fns v key (mkFns false seq val searched) (reverse fns);
  Ret (if negb present then Read_IOError else if fs_found st then Read_OK else Read_NotFound, st).

(** ** [Get(options, k, seq, value, stats, search_scope, num_searched_files)] *)

(** [State] of the source with [GetStats]. *)
Record GetState := mkGet {
  gs_saver : Saver;
  gs_s : ReadStatus;
  gs_found : bool;
  gs_last_file_read : option (FileMetaData * Z);
  gs_seek_file : option (FileMetaData * Z);
  gs_searched : Z
}.

(** [Match(arg, level, f)]; a failed assertion ends the search. *)
Definition Match (key : LookupKey) (arg : res GetState) (level : Z) (f : FileMetaData) : res GetState * bool :=
  match arg with
  | Ret state =>
      let seek := match gs_seek_file state with None => gs_last_file_read state | s => s end in
      let searched := w64 (gs_searched state + 1) in
      match table_get f (internal_key key) with
      | Abort => (Abort, false)
      | Fail => (Ret (mkGet (gs_saver state) Read_Failed true (Some (f, level)) seek searched), false)
      | Ret r =>
          let saver := match r with Some e => SaveValue (LookupKey_user_key key) (gs_saver state) e | None => gs_saver state end in
          match sv_state saver with
          | kNotFound => (Ret (mkGet saver Read_OK (gs_found state) (Some (f, level)) seek searched), true)
          | kFound => (Ret (mkGet saver Read_OK true (Some (f, level)) seek searched), false)
          | kDeleted => (Ret (mkGet saver Read_OK (gs_found state) (Some (f, level)) seek searched), false)
          | kCorrupt => (Ret (mkGet saver Read_Corruption true (Some (f, level)) seek searched), false)
          end
      end
  | r => (r, false)
  end.

Definition Version_Get (use_ordered_flush : bool) (v : Version) (k : LookupKey) (seq : Z) (value : bytes)
    (scope : GetSearchScope) (searched : Z) : res (ReadStatus * GetState) :=
  state ← ForEachOverlapping U (Match k) use_ordered_flush
    (Ret (mkGet (mkSaver kNotFound seq value) Read_OK false None None searched))
    (LookupKey_user_key k) (internal_key k) scope (files_ v);
  Ret (if gs_found state then gs_s state else Read_NotFound, state).

(** ** What a version holds *)

(** What a stored table promises to its readers. *)
Class TableReads (stored : FileMetaData → list kv → Prop) : Prop :=
  table_reads f l k : stored f l →
    ∃ r, table_get f k = Ret r
      ∧ (∀ e, r = Some e → l !! lower_bound icmp l k = Some e)
      ∧ (∀ e, l !! lower_bound icmp l k = Some e → ExtractUserKey e.1 = ExtractUserKey k → r = Some e).
End get.

(** The entries of a table come in order, with well-formed keys. *)
Definition table_entries (U : Comparator) (l : list kv) : Prop :=
  Forall (λ e : kv, ikey e.1) l ∧ StronglySorted (λ a b : kv, InternalKey_Compare U a.1 b.1 < 0) l.

(** No other spelling of the user key occurs. *)
Definition one_spelling (U : Comparator) (u : bytes) (l : list kv) : Prop :=
  Forall (λ e : kv, U.(Compare) (ExtractUserKey e.1) u = 0 → ExtractUserKey e.1 = u) l.

(** A file with its entries. *)
Definition holds_table (U : Comparator) (stored : FileMetaData → list kv → Prop) (f : FileMetaData) (l : list kv) : Prop :=
  stored f l ∧ table_entries U l ∧ describes f l.

(** The value of an entry, unless it is a deletion. *)
Definition entry_value (e : kv) : option bytes :=
  match ParseInternalKey e.1 with
  | Some k => match type k with kTypeValue => Some e.2 | kTypeDeletion => None end
  | None => None
  end.

(** What a search through entries of one key, level by level, answers: the
    first one when flushes are ordered, else the last value. *)
Fixpoint first_answer (reads : list (option kv)) : option bytes :=
  match reads with
  | [] => None
  | None :: reads => first_answer reads
  | Some e :: _ => entry_value e
  end.
Fixpoint last_answer (reads : list (option kv)) : option bytes :=
  match reads with
  | [] => None
  | r :: reads => match last_answer reads with Some v => Some v | None => r ≫= entry_value end
  end.

(** ** Reading one table *)

Section reads.
Context (U : Comparator) {OU : ComparatorOrder U}.
Local Abbreviation icmp := (InternalKeyComparator U).
Local Abbreviation seek u snap := (InternalKey_make u snap kValueTypeForSeek).

Lemma ikey_parse k : ikey k → ∃ s t, seq_ok s ∧ k = InternalKey_make (ExtractUserKey k) s t
  ∧ ParseInternalKey k = Some (mkParsed (ExtractUserKey k) s t) ∧ ExtractTag k = s * 2 ^ 8 + ValueType_code t.
Proof.
  intros (u & s & t & Hs & ->). exists s, t. rewrite InternalKey_make_user_key. split; [done|]. split; [done|].
  split; [|by apply InternalKey_make_tag]. unfold InternalKey_make. by rewrite AppendInternalKey_parse.
Qed.

(** An entry at or after the key a lookup seeks is of a later key, or visible. *)
Lemma seek_le u snap e s t :
  seq_ok snap → seq_ok s → ExtractTag e = s * 2 ^ 8 + ValueType_code t →
  ¬ InternalKey_Compare U e (seek u snap) < 0 ↔ U.(Compare) u (ExtractUserKey e) < 0 ∨ U.(Compare) (ExtractUserKey e) u = 0 ∧ s <= snap.
Proof using OU.
  intros Hsn Hs Ht. rewrite icmp_lt, InternalKey_make_user_key, Ht, InternalKey_make_tag by done.
  pose proof (cmp_antisym (ExtractUserKey e) u). pose proof (cmp_antisym u (ExtractUserKey e)). pose proof (cmp_gt_lt (ExtractUserKey e) u).
  destruct t; cbn [ValueType_code kValueTypeForSeek]; lia.
Qed.

Lemma first_visible_none l u snap :
  Forall (λ e : kv, U.(Compare) u (ExtractUserKey e.1) < 0) l → Forall (λ e : kv, ikey e.1) l → first_visible U l u snap = None.
Proof using OU.
  induction 1 as [|e l He _ IH]; [done|]. intros [Hk Hl]%Forall_cons. cbn [first_visible].
  destruct (ikey_parse _ Hk) as (s & t & _ & _ & -> & _). cbn [user_key sequence]. rewrite decide_False; [by apply IH|].
  intros [H0 _]. pose proof (cmp_antisym u (ExtractUserKey e.1)). lia.
Qed.

(** The entry a snapshot sees is the first one at or after the key sought. *)
Lemma first_visible_lower l u snap :
  table_entries U l → seq_ok snap →
  first_visible U l u snap =
    match l !! lower_bound icmp l (seek u snap) with
    | Some e => if decide (U.(Compare) (ExtractUserKey e.1) u = 0) then Some e else None
    | None => None
    end.
Proof using OU.
  intros [Hk Hs] Hsn. induction l as [|e l IH]; [done|]. apply Forall_cons in Hk as [Hke Hk]. apply StronglySorted_cons in Hs as [Hse Hs].
  cbn [first_visible]. destruct (ikey_parse _ Hke) as (s & t & Hso & _ & -> & Ht). cbn [user_key sequence].
  destruct e as [k v]. cbn [fst] in *. cbn [lower_bound Compare InternalKeyComparator].
  pose proof (seek_le u snap k s t Hsn Hso Ht) as Hle. destruct (decide (InternalKey_Compare U k (seek u snap) < 0)) as [Hlt|Hge].
  - rewrite decide_False; [by apply IH|]. intros H0. apply (proj2 Hle); [by right|done].
  - cbn [lookup list_lookup]. cbn [fst]. apply Hle in Hge as [Hgt|[H0 H1]].
    + pose proof (cmp_antisym u (ExtractUserKey k)) as Ha. rewrite !decide_False by lia. apply first_visible_none; [|done].
      eapply Forall_impl; [exact Hse|]. intros e He. cbn beta in He. apply icmp_lt in He. apply (cmp_lt_le_trans _ (ExtractUserKey k)); [done|lia].
    + by rewrite !decide_True.
Qed.

(** Entries before the key sought do not matter, nor do entries after one at
    or after it. *)
Lemma first_visible_skip l r u snap :
  seq_ok snap → Forall (λ e : kv, ikey e.1 ∧ InternalKey_Compare U e.1 (seek u snap) < 0) l →
  first_visible U (l ++ r) u snap = first_visible U r u snap.
Proof using OU.
  intros Hsn. induction 1 as [|e l [Hk Hlt] _ IH]; [done|]. cbn [app first_visible].
  destruct (ikey_parse _ Hk) as (s & t & Hso & _ & -> & Ht). cbn [user_key sequence]. rewrite decide_False; [done|].
  intros H0. apply (proj2 (seek_le u snap e.1 s t Hsn Hso Ht)); [by right|done].
Qed.

Lemma lower_bound_app l r k : (lower_bound icmp l k < length l)%nat → lower_bound icmp (l ++ r) k = lower_bound icmp l k.
Proof. induction l as [|[a b] l IH]; cbn [lower_bound app length]; [lia|]. case_decide; [|done]. intros Hl. rewrite IH; [done|lia]. Qed.

Lemma first_visible_stop l r e u snap :
  table_entries U (l ++ r) → seq_ok snap → e ∈ l → ¬ InternalKey_Compare U e.1 (seek u snap) < 0 →
  first_visible U (l ++ r) u snap = first_visible U l u snap.
Proof using OU.
  intros Ht Hsn He Hge. pose proof Ht as [[Hk _]%Forall_app (_ & Hs & _)%StronglySorted_app].
  assert (lower_bound icmp l (seek u snap) < length l)%nat as Hlt.
  { apply Nat.nle_gt. intros Hle. apply list_elem_of_lookup in He as [i Hi]. destruct e as [k v]. apply Hge.
    apply (lower_bound_before icmp l _ i k v); [|done]. apply lookup_lt_Some in Hi. lia. }
  rewrite !first_visible_lower by done. by rewrite lower_bound_app, lookup_app_l.
Qed.

(** ** Reading one level *)

Context (stored : FileMetaData → list kv → Prop).
Local Abbreviation level_holds := (Forall2 (holds_table U stored)).

Local Lemma icmp_self a : InternalKey_Compare U a a = 0.
Proof. apply (cmp_refl (C := icmp)). Qed.

Lemma found_entry_bounds f l e : holds_table U stored f l → e ∈ l →
  InternalKey_Compare U (smallest f) e.1 <= 0 ∧ InternalKey_Compare U e.1 (largest f) <= 0.
Proof using OU.
  intros (_ & [Hk Hs] & (a & Ha & ->) & (b & Hb & ->)) He. split.
  - destruct l as [|x l]; [done|]. injection Ha as ->. apply StronglySorted_cons in Hs as [Hs _].
    apply elem_of_cons in He as [->|He]; [by rewrite icmp_self|]. rewrite Forall_forall in Hs. specialize (Hs e He). cbn beta in Hs. lia.
  - apply last_Some in Hb as [l' ->]. apply StronglySorted_app in Hs as (Hs & _ & _).
    apply elem_of_app in He as [He|He%list_elem_of_singleton]; [|subst; by rewrite icmp_self].
    specialize (Hs e b He ltac:(by left)). cbn beta in Hs. lia.
Qed.

Lemma holds_wf f l : holds_table U stored f l → file_wf U f.
Proof using OU.
  intros H. pose proof H as (_ & [Hk _] & (a & Ha & Ea) & (b & Hb & Eb)). rewrite Forall_forall in Hk.
  assert (a ∈ l) as Hia by (destruct l; [done|]; injection Ha as ->; by left).
  assert (b ∈ l) as Hib by (apply last_Some in Hb as [l' ->]; apply elem_of_app; right; by left).
  split; [rewrite Ea; by apply Hk|]. split; [rewrite Eb; by apply Hk|].
  destruct (found_entry_bounds f l a H Hia) as [_ Hle]. by rewrite Ea.
Qed.

Lemma level_holds_sorted files ls : level_holds files ls → table_entries U (concat ls) → level_sorted U files.
Proof using OU.
  induction 1 as [|f l files ls Hf Hfs IH]; [by repeat constructor|]. intros [Hk Hs]. cbn [concat] in *.
  apply Forall_app in Hk as [Hkl Hk]. apply StronglySorted_app in Hs as (Hlt & Hsl & Hs). destruct IH as [Hwf Hss]; [done|].
  split; [constructor; [by eapply holds_wf|done]|]. constructor; [done|]. rewrite Forall_forall. intros g Hg.
  apply list_elem_of_lookup in Hg as [i Hi]. destruct (Forall2_lookup_l _ _ _ _ _ Hfs Hi) as (l' & Hl' & Hg).
  destruct Hf as (_ & _ & _ & (b & Hb & Eb)), Hg as (_ & _ & (a & Ha & Ea) & _). unfold file_before. rewrite Ea, Eb. apply Hlt.
  - apply last_Some in Hb as [l0 ->]. apply elem_of_app. right. by left.
  - apply list_elem_of_In, in_concat. exists l'. split; [apply list_elem_of_In; by eapply list_elem_of_lookup_2|]. apply list_elem_of_In.
    destruct l'; [done|]. injection Ha as ->. by left.
Qed.

(** Searching a level through [FindFile] is searching its entries: the
    candidate holds the entry the snapshot sees, and without a candidate the
    snapshot sees none. *)
Lemma level_read files ls u snap :
  level_holds files ls → table_entries U (concat ls) → size_of files < 2 ^ 31 → seq_ok snap →
  match level_candidate U u (seek u snap) files with
  | Some f => ∃ l, f ∈ files ∧ l ∈ ls ∧ holds_table U stored f l ∧ first_visible U (concat ls) u snap = first_visible U l u snap
  | None => first_visible U (concat ls) u snap = None
  end.
Proof using OU.
  intros Hh Ht Hn Hsn. pose proof (level_holds_sorted files ls Hh Ht) as Hs. pose proof (Forall2_length _ _ _ Hh) as Hlen.
  destruct (FindFile_spec U files (seek u snap) Hs Hn) as [Hb Hi]. unfold level_candidate. set (j := FindFile U files (seek u snap)) in *.
  rewrite <- (take_drop (Z.to_nat j) ls) in Ht |- *. rewrite concat_app in Ht |- *. pose proof Ht as [[Hk1 Hk2]%Forall_app (_ & _ & Hs2)%StronglySorted_app].
  assert (Forall (λ e : kv, ikey e.1 ∧ InternalKey_Compare U e.1 (seek u snap) < 0) (concat (take (Z.to_nat j) ls))) as Hbef.
  { rewrite Forall_forall in Hk1 |- *. intros e He. split; [by apply Hk1|]. apply list_elem_of_In, in_concat in He as (l & Hl & He).
    apply list_elem_of_In, list_elem_of_lookup in Hl as [i Hl]. apply lookup_take_Some in Hl as [Hl Hij].
    destruct (Forall2_lookup_r _ _ _ _ _ Hh Hl) as (f & Hf & Hft). destruct (found_entry_bounds f l e Hft) as [_ Hle]; [by apply list_elem_of_In|].
    apply (cmp_le_lt_trans (C := icmp) _ (largest f)); [done|]. apply (Hi i f Hf). lia. }
  rewrite (first_visible_skip _ _ _ _ Hsn Hbef). case_decide as Hj.
  2: { rewrite drop_ge by lia. done. }
  destruct (lookup_lt_is_Some_2 files (Z.to_nat j)) as [f Hf]; [lia|]. rewrite Hf. destruct (Forall2_lookup_l _ _ _ _ _ Hh Hf) as (l & Hl & Hft).
  rewrite (drop_S _ _ _ Hl) in Hk2, Hs2 |- *. cbn [concat] in Hk2, Hs2 |- *. pose proof Hft as (_ & _ & (a & Ha & Ea) & (b & Hbl & Eb)).
  case_decide as Hu.
  - apply first_visible_none; [|done]. rewrite Forall_forall. intros e He. apply (cmp_lt_le_trans _ (smallest_user_key f)); [done|].
    unfold smallest_user_key. rewrite Ea. destruct l as [|x l]; [done|]. injection Ha as ->. cbn [app] in He, Hs2. apply StronglySorted_cons in Hs2 as [Hs2 _].
    apply elem_of_cons in He as [->|He]; [by rewrite cmp_refl|]. rewrite Forall_forall in Hs2. specialize (Hs2 e He). cbn beta in Hs2. apply icmp_lt in Hs2. lia.
  - exists l. split; [by eapply list_elem_of_lookup_2|]. split; [|split; [done|]].
    + apply elem_of_app. right. by left.
    + apply (first_visible_stop _ _ b); [by split|done| |].
      * apply last_Some in Hbl as [l0 ->]. apply elem_of_app. right. by left.
      * rewrite <- Eb. rewrite <- (Hi _ _ Hf). lia.
Qed.

(** ** Through the table cache *)

Context (table_get : FileMetaData → bytes → res (option kv)) {TR : TableReads U table_get stored}.

Definition entry_seq (e : kv) : Z := match ParseInternalKey e.1 with Some k => sequence k | None => 0 end.

(** The saver after a table in which the snapshot sees [o]. *)
Definition saved (s : Saver) (o : option kv) : Saver :=
  match o with
  | None => s
  | Some e => match entry_value e with
              | Some v => mkSaver kFound (entry_seq e) v
              | None => mkSaver kDeleted (sv_seq s) (sv_value s)
              end
  end.

Lemma table_read f l u snap :
  holds_table U stored f l → one_spelling U u l → seq_ok snap →
  ∃ r, table_get f (seek u snap) = Ret r
    ∧ ∀ s, match r with Some e => SaveValue U u s e | None => s end = saved s (first_visible U l u snap).
Proof using OU TR.
  intros (Hst & Ht & _) H1 Hsn. destruct (TR f l (seek u snap) Hst) as (r & E & Hsome & Hfound). exists r. split; [done|]. intros s.
  rewrite InternalKey_make_user_key in Hfound. rewrite (first_visible_lower l u snap Ht Hsn). pose proof Ht as [Hk _]. unfold one_spelling in H1. rewrite Forall_forall in Hk, H1.
  destruct (l !! lower_bound icmp l (seek u snap)) as [e|] eqn:El.
  - pose proof (list_elem_of_lookup_2 _ _ _ El) as He. destruct (decide (U.(Compare) (ExtractUserKey e.1) u = 0)) as [H0|H0].
    + rewrite (Hfound e eq_refl (H1 e He H0)). unfold saved, SaveValue, entry_value, entry_seq.
      destruct (ikey_parse _ (Hk e He)) as (q & t & _ & _ & -> & _). cbn [user_key type sequence]. rewrite decide_True by done. by destruct t.
    + destruct r as [e'|]; [|done]. pose proof (Hsome e' eq_refl) as [= <-]. cbn [saved]. unfold SaveValue.
      destruct (ikey_parse _ (Hk e He)) as (q & t & _ & _ & -> & _). cbn [user_key]. by rewrite decide_False.
  - destruct r as [e'|]; [|done]. by specialize (Hsome e' eq_refl).
Qed.

(** A level ready to be searched for a user key. *)
Record level_ok (u : bytes) (files : list FileMetaData) (ls : list (list kv)) : Prop := {
  lo_holds : level_holds files ls;
  lo_entries : table_entries U (concat ls);
  lo_size : size_of files < 2 ^ 31;
  lo_spelling : one_spelling U u (concat ls)
}.

(** What the snapshot sees in each level. *)
Definition level_reads (u : bytes) (snap : Z) (lss : list (list (list kv))) : list (option kv) :=
  (λ ls, first_visible U (concat ls) u snap) <$> lss.

Local Abbreviation visit ordered arg u snap :=
  (visit_levels U (Match U table_get (LookupKey_make u snap)) ordered arg u (seek u snap)).

(** The state after a file was read; [cont] tells whether to go on. *)
Definition after_read (st arg : GetState) (cont : bool) : Prop :=
  gs_s arg = Read_OK
  ∧ gs_found arg = match sv_state (gs_saver arg) with kFound => true | _ => gs_found st end
  ∧ cont = match sv_state (gs_saver arg) with kNotFound => true | _ => false end.

Lemma saved_not_corrupt s o : sv_state s ≠ kCorrupt → sv_state (saved s o) ≠ kCorrupt.
Proof. unfold saved. by destruct o as [e|]; [destruct (entry_value e)|]. Qed.

(** One level of the search. *)
Lemma visit_level ordered st u snap n files ls levels :
  level_ok u files ls → seq_ok snap → sv_state (gs_saver st) ≠ kCorrupt →
  ∃ arg cont,
    visit ordered (Ret st) u snap n (files :: levels) =
      (if ordered && negb cont then Ret arg else visit ordered (Ret arg) u snap (n + 1) levels)
    ∧ gs_saver arg = saved (gs_saver st) (first_visible U (concat ls) u snap)
    ∧ (arg = st ∧ cont = true ∨ after_read st arg cont).
Proof using OU TR.
  intros [Hh Ht Hn H1] Hsn Hc. cbn [visit_levels]. pose proof (level_read files ls u snap Hh Ht Hn Hsn) as Hr.
  destruct (level_candidate U u (seek u snap) files) as [f|].
  - destruct Hr as (l & Hf & Hl & Hft & ->). assert (one_spelling U u l) as H2.
    { unfold one_spelling in *. rewrite Forall_forall in H1 |- *. intros e He. apply H1. apply list_elem_of_In, in_concat. exists l. by rewrite <- !list_elem_of_In. }
    destruct (table_read f l u snap Hft H2 Hsn) as (r & E & Hsv). unfold Match. rewrite LookupKey_internal_key, E. cbn [LookupKey_user_key LookupKey_make lk_userkey].
    rewrite Hsv. pose proof (saved_not_corrupt (gs_saver st) (first_visible U l u snap) Hc) as Hc'.
    destruct (sv_state (saved (gs_saver st) (first_visible U l u snap))) eqn:Es; [| | |done]; eexists _, _; (split; [reflexivity|]); (split; [done|]); right; unfold after_read; cbn [gs_s gs_found gs_saver]; by rewrite Es.
  - exists st, true. rewrite andb_false_r. split; [done|]. rewrite Hr. split; [done|]. by left.
Qed.

(** With ordered flushes the search ends at the first level that holds the key. *)
Lemma visit_ordered levels lss u snap n st :
  Forall2 (level_ok u) levels lss → seq_ok snap → sv_state (gs_saver st) = kNotFound → gs_found st = false →
  ∃ st', visit true (Ret st) u snap n levels = Ret st'
    ∧ match first_answer (level_reads u snap lss) with
      | Some v => gs_found st' = true ∧ gs_s st' = Read_OK ∧ sv_value (gs_saver st') = v
      | None => gs_found st' = false ∧ sv_value (gs_saver st') = sv_value (gs_saver st)
      end.
Proof using OU TR.
  intros HF Hsn. revert n st. induction HF as [|files ls levels lss Hl _ IH]; intros n st Hs Hf.
  { exists st. done. }
  destruct (visit_level true st u snap n files ls levels Hl Hsn) as (arg & cont & -> & Hsv & Harg); [by rewrite Hs|].
  cbn [level_reads fmap list_fmap first_answer andb]. destruct (first_visible U (concat ls) u snap) as [e|]; cbn [saved] in Hsv.
  - assert (cont = false ∧ gs_s arg = Read_OK ∧ gs_found arg = match entry_value e with Some _ => true | None => false end) as (-> & H1 & H2).
    { destruct Harg as [[-> _]|(H1 & H2 & H3)]; [rewrite Hsv in Hs; by destruct (entry_value e)|]. rewrite Hsv in H2, H3. rewrite Hf in H2. by destruct (entry_value e). }
    cbn [negb]. exists arg. split; [done|]. rewrite Hsv, H2. by destruct (entry_value e).
  - assert (cont = true ∧ gs_found arg = false) as [-> H2].
    { destruct Harg as [[-> ->]|(H1 & H2 & H3)]; [done|]. rewrite Hsv, Hs in H2, H3. by rewrite Hf in H2. }
    cbn [negb]. rewrite <- Hsv. apply IH; [by rewrite Hsv|done].
Qed.

(** Otherwise it reads every level and keeps the last value. *)
Lemma visit_unordered levels lss u snap n st :
  Forall2 (level_ok u) levels lss → seq_ok snap → sv_state (gs_saver st) ≠ kCorrupt → gs_s st = Read_OK →
  (sv_state (gs_saver st) = kFound → gs_found st = true) →
  ∃ st', visit false (Ret st) u snap n levels = Ret st' ∧ gs_s st' = Read_OK
    ∧ match last_answer (level_reads u snap lss) with
      | Some v => gs_found st' = true ∧ sv_value (gs_saver st') = v
      | None => gs_found st' = gs_found st ∧ sv_value (gs_saver st') = sv_value (gs_saver st)
      end.
Proof using OU TR.
  intros HF Hsn. revert n st. induction HF as [|files ls levels lss Hl _ IH]; intros n st Hs Hok Hf.
  { exists st. done. }
  destruct (visit_level false st u snap n files ls levels Hl Hsn Hs) as (arg & cont & -> & Hsv & Harg). cbn [andb].
  assert (gs_s arg = Read_OK) as Hok' by (destruct Harg as [[-> _]|(H1 & _)]; done).
  assert (gs_found arg = match sv_state (gs_saver arg) with kFound => true | _ => gs_found st end) as Hf'.
  { destruct Harg as [[-> _]|(_ & H2 & _)]; [|done]. destruct (sv_state (gs_saver st)) eqn:E; try done. by apply Hf. }
  destruct (IH (n + 1) arg) as (st' & E & Hst & Hans); [rewrite Hsv; by apply saved_not_corrupt|done| |].
  { rewrite Hf'. by intros ->. }
  exists st'. split; [done|]. split; [done|]. cbn [level_reads fmap list_fmap last_answer].
  destruct (last_answer (level_reads u snap lss)) as [v|] eqn:El; unfold level_reads in El; rewrite El; [done|]. destruct Hans as [-> ->].
  rewrite Hf', Hsv. destruct (first_visible U (concat ls) u snap) as [e|]; cbn [saved mbind option_bind].
  - by destruct (entry_value e).
  - split; [|done]. destruct (sv_state (gs_saver st)) eqn:E'; try done. symmetry. by apply Hf.
Qed.

(** ** Age *)

(** The levels hold older and older versions of a key. *)
Definition levels_age (u : bytes) (lss : list (list (list kv))) : Prop :=
  StronglySorted (λ a b, ∀ e e', e ∈ concat a → e' ∈ concat b → U.(Compare) (ExtractUserKey e.1) u = 0 →
    U.(Compare) (ExtractUserKey e'.1) u = 0 → ExtractTag e'.1 < ExtractTag e.1) lss.

(** The newest entry of the key that the snapshot sees. *)
Definition newest_entry (u : bytes) (snap : Z) (l : list kv) (e : kv) : Prop :=
  e ∈ l ∧ U.(Compare) (ExtractUserKey e.1) u = 0 ∧ entry_seq e <= snap
  ∧ ∀ e', e' ∈ l → U.(Compare) (ExtractUserKey e'.1) u = 0 → entry_seq e' <= snap → ExtractTag e'.1 <= ExtractTag e.1.

Lemma first_visible_some l u snap e :
  first_visible U l u snap = Some e → e ∈ l ∧ U.(Compare) (ExtractUserKey e.1) u = 0 ∧ entry_seq e <= snap.
Proof.
  induction l as [|x l IH]; [done|]. cbn [first_visible]. destruct (ParseInternalKey x.1) as [k|] eqn:Ek; [|done].
  assert (user_key k = ExtractUserKey x.1) as Eu.
  { unfold ParseInternalKey in Ek. case_decide; [done|]. repeat case_match; try done; by injection Ek as <-. }
  case_decide as Hv.
  - intros [= <-]. split; [by left|]. unfold entry_seq. rewrite Ek, <- Eu. tauto.
  - intros H. destruct (IH H) as (H1 & H2). split; [by right|done].
Qed.

Lemma first_visible_newest l u snap e :
  table_entries U l → newest_entry u snap l e → first_visible U l u snap = Some e.
Proof using OU.
  induction l as [|x l IH]; intros [Hk Hs] (He & Hu & Hq & Hmax); [by apply not_elem_of_nil in He|].
  apply Forall_cons in Hk as [Hkx Hk]. apply StronglySorted_cons in Hs as [Hsx Hs]. cbn [first_visible].
  destruct (ikey_parse _ Hkx) as (q & t & _ & _ & Ep & _). assert (entry_seq x = q) as Eq by (unfold entry_seq; by rewrite Ep).
  rewrite Ep. cbn [user_key sequence]. case_decide as Hv.
  - apply elem_of_cons in He as [->|He]; [done|]. exfalso. rewrite Forall_forall in Hsx. specialize (Hsx e He). cbn beta in Hsx.
    apply icmp_lt in Hsx. specialize (Hmax x ltac:(by left) (proj1 Hv) ltac:(lia)).
    destruct Hv as [H0 _]. pose proof (proj2 (same_key_trans U (ExtractUserKey x.1) u (ExtractUserKey e.1) H0)) as H1.
    pose proof (cmp_antisym u (ExtractUserKey e.1)). pose proof (cmp_antisym (ExtractUserKey e.1) u). lia.
  - apply elem_of_cons in He as [->|He]; [exfalso; apply Hv; split; [done|lia]|]. apply IH; [by split|]. split; [done|]. split; [done|]. split; [done|].
    intros e' He'. apply Hmax. by right.
Qed.

(** The first level that holds the key has its newest entry. *)
Lemma first_answer_newest lss u snap e :
  Forall (λ ls, table_entries U (concat ls)) lss → seq_ok snap → levels_age u lss → newest_entry u snap (concat (concat lss)) e →
  first_answer (level_reads u snap lss) = entry_value e.
Proof using OU.
  intros Ht Hsn. induction lss as [|ls lss IH]; intros Ha (He & Hu & Hq & Hmax); [by apply not_elem_of_nil in He|].
  apply Forall_cons in Ht as [Ht Hts]. apply StronglySorted_cons in Ha as [Hage Ha]. cbn [concat] in He, Hmax. rewrite concat_app in He, Hmax.
  cbn [level_reads fmap list_fmap first_answer].
  assert (∀ e', first_visible U (concat ls) u snap = Some e' → e ∈ concat ls) as Hin.
  { intros e' (H1 & H2 & H3)%first_visible_some. apply elem_of_app in He as [|He]; [done|]. exfalso.
    specialize (Hmax e' ltac:(apply elem_of_app; by left) H2 H3). apply list_elem_of_In, in_concat in He as (l & Hl & He).
    apply in_concat in Hl as (ls' & Hls' & Hl). rewrite Forall_forall in Hage. specialize (Hage ls' ltac:(by apply list_elem_of_In)). cbn beta in Hage.
    specialize (Hage e' e H1 ltac:(apply list_elem_of_In, in_concat; by exists l) H2 Hu). lia. }
  assert (e ∈ concat ls → first_visible U (concat ls) u snap = Some e) as Hfv.
  { intros Hel. apply first_visible_newest; [done|]. split; [done|]. split; [done|]. split; [done|]. intros e' He'. apply Hmax. apply elem_of_app. by left. }
  destruct (first_visible U (concat ls) u snap) as [e'|] eqn:Ev.
  - by injection (Hfv (Hin e' eq_refl)) as ->.
  - apply IH; [done|done|]. apply elem_of_app in He as [He|He]; [by specialize (Hfv He)|]. split; [done|]. split; [done|]. split; [done|].
    intros e' He'. apply Hmax. apply elem_of_app. by right.
Qed.
(** ** Level-0 files *)

(** A file with its entries outside the range of its keys. *)
Lemma first_visible_outside f l u snap :
  holds_table U stored f l → U.(Compare) (smallest_user_key f) u > 0 ∨ U.(Compare) (largest_user_key f) u < 0 →
  first_visible U l u snap = None.
Proof using OU.
  intros Hf Hout. destruct (first_visible U l u snap) as [e|] eqn:E; [|done]. exfalso.
  apply first_visible_some in E as (He & Hu & _). destruct (found_entry_bounds f l e Hf He) as [H1 H2]. apply icmp_le in H1, H2.
  unfold smallest_user_key, largest_user_key in Hout. pose proof (cmp_antisym u (ExtractUserKey e.1)). pose proof (cmp_antisym (ExtractUserKey e.1) u).
  pose proof (cmp_le_trans (ExtractUserKey (smallest f)) (ExtractUserKey e.1) u). pose proof (cmp_le_trans u (ExtractUserKey e.1) (ExtractUserKey (largest f))).
  pose proof (cmp_antisym (ExtractUserKey (largest f)) u). lia.
Qed.

(** The tables the numbers refer to. *)
Definition fns_hold (v : Version) (u : bytes) (fn : Z) (l : list kv) : Prop :=
  ∃ f, fn_files_ v !! fn = Some f ∧ number f = fn ∧ holds_table U stored f l ∧ one_spelling U u l.

Lemma get_file_ok st f l u snap :
  holds_table U stored f l → one_spelling U u l → seq_ok snap →
  ∃ st', get_file U table_get (LookupKey_make u snap) st f = Ret st'
    ∧ match first_visible U l u snap ≫= entry_value with
      | Some a => fs_found st' = true ∧ fs_val st' = a
      | None => fs_found st' = fs_found st ∧ fs_val st' = fs_val st
      end.
Proof using OU TR.
  intros Hf H1 Hsn. pose proof (first_visible_outside f l u snap Hf) as Hout. unfold get_file. cbn [LookupKey_user_key LookupKey_make lk_userkey].
  case_decide as Hlo; [rewrite Hout by (by left); by exists st|]. case_decide as Hhi; [rewrite Hout by (by right); by exists st|].
  destruct (table_read f l u snap Hf H1 Hsn) as (r & E & Hsv). rewrite LookupKey_internal_key, E.
  set (sv := mkSaver kNotFound 0 (fs_val st)).
  assert ((match r with Some e => SaveValue U u sv e | None => sv end) = saved sv (first_visible U l u snap)) as Es by apply Hsv.
  exists (match sv_state (saved sv (first_visible U l u snap)) with
     | kFound => mkFns true (Z.max (fs_seq st) (sv_seq (saved sv (first_visible U l u snap)))) (sv_value (saved sv (first_visible U l u snap))) (w64 (fs_searched st + 1))
     | _ => mkFns (fs_found st) (fs_seq st) (sv_value (saved sv (first_visible U l u snap))) (w64 (fs_searched st + 1)) end).
  split; [rewrite <- Es; destruct r as [e|]; [by destruct (sv_state (SaveValue U u sv e))|done]|].
  destruct (first_visible U l u snap) as [e|]; cbn [saved mbind option_bind]; [|done]. by destruct (entry_value e).
Qed.

(** Every file is read and the value read last is kept. *)
Lemma get_fns_ok v u snap fns ls st :
  Forall2 (fns_hold v u) fns ls → seq_ok snap →
  ∃ st', get_fns U table_get v (LookupKey_make u snap) st fns = Ret (st', true)
    ∧ match last_answer ((λ l, first_visible U l u snap) <$> ls) with
      | Some a => fs_found st' = true ∧ fs_val st' = a
      | None => fs_found st' = fs_found st ∧ fs_val st' = fs_val st
      end.
Proof using OU TR.
  intros HF Hsn. revert st. induction HF as [|fn l fns ls (f & Hf & Hn & Hh & H1) _ IH]; intros st; [by exists st|].
  cbn [get_fns fmap list_fmap last_answer]. rewrite Hf, decide_True by done.
  destruct (get_file_ok st f l u snap Hh H1 Hsn) as (st1 & -> & Hst1). cbn [mbind res_bind].
  destruct (IH st1) as (st' & -> & Hst'). exists st'. split; [done|]. destruct (last_answer ((λ l, first_visible U l u snap) <$> ls)) as [a|]; [done|].
  destruct Hst' as [-> ->]. done.
Qed.

Lemma Version_Get_fns_ok v u snap fns ls seq val searched :
  Forall2 (fns_hold v u) fns ls → seq_ok snap →
  ∃ st, Version_Get_fns U table_get v fns (LookupKey_make u snap) seq val searched =
      Ret (match last_answer ((λ l, first_visible U l u snap) <$> reverse ls) with Some _ => Read_OK | None => Read_NotFound end, st)
    ∧ fs_val st = default val (last_answer ((λ l, first_visible U l u snap) <$> reverse ls)).
Proof using OU TR.
  intros HF Hsn. unfold Version_Get_fns. apply Forall2_reverse in HF.
  destruct (get_fns_ok v u snap (reverse fns) (reverse ls) (mkFns false seq val searched) HF Hsn) as (st & -> & Hst). cbn [mbind res_bind negb].
  exists st. by destruct (last_answer _) as [a|]; destruct Hst as [-> ->].
Qed.
End reads.

(** ** Properties *)

(** The answer of the search. *)
Lemma Version_Get_answer (U : Comparator) (OU : ComparatorOrder U) (stored : FileMetaData → list kv → Prop)
    (table_get : FileMetaData → bytes → res (option kv)) (TR : TableReads U table_get stored)
    (ordered : bool) (v : Version) (lss : list (list (list kv))) (u : bytes) (snap seq : Z) (value : bytes) (searched : Z) :
  Forall2 (level_ok U stored u) (tail (files_ v)) lss → seq_ok snap →
  let answer := if ordered then first_answer (level_reads U u snap lss) else last_answer (level_reads U u snap lss) in
  ∃ st, Version_Get U table_get ordered v (LookupKey_make u snap) seq value kL1AndAbove searched =
      Ret (match answer with Some _ => Read_OK | None => Read_NotFound end, st)
    ∧ sv_value (gs_saver st) = default value answer.
Proof.
  intros HF Hsn answer. unfold Version_Get, ForEachOverlapping. rewrite LookupKey_internal_key. cbn [LookupKey_user_key LookupKey_make lk_userkey].
  set (st0 := mkGet _ _ _ _ _ _). destruct ordered.
  - destruct (visit_ordered U stored table_get (tail (files_ v)) lss u snap 1 st0 HF Hsn eq_refl eq_refl) as (st & -> & Hans).
    cbn [mbind res_bind]. exists st. subst answer. destruct (first_answer _) as [a|]; [by destruct Hans as (-> & -> & ->)|by destruct Hans as [-> ->]].
  - destruct (visit_unordered U stored table_get (tail (files_ v)) lss u snap 1 st0 HF Hsn) as (st & -> & Hok & Hans); [done..|].
    cbn [mbind res_bind]. exists st. subst answer. rewrite Hok. destruct (last_answer _) as [a|]; [by destruct Hans as (-> & ->)|by destruct Hans as [-> ->]].
Qed.

(** C19. A point lookup in the sorted levels of a version always answers.  With
    ordered flushes it answers from the first level in which the snapshot sees
    the key, which is the newest version when versions age with their level.
    Without ordered flushes, the default, it goes on to the last level and
    answers with the value it finds last, so an older value from a deeper level
    replaces a newer one, and replaces a deletion. *)
Theorem version_get_levels (U : Comparator) (OU : ComparatorOrder U) (stored : FileMetaData → list kv → Prop)
    (table_get : FileMetaData → bytes → res (option kv)) (TR : TableReads U table_get stored)
    (ordered : bool) (v : Version) (lss : list (list (list kv))) (u : bytes) (snap seq : Z) (value : bytes) (searched : Z) :
  Forall2 (level_ok U stored u) (tail (files_ v)) lss → seq_ok snap →
  let answer := if ordered then first_answer (level_reads U u snap lss) else last_answer (level_reads U u snap lss) in
  (∃ st, Version_Get U table_get ordered v (LookupKey_make u snap) seq value kL1AndAbove searched =
      Ret (match answer with Some _ => Read_OK | None => Read_NotFound end, st)
    ∧ sv_value (gs_saver st) = default value answer)
  ∧ ∀ e, ordered = true → levels_age U u lss → newest_entry U u snap (concat (concat lss)) e → answer = entry_value e.
Proof.
  intros HF Hsn answer. split; [by apply (Version_Get_answer U OU stored)|].
  intros e -> Hage Hnew. subst answer. apply first_answer_newest; [done| |done|done|done].
  rewrite Forall_lookup. intros i ls Hi. destruct (Forall2_lookup_r _ _ _ _ _ HF Hi) as (files & _ & Hl). apply Hl.
Qed.

(** The tables of an example, by file number. *)
Definition table_of (tables : list (Z * list kv)) (f : FileMetaData) (l : list kv) : Prop := (number f, l) ∈ tables.
Definition list_get (U : Comparator) (tables : list (Z * list kv)) (f : FileMetaData) (k : bytes) : res (option kv) :=
  match list_find (λ t, t.1 = number f) tables with
  | Some (_, t) => Ret (t.2 !! lower_bound (InternalKeyComparator U) t.2 k)
  | None => Abort
  end.

Lemma list_get_reads U tables : NoDup (fst <$> tables) → TableReads U (list_get U tables) (table_of tables).
Proof.
  intros Hnd f l k Hin. unfold list_get, table_of in *. apply list_elem_of_lookup in Hin as [i Hi].
  destruct (list_find_elem_of (λ t : Z * list kv, t.1 = number f) tables (number f, l)) as [[j t] Ej]; [by eapply list_elem_of_lookup_2|done|].
  rewrite Ej. apply list_find_Some in Ej as (Hj & Hn & _).
  assert (i = j) as ->. { eapply (NoDup_lookup (fst <$> tables)); [done|by rewrite list_lookup_fmap, Hi|rewrite list_lookup_fmap, Hj; cbn; by rewrite Hn]. }
  rewrite Hi in Hj. injection Hj as <-. cbn [snd]. eexists. split; [done|]. split; [done|]. done.
Qed.

Definition level_file (n : Z) (l : list kv) : FileMetaData :=
  mkFile 1 0 [] n 1 1 0 1 (default [] (fst <$> head l)) (default [] (fst <$> last l)) NONE [] StoCBlockHandle_init.

Definition new_entries : list kv := [(InternalKey_make [97] 5 kTypeValue, [5])].
Definition old_entries : list kv := [(InternalKey_make [97] 2 kTypeValue, [2])].
Definition two_levels : Version :=
  mkVersion [[]; [level_file 1 new_entries]; [level_file 2 old_entries]] ∅ 0 1.

Lemma one_entry_level U (OU : ComparatorOrder U) tables n u q t v :
  seq_ok q → (n, [(InternalKey_make u q t, v)]) ∈ tables →
  level_ok U (table_of tables) u [level_file n [(InternalKey_make u q t, v)]] [[(InternalKey_make u q t, v)]].
Proof.
  intros Hq Hin. assert (table_entries U [(InternalKey_make u q t, v)]) as Ht.
  { split; [|by repeat constructor]. apply Forall_singleton. by exists u, q, t. }
  split; cbn [concat]; rewrite ?app_nil_r; [|done|cbn; lia|].
  - apply Forall2_cons. split; [|done]. split; [done|]. split; [done|]. split; by eexists.
  - apply Forall_singleton. intros _. apply InternalKey_make_user_key.
Qed.

(** Two levels with a version of the key each: the second one is returned. *)
Lemma version_get_levels_witness :
  ∃ st, Version_Get BytewiseComparator (list_get BytewiseComparator [(1, new_entries); (2, old_entries)]) false two_levels
      (LookupKey_make [97] 9) 0 [] kL1AndAbove 0 = Ret (Read_OK, st) ∧ sv_value (gs_saver st) = [2].
Proof.
  destruct (version_get_levels BytewiseComparator Bytewise_order (table_of [(1, new_entries); (2, old_entries)])
    (list_get BytewiseComparator [(1, new_entries); (2, old_entries)])
    (list_get_reads BytewiseComparator [(1, new_entries); (2, old_entries)] ltac:(by apply (bool_decide_eq_true_1 (NoDup _)))) false two_levels [[new_entries]; [old_entries]] [97] 9 0 [] 0) as [(st & E & Hv) _].
  - apply Forall2_cons. split; [apply one_entry_level; [exact Bytewise_order|seq_lit|by left]|].
    apply Forall2_cons. split; [apply one_entry_level; [exact Bytewise_order|seq_lit|by right; left]|]. constructor.
  - seq_lit.
  - exists st. split; [exact E|exact Hv].
Defined.
