(* ===== verification/RangeIndex.v ===== *)
(** * RangeIndex: the tables of the ranges of a database

    [db/range_index.h] and [db/range_index.cpp].  A range index says for each
    range of keys which memtables and level-0 tables have entries in it.  Its
    versions form a list; scans hold versions, and a version holds the memtables
    it names.  An object is known by its address; the list between [first_] and
    [last_] holds the objects themselves.  What runs under the mutex of the
    manager is one step. *)

From S2P Require Import Prelude Coding SkipList Arena Comparator Cursor NovaCommon DbFormat Merger MemTable AtomicMemTable Subrange FileMeta VersionEdit FileSearch VersionBuilder VersionSet.

(** The sets are increasing lists. *)
Record RangeTables := mkTables { memtable_ids : list Z; l0_sstable_ids : list Z }.

Definition RangeTables_Encode (t : RangeTables) : bytes :=
  EncodeFixed32 (size_of (memtable_ids t)) ++ EncodeFixed32 (size_of (l0_sstable_ids t))
  ++ (memtable_ids t ≫= EncodeFixed32) ++ (l0_sstable_ids t ≫= EncodeFixed64).

(** [Decode(buf)] into existing tables. *)
Definition RangeTables_Decode (t : RangeTables) : parser RangeTables :=
  let! num_mids := must DecodeFixed32 in
  let! num_l0s := must DecodeFixed32 in
  let! mids := repeatP (Z.to_nat num_mids) (must DecodeFixed32) in
  let! l0s := repeatP (Z.to_nat num_l0s) (must DecodeFixed64) in
  pret (mkTables (foldl (λ s x, set_insert x s) (memtable_ids t) mids) (foldl (λ s x, set_insert x s) (l0_sstable_ids t) l0s)).

Record RangeIndex := mkIndex {
  ranges_ : list Range;
  range_tables_ : list RangeTables;
  lsm_version_id_ : Z;
  ri_version_id_ : Z;
  ri_is_deleted_ : bool;
  ri_refs_ : Z
}.

(** [RangeIndex(scan_stats, version_id, lsm_version_id)]. *)
Definition RangeIndex_make (version_id lsm_vid : Z) : RangeIndex := mkIndex [] [] lsm_vid version_id false 0.

(** [RangeIndex(scan_stats, current, version_id, lsm_version_id)]. *)
Definition RangeIndex_copy (current : RangeIndex) (version_id lsm_vid : Z) : RangeIndex :=
  mkIndex (ranges_ current) (range_tables_ current) (if decide (lsm_vid = 0) then lsm_version_id_ current else lsm_vid)
    version_id false 0.

Definition RangeIndex_Encode (r : RangeIndex) : bytes :=
  EncodeFixed32 (lsm_version_id_ r) ++ EncodeFixed32 (size_of (ranges_ r))
  ++ (ranges_ r ≫= Range_Encode) ++ (range_tables_ r ≫= RangeTables_Encode).

(** [a && b] of two decoders that fill in a range: the second runs when the
    first succeeds, and what was filled in stays. *)
Definition and_then (p q : Range → parser Range) (r : Range) : parser Range := λ s,
  match p r s with
  | (Ret r', s') => q r' s'
  | (Fail, s') => (Ret r, s')
  | (Abort, s') => (Abort, s')
  end.

Definition fill_lower (r : Range) : parser Range :=
  let! x := DecodeStr (lower r) in
  pret (mkRange x (upper r) (lower_inclusive r) (upper_inclusive r) (r_num_duplicates r) (r_ninserts r) (r_insertion_ratio r) (prior_subrange_id r)).
Definition fill_upper (r : Range) : parser Range :=
  let! x := DecodeStr (upper r) in
  pret (mkRange (lower r) x (lower_inclusive r) (upper_inclusive r) (r_num_duplicates r) (r_ninserts r) (r_insertion_ratio r) (prior_subrange_id r)).
Definition fill_lower_inclusive (r : Range) : parser Range :=
  let! x := DecodeBool in
  pret (mkRange (lower r) (upper r) x (upper_inclusive r) (r_num_duplicates r) (r_ninserts r) (r_insertion_ratio r) (prior_subrange_id r)).
Definition fill_upper_inclusive (r : Range) : parser Range :=
  let! x := DecodeBool in
  pret (mkRange (lower r) (upper r) (lower_inclusive r) x (r_num_duplicates r) (r_ninserts r) (r_insertion_ratio r) (prior_subrange_id r)).
Definition fill_num_duplicates (r : Range) : parser Range :=
  let! x := DecodeFixed32 in
  pret (mkRange (lower r) (upper r) (lower_inclusive r) (upper_inclusive r) x (r_ninserts r) (r_insertion_ratio r) (prior_subrange_id r)).

(** [Range r = {}; r.Decode(buf);]: the result is not looked at. *)
Definition Range_Decode_unchecked : parser Range :=
  and_then fill_lower (and_then fill_upper (and_then fill_lower_inclusive (and_then fill_upper_inclusive
    (and_then fill_num_duplicates pret)))) Range_init.

(** [Decode(buf)]. *)
Definition RangeIndex_Decode (r : RangeIndex) : parser RangeIndex :=
  let! lsm := must DecodeFixed32 in
  let! num_ranges := must DecodeFixed32 in
  let! rs := repeatP (Z.to_nat num_ranges) Range_Decode_unchecked in
  let! ts := repeatP (Z.to_nat num_ranges) (RangeTables_Decode (mkTables [] [])) in
  pret (mkIndex (ranges_ r ++ rs) (range_tables_ r ++ ts) lsm (ri_version_id_ r) (ri_is_deleted_ r) (ri_refs_ r)).

Definition set_refs (r : RangeIndex) (refs : Z) (del : bool) : RangeIndex :=
  mkIndex (ranges_ r) (range_tables_ r) (lsm_version_id_ r) (ri_version_id_ r) del refs.

(** [Ref()] and [UnRef()]. *)
Definition RangeIndex_Ref (r : RangeIndex) : res (RangeIndex * bool) :=
  if decide (ri_refs_ r >= 0) then
    if ri_is_deleted_ r then Ret (r, false) else Ret (set_refs r (ri_refs_ r + 1) false, true)
  else Abort.

Definition RangeIndex_UnRef (r : RangeIndex) : res RangeIndex :=
  if decide (ri_refs_ r >= 1) then
    let refs := ri_refs_ r - 1 in Ret (set_refs r refs (if decide (refs = 0) then true else ri_is_deleted_ r))
  else Abort.

(** ** Edits *)

(** [replace_memtables] and [replace_l0_sstables] in the order of iteration. *)
Record RangeIndexVersionEdit := mkEdit {
  re_sr : option SubRange;
  re_new_memtable_id : Z;
  re_add_new_memtable : bool;
  re_replace_memtables : list (Z * Z);
  re_replace_l0_sstables : list (Z * list Z);
  re_removed_l0_sstables : list Z;
  re_removed_memtables : list Z;
  re_lsm_version_id : Z
}.

Definition set_inserts (xs s : list Z) : list Z := foldl (λ s x, set_insert x s) s xs.

Definition add_memtable (mid : Z) (t : RangeTables) : RangeTables := mkTables (set_insert mid (memtable_ids t)) (l0_sstable_ids t).

Definition replace_memtable (t : RangeTables) (r : Z * Z) : RangeTables :=
  if decide (r.1 ∈ memtable_ids t) then mkTables (set_erase r.1 (memtable_ids t)) (set_insert r.2 (l0_sstable_ids t)) else t.

Definition replace_sstable (t : RangeTables) (r : Z * list Z) : RangeTables :=
  if decide (r.1 ∈ l0_sstable_ids t) then mkTables (memtable_ids t) (set_inserts r.2 (set_erase r.1 (l0_sstable_ids t))) else t.

(** The removals and replacements of an edit in the tables of a range. *)
Definition edit_tables (edit : RangeIndexVersionEdit) (t : RangeTables) : RangeTables :=
  let l0 := foldl (λ s x, set_erase x s) (l0_sstable_ids t) (re_removed_l0_sstables edit) in
  let mids := foldl (λ s x, set_erase x s) (memtable_ids t) (re_removed_memtables edit) in
  foldl replace_sstable (foldl replace_memtable (mkTables mids l0) (re_replace_memtables edit)) (re_replace_l0_sstables edit).

Section edits.
Context (user_comparator_ : Comparator).

(** The loop that adds a memtable to the ranges of a subrange: [fuel] is the
    number of ranges. *)
Fixpoint add_to_ranges (fuel : nat) (rs : list Range) (upper : bytes) (mid : Z) (start_id : nat) (ts : list RangeTables) : res (list RangeTables) :=
  match fuel with
  | O => Fail
  | S fuel =>
      match ts !! start_id with
      | None => Abort
      | Some t =>
          let ts := <[start_id := add_memtable mid t]> ts in
          if decide (S start_id = length rs) then Ret ts
          else
            match rs !! S start_id with
            | None => Abort
            | Some r =>
                if bool_decide (lower r = upper) || Range_IsSmallerThanLower user_comparator_ r upper then Ret ts
                else add_to_ranges fuel rs upper mid (S start_id) ts
            end
      end
  end.

(** The memtable of an edit. *)
Definition add_new (edit : RangeIndexVersionEdit) (rs : list Range) (ts : list RangeTables) : res (list RangeTables) :=
  if re_add_new_memtable edit then
    match re_sr edit with
    | Some sr =>
        match head (tiny_ranges sr), last (tiny_ranges sr) with
        | Some f, Some l =>
            start_id ← Ranges_BinarySearch user_comparator_ rs (lower f);
            match start_id with
            | None => Abort
            | Some start_id => add_to_ranges (length rs) rs (upper l) (re_new_memtable_id edit) (Z.to_nat start_id) ts
            end
        | _, _ => Abort
        end
    | None => Ret (add_memtable (re_new_memtable_id edit) <$> ts)
    end
  else Ret ts.

(** The new version that [AppendNewVersion(scan_stats, edit)] makes. *)
Definition edited_index (current : RangeIndex) (version_id : Z) (edit : RangeIndexVersionEdit) : res RangeIndex :=
  let idx := RangeIndex_copy current version_id (re_lsm_version_id edit) in
  ts ← add_new edit (ranges_ idx) (range_tables_ idx);
  let ts := if re_add_new_memtable edit && bool_decide (re_removed_memtables edit = []) then ts else edit_tables edit <$> ts in
  Ret (mkIndex (ranges_ idx) ts (lsm_version_id_ idx) (ri_version_id_ idx) (ri_is_deleted_ idx) (ri_refs_ idx)).
End edits.

(** ** The manager *)

(** [mid_table_mapping_]: the slots that were given a memtable, by its id. *)
Abbreviation slots_map := (gmap Z AtomicMemTable).

Record RangeIndexManager := mkManager {
  range_index_version_seq_id_ : Z;
  ri_list : list (Z * RangeIndex);
  ri_current_ : option Z;
  ri_fresh : Z
}.

Definition RangeIndexManager_init : RangeIndexManager := mkManager 0 [] None 1.

(** The object at an address; its memory was freed when it is not in the list. *)
Fixpoint find_index (l : list (Z * RangeIndex)) (p : Z) : res RangeIndex :=
  match l with
  | [] => Abort
  | (q, r) :: l => if decide (q = p) then Ret r else find_index l p
  end.

Definition put_index (l : list (Z * RangeIndex)) (p : Z) (r : RangeIndex) : list (Z * RangeIndex) :=
  (λ e, if decide (e.1 = p) then (p, r) else e) <$> l.

(** Insertion behind an element. *)
Fixpoint insert_behind (l : list (Z * RangeIndex)) (p : Z) (e : Z * RangeIndex) : list (Z * RangeIndex) :=
  match l with
  | [] => []
  | (q, r) :: l => if decide (q = p) then (q, r) :: e :: l else (q, r) :: insert_behind l p e
  end.

(** The memtables that tables name, in the order of the loops. *)
Definition all_memtables (ts : list RangeTables) : list Z := ts ≫= memtable_ids.

(** [RefMemTable()] of each; its result is not looked at. *)
Fixpoint ref_memtables (slots : slots_map) (mids : list Z) : res slots_map :=
  match mids with
  | [] => Ret slots
  | mid :: mids =>
      match slots !! mid with
      | None => Abort
      | Some a => ref_memtables (<[mid := (RefMemTable a).1]> slots) mids
      end
  end.

(** [Initialize(init)]. *)
Definition Manager_Initialize (m : RangeIndexManager) (slots : slots_map) (init : RangeIndex) : res (RangeIndexManager * slots_map) :=
  let init := set_refs init (ri_refs_ init + 1) (ri_is_deleted_ init) in
  slots ← ref_memtables slots (all_memtables (range_tables_ init));
  Ret (mkManager (range_index_version_seq_id_ m) [(ri_fresh m, init)] (Some (ri_fresh m)) (ri_fresh m + 1), slots).

(** [AppendNewVersion(new_range_idx)]. *)
Definition append_index (m : RangeIndexManager) (slots : slots_map) (idx : RangeIndex) : res (RangeIndexManager * slots_map) :=
  match ri_current_ m with
  | None => Abort
  | Some c =>
      let idx := set_refs idx 1 (ri_is_deleted_ idx) in
      let l := insert_behind (ri_list m) c (ri_fresh m, idx) in
      cur ← find_index l c;
      cur ← RangeIndex_UnRef cur;
      slots ← ref_memtables slots (all_memtables (range_tables_ idx));
      Ret (mkManager (range_index_version_seq_id_ m) (put_index l c cur) (Some (ri_fresh m)) (ri_fresh m + 1), slots)
  end.

(** [AppendNewVersion(scan_stats, edit)]. *)
Definition AppendNewVersion (U : Comparator) (m : RangeIndexManager) (slots : slots_map) (edit : RangeIndexVersionEdit)
    : res (RangeIndexManager * slots_map) :=
  match ri_current_ m with
  | None => Abort
  | Some c =>
      let seq := w32 (range_index_version_seq_id_ m + 1) in
      cur ← find_index (ri_list m) c;
      idx ← edited_index U cur seq edit;
      append_index (mkManager seq (ri_list m) (ri_current_ m) (ri_fresh m)) slots idx
  end.

(** A round of the loop of [current()]: the index, when it and its version of
    the tree could be referred to. *)
Definition current_round (m : RangeIndexManager) (vs : VersionSet) : res (RangeIndexManager * VersionSet * option (Z * Z)) :=
  match ri_current_ m with
  | None => Abort
  | Some c =>
      cur ← find_index (ri_list m) c;
      '(cur, ok) ← RangeIndex_Ref cur;
      let put cur := mkManager (range_index_version_seq_id_ m) (put_index (ri_list m) c cur) (ri_current_ m) (ri_fresh m) in
      if ok : bool then
        '(vs, v) ← on_version vs (lsm_version_id_ cur) AtomicVersion_Ref;
        match v with
        | Some v => Ret (put cur, vs, Some (c, v))
        | None => cur ← RangeIndex_UnRef cur; Ret (put cur, vs, None)
        end
      else Ret (put cur, vs, None)
  end.

(** The end of a scan: [UnRef()] of the index, and the version of the tree that
    is read from the index after that. *)
Definition release_index (m : RangeIndexManager) (p : Z) : res RangeIndexManager :=
  r ← find_index (ri_list m) p;
  r ← RangeIndex_UnRef r;
  Ret (mkManager (range_index_version_seq_id_ m) (put_index (ri_list m) p r) (ri_current_ m) (ri_fresh m)).

Definition release_version (m : RangeIndexManager) (vs : VersionSet) (p : Z) : res VersionSet :=
  r ← find_index (ri_list m) p;
  '(vs, _) ← on_version vs (lsm_version_id_ r) AtomicVersion_Unref;
  Ret vs.

(** [memtable_refs[memtableid] += 1] for each. *)
Definition count_refs (mids : list Z) : gmap Z Z := foldl (λ refs mid, <[mid := w32 (default 0 (refs !! mid) + 1)]> refs) ∅ mids.

(** The part of [DeleteObsoleteVersions()] under the mutex: the manager and
    the references to give back after it. *)
Definition collect_indexes (m : RangeIndexManager) : RangeIndexManager * list (Z * Z) :=
  let dead := filter (λ e, ri_is_deleted_ e.2 = true) (ri_list m) in
  (mkManager (range_index_version_seq_id_ m) (filter (λ e, ri_is_deleted_ e.2 = false) (ri_list m)) (ri_current_ m) (ri_fresh m),
   map_to_list (count_refs (dead ≫= λ e, all_memtables (range_tables_ e.2)))).

(** [versions_->mid_table_mapping_[mid]->Unref("", count)]. *)
Definition unref_memtable (slots : slots_map) (e : Z * Z) : res slots_map :=
  match slots !! e.1 with
  | None => Abort
  | Some a => a ← AtomicMemTable_Unref a e.2; Ret (<[e.1 := a]> slots)
  end.

(** ** Scans and the other users of the memtables

    [ri_held] has the index of every scan that runs, [ri_ended] that of a scan
    that gave its index back and not yet the version of the tree, [ri_pending]
    what [DeleteObsoleteVersions] has still to give back, and [ri_others mid]
    counts the references to a memtable that the index does not hold. *)
Record IndexSys := mkIndexSys {
  ri_m : RangeIndexManager;
  ri_slots : slots_map;
  ri_held : list Z;
  ri_ended : list Z;
  ri_pending : list (Z * Z);
  ri_others : Z → Z
}.

(** The memtables that the indexes of the list name. *)
Definition named (l : list (Z * RangeIndex)) : list Z := l ≫= λ e, all_memtables (range_tables_ e.2).

Definition pending_refs (pending : list (Z * Z)) (mid : Z) : Z :=
  foldr (λ e n, (if decide (e.1 = mid) then e.2 else 0) + n) 0 pending.

(** The references to a memtable, but for that of its slot. *)
Definition total_refs (S : IndexSys) (mid : Z) : Z :=
  held_refs (named (ri_list (ri_m S))) mid + pending_refs (ri_pending S) mid + ri_others S mid.

Definition set_count (f : Z → Z) (mid n : Z) : Z → Z := λ x, if decide (x = mid) then n else f x.

(** A memtable that is still allocated. *)
Definition allocated (slots : slots_map) (mid : Z) : Prop := ∃ a, slots !! mid = Some a ∧ memtable_ a ≠ None.

Inductive index_step (U : Comparator) : IndexSys → IndexSys → Prop :=
  | index_append m slots held ended pending others edit m' slots' :
      (re_add_new_memtable edit = true → allocated slots (re_new_memtable_id edit)) →
      AppendNewVersion U m slots edit = Ret (m', slots') →
      index_step U (mkIndexSys m slots held ended pending others) (mkIndexSys m' slots' held ended pending others)
  | index_scan m slots held ended pending others vs m' vs' r :
      current_round m vs = Ret (m', vs', r) →
      index_step U (mkIndexSys m slots held ended pending others)
        (mkIndexSys m' slots (match r with Some (p, _) => p :: held | None => held end) ended pending others)
  | index_release m slots held1 held2 ended pending others p m' :
      release_index m p = Ret m' →
      index_step U (mkIndexSys m slots (held1 ++ p :: held2) ended pending others)
        (mkIndexSys m' slots (held1 ++ held2) (p :: ended) pending others)
  | index_end m slots held ended1 ended2 pending others p vs vs' :
      release_version m vs p = Ret vs' →
      index_step U (mkIndexSys m slots held (ended1 ++ p :: ended2) pending others)
        (mkIndexSys m slots held (ended1 ++ ended2) pending others)
  | index_collect m slots held ended pending others m' more :
      size_of (named (ri_list m)) < 2 ^ 32 → collect_indexes m = (m', more) →
      index_step U (mkIndexSys m slots held ended pending others) (mkIndexSys m' slots held ended (pending ++ more) others)
  | index_unref m slots held ended pending1 e pending2 others slots' :
      unref_memtable slots e = Ret slots' →
      index_step U (mkIndexSys m slots held ended (pending1 ++ e :: pending2) others)
        (mkIndexSys m slots' held ended (pending1 ++ pending2) others)
  | index_set_memtable m slots held ended pending others mid a g mem :
      slots !! mid = None → MemTable.refs_ mem = 0 →
      index_step U (mkIndexSys m slots held ended pending others)
        (mkIndexSys m (<[mid := SetMemTable a g mem]> slots) held ended pending (set_count others mid 0))
  | index_slot m slots held ended pending others mid a a' n :
      let S := mkIndexSys m slots held ended pending others in
      slots !! mid = Some a → 0 <= others mid + n →
      slot_step (mkSlotSys a (total_refs S mid)) (mkSlotSys a' (total_refs S mid + n)) →
      index_step U S (mkIndexSys m (<[mid := a']> slots) held ended pending (set_count others mid (others mid + n))).

(** A manager that was initialised with an index over memtables that exist. *)
Definition index_start (S : IndexSys) : Prop :=
  ∃ slots init, ri_refs_ init = 0 ∧ ri_is_deleted_ init = false
    ∧ (∀ mid a, slots !! mid = Some a → slot_ok (mkSlotSys a 0))
    ∧ Forall (allocated slots) (all_memtables (range_tables_ init))
    ∧ Manager_Initialize RangeIndexManager_init slots init = Ret (ri_m S, ri_slots S)
    ∧ ri_held S = [] ∧ ri_ended S = [] ∧ ri_pending S = [] ∧ ∀ mid, ri_others S mid = 0.

Definition index_reachable (U : Comparator) (S : IndexSys) : Prop := ∃ S0, index_start S0 ∧ rtc (index_step U) S0 S.

(** The references to an index. *)
Definition index_refs (held : list Z) (current : option Z) (p : Z) : Z :=
  held_refs held p + (if decide (current = Some p) then 1 else 0).

Record indexes_ok (m : RangeIndexManager) (held : list Z) : Prop := {
  io_nodup : NoDup (ri_list m).*1;
  io_fresh : Forall (λ p, p < ri_fresh m) (ri_list m).*1;
  io_current : ∃ c, ri_current_ m = Some c ∧ c ∈ (ri_list m).*1;
  io_held : Forall (λ p, p ∈ (ri_list m).*1) held;
  io_refs p r : (p, r) ∈ ri_list m → ri_refs_ r = index_refs held (ri_current_ m) p ∧ ri_is_deleted_ r = bool_decide (ri_refs_ r = 0)
}.

Record index_sys_ok (S : IndexSys) : Prop := {
  iy_indexes : indexes_ok (ri_m S) (ri_held S);
  iy_slots mid a : ri_slots S !! mid = Some a → slot_ok (mkSlotSys a (total_refs S mid));
  iy_named mid : mid ∈ named (ri_list (ri_m S)) → is_Some (ri_slots S !! mid);
  iy_pending e : e ∈ ri_pending S → 0 < e.2 ∧ is_Some (ri_slots S !! e.1);
  iy_others mid : 0 <= ri_others S mid
}.

(** ** References *)

Lemma held_refs_app l1 l2 x : held_refs (l1 ++ l2) x = held_refs l1 x + held_refs l2 x.
Proof. unfold held_refs. rewrite filter_app, length_app. lia. Qed.

Lemma pending_refs_app l1 l2 x : pending_refs (l1 ++ l2) x = pending_refs l1 x + pending_refs l2 x.
Proof. induction l1 as [|e l1 IH]; cbn [app pending_refs foldr]; [done|]. unfold pending_refs in *. cbn. lia. Qed.

Lemma pending_refs_nonneg l x : Forall (λ e, 0 < e.2) l → 0 <= pending_refs l x.
Proof. induction 1 as [|e l He Hl IH]; unfold pending_refs in *; cbn; [lia|]. case_decide; lia. Qed.

Lemma pending_refs_perm l1 l2 x : l1 ≡ₚ l2 → pending_refs l1 x = pending_refs l2 x.
Proof. induction 1 as [|e l1 l2 _ IH|e f l|l1 l2 l3 _ IH1 _ IH2]; unfold pending_refs in *; cbn; lia. Qed.

Lemma pending_refs_map (refs : gmap Z Z) x : pending_refs (map_to_list refs) x = default 0 (refs !! x).
Proof.
  induction refs as [|y n refs Hy IH] using map_ind; [by rewrite map_to_list_empty, lookup_empty|].
  rewrite (pending_refs_perm _ _ x (map_to_list_insert refs y n Hy)). unfold pending_refs in *. cbn [foldr fst snd]. rewrite IH.
  destruct (decide (y = x)) as [->|Hne]; [rewrite lookup_insert_eq, Hy; cbn; lia|by rewrite lookup_insert_ne by done].
Qed.

Lemma count_refs_snoc mids x : count_refs (mids ++ [x]) = <[x := w32 (default 0 (count_refs mids !! x) + 1)]> (count_refs mids).
Proof. unfold count_refs. by rewrite foldl_app. Qed.

(** [memtable_refs] has the multiplicities. *)
Lemma count_refs_lookup mids x :
  size_of mids < 2 ^ 32 → count_refs mids !! x = if decide (held_refs mids x = 0) then None else Some (held_refs mids x).
Proof.
  induction mids as [|y mids IH] using rev_ind; intros Hs; [done|]. rewrite length_app in Hs. cbn [length] in Hs. rewrite count_refs_snoc.
  pose proof (held_refs_bound mids x) as Hb. pose proof (held_refs_bound mids y) as Hy. rewrite held_refs_app, held_refs_cons. change (held_refs [] x) with 0.
  destruct (decide (y = x)) as [->|Hne].
  - rewrite lookup_insert_eq, IH by lia. rewrite (decide_False (P := _ + _ = 0)) by lia. f_equal.
    assert (default 0 (if decide (held_refs mids x = 0) then None else Some (held_refs mids x)) = held_refs mids x) as -> by (by case_decide).
    rewrite w32_small by mlia. lia.
  - rewrite lookup_insert_ne, IH by (done || lia). by rewrite !Z.add_0_r.
Qed.

Lemma count_refs_pending mids x : size_of mids < 2 ^ 32 → pending_refs (map_to_list (count_refs mids)) x = held_refs mids x.
Proof. intros Hs. rewrite pending_refs_map, count_refs_lookup by done. case_decide; [by symmetry|done]. Qed.

Lemma count_refs_entry mids e : size_of mids < 2 ^ 32 → e ∈ map_to_list (count_refs mids) → 0 < e.2 ∧ e.1 ∈ mids.
Proof.
  intros Hs He. destruct e as [x n]. apply elem_of_map_to_list in He. rewrite count_refs_lookup in He by done. case_decide as Hz; [done|]. injection He as <-.
  pose proof (held_refs_bound mids x). cbn. split; [lia|]. apply held_refs_pos. lia.
Qed.

(** ** Memtables of a new index *)

Lemma slot_alive a n : slot_ok (mkSlotSys a n) → 0 < n → memtable_ a ≠ None.
Proof. intros Hok Hn E. pose proof (sk_freed _ Hok E) as H. unfold slot_refs in H. cbn in H. destruct (is_flushed_ a); lia. Qed.

Lemma ref_memtables_ok mids : ∀ slots (cnt : Z → Z),
  (∀ mid a, slots !! mid = Some a → slot_ok (mkSlotSys a (cnt mid))) → Forall (allocated slots) mids →
  ∃ slots', ref_memtables slots mids = Ret slots' ∧ (∀ mid, is_Some (slots' !! mid) ↔ is_Some (slots !! mid))
    ∧ ∀ mid a, slots' !! mid = Some a → slot_ok (mkSlotSys a (cnt mid + held_refs mids mid)).
Proof.
  induction mids as [|x mids IH]; intros slots cnt Hok Hall.
  - exists slots. split_and!; [done..|]. intros mid a Ha. change (held_refs [] mid) with 0. rewrite Z.add_0_r. by apply Hok.
  - apply Forall_cons in Hall as [(a & Ha & Hm) Hall]. cbn [ref_memtables]. rewrite Ha. destruct (memtable_ a) as [m|] eqn:Em; [|done].
    assert (RefMemTable a = (with_memtable a (Some (MemTable_Ref m)), true)) as ER by (unfold RefMemTable; by rewrite Em). rewrite ER. cbn [fst].
    set (a' := with_memtable a _). destruct (IH (<[x := a']> slots) (set_count cnt x (cnt x + 1))) as (slots' & -> & Hdom & Hok').
    + intros mid b. unfold set_count. destruct (decide (mid = x)) as [->|Hne].
      * rewrite lookup_insert_eq. intros [= <-]. eapply slot_step_ok; [by apply (Hok x a)|]. by apply slot_ref.
      * rewrite lookup_insert_ne by done. apply Hok.
    + eapply Forall_impl; [exact Hall|]. intros mid (b & Hb & Hbm). unfold allocated. destruct (decide (mid = x)) as [->|Hne].
      * exists a'. by rewrite lookup_insert_eq.
      * exists b. by rewrite lookup_insert_ne.
    + exists slots'. split_and!; [done| |].
      * intros mid. rewrite Hdom. destruct (decide (mid = x)) as [->|Hne]; [rewrite lookup_insert_eq, Ha; split; by eexists|by rewrite lookup_insert_ne].
      * intros mid b Hb. specialize (Hok' mid b Hb). rewrite held_refs_cons. unfold set_count in Hok'.
        destruct (decide (mid = x)) as [->|Hne]; [rewrite decide_True by done|rewrite decide_False by congruence].
        -- replace (cnt x + (held_refs mids x + 1)) with (cnt x + 1 + held_refs mids x) by lia. done.
        -- by rewrite Z.add_0_r.
Qed.

Lemma all_memtables_elem ts mid : mid ∈ all_memtables ts ↔ ∃ t, t ∈ ts ∧ mid ∈ memtable_ids t.
Proof. unfold all_memtables. rewrite list_elem_of_bind. naive_solver. Qed.

Lemma foldl_erase_subset xs s x : x ∈ foldl (λ s x, set_erase x s) s xs → x ∈ s.
Proof. revert s. induction xs as [|y xs IH]; intros s; cbn; [done|]. intros H%IH. unfold set_erase in H. by apply list_elem_of_filter in H as [_ ?]. Qed.

Lemma edit_tables_subset edit t mid : mid ∈ memtable_ids (edit_tables edit t) → mid ∈ memtable_ids t.
Proof.
  unfold edit_tables. set (t0 := mkTables _ _).
  assert (∀ rs t, memtable_ids (foldl replace_sstable t rs) = memtable_ids t) as Hs.
  { intros rs. induction rs as [|r rs IH]; intros t'; cbn; [done|]. rewrite IH. unfold replace_sstable. by case_decide. }
  assert (∀ rs t, mid ∈ memtable_ids (foldl replace_memtable t rs) → mid ∈ memtable_ids t) as Hm.
  { intros rs. induction rs as [|r rs IH]; intros t'; cbn; [done|]. intros H%IH. unfold replace_memtable in H. case_decide; [|done].
    cbn in H. unfold set_erase in H. by apply list_elem_of_filter in H as [_ ?]. }
  rewrite Hs. intros H%Hm. by apply foldl_erase_subset in H.
Qed.

Lemma add_to_ranges_subset U fuel rs upper x : ∀ start ts ts',
  add_to_ranges U fuel rs upper x start ts = Ret ts' → ∀ mid, mid ∈ all_memtables ts' → mid = x ∨ mid ∈ all_memtables ts.
Proof.
  induction fuel as [|fuel IH]; intros start ts ts' E mid Hmid; [done|]. cbn [add_to_ranges] in E. destruct (ts !! start) as [t|] eqn:Ht; [|done].
  assert (mid ∈ all_memtables (<[start := add_memtable x t]> ts) → mid = x ∨ mid ∈ all_memtables ts) as Hins.
  { rewrite !all_memtables_elem. intros (u & [i Hi]%list_elem_of_lookup & Hu). destruct (decide (i = start)) as [->|Hne].
    - rewrite list_lookup_insert_eq in Hi by (by eapply lookup_lt_Some). injection Hi as <-. cbn in Hu. apply set_insert_elem in Hu as [->|Hu]; [by left|right].
      exists t. split; [by eapply list_elem_of_lookup_2|done].
    - rewrite list_lookup_insert_ne in Hi by done. right. exists u. split; [by eapply list_elem_of_lookup_2|done]. }
  case_decide; [injection E as <-; by apply Hins|]. destruct (rs !! S start); [|done]. destruct (_ || _); [injection E as <-; by apply Hins|].
  destruct (IH _ _ _ E mid Hmid) as [->|H']; [by left|by apply Hins].
Qed.

(** An edit names the memtables of the index and the new one. *)
Lemma edited_index_subset U cur seq edit idx mid :
  edited_index U cur seq edit = Ret idx → mid ∈ all_memtables (range_tables_ idx) →
  (re_add_new_memtable edit = true ∧ mid = re_new_memtable_id edit) ∨ mid ∈ all_memtables (range_tables_ cur).
Proof.
  intros E Hmid. unfold edited_index in E. apply res_bind_Ret in E as (ts & Ets & E). injection E as <-. cbn [range_tables_ RangeIndex_copy ranges_] in *.
  assert (mid ∈ all_memtables ts) as Hts.
  { destruct (_ && _); [done|]. apply all_memtables_elem in Hmid as (t & (t' & -> & Ht')%list_elem_of_fmap & Hin). apply all_memtables_elem. exists t'. split; [done|by eapply edit_tables_subset]. }
  unfold add_new in Ets. destruct (re_add_new_memtable edit) eqn:Ea; [|right; by injection Ets as <-]. destruct (re_sr edit) as [sr|].
  - destruct (head (tiny_ranges sr)); [|done]. destruct (last (tiny_ranges sr)); [|done]. apply res_bind_Ret in Ets as ([i|] & _ & Ets); [|done].
    destruct (add_to_ranges_subset _ _ _ _ _ _ _ _ Ets mid Hts) as [->|?]; [by left|by right].
  - injection Ets as <-. apply all_memtables_elem in Hts as (t & (t' & -> & Ht')%list_elem_of_fmap & Hin). cbn in Hin.
    apply set_insert_elem in Hin as [->|Hin]; [by left|right]. apply all_memtables_elem. by exists t'.
Qed.

(** ** The list of indexes *)

Lemma held_refs_perm l1 l2 x : l1 ≡ₚ l2 → held_refs l1 x = held_refs l2 x.
Proof. unfold held_refs. by intros ->. Qed.

Lemma find_index_ok l p r : NoDup l.*1 → (p, r) ∈ l → find_index l p = Ret r.
Proof.
  induction l as [|[q s] l IH]; intros Hnd Hin; [by apply not_elem_of_nil in Hin|]. cbn [fmap list_fmap fst] in Hnd. apply NoDup_cons in Hnd as [Hq Hnd]. cbn [find_index].
  apply elem_of_cons in Hin as [E|Hin]; [injection E as -> ->; by rewrite decide_True|]. case_decide as Hqp; [|by apply IH]. subst q. exfalso. apply Hq.
  apply list_elem_of_fmap. by exists (p, r).
Qed.

Lemma find_index_elem l p r : find_index l p = Ret r → (p, r) ∈ l.
Proof. induction l as [|[q s] l IH]; cbn [find_index]; [done|]. case_decide as H; [intros [= ->]; subst; by left|]. intros E. right. by apply IH. Qed.

Lemma index_exists (l : list (Z * RangeIndex)) p : p ∈ l.*1 → ∃ r, (p, r) ∈ l.
Proof. intros ([q r] & -> & H)%list_elem_of_fmap. by exists r. Qed.

Lemma put_index_keys l p r : (put_index l p r).*1 = l.*1.
Proof. unfold put_index. induction l as [|[q s] l IH]; cbn; [done|]. rewrite IH. by case_decide; subst. Qed.

Lemma put_index_elem l p r q s : (q, s) ∈ put_index l p r → (q = p ∧ s = r) ∨ (q ≠ p ∧ (q, s) ∈ l).
Proof.
  unfold put_index. intros ([x y] & E & H)%list_elem_of_fmap. cbn in E. case_decide as Hx; injection E as -> ->; [by left|by right].
Qed.

(** An index replaced by one with the same tables. *)
Lemma named_put l p r r' :
  NoDup l.*1 → (p, r) ∈ l → range_tables_ r' = range_tables_ r → named (put_index l p r') = named l.
Proof.
  intros Hnd Hin Et. assert (∀ s, (p, s) ∈ l → s = r) as Hu.
  { intros s Hs. pose proof (find_index_ok l p s Hnd Hs) as E. rewrite (find_index_ok l p r Hnd Hin) in E. by injection E. }
  clear Hnd Hin. unfold named, put_index. induction l as [|[q s] l IH]; [done|]. cbn [fmap list_fmap mbind list_bind fst]. rewrite IH by (intros s' Hs'; apply Hu; by right).
  f_equal. case_decide as Hq; cbn [snd]; [|done]. subst q. rewrite Et. by rewrite (Hu s) by left.
Qed.

Lemma insert_behind_perm l c e : c ∈ l.*1 → insert_behind l c e ≡ₚ e :: l.
Proof.
  induction l as [|[q s] l IH]; intros Hc; [by apply not_elem_of_nil in Hc|]. cbn [insert_behind]. case_decide as Hq; [by constructor|].
  cbn in Hc. apply elem_of_cons in Hc as [->|Hc]; [done|]. rewrite IH by done. by constructor.
Qed.

Lemma named_cons e l : named (e :: l) = all_memtables (range_tables_ e.2) ++ named l.
Proof. done. Qed.

Lemma named_perm l l' : l ≡ₚ l' → named l ≡ₚ named l'.
Proof. unfold named. by intros ->. Qed.

(** The tables of an index of the list are named. *)
Lemma named_elem l p r mid : (p, r) ∈ l → mid ∈ all_memtables (range_tables_ r) → mid ∈ named l.
Proof. intros Hin Hm. unfold named. apply list_elem_of_bind. by exists (p, r). Qed.

Lemma index_refs_bound held current p : 0 <= index_refs held current p ∧ (current = Some p → 1 <= index_refs held current p) ∧ (p ∈ held → 1 <= index_refs held current p).
Proof. unfold index_refs. pose proof (held_refs_bound held p). rewrite held_refs_pos. case_decide; split_and!; try lia; done. Qed.

(** The counts of one index change. *)
Lemma indexes_put m held held' p r r' :
  indexes_ok m held → (p, r) ∈ ri_list m → ri_refs_ r' = index_refs held' (ri_current_ m) p → ri_is_deleted_ r' = bool_decide (ri_refs_ r' = 0) →
  Forall (λ q, q ∈ (ri_list m).*1) held' → (∀ q, q ≠ p → held_refs held' q = held_refs held q) →
  indexes_ok (mkManager (range_index_version_seq_id_ m) (put_index (ri_list m) p r') (ri_current_ m) (ri_fresh m)) held'.
Proof.
  intros [Hnd Hf Hc Hh Hr] Hin Er Ed Hh' Hq. split; cbn [ri_list ri_current_ ri_fresh]; rewrite ?put_index_keys; try done.
  intros q s [[-> ->]|[Hne Hs]]%put_index_elem; [done|]. destruct (Hr q s Hs) as [E1 E2]. split; [|done]. rewrite E1. unfold index_refs. by rewrite Hq.
Qed.

Lemma release_index_ok m h1 h2 p :
  indexes_ok m (h1 ++ p :: h2) →
  ∃ m', release_index m p = Ret m' ∧ indexes_ok m' (h1 ++ h2) ∧ named (ri_list m') = named (ri_list m) ∧ (ri_list m').*1 = (ri_list m).*1.
Proof.
  intros Hok. pose proof (io_held _ _ Hok) as Hh. apply Forall_app in Hh as [Hh1 Hh2]. apply Forall_cons in Hh2 as [Hp Hh2].
  destruct (index_exists _ _ Hp) as [r Hr]. destruct (io_refs _ _ Hok p r Hr) as [Er Ed]. unfold release_index. rewrite (find_index_ok _ p r (io_nodup _ _ Hok) Hr). cbn [mbind res_bind].
  assert (index_refs (h1 ++ p :: h2) (ri_current_ m) p = index_refs (h1 ++ h2) (ri_current_ m) p + 1) as Ei.
  { unfold index_refs. rewrite held_refs_middle, decide_True by done. lia. }
  pose proof (index_refs_bound (h1 ++ h2) (ri_current_ m) p) as [Hb _]. unfold RangeIndex_UnRef. rewrite decide_True by lia. cbn [mbind res_bind]. eexists. split; [done|]. split_and!.
  - eapply indexes_put; [exact Hok|exact Hr|cbn; lia| |by apply Forall_app|].
    + cbn. destruct (decide (ri_refs_ r - 1 = 0)) as [H0|H0]; [symmetry; by apply bool_decide_eq_true_2|]. rewrite Ed, !bool_decide_eq_false_2 by lia. done.
    + intros q Hq. rewrite held_refs_middle, decide_False by done. lia.
  - cbn [ri_list]. by apply (named_put _ p r); [apply (io_nodup _ _ Hok)|..].
  - cbn [ri_list]. apply put_index_keys.
Qed.

(** A round of [current()] finds an index that is alive. *)
Lemma scan_ref_ok m held c r :
  indexes_ok m held → ri_current_ m = Some c → (c, r) ∈ ri_list m →
  RangeIndex_Ref r = Ret (set_refs r (ri_refs_ r + 1) false, true)
  ∧ RangeIndex_UnRef (set_refs r (ri_refs_ r + 1) false) = Ret (set_refs r (ri_refs_ r) false)
  ∧ ri_is_deleted_ r = false.
Proof.
  intros Hok Hc Hr. destruct (io_refs _ _ Hok c r Hr) as [Er Ed]. pose proof (index_refs_bound held (ri_current_ m) c) as (_ & Hb & _). specialize (Hb Hc).
  assert (ri_is_deleted_ r = false) as Hdel by (rewrite Ed, bool_decide_eq_false_2; [done|lia]). split_and!; [| |done].
  - unfold RangeIndex_Ref. rewrite decide_True by lia. by rewrite Hdel.
  - unfold RangeIndex_UnRef. cbn [ri_refs_ set_refs ri_is_deleted_]. rewrite decide_True by lia. rewrite decide_False by lia. unfold set_refs. cbn. by rewrite Z.add_simpl_r.
Qed.

Lemma current_round_ok m vs held m' vs' o :
  indexes_ok m held → current_round m vs = Ret (m', vs', o) →
  indexes_ok m' (match o with Some (p, _) => p :: held | None => held end) ∧ named (ri_list m') = named (ri_list m).
Proof.
  intros Hok E. destruct (io_current _ _ Hok) as (c & Hc & Hcin). destruct (index_exists _ _ Hcin) as [r Hr]. destruct (io_refs _ _ Hok c r Hr) as [Er Ed].
  destruct (scan_ref_ok m held c r Hok Hc Hr) as (ER & EU & Hdel). unfold current_round in E. rewrite Hc, (find_index_ok _ c r (io_nodup _ _ Hok) Hr) in E. cbn [mbind res_bind] in E.
  rewrite ER in E. cbn [mbind res_bind] in E. apply res_bind_Ret in E as ([vs1 [v|]] & _ & E).
  - injection E as <- <- <-. rewrite <- Hc. split; [|cbn [ri_list]; by apply (named_put _ c r); [apply (io_nodup _ _ Hok)|..]].
    pose proof (index_refs_bound held (ri_current_ m) c) as (Hb & _). eapply indexes_put; [exact Hok|exact Hr| | | |].
    + cbn. rewrite Er. unfold index_refs. rewrite held_refs_cons, (decide_True (P := c = c)) by done. lia.
    + cbn. rewrite bool_decide_eq_false_2 by lia. done.
    + constructor; [done|apply (io_held _ _ Hok)].
    + intros q Hq. rewrite held_refs_cons, decide_False by congruence. lia.
  - rewrite EU in E. cbn [mbind res_bind] in E. injection E as <- <- <-. rewrite <- Hc. split; [|cbn [ri_list]; by apply (named_put _ c r); [apply (io_nodup _ _ Hok)|..]].
    eapply indexes_put; [exact Hok|exact Hr|cbn; done|cbn; by rewrite <- Ed|apply (io_held _ _ Hok)|done].
Qed.

Lemma append_indexes m held c cur idx :
  indexes_ok m held → ri_current_ m = Some c → (c, cur) ∈ ri_list m → ri_is_deleted_ idx = false →
  let l := insert_behind (ri_list m) c (ri_fresh m, set_refs idx 1 (ri_is_deleted_ idx)) in
  ∃ cur', find_index l c = Ret cur ∧ RangeIndex_UnRef cur = Ret cur' ∧ range_tables_ cur' = range_tables_ cur ∧ NoDup l.*1 ∧ (c, cur) ∈ l
    ∧ indexes_ok (mkManager (range_index_version_seq_id_ m) (put_index l c cur') (Some (ri_fresh m)) (ri_fresh m + 1)) held.
Proof.
  intros Hok Hc Hcur Hdel l. assert (c ∈ (ri_list m).*1) as Hcin by (apply list_elem_of_fmap; by exists (c, cur)).
  assert (l ≡ₚ (ri_fresh m, set_refs idx 1 (ri_is_deleted_ idx)) :: ri_list m) as Hl by (by apply insert_behind_perm).
  assert (l.*1 ≡ₚ ri_fresh m :: (ri_list m).*1) as Hk by (by rewrite Hl). pose proof (io_fresh _ _ Hok) as Hf. rewrite Forall_forall in Hf.
  assert (ri_fresh m ∉ (ri_list m).*1) as Hnew by (intros H; specialize (Hf _ H); lia).
  assert (NoDup l.*1) as Hnd by (rewrite Hk; constructor; [done|apply (io_nodup _ _ Hok)]). assert ((c, cur) ∈ l) as Hin by (rewrite Hl; by right).
  destruct (io_refs _ _ Hok c cur Hcur) as [Er Ed]. pose proof (index_refs_bound held (ri_current_ m) c) as (_ & Hb & _). specialize (Hb Hc).
  eexists. split; [by apply find_index_ok|]. split; [unfold RangeIndex_UnRef; by rewrite decide_True by lia|]. split_and!; [done..|].
  pose proof (io_held _ _ Hok) as Hh. rewrite Forall_forall in Hh. pose proof (Hf _ Hcin) as Hcf.
  split; cbn [ri_list ri_current_ ri_fresh]; rewrite ?put_index_keys; [done| | | |].
  - rewrite Hk. constructor; [lia|]. apply Forall_forall. intros q Hq. specialize (Hf q Hq). lia.
  - exists (ri_fresh m). split; [done|]. rewrite Hk. by left.
  - apply Forall_forall. intros q Hq. rewrite Hk. right. by apply Hh.
  - intros q s [[-> ->]|[Hne Hs]]%put_index_elem.
    + cbn [ri_refs_ ri_is_deleted_ set_refs]. split.
      * rewrite Er. unfold index_refs. rewrite (decide_True (P := ri_current_ m = Some c)) by done. rewrite decide_False by (intros [= ?]; lia). lia.
      * destruct (decide (ri_refs_ cur - 1 = 0)) as [H0|H0]; [symmetry; by apply bool_decide_eq_true_2|]. rewrite Ed, !bool_decide_eq_false_2 by lia. done.
    + rewrite Hl in Hs. apply elem_of_cons in Hs as [E|Hs].
      * injection E as -> ->. cbn [ri_refs_ ri_is_deleted_ set_refs]. split; [|by rewrite Hdel]. unfold index_refs. rewrite decide_True by done.
        assert (held_refs held (ri_fresh m) = 0) as ->; [|done]. pose proof (held_refs_bound held (ri_fresh m)) as Hbb. pose proof (proj2 (held_refs_pos held (ri_fresh m))) as Hp.
        destruct (decide (held_refs held (ri_fresh m) = 0)) as [|Hn0]; [done|]. exfalso. apply Hnew, Hh, Hp. lia.
      * destruct (io_refs _ _ Hok q s Hs) as [E1 E2]. split; [|done]. rewrite E1, Hc. unfold index_refs. rewrite !decide_False; [done| |by intros [= ->]].
        intros [= <-]. apply Hnew. apply list_elem_of_fmap. by exists (ri_fresh m, s).
Qed.

Lemma append_index_ok m slots idx held (cnt : Z → Z) :
  indexes_ok m held → ri_is_deleted_ idx = false →
  (∀ mid a, slots !! mid = Some a → slot_ok (mkSlotSys a (cnt mid))) → Forall (allocated slots) (all_memtables (range_tables_ idx)) →
  ∃ m' slots', append_index m slots idx = Ret (m', slots') ∧ indexes_ok m' held
    ∧ named (ri_list m') ≡ₚ all_memtables (range_tables_ idx) ++ named (ri_list m)
    ∧ (∀ mid, is_Some (slots' !! mid) ↔ is_Some (slots !! mid))
    ∧ ∀ mid a, slots' !! mid = Some a → slot_ok (mkSlotSys a (cnt mid + held_refs (all_memtables (range_tables_ idx)) mid)).
Proof.
  intros Hok Hdel Hs Hall. destruct (io_current _ _ Hok) as (c & Hc & Hcin). destruct (index_exists _ _ Hcin) as [cur Hcur].
  destruct (append_indexes m held c cur idx Hok Hc Hcur Hdel) as (cur' & Ef & Eu & Et & Hnd & Hin & Hok').
  destruct (ref_memtables_ok _ slots cnt Hs Hall) as (slots' & Er & Hdom & Hs').
  unfold append_index. rewrite Hc, Ef. cbn [mbind res_bind]. rewrite Eu. cbn [mbind res_bind]. cbn [range_tables_ set_refs]. rewrite Er. cbn [mbind res_bind].
  eexists _, slots'. split; [done|]. split_and!; [done| |done|done]. cbn [ri_list]. rewrite (named_put _ c cur cur' Hnd Hin Et).
  by rewrite (named_perm _ _ (insert_behind_perm (ri_list m) c (ri_fresh m, set_refs idx 1 (ri_is_deleted_ idx)) Hcin)).
Qed.

Lemma split_deleted (l : list (Z * RangeIndex)) :
  l ≡ₚ filter (λ e, ri_is_deleted_ e.2 = true) l ++ filter (λ e, ri_is_deleted_ e.2 = false) l.
Proof.
  induction l as [|e l IH]; [done|]. rewrite !filter_cons. destruct (ri_is_deleted_ e.2) eqn:E.
  - rewrite decide_True, decide_False by done. cbn. by constructor.
  - rewrite decide_False, decide_True by done. rewrite <- Permutation_middle. by constructor.
Qed.

Lemma collect_indexes_ok m held :
  indexes_ok m held →
  indexes_ok (collect_indexes m).1 held ∧ ri_current_ (collect_indexes m).1 = ri_current_ m
  ∧ named (ri_list m) ≡ₚ named (filter (λ e, ri_is_deleted_ e.2 = true) (ri_list m)) ++ named (ri_list (collect_indexes m).1).
Proof.
  intros Hok. unfold collect_indexes. cbn [fst ri_list ri_current_]. set (alive := filter (λ e, ri_is_deleted_ e.2 = false) (ri_list m)).
  assert (sublist alive.*1 (ri_list m).*1) as Hsub by (apply fmap_sublist, sublist_filter).
  assert (∀ p, p ∈ (ri_list m).*1 → 1 <= index_refs held (ri_current_ m) p → p ∈ alive.*1) as Hkeep.
  { intros p Hp Hr. destruct (index_exists _ _ Hp) as [r Hin]. destruct (io_refs _ _ Hok p r Hin) as [E1 E2]. apply list_elem_of_fmap. exists (p, r). split; [done|].
    apply list_elem_of_filter. split; [|done]. cbn. rewrite E2, E1. by rewrite bool_decide_eq_false_2 by lia. }
  split_and!; [|done|].
  - split; cbn [ri_list ri_current_ ri_fresh].
    + eapply sublist_NoDup; [apply (io_nodup _ _ Hok)|exact Hsub].
    + pose proof (io_fresh _ _ Hok) as Hf. rewrite Forall_forall in Hf |- *. intros q Hq. apply Hf. apply list_elem_of_fmap in Hq as (e & -> & [_ He]%list_elem_of_filter). by apply list_elem_of_fmap_2.
    + destruct (io_current _ _ Hok) as (c & Hc & Hcin). exists c. split; [done|]. apply Hkeep; [done|]. destruct (index_refs_bound held (ri_current_ m) c) as (_ & H & _). by apply H.
    + pose proof (io_held _ _ Hok) as Hh. rewrite Forall_forall in Hh |- *. intros q Hq. apply Hkeep; [by apply Hh|]. destruct (index_refs_bound held (ri_current_ m) q) as (_ & _ & H). by apply H.
    + intros p r [_ Hp]%list_elem_of_filter. by apply (io_refs _ _ Hok).
  - unfold named. rewrite <- bind_app. exact (named_perm _ _ (split_deleted (ri_list m))).
Qed.

(** ** The invariant *)

Lemma total_nonneg S mid : index_sys_ok S → mid ∈ named (ri_list (ri_m S)) → 0 < total_refs S mid.
Proof.
  intros Hok Hm. unfold total_refs. pose proof (iy_others _ Hok mid). apply held_refs_pos in Hm.
  assert (0 <= pending_refs (ri_pending S) mid); [|lia]. apply pending_refs_nonneg, Forall_forall. intros e He. by apply (iy_pending _ Hok e He).
Qed.

(** A memtable that an index names is allocated. *)
Lemma named_allocated S mid : index_sys_ok S → mid ∈ named (ri_list (ri_m S)) → allocated (ri_slots S) mid.
Proof.
  intros Hok Hm. destruct (iy_named _ Hok mid Hm) as [a Ha]. exists a. split; [done|]. eapply slot_alive; [by apply (iy_slots _ Hok)|]. by apply total_nonneg.
Qed.

Lemma append_sys_ok S idx :
  index_sys_ok S → ri_is_deleted_ idx = false → Forall (allocated (ri_slots S)) (all_memtables (range_tables_ idx)) →
  ∃ m' slots', append_index (ri_m S) (ri_slots S) idx = Ret (m', slots')
    ∧ index_sys_ok (mkIndexSys m' slots' (ri_held S) (ri_ended S) (ri_pending S) (ri_others S)).
Proof.
  intros Hok Hdel Hall. destruct (append_index_ok _ _ idx _ (total_refs S) (iy_indexes _ Hok) Hdel (iy_slots _ Hok) Hall) as (m' & slots' & E & Hi & Hn & Hdom & Hs).
  exists m', slots'. split; [done|]. split; cbn [ri_m ri_slots ri_held ri_pending ri_others].
  - done.
  - intros mid a Ha. specialize (Hs mid a Ha). unfold total_refs in *. cbn [ri_m ri_pending ri_others]. rewrite (held_refs_perm _ _ mid Hn), held_refs_app.
    eapply eq_ind; [exact Hs|]. f_equal. lia.
  - intros mid Hm. rewrite Hn in Hm. apply Hdom. apply elem_of_app in Hm as [Hm|Hm]; [|by apply (iy_named _ Hok)].
    rewrite Forall_forall in Hall. destruct (Hall mid Hm) as (a & Ha & _). by exists a.
  - intros e He. destruct (iy_pending _ Hok e He) as [H1 H2]. split; [done|]. by apply Hdom.
  - apply (iy_others _ Hok).
Qed.

(** What an edit asks for is possible when its new memtable exists. *)
Lemma edited_allocated U S c cur seq edit idx :
  index_sys_ok S → (c, cur) ∈ ri_list (ri_m S) → (re_add_new_memtable edit = true → allocated (ri_slots S) (re_new_memtable_id edit)) →
  edited_index U cur seq edit = Ret idx → ri_is_deleted_ idx = false ∧ Forall (allocated (ri_slots S)) (all_memtables (range_tables_ idx)).
Proof.
  intros Hok Hc Hnew E. split.
  - unfold edited_index in E. apply res_bind_Ret in E as (ts & _ & E). by injection E as <-.
  - apply Forall_forall. intros mid Hm. destruct (edited_index_subset U cur seq edit idx mid E Hm) as [[Ha ->]|Hcur]; [by apply Hnew|].
    apply named_allocated; [done|]. by eapply named_elem.
Qed.

Lemma with_seq_ok S seq :
  index_sys_ok S → index_sys_ok (mkIndexSys (mkManager seq (ri_list (ri_m S)) (ri_current_ (ri_m S)) (ri_fresh (ri_m S))) (ri_slots S) (ri_held S) (ri_ended S) (ri_pending S) (ri_others S)).
Proof. by intros [[] ? ? ? ?]. Qed.

(** [AppendNewVersion] fails only where the edit cannot be applied. *)
Lemma AppendNewVersion_ok U S edit c cur :
  index_sys_ok S → ri_current_ (ri_m S) = Some c → (c, cur) ∈ ri_list (ri_m S) →
  (re_add_new_memtable edit = true → allocated (ri_slots S) (re_new_memtable_id edit)) →
  match edited_index U cur (w32 (range_index_version_seq_id_ (ri_m S) + 1)) edit with
  | Ret idx => ∃ m' slots', AppendNewVersion U (ri_m S) (ri_slots S) edit = Ret (m', slots')
      ∧ index_sys_ok (mkIndexSys m' slots' (ri_held S) (ri_ended S) (ri_pending S) (ri_others S))
  | _ => ∀ r, AppendNewVersion U (ri_m S) (ri_slots S) edit ≠ Ret r
  end.
Proof.
  intros Hok Hc Hcur Hnew. unfold AppendNewVersion. rewrite Hc, (find_index_ok _ c cur (io_nodup _ _ (iy_indexes _ Hok)) Hcur). cbn [mbind res_bind].
  destruct (edited_index U cur (w32 (range_index_version_seq_id_ (ri_m S) + 1)) edit) as [idx| |] eqn:E; cbn [mbind res_bind]; [|done..].
  destruct (edited_allocated U S c cur _ edit idx Hok Hcur Hnew E) as [Hdel Hall]. rewrite <- Hc.
  by apply (append_sys_ok _ idx (with_seq_ok S (w32 (range_index_version_seq_id_ (ri_m S) + 1)) Hok)).
Qed.

(** The references that one unref gives back. *)
Lemma unref_memtable_ok S p1 e p2 :
  index_sys_ok S → ri_pending S = p1 ++ e :: p2 →
  ∃ slots', unref_memtable (ri_slots S) e = Ret slots'
    ∧ index_sys_ok (mkIndexSys (ri_m S) slots' (ri_held S) (ri_ended S) (p1 ++ p2) (ri_others S)).
Proof.
  intros Hok Hp. assert (e ∈ ri_pending S) as He by (rewrite Hp; apply elem_of_app; right; by left). destruct (iy_pending _ Hok e He) as [Hpos [a Ha]].
  pose proof (iy_slots _ Hok e.1 a Ha) as Hs. assert (∀ mid, total_refs S mid = held_refs (named (ri_list (ri_m S))) mid + pending_refs (p1 ++ p2) mid + ri_others S mid
    + (if decide (e.1 = mid) then e.2 else 0)) as Ht.
  { intros mid. unfold total_refs. rewrite Hp, !pending_refs_app. unfold pending_refs at 2. cbn [foldr]. fold (pending_refs p2 mid). lia. }
  assert (∀ x, x ∈ p1 ++ p2 → x ∈ ri_pending S) as Hsub by (intros x; rewrite Hp, !elem_of_app, elem_of_cons; tauto).
  assert (0 <= pending_refs (p1 ++ p2) e.1) as Hpp by (apply pending_refs_nonneg, Forall_forall; intros x Hx; by apply (iy_pending _ Hok x (Hsub x Hx))).
  pose proof (held_refs_bound (named (ri_list (ri_m S))) e.1) as Hb. pose proof (iy_others _ Hok e.1) as Ho. pose proof (Ht e.1) as Hte. rewrite decide_True in Hte by done.
  destruct (memtable_ a) as [mm|] eqn:Em; [|exfalso; by eapply slot_alive; [exact Hs|lia|]]. destruct (sk_refs _ Hs mm Em) as [Hr _]. unfold slot_refs in Hr. cbn [slot holders] in Hr.
  destruct (AtomicMemTable_Unref_spec a mm e.2 Em) as (m' & Eu & _); [destruct (is_flushed_ a); lia|].
  unfold unref_memtable. rewrite Ha, Eu. cbn [mbind res_bind]. eexists. split; [done|]. set (a' := with_memtable a _) in *.
  assert (slot_ok (mkSlotSys a' (total_refs S e.1 - e.2))) as Hs' by (eapply slot_step_ok; [exact Hs|apply slot_unref; [lia|done]]).
  split; cbn [ri_m ri_slots ri_held ri_pending ri_others]; [apply (iy_indexes _ Hok)| | | |apply (iy_others _ Hok)].
  - intros mid b. unfold total_refs. cbn [ri_m ri_pending ri_others]. destruct (decide (e.1 = mid)) as [<-|Hne].
    + rewrite lookup_insert_eq. intros [= <-]. eapply eq_ind; [exact Hs'|]. f_equal. lia.
    + rewrite lookup_insert_ne by done. intros Hb'. pose proof (iy_slots _ Hok mid b Hb') as Hsb. rewrite Ht, decide_False, Z.add_0_r in Hsb by done. done.
  - intros mid Hm. pose proof (iy_named _ Hok mid Hm) as [b Hb']. destruct (decide (e.1 = mid)) as [<-|Hne]; [rewrite lookup_insert_eq; by eexists|rewrite lookup_insert_ne by done; by eexists].
  - intros x Hx. destruct (iy_pending _ Hok x (Hsub x Hx)) as [H1 [b Hb']]. split; [done|].
    destruct (decide (e.1 = x.1)) as [<-|Hne]; [rewrite lookup_insert_eq; by eexists|rewrite lookup_insert_ne by done; by eexists].
Qed.

Lemma pending_refs_none l x : (∀ e, e ∈ l → e.1 ≠ x) → pending_refs l x = 0.
Proof.
  induction l as [|e l IH]; intros H; [done|]. unfold pending_refs in *. cbn. rewrite IH by (intros f Hf; apply H; by right).
  rewrite decide_False by (apply H; by left). done.
Qed.

Lemma held_refs_none l x : x ∉ l → held_refs l x = 0.
Proof. intros H. pose proof (held_refs_bound l x). rewrite held_refs_pos in H. lia. Qed.

Lemma set_memtable_ok S mid a g mem :
  index_sys_ok S → ri_slots S !! mid = None → MemTable.refs_ mem = 0 →
  index_sys_ok (mkIndexSys (ri_m S) (<[mid := SetMemTable a g mem]> (ri_slots S)) (ri_held S) (ri_ended S) (ri_pending S) (set_count (ri_others S) mid 0)).
Proof.
  intros Hok Hn Hr. assert (mid ∉ named (ri_list (ri_m S))) as Hnm by (intros [b Hb]%(iy_named _ Hok); congruence).
  assert (∀ e, e ∈ ri_pending S → e.1 ≠ mid) as Hnp by (intros e He E; destruct (iy_pending _ Hok e He) as [_ [b Hb]]; congruence).
  split; cbn [ri_m ri_slots ri_held ri_pending ri_others]; [apply (iy_indexes _ Hok)|..].
  - intros x b. unfold total_refs, set_count. cbn [ri_m ri_pending ri_others]. destruct (decide (x = mid)) as [->|Hne].
    + rewrite lookup_insert_eq. intros [= <-]. rewrite held_refs_none, pending_refs_none by done.
      split; unfold slot_refs; cbn; try done. intros m' [= <-]. cbn. lia.
    + rewrite lookup_insert_ne by done. apply (iy_slots _ Hok).
  - intros x Hx. rewrite lookup_insert_ne by congruence. by apply (iy_named _ Hok).
  - intros e He. rewrite lookup_insert_ne by (symmetry; by apply Hnp). by apply (iy_pending _ Hok).
  - intros x. unfold set_count. case_decide; [done|apply (iy_others _ Hok)].
Qed.

Lemma slot_sys_ok S mid a a' n :
  index_sys_ok S → ri_slots S !! mid = Some a → 0 <= ri_others S mid + n →
  slot_step (mkSlotSys a (total_refs S mid)) (mkSlotSys a' (total_refs S mid + n)) →
  index_sys_ok (mkIndexSys (ri_m S) (<[mid := a']> (ri_slots S)) (ri_held S) (ri_ended S) (ri_pending S) (set_count (ri_others S) mid (ri_others S mid + n))).
Proof.
  intros Hok Ha Hn Hst. pose proof (slot_step_ok _ _ (iy_slots _ Hok mid a Ha) Hst) as Hs.
  assert (∀ x, is_Some (ri_slots S !! x) → is_Some (<[mid := a']> (ri_slots S) !! x)) as Hdom.
  { intros x Hx. destruct (decide (x = mid)) as [->|Hne]; [rewrite lookup_insert_eq; by eexists|by rewrite lookup_insert_ne]. }
  split; cbn [ri_m ri_slots ri_held ri_pending ri_others]; [apply (iy_indexes _ Hok)|..].
  - intros x b. unfold total_refs, set_count. cbn [ri_m ri_pending ri_others]. destruct (decide (x = mid)) as [->|Hne].
    + rewrite lookup_insert_eq. intros [= <-]. eapply eq_ind; [exact Hs|]. unfold total_refs. f_equal. lia.
    + rewrite lookup_insert_ne by done. apply (iy_slots _ Hok).
  - intros x Hx. by apply Hdom, (iy_named _ Hok).
  - intros e He. destruct (iy_pending _ Hok e He) as [H1 H2]. split; [done|by apply Hdom].
  - intros x. unfold set_count. case_decide; [done|apply (iy_others _ Hok)].
Qed.

Lemma collect_sys_ok S :
  index_sys_ok S → size_of (named (ri_list (ri_m S))) < 2 ^ 32 →
  index_sys_ok (mkIndexSys (collect_indexes (ri_m S)).1 (ri_slots S) (ri_held S) (ri_ended S) (ri_pending S ++ (collect_indexes (ri_m S)).2) (ri_others S)).
Proof.
  intros Hok Hs. destruct (collect_indexes_ok _ _ (iy_indexes _ Hok)) as (Hi & _ & Hp). set (dead := named (filter (λ e, ri_is_deleted_ e.2 = true) (ri_list (ri_m S)))) in *.
  assert (size_of dead < 2 ^ 32) as Hd by (apply Permutation_length in Hp; rewrite length_app in Hp; lia).
  assert ((collect_indexes (ri_m S)).2 = map_to_list (count_refs dead)) as E by done. rewrite E.
  split; cbn [ri_m ri_slots ri_held ri_pending ri_others]; [done| | | |apply (iy_others _ Hok)].
  - intros mid a Ha. pose proof (iy_slots _ Hok mid a Ha) as H. unfold total_refs in *. cbn [ri_m ri_pending ri_others] in *.
    rewrite (held_refs_perm _ _ mid Hp), held_refs_app in H. rewrite pending_refs_app, count_refs_pending by done. eapply eq_ind; [exact H|]. f_equal. lia.
  - intros mid Hm. apply (iy_named _ Hok). rewrite Hp. apply elem_of_app. by right.
  - intros e [He|He]%elem_of_app; [by apply (iy_pending _ Hok)|]. destruct (count_refs_entry dead e Hd He) as [H1 H2]. split; [done|].
    apply (iy_named _ Hok). rewrite Hp. apply elem_of_app. by left.
Qed.

(** Only the counts of the indexes change. *)
Lemma sys_ok_indexes S m' held' ended' :
  index_sys_ok S → indexes_ok m' held' → named (ri_list m') = named (ri_list (ri_m S)) →
  index_sys_ok (mkIndexSys m' (ri_slots S) held' ended' (ri_pending S) (ri_others S)).
Proof.
  intros [_ H2 H3 H4 H5] Hi Hn. split; cbn [ri_m ri_slots ri_held ri_pending ri_others]; [done| |by rewrite Hn|done..].
  intros mid a Ha. specialize (H2 mid a Ha). unfold total_refs in *. cbn [ri_m ri_pending ri_others]. by rewrite Hn.
Qed.

Lemma index_step_ok U S S' : index_step U S S' → index_sys_ok S → index_sys_ok S'.
Proof.
  intros Hst Hok. destruct Hst as [m slots held ended pending others edit m' slots' Hnew E|m slots held ended pending others vs m' vs' r E|m slots h1 h2 ended pending others p m' E
    |m slots held e1 e2 pending others p vs vs' E|m slots held ended pending others m' more Hs E|m slots held ended p1 e p2 others slots' E
    |m slots held ended pending others mid a g mem Hn Hr|m slots held ended pending others mid a a' n S Ha Hn Hst].
  - destruct (io_current _ _ (iy_indexes _ Hok)) as (c & Hc & Hcin). destruct (index_exists _ _ Hcin) as [cur Hcur].
    pose proof (AppendNewVersion_ok U _ edit c cur Hok Hc Hcur Hnew) as H. cbn [ri_m ri_slots ri_held ri_ended ri_pending ri_others] in H.
    destruct (edited_index _ _ _ _) as [idx| |]; [|by apply H in E..]. destruct H as (m1 & s1 & E1 & Hok1). rewrite E in E1. by injection E1 as <- <-.
  - destruct (current_round_ok m vs held m' vs' r (iy_indexes _ Hok) E) as [Hi Hn]. by apply (sys_ok_indexes _ m' _ ended Hok).
  - destruct (release_index_ok m h1 h2 p (iy_indexes _ Hok)) as (m1 & E1 & Hi & Hn & _). rewrite E in E1. injection E1 as <-. by apply (sys_ok_indexes _ m' _ (p :: ended) Hok).
  - by apply (sys_ok_indexes _ m held (e1 ++ e2) Hok); [apply (iy_indexes _ Hok)|].
  - pose proof (collect_sys_ok _ Hok Hs) as H. cbn [ri_m ri_slots ri_held ri_ended ri_pending ri_others] in H. by rewrite E in H.
  - destruct (unref_memtable_ok _ p1 e p2 Hok eq_refl) as (s1 & E1 & H). cbn [ri_m ri_slots ri_held ri_ended ri_pending ri_others] in *. rewrite E in E1. by injection E1 as <-.
  - by apply (set_memtable_ok _ mid a g mem Hok).
  - by apply (slot_sys_ok _ mid a a' n Hok).
Qed.

Lemma index_start_ok S : index_start S → index_sys_ok S.
Proof.
  intros (slots & init & Hr & Hd & Hs & Hall & E & Hh & _ & Hp & Ho). unfold Manager_Initialize in E. cbn [range_tables_ set_refs] in E.
  destruct (ref_memtables_ok _ slots (λ _, 0) Hs Hall) as (slots' & Er & Hdom & Hs'). rewrite Er in E. cbn [mbind res_bind] in E. injection E as E1 E2.
  split; rewrite <- ?E1, <- ?E2, ?Hh, ?Hp.
  - split; cbn; rewrite ?Hr, ?Hd; [apply NoDup_singleton|by repeat constructor|exists 1; split; [done|by left]|done|].
    intros p r [E|Hn]%elem_of_cons; [|by apply not_elem_of_nil in Hn]. injection E as -> ->. done.
  - intros mid a Ha. specialize (Hs' mid a Ha). unfold total_refs. rewrite <- E1, Hp, Ho, Z.add_0_r. cbn [ri_list RangeIndexManager_init]. rewrite named_cons, app_nil_r. cbn [snd range_tables_ set_refs].
    by rewrite Z.add_0_r.
  - intros mid Hm. cbn [ri_list] in Hm. rewrite named_cons, app_nil_r in Hm. cbn [snd range_tables_ set_refs] in Hm. apply Hdom. rewrite Forall_forall in Hall.
    destruct (Hall mid Hm) as (a & Ha & _). by exists a.
  - intros e He. by apply not_elem_of_nil in He.
  - intros mid. by rewrite Ho.
Qed.

Lemma index_reachable_ok U S : index_reachable U S → index_sys_ok S.
Proof. intros (S0 & H0%index_start_ok & Hst). induction Hst as [|S1 S2 S3 Hst _ IH]; [done|]. apply IH. by eapply index_step_ok. Qed.

(** ** Encoded indexes *)

Definition tables_encodable (t : RangeTables) : Prop :=
  StronglySorted Z.lt (memtable_ids t) ∧ StronglySorted Z.lt (l0_sstable_ids t) ∧ Forall is_u32 (memtable_ids t) ∧ Forall is_u64 (l0_sstable_ids t)
  ∧ size_of (memtable_ids t) < 2 ^ 32 ∧ size_of (l0_sstable_ids t) < 2 ^ 32.

Definition range_encodable (r : Range) : Prop := short (lower r) ∧ short (upper r) ∧ is_u32 (r_num_duplicates r).

Lemma parses_RangeTables t : tables_encodable t → parses (RangeTables_Decode (mkTables [] [])) (RangeTables_Encode t) t.
Proof.
  intros (Hs1 & Hs2 & Hu1 & Hu2 & Hl1 & Hl2). unfold RangeTables_Decode, RangeTables_Encode.
  eapply parses_bind; [apply parses_must, parses_Fixed32; mlia|]. eapply parses_bind; [apply parses_must, parses_Fixed32; mlia|]. rewrite !Nat2Z.id.
  eapply parses_bind; [apply parses_repeat; eapply Forall_impl; [exact Hu1|]; intros x Hx; by apply parses_must, parses_Fixed32|].
  eapply parses_bind_last; [apply parses_repeat; eapply Forall_impl; [exact Hu2|]; intros x Hx; by apply parses_must, parses_Fixed64|].
  cbn [memtable_ids l0_sstable_ids]. rewrite !foldl_set_insert_sorted by done. destruct t. apply parses_ret.
Qed.

Lemma parses_and_then p q r r' r'' bs1 bs2 : parses (p r) bs1 r' → parses (q r') bs2 r'' → parses (and_then p q r) (bs1 ++ bs2) r''.
Proof. intros Hp Hq rest. unfold and_then. rewrite <- (assoc_L (++)), Hp. apply Hq. Qed.

(** Statistics are not stored. *)
Lemma parses_Range_unchecked r :
  range_encodable r →
  parses Range_Decode_unchecked (Range_Encode r) (mkRange (lower r) (upper r) (lower_inclusive r) (upper_inclusive r) (r_num_duplicates r) f64_zero f64_zero (-1)).
Proof.
  intros (Hl & Hu & Hd). unfold Range_Decode_unchecked, Range_Encode. rewrite <- (app_nil_r (EncodeFixed32 _)).
  eapply parses_and_then; [eapply parses_bind_last; [by apply parses_DecodeStr|apply parses_ret]|].
  eapply parses_and_then; [eapply parses_bind_last; [by apply parses_DecodeStr|apply parses_ret]|].
  eapply parses_and_then; [eapply parses_bind_last; [apply parses_DecodeBool|apply parses_ret]|].
  eapply parses_and_then; [eapply parses_bind_last; [apply parses_DecodeBool|apply parses_ret]|].
  eapply parses_and_then; [eapply parses_bind_last; [by apply parses_Fixed32|apply parses_ret]|]. apply parses_ret.
Qed.

(** An index that was migrated is the one that was sent. *)
Lemma range_index_roundtrip r version_id lsm_vid rest :
  Forall range_encodable (ranges_ r) → Forall tables_encodable (range_tables_ r) → length (range_tables_ r) = length (ranges_ r) →
  is_u32 (lsm_version_id_ r) → size_of (ranges_ r) < 2 ^ 32 →
  RangeIndex_Decode (RangeIndex_make version_id lsm_vid) (RangeIndex_Encode r ++ rest) =
    (Ret (mkIndex ((λ x, mkRange (lower x) (upper x) (lower_inclusive x) (upper_inclusive x) (r_num_duplicates x) f64_zero f64_zero (-1)) <$> ranges_ r)
       (range_tables_ r) (lsm_version_id_ r) version_id false 0), rest).
Proof.
  intros Hr Ht Hlen Hv Hn. revert rest. match goal with |- ∀ rest, _ = (Ret ?v, rest) => change (parses (RangeIndex_Decode (RangeIndex_make version_id lsm_vid)) (RangeIndex_Encode r) v) end.
  unfold RangeIndex_Decode, RangeIndex_Encode. set (f := λ x : Range, _).
  eapply parses_bind; [by apply parses_must, parses_Fixed32|]. eapply parses_bind; [apply parses_must, parses_Fixed32; mlia|]. rewrite Nat2Z.id.
  eapply (parses_bind _ _ _ _ (f <$> ranges_ r)).
  { clear -Hr. induction Hr as [|x l Hx Hl IH]; [apply parses_ret|]. cbn [length repeatP mbind list_bind fmap list_fmap]. eapply parses_bind; [by apply parses_Range_unchecked|].
    eapply parses_bind_last; [exact IH|]. apply parses_ret. }
  rewrite <- Hlen. eapply parses_bind_last; [apply parses_repeat; eapply Forall_impl; [exact Ht|]; intros t; apply parses_RangeTables|]. apply parses_ret.
Qed.

(** ** Properties *)


(** ** Examples *)

Definition scan_tables : list RangeTables := [mkTables [7] []].
Definition scan_slots : slots_map := {[7 := SetMemTable AtomicMemTable_init 1 example_memtable]}.

(** A database that was opened with an index over [ts]. *)
Definition opened_index (ts : list RangeTables) (slots : slots_map) : IndexSys :=
  match Manager_Initialize RangeIndexManager_init slots (mkIndex [] ts 1 0 false 0) with
  | Ret (m, slots) => mkIndexSys m slots [] [] [] (λ _, 0)
  | _ => mkIndexSys RangeIndexManager_init ∅ [] [] [] (λ _, 0)
  end.

Definition scan_versions : VersionSet := match VersionSet_init 4 2 with Ret vs => vs | _ => mkVersionSet ∅ [] [] None 0 0 end.

(** A scan that started. *)
Definition scanning (S : IndexSys) : IndexSys :=
  match current_round (ri_m S) scan_versions with
  | Ret (m, _, Some (p, _)) => mkIndexSys m (ri_slots S) (p :: ri_held S) (ri_ended S) (ri_pending S) (ri_others S)
  | _ => S
  end.

Lemma scanning_step U S m vs p v : current_round (ri_m S) scan_versions = Ret (m, vs, Some (p, v)) → index_step U S (scanning S).
Proof.
  intros E. unfold scanning. rewrite E. destruct S as [m0 slots held ended pending others]. exact (index_scan U m0 slots held ended pending others scan_versions m vs (Some (p, v)) E).
Qed.


Definition no_edit : RangeIndexVersionEdit := mkEdit None 0 false [] [] [] [] 0.

(** C33. A scan reads its index after it gave it back: when a new version replaced
    the index and the obsolete ones are deleted in between, the memory it reads
    was freed. *)
Theorem range_index_read_after_free :
  ∃ S p, index_reachable BytewiseComparator S ∧ p ∈ ri_ended S ∧ ∀ vs, release_version (ri_m S) vs p = Abort.
Proof.
  eexists _, 1. split.
  - exists (opened_index [] ∅). split; [exists ∅, (mkIndex [] [] 1 0 false 0); by split_and!|].
    eapply rtc_l; [eapply scanning_step; vm_compute; reflexivity|]. let S := eval vm_compute in (scanning (opened_index [] ∅)) in change (scanning (opened_index [] ∅)) with S.
    eapply rtc_l; [apply (index_append _ _ _ _ _ _ _ no_edit); [done|vm_compute; reflexivity]|].
    eapply rtc_l; [apply (index_release _ _ _ [] [] [] [] _ 1); vm_compute; reflexivity|].
    eapply rtc_l; [apply index_collect; [vm_compute; reflexivity|vm_compute; reflexivity]|]. apply rtc_refl.
  - split; [by left|]. intros vs. reflexivity.
Qed.
