(* ===== verification/Database.v ===== *)
(** * Database: the writes, flushes and lookups of a database

    The paths of [db/db_impl.cc] that a key takes: [Put] through
    [WriteStaticPartition] into the active memtable of a partition, the rotation
    of a full memtable, its flush by [PerformCompaction] to a level-0 table, and
    [GetWithLookupIndex], which finds the memtable of the last write, or the
    files it was flushed to.  Writers, flushes and lookups run concurrently;
    what a thread does under one lock, or in one atomic operation, is one step.
    The manifest, the log records, the range index and major compactions are
    not part of this file. *)

From S2P Require Import Prelude Coding SkipList Arena Comparator Cursor NovaCommon DbFormat Merger MemTable AtomicMemTable FlushOrder LookupIndex FileMeta VersionEdit FileSearch VersionBuilder VersionSet Compaction VersionGet.

(** The tables of the database: [BuildTable] over the iterator of a memtable
    and [TableCache::Get]. *)
Class TableStorage (W : Type) := {
  ts_build : W → MemTable → FileMetaData → res (W * FileMetaData);
  ts_get : W → FileMetaData → bytes → res (option kv)
}.

Record DBOptions := mkOptions {
  write_buffer_size : Z;
  l0bytes_stop_writes_trigger : Z;
  use_ordered_flush : bool;
  cfgs_size : Z
}.

Definition MAX_LIVE_MEMTABLES : Z := 100000.

Record MemTablePartition := mkPartition {
  active_memtable : option Z;
  generation_num_memtables_ : gmap Z (gset Z);
  imm_slots : list Z;
  available_slots : list Z;
  immutable_memtable_ids : list Z;
  slot_imm_id : gmap Z Z
}.

(** A task of [ScheduleFlushMemTableTask]; the memtable is its id. *)
Record FlushTask := mkTask { tk_memtable : Z; tk_partition_id : Z; tk_imm_slot : Z }.

(** A task whose table was built. *)
Abbreviation built_table := (FlushTask * FileMetaData)%type.

(** A [MemTable *] is the id of the memtable, found in its slot. *)
Record DB (W : Type) := mkDB {
  db_last_sequence : Z;
  db_memtable_id_seq : Z;
  db_next_file : Z;
  db_lookup_index : LookupIndex;
  db_slots : gmap Z AtomicMemTable;
  db_partitions : list MemTablePartition;
  db_imms : list Z;
  db_num_imms : Z;
  db_versions : VersionSet;
  db_order : FlushOrder;
  db_tasks : list FlushTask;
  db_storage : W
}.
Arguments mkDB {W}.
Arguments db_last_sequence {W}. Arguments db_memtable_id_seq {W}. Arguments db_next_file {W}.
Arguments db_lookup_index {W}. Arguments db_slots {W}. Arguments db_partitions {W}.
Arguments db_imms {W}. Arguments db_num_imms {W}. Arguments db_versions {W}.
Arguments db_order {W}. Arguments db_tasks {W}. Arguments db_storage {W}.

Section db.
Context {W : Type} {TS : TableStorage W} (U : Comparator) (new_char : list (Z * Z) → Z → Z) (options : DBOptions).
Local Abbreviation DB := (DB W).

(** ** Field updates *)

Definition set_slots (db : DB) s := mkDB (db_last_sequence db) (db_memtable_id_seq db) (db_next_file db) (db_lookup_index db) s
  (db_partitions db) (db_imms db) (db_num_imms db) (db_versions db) (db_order db) (db_tasks db) (db_storage db).
Definition set_partitions (db : DB) p imms n := mkDB (db_last_sequence db) (db_memtable_id_seq db) (db_next_file db) (db_lookup_index db)
  (db_slots db) p imms n (db_versions db) (db_order db) (db_tasks db) (db_storage db).
Definition set_versions (db : DB) v := mkDB (db_last_sequence db) (db_memtable_id_seq db) (db_next_file db) (db_lookup_index db)
  (db_slots db) (db_partitions db) (db_imms db) (db_num_imms db) v (db_order db) (db_tasks db) (db_storage db).
Definition set_index (db : DB) t := mkDB (db_last_sequence db) (db_memtable_id_seq db) (db_next_file db) t
  (db_slots db) (db_partitions db) (db_imms db) (db_num_imms db) (db_versions db) (db_order db) (db_tasks db) (db_storage db).
Definition set_tasks (db : DB) t := mkDB (db_last_sequence db) (db_memtable_id_seq db) (db_next_file db) (db_lookup_index db)
  (db_slots db) (db_partitions db) (db_imms db) (db_num_imms db) (db_versions db) (db_order db) t (db_storage db).
Definition set_counters (db : DB) s m n := mkDB s m n (db_lookup_index db)
  (db_slots db) (db_partitions db) (db_imms db) (db_num_imms db) (db_versions db) (db_order db) (db_tasks db) (db_storage db).
Definition set_storage (db : DB) (w : W) : DB := mkDB (db_last_sequence db) (db_memtable_id_seq db) (db_next_file db) (db_lookup_index db)
  (db_slots db) (db_partitions db) (db_imms db) (db_num_imms db) (db_versions db) (db_order db) (db_tasks db) w.

(** [mid_table_mapping_[mid]]; the slots are constructed with the array. *)
Definition get_slot (db : DB) (mid : Z) : res AtomicMemTable :=
  if decide (0 <= mid < MAX_LIVE_MEMTABLES) then Ret (default AtomicMemTable_init (db_slots db !! mid)) else Abort.
Definition put_slot (db : DB) (mid : Z) (a : AtomicMemTable) : DB := set_slots db (<[mid := a]> (db_slots db)).

Definition get_partition (db : DB) (pid : Z) : res MemTablePartition :=
  match (if decide (0 <= pid) then db_partitions db !! Z.to_nat pid else None) with Some p => Ret p | None => Abort end.
Definition put_partition (db : DB) (pid : Z) (p : MemTablePartition) : DB :=
  set_partitions db (<[Z.to_nat pid := p]> (db_partitions db)) (db_imms db) (db_num_imms db).

Definition get_imm (db : DB) (imm_slot : Z) : res Z :=
  match (if decide (0 <= imm_slot) then db_imms db !! Z.to_nat imm_slot else None) with Some i => Ret i | None => Abort end.
Definition put_imm (db : DB) (imm_slot mid : Z) : DB :=
  set_partitions db (db_partitions db) (<[Z.to_nat imm_slot := mid]> (db_imms db)) (db_num_imms db).

(** ** Scheduling a flush *)

Definition set_scheduled (a : AtomicMemTable) : AtomicMemTable :=
  mkSlot (is_immutable_ a) (is_flushed_ a) (generation_id_ a) true (last_version_id_ a) (slot_memtable_id_ a)
    (l0_file_numbers_ a) (memtable_ a) (nentries_ a) (memtable_size_ a) (number_of_pending_writes_ a).

(** [ScheduleFlushMemTableTask(...)]: the queues of all flush threads are one. *)
Definition ScheduleFlushMemTableTask (db : DB) (memtable_id partition_id imm_slot : Z) : res DB :=
  a ← get_slot db memtable_id;
  safe ← IsSafeToFlush (use_ordered_flush options) (generation_num_memtables_ <$> db_partitions db) (db_order db)
           partition_id (generation_id_ a);
  if negb safe then Ret db
  else if is_scheduled_for_flushing a then Ret db
  else
    let db := put_slot db memtable_id (set_scheduled a) in
    match memtable_ a with
    | None => Abort
    | Some _ => Ret (set_tasks db (db_tasks db ++ [mkTask memtable_id partition_id imm_slot]))
    end.

(** ** [WriteStaticPartition]: finding the memtable for a write *)

(** Whether the bytes at level 0 reach the limit.  [Fail] while the current
    version is replaced before it is referenced: the loop reads it again. *)
Definition l0_full (vs : VersionSet) : res (VersionSet * bool) :=
  if decide (l0bytes_stop_writes_trigger options > 0) then
    '(vs, r) ← on_version vs (current_version_id_ vs) AtomicVersion_Ref;
    match r with
    | None => Fail
    | Some v =>
        o ← deref (vs_heap vs) v;
        '(vs, _) ← on_version vs v AtomicVersion_Unref;
        Ret (vs, bool_decide (l0_bytes_ (ob_version o) >= l0bytes_stop_writes_trigger options))
    end
  else Ret (vs, false).

(** What one pass of the loop ends with.  [Wait t] releases the partition and
    runs the loop again later, from the test of level 0 with table [t] when
    there is one. *)
Inductive Reserve := Reserved (mid : Z) (imm_slot : option Z) | Rejected | Wait (table : option Z).

(** The active memtable is full: it becomes immutable. *)
Definition rotate (db : DB) (pid : Z) (mid : Z) : res (DB * Z) :=
  p ← get_partition db pid;
  match available_slots p with
  | [] => Abort
  | imm_slot :: rest =>
      i ← get_imm db imm_slot;
      if decide (i = 0) then
        let db := put_imm db imm_slot mid in
        let p := mkPartition None (generation_num_memtables_ p) (imm_slots p) rest
                   (immutable_memtable_ids p ++ [mid]) (<[imm_slot := mid]> (slot_imm_id p)) in
        Ret (set_partitions db (<[Z.to_nat pid := p]> (db_partitions db)) (db_imms db) (db_num_imms db + 1), imm_slot)
      else Abort
  end.

(** A new active memtable. *)
Definition create_table (db : DB) (pid : Z) : res (DB * Z) :=
  let mid := db_memtable_id_seq db in
  let db := set_counters db (db_last_sequence db) (mid + 1) (db_next_file db) in
  m ← MemTable_init new_char mid true;
  if decide (mid < MAX_LIVE_MEMTABLES) then
    let generation_id := latest_generation_id (db_order db) in
    a ← get_slot db mid;
    let db := put_slot db mid (SetMemTable a generation_id m) in
    p ← get_partition db pid;
    Ret (put_partition db pid (mkPartition (Some mid) (AddMemTable (generation_num_memtables_ p) generation_id mid)
           (imm_slots p) (available_slots p) (immutable_memtable_ids p) (slot_imm_id p)), mid)
  else Abort.

(** The write is counted before it is added. *)
Definition take_table (db : DB) (mid : Z) (imm_slot : option Z) (key value : bytes) : res (DB * Reserve) :=
  a ← get_slot db mid;
  let a := mkSlot (is_immutable_ a) (is_flushed_ a) (generation_id_ a) (is_scheduled_for_flushing a) (last_version_id_ a)
             (slot_memtable_id_ a) (l0_file_numbers_ a) (memtable_ a) (nentries_ a)
             (w32 (memtable_size_ a + (size_of key + size_of value))) (w32 (number_of_pending_writes_ a + 1)) in
  Ret (put_slot db mid a, Reserved mid imm_slot).

(** The rest of a pass without an active memtable. *)
Definition reserve_new (db : DB) (pid : Z) (should_wait : bool) (imm_slot : option Z) (key value : bytes) : res (DB * Reserve) :=
  p ← get_partition db pid;
  if decide (available_slots p = []) then
    db ← match imm_slot with
         | Some s => mid ← get_imm db s; ScheduleFlushMemTableTask db mid pid s
         | None => Ret db
         end;
    Ret (db, if should_wait then Wait None else Rejected)
  else
    '(db, mid) ← create_table db pid;
    take_table db mid imm_slot key value.

Definition reserve (db : DB) (pid : Z) (should_wait : bool) (resumed : option Z) (key value : bytes) : res (DB * Reserve) :=
  p ← get_partition db pid;
  match (match resumed with Some t => Some t | None => active_memtable p end) with
  | None => reserve_new db pid should_wait None key value
  | Some mid =>
      '(vs, full) ← l0_full (db_versions db);
      let db := set_versions db vs in
      if (full : bool) then Ret (db, Wait (Some mid))
      else
        a ← get_slot db mid;
        if decide (memtable_size_ a <= write_buffer_size options) then take_table db mid None key value
        else if decide (resumed ≠ None) then Ret (db, Wait None)
        else if decide (number_of_pending_writes_ a > 0) then Ret (db, Wait None)
        else
          '(db, imm_slot) ← rotate db pid mid;
          reserve_new db pid should_wait (Some imm_slot) key value
  end.

(** ** The rest of a write *)

(** [table->Add(...)], with the counters of the slot. *)
Definition add_write (db : DB) (mid : Z) (seq : Z) (key value : bytes) : res DB :=
  a ← get_slot db mid;
  match memtable_ a with
  | None => Abort
  | Some m =>
      m ← MemTable_Add U new_char m seq kTypeValue key value;
      Ret (put_slot db mid (mkSlot (is_immutable_ a) (is_flushed_ a) (generation_id_ a) (is_scheduled_for_flushing a)
        (last_version_id_ a) (slot_memtable_id_ a) (l0_file_numbers_ a) (Some m) (nentries_ a + 1) (memtable_size_ a)
        (w32 (number_of_pending_writes_ a - 1))))
  end.

Definition index_write (db : DB) (hash mid : Z) : res DB := t ← Index_Insert (db_lookup_index db) hash mid; Ret (set_index db t).

Definition schedule_rotated (db : DB) (pid : Z) (imm_slot : option Z) : res DB :=
  match imm_slot with
  | None => Ret db
  | Some s => mid ← get_imm db s; ScheduleFlushMemTableTask db mid pid s
  end.

(** The partitions a write tries, and whether it waits there: [Put] with a
    random partition, or with the one of the subrange of the key. *)
Definition static_attempts (is_loading_db : bool) (num_memtable_partitions rand n : Z) : list (Z * bool) :=
  if is_loading_db then [(0, true)]
  else
    let partition_id := rand mod n in
    if decide (num_memtable_partitions > 1)
    then let next := (partition_id + 1) mod n in
         let after := ((next + 1) mod n + 1) mod n in [(partition_id, false); (next, false); (after, true)]
    else [((partition_id + 1) mod n, true)].
Definition subrange_attempts (subrange_id : Z) : list (Z * bool) := [(subrange_id, true)].

(** *** One write as a sequence of steps *)

Inductive PutPc :=
  | PutStart
  | PutLoop (resumed : option Z)
  | PutReserved (mid : Z) (imm_slot : option Z)
  | PutAdded (mid : Z) (imm_slot : option Z)
  | PutSchedule (imm_slot : option Z)
  | PutDone.

Record PutThread := mkPut {
  pt_key : bytes;
  pt_value : bytes;
  pt_hash : Z;
  pt_attempts : list (Z * bool);
  pt_seq : Z;
  pt_pc : PutPc
}.

Definition at_pc (t : PutThread) (pc : PutPc) : PutThread :=
  mkPut (pt_key t) (pt_value t) (pt_hash t) (pt_attempts t) (pt_seq t) pc.

(** The next step of a write: [fetch_add] on the sequence number; the loop of
    [WriteStaticPartition]; after the log record is written, [Add]; the lookup
    index; the schedule of the memtable it made immutable. *)
Definition put_step (db : DB) (t : PutThread) : res (DB * PutThread) :=
  match pt_pc t with
  | PutStart =>
      Ret (set_counters db (db_last_sequence db + 1) (db_memtable_id_seq db) (db_next_file db),
           mkPut (pt_key t) (pt_value t) (pt_hash t) (pt_attempts t) (db_last_sequence db) (PutLoop None))
  | PutLoop resumed =>
      match pt_attempts t with
      | [] => Abort
      | (pid, should_wait) :: rest =>
          '(db, r) ← reserve db pid should_wait resumed (pt_key t) (pt_value t);
          Ret (db, match r with
                   | Reserved mid imm_slot => at_pc t (PutReserved mid imm_slot)
                   | Wait table => at_pc t (PutLoop table)
                   | Rejected => mkPut (pt_key t) (pt_value t) (pt_hash t) rest (pt_seq t) (PutLoop None)
                   end)
      end
  | PutReserved mid imm_slot =>
      db ← add_write db mid (pt_seq t) (pt_key t) (pt_value t);
      Ret (db, at_pc t (PutAdded mid imm_slot))
  | PutAdded mid imm_slot =>
      db ← index_write db (pt_hash t) mid;
      Ret (db, at_pc t (PutSchedule imm_slot))
  | PutSchedule imm_slot =>
      db ← match pt_attempts t with [] => Abort | (pid, _) :: _ => schedule_rotated db pid imm_slot end;
      Ret (db, at_pc t PutDone)
  | PutDone => Fail
  end.

(** ** Flushes *)

(** One task of [CompactMemTableStaticPartition]. *)
Definition build_task (db : DB) (t : FlushTask) : res (DB * FileMetaData) :=
  a ← get_slot db (tk_memtable t);
  match memtable_ a with
  | None => Abort
  | Some m =>
      let meta := mkFile 0 (1 ≪ 30) [] (db_next_file db) 0 0 (db_last_sequence db) 0 [] [] NONE [] StoCBlockHandle_init in
      let db := set_counters db (db_last_sequence db) (db_memtable_id_seq db) (db_next_file db + 1) in
      '(w, meta) ← ts_build (db_storage db) m meta;
      if decide (tk_memtable t = 0) then Abort else Ret (set_storage db w, meta)
  end.

Definition flush_edit (built : list built_table) : VersionEdit :=
  foldl (λ e (b : built_table), AddFile e 0 [tk_memtable b.1] (number b.2) (file_size b.2) (converted_file_size b.2)
           (flush_timestamp b.2) (smallest b.2) (largest b.2) (block_replica_handles b.2) (parity_block_handle b.2))
    VersionEdit_init built.

(** [SetFlushed] of one memtable. *)
Definition flush_slot (db : DB) (vid : Z) (b : built_table) : res DB :=
  a ← get_slot db (tk_memtable b.1);
  a ← SetFlushed (make_immutable a) [number b.2] vid;
  Ret (put_slot db (tk_memtable b.1) a).

(** [LogAndApply(edit, v)] for a version with the next id. *)
Definition install (db : DB) (edit : VersionEdit) (vid : Z) : res DB :=
  let vs := db_versions db in
  match current_ vs with
  | None => Abort
  | Some c =>
      o ← deref (vs_heap vs) c;
      v ← LogAndApply_version U (ob_version o) edit vid;
      let '(vs, id) := new_Version vs v in
      vs ← AppendVersion vs id;
      Ret (set_versions db vs)
  end.

(** The slots of the flushed memtables of a partition become available; the
    result names the log files to close. *)
Fixpoint free_slots (db : DB) (pid : Z) (tasks : list FlushTask) : res DB :=
  match tasks with
  | [] => Ret db
  | t :: tasks =>
      p ← get_partition db pid;
      immid ← get_imm db (tk_imm_slot t);
      if decide (immid = 0) then Abort
      else
        a ← get_slot db immid;
        gens ← RemoveMemTable (generation_num_memtables_ p) (generation_id_ a) immid;
        let db := put_imm db (tk_imm_slot t) 0 in
        let available := available_slots p ++ [tk_imm_slot t] in
        if decide (length available <= length (imm_slots p) ∧ is_Some (slot_imm_id p !! tk_imm_slot t))%nat then
          free_slots (put_partition db pid (mkPartition (active_memtable p) gens (imm_slots p) available
            (immutable_memtable_ids p) (delete (tk_imm_slot t) (slot_imm_id p)))) pid tasks
        else Abort
  end.

Definition cleanup (db : DB) (pid : Z) (tasks : list FlushTask) : res (DB * list Z) :=
  db ← free_slots db pid tasks;
  p ← get_partition db pid;
  let closed := immutable_memtable_ids p in
  let p := mkPartition (active_memtable p) (generation_num_memtables_ p) (imm_slots p) (available_slots p) [] (slot_imm_id p) in
  Ret (set_partitions db (<[Z.to_nat pid := p]> (db_partitions db)) (db_imms db) (db_num_imms db - size_of tasks), closed).

(** *** One flush as a sequence of steps *)

Inductive FlushPc :=
  | FlushBuild (todo : list FlushTask) (built : list built_table)
  | FlushSet (vid : Z) (todo built : list built_table)
  | FlushApply (vid : Z) (built : list built_table)
  | FlushCleanup (todo : list FlushTask)
  | FlushDone.

(** The next step of the memtable tasks of [PerformCompaction], with [mutex_]:
    the tables are built one by one; then, under the mutex, a version id is
    taken and every memtable is marked as flushed before the new version
    becomes the current one; then each partition is cleaned up. *)
Definition flush_step (db : DB) (mutex : bool) (pc : FlushPc) : res (DB * bool * FlushPc) :=
  match pc with
  | FlushBuild (t :: todo) built =>
      '(db, meta) ← build_task db t;
      Ret (db, mutex, FlushBuild todo (built ++ [(t, meta)]))
  | FlushBuild [] built =>
      if mutex then Fail else Ret (db, true, FlushSet (version_id_seq_ (db_versions db)) built built)
  | FlushSet vid (b :: todo) built =>
      db ← flush_slot db vid b;
      Ret (db, mutex, FlushSet vid todo built)
  | FlushSet vid [] built => Ret (db, mutex, FlushApply vid built)
  | FlushApply vid built =>
      db ← install db (flush_edit built) vid;
      Ret (db, false, FlushCleanup (fst <$> built))
  | FlushCleanup [] => Ret (db, mutex, FlushDone)
  | FlushCleanup (t :: todo) =>
      let pid := tk_partition_id t in
      '(db, _) ← cleanup db pid (filter (λ t', tk_partition_id t' = pid) (t :: todo));
      Ret (db, mutex, FlushCleanup (filter (λ t', tk_partition_id t' ≠ pid) (t :: todo)))
  | FlushDone => Fail
  end.

(** ** [GetWithLookupIndex] *)

Inductive GetPc :=
  | GetStart
  | GetIndexed (mid : Z)
  | GetMemTable (mid : Z)
  | GetRelease (mid : Z) (r : GetResult)
  | GetLoop (mid : Z)
  | GetVersion (mid vid : Z)
  | GetHeld (mid vid : Z)
  | GetFiles (mid vid : Z) (l0fns : list Z)
  | GetUnref (vid : Z) (s : ReadStatus) (value : bytes)
  | GetDone (s : ReadStatus) (value : bytes).

(** The files of the memtable, then the sorted levels. *)
Definition read_version (db : DB) (v : Version) (key : bytes) (l0fns : list Z) : res (ReadStatus * bytes) :=
  let lkey := LookupKey_make key kMaxSequenceNumber in
  '(s, value) ← (if decide (l0fns = []) then Ret (Read_NotFound, [])
                 else '(s, st) ← Version_Get_fns U (ts_get (db_storage db)) v l0fns lkey 0 [] 0; Ret (s, fs_val st));
  match s with
  | Read_IOError => Abort
  | Read_NotFound =>
      '(s, st) ← Version_Get U (ts_get (db_storage db)) (use_ordered_flush options) v lkey 0 value kL1AndAbove 0;
      Ret (s, sv_value (gs_saver st))
  | _ => Ret (s, value)
  end.

Definition get_step (db : DB) (key : bytes) (hash : Z) (pc : GetPc) : res (DB * GetPc) :=
  match pc with
  | GetStart => mid ← Index_Lookup (db_lookup_index db) hash; Ret (db, GetIndexed mid)
  | GetIndexed mid =>
      if decide (mid = 0) then Ret (db, GetLoop mid)
      else
        a ← get_slot db mid;
        let '(a, found) := RefMemTable a in
        Ret (put_slot db mid a, if (found : bool) then GetMemTable mid else GetLoop mid)
  | GetMemTable mid =>
      a ← get_slot db mid;
      match memtable_ a with
      | None => Abort
      | Some m =>
          if decide (memtable_id_ m = mid) then
            r ← MemTable_Get U (cfgs_size options) m (LookupKey_make key kMaxSequenceNumber);
            Ret (db, GetRelease mid r)
          else Abort
      end
  | GetRelease mid r =>
      a ← get_slot db mid;
      a ← AtomicMemTable_Unref a 1;
      Ret (put_slot db mid a, match r with
                              | Value v => GetDone Read_OK v
                              | Deleted => GetDone Read_OK []
                              | NotPresent => GetDone Read_NotFound []
                              end)
  | GetLoop mid => Ret (db, GetVersion mid (current_version_id_ (db_versions db)))
  | GetVersion mid vid =>
      '(vs, r) ← on_version (db_versions db) vid AtomicVersion_Ref;
      Ret (set_versions db vs, match r with Some v => GetHeld mid v | None => GetLoop mid end)
  | GetHeld mid vid =>
      a ← get_slot db mid;
      if decide (vid >= last_version_id_ a) then Ret (db, GetFiles mid vid (l0_file_numbers_ a))
      else
        '(vs, _) ← on_version (db_versions db) vid AtomicVersion_Unref;
        Ret (set_versions db vs, GetLoop mid)
  | GetFiles mid vid l0fns =>
      o ← deref (vs_heap (db_versions db)) vid;
      '(s, value) ← read_version db (ob_version o) key l0fns;
      Ret (db, GetUnref vid s value)
  | GetUnref vid s value =>
      '(vs, _) ← on_version (db_versions db) vid AtomicVersion_Unref;
      Ret (set_versions db vs, GetDone s value)
  | GetDone _ _ => Fail
  end.
End db.

(** ** Opening a database *)

Section open.
Context {W : Type} (new_char : list (Z * Z) → Z → Z).

(** The loop of [DB::Open] over the partitions, from slot [slot_id] on. *)
Fixpoint open_partitions (n : nat) (nslots remainder slot_id : Z) (db : DB W) : res (DB W) :=
  match n with
  | O => Ret db
  | S n =>
      let mid := db_memtable_id_seq db in
      m ← MemTable_init new_char mid true;
      if decide (mid < MAX_LIVE_MEMTABLES) then
        a ← get_slot db mid;
        let slots := if decide (remainder > 0) then nslots + 1 else nslots in
        let ids := (λ j, slot_id + Z.of_nat j) <$> seq 0 (Z.to_nat slots) in
        let p := mkPartition (Some mid) (AddMemTable ∅ INIT_GEN_ID mid) ids ids [] ∅ in
        open_partitions n nslots (if decide (remainder > 0) then remainder - 1 else remainder) (slot_id + slots)
          (mkDB (db_last_sequence db) (mid + 1) (db_next_file db) (db_lookup_index db)
             (<[mid := SetMemTable a INIT_GEN_ID m]> (db_slots db)) (db_partitions db ++ [p]) (db_imms db) (db_num_imms db)
             (db_versions db) (db_order db) (db_tasks db) (db_storage db))
      else Abort
  end.

(** [DB::Open] for static partitions, over the versions and the counters that
    were recovered or are new. *)
Definition DB_Open (num_memtables num_partitions index_size last_sequence next_file : Z) (vs : VersionSet) (w : W) : res (DB W) :=
  if decide (num_partitions = 0) then Abort
  else
    open_partitions (Z.to_nat num_partitions) (num_memtables / num_partitions) (num_memtables mod num_partitions) 0
      (mkDB last_sequence 100 next_file (LookupIndex_make index_size) ∅ [] (replicate (Z.to_nat num_memtables) 0) 0 vs
         FlushOrder_init [] w).
End open.

(** ** The threads of a database *)

(** What a table is read by does not include its reference count. *)
Definition same_table (f g : FileMetaData) : Prop :=
  number f = number g ∧ smallest f = smallest g ∧ largest f = largest g
  ∧ converted_file_size f = converted_file_size g ∧ block_replica_handles f = block_replica_handles g
  ∧ parity_block_handle f = parity_block_handle g.

(** A table with the newest writes of a memtable: all of them, or, pruned, the
    newest of each key. *)
Definition flushed_writes (U : Comparator) (ws : list write) (l : list kv) : Prop :=
  (∀ u w, newest U u kMaxSequenceNumber ws w → first_visible U l u kMaxSequenceNumber = Some (write_ikey w, wr_value w))
  ∧ ∀ e, e ∈ l → ∃ w, w ∈ ws ∧ e = (write_ikey w, wr_value w).

(** What the storage promises: stored tables stay readable, and a built table
    is stored. *)
Class TableStorageOk (U : Comparator) (W : Type) `{TS : TableStorage W} := {
  stored : W → FileMetaData → list kv → Prop;
  tso_reads w : TableReads U (ts_get w) (stored w);
  tso_same w f g l : same_table f g → stored w f l → stored w g l;
  tso_build w m ws meta w' meta' :
    holds U m ws → NoDup (wr_seq <$> ws) → ws ≠ [] → ts_build w m meta = Ret (w', meta') →
    number meta' = number meta
    ∧ (∃ l, holds_table U (stored w') meta' l ∧ flushed_writes U ws l)
    ∧ ∀ f l, stored w f l → stored w' f l
}.

(** A lookup, with the answers that it may give: the value of the last write
    that completed before it started and those of the writes concurrent with it. *)
Record GetThread := mkGetThread { gt_key : bytes; gt_pc : GetPc; gt_answers : list (option bytes) }.

(** The database and its threads.  [s_done] has the last completed write of
    each key with its memtable, [s_contents] the writes added to each memtable;
    the program does not use them. *)
Record State (W : Type) := mkState {
  s_db : DB W;
  s_puts : list PutThread;
  s_gets : list GetThread;
  s_flushes : list FlushPc;
  s_mutex : bool;
  s_done : gmap bytes (write * Z);
  s_contents : gmap Z (list write)
}.
Arguments mkState {W}. Arguments s_db {W}. Arguments s_puts {W}. Arguments s_gets {W}. Arguments s_flushes {W}.
Arguments s_mutex {W}. Arguments s_done {W}. Arguments s_contents {W}.

Definition thread_write (t : PutThread) : write := mkWrite (pt_seq t) kTypeValue (pt_key t) (pt_value t).

(** The write is not in the lookup index yet. *)
Definition put_active (t : PutThread) : bool :=
  match pt_pc t with PutSchedule _ | PutDone => false | _ => true end.

Definition contents_of (c : gmap Z (list write)) (mid : Z) : list write := default [] (c !! mid).

(** The effect of a step of a write on the history. *)
Definition add_contents (c : gmap Z (list write)) (t : PutThread) : gmap Z (list write) :=
  match pt_pc t with PutReserved mid _ => <[mid := thread_write t :: contents_of c mid]> c | _ => c end.
Definition add_done (d : gmap bytes (write * Z)) (t : PutThread) : gmap bytes (write * Z) :=
  match pt_pc t with PutAdded mid _ => <[pt_key t := (thread_write t, mid)]> d | _ => d end.

Definition more_answer (key value : bytes) (g : GetThread) : GetThread :=
  if decide (gt_key g = key) then mkGetThread (gt_key g) (gt_pc g) (Some value :: gt_answers g) else g.

Section system.
Context {W : Type} {TS : TableStorage W} (U : Comparator) (new_char : list (Z * Z) → Z → Z) (options : DBOptions).

(** The keys of the workload and their hashes, and what the sorted levels
    held for each key at the start. *)
Context (key_ok : bytes → Prop) (hash : bytes → Z) (base : bytes → option bytes).

(** The value of a key, as of the completed writes. *)
Definition current_value (d : gmap bytes (write * Z)) (key : bytes) : option bytes :=
  match d !! key with Some (w, _) => Some (wr_value w) | None => base key end.

Inductive db_step : State W → State W → Prop :=
  | step_put_begin S key value attempts :
      key_ok key → size_of key + 8 < 2 ^ 32 → size_of value < 2 ^ 32 → size_of (s_puts S) < 2 ^ 31 →
      Forall (λ t, put_active t = true → pt_key t ≠ key) (s_puts S) →
      db_step S (mkState (s_db S) (s_puts S ++ [mkPut key value (hash key) attempts 0 PutStart])
        (more_answer key value <$> s_gets S) (s_flushes S) (s_mutex S) (s_done S) (s_contents S))
  | step_put S i t db t' :
      s_puts S !! i = Some t → db_last_sequence (s_db S) < kMaxSequenceNumber →
      put_step U new_char options (s_db S) t = Ret (db, t') →
      db_step S (mkState db (<[i := t']> (s_puts S)) (s_gets S) (s_flushes S) (s_mutex S)
        (add_done (s_done S) t) (add_contents (s_contents S) t))
  | step_get_begin S key :
      key_ok key → size_of key + 8 < 2 ^ 32 → size_of (s_gets S) < 2 ^ 30 →
      db_step S (mkState (s_db S) (s_puts S)
        (s_gets S ++ [mkGetThread key GetStart (current_value (s_done S) key
           :: ((λ t, Some (pt_value t)) <$> filter (λ t, put_active t = true ∧ pt_key t = key) (s_puts S)))])
        (s_flushes S) (s_mutex S) (s_done S) (s_contents S))
  | step_get S i g db pc :
      s_gets S !! i = Some g → get_step U options (s_db S) (gt_key g) (hash (gt_key g)) (gt_pc g) = Ret (db, pc) →
      db_step S (mkState db (s_puts S) (<[i := mkGetThread (gt_key g) pc (gt_answers g)]> (s_gets S))
        (s_flushes S) (s_mutex S) (s_done S) (s_contents S))
  | step_flush_begin S batch rest :
      db_tasks (s_db S) ≡ₚ batch ++ rest →
      db_step S (mkState (set_tasks (s_db S) rest) (s_puts S) (s_gets S) (s_flushes S ++ [FlushBuild batch []])
        (s_mutex S) (s_done S) (s_contents S))
  | step_flush S i pc db mutex pc' :
      s_flushes S !! i = Some pc → flush_step U (s_db S) (s_mutex S) pc = Ret (db, mutex, pc') →
      db_step S (mkState db (s_puts S) (s_gets S) (<[i := pc']> (s_flushes S)) mutex (s_done S) (s_contents S)).
End system.
