(* ===== verification/DatabaseInv.v ===== *)
(** * DatabaseInv: lookups are regular

    The invariant of the threads of [Database]: where the last write of every
    key is found, while memtables fill up, are made immutable and are flushed,
    and versions replace each other.  It follows that a lookup answers with the
    value of the last write that completed before it started, or of a write that
    is concurrent with it, and that no step of a lookup fails. *)

From S2P Require Import Prelude Coding SkipList Arena Comparator Cursor NovaCommon DbFormat Merger MemTable AtomicMemTable FlushOrder LookupIndex FileMeta VersionEdit FileSearch VersionBuilder VersionSet Compaction VersionGet Database.

(** ** The invariant *)

Section inv.
Context {W : Type} {TS : TableStorage W} (U : Comparator) {OU : ComparatorOrder U} {TSO : TableStorageOk U W}.
Context (new_char : list (Z * Z) → Z → Z) (options : DBOptions).
Context (key_ok : bytes → Prop) (hash : bytes → Z) (index_size : Z) (lss : list (list (list kv))).

(** Keys are spelled in one way and do not share entries of the index. *)
Hypothesis key_spelling : ∀ k k', key_ok k → key_ok k' → U.(Compare) k k' = 0 → k = k'.
Hypothesis key_apart : ∀ k k', key_ok k → key_ok k' → hash k mod index_size = hash k' mod index_size → k = k'.
Hypothesis buffer_size : 0 <= write_buffer_size options.
Hypothesis new_char_ok : new_ok new_char.

Definition base_value (key : bytes) : option bytes :=
  let reads := level_reads U key kMaxSequenceNumber lss in
  if use_ordered_flush options then first_answer reads else last_answer reads.

Implicit Types S : State W.

(** Projections of the state. *)
Local Abbreviation slots S := (db_slots (s_db S)).
Local Abbreviation parts S := (db_partitions (s_db S)).
Local Abbreviation vset S := (db_versions (s_db S)).
Local Abbreviation store S := (db_storage (s_db S)).
Definition cont S (mid : Z) : list write := contents_of (s_contents S) mid.

Definition active S (mid : Z) : Prop := ∃ pid p, parts S !! pid = Some p ∧ active_memtable p = Some mid.

Definition is_reserved (mid : Z) (t : PutThread) : bool :=
  match pt_pc t with PutReserved mid' _ => bool_decide (mid' = mid) | _ => false end.
Definition is_holder (mid : Z) (g : GetThread) : bool :=
  match gt_pc g with GetMemTable mid' | GetRelease mid' _ => bool_decide (mid' = mid) | _ => false end.
Definition reserved_count S mid : Z := size_of (filter (λ t, is_reserved mid t = true) (s_puts S)).
Definition holder_count S mid : Z := size_of (filter (λ g, is_holder mid g = true) (s_gets S)).

Definition get_holds (g : GetThread) : option Z :=
  match gt_pc g with GetHeld _ v | GetFiles _ v _ | GetUnref v _ _ => Some v | _ => None end.
Definition held_versions S : list Z := omap get_holds (s_gets S).

(** Memtables with a flush task that are not marked as flushed yet. *)
Definition pc_mids (pc : FlushPc) : list Z :=
  match pc with
  | FlushBuild todo built => (tk_memtable <$> todo) ++ ((λ b : built_table, tk_memtable b.1) <$> built)
  | FlushSet _ todo _ => (λ b : built_table, tk_memtable b.1) <$> todo
  | _ => []
  end.
Definition flush_mids S : list Z := (tk_memtable <$> db_tasks (s_db S)) ++ concat (pc_mids <$> s_flushes S).

(** The tables a flush has built. *)
Definition pc_built (pc : FlushPc) : list built_table :=
  match pc with FlushBuild _ built | FlushSet _ _ built | FlushApply _ built => built | _ => [] end.
Definition pc_version (pc : FlushPc) : option Z :=
  match pc with FlushSet vid _ _ | FlushApply vid _ => Some vid | _ => None end.

Record slots_inv S : Prop := {
  si_range mid a : slots S !! mid = Some a → 0 < mid < db_memtable_id_seq (s_db S);
  si_bound : 0 < db_memtable_id_seq (s_db S);
  si_max mid a : slots S !! mid = Some a → mid < MAX_LIVE_MEMTABLES;
  si_slot mid a : slots S !! mid = Some a → slot_ok (mkSlotSys a (holder_count S mid));
  si_mem mid a m : slots S !! mid = Some a → memtable_ a = Some m →
    holds U m (cont S mid) ∧ is_ready_ m = true ∧ memtable_id_ m = mid;
  si_pending mid a : slots S !! mid = Some a → number_of_pending_writes_ a = reserved_count S mid;
  si_empty mid a : slots S !! mid = Some a → cont S mid = [] → reserved_count S mid = 0 → memtable_size_ a = 0;
  si_writes mid w : w ∈ cont S mid → write_ok w ∧ key_ok (wr_key w) ∧ wr_type w = kTypeValue ∧ wr_seq w < db_last_sequence (s_db S);
  si_nodup mid : NoDup (wr_seq <$> cont S mid);
  si_dom mid : slots S !! mid = None → cont S mid = [];
  si_holder mid : slots S !! mid = None → holder_count S mid = 0;
  si_reserved mid : slots S !! mid = None → reserved_count S mid = 0;
  si_flushed mid a : slots S !! mid = Some a → is_flushed_ a = true → is_scheduled_for_flushing a = true
}.

Record parts_inv S : Prop := {
  pa_active mid : active S mid → ∃ a, slots S !! mid = Some a ∧ is_scheduled_for_flushing a = false;
  pa_distinct i j p q mid : parts S !! i = Some p → parts S !! j = Some q →
    active_memtable p = Some mid → active_memtable q = Some mid → i = j;
  pa_imms s mid : db_imms (s_db S) !! s = Some mid → mid ≠ 0 → is_Some (slots S !! mid) ∧ ¬ active S mid;
  pa_full mid a : slots S !! mid = Some a → ¬ active S mid → memtable_size_ a > write_buffer_size options ∧ reserved_count S mid = 0;
  pa_tasks : NoDup (flush_mids S);
  pa_scheduled mid : mid ∈ flush_mids S → ∃ a, slots S !! mid = Some a ∧ is_scheduled_for_flushing a = true ∧ is_flushed_ a = false
}.

(** A version has the table of a flushed memtable. *)
Definition has_table S (o : VersionObj) (n : Z) (l : list kv) : Prop :=
  ∃ f, fn_files_ (ob_version o) !! n = Some f ∧ number f = n ∧ holds_table U (stored (store S)) f l.

(** A table built for a memtable is about to be installed in version [vid]. *)
Definition installing S (vid mid n : Z) (l : list kv) : Prop :=
  ∃ i pc b, s_flushes S !! i = Some pc ∧ pc_version pc = Some vid ∧ b ∈ pc_built pc ∧ tk_memtable b.1 = mid ∧ number b.2 = n
    ∧ holds_table U (stored (store S)) b.2 l.

Definition flushed_ok S (mid : Z) (a : AtomicMemTable) : Prop :=
  ∃ n l, l0_file_numbers_ a = [n] ∧ flushed_writes U (cont S mid) l
    ∧ (∀ id o, vs_heap (vset S) !! id = Some o → last_version_id_ a <= id → has_table S o n l)
    ∧ ((∃ c, current_ (vset S) = Some c ∧ last_version_id_ a <= c) ∨ installing S (last_version_id_ a) mid n l).

(** The tables of a flush. *)
Definition flush_ok S (pc : FlushPc) : Prop :=
  NoDup ((λ b : built_table, number b.2) <$> pc_built pc)
  ∧ ∀ b, b ∈ pc_built pc → number b.2 < db_next_file (s_db S)
      ∧ ∃ l, holds_table U (stored (store S)) b.2 l ∧ flushed_writes U (cont S (tk_memtable b.1)) l
        ∧ ∃ a, slots S !! tk_memtable b.1 = Some a ∧ is_scheduled_for_flushing a = true.

Record flush_inv S : Prop := {
  fi_flushed mid a : slots S !! mid = Some a → is_flushed_ a = true → flushed_ok S mid a;
  fi_fresh mid a : slots S !! mid = Some a → is_flushed_ a = false → last_version_id_ a = 0;
  fi_built i pc : s_flushes S !! i = Some pc → flush_ok S pc;
  fi_mutex i j pc pc' : s_flushes S !! i = Some pc → s_flushes S !! j = Some pc' →
    is_Some (pc_version pc) → is_Some (pc_version pc') → i = j;
  fi_locked i pc vid : s_flushes S !! i = Some pc → pc_version pc = Some vid →
    s_mutex S = true ∧ vid = version_id_seq_ (vset S);
  fi_set i vid todo built : s_flushes S !! i = Some (FlushSet vid todo built) → ∀ b, b ∈ todo → b ∈ built
}.

(** The current version can be referenced. *)
Definition ready (vs : VersionSet) : Prop :=
  ∃ a, versions_ vs !! Z.to_nat (current_version_id_ vs) = Some a ∧ is_compacting a = false.

Record versions_inv S : Prop := {
  vi_sys : sys_ok (mkSys (vset S) (held_versions S));
  vi_gets : size_of (s_gets S) <= 2 ^ 30;
  vi_current : current_ (vset S) = Some (current_version_id_ (vset S));
  vi_version id o : vs_heap (vset S) !! id = Some o →
    version_ok U (ob_version o) ∧ files_ (ob_version o) ≠ []
    ∧ ∀ key, key_ok key → Forall2 (level_ok U (stored (store S)) key) (tail (files_ (ob_version o))) lss;
  vi_ready : ready (vset S)
}.

(** A write that has its sequence number and is not added yet. *)
Definition put_waiting (t : PutThread) : bool :=
  match pt_pc t with PutLoop _ | PutReserved _ _ => true | _ => false end.

Record puts_inv S : Prop := {
  pi_last : 0 <= db_last_sequence (s_db S);
  pi_thread i t : s_puts S !! i = Some t →
    key_ok (pt_key t) ∧ size_of (pt_key t) + 8 < 2 ^ 32 ∧ size_of (pt_value t) < 2 ^ 32 ∧ pt_hash t = hash (pt_key t);
  pi_waiting i t : s_puts S !! i = Some t → put_waiting t = true →
    0 <= pt_seq t < db_last_sequence (s_db S)
    ∧ ∀ mid w, w ∈ cont S mid → wr_seq w ≠ pt_seq t ∧ (wr_key w = pt_key t → wr_seq w < pt_seq t);
  pi_distinct i j t t' : s_puts S !! i = Some t → s_puts S !! j = Some t' →
    put_waiting t = true → put_waiting t' = true → i ≠ j → pt_seq t ≠ pt_seq t';
  pi_keys i j t t' : s_puts S !! i = Some t → s_puts S !! j = Some t' →
    put_active t = true → put_active t' = true → pt_key t = pt_key t' → i = j;
  pi_reserved i t mid imm : s_puts S !! i = Some t → pt_pc t = PutReserved mid imm →
    ∃ pid b rest p, pt_attempts t = (pid, b) :: rest ∧ parts S !! Z.to_nat pid = Some p ∧ active_memtable p = Some mid;
  pi_resumed i t mid : s_puts S !! i = Some t → pt_pc t = PutLoop (Some mid) →
    is_Some (slots S !! mid) ∧ ∃ pid b rest, pt_attempts t = (pid, b) :: rest
      ∧ ((∃ p, parts S !! Z.to_nat pid = Some p ∧ active_memtable p = Some mid) ∨ ¬ active S mid);
  pi_added i t mid imm : s_puts S !! i = Some t → pt_pc t = PutAdded mid imm →
    thread_write t ∈ cont S mid ∧ ∀ mid' w, w ∈ cont S mid' → wr_key w = pt_key t → wr_seq w <= pt_seq t;
  pi_small : size_of (s_puts S) <= 2 ^ 31
}.

Record index_inv S : Prop := {
  ix_size : size_of (db_lookup_index (s_db S)) = index_size;
  ix_done key : key_ok key →
    Index_Lookup (db_lookup_index (s_db S)) (hash key) = Ret (match s_done S !! key with Some (_, mid) => mid | None => 0 end);
  ix_write key w mid : s_done S !! key = Some (w, mid) →
    w ∈ cont S mid ∧ wr_key w = key
    ∧ ∀ w', w' ∈ cont S mid → wr_key w' = key → wr_seq w' <= wr_seq w
        ∨ ∃ i t imm, s_puts S !! i = Some t ∧ pt_pc t = PutAdded mid imm ∧ pt_key t = key ∧ w' = thread_write t
}.

(** A memtable through which a lookup finds an answer. *)
Definition mid_ok S (key : bytes) (answers : list (option bytes)) (mid : Z) : Prop :=
  (mid = 0 ∧ base_value key ∈ answers)
  ∨ is_Some (slots S !! mid) ∧ ∃ w, newest U key kMaxSequenceNumber (cont S mid) w ∧ Some (wr_value w) ∈ answers.

Definition gone S (mid : Z) : Prop := mid = 0 ∨ ∃ a, slots S !! mid = Some a ∧ is_flushed_ a = true.

Definition files_ok S (key : bytes) (answers : list (option bytes)) (vid : Z) (l0fns : list Z) : Prop :=
  (l0fns = [] ∧ base_value key ∈ answers)
  ∨ ∃ n l w, l0fns = [n] ∧ (∀ o, vs_heap (vset S) !! vid = Some o → has_table S o n l)
      ∧ first_visible U l key kMaxSequenceNumber = Some (write_ikey w, wr_value w) ∧ wr_type w = kTypeValue ∧ write_ok w
      ∧ one_spelling U key l ∧ Some (wr_value w) ∈ answers.

Definition result_ok (answers : list (option bytes)) (s : ReadStatus) (value : bytes) : Prop :=
  ∃ r, r ∈ answers ∧ s = match r with Some _ => Read_OK | None => Read_NotFound end ∧ ∀ v, r = Some v → value = v.

Definition pc_ok S (g : GetThread) : Prop :=
  let key := gt_key g in let A := gt_answers g in
  match gt_pc g with
  | GetStart => True
  | GetIndexed mid => mid_ok S key A mid
  | GetMemTable mid => mid ≠ 0 ∧ mid_ok S key A mid
  | GetRelease mid r => is_Some (slots S !! mid) ∧ ∃ v, r = Value v ∧ Some v ∈ A
  | GetLoop mid | GetHeld mid _ => mid_ok S key A mid ∧ gone S mid
  | GetVersion mid vid => mid_ok S key A mid ∧ gone S mid ∧ 0 <= vid < size_of (versions_ (vset S))
  | GetFiles mid vid l0fns => files_ok S key A vid l0fns
  | GetUnref _ s v | GetDone s v => result_ok A s v
  end.

Record gets_inv S : Prop := {
  gi_key i g : s_gets S !! i = Some g → key_ok (gt_key g) ∧ size_of (gt_key g) + 8 < 2 ^ 32;
  gi_current i g : s_gets S !! i = Some g → current_value base_value (s_done S) (gt_key g) ∈ gt_answers g;
  gi_puts i g j t : s_gets S !! i = Some g → s_puts S !! j = Some t → put_active t = true → pt_key t = gt_key g →
    Some (pt_value t) ∈ gt_answers g;
  gi_pc i g : s_gets S !! i = Some g → pc_ok S g
}.

Record db_inv S : Prop := {
  di_slots : slots_inv S;
  di_parts : parts_inv S;
  di_flush : flush_inv S;
  di_versions : versions_inv S;
  di_puts : puts_inv S;
  di_index : index_inv S;
  di_gets : gets_inv S
}.

(** ** Lists of threads *)

Lemma count_insert {A} (P : A → bool) (l : list A) i x y :
  l !! i = Some x →
  size_of (filter (λ t, P t = true) (<[i := y]> l)) =
    size_of (filter (λ t, P t = true) l) - (if P x then 1 else 0) + (if P y then 1 else 0).
Proof.
  intros Hi. pose proof (lookup_lt_Some _ _ _ Hi). rewrite insert_take_drop by done.
  assert (filter (λ t, P t = true) l = filter (λ t, P t = true) (take i l ++ x :: drop (S i) l)) as -> by (by rewrite (take_drop_middle l i x Hi)).
  rewrite !filter_app, !filter_cons, !length_app. destruct (P x) eqn:Ex, (P y) eqn:Ey; repeat case_decide; try congruence; cbn [length]; lia.
Qed.

Lemma omap_insert_perm {A B} (f : A → option B) (l : list A) i x y :
  l !! i = Some x → ∃ rest, omap f l ≡ₚ option_list (f x) ++ rest ∧ omap f (<[i := y]> l) ≡ₚ option_list (f y) ++ rest.
Proof.
  intros Hi. exists (omap f (take i l ++ drop (S i) l)). rewrite insert_take_drop by by eapply lookup_lt_Some.
  assert (omap f l = omap f (take i l ++ x :: drop (S i) l)) as -> by (by rewrite (take_drop_middle l i x Hi)). rewrite !omap_app. cbn [omap list_omap]. split; [destruct (f x)|destruct (f y)]; cbn [option_list app]; try done; by rewrite <- Permutation_middle.
Qed.

Lemma count_pos {A} (P : A → bool) (l : list A) i x : l !! i = Some x → P x = true → 1 <= size_of (filter (λ t, P t = true) l).
Proof.
  intros Hi Hp. assert (x ∈ filter (λ t, P t = true) l) as Hx by (apply list_elem_of_filter; split; [done|by eapply list_elem_of_lookup_2]).
  destruct (filter _ l); [by apply not_elem_of_nil in Hx|]. cbn [length]. lia.
Qed.

Lemma sys_ok_perm vs h h' : h ≡ₚ h' → sys_ok (mkSys vs h) → sys_ok (mkSys vs h').
Proof.
  intros Hp H. assert (∀ id, held_refs h id = held_refs h' id) as Hr by (intros id; unfold held_refs; by rewrite Hp).
  assert (∀ c id, ref_count h c id = ref_count h' c id) as Hrc by (intros c id; unfold ref_count; by rewrite Hr).
  destruct H as [H1 H2 H3 H4 H5 H6 H7 H8 H9 H10]; cbn [sys held] in *.
  split; cbn [sys held]; try done; [intros id o a Ho Ha; rewrite <- Hrc; by apply H4|by rewrite <- Hp|by rewrite <- Hp].
Qed.

(** ** Transitions that change references only *)

(** Two states of a slot between which only its references, or the memtable
    with the last one, changed. *)
Definition slot_like (a a' : AtomicMemTable) : Prop :=
  is_flushed_ a' = is_flushed_ a ∧ is_scheduled_for_flushing a' = is_scheduled_for_flushing a
  ∧ last_version_id_ a' = last_version_id_ a ∧ l0_file_numbers_ a' = l0_file_numbers_ a
  ∧ memtable_size_ a' = memtable_size_ a ∧ number_of_pending_writes_ a' = number_of_pending_writes_ a
  ∧ ∀ m', memtable_ a' = Some m' → ∃ m, memtable_ a = Some m ∧ table_ m' = table_ m ∧ arena_ m' = arena_ m
      ∧ is_ready_ m' = is_ready_ m ∧ memtable_id_ m' = memtable_id_ m.

Lemma slot_like_refl a : slot_like a a.
Proof. unfold slot_like. split_and!; try done. intros m ->. by exists m. Qed.

Lemma Unref_slot_like a n a' : AtomicMemTable_Unref a n = Ret a' → slot_like a a'.
Proof.
  unfold AtomicMemTable_Unref, MemTable_Unref. destruct (memtable_ a) as [m|] eqn:Em; [|done]. case_decide; [|done]. cbn [mbind res_bind].
  assert (∀ o, (∀ m', o = Some m' → table_ m' = table_ m ∧ arena_ m' = arena_ m ∧ is_ready_ m' = is_ready_ m ∧ memtable_id_ m' = memtable_id_ m) → slot_like a (with_memtable a o)) as Hl.
  { intros o Ho. split_and!; try done. cbn. intros m' Hm'. exists m. split; [done|]. by apply Ho. }
  unfold drop_memtable. cbn [MemTable.refs_]. repeat case_decide; try done; intros [= <-]; apply Hl; try done; by intros m' [= <-].
Qed.

Definition slots_like (s s' : gmap Z AtomicMemTable) : Prop :=
  ∀ mid, match s !! mid, s' !! mid with Some a, Some a' => slot_like a a' | None, None => True | _, _ => False end.

Lemma slots_like_refl s : slots_like s s.
Proof. intros mid. destruct (s !! mid); [apply slot_like_refl|done]. Qed.

Lemma slots_like_insert s mid a a' : s !! mid = Some a → slot_like a a' → slots_like s (<[mid := a']> s).
Proof.
  intros Ha Hl m. destruct (decide (m = mid)) as [->|Hne]; [by rewrite Ha, lookup_insert_eq|]. rewrite lookup_insert_ne by done. by apply slots_like_refl.
Qed.

(** The versions are the same but for their references. *)
Definition versions_like (vs vs' : VersionSet) : Prop :=
  is_compacting <$> versions_ vs' = is_compacting <$> versions_ vs ∧ current_ vs' = current_ vs ∧ current_version_id_ vs' = current_version_id_ vs ∧ version_id_seq_ vs' = version_id_seq_ vs
  ∧ ∀ id o', vs_heap vs' !! id = Some o' → ∃ o, vs_heap vs !! id = Some o ∧ ob_version o' = ob_version o.

Lemma versions_like_refl vs : versions_like vs vs.
Proof. split_and!; try done. intros id o Ho. by exists o. Qed.

Lemma versions_like_length vs vs' : versions_like vs vs' → length (versions_ vs') = length (versions_ vs).
Proof. intros [E _]. apply (f_equal length) in E. by rewrite !length_fmap in E. Qed.

Lemma versions_like_ready vs vs' : versions_like vs vs' → ready vs → ready vs'.
Proof.
  intros (E & _ & Ec & _) (a & Ha & Hc). unfold ready. rewrite Ec. apply (f_equal (lookup (Z.to_nat (current_version_id_ vs)))) in E.
  rewrite !list_lookup_fmap, Ha in E. destruct (versions_ vs' !! _) as [a'|]; [|done]. injection E as E. exists a'. by rewrite E.
Qed.

Lemma compacting_insert (l : list AtomicVersion) k a a' :
  l !! k = Some a → is_compacting a' = is_compacting a → is_compacting <$> <[k := a']> l = is_compacting <$> l.
Proof. intros Hk E. rewrite list_fmap_insert, E. apply list_insert_id. by rewrite list_lookup_fmap, Hk. Qed.

Definition with_refs S (slots' : gmap Z AtomicMemTable) (vs' : VersionSet) (gets' : list GetThread) : State W :=
  mkState (set_versions (set_slots (s_db S) slots') vs') (s_puts S) gets' (s_flushes S) (s_mutex S) (s_done S) (s_contents S).

Section refs.
Context (S : State W) (slots' : gmap Z AtomicMemTable) (vs' : VersionSet) (gets' : list GetThread).
Local Abbreviation S' := (with_refs S slots' vs' gets').
Hypothesis Hinv : db_inv S.
Hypothesis Hslots : slots_like (slots S) slots'.
Hypothesis Hvs : versions_like (vset S) vs'.

Lemma like_some mid a' : slots' !! mid = Some a' → ∃ a, slots S !! mid = Some a ∧ slot_like a a'.
Proof using Hslots. intros H. specialize (Hslots mid). rewrite H in Hslots. destruct (slots S !! mid) as [a|]; [by exists a|done]. Qed.
Lemma like_back mid a : slots S !! mid = Some a → ∃ a', slots' !! mid = Some a' ∧ slot_like a a'.
Proof using Hslots. intros H. specialize (Hslots mid). rewrite H in Hslots. destruct (slots' !! mid) as [a'|]; [by exists a'|done]. Qed.
Lemma like_none mid : slots' !! mid = None ↔ slots S !! mid = None.
Proof using Hslots. specialize (Hslots mid). destruct (slots S !! mid), (slots' !! mid); done. Qed.
Lemma like_is_some mid : is_Some (slots' !! mid) ↔ is_Some (slots S !! mid).
Proof using Hslots. rewrite <- !not_eq_None_Some. by rewrite like_none. Qed.

Lemma refs_mid_ok key A mid : mid_ok S key A mid → mid_ok S' key A mid.
Proof using Hslots. intros [H|[H1 H2]]; [by left|right]. split; [|done]. by apply like_is_some. Qed.
Lemma refs_gone mid : gone S mid → gone S' mid.
Proof using Hslots.
  intros [H|(a & Ha & Hf)]; [by left|right]. destruct (like_back mid a Ha) as (a' & Ha' & Hl). exists a'. split; [done|]. by rewrite (proj1 Hl).
Qed.
Lemma refs_has_table o o' n l : ob_version o' = ob_version o → has_table S o n l → has_table S' o' n l.
Proof. intros E (f & Hf & H). exists f. by rewrite E. Qed.
Lemma refs_files_ok key A vid l0 : files_ok S key A vid l0 → files_ok S' key A vid l0.
Proof using Hvs.
  intros [H|(n & l & w & E & Ho & H)]; [by left|right]. exists n, l, w. split; [done|]. split; [|done]. intros o' Ho'.
  destruct Hvs as (_ & _ & _ & _ & Hh). destruct (Hh vid o' Ho') as (o & Ho1 & E'). by apply (refs_has_table o), Ho.
Qed.
Lemma refs_pc_ok g : pc_ok S g → pc_ok S' g.
Proof using Hslots Hvs.
  unfold pc_ok. destruct (gt_pc g) as [|mid|mid|mid r|mid|mid v|mid v|mid v l|v st x|st x]; cbn zeta; try done.
  - apply refs_mid_ok.
  - intros [H1 H2]. split; [done|by apply refs_mid_ok].
  - intros [H1 H2]. split; [by apply like_is_some|done].
  - intros [H1 H2]. split; [by apply refs_mid_ok|by apply refs_gone].
  - intros (H1 & H2 & H3). split; [by apply refs_mid_ok|]. split; [by apply refs_gone|]. cbn [with_refs s_db set_versions db_versions]. by rewrite (versions_like_length _ _ Hvs).
  - intros [H1 H2]. split; [by apply refs_mid_ok|by apply refs_gone].
  - apply refs_files_ok.
Qed.

Lemma refs_slots_inv :
  (∀ mid a', slots' !! mid = Some a' → slot_ok (mkSlotSys a' (holder_count S' mid))) →
  (∀ mid, slots' !! mid = None → holder_count S' mid = 0) → slots_inv S'.
Proof using Hinv Hslots.
  intros Hok Hh. destruct (di_slots _ Hinv) as [H1 H2 H2' _ H4 H5 H6 H7 H8 H9 _ H11 H12].
  split; try done; cbn [with_refs s_db set_versions set_slots db_slots db_memtable_id_seq db_last_sequence] in *.
  - intros mid a' Ha'. destruct (like_some mid a' Ha') as (a & Ha & _). by eapply H1.
  - intros mid a' Ha'. destruct (like_some mid a' Ha') as (a & Ha & _). by eapply H2'.
  - intros mid a' m' Ha' Hm'. destruct (like_some mid a' Ha') as (a & Ha & Hl). destruct Hl as (_ & _ & _ & _ & _ & _ & Hl).
    destruct (Hl m' Hm') as (m & Hm & E1 & E2 & E3 & E4). destruct (H4 mid a m Ha Hm) as (Hho & Hr & Hi). rewrite E3, E4. split; [|done].
    unfold holds in *. by rewrite E1, E2.
  - intros mid a' Ha'. destruct (like_some mid a' Ha') as (a & Ha & Hl). destruct Hl as (_ & _ & _ & _ & _ & -> & _). by apply H5.
  - intros mid a' Ha'. destruct (like_some mid a' Ha') as (a & Ha & Hl). destruct Hl as (_ & _ & _ & _ & -> & _). by apply H6.
  - intros mid Hn. apply H9. by apply like_none.
  - intros mid Hn. apply H11. by apply like_none.
  - intros mid a' Ha'. destruct (like_some mid a' Ha') as (a & Ha & Hl). destruct Hl as (-> & -> & _). by eapply H12.
Qed.

Lemma refs_parts_inv : parts_inv S'.
Proof using Hinv Hslots.
  destruct (di_parts _ Hinv) as [H1 H2 H3 H4 H5 H6].
  split; try done; cbn [with_refs s_db set_versions set_slots db_slots db_partitions db_imms] in *.
  - intros mid Hm. destruct (H1 mid Hm) as (a & Ha & Hs). destruct (like_back mid a Ha) as (a' & Ha' & Hl). exists a'. split; [done|].
    by destruct Hl as (_ & -> & _).
  - intros i mid Hi H0. destruct (H3 i mid Hi H0) as [Hs Ha]. split; [by apply like_is_some|done].
  - intros mid a' Ha' Hn. destruct (like_some mid a' Ha') as (a & Ha & Hl). destruct Hl as (_ & _ & _ & _ & -> & _). by eapply H4.
  - intros mid Hm. destruct (H6 mid Hm) as (a & Ha & Hs & Hf). destruct (like_back mid a Ha) as (a' & Ha' & Hl). exists a'.
    destruct Hl as (-> & -> & _). done.
Qed.

Lemma refs_flush_inv : flush_inv S'.
Proof using Hinv Hslots Hvs.
  destruct (di_flush _ Hinv) as [H1 H2 H3 H4 H5 H6]. pose proof Hvs as (_ & Hc & _ & Hq & Hheap).
  split; try done; cbn [with_refs s_db set_versions set_slots db_slots s_flushes db_versions] in *.
  - intros mid a' Ha'. destruct (like_some mid a' Ha') as (a & Ha & Hl). destruct Hl as (Ef & _ & Ev & E0 & _). rewrite Ef. intros Hf.
    destruct (H1 mid a Ha Hf) as (n & l & HL & Hw & Hh & Hcur). exists n, l. rewrite E0, Ev. split; [done|]. split; [done|]. split.
    + intros id o' Ho' Hle. cbn in Ho'. destruct (Hheap id o' Ho') as (o & Ho & E). apply (refs_has_table o); [done|]. by apply (Hh id).
    + destruct Hcur as [Hcur|Hcur]; [left|by right]. cbn. by rewrite Hc.
  - intros mid a' Ha'. destruct (like_some mid a' Ha') as (a & Ha & Hl). destruct Hl as (-> & _ & -> & _). by eapply H2.
  - intros i pc Hpc. destruct (H3 i pc Hpc) as [Hn Hb]. split; [done|]. intros b Hin. destruct (Hb b Hin) as (H7 & l & H8 & H9 & a & Ha & Hs).
    split; [done|]. exists l. split; [done|]. split; [done|]. destruct (like_back _ a Ha) as (a' & Ha' & Hl). exists a'. split; [done|].
    by destruct Hl as (_ & -> & _).
  - intros i pc vid Hpc Hv. rewrite Hq. by eapply H5.
Qed.

Lemma refs_versions_inv : sys_ok (mkSys vs' (omap get_holds gets')) → size_of gets' <= 2 ^ 30 → versions_inv S'.
Proof using Hinv Hvs.
  intros Hok Hsz. destruct (di_versions _ Hinv) as [_ _ H3 H4 H5]. pose proof Hvs as (_ & Hc & Hi & _ & Hheap).
  split; try done; cbn [with_refs s_db set_versions set_slots db_versions].
  - by rewrite Hc, Hi.
  - intros id o' Ho'. destruct (Hheap id o' Ho') as (o & Ho & ->). by apply (H4 id).
  - by apply (versions_like_ready (vset S)).
Qed.

Lemma refs_puts_inv : puts_inv S'.
Proof using Hinv Hslots.
  destruct (di_puts _ Hinv) as [H1 H2 H3 H4 H5 H6 H7 H8 H9]. split; try done.
  intros i t mid Ht Hpc. destruct (H7 i t mid Ht Hpc) as [Hs H]. split; [|done]. by apply like_is_some.
Qed.

Lemma inv_refs :
  (∀ mid a', slots' !! mid = Some a' → slot_ok (mkSlotSys a' (holder_count S' mid))) →
  (∀ mid, slots' !! mid = None → holder_count S' mid = 0) →
  sys_ok (mkSys vs' (omap get_holds gets')) → size_of gets' <= 2 ^ 30 →
  (∀ i g', gets' !! i = Some g' → ∃ g, s_gets S !! i = Some g ∧ gt_key g' = gt_key g ∧ gt_answers g' = gt_answers g ∧ (g' = g ∨ pc_ok S' g')) →
  db_inv S'.
Proof using Hinv Hslots Hvs.
  intros Hok Hh Hsys Hsz Hg. split.
  - by apply refs_slots_inv.
  - apply refs_parts_inv.
  - apply refs_flush_inv.
  - by apply refs_versions_inv.
  - apply refs_puts_inv.
  - by destruct (di_index _ Hinv).
  - destruct (di_gets _ Hinv) as [H1 H2 H3 H4]. split.
    + intros i g' Hi. destruct (Hg i g' Hi) as (g & Hgi & -> & _). by eapply H1.
    + intros i g' Hi. destruct (Hg i g' Hi) as (g & Hgi & -> & -> & _). by eapply H2.
    + intros i g' j t Hi. destruct (Hg i g' Hi) as (g & Hgi & -> & -> & _). by eapply H3.
    + intros i g' Hi. destruct (Hg i g' Hi) as (g & Hgi & _ & _ & [->|H]); [|done]. apply refs_pc_ok. by eapply H4.
Qed.
End refs.

(** ** The steps of a lookup *)

Section gets.
Context (S : State W) (i : nat) (g : GetThread).
Hypothesis Hinv : db_inv S.
Hypothesis Hg : s_gets S !! i = Some g.
Local Abbreviation to pc := (mkGetThread (gt_key g) pc (gt_answers g)).
Local Abbreviation gets_to pc := (<[i := to pc]> (s_gets S)).

Lemma gets_to_lookup pc (P : GetThread → Prop) :
  P (to pc) → ∀ j g', gets_to pc !! j = Some g' → ∃ g0, s_gets S !! j = Some g0 ∧ gt_key g' = gt_key g0 ∧ gt_answers g' = gt_answers g0 ∧ (g' = g0 ∨ P g').
Proof using Hg.
  intros HP j g' Hj. destruct (decide (j = i)) as [->|Hne].
  - rewrite list_lookup_insert_eq in Hj by (by eapply lookup_lt_Some). injection Hj as <-. exists g. split; [done|]. split; [done|]. split; [done|]. by right.
  - rewrite list_lookup_insert_ne in Hj by done. exists g'. split; [done|]. split; [done|]. split; [done|]. by left.
Qed.

Lemma holder_count_to slots' vs' pc mid :
  holder_count (with_refs S slots' vs' (gets_to pc)) mid =
    holder_count S mid - (if is_holder mid g then 1 else 0) + (if is_holder mid (to pc) then 1 else 0).
Proof using Hg. unfold holder_count. cbn [with_refs s_gets]. by apply count_insert. Qed.

Lemma holder_pos mid : is_holder mid g = true → 1 <= holder_count S mid.
Proof using Hg. intros H. unfold holder_count. by apply (count_pos (is_holder mid) _ i g). Qed.

Lemma holder_slot mid : is_holder mid g = true → is_Some (slots S !! mid).
Proof using Hinv Hg.
  intros H. destruct (slots S !! mid) as [a|] eqn:E; [by exists a|]. pose proof (holder_pos mid H). pose proof (si_holder _ (di_slots _ Hinv) mid E). lia.
Qed.

(** A step that leaves the database alone. *)
Lemma inv_get_same pc :
  (∀ mid, is_holder mid (to pc) = is_holder mid g) → get_holds (to pc) = get_holds g → pc_ok S (to pc) →
  db_inv (mkState (s_db S) (s_puts S) (gets_to pc) (s_flushes S) (s_mutex S) (s_done S) (s_contents S)).
Proof using Hinv Hg.
  intros Hh Hv Hpc.
  assert (mkState (s_db S) (s_puts S) (gets_to pc) (s_flushes S) (s_mutex S) (s_done S) (s_contents S)
          = with_refs S (slots S) (vset S) (gets_to pc)) as -> by (unfold with_refs, set_versions, set_slots; by destruct (s_db S)).
  assert (∀ mid, holder_count (with_refs S (slots S) (vset S) (gets_to pc)) mid = holder_count S mid) as Hc.
  { intros mid. rewrite holder_count_to, Hh. destruct (is_holder mid g); lia. }
  apply inv_refs; [done|apply slots_like_refl|apply versions_like_refl| | | | |].
  - intros mid a Ha. rewrite Hc. by apply (si_slot _ (di_slots _ Hinv)).
  - intros mid Hn. rewrite Hc. by apply (si_holder _ (di_slots _ Hinv)).
  - pose proof (vi_sys _ (di_versions _ Hinv)) as Hs. eapply sys_ok_perm; [|exact Hs]. unfold held_versions.
    destruct (omap_insert_perm get_holds (s_gets S) i g (to pc) Hg) as (rest & H1 & H2). by rewrite H1, H2, Hv.
  - rewrite length_insert. apply (vi_gets _ (di_versions _ Hinv)).
  - apply (gets_to_lookup pc (pc_ok _)). apply refs_pc_ok; [apply slots_like_refl|apply versions_like_refl|done].
Qed.

(** A step that changes the references to a memtable. *)
Lemma inv_get_slot pc mid a a' :
  slots S !! mid = Some a → slot_like a a' →
  slot_ok (mkSlotSys a' (holder_count S mid - (if is_holder mid g then 1 else 0) + (if is_holder mid (to pc) then 1 else 0))) →
  (∀ mid', mid' ≠ mid → is_holder mid' (to pc) = is_holder mid' g) → get_holds (to pc) = get_holds g →
  pc_ok (with_refs S (<[mid := a']> (slots S)) (vset S) (gets_to pc)) (to pc) →
  db_inv (mkState (put_slot (s_db S) mid a') (s_puts S) (gets_to pc) (s_flushes S) (s_mutex S) (s_done S) (s_contents S)).
Proof using Hinv Hg.
  intros Ha Hl Hok Hh Hv Hpc.
  assert (mkState (put_slot (s_db S) mid a') (s_puts S) (gets_to pc) (s_flushes S) (s_mutex S) (s_done S) (s_contents S)
          = with_refs S (<[mid := a']> (slots S)) (vset S) (gets_to pc)) as -> by (unfold with_refs, put_slot, set_versions, set_slots; by destruct (s_db S)).
  assert (∀ mid', mid' ≠ mid → holder_count (with_refs S (<[mid := a']> (slots S)) (vset S) (gets_to pc)) mid' = holder_count S mid') as Hc.
  { intros mid' Hne. rewrite holder_count_to, Hh by done. destruct (is_holder mid' g); lia. }
  apply inv_refs; [done|by eapply slots_like_insert|apply versions_like_refl| | | | |].
  - intros mid' b. destruct (decide (mid' = mid)) as [->|Hne].
    + rewrite lookup_insert_eq. intros [= <-]. by rewrite holder_count_to.
    + rewrite lookup_insert_ne by done. intros Hb. rewrite Hc by done. by apply (si_slot _ (di_slots _ Hinv)).
  - intros mid' Hn. destruct (decide (mid' = mid)) as [->|Hne]; [by rewrite lookup_insert_eq in Hn|]. rewrite lookup_insert_ne in Hn by done.
    rewrite Hc by done. by apply (si_holder _ (di_slots _ Hinv)).
  - pose proof (vi_sys _ (di_versions _ Hinv)) as Hs. eapply sys_ok_perm; [|exact Hs]. unfold held_versions.
    destruct (omap_insert_perm get_holds (s_gets S) i g (to pc) Hg) as (rest & H1 & H2). by rewrite H1, H2, Hv.
  - rewrite length_insert. apply (vi_gets _ (di_versions _ Hinv)).
  - by apply (gets_to_lookup pc (pc_ok _)).
Qed.

(** A step that changes the references to a version. *)
Lemma inv_get_version pc vs' :
  versions_like (vset S) vs' → (∀ mid, is_holder mid (to pc) = is_holder mid g) →
  sys_ok (mkSys vs' (omap get_holds (gets_to pc))) → pc_ok S (to pc) →
  db_inv (mkState (set_versions (s_db S) vs') (s_puts S) (gets_to pc) (s_flushes S) (s_mutex S) (s_done S) (s_contents S)).
Proof using Hinv Hg.
  intros Hl Hh Hok Hpc.
  assert (mkState (set_versions (s_db S) vs') (s_puts S) (gets_to pc) (s_flushes S) (s_mutex S) (s_done S) (s_contents S)
          = with_refs S (slots S) vs' (gets_to pc)) as -> by (unfold with_refs, set_versions, set_slots; by destruct (s_db S)).
  assert (∀ mid, holder_count (with_refs S (slots S) vs' (gets_to pc)) mid = holder_count S mid) as Hc.
  { intros mid. rewrite holder_count_to, Hh. destruct (is_holder mid g); lia. }
  apply inv_refs; [done|apply slots_like_refl|done| | |done| |].
  - intros mid a Ha. rewrite Hc. by apply (si_slot _ (di_slots _ Hinv)).
  - intros mid Hn. rewrite Hc. by apply (si_holder _ (di_slots _ Hinv)).
  - rewrite length_insert. apply (vi_gets _ (di_versions _ Hinv)).
  - apply (gets_to_lookup pc (pc_ok _)). apply refs_pc_ok; [apply slots_like_refl|done|done].
Qed.
End gets.

(** References to versions. *)
Lemma Ref_like vs id vs' r : on_version vs id AtomicVersion_Ref = Ret (vs', r) → versions_like vs vs'.
Proof.
  unfold on_version. destruct (decide (0 <= id)) as [_|]; [|done]. destruct (versions_ vs !! Z.to_nat id) as [a|] eqn:Ha; [|done]. unfold AtomicVersion_Ref, Version_Ref.
  destruct (version a) as [v|]; [destruct (negb (deleted a) && negb (is_compacting a))|].
  - destruct (vs_heap vs !! v) as [o|] eqn:Eo; unfold deref; rewrite Eo; [|done]. cbn [mbind res_bind]. intros [= <- _].
    split_and!; try done; [by eapply compacting_insert|]. cbn [vs_heap]. intros id' o'. destruct (decide (id' = v)) as [->|Hne]; [|rewrite lookup_insert_ne by done; intros H; by exists o'].
    rewrite lookup_insert_eq. intros [= <-]. by exists o.
  - intros [= <- _]. split_and!; try done; [by eapply compacting_insert|]. intros id' o' H. by exists o'.
  - intros [= <- _]. split_and!; try done; [by eapply compacting_insert|]. intros id' o' H. by exists o'.
Qed.

Lemma Unref_like vs id vs' x : on_version vs id AtomicVersion_Unref = Ret (vs', x) → versions_like vs vs'.
Proof.
  unfold on_version. destruct (decide (0 <= id)) as [_|]; [|done]. destruct (versions_ vs !! Z.to_nat id) as [a|] eqn:Ha; [|done]. unfold AtomicVersion_Unref, Version_Unref.
  destruct (version a) as [v|]; [destruct (deleted a)|].
  - intros [= <- _]. split_and!; try done; [by eapply compacting_insert|]. intros id' o' H. by exists o'.
  - destruct (vs_heap vs !! v) as [o|] eqn:Eo; unfold deref; rewrite Eo; [|done]. cbn [mbind res_bind]. case_decide; [|done]. cbn [mbind res_bind]. intros [= <- _].
    split_and!; try done; [by eapply compacting_insert|]. cbn [vs_heap]. intros id' o'. destruct (decide (id' = v)) as [->|Hne]; [|rewrite lookup_insert_ne by done; intros H'; by exists o'].
    rewrite lookup_insert_eq. intros [= <-]. by exists o.
  - intros [= <- _]. split_and!; try done; [by eapply compacting_insert|]. intros id' o' H. by exists o'.
Qed.

Lemma on_version_range {A} vs id (op : version_heap → AtomicVersion → res (version_heap * AtomicVersion * A)) r :
  on_version vs id op = Ret r → 0 <= id < size_of (versions_ vs).
Proof.
  unfold on_version. case_decide; [|done]. destruct (versions_ vs !! Z.to_nat id) as [a|] eqn:E; [|done]. apply lookup_lt_Some in E. intros _. lia.
Qed.

Lemma held_small S : db_inv S → size_of (held_versions S) <= 2 ^ 30.
Proof.
  intros H. pose proof (vi_gets _ (di_versions _ H)). unfold held_versions.
  assert (∀ l : list GetThread, (length (omap get_holds l) <= length l)%nat) as Hl; [|specialize (Hl (s_gets S)); lia].
  induction l as [|x l IH]; [done|]. cbn [omap list_omap length]. destruct (get_holds x); cbn [length]; lia.
Qed.

(** ** Newest writes *)

Lemma max_by {A} (f : A → Z) (P : A → Prop) `{!∀ x, Decision (P x)} (l : list A) x :
  x ∈ l → P x → ∃ m, m ∈ l ∧ P m ∧ ∀ y, y ∈ l → P y → f y <= f m.
Proof.
  revert x. induction l as [|z l IH]; intros x Hx Hp; [by apply not_elem_of_nil in Hx|].
  destruct (decide (Exists P l)) as [(y & Hy & Hyp)%Exists_exists|Hn].
  - destruct (IH y Hy Hyp) as (m & Hm & Hmp & Hmax). destruct (decide (P z ∧ f m < f z)) as [[Hz Hlt]|Hz].
    + exists z. split; [by left|]. split; [done|]. intros w [->|Hw]%elem_of_cons Hwp; [lia|]. specialize (Hmax w Hw Hwp). lia.
    + exists m. split; [by right|]. split; [done|]. intros w [->|Hw]%elem_of_cons Hwp; [|by apply Hmax].
      destruct (decide (f m < f z)); [by destruct Hz|lia].
  - apply elem_of_cons in Hx as [->|Hx]; [|destruct Hn; apply Exists_exists; by exists x]. exists z. split; [by left|]. split; [done|].
    intros w [->|Hw]%elem_of_cons Hwp; [lia|]. destruct Hn. apply Exists_exists. by exists w.
Qed.

Lemma newest_exists u ws w :
  Forall write_ok ws → w ∈ ws → U.(Compare) (wr_key w) u = 0 → ∃ w0, newest U u kMaxSequenceNumber ws w0.
Proof.
  intros Hok Hw Hu. destruct (max_by wr_seq (λ x, U.(Compare) (wr_key x) u = 0) ws w Hw Hu) as (m & Hm & Hmu & Hmax).
  exists m. rewrite Forall_forall in Hok. split; [done|]. split; [split; [done|apply (Hok m Hm)]|]. intros y Hy [H1 _]. by apply Hmax.
Qed.

Lemma newest_unique u ws w w' :
  NoDup (wr_seq <$> ws) → newest U u kMaxSequenceNumber ws w → newest U u kMaxSequenceNumber ws w' → w = w'.
Proof.
  intros Hnd (H1 & H2 & H3) (H1' & H2' & H3'). pose proof (H3 w' H1' H2'). pose proof (H3' w H1 H2).
  apply list_elem_of_lookup in H1 as [i Hi], H1' as [j Hj].
  assert (i = j) as <-; [|congruence]. apply (NoDup_lookup (wr_seq <$> ws) i j (wr_seq w) Hnd); rewrite list_lookup_fmap; [by rewrite Hi|].
  rewrite Hj. cbn. f_equal. lia.
Qed.

Lemma cont_ok S mid : slots_inv S → Forall write_ok (cont S mid).
Proof. intros H. apply Forall_forall. intros w Hw. by apply (si_writes _ H mid). Qed.

(** Keys are compared as the bytes they are. *)
Lemma key_same S mid w key : slots_inv S → key_ok key → w ∈ cont S mid → U.(Compare) (wr_key w) key = 0 ↔ wr_key w = key.
Proof using OU key_spelling.
  intros Hs Hk Hw. split; [|intros ->; apply cmp_refl]. apply key_spelling; [|done]. by apply (si_writes _ Hs mid).
Qed.

(** The index leads a lookup to an answer. *)
Lemma index_mid_ok S i g w mid :
  db_inv S → s_gets S !! i = Some g → s_done S !! gt_key g = Some (w, mid) → mid_ok S (gt_key g) (gt_answers g) mid.
Proof using OU key_spelling.
  intros Hinv Hg Hd. right. pose proof (di_slots _ Hinv) as Hs. destruct (gi_key _ (di_gets _ Hinv) i g Hg) as [Hk _].
  destruct (ix_write _ (di_index _ Hinv) _ _ _ Hd) as (Hw & Hwk & Hmax).
  split. { destruct (slots S !! mid) eqn:E; [by eexists|]. rewrite (si_dom _ Hs mid E) in Hw. by apply not_elem_of_nil in Hw. }
  destruct (newest_exists (gt_key g) (cont S mid) w) as (w0 & Hn); [by apply cont_ok|done|by apply (key_same S mid)|].
  pose proof Hn as (H1 & [H2 H2'] & H3). exists w0. split; [done|]. apply (key_same S mid) in H2; [|done..].
  destruct (Hmax w0 H1 H2) as [Hle|(j & t & imm & Ht & Hpc & Htk & ->)].
  - assert (newest U (gt_key g) kMaxSequenceNumber (cont S mid) w) as Hn'.
    { split; [done|]. split; [split; [by apply (key_same S mid)|apply (si_writes _ Hs mid w Hw)]|]. intros y Hy Hyv. specialize (H3 y Hy Hyv). lia. }
    rewrite (newest_unique _ _ _ _ (si_nodup _ Hs mid) Hn Hn'). pose proof (gi_current _ (di_gets _ Hinv) i g Hg) as Hc.
    unfold current_value in Hc. by rewrite Hd in Hc.
  - cbn [thread_write wr_value]. eapply (gi_puts _ (di_gets _ Hinv) i g j t); [done|done| |done]. unfold put_active. by rewrite Hpc.
Qed.

(** ** Reading the files *)

Lemma write_entry_value w : write_ok w → wr_type w = kTypeValue → entry_value (write_ikey w, wr_value w) = Some (wr_value w).
Proof.
  intros [Hs _] Ht. unfold entry_value, write_ikey. cbn [fst snd]. unfold InternalKey_make. rewrite AppendInternalKey_parse by done.
  cbn [type]. by rewrite Ht.
Qed.

Lemma read_version_ok S id o key A l0fns :
  db_inv S → key_ok key → vs_heap (vset S) !! id = Some o → files_ok S key A id l0fns →
  ∃ s value, read_version U options (s_db S) (ob_version o) key l0fns = Ret (s, value) ∧ result_ok A s value.
Proof using OU.
  intros Hinv Hk Ho Hf. destruct (vi_version _ (di_versions _ Hinv) id o Ho) as (_ & _ & Hlev). unfold read_version.
  destruct Hf as [[-> Hb]|(n & l & w & -> & Ht & Hv & Htype & Hw & Hsp & Hin)].
  - rewrite decide_True by done. cbn [mbind res_bind].
    destruct (Version_Get_answer U OU (stored (store S)) (ts_get (store S)) (tso_reads (store S)) (use_ordered_flush options)
      (ob_version o) lss key kMaxSequenceNumber 0 [] 0 (Hlev key Hk)) as (st & -> & Hval); [seq_lit|]. cbn [mbind res_bind].
    eexists _, _. split; [done|]. exists (base_value key). split; [done|]. split; [done|].
    intros v Hbv. rewrite Hval. change (default [] (base_value key) = v). by rewrite Hbv.
  - rewrite decide_False by done. destruct (Ht o Ho) as (f & Hfn & Hn & Hh).
    destruct (Version_Get_fns_ok U (stored (store S)) (ts_get (store S)) (TR := tso_reads (store S)) (ob_version o) key kMaxSequenceNumber [n] [l] 0 [] 0)
      as (st & -> & Hval); [|seq_lit|].
    { apply Forall2_cons. split; [|done]. exists f. done. }
    change (reverse [l]) with [l] in *. cbn [fmap list_fmap last_answer] in *. rewrite Hv in Hval |- *. cbn [mbind option_bind] in Hval |- *.
    rewrite write_entry_value in Hval |- * by done. cbn [mbind res_bind]. eexists _, _. split; [done|]. exists (Some (wr_value w)).
    split; [done|]. split; [done|]. by intros v [= <-].
Qed.

(** ** A lookup makes progress and keeps the invariant *)

Definition get_to S (i : nat) (g : GetThread) (db : DB W) (pc : GetPc) : State W :=
  mkState db (s_puts S) (<[i := mkGetThread (gt_key g) pc (gt_answers g)]> (s_gets S)) (s_flushes S) (s_mutex S) (s_done S) (s_contents S).

Lemma get_slot_some S mid a : db_inv S → slots S !! mid = Some a → get_slot (s_db S) mid = Ret a.
Proof.
  intros Hinv Ha. pose proof (si_range _ (di_slots _ Hinv) mid a Ha). pose proof (si_max _ (di_slots _ Hinv) mid a Ha).
  unfold get_slot. rewrite decide_True by lia. by rewrite Ha.
Qed.

Lemma get_slot_zero S : db_inv S → slots S !! 0 = None ∧ get_slot (s_db S) 0 = Ret AtomicMemTable_init.
Proof.
  intros Hinv. destruct (slots S !! 0) as [a|] eqn:E; [pose proof (si_range _ (di_slots _ Hinv) 0 a E); lia|].
  split; [done|]. unfold get_slot. rewrite decide_True by (unfold MAX_LIVE_MEMTABLES; lia). by rewrite E.
Qed.

Section steps.
Context (S : State W) (i : nat) (g : GetThread).
Hypothesis Hinv : db_inv S.
Hypothesis Hg : s_gets S !! i = Some g.
Local Abbreviation to pc := (mkGetThread (gt_key g) pc (gt_answers g)).
(** The step runs, into a state that fulfils the invariant. *)
Definition runs_to : Prop :=
  ∃ db pc, get_step U options (s_db S) (gt_key g) (hash (gt_key g)) (gt_pc g) = Ret (db, pc) ∧ db_inv (get_to S i g db pc).

Lemma get_start : gt_pc g = GetStart → runs_to.
Proof using All.
  intros Epc. unfold runs_to. rewrite Epc. cbn [get_step]. destruct (gi_key _ (di_gets _ Hinv) i g Hg) as [Hk _].
  rewrite (ix_done _ (di_index _ Hinv) _ Hk). cbn [mbind res_bind]. eexists _, _. split; [done|].
  apply inv_get_same; [done|done| | |]; [by intros mid; unfold is_holder; rewrite Epc|by unfold get_holds; rewrite Epc|]. unfold pc_ok. cbn [gt_pc gt_key gt_answers].
  destruct (s_done S !! gt_key g) as [[w mid]|] eqn:Ed.
  - by apply (index_mid_ok S i g w).
  - left. split; [done|]. pose proof (gi_current _ (di_gets _ Hinv) i g Hg) as Hc. unfold current_value in Hc. by rewrite Ed in Hc.
Qed.

Lemma get_indexed mid : gt_pc g = GetIndexed mid → runs_to.
Proof using All.
  intros Epc. unfold runs_to. rewrite Epc. cbn [get_step]. pose proof (gi_pc _ (di_gets _ Hinv) i g Hg) as Hpc. unfold pc_ok in Hpc. rewrite Epc in Hpc. cbn zeta in Hpc.
  case_decide as H0.
  - eexists _, _. split; [done|]. apply inv_get_same; [done|done| | |]; [by intros m; unfold is_holder; rewrite Epc|by unfold get_holds; rewrite Epc|].
    split; [done|by left].
  - destruct Hpc as [[? _]|[[a Ha] Hn]]; [done|]. rewrite (get_slot_some S mid a Hinv Ha). cbn [mbind res_bind].
    pose proof (si_slot _ (di_slots _ Hinv) mid a Ha) as Hok. destruct (RefMemTable a) as [a' found] eqn:Er. eexists _, _. split; [done|].
    assert (is_holder mid g = false) as Hng by (unfold is_holder; by rewrite Epc).
    assert (∀ m', is_holder m' g = false) as Hng' by (intros; unfold is_holder; by rewrite Epc).
    destruct found.
    + assert (slot_ok (mkSlotSys a' (holder_count S mid + 1))) as Hok' by (eapply slot_step_ok; [exact Hok|by apply slot_ref]).
      assert (slot_like a a') as Hl.
      { unfold RefMemTable in Er. destruct (memtable_ a) as [m|] eqn:Em; [|done]. injection Er as <-. split_and!; try done. cbn. intros m' [= <-]. by exists m. }
      apply (inv_get_slot S i g Hinv Hg _ mid a a'); [done|done| | |by unfold get_holds; rewrite Epc|].
      * rewrite Hng. unfold is_holder. cbn [gt_pc]. rewrite bool_decide_eq_true_2 by done. by replace (_ - 0 + 1) with (holder_count S mid + 1) by lia.
      * intros m' Hne. rewrite Hng'. unfold is_holder. cbn [gt_pc]. by rewrite bool_decide_eq_false_2.
      * split; [done|]. apply refs_mid_ok; [by eapply slots_like_insert|]. right. split; [by exists a|done].
    + unfold RefMemTable in Er. destruct (memtable_ a) as [m|] eqn:Em; [done|]. injection Er as <-.
      assert (is_flushed_ a = true) as Hf.
      { pose proof (sk_freed _ Hok Em) as Hr. pose proof (sk_holders _ Hok) as Hh. unfold slot_refs in Hr. cbn [slot holders] in Hr, Hh. destruct (is_flushed_ a); [done|lia]. }
      apply (inv_get_slot S i g Hinv Hg _ mid a a); [done|apply slot_like_refl| | |by unfold get_holds; rewrite Epc|].
      * rewrite Hng. unfold is_holder. cbn [gt_pc]. by replace (_ - 0 + 0) with (holder_count S mid) by lia.
      * intros m' Hne. by rewrite Hng'.
      * split; [apply refs_mid_ok; [by eapply slots_like_insert; [|apply slot_like_refl]|]; right; split; [by exists a|done]|].
        right. exists a. split; [|done]. apply lookup_insert_eq.
Qed.

Lemma get_memtable mid : gt_pc g = GetMemTable mid → runs_to.
Proof using All.
  intros Epc. unfold runs_to. rewrite Epc. cbn [get_step]. pose proof (di_slots _ Hinv) as Hs. destruct (gi_key _ (di_gets _ Hinv) i g Hg) as [Hk Hsz].
  pose proof (gi_pc _ (di_gets _ Hinv) i g Hg) as Hpc. unfold pc_ok in Hpc. rewrite Epc in Hpc. destruct Hpc as [H0 [[? _]|[[a Ha] (w & Hn & Hin)]]]; [done|].
  rewrite (get_slot_some S mid a Hinv Ha). cbn [mbind res_bind].
  assert (is_holder mid g = true) as Hh by (unfold is_holder; rewrite Epc; by apply bool_decide_eq_true).
  pose proof (si_slot _ Hs mid a Ha) as Hok. pose proof (holder_pos S i g Hg mid Hh) as Hpos.
  destruct (memtable_ a) as [m|] eqn:Em.
  2: { pose proof (sk_freed _ Hok Em) as Hr. unfold slot_refs in Hr. cbn [slot holders] in Hr. destruct (is_flushed_ a); lia. }
  destruct (si_mem _ Hs mid a m Ha Em) as (Hho & Hr & Hid). rewrite decide_True by done.
  destruct (holds_get U (cfgs_size options) m (cont S mid) (gt_key g) kMaxSequenceNumber Hho Hr) as (r & -> & Hspec); [seq_lit|done|]. cbn [mbind res_bind].
  eexists _, _. split; [done|]. apply inv_get_same; [done|done| | |]; [by intros m'; unfold is_holder; rewrite Epc|by unfold get_holds; rewrite Epc|].
  split; [by exists a|]. cbn [gt_answers]. destruct r as [|v|].
  - by destruct (Hspec w (proj1 Hn) (proj1 (proj2 Hn))).
  - destruct Hspec as (w' & Hn' & _ & <-). exists (wr_value w'). split; [done|]. by rewrite (newest_unique _ _ _ _ (si_nodup _ Hs mid) Hn' Hn).
  - destruct Hspec as (w' & Hn' & Ht). pose proof (si_writes _ Hs mid w' (proj1 Hn')) as (_ & _ & Ht' & _). congruence.
Qed.

Lemma get_release mid r : gt_pc g = GetRelease mid r → runs_to.
Proof using All.
  intros Epc. unfold runs_to. rewrite Epc. cbn [get_step]. pose proof (di_slots _ Hinv) as Hs.
  pose proof (gi_pc _ (di_gets _ Hinv) i g Hg) as Hpc. unfold pc_ok in Hpc. rewrite Epc in Hpc. destruct Hpc as [[a Ha] (v & -> & Hin)].
  rewrite (get_slot_some S mid a Hinv Ha). cbn [mbind res_bind].
  assert (is_holder mid g = true) as Hh by (unfold is_holder; rewrite Epc; by apply bool_decide_eq_true).
  pose proof (si_slot _ Hs mid a Ha) as Hok. pose proof (holder_pos S i g Hg mid Hh) as Hpos.
  destruct (memtable_ a) as [m|] eqn:Em.
  2: { pose proof (sk_freed _ Hok Em) as Hr. unfold slot_refs in Hr. cbn [slot holders] in Hr. destruct (is_flushed_ a); lia. }
  pose proof (sk_refs _ Hok m Em) as [Hr _]. unfold slot_refs in Hr. cbn [slot holders] in Hr.
  destruct (AtomicMemTable_Unref_spec a m 1 Em) as (m' & E & Hr'); [destruct (is_flushed_ a); lia|]. rewrite E. cbn [mbind res_bind].
  set (a' := with_memtable a _) in *. eexists _, _. split; [done|].
  assert (slot_ok (mkSlotSys a' (holder_count S mid - 1))) as Hok' by (eapply slot_step_ok; [exact Hok|apply slot_unref; [lia|done]]).
  apply (inv_get_slot S i g Hinv Hg _ mid a a'); [done| | | |by unfold get_holds; rewrite Epc|].
  - by eapply Unref_slot_like.
  - rewrite Hh. unfold is_holder. cbn [gt_pc]. by replace (_ - 1 + 0) with (holder_count S mid - 1) by lia.
  - intros m1 Hne. unfold is_holder. rewrite Epc. cbn [gt_pc]. by rewrite bool_decide_eq_false_2.
  - exists (Some v). split; [done|]. split; [done|]. by intros v' [= <-].
Qed.

Lemma get_loop mid : gt_pc g = GetLoop mid → runs_to.
Proof using All.
  intros Epc. unfold runs_to. rewrite Epc. cbn [get_step]. eexists _, _. split; [done|].
  apply inv_get_same; [done|done| | |]; [by intros m'; unfold is_holder; rewrite Epc|by unfold get_holds; rewrite Epc|].
  pose proof (gi_pc _ (di_gets _ Hinv) i g Hg) as Hpc. unfold pc_ok in Hpc |- *. rewrite Epc in Hpc. cbn [gt_pc gt_key gt_answers] in *.
  split; [apply Hpc|]. split; [apply Hpc|]. destruct (di_versions _ Hinv) as [Hsys _ Hc _]. pose proof (so_current _ Hsys _ Hc) as Hin. apply (so_range _ Hsys) in Hin.
  cbn [sys] in Hin. lia.
Qed.

(** The versions held, with one more or one less. *)
Lemma held_more pc v : get_holds g = None → get_holds (to pc) = Some v →
  omap get_holds (<[i := to pc]> (s_gets S)) ≡ₚ v :: held_versions S.
Proof using Hg.
  intros H1 H2. destruct (omap_insert_perm get_holds (s_gets S) i g (to pc) Hg) as (rest & E1 & E2). unfold held_versions. rewrite E2, E1, H1, H2. done.
Qed.
Lemma held_less pc v : get_holds g = Some v → get_holds (to pc) = None →
  held_versions S ≡ₚ v :: omap get_holds (<[i := to pc]> (s_gets S)).
Proof using Hg.
  intros H1 H2. destruct (omap_insert_perm get_holds (s_gets S) i g (to pc) Hg) as (rest & E1 & E2). unfold held_versions. rewrite E2, E1, H1, H2. done.
Qed.

(** Giving back a version. *)
Lemma get_gives_back pc v :
  get_holds g = Some v → get_holds (to pc) = None → (∀ mid, is_holder mid (to pc) = is_holder mid g) → pc_ok S (to pc) →
  ∃ vs, on_version (vset S) v AtomicVersion_Unref = Ret (vs, tt) ∧ db_inv (get_to S i g (set_versions (s_db S) vs) pc).
Proof using All.
  intros H1 H2 H3 Hpc. pose proof (held_less pc v H1 H2) as Hp.
  pose proof (sys_ok_perm _ _ _ Hp (vi_sys _ (di_versions _ Hinv))) as Hsys.
  destruct (Unref_ok (mkSys (vset S) (v :: omap get_holds (<[i := to pc]> (s_gets S)))) [] (omap get_holds (<[i := to pc]> (s_gets S))) v Hsys eq_refl) as (vs & E & Hsys' & _).
  exists vs. split; [done|]. apply (inv_get_version S i g Hinv Hg pc vs); [by eapply Unref_like|done|done|done].
Qed.

Lemma held_live v : get_holds g = Some v → ∃ o, vs_heap (vset S) !! v = Some o.
Proof using All.
  intros H. pose proof (vi_sys _ (di_versions _ Hinv)) as Hsys. pose proof (so_held _ Hsys) as Hh. rewrite Forall_forall in Hh.
  assert (v ∈ held_versions S) as Hv. { apply list_elem_of_omap. exists g. split; [by eapply list_elem_of_lookup_2|done]. }
  apply (so_heap _ Hsys). by apply Hh.
Qed.

Lemma get_version mid vid : gt_pc g = GetVersion mid vid → runs_to.
Proof using All.
  intros Epc. unfold runs_to. rewrite Epc. cbn [get_step]. pose proof (vi_sys _ (di_versions _ Hinv)) as Hsys.
  pose proof (gi_pc _ (di_gets _ Hinv) i g Hg) as Hpc. unfold pc_ok in Hpc. rewrite Epc in Hpc. destruct Hpc as (Hm & Hgone & Hvid). pose proof (held_small S Hinv) as Hsm.
  destruct (Ref_ok (mkSys (vset S) (held_versions S)) vid Hsys) as (vs & r & E & Hr & _); [cbn [held]; unfold int_max; lia|done|]. cbn [sys] in E. rewrite E. cbn [mbind res_bind].
  eexists _, _. split; [done|]. pose proof (Ref_like _ _ _ _ E) as Hl. destruct r as [v|].
  - destruct Hr as (-> & _ & Hs). apply (inv_get_version S i g Hinv Hg _ vs); [done|by intros m'; unfold is_holder; rewrite Epc| |done].
    eapply sys_ok_perm; [|exact Hs]. symmetry. apply held_more; [by unfold get_holds; rewrite Epc|done].
  - apply (inv_get_version S i g Hinv Hg _ vs); [done|by intros m'; unfold is_holder; rewrite Epc| |done].
    eapply sys_ok_perm; [|exact Hr]. cbn [held]. unfold held_versions. destruct (omap_insert_perm get_holds (s_gets S) i g (to (GetLoop mid)) Hg) as (rest & E1 & E2).
    rewrite E1, E2. unfold get_holds. by rewrite Epc.
Qed.

Lemma get_held mid vid : gt_pc g = GetHeld mid vid → runs_to.
Proof using All.
  intros Epc. unfold runs_to. rewrite Epc. cbn [get_step]. pose proof (di_slots _ Hinv) as Hs. destruct (gi_key _ (di_gets _ Hinv) i g Hg) as [Hk Hsz].
  assert (get_holds g = Some vid) as Hv by (unfold get_holds; by rewrite Epc).
  pose proof (gi_pc _ (di_gets _ Hinv) i g Hg) as Hpc. unfold pc_ok in Hpc. rewrite Epc in Hpc. destruct Hpc as [Hm Hgone].
  assert (∃ a, get_slot (s_db S) mid = Ret a ∧ (vid >= last_version_id_ a → files_ok S (gt_key g) (gt_answers g) vid (l0_file_numbers_ a))) as (a & -> & Hfiles).
  { destruct (decide (mid = 0)) as [->|H0].
    - destruct (get_slot_zero S Hinv) as [Hn ->]. eexists. split; [done|]. intros _. left. split; [done|]. destruct Hm as [[_ ?]|[[? ?] _]]; [done|congruence].
    - destruct Hm as [[? _]|[[a Ha] (w & Hn & Hin)]]; [done|]. exists a. split; [by apply get_slot_some|]. intros Hge. right.
      assert (is_flushed_ a = true) as Hf by (destruct Hgone as [?|(a' & Ha' & ?)]; [done|congruence]).
      destruct (fi_flushed _ (di_flush _ Hinv) mid a Ha Hf) as (n & l & -> & [Hw1 Hw2] & Hver & _). exists n, l, w.
      destruct (si_writes _ Hs mid w (proj1 Hn)) as (Hwok & _ & Ht & _).
      split; [done|]. split; [intros o Ho; apply (Hver vid); [done|lia]|]. split; [by apply Hw1|]. split; [done|]. split; [done|]. split; [|done].
      apply Forall_forall. intros e He H1. destruct (Hw2 e He) as (w' & Hw' & ->). cbn [fst] in *. unfold write_ikey in *. rewrite InternalKey_make_user_key in *.
      by apply (key_same S mid). }
  cbn [mbind res_bind]. case_decide as Hge.
  - eexists _, _. split; [done|]. apply inv_get_same; [done|done| | |]; [by intros m'; unfold is_holder; rewrite Epc|by rewrite Hv|]. by apply Hfiles.
  - destruct (get_gives_back (GetLoop mid) vid) as (vs & E & Hi); [done|done|by intros m'; unfold is_holder; rewrite Epc|done|]. rewrite E. cbn [mbind res_bind].
    eexists _, _. split; [done|]. exact Hi.
Qed.

Lemma get_files mid vid l0fns : gt_pc g = GetFiles mid vid l0fns → runs_to.
Proof using All.
  intros Epc. unfold runs_to. rewrite Epc. cbn [get_step]. destruct (gi_key _ (di_gets _ Hinv) i g Hg) as [Hk Hsz].
  assert (get_holds g = Some vid) as Hv by (unfold get_holds; by rewrite Epc). destruct (held_live vid Hv) as [o Ho].
  pose proof (gi_pc _ (di_gets _ Hinv) i g Hg) as Hpc. unfold pc_ok in Hpc. rewrite Epc in Hpc. cbn zeta in Hpc. unfold deref. rewrite Ho. cbn [mbind res_bind].
  destruct (read_version_ok S vid o (gt_key g) (gt_answers g) l0fns Hinv Hk Ho Hpc) as (st & v & -> & Hr). cbn [mbind res_bind].
  eexists _, _. split; [done|]. apply inv_get_same; [done|done| | |]; [by intros m'; unfold is_holder; rewrite Epc|by rewrite Hv|done].
Qed.

Lemma get_unref vid st v : gt_pc g = GetUnref vid st v → runs_to.
Proof using All.
  intros Epc. unfold runs_to. rewrite Epc. cbn [get_step]. assert (get_holds g = Some vid) as Hv by (unfold get_holds; by rewrite Epc).
  pose proof (gi_pc _ (di_gets _ Hinv) i g Hg) as Hpc. unfold pc_ok in Hpc. rewrite Epc in Hpc. cbn zeta in Hpc.
  destruct (get_gives_back (GetDone st v) vid) as (vs & E & Hi); [done|done|by intros m'; unfold is_holder; rewrite Epc|done|]. rewrite E. cbn [mbind res_bind].
  eexists _, _. split; [done|]. exact Hi.
Qed.

Lemma get_runs : (∀ st v, gt_pc g ≠ GetDone st v) → runs_to.
Proof using All.
  intros Hnd. destruct (gt_pc g) as [|mid|mid|mid r|mid|mid v|mid v|mid v l|v st x|st x] eqn:Epc.
  - by apply get_start.
  - by apply (get_indexed mid).
  - by apply (get_memtable mid).
  - by apply (get_release mid r).
  - by apply (get_loop mid).
  - by apply (get_version mid v).
  - by apply (get_held mid v).
  - by apply (get_files mid v l).
  - by apply (get_unref v st x).
  - by destruct (Hnd st x).
Qed.

Lemma get_step_inv db pc :
  get_step U options (s_db S) (gt_key g) (hash (gt_key g)) (gt_pc g) = Ret (db, pc) → db_inv (get_to S i g db pc).
Proof using All.
  intros E. destruct get_runs as (db' & pc' & E' & Hi); [|congruence]. intros st v Epc. by rewrite Epc in E.
Qed.
End steps.

(** ** New threads *)

Lemma pc_ok_answers S g A :
  (∀ r, r ∈ gt_answers g → r ∈ A) → pc_ok S g → pc_ok S (mkGetThread (gt_key g) (gt_pc g) A).
Proof.
  intros HA. assert (∀ mid, mid_ok S (gt_key g) (gt_answers g) mid → mid_ok S (gt_key g) A mid) as Hm.
  { intros mid [[H1 H2]|[H1 (w & H2 & H3)]]; [left; split; [done|by apply HA]|right]. split; [done|]. exists w. split; [done|by apply HA]. }
  assert (∀ st v, result_ok (gt_answers g) st v → result_ok A st v) as Hr.
  { intros st v (r & H1 & H2). exists r. split; [by apply HA|done]. }
  unfold pc_ok. cbn [gt_pc gt_key gt_answers]. destruct (gt_pc g) as [|mid|mid|mid r|mid|mid v|mid v|mid v l|v st x|st x]; try done.
  - apply Hm.
  - intros [H1 H2]. split; [done|by apply Hm].
  - intros [H1 (v & H2 & H3)]. split; [done|]. exists v. split; [done|by apply HA].
  - intros [H1 H2]. split; [by apply Hm|done].
  - intros (H1 & H2 & H3). split; [by apply Hm|done].
  - intros [H1 H2]. split; [by apply Hm|done].
  - intros [[H1 H2]|(n & l' & w & H1 & H2 & H3 & H4 & H5 & H6 & H7)]; [left; split; [done|by apply HA]|right].
    exists n, l', w. split_and!; try done. by apply HA.
  - apply Hr.
  - apply Hr.
Qed.

Lemma filter_fmap_same {A} (P : A → bool) (f : A → A) (l : list A) :
  (∀ x, P (f x) = P x) → length (filter (λ x, P x = true) (f <$> l)) = length (filter (λ x, P x = true) l).
Proof.
  intros H. induction l as [|x l IH]; [done|]. rewrite fmap_cons, !filter_cons. rewrite H. destruct (decide (P x = true)); cbn [length]; by rewrite IH.
Qed.

Lemma omap_fmap_same {A B} (h : A → option B) (f : A → A) (l : list A) : (∀ x, h (f x) = h x) → omap h (f <$> l) = omap h l.
Proof. intros H. induction l as [|x l IH]; [done|]. cbn [fmap list_fmap omap list_omap]. by rewrite H, IH. Qed.

Lemma more_answer_fields key value g :
  gt_key (more_answer key value g) = gt_key g ∧ gt_pc (more_answer key value g) = gt_pc g
  ∧ (∀ r, r ∈ gt_answers g → r ∈ gt_answers (more_answer key value g))
  ∧ (gt_key g = key → Some value ∈ gt_answers (more_answer key value g)).
Proof.
  unfold more_answer. case_decide; split_and!; try done; cbn [gt_answers].
  - intros r Hr. by right.
  - intros _. by left.
Qed.

Section begin_put.
Context (S : State W) (key value : bytes) (attempts : list (Z * bool)).
Hypothesis Hinv : db_inv S.
Hypothesis Hkey : key_ok key.
Hypothesis Hks : size_of key + 8 < 2 ^ 32.
Hypothesis Hvs : size_of value < 2 ^ 32.
Hypothesis Hsmall : size_of (s_puts S) < 2 ^ 31.
Hypothesis Halone : Forall (λ t, put_active t = true → pt_key t ≠ key) (s_puts S).
Local Abbreviation t0 := (mkPut key value (hash key) attempts 0 PutStart).
Local Abbreviation S' := (mkState (s_db S) (s_puts S ++ [t0]) (more_answer key value <$> s_gets S) (s_flushes S) (s_mutex S) (s_done S) (s_contents S)).

Lemma begin_reserved mid : reserved_count S' mid = reserved_count S mid.
Proof. unfold reserved_count. cbn [s_puts]. rewrite filter_app, length_app.
  replace (length (filter (λ t, is_reserved mid t = true) [t0])) with 0%nat by done. lia. Qed.
Lemma begin_holders mid : holder_count S' mid = holder_count S mid.
Proof.
  unfold holder_count. cbn [s_gets]. rewrite (filter_fmap_same (is_holder mid)); [done|]. intros g. unfold is_holder.
  by destruct (more_answer_fields key value g) as (_ & -> & _).
Qed.
Lemma begin_held : held_versions S' = held_versions S.
Proof.
  unfold held_versions. cbn [s_gets]. apply omap_fmap_same. intros g. unfold get_holds. by destruct (more_answer_fields key value g) as (_ & -> & _).
Qed.

Lemma new_put_lookup i t : s_puts S' !! i = Some t → s_puts S !! i = Some t ∨ i = length (s_puts S) ∧ t = t0.
Proof. intros [H|[H1 H2]]%lookup_app_Some; [by left|right]. apply list_lookup_singleton_Some in H2 as [? <-]. split; [lia|done]. Qed.

Lemma begin_puts_inv : puts_inv S'.
Proof using All.
  destruct (di_puts _ Hinv) as [H1 H2 H3 H4 H5 H6 H7 H8 H9]. split; try done.
  - intros i t [Ht|[-> ->]]%new_put_lookup; [by eapply H2|done].
  - intros i t [Ht|[-> ->]]%new_put_lookup; [by eapply H3|done].
  - intros i j t t' [Ht|[-> ->]]%new_put_lookup [Ht'|[-> ->]]%new_put_lookup; try done. by eapply H4.
  - rewrite Forall_lookup in Halone. intros i j t t' [Ht|[-> ->]]%new_put_lookup [Ht'|[-> ->]]%new_put_lookup; try done.
    + by eapply H5.
    + intros Ha _ Hk. by destruct (Halone i t Ht Ha).
    + intros _ Ha Hk. by destruct (Halone j t' Ht' Ha).
  - intros i t mid imm [Ht|[-> ->]]%new_put_lookup; [by eapply H6|done].
  - intros i t mid [Ht|[-> ->]]%new_put_lookup; [by eapply H7|done].
  - intros i t mid imm [Ht|[-> ->]]%new_put_lookup; [by eapply H8|done].
  - cbn [s_puts]. rewrite length_app. cbn [length]. lia.
Qed.

Lemma put_begin_inv : db_inv S'.
Proof using All.
  pose proof Hinv as [Hsl Hpa Hfl Hve _ Hix Hge]. split.
  - destruct Hsl as [H1 H2 H2' H3 H4 H5 H6 H7 H8 H9 H10 H11 H12]. split; try done.
    + intros mid a Ha. rewrite begin_holders. by apply H3.
    + intros mid a Ha. rewrite begin_reserved. by apply H5.
    + intros mid a Ha. rewrite begin_reserved. by apply H6.
    + intros mid Hn. rewrite begin_holders. by apply H10.
    + intros mid Hn. rewrite begin_reserved. by apply H11.
  - destruct Hpa as [H1 H2 H3 H4 H5 H6]. split; try done. intros mid a Ha Hn. rewrite begin_reserved. by eapply H4.
  - by destruct Hfl.
  - destruct Hve as [H1 H2 H3 H4 H5]. split; try done; [by rewrite begin_held|]. cbn [s_gets]. by rewrite length_fmap.
  - apply begin_puts_inv.
  - destruct Hix as [H1 H2 H3]. split; try done. intros k w mid Hd. destruct (H3 k w mid Hd) as (H4 & H5 & H6). split; [done|]. split; [done|].
    intros w' Hw' Hk. destruct (H6 w' Hw' Hk) as [|(i & t & imm & Ht & H7)]; [by left|right]. exists i, t, imm. split; [|done]. by apply lookup_app_l_Some.
  - destruct Hge as [H1 H2 H3 H4]. split.
    + intros i g' Hi. apply list_lookup_fmap_Some in Hi as (g & -> & Hi). destruct (more_answer_fields key value g) as (-> & _). by eapply H1.
    + intros i g' Hi. apply list_lookup_fmap_Some in Hi as (g & -> & Hi). destruct (more_answer_fields key value g) as (-> & _ & Hm & _). apply Hm. by eapply H2.
    + intros i g' j t Hi Hj Ha. apply list_lookup_fmap_Some in Hi as (g & -> & Hi). destruct (more_answer_fields key value g) as (-> & _ & Hm & Hn). intros Hk.
      apply new_put_lookup in Hj as [Hj|[-> ->]]; [|by apply Hn]. apply Hm. by eapply H3.
    + intros i g' Hi. apply list_lookup_fmap_Some in Hi as (g & -> & Hi). specialize (H4 i g Hi). destruct (more_answer_fields key value g) as (Ek & Ep & Hm & _).
      pose proof (pc_ok_answers S g _ Hm H4) as Hp. destruct (more_answer key value g) as [k pc A]. cbn [gt_key gt_pc gt_answers] in *. subst. exact Hp.
Qed.
End begin_put.

Lemma get_begin_inv S key :
  db_inv S → key_ok key → size_of key + 8 < 2 ^ 32 → size_of (s_gets S) < 2 ^ 30 →
  db_inv (mkState (s_db S) (s_puts S)
    (s_gets S ++ [mkGetThread key GetStart (current_value base_value (s_done S) key
       :: ((λ t, Some (pt_value t)) <$> filter (λ t, put_active t = true ∧ pt_key t = key) (s_puts S)))])
    (s_flushes S) (s_mutex S) (s_done S) (s_contents S)).
Proof.
  intros Hinv Hk Hks Hsm. set (g0 := mkGetThread key GetStart _). set (S' := mkState _ _ _ _ _ _ _).
  assert (∀ mid, holder_count S' mid = holder_count S mid) as Hh.
  { intros mid. unfold holder_count. cbn [S' s_gets]. rewrite filter_app, length_app. replace (length (filter (λ g, is_holder mid g = true) [g0])) with 0%nat by done. lia. }
  assert (held_versions S' = held_versions S) as Hhv.
  { unfold held_versions. cbn [S' s_gets]. rewrite omap_app. cbn. by rewrite app_nil_r. }
  assert (∀ i g, s_gets S' !! i = Some g → s_gets S !! i = Some g ∨ g = g0) as Hl.
  { intros i g [H|[H1 H2]]%lookup_app_Some; [by left|right]. by apply list_lookup_singleton_Some in H2 as [? <-]. }
  pose proof Hinv as [Hsl Hpa Hfl Hve Hpu Hix Hge]. split; try done.
  - destruct Hsl as [H1 H2 H2' H3 H4 H5 H6 H7 H8 H9 H10 H11 H12]. split; try done.
    + intros mid a Ha. rewrite Hh. by apply H3.
    + intros mid Hn. rewrite Hh. by apply H10.
  - destruct Hpa. by split.
  - destruct Hfl. by split.
  - destruct Hve as [H1 H2 H3 H4 H5]. split; try done; [by rewrite Hhv|]. cbn [S' s_gets]. rewrite length_app. cbn [length]. lia.
  - destruct Hpu. by split.
  - destruct Hix. by split.
  - destruct Hge as [H1 H2 H3 H4]. split.
    + intros i g [Hg| ->]%Hl; [by eapply H1|done].
    + intros i g [Hg| ->]%Hl; [by eapply H2|]. by left.
    + intros i g j t [Hg| ->]%Hl; [by eapply H3|]. intros Ht Ha Hkt. right. apply list_elem_of_fmap. exists t. split; [done|].
      apply list_elem_of_filter. split; [done|by eapply list_elem_of_lookup_2].
    + intros i g [Hg| ->]%Hl; [by eapply H4|done].
Qed.

(** ** Steps that do not move flushed data *)

(** What a flush has to show of a slot. *)
Definition same_files (a a' : AtomicMemTable) : Prop :=
  is_flushed_ a' = is_flushed_ a ∧ last_version_id_ a' = last_version_id_ a ∧ l0_file_numbers_ a' = l0_file_numbers_ a
  ∧ (is_scheduled_for_flushing a = true → is_scheduled_for_flushing a' = true).

Definition pc_like (pc pc' : FlushPc) : Prop :=
  pc_built pc' = pc_built pc ∧ pc_version pc' = pc_version pc
  ∧ ∀ vid todo built, pc' = FlushSet vid todo built → ∃ todo', pc = FlushSet vid todo' built ∧ ∀ b, b ∈ todo → b ∈ todo'.

Lemma pc_like_refl pc : pc_like pc pc.
Proof. split; [done|]. split; [done|]. intros vid todo built ->. by exists todo. Qed.

Lemma level_ok_mono key (P Q : FileMetaData → list kv → Prop) files ls :
  (∀ f l, P f l → Q f l) → level_ok U P key files ls → level_ok U Q key files ls.
Proof.
  intros HPQ [H1 H2 H3 H4]. split; try done. eapply Forall2_impl; [exact H1|]. intros f l (G1 & G2 & G3). split; [by apply HPQ|done].
Qed.

Section calm.
Context (S S' : State W).
Hypothesis Hinv : db_inv S.
Hypothesis k_versions : vset S' = vset S.
Hypothesis k_store : ∀ f l, stored (store S) f l → stored (store S') f l.
Hypothesis k_next : db_next_file (s_db S) <= db_next_file (s_db S').
Hypothesis k_gets : s_gets S' = s_gets S.
Hypothesis k_mutex : s_mutex S' = s_mutex S.
Hypothesis k_flushes : ∀ i pc, s_flushes S !! i = Some pc → is_Some (pc_version pc) →
  ∃ pc', s_flushes S' !! i = Some pc' ∧ pc_version pc' = pc_version pc ∧ pc_built pc' = pc_built pc.
Hypothesis k_flushes_back : ∀ i pc', s_flushes S' !! i = Some pc' →
  (∃ pc, s_flushes S !! i = Some pc ∧ pc_like pc pc') ∨ (flush_ok S' pc' ∧ pc_version pc' = None).
Hypothesis k_slots : ∀ mid a, slots S !! mid = Some a → ∃ a', slots S' !! mid = Some a'
  ∧ (is_flushed_ a = true → is_flushed_ a' = true) ∧ (is_scheduled_for_flushing a = true → is_scheduled_for_flushing a' = true).
Hypothesis k_slots_back : ∀ mid a', slots S' !! mid = Some a' →
  (∃ a, slots S !! mid = Some a ∧ same_files a a')
  ∨ (is_flushed_ a' = false ∧ last_version_id_ a' = 0) ∨ (is_flushed_ a' = true ∧ flushed_ok S' mid a').
Hypothesis k_cont : ∀ mid a, slots S !! mid = Some a → is_scheduled_for_flushing a = true → cont S' mid = cont S mid.

Lemma calm_holds f l : holds_table U (stored (store S)) f l → holds_table U (stored (store S')) f l.
Proof using k_store. intros (H1 & H2). split; [by apply k_store|done]. Qed.

Lemma calm_has_table o n l : has_table S o n l → has_table S' o n l.
Proof using k_store. intros (f & H1 & H2 & H3). exists f. split; [done|]. split; [done|by apply calm_holds]. Qed.

Lemma calm_flushed mid a a' :
  slots S !! mid = Some a → same_files a a' → is_flushed_ a = true → flushed_ok S mid a → flushed_ok S' mid a'.
Proof using All.
  intros Ha (E1 & E2 & E3 & _) Hf (n & l & H1 & H2 & H3 & H4). exists n, l. rewrite E3. split; [done|].
  rewrite (k_cont mid a Ha) by by eapply (si_flushed _ (di_slots _ Hinv)). split; [done|]. rewrite E2, k_versions. split.
  - intros id o Ho Hle. by apply calm_has_table, (H3 id).
  - destruct H4 as [H4|(i & pc & b & H5 & H6 & H7 & H8 & H9 & H10)]; [by left|right].
    destruct (k_flushes i pc H5) as (pc' & Hpc' & E4 & E5); [by rewrite H6|].
    exists i, pc', b. rewrite E5, E4. split_and!; try done. by apply calm_holds.
Qed.

Lemma calm_flush_ok pc pc' : flush_ok S pc → pc_built pc' = pc_built pc → flush_ok S' pc'.
Proof using All.
  intros [Hn Hb] E. unfold flush_ok. rewrite E. split; [done|]. intros b Hin. destruct (Hb b Hin) as (Hlt & l & Hl1 & Hl2 & a & Ha & Hs).
  split; [lia|]. exists l. split; [by apply calm_holds|]. rewrite (k_cont _ a Ha Hs). split; [done|].
  destruct (k_slots _ a Ha) as (a' & Ha' & _ & Hss). exists a'. split; [done|by apply Hss].
Qed.

Lemma calm_flush_inv : flush_inv S'.
Proof using All.
  pose proof (di_flush _ Hinv) as [H1 H2 H3 H4 H5 H6].
  assert (∀ i pc', s_flushes S' !! i = Some pc' → is_Some (pc_version pc') → ∃ pc, s_flushes S !! i = Some pc ∧ pc_like pc pc') as Hver.
  { intros i pc' Hi Hv. destruct (k_flushes_back i pc' Hi) as [H|[_ Hn]]; [done|]. rewrite Hn in Hv. by destruct Hv. }
  split.
  - intros mid a' Ha' Hf. destruct (k_slots_back mid a' Ha') as [(a & Ha & Hs)|[[Hf' _]|[_ H]]]; [|congruence|done].
    assert (is_flushed_ a = true) as Hfa by (by rewrite <- (proj1 Hs)). eapply calm_flushed; try done. by apply H1.
  - intros mid a' Ha' Hf. destruct (k_slots_back mid a' Ha') as [(a & Ha & E1 & E2 & _)|[[_ Hl]|[Hf' _]]]; [|done|congruence]. rewrite E2. eapply H2; [done|congruence].
  - intros i pc' Hpc'. destruct (k_flushes_back i pc' Hpc') as [(pc & Hpc & E & _)|[H _]]; [|done]. by eapply calm_flush_ok; [apply (H3 i)|].
  - intros i j pc' pc2' Hi Hj Hv Hv'. destruct (Hver i pc' Hi Hv) as (pc & Hpc & _ & E & _), (Hver j pc2' Hj Hv') as (pc2 & Hpc2 & _ & E2 & _).
    eapply H4; [done|done|by rewrite <- E|by rewrite <- E2].
  - intros i pc' vid Hi Hv. destruct (Hver i pc' Hi) as (pc & Hpc & _ & E & _); [by rewrite Hv|]. rewrite k_mutex, k_versions. eapply H5; [done|by rewrite <- E].
  - intros i vid todo built Hi b Hb. destruct (Hver i _ Hi) as (pc & Hpc & _ & _ & E); [done|]. destruct (E _ _ _ eq_refl) as (todo' & -> & Hsub).
    eapply H6; [done|by apply Hsub].
Qed.

Lemma calm_versions_inv : versions_inv S'.
Proof using Hinv k_versions k_store k_gets.
  pose proof (di_versions _ Hinv) as [H1 H2 H3 H4 HR]. split.
  - unfold held_versions. by rewrite k_versions, k_gets.
  - by rewrite k_gets.
  - by rewrite k_versions.
  - rewrite k_versions. intros id o Ho. destruct (H4 id o Ho) as (H5 & H6 & H7). split; [done|]. split; [done|]. intros key Hk.
    eapply Forall2_impl; [by apply H7|]. intros files ls. by apply level_ok_mono.
  - by rewrite k_versions.
Qed.

Lemma calm_gets_inv :
  (∀ i g mid, s_gets S !! i = Some g → mid_ok S (gt_key g) (gt_answers g) mid → mid_ok S' (gt_key g) (gt_answers g) mid) →
  (∀ i g, s_gets S !! i = Some g → current_value base_value (s_done S') (gt_key g) ∈ gt_answers g) →
  (∀ j t', s_puts S' !! j = Some t' → put_active t' = true →
     ∃ t, s_puts S !! j = Some t ∧ put_active t = true ∧ pt_key t = pt_key t' ∧ pt_value t = pt_value t') →
  gets_inv S'.
Proof using Hinv k_versions k_store k_gets k_slots.
  intros Hmid Hcur Hput. pose proof (di_gets _ Hinv) as [H1 H2 H3 H4]. split; rewrite k_gets; try done.
  - intros i g j t' Hg Ht' Ha Hk. destruct (Hput j t' Ht' Ha) as (t & Ht & Hta & E1 & E2). rewrite <- E2. eapply H3; [done|done|done|congruence].
  - intros i g Hg. specialize (H4 i g Hg). pose proof (Hmid i g) as Hm. unfold pc_ok in *.
    assert (∀ mid, gone S mid → gone S' mid) as Hgone.
    { intros mid [H|(a & Ha & Hf)]; [by left|right]. destruct (k_slots mid a Ha) as (a' & Ha' & Hs & _). exists a'. split; [done|by apply Hs]. }
    destruct (gt_pc g) as [|mid|mid|mid r|mid|mid v|mid v|mid v l|v st x|st x]; cbn zeta in *; try done.
    + by apply Hm.
    + split; [apply H4|]. apply Hm; [done|apply H4].
    + destruct H4 as [[a Ha] H4]. split; [|done]. destruct (k_slots mid a Ha) as (a' & Ha' & _). by exists a'.
    + destruct H4 as [H4 H5]. split; [by apply Hm|by apply Hgone].
    + destruct H4 as (H4 & H5 & H6). rewrite k_versions. split; [by apply Hm|]. split; [by apply Hgone|done].
    + destruct H4 as [H4 H5]. split; [by apply Hm|by apply Hgone].
    + destruct H4 as [H4|(n & l' & w & H5 & H6 & H7)]; [by left|right]. exists n, l', w. split; [done|]. rewrite k_versions. split; [|done].
      intros o Ho. by apply calm_has_table, H6.
Qed.

Lemma calm_mid_ok key A mid : s_contents S' = s_contents S → mid_ok S key A mid → mid_ok S' key A mid.
Proof using k_slots.
  intros E [H|[[a Ha] H]]; [by left|right]. split; [destruct (k_slots mid a Ha) as (a' & Ha' & _); by exists a'|]. unfold cont. by rewrite E.
Qed.
End calm.

(** Steps of writes do not change the flushes. *)
Section quiet.
Context (S S' : State W).
Hypothesis Hinv : db_inv S.
Hypothesis q_versions : vset S' = vset S.
Hypothesis q_store : store S' = store S.
Hypothesis q_next : db_next_file (s_db S') = db_next_file (s_db S).
Hypothesis q_gets : s_gets S' = s_gets S.
Hypothesis q_mutex : s_mutex S' = s_mutex S.
Hypothesis q_flushes : Forall2 pc_like (s_flushes S) (s_flushes S').
Hypothesis q_slots : ∀ mid a, slots S !! mid = Some a → ∃ a', slots S' !! mid = Some a' ∧ same_files a a'.
Hypothesis q_fresh : ∀ mid a', slots S' !! mid = Some a' → slots S !! mid = None → is_flushed_ a' = false ∧ last_version_id_ a' = 0.
Hypothesis q_cont : ∀ mid a, slots S !! mid = Some a → is_scheduled_for_flushing a = true → cont S' mid = cont S mid.

Lemma quiet_stored f l : stored (store S) f l → stored (store S') f l.
Proof using q_store. by rewrite q_store. Qed.
Lemma quiet_slots mid a : slots S !! mid = Some a → ∃ a', slots S' !! mid = Some a'
  ∧ (is_flushed_ a = true → is_flushed_ a' = true) ∧ (is_scheduled_for_flushing a = true → is_scheduled_for_flushing a' = true).
Proof using q_slots. intros Ha. destruct (q_slots mid a Ha) as (a' & Ha' & E & _ & _ & Hs). exists a'. by rewrite E. Qed.

Lemma quiet_flush_inv : flush_inv S'.
Proof using All.
  apply (calm_flush_inv S S'); try done; [apply quiet_stored|by rewrite q_next| | |apply quiet_slots|].
  - intros i pc Hi _. destruct (Forall2_lookup_l _ _ _ _ _ q_flushes Hi) as (pc' & Hpc' & E1 & E2 & _). by exists pc'.
  - intros i pc' Hi. left. destruct (Forall2_lookup_r _ _ _ _ _ q_flushes Hi) as (pc & ? & ?). by exists pc.
  - intros mid a' Ha'. destruct (slots S !! mid) as [a|] eqn:Ha; [left|right; left; by eapply q_fresh].
    destruct (q_slots mid a Ha) as (a'' & E & H). rewrite Ha' in E. injection E as <-. by exists a.
Qed.

Lemma quiet_versions_inv : versions_inv S'.
Proof using Hinv q_versions q_store q_gets. apply (calm_versions_inv S S'); try done. apply quiet_stored. Qed.

Lemma quiet_gets_inv :
  (∀ i g mid, s_gets S !! i = Some g → mid_ok S (gt_key g) (gt_answers g) mid → mid_ok S' (gt_key g) (gt_answers g) mid) →
  (∀ i g, s_gets S !! i = Some g → current_value base_value (s_done S') (gt_key g) ∈ gt_answers g) →
  (∀ j t', s_puts S' !! j = Some t' → put_active t' = true →
     ∃ t, s_puts S !! j = Some t ∧ put_active t = true ∧ pt_key t = pt_key t' ∧ pt_value t = pt_value t') →
  gets_inv S'.
Proof using Hinv q_versions q_store q_gets q_slots. apply (calm_gets_inv S S'); try done; [apply quiet_stored|apply quiet_slots]. Qed.

(** Without a change of the contents. *)
Lemma quiet_mid_ok key A mid : s_contents S' = s_contents S → mid_ok S key A mid → mid_ok S' key A mid.
Proof using q_slots.
  intros E [H|[[a Ha] H]]; [by left|right]. split; [destruct (q_slots mid a Ha) as (a' & Ha' & _); by exists a'|]. unfold cont. by rewrite E.
Qed.
End quiet.

(** ** Changes of the slots *)

Section slot_change.
Context (S S' : State W).
Hypothesis Hinv : db_inv S.
Hypothesis c_gets : s_gets S' = s_gets S.
Hypothesis c_last : db_last_sequence (s_db S) <= db_last_sequence (s_db S').
Hypothesis c_seq : db_memtable_id_seq (s_db S) <= db_memtable_id_seq (s_db S').

Lemma holders_same mid : holder_count S' mid = holder_count S mid.
Proof using c_gets. unfold holder_count. by rewrite c_gets. Qed.

Lemma slots_inv_same :
  slots S' = slots S → s_contents S' = s_contents S → (∀ mid, reserved_count S' mid = reserved_count S mid) → slots_inv S'.
Proof using Hinv c_gets c_last c_seq.
  intros Hs Hc Hr. pose proof (di_slots _ Hinv) as [H1 H2 H2' H3 H4 H5 H6 H7 H8 H9 H10 H11 H12].
  split; rewrite ?Hs; try (unfold cont; rewrite Hc); try done.
  - intros mid a Ha. specialize (H1 mid a Ha). lia.
  - lia.
  - intros mid a Ha. rewrite holders_same. by apply H3.
  - intros mid a Ha. rewrite Hr. by apply H5.
  - intros mid a Ha. rewrite Hr. by apply H6.
  - intros mid w Hw. destruct (H7 mid w Hw) as (? & ? & ? & ?). split_and!; try done. lia.
  - intros mid Hn. rewrite holders_same. by apply H10.
  - intros mid Hn. rewrite Hr. by apply H11.
Qed.

(** What holds of one slot. *)
Record slot_inv S0 (mid : Z) (a : AtomicMemTable) : Prop := {
  s1_range : 0 < mid < db_memtable_id_seq (s_db S0);
  s1_max : mid < MAX_LIVE_MEMTABLES;
  s1_slot : slot_ok (mkSlotSys a (holder_count S0 mid));
  s1_mem m : memtable_ a = Some m → holds U m (cont S0 mid) ∧ is_ready_ m = true ∧ memtable_id_ m = mid;
  s1_pending : number_of_pending_writes_ a = reserved_count S0 mid;
  s1_empty : cont S0 mid = [] → reserved_count S0 mid = 0 → memtable_size_ a = 0;
  s1_writes w : w ∈ cont S0 mid → write_ok w ∧ key_ok (wr_key w) ∧ wr_type w = kTypeValue ∧ wr_seq w < db_last_sequence (s_db S0);
  s1_nodup : NoDup (wr_seq <$> cont S0 mid);
  s1_flushed : is_flushed_ a = true → is_scheduled_for_flushing a = true
}.

Lemma slots_inv_at mid a : slots S !! mid = Some a → slot_inv S mid a.
Proof using Hinv.
  intros Ha. pose proof (di_slots _ Hinv) as [H1 H2 H2' H3 H4 H5 H6 H7 H8 H9 H10 H11 H12]. split; by eauto.
Qed.

Lemma slots_inv_insert mid a' :
  slots S' = <[mid := a']> (slots S) → (∀ mid', mid' ≠ mid → cont S' mid' = cont S mid') →
  (∀ mid', mid' ≠ mid → reserved_count S' mid' = reserved_count S mid') → slot_inv S' mid a' → slots_inv S'.
Proof using Hinv c_gets c_last c_seq.
  intros Hs Hc Hr [G1 G2 G3 G4 G5 G6 G7 G8 G9]. pose proof (di_slots _ Hinv) as [H1 H2 H2' H3 H4 H5 H6 H7 H8 H9 H10 H11 H12].
  assert (∀ mid', mid' ≠ mid → slots S' !! mid' = slots S !! mid') as Hl by (intros mid' Hne; by rewrite Hs, lookup_insert_ne by done).
  assert (slots S' !! mid = Some a') as Hl' by (by rewrite Hs, lookup_insert_eq).
  split; try lia; intros mid'; (destruct (decide (mid' = mid)) as [->|Hne]; [rewrite ?Hl'|rewrite ?Hl, ?Hc, ?Hr, ?holders_same by done]); try done; try (by intros ? [= <-]); try (intros ? ? [= <-]; by apply G4).
  - intros a Ha. specialize (H1 mid' a Ha). lia.
  - by apply H2'.
  - by apply H3.
  - by apply H4.
  - by apply H5.
  - by apply H6.
  - intros w Hw. destruct (H7 mid' w Hw) as (? & ? & ? & ?). split_and!; try done. lia.
  - by apply H9.
  - by apply H10.
  - by apply H11.
  - by apply H12.
Qed.
End slot_change.

(** ** Changes of the writes *)

(** What holds of one write. *)
Record put_inv S (t : PutThread) : Prop := {
  p1_thread : key_ok (pt_key t) ∧ size_of (pt_key t) + 8 < 2 ^ 32 ∧ size_of (pt_value t) < 2 ^ 32 ∧ pt_hash t = hash (pt_key t);
  p1_waiting : put_waiting t = true → 0 <= pt_seq t < db_last_sequence (s_db S)
    ∧ ∀ mid w, w ∈ cont S mid → wr_seq w ≠ pt_seq t ∧ (wr_key w = pt_key t → wr_seq w < pt_seq t);
  p1_reserved mid imm : pt_pc t = PutReserved mid imm →
    ∃ pid b rest p, pt_attempts t = (pid, b) :: rest ∧ parts S !! Z.to_nat pid = Some p ∧ active_memtable p = Some mid;
  p1_resumed mid : pt_pc t = PutLoop (Some mid) →
    is_Some (slots S !! mid) ∧ ∃ pid b rest, pt_attempts t = (pid, b) :: rest
      ∧ ((∃ p, parts S !! Z.to_nat pid = Some p ∧ active_memtable p = Some mid) ∨ ¬ active S mid);
  p1_added mid imm : pt_pc t = PutAdded mid imm →
    thread_write t ∈ cont S mid ∧ ∀ mid' w, w ∈ cont S mid' → wr_key w = pt_key t → wr_seq w <= pt_seq t
}.

Lemma puts_inv_at S i t : puts_inv S → s_puts S !! i = Some t → put_inv S t.
Proof. intros [H1 H2 H3 H4 H5 H6 H7 H8 H9] Ht. split; by eauto. Qed.

Lemma puts_inv_same S S' :
  puts_inv S → s_puts S' = s_puts S → db_last_sequence (s_db S') = db_last_sequence (s_db S) →
  (∀ i t, s_puts S !! i = Some t → put_inv S' t) → puts_inv S'.
Proof.
  intros [H1 H2 H3 H4 H5 H6 H7 H8 H9] E El Ht. split; rewrite ?E, ?El; try done; intros i t.
  - intros Hi. rewrite <- El. apply (p1_waiting _ _ (Ht i t Hi)).
  - intros mid imm Hi. by apply (p1_reserved _ _ (Ht i t Hi)).
  - intros mid Hi. by apply (p1_resumed _ _ (Ht i t Hi)).
  - intros mid imm Hi. by apply (p1_added _ _ (Ht i t Hi)).
Qed.

Lemma puts_inv_to S S' i t t' :
  puts_inv S → s_puts S !! i = Some t → s_puts S' = <[i := t']> (s_puts S) →
  0 <= db_last_sequence (s_db S') → pt_key t' = pt_key t → (put_active t' = true → put_active t = true) →
  (∀ j tj, j ≠ i → s_puts S !! j = Some tj → put_waiting t' = true → put_waiting tj = true → pt_seq t' ≠ pt_seq tj) →
  (∀ j tj, j ≠ i → s_puts S !! j = Some tj → put_inv S' tj) → put_inv S' t' → puts_inv S'.
Proof.
  intros [H1 H2 H3 H4 H5 H6 H7 H8 H9] Hi E El Hk Ha Hd Ho Ht.
  assert (∀ j tj, s_puts S' !! j = Some tj → j = i ∧ tj = t' ∨ j ≠ i ∧ s_puts S !! j = Some tj) as Hl.
  { intros j tj. rewrite E. intros [(-> & -> & _)|[? ?]]%list_lookup_insert_Some; [by left|by right]. }
  assert (∀ j tj, s_puts S' !! j = Some tj → put_inv S' tj) as Hall by (intros j tj [[-> ->]|[Hne Hj]]%Hl; [done|by apply (Ho j)]).
  split; try done.
  - intros j tj Hj. apply (p1_thread _ _ (Hall j tj Hj)).
  - intros j tj Hj. apply (p1_waiting _ _ (Hall j tj Hj)).
  - intros j j' tj tj' [[-> ->]|[Hne Hj]]%Hl [[-> ->]|[Hne' Hj']]%Hl Hw Hw' Hjj; try done.
    + by apply (Hd j').
    + intros Eq. by apply (Hd j tj Hne Hj).
    + by eapply H4.
  - intros j j' tj tj' [[-> ->]|[Hne Hj]]%Hl [[-> ->]|[Hne' Hj']]%Hl Hw Hw' Hjj; try done.
    + destruct (H5 i j' t tj' Hi Hj'); [by apply Ha|done|congruence|done].
    + destruct (H5 j i tj t Hj Hi); [done|by apply Ha|congruence|done].
    + by eapply H5.
  - intros j tj mid imm Hj. apply (p1_reserved _ _ (Hall j tj Hj)).
  - intros j tj mid Hj. apply (p1_resumed _ _ (Hall j tj Hj)).
  - intros j tj mid imm Hj. apply (p1_added _ _ (Hall j tj Hj)).
  - by rewrite E, length_insert.
Qed.

Lemma put_inv_mono S S' t :
  put_inv S t → db_last_sequence (s_db S) <= db_last_sequence (s_db S') → s_contents S' = s_contents S →
  (∀ mid, is_Some (slots S !! mid) → is_Some (slots S' !! mid)) → parts S' = parts S → put_inv S' t.
Proof.
  intros [H1 H2 H3 H4 H5] Hl Hc Hs Hp. split; try done; unfold active, cont; rewrite ?Hc, ?Hp; try done.
  - intros Hw. destruct (H2 Hw) as [H6 H7]. split; [lia|exact H7].
  - intros mid Hpc. destruct (H4 mid Hpc) as [H6 H7]. split; [by apply Hs|done].
Qed.

(** The thread may stop to write, or go on to another partition. *)
Lemma index_inv_same S S' :
  index_inv S → db_lookup_index (s_db S') = db_lookup_index (s_db S) → s_done S' = s_done S → s_contents S' = s_contents S →
  (∀ i t mid imm, s_puts S !! i = Some t → pt_pc t = PutAdded mid imm → s_puts S' !! i = Some t) → index_inv S'.
Proof.
  intros [H1 H2 H3] Ei Ed Ec Hp. split; rewrite ?Ei, ?Ed; try done. intros key w mid Hk. unfold cont. rewrite Ec.
  destruct (H3 key w mid Hk) as (H4 & H5 & H6). split; [done|]. split; [done|]. intros w' Hw' Ek.
  destruct (H6 w' Hw' Ek) as [|(i & t & imm & Ht & Hpc & H7)]; [by left|right]. exists i, t, imm. split; [by eapply Hp|done].
Qed.

Lemma parts_inv_same S S' :
  parts_inv S → parts S' = parts S → db_imms (s_db S') = db_imms (s_db S) → flush_mids S' = flush_mids S →
  (∀ mid a, slots S !! mid = Some a → ∃ a', slots S' !! mid = Some a' ∧ is_scheduled_for_flushing a' = is_scheduled_for_flushing a
     ∧ is_flushed_ a' = is_flushed_ a) →
  (∀ mid a', slots S' !! mid = Some a' → ¬ active S mid → ∃ a, slots S !! mid = Some a ∧ memtable_size_ a' = memtable_size_ a) →
  (∀ mid, ¬ active S mid → reserved_count S' mid = reserved_count S mid) → parts_inv S'.
Proof.
  intros [H1 H2 H3 H4 H5 H6] Ep Ei Em Hs Hb Hr. split; unfold active in *; rewrite ?Ep, ?Ei, ?Em; try done.
  - intros mid Ha. destruct (H1 mid Ha) as (a & Ha' & Hsc). destruct (Hs mid a Ha') as (a' & ? & E & _). exists a'. by rewrite E.
  - intros i mid Hi H0. destruct (H3 i mid Hi H0) as [[a Ha] Hn]. split; [|done]. destruct (Hs mid a Ha) as (a' & ? & _). by exists a'.
  - intros mid a' Ha' Hn. destruct (Hb mid a' Ha' Hn) as (a & Ha & ->). rewrite Hr by done. by eapply H4.
  - intros mid Hm. destruct (H6 mid Hm) as (a & Ha & E1 & E2). destruct (Hs mid a Ha) as (a' & ? & E3 & E4). exists a'. rewrite E3, E4. done.
Qed.

(** ** The steps of a write *)

Lemma same_files_refl a : same_files a a.
Proof. done. Qed.

Lemma flushes_refl (l : list FlushPc) : Forall2 pc_like l l.
Proof. apply Forall2_same_length_lookup_2; [done|]. intros i pc pc' -> [= ->]. apply pc_like_refl. Qed.

Definition put_to S (i : nat) (db : DB W) (t' : PutThread) : State W :=
  mkState db (<[i := t']> (s_puts S)) (s_gets S) (s_flushes S) (s_mutex S) (s_done S) (s_contents S).

Lemma puts_to_active S i t t' :
  s_puts S !! i = Some t → pt_key t' = pt_key t → pt_value t' = pt_value t → (put_active t' = true → put_active t = true) →
  ∀ j tj', <[i := t']> (s_puts S) !! j = Some tj' → put_active tj' = true →
    ∃ tj, s_puts S !! j = Some tj ∧ put_active tj = true ∧ pt_key tj = pt_key tj' ∧ pt_value tj = pt_value tj'.
Proof.
  intros Hi Hk Hv Ha j tj' [(-> & -> & _)|[? ?]]%list_lookup_insert_Some Hj; [|by exists tj'].
  exists t. split; [done|]. split; [by apply Ha|done].
Qed.

Lemma reserved_to S S' i t t' mid :
  s_puts S !! i = Some t → s_puts S' = <[i := t']> (s_puts S) →
  reserved_count S' mid = reserved_count S mid - (if is_reserved mid t then 1 else 0) + (if is_reserved mid t' then 1 else 0).
Proof. intros Hi E. unfold reserved_count. rewrite E. by apply count_insert. Qed.

Lemma reserved_to_same S S' i t t' mid :
  s_puts S !! i = Some t → s_puts S' = <[i := t']> (s_puts S) → is_reserved mid t' = is_reserved mid t →
  reserved_count S' mid = reserved_count S mid.
Proof. intros Hi E Hr. rewrite (reserved_to S S' i t t' mid Hi E), Hr. destruct (is_reserved mid t); lia. Qed.

(** A step of a write between two of its effects. *)
Lemma inv_put_pc S i t t' last' :
  let S' := put_to S i (set_counters (s_db S) last' (db_memtable_id_seq (s_db S)) (db_next_file (s_db S))) t' in
  db_inv S → s_puts S !! i = Some t → db_last_sequence (s_db S) <= last' →
  pt_key t' = pt_key t → pt_value t' = pt_value t → (put_active t' = true → put_active t = true) →
  (∀ mid, is_reserved mid t' = is_reserved mid t) → (∀ mid imm, pt_pc t ≠ PutAdded mid imm) →
  (∀ j tj, j ≠ i → s_puts S !! j = Some tj → put_waiting t' = true → put_waiting tj = true → pt_seq t' ≠ pt_seq tj) →
  put_inv S' t' → db_inv S'.
Proof.
  intros S' Hinv Hi Hl Hk Hv Ha Hr Hna Hd Ht.
  assert (∀ mid, reserved_count S' mid = reserved_count S mid) as Hrc by (intros mid; by apply (reserved_to_same S S' i t t')).
  pose proof (di_puts _ Hinv) as Hpu. pose proof (flushes_refl (s_flushes S)) as Hfl. split.
  - by apply (slots_inv_same S S').
  - apply (parts_inv_same S S'); try done; [apply Hinv| |].
    + intros mid a Ha'. by exists a.
    + intros mid a Ha' _. by exists a.
  - apply (quiet_flush_inv S S'); try done; [|intros mid a' H1 H2; cbn in H1, H2; congruence]. intros mid a Ha'. by exists a.
  - by apply (quiet_versions_inv S S').
  - apply (puts_inv_to S S' i t t'); try done; [cbn; pose proof (pi_last _ Hpu); lia|].
    intros j tj Hne Hj. apply (put_inv_mono S S'); try done. by apply (puts_inv_at S j).
  - apply (index_inv_same S S'); try done; [apply Hinv|]. intros j tj mid imm Hj Hpc. cbn. rewrite list_lookup_insert_ne; [done|].
    intros ->. rewrite Hi in Hj. injection Hj as ->. by destruct (Hna mid imm).
  - assert (∀ mid a, slots S !! mid = Some a → ∃ a', slots S' !! mid = Some a' ∧ same_files a a') as Hsl by (intros mid a Ha'; by exists a).
    apply (quiet_gets_inv S S'); try done.
    + apply (gi_current _ (di_gets _ Hinv)).
    + by apply (puts_to_active S i t t').
Qed.

Lemma set_counters_same (db : DB W) : set_counters db (db_last_sequence db) (db_memtable_id_seq db) (db_next_file db) = db.
Proof. by destruct db. Qed.

(** The sequence number. *)
Lemma put_start_inv S i t :
  db_inv S → s_puts S !! i = Some t → pt_pc t = PutStart →
  db_inv (put_to S i (set_counters (s_db S) (db_last_sequence (s_db S) + 1) (db_memtable_id_seq (s_db S)) (db_next_file (s_db S)))
    (mkPut (pt_key t) (pt_value t) (pt_hash t) (pt_attempts t) (db_last_sequence (s_db S)) (PutLoop None))).
Proof.
  intros Hinv Hi Hpc. pose proof (di_puts _ Hinv) as Hpu. pose proof (pi_last _ Hpu) as Hl0.
  apply (inv_put_pc S i t); try done; [lia|by unfold put_active; rewrite Hpc|by unfold is_reserved; rewrite Hpc|by rewrite Hpc| |].
  - intros j tj Hne Hj _ Hw. destruct (pi_waiting _ Hpu j tj Hj Hw) as [Hlt _]. cbn [pt_seq]. lia.
  - pose proof (puts_inv_at S i t Hpu Hi) as [H1 _ _ _ _]. split; try done. intros _. cbn [pt_seq put_to s_db set_counters db_last_sequence]. split; [lia|].
    intros mid w Hw. destruct (si_writes _ (di_slots _ Hinv) mid w Hw) as (_ & _ & _ & Hlt). split; [lia|done].
Qed.

(** Another pass of the loop, or the end. *)
Lemma put_loop_inv S i t t' :
  db_inv S → s_puts S !! i = Some t → pt_key t' = pt_key t → pt_value t' = pt_value t → pt_hash t' = pt_hash t → pt_seq t' = pt_seq t →
  (∃ r, pt_pc t = PutLoop r) → (∃ r, pt_pc t' = PutLoop r) →
  (∀ mid, pt_pc t' = PutLoop (Some mid) →
    is_Some (slots S !! mid) ∧ ∃ pid b rest, pt_attempts t' = (pid, b) :: rest
      ∧ ((∃ p, parts S !! Z.to_nat pid = Some p ∧ active_memtable p = Some mid) ∨ ¬ active S mid)) →
  db_inv (put_to S i (s_db S) t').
Proof.
  intros Hinv Hi Hk Hv Hh Hs [r Hpc] [r' Hpc'] Hres. pose proof (di_puts _ Hinv) as Hpu. pose proof (puts_inv_at S i t Hpu Hi) as [H1 H2 _ _ _].
  rewrite <- (set_counters_same (s_db S)). apply (inv_put_pc S i t); try done.
  - by unfold put_active; rewrite Hpc.
  - by unfold is_reserved; rewrite Hpc, Hpc'.
  - by rewrite Hpc.
  - intros j tj Hne Hj _ Hw. rewrite Hs. apply (pi_distinct _ Hpu i j); try done. by unfold put_waiting; rewrite Hpc.
  - split; try (intros ? ? ?; congruence).
    + by rewrite Hk, Hv, Hh.
    + intros _. rewrite Hs, Hk. apply H2. by unfold put_waiting; rewrite Hpc.
    + rewrite set_counters_same. exact Hres.
Qed.

Lemma put_end_inv S i t imm :
  db_inv S → s_puts S !! i = Some t → pt_pc t = PutSchedule imm → db_inv (put_to S i (s_db S) (at_pc t PutDone)).
Proof.
  intros Hinv Hi Hpc. pose proof (di_puts _ Hinv) as Hpu. pose proof (puts_inv_at S i t Hpu Hi) as [H1 _ _ _ _].
  rewrite <- (set_counters_same (s_db S)). apply (inv_put_pc S i t); try done; try (by rewrite Hpc); by unfold is_reserved; rewrite Hpc.
Qed.

(** *** The pass for a memtable *)

Definition with_db S (db : DB W) : State W :=
  mkState db (s_puts S) (s_gets S) (s_flushes S) (s_mutex S) (s_done S) (s_contents S).

Lemma l0_full_ok vs h vs' r :
  sys_ok (mkSys vs h) → size_of h <= 2 ^ 30 → l0_full options vs = Ret (vs', r) → versions_like vs vs' ∧ sys_ok (mkSys vs' h).
Proof.
  intros Hs Hh. unfold l0_full. case_decide; [|intros [= <- _]; split; [apply versions_like_refl|done]].
  intros ([vs1 r1] & E1 & E2)%res_bind_Ret. pose proof (on_version_range _ _ _ _ E1) as Hr.
  destruct (Ref_ok (mkSys vs h) (current_version_id_ vs) Hs) as (vs1' & r1' & E1' & H1 & _); [cbn [held]; unfold int_max; lia|done|].
  cbn [sys] in E1'. rewrite E1 in E1'. injection E1' as <- <-. pose proof (Ref_like _ _ _ _ E1) as Hl1. destruct r1 as [v|]; [|done].
  apply res_bind_Ret in E2 as (o & _ & E2). apply res_bind_Ret in E2 as ([vs2 u] & E2 & E3). injection E3 as <- _.
  destruct H1 as (-> & _ & H1). destruct (Unref_ok _ [] h (current_version_id_ vs) H1 eq_refl) as (vs2' & E2' & H2 & _). cbn [sys app] in *.
  rewrite E2 in E2'. injection E2' as <- _. split; [|done]. pose proof (Unref_like _ _ _ _ E2) as (G1 & G2 & G3 & G4 & G5).
  destruct Hl1 as (F1 & F2 & F3 & F4 & F5). split_and!; try congruence. intros id o2 Ho2. destruct (G5 id o2 Ho2) as (o1 & Ho1 & ->). apply (F5 id o1 Ho1).
Qed.

Lemma inv_with_versions S vs' :
  db_inv S → versions_like (vset S) vs' → sys_ok (mkSys vs' (held_versions S)) → db_inv (with_db S (set_versions (s_db S) vs')).
Proof.
  intros Hinv Hl Hs.
  assert (with_db S (set_versions (s_db S) vs') = with_refs S (slots S) vs' (s_gets S)) as -> by (unfold with_db, with_refs, set_versions, set_slots; by destruct (s_db S)).
  apply inv_refs; try done; [apply slots_like_refl|apply Hinv|apply Hinv|apply Hinv|]. intros i g Hg. exists g. split_and!; try done. by left.
Qed.

Lemma get_partition_some (db : DB W) pid p : get_partition db pid = Ret p → 0 <= pid ∧ db_partitions db !! Z.to_nat pid = Some p.
Proof. unfold get_partition. case_decide; [|done]. destruct (db_partitions db !! Z.to_nat pid) eqn:E; [|done]. by intros [= <-]. Qed.
Lemma get_imm_some (db : DB W) s mid : get_imm db s = Ret mid → 0 <= s ∧ db_imms db !! Z.to_nat s = Some mid.
Proof. unfold get_imm. case_decide; [|done]. destruct (db_imms db !! Z.to_nat s) eqn:E; [|done]. by intros [= <-]. Qed.

(** Steps on the partitions only. *)
Lemma inv_with_partitions S ps imms n :
  let S' := with_db S (set_partitions (s_db S) ps imms n) in
  db_inv S → parts_inv S' → (∀ i t, s_puts S !! i = Some t → put_inv S' t) → db_inv S'.
Proof.
  intros S' Hinv Hp Ht. pose proof (flushes_refl (s_flushes S)) as Hfl.
  assert (∀ mid a, slots S !! mid = Some a → ∃ a', slots S' !! mid = Some a' ∧ same_files a a') as Hsl by (intros mid a Ha'; by exists a). split; try done.
  - by apply (slots_inv_same S S').
  - apply (quiet_flush_inv S S'); try done. intros mid a' H1 H2; cbn in H1, H2; congruence.
  - by apply (quiet_versions_inv S S').
  - apply (puts_inv_same S S'); try done. apply Hinv.
  - apply (index_inv_same S S'); try done. apply Hinv.
  - apply (quiet_gets_inv S S'); try done; [apply (gi_current _ (di_gets _ Hinv))|]. intros j t Hj Ha. by exists t.
Qed.

Lemma rotate_inv S pid mid p a db s :
  db_inv S → parts S !! Z.to_nat pid = Some p → active_memtable p = Some mid → slots S !! mid = Some a →
  memtable_size_ a > write_buffer_size options → number_of_pending_writes_ a = 0 →
  rotate (s_db S) pid mid = Ret (db, s) →
  db_inv (with_db S db) ∧ ∃ p', db_partitions db = <[Z.to_nat pid := p']> (parts S) ∧ active_memtable p' = None ∧ db_memtable_id_seq db = db_memtable_id_seq (s_db S).
Proof.
  intros Hinv Hp Hact Ha Hsz Hpe (p1 & [Hpid Hp1]%get_partition_some & E)%res_bind_Ret. rewrite Hp in Hp1. injection Hp1 as <-.
  destruct (available_slots p) as [|sl rest]; [done|]. apply res_bind_Ret in E as (i0 & Hi0 & E). case_decide; [|done]. subst i0. injection E as <- <-.
  set (p' := mkPartition None _ _ _ _ _). set (S' := with_db S _).
  assert (∀ j q, <[Z.to_nat pid := p']> (parts S) !! j = Some q → j = Z.to_nat pid ∧ q = p' ∨ j ≠ Z.to_nat pid ∧ parts S !! j = Some q) as Hl.
  { intros j q [(-> & -> & _)|[? ?]]%list_lookup_insert_Some; [by left|by right]. }
  assert (∀ m, active S' m → active S m ∧ m ≠ mid) as Hactive.
  { intros m (j & q & [[-> ->]|[Hne Hj]]%Hl & Hq); [done|]. split; [by exists j, q|]. intros ->. by destruct (pa_distinct _ (di_parts _ Hinv) j (Z.to_nat pid) q p mid). }
  assert (∀ m, ¬ active S' m → ¬ active S m ∨ m = mid) as Hinact.
  { intros m Hn. destruct (decide (m = mid)) as [|Hne]; [by right|left]. intros (j & q & Hj & Hq). apply Hn. exists j, q. split; [|done].
    cbn. rewrite list_lookup_insert_ne; [done|]. intros <-. congruence. }
  pose proof (si_pending _ (di_slots _ Hinv) mid a Ha) as Hpend. pose proof (di_parts _ Hinv) as Hpa. split; [|by exists p'].
  apply (inv_with_partitions S); [done| |].
  - destruct Hpa as [H1 H2 H3 H4 H5 H6]. split; try done.
    + intros m Hm. apply H1. by apply Hactive.
    + intros j j' q q' m [[-> ->]|[Hne Hj]]%Hl [[-> ->]|[Hne' Hj']]%Hl; try done. by apply (H2 j j' q q').
    + intros j m Hj Hm. cbn in Hj. apply list_lookup_insert_Some in Hj as [(-> & <- & _)|[Hne Hj]].
      * split; [by exists a|]. intros Hm'. by destruct (Hactive mid Hm').
      * destruct (H3 j m Hj Hm) as [H7 H8]. split; [done|]. intros Hm'. apply H8. by apply Hactive.
    + intros m b Hb Hn. destruct (Hinact m Hn) as [Hm| ->]; [by apply H4|]. cbn in Hb. assert (b = a) as -> by congruence. split; [done|].
      unfold reserved_count. cbn. unfold reserved_count in Hpend. lia.
  - intros j t Hj. pose proof (puts_inv_at S j t (di_puts _ Hinv) Hj) as [H1 H2 H3 H4 H5]. split; try done.
    + intros m imm Hpc. destruct (H3 m imm Hpc) as (pid' & b & r & q & E1 & E2 & E3). exists pid', b, r, q. split; [done|]. split; [|done].
      cbn. rewrite list_lookup_insert_ne; [done|]. intros E4. rewrite <- E4, Hp in E2. injection E2 as <-. assert (m = mid) as -> by congruence.
      pose proof (count_pos (is_reserved mid) _ j t Hj) as Hc. unfold is_reserved at 1 in Hc. rewrite Hpc, bool_decide_eq_true_2 in Hc by done.
      specialize (Hc eq_refl). unfold reserved_count in Hpend. lia.
    + intros m Hpc. destruct (H4 m Hpc) as (Hs & pid' & b & r & E1 & E2). split; [done|]. exists pid', b, r. split; [done|].
      destruct E2 as [(q & E2 & E3)|E2]; [|right; intros Hm; apply E2; by apply Hactive]. destruct (decide (Z.to_nat pid' = Z.to_nat pid)) as [E4|Hne].
      * right. rewrite E4, Hp in E2. injection E2 as <-. assert (m = mid) as -> by congruence. intros Hm. by destruct (Hactive mid Hm).
      * left. exists q. split; [|done]. cbn. by rewrite list_lookup_insert_ne by done.
Qed.

(** A new slot. *)
Lemma new_slot S S' gen m :
  let mid := db_memtable_id_seq (s_db S) in
  db_inv S → s_gets S' = s_gets S → s_puts S' = s_puts S → s_contents S' = s_contents S → db_memtable_id_seq (s_db S') = mid + 1 →
  db_last_sequence (s_db S') = db_last_sequence (s_db S) → mid < MAX_LIVE_MEMTABLES →
  MemTable_init new_char mid true = Ret m →
  slots S !! mid = None ∧ slot_inv S' mid (SetMemTable AtomicMemTable_init gen m).
Proof using new_char_ok OU.
  intros mid Hinv Eg Ep Ec Es El Hmax Em. pose proof (di_slots _ Hinv) as Hs.
  assert (slots S !! mid = None) as Hn by (destruct (slots S !! mid) as [a|] eqn:E; [pose proof (si_range _ Hs mid a E); lia|done]).
  split; [done|]. destruct new_char_ok as [Hf Hal]. destruct (holds_init U new_char Hf Hal mid true) as (m1 & Em1 & Hm & Hr). rewrite Em in Em1. injection Em1 as <-.
  assert (memtable_id_ m = mid ∧ MemTable.refs_ m = 0) as [Hid Hrefs].
  { unfold MemTable_init in Em. apply res_bind_Ret in Em as ([ar x] & _ & [= <-]). done. }
  pose proof (si_holder _ Hs mid Hn) as Hh. pose proof (si_reserved _ Hs mid Hn) as Hre. pose proof (si_dom _ Hs mid Hn) as Hd.
  assert (cont S' mid = []) as Hc by (unfold cont; by rewrite Ec).
  pose proof (si_bound _ Hs). split; try done.
  - lia.
  - unfold holder_count in *. rewrite Eg, Hh. split; unfold slot_refs; cbn; try done. intros m' [= <-]. cbn. lia.
  - cbn. intros m' [= <-]. rewrite Hc. done.
  - unfold reserved_count in *. cbn. by rewrite Ep.
  - intros w. rewrite Hc. intros []%not_elem_of_nil.
  - rewrite Hc. constructor.
Qed.

Lemma create_inv S pid p db mid :
  db_inv S → parts S !! Z.to_nat pid = Some p → active_memtable p = None → create_table new_char (s_db S) pid = Ret (db, mid) →
  db_inv (with_db S db) ∧ ∃ p', db_partitions db !! Z.to_nat pid = Some p' ∧ active_memtable p' = Some mid.
Proof using All.
  intros Hinv Hp Hact E. unfold create_table in E. apply res_bind_Ret in E as (m & Em & E). case_decide as Hmax; [|done].
  set (mid0 := db_memtable_id_seq (s_db S)) in *. apply res_bind_Ret in E as (a & Ea & E).
  apply res_bind_Ret in E as (p1 & [Hpid Hp1]%get_partition_some & E). cbn in Hp1. rewrite Hp in Hp1. injection Hp1 as <-. injection E as <- <-.
  set (p' := mkPartition (Some mid0) _ _ _ _ _). set (S' := with_db S _).
  destruct (new_slot S S' (latest_generation_id (db_order (s_db S))) m) as [Hfresh Hslot]; try done. fold mid0 in Hfresh, Hslot.
  assert (a = AtomicMemTable_init) as ->.
  { unfold get_slot in Ea. case_decide; [|done]. cbn in Ea. rewrite Hfresh in Ea. by injection Ea as <-. }
  assert (slots S' = <[mid0 := SetMemTable AtomicMemTable_init (latest_generation_id (db_order (s_db S))) m]> (slots S)) as Hsl by done.
  assert (∀ mid a, slots S !! mid = Some a → slots S' !! mid = Some a) as Hkeep by (intros mid a Ha; rewrite Hsl, lookup_insert_ne; [done|congruence]).
  assert (∀ j q, parts S' !! j = Some q → j = Z.to_nat pid ∧ q = p' ∨ j ≠ Z.to_nat pid ∧ parts S !! j = Some q) as Hl.
  { intros j q [(-> & -> & _)|[? ?]]%list_lookup_insert_Some; [by left|by right]. }
  assert (∀ m, active S' m ↔ active S m ∨ m = mid0) as Hactive.
  { intros mm. split; [intros (j & q & [[-> ->]|[Hne Hj]]%Hl & Hq); [right; by injection Hq|left; by exists j, q]|].
    intros [(j & q & Hj & Hq)| ->]; [exists j, q|exists (Z.to_nat pid), p']; (split; [|done]); cbn.
    - rewrite list_lookup_insert_ne; [done|]. intros <-. congruence.
    - rewrite list_lookup_insert_eq; [done|]. by eapply lookup_lt_Some. }
  assert (∀ m, is_Some (slots S !! m) → m ≠ mid0) as Hold by (intros mm [? ?] ->; congruence).
  split; [|exists p'; split; [cbn; apply list_lookup_insert_eq; by eapply lookup_lt_Some|done]].
  pose proof (flushes_refl (s_flushes S)) as Hfl. pose proof (di_parts _ Hinv) as [H1 H2 H3 H4 H5 H6].
  assert (∀ mid a, slots S !! mid = Some a → ∃ a', slots S' !! mid = Some a' ∧ same_files a a') as Hsl' by (intros mid a Ha; exists a; split; [by apply Hkeep|done]).
  split.
  - apply (slots_inv_insert S S' Hinv eq_refl) with mid0 (SetMemTable AtomicMemTable_init (latest_generation_id (db_order (s_db S))) m); try done. cbn. lia.
  - split; try done.
    + intros mm [Ha| ->]%Hactive; [|rewrite Hsl, lookup_insert_eq; by eexists]. destruct (H1 mm Ha) as (b & Hb & ?). exists b. split; [by apply Hkeep|done].
    + intros j j' q q' mm [[-> ->]|[Hne Hj]]%Hl [[-> ->]|[Hne' Hj']]%Hl Hq Hq'; try done.
      * cbn in Hq. injection Hq as <-. destruct (H1 mid0) as (b & Hb & _); [by exists j', q'|]. congruence.
      * cbn in Hq'. injection Hq' as <-. destruct (H1 mid0) as (b & Hb & _); [by exists j, q|]. congruence.
      * by apply (H2 j j' q q' mm).
    + intros j mm Hj Hmm. destruct (H3 j mm Hj Hmm) as [Hs Hna]. split; [destruct Hs as [b Hb]; exists b; by apply Hkeep|]. intros [?| ->]%Hactive; [done|by apply (Hold mid0)].
    + intros mm b Hb Hna. assert (mm ≠ mid0) by (intros ->; apply Hna, Hactive; by right). rewrite Hsl, lookup_insert_ne in Hb by done.
      apply (H4 mm b Hb). intros Ha. apply Hna, Hactive. by left.
    + intros mm Hmm. destruct (H6 mm Hmm) as (b & Hb & ?). exists b. split; [by apply Hkeep|done].
  - apply (quiet_flush_inv S S'); try done. intros mm b Hb Hn. destruct (decide (mm = mid0)) as [->|Hne]; [|rewrite Hsl, lookup_insert_ne in Hb by done; congruence].
    rewrite Hsl, lookup_insert_eq in Hb. by injection Hb as <-.
  - by apply (quiet_versions_inv S S').
  - apply (puts_inv_same S S'); try done; [apply Hinv|]. intros j t Hj. pose proof (puts_inv_at S j t (di_puts _ Hinv) Hj) as [G1 G2 G3 G4 G5].
    assert (∀ pid' q mm, parts S !! Z.to_nat pid' = Some q → active_memtable q = Some mm → parts S' !! Z.to_nat pid' = Some q) as Hother.
    { intros pid' q mm Hq Hqa. cbn. rewrite list_lookup_insert_ne; [done|]. intros E4. rewrite <- E4 in Hq. congruence. }
    split; try done.
    + intros mm imm Hpc. destruct (G3 mm imm Hpc) as (pid' & b & r & q & E1 & E2 & E3). exists pid', b, r, q. split; [done|]. split; [by eapply Hother|done].
    + intros mm Hpc. destruct (G4 mm Hpc) as (Hs & pid' & b & r & E1 & E2). split; [destruct Hs as [b' Hb]; exists b'; by apply Hkeep|]. exists pid', b, r. split; [done|].
      destruct E2 as [(q & E2 & E3)|E2]; [left; exists q; split; [by eapply Hother|done]|right]. intros [?| ->]%Hactive; [done|by apply (Hold mid0)].
  - apply (index_inv_same S S'); try done. apply Hinv.
  - apply (quiet_gets_inv S S'); try done; [intros ? ? ? _; by apply quiet_mid_ok|apply (gi_current _ (di_gets _ Hinv))|]. intros j t Hj Ha. by exists t.
Qed.

Lemma reserved_bound S mid : puts_inv S → 0 <= reserved_count S mid <= 2 ^ 31.
Proof. intros H. pose proof (pi_small _ H). unfold reserved_count. pose proof (length_filter (λ t, is_reserved mid t = true) (s_puts S)). lia. Qed.

Lemma insert_keeps (s : gmap Z AtomicMemTable) mid a a' :
  s !! mid = Some a → same_files a a' → ∀ mid0 b, s !! mid0 = Some b → ∃ b', <[mid := a']> s !! mid0 = Some b' ∧ same_files b b'.
Proof.
  intros Ha Hs mid0 b Hb. destruct (decide (mid0 = mid)) as [->|Hne].
  - rewrite Ha in Hb. injection Hb as <-. exists a'. by rewrite lookup_insert_eq.
  - exists b. by rewrite lookup_insert_ne by done.
Qed.

Lemma insert_fresh (s : gmap Z AtomicMemTable) mid a a' :
  s !! mid = Some a → ∀ mid0 b, <[mid := a']> s !! mid0 = Some b → s !! mid0 = None → is_flushed_ b = false ∧ last_version_id_ b = 0.
Proof.
  intros Ha mid0 b Hb Hn. destruct (decide (mid0 = mid)) as [->|Hne]; [congruence|]. rewrite lookup_insert_ne in Hb by done. congruence.
Qed.

(** A step of a write on the slot of an active memtable. *)
Lemma inv_put_slot S i t t' mid a a' done' contents' :
  let S' := mkState (put_slot (s_db S) mid a') (<[i := t']> (s_puts S)) (s_gets S) (s_flushes S) (s_mutex S) done' contents' in
  db_inv S → s_puts S !! i = Some t → slots S !! mid = Some a → active S mid →
  pt_key t' = pt_key t → pt_value t' = pt_value t → put_active t = true →
  (∀ m, m ≠ mid → is_reserved m t' = is_reserved m t) → (∀ m, m ≠ mid → cont S' m = cont S m) →
  same_files a a' → is_scheduled_for_flushing a' = is_scheduled_for_flushing a → slot_inv S' mid a' →
  (∀ j g m, s_gets S !! j = Some g → mid_ok S (gt_key g) (gt_answers g) m → mid_ok S' (gt_key g) (gt_answers g) m) →
  done' = s_done S → puts_inv S' → index_inv S' → db_inv S'.
Proof.
  intros S' Hinv Hi Ha Hact Hk Hv Hta Hr Hc Hs Hsc Hslot Hmid -> Hpu Hix.
  assert (∀ m, m ≠ mid → reserved_count S' m = reserved_count S m) as Hrc by (intros m Hne; apply (reserved_to_same S S' i t t'); by auto).
  pose proof (insert_keeps _ mid a a' Ha Hs) as Hkeep. pose proof (insert_fresh _ mid a a' Ha) as Hfr. pose proof (flushes_refl (s_flushes S)) as Hfl.
  destruct (pa_active _ (di_parts _ Hinv) mid Hact) as (b & Hb & Hbs). assert (b = a) as -> by congruence.
  assert (∀ m b, slots S !! m = Some b → is_scheduled_for_flushing b = true → cont S' m = cont S m) as Hcont.
  { intros m b Hb' Hbs'. apply Hc. intros ->. congruence. }
  split; try done.
  - by apply (slots_inv_insert S S' Hinv eq_refl) with mid a'.
  - apply (parts_inv_same S S'); try done; [apply Hinv| | |].
    + intros m b Hb'. cbn. destruct (decide (m = mid)) as [->|Hne]; [|exists b; by rewrite lookup_insert_ne by done].
      assert (b = a) as -> by congruence. exists a'. rewrite lookup_insert_eq. split_and!; try done. apply Hs.
    + intros m b' Hb' Hn. exists b'. cbn in Hb'. rewrite lookup_insert_ne in Hb'; [done|]. by intros ->.
    + intros m Hn. apply Hrc. by intros ->.
  - by apply (quiet_flush_inv S S').
  - by apply (quiet_versions_inv S S').
  - apply (quiet_gets_inv S S'); try done; [apply (gi_current _ (di_gets _ Hinv))|]. by apply (puts_to_active S i t t').
Qed.

Lemma take_inv S i t r mid imm pid b rest p db res :
  db_inv S → s_puts S !! i = Some t → pt_pc t = PutLoop r → pt_attempts t = (pid, b) :: rest →
  parts S !! Z.to_nat pid = Some p → active_memtable p = Some mid →
  take_table (s_db S) mid imm (pt_key t) (pt_value t) = Ret (db, res) →
  res = Reserved mid imm ∧ db_inv (put_to S i db (at_pc t (PutReserved mid imm))).
Proof.
  intros Hinv Hi Hpc Hatt Hp Hact E. pose proof (di_puts _ Hinv) as Hpu.
  assert (active S mid) as Hac by (by exists (Z.to_nat pid), p). destruct (pa_active _ (di_parts _ Hinv) mid Hac) as (a & Ha & Hsc).
  unfold take_table in E. rewrite (get_slot_some S mid a Hinv Ha) in E. cbn [mbind res_bind] in E. injection E as <- <-. split; [done|].
  set (a' := mkSlot _ _ _ _ _ _ _ _ _ _ _). set (t' := at_pc t _). set (S' := put_to S i _ t').
  pose proof (slots_inv_at S Hinv mid a Ha) as [G1 G2 G3 G4 G5 G6 G7 G8 G9]. pose proof (reserved_bound S mid Hpu) as Hb.
  assert (reserved_count S' mid = reserved_count S mid + 1) as Hrc.
  { rewrite (reserved_to S S' i t t' mid Hi eq_refl). unfold is_reserved. rewrite Hpc. cbn [t' at_pc pt_pc]. rewrite bool_decide_eq_true_2 by done. lia. }
  pose proof (puts_inv_at S i t Hpu Hi) as [P1 P2 P3 P4 P5].
  assert (put_waiting t = true) as Hw by (unfold put_waiting; by rewrite Hpc).
  apply (inv_put_slot S i t t' mid a a'); try done.
  - unfold put_active. by rewrite Hpc.
  - intros m Hne. unfold is_reserved. rewrite Hpc. cbn. by rewrite bool_decide_eq_false_2 by done.
  - split; try done.
    + split; [apply (sk_holders _ G3)|apply (sk_refs _ G3)|apply (sk_freed _ G3)|apply (sk_l0 _ G3)|apply (sk_immutable _ G3)].
    + transitivity (reserved_count S mid + 1); [|by rewrite <- Hrc]. cbn [a' number_of_pending_writes_]. rewrite G5. unfold w32. rewrite Z.mod_small; [done|lia].
    + intros _ Hz. change (reserved_count S' mid = 0) in Hz. lia.
  - intros j g m _ [H|[H1 H2]]; [by left|right]. split; [|done]. cbn. destruct (decide (m = mid)) as [->|Hne]; [rewrite lookup_insert_eq; by eexists|].
    by rewrite lookup_insert_ne by done.
  - apply (puts_inv_to S S' i t t'); try done.
    + apply (pi_last _ Hpu).
    + unfold put_active. by rewrite Hpc.
    + intros j tj Hne Hj _ Hwj. apply (pi_distinct _ Hpu i j t tj); by auto.
    + intros j tj Hne Hj. apply (put_inv_mono S S'); try done; [by apply (puts_inv_at S j)|]. intros m [b' Hb']. cbn.
      destruct (decide (m = mid)) as [->|Hne']; [rewrite lookup_insert_eq; by eexists|]. rewrite lookup_insert_ne by done. by exists b'.
    + split; try done; [|intros mm imm' [= <- <-]]; [intros _; by apply P2|]. exists pid, b, rest, p. done.
  - apply (index_inv_same S S'); try done; [apply Hinv|]. intros j tj m imm' Hj Hpcj. cbn. rewrite list_lookup_insert_ne; [done|]. intros ->. congruence.
Qed.

Lemma with_db_same S : with_db S (s_db S) = S.
Proof. by destruct S. Qed.

Lemma schedule_inv S mid pid imm db :
  db_inv S → (mid ≠ 0 → is_Some (slots S !! mid) ∧ ¬ active S mid) →
  ScheduleFlushMemTableTask options (s_db S) mid pid imm = Ret db →
  db_inv (with_db S db) ∧ db_partitions db = parts S.
Proof using All.
  intros Hinv Hmid E. apply res_bind_Ret in E as (a & Ea & E). apply res_bind_Ret in E as (safe & _ & E).
  destruct (negb safe); [injection E as <-; by rewrite with_db_same|]. destruct (is_scheduled_for_flushing a) eqn:Hsc; [injection E as <-; by rewrite with_db_same|].
  destruct (memtable_ a) as [m|] eqn:Hm; [|done]. injection E as <-. split; [|done].
  destruct (decide (mid = 0)) as [->|H0]; [destruct (get_slot_zero S Hinv) as [_ E]; rewrite Ea in E; injection E as ->; done|].
  destruct (Hmid H0) as [[b Hb] Hna]. rewrite (get_slot_some S mid b Hinv Hb) in Ea. injection Ea as ->.
  set (S' := with_db S _). assert (slots S' = <[mid := set_scheduled a]> (slots S)) as Hsl by done.
  assert (same_files a (set_scheduled a)) as Hsf by done. pose proof (insert_keeps _ mid a _ Hb Hsf) as Hkeep. pose proof (insert_fresh _ mid a (set_scheduled a) Hb) as Hfr.
  pose proof (flushes_refl (s_flushes S)) as Hfl. pose proof (di_parts _ Hinv) as [H1 H2 H3 H4 H5 H6].
  assert (is_flushed_ a = false) as Hnf. { destruct (is_flushed_ a) eqn:Ef; [|done]. rewrite (si_flushed _ (di_slots _ Hinv) mid a Hb Ef) in Hsc. done. }
  assert (flush_mids S' ≡ₚ mid :: flush_mids S) as Hperm.
  { unfold flush_mids. cbn. rewrite fmap_app. cbn [fmap list_fmap tk_memtable]. rewrite <- (assoc_L (++)). cbn [app]. by rewrite <- Permutation_middle. }
  pose proof (slots_inv_at S Hinv mid a Hb) as [G1 G2 G3 G4 G5 G6 G7 G8 G9]. split.
  - apply (slots_inv_insert S S' Hinv eq_refl) with mid (set_scheduled a); try done. split; try done.
    split; [apply (sk_holders _ G3)|apply (sk_refs _ G3)|apply (sk_freed _ G3)|apply (sk_l0 _ G3)|apply (sk_immutable _ G3)].
  - split; try done.
    + intros mm Ha. change (active S mm) in Ha. destruct (H1 mm Ha) as (c & Hc & Hcs). exists c. split; [|done]. rewrite Hsl, lookup_insert_ne; [done|]. intros ->. done.
    + intros j mm Hj Hmm. destruct (H3 j mm Hj Hmm) as [[c Hc] Hn]. split; [|done]. destruct (Hkeep mm c Hc) as (c' & Hc' & _). by exists c'.
    + intros mm c Hc Hn. rewrite Hsl in Hc. apply lookup_insert_Some in Hc as [[-> <-]|[Hne Hc]]; [apply (H4 _ a Hb Hn)|by apply H4].
    + rewrite Hperm. constructor; [|done]. intros Hin. destruct (H6 mid Hin) as (c & Hc & ? & _). congruence.
    + intros mm. rewrite Hperm, elem_of_cons. intros [->|Hin]; [exists (set_scheduled a); by rewrite Hsl, lookup_insert_eq|].
      destruct (H6 mm Hin) as (c & Hc & Hcs & Hcf). destruct (Hkeep mm c Hc) as (c' & Hc' & E1 & _ & _ & E2). exists c'. split; [done|]. split; [by apply E2|congruence].
  - by apply (quiet_flush_inv S S').
  - by apply (quiet_versions_inv S S').
  - apply (puts_inv_same S S'); try done; [apply Hinv|]. intros j t Hj. apply (put_inv_mono S S'); try done; [by apply (puts_inv_at S j), Hj; apply Hinv|].
    intros mm [c Hc]. destruct (Hkeep mm c Hc) as (c' & Hc' & _). by exists c'.
  - apply (index_inv_same S S'); try done. apply Hinv.
  - apply (quiet_gets_inv S S'); try done; [intros ? ? ? _; by apply quiet_mid_ok|apply (gi_current _ (di_gets _ Hinv))|]. intros j t Hj Ha. by exists t.
Qed.

Lemma imm_inactive S s mid : db_inv S → get_imm (s_db S) s = Ret mid → mid ≠ 0 → is_Some (slots S !! mid) ∧ ¬ active S mid.
Proof. intros Hinv [_ H]%get_imm_some. by apply (pa_imms _ (di_parts _ Hinv) _ mid H). Qed.

(** The write after a pass. *)
Definition after_pass (t : PutThread) (rest : list (Z * bool)) (r : Reserve) : PutThread :=
  match r with
  | Reserved mid imm_slot => at_pc t (PutReserved mid imm_slot)
  | Wait table => at_pc t (PutLoop table)
  | Rejected => mkPut (pt_key t) (pt_value t) (pt_hash t) rest (pt_seq t) (PutLoop None)
  end.

Section pass.
Context (i : nat) (t : PutThread) (r : option Z) (pid : Z) (b : bool) (rest : list (Z * bool)).
Hypothesis Hpc : pt_pc t = PutLoop r.
Hypothesis Hatt : pt_attempts t = (pid, b) :: rest.

Lemma wait_inv S res :
  db_inv S → s_puts S !! i = Some t → res = Wait None ∨ res = Rejected → db_inv (put_to S i (s_db S) (after_pass t rest res)).
Proof using All.
  intros Hinv Hi [-> | ->]; apply (put_loop_inv S i t); try done; by eexists.
Qed.

Lemma reserve_new_inv S p imm db res :
  db_inv S → s_puts S !! i = Some t → parts S !! Z.to_nat pid = Some p → active_memtable p = None →
  reserve_new new_char options (s_db S) pid b imm (pt_key t) (pt_value t) = Ret (db, res) →
  db_inv (put_to S i db (after_pass t rest res)).
Proof using All.
  intros Hinv Hi Hp Hact E. unfold reserve_new in E. apply res_bind_Ret in E as (p1 & _ & E). case_decide.
  - apply res_bind_Ret in E as (db1 & E1 & E). injection E as <- <-.
    assert (db_inv (with_db S db1)) as H1.
    { destruct imm as [s|]; [|injection E1 as <-; by rewrite with_db_same]. apply res_bind_Ret in E1 as (mid & Em & E1).
      apply (schedule_inv S mid pid s); [done|by apply (imm_inactive S s)|done]. }
    apply (wait_inv (with_db S db1)); [done|done|]. destruct b; [by left|by right].
  - apply res_bind_Ret in E as ([db1 mid] & E1 & E). destruct (create_inv S pid p db1 mid Hinv Hp Hact E1) as (H1 & p' & Hp' & Hact').
    by destruct (take_inv (with_db S db1) i t r mid imm pid b rest p' db res H1 Hi Hpc Hatt Hp' Hact' E) as [-> H2].
Qed.

Lemma full_inactive S mid a :
  db_inv S → slots S !! mid = Some a → memtable_size_ a <= write_buffer_size options → active S mid.
Proof.
  intros Hinv Ha Hsz. destruct (decide (Exists (λ p, active_memtable p = Some mid) (parts S))) as [H|H].
  - apply Exists_exists in H as (p & [j Hj]%list_elem_of_lookup & Hp). by exists j, p.
  - destruct (pa_full _ (di_parts _ Hinv) mid a Ha) as [H1 _]; [|lia]. intros (j & p & Hj & Hp). apply H, Exists_exists. exists p. split; [by eapply list_elem_of_lookup_2|done].
Qed.

Lemma reserve_inv S db res :
  db_inv S → s_puts S !! i = Some t → reserve new_char options (s_db S) pid b r (pt_key t) (pt_value t) = Ret (db, res) →
  db_inv (put_to S i db (after_pass t rest res)).
Proof using All.
  intros Hinv Hi E. unfold reserve in E. apply res_bind_Ret in E as (p & [Hpid Hp]%get_partition_some & E).
  destruct (match r with Some x => Some x | None => active_memtable p end) as [mid|] eqn:Emid;
    [|assert (active_memtable p = None) by (by destruct r); by eapply reserve_new_inv].
  assert (is_Some (slots S !! mid) ∧ ((∃ q, parts S !! Z.to_nat pid = Some q ∧ active_memtable q = Some mid) ∨ ¬ active S mid)) as [[a Ha] Hmid].
  { destruct r as [x|]; [injection Emid as ->|].
    - destruct (pi_resumed _ (di_puts _ Hinv) i t mid Hi Hpc) as (Hs & pid' & b' & rest' & E1 & E2). rewrite Hatt in E1. injection E1 as <- <- <-. done.
    - destruct (pa_active _ (di_parts _ Hinv) mid) as (a & Ha & _); [by exists (Z.to_nat pid), p|]. split; [by exists a|]. left. by exists p. }
  apply res_bind_Ret in E as ([vs full] & El & E). destruct (l0_full_ok _ _ _ _ (vi_sys _ (di_versions _ Hinv)) (held_small S Hinv) El) as [Hvl Hvs].
  pose proof (inv_with_versions S vs Hinv Hvl Hvs) as Hinv1. set (S1 := with_db S (set_versions (s_db S) vs)) in *.
  assert (res = Wait (Some mid) → db = s_db S1 → db_inv (put_to S i db (after_pass t rest res))) as Hwait.
  { intros -> ->. apply (put_loop_inv S1 i t); try done; [by exists r|by eexists|]. intros m [= <-]. split; [by exists a|]. exists pid, b, rest. done. }
  destruct full; [injection E as <- <-; by apply Hwait|].
  rewrite (get_slot_some S1 mid a Hinv1 Ha : get_slot (set_versions (s_db S) vs) mid = Ret a) in E. cbn [mbind res_bind] in E. case_decide as Hsz.
  - pose proof (full_inactive S mid a Hinv Ha Hsz) as Hac. destruct Hmid as [(q & Hq & Hqa)|Hn]; [|done].
    by destruct (take_inv S1 i t r mid None pid b rest q db res Hinv1 Hi Hpc Hatt Hq Hqa E) as [-> H2].
  - destruct (decide (r ≠ None)) as [|Hr]; [injection E as <- <-; apply (wait_inv S1); by auto|].
    destruct (decide (number_of_pending_writes_ a > 0)); [injection E as <- <-; apply (wait_inv S1); by auto|].
    assert (r = None) as Hr0 by (destruct r; [by destruct Hr|done]). rewrite Hr0 in Emid. apply res_bind_Ret in E as ([db1 s] & E1 & E).
    pose proof (si_pending _ (di_slots _ Hinv) mid a Ha). pose proof (reserved_bound S mid (di_puts _ Hinv)).
    destruct (rotate_inv S1 pid mid p a db1 s Hinv1 Hp Emid Ha) as (H1 & p' & Hp' & Hact' & _); [lia|lia|done|].
    apply (reserve_new_inv (with_db S db1) p' (Some s)); try done. cbn. rewrite Hp'. apply list_lookup_insert_eq. by eapply lookup_lt_Some.
Qed.
End pass.

(** *** Adding the write *)

Lemma MemTable_Add_fields m seq ty k v m' : MemTable_Add U new_char m seq ty k v = Ret m' → memtable_id_ m' = memtable_id_ m ∧ MemTable.refs_ m' = MemTable.refs_ m.
Proof.
  unfold MemTable_Add. intros ([ar x] & _ & E)%res_bind_Ret. case_decide; [|done]. apply res_bind_Ret in E as ([ar' x'] & _ & E).
  apply res_bind_Ret in E as (tb & _ & [= <-]). done.
Qed.

Section adding.
Context (S : State W) (i : nat) (t : PutThread) (mid : Z) (imm : option Z) (db : DB W).
Hypothesis Hinv : db_inv S.
Hypothesis Hi : s_puts S !! i = Some t.
Hypothesis Hpc : pt_pc t = PutReserved mid imm.
Hypothesis Hlast : db_last_sequence (s_db S) < kMaxSequenceNumber.
Hypothesis Hadd : add_write U new_char (s_db S) mid (pt_seq t) (pt_key t) (pt_value t) = Ret db.
Local Abbreviation t' := (at_pc t (PutAdded mid imm)).
Local Abbreviation S' := (mkState db (<[i := t']> (s_puts S)) (s_gets S) (s_flushes S) (s_mutex S) (s_done S)
  (<[mid := thread_write t :: cont S mid]> (s_contents S))).

Lemma adding_active : active S mid.
Proof using Hinv Hi Hpc. destruct (pi_reserved _ (di_puts _ Hinv) i t mid imm Hi Hpc) as (pid & b & rest & p & _ & Hp & Ha). by exists (Z.to_nat pid), p. Qed.

Lemma adding_waiting : put_waiting t = true ∧ put_active t = true.
Proof using Hpc. unfold put_waiting, put_active. by rewrite Hpc. Qed.

Lemma adding_cont : cont S' mid = thread_write t :: cont S mid.
Proof. unfold cont, contents_of. cbn. by rewrite lookup_insert_eq. Qed.
Lemma adding_cont_ne m : m ≠ mid → cont S' m = cont S m.
Proof. intros H. unfold cont, contents_of. cbn. by rewrite lookup_insert_ne by done. Qed.
Lemma adding_elem m w : w ∈ cont S' m ↔ w ∈ cont S m ∨ m = mid ∧ w = thread_write t.
Proof.
  destruct (decide (m = mid)) as [->|Hne]; [rewrite adding_cont, elem_of_cons; naive_solver|]. rewrite adding_cont_ne by done. naive_solver.
Qed.

(** Threads with the same key are the same. *)
Lemma adding_key j tj : j ≠ i → s_puts S !! j = Some tj → put_active tj = true → pt_key t ≠ pt_key tj.
Proof using Hinv Hi Hpc. intros Hne Hj Ha E. apply Hne. symmetry. apply (pi_keys _ (di_puts _ Hinv) i j t tj Hi Hj); [apply adding_waiting|done|done]. Qed.

Lemma adding_slot : ∃ a a', slots S !! mid = Some a ∧ db = put_slot (s_db S) mid a' ∧ same_files a a'
  ∧ is_scheduled_for_flushing a' = is_scheduled_for_flushing a ∧ slot_inv S' mid a'.
Proof using All.
  destruct (pa_active _ (di_parts _ Hinv) mid adding_active) as (a & Ha & Hsc). destruct adding_waiting as [Hw _]. exists a.
  pose proof Hadd as E. unfold add_write in E. rewrite (get_slot_some S mid a Hinv Ha) in E. cbn [mbind res_bind] in E.
  destruct (memtable_ a) as [m|] eqn:Hm; [|done]. apply res_bind_Ret in E as (m' & Em & E). injection E as E. eexists. split; [done|]. split; [by rewrite <- E|]. split; [done|]. split; [done|].
  pose proof (slots_inv_at S Hinv mid a Ha) as [G1 G2 G3 G4 G5 G6 G7 G8 G9]. destruct (G4 m Hm) as (Hho & Hre & Hid).
  pose proof (puts_inv_at S i t (di_puts _ Hinv) Hi) as [[P1 [P2 [P3 _]]] P4 _ _ _]. destruct (P4 Hw) as [Hseq Hall]. pose proof (reserved_bound S mid (di_puts _ Hinv)) as Hb.
  destruct new_char_ok as [Hf Hal]. assert (write_ok (thread_write t)) as Hwok by (split; [split; cbn; lia|done]).
  destruct (holds_add U new_char Hf Hal m (cont S mid) (thread_write t) Hho Hwok) as (m1 & E1 & Hho' & Hre').
  { intros Hin. apply list_elem_of_fmap in Hin as (w & Ew & Hin). destruct (Hall mid w Hin) as [Hne _]. by apply Hne. }
  cbn [thread_write wr_seq wr_type wr_key wr_value] in E1. rewrite Em in E1. injection E1 as <-. destruct (MemTable_Add_fields _ _ _ _ _ _ Em) as [Hid' Hrefs'].
  assert (reserved_count S' mid = reserved_count S mid - 1) as Hrc.
  { rewrite (reserved_to S S' i t t' mid Hi eq_refl). unfold is_reserved. rewrite Hpc. cbn [at_pc pt_pc]. rewrite bool_decide_eq_true_2 by done. lia. }
  assert (1 <= reserved_count S mid) as Hpos. { apply (count_pos (is_reserved mid) _ i t Hi). unfold is_reserved. rewrite Hpc. by apply bool_decide_eq_true_2. }
  assert (db_last_sequence db = db_last_sequence (s_db S) ∧ db_memtable_id_seq db = db_memtable_id_seq (s_db S)) as [El Es] by (by rewrite <- E).
  split; try done.
  - cbn [s_db]. lia.
  - split; [apply (sk_holders _ G3)| |done|apply (sk_l0 _ G3)|apply (sk_immutable _ G3)]. cbn. intros m2 [= <-]. rewrite Hrefs'. apply (sk_refs _ G3 m Hm).
  - cbn [memtable_]. intros m2 [= <-]. rewrite adding_cont. split; [done|]. split; [congruence|congruence].
  - rewrite Hrc. cbn [number_of_pending_writes_]. rewrite G5. unfold w32. rewrite Z.mod_small; [done|lia].
  - rewrite adding_cont. done.
  - cbn [s_db]. rewrite El. intros w [Hin|[_ ->]]%adding_elem; [by apply G7|]. split; [done|]. split; [done|]. split; [done|]. cbn. lia.
  - rewrite adding_cont, fmap_cons. constructor; [|done]. intros Hin. apply list_elem_of_fmap in Hin as (w & Ew & Hin). destruct (Hall mid w Hin) as [Hne _]. by apply Hne.
Qed.

Lemma adding_mid_ok j g m : s_gets S !! j = Some g → mid_ok S (gt_key g) (gt_answers g) m → mid_ok S' (gt_key g) (gt_answers g) m.
Proof using All.
  intros Hg [H|[[b Hb] (w0 & Hn & Hin)]]; [by left|right]. destruct adding_slot as (a & a' & Ha & E & _). destruct adding_waiting as [Hw Hact].
  pose proof (puts_inv_at S i t (di_puts _ Hinv) Hi) as [_ P4 _ _ _]. destruct (P4 Hw) as [Hseq Hall].
  destruct (gi_key _ (di_gets _ Hinv) j g Hg) as [Hkg _].
  split; [cbn [s_db]; rewrite E; cbn; destruct (decide (m = mid)) as [->|Hne]; [rewrite lookup_insert_eq; by eexists|rewrite lookup_insert_ne by done; by exists b]|].
  destruct (decide (m = mid)) as [->|Hne]; [|exists w0; by rewrite adding_cont_ne by done].
  destruct Hn as (N1 & N2 & N3). destruct (decide (pt_key t = gt_key g)) as [Ek|Hk].
  - exists (thread_write t). split; [|by eapply (gi_puts _ (di_gets _ Hinv))]. split; [apply adding_elem; by right|]. split; [split; cbn; [rewrite Ek; apply cmp_refl|lia]|].
    intros w' [Hw'|[_ ->]]%adding_elem [V1 _]; [|done]. destruct (Hall mid w' Hw') as [_ Hlt]. apply (key_same S mid) in V1; [|apply Hinv|done|done].
    assert (wr_seq w' < pt_seq t) by (apply Hlt; congruence). cbn. lia.
  - exists w0. split; [|done]. split; [apply adding_elem; by left|]. split; [done|]. intros w' [Hw'|[_ ->]]%adding_elem V; [by apply N3|]. destruct V as [V1 _].
    destruct Hk. apply key_spelling; [by apply (puts_inv_at S i t (di_puts _ Hinv) Hi)|done|done].
Qed.

Lemma adding_puts : puts_inv S'.
Proof using All.
  destruct adding_slot as (a & a' & Ha & E & _). destruct adding_waiting as [Hw Hact]. pose proof (puts_inv_at S i t (di_puts _ Hinv) Hi) as [P1 P4 _ _ _]. destruct (P4 Hw) as [Hseq Hall].
  apply (puts_inv_to S S' i t t'); try done.
  - apply Hinv.
  - cbn [s_db]. rewrite E. apply (pi_last _ (di_puts _ Hinv)).
  - intros j tj Hne Hj. pose proof (puts_inv_at S j tj (di_puts _ Hinv) Hj) as [Q1 Q2 Q3 Q4 Q5]. split; try done.
    + intros Hwj. destruct (Q2 Hwj) as [Q6 Q7]. split; [cbn [s_db]; by rewrite E|]. intros m w [Hin|[_ ->]]%adding_elem; [by eapply Q7|].
      split; [by apply (pi_distinct _ (di_puts _ Hinv) i j t tj); auto|]. intros Ek. destruct (adding_key j tj Hne Hj); [|done].
      unfold put_waiting in Hwj. unfold put_active. by destruct (pt_pc tj).
    + cbn [s_db]. rewrite E. exact Q3.
    + cbn [s_db]. rewrite E. intros m Hm. destruct (Q4 m Hm) as [[c Hc] Q6]. split; [|done]. cbn.
      destruct (decide (m = mid)) as [->|Hne']; [rewrite lookup_insert_eq; by eexists|rewrite lookup_insert_ne by done; by exists c].
    + intros m imm' Hp. destruct (Q5 m imm' Hp) as [Q6 Q7]. split; [apply adding_elem; by left|]. intros m' w [Hin|[_ ->]]%adding_elem Ek; [by eapply Q7|].
      destruct (adding_key j tj Hne Hj); [by unfold put_active; rewrite Hp|done].
  - split; try done. intros m imm' [= <- <-]. split; [apply adding_elem; by right|]. intros m' w [Hin|[_ ->]]%adding_elem Ek; [|done].
    destruct (Hall m' w Hin) as [_ Hlt]. specialize (Hlt Ek). cbn. lia.
Qed.

Lemma adding_index : index_inv S'.
Proof using All.
  destruct adding_slot as (a & a' & Ha & E & _). pose proof (di_index _ Hinv) as [H1 H2 H3]. split; [cbn [s_db]; by rewrite E|cbn [s_db]; rewrite E; exact H2|].
  intros key w m Hd. destruct (H3 key w m Hd) as (H4 & H5 & H6). split; [apply adding_elem; by left|]. split; [done|]. intros w' [Hin|[-> ->]]%adding_elem Ek.
  - destruct (H6 w' Hin Ek) as [|(j & tj & imm' & Hj & Hpj & H7)]; [by left|right]. exists j, tj, imm'. split; [|done]. cbn. rewrite list_lookup_insert_ne; [done|]. intros ->. congruence.
  - right. exists i, t', imm. split; [cbn; apply list_lookup_insert_eq; by eapply lookup_lt_Some|]. done.
Qed.

Lemma add_inv : db_inv S'.
Proof using All.
  pose proof adding_puts as Hpu. pose proof adding_index as Hix. pose proof adding_mid_ok as Hmo. destruct adding_slot as (a & a' & Ha & E & Hsf & Hsc & Hsl). destruct adding_waiting as [Hw Hact].
  rewrite E in *. apply (inv_put_slot S i t t' mid a a'); try done; [apply adding_active| |].
  - intros m Hne. unfold is_reserved. rewrite Hpc. cbn. by rewrite bool_decide_eq_false_2 by done.
  - intros m Hne. unfold cont, contents_of. cbn. by rewrite lookup_insert_ne by done.
Qed.
End adding.

(** *** The lookup index *)

Section indexing.
Context (S : State W) (i : nat) (t : PutThread) (mid : Z) (imm : option Z) (db : DB W).
Hypothesis Hinv : db_inv S.
Hypothesis Hi : s_puts S !! i = Some t.
Hypothesis Hpc : pt_pc t = PutAdded mid imm.
Hypothesis Hidx : index_write (s_db S) (pt_hash t) mid = Ret db.
Local Abbreviation t' := (at_pc t (PutSchedule imm)).
Local Abbreviation S' := (mkState db (<[i := t']> (s_puts S)) (s_gets S) (s_flushes S) (s_mutex S)
  (<[pt_key t := (thread_write t, mid)]> (s_done S)) (s_contents S)).

Lemma indexing_db : ∃ x, db = set_index (s_db S) x ∧ size_of x = index_size
  ∧ ∀ key, key_ok key → Index_Lookup x (hash key) = if decide (key = pt_key t) then Ret mid else Index_Lookup (db_lookup_index (s_db S)) (hash key).
Proof using All.
  pose proof (puts_inv_at S i t (di_puts _ Hinv) Hi) as [[P1 [_ [_ P2]]] _ _ _ _]. pose proof (ix_size _ (di_index _ Hinv)) as Hsz.
  assert (db_lookup_index (s_db S) ≠ []) as Hne.
  { intros E. pose proof (ix_done _ (di_index _ Hinv) _ P1) as Hl. unfold Index_Lookup, locator in Hl. by rewrite E in Hl. }
  destruct (Index_Insert_ok (db_lookup_index (s_db S)) Hne (pt_hash t) mid) as (x & Ex & Hlen & Hx). exists x. pose proof Hidx as E. unfold index_write in E. rewrite Ex in E.
  injection E as <-. split; [done|]. split; [congruence|]. intros key Hk. rewrite Hx, P2, Hsz. case_decide as Hm; case_decide as Hk2; try done.
  - by destruct Hk2; apply key_apart.
  - by subst.
Qed.

Lemma indexing_index : index_inv S'.
Proof using All.
  destruct indexing_db as (x & E & Hsz & Hx). pose proof (di_index _ Hinv) as [H1 H2 H3]. pose proof (puts_inv_at S i t (di_puts _ Hinv) Hi) as [_ _ _ _ P5]. destruct (P5 mid imm Hpc) as [Hin Hmax].
  split; cbn [s_db s_done]; try rewrite E; try done.
  - intros key Hk. cbn [set_index db_lookup_index]. rewrite Hx by done. case_decide as Hd; [subst; by rewrite lookup_insert_eq|]. rewrite lookup_insert_ne by done. by apply H2.
  - intros key w m Hd. apply lookup_insert_Some in Hd as [[<- [= <- <-]]|[Hne Hd]].
    + split; [done|]. split; [done|]. intros w' Hw' Ek. left. by eapply Hmax.
    + destruct (H3 key w m Hd) as (H4 & H5 & H6). split; [done|]. split; [done|]. intros w' Hw' Ek.
      destruct (H6 w' Hw' Ek) as [|(j & tj & imm' & Hj & Hpj & Hkj & H7)]; [by left|right]. exists j, tj, imm'. split; [|done]. cbn. rewrite list_lookup_insert_ne; [done|]. intros ->. congruence.
Qed.

Lemma index_write_inv : db_inv S'.
Proof using All.
  pose proof indexing_index as Hix. destruct indexing_db as (x & E & _ & _). pose proof (di_puts _ Hinv) as Hpu. pose proof (flushes_refl (s_flushes S)) as Hfl.
  assert (put_active t = true) as Hact by (unfold put_active; by rewrite Hpc).
  assert (∀ m, reserved_count S' m = reserved_count S m) as Hrc by (intros m; apply (reserved_to_same S S' i t t'); try done; unfold is_reserved; by rewrite Hpc).
  assert (slots S' = slots S ∧ parts S' = parts S ∧ vset S' = vset S ∧ store S' = store S ∧ db_imms (s_db S') = db_imms (s_db S) ∧ flush_mids S' = flush_mids S
    ∧ db_next_file (s_db S') = db_next_file (s_db S) ∧ db_last_sequence (s_db S') = db_last_sequence (s_db S) ∧ db_memtable_id_seq (s_db S') = db_memtable_id_seq (s_db S))
    as (E1 & E2 & E3 & E4 & E5 & E6 & E7 & E8 & E9) by (unfold flush_mids; cbn [s_db s_flushes]; by rewrite E).
  assert (∀ mid a, slots S !! mid = Some a → ∃ a', slots S' !! mid = Some a' ∧ same_files a a') as Hsl by (intros m a Ha; exists a; by rewrite E1).
  split; try done.
  - apply (slots_inv_same S S'); try done; by apply Z.eq_le_incl.
  - apply (parts_inv_same S S'); try done; [apply Hinv| |].
    + intros m a Ha. exists a. by rewrite E1.
    + intros m a Ha _. exists a. by rewrite <- E1.
  - apply (quiet_flush_inv S S'); try done. intros m a Ha Hn. rewrite E1 in Ha. congruence.
  - by apply (quiet_versions_inv S S').
  - apply (puts_inv_to S S' i t t'); try done; [rewrite E8; apply (pi_last _ Hpu)| |].
    + intros j tj Hne Hj. apply (put_inv_mono S S'); try done; [by apply (puts_inv_at S j)|by rewrite E8|by rewrite E1].
    + split; try done. apply (puts_inv_at S i t Hpu Hi).
  - apply (quiet_gets_inv S S'); try done; [intros ? ? ? _; by apply quiet_mid_ok| |by apply (puts_to_active S i t t')].
    intros j g Hg. unfold current_value. cbn [s_done]. destruct (decide (gt_key g = pt_key t)) as [Ek|Hne].
    + rewrite Ek, lookup_insert_eq. cbn. by eapply (gi_puts _ (di_gets _ Hinv)).
    + rewrite lookup_insert_ne by done. apply (gi_current _ (di_gets _ Hinv) j g Hg).
Qed.
End indexing.

Lemma put_step_inv S i t db t' :
  db_inv S → s_puts S !! i = Some t → db_last_sequence (s_db S) < kMaxSequenceNumber →
  put_step U new_char options (s_db S) t = Ret (db, t') →
  db_inv (mkState db (<[i := t']> (s_puts S)) (s_gets S) (s_flushes S) (s_mutex S) (add_done (s_done S) t) (add_contents (s_contents S) t)).
Proof using All.
  intros Hinv Hi Hlast E. unfold put_step in E. unfold add_done, add_contents. destruct (pt_pc t) as [|r|mid imm|mid imm|imm|] eqn:Hpc; [| | | | |done].
  - injection E as <- <-. by apply (put_start_inv S i t).
  - destruct (pt_attempts t) as [|[pid b] rest] eqn:Hatt; [done|]. apply res_bind_Ret in E as ([db1 res] & Er & E). injection E as <- <-.
    exact (reserve_inv i t r pid b rest Hpc Hatt S db1 res Hinv Hi Er).
  - apply res_bind_Ret in E as (db1 & E1 & E). injection E as <- <-. by apply add_inv.
  - apply res_bind_Ret in E as (db1 & E1 & E). injection E as <- <-. by apply index_write_inv.
  - apply res_bind_Ret in E as (db1 & E1 & E). injection E as <- <-. destruct (pt_attempts t) as [|[pid b] rest] eqn:Hatt; [done|].
    assert (db_inv (with_db S db1)) as H1.
    { destruct imm as [s|]; [|injection E1 as <-; by rewrite with_db_same]. apply res_bind_Ret in E1 as (mid & Em & E1).
      apply (schedule_inv S mid pid s); [done|by apply (imm_inactive S s)|done]. }
    by apply (put_end_inv (with_db S db1) i t imm).
Qed.

(** ** The steps of a flush *)

(** Flushes change neither the writes nor what they wrote. *)
Definition flush_to S (db : DB W) (flushes : list FlushPc) (mutex : bool) : State W :=
  mkState db (s_puts S) (s_gets S) flushes mutex (s_done S) (s_contents S).

(** A flush step on the flushes and the slots of flushed memtables. *)
Lemma inv_flush_to S db flushes mutex :
  let S' := flush_to S db flushes mutex in
  db_inv S → db_last_sequence db = db_last_sequence (s_db S) → db_memtable_id_seq db = db_memtable_id_seq (s_db S) →
  db_lookup_index db = db_lookup_index (s_db S) → db_partitions db = parts S →
  (∀ mid a, slots S !! mid = Some a → ∃ a', slots S' !! mid = Some a' ∧ (is_flushed_ a = true → is_flushed_ a' = true)
     ∧ (is_scheduled_for_flushing a = true → is_scheduled_for_flushing a' = true)) →
  slots_inv S' → parts_inv S' → flush_inv S' → versions_inv S' → gets_inv S' → db_inv S'.
Proof.
  intros S' Hinv El Es Ei Ep Hsl Hs Hp Hf Hv Hg. split; try done.
  - apply (puts_inv_same S S'); try done; [apply Hinv|]. intros i t Hi. apply (put_inv_mono S S'); try done; [apply (puts_inv_at S i); [apply Hinv|done]|by apply Z.eq_le_incl|].
    intros mid [a Ha]. destruct (Hsl mid a Ha) as (a' & Ha' & _). by exists a'.
  - apply (index_inv_same S S'); try done. apply Hinv.
Qed.

Lemma puts_keep S j t' : s_puts S !! j = Some t' → put_active t' = true →
  ∃ t, s_puts S !! j = Some t ∧ put_active t = true ∧ pt_key t = pt_key t' ∧ pt_value t = pt_value t'.
Proof. intros Hj Ha. by exists t'. Qed.

Lemma same_slots S mid a : slots S !! mid = Some a → ∃ a', slots S !! mid = Some a'
  ∧ (is_flushed_ a = true → is_flushed_ a' = true) ∧ (is_scheduled_for_flushing a = true → is_scheduled_for_flushing a' = true).
Proof. intros Ha. by exists a. Qed.

Lemma flush_begin_inv S batch rest :
  db_inv S → db_tasks (s_db S) ≡ₚ batch ++ rest →
  db_inv (flush_to S (set_tasks (s_db S) rest) (s_flushes S ++ [FlushBuild batch []]) (s_mutex S)).
Proof using All.
  intros Hinv Hp. set (S' := flush_to S _ _ _). pose proof (di_parts _ Hinv) as Hpa.
  assert (flush_mids S' ≡ₚ flush_mids S) as Hm.
  { unfold flush_mids. cbn. rewrite fmap_app, concat_app. cbn. rewrite !app_nil_r, Hp, fmap_app. rewrite <- (assoc_L (++)), (Permutation_app_comm (tk_memtable <$> batch)).
    rewrite <- (assoc_L (++)). done. }
  assert (∀ i pc', s_flushes S' !! i = Some pc' → s_flushes S !! i = Some pc' ∨ pc' = FlushBuild batch []) as Hl.
  { intros i pc' [H|[_ H]]%lookup_app_Some; [by left|right]. by apply list_lookup_singleton_Some in H as [_ <-]. }
  apply inv_flush_to; try done; [exact (same_slots S)|..].
  - by apply (slots_inv_same S S').
  - change (parts_inv S'). destruct Hpa as [H1 H2 H3 H4 H5 H6]. split; try done; [by rewrite Hm|]. intros mid. rewrite Hm. apply H6.
  - apply (calm_flush_inv S S'); try done; [| |exact (same_slots S)|].
    + intros i pc Hi _. exists pc. split; [by apply lookup_app_l_Some|done].
    + intros i pc' [Hi| ->]%Hl; [left; exists pc'; split; [done|apply pc_like_refl]|right]. split; [|done]. split; [constructor|]. intros b []%not_elem_of_nil.
    + intros mid a Ha. left. by exists a.
  - by apply (calm_versions_inv S S').
  - apply (calm_gets_inv S S'); try done; [exact (same_slots S)|apply (gi_current _ (di_gets _ Hinv))|exact (puts_keep S)].
Qed.

(** A memtable to flush is full. *)
Lemma flush_mid_slot S mid :
  db_inv S → mid ∈ flush_mids S → ∃ a, slots S !! mid = Some a ∧ is_scheduled_for_flushing a = true ∧ is_flushed_ a = false ∧ cont S mid ≠ [].
Proof using buffer_size.
  intros Hinv Hm. destruct (pa_scheduled _ (di_parts _ Hinv) mid Hm) as (a & Ha & Hs & Hf). exists a. split_and!; try done. intros Hc.
  destruct (pa_full _ (di_parts _ Hinv) mid a Ha) as [H1 H2].
  { intros Hact. destruct (pa_active _ (di_parts _ Hinv) mid Hact) as (b & Hb & ?). congruence. }
  pose proof (si_empty _ (di_slots _ Hinv) mid a Ha Hc H2). lia.
Qed.

Lemma pc_mids_in S i pc mid : s_flushes S !! i = Some pc → mid ∈ pc_mids pc → mid ∈ flush_mids S.
Proof.
  intros Hi Hm. apply elem_of_app. right. rewrite list_elem_of_In, in_concat. exists (pc_mids pc). split; [|by apply list_elem_of_In].
  apply list_elem_of_In, list_elem_of_fmap. exists pc. split; [done|]. by eapply list_elem_of_lookup_2.
Qed.

Lemma concat_insert_perm {A B} (f : A → list B) (l : list A) i x y :
  l !! i = Some x → ∃ rest, concat (f <$> l) ≡ₚ f x ++ rest ∧ concat (f <$> <[i := y]> l) ≡ₚ f y ++ rest.
Proof.
  intros Hi. exists (concat (f <$> take i l) ++ concat (f <$> drop (Datatypes.S i) l)). rewrite insert_take_drop by by eapply lookup_lt_Some.
  assert (concat (f <$> l) = concat (f <$> (take i l ++ x :: drop (Datatypes.S i) l))) as -> by (by rewrite (take_drop_middle l i x Hi)).
  rewrite !fmap_app, !concat_app, !fmap_cons. cbn [concat]. split; apply Permutation_app_swap_app.
Qed.

Lemma flush_mids_to S S' i pc pc' :
  s_flushes S !! i = Some pc → s_flushes S' = <[i := pc']> (s_flushes S) → db_tasks (s_db S') = db_tasks (s_db S) →
  ∃ rest, flush_mids S ≡ₚ pc_mids pc ++ rest ∧ flush_mids S' ≡ₚ pc_mids pc' ++ rest.
Proof.
  intros Hi Ef Et. destruct (concat_insert_perm pc_mids (s_flushes S) i pc pc' Hi) as (rest & H1 & H2). exists ((tk_memtable <$> db_tasks (s_db S)) ++ rest).
  unfold flush_mids. rewrite Ef, Et, H1, H2. split; apply Permutation_app_swap_app.
Qed.

Lemma flushes_to (l : list FlushPc) i pc' j q :
  <[i := pc']> l !! j = Some q → j = i ∧ q = pc' ∨ j ≠ i ∧ l !! j = Some q.
Proof. intros [(-> & -> & _)|[? ?]]%list_lookup_insert_Some; [by left|by right]. Qed.

Lemma parts_inv_mids S S' :
  parts_inv S → db_partitions (s_db S') = parts S → db_imms (s_db S') = db_imms (s_db S) → slots S' = slots S → s_puts S' = s_puts S →
  flush_mids S' ≡ₚ flush_mids S → parts_inv S'.
Proof.
  intros [H1 H2 H3 H4 H5 H6] Ep Ei Es Eu Hm. split; unfold active, reserved_count in *; rewrite ?Ep, ?Ei, ?Es, ?Eu; try done; [by rewrite Hm|].
  intros mid. rewrite Hm. apply H6.
Qed.

(** A table is built. *)
Lemma build_inv S i tk todo built db meta :
  db_inv S → s_flushes S !! i = Some (FlushBuild (tk :: todo) built) → build_task (s_db S) tk = Ret (db, meta) →
  db_inv (flush_to S db (<[i := FlushBuild todo (built ++ [(tk, meta)])]> (s_flushes S)) (s_mutex S)).
Proof using All.
  intros Hinv Hi E. set (S' := flush_to _ _ _ _). set (pc := FlushBuild (tk :: todo) built) in *. set (pc' := FlushBuild todo (built ++ [(tk, meta)])) in *.
  destruct (flush_mid_slot S (tk_memtable tk) Hinv) as (a & Ha & Hsc & Hf & Hne); [eapply pc_mids_in; [done|]; cbn; by left|].
  apply res_bind_Ret in E as (a1 & Ea & E). rewrite (get_slot_some S _ a Hinv Ha) in Ea. injection Ea as <-. destruct (memtable_ a) as [m|] eqn:Hm; [|done].
  apply res_bind_Ret in E as ([w meta1] & Eb & E). case_decide; [done|]. injection E as <- <-.
  destruct (si_mem _ (di_slots _ Hinv) _ a m Ha Hm) as (Hho & _ & _).
  destruct (tso_build _ m (cont S (tk_memtable tk)) _ _ _ Hho (si_nodup _ (di_slots _ Hinv) _) Hne Eb) as (Hnum & (l & Hl1 & Hl2) & Hmono). cbn [number] in Hnum.
  assert (flush_mids S' ≡ₚ flush_mids S) as Hmids.
  { destruct (flush_mids_to S S' i pc pc' Hi eq_refl eq_refl) as (r & -> & ->). apply Permutation_app_tail. cbn. rewrite fmap_app. cbn.
    rewrite (assoc_L (++)), (Permutation_app_comm _ [_]). done. }
  assert (flush_ok S' pc') as Hok.
  { destruct (fi_built _ (di_flush _ Hinv) i pc Hi) as [Hn Hb]. cbn [pc pc_built] in Hn, Hb. split.
    - cbn [pc' pc_built]. rewrite fmap_app. cbn [fmap list_fmap]. rewrite (Permutation_app_comm _ [_]). constructor; [|done]. intros Hin.
      apply list_elem_of_fmap in Hin as (b & Eq & Hin). destruct (Hb b Hin) as [Hlt _]. cbn in Eq. lia.
    - intros b [Hin|Hin]%elem_of_app.
      + destruct (Hb b Hin) as (Hlt & l' & G1 & G2 & G3). split; [cbn; lia|]. exists l'. split; [|done]. destruct G1 as [G1 G4]. split; [by apply Hmono|done].
      + apply list_elem_of_singleton in Hin as ->. split; [cbn; lia|]. exists l. split; [done|]. split; [done|]. by exists a. }
  apply inv_flush_to; try done; [exact (same_slots S)|..].
  - by apply (slots_inv_same S S').
  - apply (parts_inv_mids S S'); try done. apply Hinv.
  - apply (calm_flush_inv S S'); try done; [cbn; lia| | |exact (same_slots S)|].
    + intros j q Hj Hv. exists q. split; [|done]. cbn. rewrite list_lookup_insert_ne; [done|]. intros ->. rewrite Hi in Hj. injection Hj as <-. by destruct Hv.
    + intros j q [[-> ->]|[Hne' Hj]]%flushes_to; [by right|left]. exists q. split; [done|apply pc_like_refl].
    + intros mid b Hb. left. by exists b.
  - by apply (calm_versions_inv S S').
  - apply (calm_gets_inv S S'); try done; [exact (same_slots S)|apply (gi_current _ (di_gets _ Hinv))|exact (puts_keep S)].
Qed.

(** Steps that only change a flush. *)
Lemma flush_pc_inv S i pc pc' mutex :
  let S' := flush_to S (s_db S) (<[i := pc']> (s_flushes S)) mutex in
  db_inv S → s_flushes S !! i = Some pc → pc_mids pc' ≡ₚ pc_mids pc → flush_inv S' → db_inv S'.
Proof using All.
  intros S' Hinv Hi Hm Hfl. apply inv_flush_to; try done; [exact (same_slots S)|..].
  - by apply (slots_inv_same S S').
  - apply (parts_inv_mids S S'); try done; [apply Hinv|]. destruct (flush_mids_to S S' i pc pc' Hi eq_refl eq_refl) as (r & -> & ->). by apply Permutation_app_tail.
  - by apply (calm_versions_inv S S').
  - apply (calm_gets_inv S S'); try done; [exact (same_slots S)|apply (gi_current _ (di_gets _ Hinv))|exact (puts_keep S)].
Qed.

Lemma lock_inv S i built :
  db_inv S → s_flushes S !! i = Some (FlushBuild [] built) → s_mutex S = false →
  db_inv (flush_to S (s_db S) (<[i := FlushSet (version_id_seq_ (vset S)) built built]> (s_flushes S)) true).
Proof using All.
  intros Hinv Hi Hmx. apply (flush_pc_inv S i (FlushBuild [] built)); try done. set (S' := flush_to _ _ _ _).
  pose proof (di_flush _ Hinv) as [H1 H2 H3 H4 H5 H6].
  assert (∀ j q, s_flushes S !! j = Some q → pc_version q = None) as Hnone.
  { intros j q Hj. destruct (pc_version q) as [v|] eqn:Ev; [|done]. destruct (H5 j q v Hj Ev). congruence. }
  split; try done.
  - intros mid a Ha Hf. destruct (H1 mid a Ha Hf) as (n & l & G1 & G2 & G3 & G4). exists n, l. split_and!; try done.
    destruct G4 as [G4|(j & q & b & G5 & G6 & _)]; [by left|]. rewrite (Hnone j q G5) in G6. done.
  - intros j q [[-> ->]|[_ Hj]]%flushes_to; [exact (H3 i _ Hi)|exact (H3 j q Hj)].
  - intros j j' q q' [[-> ->]|[Hne Hj]]%flushes_to [[-> ->]|[Hne' Hj']]%flushes_to Hv Hv'; try done.
    + rewrite (Hnone j' q' Hj') in Hv'. by destruct Hv'.
    + rewrite (Hnone j q Hj) in Hv. by destruct Hv.
    + by apply (H4 j j' q q').
  - intros j q vid [[-> ->]|[Hne Hj]]%flushes_to Hv; [by injection Hv as <-|]. by rewrite (Hnone j q Hj) in Hv.
  - intros j vid todo blt [[-> [= -> -> ->]]|[Hne Hj]]%flushes_to; [done|]. by apply (H6 j vid).
Qed.

Lemma flush_like_inv S i pc pc' :
  db_inv S → s_flushes S !! i = Some pc → pc_mids pc' ≡ₚ pc_mids pc → pc_like pc pc' →
  db_inv (flush_to S (s_db S) (<[i := pc']> (s_flushes S)) (s_mutex S)).
Proof using All.
  intros Hinv Hi Hm Hl. apply (flush_pc_inv S i pc); try done. set (S' := flush_to _ _ _ _).
  apply (calm_flush_inv S S'); try done; [| |exact (same_slots S)|].
  - intros j q Hj _. destruct (decide (j = i)) as [->|Hne]; [|exists q; split; [cbn; by rewrite list_lookup_insert_ne by done|done]].
    rewrite Hi in Hj. injection Hj as <-. exists pc'. split; [cbn; apply list_lookup_insert_eq; by eapply lookup_lt_Some|]. split; apply Hl.
  - intros j q [[-> ->]|[Hne Hj]]%flushes_to; left; [by exists pc|]. exists q. split; [done|apply pc_like_refl].
  - intros mid a Ha. left. by exists a.
Qed.

Lemma SetFlushed_fields a n vid a' :
  SetFlushed a [n] vid = Ret a' →
  is_flushed_ a' = true ∧ is_scheduled_for_flushing a' = is_scheduled_for_flushing a ∧ last_version_id_ a' = Z.max (last_version_id_ a) vid
  ∧ l0_file_numbers_ a' = [n] ∧ memtable_size_ a' = memtable_size_ a ∧ number_of_pending_writes_ a' = number_of_pending_writes_ a
  ∧ ∀ m', memtable_ a' = Some m' → ∃ m, memtable_ a = Some m ∧ table_ m' = table_ m ∧ arena_ m' = arena_ m ∧ is_ready_ m' = is_ready_ m ∧ memtable_id_ m' = memtable_id_ m.
Proof.
  unfold SetFlushed, MemTable_Unref. destruct (is_flushed_ a); [done|]. case_decide; [done|]. destruct (is_immutable_ a); [|done].
  destruct (memtable_ a) as [m|] eqn:Em; [|done]. case_decide; [|done]. cbn [mbind res_bind]. unfold drop_memtable. cbn [MemTable.refs_].
  repeat case_decide; try done; intros [= <-]; split_and!; try done; cbn; intros m' [= <-]. by exists m.
Qed.

(** A memtable is marked as flushed. *)
Lemma set_inv S i vid b todo built db :
  db_inv S → s_flushes S !! i = Some (FlushSet vid (b :: todo) built) → flush_slot (s_db S) vid b = Ret db →
  db_inv (flush_to S db (<[i := FlushSet vid todo built]> (s_flushes S)) (s_mutex S)).
Proof using All.
  intros Hinv Hi E. set (S' := flush_to _ _ _ _). set (pc := FlushSet vid (b :: todo) built) in *. set (pc' := FlushSet vid todo built) in *. set (mid := tk_memtable b.1) in *.
  destruct (flush_mid_slot S mid Hinv) as (a & Ha & Hsc & Hf & _); [eapply pc_mids_in; [done|]; cbn; by left|].
  apply res_bind_Ret in E as (a1 & Ea & E). fold mid in Ea. rewrite (get_slot_some S _ a Hinv Ha) in Ea. injection Ea as <-.
  apply res_bind_Ret in E as (a' & Es & E). injection E as E. fold mid in E.
  destruct (SetFlushed_fields _ _ _ _ Es) as (F1 & F2 & F3 & F4 & F5 & F6 & F7). cbn [make_immutable is_scheduled_for_flushing last_version_id_ memtable_size_ number_of_pending_writes_ memtable_] in *.
  destruct (fi_locked _ (di_flush _ Hinv) i pc vid Hi eq_refl) as [_ Hvid]. pose proof (vi_sys _ (di_versions _ Hinv)) as Hsys. pose proof (so_seq _ Hsys) as Hseq. cbn [sys] in Hseq.
  rewrite (fi_fresh _ (di_flush _ Hinv) mid a Ha Hf), Z.max_r in F3 by lia.
  assert (slots S' = <[mid := a']> (slots S)) as Hsl by (cbn; by rewrite <- E).
  assert (∀ m c, slots S !! m = Some c → ∃ c', slots S' !! m = Some c' ∧ (is_flushed_ c = true → is_flushed_ c' = true) ∧ (is_scheduled_for_flushing c = true → is_scheduled_for_flushing c' = true)) as Hkeep.
  { intros m c Hc. rewrite Hsl. destruct (decide (m = mid)) as [->|Hne]; [exists a'; rewrite lookup_insert_eq; split_and!; try done; intros _; by rewrite F2|].
    exists c. by rewrite lookup_insert_ne by done. }
  destruct (flush_mids_to S S' i pc pc' Hi eq_refl) as (r & Hp1 & Hp2); [cbn; by rewrite <- E|]. change (pc_mids pc) with (mid :: pc_mids pc') in Hp1. cbn [app] in Hp1. rewrite <- Hp2 in Hp1.
  assert (mid ∉ flush_mids S') as Hnin. { pose proof (pa_tasks _ (di_parts _ Hinv)) as Hnd. rewrite Hp1 in Hnd. by apply NoDup_cons in Hnd as [? _]. }
  assert (flushed_ok S' mid a') as Hfl.
  { assert (b ∈ built) as Hb by (eapply (fi_set _ (di_flush _ Hinv) i vid); [exact Hi|by left]).
    destruct (fi_built _ (di_flush _ Hinv) i pc Hi) as [_ Hbuilt]. destruct (Hbuilt b Hb) as (_ & l & Hl1 & Hl2 & _). exists (number b.2), l. split; [done|]. split; [done|]. split.
    - intros id o Ho Hle. exfalso. rewrite F3 in Hle. change (s_db S') with db in Ho. rewrite <- E in Ho. cbn in Ho.
      assert (id ∈ version_list (vset S)) as Hin by (apply (so_heap _ Hsys); by eexists). apply (so_range _ Hsys) in Hin. cbn [sys] in Hin. lia.
    - right. rewrite F3. exists i, pc', b. split; [cbn; apply list_lookup_insert_eq; by eapply lookup_lt_Some|]. split_and!; try done. change (s_db S') with db. by rewrite <- E. }
  assert (∀ m, reserved_count S' m = reserved_count S m) as Hrc by done.
  apply inv_flush_to; try done; try (by rewrite <- E).
  - apply (slots_inv_insert S S' Hinv eq_refl) with mid a'; try done; try (cbn; by rewrite <- E).
    pose proof (slots_inv_at S Hinv mid a Ha) as [G1 G2 G3 G4 G5 G6 G7 G8 G9]. split; try done.
    + cbn. by rewrite <- E.
    + eapply slot_step_ok; [|by eapply slot_flush]. eapply slot_step_ok; [exact G3|]. apply slot_immutable.
    + intros m' Hm'. destruct (F7 m' Hm') as (m & Hm & E1 & E2 & E3 & E4). destruct (G4 m Hm) as (Q1 & Q2 & Q3). rewrite E3, E4. split; [|done]. unfold holds in *. by rewrite E1, E2.
    + by rewrite F6.
    + by rewrite F5.
    + cbn [s_db S' flush_to]. rewrite <- E. exact G7.
    + intros _. by rewrite F2.
  - change (parts_inv S'). pose proof (di_parts _ Hinv) as [H1 H2 H3 H4 H5 H6].
    assert (parts S' = parts S ∧ db_imms (s_db S') = db_imms (s_db S)) as [Ep Ei] by (cbn; by rewrite <- E).
    split; unfold active in *; rewrite ?Ep, ?Ei; try done.
    + intros m Hm. destruct (H1 m Hm) as (c & Hc & Hcs). exists c. split; [|done]. rewrite Hsl, lookup_insert_ne; [done|]. intros <-. congruence.
    + intros j m Hj Hm. destruct (H3 j m Hj Hm) as [[c Hc] Hn]. split; [|done]. destruct (Hkeep m c Hc) as (c' & Hc' & _). by exists c'.
    + intros m c Hc Hn. rewrite Hrc. rewrite Hsl in Hc. apply lookup_insert_Some in Hc as [[<- <-]|[Hne Hc]]; [rewrite F5; by apply (H4 mid a)|by apply H4].
    + rewrite Hp1 in H5. by apply NoDup_cons in H5 as [_ ?].
    + intros m Hm. destruct (H6 m) as (c & Hc & Hcs & Hcf); [rewrite Hp1; by right|]. exists c. split; [|done]. rewrite Hsl, lookup_insert_ne; [done|]. by intros <-.
  - apply (calm_flush_inv S S'); try done; try (cbn; by rewrite <- E).
    + intros j q Hj _. destruct (decide (j = i)) as [->|Hne]; [|exists q; split; [cbn; by rewrite list_lookup_insert_ne by done|done]].
      rewrite Hi in Hj. injection Hj as <-. exists pc'. split; [cbn; apply list_lookup_insert_eq; by eapply lookup_lt_Some|done].
    + intros j q [[-> ->]|[Hne Hj]]%flushes_to; left; [|exists q; split; [done|apply pc_like_refl]]. exists pc. split; [done|]. split; [done|]. split; [done|].
      intros vid' todo' built' [= <- <- <-]. exists (b :: todo). split; [done|]. intros x Hx. by right.
    + intros m c Hc. rewrite Hsl in Hc. apply lookup_insert_Some in Hc as [[<- <-]|[Hne Hc]]; [right; right; done|]. left. by exists c.
  - apply (calm_versions_inv S S'); try done; cbn; by rewrite <- E.
  - apply (calm_gets_inv S S'); try done; try (cbn; by rewrite <- E); [intros ? ? ? _; by apply calm_mid_ok|apply (gi_current _ (di_gets _ Hinv))|exact (puts_keep S)].
Qed.

(** *** The new version *)

Lemma AppendVersion_fields vs v vs' :
  (let '(s1, id) := new_Version vs v in AppendVersion s1 id) = Ret vs' →
  (Z.to_nat (version_id_seq_ vs) < length (versions_ vs))%nat ∧ length (versions_ vs') = length (versions_ vs)
  ∧ version_id_seq_ vs' = version_id_seq_ vs + 1 ∧ current_version_id_ vs' = version_id_seq_ vs
  ∧ ∀ id o', vs_heap vs' !! id = Some o' → id ≠ version_id_seq_ vs → ∃ o, vs_heap vs !! id = Some o ∧ ob_version o' = ob_version o.
Proof.
  unfold new_Version, AppendVersion. intros (o & _ & E)%res_bind_Ret. case_decide; [|done]. apply res_bind_Ret in E as (s1 & E1 & E).
  apply res_bind_Ret in E as ([s2 u] & E2 & E). injection E as <-. set (s0 := mkVersionSet _ _ _ _ _ _) in E1.
  assert (versions_like s0 s1) as Hl.
  { cbn [current_] in E1. destruct (current_ vs) as [c|]; [|injection E1 as <-; apply versions_like_refl]. apply res_bind_Ret in E1 as ([s3 u'] & E3 & [= <-]). by eapply Unref_like. }
  pose proof (versions_like_length _ _ Hl) as L1. destruct Hl as (_ & _ & L3 & L4 & L5). apply on_version_inv in E2 as (Hr & a & h' & a' & Ha & Hop & ->). cbn [versions_ vs_heap version_id_seq_ current_version_id_ s0] in *.
  rewrite length_insert. split; [lia|]. split; [done|]. split; [done|]. split; [done|]. intros id o' Ho' Hne.
  unfold SetVersion in Hop. destruct (version a); [done|]. unfold Version_Ref in Hop. apply res_bind_Ret in Hop as (h & Hop & [= <- _]).
  apply res_bind_Ret in Hop as (o1 & _ & [= <-]). rewrite lookup_insert_ne in Ho' by done. destruct (L5 id o' Ho') as (o2 & Ho2 & E3).
  rewrite lookup_insert_ne in Ho2 by done. by exists o2.
Qed.

Lemma holds_same w f g l : same_table f g → holds_table U (stored w) f l → holds_table U (stored w) g l.
Proof.
  intros Hs (H1 & H2 & H3). split; [by apply (tso_same w f g)|]. split; [done|]. destruct Hs as (_ & E1 & E2 & _). unfold describes in *. by rewrite <- E1, <- E2.
Qed.

Lemma incr_refs_same f : same_table f (incr_refs f).
Proof. done. Qed.

(** The record of a built table in the edit. *)
Definition edit_file (b : built_table) : FileMetaData :=
  mkFile 0 (1 ≪ 30) [tk_memtable b.1] (number b.2) (file_size b.2) (converted_file_size b.2) (flush_timestamp b.2) 0
    (smallest b.2) (largest b.2) NONE (block_replica_handles b.2) (parity_block_handle b.2).

Lemma flush_edit_fields built :
  new_files_ (flush_edit built) = (λ b, (0, edit_file b)) <$> built ∧ deleted_files_ (flush_edit built) = []
  ∧ update_replica_locations_ (flush_edit built) = false.
Proof.
  induction built as [|b built (IH1 & IH2 & IH3)] using rev_ind; [done|]. unfold flush_edit in *. rewrite foldl_snoc, fmap_app. cbn.
  rewrite IH1, IH2, IH3. done.
Qed.

Lemma flush_edit_new_at built j : new_at j (flush_edit built) = (if decide (j = 0%nat) then edit_file <$> built else []).
Proof.
  unfold new_at. destruct (flush_edit_fields built) as (-> & _). induction built as [|b built IH]; [by case_decide|]. rewrite fmap_cons, filter_cons. cbn [fst Z.to_nat].
  destruct (decide (j = 0%nat)) as [->|Hne]; [rewrite decide_True by done|rewrite decide_False by done; done]. rewrite fmap_cons. cbn [snd]. by rewrite IH.
Qed.

Lemma flush_edit_deleted_at built j : deleted_at j (flush_edit built) = [].
Proof. unfold deleted_at. by destruct (flush_edit_fields built) as (_ & -> & _). Qed.

Section installing.
Context (S : State W) (pc : FlushPc) (base v : Version) (vid : Z).
Local Abbreviation built := (pc_built pc).
Local Abbreviation applied base e := (Builder_Apply U (Builder_init (length (files_ base))) e).
Local Abbreviation new_levels base e := (VersionBuilder.saved U (levels_ (applied base e)) (files_ base)).
Hypothesis Hok : flush_ok S pc.
Hypothesis Hbase : version_ok U base.
Hypothesis Hlevels : files_ base ≠ [].
Hypothesis Hv : LogAndApply_version U base (flush_edit built) vid = Ret v.

Lemma flush_applicable : edit_applicable U (length (files_ base)) (flush_edit built).
Proof using Hok Hlevels OU.
  destruct (flush_edit_fields built) as (E1 & E2 & E3). destruct Hok as [Hnd Hb]. assert (0 < length (files_ base))%nat by (destruct (files_ base); [done|cbn; lia]).
  split; rewrite ?E1, ?E2, ?E3; try done.
  - apply Forall_forall. intros nf Hnf. apply list_elem_of_fmap in Hnf as (b & -> & Hin). cbn [fst snd]. split; [lia|].
    destruct (Hb b Hin) as (_ & l & Hl & _). apply (holds_wf U (stored (store S)) (edit_file b) l). by apply (holds_same _ b.2).
  - apply Forall_forall. intros nf Hnf. apply list_elem_of_fmap in Hnf as (b & -> & Hin). done.
  - rewrite <- !list_fmap_compose. erewrite list_fmap_ext; [exact Hnd|]. done.
  - intros d nf Hd. by apply not_elem_of_nil in Hd.
Qed.

Lemma installed_version : version_ok U v ∧ files_ v = new_levels base (flush_edit built).
Proof using Hok Hbase Hlevels Hv OU.
  pose proof flush_applicable as He. split; [by eapply (LogAndApply_ok U base)|]. apply LogAndApply_iff in Hv as (_ & _ & _ & ->); [done|apply (ea_not_replica _ _ _ He)].
Qed.

Lemma installed_levels : tail (files_ v) = map (map incr_refs) (tail (files_ base)).
Proof using Hok Hbase Hlevels Hv OU.
  destruct installed_version as [_ ->]. apply list_eq. intros j. rewrite list_lookup_fmap, !lookup_tail. rewrite saved_zip by apply applied_length.
  rewrite lookup_zip_with. destruct (files_ base !! Datatypes.S j) as [b|] eqn:Eb.
  - destruct (levels_ (applied base (flush_edit built)) !! Datatypes.S j) as [l|] eqn:El.
    + cbn. f_equal. apply (applied_lookup U) in El as (Ea & _ & _ & Hd). rewrite flush_edit_new_at, decide_False in Ea by done. cbn in Ea.
      unfold saved_level, kept. rewrite Ea. cbn [merge_files]. f_equal. apply filter_all, Forall_forall. intros f _ Hin. apply Hd in Hin as [Hin _]. rewrite flush_edit_deleted_at in Hin. by apply not_elem_of_nil in Hin.
    + exfalso. apply lookup_ge_None in El. rewrite applied_length in El. apply lookup_lt_Some in Eb. lia.
  - cbn. by destruct (levels_ _ !! _).
Qed.

Lemma installed_keeps o' n l o : ob_version o = base → ob_version o' = v → has_table S o n l → has_table S o' n l.
Proof using Hok Hbase Hlevels Hv OU.
  intros Eo Eo' (f & Hf & Hn & Hl). destruct installed_version as [Hvok Hfiles]. rewrite Eo in Hf. apply (vo_map _ _ Hbase) in Hf as [Hin _].
  exists (incr_refs f). rewrite Eo'. split; [|split; [done|by apply (holds_same _ f)]]. apply (vo_map _ _ Hvok). split; [|done]. rewrite Hfiles.
  apply concat_elem in Hin as (j & fs & Hj & Hin). pose proof (new_levels_content U base _ flush_applicable) as Hc.
  assert (edited_levels base (flush_edit built) !! j = Some (filter (λ f, number f ∉ deleted_at j (flush_edit built)) fs ++ (new_file <$> new_at j (flush_edit built)))) as He by (unfold edited_levels; by rewrite list_lookup_imap, Hj).
  destruct (Forall2_lookup_r _ _ _ _ _ Hc He) as (fs' & Hj' & Hp). apply concat_elem. exists j, fs'. split; [done|]. rewrite Hp. apply list_elem_of_fmap_2, elem_of_app. left.
  apply list_elem_of_filter. split; [|done]. rewrite flush_edit_deleted_at. apply not_elem_of_nil.
Qed.

Lemma installed_new o' b l : ob_version o' = v → b ∈ built → holds_table U (stored (store S)) b.2 l → has_table S o' (number b.2) l.
Proof using Hok Hbase Hlevels Hv OU.
  intros Eo' Hb Hl. destruct installed_version as [Hvok Hfiles]. exists (incr_refs (new_file (edit_file b))). rewrite Eo'. split; [|split; [done|by apply (holds_same _ b.2)]].
  apply (vo_map _ _ Hvok). split; [|done]. rewrite Hfiles. pose proof (new_levels_content U base _ flush_applicable) as Hc.
  assert (∃ fs0 fss, files_ base = fs0 :: fss) as (fs0 & fss & Ef) by (destruct (files_ base); [done|by eauto]).
  assert (edited_levels base (flush_edit built) !! 0%nat = Some (filter (λ f, number f ∉ deleted_at 0 (flush_edit built)) fs0 ++ (new_file <$> new_at 0 (flush_edit built)))) as He by (unfold edited_levels; by rewrite Ef).
  destruct (Forall2_lookup_r _ _ _ _ _ Hc He) as (fs' & Hj' & Hp). apply concat_elem. exists 0%nat, fs'. split; [done|]. rewrite Hp. apply list_elem_of_fmap_2, elem_of_app. right.
  apply list_elem_of_fmap_2. rewrite flush_edit_new_at, decide_True by done. by apply list_elem_of_fmap_2.
Qed.
End installing.

Lemma level_ok_incr key w files ls : level_ok U (stored w) key files ls → level_ok U (stored w) key (map incr_refs files) ls.
Proof.
  intros [H1 H2 H3 H4]. split; try done; [|by rewrite length_map]. apply Forall2_fmap_l. eapply Forall2_impl; [exact H1|]. intros f l. by apply holds_same.
Qed.

Section install_step.
Context (S : State W) (i : nat) (vid : Z) (built : list built_table) (db : DB W).
Hypothesis Hinv : db_inv S.
Hypothesis Hi : s_flushes S !! i = Some (FlushApply vid built).
Hypothesis Hstep : install U (s_db S) (flush_edit built) vid = Ret db.
Local Abbreviation S' := (flush_to S db (<[i := FlushCleanup (fst <$> built)]> (s_flushes S)) false).

(** The current version, the new one and the set with it. *)
Lemma install_parts : ∃ c o v vs',
  current_ (vset S) = Some c ∧ vs_heap (vset S) !! c = Some o ∧ LogAndApply_version U (ob_version o) (flush_edit built) vid = Ret v
  ∧ (let '(s1, id) := new_Version (vset S) v in AppendVersion s1 id) = Ret vs' ∧ db = set_versions (s_db S) vs' ∧ vid = version_id_seq_ (vset S)
  ∧ c < vid.
Proof using Hinv Hi Hstep.
  pose proof Hstep as E. unfold install in E. destruct (current_ (vset S)) as [c|] eqn:Ec; [|done]. apply res_bind_Ret in E as (o & Eo & E).
  apply res_bind_Ret in E as (v & Ev & E). unfold new_Version in E. apply res_bind_Ret in E as (vs' & Ea & E). injection E as <-.
  exists c, o, v, vs'. destruct (fi_locked _ (di_flush _ Hinv) i _ vid Hi eq_refl) as [_ Hvid]. split_and!; try done.
  - unfold deref in Eo. destruct (vs_heap (vset S) !! c); [by injection Eo as ->|done].
  - pose proof (vi_sys _ (di_versions _ Hinv)) as Hsys. pose proof (so_range _ Hsys c (so_current _ Hsys c Ec)) as [Hr _]. cbn [sys] in Hr. lia.
Qed.

(** The objects of the new set: the old ones and the new version. *)
Lemma install_heap id o' :
  vs_heap (vset S') !! id = Some o' →
  (∃ o, vs_heap (vset S) !! id = Some o ∧ ob_version o' = ob_version o ∧ id ≠ vid)
  ∨ id = vid ∧ ∃ c o, current_ (vset S) = Some c ∧ vs_heap (vset S) !! c = Some o
      ∧ LogAndApply_version U (ob_version o) (flush_edit built) vid = Ret (ob_version o').
Proof using Hinv Hi Hstep.
  destruct install_parts as (c & o & v & vs' & Ec & Eo & Ev & Ea & E & Hvid & Hlt). cbn [flush_to s_db]. rewrite E. cbn [set_versions db_versions]. intros Ho'.
  destruct (AppendVersion_fields _ _ _ Ea) as (Hlen & _ & _ & _ & Hheap). destruct (decide (id = vid)) as [->|Hne].
  - right. split; [done|]. destruct (AppendVersion_ok _ v (vi_sys _ (di_versions _ Hinv)) Hlen) as (vs2 & Ea2 & _ & _ & _ & Hnew & _). cbn [sys] in Ea2, Hnew.
    rewrite Ea in Ea2. injection Ea2 as <-. rewrite <- Hvid, Ho' in Hnew. injection Hnew as ->. exists c, o. done.
  - left. destruct (Hheap id o' Ho') as (o1 & Ho1 & E1); [by rewrite <- Hvid|]. by exists o1.
Qed.

Lemma install_built : flush_ok S (FlushApply vid built).
Proof using Hinv Hi. apply (fi_built _ (di_flush _ Hinv) i _ Hi). Qed.

Lemma install_flushed mid a : slots S !! mid = Some a → is_flushed_ a = true → flushed_ok S' mid a.
Proof using Hinv Hi Hstep OU.
  intros Ha Hf. destruct (fi_flushed _ (di_flush _ Hinv) mid a Ha Hf) as (n & l & H1 & H2 & H3 & H4). exists n, l. split; [done|]. split; [done|].
  assert (last_version_id_ a <= vid) as Hle.
  { destruct install_parts as (c & o & v & vs' & Ec & _ & _ & _ & _ & Hvid & Hlt). destruct H4 as [(c' & Ec' & H4)|(j & q & b & Hj & Hq & _)]; [assert (c' = c) by congruence; lia|].
    destruct (fi_locked _ (di_flush _ Hinv) j q _ Hj Hq) as [_ Hq']. lia. }
  assert (store S' = store S) as Est by (destruct install_parts as (c & o & v & vs' & _ & _ & _ & _ & E & _); cbn; by rewrite E). split.
  - intros id o' Ho' Hid. unfold has_table. rewrite Est. destruct (install_heap id o' Ho') as [(o & Ho & E & Hne)|(-> & c & o & Ec & Ho & Ev)].
    + rewrite E. by apply (H3 id).
    + destruct (vi_version _ (di_versions _ Hinv) c o Ho) as (Hvok & Hne & _). destruct H4 as [(c' & Ec' & H4)|(j & q & b & Hj & Hq & Hb & Hm & Hn & Hl)].
      * assert (c' = c) as -> by congruence. apply (installed_keeps S (FlushApply vid built) (ob_version o) (ob_version o') vid) with o; try done; [apply install_built|by apply (H3 c)].
      * assert (j = i) as -> by (apply (fi_mutex _ (di_flush _ Hinv) j i q (FlushApply vid built)); try done; by eexists). rewrite Hi in Hj. injection Hj as <-.
        rewrite <- Hn. apply (installed_new S (FlushApply vid built) (ob_version o) (ob_version o') vid); try done. apply install_built.
  - left. exists vid. split; [|done]. destruct install_parts as (c & o & v & vs' & Ec & Eo & Ev & Ea & E & Hvid & Hlt). cbn. rewrite E. cbn.
    destruct (AppendVersion_fields _ _ _ Ea) as (Hlen & _). destruct (AppendVersion_ok _ v (vi_sys _ (di_versions _ Hinv)) Hlen) as (vs2 & Ea2 & _ & Hcur & _). cbn [sys] in Ea2, Hcur.
    rewrite Ea in Ea2. injection Ea2 as <-. by rewrite Hcur, Hvid.
Qed.

Lemma install_flush_inv : flush_inv S'.
Proof using Hinv Hi Hstep OU.
  pose proof (di_flush _ Hinv) as [H1 H2 H3 H4 H5 H6]. destruct install_parts as (c & o & v & vs' & _ & _ & _ & _ & E & _).
  assert (∀ j q, s_flushes S' !! j = Some q → pc_version q = None) as Hnone.
  { intros j q [[-> ->]|[Hne Hj]]%flushes_to; [done|]. destruct (pc_version q) as [w|] eqn:Ev; [|done]. destruct Hne. apply (H4 j i q (FlushApply vid built)); try done; by eexists. }
  assert (slots S' = slots S ∧ store S' = store S ∧ db_next_file (s_db S') = db_next_file (s_db S)) as (Es & Est & En) by (cbn; by rewrite E).
  split; rewrite ?Es.
  - intros mid a. apply install_flushed.
  - done.
  - intros j q [[-> ->]|[Hne Hj]]%flushes_to; [split; [constructor|intros b []%not_elem_of_nil]|]. unfold flush_ok. rewrite Es, Est, En. exact (H3 j q Hj).
  - intros j j' q q' Hj _ Hv _. rewrite (Hnone j q Hj) in Hv. by destruct Hv.
  - intros j q w Hj Hv. by rewrite (Hnone j q Hj) in Hv.
  - intros j w todo blt Hj. apply Hnone in Hj. done.
Qed.

Lemma install_versions_inv : versions_inv S'.
Proof using Hinv Hi Hstep OU.
  pose proof (di_versions _ Hinv) as [H1 H2 H3 H4 HR]. destruct install_parts as (c & o & v & vs' & Ec & Eo & Ev & Ea & E & Hvid & Hlt).
  destruct (AppendVersion_fields _ _ _ Ea) as (Hlen & _ & _ & Hcid & _). destruct (AppendVersion_ok _ v H1 Hlen) as (vs2 & Ea2 & Hsys & Hcur & _ & _ & Hatomic). cbn [sys held] in Ea2, Hcur, Hsys, Hatomic.
  rewrite Ea in Ea2. injection Ea2 as <-. assert (vset S' = vs' ∧ store S' = store S) as [Evs Est] by (cbn; by rewrite E). split; try done; rewrite ?Evs.
  - done.
  - by rewrite Hcid, Hcur.
  - rewrite <- Evs, Est. intros id o' Ho'. destruct (install_heap id o' Ho') as [(o1 & Ho1 & -> & _)|(-> & c1 & o1 & Ec1 & Ho1 & Ev1)]; [by apply (H4 id)|].
    destruct (H4 c1 o1 Ho1) as (Hvok & Hne & Hlv). pose proof install_built as Hb.
    destruct (installed_version S (FlushApply vid built) (ob_version o1) (ob_version o') vid Hb Hvok Hne Ev1) as [G1 G2]. split; [done|]. split.
    + rewrite G2. intros En. apply (f_equal length) in En. rewrite new_levels_length in En by done. by destruct (files_ (ob_version o1)).
    + intros key Hk. rewrite (installed_levels S (FlushApply vid built) (ob_version o1) (ob_version o') vid Hb Hvok Hne Ev1). apply Forall2_fmap_l.
      eapply Forall2_impl; [by apply Hlv|]. intros files ls. apply level_ok_incr.
  - unfold ready. rewrite Hcid, Hatomic. by eexists.
Qed.

Lemma install_gets_inv : gets_inv S'.
Proof using All.
  pose proof (di_gets _ Hinv) as [H1 H2 H3 H4]. destruct install_parts as (c & o & v & vs' & Ec & Eo & Ev & Ea & E & Hvid & Hlt).
  destruct (AppendVersion_fields _ _ _ Ea) as (_ & Hlen & _).
  assert (slots S' = slots S ∧ store S' = store S ∧ vset S' = vs') as (Es & Est & Evs) by (cbn; by rewrite E).
  assert (∀ key A mid, mid_ok S key A mid → mid_ok S' key A mid) as Hm by (intros key A mid H; unfold mid_ok; by rewrite Es).
  assert (∀ mid, gone S mid → gone S' mid) as Hgone by (intros mid H; unfold gone; by rewrite Es).
  split; try done. intros j g Hg. specialize (H4 j g Hg). unfold pc_ok in *.
  destruct (gt_pc g) as [|mid|mid|mid r|mid|mid w|mid w|mid w l|w st x|st x] eqn:Epc; cbn zeta in *; try done.
  - by apply Hm.
  - split; [apply H4|]. apply Hm, H4.
  - by rewrite Es.
  - split; [apply Hm, H4|apply Hgone, H4].
  - rewrite Evs, Hlen. split; [apply Hm, H4|]. split; [apply Hgone, H4|apply H4].
  - split; [apply Hm, H4|apply Hgone, H4].
  - destruct H4 as [H4|(n & l' & wr & H5 & H6 & H7)]; [by left|right]. exists n, l', wr. split; [done|]. split; [|done].
    assert (get_holds g = Some w) as Hh by (unfold get_holds; by rewrite Epc). destruct (held_live S j g Hinv Hg w Hh) as [ow Hw]. pose proof (H6 ow Hw) as Ht.
    intros o' Ho'. destruct (install_heap w o' Ho') as [(o1 & Ho1 & Eo1 & _)|(-> & _)].
    + unfold has_table. rewrite Est, Eo1. by apply H6.
    + pose proof (vi_sys _ (di_versions _ Hinv)) as Hsys. assert (vid ∈ version_list (vset S)) as Hin by (apply (so_heap _ Hsys); by eexists). apply (so_range _ Hsys) in Hin. cbn [sys] in Hin. lia.
Qed.

Lemma install_inv : db_inv S'.
Proof using All.
  destruct install_parts as (c & o & v & vs' & _ & _ & _ & _ & E & _).
  apply inv_flush_to; try done; try (by rewrite E).
  - intros mid a Ha. exists a. cbn. by rewrite E.
  - apply (slots_inv_same S S'); try done; cbn; by rewrite E.
  - apply (parts_inv_mids S S'); try done; try (cbn; by rewrite E); [apply Hinv|].
    destruct (flush_mids_to S S' i _ (FlushCleanup (fst <$> built)) Hi eq_refl) as (r & -> & ->); [cbn; by rewrite E|done].
  - apply install_flush_inv.
  - apply install_versions_inv.
  - apply install_gets_inv.
Qed.
End install_step.

(** *** The cleanup *)

(** The same active memtables, and no other immutable ones. *)
Definition same_active (db : DB W) (ps : list MemTablePartition) (imms : list Z) : Prop :=
  (∀ j, active_memtable <$> (ps !! j) = active_memtable <$> (db_partitions db !! j))
  ∧ ∀ j m, imms !! j = Some m → m = 0 ∨ db_imms db !! j = Some m.

Lemma inv_same_active S ps imms n : db_inv S → same_active (s_db S) ps imms → db_inv (with_db S (set_partitions (s_db S) ps imms n)).
Proof using All.
  intros Hinv [Hact Him]. set (S' := with_db S _).
  assert (∀ j q, ps !! j = Some q → ∃ p, parts S !! j = Some p ∧ active_memtable p = active_memtable q) as Hb.
  { intros j q Hq. specialize (Hact j). rewrite Hq in Hact. destruct (parts S !! j) as [p|]; [|done]. injection Hact as E. by exists p. }
  assert (∀ j p, parts S !! j = Some p → ∃ q, ps !! j = Some q ∧ active_memtable q = active_memtable p) as Hf.
  { intros j p Hp. specialize (Hact j). rewrite Hp in Hact. destruct (ps !! j) as [q|]; [|done]. injection Hact as E. by exists q. }
  assert (∀ m, active S' m ↔ active S m) as Hac.
  { intros m. split; intros (j & q & Hj & Hq); [destruct (Hb j q Hj) as (p & Hp & E)|destruct (Hf j q Hj) as (p & Hp & E)]; exists j, p; by rewrite E. }
  apply (inv_with_partitions S); [done| |].
  - pose proof (di_parts _ Hinv) as [H1 H2 H3 H4 H5 H6]. split; try done.
    + intros m Hm. apply H1. by apply Hac.
    + intros j j' q q' m Hj Hj' Hq Hq'. destruct (Hb j q Hj) as (p & Hp & E), (Hb j' q' Hj') as (p' & Hp' & E'). apply (H2 j j' p p' m); try done; congruence.
    + intros j m Hj Hm. destruct (Him j m Hj) as [?|Hj']; [done|]. destruct (H3 j m Hj' Hm) as [G1 G2]. split; [done|]. intros Hma. by apply G2, Hac.
    + intros m a Ha Hn. apply H4; [done|]. intros Hma. by apply Hn, Hac.
  - intros j t Hj. pose proof (puts_inv_at S j t (di_puts _ Hinv) Hj) as [H1 H2 H3 H4 H5]. split; try done.
    + intros m imm Hpc. destruct (H3 m imm Hpc) as (pid' & b & r & q & E1 & E2 & E3). destruct (Hf _ q E2) as (q' & Hq' & E). exists pid', b, r, q'. rewrite E. done.
    + intros m Hpc. destruct (H4 m Hpc) as (Hs & pid' & b & r & E1 & E2). split; [done|]. exists pid', b, r. split; [done|].
      destruct E2 as [(q & E2 & E3)|E2]; [left; destruct (Hf _ q E2) as (q' & Hq' & E); exists q'; by rewrite E|right]. intros Hma. by apply E2, Hac.
Qed.

Lemma same_active_set db pid p p' ps imms :
  same_active db ps imms → ps !! Z.to_nat pid = Some p → active_memtable p' = active_memtable p → same_active db (<[Z.to_nat pid := p']> ps) imms.
Proof.
  intros [H1 H2] Hp Ea. split; [|done]. intros j. destruct (decide (j = Z.to_nat pid)) as [->|Hne]; [|by rewrite list_lookup_insert_ne by done].
  rewrite list_lookup_insert_eq by (by eapply lookup_lt_Some). rewrite <- H1, Hp. cbn. by rewrite Ea.
Qed.

Lemma free_slots_active db0 pid tasks : ∀ ps imms n db',
  same_active db0 ps imms → free_slots (set_partitions db0 ps imms n) pid tasks = Ret db' →
  ∃ ps' imms', db' = set_partitions db0 ps' imms' n ∧ same_active db0 ps' imms'.
Proof.
  induction tasks as [|t tasks IH]; intros ps imms n db' Hs; [intros [= <-]; by exists ps, imms|]. cbn [free_slots].
  intros (p & [_ Hp]%get_partition_some & E)%res_bind_Ret. apply res_bind_Ret in E as (m & [_ Hm]%get_imm_some & E). case_decide; [done|].
  apply res_bind_Ret in E as (a & _ & E). apply res_bind_Ret in E as (gens & _ & E). case_decide; [|done]. cbn in Hp.
  apply (IH (<[Z.to_nat pid := _]> ps) (<[Z.to_nat (tk_imm_slot t) := 0]> imms) n db') in E; [done|].
  eapply same_active_set; [|done|done]. destruct Hs as [H1 H2]. split; [done|]. intros j m' [(_ & <- & _)|[Hne Hj]]%list_lookup_insert_Some; [by left|by apply H2].
Qed.

Lemma cleanup_active db pid tasks db' closed :
  cleanup db pid tasks = Ret (db', closed) → ∃ ps imms n, db' = set_partitions db ps imms n ∧ same_active db ps imms.
Proof.
  intros (db1 & E1 & E)%res_bind_Ret. assert (db = set_partitions db (db_partitions db) (db_imms db) (db_num_imms db)) as Edb by (by destruct db). rewrite Edb in E1.
  apply free_slots_active in E1 as (ps & imms & -> & Hs); [|split; [done|]; intros j m Hj; by right]. apply res_bind_Ret in E as (p & [_ Hp]%get_partition_some & E).
  injection E as <- <-. cbn. eexists _, _, _. split; [done|]. by eapply same_active_set.
Qed.

Lemma flush_step_inv S i pc db mutex pc' :
  db_inv S → s_flushes S !! i = Some pc → flush_step U (s_db S) (s_mutex S) pc = Ret (db, mutex, pc') →
  db_inv (flush_to S db (<[i := pc']> (s_flushes S)) mutex).
Proof using All.
  intros Hinv Hi E. destruct pc as [[|t todo] built|vid [|b todo] built|vid built|[|t todo]|]; cbn [flush_step] in E; [| | | | | | |done].
  - destruct (s_mutex S) eqn:Hm; [done|]. injection E as <- <- <-. by apply lock_inv.
  - apply res_bind_Ret in E as ([db1 meta] & E1 & E). injection E as <- <- <-. by apply build_inv.
  - injection E as <- <- <-. by apply (flush_like_inv S i (FlushSet vid [] built)).
  - apply res_bind_Ret in E as (db1 & E1 & E). injection E as <- <- <-. by apply (set_inv S i vid b).
  - apply res_bind_Ret in E as (db1 & E1 & E). injection E as <- <- <-. by apply (install_inv S i vid).
  - injection E as <- <- <-. by apply (flush_like_inv S i (FlushCleanup [])).
  - apply res_bind_Ret in E as ([db1 closed] & E1 & E). injection E as <- <- <-. destruct (cleanup_active _ _ _ _ _ E1) as (ps & imms & n & -> & Hs).
    apply (inv_same_active (flush_to S (s_db S) (<[i := FlushCleanup _]> (s_flushes S)) (s_mutex S))); [|done]. by apply (flush_like_inv S i (FlushCleanup (t :: todo))).
Qed.

(** ** Every step *)

Lemma db_step_inv S S' : db_step U new_char options key_ok hash base_value S S' → db_inv S → db_inv S'.
Proof using All.
  destruct 1 as [S key value attempts Hk H1 H2 H3 H4|S i t db t' Hi Hl Hst|S key Hk H1 H2|S i g db pc Hi Hst|S batch rest Hp|S i pc db mutex pc' Hi Hst]; intros Hinv.
  - by apply put_begin_inv.
  - by apply put_step_inv.
  - by apply get_begin_inv.
  - by apply get_step_inv.
  - by apply flush_begin_inv.
  - by apply (flush_step_inv S i pc).
Qed.

Lemma db_steps_inv S S' : rtc (db_step U new_char options key_ok hash base_value) S S' → db_inv S → db_inv S'.
Proof using All. induction 1; [done|]. eauto using db_step_inv. Qed.

(** ** The start *)

(** A database without threads. *)
Definition idle (db : DB W) : State W := mkState db [] [] [] false ∅ ∅.

(** The versions a database is opened with: their sorted levels hold [lss]. *)
Definition opened (vs : VersionSet) (w : W) : Prop :=
  sys_ok (mkSys vs []) ∧ current_ vs = Some (current_version_id_ vs) ∧ ready vs
  ∧ ∀ id o, vs_heap vs !! id = Some o → version_ok U (ob_version o) ∧ files_ (ob_version o) ≠ []
      ∧ ∀ key, key_ok key → Forall2 (level_ok U (stored w) key) (tail (files_ (ob_version o))) lss.

Lemma open_partition_inv db db' mid gen m p :
  db_inv (idle db) → mid = db_memtable_id_seq db → MemTable_init new_char mid true = Ret m → mid < MAX_LIVE_MEMTABLES → active_memtable p = Some mid →
  db' = mkDB (db_last_sequence db) (mid + 1) (db_next_file db) (db_lookup_index db) (<[mid := SetMemTable AtomicMemTable_init gen m]> (db_slots db))
    (db_partitions db ++ [p]) (db_imms db) (db_num_imms db) (db_versions db) (db_order db) (db_tasks db) (db_storage db) →
  db_inv (idle db').
Proof using All.
  intros Hinv -> Em Hmax Hact ->. set (mid := db_memtable_id_seq db) in *. set (S := idle db) in *. set (S' := idle _).
  destruct (new_slot S S' gen m) as [Hfresh Hslot]; try done. change (db_memtable_id_seq (s_db S)) with mid in Hfresh, Hslot.
  assert (slots S' = <[mid := SetMemTable AtomicMemTable_init gen m]> (slots S)) as Hsl by done.
  assert (∀ m' a, slots S !! m' = Some a → slots S' !! m' = Some a) as Hkeep by (intros m' a Ha; rewrite Hsl, lookup_insert_ne; [done|congruence]).
  assert (∀ j q, parts S' !! j = Some q → parts S !! j = Some q ∨ j = length (parts S) ∧ q = p) as Hl.
  { intros j q [H|[Hj H]]%lookup_app_Some; [by left|right]. apply list_lookup_singleton_Some in H as [H0 <-]. split; [|done]. change (parts S) with (db_partitions db) in *. lia. }
  assert (∀ m', active S' m' ↔ active S m' ∨ m' = mid) as Hactive.
  { intros m'. split; [intros (j & q & [Hj|[-> ->]]%Hl & Hq); [left; by exists j, q|right; congruence]|].
    intros [(j & q & Hj & Hq)| ->]; [exists j, q; split; [by apply lookup_app_l_Some|done]|exists (length (parts S)), p; split; [|done]].
    cbn. rewrite lookup_app_r, Nat.sub_diag by done. done. }
  pose proof (di_parts _ Hinv) as [H1 H2 H3 H4 H5 H6].
  assert (∀ m', active S m' → m' ≠ mid) as Hold by (intros m' Hm' ->; destruct (H1 mid Hm') as (b & Hb & _); congruence). split.
  - apply (slots_inv_insert S S' Hinv eq_refl) with mid (SetMemTable AtomicMemTable_init gen m); try done. cbn. lia.
  - split; try done.
    + intros m' [Ha| ->]%Hactive; [|rewrite Hsl, lookup_insert_eq; by eexists]. destruct (H1 m' Ha) as (b & Hb & ?). exists b. split; [by apply Hkeep|done].
    + intros j j' q q' m' [Hj|[-> ->]]%Hl [Hj'|[-> ->]]%Hl Hq Hq'; try done.
      * by apply (H2 j j' q q' m').
      * destruct (Hold m'); [by exists j, q|congruence].
      * destruct (Hold m'); [by exists j', q'|congruence].
    + intros j m' Hj Hm'. destruct (H3 j m' Hj Hm') as [[b Hb] Hna]. split; [exists b; by apply Hkeep|]. intros [?| ->]%Hactive; [done|congruence].
    + intros m' b Hb Hna. assert (m' ≠ mid) by (intros ->; apply Hna, Hactive; by right). rewrite Hsl, lookup_insert_ne in Hb by done.
      apply (H4 m' b Hb). intros Ha. apply Hna, Hactive. by left.
    + intros m' Hm'. destruct (H6 m' Hm') as (b & Hb & ?). exists b. split; [by apply Hkeep|done].
  - apply (quiet_flush_inv S S'); try done; [intros m' a Ha; exists a; split; [by apply Hkeep|done]|].
    intros m' b Hb Hn. destruct (decide (m' = mid)) as [->|Hne]; [|rewrite Hsl, lookup_insert_ne in Hb by done; congruence]. rewrite Hsl, lookup_insert_eq in Hb. by injection Hb as <-.
  - by apply (quiet_versions_inv S S').
  - destruct (di_puts _ Hinv). by split.
  - destruct (di_index _ Hinv). by split.
  - by split.
Qed.

Lemma open_partitions_inv n : ∀ nslots rem slot db db',
  db_inv (idle db) → open_partitions new_char n nslots rem slot db = Ret db' → db_inv (idle db').
Proof using All.
  induction n as [|n IH]; intros nslots rem slot db db' Hinv; [by intros [= <-]|]. cbn [open_partitions].
  intros (m & Em & E)%res_bind_Ret. destruct (decide (db_memtable_id_seq db < MAX_LIVE_MEMTABLES)) as [Hmax|]; [|done].
  apply res_bind_Ret in E as (a & Ea & E). refine (IH _ _ _ _ _ _ E).
  assert (a = AtomicMemTable_init) as ->.
  { unfold get_slot in Ea. destruct (decide (0 <= db_memtable_id_seq db < MAX_LIVE_MEMTABLES)); [|done]. injection Ea as <-. destruct (db_slots db !! db_memtable_id_seq db) as [b|] eqn:Eb; [|done].
    pose proof (si_range _ (di_slots _ Hinv) _ b Eb) as Hr. cbn in Hr. lia. }
  eapply open_partition_inv; [exact Hinv|reflexivity|exact Em|done| |reflexivity]; done.
Qed.

Lemma open_inv num_memtables num_partitions last_sequence next_file vs w db :
  0 < index_size → 0 <= last_sequence → opened vs w →
  DB_Open new_char num_memtables num_partitions index_size last_sequence next_file vs w = Ret db → db_inv (idle db).
Proof using All.
  intros Hix Hls (Hsys & Hcur & Hready & Hver). unfold DB_Open. case_decide; [done|]. apply open_partitions_inv. split.
  - split; try done; [by intros mid w' ?%not_elem_of_nil|intros mid; constructor].
  - split; try done.
    + by intros mid (j & p & Hj & _).
    + intros s mid Hs Hm. apply lookup_replicate in Hs as [-> _]. done.
    + constructor.
    + intros mid []%not_elem_of_nil.
  - split; try done.
  - by split.
  - by split.
  - split; try done; [cbn; unfold LookupIndex_make; rewrite length_replicate; lia|]. intros key Hk. cbn. rewrite lookup_empty.
    unfold Index_Lookup, locator, LookupIndex_make. rewrite decide_False by (destruct (Z.to_nat index_size) eqn:En; [lia|done]). cbn [mbind res_bind].
    rewrite length_replicate, lookup_replicate_2; [done|]. pose proof (Z.mod_pos_bound (hash key) (Z.of_nat (Z.to_nat index_size)) ltac:(lia)). lia.
  - by split.
Qed.

(** ** Lookups that run alone *)

(** A step of lookup [i]. *)
Definition lookup_step (i : nat) (S S' : State W) : Prop :=
  ∃ g db pc, s_gets S !! i = Some g ∧ get_step U options (s_db S) (gt_key g) (hash (gt_key g)) (gt_pc g) = Ret (db, pc) ∧ S' = get_to S i g db pc.

Definition finished (g : GetThread) : Prop := ∃ st v, gt_pc g = GetDone st v.

(** The version from which the files of a memtable are found. *)
Definition slot_version S (mid : Z) : Z := from_option last_version_id_ 0 (slots S !! mid).

(** The steps a lookup has left while no version is being installed. *)
Definition steps_left S (pc : GetPc) : nat :=
  match pc with
  | GetStart => 7
  | GetIndexed _ => 6
  | GetLoop _ => 5
  | GetVersion mid vid => if decide (vid = current_version_id_ (vset S)) then 4 else 7
  | GetHeld mid vid => if decide (vid >= slot_version S mid) then 3 else 6
  | GetMemTable _ | GetFiles _ _ _ => 2
  | GetRelease _ _ | GetUnref _ _ _ => 1
  | GetDone _ _ => 0
  end.

Lemma installed_current S mid : db_inv S → s_mutex S = false → slot_version S mid <= current_version_id_ (vset S).
Proof.
  intros Hinv Hm. unfold slot_version. pose proof (vi_sys _ (di_versions _ Hinv)) as Hsys. pose proof (vi_current _ (di_versions _ Hinv)) as Hc.
  pose proof (so_range _ Hsys _ (so_current _ Hsys _ Hc)) as [Hr _]. destruct (slots S !! mid) as [a|] eqn:Ha; cbn [from_option]; [|lia].
  destruct (is_flushed_ a) eqn:Hf; [|rewrite (fi_fresh _ (di_flush _ Hinv) mid a Ha Hf); lia].
  destruct (fi_flushed _ (di_flush _ Hinv) mid a Ha Hf) as (n & l & _ & _ & _ & [(c & Ec & Hle)|(j & pc & b & Hj & Hv & _)]); [rewrite Hc in Ec; injection Ec as <-; done|].
  destruct (fi_locked _ (di_flush _ Hinv) j pc _ Hj Hv). congruence.
Qed.

Lemma Ref_current vs h vs' r :
  sys_ok (mkSys vs h) → current_ vs = Some (current_version_id_ vs) → ready vs →
  on_version vs (current_version_id_ vs) AtomicVersion_Ref = Ret (vs', r) → r = Some (current_version_id_ vs).
Proof.
  intros Hs Hc (a & Ha & Hcomp) (_ & a1 & h' & a' & Ha1 & E & _)%on_version_inv. rewrite Ha in Ha1. injection Ha1 as <-.
  pose proof (so_current _ Hs _ Hc) as Hin. destruct (sys_ok_lookup _ _ Hs Hin) as (v & comp & Ho & Ha' & Hr & _). cbn [sys held] in *. rewrite Ha in Ha'. injection Ha' as ->.
  cbn in Hcomp. subst comp. unfold AtomicVersion_Ref in E. cbn [version deleted is_compacting] in E.
  assert (ref_count h (current_ vs) (current_version_id_ vs) ≠ 0) as Hne.
  { unfold ref_count. rewrite decide_True by done. pose proof (held_refs_bound h (current_version_id_ vs)). lia. }
  rewrite bool_decide_eq_false_2 in E by done. cbn [negb andb] in E. apply res_bind_Ret in E as (h2 & _ & [= _ _ <-]). done.
Qed.

Lemma slot_version_get S mid a : db_inv S → get_slot (s_db S) mid = Ret a → last_version_id_ a = slot_version S mid.
Proof.
  intros Hinv. unfold get_slot, slot_version. case_decide; [|done]. intros [= <-]. by destruct (slots S !! mid).
Qed.

Lemma lookup_step_less S i g db pc :
  db_inv S → s_gets S !! i = Some g → s_mutex S = false →
  get_step U options (s_db S) (gt_key g) (hash (gt_key g)) (gt_pc g) = Ret (db, pc) →
  (steps_left (get_to S i g db pc) pc < steps_left S (gt_pc g))%nat.
Proof using All.
  intros Hinv Hg Hm E. pose proof (vi_current _ (di_versions _ Hinv)) as Hc. pose proof (vi_ready _ (di_versions _ Hinv)) as Hready. pose proof (vi_sys _ (di_versions _ Hinv)) as Hsys.
  destruct (gt_pc g) as [|mid|mid|mid r|mid|mid v|mid v|mid v l|v st x|st x] eqn:Epc; cbn [get_step] in E.
  - apply res_bind_Ret in E as (mid & _ & [= <- <-]). cbn. lia.
  - case_decide; [injection E as <- <-; cbn; lia|]. apply res_bind_Ret in E as (a & _ & E). destruct (RefMemTable a) as [a' [|]]; injection E as <- <-; cbn; lia.
  - apply res_bind_Ret in E as (a & _ & E). destruct (memtable_ a); [|done]. case_decide; [|done]. apply res_bind_Ret in E as (r & _ & [= <- <-]). cbn. lia.
  - apply res_bind_Ret in E as (a & _ & E). apply res_bind_Ret in E as (a' & _ & [= <- <-]). by destruct r; cbn; lia.
  - injection E as <- <-. cbn. rewrite decide_True by done. lia.
  - apply res_bind_Ret in E as ([vs r] & E1 & [= <- <-]). cbn [steps_left]. destruct (decide (v = current_version_id_ (vset S))) as [->|Hne].
    + pose proof (Ref_current _ _ _ _ Hsys Hc Hready E1) as ->. cbn [steps_left]. unfold slot_version. cbn. fold (slot_version S mid).
      pose proof (installed_current S mid Hinv Hm). rewrite decide_True by lia. lia.
    + destruct r as [v'|]; cbn [steps_left]; [case_decide; lia|lia].
  - apply res_bind_Ret in E as (a & Ea & E). rewrite (slot_version_get S mid a Hinv Ea) in E. cbn [steps_left]. case_decide as Hge.
    + injection E as <- <-. cbn. lia.
    + apply res_bind_Ret in E as ([vs r] & _ & [= <- <-]). cbn. lia.
  - apply res_bind_Ret in E as (o & _ & E). apply res_bind_Ret in E as ([st' x] & _ & [= <- <-]). cbn. lia.
  - apply res_bind_Ret in E as ([vs r] & _ & [= <- <-]). cbn. lia.
  - done.
Qed.

Lemma lookup_alone n : ∀ S i g,
  db_inv S → s_mutex S = false → s_gets S !! i = Some g → (steps_left S (gt_pc g) <= n)%nat →
  ∃ k S' g', (k <= n)%nat ∧ nsteps (lookup_step i) k S S' ∧ s_gets S' !! i = Some g' ∧ finished g' ∧ gt_answers g' = gt_answers g ∧ db_inv S'.
Proof using All.
  induction n as [|n IH]; intros S i g Hinv Hm Hg Hn.
  - exists 0%nat, S, g. split; [done|]. split; [constructor|]. split; [done|]. split; [|done].
    destruct (gt_pc g) as [|mid|mid|mid r|mid|mid v|mid v|mid v l|v st x|st x] eqn:Epc; cbn [steps_left] in Hn; try (exfalso; lia); try (exfalso; case_decide; lia). by exists st, x.
  - destruct (decide (steps_left S (gt_pc g) <= n)%nat) as [Hle|Hgt].
    { destruct (IH S i g Hinv Hm Hg Hle) as (k & S' & g' & Hk & H). exists k, S', g'. split; [lia|done]. }
    destruct (get_runs S i g Hinv Hg) as (db & pc & E & Hinv'); [intros st v Epc; rewrite Epc in Hgt; cbn in Hgt; lia|].
    pose proof (lookup_step_less S i g db pc Hinv Hg Hm E) as Hless.
    destruct (IH (get_to S i g db pc) i (mkGetThread (gt_key g) pc (gt_answers g)) Hinv' Hm) as (k & S' & g' & Hk & Hst & H).
    + cbn. apply list_lookup_insert_eq. by eapply lookup_lt_Some.
    + cbn [gt_pc]. lia.
    + exists (Datatypes.S k), S', g'. split; [lia|]. split; [|done]. econstructor; [|exact Hst]. exists g, db, pc. done.
Qed.
End inv.
