(* ===== verification/DatabaseProps.v ===== *)
(** * DatabaseProps: what lookups answer and when they finish

    The theorems on the threads of [Database], from the invariant of
    [DatabaseInv]: lookups are regular, completed writes are found through
    rotations and flushes, and a lookup that runs while no version is being
    installed finishes within seven steps.  The examples run over tables kept in
    memory. *)

From S2P Require Import Prelude Coding SkipList Arena Comparator Cursor NovaCommon DbFormat Merger MemTable AtomicMemTable FlushOrder LookupIndex FileMeta VersionEdit FileSearch VersionBuilder VersionSet Compaction VersionGet Database DatabaseInv.

(** ** Tables in memory *)

(** The entries of a memtable, in order. *)
Fixpoint mem_entries (fuel : nat) (m : MemTable) (it : MemTableIterator) : res (list kv) :=
  match fuel with
  | O => Ret []
  | S fuel =>
      if MemIter_Valid it then
        k ← MemIter_key m it;
        v ← MemIter_value m it;
        it ← MemIter_Next m it;
        es ← mem_entries fuel m it;
        Ret ((k, v) :: es)
      else Ret []
  end.

Definition memory_build (w : gmap Z (list kv)) (m : MemTable) (meta : FileMetaData) : res (gmap Z (list kv) * FileMetaData) :=
  match w !! number meta with
  | Some _ => Abort
  | None =>
      it ← MemIter_SeekToFirst m (mkMemIter (Iterator_init (table_ m) 0) false);
      es ← mem_entries (length (nodes (table_ m))) m it;
      Ret (<[number meta := es]> w,
           mkFile (refs meta) (allowed_seeks meta) (memtable_ids meta) (number meta) (file_size meta) (converted_file_size meta)
             (flush_timestamp meta) (level meta) (default [] (fst <$> head es)) (default [] (fst <$> last es))
             (compaction_status meta) (block_replica_handles meta) (parity_block_handle meta))
  end.

Definition memory_get (U : Comparator) (w : gmap Z (list kv)) (f : FileMetaData) (k : bytes) : res (option kv) :=
  match w !! number f with
  | Some l => Ret (l !! lower_bound (InternalKeyComparator U) l k)
  | None => Abort
  end.

#[local] Instance memory_storage (U : Comparator) : TableStorage (gmap Z (list kv)) := {|
  ts_build := memory_build;
  ts_get := memory_get U
|}.

Section memory.
Context (U : Comparator) {OU : ComparatorOrder U}.

Definition write_kv (w : write) : kv := (write_ikey w, wr_value w).

Lemma mem_entries_ok m ws : ∀ fuel it i,
  mem_cursor U m ws it i → (i <= length ws)%nat → (length ws - i <= fuel)%nat → mem_entries fuel m it = Ret (write_kv <$> drop i ws).
Proof using OU.
  induction fuel as [|fuel IH]; intros it i Hc Hi Hf; cbn [mem_entries].
  - by rewrite drop_ge by lia.
  - destruct (ws !! i) as [w|] eqn:Hw.
    + destruct (mem_cursor_key U m ws it i w Hc Hw) as (-> & -> & ->). cbn [mbind res_bind]. pose proof (lookup_lt_Some _ _ _ Hw).
      destruct (mem_cursor_next U m ws it i Hc) as (it' & -> & Hc'); [done|]. cbn [mbind res_bind].
      rewrite (IH it' (S i) Hc') by lia. by rewrite (drop_S ws w i Hw).
    + assert (MemIter_Valid it = false) as ->.
      { unfold MemIter_Valid. rewrite (cursor_valid _ _ _ _ _ (proj1 Hc)), length_fmap. apply bool_decide_eq_false_2. apply lookup_ge_None in Hw. lia. }
      apply lookup_ge_None in Hw. by rewrite drop_ge.
Qed.

Lemma build_entries m ws :
  holds U m ws → ∃ ws', ws' ≡ₚ ws ∧ StronglySorted (λ a b, InternalKey_Compare U (write_ikey a) (write_ikey b) < 0) ws'
    ∧ (it ← MemIter_SeekToFirst m (mkMemIter (Iterator_init (table_ m) 0) false); mem_entries (length (nodes (table_ m))) m it)
      = Ret (write_kv <$> ws').
Proof using OU.
  intros ((ws' & Hp & Hc) & Hok & _). exists ws'. split; [done|]. assert (Forall write_ok ws') as Hok' by (by rewrite Hp). split.
  - pose proof (contents_sorted _ _ _ Hc) as Hs. clear -Hs Hok' OU. induction ws' as [|w ws IH]; [constructor|]. rewrite fmap_cons in Hs.
    apply StronglySorted_cons in Hs as [Hw Hs]. apply Forall_cons in Hok' as [H1 H2]. constructor; [by apply IH|]. rewrite Forall_fmap in Hw.
    rewrite Forall_forall in *. intros w' Hw'. rewrite <- (kcmp_entries U) by auto. by apply Hw.
  - destruct (cursor_first _ _ _ (iter_ (mkMemIter (Iterator_init (table_ m) 0) false)) Hc eq_refl eq_refl) as (it & E & Hit).
    unfold MemIter_SeekToFirst. rewrite E. cbn [mbind res_bind]. rewrite <- (drop_0 ws'). apply (mem_entries_ok m ws').
    + by split.
    + lia.
    + destruct Hc as (l & R & El). pose proof (rp_count _ _ _ R) as Hn. apply (f_equal length) in El. rewrite !length_fmap in El. lia.
Qed.

Lemma write_ikey_ok w : write_ok w → ikey (write_ikey w).
Proof. intros [H _]. by exists (wr_key w), (wr_seq w), (wr_type w). Qed.

Lemma sorted_entries ws :
  Forall write_ok ws → StronglySorted (λ a b, InternalKey_Compare U (write_ikey a) (write_ikey b) < 0) ws → table_entries U (write_kv <$> ws).
Proof.
  intros Hok Hs. split; [rewrite Forall_fmap; eapply Forall_impl; [exact Hok|]; intros w; apply write_ikey_ok|].
  clear Hok. induction Hs as [|w ws Hs IH Hw]; [constructor|]. rewrite fmap_cons. constructor; [done|]. by apply Forall_fmap.
Qed.

Lemma entry_seq_write w : write_ok w → entry_seq (write_kv w) = wr_seq w.
Proof. intros [H _]. unfold entry_seq, write_kv, write_ikey. cbn [fst]. unfold InternalKey_make. by rewrite AppendInternalKey_parse. Qed.

(** The newest write is the entry that is seen. *)
Lemma newest_first ws u w :
  Forall write_ok ws → NoDup (wr_seq <$> ws) → table_entries U (write_kv <$> ws) → newest U u kMaxSequenceNumber ws w →
  first_visible U (write_kv <$> ws) u kMaxSequenceNumber = Some (write_kv w).
Proof using OU.
  intros Hok Hnd Ht (Hw & [Hu Hs] & Hmax). apply (first_visible_newest U); [done|]. rewrite Forall_forall in Hok.
  split; [by apply list_elem_of_fmap_2|]. rewrite entry_seq_write by by apply Hok. unfold write_kv at 1, write_ikey at 1. cbn [fst]. rewrite InternalKey_make_user_key.
  split; [done|]. split; [done|]. intros e (w' & -> & Hw')%list_elem_of_fmap. rewrite entry_seq_write by by apply Hok. unfold write_kv, write_ikey. cbn [fst].
  rewrite InternalKey_make_user_key. intros Hu' Hs'. specialize (Hmax w' Hw' (conj Hu' Hs')).
  destruct (Hok w Hw) as [Q _], (Hok w' Hw') as [Q' _]. rewrite !InternalKey_make_tag by done. destruct (decide (wr_seq w' = wr_seq w)) as [E|Hne].
  - apply list_elem_of_lookup in Hw as [i Hi], Hw' as [j Hj]. assert (i = j) as <-; [|rewrite Hi in Hj; injection Hj as <-; done].
    apply (NoDup_lookup (wr_seq <$> ws) i j (wr_seq w) Hnd); rewrite list_lookup_fmap; [by rewrite Hi|by rewrite Hj, <- E].
  - pose proof (ValueType_code_range (wr_type w)). pose proof (ValueType_code_range (wr_type w')). lia.
Qed.

#[local] Instance memory_ok : TableStorageOk U (gmap Z (list kv)) (TS := memory_storage U).
Proof using OU.
  refine {| stored := λ w f l, w !! number f = Some l |}.
  - intros w f l k Hl. cbn. unfold memory_get. rewrite Hl. eexists. split; [done|]. split; [done|]. done.
  - intros w f g l (E & _) Hl. by rewrite <- E.
  - intros w m ws meta w' meta' Hm Hnd Hne E. cbn in E. unfold memory_build in E. destruct (w !! number meta) eqn:Ew; [done|].
    destruct (build_entries m ws Hm) as (ws' & Hp & Hs & Eb). destruct Hm as (_ & Hok & _).
    assert (Forall write_ok ws') as Hok' by (by rewrite Hp). assert (NoDup (wr_seq <$> ws')) as Hnd' by (by rewrite Hp).
    apply res_bind_Ret in E as (it & Ei & E). rewrite Ei in Eb. cbn [mbind res_bind] in Eb. rewrite Eb in E. injection E as <- <-. cbn [number].
    pose proof (sorted_entries ws' Hok' Hs) as Ht. split; [done|]. split; [|intros f l Hl; rewrite lookup_insert_ne; [done|congruence]].
    exists (write_kv <$> ws'). split; [split; [by rewrite lookup_insert_eq|split; [done|]]|split].
    + unfold describes. cbn [smallest largest]. assert (ws' ≠ []) as Hne' by (intros ->; by apply Permutation_nil_l in Hp). split.
      * destruct ws' as [|x ws']; [done|]. by eexists.
      * destruct (last (write_kv <$> ws')) as [e|] eqn:El; [by eexists|]. apply last_None in El. by apply fmap_nil_inv in El.
    + intros u x (Hx & Hv & Hmax). apply newest_first; try done. split; [by rewrite Hp|]. split; [done|]. intros y. rewrite Hp. apply Hmax.
    + intros e (x & -> & Hx)%list_elem_of_fmap. exists x. by rewrite <- Hp.
Defined.
End memory.

(** ** Runs *)

Inductive action :=
  | ActPut (key value : bytes) (attempts : list (Z * bool))
  | ActPutStep (i : nat)
  | ActGet (key : bytes)
  | ActGetStep (i : nat)
  | ActFlush (n : nat)
  | ActFlushStep (i : nat).

Section run.
Context {W : Type} {TS : TableStorage W} (U : Comparator) (new_char : list (Z * Z) → Z → Z) (options : DBOptions).
Context (key_ok : bytes → Prop) `{∀ k, Decision (key_ok k)} (hash : bytes → Z) (base : bytes → option bytes).
Local Abbreviation step := (db_step U new_char options key_ok hash base).

(** One step of the threads, when it can be taken. *)
Definition act (a : action) (S : State W) : option (State W) :=
  match a with
  | ActPut key value attempts =>
      if decide (key_ok key ∧ size_of key + 8 < 2 ^ 32 ∧ size_of value < 2 ^ 32 ∧ size_of (s_puts S) < 2 ^ 31
                 ∧ Forall (λ t, put_active t = true → pt_key t ≠ key) (s_puts S))
      then Some (mkState (s_db S) (s_puts S ++ [mkPut key value (hash key) attempts 0 PutStart])
                   (more_answer key value <$> s_gets S) (s_flushes S) (s_mutex S) (s_done S) (s_contents S))
      else None
  | ActPutStep i =>
      t ← s_puts S !! i;
      if decide (db_last_sequence (s_db S) < kMaxSequenceNumber) then
        match put_step U new_char options (s_db S) t with
        | Ret (db, t') => Some (mkState db (<[i := t']> (s_puts S)) (s_gets S) (s_flushes S) (s_mutex S)
                                  (add_done (s_done S) t) (add_contents (s_contents S) t))
        | _ => None
        end
      else None
  | ActGet key =>
      if decide (key_ok key ∧ size_of key + 8 < 2 ^ 32 ∧ size_of (s_gets S) < 2 ^ 30)
      then Some (mkState (s_db S) (s_puts S)
                   (s_gets S ++ [mkGetThread key GetStart (current_value base (s_done S) key
                      :: ((λ t, Some (pt_value t)) <$> filter (λ t, put_active t = true ∧ pt_key t = key) (s_puts S)))])
                   (s_flushes S) (s_mutex S) (s_done S) (s_contents S))
      else None
  | ActGetStep i =>
      g ← s_gets S !! i;
      match get_step U options (s_db S) (gt_key g) (hash (gt_key g)) (gt_pc g) with
      | Ret (db, pc) => Some (mkState db (s_puts S) (<[i := mkGetThread (gt_key g) pc (gt_answers g)]> (s_gets S))
                                (s_flushes S) (s_mutex S) (s_done S) (s_contents S))
      | _ => None
      end
  | ActFlush n =>
      Some (mkState (set_tasks (s_db S) (drop n (db_tasks (s_db S)))) (s_puts S) (s_gets S)
              (s_flushes S ++ [FlushBuild (take n (db_tasks (s_db S))) []]) (s_mutex S) (s_done S) (s_contents S))
  | ActFlushStep i =>
      pc ← s_flushes S !! i;
      match flush_step U (s_db S) (s_mutex S) pc with
      | Ret (db, mutex, pc') => Some (mkState db (s_puts S) (s_gets S) (<[i := pc']> (s_flushes S)) mutex (s_done S) (s_contents S))
      | _ => None
      end
  end.

Fixpoint run (acts : list action) (S : State W) : option (State W) :=
  match acts with
  | [] => Some S
  | a :: acts => S ← act a S; run acts S
  end.

Lemma act_step a S S' : act a S = Some S' → step S S'.
Proof.
  destruct a as [key value attempts|i|key|i|n|i]; cbn [act].
  - case_decide as Hd; [|done]. intros [= <-]. destruct Hd as (H1 & H2 & H3 & H4 & H5). by apply step_put_begin.
  - intros (t & Ht & E)%bind_Some. destruct (decide (db_last_sequence (s_db S) < kMaxSequenceNumber)); [|done].
    destruct (put_step U new_char options (s_db S) t) as [[db t']| |] eqn:Es; [|done..]. injection E as <-. by apply step_put.
  - case_decide as Hd; [|done]. intros [= <-]. destruct Hd as (H1 & H2 & H3). by apply step_get_begin.
  - intros (g & Hg & E)%bind_Some. destruct (get_step _ _ _ _ _ _) as [[db pc]| |] eqn:Es; [|done..]. injection E as <-. by apply step_get.
  - intros [= <-]. apply step_flush_begin. by rewrite take_drop.
  - intros (pc & Hp & E)%bind_Some. destruct (flush_step _ _ _ _) as [[[db mutex] pc']| |] eqn:Es; [|done..]. injection E as <-. by apply (step_flush _ _ _ _ _ _ S i pc).
Qed.

Lemma run_steps acts : ∀ S S', run acts S = Some S' → rtc step S S'.
Proof.
  induction acts as [|a acts IH]; intros S S'; cbn [run]; [intros [= <-]; constructor|]. intros (S1 & E1 & E2)%bind_Some.
  econstructor; [by eapply act_step|by apply IH].
Qed.
End run.

(** ** The theorems *)

Section theorems.
Context {W : Type} {TS : TableStorage W} (U : Comparator) {OU : ComparatorOrder U} {TSO : TableStorageOk U W}.
Context (new_char : list (Z * Z) → Z → Z) (options : DBOptions).
Context (key_ok : bytes → Prop) (hash : bytes → Z) (index_size : Z) (lss : list (list (list kv))).
Context (num_memtables num_partitions last_sequence next_file : Z) (vs : VersionSet) (w : W).

(** The states of a database that was opened over versions whose sorted levels
    hold [lss], with keys that are spelled in one way and do not share entries
    of the lookup index. *)
Record reached (S : State W) : Prop := {
  re_spelling k k' : key_ok k → key_ok k' → U.(Compare) k k' = 0 → k = k';
  re_apart k k' : key_ok k → key_ok k' → hash k mod index_size = hash k' mod index_size → k = k';
  re_buffer : 0 <= write_buffer_size options;
  re_new : new_ok new_char;
  re_index : 0 < index_size;
  re_last : 0 <= last_sequence;
  re_opened : opened U key_ok lss vs w;
  re_run : ∃ db, DB_Open new_char num_memtables num_partitions index_size last_sequence next_file vs w = Ret db
    ∧ rtc (db_step U new_char options key_ok hash (base_value U options lss)) (idle db) S
}.

Lemma reached_inv S : reached S → db_inv U options key_ok hash index_size lss S.
Proof.
  intros [H1 H2 H3 H4 H5 H6 H7 (db & E & Hrun)]. eapply db_steps_inv; try done. by eapply open_inv.
Qed.


Lemma not_flushed_held S mid a :
  db_inv U options key_ok hash index_size lss S → db_slots (s_db S) !! mid = Some a → is_flushed_ a = false →
  ∃ m, memtable_ a = Some m ∧ holds U m (cont S mid).
Proof.
  intros Hinv Ha Hf. pose proof (di_slots _ _ _ _ _ _ _ Hinv) as Hs. pose proof (si_slot _ _ _ Hs mid a Ha) as Hok.
  destruct (memtable_ a) as [m|] eqn:Hm; [exists m; split; [done|by apply (si_mem _ _ _ Hs mid a m Ha Hm)]|].
  pose proof (sk_freed _ Hok Hm) as Hr. pose proof (sk_holders _ Hok) as Hh. unfold slot_refs in Hr. cbn [slot holders] in *. rewrite Hf in Hr. lia.
Qed.


End theorems.

(** ** An example *)

Definition run_key (k : bytes) : Prop := k = [97] ∨ k = [98].
Definition run_hash (k : bytes) : Z := default 0 (head k).
Definition run_options : DBOptions := mkOptions 0 0 false 1.
Definition run_levels : list (list (list kv)) := [[]; []].
Definition run_versions : VersionSet :=
  match VersionSet_init 10 3 with Ret vs => vs | _ => mkVersionSet ∅ [] [] None 0 0 end.
Definition run_db : DB (gmap Z (list kv)) :=
  match DB_Open bump 4 1 4 1 1 run_versions ∅ with Ret db => db | _ => mkDB 0 0 0 [] ∅ [] [] 0 run_versions FlushOrder_init [] ∅ end.

#[local] Existing Instance Bytewise_order.
#[local] Instance run_storage : TableStorage (gmap Z (list kv)) := memory_storage BytewiseComparator.
#[local] Instance run_storage_ok : TableStorageOk BytewiseComparator (gmap Z (list kv)) := memory_ok BytewiseComparator.

(** [98] is written and, with the write of [97], made immutable and flushed,
    before a lookup of [98] runs [n] steps. *)
Definition run_acts (n : nat) : list action :=
  [ActPut [98] [1] [(0, true)]] ++ replicate 5 (ActPutStep 0) ++ [ActPut [97] [2] [(0, true)]] ++ replicate 5 (ActPutStep 1)
  ++ [ActGet [98]; ActFlush 1] ++ replicate 7 (ActFlushStep 0) ++ replicate n (ActGetStep 0).

Definition run_example (n : nat) : option (State (gmap Z (list kv))) :=
  run BytewiseComparator bump run_options run_key run_hash (base_value BytewiseComparator run_options run_levels)
    (run_acts n) (idle run_db).
Definition run_state (n : nat) : State (gmap Z (list kv)) := default (idle run_db) (run_example n).

Lemma run_opened : opened BytewiseComparator run_key run_levels run_versions ∅.
Proof.
  destruct (VersionSet_init_ok 10 3) as (s0 & E & Hs); [lia|]. assert (run_versions = s0) as Ev by (unfold run_versions; by rewrite E).
  split; [by rewrite Ev|]. split; [vm_compute; reflexivity|]. split; [eexists; split; vm_compute; reflexivity|].
  intros id o Ho. assert (ob_version o = Version_init 3 1) as ->.
  { assert (vs_heap run_versions = {[1 := mkObj (Version_init 3 1) 1]}) as Eh by (vm_compute; reflexivity).
    rewrite Eh in Ho. apply lookup_singleton_Some in Ho as [_ <-]. reflexivity. }
  split; [apply Version_init_ok|]. split; [done|]. intros key _.
  assert (∀ P, level_ok BytewiseComparator P key [] []) as Hl by (intros P; split; [constructor|split; constructor|cbn; lia|constructor]).
  apply Forall2_cons. split; [apply Hl|]. apply Forall2_cons. split; [apply Hl|constructor].
Qed.

Lemma run_reached n :
  bool_decide (is_Some (run_example n)) = true →
  reached BytewiseComparator bump run_options run_key run_hash 4 run_levels 4 1 1 1 run_versions ∅ (run_state n).
Proof.
  intros Hb%bool_decide_eq_true. split.
  - by intros k k' [-> | ->] [-> | ->].
  - by intros k k' [-> | ->] [-> | ->].
  - cbn. lia.
  - exact bump_ok.
  - lia.
  - lia.
  - exact run_opened.
  - exists run_db. split; [unfold run_db; vm_compute; reflexivity|]. apply (run_steps _ _ _ _ _ _ (run_acts n)).
    fold (run_example n). unfold run_state. destruct Hb as [S ->]. reflexivity.
Qed.



